(* ===== verification/_CoqProject ===== *)
-Q . S2P
Prelude.v
Varint.v
LossyMap.v
Float16.v
Sha256.v
Heap.v
References.v
EpochList.v
BlockDevice.v
RingBuffer.v
LocationBlobMap.v
RecordArrays.v
ObjectStore.v
LeaseMarshaling.v
LocalStore.v
LocalObjectStore.v
FlatBacked.v
LeaseRecords.v
Decorators.v
Grpc.v
LeaseRenewing.v
LeaseRenewingInv.v
LeaseRenewingProofs.v
LeaseRenewingRuns.v
SchedulerState.v
SchedulerLifeCycle.v
Scheduler.v
SchedulerCalls.v
SchedulerWorkers.v
SchedulerAdmin.v
SchedulerFrames.v
SchedulerStays.v
SchedulerSpec.v
SchedulerGood.v
SchedulerGoodWorkers.v
SchedulerCorrect.v
SchedulerKeys.v
SchedulerProperties.v
SchedulerRuns.v
Text.v
Labels.v
LabelVersions.v
LabelProofs.v
Btree.v
BtreeChunks.v
BtreeBuilder.v
BtreeSearch.v
Messages.v
PatcherProofs.v
MessageProofs.v
Mirrored.v
Sharded.v
Glob.v
GlobTrie.v
GlobPattern.v
GlobMatch.v
SimpleLzw.v
HashTable.v
SimpleLzwProofs.v
Search.v
SearchTrie.v
SearchProofs.v
SearchReplace.v
