(* ===== verification/Prelude.v ===== *)
(** * Verification of the core of Bonanza

    Bonanza ([bonanza.build], Go, under [src/]) is a build system whose clients,
    scheduler and workers exchange everything through content-addressed objects:
    immutable blobs whose references carry the SHA-256 hash, the size, the height
    and the degree of the object, so that graphs of objects can be validated and
    traversed with bounded resources.  This development models the storage side
    of that design from the encodings up to stacks of decorated object stores,
    the scheduler that distributes actions to workers, and the self-contained
    algorithms that the build side relies on.

    ** Parts and how they interact

    Encodings and data structures:
    - [Prelude]: outcomes (a Go function that returns an error or panics is a
      function into [outcome]), machine integers as [Z] with their wrap-around
      written out, byte slices with checked indexing, automation;
    - [Varint]: [pkg/encoding/varint], forward, backward and streaming;
    - [Float16]: [pkg/encoding/float16], the 16-bit sizes in references;
    - [LossyMap]: [pkg/ds/lossymap], the hash table that forgets the oldest
      records, proved against the class [RecordArrayLaws] that every record array
      of the program discharges;
    - [Sha256]: the hash of the Go standard library, executable.

    Objects:
    - [References]: [pkg/storage/object/{local_reference, flat_reference,
      reference_format, contents, limit}.go], references, contents and limits.

    The local store ([pkg/storage/object/local]):
    - [EpochList] (persistent and volatile epoch lists, with the channels that
      wake up the syncer), [BlockDevice] (the device is a parameter with laws),
      [RingBuffer] and [LocationBlobMap] (both location-blob maps, with the class
      [LocationBlobMapLaws]), [RecordArrays] (both record arrays and the laws of
      epoch lists), [LocalStore] (store.go and configuration.go: the invariant
      [store_inv] that the components agree on).

    Object stores and their decorators ([pkg/storage/object]):
    - [ObjectStore]: the interface as a class over a state, and
      [ObjectStoreLaws], what a decorator may rely on; [LocalObjectStore]: the
      local store keeps the laws;
    - [Mirrored] ([mirrored]), [Sharded] ([sharded]), [FlatBacked] and
      [LeaseRecords] ([flatbacked]), [LeaseMarshaling] ([leasemarshaling]),
      [Decorators] ([readcaching], [existenceprecondition], [namespacemapping]),
      [Grpc] (the servers and the clients of [grpc], with instance names and
      namespaces).  Decorators are proved against the laws of what they wrap, and
      keep the laws where they are stores themselves, so that stacks of them are
      covered by instance resolution;
    - [LeaseRenewing] ([leaserenewing], a concurrent traversal: a step relation in
      which calls, results and goroutines interleave), its invariant
      ([LeaseRenewingInv], [LeaseRenewingProofs]) and what holds of its runs
      ([LeaseRenewingRuns]).

    Algorithms of the build side:
    - [Glob], [GlobTrie], [GlobPattern], [GlobMatch]: [pkg/glob], the compilation
      of patterns to automata, and matching;
    - [SimpleLzw], [HashTable], [SimpleLzwProofs]: [pkg/compress/simplelzw];
    - [Search], [SearchTrie], [SearchProofs], [SearchReplace]: [pkg/search], the
      search automaton over a hash table and replacement in a stream.

    The scheduler ([pkg/scheduler/in_memory_build_queue.go]):
    - [Heap]: the binary heaps of [container/heap], which its queues are;
    - [SchedulerState] (records for [invocation], [operation], [task], [worker],
      [sizeClassQueue], [platformQueue] and [InMemoryBuildQueue], with a store of
      objects per type, and the tree of invocations), [Scheduler] (tasks and
      workers), [SchedulerCalls] (cleanup, the lock, and the calls of clients),
      [SchedulerWorkers] (public keys and [Synchronize]), [SchedulerAdmin] (the
      service that inspects and changes the queue).  Every function of the file is
      one definition of the same name, in a monad of state, errors, panics and
      deadlocks.  A call that blocks is split where it releases the lock:
      [resumeDrained] and [resumeQueued] continue [Synchronize],
      [waitExecutionUpdate] and [waitExecutionEnd] continue [Execute];
    - [SchedulerLifeCycle]: an abstract specification of the life cycle.  [view] is
      what remains of the state without heaps, invocations and clocks; [life] is
      its invariant, while operations are detached, unaccounted or removed by the
      call that is going on, and [stable] is what clients may rely on between two
      states.  Every transition (a task is assigned, completed, moved to another
      size class, an operation is added, removed, ...) is shown to keep both;
    - [SchedulerFrames] (weakest preconditions, and what calls leave alone),
      [SchedulerSpec] (tasks and operations follow the life cycle), [SchedulerGood]
      and [SchedulerGoodWorkers] (all calls do, by instances of the class [Good]),
      [SchedulerCorrect] (calls as steps, reachable states, and the theorems for
      clients), [SchedulerStays] (which calls leave keys and the lock alone),
      [SchedulerKeys] (the blocks by which workers prove that they have private keys are
      current in all reachable states, also after a rotation), [SchedulerProperties]
      (stickiness, pages, deadlock), [SchedulerRuns] (a concrete environment, and runs of the scheduler in it).

    Labels ([pkg/label]):
    - [Text]: strings as bytes, the functions of [strings] that the package calls,
      and the regular expressions of its files, matched by derivatives, with
      analyses that are proved sound (which bytes may occur, begin and end a match,
      and how two languages relate);
    - [Labels]: every type of the package with its constructor, validation,
      accessors and conversions; path components are a parameter, as they belong to
      a library;
    - [LabelVersions]: module versions and their order; [LabelProofs]: labels,
      repositories and target patterns are put together and taken apart again.

    Trees of messages ([pkg/model/core/btree]):
    - [Btree]: chunkers, the builder, searches and traversals; messages, the function
      that merges nodes, and the reader of objects are parameters.  Chunkers are an
      interface ([Chunkers]);
    - [BtreeChunks]: a chunker refines [chunks], which cuts a list where a scan of the
      hashes tells, however pushes and definitive pops interleave; [BtreeBuilder]: the
      builder against any chunkers that keep [ChunkerLaws], which those of
      [BtreeChunks] do; [BtreeSearch]: searches and traversals against the list of
      leaves that a tree stands for.
    *** Messages with references: Messages, PatcherProofs, MessageProofs

    [Messages] models [pkg/model/core]: indices that messages refer to objects by are
    cells of a [heap], as patchers keep pointers to them while a message is built
    ([reference_message_patcher.go], [patched_message.go]), and the access to references
    of messages that are read ([message.go], [top_level_message.go]).  [PatcherProofs]
    has the invariant of patchers and the relation [refersTo] between a message that is
    built and what it stands for, which is what [denote] gives once indices have been
    set.  [MessageProofs] shows that messages refer to the same when they are moved, that
    objects have the height and size that patchers announce, and that sets and top-level
    messages are read as they were written.  A message is a tree of references, sets and
    other messages; parsing and marshaling are parameters, a map is visited in any order.


    ** What the theorems show

    Round trips: encodings, objects, record arrays, persistent state and
    compressed data are read back as they were written.  Safety: data that is
    returned has the hash and size that was asked for, corruption is discarded,
    bounds are never exceeded ([Panic] is an outcome, and theorems exclude it).
    Invariants: every operation of the hash map, the epoch lists and the local
    store keeps its invariant, for any state that satisfies it.  Refinement and
    equivalence: decorators against [ObjectStoreLaws], automata against patterns
    as languages, the search automaton against replacement as defined on lists.
    Termination: recursion with fuel comes with a theorem that the fuel is
    enough; where the fuel is an argument (trees), it is bounded by the nodes or the depth.  Some theorems prove that the code does not do what its comments
    say; they are listed as findings in the manifest.

    ** Bounds and fuel

    In the scheduler, [cleanupFuel] and [failAllFuel] bound loops by the number of
    objects there are, [searchLevels] and [nextQueuedTask] by the depth and the size
    of the tree; a run that exceeds them counts as a panic, about which the theorems
    on reachable states say nothing ([searchLevels_enough] shows that the search for
    idle workers does not).  Integers are kept at their width with [u8], [u16], [u32], [u64] and [i64].
    [attemptFuel] of the lossy map is 256, as attempts are a [uint8]; probing in
    [HashTable] takes the size of the table; [Sha256] and the loops over bytes
    recurse structurally; [uploadLoop] of a mirrored store takes two rounds
    ([uploadLoop_spec]).  Invariants of stores are indexed by what calls may still
    cost, as the 64-bit location space of a ring buffer is finite.

    ** What is left out

    Locks and goroutines: calls are sequential steps, except where a file says
    otherwise.  Messages of errors, metrics, logging, contexts and timeouts.
    Code outside [src/] is a parameter with named laws: block devices, clocks,
    random numbers, transports.  In the scheduler, [range] over a map visits the keys
    in the order of the model, ties in sorted listings are in the order of a stable
    sort, and the zero time is 0; floating point numbers, cryptography and the
    analyzers of size classes are parameters.  Messages of [Messages] have no fields that
    are maps, for which [addReferenceMessagesRecursively] would panic.  Not modelled: the analysis and evaluation of
    builds ([pkg/model/analysis], [pkg/model/evaluation]), Starlark
    ([pkg/starlark], [pkg/model/starlark]), the analyzers of size classes
    ([pkg/scheduler/initialsizeclass]), remote execution and workers, the command line client ([pkg/bazelclient]),
    file systems, the browser, configuration and the binaries under [cmd]; the
    manifest lists them with reasons. *)

From stdpp Require Export base tactics numbers list list_numbers option gmap.
From Stdlib Require Export ZArith Lia.


#[global] Open Scope Z_scope.

(** ** Errors and outcomes

    A Go function that returns [(T, error)] and that may panic is modelled by
    a function into [outcome T].  Error messages are not modelled, only the
    status code or the identity of the sentinel error. *)

Inductive code :=
  | CodeInvalidArgument
  | CodeNotFound
  | CodeUnavailable
  | CodeUnimplemented
  | CodeInternal
  | CodeFailedPrecondition
  | CodeResourceExhausted
  | CodeCanceled.

Inductive error :=
  | StatusError (c : code)
  | ErrRecordInvalidOrExpired
  | EOF
  | UnexpectedEOF
  | DeviceError (n : Z)
  (** An error without a status, from [errors.New] or [fmt.Errorf]. *)
  | PlainError.

Inductive outcome (A : Type) :=
  | Ok (a : A)
  | Err (e : error)
  | Panic.
Arguments Ok {A} _.
Arguments Err {A} _.
Arguments Panic {A}.

#[global] Instance code_eq_dec : EqDecision code.
Proof. solve_decision. Defined.
#[global] Instance error_eq_dec : EqDecision error.
Proof. solve_decision. Defined.

#[global] Instance outcome_ret : MRet outcome := fun A a => Ok a.
#[global] Instance outcome_bind : MBind outcome := fun A B f m =>
  match m with Ok a => f a | Err e => Err e | Panic => Panic end.
#[global] Instance outcome_fmap : FMap outcome := fun A B f m =>
  match m with Ok a => Ok (f a) | Err e => Err e | Panic => Panic end.

(** [status.Code(err)] for the errors of the model. *)
Definition status_code (e : error) : option code :=
  match e with StatusError c => Some c | _ => None end.

(** ** Machine integers

    A [w]-bit integer is a [Z]; conversions write the wrap-around out. *)

Definition u8 (v : Z) : Z := v mod 2 ^ 8.
Definition u16 (v : Z) : Z := v mod 2 ^ 16.
Definition u32 (v : Z) : Z := v mod 2 ^ 32.
Definition u64 (v : Z) : Z := v mod 2 ^ 64.

(** Two's complement reading of the low [n] bits of [v]. *)
Definition sext (n v : Z) : Z := (v + 2 ^ (n - 1)) mod 2 ^ n - 2 ^ (n - 1).
Definition i64 (v : Z) : Z := sext 64 v.

(** [x << n] on [int64] and on [uint64]. *)
Definition shl_i64 (x n : Z) : Z := i64 (Z.shiftl x n).
Definition shl_u64 (x n : Z) : Z := u64 (Z.shiftl x n).

Definition add_u64 (x y : Z) : Z := u64 (x + y).
Definition sub_u64 (x y : Z) : Z := u64 (x - y).

(** [bits.Len64] and [bits.LeadingZeros8]. *)
Definition Len64 (v : Z) : Z := if v =? 0 then 0 else Z.log2 v + 1.
Definition LeadingZeros8 (b : Z) : Z := 8 - Len64 b.

Definition is_u8 (v : Z) : Prop := 0 <= v < 2 ^ 8.
Definition is_u16 (v : Z) : Prop := 0 <= v < 2 ^ 16.
Definition is_u32 (v : Z) : Prop := 0 <= v < 2 ^ 32.
Definition is_u64 (v : Z) : Prop := 0 <= v < 2 ^ 64.

(** ** Byte slices *)

Definition bytes_ok (l : list Z) : Prop := Forall is_u8 l.

(** [src[i]], which panics when [i] is out of range. *)
Definition index {A} (l : list A) (i : Z) : outcome A :=
  if i <? 0 then Panic
  else match l !! Z.to_nat i with Some b => Ok b | None => Panic end.

(** [src[lo:hi]] for a slice whose capacity is its length. *)
Definition slice {A} (l : list A) (lo hi : Z) : outcome (list A) :=
  if (0 <=? lo) && (lo <=? hi) && (hi <=? Z.of_nat (length l))
  then Ok (take (Z.to_nat hi - Z.to_nat lo) (drop (Z.to_nat lo) l))
  else Panic.

(** [src[lo:]]. *)
Definition slice_from {A} (l : list A) (lo : Z) : outcome (list A) :=
  slice l lo (Z.of_nat (length l)).

Definition zlen {A} (l : list A) : Z := Z.of_nat (length l).

(** *** [encoding/binary] *)

Fixpoint le_bytes (n : nat) (v : Z) : list Z :=
  match n with
  | O => []
  | S n => v mod 256 :: le_bytes n (v / 256)
  end.

Fixpoint le_uint (l : list Z) : Z :=
  match l with
  | [] => 0
  | b :: l => b + 256 * le_uint l
  end.

Definition be_bytes (n : nat) (v : Z) : list Z := reverse (le_bytes n v).
Definition be_uint (l : list Z) : Z := le_uint (reverse l).

(** [ByteOrder.UintN(b)]: reads the first [n] bytes of [b], and panics when
    there are fewer. *)
Definition LittleEndian_Uint (n : nat) (l : list Z) : outcome Z :=
  if Z.of_nat n <=? zlen l then Ok (le_uint (take n l)) else Panic.
Definition BigEndian_Uint (n : nat) (l : list Z) : outcome Z :=
  if Z.of_nat n <=? zlen l then Ok (be_uint (take n l)) else Panic.

(** [ByteOrder.AppendUintN(dst, v)]. *)
Definition LittleEndian_Append (n : nat) (dst : list Z) (v : Z) : list Z :=
  dst ++ le_bytes n v.
Definition BigEndian_Append (n : nat) (dst : list Z) (v : Z) : list Z :=
  dst ++ be_bytes n v.

(** [bytes.Compare]. *)
Fixpoint bytes_compare (a b : list Z) : Z :=
  match a, b with
  | [], [] => 0
  | [], _ => -1
  | _, [] => 1
  | x :: a, y :: b =>
      if x <? y then -1 else if y <? x then 1 else bytes_compare a b
  end.

(** [copy(dst[off:], src)]: overwrites as many elements as fit. *)
Definition copy_at {A} (dst : list A) (off : nat) (src : list A) : list A :=
  take off dst ++ take (length dst - off) src ++ drop (off + length src) dst.

(** ** Automation *)

Create HintDb bonanza.
Create Rewrite HintDb bonanza_len.

Ltac case_bool :=
  match goal with
  | |- context [Z.ltb ?a ?b] => destruct (Z.ltb_spec a b)
  | |- context [Z.leb ?a ?b] => destruct (Z.leb_spec a b)
  | |- context [Z.eqb ?a ?b] => destruct (Z.eqb_spec a b)
  | |- context [Z.geb ?a ?b] => rewrite (Z.geb_leb a b)
  | |- context [Z.gtb ?a ?b] => rewrite (Z.gtb_ltb a b)
  end.

Ltac case_bools := repeat case_bool; simpl.

(** Bring booleans of the hypotheses into [Prop]. *)
Ltac boolprop :=
  repeat match goal with
  | H : _ && _ = true |- _ => apply andb_true_iff in H as [??]
  | H : _ && _ = false |- _ => apply andb_false_iff in H as [?|?]
  | H : _ || _ = true |- _ => apply orb_true_iff in H as [?|?]
  | H : _ || _ = false |- _ => apply orb_false_iff in H as [??]
  | H : negb _ = true |- _ => apply negb_true_iff in H
  | H : negb _ = false |- _ => apply negb_false_iff in H
  | H : (_ <? _) = true |- _ => apply Z.ltb_lt in H
  | H : (_ <? _) = false |- _ => apply Z.ltb_ge in H
  | H : (_ <=? _) = true |- _ => apply Z.leb_le in H
  | H : (_ <=? _) = false |- _ => apply Z.leb_gt in H
  | H : (_ =? _) = true |- _ => apply Z.eqb_eq in H
  | H : (_ =? _) = false |- _ => apply Z.eqb_neq in H
  | H : (_ >? _) = _ |- _ => rewrite Z.gtb_ltb in H
  | H : (_ >=? _) = _ |- _ => rewrite Z.geb_leb in H
  end.

(** Turn a monadic equation [x ← m; k = Ok r] into the equations of its parts. *)
Ltac outcome_inv H :=
  repeat match type of H with
  | mbind _ ?m = Ok _ => let E := fresh "E" in destruct m eqn:E; simpl in H; try discriminate H
  end.

(** Arithmetic on literals: bit operations by constants become [+], [/], [mod]. *)
Ltac literal_pow :=
  repeat match goal with
  | |- context [2 ^ ?n] =>
      let r := eval vm_compute in (2 ^ n) in change (2 ^ n) with r in *
  | |- context [256 ^ ?n] =>
      let r := eval vm_compute in (256 ^ n) in change (256 ^ n) with r in *
  end.

Ltac arith := Z.div_mod_to_equations; lia.

(** [bytes_ok] and similar predicates of literal lists. *)
Ltac literal_bytes :=
  repeat (apply Forall_cons_2; [unfold is_u8; lia|]); apply Forall_nil_2.

(** ** Lemmas *)

Lemma bytes_ok_app l k : bytes_ok (l ++ k) <-> bytes_ok l /\ bytes_ok k.
Proof. apply Forall_app. Qed.

Lemma bytes_ok_reverse l : bytes_ok (reverse l) <-> bytes_ok l.
Proof. unfold bytes_ok. by rewrite Forall_reverse. Qed.

Lemma bytes_ok_take n l : bytes_ok l -> bytes_ok (take n l).
Proof. apply Forall_take. Qed.

Lemma bytes_ok_drop n l : bytes_ok l -> bytes_ok (drop n l).
Proof. apply Forall_drop. Qed.

Lemma bytes_ok_lookup l i b : bytes_ok l -> l !! i = Some b -> 0 <= b < 256.
Proof. intros H Hi. exact (proj1 (Forall_lookup _ _) H i b Hi). Qed.

Lemma length_le_bytes n v : length (le_bytes n v) = n.
Proof. revert v. induction n; intros; simpl; congruence. Qed.

Lemma length_be_bytes n v : length (be_bytes n v) = n.
Proof. unfold be_bytes. by rewrite length_reverse, length_le_bytes. Qed.

Lemma le_bytes_ok n v : bytes_ok (le_bytes n v).
Proof.
  revert v. induction n; intros; simpl; constructor; [|apply IHn].
  unfold is_u8. change (2 ^ 8) with 256. apply Z.mod_pos_bound. lia.
Qed.

Lemma be_bytes_ok n v : bytes_ok (be_bytes n v).
Proof. apply bytes_ok_reverse, le_bytes_ok. Qed.

#[export] Hint Resolve le_bytes_ok be_bytes_ok bytes_ok_take bytes_ok_drop : bonanza.
#[export] Hint Rewrite length_le_bytes length_be_bytes : bonanza_len.

Lemma pow256_S n : 256 ^ Z.of_nat (S n) = 256 * 256 ^ Z.of_nat n.
Proof. rewrite Nat2Z.inj_succ, Z.pow_succ_r; lia. Qed.

Lemma pow256_pos n : 0 < 256 ^ Z.of_nat n.
Proof. apply Z.pow_pos_nonneg; lia. Qed.

Lemma le_uint_bytes n v : le_uint (le_bytes n v) = v mod 256 ^ Z.of_nat n.
Proof.
  revert v. induction n as [|n IH]; intros v; simpl le_uint.
  - by rewrite Z.mod_1_r.
  - rewrite IH, pow256_S, Z.rem_mul_r by (pose proof (pow256_pos n); lia). lia.
Qed.

Lemma le_uint_bound l : bytes_ok l -> 0 <= le_uint l < 256 ^ Z.of_nat (length l).
Proof.
  induction 1 as [|b l Hb _ IH]; simpl length; simpl le_uint; [done|].
  rewrite pow256_S. unfold is_u8 in Hb. change (2 ^ 8) with 256 in Hb. lia.
Qed.

Lemma le_bytes_uint l : bytes_ok l -> le_bytes (length l) (le_uint l) = l.
Proof.
  induction 1 as [|b l Hb _ IH]; simpl; [done|].
  unfold is_u8 in Hb. change (2 ^ 8) with 256 in Hb.
  rewrite (Z.mul_comm 256), Z.mod_add, Z.mod_small by lia.
  rewrite Z.div_add, Z.div_small, Z.add_0_l by lia. by rewrite IH.
Qed.

Lemma le_uint_app l k :
  le_uint (l ++ k) = le_uint l + 256 ^ Z.of_nat (length l) * le_uint k.
Proof.
  induction l as [|b l IH]; simpl le_uint; simpl length; [lia|].
  simpl app. simpl le_uint. rewrite IH, pow256_S. lia.
Qed.

Lemma be_uint_bytes n v : be_uint (be_bytes n v) = v mod 256 ^ Z.of_nat n.
Proof. unfold be_uint, be_bytes. by rewrite reverse_involutive, le_uint_bytes. Qed.

Lemma be_uint_bound l : bytes_ok l -> 0 <= be_uint l < 256 ^ Z.of_nat (length l).
Proof.
  intros H. unfold be_uint. rewrite <- (length_reverse l).
  by apply le_uint_bound, bytes_ok_reverse.
Qed.

Lemma be_uint_app l k :
  be_uint (l ++ k) = be_uint l * 256 ^ Z.of_nat (length k) + be_uint k.
Proof.
  unfold be_uint. rewrite reverse_app, le_uint_app, length_reverse. lia.
Qed.

Lemma be_uint_cons b l : be_uint (b :: l) = b * 256 ^ Z.of_nat (length l) + be_uint l.
Proof.
  change (b :: l) with ([b] ++ l). rewrite be_uint_app. f_equal. f_equal.
  unfold be_uint. rewrite reverse_singleton. simpl. lia.
Qed.

Lemma le_bytes_mod n v : le_bytes n (v mod 256 ^ Z.of_nat n) = le_bytes n v.
Proof.
  rewrite <- le_uint_bytes.
  rewrite <- (length_le_bytes n v) at 1. apply le_bytes_uint, le_bytes_ok.
Qed.

Lemma le_bytes_add n m v :
  le_bytes (n + m) v = le_bytes n v ++ le_bytes m (v / 256 ^ Z.of_nat n).
Proof.
  revert v. induction n as [|n IH]; intros v.
  - change (256 ^ Z.of_nat 0) with 1. by rewrite Z.div_1_r.
  - simpl le_bytes. simpl app. f_equal. rewrite IH. do 2 f_equal.
    rewrite pow256_S, Z.div_div by (pose proof (pow256_pos n); lia). done.
Qed.

Lemma be_bytes_add n m v :
  be_bytes (n + m) v = be_bytes n (v / 256 ^ Z.of_nat m) ++ be_bytes m v.
Proof.
  unfold be_bytes. rewrite Nat.add_comm, le_bytes_add, reverse_app. done.
Qed.

Lemma be_bytes_mod n v : be_bytes n (v mod 256 ^ Z.of_nat n) = be_bytes n v.
Proof. unfold be_bytes. by rewrite le_bytes_mod. Qed.

Lemma be_bytes_1 v : be_bytes 1 v = [v mod 256].
Proof. reflexivity. Qed.

(** *** Two's complement *)

Lemma sext_range n v : 0 < n -> - 2 ^ (n - 1) <= sext n v < 2 ^ (n - 1).
Proof.
  intros Hn. unfold sext.
  pose proof (Z.mod_pos_bound (v + 2 ^ (n - 1)) (2 ^ n)) as B.
  replace (2 ^ n) with (2 * 2 ^ (n - 1)) in *
    by (rewrite <- Z.pow_succ_r by lia; f_equal; lia).
  assert (0 < 2 ^ (n - 1)) by (apply Z.pow_pos_nonneg; lia). lia.
Qed.

Lemma sext_id n v : 0 < n -> - 2 ^ (n - 1) <= v < 2 ^ (n - 1) -> sext n v = v.
Proof.
  intros Hn Hv. unfold sext.
  replace (2 ^ n) with (2 * 2 ^ (n - 1))
    by (rewrite <- Z.pow_succ_r by lia; f_equal; lia).
  rewrite Z.mod_small by lia. lia.
Qed.

Lemma sext_mod n v : 0 < n -> sext n (v mod 2 ^ n) = sext n v.
Proof. intros Hn. unfold sext. by rewrite Z.add_mod_idemp_l by lia. Qed.

Lemma sext_add_mul n v k : 0 < n -> sext n (v + k * 2 ^ n) = sext n v.
Proof.
  intros Hn. unfold sext.
  replace (v + k * 2 ^ n + 2 ^ (n - 1)) with (v + 2 ^ (n - 1) + k * 2 ^ n) by lia.
  by rewrite Z_mod_plus_full.
Qed.

Lemma i64_shiftl x s : 0 <= s < 64 -> i64 (Z.shiftl x s) = sext (64 - s) x * 2 ^ s.
Proof.
  intros Hs. unfold i64, sext. rewrite Z.shiftl_mul_pow2 by lia.
  replace (2 ^ (64 - 1)) with (2 ^ (64 - s - 1) * 2 ^ s)
    by (rewrite <- Z.pow_add_r by lia; f_equal; lia).
  replace (2 ^ 64) with (2 ^ (64 - s) * 2 ^ s)
    by (rewrite <- Z.pow_add_r by lia; f_equal; lia).
  rewrite <- Z.mul_add_distr_r, Z.mul_mod_distr_r; lia.
Qed.

Lemma shl_shr_i64 x s t :
  0 <= t <= s -> s < 64 ->
  Z.shiftr (shl_i64 x s) t = sext (64 - s) x * 2 ^ (s - t).
Proof.
  intros Ht Hs. unfold shl_i64. rewrite i64_shiftl by lia.
  rewrite Z.shiftr_div_pow2 by lia.
  replace (2 ^ s) with (2 ^ (s - t) * 2 ^ t)
    by (rewrite <- Z.pow_add_r by lia; f_equal; lia).
  rewrite Z.mul_assoc, Z.div_mul by lia. done.
Qed.

(** [a | b] where [b] lies below the bits of [a]. *)
Lemma land_disjoint a b n :
  0 <= n -> 0 <= b < 2 ^ n -> Z.land (a * 2 ^ n) b = 0.
Proof.
  intros Hn Hb. apply Z.bits_inj'. intros i Hi.
  rewrite Z.land_spec, Z.bits_0. destruct (Z.ltb_spec i n).
  - by rewrite Z.mul_pow2_bits_low by lia.
  - rewrite <- (Z.mod_small b (2 ^ n)) by lia.
    rewrite Z.mod_pow2_bits_high by lia. apply andb_false_r.
Qed.

Lemma lor_disjoint a b n :
  0 <= n -> 0 <= b < 2 ^ n -> Z.lor (a * 2 ^ n) b = a * 2 ^ n + b.
Proof.
  intros Hn Hb. pose proof (land_disjoint a b n Hn Hb) as E.
  by rewrite <- Z.lxor_lor, <- Z.add_nocarry_lxor.
Qed.

(** The same with the operands given as numbers that are known to split. *)
Lemma lor_split n a b :
  0 <= n -> a mod 2 ^ n = 0 -> 0 <= b < 2 ^ n -> Z.lor a b = a + b.
Proof.
  intros Hn Ha Hb. apply Z.div_exact in Ha; [|lia].
  rewrite Ha, Z.mul_comm. by apply lor_disjoint.
Qed.

Lemma lor_split_r n a b :
  0 <= n -> b mod 2 ^ n = 0 -> 0 <= a < 2 ^ n -> Z.lor a b = a + b.
Proof. intros. rewrite Z.lor_comm, (lor_split n); lia. Qed.

Lemma land_mask n a m : 0 <= n -> m = 2 ^ n - 1 -> Z.land a m = a mod 2 ^ n.
Proof.
  intros Hn ->. rewrite <- Z.land_ones by lia. by rewrite Z.ones_equiv, Z.sub_1_r.
Qed.

Lemma be_uint_inj l k :
  bytes_ok l -> bytes_ok k -> length l = length k -> be_uint l = be_uint k -> l = k.
Proof.
  intros Hl Hk Hlen E. apply (inj reverse).
  rewrite <- (le_bytes_uint (reverse l)), <- (le_bytes_uint (reverse k))
    by by apply bytes_ok_reverse.
  rewrite !length_reverse, Hlen. unfold be_uint in E. by rewrite E.
Qed.

(** *** Concatenation and checked reads *)

Lemma sext_concat n m a b :
  0 < n -> 0 <= m -> 0 <= b < 2 ^ m ->
  sext (n + m) (a * 2 ^ m + b) = sext n a * 2 ^ m + b.
Proof.
  intros Hn Hm Hb. unfold sext.
  replace (2 ^ (n + m - 1)) with (2 ^ (n - 1) * 2 ^ m)
    by (rewrite <- Z.pow_add_r by lia; f_equal; lia).
  rewrite Z.pow_add_r by lia.
  replace (a * 2 ^ m + b + 2 ^ (n - 1) * 2 ^ m) with (b + (a + 2 ^ (n - 1)) * 2 ^ m) by lia.
  rewrite (Z.mul_comm (2 ^ n)), Z.rem_mul_r by lia.
  rewrite Z_mod_plus_full, Z.mod_small by lia.
  rewrite Z.div_add, Z.div_small, Z.add_0_l by lia. ring.
Qed.

Lemma sext_i64 n v : 0 < n <= 64 -> sext n (i64 v) = sext n v.
Proof.
  intros Hn. unfold i64. unfold sext at 2.
  rewrite (Z.mod_eq (v + _)) by lia.
  set (q := (v + 2 ^ (64 - 1)) / 2 ^ 64).
  replace (v + 2 ^ (64 - 1) - 2 ^ 64 * q - 2 ^ (64 - 1))
    with (v + - (2 ^ (64 - n) * q) * 2 ^ n).
  - apply sext_add_mul. lia.
  - replace (2 ^ 64) with (2 ^ (64 - n) * 2 ^ n)
      by (rewrite <- Z.pow_add_r by lia; f_equal; lia). lia.
Qed.

Lemma index_ok {A} (l : list A) i x : 0 <= i -> l !! Z.to_nat i = Some x -> index l i = Ok x.
Proof. intros Hi Hx. unfold index. destruct (Z.ltb_spec i 0); [lia|]. by rewrite Hx. Qed.

Lemma index_nat {A} (l : list A) i x : l !! i = Some x -> index l (Z.of_nat i) = Ok x.
Proof. intros Hx. apply index_ok; [lia|]. by rewrite Nat2Z.id. Qed.

Lemma slice_from_ok {A} (l : list A) lo :
  0 <= lo <= zlen l -> slice_from l lo = Ok (drop (Z.to_nat lo) l).
Proof.
  unfold zlen. intros H. unfold slice_from, slice.
  replace (_ && _ && _) with true by (symmetry; rewrite !andb_true_iff, !Z.leb_le; lia).
  rewrite take_ge; [done|]. rewrite length_drop. lia.
Qed.

Lemma BigEndian_Uint_ok n l : Z.of_nat n <= zlen l -> BigEndian_Uint n l = Ok (be_uint (take n l)).
Proof. intros H. unfold BigEndian_Uint. case_bool; [done|lia]. Qed.

Lemma LittleEndian_Uint_ok n l :
  Z.of_nat n <= zlen l -> LittleEndian_Uint n l = Ok (le_uint (take n l)).
Proof. intros H. unfold LittleEndian_Uint. case_bool; [done|lia]. Qed.

Lemma be_uint_1 b : be_uint [b] = b.
Proof. unfold be_uint. rewrite reverse_singleton. simpl. lia. Qed.

(** Goals over [land], [lor] and shifts by literals. *)
Ltac bitarith :=
  rewrite ?Z.shiftr_div_pow2 by lia;
  repeat match goal with
  | |- context [Z.land ?a ?m] =>
     let n := eval vm_compute in (Z.log2 m + 1) in
     rewrite (land_mask n a m) by (vm_compute; congruence)
  | |- context [Z.lor ?a ?m] =>
     let n := eval vm_compute in (Z.log2 m) in
     rewrite (lor_split_r n a m);
      [ | vm_compute; congruence | vm_compute; congruence | literal_pow; arith ]
  end; literal_pow; arith.

(** *** Fixed size buffers *)

Lemma copy_at_app {A} (a b b' c : list A) n :
  length a = n -> length b' = length b -> copy_at (a ++ b ++ c) n b' = a ++ b' ++ c.
Proof.
  intros <- Hlen. unfold copy_at. rewrite take_app_length. f_equal.
  rewrite !length_app. f_equal.
  - apply take_ge. lia.
  - rewrite app_assoc, drop_app_length' by (rewrite length_app; lia). done.
Qed.

Lemma length_copy_at {A} (dst : list A) off src :
  (off <= length dst)%nat -> length (copy_at dst off src) = length dst.
Proof. intros. unfold copy_at. rewrite !length_app, !length_take, length_drop. lia. Qed.

Lemma slice_app {A} (a b c : list A) lo hi :
  zlen a = lo -> lo + zlen b = hi -> slice (a ++ b ++ c) lo hi = Ok b.
Proof.
  unfold zlen. intros <- <-. unfold slice.
  destruct (Z.leb_spec 0 (Z.of_nat (length a))); [|lia].
  destruct (Z.leb_spec (Z.of_nat (length a)) (Z.of_nat (length a) + Z.of_nat (length b))); [|lia].
  destruct (Z.leb_spec (Z.of_nat (length a) + Z.of_nat (length b))
    (Z.of_nat (length (a ++ b ++ c)))); [|rewrite !length_app in *; lia].
  cbn [andb]. f_equal. rewrite drop_app_length' by lia. apply take_app_length'. lia.
Qed.

Lemma slice_prefix {A} (b c : list A) hi : zlen b = hi -> slice (b ++ c) 0 hi = Ok b.
Proof. intros H. by apply (slice_app [] b c). Qed.

Lemma slice_from_app {A} (a b : list A) lo : zlen a = lo -> slice_from (a ++ b) lo = Ok b.
Proof.
  intros H. unfold slice_from. rewrite <- (app_nil_r b) at 1. apply slice_app; [done|].
  unfold zlen in *. rewrite !length_app. simpl. lia.
Qed.

Lemma slice_Ok {A} (l k : list A) lo hi :
  slice l lo hi = Ok k ->
  exists a c, l = a ++ k ++ c /\ zlen a = lo /\ lo + zlen k = hi.
Proof.
  unfold slice, zlen. destruct (_ && _) eqn:E; [|done]. boolprop. intros [= <-].
  exists (take (Z.to_nat lo) l), (drop (Z.to_nat hi) l).
  rewrite !length_take, length_drop. split; [|lia].
  rewrite <- (take_drop (Z.to_nat lo) l) at 1. f_equal.
  rewrite <- (take_drop (Z.to_nat hi - Z.to_nat lo) (drop (Z.to_nat lo) l)) at 1. f_equal.
  rewrite drop_drop. f_equal. lia.
Qed.

Lemma slice_in_range {A} (l : list A) lo hi :
  0 <= lo <= hi -> hi <= zlen l -> exists k, slice l lo hi = Ok k /\ zlen k = hi - lo.
Proof.
  unfold zlen. intros Hlo Hhi. unfold slice.
  destruct (Z.leb_spec 0 lo); [|lia]. destruct (Z.leb_spec lo hi); [|lia].
  destruct (Z.leb_spec hi (Z.of_nat (length l))); [|lia].
  eexists. split; [done|]. rewrite length_take, length_drop. lia.
Qed.

Lemma bytes_compare_refl l : bytes_compare l l = 0.
Proof. induction l as [|x l IH]; simpl; [done|]. by rewrite Z.ltb_irrefl. Qed.

Lemma bytes_compare_eq a b : bytes_compare a b = 0 <-> a = b.
Proof.
  split; [|intros ->; apply bytes_compare_refl].
  revert b. induction a as [|x a IH]; intros [|y b]; simpl; try done.
  case_bools; [done..|]. intros E. f_equal; [lia|by apply IH].
Qed.

Lemma bytes_compare_antisym a b : bytes_compare b a = - bytes_compare a b.
Proof.
  revert b. induction a as [|x a IH]; intros [|y b]; simpl; try done. case_bools; try lia. apply IH.
Qed.

Lemma bytes_compare_trans a b c :
  bytes_compare a b < 0 -> bytes_compare b c < 0 -> bytes_compare a c < 0.
Proof.
  revert b c. induction a as [|x a IH]; intros [|y b] [|z c]; simpl; try lia.
  case_bools; try lia. apply IH.
Qed.

Lemma bytes_compare_le_trans a b c : bytes_compare a b <= 0 -> bytes_compare b c <= 0 -> bytes_compare a c <= 0.
Proof.
  intros H1 H2. destruct (Z.eq_dec (bytes_compare a b) 0) as [E1|]; [apply bytes_compare_eq in E1; by subst|].
  destruct (Z.eq_dec (bytes_compare b c) 0) as [E2|]; [apply bytes_compare_eq in E2; by subst|].
  pose proof (bytes_compare_trans a b c). lia.
Qed.

Lemma bytes_compare_values a b :
  bytes_compare a b = -1 \/ bytes_compare a b = 0 \/ bytes_compare a b = 1.
Proof.
  revert b. induction a as [|x a IH]; intros [|y b]; simpl; auto. case_bools; auto.
Qed.

Lemma bytes_ok_copy_at dst off src : bytes_ok dst -> bytes_ok src -> bytes_ok (copy_at dst off src).
Proof.
  intros Hd Hs. unfold copy_at. rewrite !bytes_ok_app. auto using bytes_ok_take, bytes_ok_drop.
Qed.

Lemma bytes_ok_concat ls : Forall bytes_ok ls -> bytes_ok (concat ls).
Proof. induction 1; simpl; [constructor|]. by apply bytes_ok_app. Qed.

Lemma nth_lookup_total (l : list Z) i : nth i l 0 = default 0 (l !! i).
Proof. apply nth_lookup. Qed.

Lemma lookup_copy_at {A} (dst src : list A) off j :
  (off + length src <= length dst)%nat ->
  copy_at dst off src !! j =
  if decide (off <= j < off + length src)%nat then src !! (j - off)%nat else dst !! j.
Proof.
  intros Hlen. unfold copy_at. rewrite (take_ge src) by lia. case_decide as Hj.
  - rewrite lookup_app_r, length_take by (rewrite length_take; lia).
    rewrite lookup_app_l by lia. f_equal. lia.
  - destruct (decide (j < off)%nat).
    + rewrite lookup_app_l by (rewrite length_take; lia). by rewrite lookup_take_lt by lia.
    + rewrite lookup_app_r, length_take by (rewrite length_take; lia).
      rewrite lookup_app_r by lia. rewrite lookup_drop. f_equal. lia.
Qed.

Lemma nth_copy_at (dst src : list Z) off j :
  (off + length src <= length dst)%nat ->
  nth j (copy_at dst off src) 0 =
  if decide (off <= j < off + length src)%nat then nth (j - off) src 0 else nth j dst 0.
Proof.
  intros Hlen. rewrite !nth_lookup_total, lookup_copy_at by done. by case_decide.
Qed.

(** Fixed size records in a byte array. *)
Lemma read_copy_same {A} (dst src : list A) off :
  (off + length src <= length dst)%nat ->
  take (length src) (drop off (copy_at dst off src)) = src.
Proof.
  intros Hlen. unfold copy_at. rewrite (take_ge src) by lia.
  rewrite drop_app_length' by (rewrite length_take; lia). by rewrite take_app_length.
Qed.

Lemma read_copy_other {A} (dst src : list A) off off' n :
  (off + length src <= length dst)%nat ->
  (off' + n <= off \/ off + length src <= off')%nat ->
  take n (drop off' (copy_at dst off src)) = take n (drop off' dst).
Proof.
  intros Hlen Hdis. apply list_eq. intros k. destruct (decide (k < n)%nat).
  - rewrite !lookup_take_lt, !lookup_drop, lookup_copy_at by lia.
    rewrite decide_False by lia. done.
  - by rewrite !lookup_take_ge by lia.
Qed.

(** [copy] stops at the end of the destination. *)
Lemma copy_at_take {A} (dst src : list A) off :
  (off <= length dst)%nat ->
  copy_at dst off src = copy_at dst off (take (Nat.min (length dst - off) (length src)) src).
Proof.
  intros Hoff. unfold copy_at. f_equal. rewrite take_take. f_equal.
  - destruct (decide (length src <= length dst - off)%nat).
    + rewrite !take_ge by lia. done.
    + f_equal. lia.
  - rewrite length_take. destruct (decide (length src <= length dst - off)%nat).
    + f_equal. lia.
    + rewrite !drop_ge by lia. done.
Qed.
