(* ===== verification/Varint.v ===== *)
(** * Variable length integers ([pkg/encoding/varint])

    [AppendForward], [ConsumeForward], [ReadForward], [AppendBackward],
    [ConsumeBackward] and [SizeBytes], each a line-by-line translation of the
    Go function, with every slice access checked ([Panic] when out of range).

    The reference definition is one formula: a value [v] that needs [n] bytes
    is the [n]-byte big-endian number [2 ^ (7 n) + v mod 2 ^ (7 n)], and a
    decoder reads [n] off the leading zero bits and sign extends the low
    [7 n] bits.  The ten cases of each Go function are proved equal to it, and
    the round trips follow from the formula. *)

From S2P Require Import Prelude.

(** ** The integer types of [constraints.Integer] *)

(** [int] is [Int64] and [uint], [uintptr] are [Uint64]: the 64-bit platforms. *)
Inductive IntKind :=
  | Int8 | Int16 | Int32 | Int64
  | Uint8 | Uint16 | Uint32 | Uint64.

#[global] Instance IntKind_eq_dec : EqDecision IntKind.
Proof. solve_decision. Defined.

(** The conversion [T(v)]. *)
Definition convert (k : IntKind) (v : Z) : Z :=
  match k with
  | Int8 => sext 8 v | Int16 => sext 16 v | Int32 => sext 32 v | Int64 => i64 v
  | Uint8 => u8 v | Uint16 => u16 v | Uint32 => u32 v | Uint64 => u64 v
  end.

(** [v] is a value of type [T]. *)
Definition in_range (k : IntKind) (v : Z) : Prop := convert k v = v.

#[global] Instance in_range_dec k v : Decision (in_range k v).
Proof. apply Z.eq_dec. Defined.

(** [isUnsigned := ^T(0) > 0]. *)
Definition isUnsigned (k : IntKind) : bool := convert k (Z.lnot 0) >? 0.

Definition pow2 (n : Z) : Z := Z.shiftl 1 n.

(** ** [forward.go] *)

Definition AppendForward (dst : list Z) (value : Z) : list Z :=
  if value <? 0 then
    let v := i64 value in
    if v >=? - pow2 6 then
      dst ++ [u8 v]
    else if v >=? - pow2 13 then
      BigEndian_Append 2 dst (Z.land (u16 v) 0x7fff)
    else if v >=? - pow2 20 then
      BigEndian_Append 2 (dst ++ [Z.land (u8 (Z.shiftr v 16)) 0x3f]) (u16 v)
    else if v >=? - pow2 27 then
      BigEndian_Append 4 dst (Z.land (u32 v) 0x1fffffff)
    else if v >=? - pow2 34 then
      BigEndian_Append 4 (dst ++ [Z.land (u8 (Z.shiftr v 32)) 0x0f]) (u32 v)
    else if v >=? - pow2 41 then
      BigEndian_Append 4
        (BigEndian_Append 2 dst (Z.land (u16 (Z.shiftr v 32)) 0x07ff)) (u32 v)
    else if v >=? - pow2 48 then
      BigEndian_Append 4
        (BigEndian_Append 2 (dst ++ [0x03]) (u16 (Z.shiftr v 32))) (u32 v)
    else if v >=? - pow2 55 then
      BigEndian_Append 8 dst (Z.land (u64 v) 0x01ffffffffffffff)
    else if v >=? - pow2 62 then
      BigEndian_Append 8 (dst ++ [0x00]) (u64 v)
    else
      BigEndian_Append 8 (dst ++ [0x00; 0x7f]) (u64 v)
  else
    let v := u64 value in
    if v <? pow2 6 then
      dst ++ [Z.lor (u8 v) 0x80]
    else if v <? pow2 13 then
      BigEndian_Append 2 dst (Z.lor (u16 v) 0x4000)
    else if v <? pow2 20 then
      BigEndian_Append 2 (dst ++ [Z.lor (u8 (Z.shiftr v 16)) 0x20]) (u16 v)
    else if v <? pow2 27 then
      BigEndian_Append 4 dst (Z.lor (u32 v) 0x10000000)
    else if v <? pow2 34 then
      BigEndian_Append 4 (dst ++ [Z.lor (u8 (Z.shiftr v 32)) 0x08]) (u32 v)
    else if v <? pow2 41 then
      BigEndian_Append 4
        (BigEndian_Append 2 dst (Z.lor (u16 (Z.shiftr v 32)) 0x0400)) (u32 v)
    else if v <? pow2 48 then
      BigEndian_Append 4
        (BigEndian_Append 2 (dst ++ [0x02]) (u16 (Z.shiftr v 32))) (u32 v)
    else if v <? pow2 55 then
      BigEndian_Append 8 dst (Z.lor v 0x0100000000000000)
    else if v <? pow2 62 then
      BigEndian_Append 8 (dst ++ [0x00]) (Z.lor v 0x8000000000000000)
    else
      BigEndian_Append 8 (dst ++ [0x00; 0x40]) v.

(** The final bounds check of the decoders, [length] being the second result
    in case of success. *)
Definition checkBounds (k : IntKind) (v length : Z) : Z * Z :=
  if isUnsigned k && (v <? 0) then (0, -1)
  else
    let converted := convert k v in
    if negb (i64 converted =? v) then (0, -1) else (converted, length).

Definition ConsumeForward (k : IntKind) (src : list Z) : outcome (Z * Z) :=
  if zlen src <? 1 then Ok (0, -1)
  else
    src0 ← index src 0;
    let leadingZeros := LeadingZeros8 src0 in
    let length := 1 + leadingZeros in
    if zlen src <? length then Ok (0, -1)
    else
      match leadingZeros with
      | 0 =>
          Ok (checkBounds k (Z.shiftr (shl_i64 src0 57) 57) length)
      | 1 =>
          w ← BigEndian_Uint 2 src;
          Ok (checkBounds k (Z.shiftr (shl_i64 w 50) 50) length)
      | 2 =>
          src1 ← slice_from src 1;
          w ← BigEndian_Uint 2 src1;
          Ok (checkBounds k (Z.lor (Z.shiftr (shl_i64 src0 59) 43) w) length)
      | 3 =>
          w ← BigEndian_Uint 4 src;
          Ok (checkBounds k (Z.shiftr (shl_i64 w 36) 36) length)
      | 4 =>
          src1 ← slice_from src 1;
          w ← BigEndian_Uint 4 src1;
          Ok (checkBounds k (Z.lor (Z.shiftr (shl_i64 src0 61) 29) w) length)
      | 5 =>
          h ← BigEndian_Uint 2 src;
          src2 ← slice_from src 2;
          w ← BigEndian_Uint 4 src2;
          Ok (checkBounds k (Z.lor (Z.shiftr (shl_i64 h 54) 22) w) length)
      | 6 =>
          src1 ← slice_from src 1;
          h ← BigEndian_Uint 2 src1;
          src3 ← slice_from src 3;
          w ← BigEndian_Uint 4 src3;
          Ok (checkBounds k
            (Z.lor (Z.lor (Z.shiftr (shl_i64 src0 63) 15) (shl_i64 h 32)) w) length)
      | 7 =>
          w ← BigEndian_Uint 8 src;
          Ok (checkBounds k (Z.shiftr (shl_i64 (i64 w) 8) 8) length)
      | 8 =>
          b1 ← index src 1;
          let leadingZeros := LeadingZeros8 b1 in
          let length := length + leadingZeros in
          if zlen src <? length then Ok (0, -1)
          else if leadingZeros =? 0 then
            src1 ← slice_from src 1;
            w ← BigEndian_Uint 8 src1;
            Ok (checkBounds k (Z.shiftr (shl_i64 (i64 w) 1) 1) length)
          else if isUnsigned k && (b1 =? 0x40) then
            src2 ← slice_from src 2;
            v ← BigEndian_Uint 8 src2;
            let converted := convert k v in
            if negb (u64 converted =? v) then Ok (0, -1)
            else Ok (converted, length)
          else
            b2 ← index src 2;
            if (negb (isUnsigned k) && ((b1 =? 0x40) && (b2 <? 0x80)))
                || ((b1 =? 0x7f) && (b2 >=? 0x80)) then
              src2 ← slice_from src 2;
              w ← BigEndian_Uint 8 src2;
              Ok (checkBounds k (i64 w) length)
            else Ok (0, -1)
      | _ => Ok (checkBounds k 0 length)
      end.

(** *** [ReadForward]

    An [io.ByteReader] is the list of the results of its successive
    [ReadByte()] calls; once the list is exhausted it reports [io.EOF].  A
    failing call still returns a byte, whose value the interface leaves
    undefined. *)
Definition ByteReader := list (Z * option error).

Definition ReadByte (r : ByteReader) : Z * option error * ByteReader :=
  match r with
  | [] => (0, Some EOF, [])
  | (b, err) :: r => (b, err, r)
  end.

(** The reads after the first one, which only look for [io.EOF]. *)
Definition readMore (r : ByteReader) : outcome (Z * ByteReader) :=
  let '(b, err, r) := ReadByte r in
  if decide (err = Some EOF) then Err UnexpectedEOF else Ok (b, r).

(** [for i := 0; i < length; i++ { b = ReadByte(); v = v<<8 | uint64(b) }] *)
Fixpoint readUint64 (length : nat) (v : Z) (r : ByteReader) : outcome (Z * ByteReader) :=
  match length with
  | O => Ok (v, r)
  | S length =>
      '(b, r) ← readMore r;
      readUint64 length (Z.lor (shl_u64 v 8) b) r
  end.

(** The same loop on an [int64] accumulator. *)
Fixpoint readInt64 (length : nat) (v : Z) (r : ByteReader) : outcome (Z * ByteReader) :=
  match length with
  | O => Ok (v, r)
  | S length =>
      '(b, r) ← readMore r;
      readInt64 length (Z.lor (shl_i64 v 8) b) r
  end.

(** Lines 279 to 299: sign extend the first byte, read the others. *)
Definition readTail (k : IntKind) (leadingZeros length b : Z) (r : ByteReader)
    : outcome (Z * ByteReader) :=
  let shift := 64 - 7 + leadingZeros in
  let v := Z.shiftr (shl_i64 b shift) shift in
  '(v, r) ← readInt64 (Z.to_nat length) v r;
  if isUnsigned k && (v <? 0) then Err (StatusError CodeInvalidArgument)
  else
    let converted := convert k v in
    if negb (i64 converted =? v) then Err (StatusError CodeInvalidArgument)
    else Ok (converted, r).

Definition ReadForward (k : IntKind) (r : ByteReader) : outcome (Z * ByteReader) :=
  let '(b, err, r) := ReadByte r in
  match err with
  | Some err => Err err
  | None =>
      let leadingZeros := LeadingZeros8 b in
      let length := leadingZeros in
      if leadingZeros =? 8 then
        '(b, r) ← readMore r;
        let length := length - 1 in
        let leadingZeros := LeadingZeros8 b in
        let length := length + leadingZeros in
        if leadingZeros =? 0 then readTail k leadingZeros length b r
        else if isUnsigned k && (b =? 0x40) then
          '(v, r) ← readUint64 (Z.to_nat length) 0 r;
          let converted := convert k v in
          if negb (u64 converted =? v) then Err (StatusError CodeInvalidArgument)
          else Ok (converted, r)
        else if negb (isUnsigned k) && ((b =? 0x40) || (b =? 0x7f)) then
          let positive := b =? 0x40 in
          '(b, r) ← readMore r;
          let length := length - 1 in
          if (positive && (b >=? 0x80)) || (negb positive && (b <? 0x80))
          then Err (StatusError CodeInvalidArgument)
          else readTail k (-1) length b r
        else Err (StatusError CodeInvalidArgument)
      else readTail k leadingZeros length b r
  end.

(** ** [backward.go] *)

Definition AppendBackward (dst : list Z) (value : Z) : list Z :=
  if value <? 0 then
    let v := i64 value in
    if v >=? - pow2 6 then
      dst ++ [u8 v]
    else if v >=? - pow2 13 then
      LittleEndian_Append 2 dst (Z.land (u16 v) 0x7fff)
    else if v >=? - pow2 20 then
      LittleEndian_Append 2 dst (u16 v) ++ [Z.land (u8 (Z.shiftr v 16)) 0x3f]
    else if v >=? - pow2 27 then
      LittleEndian_Append 4 dst (Z.land (u32 v) 0x1fffffff)
    else if v >=? - pow2 34 then
      LittleEndian_Append 4 dst (u32 v) ++ [Z.land (u8 (Z.shiftr v 32)) 0x0f]
    else if v >=? - pow2 41 then
      LittleEndian_Append 2 (LittleEndian_Append 4 dst (u32 v))
        (Z.land (u16 (Z.shiftr v 32)) 0x07ff)
    else if v >=? - pow2 48 then
      LittleEndian_Append 2 (LittleEndian_Append 4 dst (u32 v))
        (u16 (Z.shiftr v 32)) ++ [0x03]
    else if v >=? - pow2 55 then
      LittleEndian_Append 8 dst (Z.land (u64 v) 0x01ffffffffffffff)
    else if v >=? - pow2 62 then
      LittleEndian_Append 8 dst (u64 v) ++ [0x00]
    else
      LittleEndian_Append 8 dst (u64 v) ++ [0x7f; 0x00]
  else
    let v := u64 value in
    if v <? pow2 6 then
      dst ++ [Z.lor (u8 v) 0x80]
    else if v <? pow2 13 then
      LittleEndian_Append 2 dst (Z.lor (u16 v) 0x4000)
    else if v <? pow2 20 then
      LittleEndian_Append 2 dst (u16 v) ++ [Z.lor (u8 (Z.shiftr v 16)) 0x20]
    else if v <? pow2 27 then
      LittleEndian_Append 4 dst (Z.lor (u32 v) 0x10000000)
    else if v <? pow2 34 then
      LittleEndian_Append 4 dst (u32 v) ++ [Z.lor (u8 (Z.shiftr v 32)) 0x08]
    else if v <? pow2 41 then
      LittleEndian_Append 2 (LittleEndian_Append 4 dst (u32 v))
        (Z.lor (u16 (Z.shiftr v 32)) 0x0400)
    else if v <? pow2 48 then
      LittleEndian_Append 2 (LittleEndian_Append 4 dst (u32 v))
        (u16 (Z.shiftr v 32)) ++ [0x02]
    else if v <? pow2 55 then
      LittleEndian_Append 8 dst (Z.lor v 0x0100000000000000)
    else if v <? pow2 62 then
      LittleEndian_Append 8 dst (Z.lor v 0x8000000000000000) ++ [0x00]
    else
      LittleEndian_Append 8 dst v ++ [0x40; 0x00].

(** [src[len(src)-i:]] and [src[len(src)-i]]. *)
Definition tail_from (src : list Z) (i : Z) : outcome (list Z) :=
  slice_from src (zlen src - i).
Definition tail_index (src : list Z) (i : Z) : outcome Z :=
  index src (zlen src - i).

Definition ConsumeBackward (k : IntKind) (src : list Z) : outcome (Z * Z) :=
  if zlen src <? 1 then Ok (0, -1)
  else
    last1 ← tail_index src 1;
    let leadingZeros := LeadingZeros8 last1 in
    let length := 1 + leadingZeros in
    if zlen src <? length then Ok (0, -1)
    else
      match leadingZeros with
      | 0 =>
          Ok (checkBounds k (Z.shiftr (shl_i64 last1 57) 57) length)
      | 1 =>
          s ← tail_from src 2;
          w ← LittleEndian_Uint 2 s;
          Ok (checkBounds k (Z.shiftr (shl_i64 w 50) 50) length)
      | 2 =>
          s ← tail_from src 3;
          w ← LittleEndian_Uint 2 s;
          Ok (checkBounds k (Z.lor (Z.shiftr (shl_i64 last1 59) 43) w) length)
      | 3 =>
          s ← tail_from src 4;
          w ← LittleEndian_Uint 4 s;
          Ok (checkBounds k (Z.shiftr (shl_i64 w 36) 36) length)
      | 4 =>
          s ← tail_from src 5;
          w ← LittleEndian_Uint 4 s;
          Ok (checkBounds k (Z.lor (Z.shiftr (shl_i64 last1 61) 29) w) length)
      | 5 =>
          s2 ← tail_from src 2;
          h ← LittleEndian_Uint 2 s2;
          s ← tail_from src 6;
          w ← LittleEndian_Uint 4 s;
          Ok (checkBounds k (Z.lor (Z.shiftr (shl_i64 h 54) 22) w) length)
      | 6 =>
          s3 ← tail_from src 3;
          h ← LittleEndian_Uint 2 s3;
          s ← tail_from src 7;
          w ← LittleEndian_Uint 4 s;
          Ok (checkBounds k
            (Z.lor (Z.lor (Z.shiftr (shl_i64 last1 63) 15) (shl_i64 h 32)) w) length)
      | 7 =>
          s ← tail_from src 8;
          w ← LittleEndian_Uint 8 s;
          Ok (checkBounds k (Z.shiftr (shl_i64 (i64 w) 8) 8) length)
      | 8 =>
          b1 ← tail_index src 2;
          let leadingZeros := LeadingZeros8 b1 in
          let length := length + leadingZeros in
          if zlen src <? length then Ok (0, -1)
          else if leadingZeros =? 0 then
            s ← tail_from src 9;
            w ← LittleEndian_Uint 8 s;
            Ok (checkBounds k (Z.shiftr (shl_i64 (i64 w) 1) 1) length)
          else if isUnsigned k && (b1 =? 0x40) then
            s ← tail_from src 10;
            v ← LittleEndian_Uint 8 s;
            let converted := convert k v in
            if negb (u64 converted =? v) then Ok (0, -1)
            else Ok (converted, length)
          else
            b2 ← tail_index src 3;
            if (negb (isUnsigned k) && ((b1 =? 0x40) && (b2 <? 0x80)))
                || ((b1 =? 0x7f) && (b2 >=? 0x80)) then
              s ← tail_from src 10;
              w ← LittleEndian_Uint 8 s;
              Ok (checkBounds k (i64 w) length)
            else Ok (0, -1)
      | _ => Ok (checkBounds k 0 length)
      end.

(** ** [size_bytes.go] *)

Definition SizeBytes (value : Z) : Z :=
  let v := if value <? 0 then u64 (Z.lnot (i64 value)) else u64 value in
  Len64 v / 7 + 1.

(** ** The reference definition *)

(** The values an [int64] or a [uint64] can hold. *)
Definition encodable (v : Z) : Prop := - 2 ^ 63 <= v < 2 ^ 64.

Definition encode (n : nat) (v : Z) : list Z :=
  be_bytes n (2 ^ (7 * Z.of_nat n) + v mod 2 ^ (7 * Z.of_nat n)).

(** The number of bytes announced by the first two bytes. *)
Definition announced (src : list Z) : option Z :=
  match src with
  | [] => None
  | b0 :: rest =>
      if b0 =? 0 then
        match rest with [] => None | b1 :: _ => Some (9 + LeadingZeros8 b1) end
      else Some (1 + LeadingZeros8 b0)
  end.

Definition decode (k : IntKind) (src : list Z) : option (Z * Z) :=
  match announced src with
  | None => None
  | Some n =>
      if decide (n <= 10 /\ n <= zlen src) then
        let v := sext (7 * n) (be_uint (take (Z.to_nat n) src)) in
        if decide (in_range k v) then Some (v, n) else None
      else None
  end.

Definition decode_result (r : option (Z * Z)) : Z * Z := default (0, -1) r.

(** A reader that yields the given bytes and then [io.EOF]. *)
Definition reader (src : list Z) : ByteReader := (fun b => (b, None)) <$> src.

(** ** Lemmas *)

Lemma Len64_le m j : 0 <= m -> 0 <= j -> Len64 m <= j <-> m < 2 ^ j.
Proof.
  intros Hm Hj. unfold Len64. destruct (Z.eqb_spec m 0) as [->|Hne].
  - split; [|lia]. intros _. apply Z.pow_pos_nonneg; lia.
  - rewrite (Z.log2_lt_pow2 m j) by lia. lia.
Qed.

Lemma Len64_nonneg m : 0 <= m -> 0 <= Len64 m.
Proof.
  intros. unfold Len64. case_bool; [lia|]. pose proof (Z.log2_nonneg m). lia.
Qed.

Lemma LeadingZeros8_spec b n :
  0 <= n <= 7 -> 2 ^ (7 - n) <= b < 2 ^ (8 - n) -> LeadingZeros8 b = n.
Proof.
  intros Hn Hb. assert (0 < 2 ^ (7 - n)) by (apply Z.pow_pos_nonneg; lia).
  unfold LeadingZeros8. pose proof (Len64_le b (8 - n)). pose proof (Len64_le b (7 - n)).
  lia.
Qed.

Lemma LeadingZeros8_bounds b :
  0 < b < 256 ->
  0 <= LeadingZeros8 b <= 7 /\
  2 ^ (7 - LeadingZeros8 b) <= b < 2 ^ (8 - LeadingZeros8 b).
Proof.
  intros Hb. pose proof (Len64_le b 8) as H8. change (2 ^ 8) with 256 in H8.
  pose proof (Len64_le b 0) as H0. change (2 ^ 0) with 1 in H0.
  pose proof (Len64_nonneg b).
  unfold LeadingZeros8 in *. split; [lia|].
  replace (7 - (8 - Len64 b)) with (Len64 b - 1) by lia.
  replace (8 - (8 - Len64 b)) with (Len64 b) by lia.
  pose proof (Len64_le b (Len64 b)). pose proof (Len64_le b (Len64 b - 1)). lia.
Qed.

(** The magnitude whose length [SizeBytes] measures. *)
Lemma SizeBytes_magnitude v :
  encodable v -> SizeBytes v = Len64 (if v <? 0 then - v - 1 else v) / 7 + 1.
Proof.
  intros Hv. unfold encodable in Hv. unfold SizeBytes. do 2 f_equal.
  case_bool; f_equal; unfold u64, i64, Z.lnot.
  - rewrite sext_id by lia. rewrite Z.mod_small; lia.
  - rewrite Z.mod_small; lia.
Qed.

Lemma SizeBytes_unique v n :
  encodable v -> 1 <= n ->
  - 2 ^ (7 * n - 1) <= v < 2 ^ (7 * n - 1) ->
  (n = 1 \/ ~ - 2 ^ (7 * n - 8) <= v < 2 ^ (7 * n - 8)) ->
  SizeBytes v = n.
Proof.
  intros He Hn Hv Hmin. rewrite SizeBytes_magnitude by done.
  set (m := if v <? 0 then - v - 1 else v).
  assert (0 <= m < 2 ^ (7 * n - 1)) as Hm by (subst m; case_bool; lia).
  assert (n = 1 \/ 2 ^ (7 * n - 8) <= m) as Hm' by (subst m; case_bool; lia).
  pose proof (Len64_nonneg m). pose proof (Len64_le m (7 * n - 1)).
  pose proof (Len64_le m (7 * n - 8)).
  assert (7 * (n - 1) <= Len64 m <= 7 * n - 1) by lia.
  Z.div_mod_to_equations. lia.
Qed.

Lemma be_bytes_cong n a b :
  a mod 256 ^ Z.of_nat n = b mod 256 ^ Z.of_nat n -> be_bytes n a = be_bytes n b.
Proof. intros H. by rewrite <- be_bytes_mod, H, be_bytes_mod. Qed.

Ltac encode_case :=
  unfold BigEndian_Append, encode, u8, u16, u32, u64; rewrite <- ?app_assoc; f_equal;
  apply be_uint_inj;
  [ repeat first [ apply bytes_ok_app; split | apply be_bytes_ok
                 | constructor; [unfold is_u8; bitarith|] | constructor ]
  | apply be_bytes_ok
  | reflexivity
  | rewrite ?be_uint_app, ?be_uint_cons, ?be_uint_bytes, ?length_app, ?length_be_bytes;
    change (be_uint []) with 0; cbn [length Nat.add]; bitarith ].


Ltac size_case v n :=
  rewrite (SizeBytes_unique v n);
  [ change (Z.to_nat n) with (ltac:(let r := eval vm_compute in (Z.to_nat n) in exact r))
  | done | vm_compute; congruence | literal_pow; lia | literal_pow; lia ].

Lemma AppendForward_encode dst v :
  encodable v -> AppendForward dst v = dst ++ encode (Z.to_nat (SizeBytes v)) v.
Proof.
  intros Hv. pose proof Hv as [Hlo Hhi]. unfold AppendForward.
  destruct (Z.ltb_spec v 0).
  - replace (i64 v) with v by (symmetry; apply sext_id; lia). cbv zeta.
    repeat match goal with |- (if v >=? - pow2 ?n then _ else _) = _ =>
        change (pow2 n) with (2 ^ n); rewrite Z.geb_leb; destruct (Z.leb_spec (- 2 ^ n) v);
        [ let m := eval vm_compute in ((n + 1) / 7) in size_case v m; encode_case | ] end.
    size_case v 10. encode_case.
  - replace (u64 v) with v by (symmetry; apply Z.mod_small; lia). cbv zeta.
    repeat match goal with |- (if v <? pow2 ?n then _ else _) = _ =>
        change (pow2 n) with (2 ^ n); destruct (Z.ltb_spec v (2 ^ n));
        [ let m := eval vm_compute in ((n + 1) / 7) in size_case v m; encode_case | ] end.
    size_case v 10. encode_case.
Qed.

(** *** The decoder *)

Lemma isUnsigned_convert k : isUnsigned k = true -> forall v, 0 <= convert k v.
Proof.
  intros Hk v; destruct k; try discriminate Hk; simpl; apply Z.mod_pos_bound; lia.
Qed.

Lemma checkBounds_spec k v n :
  - 2 ^ 63 <= v < 2 ^ 63 ->
  checkBounds k v n = if decide (in_range k v) then (v, n) else (0, -1).
Proof.
  intros Hv. unfold checkBounds, in_range.
  destruct (isUnsigned k) eqn:Hk; simpl.
  - pose proof (isUnsigned_convert k Hk v).
    destruct (Z.ltb_spec v 0).
    { rewrite decide_False by lia. done. }
    assert (i64 (convert k v) = convert k v) as ->.
    { apply sext_id; [lia|].
      pose proof (Z.mod_pos_bound v (2^8)). pose proof (Z.mod_pos_bound v (2^16)).
      pose proof (Z.mod_pos_bound v (2^32)). pose proof (Z.mod_small v (2^64)).
      destruct k; try discriminate Hk; simpl; unfold u8, u16, u32, u64; lia. }
    case_bool; case_decide; simpl; congruence.
  - assert (i64 (convert k v) = convert k v) as ->.
    { apply sext_id; [lia|].
      pose proof (sext_range 8 v). pose proof (sext_range 16 v). 
      pose proof (sext_range 32 v). pose proof (sext_range 64 v).
      destruct k; try discriminate Hk; simpl; unfold i64; lia. }
    case_bool; case_decide; simpl; congruence.
Qed.

Lemma in_range_bounds k v :
  in_range k v ->
  encodable v /\ (isUnsigned k = true -> 0 <= v) /\ (isUnsigned k = false -> v < 2 ^ 63).
Proof.
  unfold in_range, encodable. intros H.
  pose proof (Z.mod_pos_bound v (2^8)). pose proof (Z.mod_pos_bound v (2^16)).
  pose proof (Z.mod_pos_bound v (2^32)). pose proof (Z.mod_pos_bound v (2^64)).
  pose proof (sext_range 8 v). pose proof (sext_range 16 v).
  pose proof (sext_range 32 v). pose proof (sext_range 64 v).
  destruct k; cbn [convert] in H; unfold u8, u16, u32, u64, i64 in H;
    (split; [lia|split; intros Hk; first [discriminate Hk|lia]]).
Qed.

Lemma announced_nz b0 rest n :
  0 <= n <= 7 -> 2 ^ (7 - n) <= b0 < 2 ^ (8 - n) ->
  LeadingZeros8 b0 = n /\ announced (b0 :: rest) = Some (1 + n).
Proof.
  intros Hn Hb. assert (0 < 2 ^ (7 - n)) by (apply Z.pow_pos_nonneg; lia).
  pose proof (LeadingZeros8_spec b0 n Hn Hb) as E. split; [done|].
  simpl. destruct (Z.eqb_spec b0 0); [lia|]. by rewrite E.
Qed.

(** The value the decoder computes for [n] announced bytes. *)
Lemma decode_case k src n v :
  announced src = Some n -> n <= 10 -> n <= zlen src -> - 2 ^ 63 <= v < 2 ^ 63 ->
  v = sext (7 * n) (be_uint (take (Z.to_nat n) src)) ->
  Ok (checkBounds k v n) = Ok (decode_result (decode k src)).
Proof.
  intros Ha Hn Hlen Hv E. f_equal. rewrite checkBounds_spec by done.
  unfold decode, decode_result. rewrite Ha. cbv zeta. rewrite <- E.
  destruct (decide (n <= 10 /\ n <= zlen src)); [|lia]. by case_decide.
Qed.

Lemma decode_case_small k src n v :
  announced src = Some n -> 1 <= n <= 9 -> n <= zlen src ->
  v = sext (7 * n) (be_uint (take (Z.to_nat n) src)) ->
  Ok (checkBounds k v n) = Ok (decode_result (decode k src)).
Proof.
  intros Ha Hn Hlen E. apply decode_case; try done; try lia.
  pose proof (sext_range (7 * n) (be_uint (take (Z.to_nat n) src))) as B.
  pose proof (Z.pow_le_mono_r 2 (7 * n - 1) 63). lia.
Qed.

Lemma decode_none k src n :
  announced src = Some n -> 
  n > 10 \/ zlen src < n \/ ~ in_range k (sext (7 * n) (be_uint (take (Z.to_nat n) src))) ->
  Ok (0, -1) = Ok (decode_result (decode k src)).
Proof.
  intros Ha Hlen. unfold decode, decode_result. rewrite Ha.
  case_decide; [|done]. rewrite decide_False; [done|]. destruct Hlen as [?|[?|?]]; [lia|lia|done].
Qed.

Ltac destruct_n n rest H :=
  match n with
  | O => idtac
  | S ?m => let b := fresh "b" in
      destruct rest as [|b rest]; [exfalso; unfold zlen in H; simpl in H; lia|];
      destruct_n m rest H
  end.

Ltac bytes_facts :=
  repeat match goal with
  | H : bytes_ok (_ :: _) |- _ => unfold bytes_ok in H
  | H : Forall is_u8 (_ :: _) |- _ =>
      let H1 := fresh "Hb" in
      apply Forall_cons in H as [H1 H]; unfold is_u8 in H1
  end.

Ltac eval_reads :=
  repeat ((first [rewrite slice_from_ok | rewrite BigEndian_Uint_ok | rewrite LittleEndian_Uint_ok];
     [|unfold zlen; simpl; lia]);
    cbn [mbind outcome_bind]; simpl drop; simpl take; rewrite ?take_0).

Ltac be_bound :=
  match goal with
  | |- 0 <= be_uint ?l < _ =>
      pose proof (be_uint_bound l) as B; simpl length in B; literal_pow;
      change (2 ^ 8) with 256 in *; apply B; repeat constructor; unfold is_u8; lia
  end.

Lemma ConsumeForward_decode_nz k b0 rest n :
  bytes_ok (b0 :: rest) -> 0 <= n <= 7 -> 2 ^ (7 - n) <= b0 < 2 ^ (8 - n) -> 
  ConsumeForward k (b0 :: rest) = Ok (decode_result (decode k (b0 :: rest))).
Proof.
  intros Hok Hn Hb. destruct (announced_nz b0 rest n Hn Hb) as [E Ha].
  unfold ConsumeForward.
  destruct (Z.ltb_spec (zlen (b0 :: rest)) 1) as [H|_]; [unfold zlen in H; simpl in H; lia|].
  rewrite (index_ok _ 0 b0) by done. cbn [mbind outcome_bind]. cbv zeta. rewrite E.
  destruct (Z.ltb_spec (zlen (b0 :: rest)) (1 + n)) as [?|Hlen].
  { apply (decode_none k _ (1 + n)); [done|lia]. }
  assert (n = 0 \/ n = 1 \/ n = 2 \/ n = 3 \/ n = 4 \/ n = 5 \/ n = 6 \/ n = 7) as Hcases by lia.
  destruct Hcases as [->|[->|[->|[->|[->|[->|[->| ->]]]]]]].
  - apply decode_case_small; [done|lia|done|].
    rewrite shl_shr_i64 by lia. change (take _ _) with [b0].
    rewrite be_uint_1, Z.sub_diag, Z.pow_0_r, Z.mul_1_r. done.
  - destruct_n 1%nat rest Hlen. eval_reads. apply decode_case_small; [done|lia|done|].
    rewrite shl_shr_i64 by lia. rewrite Z.sub_diag, Z.pow_0_r, Z.mul_1_r. done.
  - destruct_n 2%nat rest Hlen. eval_reads. apply decode_case_small; [done|lia|done|].
    bytes_facts. rewrite shl_shr_i64 by lia. rewrite (lor_disjoint _ _ 16); [|lia|be_bound].
    simpl take. rewrite ?take_0. rewrite (be_uint_cons b0). symmetry. apply (sext_concat 5 16); [lia|lia|be_bound].
  - destruct_n 3%nat rest Hlen. eval_reads. apply decode_case_small; [done|lia|done|].
    rewrite shl_shr_i64 by lia. rewrite Z.sub_diag, Z.pow_0_r, Z.mul_1_r. done.
  - destruct_n 4%nat rest Hlen. eval_reads. apply decode_case_small; [done|lia|done|].
    bytes_facts. rewrite shl_shr_i64 by lia. rewrite (lor_disjoint _ _ 32); [|lia|be_bound].
    simpl take. rewrite ?take_0. rewrite (be_uint_cons b0). symmetry. apply (sext_concat 3 32); [lia|lia|be_bound].
  - destruct_n 5%nat rest Hlen. eval_reads. apply decode_case_small; [done|lia|done|].
    bytes_facts. rewrite shl_shr_i64 by lia. rewrite (lor_disjoint _ _ 32); [|lia|be_bound].
    simpl take. rewrite ?take_0. change [b0;b;b1;b2;b3;b4] with ([b0;b] ++ [b1;b2;b3;b4]).
    rewrite be_uint_app. symmetry. apply (sext_concat 10 32); [lia|lia|be_bound].
  - destruct_n 6%nat rest Hlen. eval_reads. apply decode_case_small; [done|lia|done|].
    bytes_facts. rewrite shl_shr_i64 by lia.
    assert (0 <= be_uint [b;b1] < 2 ^ 16) by be_bound.
    assert (0 <= be_uint [b2;b3;b4;b5] < 2 ^ 32) by be_bound.
    unfold shl_i64. rewrite i64_shiftl, (sext_id (64 - 32)) by lia.
    rewrite (lor_disjoint _ _ 48) by lia.
    rewrite (lor_split 32); [|lia|literal_pow; arith|lia].
    simpl take. rewrite ?take_0. rewrite (be_uint_cons b0). change [b;b1;b2;b3;b4;b5] with ([b;b1] ++ [b2;b3;b4;b5]).
    rewrite be_uint_app, <- (Z.add_assoc (_ * 2 ^ 48)).
    symmetry. apply (sext_concat 1 48); [lia|lia|].
    simpl length. literal_pow. lia.
  - destruct_n 7%nat rest Hlen. eval_reads. apply decode_case_small; [done|lia|done|].
    rewrite shl_shr_i64 by lia. rewrite sext_i64, Z.sub_diag, Z.pow_0_r, Z.mul_1_r by lia. done.
Qed.

Lemma in_range_signed k v :
  isUnsigned k = false -> in_range k v -> - 2 ^ 63 <= v < 2 ^ 63.
Proof. intros Hk H. apply in_range_bounds in H as ([??]&?&?). auto. Qed.

Lemma in_range_unsigned k v :
  isUnsigned k = true -> in_range k v -> 0 <= v < 2 ^ 64.
Proof. intros Hk H. apply in_range_bounds in H as ([??]&?&?). auto. Qed.

Lemma u64_convert k v :
  isUnsigned k = true -> 0 <= v < 2 ^ 64 -> u64 (convert k v) = v <-> in_range k v.
Proof.
  intros Hk Hv. unfold in_range.
  enough (u64 (convert k v) = convert k v) as -> by done.
  pose proof (Z.mod_pos_bound v (2^8)). pose proof (Z.mod_pos_bound v (2^16)).
  pose proof (Z.mod_pos_bound v (2^32)). pose proof (Z.mod_pos_bound v (2^64)).
  destruct k; try discriminate Hk; unfold u64; cbn [convert]; unfold u8, u16, u32, u64;
    apply Z.mod_small; lia.
Qed.

(** The second byte of a sequence that starts with a zero byte. *)
Lemma LeadingZeros8_cases b :
  0 <= b < 2 ^ 8 ->
  (128 <= b /\ LeadingZeros8 b = 0) \/ (64 <= b < 128 /\ LeadingZeros8 b = 1) \/
  (b < 64 /\ 2 <= LeadingZeros8 b <= 8).
Proof.
  intros Hb. destruct (Z.ltb_spec b 128); [|left; split; [lia|apply LeadingZeros8_spec; lia]].
  destruct (Z.ltb_spec b 64); [|right; left; split; [lia|apply LeadingZeros8_spec; lia]].
  right; right. split; [done|]. destruct (Z.eqb_spec b 0) as [->|Hnz]; [done|].
  destruct (LeadingZeros8_bounds b) as [? [Hlo _]]; [lia|]. split; [|lia].
  destruct (Z.leb_spec 2 (LeadingZeros8 b)) as [|Hlt]; [done|].
  pose proof (Z.pow_le_mono_r 2 6 (7 - LeadingZeros8 b)). lia.
Qed.

(** The 70-bit value of a ten byte sequence [0 :: b1 :: ...]. *)
Lemma sext_70 b1 W :
  64 <= b1 < 128 -> 0 <= W < 2 ^ 64 ->
  sext 70 (b1 * 2 ^ 64 + W) =
    if b1 <? 96 then (b1 - 64) * 2 ^ 64 + W else (b1 - 128) * 2 ^ 64 + W.
Proof.
  intros Hb HW. case_bool.
  - replace (b1 * 2 ^ 64 + W) with ((b1 - 64) * 2 ^ 64 + W + 1 * 2 ^ 70) by lia.
    rewrite sext_add_mul, sext_id by lia. done.
  - replace (b1 * 2 ^ 64 + W) with ((b1 - 128) * 2 ^ 64 + W + 2 * 2 ^ 70) by lia.
    rewrite sext_add_mul, sext_id by lia. done.
Qed.

(** An unsigned 64-bit word with top byte [b], read as an [int64]. *)
Lemma i64_word b W' :
  0 <= b < 2 ^ 8 -> 0 <= W' < 2 ^ 56 ->
  i64 (b * 2 ^ 56 + W') =
    if b <? 128 then b * 2 ^ 56 + W' else b * 2 ^ 56 + W' - 2 ^ 64.
Proof.
  intros Hb HW. unfold i64. case_bool; [by apply sext_id; lia|].
  replace (b * 2 ^ 56 + W') with (b * 2 ^ 56 + W' - 2 ^ 64 + 1 * 2 ^ 64) at 1 by lia.
  rewrite sext_add_mul, sext_id by lia. done.
Qed.

(** Evaluate [ConsumeForward k (0 :: b1 :: rest)] up to the second length check. *)
Ltac enter_long Hlen :=
  unfold ConsumeForward;
  match goal with |- context [zlen ?l <? 1] =>
    destruct (Z.ltb_spec (zlen l) 1) as [Hlt|_]; [unfold zlen in *; simpl in *; lia|] end;
  rewrite (index_ok _ 0 0) by done; cbn [mbind outcome_bind]; cbv zeta;
  change (LeadingZeros8 0) with 8; change (1 + 8) with 9;
  match goal with |- context [zlen ?l <? 9] =>
    destruct (Z.ltb_spec (zlen l) 9) as [Hlt|_]; [unfold zlen in *; simpl in *; lia|] end;
  match goal with |- context [index (_ :: ?b1 :: _) 1] =>
    rewrite (index_ok _ 1 b1) by done end; cbn [mbind outcome_bind].

Lemma ConsumeForward_short k rest :
  zlen rest < 8 ->
  ConsumeForward k (0 :: rest) = Ok (0, -1) /\ decode k (0 :: rest) = None \/
  exists b, rest = b :: drop 1 rest /\ LeadingZeros8 b < 0.
Proof.
  intros Hlen. destruct (Z.ltb_spec (match rest with b :: _ => LeadingZeros8 b | _ => 0 end) 0).
  { destruct rest as [|b rest]; [lia|]. right. exists b. done. }
  left. split.
  - unfold ConsumeForward. unfold zlen in *. simpl length.
    destruct (Z.ltb_spec (Z.of_nat (S (length rest))) 1); [lia|].
    rewrite (index_ok _ 0 0) by done. cbn [mbind outcome_bind]. cbv zeta.
    change (LeadingZeros8 0) with 8.
    destruct (Z.ltb_spec (Z.of_nat (S (length rest))) (1 + 8)); [done|lia].
  - unfold decode. destruct rest as [|b rest]; [done|]. cbn [announced Z.eqb].
    unfold zlen in *. simpl length in *. rewrite decide_False by lia. done.
Qed.

Lemma ConsumeForward_decode_9 k b1 rest :
  bytes_ok (b1 :: rest) -> 7 <= zlen rest -> LeadingZeros8 b1 = 0 ->
  ConsumeForward k (0 :: b1 :: rest) = Ok (decode_result (decode k (0 :: b1 :: rest))).
Proof.
  intros Hok Hlen E. enter_long Hlen. rewrite E. change (9 + 0) with 9.
  destruct (Z.ltb_spec (zlen (0 :: b1 :: rest)) 9) as [Hlt|Hlen9];
    [unfold zlen in *; simpl in *; lia|].
  destruct_n 7%nat rest Hlen. cbn [Z.eqb]. eval_reads.
  apply decode_case_small; [cbn [announced Z.eqb]; by rewrite E|lia|done|].
  rewrite shl_shr_i64 by lia. rewrite sext_i64, Z.sub_diag, Z.pow_0_r, Z.mul_1_r by lia.
  change (take _ _) with [0; b1; b; b0; b2; b3; b4; b5; b6].
  rewrite (be_uint_cons 0), Z.mul_0_l, Z.add_0_l. done.
Qed.

Lemma ConsumeForward_decode_11 k b1 rest :
  bytes_ok (b1 :: rest) -> 7 <= zlen rest -> b1 < 64 -> 2 <= LeadingZeros8 b1 ->
  ConsumeForward k (0 :: b1 :: rest) = Ok (decode_result (decode k (0 :: b1 :: rest))).
Proof.
  intros Hok Hlen Hb E. enter_long Hlen.
  assert (Ok (0, -1) = Ok (decode_result (decode k (0 :: b1 :: rest)))) as <-.
  { apply (decode_none k _ (9 + LeadingZeros8 b1)); [done|lia]. }
  destruct (Z.ltb_spec (zlen (0 :: b1 :: rest)) (9 + LeadingZeros8 b1)) as [?|_]; [done|].
  destruct_n 1%nat rest Hlen. rewrite (index_ok _ 2 b) by done. cbn [mbind outcome_bind].
  destruct (Z.eqb_spec (LeadingZeros8 b1) 0); [lia|].
  destruct (Z.eqb_spec b1 64), (Z.eqb_spec b1 127); try lia. by destruct (isUnsigned k).
Qed.

Lemma decode_10 k src v :
  announced src = Some 10 -> 10 <= zlen src ->
  sext 70 (be_uint (take (Z.to_nat 10) src)) = v ->
  decode k src = if decide (in_range k v) then Some (v, 10) else None.
Proof.
  intros Ha Hlen E. unfold decode. rewrite Ha, decide_True by lia. cbv zeta.
  change (7 * 10) with 70. by rewrite E.
Qed.

(** The two switch cases for ten byte sequences against the 70-bit value. *)
Section ten_bytes.
Context (k : IntKind) (b1 b W' : Z).
Hypothesis Hb1 : 64 <= b1 < 128.
Hypothesis Hb : 0 <= b < 2 ^ 8.
Hypothesis HW' : 0 <= W' < 2 ^ 56.

Let W := b * 2 ^ 56 + W'.
Let V := if b1 <? 96 then (b1 - 64) * 2 ^ 64 + W else (b1 - 128) * 2 ^ 64 + W.

Lemma ten_bytes_unsigned :
  isUnsigned k = true -> b1 = 64 ->
  (if negb (u64 (convert k W) =? W) then (0, -1) else (convert k W, 10)) =
  if decide (in_range k V) then (V, 10) else (0, -1).
Proof.
  intros Hk E. assert (V = W) as -> by (unfold V; case_bool; lia).
  pose proof (u64_convert k W Hk) as HU.
  destruct (Z.eqb_spec (u64 (convert k W)) W) as [Hin|Hin]; simpl.
  - assert (in_range k W) as Hr by (apply HU; [lia|done]).
    rewrite decide_True by done. by rewrite Hr.
  - rewrite decide_False; [done|]. intros Hr. apply Hin, HU; [lia|done].
Qed.

Lemma ten_bytes_signed :
  negb (isUnsigned k) && ((b1 =? 64) && (b <? 128)) || (b1 =? 127) && (b >=? 128) = true ->
  checkBounds k (i64 W) 10 = if decide (in_range k V) then (V, 10) else (0, -1).
Proof.
  intros Hc. pose proof (i64_word b W' Hb HW') as EI. fold W in EI.
  assert (i64 W = V) as <- by (unfold V; rewrite EI; boolprop; subst; case_bools; lia).
  apply checkBounds_spec. rewrite EI. case_bool; lia.
Qed.

Lemma ten_bytes_rejected :
  isUnsigned k && (b1 =? 64) = false ->
  negb (isUnsigned k) && ((b1 =? 64) && (b <? 128)) || (b1 =? 127) && (b >=? 128) = false ->
  ~ in_range k V.
Proof.
  intros H1 H2 Hin. unfold V in Hin. destruct (isUnsigned k) eqn:Hk; simpl in *.
  - apply in_range_unsigned in Hin; [|done]. boolprop; revert Hin; case_bool; lia.
  - apply in_range_signed in Hin; [|done]. boolprop; revert Hin; case_bool; lia.
Qed.
End ten_bytes.

Lemma ConsumeForward_decode_10 k b1 b rest :
  bytes_ok (b1 :: b :: rest) -> 6 <= zlen rest -> 64 <= b1 < 128 ->
  ConsumeForward k (0 :: b1 :: b :: rest) =
    Ok (decode_result (decode k (0 :: b1 :: b :: rest))).
Proof.
  intros Hok Hlen6 Hb1. assert (LeadingZeros8 b1 = 1) as E by (apply LeadingZeros8_spec; lia).
  assert (7 <= zlen (b :: rest)) as Hlen' by (unfold zlen in *; simpl; lia).
  assert (0 <= b < 2 ^ 8) as Hb by by apply Forall_inv_tail, Forall_inv in Hok.
  enter_long Hlen'. rewrite E. change (9 + 1) with 10. cbn [Z.eqb].
  destruct (Z.ltb_spec (zlen (0 :: b1 :: b :: rest)) 10) as [Hlt|Hlen].
  { apply (decode_none k _ 10); [cbn [announced Z.eqb]; by rewrite E|lia]. }
  rewrite (index_ok _ 2 b) by done. destruct_n 7%nat rest Hlen. bytes_facts.
  pose (W' := be_uint [b0; b2; b3; b4; b5; b6; b7]).
  assert (be_uint [b; b0; b2; b3; b4; b5; b6; b7] = b * 2 ^ 56 + W') as EW
    by apply (be_uint_cons b).
  assert (0 <= W' < 2 ^ 56) as HW' by (unfold W'; be_bound).
  erewrite (decode_10 k); [|cbn [announced Z.eqb]; by rewrite E|done|].
  2: { change (take _ _) with [0; b1; b; b0; b2; b3; b4; b5; b6; b7].
       rewrite (be_uint_cons 0), Z.mul_0_l, Z.add_0_l, (be_uint_cons b1), EW.
       apply sext_70; lia. }
  cbn [mbind outcome_bind]. eval_reads. rewrite !EW. clearbody W'.
  destruct (isUnsigned k && (b1 =? 64)) eqn:H1.
  - boolprop. pose proof (ten_bytes_unsigned k b1 b W' Hb HW' ltac:(done) ltac:(done)) as HT.
    destruct (negb _); f_equal; rewrite HT; by case_decide.
  - match goal with |- context [if ?c then Ok (checkBounds _ _ _) else _] => destruct c eqn:H2 end.
    + f_equal. rewrite (ten_bytes_signed k b1 b W') by done. by case_decide.
    + rewrite decide_False; [done|]. by apply ten_bytes_rejected.
Qed.

Lemma ConsumeForward_decode k src :
  bytes_ok src -> ConsumeForward k src = Ok (decode_result (decode k src)).
Proof.
  intros Hok. destruct src as [|b0 rest]; [done|].
  pose proof (Forall_inv Hok) as Hb0. unfold is_u8 in Hb0.
  destruct (Z.eqb_spec b0 0) as [->|Hnz].
  2: { destruct (LeadingZeros8_bounds b0) as [Hn Hb]; [lia|].
       by apply (ConsumeForward_decode_nz k b0 rest (LeadingZeros8 b0)). }
  apply Forall_inv_tail in Hok. destruct (Z.ltb_spec (zlen rest) 8) as [Hlen|Hlen].
  { destruct (ConsumeForward_short k rest Hlen) as [[-> ->]|(b&E&Hb)]; [done|exfalso].
    rewrite E in Hok. apply Forall_inv in Hok. unfold is_u8 in Hok.
    destruct (LeadingZeros8_cases b Hok) as [[]|[[]|[]]]; lia. }
  destruct rest as [|b1 [|b rest]]; [unfold zlen in Hlen; simpl in Hlen; lia..|].
  assert (7 <= zlen (b :: rest)) by (unfold zlen in *; simpl in *; lia).
  destruct (LeadingZeros8_cases b1 (Forall_inv Hok)) as [[? ?]|[[? ?]|[? ?]]].
  - by apply ConsumeForward_decode_9.
  - apply ConsumeForward_decode_10; [done|unfold zlen in *; simpl in *; lia|done].
  - apply ConsumeForward_decode_11; (done || lia).
Qed.

(** *** Round trip of the reference definition *)

Lemma SizeBytes_range v :
  encodable v ->
  1 <= SizeBytes v <= 10 /\
  - 2 ^ (7 * SizeBytes v - 1) <= v < 2 ^ (7 * SizeBytes v - 1).
Proof.
  intros Hv. rewrite SizeBytes_magnitude by done. unfold encodable in Hv.
  set (m := if v <? 0 then - v - 1 else v).
  assert (0 <= m < 2 ^ 64) as Hm by (subst m; case_bool; lia).
  pose proof (Len64_nonneg m). pose proof (Len64_le m 64).
  set (n := Len64 m / 7 + 1). assert (1 <= n <= 10 /\ Len64 m <= 7 * n - 1) as [Hn Hle].
  { subst n. Z.div_mod_to_equations. lia. }
  split; [done|]. apply Len64_le in Hle; [|lia..]. subst m. revert Hle. case_bool; lia.
Qed.

Lemma encode_number n v :
  2 ^ (7 * Z.of_nat n) <= 2 ^ (7 * Z.of_nat n) + v mod 2 ^ (7 * Z.of_nat n)
    < 2 * 2 ^ (7 * Z.of_nat n).
Proof. pose proof (Z.mod_pos_bound v (2 ^ (7 * Z.of_nat n))). lia. Qed.

Lemma announced_encode n v rest :
  (1 <= n <= 10)%nat -> announced (encode n v ++ rest) = Some (Z.of_nat n).
Proof.
  intros Hn. unfold encode. pose proof (encode_number n v) as HX.
  revert HX. generalize (2 ^ (7 * Z.of_nat n) + v mod 2 ^ (7 * Z.of_nat n)). intros X HX.
  destruct n as [|n]; [lia|].
  change (S n) with (1 + n)%nat. rewrite be_bytes_add, be_bytes_1.
  assert ((n <= 7 \/ n = 8 \/ n = 9)%nat) as [Hle|[-> | ->]] by lia.
  - set (b := _ mod 256). assert (2 ^ (7 - Z.of_nat n) <= b < 2 ^ (8 - Z.of_nat n)) as Hb.
    { subst b. do 8 (destruct n as [|n]; [literal_pow; arith|]). lia. }
    simpl app. destruct (announced_nz b (be_bytes n X ++ rest) (Z.of_nat n)) as [_ ->];
      [lia|done|f_equal; lia].
  - assert (X / 256 ^ Z.of_nat 8 mod 256 = 0) as -> by (literal_pow; arith).
    change 8%nat with (1 + 7)%nat. rewrite be_bytes_add, be_bytes_1. simpl app.
    cbn [announced Z.eqb]. rewrite (LeadingZeros8_spec _ 0); [done|lia|literal_pow; arith].
  - assert (X / 256 ^ Z.of_nat 9 mod 256 = 0) as -> by (literal_pow; arith).
    change 9%nat with (1 + 8)%nat. rewrite be_bytes_add, be_bytes_1. simpl app.
    cbn [announced Z.eqb]. rewrite (LeadingZeros8_spec _ 1); [done|lia|literal_pow; arith].
Qed.

Lemma decode_encode k n v rest :
  (1 <= n <= 10)%nat -> in_range k v ->
  - 2 ^ (7 * Z.of_nat n - 1) <= v < 2 ^ (7 * Z.of_nat n - 1) ->
  decode k (encode n v ++ rest) = Some (v, Z.of_nat n).
Proof.
  intros Hn Hk Hv. unfold decode. rewrite announced_encode by done.
  assert (length (encode n v) = n) as Hlen by apply length_be_bytes.
  rewrite decide_True by (unfold zlen; rewrite length_app; lia). cbv zeta.
  rewrite Nat2Z.id, take_app_length' by done. unfold encode.
  rewrite be_uint_bytes, Z.mod_small.
  2: { pose proof (encode_number n v). change 256 with (2 ^ 8). rewrite <- Z.pow_mul_r by lia.
       assert (2 * 2 ^ (7 * Z.of_nat n) <= 2 ^ (8 * Z.of_nat n)).
       { rewrite <- Z.pow_succ_r by lia. apply Z.pow_le_mono_r; lia. }
       lia. }
  assert (sext (7 * Z.of_nat n) (2 ^ (7 * Z.of_nat n) + v mod 2 ^ (7 * Z.of_nat n)) = v) as ->.
  { rewrite Z.add_comm. rewrite <- (Z.mul_1_l (2 ^ (7 * Z.of_nat n))) at 2.
    by rewrite sext_add_mul, sext_mod, sext_id by lia. }
  by rewrite decide_True by done.
Qed.

Lemma ConsumeForward_AppendForward k v rest :
  in_range k v -> bytes_ok rest ->
  ConsumeForward k (AppendForward [] v ++ rest) = Ok (v, zlen (AppendForward [] v)).
Proof.
  intros Hk Hrest. destruct (in_range_bounds k v Hk) as [Hv _].
  destruct (SizeBytes_range v Hv) as [Hn Hr].
  rewrite AppendForward_encode by done. rewrite app_nil_l.
  rewrite ConsumeForward_decode by (apply bytes_ok_app; split; [apply be_bytes_ok|done]).
  rewrite decode_encode by (rewrite ?Z2Nat.id; (done || lia)).
  unfold zlen, encode. by rewrite length_be_bytes.
Qed.

Lemma AppendForward_ok v : encodable v -> bytes_ok (AppendForward [] v) /\ 0 < zlen (AppendForward [] v).
Proof.
  intros Hv. destruct (SizeBytes_range v Hv) as [Hn _]. rewrite AppendForward_encode by done.
  rewrite app_nil_l. split; [apply be_bytes_ok|]. unfold zlen, encode. rewrite length_be_bytes. lia.
Qed.

(** Every input gives a value of the type with the bytes it takes, or -1. *)
Lemma ConsumeForward_total k src :
  bytes_ok src -> exists v n, ConsumeForward k src = Ok (v, n) /\
    (n = -1 \/ (0 <= n <= zlen src /\ in_range k v)).
Proof.
  intros Hok. rewrite ConsumeForward_decode by done. destruct (decode k src) as [[v n]|] eqn:E.
  - exists v, n. split; [done|]. right. unfold decode in E.
    destruct (announced src) as [m|] eqn:Ea; [|done]. case_decide as Hd; [destruct Hd|done].
    cbv zeta in E. case_decide; [|done]. injection E as <- <-. split; [|done]. split; [|done].
    unfold announced in Ea. destruct src as [|b0 rest]; [done|].
    assert (forall b, is_u8 b -> 0 <= LeadingZeros8 b) as Hlz.
    { intros b Hb. unfold LeadingZeros8. pose proof (Len64_le b 8). unfold is_u8 in Hb. lia. }
    inversion Hok as [|?? Hb0 Hrest]; subst. destruct (b0 =? 0).
    + destruct rest as [|b1 rest]; [done|]. injection Ea as <-. inversion Hrest; subst.
      pose proof (Hlz b1 ltac:(done)). lia.
    + injection Ea as <-. pose proof (Hlz b0 Hb0). lia.
  - exists 0, (-1). split; [done|by left].
Qed.

(** *** The backward encoding *)

Lemma tail_index_reverse src i :
  1 <= i <= zlen src -> tail_index src i = index (reverse src) (i - 1).
Proof.
  unfold zlen. intros Hi. unfold tail_index, index, zlen.
  destruct (Z.ltb_spec (Z.of_nat (length src) - i) 0); [lia|].
  destruct (Z.ltb_spec (i - 1) 0); [lia|].
  rewrite reverse_lookup by lia.
  by replace (Z.to_nat (Z.of_nat (length src) - i)) with (length src - S (Z.to_nat (i - 1)))%nat by lia.
Qed.

Lemma tail_from_ok src m :
  0 <= m <= zlen src -> tail_from src m = Ok (reverse (take (Z.to_nat m) (reverse src))).
Proof.
  unfold zlen. intros Hm. unfold tail_from.
  rewrite slice_from_ok by (unfold zlen; lia). f_equal.
  rewrite take_reverse, reverse_involutive. f_equal. unfold zlen. lia.
Qed.

(** Reading [n] bytes that start [m] bytes before the end. *)
Lemma LittleEndian_Uint_tail src n m :
  Z.of_nat n <= m <= zlen src ->
  LittleEndian_Uint n (reverse (take (Z.to_nat m) (reverse src))) =
  Ok (be_uint (take n (drop (Z.to_nat m - n) (reverse src)))).
Proof.
  unfold zlen. intros Hm. rewrite LittleEndian_Uint_ok.
  2: { unfold zlen. rewrite length_reverse, length_take, length_reverse. lia. }
  f_equal. unfold be_uint. f_equal.
  rewrite take_reverse, length_take, length_reverse, Nat.min_l by lia.
  rewrite take_drop_commute. by replace (Z.to_nat m - n + n)%nat with (Z.to_nat m) by lia.
Qed.

Ltac tail_reads :=
  rewrite ?tail_from_ok by (unfold zlen in *; lia); cbn [mbind outcome_bind];
  rewrite ?LittleEndian_Uint_tail by lia; cbn [mbind outcome_bind].

Ltac reverse_reads :=
  repeat ((first [rewrite slice_from_ok | rewrite BigEndian_Uint_ok];
    [|unfold zlen in *; rewrite ?length_drop, ?length_reverse; lia]);
    cbn [mbind outcome_bind]).

Lemma index_byte l i b : bytes_ok l -> index l i = Ok b -> 0 <= b < 2 ^ 8.
Proof.
  intros Hok. unfold index. case_bool; [done|].
  destruct (l !! Z.to_nat i) as [b'|] eqn:E; [|done]. intros [= ->].
  by apply (bytes_ok_lookup l _ b Hok E).
Qed.

Lemma LeadingZeros8_byte b :
  0 <= b < 2 ^ 8 -> exists n, (n <= 8)%nat /\ LeadingZeros8 b = Z.of_nat n.
Proof.
  intros Hb. exists (Z.to_nat (LeadingZeros8 b)).
  destruct (Z.eqb_spec b 0) as [->|Hnz]; [vm_compute; lia|].
  destruct (LeadingZeros8_bounds b); lia.
Qed.

Ltac literal_nat :=
  match goal with |- context [Z.of_nat ?n] =>
    let r := eval vm_compute in (Z.of_nat n) in change (Z.of_nat n) with r in * end;
  cbv iota beta.

Lemma ConsumeBackward_forward k src :
  bytes_ok src -> ConsumeBackward k src = ConsumeForward k (reverse src).
Proof.
  intros Hok. unfold ConsumeBackward, ConsumeForward.
  replace (zlen (reverse src)) with (zlen src) by (unfold zlen; by rewrite length_reverse).
  destruct (Z.ltb_spec (zlen src) 1) as [|Hlen]; [done|].
  rewrite (tail_index_reverse src 1) by lia. change (1 - 1) with 0.
  apply bytes_ok_reverse in Hok.
  destruct (reverse src) as [|b0 rest] eqn:Er; [done|]. rewrite (index_ok _ 0 b0) by done.
  cbn [mbind outcome_bind]. cbv zeta. rewrite <- Er.
  destruct (LeadingZeros8_byte b0 (Forall_inv Hok)) as (n&Hn&E). rewrite E.
  destruct (Z.ltb_spec (zlen src) (1 + Z.of_nat n)) as [|Hlen']; [done|].
  do 8 (destruct n as [|n];
    [literal_nat; tail_reads; reverse_reads; reflexivity|]).
  destruct n as [|n]; [|lia]. literal_nat.
  rewrite (tail_index_reverse src 2), (tail_index_reverse src 3) by lia.
  change (2 - 1) with 1. change (3 - 1) with 2.
  rewrite <- Er in Hok. destruct (index (reverse src) 1) as [b1| |] eqn:E1; [|done..].
  apply index_byte in E1; [|done]. destruct (LeadingZeros8_byte b1 E1) as (m&_&Em). cbn [mbind outcome_bind].
  destruct (Z.ltb_spec (zlen src) (1 + 8 + LeadingZeros8 b1)) as [|Hlen10]; [done|].
  destruct (Z.eqb_spec (LeadingZeros8 b1) 0) as [|Hnz]; [tail_reads; reverse_reads; reflexivity|].
  assert (10 <= zlen src) by lia. tail_reads; reverse_reads; reflexivity.
Qed.

Lemma AppendBackward_forward dst v :
  AppendBackward dst v = dst ++ reverse (AppendForward [] v).
Proof.
  unfold AppendBackward, AppendForward, LittleEndian_Append, BigEndian_Append, be_bytes. cbv zeta.
  repeat match goal with |- context [if ?c then _ else _] => destruct c end;
    rewrite ?app_nil_l, ?reverse_app, ?reverse_involutive, ?app_assoc; reflexivity.
Qed.

(** *** Reading from a stream *)

Lemma readInt64_ok n m v src :
  0 < m -> m + 8 * Z.of_nat n <= 64 -> - 2 ^ (m - 1) <= v < 2 ^ (m - 1) ->
  bytes_ok src -> (n <= length src)%nat ->
  readInt64 n v (reader src) =
    Ok (v * 256 ^ Z.of_nat n + be_uint (take n src), reader (drop n src)).
Proof.
  revert m v src. induction n as [|n IH]; intros m v src Hm Hmn Hv Hok Hlen.
  - simpl. rewrite Z.mul_1_r, take_0. change (be_uint []) with 0. by rewrite Z.add_0_r.
  - destruct src as [|b src]; [simpl in Hlen; lia|]. simpl in Hlen. apply Forall_cons in Hok as [Hb Hok].
    cbn [readInt64]. change (readMore (reader (b :: src))) with (Ok (b, reader src)).
    cbn [mbind outcome_bind]. unfold is_u8 in Hb. change (2 ^ 8) with 256 in Hb.
    assert (2 ^ (m + 8 - 1) = 256 * 2 ^ (m - 1)) as Hp.
    { replace (m + 8 - 1) with (8 + (m - 1)) by lia. rewrite Z.pow_add_r by lia. done. }
    assert (shl_i64 v 8 = v * 2 ^ 8) as ->.
    { unfold shl_i64. rewrite i64_shiftl, sext_id; try lia.
      pose proof (Z.pow_le_mono_r 2 (m - 1) (64 - 8 - 1)). lia. }
    rewrite lor_disjoint by lia. rewrite (IH (m + 8)); try done; try lia.
    do 2 f_equal. cbn [take]. rewrite be_uint_cons, pow256_S, length_take_le by lia. lia.
Qed.

Lemma readUint64_ok n v src :
  0 <= v -> v * 256 ^ Z.of_nat n + 256 ^ Z.of_nat n <= 2 ^ 64 ->
  bytes_ok src -> (n <= length src)%nat ->
  readUint64 n v (reader src) =
    Ok (v * 256 ^ Z.of_nat n + be_uint (take n src), reader (drop n src)).
Proof.
  revert v src. induction n as [|n IH]; intros v src Hv Hmn Hok Hlen.
  - simpl. rewrite Z.mul_1_r, take_0. change (be_uint []) with 0. by rewrite Z.add_0_r.
  - destruct src as [|b src]; [simpl in Hlen; lia|]. simpl in Hlen. apply Forall_cons in Hok as [Hb Hok].
    cbn [readUint64]. change (readMore (reader (b :: src))) with (Ok (b, reader src)).
    cbn [mbind outcome_bind]. unfold is_u8 in Hb. change (2 ^ 8) with 256 in Hb.
    rewrite pow256_S in Hmn. pose proof (pow256_pos n).
    assert (shl_u64 v 8 = v * 2 ^ 8) as ->.
    { unfold shl_u64, u64. rewrite Z.shiftl_mul_pow2 by lia. apply Z.mod_small. nia. }
    rewrite lor_disjoint by lia. rewrite IH; [|lia|nia|done|lia].
    do 2 f_equal. cbn [take]. rewrite be_uint_cons, pow256_S, length_take_le by lia. lia.
Qed.

Lemma readBounds_ok k v (r : ByteReader) :
  - 2 ^ 63 <= v < 2 ^ 63 -> in_range k v ->
  (if isUnsigned k && (v <? 0) then Err (StatusError CodeInvalidArgument)
   else if negb (i64 (convert k v) =? v) then Err (StatusError CodeInvalidArgument)
   else Ok (convert k v, r)) = Ok (v, r).
Proof.
  intros Hv Hin. assert (isUnsigned k && (v <? 0) = false) as ->.
  { destruct (isUnsigned k) eqn:Hk; [|done]. apply in_range_unsigned in Hin; [|done].
    destruct (Z.ltb_spec v 0); [lia|done]. }
  unfold in_range in Hin. rewrite !Hin. unfold i64. rewrite sext_id by lia. by rewrite Z.eqb_refl.
Qed.

Lemma readTail_ok k lz n b src v :
  -1 <= lz <= 6 -> 7 - lz + 8 * Z.of_nat n <= 64 -> bytes_ok src -> (n <= length src)%nat ->
  v = sext (7 - lz + 8 * Z.of_nat n) (b * 256 ^ Z.of_nat n + be_uint (take n src)) ->
  in_range k v ->
  readTail k lz (Z.of_nat n) b (reader src) = Ok (v, reader (drop n src)).
Proof.
  intros Hlz Hn Hok Hlen Hv Hin. unfold readTail. cbv zeta.
  rewrite shl_shr_i64, Z.sub_diag, Z.pow_0_r, Z.mul_1_r, Nat2Z.id by lia.
  replace (64 - (64 - 7 + lz)) with (7 - lz) by lia.
  rewrite (readInt64_ok n (7 - lz)); [|lia|lia|apply sext_range; lia|done|done].
  cbn [mbind outcome_bind].
  assert (sext (7 - lz) b * 256 ^ Z.of_nat n + be_uint (take n src) = v) as ->.
  { rewrite Hv. change 256 with (2 ^ 8). rewrite <- Z.pow_mul_r by lia.
    rewrite sext_concat; [done|lia|lia|].
    pose proof (be_uint_bound (take n src) (bytes_ok_take _ _ Hok)) as B.
    rewrite length_take_le in B by done. rewrite Z.pow_mul_r by lia. done. }
  apply readBounds_ok; [|done]. rewrite Hv.
  pose proof (sext_range (7 - lz + 8 * Z.of_nat n)
    (b * 256 ^ Z.of_nat n + be_uint (take n src))).
  pose proof (Z.pow_le_mono_r 2 (7 - lz + 8 * Z.of_nat n - 1) 63). lia.
Qed.

(** [8]-byte sequences: the shift by 64 clears the first byte, so that the sign
    bit, which is in the second byte, is not extended. *)
Lemma readTail_8 k src :
  bytes_ok src -> (7 <= length src)%nat -> in_range k (be_uint (take 7 src)) ->
  readTail k 7 7 1 (reader src) = Ok (be_uint (take 7 src), reader (drop 7 src)).
Proof.
  intros Hok Hlen Hin. unfold readTail. cbv zeta.
  change (Z.shiftr (shl_i64 1 (64 - 7 + 7)) (64 - 7 + 7)) with 0.
  change (Z.to_nat 7) with 7%nat. rewrite (readInt64_ok 7 1) by (done || lia).
  cbn [mbind outcome_bind]. rewrite Z.mul_0_l, Z.add_0_l. apply readBounds_ok; [|done].
  pose proof (be_uint_bound (take 7 src) (bytes_ok_take _ _ Hok)) as B.
  rewrite length_take_le in B by done. literal_pow. lia.
Qed.

Lemma decode_inv k src v n :
  decode k src = Some (v, n) ->
  announced src = Some n /\ n <= 10 /\ n <= zlen src /\ in_range k v /\
  v = sext (7 * n) (be_uint (take (Z.to_nat n) src)).
Proof.
  unfold decode. destruct (announced src) as [m|]; [|done].
  case_decide as Hd; [destruct Hd|done]. cbv zeta. case_decide; [|done]. by intros [= <- <-].
Qed.

Lemma ReadForward_nz k b0 rest v n :
  bytes_ok (b0 :: rest) -> 2 <= b0 -> decode k (b0 :: rest) = Some (v, n) ->
  ReadForward k (reader (b0 :: rest)) = Ok (v, reader (drop (Z.to_nat n) (b0 :: rest))).
Proof.
  intros Hok Hb0 (Ha&Hn&Hlen&Hin&Hv)%decode_inv.
  apply Forall_cons in Hok as [Hbyte Hok]. unfold is_u8 in Hbyte.
  destruct (LeadingZeros8_bounds b0) as [Hlz [Hlo Hhi]]; [lia|].
  assert (LeadingZeros8 b0 <= 6) as Hlz6.
  { destruct (Z.leb_spec (LeadingZeros8 b0) 6); [done|].
    pose proof (Z.pow_le_mono_r 2 (8 - LeadingZeros8 b0) 1). lia. }
  cbn [announced] in Ha. destruct (Z.eqb_spec b0 0); [lia|]. injection Ha as <-.
  unfold ReadForward. change (ReadByte _) with (b0, @None error, reader rest). cbv iota zeta.
  destruct (Z.eqb_spec (LeadingZeros8 b0) 8); [lia|].
  remember (Z.to_nat (LeadingZeros8 b0)) as m eqn:Em.
  assert (LeadingZeros8 b0 = Z.of_nat m) as E by lia. rewrite E in *.
  unfold zlen in Hlen. simpl length in Hlen.
  replace (Z.to_nat (1 + Z.of_nat m)) with (S m) in * by lia.
  change (drop (S m) (b0 :: rest)) with (drop m rest).
  apply readTail_ok; [lia|lia|done|lia| |done].
  rewrite Hv. cbn [take]. rewrite be_uint_cons, length_take_le by lia. f_equal. lia.
Qed.

Lemma ReadForward_9 k b1 rest v n :
  bytes_ok (b1 :: rest) -> 128 <= b1 -> decode k (0 :: b1 :: rest) = Some (v, n) ->
  ReadForward k (reader (0 :: b1 :: rest)) = Ok (v, reader (drop (Z.to_nat n) (0 :: b1 :: rest))).
Proof.
  intros Hok Hb1 (Ha&Hn&Hlen&Hin&Hv)%decode_inv.
  apply Forall_cons in Hok as [Hbyte Hok]. unfold is_u8 in Hbyte.
  assert (LeadingZeros8 b1 = 0) as E by (apply LeadingZeros8_spec; lia).
  cbn [announced Z.eqb] in Ha. rewrite E in Ha. injection Ha as <-.
  unfold zlen in Hlen. simpl length in Hlen. change (Z.to_nat (9 + 0)) with 9%nat in *.
  unfold ReadForward. change (ReadByte _) with (0, @None error, reader (b1 :: rest)). cbv iota zeta.
  change (LeadingZeros8 0 =? 8) with true. cbv iota.
  change (readMore (reader (b1 :: rest))) with (Ok (b1, reader rest)). cbn [mbind outcome_bind]. rewrite E.
  change (LeadingZeros8 0 - 1 + 0) with (Z.of_nat 7). cbn [Z.eqb].
  change (drop 9 (0 :: b1 :: rest)) with (drop 7 rest).
  apply readTail_ok; [lia|lia|done|lia| |done].
  rewrite Hv. cbn [take]. rewrite (be_uint_cons 0), Z.mul_0_l, Z.add_0_l.
  rewrite be_uint_cons, length_take_le by lia. done.
Qed.

(** The value of a ten byte sequence. *)
Lemma sext_70_bytes b1 b2 rest :
  64 <= b1 < 128 -> bytes_ok (b2 :: rest) -> (7 <= length rest)%nat ->
  0 <= be_uint (take 7 rest) < 2 ^ 56 /\
  sext 70 (be_uint (take 10 (0 :: b1 :: b2 :: rest))) =
    if b1 <? 96 then (b1 - 64) * 2 ^ 64 + (b2 * 2 ^ 56 + be_uint (take 7 rest))
    else (b1 - 128) * 2 ^ 64 + (b2 * 2 ^ 56 + be_uint (take 7 rest)).
Proof.
  intros Hb1 [Hb2 Hok]%Forall_cons Hlen. unfold is_u8 in Hb2.
  pose proof (be_uint_bound (take 7 rest) (bytes_ok_take _ _ Hok)) as HW.
  rewrite length_take_le in HW by lia. change (256 ^ Z.of_nat 7) with (2 ^ 56) in HW.
  split; [done|]. cbn [take]. rewrite (be_uint_cons 0), Z.mul_0_l, Z.add_0_l.
  rewrite (be_uint_cons b1), (be_uint_cons b2). simpl length.
  rewrite length_take_le by lia. apply sext_70; lia.
Qed.

Lemma ReadForward_10_tail k b1 b2 rest v :
  64 <= b1 < 128 -> bytes_ok (b2 :: rest) -> (7 <= length rest)%nat -> in_range k v ->
  v = sext 70 (be_uint (take 10 (0 :: b1 :: b2 :: rest))) ->
  (if isUnsigned k && (b1 =? 0x40) then
     '(v, r) ← readUint64 8 0 (reader (b2 :: rest));
     if negb (u64 (convert k v) =? v) then Err (StatusError CodeInvalidArgument)
     else Ok (convert k v, r)
   else if negb (isUnsigned k) && ((b1 =? 0x40) || (b1 =? 0x7f)) then
     if ((b1 =? 0x40) && (b2 >=? 0x80)) || (negb (b1 =? 0x40) && (b2 <? 0x80))
     then Err (StatusError CodeInvalidArgument)
     else readTail k (-1) 7 b2 (reader rest)
   else Err (StatusError CodeInvalidArgument)) = Ok (v, reader (drop 7 rest)).
Proof.
  intros Hb1 Hok Hlen Hin Hv.
  destruct (sext_70_bytes b1 b2 rest Hb1 Hok Hlen) as [HW HV]. rewrite <- Hv in HV.
  pose proof (Forall_inv Hok) as Hb2. unfold is_u8 in Hb2.
  destruct (isUnsigned k) eqn:Hk; cbn [andb negb].
  - apply in_range_unsigned in Hin as Hr; [|done].
    destruct (Z.eqb_spec b1 64) as [->|Hne]; [|exfalso; revert HV; case_bool; lia].
    rewrite readUint64_ok by (done || (simpl; lia)).
    cbn [mbind outcome_bind]. rewrite Z.mul_0_l, Z.add_0_l. cbn [take].
    rewrite be_uint_cons, length_take_le by lia. change (256 ^ Z.of_nat 7) with (2 ^ 56).
    assert (b2 * 2 ^ 56 + be_uint (take 7 rest) = v) as -> by (rewrite HV; case_bool; lia).
    assert (convert k v = v) as -> by done. unfold u64. rewrite Z.mod_small by lia.
    by rewrite Z.eqb_refl.
  - apply in_range_signed in Hin as Hr; [|done].
    assert (b1 = 64 /\ b2 < 128 \/ b1 = 127 /\ 128 <= b2) as Hc by (revert HV; case_bool; lia).
    replace ((b1 =? 64) || (b1 =? 127)) with true by (symmetry; apply orb_true_iff; lia).
    assert ((b1 =? 64) && (b2 >=? 128) || negb (b1 =? 64) && (b2 <? 128) = false) as ->.
    { destruct Hc as [[-> ?]|[-> ?]]; rewrite Z.geb_leb; case_bools; try lia; done. }
    change 7 with (Z.of_nat 7).
    apply readTail_ok; [lia|lia|by eapply Forall_inv_tail|lia| |done].
    change (7 - -1 + 8 * Z.of_nat 7) with 64. change (256 ^ Z.of_nat 7) with (2 ^ 56).
    change (sext 64) with i64. rewrite i64_word by lia. rewrite HV.
    destruct Hc as [[-> ?]|[-> ?]]; case_bools; lia.
Qed.

Lemma ReadForward_10 k b1 rest v n :
  bytes_ok (b1 :: rest) -> 64 <= b1 < 128 -> decode k (0 :: b1 :: rest) = Some (v, n) ->
  ReadForward k (reader (0 :: b1 :: rest)) = Ok (v, reader (drop (Z.to_nat n) (0 :: b1 :: rest))).
Proof.
  intros Hok Hb1 (Ha&Hn&Hlen&Hin&Hv)%decode_inv.
  apply Forall_inv_tail in Hok.
  assert (LeadingZeros8 b1 = 1) as E by (apply LeadingZeros8_spec; lia).
  cbn [announced Z.eqb] in Ha. rewrite E in Ha. injection Ha as <-.
  unfold zlen in Hlen. destruct rest as [|b2 rest]; [simpl in Hlen; lia|]. simpl length in Hlen.
  change (Z.to_nat (9 + 1)) with 10%nat in *.
  change (drop 10 (0 :: b1 :: b2 :: rest)) with (drop 7 rest).
  unfold ReadForward. change (ReadByte _) with (0, @None error, reader (b1 :: b2 :: rest)).
  cbv iota zeta. change (LeadingZeros8 0 =? 8) with true. cbv iota.
  change (readMore (reader (b1 :: b2 :: rest))) with (Ok (b1, reader (b2 :: rest))).
  cbn [mbind outcome_bind]. rewrite E.
  change (LeadingZeros8 0 - 1 + 1) with 8. cbn [Z.eqb].
  change (readMore (reader (b2 :: rest))) with (Ok (b2, reader rest)).
  cbn [mbind outcome_bind]. apply ReadForward_10_tail; (done || lia).
Qed.

Lemma ReadForward_decode k src v n :
  bytes_ok src -> decode k src = Some (v, n) -> head src <> Some 1 \/ 0 <= v ->
  ReadForward k (reader src) = Ok (v, reader (drop (Z.to_nat n) src)).
Proof.
  intros Hok Hd H1. destruct src as [|b0 rest]; [done|].
  pose proof (Forall_inv Hok) as Hb0. unfold is_u8 in Hb0.
  destruct (Z.leb_spec 2 b0); [by apply ReadForward_nz|].
  destruct (Z.eqb_spec b0 1) as [->|Hne].
  - destruct H1 as [H1|H1]; [done|].
    apply decode_inv in Hd as (Ha&Hn&Hlen&Hin&Hv). injection Ha as <-.
    apply Forall_inv_tail in Hok. unfold zlen in Hlen. simpl length in Hlen.
    change (1 + LeadingZeros8 1) with 8 in *. change (Z.to_nat 8) with 8%nat in *.
    unfold ReadForward. change (ReadByte _) with (1, @None error, reader rest).
    change (LeadingZeros8 1) with 7. cbn [Z.eqb Pos.eqb].
    change (drop 8 (1 :: rest)) with (drop 7 rest).
    assert (be_uint (take 7 rest) = v) as E.
    { pose proof (be_uint_bound (take 7 rest) (bytes_ok_take _ _ Hok)) as B.
      rewrite length_take_le in B by lia. change (256 ^ Z.of_nat 7) with (2 ^ 56) in B.
      revert Hv. cbn [take]. rewrite be_uint_cons, length_take_le, Z.add_comm by lia.
      change (256 ^ Z.of_nat 7) with (2 ^ (7 * 8)). rewrite sext_add_mul by lia.
      unfold sext. literal_pow. intros. arith. }
    rewrite readTail_8; rewrite ?E; (done || lia).
  - assert (b0 = 0) as -> by lia. destruct rest as [|b1 rest]; [done|].
    apply Forall_inv_tail in Hok.
    destruct (LeadingZeros8_cases b1 (Forall_inv Hok)) as [[]|[[]|[]]].
    + by apply ReadForward_9.
    + by apply ReadForward_10.
    + apply decode_inv in Hd as (Ha&Hn&_). injection Ha as <-. lia.
Qed.

(** ** Properties *)

(** [AppendForward] writes, for every [int64] or [uint64] value, exactly
    [SizeBytes] bytes: the big-endian number made of a marker bit and the low
    [7 n] bits of the value. *)
Theorem AppendForward_reference dst v :
  encodable v ->
  AppendForward dst v = dst ++ encode (Z.to_nat (SizeBytes v)) v /\
  zlen (AppendForward dst v) = zlen dst + SizeBytes v.
Proof.
  intros Hv. rewrite AppendForward_encode by done. split; [done|].
  unfold zlen. rewrite length_app. unfold encode. rewrite length_be_bytes.
  destruct (SizeBytes_range v Hv). lia.
Qed.

Lemma AppendForward_reference_witness :
  encodable (-8193) /\
  AppendForward [7] (-8193) = [7; 0x3f; 0xdf; 0xff] /\ SizeBytes (-8193) = 3 /\
  zlen (AppendForward [7] (-8193)) = 4.
Proof.
  assert (encodable (-8193)) as H by (unfold encodable; lia).
  destruct (AppendForward_reference [7] (-8193) H) as [E L].
  split; [done|]. split; [rewrite E; reflexivity|]. split; [reflexivity|]. rewrite L. reflexivity.
Defined.

(** C38: [ConsumeForward] is total: on every input it returns, without an out
    of range access, what the reference decoder returns: the value and the
    number of bytes consumed when the input starts with a complete sequence
    whose value fits the requested integer type, and [(0, -1)] otherwise. *)
Theorem ConsumeForward_reference k src :
  bytes_ok src -> ConsumeForward k src = Ok (decode_result (decode k src)).
Proof. apply ConsumeForward_decode. Qed.

Lemma ConsumeForward_reference_witness :
  bytes_ok [0x40; 0x80; 0xff] /\
  ConsumeForward Int8 [0x40; 0x80; 0xff] = Ok (0, -1) /\
  ConsumeForward Int16 [0x40; 0x80; 0xff] = Ok (128, 2).
Proof.
  assert (bytes_ok [0x40; 0x80; 0xff]) as H by (repeat constructor; unfold is_u8; lia).
  split; [done|]. rewrite !ConsumeForward_reference by done. split; reflexivity.
Defined.

(** C37: Round trip. Decoding what [AppendForward] wrote for a value of type
    [T], whatever follows it, gives the value back and consumes exactly the
    bytes that were written. *)
Theorem forward_roundtrip k v rest :
  in_range k v -> bytes_ok rest ->
  ConsumeForward k (AppendForward [] v ++ rest) = Ok (v, zlen (AppendForward [] v)).
Proof. apply ConsumeForward_AppendForward. Qed.

Lemma forward_roundtrip_witness :
  ConsumeForward Int64 (AppendForward [] (-(2 ^ 50)) ++ [1; 2]) = Ok (-(2 ^ 50), 8).
Proof.
  rewrite forward_roundtrip; [reflexivity|reflexivity|repeat constructor; unfold is_u8; lia].
Defined.

(** The backward encoding is the forward encoding with its bytes
    reversed, both when writing and when reading. *)
Theorem backward_mirrors_forward k dst v src :
  bytes_ok src ->
  AppendBackward dst v = dst ++ reverse (AppendForward [] v) /\
  ConsumeBackward k src = ConsumeForward k (reverse src).
Proof.
  intros Hsrc. split; [apply AppendBackward_forward|by apply ConsumeBackward_forward].
Qed.

Lemma backward_mirrors_forward_witness :
  AppendBackward [9] 300 = [9; 0x2c; 0x41] /\ ConsumeBackward Uint16 [9; 0x2c; 0x41] = Ok (300, 2).
Proof.
  destruct (backward_mirrors_forward Uint16 [9] 300 [9; 0x2c; 0x41]) as [E1 E2];
    [repeat constructor; unfold is_u8; lia|].
  split; [rewrite E1; reflexivity|rewrite E2; reflexivity].
Defined.

(** [ReadForward] on a stream decodes what [ConsumeForward] decodes on a
    slice, and leaves the stream after the same number of bytes, for every
    sequence that is not a negative number of eight bytes. *)
Theorem ReadForward_agrees k src v n :
  bytes_ok src -> ConsumeForward k src = Ok (v, n) -> 0 < n ->
  head src <> Some 1 \/ 0 <= v ->
  ReadForward k (reader src) = Ok (v, reader (drop (Z.to_nat n) src)).
Proof.
  intros Hok Hc Hn Hv. rewrite ConsumeForward_decode in Hc by done. injection Hc as Hc.
  apply ReadForward_decode; [done| |done]. destruct (decode k src) as [p|]; simpl in Hc.
  - by rewrite Hc.
  - injection Hc as <- <-. lia.
Qed.

Lemma ReadForward_agrees_witness :
  ReadForward Int32 (reader [0x20; 0x20; 0x00; 5]) = Ok (8192, reader [5]).
Proof.
  apply (ReadForward_agrees Int32 [0x20; 0x20; 0x00; 5] 8192 3);
    [repeat constructor; unfold is_u8; lia|reflexivity|lia|by left].
Defined.

(** The case left out above: [ReadForward] does not sign extend eight byte
    sequences, since it shifts the first byte, which holds no bit of the
    value, by 64.  Every value in [-2^55, -2^48) that [AppendForward] writes
    is read back as that value plus [2^56]. *)
Theorem ReadForward_negative_eight_bytes v rest :
  - 2 ^ 55 <= v < - 2 ^ 48 -> bytes_ok rest ->
  ConsumeForward Int64 (AppendForward [] v ++ rest) = Ok (v, 8) /\
  ReadForward Int64 (reader (AppendForward [] v ++ rest)) = Ok (v + 2 ^ 56, reader rest).
Proof.
  intros Hv Hrest. assert (encodable v) as He by (unfold encodable; lia).
  assert (SizeBytes v = 8) as Hs by (apply SizeBytes_unique; (done || lia)).
  rewrite AppendForward_encode, Hs by done. rewrite app_nil_l. change (Z.to_nat 8) with 8%nat.
  split.
  { rewrite ConsumeForward_decode by (apply bytes_ok_app; split; [apply be_bytes_ok|done]).
    rewrite decode_encode; [done|lia| |simpl; lia]. apply sext_id; lia. }
  unfold encode. rewrite (be_bytes_add 1 7), be_bytes_1.
  set (X := 2 ^ (7 * Z.of_nat 8) + v mod 2 ^ (7 * Z.of_nat 8)).
  assert (X = 2 ^ 57 + v) as HX by (unfold X; literal_pow; arith).
  assert (X / 256 ^ Z.of_nat 7 mod 256 = 1) as -> by (literal_pow; arith).
  rewrite <- app_assoc. simpl app. unfold ReadForward.
  change (ReadByte _) with (1, @None error, reader (be_bytes 7 X ++ rest)).
  change (LeadingZeros8 1) with 7. cbn [Z.eqb Pos.eqb].
  assert (be_uint (be_bytes 7 X) = v + 2 ^ 56) as EV
    by (rewrite be_uint_bytes; literal_pow; arith).
  rewrite readTail_8; rewrite ?take_app_length', ?drop_app_length', ?EV;
    rewrite ?length_app, ?length_be_bytes; try done; try lia.
  - apply bytes_ok_app. split; [apply be_bytes_ok|done].
  - apply sext_id; lia.
Qed.

Lemma ReadForward_negative_eight_bytes_witness :
  ReadForward Int64 (reader (AppendForward [] (-(2 ^ 50)))) = Ok (2 ^ 56 - 2 ^ 50, []).
Proof.
  rewrite <- (app_nil_r (AppendForward [] _)).
  apply (ReadForward_negative_eight_bytes (-(2 ^ 50)) []); [lia|constructor].
Defined.

(** [ReadForward] drops read errors other than [io.EOF] that occur after
    the first byte: when the reader fails in the middle of a two byte
    sequence, the call succeeds with a value made from the undefined byte. *)
Theorem ReadForward_ignores_read_errors b e :
  0 <= b < 256 -> e <> EOF ->
  ReadForward Uint32 [(0x40, None); (b, Some e)] = Ok (b, []).
Proof.
  intros Hb He. unfold ReadForward. cbn [ReadByte].
  change (LeadingZeros8 0x40) with 1. cbn [Z.eqb]. unfold readTail. cbv zeta.
  assert (readMore [(b, Some e)] = Ok (b, [])) as E.
  { unfold readMore. simpl. by rewrite decide_False by congruence. }
  change (Z.to_nat 1) with 1%nat. cbn [readInt64]. rewrite E. cbn [mbind outcome_bind].
  change (shl_i64 _ 8) with (0 * 2 ^ 8). rewrite lor_disjoint, Z.mul_0_l, Z.add_0_l by lia.
  apply readBounds_ok; [lia|]. unfold in_range. cbn [convert]. apply Z.mod_small. lia.
Qed.

Lemma ReadForward_ignores_read_errors_witness :
  ReadForward Uint32 [(0x40, None); (5, Some (DeviceError 1))] = Ok (5, []).
Proof. apply ReadForward_ignores_read_errors; [lia|discriminate]. Defined.
