(* ===== verification/LossyMap.v ===== *)
(** * Lossy hash map ([pkg/ds/lossymap])

    The hash table that maps object references to locations, objects to
    leases and tag keys to values.  Records that collide are displaced by age
    of their value, so that older data is pushed deeper into the table, and
    probing stops at the first expired record.

    [RecordArray] is the Go interface of the same name as a type class;
    [RecordArrayLaws] states what the hash map relies on, in terms of a view
    of the array (index to live record).  The theorems about [Get] and [Put]
    are proved against these laws, and every implementation of the interface
    discharges them.

    Prometheus metrics are not modelled. *)

From S2P Require Import Prelude.

(** ** [record_array.go] *)

Record RecordKey (K : Type) := mkRecordKey { Key : K; Attempt : Z }.
Arguments mkRecordKey {K} _ _.
Arguments Key {K} _.
Arguments Attempt {K} _.

Record MapRecord (K V : Type) := mkMapRecord { recordKey : RecordKey K; Value : V }.
Arguments mkMapRecord {K V} _ _.
Arguments recordKey {K V} _.
Arguments Value {K V} _.

#[global] Instance RecordKey_eq_dec {K} `{EqDecision K} : EqDecision (RecordKey K).
Proof. solve_decision. Defined.

Class RecordArray (A K V E : Type) := {
  ra_Get : A -> Z -> E -> outcome (MapRecord K V);
  ra_Put : A -> Z -> MapRecord K V -> E -> A * outcome unit;
}.

(** ** [hash_map.go] *)

Record hashMap (K V : Type) := mkHashMap {
  recordCount : Z;
  recordKeyHasher : RecordKey K -> Z;
  valueComparator : V -> V -> Z;
  maximumGetAttempts : Z;
  maximumPutAttempts : Z;
}.
Arguments mkHashMap {K V} _ _ _ _ _.
Arguments recordCount {K V} _.
Arguments recordKeyHasher {K V} _ _.
Arguments valueComparator {K V} _ _ _.
Arguments maximumGetAttempts {K V} _.
Arguments maximumPutAttempts {K V} _.

Section hash_map.
Context {A K V E : Type} `{EqDecision K} `{!RecordArray A K V E}.
Context (m : hashMap K V).

(** [m.recordKeyHasher(&recordKey) % m.recordCount] *)
Definition slotIndex (rk : RecordKey K) : Z :=
  u64 (recordKeyHasher m rk) mod recordCount m.

(** [recordKey.Attempt++] on a [uint8]. *)
Definition nextAttempt (rk : RecordKey K) : RecordKey K :=
  mkRecordKey (Key rk) (u8 (Attempt rk + 1)).

(** The body of [Get]'s loop.  [Attempt] is a [uint8], hence 256 iterations
    are always enough; [hashMap_Get_newest] proves that the fuel never runs out. *)
Fixpoint getLoop (fuel : nat) (a : A) (rk : RecordKey K) (e : E) : outcome V :=
  match fuel with
  | O => Panic
  | S fuel =>
      if recordCount m =? 0 then Panic else
      match ra_Get a (slotIndex rk) e with
      | Err ErrRecordInvalidOrExpired => Err (StatusError CodeNotFound)
      | Err err => Err err
      | Panic => Panic
      | Ok record =>
          if decide (recordKey record = rk) then Ok (Value record)
          else
            let rk := nextAttempt rk in
            if maximumGetAttempts m <=? Attempt rk then Err (StatusError CodeNotFound)
            else getLoop fuel a rk e
      end
  end.

Definition attemptFuel : nat := 256.

Definition hashMap_Get (a : A) (key : K) (e : E) : outcome V :=
  getLoop attemptFuel a (mkRecordKey key 0) e.

(** The [for iteration := 1; iteration <= m.maximumPutAttempts] loop. *)
Fixpoint putLoop (iterations : nat) (a : A) (record : MapRecord K V) (e : E)
    : A * outcome unit :=
  match iterations with
  | O => (a, Ok tt)
  | S iterations =>
      if recordCount m =? 0 then (a, Panic) else
      let i := slotIndex (recordKey record) in
      match ra_Get a i e with
      | Err ErrRecordInvalidOrExpired => ra_Put a i record e
      | Err err => (a, Err err)
      | Panic => (a, Panic)
      | Ok oldRecord =>
          let older := valueComparator m (Value oldRecord) (Value record) <? 0 in
          if decide (recordKey oldRecord = recordKey record) then
            if older then ra_Put a i record e else (a, Ok tt)
          else
            let '(a, res, record) :=
              if older then (ra_Put a i record e, oldRecord) else (a, Ok tt, record) in
            match res with
            | Ok _ =>
                let record := mkMapRecord (nextAttempt (recordKey record)) (Value record) in
                if maximumGetAttempts m <=? Attempt (recordKey record) then (a, Ok tt)
                else putLoop iterations a record e
            | err => (a, err)
            end
      end
  end.

Definition hashMap_Put (a : A) (key : K) (value : V) (e : E) : A * outcome unit :=
  putLoop (Z.to_nat (maximumPutAttempts m)) a (mkMapRecord (mkRecordKey key 0) value) e.
End hash_map.

(** ** [simple_record_array.go] *)

Definition simpleRecordArray (K V : Type) := list (MapRecord K V).

(** [make([]Record[TKey, TValue], count)]: zero-initialized records. *)
Definition NewSimpleRecordArray {K V} (zeroKey : K) (zeroValue : V) (count : nat)
    : simpleRecordArray K V :=
  replicate count (mkMapRecord (mkRecordKey zeroKey 0) zeroValue).

Definition simpleRecordArray_Get {K V} (records : simpleRecordArray K V) (i : Z) (unused : unit)
    : outcome (MapRecord K V) := index records i.

Definition simpleRecordArray_Put {K V} (records : simpleRecordArray K V) (i : Z)
    (record : MapRecord K V) (unused : unit) : simpleRecordArray K V * outcome unit :=
  match index records i with
  | Ok _ => (<[Z.to_nat i := record]> records, Ok tt)
  | _ => (records, Panic)
  end.

#[global] Instance simpleRecordArray_RecordArray {K V}
    : RecordArray (simpleRecordArray K V) K V unit := {
  ra_Get := simpleRecordArray_Get;
  ra_Put := simpleRecordArray_Put;
}.

(** ** [lower_bound_comparing_record_array.go] *)

Record lowerBoundComparingRecordArray (A V : Type) (cmp : V -> V -> Z) :=
  mkLowerBound { base : A }.
Arguments mkLowerBound {A V cmp} _.
Arguments base {A V cmp} _.

Definition lowerBound_Get {A K V cmp} `{!RecordArray A K V unit}
    (ra : lowerBoundComparingRecordArray A V cmp) (i : Z) (lowestValidValue : V)
    : outcome (MapRecord K V) :=
  record ← ra_Get (base ra) i tt;
  if cmp (Value record) lowestValidValue <? 0 then Err ErrRecordInvalidOrExpired
  else Ok record.

Definition lowerBound_Put {A K V cmp} `{!RecordArray A K V unit}
    (ra : lowerBoundComparingRecordArray A V cmp) (i : Z) (record : MapRecord K V)
    (lowestValidValue : V) : lowerBoundComparingRecordArray A V cmp * outcome unit :=
  if cmp (Value record) lowestValidValue <? 0 then (ra, Ok tt)
  else let '(b, res) := ra_Put (base ra) i record tt in (mkLowerBound b, res).

#[global] Instance lowerBoundComparingRecordArray_RecordArray {A K V} (cmp : V -> V -> Z)
    `{!RecordArray A K V unit} : RecordArray (lowerBoundComparingRecordArray A V cmp) K V V := {
  ra_Get := lowerBound_Get;
  ra_Put := lowerBound_Put;
}.

(** ** What a hash map relies on *)

(** The live records of an array under given expiration data. *)
Abbreviation view K V := (Z -> option (MapRecord K V)).

Definition view_insert {K V} (i : Z) (r : MapRecord K V) (w : view K V) : view K V :=
  fun j => if decide (j = i) then Some r else w j.

Class RecordArrayLaws (A K V E : Type) `{!RecordArray A K V E} (count : Z) := {
  ra_inv : E -> A -> Prop;
  ra_view : A -> E -> view K V;
  (** Whether records can be written under the expiration data. *)
  ra_writable : E -> Prop;
  (** Whether a value may be stored for a key under the expiration data. *)
  ra_valid : E -> K -> V -> Prop;
  ra_view_valid a e i r :
    ra_inv e a -> 0 <= i < count -> ra_view a e i = Some r ->
    (ra_writable e -> ra_valid e (Key (recordKey r)) (Value r)) /\
    0 <= Attempt (recordKey r) < 2 ^ 8;
  ra_Get_view a e i :
    ra_inv e a -> 0 <= i < count ->
    ra_Get a i e = match ra_view a e i with
                   | Some r => Ok r
                   | None => Err ErrRecordInvalidOrExpired
                   end;
  ra_Put_valid a e i r :
    ra_inv e a -> ra_writable e -> 0 <= i < count -> 0 <= Attempt (recordKey r) < 2 ^ 8 ->
    ra_valid e (Key (recordKey r)) (Value r) ->
    exists a', ra_Put a i r e = (a', Ok tt) /\ ra_inv e a' /\
      forall j, 0 <= j < count -> ra_view a' e j = view_insert i r (ra_view a e) j;
}.

(** [valueComparator(a, b) < 0]: a strict weak order on values, by age. *)
Definition older {V} (cmp : V -> V -> Z) (a b : V) : Prop := cmp a b < 0.

Class AgeOrder {V} (cmp : V -> V -> Z) := {
  older_irrefl a : ~ older cmp a a;
  older_trans a b c : older cmp a b -> older cmp b c -> older cmp a c;
  not_older_trans a b c : ~ older cmp a b -> ~ older cmp b c -> ~ older cmp a c;
}.

(** ** Correctness of the hash map against the laws *)

Section hash_map_laws.
Context {A K V E : Type} `{EqDecision K} `{!RecordArray A K V E}.
Context (m : hashMap K V).
Context `{!RecordArrayLaws A K V E (recordCount m)} `{!AgeOrder (valueComparator m)}.
Hypothesis Hcount : 0 < recordCount m.
Hypothesis Hget : 1 <= maximumGetAttempts m < 2 ^ 8.

Abbreviation slot k n := (slotIndex m (mkRecordKey k n)).
Abbreviation older := (older (valueComparator m)).

(** The slots before attempt [n] of key [k] hold live values that are not
    older than [v]. *)
Definition probe_path (w : view K V) (k : K) (n : Z) (v : V) : Prop :=
  forall i, 0 <= i < n ->
    exists r, w (slot k i) = Some r /\ ~ older (Value r) v.

(** Every live record is where [Get] looks for it, and behind live records
    that are not older. *)
Definition probe_inv (w : view K V) : Prop :=
  forall i r, 0 <= i < recordCount m -> w i = Some r ->
    0 <= Attempt (recordKey r) < maximumGetAttempts m /\
    i = slotIndex m (recordKey r) /\
    probe_path w (Key (recordKey r)) (Attempt (recordKey r)) (Value r).

(** A record that [Put] carries to its next slot. *)
Definition carried (w : view K V) (r : MapRecord K V) : Prop :=
  0 <= Attempt (recordKey r) < maximumGetAttempts m /\
  probe_path w (Key (recordKey r)) (Attempt (recordKey r)) (Value r).

(** The key [k] has value [v] in some live slot. *)
Definition stored (w : view K V) (k : K) (v : V) : Prop :=
  exists i r, 0 <= i < recordCount m /\ w i = Some r /\ Key (recordKey r) = k /\ Value r = v.

Lemma attemptFuel_enough : exists n, attemptFuel = S n /\ 256 <= Z.of_nat (S n).
Proof. by exists 255%nat. Qed.

Lemma older_asym a b : older a b -> ~ older b a.
Proof. intros H1 H2. by eapply older_irrefl, older_trans. Qed.

Lemma slotIndex_range (rk : RecordKey K) : 0 <= slotIndex m rk < recordCount m.
Proof. apply Z.mod_pos_bound. lia. Qed.

Lemma nextAttempt_small (rk : RecordKey K) :
  0 <= Attempt rk < maximumGetAttempts m ->
  nextAttempt rk = mkRecordKey (Key rk) (Attempt rk + 1).
Proof. intros H. unfold nextAttempt, u8. f_equal. apply Z.mod_small. lia. Qed.

Lemma view_insert_eq i (r : MapRecord K V) w : view_insert i r w i = Some r.
Proof. unfold view_insert. by rewrite decide_True by done. Qed.

Lemma view_insert_ne i j (r : MapRecord K V) w : j <> i -> view_insert i r w j = w j.
Proof. intros. unfold view_insert. by rewrite decide_False by done. Qed.

(** Overwriting a slot with a record that is newer than its old contents keeps
    every probe path. *)
Lemma probe_path_insert w i r k n v :
  (forall old, w i = Some old -> ~ older (Value r) (Value old)) ->
  probe_path w k n v -> probe_path (view_insert i r w) k n v.
Proof.
  intros Hnew Hp j Hj. destruct (Hp j Hj) as (r'&Hr'&Hv).
  destruct (decide (slot k j = i)) as [Ei|Hne].
  - exists r. rewrite Ei in *. rewrite view_insert_eq. split; [done|].
    eapply not_older_trans; [by apply Hnew|done].
  - exists r'. by rewrite view_insert_ne.
Qed.

Lemma probe_inv_insert w r :
  probe_inv w -> carried w r ->
  (forall old, w (slotIndex m (recordKey r)) = Some old -> ~ older (Value r) (Value old)) ->
  probe_inv (view_insert (slotIndex m (recordKey r)) r w).
Proof.
  intros Hinv [Hatt Hpath] Hnew i r' Hi Hr'.
  destruct (decide (i = slotIndex m (recordKey r))) as [->|Hne].
  - rewrite view_insert_eq in Hr'. injection Hr' as <-.
    split; [done|]. split; [done|]. by apply probe_path_insert.
  - rewrite view_insert_ne in Hr' by done. destruct (Hinv i r' Hi Hr') as (?&?&?).
    split; [done|]. split; [done|]. by apply probe_path_insert.
Qed.

(** Moving on to the next attempt after a slot that is live and not older. *)
Lemma carried_next w r r' :
  carried w r -> w (slotIndex m (recordKey r)) = Some r' -> ~ older (Value r') (Value r) ->
  Attempt (recordKey r) + 1 < maximumGetAttempts m ->
  carried w (mkMapRecord (nextAttempt (recordKey r)) (Value r)).
Proof.
  intros [Hatt Hpath] Hr' Hv Hlt. rewrite nextAttempt_small by done. split; simpl; [lia|].
  intros i Hi. destruct (Z.eqb_spec i (Attempt (recordKey r))) as [->|Hne].
  - exists r'. by destruct (recordKey r).
  - apply Hpath. lia.
Qed.

(** Records may expire, oldest first. *)
Lemma probe_inv_expire w w' :
  (forall j r, 0 <= j < recordCount m -> w' j = Some r -> w j = Some r) ->
  (forall i j r r', 0 <= i < recordCount m -> 0 <= j < recordCount m ->
     w' i = Some r -> w j = Some r' -> ~ older (Value r') (Value r) -> w' j = Some r') ->
  probe_inv w -> probe_inv w'.
Proof.
  intros Hsub Hage Hinv i r Hi Hr. destruct (Hinv i r Hi (Hsub i r Hi Hr)) as (Hatt&Hslot&Hpath).
  split; [done|]. split; [done|]. intros n Hn. destruct (Hpath n Hn) as (r'&Hr'&Hv).
  exists r'. split; [|done]. eapply Hage; [exact Hi|apply slotIndex_range|done..].
Qed.

(** What carrying [r] through the table may do to it. *)
Definition put_effect (w w' : view K V) (r : MapRecord K V) : Prop :=
  probe_inv w' /\
  (forall j, 0 <= j < recordCount m ->
    w' j = w j \/
    exists r1, w' j = Some r1 /\ ~ older (Value r) (Value r1) /\
      (forall r0, w j = Some r0 -> older (Value r0) (Value r1)) /\
      (stored w (Key (recordKey r1)) (Value r1) \/
       Key (recordKey r1) = Key (recordKey r) /\ Value r1 = Value r)).

Lemma put_effect_refl w r : probe_inv w -> put_effect w w r.
Proof. intros H. split; [done|]. intros; by left. Qed.

Lemma put_effect_insert w w' r :
  probe_inv w -> carried w r ->
  (forall old, w (slotIndex m (recordKey r)) = Some old -> older (Value old) (Value r)) ->
  (forall j, 0 <= j < recordCount m ->
     w' j = view_insert (slotIndex m (recordKey r)) r w j) ->
  put_effect w w' r.
Proof.
  intros Hinv Hc Hold Hw'. split.
  - assert (probe_inv (view_insert (slotIndex m (recordKey r)) r w)) as Hi.
    { apply probe_inv_insert; [done|done|]. intros old Ho. by apply older_asym, Hold. }
    intros j r' Hj Hr'. rewrite Hw' in Hr' by done.
    destruct (Hi j r' Hj Hr') as (?&?&Hp). split; [done|]. split; [done|].
    intros n Hn. rewrite Hw' by apply slotIndex_range. by apply Hp.
  - intros j Hj. rewrite Hw' by done.
    destruct (decide (j = slotIndex m (recordKey r))) as [->|Hne].
    + right. exists r. rewrite view_insert_eq. split_and!; [done|apply older_irrefl|done|by right].
    + left. by rewrite view_insert_ne.
Qed.

(** Displacing an older record and then carrying that record further. *)
Lemma put_effect_displace w w1 w2 r old :
  put_effect w w1 r -> put_effect w1 w2 old ->
  w (slotIndex m (recordKey r)) = Some old -> older (Value old) (Value r) ->
  (forall j r1, 0 <= j < recordCount m -> w1 j = Some r1 ->
     stored w (Key (recordKey r1)) (Value r1) \/
     Key (recordKey r1) = Key (recordKey r) /\ Value r1 = Value r) ->
  put_effect w w2 r.
Proof.
  intros [_ H1] [Hinv2 H2] Hold Holder Hw1. split; [done|]. intros j Hj.
  destruct (H2 j Hj) as [E2|(r2&E2&Hnew&Hmono&Hst)]; rewrite E2; [by apply H1|].
  right. exists r2. split_and!; [done|..].
  - intros Hr2. apply Hnew. by eapply older_trans.
  - intros r0 Hr0. destruct (H1 j Hj) as [E1|(r1&E1&_&Hm1&_)].
    + apply Hmono. by rewrite E1.
    + eapply older_trans; [by apply Hm1|by apply Hmono].
  - destruct Hst as [(i&r1&Hi&Hr1&Hk&Hv)|[Hk Hv]].
    + rewrite <- Hk, <- Hv. by eapply Hw1.
    + left. exists (slotIndex m (recordKey r)), old.
      split; [apply slotIndex_range|]. done.
Qed.

Lemma probe_path_ext w w' k n v :
  (forall j, 0 <= j < recordCount m -> w' j = w j) ->
  probe_path w k n v -> probe_path w' k n v.
Proof.
  intros Hext Hp i Hi. rewrite Hext by apply slotIndex_range. by apply Hp.
Qed.

(** The displaced record is carried on from its own attempt. *)
Lemma carried_displaced w w1 r old :
  probe_inv w -> w (slotIndex m (recordKey r)) = Some old -> older (Value old) (Value r) ->
  (forall j, 0 <= j < recordCount m ->
     w1 j = view_insert (slotIndex m (recordKey r)) r w j) ->
  Attempt (recordKey old) + 1 < maximumGetAttempts m ->
  carried w1 (mkMapRecord (nextAttempt (recordKey old)) (Value old)).
Proof.
  intros Hinv Hold Holder Hw1 Hlt.
  destruct (Hinv _ _ (slotIndex_range _) Hold) as (Hatt&Hslot&Hpath).
  apply carried_next with r; [|rewrite Hw1, <- Hslot by apply slotIndex_range|
    by apply older_asym|done].
  - split; [done|]. eapply probe_path_ext; [exact Hw1|]. apply probe_path_insert; [|done].
    intros old'. rewrite Hold. intros [= <-]. by apply older_asym.
  - apply view_insert_eq.
Qed.

(** A record that is newer than what its first slot holds stays there: what
    is carried on afterwards is older. *)
Definition settles (n : nat) (w w' : view K V) (r : MapRecord K V) : Prop :=
  n <> O ->
  (forall old, w (slotIndex m (recordKey r)) = Some old -> older (Value old) (Value r)) ->
  w' (slotIndex m (recordKey r)) = Some r.

Lemma settles_displaced w1 w2 r old :
  w1 (slotIndex m (recordKey r)) = Some r -> older (Value old) (Value r) ->
  put_effect w1 w2 old -> w2 (slotIndex m (recordKey r)) = Some r.
Proof.
  intros Hr Holder [_ H2].
  destruct (H2 _ (slotIndex_range (recordKey r))) as [->|(r1&_&Hnew&Hmono&_)]; [done|].
  destruct Hnew. eapply older_trans; [done|]. by apply Hmono.
Qed.

Lemma putLoop_effect n a r e :
  ra_inv e a -> ra_writable e -> probe_inv (ra_view a e) -> carried (ra_view a e) r ->
  ra_valid e (Key (recordKey r)) (Value r) ->
  exists a', putLoop m n a r e = (a', Ok tt) /\ ra_inv e a' /\
    put_effect (ra_view a e) (ra_view a' e) r /\ settles n (ra_view a e) (ra_view a' e) r.
Proof.
  revert a r. induction n as [|n IH]; intros a r Ha Hwr Hinv Hc Hvalid; cbn [putLoop].
  { exists a. split; [done|]. split; [done|]. split; [by apply put_effect_refl|by intros []]. }
  destruct (Z.eqb_spec (recordCount m) 0); [lia|].
  set (i := slotIndex m (recordKey r)).
  assert (0 <= i < recordCount m) as Hi by apply slotIndex_range.
  pose proof Hc as [Hatt Hpath].
  destruct (ra_Put_valid a e i r Ha Hwr Hi ltac:(lia) Hvalid) as (a1&HPut&Ha1&Hw1).
  assert (ra_view a1 e i = Some r) as Hr by (rewrite Hw1 by done; apply view_insert_eq).
  assert ((forall old, ra_view a e i = Some old -> older (Value old) (Value r)) ->
    put_effect (ra_view a e) (ra_view a1 e) r) as H1 by (intros; by apply put_effect_insert).
  assert (settles (S n) (ra_view a e) (ra_view a1 e) r) as Hset1 by by intros _ _.
  cbv zeta. fold i. rewrite ra_Get_view by done.
  destruct (ra_view a e i) as [old|] eqn:Hold; 
    [|exists a1; split; [done|]; split; [done|]; split; [by apply H1|done]].
  destruct (Z.ltb_spec (valueComparator m (Value old) (Value r)) 0) as [Hlt|Hge].
  - specialize (H1 ltac:(by intros ? [= <-])).
    destruct (decide (recordKey old = recordKey r)) as [_|_]; [exists a1; auto|].
    destruct (Hinv i old Hi Hold) as (Hatt'&_&_).
    rewrite HPut. cbv iota. rewrite nextAttempt_small by done. cbn [recordKey Attempt].
    destruct (Z.leb_spec (maximumGetAttempts m) (Attempt (recordKey old) + 1)) as [|Hmax];
      [exists a1; auto|].
    destruct (IH a1 (mkMapRecord (nextAttempt (recordKey old)) (Value old)))
      as (a2&HP2&Ha2&H2&_); [done|done|by apply H1| |by apply (ra_view_valid a e i old)|].
    { apply carried_displaced with (ra_view a e) r; (done || lia). }
    rewrite nextAttempt_small in HP2 by done. exists a2. split; [done|]. split; [done|].
    split; [|intros _ _; exact (settles_displaced _ _ r old Hr Hlt H2)].
    apply put_effect_displace with (ra_view a1 e) old; [exact H1|exact H2|done|done|].
    intros j r1 Hj. rewrite Hw1 by done. destruct (decide (j = i)) as [->|Hji].
    + rewrite view_insert_eq. intros [= <-]. by right.
    + rewrite view_insert_ne by done. left. by exists j, r1.
  - assert (settles (S n) (ra_view a e) (ra_view a e) r) as Hset.
    { intros _ Ho. specialize (Ho old Hold). unfold LossyMap.older in Ho. lia. }
    destruct (decide (recordKey old = recordKey r)) as [_|_];
      [exists a; auto using put_effect_refl|].
    rewrite nextAttempt_small by done. cbn [recordKey Attempt].
    destruct (Z.leb_spec (maximumGetAttempts m) (Attempt (recordKey r) + 1)) as [|Hmax];
      [exists a; auto using put_effect_refl|].
    destruct (IH a (mkMapRecord (nextAttempt (recordKey r)) (Value r)))
      as (a2&HP2&Ha2&H2&_); [done|done|done| |done|].
    { eapply carried_next; [done|exact Hold| |done]. unfold LossyMap.older. lia. }
    rewrite nextAttempt_small in HP2 by done. exists a2. split; [done|]. split; [done|].
    split; [done|]. intros _ Ho. specialize (Ho old Hold). unfold LossyMap.older in Ho. lia.
Qed.

Lemma carried_fresh w k v : carried w (mkMapRecord (mkRecordKey k 0) v).
Proof. split; simpl; [lia|]. intros i Hi. lia. Qed.

(** What [Put] does to the live records. *)
Lemma Put_effect a k v e :
  ra_inv e a -> ra_writable e -> probe_inv (ra_view a e) -> ra_valid e k v ->
  exists a', hashMap_Put m a k v e = (a', Ok tt) /\ ra_inv e a' /\
    probe_inv (ra_view a' e) /\
    (forall k' v', stored (ra_view a' e) k' v' ->
       stored (ra_view a e) k' v' \/ (k', v') = (k, v)) /\
    (1 <= maximumPutAttempts m ->
     (forall k' v', stored (ra_view a e) k' v' -> older v' v) ->
     hashMap_Get m a' k e = Ok v).
Proof.
  intros Ha Hwr Hinv Hv.
  destruct (putLoop_effect (Z.to_nat (maximumPutAttempts m)) a
    (mkMapRecord (mkRecordKey k 0) v) e) as (a'&HP&Ha'&[Hinv' Heff]&Hset);
    [done..|apply carried_fresh|done|].
  exists a'. split; [done|]. split; [done|]. split; [done|]. split.
  - intros k' v' (j&r&Hj&Hr&<-&<-). destruct (Heff j Hj) as [Hsame|(r1&Hr1&_&_&Hst)].
    + left. exists j, r. by rewrite <- Hsame.
    + rewrite Hr in Hr1. injection Hr1 as <-. destruct Hst as [?|[-> ->]]; [by left|by right].
  - intros Hput Hnew.
    assert (ra_view a' e (slot k 0) = Some (mkMapRecord (mkRecordKey k 0) v)) as Hslot.
    { apply Hset; [lia|]. intros old Hold. eapply (Hnew (Key (recordKey old))).
      exists (slot k 0), old. split; [apply slotIndex_range|done]. }
    unfold hashMap_Get. destruct attemptFuel_enough as (n&->&_). cbn [getLoop].
    destruct (Z.eqb_spec (recordCount m) 0); [lia|].
    rewrite ra_Get_view by (done || apply slotIndex_range). rewrite Hslot. simpl.
    by rewrite decide_True by done.
Qed.

(** What [Get]'s loop returns from attempt [n] on. *)
Lemma getLoop_result fuel a k n e :
  ra_inv e a -> 0 <= n < maximumGetAttempts m ->
  maximumGetAttempts m - n <= Z.of_nat fuel ->
  let w := ra_view a e in
  let passed i := forall j, n <= j < i -> exists r,
    w (slot k j) = Some r /\ recordKey r <> mkRecordKey k j in
  (exists i v, n <= i < maximumGetAttempts m /\ passed i /\
     w (slot k i) = Some (mkMapRecord (mkRecordKey k i) v) /\
     getLoop m fuel a (mkRecordKey k n) e = Ok v) \/
  (getLoop m fuel a (mkRecordKey k n) e = Err (StatusError CodeNotFound) /\
   exists i, n <= i <= maximumGetAttempts m /\ passed i /\
     (i = maximumGetAttempts m \/ w (slot k i) = None)).
Proof.
  intros Ha. revert n. induction fuel as [|fuel IH]; intros n Hn Hfuel w passed; [lia|].
  cbn [getLoop]. destruct (Z.eqb_spec (recordCount m) 0); [lia|].
  rewrite ra_Get_view by (done || apply slotIndex_range). fold w.
  destruct (w (slot k n)) as [r|] eqn:Hr.
  2: { right. split; [done|]. exists n. split; [lia|]. split; [intros j; lia|by right]. }
  destruct (decide (recordKey r = mkRecordKey k n)) as [Ek|Hne].
  { left. exists n, (Value r). split; [lia|]. split; [intros j; lia|].
    split; [|done]. rewrite Hr, <- Ek. by destruct r. }
  rewrite nextAttempt_small by done. cbn [Attempt Key].
  assert (forall i, (forall j, n + 1 <= j < i -> exists r,
    w (slot k j) = Some r /\ recordKey r <> mkRecordKey k j) -> passed i) as Hpass.
  { intros i Hi j Hj. destruct (Z.eqb_spec j n) as [->|]; [by exists r|apply Hi; lia]. }
  destruct (Z.leb_spec (maximumGetAttempts m) (n + 1)).
  { right. split; [done|]. exists (maximumGetAttempts m). split; [lia|].
    split; [|by left]. apply Hpass. intros j; lia. }
  destruct (IH (n + 1)) as [(i&v&Hi&Hp&Hw&HG)|(HG&i&Hi&Hp&Hend)]; [lia|lia| |].
  - left. exists i, v. split; [lia|]. split; [by apply Hpass|done].
  - right. split; [done|]. exists i. split; [lia|]. split; [by apply Hpass|done].
Qed.

(** [Get] finds a live record of the key whenever there is one, and the newest. *)
Lemma Get_newest a k e :
  ra_inv e a -> probe_inv (ra_view a e) ->
  (exists v, hashMap_Get m a k e = Ok v /\ stored (ra_view a e) k v /\
     forall v', stored (ra_view a e) k v' -> ~ older v v') \/
  (hashMap_Get m a k e = Err (StatusError CodeNotFound) /\ forall v, ~ stored (ra_view a e) k v).
Proof.
  intros Ha Hinv. unfold hashMap_Get. destruct attemptFuel_enough as (n&->&Hn).
  destruct (getLoop_result (S n) a k 0 e Ha ltac:(lia) ltac:(lia))
    as [(i&v&Hi&Hp&Hw&HG)|(HG&i&Hi&Hp&Hend)].
  - left. exists v. split; [done|]. split.
    { exists (slot k i), (mkMapRecord (mkRecordKey k i) v). split; [apply slotIndex_range|done]. }
    intros v' (j&r&Hj&Hr&Hk&Hv). destruct (Hinv j r Hj Hr) as (Hatt&Hslot&Hpath).
    destruct r as [[k' n'] v'']. simpl in *. subst.
    destruct (Z.lt_trichotomy i n') as [Hlt|[->|Hgt]].
    + destruct (Hpath i ltac:(lia)) as (r&Hr'&Hv). rewrite Hw in Hr'. by injection Hr' as <-.
    + rewrite Hw in Hr. injection Hr as ->. apply older_irrefl.
    + destruct (Hp n' ltac:(lia)) as (r&Hr'&Hne). rewrite Hr in Hr'. by injection Hr' as <-.
  - right. split; [done|]. intros v (j&r&Hj&Hr&Hk&Hv).
    destruct (Hinv j r Hj Hr) as (Hatt&Hslot&Hpath).
    destruct r as [[k' n'] v'']. simpl in *. subst.
    destruct (Z.ltb_spec n' i) as [Hlt|Hge].
    + destruct (Hp n' ltac:(lia)) as (r&Hr'&Hne). rewrite Hr in Hr'. by injection Hr' as <-.
    + destruct Hend as [->|Hnone]; [lia|]. destruct (Z.eqb_spec i n') as [->|Hne]; [congruence|].
      destruct (Hpath i ltac:(lia)) as (r&Hr'&_). congruence.
Qed.
(** Whether or not the table is searchable (the expiration data may have moved
    either way), [Put] succeeds and invents nothing. *)
Lemma putLoop_sound n a r e :
  ra_inv e a -> ra_writable e -> 0 <= Attempt (recordKey r) < maximumGetAttempts m ->
  ra_valid e (Key (recordKey r)) (Value r) ->
  exists a', putLoop m n a r e = (a', Ok tt) /\ ra_inv e a' /\
    forall k v, stored (ra_view a' e) k v ->
      stored (ra_view a e) k v \/ k = Key (recordKey r) /\ v = Value r.
Proof.
  revert a r. induction n as [|n IH]; intros a r Ha Hwr Hatt Hvalid; cbn [putLoop].
  { exists a. split; [done|]. split; [done|]. by left. }
  destruct (Z.eqb_spec (recordCount m) 0); [lia|].
  set (i := slotIndex m (recordKey r)).
  assert (0 <= i < recordCount m) as Hi by apply slotIndex_range.
  destruct (ra_Put_valid a e i r Ha Hwr Hi ltac:(lia) Hvalid) as (a1&HPut&Ha1&Hw1).
  assert (forall k v, stored (ra_view a1 e) k v ->
    stored (ra_view a e) k v \/ k = Key (recordKey r) /\ v = Value r) as Hst1.
  { intros k v (j&r1&Hj&Hr1&<-&<-). rewrite Hw1 in Hr1 by done.
    destruct (decide (j = i)) as [->|Hne].
    - rewrite view_insert_eq in Hr1. injection Hr1 as <-. by right.
    - rewrite view_insert_ne in Hr1 by done. left. by exists j, r1. }
  cbv zeta. fold i. rewrite ra_Get_view by done.
  destruct (ra_view a e i) as [old|] eqn:Hold; [|by exists a1].
  destruct (ra_view_valid a e i old Ha Hi Hold) as [Hov Hoatt].
  assert (0 <= Attempt (nextAttempt (recordKey old)) /\ 0 <= Attempt (nextAttempt (recordKey r))) as [Hon Hrn]
    by (unfold nextAttempt, u8; cbn [Attempt]; split; apply Z.mod_pos_bound; lia).
  destruct (valueComparator m (Value old) (Value r) <? 0).
  - destruct (decide (recordKey old = recordKey r)) as [_|_]; [by exists a1|].
    rewrite HPut. cbv iota. cbn [recordKey].
    destruct (Z.leb_spec (maximumGetAttempts m) (Attempt (nextAttempt (recordKey old)))) as [|Hmax];
      [by exists a1|].
    destruct (IH a1 (mkMapRecord (nextAttempt (recordKey old)) (Value old))) as (a2&HP2&Ha2&Hst2);
      [done|done|simpl in *; lia|by apply Hov|].
    exists a2. split; [done|]. split; [done|]. intros k v Hkv.
    destruct (Hst2 k v Hkv) as [?|[-> ->]]; [by apply Hst1|]. left. by exists i, old.
  - destruct (decide (recordKey old = recordKey r)) as [_|_]; [exists a; auto|]. cbn [recordKey].
    destruct (Z.leb_spec (maximumGetAttempts m) (Attempt (nextAttempt (recordKey r)))) as [|Hmax];
      [exists a; auto|].
    apply (IH a (mkMapRecord (nextAttempt (recordKey r)) (Value r))); [done|done|simpl in *; lia|done].
Qed.

Lemma Put_sound a k v e :
  ra_inv e a -> ra_writable e -> ra_valid e k v ->
  exists a', hashMap_Put m a k v e = (a', Ok tt) /\ ra_inv e a' /\
    forall k' v', stored (ra_view a' e) k' v' ->
      stored (ra_view a e) k' v' \/ k' = k /\ v' = v.
Proof. intros. apply putLoop_sound; simpl; done || lia. Qed.

(** Likewise, what [Get] returns is in the table. *)
Lemma Get_sound a k e :
  ra_inv e a ->
  (exists v, hashMap_Get m a k e = Ok v /\ stored (ra_view a e) k v) \/
  hashMap_Get m a k e = Err (StatusError CodeNotFound).
Proof.
  intros Ha. unfold hashMap_Get. destruct attemptFuel_enough as (n&->&Hn).
  destruct (getLoop_result (S n) a k 0 e Ha ltac:(lia) ltac:(lia))
    as [(i&v&Hi&_&Hw&HG)|(HG&_)]; [|by right].
  left. exists v. split; [done|]. exists (slot k i), (mkMapRecord (mkRecordKey k i) v).
  split; [apply slotIndex_range|done].
Qed.
End hash_map_laws.

(** ** The implementations in this package *)

#[global] Instance simpleRecordArray_laws {K V} count :
  RecordArrayLaws (simpleRecordArray K V) K V unit count.
Proof.
  unfold simpleRecordArray. refine {|
    ra_inv _ a := zlen a = count /\ Forall (fun r => 0 <= Attempt (recordKey r) < 2 ^ 8) a;
    ra_view a _ i := a !! Z.to_nat i;
    ra_writable _ := True;
    ra_valid _ _ _ := True;
  |}.
  - intros a [] i r [Hlen Hall] Hi Hr. split; [done|]. exact (Forall_lookup_1 _ _ _ _ Hall Hr).
  - intros a [] i [Hlen _] Hi. unfold zlen in Hlen. simpl. unfold simpleRecordArray_Get, index.
    destruct (Z.ltb_spec i 0); [lia|].
    destruct (lookup_lt_is_Some_2 a (Z.to_nat i)) as [r Hr]; [lia|]. by rewrite Hr.
  - intros a [] i r [Hlen Hall] _ Hi Hr _. unfold zlen in Hlen. simpl. unfold simpleRecordArray_Put, index.
    destruct (Z.ltb_spec i 0); [lia|].
    destruct (lookup_lt_is_Some_2 a (Z.to_nat i)) as [r0 Hr0]; [lia|]. rewrite Hr0.
    eexists. split; [done|]. split.
    + split; [unfold zlen, simpleRecordArray; by rewrite length_insert|]. by apply Forall_insert.
    + intros j Hj. unfold view_insert, simpleRecordArray. case_decide as Hij.
      * subst. by rewrite list_lookup_insert_eq by lia.
      * by rewrite list_lookup_insert_ne by lia.
Defined.

#[global] Instance lowerBoundComparingRecordArray_laws {A K V} (cmp : V -> V -> Z)
    `{!RecordArray A K V unit} count `{!RecordArrayLaws A K V unit count} :
  RecordArrayLaws (lowerBoundComparingRecordArray A V cmp) K V V count.
Proof.
  refine {|
    ra_inv _ a := ra_inv tt (base a);
    ra_view a e i := match ra_view (base a) tt i with
                     | Some r => if cmp (Value r) e <? 0 then None else Some r
                     | None => None
                     end;
    ra_writable e := ra_writable tt;
    ra_valid e k v := ra_valid tt k v /\ ~ older cmp v e;
  |}.
  - intros a e i r Ha Hi. destruct (ra_view (base a) tt i) as [r'|] eqn:Hr; [|done].
    case_bool; [done|]. intros [= ->]. destruct (ra_view_valid _ _ _ _ Ha Hi Hr) as [Hv ?].
    unfold older. split; [intros Hwr; split; [by apply Hv|lia]|done].
  - intros a e i Ha Hi. simpl. unfold lowerBound_Get. rewrite ra_Get_view by done.
    destruct (ra_view (base a) tt i); [|done]. simpl. by case_bool.
  - intros a e i r Ha Hwr Hi Hatt [Hv Hold]. simpl. unfold lowerBound_Put, older in *.
    destruct (Z.ltb_spec (cmp (Value r) e) 0) as [|Hge]; [lia|].
    destruct (ra_Put_valid _ _ _ _ Ha Hwr Hi Hatt Hv) as (b&->&Hb&Hw).
    eexists. split; [done|]. split; [done|]. intros j Hj. simpl. rewrite Hw by done.
    unfold view_insert. case_decide; [|done]. destruct (Z.ltb_spec (cmp (Value r) e) 0); [lia|done].
Defined.

(** ** Properties *)

(** C39: [Put] keeps the table searchable: every live record is in the slot of
    its key and attempt, behind live slots that hold values that are not
    older.  It also invents nothing: every pair in the table afterwards was
    there before or is the pair that was inserted. *)
Theorem hashMap_Put_preserves_invariant {A K V E} `{EqDecision K} `{!RecordArray A K V E}
    (m : hashMap K V) `{!RecordArrayLaws A K V E (recordCount m)}
    `{!AgeOrder (valueComparator m)} a k v e :
  0 < recordCount m -> 1 <= maximumGetAttempts m < 2 ^ 8 ->
  ra_inv e a -> ra_writable e -> probe_inv m (ra_view a e) -> ra_valid e k v ->
  exists a', hashMap_Put m a k v e = (a', Ok tt) /\ ra_inv e a' /\
    probe_inv m (ra_view a' e) /\
    forall k' v', stored m (ra_view a' e) k' v' ->
      stored m (ra_view a e) k' v' \/ (k', v') = (k, v).
Proof.
  intros Hcount Hget Ha Hwr Hinv Hv.
  destruct (Put_effect m Hcount Hget a k v e Ha Hwr Hinv Hv) as (a'&HP&Ha'&Hinv'&Hst&_).
  by exists a'.
Qed.

(** [Get] terminates, fails only with NotFound, and is exact: it returns a
    value if and only if the table holds a live record of the key, and then
    the newest one.  Stopping at the first expired slot loses nothing. *)
Theorem hashMap_Get_newest {A K V E} `{EqDecision K} `{!RecordArray A K V E}
    (m : hashMap K V) `{!RecordArrayLaws A K V E (recordCount m)}
    `{!AgeOrder (valueComparator m)} a k e :
  0 < recordCount m -> 1 <= maximumGetAttempts m < 2 ^ 8 ->
  ra_inv e a -> probe_inv m (ra_view a e) ->
  (exists v, hashMap_Get m a k e = Ok v /\ stored m (ra_view a e) k v /\
     forall v', stored m (ra_view a e) k v' -> ~ older (valueComparator m) v v') \/
  (hashMap_Get m a k e = Err (StatusError CodeNotFound) /\
   forall v, ~ stored m (ra_view a e) k v).
Proof. intros. by apply Get_newest. Qed.

(** A value that is newer than every live value in the table is found by
    the next [Get] of its key, whatever [Put] had to displace. *)
Theorem hashMap_Put_then_Get {A K V E} `{EqDecision K} `{!RecordArray A K V E}
    (m : hashMap K V) `{!RecordArrayLaws A K V E (recordCount m)}
    `{!AgeOrder (valueComparator m)} a k v e :
  0 < recordCount m -> 1 <= maximumGetAttempts m < 2 ^ 8 -> 1 <= maximumPutAttempts m ->
  ra_inv e a -> ra_writable e -> probe_inv m (ra_view a e) -> ra_valid e k v ->
  (forall k' v', stored m (ra_view a e) k' v' -> older (valueComparator m) v' v) ->
  exists a', hashMap_Put m a k v e = (a', Ok tt) /\ hashMap_Get m a' k e = Ok v.
Proof.
  intros Hcount Hget Hput Ha Hwr Hinv Hv Hnew.
  destruct (Put_effect m Hcount Hget a k v e Ha Hwr Hinv Hv) as (a'&HP&_&_&_&HG).
  exists a'. split; [done|by apply HG].
Qed.

(** A table of four slots for integers ordered by size, whose values are
    expired below 1: every slot of a fresh table is free. *)
Definition witness_cmp (a b : Z) : Z := a - b.

#[global] Instance witness_cmp_AgeOrder : AgeOrder witness_cmp.
Proof. split; unfold older, witness_cmp; lia. Qed.

Definition witness_map : hashMap Z Z :=
  mkHashMap 4 (fun rk => Key rk + Attempt rk) witness_cmp 3 5.

Definition witness_array : lowerBoundComparingRecordArray (simpleRecordArray Z Z) Z witness_cmp :=
  mkLowerBound (NewSimpleRecordArray 0 0 4).

Lemma witness_array_inv : ra_inv (count := recordCount witness_map) 1 witness_array.
Proof. split; [reflexivity|]. repeat constructor; simpl; lia. Qed.

Lemma witness_array_empty i :
  0 <= i < recordCount witness_map -> ra_view (count := recordCount witness_map) witness_array 1 i = None.
Proof.
  intros Hi. simpl in Hi. assert (i = 0 \/ i = 1 \/ i = 2 \/ i = 3) as [-> | [-> | [-> | ->]]] by lia;
  reflexivity.
Qed.

Lemma witness_array_probe_inv :
  probe_inv witness_map (ra_view (count := recordCount witness_map) witness_array 1).
Proof. intros i r Hi. by rewrite witness_array_empty. Qed.

Lemma hashMap_Put_preserves_invariant_witness :
  exists a', hashMap_Put witness_map witness_array 7 9 1 = (a', Ok tt) /\
    probe_inv witness_map (ra_view (count := recordCount witness_map) a' 1).
Proof.
  destruct (hashMap_Put_preserves_invariant witness_map witness_array 7 9 1)
    as (a'&HP&_&Hinv&_); [reflexivity|simpl; lia|apply witness_array_inv|exact I|
    apply witness_array_probe_inv|split; [exact I|unfold older, witness_cmp; lia]|].
  by exists a'.
Defined.

Lemma hashMap_Get_newest_witness :
  hashMap_Get witness_map witness_array 7 1 = Err (StatusError CodeNotFound).
Proof.
  destruct (hashMap_Get_newest witness_map witness_array 7 1)
    as [(v&_&(i&r&Hi&Hr&_)&_)|[HG _]]; [reflexivity|simpl; lia|apply witness_array_inv|
    apply witness_array_probe_inv| |exact HG].
  by rewrite witness_array_empty in Hr.
Defined.

Lemma hashMap_Put_then_Get_witness :
  exists a', hashMap_Put witness_map witness_array 7 9 1 = (a', Ok tt) /\
    hashMap_Get witness_map a' 7 1 = Ok 9.
Proof.
  apply (hashMap_Put_then_Get witness_map witness_array 7 9 1);
    [reflexivity|simpl; lia|simpl; lia|apply witness_array_inv|exact I|
    apply witness_array_probe_inv|split; [exact I|unfold older, witness_cmp; lia]|].
  intros k' v' (i&r&Hi&Hr&_). by rewrite witness_array_empty in Hr.
Defined.
