(* ===== verification/Float16.v ===== *)
(** * Unsigned 16-bit floating point ([pkg/encoding/float16])

    The lossy encoding of the maximum total size of the parents of an object
    in a reference: 5 bits of exponent, 11 bits of significand, no sign bit
    and no infinities.  The theorems show that [FromUint64RoundUp] is the
    least upper approximation, that [ToUint64] is strictly increasing and
    that the two are inverse on every representable value. *)

From S2P Require Import Prelude.

Definition significandBits : Z := 11.
Definition significandMask : Z := Z.shiftl 1 significandBits - 1.
Definition significandLeadingBit : Z := Z.shiftl 1 significandBits.
Definition exponentBits : Z := 16 - significandBits.
Definition exponentMax : Z := Z.shiftl 1 exponentBits - 1.

(** [^v] on [uint64]. *)
Definition not_u64 (v : Z) : Z := u64 (Z.lnot v).

Definition float16GetExponent (v : Z) : Z := Len64 v - significandBits - 1.

(** The second result [false] is [None]. *)
Definition FromUint64RoundUp (v : Z) : option Z :=
  if v <=? significandMask then Some (u16 v)
  else if v >? Z.shiftl (significandLeadingBit + significandMask) (exponentMax - 1) then None
  else
    let v := add_u64 v (not_u64 (shl_u64 (not_u64 0) (float16GetExponent v))) in
    let shift := u16 (float16GetExponent v) in
    Some (Z.lor (u16 (Z.shiftl (u16 (shift + 1)) significandBits))
                (Z.land (u16 (Z.shiftr v shift)) significandMask)).

Definition ToUint64 (v : Z) : Z :=
  let exponent := Z.shiftr v significandBits in
  if exponent =? 0 then v
  else
    let significand := Z.land v significandMask in
    shl_u64 (Z.lor significand significandLeadingBit) (exponent - 1).

(** ** Lemmas *)

Lemma ToUint64_subnormal v : 0 <= v < 2048 -> ToUint64 v = v.
Proof.
  intros Hv. unfold ToUint64. rewrite Z.shiftr_div_pow2 by done.
  change (2 ^ significandBits) with 2048. by rewrite Z.div_small.
Qed.

Lemma ToUint64_normal s m :
  0 <= s <= 30 -> 0 <= m < 2048 -> ToUint64 ((s + 1) * 2048 + m) = (m + 2048) * 2 ^ s.
Proof.
  intros Hs Hm. unfold ToUint64. rewrite Z.shiftr_div_pow2 by done.
  change (2 ^ significandBits) with 2048.
  replace (((s + 1) * 2048 + m) / 2048) with (s + 1) by arith.
  destruct (Z.eqb_spec (s + 1) 0); [lia|].
  rewrite (land_mask 11) by done. change (2 ^ 11) with 2048.
  replace (((s + 1) * 2048 + m) mod 2048) with m by arith.
  rewrite (lor_split_r 11) by done. change significandLeadingBit with 2048.
  unfold shl_u64, u64. rewrite Z.shiftl_mul_pow2 by lia.
  replace (s + 1 - 1) with s by lia. apply Z.mod_small.
  assert (0 < 2 ^ s <= 2 ^ 30) as Hp by (split; [|apply Z.pow_le_mono_r]; lia).
  change (2 ^ 30) with 1073741824 in Hp. literal_pow. nia.
Qed.

(** Every 16-bit value is subnormal or has an exponent and a significand. *)
Lemma float16_cases f :
  is_u16 f -> 0 <= f < 2048 \/
    exists s m, 0 <= s <= 30 /\ 0 <= m < 2048 /\ f = (s + 1) * 2048 + m.
Proof.
  unfold is_u16. change (2 ^ 16) with 65536. intros Hf.
  destruct (Z.ltb_spec f 2048); [by left; lia|]. right.
  exists (f / 2048 - 1), (f mod 2048). arith.
Qed.

Lemma ToUint64_step f : 0 <= f < 65535 -> ToUint64 f < ToUint64 (f + 1).
Proof.
  intros Hf. destruct (float16_cases f) as [Hs|(s&m&Hs&Hm&->)].
  { unfold is_u16. lia. }
  - rewrite (ToUint64_subnormal f) by done. destruct (Z.eqb_spec f 2047) as [->|].
    + reflexivity.
    + rewrite ToUint64_subnormal; lia.
  - rewrite ToUint64_normal by lia. assert (0 < 2 ^ s) by lia.
    destruct (Z.eqb_spec m 2047) as [->|].
    + replace ((s + 1) * 2048 + 2047 + 1) with ((s + 1 + 1) * 2048 + 0) by lia.
      rewrite ToUint64_normal, Z.pow_add_r by lia. change (2 ^ 1) with 2. nia.
    + rewrite <- Z.add_assoc, ToUint64_normal by lia. nia.
Qed.

Lemma ToUint64_increasing f g : is_u16 f -> is_u16 g -> f < g -> ToUint64 f < ToUint64 g.
Proof.
  unfold is_u16. change (2 ^ 16) with 65536. intros Hf Hg Hlt.
  assert (forall n, f + 1 + Z.of_nat n < 65536 ->
    ToUint64 f < ToUint64 (f + 1 + Z.of_nat n)) as IH.
  { induction n as [|n IH]; intros Hn.
    - rewrite Z.add_0_r. apply ToUint64_step. lia.
    - etransitivity; [apply IH; lia|].
      replace (f + 1 + Z.of_nat (S n)) with (f + 1 + Z.of_nat n + 1) by lia.
      apply ToUint64_step. lia. }
  replace g with (f + 1 + Z.of_nat (Z.to_nat (g - f - 1))) by lia. apply IH. lia.
Qed.

Lemma ToUint64_le f g : is_u16 f -> is_u16 g -> f <= g -> ToUint64 f <= ToUint64 g.
Proof.
  intros Hf Hg Hle. destruct (Z.eqb_spec f g) as [->|]; [done|].
  apply Z.lt_le_incl, ToUint64_increasing; (done || lia).
Qed.

Lemma ToUint64_range f : is_u16 f -> 0 <= ToUint64 f <= 4095 * 2 ^ 30.
Proof.
  intros Hf. change (4095 * 2 ^ 30) with (ToUint64 65535). change 0 with (ToUint64 0) at 1.
  unfold is_u16 in *. change (2 ^ 16) with 65536 in *.
  split; apply ToUint64_le; unfold is_u16; lia.
Qed.

(** The exponent of a value with [s + 12] significant bits. *)
Lemma float16GetExponent_eq v s :
  0 <= s -> 2048 * 2 ^ s <= v < 4096 * 2 ^ s -> float16GetExponent v = s.
Proof.
  intros Hs Hv. unfold float16GetExponent, Len64.
  assert (0 < 2 ^ s) by lia. destruct (Z.eqb_spec v 0); [lia|].
  rewrite (Z.log2_unique v (s + 11)); [unfold significandBits; lia|lia|].
  rewrite Z.pow_succ_r, Z.pow_add_r by lia. change (2 ^ 11) with 2048. lia.
Qed.

(** Adding [^(^uint64(0) << s)] is adding [2^s - 1]. *)
Lemma not_shl_ones s : 0 <= s < 64 -> not_u64 (shl_u64 (not_u64 0) s) = 2 ^ s - 1.
Proof.
  intros Hs. change (not_u64 0) with (2 ^ 64 - 1). unfold not_u64, shl_u64, u64, Z.lnot.
  rewrite Z.shiftl_mul_pow2 by lia.
  assert (0 < 2 ^ s < 2 ^ 64) by (split; [|apply Z.pow_lt_mono_r]; lia).
  replace ((2 ^ 64 - 1) * 2 ^ s) with (2 ^ 64 - 2 ^ s + (2 ^ s - 1) * 2 ^ 64) by lia.
  rewrite Z_mod_plus_full, (Z.mod_small (2 ^ 64 - 2 ^ s)) by lia.
  replace (Z.pred (- (2 ^ 64 - 2 ^ s))) with (2 ^ s - 1 + (-1) * 2 ^ 64) by lia.
  rewrite Z_mod_plus_full. apply Z.mod_small. lia.
Qed.

(** The last line of [FromUint64RoundUp], for a rounded value [q * 2^s]. *)
Lemma encode_normal v s :
  0 <= s <= 30 -> 2048 * 2 ^ s <= v < 4096 * 2 ^ s ->
  Z.lor (u16 (Z.shiftl (u16 (u16 (float16GetExponent v) + 1)) significandBits))
        (Z.land (u16 (Z.shiftr v (u16 (float16GetExponent v)))) significandMask)
  = (s + 1) * 2048 + (v / 2 ^ s - 2048).
Proof.
  intros Hs Hv. rewrite (float16GetExponent_eq v s) by lia. unfold u16.
  change (2 ^ 16) with 65536.
  rewrite (Z.mod_small s), (Z.mod_small (s + 1)) by lia.
  rewrite Z.shiftl_mul_pow2, Z.shiftr_div_pow2 by done || lia.
  change (2 ^ significandBits) with 2048. rewrite (Z.mod_small ((s + 1) * 2048)) by lia.
  assert (2048 <= v / 2 ^ s < 4096) as Hq
    by (split; [apply Z.div_le_lower_bound|apply Z.div_lt_upper_bound]; lia).
  rewrite (Z.mod_small (v / 2 ^ s)) by lia. rewrite (land_mask 11) by done.
  change (2 ^ 11) with 2048.
  replace ((v / 2 ^ s) mod 2048) with (v / 2 ^ s - 2048) by arith.
  apply (lor_disjoint (s + 1) _ 11); [lia|]. change (2 ^ 11) with 2048. lia.
Qed.

Lemma exponent_exists v :
  2048 <= v <= 4095 * 2 ^ 30 -> exists s, 0 <= s <= 30 /\ 2048 * 2 ^ s <= v < 4096 * 2 ^ s.
Proof.
  intros Hv. exists (Z.log2 v - 11).
  assert (11 <= Z.log2 v) by (change 11 with (Z.log2 2048); apply Z.log2_le_mono; lia).
  assert (Z.log2 v <= 41)
    by (change 41 with (Z.log2 (4095 * 2 ^ 30)); apply Z.log2_le_mono; lia).
  destruct (Z.log2_spec v) as [Hlo Hhi]; [lia|]. rewrite Z.pow_succ_r in Hhi by lia.
  replace (Z.log2 v) with (Z.log2 v - 11 + 11) in Hlo, Hhi at 1 by lia.
  rewrite Z.pow_add_r in Hlo, Hhi by lia. change (2 ^ 11) with 2048 in *. lia.
Qed.

(** The result is an upper bound of [v], its predecessor is below [v], and the
    relative error is below [2^-11]. *)
Lemma FromUint64RoundUp_bounds v :
  0 <= v <= 4095 * 2 ^ 30 ->
  exists f, FromUint64RoundUp v = Some f /\ is_u16 f /\ v <= ToUint64 f /\
    (ToUint64 f - v) * 2048 <= v /\ (0 < f -> ToUint64 (f - 1) < v).
Proof.
  intros Hv. unfold FromUint64RoundUp. change significandMask with 2047.
  unfold is_u16. change (2 ^ 16) with 65536.
  destruct (Z.leb_spec v 2047) as [Hsub|Hnorm].
  { unfold u16. change (2 ^ 16) with 65536. rewrite Z.mod_small by lia.
    exists v. split; [done|]. rewrite ToUint64_subnormal by lia.
    split; [lia|]. split; [lia|]. split; [lia|]. intros. rewrite ToUint64_subnormal; lia. }
  change (Z.shiftl _ (exponentMax - 1)) with (4095 * 2 ^ 30). rewrite Z.gtb_ltb.
  destruct (Z.ltb_spec (4095 * 2 ^ 30) v) as [|_]; [lia|]. cbv zeta.
  destruct (exponent_exists v) as (s&Hs&Hr); [lia|].
  rewrite (float16GetExponent_eq v s) by lia. rewrite not_shl_ones by lia.
  assert (0 < 2 ^ s <= 2 ^ 30) as Hp by (split; [|apply Z.pow_le_mono_r]; lia).
  unfold add_u64, u64. rewrite Z.mod_small by lia.
  set (w := v + (2 ^ s - 1)).
  change significandMask with 2047. change 2047 with significandMask.
  destruct (Z.ltb_spec w (4096 * 2 ^ s)) as [Hw|Hw].
  - rewrite (encode_normal w s) by lia. eexists. split; [done|].
    assert (2048 <= w / 2 ^ s < 4096) as Hq
      by (split; [apply Z.div_le_lower_bound|apply Z.div_lt_upper_bound]; lia).
    rewrite ToUint64_normal by lia. replace (w / 2 ^ s - 2048 + 2048) with (w / 2 ^ s) by lia.
    pose proof (Z.div_mod w (2 ^ s)) as Hdm. pose proof (Z.mod_pos_bound w (2 ^ s)) as Hmb.
    split; [lia|]. split; [lia|]. split; [lia|]. intros _.
    destruct (Z.eqb_spec (w / 2 ^ s) 2048) as [E|].
    + apply Z.lt_le_trans with (ToUint64 ((s + 1) * 2048 + (w / 2 ^ s - 2048))).
      { apply ToUint64_increasing; unfold is_u16; lia. }
      rewrite ToUint64_normal by lia. nia.
    + replace ((s + 1) * 2048 + (w / 2 ^ s - 2048) - 1)
        with ((s + 1) * 2048 + (w / 2 ^ s - 2048 - 1)) by lia.
      rewrite ToUint64_normal by lia. nia.
  - assert (s < 30) as Hs' by (destruct (Z.eqb_spec s 30); [subst; lia|lia]).
    assert (2 ^ (s + 1) = 2 * 2 ^ s) as E by (rewrite Z.pow_add_r by lia; lia).
    rewrite (encode_normal w (s + 1)) by lia. eexists. split; [done|].
    replace (w / 2 ^ (s + 1)) with 2048 by (apply Z.div_unique with (w - 4096 * 2 ^ s); lia).
    rewrite ToUint64_normal by lia. split; [lia|]. split; [lia|]. split; [lia|]. intros _.
    replace ((s + 1 + 1) * 2048 + (2048 - 2048) - 1) with ((s + 1) * 2048 + 2047) by lia.
    rewrite ToUint64_normal by lia. lia.
Qed.

Lemma FromUint64RoundUp_overflow v : 4095 * 2 ^ 30 < v -> FromUint64RoundUp v = None.
Proof.
  intros Hv. unfold FromUint64RoundUp. destruct (Z.leb_spec v significandMask) as [H|_].
  { change significandMask with 2047 in H. lia. }
  change (Z.shiftl _ (exponentMax - 1)) with (4095 * 2 ^ 30). rewrite Z.gtb_ltb.
  by destruct (Z.ltb_spec (4095 * 2 ^ 30) v) as [|]; [|lia].
Qed.

Lemma FromUint64RoundUp_Some v f :
  0 <= v -> FromUint64RoundUp v = Some f ->
  is_u16 f /\ v <= ToUint64 f /\ forall g, is_u16 g -> v <= ToUint64 g -> f <= g.
Proof.
  intros Hv Hf. destruct (Z.leb_spec v (4095 * 2 ^ 30)).
  - destruct (FromUint64RoundUp_bounds v) as (f'&Hf'&Hu&Hup&_&Hleast); [lia|].
    rewrite Hf in Hf'. injection Hf' as <-. split; [done|]. split; [done|].
    intros g Hg Hvg. apply Z.nlt_ge. intros Hlt.
    assert (ToUint64 g <= ToUint64 (f - 1)).
    { unfold is_u16 in *. apply ToUint64_le; unfold is_u16; lia. }
    unfold is_u16 in *. lia.
  - rewrite FromUint64RoundUp_overflow in Hf; [done|lia].
Qed.

Lemma FromUint64RoundUp_ToUint64 f : is_u16 f -> FromUint64RoundUp (ToUint64 f) = Some f.
Proof.
  intros Hf. pose proof (ToUint64_range f Hf).
  destruct (FromUint64RoundUp_bounds (ToUint64 f)) as (g&Hg&Hu&Hup&_&_); [lia|].
  rewrite Hg. f_equal. destruct (FromUint64RoundUp_Some (ToUint64 f) g ltac:(lia) Hg) as (_&_&Hleast).
  specialize (Hleast f Hf ltac:(lia)).
  destruct (Z.eqb_spec g f) as [|Hne]; [done|].
  pose proof (ToUint64_increasing g f Hu Hf). lia.
Qed.

Lemma FromUint64RoundUp_le v w f g :
  0 <= v <= w -> FromUint64RoundUp v = Some f -> FromUint64RoundUp w = Some g -> f <= g.
Proof.
  intros Hvw Hf Hg. apply FromUint64RoundUp_Some in Hf as (_&_&Hleast); [|lia].
  apply FromUint64RoundUp_Some in Hg as (Hu&Hw&_); [|lia]. apply Hleast; (done || lia).
Qed.

(** ** Properties *)

(** [FromUint64RoundUp] rounds up to the nearest representable value: it
    succeeds exactly on [0, 4095 * 2^30], and then its result is the least
    16-bit value that decodes to at least [v], with a relative error of less
    than one part in 2048. *)
Theorem FromUint64RoundUp_least v :
  is_u64 v ->
  match FromUint64RoundUp v with
  | Some f => is_u16 f /\ v <= ToUint64 f /\ (ToUint64 f - v) * 2048 <= v /\
      forall g, is_u16 g -> v <= ToUint64 g -> f <= g
  | None => forall g, is_u16 g -> ToUint64 g < v
  end.
Proof.
  intros Hv. unfold is_u64 in Hv. destruct (Z.leb_spec v (4095 * 2 ^ 30)) as [Hle|Hgt].
  - destruct (FromUint64RoundUp_bounds v) as (f&Hf&Hu&Hup&Herr&_); [lia|].
    destruct (FromUint64RoundUp_Some v f ltac:(lia) Hf) as (_&_&Hleast).
    by rewrite Hf.
  - rewrite FromUint64RoundUp_overflow by done. intros g Hg.
    pose proof (ToUint64_range g Hg). lia.
Qed.

Lemma FromUint64RoundUp_least_witness :
  FromUint64RoundUp 4097 = Some 4097 /\ ToUint64 4097 = 4098 /\ 4097 <= ToUint64 4097.
Proof.
  split; [reflexivity|]. split; [reflexivity|].
  pose proof (FromUint64RoundUp_least 4097 ltac:(unfold is_u64; lia)) as H.
  change (FromUint64RoundUp 4097) with (Some 4097) in H. exact (proj1 (proj2 H)).
Defined.

(** Every 16-bit value survives decoding and encoding, and decoding is
    strictly increasing, so references may be compared by their encoded sizes. *)
Theorem float16_roundtrip f g :
  is_u16 f -> is_u16 g ->
  FromUint64RoundUp (ToUint64 f) = Some f /\ (f < g <-> ToUint64 f < ToUint64 g).
Proof.
  intros Hf Hg. split; [by apply FromUint64RoundUp_ToUint64|].
  split; [by apply ToUint64_increasing|]. intros Hlt. apply Z.nle_gt. intros Hle.
  pose proof (ToUint64_le g f Hg Hf Hle). lia.
Qed.

Lemma float16_roundtrip_witness :
  FromUint64RoundUp (ToUint64 2050) = Some 2050 /\ (2050 < 9000 <-> ToUint64 2050 < ToUint64 9000).
Proof. apply (float16_roundtrip 2050 9000); unfold is_u16; lia. Defined.
