(* ===== verification/Sha256.v ===== *)
(** * SHA-256 ([crypto/sha256])

    The hash of the Go standard library that identifies objects and tag keys,
    as an executable definition on byte lists (FIPS 180-4), with the two facts
    the rest of the development needs: a digest is 32 bytes.  Nothing in the
    development assumes that the hash has no collisions. *)

From S2P Require Import Prelude.

Definition add32 (a b : Z) : Z := u32 (a + b).
Definition rotr32 (x n : Z) : Z := Z.lor (Z.shiftr x n) (u32 (Z.shiftl x (32 - n))).

(** The constants are the first 32 bits of the fractional parts of the cube
    roots and square roots of the first primes. *)
Definition isPrime (n : Z) : bool := forallb (fun d => negb (n mod d =? 0)) (seqZ 2 (n - 2)).

Fixpoint cubeRootLoop (bit : nat) (n root : Z) : Z :=
  match bit with
  | O => root
  | S bit =>
      let next := root + 2 ^ Z.of_nat bit in
      cubeRootLoop bit n (if next * next * next <=? n then next else root)
  end.

Definition firstPrimes : list Z := filter (fun n => isPrime n = true) (seqZ 2 310).

Definition sha256_k : list Z :=
  Eval vm_compute in map (fun p => u32 (cubeRootLoop 35 (p * 2 ^ 96) 0)) firstPrimes.

Definition sha256_h : list Z :=
  Eval vm_compute in map (fun p => u32 (Z.sqrt (p * 2 ^ 64))) (take 8 firstPrimes).

Record sha256_state := mkSha256State {
  ha : Z; hb : Z; hc : Z; hd : Z; he : Z; hf : Z; hg : Z; hh : Z }.

Definition sha256_init : sha256_state :=
  mkSha256State (nth 0 sha256_h 0) (nth 1 sha256_h 0) (nth 2 sha256_h 0) (nth 3 sha256_h 0)
                (nth 4 sha256_h 0) (nth 5 sha256_h 0) (nth 6 sha256_h 0) (nth 7 sha256_h 0).

Definition sha256_round (s : sha256_state) (kw : Z) : sha256_state :=
  let '(mkSha256State a b c d e f g h) := s in
  let s1 := Z.lxor (Z.lxor (rotr32 e 6) (rotr32 e 11)) (rotr32 e 25) in
  let ch := Z.lxor (Z.land e f) (Z.land (0xffffffff - e) g) in
  let t1 := u32 (h + s1 + ch + kw) in
  let s0 := Z.lxor (Z.lxor (rotr32 a 2) (rotr32 a 13)) (rotr32 a 22) in
  let maj := Z.lxor (Z.lxor (Z.land a b) (Z.land a c)) (Z.land b c) in
  mkSha256State (u32 (t1 + s0 + maj)) a b c (add32 d t1) e f g.

(** The message schedule keeps the last sixteen words, oldest first. *)
Definition sha256_next (w : list Z) : Z :=
  let x := nth 1 w 0 in
  let y := nth 14 w 0 in
  let s0 := Z.lxor (Z.lxor (rotr32 x 7) (rotr32 x 18)) (Z.shiftr x 3) in
  let s1 := Z.lxor (Z.lxor (rotr32 y 17) (rotr32 y 19)) (Z.shiftr y 10) in
  u32 (nth 0 w 0 + s0 + nth 9 w 0 + s1).

Fixpoint sha256_rounds (ks : list Z) (w : list Z) (s : sha256_state) : sha256_state :=
  match ks with
  | [] => s
  | k :: ks =>
      sha256_rounds ks (drop 1 w ++ [sha256_next w]) (sha256_round s (k + nth 0 w 0))
  end.

Fixpoint be_words (n : nat) (l : list Z) : list Z :=
  match n with
  | O => []
  | S n => be_uint (take 4 l) :: be_words n (drop 4 l)
  end.

Definition sha256_block (s : sha256_state) (block : list Z) : sha256_state :=
  let s' := sha256_rounds sha256_k (be_words 16 block) s in
  mkSha256State (add32 (ha s) (ha s')) (add32 (hb s) (hb s')) (add32 (hc s) (hc s'))
    (add32 (hd s) (hd s')) (add32 (he s) (he s')) (add32 (hf s) (hf s'))
    (add32 (hg s) (hg s')) (add32 (hh s) (hh s')).

Fixpoint sha256_blocks (n : nat) (s : sha256_state) (l : list Z) : sha256_state :=
  match n with
  | O => s
  | S n => sha256_blocks n (sha256_block s (take 64 l)) (drop 64 l)
  end.

Definition sha256_pad (l : list Z) : list Z :=
  l ++ [0x80] ++ replicate (Z.to_nat ((55 - zlen l) mod 64)) 0 ++ be_bytes 8 (8 * zlen l).

(** [sha256.Sum256(data)] *)
Definition sha256 (data : list Z) : list Z :=
  let padded := sha256_pad data in
  let s := sha256_blocks (Nat.div (length padded) 64) sha256_init padded in
  be_bytes 4 (ha s) ++ be_bytes 4 (hb s) ++ be_bytes 4 (hc s) ++ be_bytes 4 (hd s) ++
  be_bytes 4 (he s) ++ be_bytes 4 (hf s) ++ be_bytes 4 (hg s) ++ be_bytes 4 (hh s).
Arguments sha256 : simpl never.

Lemma length_sha256 l : length (sha256 l) = 32%nat.
Proof. unfold sha256. by rewrite !length_app, !length_be_bytes. Qed.

Lemma sha256_ok l : bytes_ok (sha256 l).
Proof. unfold sha256. rewrite !bytes_ok_app. auto 20 with bonanza. Qed.

#[export] Hint Resolve sha256_ok : bonanza.
#[export] Hint Rewrite length_sha256 : bonanza_len.

(** The test vectors of FIPS 180-4 for the empty string and for "abc". *)
Example sha256_empty :
  be_uint (sha256 []) = 0xe3b0c44298fc1c149afbf4c8996fb92427ae41e4649b934ca495991b7852b855.
Proof. vm_compute. reflexivity. Qed.

Example sha256_abc :
  be_uint (sha256 [97; 98; 99]) =
  0xba7816bf8f01cfea414140de5dae2223b00361a396177a9cb410ff61f20015ad.
Proof. vm_compute. reflexivity. Qed.

Example sha256_constants : length sha256_k = 64%nat /\ nth 63 sha256_k 0 = 0xc67178f2.
Proof. split; reflexivity. Qed.
