(* ===== verification/Heap.v ===== *)
(** * Binary heaps

    The operations of [container/heap] of the Go library on a slice, which the
    scheduler ([pkg/scheduler]) and the renewing of leases use.  The order is a
    parameter; it may depend on state that changes between calls, which is what
    [Fix] is for.  What is shown: no operation loses or adds elements, a heap
    stays a heap, and its first element is one that no other element precedes. *)

From stdpp Require Import sorting.
From S2P Require Import Prelude.

Section heap.
Context {A : Type}.

(** [Swap] of a slice. *)
Definition swap (l : list A) (i j : nat) : list A :=
  match l !! i, l !! j with
  | Some x, Some y => <[i := y]> (<[j := x]> l)
  | _, _ => l
  end.

Section operations.
Context (less : A -> A -> bool).

(** [Less] of two positions. *)
Definition lessAt (l : list A) (i j : nat) : bool :=
  match l !! i, l !! j with Some x, Some y => less x y | _, _ => false end.

Definition parentPosition (j : nat) : nat := ((j - 1) / 2)%nat.

(** [up] *)
Fixpoint upLoop (fuel : nat) (l : list A) (j : nat) : list A :=
  match fuel with
  | O => l
  | S fuel =>
      let i := parentPosition j in
      if (i =? j)%nat || negb (lessAt l j i) then l else upLoop fuel (swap l i j) i
  end.

Definition up (l : list A) (j : nat) : list A := upLoop (S j) l j.

(** The child of [i] that comes first, of those below [n]. *)
Definition firstChild (l : list A) (i n : nat) : nat :=
  let j1 := (2 * i + 1)%nat in
  let j2 := (j1 + 1)%nat in
  if (j2 <? n)%nat && lessAt l j2 j1 then j2 else j1.

(** [down]: the slice, and whether the element moved. *)
Fixpoint downLoop (fuel : nat) (l : list A) (i n : nat) (moved : bool) : list A * bool :=
  match fuel with
  | O => (l, moved)
  | S fuel =>
      if (n <=? 2 * i + 1)%nat then (l, moved) else
      let j := firstChild l i n in
      if negb (lessAt l j i) then (l, moved) else downLoop fuel (swap l i j) j n true
  end.

Definition down (l : list A) (i n : nat) : list A * bool := downLoop (S n) l i n false.

(** [heap.Push] *)
Definition heapPush (l : list A) (x : A) : list A := up (l ++ [x]) (length l).

(** [heap.Fix] *)
Definition heapFix (l : list A) (i : nat) : list A :=
  let '(l, moved) := down l i (length l) in if moved then l else up l i.

(** [heap.Remove]: the element is moved to the end, and removed there. *)
Definition heapRemove (l : list A) (i : nat) : option (A * list A) :=
  if (i <? length l)%nat then
    let n := (length l - 1)%nat in
    let l := if (n =? i)%nat then l
             else let '(l, moved) := down (swap l i n) i n in if moved then l else up l i in
    match l !! n with Some x => Some (x, take n l) | None => None end
  else None.

(** [heap.Pop] *)
Definition heapPop (l : list A) : option (A * list A) :=
  match l with
  | [] => None
  | _ =>
      let n := (length l - 1)%nat in
      let '(l, _) := down (swap l 0 n) 0 n in
      match l !! n with Some x => Some (x, take n l) | None => None end
  end.
End operations.

(** ** Swapping *)

Definition swapped (i j k : nat) : nat := if decide (k = i) then j else if decide (k = j) then i else k.

Lemma length_swap l i j : length (swap l i j) = length l.
Proof. unfold swap. destruct (l !! i), (l !! j); by rewrite ?length_insert. Qed.

Lemma lookup_swap l i j k :
  (i < length l)%nat -> (j < length l)%nat -> swap l i j !! k = l !! swapped i j k.
Proof.
  intros Hi Hj. destruct (lookup_lt_is_Some_2 l i Hi) as [x Hx], (lookup_lt_is_Some_2 l j Hj) as [y Hy].
  unfold swap, swapped. rewrite Hx, Hy. repeat case_decide; subst.
  - rewrite list_lookup_insert_eq; [done|by rewrite length_insert].
  - rewrite list_lookup_insert_ne by done. by rewrite list_lookup_insert_eq.
  - by rewrite !list_lookup_insert_ne.
Qed.

Lemma swap_Permutation l i j : swap l i j ≡ₚ l.
Proof.
  unfold swap. destruct (l !! i) as [x|] eqn:Hx; [|done]. destruct (l !! j) as [y|] eqn:Hy; [|done].
  destruct (decide (i = j)) as [->|Hne].
  - rewrite Hx in Hy. injection Hy as <-. rewrite list_insert_insert_eq. by rewrite list_insert_id.
  - apply Permutation_inj. rewrite !length_insert. split; [done|]. exists (swapped i j). split.
    + intros a b. unfold swapped. repeat case_decide; congruence.
    + intros k. unfold swapped. repeat case_decide; subst.
      * rewrite list_lookup_insert_eq; [done|]. rewrite length_insert. by eapply lookup_lt_Some.
      * rewrite list_lookup_insert_ne by done. rewrite list_lookup_insert_eq; [done|]. by eapply lookup_lt_Some.
      * by rewrite !list_lookup_insert_ne.
Qed.

(** ** No element is lost *)

Section permutation.
Context (less : A -> A -> bool).

Lemma upLoop_Permutation fuel l j : upLoop less fuel l j ≡ₚ l.
Proof.
  revert l j. induction fuel as [|fuel IH]; intros l j; cbn [upLoop]; [done|].
  case_match; [done|]. by rewrite IH, swap_Permutation.
Qed.

Lemma downLoop_Permutation fuel l i n moved : (downLoop less fuel l i n moved).1 ≡ₚ l.
Proof.
  revert l i moved. induction fuel as [|fuel IH]; intros l i moved; cbn [downLoop]; [done|].
  repeat (case_match; [done|]). by rewrite IH, swap_Permutation.
Qed.

Lemma length_upLoop fuel l j : length (upLoop less fuel l j) = length l.
Proof. by rewrite upLoop_Permutation. Qed.

Lemma length_downLoop fuel l i n moved : length (downLoop less fuel l i n moved).1 = length l.
Proof. by rewrite downLoop_Permutation. Qed.

(** Positions from [n] on are left alone. *)
Lemma downLoop_lookup_ge fuel l i n moved k :
  (i < n)%nat -> (n <= length l)%nat -> (n <= k)%nat -> (downLoop less fuel l i n moved).1 !! k = l !! k.
Proof.
  revert l i moved. induction fuel as [|fuel IH]; intros l i moved Hi Hn Hk; cbn [downLoop]; [done|].
  destruct (Nat.leb_spec n (2 * i + 1)); [done|]. case_match; [done|].
  assert (firstChild less l i n < n)%nat as Hj.
  { unfold firstChild. destruct (Nat.ltb_spec (2 * i + 1 + 1) n); simpl; [|lia]. case_match; lia. }
  rewrite IH by (rewrite ?length_swap; lia). rewrite lookup_swap by lia. unfold swapped.
  by rewrite !decide_False by lia.
Qed.

Lemma upLoop_lookup_gt fuel l j k :
  (j < length l)%nat -> (j < k)%nat -> upLoop less fuel l j !! k = l !! k.
Proof.
  revert l j. induction fuel as [|fuel IH]; intros l j Hj Hk; cbn [upLoop]; [done|].
  destruct (Nat.eqb_spec (parentPosition j) j) as [|Hne]; [done|]. cbn [orb]. case_match; [done|].
  assert (parentPosition j < j)%nat.
  { unfold parentPosition in *. assert ((j - 1) / 2 <= j - 1)%nat by (apply Nat.Div0.div_le_upper_bound; lia). lia. }
  rewrite IH by (rewrite ?length_swap; lia). rewrite lookup_swap by lia. unfold swapped. by rewrite !decide_False by lia.
Qed.

Lemma heapPush_Permutation l x : heapPush less l x ≡ₚ x :: l.
Proof. unfold heapPush, up. rewrite upLoop_Permutation. symmetry. apply Permutation_cons_append. Qed.

Lemma heapFix_Permutation l i : heapFix less l i ≡ₚ l.
Proof.
  unfold heapFix, down. pose proof (downLoop_Permutation (S (length l)) l i (length l) false) as Hd.
  destruct (downLoop _ _ _ _ _ _) as [l' [|]]; [done|]. unfold up. by rewrite upLoop_Permutation.
Qed.

Lemma length_heapFix l i : length (heapFix less l i) = length l.
Proof. by rewrite heapFix_Permutation. Qed.

(** The last of [n + 1] elements is taken off. *)
Lemma take_last_Permutation (l : list A) n x :
  length l = S n -> l !! n = Some x -> l ≡ₚ x :: take n l.
Proof.
  intros Hlen Hx. rewrite <- (take_drop n l) at 1. rewrite (drop_S _ x n) by done.
  rewrite drop_ge by lia. symmetry. apply Permutation_cons_append.
Qed.

Lemma heapRemove_spec l i x :
  l !! i = Some x -> exists l', heapRemove less l i = Some (x, l') /\ l ≡ₚ x :: l'.
Proof.
  intros Hx. pose proof (lookup_lt_Some _ _ _ Hx) as Hi. unfold heapRemove.
  rewrite (proj2 (Nat.ltb_lt _ _) Hi). set (n := (length l - 1)%nat).
  set (l1 := if (n =? i)%nat then l else _).
  assert (l1 ≡ₚ l /\ l1 !! n = Some x) as [Hp Hn].
  { unfold l1. destruct (Nat.eqb_spec n i) as [E|Hne]; [by rewrite E|]. unfold down.
    pose proof (downLoop_Permutation (S n) (swap l i n) i n false) as Hd.
    pose proof (downLoop_lookup_ge (S n) (swap l i n) i n false n ltac:(lia) ltac:(rewrite length_swap; lia) ltac:(lia)) as Hl.
    destruct (downLoop _ _ _ _ _ _) as [l2 moved]. cbn [fst] in *.
    rewrite lookup_swap in Hl by lia. unfold swapped in Hl. rewrite decide_False, decide_True, Hx in Hl by (done || lia).
    assert (length l2 = length l) by (by rewrite Hd, swap_Permutation).
    destruct moved; [split; [by rewrite Hd, swap_Permutation|done]|]. unfold up.
    split; [by rewrite upLoop_Permutation, Hd, swap_Permutation|by rewrite upLoop_lookup_gt by lia]. }
  rewrite Hn. eexists. split; [done|]. rewrite <- Hp. apply take_last_Permutation; [|done].
  rewrite Hp. unfold n. lia.
Qed.

Lemma heapPop_spec l x :
  l !! 0%nat = Some x -> exists l', heapPop less l = Some (x, l') /\ l ≡ₚ x :: l'.
Proof.
  intros Hx. destruct l as [|a l]; [done|]. injection Hx as ->. unfold heapPop. set (l0 := x :: l).
  set (n := (length l0 - 1)%nat). unfold down.
  pose proof (downLoop_Permutation (S n) (swap l0 0 n) 0 n false) as Hd.
  assert ((downLoop less (S n) (swap l0 0 n) 0 n false).1 !! n = Some x) as Hl.
  { destruct (decide (n = 0%nat)) as [E|Hne].
    - destruct l; [done|]. unfold n in E. simpl in E. lia.
    - rewrite downLoop_lookup_ge by (rewrite ?length_swap; unfold n in *; simpl in *; lia).
      rewrite lookup_swap by (unfold n; simpl; lia). unfold swapped. by rewrite decide_False, decide_True. }
  destruct (downLoop _ _ _ _ _ _) as [l2 moved]. cbn [fst] in *. rewrite Hl.
  eexists. split; [done|]. rewrite <- (swap_Permutation l0 0 n), <- Hd. apply take_last_Permutation; [|done].
  rewrite Hd, swap_Permutation. unfold n. simpl. lia.
Qed.
End permutation.

(** ** The order *)

Section order.
Context (less : A -> A -> bool).
(** A strict weak order. *)
Hypothesis less_irrefl : forall x, less x x = false.
Hypothesis less_trans : forall x y z, less x y = true -> less y z = true -> less x z = true.
Hypothesis less_neg_trans : forall x y z, less x y = false -> less y z = false -> less x z = false.

(** The element at [k] does not precede the one at [p]. *)
Definition notBefore (l : list A) (k p : nat) : Prop :=
  forall x y, l !! k = Some x -> l !! p = Some y -> less x y = false.

Abbreviation par := parentPosition.

(** The first [n] elements are a heap. *)
Definition heapTo (l : list A) (n : nat) : Prop := forall k, (0 < k < n)%nat -> notBefore l k (par k).

Definition isHeap (l : list A) : Prop := heapTo l (length l).

Lemma par_lt k : (0 < k)%nat -> (par k < k)%nat.
Proof. intros Hk. unfold parentPosition. assert ((k - 1) / 2 <= k - 1)%nat by (apply Nat.Div0.div_le_upper_bound; lia). lia. Qed.

Lemma par_children k i : (0 < k)%nat -> par k = i <-> k = (2 * i + 1)%nat \/ k = (2 * i + 2)%nat.
Proof.
  intros Hk. unfold parentPosition. pose proof (Nat.div_mod_eq (k - 1) 2). pose proof (Nat.mod_upper_bound (k - 1) 2). lia.
Qed.

Lemma less_asym x y : less x y = true -> less y x = false.
Proof.
  intros H. destruct (less y x) eqn:E; [|done]. pose proof (less_trans x y x H E) as Hxx. by rewrite less_irrefl in Hxx.
Qed.

Lemma notBefore_trans l a b c y : l !! b = Some y -> notBefore l a b -> notBefore l b c -> notBefore l a c.
Proof. intros Hb Hab Hbc x z Hx Hz. eapply less_neg_trans; [by apply Hab|by apply Hbc]. Qed.

Lemma lessAt_spec l i j : lessAt less l i j = true <-> exists x y, l !! i = Some x /\ l !! j = Some y /\ less x y = true.
Proof.
  unfold lessAt. split.
  - destruct (l !! i) as [x|], (l !! j) as [y|]; try done. intros H. by exists x, y.
  - by intros (x&y&->&->&H).
Qed.

Lemma lessAt_false l i j : lessAt less l i j = false <-> notBefore l i j.
Proof.
  unfold lessAt, notBefore. split.
  - intros H x y Hx Hy. by rewrite Hx, Hy in H.
  - destruct (l !! i) as [x|], (l !! j) as [y|]; auto.
Qed.

Lemma notBefore_swap l i j a b :
  (i < length l)%nat -> (j < length l)%nat ->
  notBefore l (swapped i j a) (swapped i j b) -> notBefore (swap l i j) a b.
Proof. intros Hi Hj H x y. rewrite !lookup_swap by done. apply H. Qed.

Ltac swaps := unfold swapped; repeat case_decide; lia.

(** All is in order but that [j] may precede its parent. *)
Lemma upLoop_heap fuel l j n :
  (j < fuel)%nat -> (j < n <= length l)%nat ->
  (forall k, (0 < k < n)%nat -> k <> j -> notBefore l k (par k)) ->
  (forall k, (0 < k < n)%nat -> par k = j -> (0 < j)%nat -> notBefore l k (par j)) ->
  heapTo (upLoop less fuel l j) n.
Proof.
  revert l j. induction fuel as [|fuel IH]; intros l j Hf Hj Hedges Hskip; [lia|]. cbn [upLoop].
  destruct (Nat.eqb_spec (par j) j) as [E|Hne]; cbn [orb].
  { assert (j = 0)%nat by (destruct j; [done|]; pose proof (par_lt (S j)); lia). subst.
    intros k Hk. apply Hedges; lia. }
  assert (0 < j)%nat by (destruct j; [by unfold parentPosition in Hne|lia]).
  pose proof (par_lt j ltac:(lia)) as Hpar.
  destruct (lessAt less l j (par j)) eqn:El; cbn [negb].
  2: { apply lessAt_false in El. intros k Hk. destruct (decide (k = j)) as [->|]; [done|by apply Hedges]. }
  apply lessAt_spec in El as (x&y&Hx&Hy&Hless).
  assert (forall k, notBefore l k (par j) -> notBefore l k j) as Hbelow.
  { intros k Hk a b Ha Hb. rewrite Hx in Hb. injection Hb as <-.
    destruct (less a x) eqn:E; [|done]. rewrite <- (Hk a y Ha Hy). symmetry. by eapply less_trans. }
  apply IH; [lia|rewrite length_swap; lia|..].
  - intros k Hk Hkj. apply notBefore_swap; [lia..|]. destruct (decide (k = j)) as [->|Hne1].
    + assert (swapped (par j) j j = par j) as -> by swaps.
      assert (swapped (par j) j (par j) = j) as -> by swaps.
      intros a b Ha Hb. rewrite Hy in Ha. rewrite Hx in Hb. injection Ha as <-. injection Hb as <-. by apply less_asym.
    + assert (swapped (par j) j k = k) as -> by swaps.
      pose proof (par_lt k ltac:(lia)). destruct (decide (par k = par j)) as [Ep|Hne2].
      * rewrite Ep. assert (swapped (par j) j (par j) = j) as -> by swaps.
        apply Hbelow. rewrite <- Ep. apply Hedges; lia.
      * destruct (decide (par k = j)) as [Ej|Hne3].
        -- rewrite Ej. assert (swapped (par j) j j = par j) as -> by swaps.
           by apply Hskip.
        -- assert (swapped (par j) j (par k) = par k) as -> by swaps.
           by apply Hedges.
  - intros k Hk Ep Hpos. pose proof (par_lt (par j) Hpos). apply notBefore_swap; [lia..|].
    assert (swapped (par j) j (par (par j)) = par (par j)) as -> by swaps.
    destruct (decide (k = j)) as [->|Hne1].
    + assert (swapped (par j) j j = par j) as -> by swaps. apply Hedges; lia.
    + pose proof (par_lt k ltac:(lia)).
      assert (swapped (par j) j k = k) as -> by swaps.
      apply (notBefore_trans l k (par j) _ y Hy); [rewrite <- Ep; apply Hedges; lia|apply Hedges; lia].
Qed.

Lemma firstChild_spec l i n :
  (2 * i + 1 < n)%nat -> let j := firstChild less l i n in
  (j < n)%nat /\ (0 < j)%nat /\ par j = i /\ forall k, (0 < k < n)%nat -> par k = i -> k <> j -> notBefore l k j.
Proof.
  intros Hn. unfold firstChild. set (j1 := (2 * i + 1)%nat).
  destruct (Nat.ltb_spec (j1 + 1) n) as [Hj2|Hj2]; cbn [andb].
  - destruct (lessAt less l (j1 + 1) j1) eqn:El; cbv zeta.
    + apply lessAt_spec in El as (x&y&Hx&Hy&Hless). split; [lia|]. split; [lia|]. split; [apply par_children; lia|].
      intros k Hk Ep Hne a b Ha Hb. apply par_children in Ep; [|lia]. assert (k = j1) as -> by lia.
      rewrite Hy in Ha. rewrite Hx in Hb. injection Ha as <-. injection Hb as <-. by apply less_asym.
    + apply lessAt_false in El. split; [lia|]. split; [lia|]. split; [apply par_children; lia|].
      intros k Hk Ep Hne. apply par_children in Ep; [|lia]. by assert (k = (j1 + 1)%nat) as -> by lia.
  - cbv zeta. split; [lia|]. split; [lia|]. split; [apply par_children; lia|].
    intros k Hk Ep Hne. apply par_children in Ep; lia.
Qed.

(** All is in order but that [i] may come after its children, or precede its parent. *)
Lemma downLoop_heap fuel l i n moved :
  (n < fuel + i)%nat -> (i < n <= length l)%nat ->
  (forall k, (0 < k < n)%nat -> k <> i -> par k <> i -> notBefore l k (par k)) ->
  (forall k, (0 < k < n)%nat -> par k = i -> (0 < i)%nat -> notBefore l k (par i)) ->
  let r := downLoop less fuel l i n moved in
  (r = (l, moved) /\ forall k, (0 < k < n)%nat -> par k = i -> notBefore l k i) \/
  (r.2 = true /\ heapTo r.1 n).
Proof.
  revert l i moved. induction fuel as [|fuel IH]; intros l i moved Hf Hi Hedges Hskip; [lia|]. cbn [downLoop].
  destruct (Nat.leb_spec n (2 * i + 1)).
  { left. split; [done|]. intros k Hk Ep. apply par_children in Ep; lia. }
  destruct (firstChild_spec l i n) as (Hj&Hj0&Epj&Hmin); [lia|]. set (j := firstChild less l i n) in *.
  pose proof (par_lt j Hj0) as Hij. rewrite Epj in Hij.
  destruct (lessAt less l j i) eqn:El; cbn [negb].
  2: { left. split; [done|]. intros k Hk Ep. apply lessAt_false in El.
    destruct (decide (k = j)) as [->|Hne]; [done|].
    destruct (lookup_lt_is_Some_2 l j ltac:(lia)) as [y Hy]. apply (notBefore_trans l k j i y Hy); [by apply Hmin|done]. }
  right. apply lessAt_spec in El as (x&y&Hx&Hy&Hless).
  assert (forall k, (0 < k < n)%nat -> k <> j -> par k <> j -> notBefore (swap l i j) k (par k)) as Hedges'.
  { intros k Hk Hkj Hpk. apply notBefore_swap; [lia..|]. pose proof (par_lt k ltac:(lia)).
    destruct (decide (k = i)) as [->|Hki].
    - assert (swapped i j i = j) as -> by swaps.
      assert (swapped i j (par i) = par i) as -> by swaps. apply Hskip; lia.
    - assert (swapped i j k = k) as -> by swaps.
      destruct (decide (par k = i)) as [Ep|Hpi].
      + rewrite Ep. assert (swapped i j i = j) as -> by swaps. by apply Hmin.
      + assert (swapped i j (par k) = par k) as -> by swaps. by apply Hedges. }
  assert (notBefore (swap l i j) j i) as Hji.
  { apply notBefore_swap; [lia..|]. assert (swapped i j j = i) as -> by swaps.
    assert (swapped i j i = j) as -> by swaps.
    intros a b Ha Hb. rewrite Hy in Ha. rewrite Hx in Hb. injection Ha as <-. injection Hb as <-. by apply less_asym. }
  destruct (IH (swap l i j) j true) as [[E Hch]|Hr]; [lia|rewrite length_swap; lia|done|..|done].
  - intros k Hk Ep _. rewrite Epj. apply notBefore_swap; [lia..|]. pose proof (par_lt k ltac:(lia)).
    assert (swapped i j k = k) as -> by swaps.
    assert (swapped i j i = j) as -> by swaps.
    rewrite <- Ep. apply Hedges; lia.
  - cbv zeta. rewrite E. split; [done|]. cbn [fst]. intros k Hk.
    destruct (decide (k = j)) as [->|Hkj]; [by rewrite Epj|].
    destruct (decide (par k = j)) as [Ep|Hp]; [rewrite Ep; by apply Hch|by apply Hedges'].
Qed.

(** The first element. *)
Lemma heapTo_root l n m k y :
  heapTo l n -> (n <= length l)%nat -> l !! 0%nat = Some m -> (k < n)%nat -> l !! k = Some y -> less y m = false.
Proof.
  intros Hh Hn Hm. revert y. induction k as [k IH] using lt_wf_ind. intros y Hk Hy.
  destruct (decide (k = 0%nat)) as [->|Hne]; [rewrite Hm in Hy; injection Hy as <-; apply less_irrefl|].
  pose proof (par_lt k ltac:(lia)) as Hp.
  destruct (lookup_lt_is_Some_2 l (par k) ltac:(lia)) as [z Hz].
  apply (less_neg_trans y z m); [by apply (Hh k ltac:(lia))|apply (IH (par k) Hp z); [lia|done]].
Qed.

Lemma down_heap l i n :
  (i < n <= length l)%nat ->
  (forall k, (0 < k < n)%nat -> k <> i -> par k <> i -> notBefore l k (par k)) ->
  (forall k, (0 < k < n)%nat -> par k = i -> (0 < i)%nat -> notBefore l k (par i)) ->
  heapTo (let '(l, moved) := down less l i n in if moved then l else up less l i) n.
Proof.
  intros Hi Hedges Hskip. unfold down.
  destruct (downLoop_heap (S n) l i n false) as [[E Hch]|[Em Hh]]; [lia|done|done|done|..].
  - rewrite E. unfold up. apply upLoop_heap; [lia|done|..].
    + intros k Hk Hne. destruct (decide (par k = i)) as [<-|]; [by apply Hch|by apply Hedges].
    + done.
  - destruct (downLoop _ _ _ _ _ _) as [l' moved]. simpl in *. by subst.
Qed.

Lemma heapTo_take l n : (n <= length l)%nat -> heapTo l n -> isHeap (take n l).
Proof.
  intros Hn Hh k. rewrite length_take, Nat.min_l by done. intros Hk x y Hx Hy.
  pose proof (par_lt k ltac:(lia)). rewrite lookup_take_lt in Hx, Hy by lia. by apply (Hh k).
Qed.

Lemma heapPush_heap l x : isHeap l -> isHeap (heapPush less l x).
Proof.
  intros Hh. unfold isHeap, heapPush, up. rewrite length_upLoop, length_app. cbn [length]. apply upLoop_heap.
  - lia.
  - rewrite length_app. simpl. lia.
  - intros k Hk Hne a b Ha Hb. pose proof (par_lt k ltac:(lia)).
    rewrite lookup_app_l in Ha, Hb by lia. apply (Hh k); [lia|done|done].
  - intros k Hk Ep. apply par_children in Ep; lia.
Qed.

(** The element at [i] is replaced, or the order of it has changed. *)
Lemma heapFix_heap l i y : isHeap l -> (i < length l)%nat -> isHeap (heapFix less (<[i := y]> l) i).
Proof.
  intros Hh Hi. unfold isHeap. rewrite length_heapFix. apply down_heap.
  - rewrite length_insert. lia.
  - rewrite length_insert. intros k Hk Hne Hp a b. rewrite !list_lookup_insert_ne by done. by apply Hh.
  - rewrite length_insert. intros k Hk Ep Hpos a b. pose proof (par_lt i Hpos). pose proof (par_lt k ltac:(lia)).
    rewrite !list_lookup_insert_ne by lia.
    destruct (lookup_lt_is_Some_2 l i Hi) as [z Hz].
    apply (notBefore_trans l k i (par i) z Hz); [rewrite <- Ep; apply Hh; lia|apply Hh; lia].
Qed.

Lemma swap_last_edges l i n :
  isHeap l -> (i < n)%nat -> length l = S n ->
  (forall k, (0 < k < n)%nat -> k <> i -> par k <> i -> notBefore (swap l i n) k (par k)) /\
  (forall k, (0 < k < n)%nat -> par k = i -> (0 < i)%nat -> notBefore (swap l i n) k (par i)).
Proof.
  intros Hh Hi Hlen. split.
  - intros k Hk Hne Hp. pose proof (par_lt k ltac:(lia)). apply notBefore_swap; [lia..|].
    assert (swapped i n k = k) as -> by swaps. assert (swapped i n (par k) = par k) as -> by swaps. apply Hh; lia.
  - intros k Hk Ep Hpos. pose proof (par_lt i Hpos). pose proof (par_lt k ltac:(lia)). apply notBefore_swap; [lia..|].
    assert (swapped i n k = k) as -> by swaps. assert (swapped i n (par i) = par i) as -> by swaps.
    destruct (lookup_lt_is_Some_2 l i ltac:(lia)) as [z Hz].
    apply (notBefore_trans l k i (par i) z Hz); [rewrite <- Ep; apply Hh; lia|apply Hh; lia].
Qed.

Lemma heapRemove_heap l i x l' : isHeap l -> heapRemove less l i = Some (x, l') -> isHeap l'.
Proof.
  intros Hh. unfold heapRemove. destruct (Nat.ltb_spec i (length l)) as [Hi|]; [|done].
  set (n := (length l - 1)%nat). destruct (Nat.eqb_spec n i) as [E|Hne].
  - destruct (l !! n); [|done]. intros [= <- <-]. apply heapTo_take; [unfold n; lia|]. intros k Hk. apply Hh. unfold n in *. lia.
  - set (r := let '(l, moved) := _ in _). destruct (r !! n); [|done]. intros [= <- <-].
    destruct (swap_last_edges l i n Hh) as [He Hs]; [unfold n in *; lia|unfold n; lia|].
    assert (heapTo r n) as Hr by (apply down_heap; [rewrite length_swap; unfold n in *; lia|done|done]).
    apply heapTo_take; [|done]. unfold r, down.
    pose proof (length_downLoop less (S n) (swap l i n) i n false) as Hlen. rewrite length_swap in Hlen.
    destruct (downLoop _ _ _ _ _ _) as [l2 [|]]; simpl in *; unfold up; rewrite ?length_upLoop; unfold n; lia.
Qed.

Lemma heapPop_heap l x l' : isHeap l -> heapPop less l = Some (x, l') -> isHeap l'.
Proof.
  intros Hh. destruct l as [|a l]; [done|]. unfold heapPop. set (l0 := a :: l) in *. set (n := (length l0 - 1)%nat).
  destruct (decide (n = 0)%nat) as [E|Hne].
  - rewrite E. destruct (down _ _ _ _) as [l2 moved]. destruct (l2 !! _); [|done]. intros [= _ <-].
    intros k Hk. rewrite length_take in Hk. lia.
  - destruct (swap_last_edges l0 0 n Hh) as [He Hs]; [lia|unfold n; simpl; lia|].
    unfold down. pose proof (length_downLoop less (S n) (swap l0 0 n) 0 n false) as Hlen. rewrite length_swap in Hlen.
    destruct (downLoop_heap (S n) (swap l0 0 n) 0 n false) as [[E Hch]|[Em Hr]];
      [lia|rewrite length_swap; unfold n in *; simpl in *; lia|done|done|..].
    + rewrite E in *. destruct (_ !! n); [|done]. intros [= _ <-]. apply heapTo_take; [unfold n; rewrite length_swap; lia|].
      intros k Hk. destruct (decide (par k = 0%nat)) as [Ep|]; [rewrite Ep; by apply Hch|apply He; [done|lia|done]].
    + destruct (downLoop _ _ _ _ _ _) as [l2 moved]. simpl in *. destruct (l2 !! n); [|done]. intros [= _ <-].
      apply heapTo_take; [unfold n; simpl; lia|done].
Qed.

(** The heaps of the scheduler work as priority queues for every strict weak
    order: pushing, removing, popping and fixing a changed element keep all other
    elements and the heap property, and the element that is popped is one that no
    other element precedes. *)
Theorem heap_priority_queue l :
  isHeap l ->
  (forall x, heapPush less l x ≡ₚ x :: l /\ isHeap (heapPush less l x)) /\
  (forall i x, l !! i = Some x ->
     exists l', heapRemove less l i = Some (x, l') /\ l ≡ₚ x :: l' /\ isHeap l') /\
  (forall i y, (i < length l)%nat ->
     heapFix less (<[i := y]> l) i ≡ₚ <[i := y]> l /\ isHeap (heapFix less (<[i := y]> l) i)) /\
  (l <> [] -> exists x l', heapPop less l = Some (x, l') /\ l ≡ₚ x :: l' /\ isHeap l' /\
     forall y, y ∈ l -> less y x = false).
Proof.
  intros Hh. split; [|split; [|split]].
  - intros x. split; [apply heapPush_Permutation|by apply heapPush_heap].
  - intros i x Hx. destruct (heapRemove_spec less l i x Hx) as (l'&E&Hp). exists l'.
    split; [done|]. split; [done|]. by apply (heapRemove_heap l i x).
  - intros i y Hi. split; [apply heapFix_Permutation|by apply heapFix_heap].
  - intros Hne. destruct l as [|x l]; [done|]. destruct (heapPop_spec less (x :: l) x eq_refl) as (l'&E&Hp).
    exists x, l'. split; [done|]. split; [done|]. split; [by apply (heapPop_heap (x :: l) x)|].
    intros y Hy. apply list_elem_of_lookup in Hy as [k Hk].
    apply (heapTo_root (x :: l) (length (x :: l)) x k y Hh); [done|done|by apply lookup_lt_Some in Hk|done].
Qed.
End order.
End heap.

Lemma heap_priority_queue_witness :
  exists l', heapPop Z.ltb (heapPush Z.ltb [2; 5; 3] 1) = Some (1, l') /\ isHeap Z.ltb l'.
Proof.
  destruct (heap_priority_queue Z.ltb Z.ltb_irrefl) with (l := heapPush Z.ltb [2; 5; 3] 1) as (_&_&_&H).
  - intros x y z H1 H2. apply Z.ltb_lt in H1, H2. apply Z.ltb_lt. lia.
  - intros x y z H1 H2. apply Z.ltb_ge in H1, H2. apply Z.ltb_ge. lia.
  - intros [|[|[|[|k]]]] Hk; vm_compute in Hk; try lia; intros x y [= <-] [= <-]; reflexivity.
  - destruct H as (x&l'&E&_&Hh&_); [discriminate|]. vm_compute in E. injection E as <- <-.
    eexists. split; [vm_compute; reflexivity|exact Hh].
Defined.
