(* ===== verification/References.v ===== *)
(** * References and contents of objects ([pkg/storage/object])

    A [LocalReference] is a 40 byte record: the SHA-256 hash of the object, its
    size, its height and degree in the graph of objects, and an upper bound of
    the total size of the parents along any path to a leaf, as a 16-bit
    floating point number.  [Contents] is an object: the concatenation of the
    references to its children and a payload.

    The theorems show that what [NewContents] creates is exactly what
    [NewContentsFromFullData] accepts, that no function panics on input that
    was validated, and that [CompareByHeight] and [Limit] order and bound the
    traversal of a graph as the uploading code needs it. *)

From S2P Require Import Prelude Float16 Sha256.

(** ** [local_reference.go], [flat_reference.go]: data *)

Definition minimumObjectSizeBytes : Z := 1.
Definition maximumObjectSizeBytes : Z := Z.shiftl 1 21.
Definition SHA256V1ReferenceSizeBytes : Z := 40.
Definition SHA256V1FlatReferenceSizeBytes : Z := 35.

Record LocalReference := mkLocalReference { rawReference : list Z }.
Record FlatReference := mkFlatReference { rawFlatReference : list Z }.

#[global] Instance LocalReference_eq_dec : EqDecision LocalReference.
Proof. solve_decision. Defined.
#[global] Instance LocalReference_countable : Countable LocalReference :=
  inj_countable' rawReference mkLocalReference ltac:(by intros []).
#[global] Instance FlatReference_eq_dec : EqDecision FlatReference.
Proof. solve_decision. Defined.

(** The Go types [[40]byte] and [[35]byte]. *)
Definition LocalReference_ok (r : LocalReference) : Prop :=
  length (rawReference r) = 40%nat /\ bytes_ok (rawReference r).
Definition FlatReference_ok (r : FlatReference) : Prop :=
  length (rawFlatReference r) = 35%nat /\ bytes_ok (rawFlatReference r).

(** ** Fields of references *)

Definition GetHash (r : LocalReference) : list Z := take 32 (rawReference r).

Definition GetSizeBytes (r : LocalReference) : Z :=
  Z.land (le_uint (take 4 (drop 32 (rawReference r)))) 0xffffff.

Definition GetHeight (r : LocalReference) : Z := nth 35 (rawReference r) 0.

Definition GetDegree (r : LocalReference) : Z := le_uint (take 2 (drop 36 (rawReference r))).

Definition getRawMaximumTotalParentsSizeBytes (r : LocalReference) : Z :=
  le_uint (take 2 (drop 38 (rawReference r))).

Definition GetMaximumTotalParentsSizeBytes (r : LocalReference) (includeSelf : bool) : Z :=
  let sizeBytes := ToUint64 (getRawMaximumTotalParentsSizeBytes r) in
  if includeSelf && (GetHeight r >? 0) then sizeBytes + GetSizeBytes r else sizeBytes.

Definition Flatten (r : LocalReference) : FlatReference :=
  mkFlatReference (copy_at (replicate 35 0) 0 (rawReference r)).

(** [FlatReference.GetLocalReference] *)
Definition GetLocalReference (r : FlatReference) : LocalReference :=
  mkLocalReference (copy_at (replicate 40 0) 0 (rawFlatReference r)).

Definition FlatReference_GetSizeBytes (r : FlatReference) : Z :=
  Z.lor (Z.lor (nth 32 (rawFlatReference r) 0)
               (Z.shiftl (nth 33 (rawFlatReference r) 0) 8))
        (Z.shiftl (nth 34 (rawFlatReference r) 0) 16).

(** [cmp.Compare] on [int]. *)
Definition cmp_Compare (a b : Z) : Z := if a <? b then -1 else if b <? a then 1 else 0.

Definition CompareByHeight (r other : LocalReference) : Z :=
  let c := cmp_Compare (GetHeight r) (GetHeight other) in
  if negb (c =? 0) then c else
  let c := cmp_Compare (GetMaximumTotalParentsSizeBytes r true)
                       (GetMaximumTotalParentsSizeBytes other true) in
  if negb (c =? 0) then c else
  bytes_compare (rawReference r) (rawReference other).

(** ** [init]: bounds of the parents size for every height *)

Record boundsEntry := mkBounds { minimum : Z; maximum : Z }.

Fixpoint boundsLoop (iterations : nat) (bounds : boundsEntry) : outcome (list boundsEntry) :=
  match iterations with
  | O => Ok []
  | S iterations =>
      match FromUint64RoundUp (add_u64 (ToUint64 (minimum bounds)) SHA256V1ReferenceSizeBytes),
            FromUint64RoundUp (add_u64 (ToUint64 (maximum bounds)) maximumObjectSizeBytes) with
      | Some lo, Some hi =>
          let bounds := mkBounds lo hi in
          rest ← boundsLoop iterations bounds; Ok (bounds :: rest)
      | _, _ => Panic
      end
  end.

(** Heights 0 and 1 keep the zero value; the loop fills 2 to 255. *)
Definition init_bounds : outcome (list boundsEntry) :=
  rest ← boundsLoop 254 (mkBounds 0 0); Ok (mkBounds 0 0 :: mkBounds 0 0 :: rest).

Definition boundsTable (init : outcome (list boundsEntry)) : list boundsEntry :=
  match init with Ok l => l | _ => [] end.

Definition maximumTotalParentsSizeBytesBounds : list boundsEntry := boundsTable init_bounds.

(** ** [reference_format.go]: validation *)

Definition errInvalidArgument {A} : outcome A := Err (StatusError CodeInvalidArgument).

Definition validateObjectSizeBytes (sizeBytes : Z) : outcome unit :=
  if (sizeBytes <? minimumObjectSizeBytes) || (sizeBytes >? maximumObjectSizeBytes)
  then errInvalidArgument else Ok tt.

Definition NewLocalReference (raw : list Z) : outcome LocalReference :=
  if negb (zlen raw =? SHA256V1ReferenceSizeBytes) then errInvalidArgument else
  let r := mkLocalReference raw in
  let sizeBytes := GetSizeBytes r in
  _ ← validateObjectSizeBytes sizeBytes;
  let maximumDegree := Z.quot sizeBytes SHA256V1ReferenceSizeBytes in
  let degree := GetDegree r in
  if degree >? maximumDegree then errInvalidArgument else
  let height := GetHeight r in
  if negb (Bool.eqb (degree >? 0) (height >? 0)) then errInvalidArgument else
  bounds ← index maximumTotalParentsSizeBytesBounds height;
  let parentsSizeBytes := getRawMaximumTotalParentsSizeBytes r in
  if (parentsSizeBytes <? minimum bounds) || (parentsSizeBytes >? maximum bounds)
  then errInvalidArgument else Ok r.

Definition NewFlatReference (raw : list Z) : outcome FlatReference :=
  if negb (zlen raw =? SHA256V1FlatReferenceSizeBytes) then errInvalidArgument else
  let r := mkFlatReference raw in
  _ ← validateObjectSizeBytes (FlatReference_GetSizeBytes r);
  Ok r.

(** ** [contents.go]: statistics of the children *)

Record referenceStatsComputer := mkStats {
  lastRawReference : option (list Z);
  statsHeight : Z;
  statsDegree : Z;
  statsMaximumTotalParentsSizeBytes : Z;
}.

Definition zeroStats : referenceStatsComputer := mkStats None 0 0 0.

Definition addChildReference (rcs : referenceStatsComputer) (outgoingReference : LocalReference)
    : outcome referenceStatsComputer :=
  let raw := rawReference outgoingReference in
  if match lastRawReference rcs with
     | Some last => bytes_compare last raw >=? 0
     | None => false
     end then errInvalidArgument else
  let newHeight := GetHeight outgoingReference + 1 in
  height ← (if statsHeight rcs <? newHeight
            then if newHeight >? 255 then errInvalidArgument else Ok newHeight
            else Ok (statsHeight rcs));
  let newMaximum := GetMaximumTotalParentsSizeBytes outgoingReference true in
  Ok (mkStats (Some raw) height (statsDegree rcs + 1)
        (if statsMaximumTotalParentsSizeBytes rcs <? newMaximum then newMaximum
         else statsMaximumTotalParentsSizeBytes rcs)).

Definition getStats (rcs : referenceStatsComputer) : outcome (list Z) :=
  match FromUint64RoundUp (u64 (statsMaximumTotalParentsSizeBytes rcs)) with
  | None => Panic
  | Some f16 =>
      Ok ([u8 (statsHeight rcs)] ++ le_bytes 2 (u16 (statsDegree rcs)) ++ le_bytes 2 f16)
  end.

(** ** [contents.go]: objects *)

Record Contents := mkContents { contentsReference : LocalReference; contentsData : list Z }.

#[global] Instance Contents_eq_dec : EqDecision Contents.
Proof. solve_decision. Defined.

(** The loop of [validateOutgoingReferences] from index [i] on. *)
Fixpoint validateLoop (n : nat) (i : Z) (data : list Z) (rcs : referenceStatsComputer)
    : outcome referenceStatsComputer :=
  match n with
  | O => Ok rcs
  | S n =>
      raw ← slice data (i * SHA256V1ReferenceSizeBytes) ((i + 1) * SHA256V1ReferenceSizeBytes);
      outgoingReference ← NewLocalReference raw;
      rcs ← addChildReference rcs outgoingReference;
      validateLoop n (i + 1) data rcs
  end.

Definition validateOutgoingReferences (c : Contents) : outcome unit :=
  let r := contentsReference c in
  rcs ← validateLoop (Z.to_nat (GetDegree r)) 0 (contentsData c) zeroStats;
  if negb (statsHeight rcs =? GetHeight r) then errInvalidArgument else
  match FromUint64RoundUp (u64 (statsMaximumTotalParentsSizeBytes rcs)) with
  | None => Panic
  | Some actual =>
      if negb (actual =? getRawMaximumTotalParentsSizeBytes r) then errInvalidArgument
      else Ok tt
  end.

Definition NewContentsFromFullData (reference : LocalReference) (data : list Z)
    : outcome Contents :=
  let c := mkContents reference data in
  if negb (zlen data =? GetSizeBytes reference) then errInvalidArgument else
  if bool_decide (sha256 data = GetHash reference) then
    _ ← validateOutgoingReferences c; Ok c
  else errInvalidArgument.

Definition GetOutgoingReference (c : Contents) (i : Z) : outcome LocalReference :=
  outgoingReferences ←
    slice (contentsData c) 0 (GetDegree (contentsReference c) * SHA256V1ReferenceSizeBytes);
  tail ← slice_from outgoingReferences (i * SHA256V1ReferenceSizeBytes);
  (* Conversion of a slice to an array of 40 bytes. *)
  raw ← slice tail 0 SHA256V1ReferenceSizeBytes;
  Ok (mkLocalReference raw).

Fixpoint detachLoop (n : nat) (i : Z) (data : list Z) : outcome (list LocalReference) :=
  match n with
  | O => Ok []
  | S n =>
      tail ← slice_from data (i * SHA256V1ReferenceSizeBytes);
      raw ← slice tail 0 SHA256V1ReferenceSizeBytes;
      rest ← detachLoop n (i + 1) data;
      Ok (mkLocalReference raw :: rest)
  end.

Definition DetachOutgoingReferences (c : Contents) : outcome (list LocalReference) :=
  detachLoop (Z.to_nat (GetDegree (contentsReference c))) 0 (contentsData c).

Definition GetFullData (c : Contents) : list Z := contentsData c.

Definition GetPayload (c : Contents) : outcome (list Z) :=
  slice_from (contentsData c) (GetDegree (contentsReference c) * SHA256V1ReferenceSizeBytes).

Definition cloneWithReference (c : Contents) (r : LocalReference) : Contents :=
  if decide (r = contentsReference c) then c else mkContents r (contentsData c).

Definition FlattenContents (c : Contents) : Contents :=
  cloneWithReference c (GetLocalReference (Flatten (contentsReference c))).

Definition Unflatten (c : Contents) (newReference : LocalReference) : outcome Contents :=
  if decide (take 35 (rawReference newReference) = take 35 (rawReference (contentsReference c)))
  then
    let cFlat := cloneWithReference c newReference in
    _ ← validateOutgoingReferences cFlat; Ok cFlat
  else errInvalidArgument.

(** ** [reference_format.go]: creation *)

(** The loop over the outgoing references of [NewContents]. *)
Fixpoint newContentsLoop (refs : list LocalReference) (rcs : referenceStatsComputer)
    (data : list Z) : outcome (referenceStatsComputer * list Z) :=
  match refs with
  | [] => Ok (rcs, data)
  | r :: refs =>
      rcs ← addChildReference rcs r;
      newContentsLoop refs rcs (data ++ rawReference r)
  end.

(** [rawReference[32:]] receives the size, then [rawReference[35:]] the statistics. *)
Definition buildRawReference (hash : list Z) (sizeBytes : Z) (stats : list Z) : list Z :=
  copy_at (copy_at (copy_at (replicate 40 0) 0 hash) 32 (le_bytes 4 (u32 sizeBytes))) 35 stats.

Definition NewContents (outgoingReferences : list LocalReference) (payload : list Z)
    : outcome Contents :=
  let sizeBytes := zlen outgoingReferences * SHA256V1ReferenceSizeBytes + zlen payload in
  _ ← validateObjectSizeBytes sizeBytes;
  '(rcs, data) ←
    (if zlen outgoingReferences =? 0 then Ok (zeroStats, payload)
     else '(rcs, data) ← newContentsLoop outgoingReferences zeroStats [];
          Ok (rcs, data ++ payload));
  stats ← getStats rcs;
  Ok (mkContents (mkLocalReference (buildRawReference (sha256 data) sizeBytes stats)) data).

(** ** [outgoing_references.go], [local_reference.go]: [NewLocalReferenceFromData]

    The outgoing references are an [OutgoingReferencesList].  The state of
    the hash function is the list of bytes written so far. *)
Fixpoint fromDataLoop (n : nat) (i : Z) (refs : list LocalReference)
    (hasher : list Z) (rcs : referenceStatsComputer)
    : outcome (list Z * referenceStatsComputer) :=
  match n with
  | O => Ok (hasher, rcs)
  | S n =>
      r ← index refs i;
      rcs ← addChildReference rcs r;
      fromDataLoop n (i + 1) refs (hasher ++ rawReference r) rcs
  end.

Definition NewLocalReferenceFromData (outgoingReferences : list LocalReference)
    (payload : list Z) : outcome LocalReference :=
  let degree := zlen outgoingReferences in
  let sizeBytes := degree * SHA256V1ReferenceSizeBytes + zlen payload in
  _ ← validateObjectSizeBytes sizeBytes;
  '(hasher, rcs) ← fromDataLoop (Z.to_nat degree) 0 outgoingReferences [] zeroStats;
  stats ← getStats rcs;
  Ok (mkLocalReference (buildRawReference (sha256 (hasher ++ payload)) sizeBytes stats)).

(** ** [limit.go] *)

Record Limit := mkLimit { limitCount : Z; limitSizeBytes : Z }.

Definition Unlimited : Limit := mkLimit (2 ^ 32 - 1) (2 ^ 64 - 1).

Definition Limit_Min (l other : Limit) : Limit :=
  mkLimit (Z.min (limitCount l) (limitCount other))
          (Z.min (limitSizeBytes l) (limitSizeBytes other)).

Definition CanAcquireParentAndChildren (l : Limit) (reference : LocalReference) : bool :=
  let count := u32 (GetHeight reference) in
  let sizeBytes := u64 (GetMaximumTotalParentsSizeBytes reference true) in
  (limitCount l >=? count) && (limitSizeBytes l >=? sizeBytes).

Definition AcquireParentAndChildren (l : Limit) (reference : LocalReference) : Limit * bool :=
  let count := u32 (GetHeight reference) in
  let sizeBytes := u64 (GetMaximumTotalParentsSizeBytes reference true) in
  if (limitCount l <? count) || (limitSizeBytes l <? sizeBytes) then (l, false)
  else (mkLimit (u32 (limitCount l - count)) (u64 (limitSizeBytes l - sizeBytes)), true).

Definition ReleaseParent (l : Limit) (reference : LocalReference) : Limit :=
  if GetHeight reference >? 0 then
    mkLimit (u32 (limitCount l + 1)) (u64 (limitSizeBytes l + u64 (GetSizeBytes reference)))
  else l.

Definition ReleaseChildren (l : Limit) (reference : LocalReference) : Limit :=
  let h := GetHeight reference in
  if h >? 0 then
    mkLimit (u32 (limitCount l + u32 (h - 1)))
      (u64 (limitSizeBytes l + u64 (GetMaximumTotalParentsSizeBytes reference false)))
  else l.

(** ** The fields of a reference determine it *)

Definition encodeReference (hash : list Z) (sizeBytes height degree parents : Z) : list Z :=
  hash ++ le_bytes 3 sizeBytes ++ [height] ++ le_bytes 2 degree ++ le_bytes 2 parents.

Section encoded_fields.
Context (hash : list Z) (sizeBytes height degree parents : Z).
Hypothesis Hhash : length hash = 32%nat.
Abbreviation r := (mkLocalReference (encodeReference hash sizeBytes height degree parents)).

Lemma GetHash_encode : GetHash r = hash.
Proof. apply take_app_length'. by rewrite Hhash. Qed.

Lemma GetHeight_encode : GetHeight r = height.
Proof.
  unfold GetHeight, encodeReference; simpl rawReference.
  rewrite app_nth2; rewrite Hhash; [|lia]. reflexivity.
Qed.

Lemma drop_encode n :
  drop (32 + n) (rawReference r) =
  drop n (le_bytes 3 sizeBytes ++ [height] ++ le_bytes 2 degree ++ le_bytes 2 parents).
Proof. cbn [rawReference]. unfold encodeReference. by rewrite <- drop_drop, drop_app_length' by lia. Qed.

Lemma GetDegree_encode : 0 <= degree < 2 ^ 16 -> GetDegree r = degree.
Proof.
  intros Hd. unfold GetDegree. change 36%nat with (32 + 4)%nat. rewrite drop_encode.
  change (le_uint (le_bytes 2 degree) = degree). rewrite le_uint_bytes. by apply Z.mod_small.
Qed.

Lemma getRawMaximum_encode :
  0 <= parents < 2 ^ 16 -> getRawMaximumTotalParentsSizeBytes r = parents.
Proof.
  intros Hd. unfold getRawMaximumTotalParentsSizeBytes. change 38%nat with (32 + 6)%nat.
  rewrite drop_encode. change (le_uint (le_bytes 2 parents) = parents).
  rewrite le_uint_bytes. by apply Z.mod_small.
Qed.

Lemma GetSizeBytes_encode :
  0 <= sizeBytes < 2 ^ 24 -> 0 <= height < 2 ^ 8 -> GetSizeBytes r = sizeBytes.
Proof.
  intros Hs Hh. unfold GetSizeBytes. replace 32%nat with (32 + 0)%nat by lia.
  rewrite drop_encode.
  change (take 4 _) with (le_bytes 3 sizeBytes ++ [height]).
  rewrite le_uint_app, le_uint_bytes, length_le_bytes. simpl le_uint.
  rewrite (land_mask 24) by done. change (256 ^ Z.of_nat 3) with (2 ^ 24).
  rewrite (Z.mod_small sizeBytes) by done. rewrite Z.mul_comm, Z_mod_plus_full.
  by apply Z.mod_small.
Qed.
End encoded_fields.

Lemma GetSizeBytes_take3 r :
  LocalReference_ok r -> GetSizeBytes r = le_uint (take 3 (drop 32 (rawReference r))).
Proof.
  intros [Hlen Hok]. unfold GetSizeBytes. set (d := drop 32 (rawReference r)).
  assert (length d = 8%nat) as Hd by (subst d; rewrite length_drop; lia).
  assert (bytes_ok (take 3 d)) as Hb by (subst d; auto with bonanza).
  replace (take 4 d) with (take 3 d ++ take 1 (drop 3 d))
    by (rewrite <- (take_drop 3 d) at 3; rewrite take_app, length_take, Hd; by rewrite take_take).
  apply le_uint_bound in Hb. rewrite length_take, Hd in Hb.
  change (256 ^ Z.of_nat (3 `min` 8)) with (2 ^ 24) in Hb.
  rewrite le_uint_app, length_take, Hd, (land_mask 24) by done.
  change (256 ^ Z.of_nat (3 `min` 8)) with (2 ^ 24).
  rewrite Z.mul_comm, Z_mod_plus_full. by apply Z.mod_small.
Qed.

Lemma le_bytes_le_uint n l : bytes_ok l -> length l = n -> le_bytes n (le_uint l) = l.
Proof. intros Hl <-. by apply le_bytes_uint. Qed.

Lemma reference_fields r :
  LocalReference_ok r ->
  rawReference r = encodeReference (GetHash r) (GetSizeBytes r) (GetHeight r) (GetDegree r)
    (getRawMaximumTotalParentsSizeBytes r).
Proof.
  intros Hr. rewrite GetSizeBytes_take3 by done. destruct Hr as [Hlen Hok].
  unfold encodeReference, GetHash, GetHeight, GetDegree, getRawMaximumTotalParentsSizeBytes.
  destruct r as [raw]; cbn [rawReference] in *.
  rewrite !le_bytes_le_uint
    by (auto with bonanza || (rewrite length_take, length_drop; lia)).
  rewrite <- (take_drop 32 raw) at 1. f_equal.
  replace (nth 35 raw 0) with (nth 3 (drop 32 raw) 0)
    by (rewrite <- (take_drop 32 raw) at 2; rewrite app_nth2; rewrite length_take, Hlen; [done|lia]).
  change (drop 38 raw) with (drop (32 + 6) raw). change (drop 36 raw) with (drop (32 + 4) raw).
  rewrite <- !(drop_drop raw _ 32).
  assert (length (drop 32 raw) = 8%nat) as Hd by (rewrite length_drop; lia).
  by destruct (drop 32 raw) as [|? [|? [|? [|? [|? [|? [|? [|? [|]]]]]]]]].
Qed.

Lemma fields_range r :
  LocalReference_ok r ->
  length (GetHash r) = 32%nat /\ 0 <= GetSizeBytes r < 2 ^ 24 /\ 0 <= GetHeight r < 2 ^ 8 /\
  0 <= GetDegree r < 2 ^ 16 /\ is_u16 (getRawMaximumTotalParentsSizeBytes r).
Proof.
  intros Hr. rewrite GetSizeBytes_take3 by done. destruct Hr as [Hlen Hok].
  assert (forall n m, (n + m <= 40)%nat ->
    0 <= le_uint (take m (drop n (rawReference r))) < 256 ^ Z.of_nat m) as Hle.
  { intros n m Hnm. pose proof (le_uint_bound (take m (drop n (rawReference r)))) as H.
    rewrite length_take, length_drop, Nat.min_l in H by lia. apply H. auto with bonanza. }
  split. { unfold GetHash. rewrite length_take. lia. }
  split; [exact (Hle 32%nat 3%nat ltac:(lia))|]. split.
  - unfold GetHeight. destruct (lookup_lt_is_Some_2 (rawReference r) 35) as [b Hb]; [lia|].
    rewrite (nth_lookup_Some _ _ _ _ Hb). exact (bytes_ok_lookup _ _ _ Hok Hb).
  - split; [exact (Hle 36%nat 2%nat ltac:(lia))|exact (Hle 38%nat 2%nat ltac:(lia))].
Qed.

Lemma buildRawReference_encode hash sizeBytes h d f :
  length hash = 32%nat -> 0 <= sizeBytes < 2 ^ 24 ->
  buildRawReference hash sizeBytes ([h] ++ le_bytes 2 d ++ le_bytes 2 f) =
  encodeReference hash sizeBytes h d f.
Proof.
  intros Hlen Hs. unfold buildRawReference, encodeReference, u32.
  rewrite Z.mod_small by lia.
  rewrite (copy_at_app [] (replicate 32 0) hash (replicate 8 0))
    by (done || by rewrite length_replicate).
  rewrite (copy_at_app hash (replicate 4 0) _ (replicate 4 0))
    by (done || by rewrite length_le_bytes).
  change (le_bytes 4 sizeBytes) with (le_bytes (3 + 1) sizeBytes). rewrite le_bytes_add.
  rewrite <- app_assoc, (app_assoc hash).
  rewrite <- (app_nil_r (le_bytes 1 _ ++ replicate 4 0)).
  rewrite copy_at_app by (done || (rewrite length_app, length_le_bytes; lia)).
  by rewrite app_nil_r, <- !app_assoc.
Qed.

Lemma encodeReference_ok hash s h d f :
  length hash = 32%nat -> bytes_ok hash -> 0 <= h < 2 ^ 8 ->
  LocalReference_ok (mkLocalReference (encodeReference hash s h d f)).
Proof.
  intros Hlen Hok Hh. split; simpl; unfold encodeReference.
  - rewrite !length_app, !length_le_bytes. simpl. lia.
  - rewrite !bytes_ok_app. repeat split; auto with bonanza. by constructor.
Qed.

(** ** The table of bounds *)

Definition boundsAt (h : Z) : boundsEntry :=
  nth (Z.to_nat h) maximumTotalParentsSizeBytesBounds (mkBounds 0 0).

Definition boundsStep (b b' : boundsEntry) : Prop :=
  FromUint64RoundUp (ToUint64 (minimum b) + 40) = Some (minimum b') /\
  FromUint64RoundUp (ToUint64 (maximum b) + 2 ^ 21) = Some (maximum b') /\
  is_u16 (minimum b') /\ is_u16 (maximum b').

Lemma boundsLoop_step n b l :
  is_u16 (minimum b) -> is_u16 (maximum b) -> boundsLoop n b = Ok l ->
  length l = n /\
  forall i, (i < n)%nat -> boundsStep (nth i (b :: l) (mkBounds 0 0)) (nth i l (mkBounds 0 0)).
Proof.
  revert b l. induction n as [|n IH]; intros b l Hmin Hmax; cbn [boundsLoop].
  { intros [= <-]. split; [done|]. lia. }
  apply ToUint64_range in Hmin as Hmin', Hmax as Hmax'. unfold add_u64, u64.
  change maximumObjectSizeBytes with (2 ^ 21). change SHA256V1ReferenceSizeBytes with 40.
  rewrite !Z.mod_small by lia.
  destruct (FromUint64RoundUp (_ + 40)) as [lo|] eqn:Hlo; [|done].
  destruct (FromUint64RoundUp (_ + 2 ^ 21)) as [hi|] eqn:Hhi; [|done].
  pose proof Hlo as Hlo'. apply FromUint64RoundUp_Some in Hlo' as (Ulo&_); [|lia].
  pose proof Hhi as Hhi'. apply FromUint64RoundUp_Some in Hhi' as (Uhi&_); [|lia].
  destruct (boundsLoop n (mkBounds lo hi)) as [rest| |] eqn:Hrest; [|done|done].
  simpl. intros [= <-]. destruct (IH (mkBounds lo hi) rest Ulo Uhi Hrest) as [Hlen Hstep].
  split; [by rewrite <- Hlen|]. intros [|i] Hi; [done|]. apply Hstep. lia.
Qed.

(** [init] does not panic. *)
Lemma init_bounds_Ok : exists l,
  maximumTotalParentsSizeBytesBounds = mkBounds 0 0 :: mkBounds 0 0 :: l /\
  length l = 254%nat /\
  forall i, (i < 254)%nat ->
    boundsStep (nth i (mkBounds 0 0 :: l) (mkBounds 0 0)) (nth i l (mkBounds 0 0)).
Proof.
  pose proof (boundsLoop_step 254 (mkBounds 0 0)) as Hstep.
  assert (match boundsLoop 254 (mkBounds 0 0) with Ok _ => true | _ => false end = true) as H
    by (vm_compute; reflexivity).
  unfold maximumTotalParentsSizeBytesBounds, init_bounds. revert H Hstep.
  generalize (boundsLoop 254 (mkBounds 0 0)). intros [l| |] H Hstep; [|discriminate H..].
  exists l. split; [reflexivity|]. by apply Hstep.
Qed.

Lemma bounds_length : length maximumTotalParentsSizeBytesBounds = 256%nat.
Proof. destruct init_bounds_Ok as (l&->&Hlen&_). simpl. by rewrite Hlen. Qed.

Lemma bounds_step h : 1 <= h <= 254 -> boundsStep (boundsAt h) (boundsAt (h + 1)).
Proof.
  intros Hh. unfold boundsAt. destruct init_bounds_Ok as (l&->&_&Hstep).
  specialize (Hstep (Z.to_nat (h - 1)) ltac:(lia)).
  replace (Z.to_nat h) with (S (Z.to_nat (h - 1))) by lia.
  replace (Z.to_nat (h + 1)) with (S (S (Z.to_nat (h - 1)))) by lia. exact Hstep.
Qed.

Lemma boundsAt_low h : 0 <= h <= 1 -> boundsAt h = mkBounds 0 0.
Proof.
  intros Hh. unfold boundsAt. destruct init_bounds_Ok as (l&->&_).
  by assert (h = 0 \/ h = 1) as [-> | ->] by lia.
Qed.

#[global] Opaque maximumTotalParentsSizeBytesBounds.

Lemma index_bounds h :
  0 <= h < 256 -> index maximumTotalParentsSizeBytesBounds h = Ok (boundsAt h).
Proof.
  intros Hh. pose proof bounds_length as Hlen. revert Hlen. unfold index, boundsAt.
  generalize maximumTotalParentsSizeBytesBounds. intros t Hlen.
  destruct (Z.ltb_spec h 0); [lia|].
  destruct (lookup_lt_is_Some_2 t (Z.to_nat h)) as [b Hb]; [lia|].
  by rewrite Hb, (nth_lookup_Some _ _ _ _ Hb).
Qed.

#[global] Opaque boundsAt.

(** ** Valid references *)

(** What [NewLocalReference] checks of the fields. *)
Definition fields_ok (r : LocalReference) : Prop :=
  1 <= GetSizeBytes r <= 2 ^ 21 /\ GetDegree r * 40 <= GetSizeBytes r /\
  (0 < GetDegree r <-> 0 < GetHeight r) /\
  minimum (boundsAt (GetHeight r)) <= getRawMaximumTotalParentsSizeBytes r
    <= maximum (boundsAt (GetHeight r)).

(** A reference that [NewLocalReference] accepts. *)
Definition valid_reference (r : LocalReference) : Prop := LocalReference_ok r /\ fields_ok r.

Lemma validateObjectSizeBytes_spec s :
  validateObjectSizeBytes s =
  if decide (1 <= s <= 2 ^ 21) then Ok tt else errInvalidArgument.
Proof.
  unfold validateObjectSizeBytes, minimumObjectSizeBytes.
  change maximumObjectSizeBytes with (2 ^ 21). rewrite Z.gtb_ltb.
  case_bools; case_decide; (done || lia).
Qed.

(** Every check of [NewLocalReference], none of which is out of range. *)
Lemma NewLocalReference_total raw :
  bytes_ok raw ->
  (NewLocalReference raw = Ok (mkLocalReference raw) /\ valid_reference (mkLocalReference raw)) \/
  (NewLocalReference raw = errInvalidArgument /\ ~ valid_reference (mkLocalReference raw)).
Proof.
  intros Hok. unfold NewLocalReference. change SHA256V1ReferenceSizeBytes with 40. unfold zlen.
  destruct (Z.eqb_spec (Z.of_nat (length raw)) 40) as [Hlen|Hlen]; cbn [negb].
  2: { right. split; [done|]. intros [[Hl _] _]. simpl in Hl. lia. }
  set (r := mkLocalReference raw).
  assert (LocalReference_ok r) as Hr by (split; [simpl; lia|done]).
  destruct (fields_range r Hr) as (_&Hsize&Hheight&Hdegree&Hparents).
  unfold valid_reference, fields_ok.
  rewrite validateObjectSizeBytes_spec. case_decide as Hs; [|right; split; [done|]; tauto].
  simpl mbind. rewrite Z.quot_div_nonneg, Z.gtb_ltb by lia.
  destruct (Z.ltb_spec (GetSizeBytes r / 40) (GetDegree r)) as [Hd|Hd].
  { right. split; [done|]. intros (_&_&Hd'&_).
    assert (GetDegree r <= GetSizeBytes r / 40) by (apply Z.div_le_lower_bound; lia). lia. }
  assert (GetDegree r * 40 <= GetSizeBytes r) as Hd' by arith.
  rewrite index_bounds by (change 256 with (2 ^ 8); lia). simpl mbind.
  rewrite !Z.gtb_ltb. repeat case_bool; cbn [Bool.eqb negb orb];
    first [right; split; [reflexivity|]; lia
          |left; split; [reflexivity|]; (split; [exact Hr|]); lia].
Qed.

Lemma NewLocalReference_Ok raw r :
  bytes_ok raw -> NewLocalReference raw = Ok r <-> rawReference r = raw /\ valid_reference r.
Proof.
  intros Hok. destruct (NewLocalReference_total raw Hok) as [[-> Hv]|[-> Hv]].
  - split; [by intros [= <-]|]. intros [<- _]. by destruct r.
  - split; [done|]. intros [<- Hv']. by destruct r.
Qed.

(** The sizes that a child adds to its parent, by height of the parent. *)
Definition pathLow (h : Z) : Z :=
  if h <=? 1 then 0 else ToUint64 (minimum (boundsAt (h - 1))) + 40.
Definition pathHigh (h : Z) : Z :=
  if h <=? 1 then 0 else ToUint64 (maximum (boundsAt (h - 1))) + 2 ^ 21.

Lemma boundsAt_u16 h :
  0 <= h <= 255 -> is_u16 (minimum (boundsAt h)) /\ is_u16 (maximum (boundsAt h)).
Proof.
  intros Hh. destruct (Z.leb_spec h 1). { rewrite boundsAt_low by lia. by split. }
  destruct (bounds_step (h - 1)) as (_&_&Hu); [lia|]. by replace (h - 1 + 1) with h in Hu by lia.
Qed.

Lemma path_range h : 0 <= h <= 255 -> 0 <= pathLow h /\ 0 <= pathHigh h <= 4096 * 2 ^ 30.
Proof.
  intros Hh. unfold pathLow, pathHigh. case_bool; [lia|].
  destruct (boundsAt_u16 (h - 1)) as [H1 H2]; [lia|].
  apply ToUint64_range in H1, H2. lia.
Qed.

Lemma pathHigh_step h : 1 <= h <= 254 -> pathHigh h <= pathHigh (h + 1).
Proof.
  intros Hh. pose proof (path_range (h + 1) ltac:(lia)). unfold pathHigh in *.
  destruct (Z.leb_spec (h + 1) 1); [lia|]. destruct (Z.leb_spec h 1); [lia|].
  destruct (bounds_step (h - 1)) as (_&Hmax&_&_); [lia|].
  destruct (boundsAt_u16 (h - 1)) as [_ Hu]; [lia|].
  replace (h - 1 + 1) with h in Hmax by lia. replace (h + 1 - 1) with h by lia.
  apply FromUint64RoundUp_Some in Hmax as (_&Hle&_); [lia|].
  apply ToUint64_range in Hu. lia.
Qed.

Lemma pathHigh_mono g h : 0 <= g <= h -> h <= 255 -> pathHigh g <= pathHigh h.
Proof.
  intros Hg Hh. replace h with (g + Z.of_nat (Z.to_nat (h - g))) by lia.
  assert (g + Z.of_nat (Z.to_nat (h - g)) <= 255) as Hn by lia. revert Hn.
  generalize (Z.to_nat (h - g)). induction n as [|n IH]; intros Hn; [by rewrite Z.add_0_r|].
  etransitivity; [apply IH; lia|].
  replace (g + Z.of_nat (S n)) with (g + Z.of_nat n + 1) by lia.
  destruct (Z.eqb_spec (g + Z.of_nat n) 0) as [->|]; [done|]. apply pathHigh_step. lia.
Qed.

(** Rounding a path of height [h] gives a value between the bounds of [h]. *)
Lemma path_bounds h v :
  1 <= h <= 255 -> pathLow h <= v <= pathHigh h ->
  exists f, FromUint64RoundUp v = Some f /\ is_u16 f /\
    minimum (boundsAt h) <= f <= maximum (boundsAt h).
Proof.
  intros Hh. unfold pathLow, pathHigh. destruct (Z.leb_spec h 1).
  { intros Hv. replace v with 0 by lia. rewrite boundsAt_low by lia. by exists 0. }
  intros Hv. destruct (bounds_step (h - 1)) as (Hmin&Hmax&_&_); [lia|].
  destruct (boundsAt_u16 (h - 1)) as [Hu1 Hu2]; [lia|].
  replace (h - 1 + 1) with h in * by lia. apply ToUint64_range in Hu1, Hu2.
  destruct (FromUint64RoundUp v) as [f|] eqn:Hf.
  - exists f. split; [reflexivity|].
    split; [apply (FromUint64RoundUp_Some v); [lia|exact Hf]|].
    split; [eapply FromUint64RoundUp_le; [|exact Hmin|exact Hf]; lia|].
    eapply FromUint64RoundUp_le; [|exact Hf|exact Hmax]; lia.
  - apply FromUint64RoundUp_Some in Hmax as (Hu&Hle&_); [|lia].
    apply ToUint64_range in Hu. destruct (FromUint64RoundUp_bounds v) as (f&?&_); [lia|].
    congruence.
Qed.

(** ** Statistics of a list of children *)

Fixpoint foldStats (refs : list LocalReference) (rcs : referenceStatsComputer)
    : outcome referenceStatsComputer :=
  match refs with
  | [] => Ok rcs
  | r :: refs => rcs ← addChildReference rcs r; foldStats refs rcs
  end.

(** What a child contributes to the parents size of its parent. *)
Lemma child_path r :
  valid_reference r ->
  pathLow (GetHeight r + 1) <= GetMaximumTotalParentsSizeBytes r true
    <= pathHigh (GetHeight r + 1).
Proof.
  intros [Hr (Hsize&Hdeg&Hdh&Hpar)]. pose proof (fields_range r Hr) as (_&_&Hh&Hd&Hp).
  unfold pathLow, pathHigh, GetMaximumTotalParentsSizeBytes. simpl andb. rewrite Z.gtb_ltb.
  destruct (Z.ltb_spec 0 (GetHeight r)) as [Hpos|Hzero].
  - destruct (Z.leb_spec (GetHeight r + 1) 1); [lia|].
    replace (GetHeight r + 1 - 1) with (GetHeight r) by lia.
    destruct (boundsAt_u16 (GetHeight r)) as [Hu1 Hu2]; [lia|].
    pose proof (ToUint64_le _ _ Hu1 Hp ltac:(lia)).
    pose proof (ToUint64_le _ _ Hp Hu2 ltac:(lia)). lia.
  - destruct (Z.leb_spec (GetHeight r + 1) 1); [|lia].
    assert (GetHeight r = 0) as E by lia. rewrite E, boundsAt_low in Hpar by lia. simpl in Hpar.
    replace (getRawMaximumTotalParentsSizeBytes r) with 0 by lia.
    change (ToUint64 0) with 0. lia.
Qed.

Record stats_ok (rcs : referenceStatsComputer) : Prop := {
  stats_height : 0 <= statsHeight rcs <= 255;
  stats_degree : 0 <= statsDegree rcs;
  stats_empty : statsDegree rcs = 0 ->
    statsHeight rcs = 0 /\ statsMaximumTotalParentsSizeBytes rcs = 0;
  stats_nonempty : 0 < statsDegree rcs -> 1 <= statsHeight rcs /\
    pathLow (statsHeight rcs) <= statsMaximumTotalParentsSizeBytes rcs
      <= pathHigh (statsHeight rcs);
}.

Lemma zeroStats_ok : stats_ok zeroStats.
Proof. split; simpl; lia. Qed.

Lemma addChildReference_Ok rcs r rcs' :
  addChildReference rcs r = Ok rcs' ->
  (forall last, lastRawReference rcs = Some last -> bytes_compare last (rawReference r) < 0) /\
  statsHeight rcs' = Z.max (statsHeight rcs) (GetHeight r + 1) /\
  (statsHeight rcs' <= 255 \/ statsHeight rcs' = statsHeight rcs) /\
  statsDegree rcs' = statsDegree rcs + 1 /\
  statsMaximumTotalParentsSizeBytes rcs' =
    Z.max (statsMaximumTotalParentsSizeBytes rcs) (GetMaximumTotalParentsSizeBytes r true) /\
  lastRawReference rcs' = Some (rawReference r).
Proof.
  unfold addChildReference. intros H.
  destruct (match lastRawReference rcs with Some _ => _ | None => _ end) eqn:Hlast; [done|].
  split.
  { intros last E. rewrite E in Hlast. boolprop. lia. }
  rewrite Z.gtb_ltb in H.
  destruct (Z.ltb_spec (statsHeight rcs) (GetHeight r + 1));
    [destruct (Z.ltb_spec 255 (GetHeight r + 1)); [done|]|];
    injection H as <-; cbn [statsHeight statsDegree statsMaximumTotalParentsSizeBytes
      lastRawReference]; case_bool; repeat split; lia.
Qed.

Lemma addChildReference_stats rcs r rcs' :
  stats_ok rcs -> valid_reference r -> addChildReference rcs r = Ok rcs' -> stats_ok rcs'.
Proof.
  intros [Hh Hd He Hn] Hr H. apply addChildReference_Ok in H as (_&Eh&Hmax&Ed&Em&_).
  pose proof (child_path r Hr) as Hp. pose proof (fields_range r (proj1 Hr)) as (_&_&Hhr&_&_).
  pose proof (path_range (GetHeight r + 1) ltac:(lia)) as [Hlow _].
  split; [lia|lia|lia|]. intros _. split; [lia|]. rewrite Em, Eh in *.
  pose proof (pathHigh_mono (statsHeight rcs)
    (Z.max (statsHeight rcs) (GetHeight r + 1)) ltac:(lia) ltac:(lia)) as H1.
  pose proof (pathHigh_mono (GetHeight r + 1)
    (Z.max (statsHeight rcs) (GetHeight r + 1)) ltac:(lia) ltac:(lia)) as H2.
  destruct (Z.eqb_spec (statsDegree rcs) 0) as [E|E].
  - destruct (He E) as [E1 E2]. rewrite E1, E2 in *. rewrite Z.max_r in * by lia. lia.
  - destruct Hn as [Hn1 Hn2]; [lia|].
    destruct (Z.max_spec (statsHeight rcs) (GetHeight r + 1)) as [[_ E1]|[_ E1]];
      rewrite E1 in *; lia.
Qed.

Lemma foldStats_ok refs rcs rcs' :
  stats_ok rcs -> Forall valid_reference refs -> foldStats refs rcs = Ok rcs' ->
  stats_ok rcs' /\ statsDegree rcs' = statsDegree rcs + zlen refs.
Proof.
  intros Hs Hrefs. revert rcs Hs. induction Hrefs as [|r refs Hr _ IH]; intros rcs Hs; simpl.
  { intros [= <-]. unfold zlen. simpl. split; [done|lia]. }
  destruct (addChildReference rcs r) as [rcs1| |] eqn:E; simpl; [|done|done].
  intros H. destruct (IH rcs1) as [Hok Hdeg]; [by eapply addChildReference_stats|done|].
  split; [done|]. apply addChildReference_Ok in E as (_&_&_&Ed&_). unfold zlen in *.
  simpl. lia.
Qed.

(** The statistics dominate those of every child. *)
Lemma foldStats_child refs rcs rcs' r :
  foldStats refs rcs = Ok rcs' -> r ∈ refs ->
  GetHeight r + 1 <= statsHeight rcs' /\
  GetMaximumTotalParentsSizeBytes r true <= statsMaximumTotalParentsSizeBytes rcs'.
Proof.
  assert (forall refs rcs rcs', foldStats refs rcs = Ok rcs' ->
    statsHeight rcs <= statsHeight rcs' /\
    statsMaximumTotalParentsSizeBytes rcs <= statsMaximumTotalParentsSizeBytes rcs') as Hmono.
  { induction refs0 as [|r0 refs0 IH]; intros s s'; simpl; [intros [= <-]; lia|].
    destruct (addChildReference s r0) as [s1| |] eqn:E; simpl; [|done|done].
    intros H. apply IH in H. apply addChildReference_Ok in E. lia. }
  revert rcs. induction refs as [|r0 refs IH]; intros rcs; simpl; [by intros _ ?%not_elem_of_nil|].
  destruct (addChildReference rcs r0) as [rcs1| |] eqn:E; simpl; [|done|done].
  intros H [->|Hin]%elem_of_cons; [|by eapply IH].
  apply Hmono in H. apply addChildReference_Ok in E. lia.
Qed.

Lemma addChildReference_total rcs r :
  (exists rcs', addChildReference rcs r = Ok rcs') \/ addChildReference rcs r = errInvalidArgument.
Proof.
  unfold addChildReference. cbv zeta.
  destruct (match lastRawReference rcs with Some _ => _ | None => _ end); [by right|].
  destruct (statsHeight rcs <? _); [destruct (_ >? 255)|]; simpl; eauto.
Qed.

Lemma foldStats_total refs rcs :
  (exists rcs', foldStats refs rcs = Ok rcs') \/ foldStats refs rcs = errInvalidArgument.
Proof.
  revert rcs. induction refs as [|r refs IH]; intros rcs; simpl; [eauto|].
  destruct (addChildReference_total rcs r) as [[rcs' ->]| ->]; [apply IH|by right].
Qed.

(** The statistics of valid children always fit, and lie within the bounds. *)
Lemma stats_encode rcs :
  stats_ok rcs ->
  exists f, FromUint64RoundUp (u64 (statsMaximumTotalParentsSizeBytes rcs)) = Some f /\
    is_u16 f /\
    minimum (boundsAt (statsHeight rcs)) <= f <= maximum (boundsAt (statsHeight rcs)).
Proof.
  intros [Hh Hd He Hn]. destruct (Z.eqb_spec (statsDegree rcs) 0) as [E|E].
  - destruct (He E) as [-> ->]. rewrite boundsAt_low by lia. by exists 0.
  - destruct Hn as [Hn1 Hn2]; [lia|]. pose proof (path_range (statsHeight rcs) Hh).
    unfold u64. rewrite Z.mod_small by lia. apply path_bounds; lia.
Qed.

(** ** Objects *)

#[global] Opaque pathLow pathHigh.

Definition rawReferences (refs : list LocalReference) : list Z := concat (map rawReference refs).

Lemma length_rawReferences refs :
  Forall valid_reference refs -> zlen (rawReferences refs) = zlen refs * 40.
Proof.
  unfold rawReferences, zlen. induction 1 as [|r refs [[Hlen _] _] _ IH]; simpl; [done|].
  rewrite length_app, Hlen. lia.
Qed.

Lemma rawReferences_ok refs : Forall valid_reference refs -> bytes_ok (rawReferences refs).
Proof.
  intros H. apply bytes_ok_concat, Forall_map.
  eapply Forall_impl; [exact H|]. by intros r [[_ ?] _].
Qed.

Lemma newContentsLoop_fold refs rcs data :
  newContentsLoop refs rcs data =
  (rcs' ← foldStats refs rcs; Ok (rcs', data ++ rawReferences refs)).
Proof.
  revert rcs data. unfold rawReferences. induction refs as [|r refs IH]; intros rcs data; simpl.
  { by rewrite app_nil_r. }
  destruct (addChildReference rcs r); simpl; [|done|done]. by rewrite IH, <- app_assoc.
Qed.

Lemma fromDataLoop_fold pre refs hasher rcs :
  fromDataLoop (length refs) (zlen pre) (pre ++ refs) hasher rcs =
  (rcs' ← foldStats refs rcs; Ok (hasher ++ rawReferences refs, rcs')).
Proof.
  revert pre hasher rcs. unfold rawReferences.
  induction refs as [|r refs IH]; intros pre hasher rcs; simpl.
  { by rewrite app_nil_r. }
  assert (index (pre ++ r :: refs) (zlen pre) = Ok r) as ->.
  { unfold index, zlen. destruct (Z.ltb_spec (Z.of_nat (length pre)) 0); [lia|].
    by rewrite Nat2Z.id, list_lookup_middle. }
  simpl. destruct (addChildReference rcs r); simpl; [|done|done].
  rewrite cons_middle, app_assoc.
  replace (zlen pre + 1) with (zlen (pre ++ [r])) by (unfold zlen; rewrite length_app; simpl; lia).
  by rewrite IH, <- app_assoc.
Qed.

Lemma validateLoop_fold refs i pre rest rcs :
  Forall valid_reference refs -> zlen pre = i * 40 ->
  validateLoop (length refs) i (pre ++ rawReferences refs ++ rest) rcs = foldStats refs rcs.
Proof.
  intros Hrefs. revert i pre rcs. unfold rawReferences.
  induction Hrefs as [|r refs Hr Hrefs IH]; intros i pre rcs Hpre; simpl; [done|].
  pose proof Hr as [[Hlen Hok] _]. rewrite <- app_assoc.
  rewrite (slice_app pre (rawReference r))
    by (change SHA256V1ReferenceSizeBytes with 40; unfold zlen in *; lia).
  simpl. rewrite (proj2 (NewLocalReference_Ok (rawReference r) r Hok)) by done. simpl.
  destruct (addChildReference rcs r); simpl; [|done|done].
  rewrite app_assoc, IH; [done|]. unfold zlen in *. rewrite length_app. lia.
Qed.

(** Validation either fails, or has found valid references at the start. *)
Lemma validateLoop_cases n i pre suf rcs :
  bytes_ok suf -> zlen pre = i * 40 -> Z.of_nat n * 40 <= zlen suf ->
  validateLoop n i (pre ++ suf) rcs = errInvalidArgument \/
  exists refs rest rcs', suf = rawReferences refs ++ rest /\ length refs = n /\
    Forall valid_reference refs /\ foldStats refs rcs = Ok rcs' /\
    validateLoop n i (pre ++ suf) rcs = Ok rcs'.
Proof.
  revert i pre suf rcs. induction n as [|n IH]; intros i pre suf rcs Hok Hpre Hlen.
  { right. exists [], suf, rcs. by split_and!. }
  set (raw := take 40 suf).
  assert (zlen raw = 40) as Hraw by (unfold zlen in *; subst raw; rewrite length_take; lia).
  assert (bytes_ok raw) as Hrawok by (subst raw; auto with bonanza).
  assert (suf = raw ++ drop 40 suf) as Hsuf by (subst raw; by rewrite take_drop).
  assert (validateLoop (S n) i (pre ++ suf) rcs =
    (r ← NewLocalReference raw; rcs1 ← addChildReference rcs r;
     validateLoop n (i + 1) (pre ++ suf) rcs1)) as ->.
  { cbn [validateLoop]. change SHA256V1ReferenceSizeBytes with 40.
    rewrite Hsuf at 1. by rewrite slice_app by lia. }
  destruct (NewLocalReference_total raw Hrawok) as [[-> Hv]|[-> _]]; [|by left]. simpl.
  destruct (addChildReference_total rcs (mkLocalReference raw)) as [[rcs1 Eadd]|Eadd];
    rewrite Eadd; simpl; [|by left].
  rewrite Hsuf, app_assoc.
  destruct (IH (i + 1) (pre ++ raw) (drop 40 suf) rcs1)
    as [E|(refs&rest&rcs'&Erest&Hn&Hall&Hfold&E)]; [auto with bonanza| | |by left|].
  { unfold zlen in *. rewrite length_app. lia. }
  { unfold zlen in *. rewrite length_drop. lia. }
  right. exists (mkLocalReference raw :: refs), rest, rcs'. split.
  { change (raw ++ drop 40 suf = (raw ++ rawReferences refs) ++ rest).
    by rewrite <- app_assoc, <- Erest. }
  split; [by simpl; rewrite Hn|]. split; [by constructor|]. split; [|exact E].
  simpl. by rewrite Eadd.
Qed.

(** The reference of the object with the given children and payload. *)
Definition objectReference (refs : list LocalReference) (payload : list Z)
    (rcs : referenceStatsComputer) (f : Z) : LocalReference :=
  mkLocalReference (encodeReference (sha256 (rawReferences refs ++ payload))
    (zlen refs * 40 + zlen payload) (statsHeight rcs) (zlen refs) f).

Definition objectStats (refs : list LocalReference) (payload : list Z)
    (rcs : referenceStatsComputer) (f : Z) : Prop :=
  1 <= zlen refs * 40 + zlen payload <= 2 ^ 21 /\ foldStats refs zeroStats = Ok rcs /\
  FromUint64RoundUp (u64 (statsMaximumTotalParentsSizeBytes rcs)) = Some f.

Lemma getStats_encode refs rcs f :
  Forall valid_reference refs -> foldStats refs zeroStats = Ok rcs -> zlen refs < 2 ^ 16 ->
  FromUint64RoundUp (u64 (statsMaximumTotalParentsSizeBytes rcs)) = Some f ->
  getStats rcs = Ok ([statsHeight rcs] ++ le_bytes 2 (zlen refs) ++ le_bytes 2 f).
Proof.
  intros Hrefs Hfold Hlen Hf. destruct (foldStats_ok _ _ _ zeroStats_ok Hrefs Hfold) as [Hok Hd].
  unfold getStats. rewrite Hf, Hd. unfold u8, u16. simpl statsDegree.
  rewrite !Z.mod_small; [done|unfold zlen in *; lia|]. pose proof (stats_height _ Hok). lia.
Qed.

(** [NewContents] without the special case for objects without children. *)
Lemma NewContents_fold refs payload :
  NewContents refs payload =
  (_ ← validateObjectSizeBytes (zlen refs * 40 + zlen payload);
   rcs ← foldStats refs zeroStats;
   stats ← getStats rcs;
   Ok (mkContents (mkLocalReference (buildRawReference (sha256 (rawReferences refs ++ payload))
     (zlen refs * 40 + zlen payload) stats)) (rawReferences refs ++ payload))).
Proof.
  unfold NewContents. change SHA256V1ReferenceSizeBytes with 40.
  destruct (validateObjectSizeBytes _); [|done|done]. cbn [mbind outcome_bind].
  destruct refs as [|r refs]; [done|].
  change (zlen (r :: refs) =? 0) with false. cbv iota. rewrite newContentsLoop_fold.
  by destruct (foldStats (r :: refs) zeroStats).
Qed.

Lemma NewContents_object refs payload rcs f :
  Forall valid_reference refs -> objectStats refs payload rcs f ->
  NewContents refs payload =
  Ok (mkContents (objectReference refs payload rcs f) (rawReferences refs ++ payload)).
Proof.
  intros Hrefs (Hsize&Hfold&Hf). rewrite NewContents_fold.
  rewrite validateObjectSizeBytes_spec, decide_True by done. rewrite Hfold.
  cbn [mbind outcome_bind]. assert (zlen refs < 2 ^ 16) as Hlen by (unfold zlen in *; lia).
  rewrite (getStats_encode refs rcs f) by done. cbn [mbind outcome_bind].
  by rewrite buildRawReference_encode by (apply length_sha256 || lia).
Qed.

Lemma NewContents_cases refs payload :
  Forall valid_reference refs ->
  NewContents refs payload = errInvalidArgument \/
  exists rcs f, objectStats refs payload rcs f /\
    NewContents refs payload =
    Ok (mkContents (objectReference refs payload rcs f) (rawReferences refs ++ payload)).
Proof.
  intros Hrefs.
  destruct (decide (1 <= zlen refs * 40 + zlen payload <= 2 ^ 21)) as [Hsize|Hsize].
  2: { left. by rewrite NewContents_fold, validateObjectSizeBytes_spec, decide_False by done. }
  destruct (foldStats_total refs zeroStats) as [[rcs Hfold]|Hfold].
  - right. destruct (foldStats_ok _ _ _ zeroStats_ok Hrefs Hfold) as [Hok _].
    destruct (stats_encode rcs Hok) as (f&Hf&_). exists rcs, f.
    assert (objectStats refs payload rcs f) by (split; [exact Hsize|by split]).
    split; [done|by apply NewContents_object].
  - left. rewrite NewContents_fold, validateObjectSizeBytes_spec, decide_True by done.
    by rewrite Hfold.
Qed.

Section object_reference.
Context (refs : list LocalReference) (payload : list Z) (rcs : referenceStatsComputer) (f : Z).
Hypothesis Hrefs : Forall valid_reference refs.
Hypothesis Hstats : objectStats refs payload rcs f.
Abbreviation r := (objectReference refs payload rcs f).
Abbreviation data := (rawReferences refs ++ payload).

Lemma objectStats_ok : stats_ok rcs /\ statsDegree rcs = zlen refs /\ is_u16 f /\
  minimum (boundsAt (statsHeight rcs)) <= f <= maximum (boundsAt (statsHeight rcs)).
Proof.
  destruct Hstats as (_&Hfold&Hf).
  destruct (foldStats_ok _ _ _ zeroStats_ok Hrefs Hfold) as [Hok Hd].
  destruct (stats_encode rcs Hok) as (f'&Hf'&Hu&Hb). rewrite Hf in Hf'. injection Hf' as <-.
  split; [exact Hok|]. split; [exact Hd|]. split; [exact Hu|exact Hb].
Qed.

Lemma object_fields :
  GetHash r = sha256 data /\ GetSizeBytes r = zlen data /\ GetHeight r = statsHeight rcs /\
  GetDegree r = zlen refs /\ getRawMaximumTotalParentsSizeBytes r = f.
Proof.
  destruct objectStats_ok as (Hok&_&Hu&_). destruct Hstats as (Hsize&_).
  pose proof (stats_height _ Hok). pose proof (length_sha256 data) as Hlen.
  pose proof (length_rawReferences refs Hrefs) as Hraw.
  assert (0 <= zlen refs) by (unfold zlen; lia).
  split; [by apply GetHash_encode|]. split.
  { unfold objectReference. rewrite GetSizeBytes_encode by (done || lia). unfold zlen in *. rewrite length_app. lia. }
  split; [by apply GetHeight_encode|].
  split; [by apply GetDegree_encode; [done|unfold zlen in *; lia]|by apply getRawMaximum_encode].
Qed.

Lemma object_valid : valid_reference r.
Proof.
  destruct object_fields as (_&Es&Eh&Ed&Ep).
  destruct objectStats_ok as (Hok&Hdeg&Hu&Hb). destruct Hstats as (Hsize&_).
  pose proof (stats_height _ Hok). pose proof (length_rawReferences refs Hrefs) as Hraw.
  assert (zlen data = zlen refs * 40 + zlen payload) as Hdata
    by (unfold zlen in *; rewrite length_app; lia).
  split.
  { apply encodeReference_ok; [apply length_sha256|apply sha256_ok|lia]. }
  split; [lia|]. split; [rewrite Es, Ed; unfold zlen in *; lia|].
  rewrite Eh, Ed, Ep. split; [|done]. rewrite <- Hdeg. split; intros Hpos.
  - destruct (stats_nonempty _ Hok Hpos). lia.
  - destruct (Z.eqb_spec (statsDegree rcs) 0) as [E|]; [|pose proof (stats_degree _ Hok); lia].
    destruct (stats_empty _ Hok E). lia.
Qed.

Lemma object_validates : validateOutgoingReferences (mkContents r data) = Ok tt.
Proof.
  destruct object_fields as (_&_&Eh&Ed&Ep). destruct Hstats as (_&Hfold&Hf).
  unfold validateOutgoingReferences. cbn [contentsReference contentsData].
  rewrite Ed. unfold zlen. rewrite Nat2Z.id.
  rewrite (validateLoop_fold refs 0 [] payload zeroStats Hrefs eq_refl
    : validateLoop _ 0 data _ = _), Hfold.
  cbn [mbind outcome_bind]. by rewrite Hf, Eh, Ep, !Z.eqb_refl.
Qed.

Lemma object_FromFullData : NewContentsFromFullData r data = Ok (mkContents r data).
Proof.
  destruct object_fields as (Ehash&Es&_). unfold NewContentsFromFullData.
  rewrite Es, Z.eqb_refl, Ehash, bool_decide_true by done. cbn [negb].
  by rewrite object_validates.
Qed.

Lemma object_GetPayload : GetPayload (mkContents r data) = Ok payload.
Proof.
  destruct object_fields as (_&_&_&Ed&_). unfold GetPayload.
  cbn [contentsReference contentsData]. rewrite Ed, <- length_rawReferences by done.
  by apply slice_from_app.
Qed.
End object_reference.

Lemma detachLoop_refs refs i pre rest :
  Forall valid_reference refs -> zlen pre = i * 40 ->
  detachLoop (length refs) i (pre ++ rawReferences refs ++ rest) = Ok refs.
Proof.
  intros Hrefs. revert i pre. unfold rawReferences.
  induction Hrefs as [|r refs Hr Hrefs IH]; intros i pre Hpre; simpl; [done|].
  pose proof Hr as [[Hlen _] _]. change SHA256V1ReferenceSizeBytes with 40.
  rewrite slice_from_app by done. simpl.
  rewrite <- app_assoc, slice_prefix by (unfold zlen; lia). simpl.
  rewrite app_assoc, IH; [simpl; by destruct r|].
  unfold zlen in *. rewrite length_app. lia.
Qed.

Lemma rawReferences_app a b : rawReferences (a ++ b) = rawReferences a ++ rawReferences b.
Proof. unfold rawReferences. by rewrite map_app, concat_app. Qed.

Lemma GetOutgoingReference_object refs payload rcs f i r :
  Forall valid_reference refs -> objectStats refs payload rcs f -> refs !! i = Some r ->
  GetOutgoingReference
    (mkContents (objectReference refs payload rcs f) (rawReferences refs ++ payload))
    (Z.of_nat i) = Ok r.
Proof.
  intros Hrefs Hstats Hi. destruct (object_fields refs payload rcs f Hrefs Hstats) as (_&_&_&Ed&_).
  unfold GetOutgoingReference. cbn [contentsReference contentsData].
  change SHA256V1ReferenceSizeBytes with 40. rewrite Ed, <- length_rawReferences by done.
  rewrite slice_prefix by done. cbn [mbind outcome_bind].
  pose proof (take_drop_middle refs i r Hi) as Hsplit.
  pose proof (Forall_take _ i _ Hrefs) as Htake. apply length_rawReferences in Htake.
  assert (zlen (take i refs) = Z.of_nat i) as Hlt.
  { unfold zlen. rewrite length_take, Nat.min_l; [done|]. apply lookup_lt_Some in Hi. lia. }
  pose proof (Forall_lookup_1 _ _ _ _ Hrefs Hi) as [[Hlen _] _].
  set (tl := rawReferences (drop (S i) refs)).
  assert (rawReferences refs = rawReferences (take i refs) ++ rawReference r ++ tl) as ->.
  { rewrite <- Hsplit at 1. by rewrite rawReferences_app. }
  rewrite slice_from_app by lia. cbn [mbind outcome_bind].
  rewrite slice_prefix by (unfold zlen; lia).
  by destruct r.
Qed.

(** What [NewContentsFromFullData] accepts under a valid reference. *)
Lemma NewContentsFromFullData_cases r data :
  valid_reference r -> bytes_ok data ->
  NewContentsFromFullData r data = errInvalidArgument \/
  exists refs payload, Forall valid_reference refs /\ data = rawReferences refs ++ payload /\
    NewContentsFromFullData r data = Ok (mkContents r data) /\
    NewContents refs payload = Ok (mkContents r data).
Proof.
  intros Hr Hdata. unfold NewContentsFromFullData.
  destruct (Z.eqb_spec (zlen data) (GetSizeBytes r)) as [Hlen|]; cbn [negb]; [|by left].
  case_bool_decide as Hhash; [|by left].
  unfold validateOutgoingReferences. cbn [contentsReference contentsData].
  pose proof (fields_range r (proj1 Hr)) as (_&Hs&Hh&Hd&Hu).
  destruct (proj2 Hr) as (Hsize&Hdeg&_).
  destruct (validateLoop_cases (Z.to_nat (GetDegree r)) 0 [] data zeroStats Hdata)
    as [E|(refs&rest&rcs&->&Hn&Hrefs&Hfold&E)]; [done|lia| |]; simpl app in E; rewrite E;
    cbn [mbind outcome_bind]; [by left|].
  destruct (Z.eqb_spec (statsHeight rcs) (GetHeight r)) as [Eh|]; cbn [negb]; [|by left].
  destruct (foldStats_ok _ _ _ zeroStats_ok Hrefs Hfold) as [Hok Hd'].
  destruct (stats_encode rcs Hok) as (f&Hf&_). rewrite Hf.
  destruct (Z.eqb_spec f (getRawMaximumTotalParentsSizeBytes r)) as [->|]; cbn [negb]; [|by left].
  right. exists refs, rest. split; [done|]. split; [done|]. split; [done|].
  pose proof (length_rawReferences refs Hrefs) as Hraw.
  assert (zlen (rawReferences refs ++ rest) = zlen refs * 40 + zlen rest) as Happ
    by (unfold zlen in *; rewrite length_app; lia).
  rewrite (NewContents_object refs rest rcs (getRawMaximumTotalParentsSizeBytes r))
    by (done || (split; [lia|by split])).
  do 2 f_equal. transitivity (mkLocalReference (rawReference r)); [|by destruct r].
  rewrite (reference_fields r (proj1 Hr)). unfold objectReference.
  rewrite <- Hhash, <- Hlen, Happ, Eh. do 2 f_equal. unfold zlen. lia.
Qed.

(** Every child of a valid object can be read. *)
Lemma GetOutgoingReference_total r data i :
  valid_reference r -> bytes_ok data -> NewContentsFromFullData r data = Ok (mkContents r data) ->
  0 <= i < GetDegree r ->
  exists child, GetOutgoingReference (mkContents r data) i = Ok child /\ valid_reference child.
Proof.
  intros Hr Hdata Hok Hi.
  destruct (NewContentsFromFullData_cases r data Hr Hdata) as [E|(refs&payload&Hrefs&->&_&HN)];
    [by rewrite Hok in E|].
  destruct (NewContents_cases refs payload Hrefs) as [E|(rcs&f&Hstats&E)]; rewrite E in HN; [done|].
  injection HN as <-. destruct (object_fields refs payload rcs f Hrefs Hstats) as (_&_&_&Ed&_).
  rewrite Ed in Hi. unfold zlen in Hi.
  destruct (lookup_lt_is_Some_2 refs (Z.to_nat i)) as [child Hc]; [lia|].
  exists child. split; [|exact (Forall_lookup_1 _ _ _ _ Hrefs Hc)].
  rewrite <- (Z2Nat.id i) by lia. by apply GetOutgoingReference_object.
Qed.

(** ** Properties of objects *)

(** An object that [NewContents] creates from valid references has a valid
    reference itself, its data is accepted by [NewContentsFromFullData] under
    that reference, and its children and payload can be read back. *)
Theorem NewContents_roundtrip refs payload c :
  Forall valid_reference refs -> NewContents refs payload = Ok c ->
  NewLocalReference (rawReference (contentsReference c)) = Ok (contentsReference c) /\
  NewContentsFromFullData (contentsReference c) (GetFullData c) = Ok c /\
  DetachOutgoingReferences c = Ok refs /\ GetPayload c = Ok payload /\
  forall i r, refs !! i = Some r -> GetOutgoingReference c (Z.of_nat i) = Ok r.
Proof.
  intros Hrefs Hc. destruct (NewContents_cases refs payload Hrefs) as [E|(rcs&f&Hstats&E)];
    rewrite E in Hc; [done|]. injection Hc as <-. cbn [contentsReference GetFullData contentsData].
  pose proof (object_valid refs payload rcs f Hrefs Hstats) as Hv.
  split; [apply NewLocalReference_Ok; [apply Hv|done]|].
  split; [by apply object_FromFullData|].
  split; [|split; [by apply object_GetPayload|intros; by apply GetOutgoingReference_object]].
  unfold DetachOutgoingReferences. cbn [contentsReference contentsData].
  destruct (object_fields refs payload rcs f Hrefs Hstats) as (_&_&_&Ed&_).
  rewrite Ed. unfold zlen. rewrite Nat2Z.id. by apply (detachLoop_refs refs 0 []).
Qed.

(** C40: [NewContentsFromFullData] accepts only what [NewContents] could have
    created: under a valid reference it never panics, fails only with
    InvalidArgument, and what it accepts splits into valid, sorted references
    and a payload from which [NewContents] recreates the same reference. *)
Theorem NewContentsFromFullData_sound r data :
  valid_reference r -> bytes_ok data ->
  NewContentsFromFullData r data = errInvalidArgument \/
  exists refs payload, Forall valid_reference refs /\ data = rawReferences refs ++ payload /\
    NewContentsFromFullData r data = Ok (mkContents r data) /\
    NewContents refs payload = Ok (mkContents r data).
Proof. apply NewContentsFromFullData_cases. Qed.

(** [NewLocalReferenceFromData] is functionally equivalent to taking the
    reference of the result of [NewContents], errors and panics included, for
    any list of references. *)
Theorem NewLocalReferenceFromData_equivalent refs payload :
  NewLocalReferenceFromData refs payload =
  (c ← NewContents refs payload; Ok (contentsReference c)).
Proof.
  rewrite NewContents_fold. unfold NewLocalReferenceFromData, zlen. rewrite Nat2Z.id.
  change SHA256V1ReferenceSizeBytes with 40.
  destruct (validateObjectSizeBytes _); [|done|done]. cbn [mbind outcome_bind].
  rewrite (fromDataLoop_fold [] refs [] zeroStats
    : fromDataLoop (length refs) 0 refs [] zeroStats = _).
  destruct (foldStats refs zeroStats) as [rcs| |]; [|done|done]. cbn [mbind outcome_bind].
  by destruct (getStats rcs).
Qed.

Lemma NewContents_valid refs payload c :
  Forall valid_reference refs -> NewContents refs payload = Ok c ->
  valid_reference (contentsReference c).
Proof.
  intros Hrefs Hc. destruct (NewContents_cases refs payload Hrefs) as [E|(rcs&f&Hstats&E)];
    rewrite E in Hc; [done|]. injection Hc as <-. by apply object_valid.
Qed.

(** An object with one child. *)
Definition exampleLeaf : Contents :=
  match NewContents [] [1; 2; 3] with Ok c => c | _ => mkContents (mkLocalReference []) [] end.
Definition exampleParent : Contents :=
  match NewContents [contentsReference exampleLeaf] [4] with
  | Ok c => c | _ => mkContents (mkLocalReference []) []
  end.

Lemma exampleLeaf_Ok : NewContents [] [1; 2; 3] = Ok exampleLeaf.
Proof. vm_compute. reflexivity. Qed.

Lemma exampleParent_Ok : NewContents [contentsReference exampleLeaf] [4] = Ok exampleParent.
Proof. vm_compute. reflexivity. Qed.

#[global] Opaque exampleLeaf exampleParent.

Lemma exampleLeaf_valid : Forall valid_reference [contentsReference exampleLeaf].
Proof.
  constructor; [|constructor].
  exact (NewContents_valid [] [1; 2; 3] exampleLeaf (Forall_nil_2 _) exampleLeaf_Ok).
Qed.

Lemma exampleParent_valid : valid_reference (contentsReference exampleParent).
Proof. exact (NewContents_valid _ _ _ exampleLeaf_valid exampleParent_Ok). Qed.

Lemma exampleParent_bytes : bytes_ok (contentsData exampleParent).
Proof.
  change (Forall (fun b => 0 <= b < 2 ^ 8) (contentsData exampleParent)).
  refine (bool_decide_unpack _ _). vm_compute. exact I.
Qed.

Lemma NewContents_roundtrip_witness :
  NewContentsFromFullData (contentsReference exampleParent) (GetFullData exampleParent) =
    Ok exampleParent /\ GetPayload exampleParent = Ok [4].
Proof.
  destruct (NewContents_roundtrip [contentsReference exampleLeaf] [4] exampleParent
    exampleLeaf_valid exampleParent_Ok) as (_&H1&_&H2&_).
  split; [exact H1|exact H2].
Defined.

Lemma NewContentsFromFullData_sound_witness :
  NewContentsFromFullData (contentsReference exampleParent) [1; 2] = errInvalidArgument \/
  exists refs payload, [1; 2] = rawReferences refs ++ payload.
Proof.
  destruct (NewContentsFromFullData_sound (contentsReference exampleParent) [1; 2])
    as [H|(refs&payload&_&H&_)]; [apply exampleParent_valid|literal_bytes|
    left; exact H|right; exists refs, payload; exact H].
Defined.

(** ** Flattening *)

Lemma rawReference_Flatten r :
  LocalReference_ok r -> rawFlatReference (Flatten r) = take 35 (rawReference r).
Proof.
  intros [Hlen _]. unfold Flatten, copy_at. cbn [rawFlatReference].
  rewrite length_replicate, take_0, app_nil_l, drop_ge, app_nil_r; [done|].
  rewrite length_replicate. lia.
Qed.

Lemma rawReference_GetLocalReference r :
  FlatReference_ok r ->
  rawReference (GetLocalReference r) = rawFlatReference r ++ replicate 5 0.
Proof.
  intros [Hlen _]. unfold GetLocalReference, copy_at. cbn [rawReference].
  rewrite length_replicate, take_0, app_nil_l, take_ge by lia.
  by rewrite Hlen.
Qed.

Lemma Flatten_ok r : LocalReference_ok r -> FlatReference_ok (Flatten r).
Proof.
  intros Hr. split; rewrite rawReference_Flatten by done; destruct Hr as [Hlen Hok].
  - rewrite length_take. lia.
  - auto with bonanza.
Qed.

Lemma flattened_encode r :
  LocalReference_ok r ->
  GetLocalReference (Flatten r) =
  mkLocalReference (encodeReference (GetHash r) (GetSizeBytes r) 0 0 0).
Proof.
  intros Hr. pose proof (fields_range r Hr) as (Hh&_).
  transitivity (mkLocalReference (rawReference (GetLocalReference (Flatten r)))); [done|].
  f_equal. rewrite rawReference_GetLocalReference, rawReference_Flatten by auto using Flatten_ok.
  rewrite (reference_fields r Hr). unfold encodeReference.
  rewrite app_assoc, take_app_length' by (rewrite length_app, length_le_bytes, Hh; done).
  by rewrite <- app_assoc.
Qed.

Lemma flattened_valid r :
  valid_reference r -> valid_reference (GetLocalReference (Flatten r)) /\
    GetHash (GetLocalReference (Flatten r)) = GetHash r /\
    GetSizeBytes (GetLocalReference (Flatten r)) = GetSizeBytes r /\
    GetHeight (GetLocalReference (Flatten r)) = 0 /\
    GetDegree (GetLocalReference (Flatten r)) = 0 /\
    getRawMaximumTotalParentsSizeBytes (GetLocalReference (Flatten r)) = 0.
Proof.
  intros [Hr (Hs&_)]. pose proof (fields_range r Hr) as (Hh&Hsize&_).
  rewrite flattened_encode by done.
  rewrite GetHash_encode, GetSizeBytes_encode, GetHeight_encode, GetDegree_encode,
    getRawMaximum_encode by (done || lia).
  split; [|by split_and!]. split.
  - apply encodeReference_ok; [done| |done]. destruct Hr as [_ Hok]. unfold GetHash.
    auto with bonanza.
  - unfold fields_ok.
    rewrite GetSizeBytes_encode, GetHeight_encode, GetDegree_encode,
      getRawMaximum_encode by (done || lia).
    rewrite boundsAt_low by lia. simpl. lia.
Qed.

Lemma prefix35_fields r r' :
  LocalReference_ok r -> LocalReference_ok r' ->
  take 35 (rawReference r) = take 35 (rawReference r') <->
  GetHash r = GetHash r' /\ GetSizeBytes r = GetSizeBytes r'.
Proof.
  intros Hr Hr'. pose proof (fields_range r Hr) as (Hh&Hs&_).
  pose proof (fields_range r' Hr') as (Hh'&Hs'&_).
  rewrite (reference_fields r Hr), (reference_fields r' Hr'). unfold encodeReference.
  rewrite !(app_assoc (GetHash _)), !take_app_length'
    by (rewrite length_app, length_le_bytes; (rewrite Hh || rewrite Hh'); done).
  split.
  - intros E. apply app_inj_1 in E as [-> E]; [|by rewrite Hh, Hh'].
    apply (f_equal le_uint) in E. rewrite !le_uint_bytes in E. split; [done|].
    by rewrite !Z.mod_small in E.
  - by intros [-> ->].
Qed.

Lemma cloneWithReference_eq c r : cloneWithReference c r = mkContents r (contentsData c).
Proof. destruct c as [r0 d]. unfold cloneWithReference. simpl. case_decide as E; [by rewrite E|done]. Qed.

Lemma FlattenContents_eq r data :
  FlattenContents (mkContents r data) = mkContents (GetLocalReference (Flatten r)) data.
Proof. apply cloneWithReference_eq. Qed.

(** What was validated under a flat reference is validated in full. *)
Lemma Unflatten_flat r r' data :
  valid_reference r -> valid_reference r' -> zlen data = GetSizeBytes r ->
  sha256 data = GetHash r ->
  Unflatten (mkContents (GetLocalReference (Flatten r)) data) r' = NewContentsFromFullData r' data.
Proof.
  intros Hr Hr' Hsize Hhash. destruct (flattened_valid r Hr) as ([Hf _]&Eh&Es&_).
  unfold Unflatten, NewContentsFromFullData. rewrite cloneWithReference_eq.
  cbn [contentsReference contentsData].
  pose proof (prefix35_fields r' (GetLocalReference (Flatten r)) (proj1 Hr') Hf) as Hiff.
  rewrite Eh, Es in Hiff. rewrite Hsize, Hhash.
  case_decide as Hprefix.
  - apply Hiff in Hprefix as [-> ->]. by rewrite Z.eqb_refl, bool_decide_true.
  - destruct (Z.eqb_spec (GetSizeBytes r) (GetSizeBytes r')) as [E|]; [|done].
    cbn [negb]. case_bool_decide as E'; [|done]. destruct Hprefix. by apply Hiff.
Qed.

Lemma NewContentsFromFullData_Ok r data c :
  NewContentsFromFullData r data = Ok c ->
  c = mkContents r data /\ zlen data = GetSizeBytes r /\ sha256 data = GetHash r.
Proof.
  unfold NewContentsFromFullData. destruct (Z.eqb_spec (zlen data) (GetSizeBytes r)); [|done].
  cbn [negb]. case_bool_decide; [|done]. intros E. outcome_inv E. by injection E as <-.
Qed.

(** The flat reference has no children, so that only size and hash are checked. *)
Lemma flat_FromFullData r data :
  valid_reference r -> zlen data = GetSizeBytes r -> sha256 data = GetHash r ->
  NewContentsFromFullData (GetLocalReference (Flatten r)) data =
    Ok (mkContents (GetLocalReference (Flatten r)) data).
Proof.
  intros Hr Hsize Hhash. destruct (flattened_valid r Hr) as (_&Eh&Es&Ht&Ed&Ep).
  unfold NewContentsFromFullData, validateOutgoingReferences. cbn [contentsReference contentsData].
  rewrite Es, Hsize, Z.eqb_refl, Eh, bool_decide_true, Ed, Ht, Ep by done. reflexivity.
Qed.

(** [Unflatten] of a flattened object is the full validation of the object
    under the new reference: it succeeds exactly when [NewContentsFromFullData]
    accepts the data under that reference, with the same result. *)
Theorem Unflatten_revalidates r r' data :
  valid_reference r -> valid_reference r' -> zlen data = GetSizeBytes r ->
  sha256 data = GetHash r ->
  Unflatten (FlattenContents (mkContents r data)) r' = NewContentsFromFullData r' data.
Proof. intros. rewrite FlattenContents_eq. by apply Unflatten_flat. Qed.

Lemma Unflatten_revalidates_witness :
  Unflatten (FlattenContents (mkContents (contentsReference exampleParent)
    (contentsData exampleParent))) (contentsReference exampleParent) =
  NewContentsFromFullData (contentsReference exampleParent) (contentsData exampleParent).
Proof.
  apply (Unflatten_revalidates (contentsReference exampleParent) (contentsReference exampleParent)
    (contentsData exampleParent)); [apply exampleParent_valid|apply exampleParent_valid|..];
    vm_compute; reflexivity.
Defined.

(** ** Order of traversal *)

Lemma cmp_Compare_spec a b :
  (cmp_Compare a b = -1 /\ a < b) \/ (cmp_Compare a b = 0 /\ a = b) \/
  (cmp_Compare a b = 1 /\ b < a).
Proof. unfold cmp_Compare. repeat case_bool; lia. Qed.

(** The order by keys: height, then parents size, then bytes. *)
Lemma CompareByHeight_lt r s :
  CompareByHeight r s < 0 <->
  GetHeight r < GetHeight s \/
  GetHeight r = GetHeight s /\
  (GetMaximumTotalParentsSizeBytes r true < GetMaximumTotalParentsSizeBytes s true \/
   GetMaximumTotalParentsSizeBytes r true = GetMaximumTotalParentsSizeBytes s true /\
   bytes_compare (rawReference r) (rawReference s) < 0).
Proof.
  unfold CompareByHeight. cbv zeta.
  destruct (cmp_Compare_spec (GetHeight r) (GetHeight s)) as [[-> ?]|[[-> ?]|[-> ?]]];
    cbn [Z.eqb negb]; [lia| |lia].
  destruct (cmp_Compare_spec (GetMaximumTotalParentsSizeBytes r true)
    (GetMaximumTotalParentsSizeBytes s true)) as [[-> ?]|[[-> ?]|[-> ?]]]; cbn [Z.eqb negb]; lia.
Qed.

Lemma cmp_Compare_antisym a b : cmp_Compare b a = - cmp_Compare a b.
Proof. unfold cmp_Compare. repeat case_bool; lia. Qed.

(** [CompareByHeight] is a strict total order on references: the two
    arguments can be swapped, it is transitive, and it is zero only for equal
    references.  Every child of an object comes before the object itself. *)
Theorem CompareByHeight_total_order :
  (forall r s, CompareByHeight s r = - CompareByHeight r s) /\
  (forall r s, CompareByHeight r s = 0 <-> r = s) /\
  (forall r s t, CompareByHeight r s < 0 -> CompareByHeight s t < 0 -> CompareByHeight r t < 0) /\
  (forall refs payload c r, Forall valid_reference refs -> NewContents refs payload = Ok c ->
     r ∈ refs -> CompareByHeight r (contentsReference c) < 0).
Proof.
  split; [|split; [|split]].
  - intros r s. unfold CompareByHeight. cbv zeta.
    rewrite (cmp_Compare_antisym (GetHeight r)),
      (cmp_Compare_antisym (GetMaximumTotalParentsSizeBytes r true)), bytes_compare_antisym.
    repeat case_bool; cbn [negb]; lia.
  - intros r s. split; [|intros ->].
    + unfold CompareByHeight. cbv zeta.
      destruct (Z.eqb_spec (cmp_Compare (GetHeight r) (GetHeight s)) 0); cbn [negb]; [|done].
      destruct (Z.eqb_spec (cmp_Compare (GetMaximumTotalParentsSizeBytes r true)
        (GetMaximumTotalParentsSizeBytes s true)) 0); cbn [negb]; [|done].
      intros E%bytes_compare_eq. destruct r, s; simpl in *; congruence.
    + unfold CompareByHeight, cmp_Compare. rewrite !Z.ltb_irrefl. apply bytes_compare_refl.
  - intros r s t. rewrite !CompareByHeight_lt.
    pose proof (bytes_compare_trans (rawReference r) (rawReference s) (rawReference t)). lia.
  - intros refs payload c r Hrefs Hc Hin.
    destruct (NewContents_cases refs payload Hrefs) as [E|(rcs&f&Hstats&E)];
      rewrite E in Hc; [done|]. injection Hc as <-. cbn [contentsReference].
    destruct (object_fields refs payload rcs f Hrefs Hstats) as (_&_&Eh&_).
    apply CompareByHeight_lt. left. rewrite Eh.
    destruct (foldStats_child refs zeroStats rcs r) as [H _]; [apply Hstats|done|lia].
Qed.

(** ** Limits *)

(** The resources that fit the fields of a limit. *)
Definition Limit_ok (l : Limit) : Prop := is_u32 (limitCount l) /\ is_u64 (limitSizeBytes l).

Lemma parents_range r :
  valid_reference r ->
  0 <= GetMaximumTotalParentsSizeBytes r false <= GetMaximumTotalParentsSizeBytes r true /\
  GetMaximumTotalParentsSizeBytes r true < 2 ^ 63 /\
  (0 < GetHeight r -> GetMaximumTotalParentsSizeBytes r true =
    GetMaximumTotalParentsSizeBytes r false + GetSizeBytes r) /\
  (GetHeight r = 0 -> GetMaximumTotalParentsSizeBytes r true = 0).
Proof.
  intros Hr. pose proof (child_path r Hr) as Hp. pose proof Hr as [Hok (Hsize&_&_&Hb)].
  pose proof (fields_range r Hok) as (_&_&Hh&_&Hu). apply ToUint64_range in Hu as Hu'.
  unfold GetMaximumTotalParentsSizeBytes in *. cbn [andb] in *. rewrite Z.gtb_ltb in *.
  destruct (Z.ltb_spec 0 (GetHeight r)); [lia|].
  assert (GetHeight r = 0) as E by lia. rewrite E, boundsAt_low in Hb by lia. simpl in Hb.
  replace (getRawMaximumTotalParentsSizeBytes r) with 0 in * by lia.
  change (ToUint64 0) with 0 in *. lia.
Qed.

(** The parents size of an object covers each child and the parents below it. *)
Lemma object_child refs payload rcs f r :
  Forall valid_reference refs -> objectStats refs payload rcs f -> r ∈ refs ->
  GetMaximumTotalParentsSizeBytes r true <=
  GetMaximumTotalParentsSizeBytes (objectReference refs payload rcs f) false.
Proof.
  intros Hrefs Hstats Hin. pose proof Hstats as (_&Hfold&Hf).
  destruct (foldStats_child refs zeroStats rcs r Hfold Hin) as [Hh Hle].
  destruct (object_fields refs payload rcs f Hrefs Hstats) as (_&_&_&_&Ep).
  destruct (objectStats_ok refs payload rcs f Hrefs Hstats) as (Hok&_).
  pose proof (proj1 (Forall_forall _ _) Hrefs r Hin) as Hr.
  pose proof (fields_range r (proj1 Hr)) as (_&_&Hhr&_).
  assert (0 < statsDegree rcs) as Hdeg.
  { destruct (Z.eqb_spec (statsDegree rcs) 0) as [E0|]; [|pose proof (stats_degree _ Hok); lia].
    destruct (stats_empty _ Hok E0). lia. }
  destruct (stats_nonempty _ Hok Hdeg) as [_ Hpath].
  pose proof (path_range (statsHeight rcs) (stats_height _ Hok)) as [Hlow Hhigh].
  unfold u64 in Hf. rewrite Z.mod_small in Hf by lia.
  apply FromUint64RoundUp_Some in Hf as (_&Hup&_); [|lia].
  unfold GetMaximumTotalParentsSizeBytes at 2. cbn [andb]. rewrite Ep. lia.
Qed.

Lemma AcquireParentAndChildren_spec l r :
  Limit_ok l -> valid_reference r ->
  AcquireParentAndChildren l r =
  (if CanAcquireParentAndChildren l r then
     (mkLimit (limitCount l - GetHeight r)
        (limitSizeBytes l - GetMaximumTotalParentsSizeBytes r true), true)
   else (l, false)) /\
  (CanAcquireParentAndChildren l r = true <->
   GetHeight r <= limitCount l /\ GetMaximumTotalParentsSizeBytes r true <= limitSizeBytes l).
Proof.
  intros [Hc Hs] Hr. pose proof (parents_range r Hr) as (Hp&Hp'&_).
  pose proof (fields_range r (proj1 Hr)) as (_&_&Hh&_).
  unfold AcquireParentAndChildren, CanAcquireParentAndChildren, is_u32, is_u64, u32, u64 in *.
  rewrite (Z.mod_small (GetHeight r)), (Z.mod_small (GetMaximumTotalParentsSizeBytes r true))
    by lia.
  rewrite !Z.geb_leb. repeat case_bool; cbn [orb andb]; try (exfalso; lia);
    rewrite ?Z.mod_small by lia; (split; [done|]; split; [lia|]; (done || lia)).
Qed.

(** Releasing the parent and the children gives back exactly what was
    acquired, without wrap-around.  While only the children's share of a
    parent has been given back, any child of it can be acquired: traversals
    that acquire parents before children cannot run out of resources. *)
Theorem Limit_acquire_release l l' refs payload c :
  Limit_ok l -> Forall valid_reference refs -> NewContents refs payload = Ok c ->
  AcquireParentAndChildren l (contentsReference c) = (l', true) ->
  ReleaseChildren (ReleaseParent l' (contentsReference c)) (contentsReference c) = l /\
  forall r, r ∈ refs ->
    CanAcquireParentAndChildren (ReleaseChildren l' (contentsReference c)) r = true.
Proof.
  intros Hl Hrefs Hc Hacq.
  pose proof (NewContents_valid refs payload c Hrefs Hc) as Hv.
  destruct (NewContents_cases refs payload Hrefs) as [E|(rcs&f&Hstats&E)];
    rewrite E in Hc; [done|]. injection Hc as <-. cbn [contentsReference] in *.
  destruct (object_fields refs payload rcs f Hrefs Hstats) as (_&_&Eh&Ed&Ep).
  set (p := objectReference refs payload rcs f) in *.
  destruct (AcquireParentAndChildren_spec l p Hl Hv) as [Espec Hcan].
  rewrite Espec in Hacq. destruct (CanAcquireParentAndChildren l p); [|done].
  injection Hacq as <-. destruct (proj1 Hcan eq_refl) as [Hcount Hsize]. clear Hcan Espec.
  pose proof (parents_range p Hv) as (Hp&Hp'&Hpos&Hzero).
  pose proof (fields_range p (proj1 Hv)) as (_&Hsz&Hh&_). destruct Hl as [Hlc Hls].
  unfold is_u32, is_u64 in *.
  assert (0 < GetHeight p ->
    ReleaseChildren (mkLimit (limitCount l - GetHeight p)
      (limitSizeBytes l - GetMaximumTotalParentsSizeBytes p true)) p =
    mkLimit (limitCount l - 1) (limitSizeBytes l - GetSizeBytes p)) as Hchildren.
  { intros H. unfold ReleaseChildren, u32, u64. cbn [limitCount limitSizeBytes].
    rewrite Z.gtb_ltb. destruct (Z.ltb_spec 0 (GetHeight p)); [|lia].
    specialize (Hpos H). rewrite (Z.mod_small (GetHeight p - 1)) by lia.
    rewrite (Z.mod_small (GetMaximumTotalParentsSizeBytes p false)) by lia.
    rewrite !Z.mod_small by lia. f_equal; lia. }
  split.
  - unfold ReleaseChildren, ReleaseParent, u32, u64. rewrite Z.gtb_ltb.
    destruct (Z.ltb_spec 0 (GetHeight p)); cbn [limitCount limitSizeBytes].
    + specialize (Hpos ltac:(done)). rewrite (Z.mod_small (GetHeight p - 1)) by lia.
      rewrite (Z.mod_small (GetMaximumTotalParentsSizeBytes p false)) by lia.
      rewrite (Z.mod_small (GetSizeBytes p)) by lia.
      rewrite (Z.mod_small (limitCount l - _ + 1)) by lia.
      rewrite (Z.mod_small (limitSizeBytes l - _ + _)) by lia. rewrite !Z.mod_small by lia.
      destruct l; simpl in *. f_equal; lia.
    + specialize (Hzero ltac:(lia)). destruct l; simpl in *. f_equal; lia.
  - intros r Hin. destruct (foldStats_child refs zeroStats rcs r) as [H1 H2]; [apply Hstats|done|].
    pose proof (proj1 (Forall_forall _ _) Hrefs r Hin) as Hr.
    pose proof (fields_range r (proj1 Hr)) as (_&_&Hhr&_).
    rewrite Hchildren by lia.
    apply AcquireParentAndChildren_spec; [split; unfold is_u32, is_u64; simpl; lia|done|].
    cbn [limitCount limitSizeBytes]. split; [lia|].
    pose proof (object_child refs payload rcs f r Hrefs Hstats Hin) as Hchild. fold p in Hchild.
    specialize (Hpos ltac:(lia)). lia.
Qed.

Lemma Limit_acquire_release_witness :
  exists l', AcquireParentAndChildren (mkLimit 5 1000) (contentsReference exampleParent) = (l', true) /\
    ReleaseChildren (ReleaseParent l' (contentsReference exampleParent))
      (contentsReference exampleParent) = mkLimit 5 1000.
Proof.
  exists (mkLimit 4 959).
  assert (AcquireParentAndChildren (mkLimit 5 1000) (contentsReference exampleParent) =
    (mkLimit 4 959, true)) as E by (vm_compute; reflexivity).
  split; [exact E|].
  destruct (Limit_acquire_release (mkLimit 5 1000) (mkLimit 4 959)
    [contentsReference exampleLeaf] [4] exampleParent) as [H _];
    [split; unfold is_u32, is_u64; simpl; lia|apply exampleLeaf_valid|apply exampleParent_Ok|
     exact E|exact H].
Defined.
