(* ===== verification/EpochList.v ===== *)
(** * Epoch lists of the local object store ([pkg/storage/object/local])

    Objects are stored in a ring buffer of locations.  An epoch list decides
    which entries of the reference-location map may still be used: entries
    carry the ID of the epoch in which they were written, and an epoch has a
    hash seed and a range of valid locations.

    - [epoch_id_resolver.go], [epoch_list.go]: [EpochState], the class [EpochList]
    - [persistent_epoch_list.go]: [PersistentEpochList], whose synchronized
      epochs survive a restart
    - [volatile_epoch_list.go]: [volatileEpochList]

    The random number generator of bb-storage is a parameter, the class
    [SingleThreadedGenerator].  The channels of [notificationChannel] are
    indices into a list that records which channels have been closed. *)

From S2P Require Import Prelude.

(** ** [epoch_id_resolver.go], [epoch_list.go] *)

Record EpochState := mkEpochState {
  HashSeed : Z;
  MinimumLocation : Z;
  MaximumLocation : Z;
}.

Definition IsValidLocation (s : EpochState) (location sizeBytes : Z) : bool :=
  (location >=? MinimumLocation s) &&
  (location <? MaximumLocation s) &&
  (sub_u64 (MaximumLocation s) location >=? u64 sizeBytes).

(** [EpochIDResolver] and [EpochList]. *)
Class EpochList (E : Type) := {
  GetEpochStateForEpochID : E -> Z -> option EpochState;
  GetCurrentEpochState : E -> outcome (EpochState * Z);
  FinalizeWriteUpToLocation : E -> Z -> E * outcome unit;
  DiscardUpToLocation : E -> Z -> E * outcome unit;
}.

(** [random.SingleThreadedGenerator] of bb-storage. *)
Class SingleThreadedGenerator (G : Type) := {
  Uint32 : G -> Z * G;
  Uint64 : G -> Z * G;
}.

(** ** [notificationChannel] *)

Record notificationChannel := mkNotificationChannel {
  channel : nat;
  isBlocking : bool;
}.

(** [make(chan struct{}, 1)] and [close]; closing a closed channel panics. *)
Abbreviation channels := (list bool).

Definition make_channel (chans : channels) : nat * channels := (length chans, chans ++ [false]).

Definition close_channel (chans : channels) (c : nat) : outcome channels :=
  match chans !! c with
  | Some false => Ok (<[c := true]> chans)
  | _ => Panic
  end.

Definition newNotificationChannel (chans : channels) : notificationChannel * channels :=
  let '(c, chans) := make_channel chans in (mkNotificationChannel c true, chans).

Definition block (nc : notificationChannel) (chans : channels) : notificationChannel * channels :=
  if negb (isBlocking nc) then newNotificationChannel chans else (nc, chans).

Definition unblock (nc : notificationChannel) (chans : channels)
    : outcome (notificationChannel * channels) :=
  if isBlocking nc then
    chans ← close_channel chans (channel nc);
    Ok (mkNotificationChannel (channel nc) false, chans)
  else Ok (nc, chans).

(** ** [persistent_epoch_list.go] *)

Record persistentEpochInfo := mkEpochInfo {
  hashSeed : Z;
  maximumLocation : Z;
}.

(** [pb.EpochState], the persisted form of an epoch. *)
Record pbEpochState := mkPbEpochState {
  pbHashSeed : Z;
  LocationIncrease : Z;
}.

Record PersistentEpochList (G : Type) := mkPersistentEpochList {
  maximumLocationSpan : Z;
  randomNumberGenerator : G;
  closedForWriting : bool;
  minimumEpochID : Z;
  minimumLocation : Z;
  epochs : list persistentEpochInfo;
  synchronizingEpochs : Z;
  synchronizedEpochs : Z;
  locationsChangedWakeup : notificationChannel;
  allChannels : channels;
}.
Arguments mkPersistentEpochList {G} _ _ _ _ _ _ _ _ _ _.
Arguments maximumLocationSpan {G} _.
Arguments randomNumberGenerator {G} _.
Arguments closedForWriting {G} _.
Arguments minimumEpochID {G} _.
Arguments minimumLocation {G} _.
Arguments epochs {G} _.
Arguments synchronizingEpochs {G} _.
Arguments synchronizedEpochs {G} _.
Arguments locationsChangedWakeup {G} _.
Arguments allChannels {G} _.

Section persistent_epoch_list.
Context {G : Type} `{!SingleThreadedGenerator G}.

Abbreviation PEL := (PersistentEpochList G).

(** Assignments to the fields that an operation changes. *)
Definition set_epochs (el : PEL) (minID minLoc : Z) (es : list persistentEpochInfo)
    (synchronizing synchronized : Z) : PEL :=
  mkPersistentEpochList (maximumLocationSpan el) (randomNumberGenerator el) (closedForWriting el)
    minID minLoc es synchronizing synchronized (locationsChangedWakeup el) (allChannels el).

Definition set_wakeup (el : PEL) (nc : notificationChannel) (chans : channels) : PEL :=
  mkPersistentEpochList (maximumLocationSpan el) (randomNumberGenerator el) (closedForWriting el)
    (minimumEpochID el) (minimumLocation el) (epochs el) (synchronizingEpochs el)
    (synchronizedEpochs el) nc chans.

Definition set_closed (el : PEL) (closed : bool) : PEL :=
  mkPersistentEpochList (maximumLocationSpan el) (randomNumberGenerator el) closed
    (minimumEpochID el) (minimumLocation el) (epochs el) (synchronizingEpochs el)
    (synchronizedEpochs el) (locationsChangedWakeup el) (allChannels el).

Definition set_rng (el : PEL) (g : G) : PEL :=
  mkPersistentEpochList (maximumLocationSpan el) g (closedForWriting el)
    (minimumEpochID el) (minimumLocation el) (epochs el) (synchronizingEpochs el)
    (synchronizedEpochs el) (locationsChangedWakeup el) (allChannels el).

Definition reinitialize (el : PEL) : PEL := set_epochs el 0 0 [] 0 0.

(** The number of leading epochs whose locations are all below the minimum. *)
Fixpoint countStale (es : list persistentEpochInfo) (minLoc : Z) : Z :=
  match es with
  | [] => 0
  | e :: es => if maximumLocation e <=? minLoc then 1 + countStale es minLoc else 0
  end.

Definition pruneStaleEpochs (el : PEL) : PEL :=
  let epochsToPrune := countStale (epochs el) (minimumLocation el) in
  set_epochs el (u32 (minimumEpochID el + u32 epochsToPrune)) (minimumLocation el)
    (drop (Z.to_nat epochsToPrune) (epochs el))
    (if synchronizingEpochs el <? epochsToPrune then 0
     else synchronizingEpochs el - epochsToPrune)
    (if synchronizedEpochs el <? epochsToPrune then 0
     else synchronizedEpochs el - epochsToPrune).

(** The loop of [NewPersistentEpochList]; [bits.Add64] returns the sum and the carry. *)
Fixpoint reloadEpochs (el : PEL) (maxLoc : Z) (es : list pbEpochState) : PEL :=
  match es with
  | [] => el
  | epoch :: es =>
      let sum := maxLoc + LocationIncrease epoch in
      let maxLoc := u64 sum in
      let carryOut := sum / 2 ^ 64 in
      let el := if negb (carryOut =? 0) then reinitialize el else el in
      let el := set_epochs el (minimumEpochID el) (minimumLocation el)
        (epochs el ++ [mkEpochInfo (pbHashSeed epoch) maxLoc])
        (synchronizingEpochs el + 1) (synchronizedEpochs el + 1) in
      reloadEpochs el maxLoc es
  end.

Definition NewPersistentEpochList (span : Z) (g : G) (minID minLoc : Z) (es : list pbEpochState)
    : PEL :=
  let '(nc, chans) := newNotificationChannel [] in
  let el := mkPersistentEpochList span g false minID minLoc [] 0 0 nc chans in
  pruneStaleEpochs (reloadEpochs el minLoc es).

(** [append(el.epochs, persistentEpochInfo{hashSeed: rng.Uint64(), ...})] *)
Definition appendEpoch (el : PEL) (maxLoc : Z) : PEL :=
  let '(seed, g) := Uint64 (randomNumberGenerator el) in
  let el := set_rng el g in
  set_epochs el (minimumEpochID el) (minimumLocation el)
    (epochs el ++ [mkEpochInfo seed maxLoc])
    (synchronizingEpochs el) (synchronizedEpochs el).

(** [el.epochs[len(el.epochs)-1].maximumLocation = location] *)
Definition raiseLastEpoch (el : PEL) (location : Z) : outcome PEL :=
  e ← index (epochs el) (zlen (epochs el) - 1);
  Ok (set_epochs el (minimumEpochID el) (minimumLocation el)
    (<[Z.to_nat (zlen (epochs el) - 1) := mkEpochInfo (hashSeed e) location]> (epochs el))
    (synchronizingEpochs el) (synchronizedEpochs el)).

Definition set_minimumLocation (el : PEL) (location : Z) : PEL :=
  set_epochs el (minimumEpochID el) location (epochs el)
    (synchronizingEpochs el) (synchronizedEpochs el).

Definition unblockWakeup (el : PEL) : outcome PEL :=
  '(nc, chans) ← unblock (locationsChangedWakeup el) (allChannels el);
  Ok (set_wakeup el nc chans).

(** The part of [FinalizeWriteUpToLocation] that makes progress. *)
Definition progressTo (el : PEL) (maxLoc location : Z) : outcome PEL :=
  let el := if location <? maxLoc then reinitialize el else el in
  el ← (if zlen (epochs el) =? synchronizingEpochs el then Ok (appendEpoch el location)
        else raiseLastEpoch el location);
  let el := if sub_u64 location (minimumLocation el) >? maximumLocationSpan el
            then set_minimumLocation el (sub_u64 location (maximumLocationSpan el)) else el in
  unblockWakeup (pruneStaleEpochs el).

(** Keep the new state of a call that may panic. *)
Definition commit (el : PEL) (o : outcome PEL) : PEL * outcome unit :=
  match o with Ok el' => (el', Ok tt) | Err e => (el, Err e) | Panic => (el, Panic) end.

Definition PEL_FinalizeWriteUpToLocation (el : PEL) (location : Z) : PEL * outcome unit :=
  if closedForWriting el then (el, Err (StatusError CodeUnavailable)) else
  commit el
    (maxLoc ← (if zlen (epochs el) >? 0
               then e ← index (epochs el) (zlen (epochs el) - 1); Ok (maximumLocation e)
               else Ok (minimumLocation el));
     if i64 (location - maxLoc) >? 0 then progressTo el maxLoc location
     else if zlen (epochs el) =? synchronizingEpochs el then Ok (appendEpoch el maxLoc)
     else Ok el).

Definition PEL_DiscardUpToLocation (el : PEL) (location : Z) : PEL * outcome unit :=
  if minimumLocation el <? location then
    commit el (unblockWakeup (pruneStaleEpochs (set_minimumLocation el location)))
  else (el, Ok tt).

Definition PEL_GetEpochStateForEpochID (el : PEL) (epochID : Z) : option EpochState :=
  let epochIndex := u32 (epochID - minimumEpochID el) in
  if epochIndex >=? u32 (zlen (epochs el)) then None
  else match epochs el !! Z.to_nat epochIndex with
       | Some epoch =>
           Some (mkEpochState (hashSeed epoch) (minimumLocation el) (maximumLocation epoch))
       | None => None
       end.

Definition PEL_GetCurrentEpochState (el : PEL) : outcome (EpochState * Z) :=
  if negb (zlen (epochs el) =? synchronizingEpochs el + 1) then Panic else
  epoch ← index (epochs el) (synchronizingEpochs el);
  Ok (mkEpochState (hashSeed epoch) (minimumLocation el) (maximumLocation epoch),
      u32 (minimumEpochID el + u32 (synchronizingEpochs el))).

Definition GetLocationsChangedWakeup (el : PEL) : nat := channel (locationsChangedWakeup el).

Definition NotifySyncStarting (el : PEL) (isFinalSync : bool) : PEL :=
  let el := if isFinalSync then set_closed el true else el in
  set_epochs el (minimumEpochID el) (minimumLocation el) (epochs el)
    (zlen (epochs el)) (synchronizedEpochs el).

Definition NotifySyncCompleted (el : PEL) : PEL :=
  let el := set_epochs el (minimumEpochID el) (minimumLocation el) (epochs el)
    (synchronizingEpochs el) (synchronizingEpochs el) in
  if synchronizedEpochs el =? zlen (epochs el) then
    let '(nc, chans) := block (locationsChangedWakeup el) (allChannels el) in
    set_wakeup el nc chans
  else el.

(** The loop of [GetPersistentState]. *)
Fixpoint persistEpochs (previous : Z) (es : list persistentEpochInfo) : list pbEpochState :=
  match es with
  | [] => []
  | e :: es =>
      mkPbEpochState (hashSeed e) (sub_u64 (maximumLocation e) previous)
      :: persistEpochs (maximumLocation e) es
  end.

Definition GetPersistentState (el : PEL) : outcome (Z * Z * list pbEpochState) :=
  es ← slice (epochs el) 0 (synchronizedEpochs el);
  Ok (minimumEpochID el, minimumLocation el, persistEpochs (minimumLocation el) es).

#[global] Instance PersistentEpochList_EpochList : EpochList PEL := {
  GetEpochStateForEpochID := PEL_GetEpochStateForEpochID;
  GetCurrentEpochState := PEL_GetCurrentEpochState;
  FinalizeWriteUpToLocation := PEL_FinalizeWriteUpToLocation;
  DiscardUpToLocation := PEL_DiscardUpToLocation;
}.
End persistent_epoch_list.

(** ** [volatile_epoch_list.go] *)

Record volatileEpochList (G : Type) := mkVolatileEpochList {
  vMaximumLocationSpan : Z;
  vRandomNumberGenerator : G;
  vEpochID : Z;
  vEpochState : EpochState;
}.
Arguments mkVolatileEpochList {G} _ _ _ _.
Arguments vMaximumLocationSpan {G} _.
Arguments vRandomNumberGenerator {G} _.
Arguments vEpochID {G} _.
Arguments vEpochState {G} _.

Section volatile_epoch_list.
Context {G : Type} `{!SingleThreadedGenerator G}.

Abbreviation VEL := (volatileEpochList G).

Definition vReinitialize (el : VEL) : VEL :=
  let '(id, g) := Uint32 (vRandomNumberGenerator el) in
  let '(seed, g) := Uint64 g in
  mkVolatileEpochList (vMaximumLocationSpan el) g id (mkEpochState seed 0 0).

Definition NewVolatileEpochList (span : Z) (g : G) : VEL :=
  vReinitialize (mkVolatileEpochList span g 0 (mkEpochState 0 0 0)).

Definition set_state (el : VEL) (s : EpochState) : VEL :=
  mkVolatileEpochList (vMaximumLocationSpan el) (vRandomNumberGenerator el) (vEpochID el) s.

Definition VEL_FinalizeWriteUpToLocation (el : VEL) (location : Z) : VEL * outcome unit :=
  if i64 (location - MaximumLocation (vEpochState el)) >? 0 then
    let el := if location <? MaximumLocation (vEpochState el) then vReinitialize el else el in
    let s := vEpochState el in
    let s := mkEpochState (HashSeed s) (MinimumLocation s) location in
    let s := if sub_u64 (MaximumLocation s) (MinimumLocation s) >? vMaximumLocationSpan el
             then mkEpochState (HashSeed s)
                    (sub_u64 (MaximumLocation s) (vMaximumLocationSpan el)) (MaximumLocation s)
             else s in
    (set_state el s, Ok tt)
  else (el, Ok tt).

Definition VEL_DiscardUpToLocation (el : VEL) (location : Z) : VEL * outcome unit :=
  let s := vEpochState el in
  if MinimumLocation s <? location then
    (set_state el (mkEpochState (HashSeed s) location
       (if MaximumLocation s <? location then location else MaximumLocation s)), Ok tt)
  else (el, Ok tt).

Definition VEL_GetEpochStateForEpochID (el : VEL) (epochID : Z) : option EpochState :=
  if negb (epochID =? vEpochID el) then None else Some (vEpochState el).

Definition VEL_GetCurrentEpochState (el : VEL) : outcome (EpochState * Z) :=
  Ok (vEpochState el, vEpochID el).

#[global] Instance volatileEpochList_EpochList : EpochList VEL := {
  GetEpochStateForEpochID := VEL_GetEpochStateForEpochID;
  GetCurrentEpochState := VEL_GetCurrentEpochState;
  FinalizeWriteUpToLocation := VEL_FinalizeWriteUpToLocation;
  DiscardUpToLocation := VEL_DiscardUpToLocation;
}.
End volatile_epoch_list.

(** ** The ranges of epochs *)

(** Maxima that start at [lo] and never decrease. *)
Fixpoint chain (lo : Z) (es : list persistentEpochInfo) : Prop :=
  match es with
  | [] => True
  | e :: es => lo <= maximumLocation e < 2 ^ 64 /\ chain (maximumLocation e) es
  end.

(** The end of the range that the epochs cover. *)
Definition lastMax (lo : Z) (es : list persistentEpochInfo) : Z :=
  match last es with Some e => maximumLocation e | None => lo end.

Lemma lastMax_cons lo e es : lastMax lo (e :: es) = lastMax (maximumLocation e) es.
Proof. unfold lastMax. rewrite last_cons. by destruct (last es). Qed.

Lemma lastMax_snoc lo es e : lastMax lo (es ++ [e]) = maximumLocation e.
Proof. unfold lastMax. by rewrite last_snoc. Qed.

Lemma chain_weaken lo lo' es : lo' <= lo -> chain lo es -> chain lo' es.
Proof. destruct es; simpl; [done|]. intros ? [? ?]. split; [lia|done]. Qed.

Lemma chain_last lo es : chain lo es -> lo <= lastMax lo es /\ (es <> [] -> lastMax lo es < 2 ^ 64).
Proof.
  revert lo. induction es as [|e es IH]; intros lo; [unfold lastMax; simpl; by split|].
  intros [He Hes]. rewrite lastMax_cons. apply IH in Hes as [H1 H2].
  split; [lia|]. intros _. destruct es; [unfold lastMax; simpl; lia|by apply H2].
Qed.

Lemma chain_snoc lo es seed x :
  chain lo es -> lastMax lo es <= x < 2 ^ 64 -> chain lo (es ++ [mkEpochInfo seed x]).
Proof.
  revert lo. induction es as [|e es IH]; intros lo; [unfold lastMax; simpl; intros; split; [lia|done]|].
  rewrite lastMax_cons. intros [He Hes] Hx. split; [done|]. by apply IH.
Qed.

Lemma chain_lookup lo es i e :
  chain lo es -> es !! i = Some e -> lo <= maximumLocation e <= lastMax lo es.
Proof.
  revert lo i. induction es as [|e0 es IH]; intros lo i; [done|]. rewrite lastMax_cons.
  intros [He Hes] Hi. destruct i as [|i]; simpl in Hi.
  - injection Hi as <-. pose proof (chain_last _ _ Hes). lia.
  - apply (IH _ i) in Hes; [lia|done].
Qed.

Lemma chain_take lo es n : chain lo es -> chain lo (take n es).
Proof.
  revert lo n. induction es as [|e es IH]; intros lo [|n]; simpl; try done.
  intros [? ?]. split; [done|by apply IH].
Qed.

(** Raising the end of the last epoch. *)
Lemma chain_raise lo es e x :
  chain lo (es ++ [e]) -> maximumLocation e <= x < 2 ^ 64 ->
  chain lo (es ++ [mkEpochInfo (hashSeed e) x]).
Proof.
  revert lo. induction es as [|e0 es IH]; intros lo; simpl; [intros [? _] ?; split; [lia|done]|].
  intros [? ?] ?. split; [done|by apply IH].
Qed.

Lemma countStale_range es m : 0 <= countStale es m <= zlen es.
Proof.
  unfold zlen. induction es as [|e es IH]; simpl; [lia|]. case_bool; lia.
Qed.

Lemma countStale_stale es m i e :
  es !! i = Some e -> Z.of_nat i < countStale es m -> maximumLocation e <= m.
Proof.
  revert i. induction es as [|e0 es IH]; intros i; simpl; [done|].
  case_bool; [|lia]. destruct i as [|i]; simpl.
  - by intros [= <-].
  - intros Hi Hc. apply (IH i Hi). lia.
Qed.

Lemma drop_stale_chain lo es m :
  chain lo es -> chain m (drop (Z.to_nat (countStale es m)) es) /\
  forall e, head (drop (Z.to_nat (countStale es m)) es) = Some e -> m < maximumLocation e.
Proof.
  revert lo. induction es as [|e es IH]; intros lo; simpl; [done|].
  intros [He Hes]. case_bool.
  - pose proof (countStale_range es m).
    replace (Z.to_nat (1 + countStale es m)) with (S (Z.to_nat (countStale es m))) by lia.
    simpl. by apply IH in Hes.
  - simpl. split; [split; [lia|done]|by intros ? [= <-]].
Qed.

(** A last epoch beyond the minimum is never pruned. *)
Lemma countStale_last es m e :
  last es = Some e -> m < maximumLocation e -> countStale es m < zlen es.
Proof.
  intros Hl Hm. pose proof (countStale_range es m) as Hr.
  destruct (Z.eqb_spec (countStale es m) (zlen es)) as [E|]; [|lia].
  rewrite last_lookup in Hl. pose proof (lookup_lt_Some _ _ _ Hl).
  apply (countStale_stale _ m) in Hl; [lia|]. unfold zlen in *. lia.
Qed.

(** ** The invariant *)

Definition channel_inv (nc : notificationChannel) (chans : channels) : Prop :=
  chans !! channel nc = Some (negb (isBlocking nc)).

Lemma channel_new chans :
  let '(nc, chans') := newNotificationChannel chans in channel_inv nc chans'.
Proof. unfold channel_inv. simpl. by rewrite lookup_app_r, Nat.sub_diag by lia. Qed.

Lemma channel_block nc chans :
  channel_inv nc chans -> let '(nc', chans') := block nc chans in channel_inv nc' chans'.
Proof.
  intros H. unfold block. destruct (isBlocking nc); simpl; [done|]. exact (channel_new chans).
Qed.

(** The channel is closed at most once. *)
Lemma channel_unblock nc chans :
  channel_inv nc chans ->
  exists nc' chans', unblock nc chans = Ok (nc', chans') /\ channel_inv nc' chans' /\
    isBlocking nc' = false.
Proof.
  intros H. unfold unblock. destruct (isBlocking nc) eqn:E.
  - unfold channel_inv in H. rewrite E in H. unfold close_channel. simpl in H. rewrite H. simpl.
    eexists _, _. split; [done|]. split; [|done]. unfold channel_inv. simpl.
    apply list_lookup_insert_eq. by eapply lookup_lt_Some.
  - by exists nc, chans.
Qed.

Section invariant.
Context {G : Type} `{!SingleThreadedGenerator G}.
Abbreviation PEL := (PersistentEpochList G).

Record epoch_inv (el : PEL) : Prop := {
  inv_span : 0 < maximumLocationSpan el < 2 ^ 64;
  inv_min : 0 <= minimumLocation el < 2 ^ 64;
  inv_id : 0 <= minimumEpochID el < 2 ^ 32;
  inv_sync : 0 <= synchronizedEpochs el <= synchronizingEpochs el /\
    synchronizingEpochs el <= zlen (epochs el) <= synchronizingEpochs el + 1;
  inv_chain : chain (minimumLocation el) (epochs el);
  inv_channel : channel_inv (locationsChangedWakeup el) (allChannels el);
}.

(** Everything but the chain, which an operation breaks before it prunes. *)
Lemma prune_inv el :
  0 < maximumLocationSpan el < 2 ^ 64 -> 0 <= minimumLocation el < 2 ^ 64 ->
  0 <= synchronizedEpochs el <= synchronizingEpochs el ->
  synchronizingEpochs el <= zlen (epochs el) <= synchronizingEpochs el + 1 ->
  chain 0 (epochs el) -> channel_inv (locationsChangedWakeup el) (allChannels el) ->
  epoch_inv (pruneStaleEpochs el).
Proof.
  intros Hs Hm Hsync Hsync' Hc Hch.
  pose proof (countStale_range (epochs el) (minimumLocation el)) as Hr.
  pose proof (drop_stale_chain 0 (epochs el) (minimumLocation el) Hc) as [Hc' _].
  split; simpl; try done.
  - unfold u32. apply Z.mod_pos_bound. lia.
  - unfold zlen in *. rewrite length_drop. repeat case_bool; lia.
Qed.

Lemma chain_zero (el : PEL) : epoch_inv el -> chain 0 (epochs el).
Proof. intros H. eapply chain_weaken; [|by apply inv_chain]. apply inv_min, H. Qed.

Lemma unblockWakeup_Ok (el : PEL) :
  channel_inv (locationsChangedWakeup el) (allChannels el) ->
  exists nc chans, unblockWakeup el = Ok (set_wakeup el nc chans) /\ channel_inv nc chans /\
    isBlocking nc = false.
Proof.
  intros H. unfold unblockWakeup. destruct (channel_unblock _ _ H) as (nc&chans&->&Hi&Hb).
  by exists nc, chans.
Qed.

Lemma set_wakeup_inv (el : PEL) nc chans :
  epoch_inv el -> channel_inv nc chans -> epoch_inv (set_wakeup el nc chans).
Proof. intros [] ?. by split. Qed.

Lemma reloadEpochs_inv (el : PEL) maxLoc es :
  0 < maximumLocationSpan el < 2 ^ 64 -> 0 <= minimumLocation el < 2 ^ 64 ->
  synchronizedEpochs el = zlen (epochs el) -> synchronizingEpochs el = zlen (epochs el) ->
  chain (minimumLocation el) (epochs el) ->
  channel_inv (locationsChangedWakeup el) (allChannels el) ->
  lastMax (minimumLocation el) (epochs el) = maxLoc -> is_u64 maxLoc ->
  Forall (fun e => is_u64 (LocationIncrease e)) es ->
  epoch_inv (pruneStaleEpochs (reloadEpochs el maxLoc es)).
Proof.
  intros Hspan Hmin Hsd Hsg Hc Hch Hmax Hmaxr Hes. revert el maxLoc Hspan Hmin Hsd Hsg Hc Hch Hmax Hmaxr.
  induction Hes as [|e es He _ IH]; intros el maxLoc Hspan Hmin Hsd Hsg Hc Hch Hmax Hmaxr; simpl.
  { apply prune_inv; try done; unfold zlen in *; try lia. eapply chain_weaken; [|done]. lia. }
  unfold is_u64, u64 in *.
  destruct (Z.eqb_spec ((maxLoc + LocationIncrease e) / 2 ^ 64) 0) as [E|E]; cbn [negb].
  - apply Z.div_small_iff in E; [|lia]. destruct E as [E|E]; [|lia].
    rewrite Z.mod_small by lia.
    apply IH; simpl; try done; try (unfold zlen in *; rewrite length_app; simpl; lia); try lia.
    + apply chain_snoc; [done|lia].
    + by rewrite lastMax_snoc.
  - pose proof (Z.mod_pos_bound (maxLoc + LocationIncrease e) (2 ^ 64)).
    apply IH; simpl; try done; lia.
Qed.

Lemma NewPersistentEpochList_inv span (g : G) minID minLoc es :
  0 < span < 2 ^ 64 -> is_u64 minLoc -> Forall (fun e => is_u64 (LocationIncrease e)) es ->
  epoch_inv (NewPersistentEpochList span g minID minLoc es).
Proof.
  intros Hspan Hmin Hes. unfold NewPersistentEpochList. simpl.
  apply reloadEpochs_inv; simpl; try done.
Qed.

Lemma Discard_inv el location :
  epoch_inv el -> is_u64 location ->
  exists el', PEL_DiscardUpToLocation el location = (el', Ok tt) /\ epoch_inv el'.
Proof.
  intros H Hl. unfold PEL_DiscardUpToLocation. case_bool; [|by exists el].
  assert (epoch_inv (pruneStaleEpochs (set_minimumLocation el location))) as Hp.
  { destruct H. apply prune_inv; simpl; try done; try tauto.
    eapply chain_weaken; [|done]. lia. }
  destruct (unblockWakeup_Ok _ (inv_channel _ Hp)) as (nc&chans&->&Hch&_). simpl.
  eexists. split; [done|]. by apply set_wakeup_inv.
Qed.

Lemma NotifySyncStarting_inv el b : epoch_inv el -> epoch_inv (NotifySyncStarting el b).
Proof. intros []. destruct b; split; simpl; unfold zlen in *; (done || lia). Qed.

Lemma NotifySyncCompleted_inv el : epoch_inv el -> epoch_inv (NotifySyncCompleted el).
Proof.
  intros []. unfold NotifySyncCompleted. simpl.
  assert (epoch_inv (set_epochs el (minimumEpochID el) (minimumLocation el) (epochs el)
    (synchronizingEpochs el) (synchronizingEpochs el))) as H.
  { split; simpl; (done || unfold zlen in *; lia). }
  case_bool; [|done]. pose proof (channel_block _ _ (inv_channel0)) as Hb.
  destruct (block _ _) as [nc chans]. by apply set_wakeup_inv.
Qed.

(** ** Finalizing writes *)

Lemma i64_positive a b :
  is_u64 a -> is_u64 b -> 0 < i64 (a - b) <-> b < a < b + 2 ^ 63 \/ a - b < - 2 ^ 63.
Proof.
  unfold is_u64, i64, sext. intros Ha Hb. change (64 - 1) with 63.
  destruct (Z.ltb_spec (a - b) (- 2 ^ 63)).
  - replace (a - b + 2 ^ 63) with (a - b + 2 ^ 64 + 2 ^ 63 + (-1) * 2 ^ 64) by lia.
    rewrite Z_mod_plus_full, Z.mod_small by lia. lia.
  - destruct (Z.ltb_spec (a - b) (2 ^ 63)).
    + rewrite Z.mod_small by lia. lia.
    + replace (a - b + 2 ^ 63) with (a - b - 2 ^ 63 + 1 * 2 ^ 64) by lia.
      rewrite Z_mod_plus_full, Z.mod_small by lia. lia.
Qed.

Lemma last_index (es : list persistentEpochInfo) :
  es <> [] ->
  exists e es', es = es' ++ [e] /\ index es (zlen es - 1) = Ok e /\
    Z.to_nat (zlen es - 1) = length es'.
Proof.
  intros Hne. destruct (exists_last Hne) as (es'&e&->). exists e, es'. split; [done|].
  unfold zlen, index. rewrite length_app. simpl.
  replace (Z.to_nat (Z.of_nat (length es' + 1) - 1)) with (length es') by lia.
  split; [|done]. destruct (Z.ltb_spec (Z.of_nat (length es' + 1) - 1) 0); [lia|].
  by rewrite list_lookup_middle.
Qed.

(** The state after the first half of a write that makes progress: the write
    is covered by the last epoch, which is not being synchronized. *)
Record extended (el el1 : PEL) (location : Z) : Prop := {
  ext_span : maximumLocationSpan el1 = maximumLocationSpan el;
  ext_sync : 0 <= synchronizedEpochs el1 <= synchronizingEpochs el1 /\
    zlen (epochs el1) = synchronizingEpochs el1 + 1;
  ext_min : 0 <= minimumLocation el1 <= location;
  ext_chain : chain (minimumLocation el1) (epochs el1);
  ext_last : exists e, last (epochs el1) = Some e /\ maximumLocation e = location;
  ext_channel : channel_inv (locationsChangedWakeup el1) (allChannels el1);
}.

(** What a write without overflow does to the epochs: a new epoch, or a higher
    end for the last one. *)
Definition grown (el el1 : PEL) (location : Z) : Prop :=
  minimumEpochID el1 = minimumEpochID el /\ minimumLocation el1 = minimumLocation el /\
  synchronizedEpochs el1 = synchronizedEpochs el /\
  synchronizingEpochs el1 = synchronizingEpochs el /\
  exists es e, epochs el1 = es ++ [e] /\ maximumLocation e = location /\
    (epochs el = es /\ zlen (epochs el) = synchronizingEpochs el \/
     exists e0, epochs el = es ++ [e0] /\ hashSeed e0 = hashSeed e /\
       maximumLocation e0 <= location).

Lemma extend_Ok el location :
  epoch_inv el -> is_u64 location -> lastMax (minimumLocation el) (epochs el) <= location ->
  exists el1,
    (if zlen (epochs el) =? synchronizingEpochs el then Ok (appendEpoch el location)
     else raiseLastEpoch el location) = Ok el1 /\
    extended el el1 location /\ grown el el1 location.
Proof.
  intros H Hl Hmax. pose proof (inv_sync _ H) as Hsync.
  pose proof (chain_last _ _ (inv_chain _ H)) as [Hlast _].
  pose proof (inv_min _ H) as Hmin. unfold is_u64 in Hl.
  destruct (Z.eqb_spec (zlen (epochs el)) (synchronizingEpochs el)) as [E|E].
  - eexists. split; [done|]. unfold appendEpoch. destruct (Uint64 _) as [seed g]. split.
    + split; simpl; try done.
      * split; [lia|]. unfold zlen in *. rewrite length_app. simpl. lia.
      * lia.
      * apply chain_snoc; [apply H|lia].
      * exists (mkEpochInfo seed location). by rewrite last_snoc.
      * apply H.
    + split_and!; simpl; try done. exists (epochs el), (mkEpochInfo seed location).
      split; [done|]. split; [done|]. by left.
  - assert (epochs el <> []) as Hne.
    { intros En. rewrite En in *. unfold zlen in *. simpl in *. lia. }
    destruct (last_index _ Hne) as (e&es&Ees&Eidx&Enat). unfold raiseLastEpoch.
    rewrite Eidx, Enat. simpl. eexists. split; [done|].
    pose proof (inv_chain _ H) as Hc. rewrite Ees in *. rewrite lastMax_snoc in *.
    rewrite insert_app_r_alt, Nat.sub_diag by lia. simpl. split.
    + split; simpl; try done.
      * split; [lia|]. unfold zlen in *. rewrite length_app in *. simpl in *. lia.
      * lia.
      * apply chain_raise; [done|lia].
      * exists (mkEpochInfo (hashSeed e) location). by rewrite last_snoc.
      * apply H.
    + split_and!; simpl; try done. exists es, (mkEpochInfo (hashSeed e) location).
      split; [done|]. split; [done|]. right. by exists e.
Qed.

(** The state that a write which makes progress leaves behind. *)
Definition progressed (el1 : PEL) (location : Z) : PEL :=
  pruneStaleEpochs (set_minimumLocation el1
    (Z.max (minimumLocation el1) (location - maximumLocationSpan el1))).

(** The second half: raise the minimum, prune, wake up the syncer. *)
Lemma progress_tail el el1 location :
  0 < maximumLocationSpan el < 2 ^ 64 -> is_u64 location -> extended el el1 location ->
  exists nc chans,
    unblockWakeup (pruneStaleEpochs
      (if sub_u64 location (minimumLocation el1) >? maximumLocationSpan el1
       then set_minimumLocation el1 (sub_u64 location (maximumLocationSpan el1)) else el1)) =
    Ok (set_wakeup (progressed el1 location) nc chans) /\
    epoch_inv (set_wakeup (progressed el1 location) nc chans) /\ isBlocking nc = false /\
    (minimumLocation el1 < location ->
     zlen (epochs (progressed el1 location)) =
     synchronizingEpochs (progressed el1 location) + 1).
Proof.
  intros Hspan Hl [Espan Hsync Hmin Hc (e&Hlast&He) Hch]. unfold is_u64 in Hl.
  rewrite <- Espan in Hspan.
  assert ((if sub_u64 location (minimumLocation el1) >? maximumLocationSpan el1
       then set_minimumLocation el1 (sub_u64 location (maximumLocationSpan el1)) else el1) =
    set_minimumLocation el1 (Z.max (minimumLocation el1) (location - maximumLocationSpan el1)))
    as ->.
  { unfold sub_u64, u64. rewrite Z.gtb_ltb, (Z.mod_small (location - _)) by lia.
    case_bool.
    - rewrite Z.mod_small, Z.max_r by lia. done.
    - rewrite Z.max_l by lia. by destruct el1. }
  fold (progressed el1 location). assert (epoch_inv (progressed el1 location)) as Hinv.
  { apply prune_inv; simpl; try (done || lia). eapply chain_weaken; [|done]. lia. }
  destruct (unblockWakeup_Ok _ (inv_channel _ Hinv)) as (nc&chans&->&Hnc&Hb).
  exists nc, chans. split; [done|]. split; [by apply set_wakeup_inv|]. split; [done|].
  intros Hpos. simpl. set (m := Z.max _ _).
  pose proof (countStale_last (epochs el1) m e Hlast ltac:(lia)) as Hstale.
  pose proof (countStale_range (epochs el1) m) as Hrange.
  unfold zlen in *. rewrite length_drop. case_bool; lia.
Qed.

Lemma reinitialize_inv el : epoch_inv el -> epoch_inv (reinitialize el).
Proof. intros []. split; simpl; (done || lia). Qed.

(** The location is covered already, or is absurdly far away. *)
Definition stays (el : PEL) (location : Z) : Prop :=
  location <= lastMax (minimumLocation el) (epochs el) \/
  lastMax (minimumLocation el) (epochs el) + 2 ^ 63 <= location.

(** Every path through [FinalizeWriteUpToLocation]. *)
Inductive finalized (el : PEL) (location : Z) : PEL * outcome unit -> Prop :=
  | finalized_closed :
      closedForWriting el = true -> finalized el location (el, Err (StatusError CodeUnavailable))
  | finalized_progress el1 nc chans :
      closedForWriting el = false ->
      lastMax (minimumLocation el) (epochs el) < location ->
      extended el el1 location -> grown el el1 location -> isBlocking nc = false ->
      epoch_inv (set_wakeup (progressed el1 location) nc chans) ->
      zlen (epochs (progressed el1 location)) =
        synchronizingEpochs (progressed el1 location) + 1 ->
      finalized el location (set_wakeup (progressed el1 location) nc chans, Ok tt)
  | finalized_overflow el1 nc chans :
      closedForWriting el = false ->
      location < lastMax (minimumLocation el) (epochs el) - 2 ^ 63 ->
      extended (reinitialize el) el1 location -> grown (reinitialize el) el1 location ->
      isBlocking nc = false ->
      epoch_inv (set_wakeup (progressed el1 location) nc chans) ->
      (0 < location -> zlen (epochs (progressed el1 location)) =
        synchronizingEpochs (progressed el1 location) + 1) ->
      finalized el location (set_wakeup (progressed el1 location) nc chans, Ok tt)
  | finalized_new_epoch :
      closedForWriting el = false -> stays el location ->
      zlen (epochs el) = synchronizingEpochs el ->
      finalized el location
        (appendEpoch el (lastMax (minimumLocation el) (epochs el)), Ok tt)
  | finalized_nothing :
      closedForWriting el = false -> stays el location ->
      zlen (epochs el) = synchronizingEpochs el + 1 ->
      finalized el location (el, Ok tt).

Lemma lastMax_range el :
  epoch_inv el -> minimumLocation el <= lastMax (minimumLocation el) (epochs el) < 2 ^ 64.
Proof.
  intros H. destruct (chain_last _ _ (inv_chain _ H)) as [H1 H2]. split; [done|].
  destruct (epochs el) eqn:E; [unfold lastMax; simpl; apply H|by apply H2].
Qed.

Lemma maxLoc_lastMax (el : PEL) :
  (if zlen (epochs el) >? 0
   then e ← index (epochs el) (zlen (epochs el) - 1); Ok (maximumLocation e)
   else Ok (minimumLocation el)) = Ok (lastMax (minimumLocation el) (epochs el)).
Proof.
  rewrite Z.gtb_ltb. destruct (epochs el) as [|e0 es0] eqn:E; [done|].
  destruct (last_index (epochs el)) as (e&es&Ees&Eidx&_); [by rewrite E|].
  rewrite <- E, Eidx. destruct (Z.ltb_spec 0 (zlen (epochs el))) as [|H].
  - simpl. by rewrite Ees, lastMax_snoc.
  - rewrite E in H. unfold zlen in H. simpl in H. lia.
Qed.

Lemma Finalize_cases el location :
  epoch_inv el -> is_u64 location ->
  finalized el location (PEL_FinalizeWriteUpToLocation el location).
Proof.
  intros H Hl. unfold PEL_FinalizeWriteUpToLocation.
  destruct (closedForWriting el) eqn:Hopen; [by constructor|].
  rewrite maxLoc_lastMax. cbn [mbind outcome_bind]. rewrite Z.gtb_ltb.
  pose proof (lastMax_range el H) as Hmax. pose proof (inv_min _ H) as Hmin.
  set (maxLoc := lastMax (minimumLocation el) (epochs el)) in *.
  destruct (Z.ltb_spec 0 (i64 (location - maxLoc))) as [Hpos|Hneg].
  - apply i64_positive in Hpos; [|done|unfold is_u64; lia]. unfold progressTo.
    destruct (Z.ltb_spec location maxLoc) as [Hwrap|Hfwd].
    + pose proof (reinitialize_inv el H) as H'.
      destruct (extend_Ok (reinitialize el) location H' Hl) as (el1&->&Hext&Hgrown).
      { unfold lastMax. simpl. unfold is_u64 in Hl. lia. }
      cbn [mbind outcome_bind].
      destruct (progress_tail _ el1 location (inv_span _ H') Hl Hext) as (nc&chans&->&Hinv&Hb&Hlen).
      simpl commit.
      eapply finalized_overflow; try done; [lia|].
      intros Hp. apply Hlen. destruct Hgrown as (_&->&_). simpl. lia.
    + destruct (extend_Ok el location H Hl) as (el1&->&Hext&Hgrown); [lia|].
      cbn [mbind outcome_bind].
      destruct (progress_tail _ el1 location (inv_span _ H) Hl Hext) as (nc&chans&->&Hinv&Hb&Hlen).
      simpl commit.
      eapply finalized_progress; try done; [lia|].
      apply Hlen. destruct Hgrown as (_&->&_). lia.
  - assert (stays el location) as Hstay.
    { unfold stays. fold maxLoc.
      pose proof (i64_positive location maxLoc Hl ltac:(unfold is_u64; lia)). lia. }
    destruct (Z.eqb_spec (zlen (epochs el)) (synchronizingEpochs el)); [by constructor|].
    constructor; [done|done|]. pose proof (inv_sync _ H). lia.
Qed.

Lemma appendEpoch_inv el :
  epoch_inv el -> zlen (epochs el) = synchronizingEpochs el ->
  epoch_inv (appendEpoch el (lastMax (minimumLocation el) (epochs el))).
Proof.
  intros H E. pose proof (lastMax_range el H) as Hmax. destruct H. unfold appendEpoch.
  destruct (Uint64 _) as [seed g]. split; simpl; try done.
  - unfold zlen in *. rewrite length_app. simpl. lia.
  - apply chain_snoc; [done|lia].
Qed.

Lemma Finalize_inv el location :
  epoch_inv el -> is_u64 location ->
  epoch_inv (fst (PEL_FinalizeWriteUpToLocation el location)) /\
  snd (PEL_FinalizeWriteUpToLocation el location) <> Panic.
Proof.
  intros H Hl. pose proof (Finalize_cases el location H Hl) as Hf.
  destruct Hf; simpl; (split; [|done]); try done. by apply appendEpoch_inv.
Qed.

(** ** Which entries are valid *)

(** An entry written in epoch [id] with hash seed [seed] is accepted by the
    lookups in the reference-location map. *)
Definition resolves (el : PEL) (id seed l s : Z) : Prop :=
  exists st, PEL_GetEpochStateForEpochID el id = Some st /\ HashSeed st = seed /\
    IsValidLocation st l s = true.

Lemma IsValidLocation_iff st l s :
  0 <= l -> MaximumLocation st < 2 ^ 64 -> 1 <= s < 2 ^ 64 ->
  IsValidLocation st l s = true <-> MinimumLocation st <= l /\ l + s <= MaximumLocation st.
Proof.
  intros Hl Hm Hs. unfold IsValidLocation, sub_u64, u64. rewrite !Z.geb_leb.
  rewrite (Z.mod_small s) by lia. split.
  - intros H. boolprop. rewrite Z.mod_small in * by lia. lia.
  - intros [H1 H2]. rewrite Z.mod_small by lia. repeat case_bool; (done || lia).
Qed.

Lemma resolves_iff el id seed l s :
  chain 0 (epochs el) -> zlen (epochs el) < 2 ^ 32 -> 0 <= l -> 1 <= s < 2 ^ 64 ->
  resolves el id seed l s <->
  exists e, epochs el !! Z.to_nat (u32 (id - minimumEpochID el)) = Some e /\
    hashSeed e = seed /\ minimumLocation el <= l /\ l + s <= maximumLocation e.
Proof.
  intros Hc Hlen Hl Hs. unfold resolves, PEL_GetEpochStateForEpochID.
  pose proof (Z.mod_pos_bound (id - minimumEpochID el) (2 ^ 32)) as Hi.
  fold (u32 (id - minimumEpochID el)) in Hi. set (i := u32 (id - minimumEpochID el)) in *.
  unfold u32. rewrite (Z.mod_small (zlen _)) by (unfold zlen in *; lia). rewrite Z.geb_leb.
  assert (forall e, epochs el !! Z.to_nat i = Some e -> maximumLocation e < 2 ^ 64) as Hm.
  { intros e He. destruct (chain_last _ _ Hc) as [_ H2].
    assert (epochs el <> []) by (intros E; by rewrite E in He).
    apply (chain_lookup _ _ _ _ Hc) in He. specialize (H2 ltac:(done)). lia. }
  destruct (Z.leb_spec (zlen (epochs el)) i) as [Hout|Hin].
  - split; [by intros (st&?&_)|]. intros (e&He&_). apply lookup_lt_Some in He.
    unfold zlen in *. lia.
  - destruct (epochs el !! Z.to_nat i) as [e|] eqn:He.
    + specialize (Hm e eq_refl). split.
      * intros (st&[= <-]&Hseed&Hv). apply IsValidLocation_iff in Hv; [|done..]. simpl in *.
        by exists e.
      * intros (e'&[= <-]&Hseed&Hv). eexists. split; [done|]. split; [done|].
        by apply IsValidLocation_iff.
    + split; [by intros (st&?&_)|by intros (e&?&_)].
Qed.

(** Pruning epochs is not observable. *)
Lemma prune_resolves el id seed l s :
  0 <= minimumLocation el -> chain 0 (epochs el) -> zlen (epochs el) < 2 ^ 32 ->
  0 <= l -> 1 <= s < 2 ^ 64 -> resolves (pruneStaleEpochs el) id seed l s <-> resolves el id seed l s.
Proof.
  intros Hmin0 Hc Hlen Hl Hs.
  pose proof (countStale_range (epochs el) (minimumLocation el)) as Hr.
  pose proof (drop_stale_chain 0 _ (minimumLocation el) Hc) as [Hc' _].
  assert (chain 0 (epochs (pruneStaleEpochs el))) as Hc0.
  { eapply chain_weaken; [|exact Hc']. done. }
  rewrite !resolves_iff by (try done; simpl; unfold zlen in *; rewrite ?length_drop; lia).
  simpl. set (n := countStale (epochs el) (minimumLocation el)) in *.
  pose proof (Z.mod_pos_bound (id - minimumEpochID el) (2 ^ 32)) as Hi.
  unfold u32. rewrite (Z.mod_small n) by (unfold zlen in *; lia).
  rewrite Zminus_mod_idemp_r.
  replace (id - (minimumEpochID el + n)) with (id - minimumEpochID el - n) by lia.
  rewrite <- (Zminus_mod_idemp_l (id - _)).
  set (i := (id - minimumEpochID el) mod 2 ^ 32) in *.
  destruct (Z.ltb_spec i n) as [Hlt|Hge].
  - split.
    + intros (e&He&_). exfalso. apply lookup_lt_Some in He. rewrite length_drop in He.
      replace ((i - n) mod 2 ^ 32) with (i - n + 2 ^ 32) in He
        by (apply Z.mod_unique with (-1); lia).
      unfold zlen in *. lia.
    + intros (e&He&_&Hmin&Hmax). exfalso.
      pose proof (countStale_stale _ (minimumLocation el) _ _ He). lia.
  - rewrite Z.mod_small by lia. rewrite lookup_drop.
    by replace (Z.to_nat n + Z.to_nat (i - n))%nat with (Z.to_nat i) by lia.
Qed.

(** Persisting the epochs and reloading them gives the same epochs. *)
Lemma reload_persist (el : PEL) lo es :
  0 <= lo -> chain lo es -> is_u64 lo ->
  reloadEpochs el lo (persistEpochs lo es) =
  set_epochs el (minimumEpochID el) (minimumLocation el) (epochs el ++ es)
    (synchronizingEpochs el + zlen es) (synchronizedEpochs el + zlen es).
Proof.
  revert el lo. induction es as [|e es IH]; intros el lo Hlo Hc Hu; simpl.
  { unfold set_epochs, zlen. simpl. rewrite app_nil_r, !Z.add_0_r. by destruct el. }
  destruct Hc as [He Hc]. unfold sub_u64, u64, is_u64 in *.
  rewrite (Z.mod_small (maximumLocation e - lo)) by lia.
  replace (lo + (maximumLocation e - lo)) with (maximumLocation e) by lia.
  rewrite Z.div_small, Z.mod_small by lia. cbn [Z.eqb negb]. rewrite IH by (done || lia).
  unfold set_epochs. cbn [epochs synchronizingEpochs synchronizedEpochs minimumEpochID
    minimumLocation maximumLocationSpan randomNumberGenerator closedForWriting
    locationsChangedWakeup allChannels].
  rewrite <- app_assoc. unfold zlen. simpl length. f_equal; [by destruct e|lia..].
Qed.

Lemma GetPersistentState_Ok el :
  epoch_inv el ->
  GetPersistentState el = Ok (minimumEpochID el, minimumLocation el,
    persistEpochs (minimumLocation el) (take (Z.to_nat (synchronizedEpochs el)) (epochs el))).
Proof.
  intros H. pose proof (inv_sync _ H) as Hs. unfold GetPersistentState.
  rewrite <- (take_drop (Z.to_nat (synchronizedEpochs el)) (epochs el)) at 1.
  rewrite slice_prefix; [done|]. unfold zlen in *. rewrite length_take. lia.
Qed.
End invariant.

(** ** Properties *)

(** The calls that change an epoch list. *)
Inductive epoch_op :=
  | OpFinalize (location : Z)
  | OpDiscard (location : Z)
  | OpSyncStarting (isFinalSync : bool)
  | OpSyncCompleted.

Definition op_ok (op : epoch_op) : Prop :=
  match op with OpFinalize l | OpDiscard l => is_u64 l | _ => True end.

Section properties.
Context {G : Type} `{!SingleThreadedGenerator G}.
Abbreviation PEL := (PersistentEpochList G).

Definition apply_op (el : PEL) (op : epoch_op) : PEL * outcome unit :=
  match op with
  | OpFinalize l => PEL_FinalizeWriteUpToLocation el l
  | OpDiscard l => PEL_DiscardUpToLocation el l
  | OpSyncStarting b => (NotifySyncStarting el b, Ok tt)
  | OpSyncCompleted => (NotifySyncCompleted el, Ok tt)
  end.

(** The states after a start from any persisted state. *)
Inductive epoch_reachable : PEL -> Prop :=
  | reachable_start span g minID minLoc es :
      0 < span < 2 ^ 64 -> is_u64 minLoc ->
      Forall (fun e => is_u64 (LocationIncrease e)) es ->
      epoch_reachable (NewPersistentEpochList span g minID minLoc es)
  | reachable_step el op :
      epoch_reachable el -> op_ok op -> epoch_reachable (fst (apply_op el op)).

Lemma apply_op_inv el op :
  epoch_inv el -> op_ok op -> epoch_inv (fst (apply_op el op)) /\ snd (apply_op el op) <> Panic.
Proof.
  intros H Hop. destruct op as [l|l|b|]; simpl in *.
  - by apply Finalize_inv.
  - destruct (Discard_inv el l H Hop) as (el'&->&?). by split.
  - split; [by apply NotifySyncStarting_inv|done].
  - split; [by apply NotifySyncCompleted_inv|done].
Qed.

Lemma reachable_inv el : epoch_reachable el -> epoch_inv el.
Proof.
  induction 1; [by apply NewPersistentEpochList_inv|by apply apply_op_inv].
Qed.
End properties.

(** From any persisted state, however damaged, and under any sequence of
    calls, the epoch list keeps its invariant (ordered maxima above the
    minimum, at most one epoch that is not being synchronized) and never
    panics: no index is out of range and no wakeup channel is closed twice. *)
Theorem PersistentEpochList_invariant {G} `{!SingleThreadedGenerator G}
    (el : PersistentEpochList G) op :
  epoch_reachable el -> op_ok op ->
  epoch_inv el /\ snd (apply_op el op) <> Panic /\ GetPersistentState el <> Panic.
Proof.
  intros H Hop. apply reachable_inv in H. split; [done|]. split; [by apply apply_op_inv|].
  by rewrite GetPersistentState_Ok.
Qed.

(** A generator that counts. *)
#[global] Instance counting_generator : SingleThreadedGenerator Z := {
  Uint32 n := (u32 n, n + 1);
  Uint64 n := (u64 n, n + 1);
}.

Lemma PersistentEpochList_invariant_witness :
  epoch_inv (fst (apply_op (NewPersistentEpochList 100 7 3 50 [mkPbEpochState 9 20]) (OpFinalize 90)))
  /\ snd (apply_op (fst (apply_op (NewPersistentEpochList 100 7 3 50 [mkPbEpochState 9 20])
    (OpFinalize 90))) (OpDiscard 80)) <> Panic.
Proof.
  destruct (PersistentEpochList_invariant
    (fst (apply_op (NewPersistentEpochList 100 7 3 50 [mkPbEpochState 9 20]) (OpFinalize 90)))
    (OpDiscard 80)) as (H1&H2&_); [| |split; [exact H1|exact H2]].
  - apply reachable_step; [|simpl; unfold is_u64; lia].
    constructor; [lia|unfold is_u64; lia|]. constructor; [simpl; unfold is_u64; lia|constructor].
  - simpl. unfold is_u64. lia.
Defined.

Section current.
Context {G : Type} `{!SingleThreadedGenerator G}.

(** The current epoch is the last one, and it is found under its ID. *)
Lemma current_epoch (el : PersistentEpochList G) :
  epoch_inv el -> zlen (epochs el) = synchronizingEpochs el + 1 -> zlen (epochs el) < 2 ^ 32 ->
  exists seed, let st := mkEpochState seed (minimumLocation el)
      (lastMax (minimumLocation el) (epochs el)) in
    let id := u32 (minimumEpochID el + u32 (synchronizingEpochs el)) in
    PEL_GetCurrentEpochState el = Ok (st, id) /\ PEL_GetEpochStateForEpochID el id = Some st.
Proof.
  intros H Hlen Hbound. pose proof (inv_sync _ H) as Hs.
  destruct (last_index (epochs el)) as (e&es&Ees&Eidx&Enat).
  { intros E. rewrite E in Hlen. unfold zlen in Hlen. simpl in Hlen. lia. }
  exists (hashSeed e). cbv zeta. unfold PEL_GetCurrentEpochState, PEL_GetEpochStateForEpochID.
  rewrite Hlen in *. rewrite Z.eqb_refl. cbn [negb].
  replace (synchronizingEpochs el + 1 - 1) with (synchronizingEpochs el) in * by lia.
  rewrite Eidx. simpl. split; [by rewrite Ees, lastMax_snoc|].
  assert (u32 (u32 (minimumEpochID el + u32 (synchronizingEpochs el)) - minimumEpochID el)
    = synchronizingEpochs el) as ->.
  { unfold u32. rewrite Zminus_mod_idemp_l.
    replace (minimumEpochID el + synchronizingEpochs el mod 2 ^ 32 - minimumEpochID el)
      with (synchronizingEpochs el mod 2 ^ 32) by lia.
    rewrite Z.mod_mod by lia. apply Z.mod_small. lia. }
  unfold u32. rewrite (Z.mod_small (synchronizingEpochs el + 1)), Z.geb_leb by lia.
  destruct (Z.leb_spec (synchronizingEpochs el + 1) (synchronizingEpochs el)); [lia|].
  rewrite Enat, Ees, list_lookup_middle, lastMax_snoc by done. done.
Qed.

Lemma lastMax_drop lo lo' n es :
  (n < length es)%nat -> lastMax lo (drop n es) = lastMax lo' es.
Proof.
  intros Hn. destruct (exists_last (l := es)) as (es'&e&->); [by intros ->; simpl in Hn; lia|].
  rewrite length_app in Hn. simpl in Hn. by rewrite drop_app_le, !lastMax_snoc by lia.
Qed.

Lemma lastMax_progressed (el el1 : PersistentEpochList G) location :
  extended el el1 location ->
  zlen (epochs (progressed el1 location)) = synchronizingEpochs (progressed el1 location) + 1 ->
  0 <= synchronizingEpochs (progressed el1 location) ->
  lastMax (minimumLocation (progressed el1 location)) (epochs (progressed el1 location)) = location.
Proof.
  intros Hext Hlen Hs. destruct (ext_last _ _ _ Hext) as (e&Hlast&He).
  unfold progressed in *. simpl epochs in *.
  rewrite (lastMax_drop _ 0).
  - unfold lastMax. by rewrite Hlast.
  - unfold zlen in Hlen. rewrite length_drop in Hlen. lia.
Qed.
End current.

(** After a successful [FinalizeWriteUpToLocation] of a location other than
    zero, [GetCurrentEpochState] does not panic, the epoch it returns is found
    under its ID, and every write that ended at the location and that is not
    behind the ring buffer is valid in it. *)
Theorem Finalize_then_current {G} `{!SingleThreadedGenerator G}
    (el el' : PersistentEpochList G) location :
  epoch_inv el -> 0 < location < 2 ^ 64 ->
  PEL_FinalizeWriteUpToLocation el location = (el', Ok tt) -> zlen (epochs el') < 2 ^ 32 ->
  exists st id, PEL_GetCurrentEpochState el' = Ok (st, id) /\
    PEL_GetEpochStateForEpochID el' id = Some st /\
    forall l s, minimumLocation el' <= l -> 1 <= s < 2 ^ 64 -> l + s = location ->
      location < lastMax (minimumLocation el) (epochs el) + 2 ^ 63 ->
      IsValidLocation st l s = true.
Proof.
  intros H Hl Hf Hbound.
  assert (is_u64 location) as Hu by (unfold is_u64; lia).
  pose proof (Finalize_cases el location H Hu) as Hc. rewrite Hf in Hc.
  pose proof (Finalize_inv el location H Hu) as [Hinv _]. rewrite Hf in Hinv. simpl in Hinv.
  assert (zlen (epochs el') = synchronizingEpochs el' + 1 /\
    (location < lastMax (minimumLocation el) (epochs el) + 2 ^ 63 ->
     location <= lastMax (minimumLocation el') (epochs el'))) as [Hlen Hmax].
  { inversion Hc as [|el1 nc chans ?? Hext ??? Hlen|el1 nc chans ?? Hext ??? Hlen|? Hstay Hlen
      |? Hstay Hlen]; subst; clear Hc; pose proof (inv_sync _ Hinv) as Hsync.
    - split; [exact Hlen|]. intros _. apply Z.eq_le_incl. symmetry.
      apply (lastMax_progressed el el1 location Hext Hlen).
      exact (Z.le_trans _ _ _ (proj1 (proj1 Hsync)) (proj2 (proj1 Hsync))).
    - specialize (Hlen ltac:(lia)). split; [exact Hlen|]. intros _. apply Z.eq_le_incl. symmetry.
      apply (lastMax_progressed _ el1 location Hext Hlen).
      exact (Z.le_trans _ _ _ (proj1 (proj1 Hsync)) (proj2 (proj1 Hsync))).
    - split.
      + unfold appendEpoch in *. destruct (Uint64 _). simpl in *. unfold zlen in *.
        rewrite length_app. simpl. lia.
      + unfold stays in Hstay. unfold appendEpoch. destruct (Uint64 _). simpl.
        rewrite lastMax_snoc. simpl. lia.
    - unfold stays in Hstay. split; [exact Hlen|lia]. }
  destruct (current_epoch el' Hinv Hlen Hbound) as (seed&Hcur&Hget).
  do 2 eexists. split; [exact Hcur|]. split; [exact Hget|].
  intros l s Hlo Hs Hls Hfar. specialize (Hmax Hfar). pose proof (inv_min _ Hinv).
  pose proof (lastMax_range el' Hinv).
  apply IsValidLocation_iff; simpl; lia.
Qed.

Lemma Finalize_then_current_witness :
  let el := NewPersistentEpochList 100 7 3 50 [mkPbEpochState 9 20] in
  exists el' st id, PEL_FinalizeWriteUpToLocation el 90 = (el', Ok tt) /\
    PEL_GetCurrentEpochState el' = Ok (st, id) /\ IsValidLocation st 70 20 = true.
Proof.
  cbv zeta. set (el := NewPersistentEpochList 100 7 3 50 [mkPbEpochState 9 20]).
  destruct (PEL_FinalizeWriteUpToLocation el 90) as [el' o] eqn:E.
  assert (o = Ok tt) as -> by (vm_compute in E; congruence).
  assert (el' = fst (PEL_FinalizeWriteUpToLocation el 90)) as Eel by (by rewrite E).
  destruct (Finalize_then_current el el' 90) as (st&id&H1&_&H2);
    [|lia|exact E|by rewrite Eel|exists el', st, id].
  { apply NewPersistentEpochList_inv; [lia|unfold is_u64; lia|].
    constructor; [simpl; unfold is_u64; lia|constructor]. }
  split; [done|]. split; [exact H1|]. apply H2; [by rewrite Eel|lia|lia|by vm_compute].
Defined.

Section ring_buffer.
Context {G : Type} `{!SingleThreadedGenerator G}.
Abbreviation PEL := (PersistentEpochList G).

(** The epochs cover no more than the ring buffer holds. *)
Definition bounded (el : PEL) : Prop :=
  lastMax (minimumLocation el) (epochs el) - minimumLocation el <= maximumLocationSpan el.

Lemma lastMax_drop_stale lo m es :
  chain lo es -> es <> [] ->
  lastMax m (drop (Z.to_nat (countStale es m)) es) = Z.max m (lastMax lo es).
Proof.
  intros Hc Hne. pose proof (countStale_range es m) as Hr.
  destruct (exists_last Hne) as (es'&e&E).
  assert (last es = Some e) as Hlast by (rewrite E; apply last_snoc).
  assert (lastMax lo es = maximumLocation e) as Hmax by (rewrite E; apply lastMax_snoc).
  destruct (Z.ltb_spec m (maximumLocation e)).
  - pose proof (countStale_last es m e Hlast ltac:(lia)).
    rewrite (lastMax_drop m lo) by (unfold zlen in *; lia). lia.
  - pose proof (drop_stale_chain lo es m Hc) as [Hc' Hhead].
    destruct (drop (Z.to_nat (countStale es m)) es) as [|e1 es1] eqn:Ed.
    + unfold lastMax at 1. simpl. lia.
    + specialize (Hhead e1 eq_refl). destruct Hc' as [_ Hc'].
      pose proof (chain_last _ _ Hc') as [Hle _]. rewrite <- (lastMax_cons m) in Hle.
      rewrite <- Ed, (lastMax_drop m lo) in Hle; [lia|].
      assert (length (drop (Z.to_nat (countStale es m)) es) <> 0%nat) as Hlen by (by rewrite Ed).
      rewrite length_drop in Hlen. lia.
Qed.

Lemma prune_lastMax (el : PEL) lo :
  chain lo (epochs el) -> lo <= minimumLocation el ->
  lastMax (minimumLocation (pruneStaleEpochs el)) (epochs (pruneStaleEpochs el)) =
  Z.max (minimumLocation el) (lastMax lo (epochs el)).
Proof.
  intros Hc Hlo. simpl. destruct (epochs el) as [|e es] eqn:E.
  - unfold lastMax. simpl. lia.
  - rewrite <- E in *. apply lastMax_drop_stale; [done|by rewrite E].
Qed.

Lemma apply_op_bounded (el : PEL) op :
  epoch_inv el -> op_ok op -> bounded el -> bounded (fst (apply_op el op)).
Proof.
  intros H Hop Hb. pose proof (inv_span _ H) as Hspan. pose proof (inv_min _ H) as Hmin.
  assert (forall el1 location nc chans el0, epoch_inv el0 ->
    maximumLocationSpan el0 = maximumLocationSpan el ->
    extended el0 el1 location -> bounded (set_wakeup (progressed el1 location) nc chans)) as Hprog.
  { intros el1 location nc chans el0 H0 Espan Hext. unfold bounded.
    destruct (ext_last _ _ _ Hext) as (e&Hlast&He). pose proof (ext_min _ _ _ Hext).
    pose proof (ext_span _ _ _ Hext) as Es.
    pose proof (prune_lastMax (set_minimumLocation el1
      (Z.max (minimumLocation el1) (location - maximumLocationSpan el1)))
      (minimumLocation el1) (ext_chain _ _ _ Hext) ltac:(simpl; lia)) as Hl.
    fold (progressed el1 location) in Hl.
    change (lastMax (minimumLocation (progressed el1 location)) (epochs (progressed el1 location))
      - Z.max (minimumLocation el1) (location - maximumLocationSpan el1)
      <= maximumLocationSpan el1).
    rewrite Hl. simpl. unfold lastMax. rewrite Hlast, He. lia. }
  destruct op as [l|l|b|]; simpl in *.
  - pose proof (Finalize_cases el l H Hop) as Hc. inversion Hc; simpl; try done.
    + eapply Hprog; [exact H|reflexivity|eassumption].
    + eapply Hprog; [apply reinitialize_inv, H|reflexivity|eassumption].
    + unfold bounded, appendEpoch. destruct (Uint64 _). simpl. by rewrite lastMax_snoc.
  - unfold PEL_DiscardUpToLocation. case_bool; [|done].
    pose proof (prune_lastMax (set_minimumLocation el l) _ (inv_chain _ H) ltac:(simpl; lia)) as Hl.
    destruct (Discard_inv el l H Hop) as (el'&_&_).
    assert (channel_inv (locationsChangedWakeup (pruneStaleEpochs (set_minimumLocation el l)))
      (allChannels (pruneStaleEpochs (set_minimumLocation el l)))) as Hch by apply H.
    destruct (unblockWakeup_Ok _ Hch) as (nc&chans&->&_). simpl commit. cbn [fst].
    unfold bounded in *.
    change (lastMax (minimumLocation (pruneStaleEpochs (set_minimumLocation el l)))
      (epochs (pruneStaleEpochs (set_minimumLocation el l))) - l <= maximumLocationSpan el).
    rewrite Hl. simpl. lia.
  - destruct b; done.
  - unfold NotifySyncCompleted. simpl. case_bool; [|done].
    destruct (block _ _). done.
Qed.
End ring_buffer.

(** An entry that is still valid never refers to data that has been
    overwritten: as long as the epochs initially cover no more than the ring
    buffer, every operation keeps all valid entries within the last
    [maximumLocationSpan] bytes before the end of the last epoch. *)
Theorem ring_buffer_safety {G} `{!SingleThreadedGenerator G} (el : PersistentEpochList G) op :
  epoch_inv el -> bounded el -> op_ok op ->
  let el' := fst (apply_op el op) in
  bounded el' /\
  forall id seed l s, zlen (epochs el') < 2 ^ 32 -> 0 <= l -> 1 <= s < 2 ^ 64 ->
    resolves el' id seed l s ->
    lastMax (minimumLocation el') (epochs el') - maximumLocationSpan el' <= l /\
    l + s <= lastMax (minimumLocation el') (epochs el').
Proof.
  intros H Hb Hop el'. pose proof (apply_op_bounded el op H Hop Hb) as Hb'. fold el' in Hb'.
  split; [done|]. intros id seed l s Hlen Hl Hs Hr.
  assert (epoch_inv el') as H' by (by apply apply_op_inv).
  apply resolves_iff in Hr as (e&He&_&Hlo&Hhi); [|by apply chain_zero|done..].
  apply (chain_lookup _ _ _ _ (inv_chain _ H')) in He. unfold bounded in Hb'. lia.
Qed.

Lemma ring_buffer_safety_witness :
  bounded (fst (apply_op (NewPersistentEpochList 100 7 3 50 [mkPbEpochState 9 20]) (OpFinalize 190))).
Proof.
  assert (bounded (NewPersistentEpochList 100 7 3 50 [mkPbEpochState 9 20])) as Hb
    by (vm_compute; congruence).
  assert (op_ok (OpFinalize 190)) as Hop by (simpl; unfold is_u64; lia).
  assert (epoch_inv (NewPersistentEpochList 100 7 3 50 [mkPbEpochState 9 20])) as Hinv.
  { apply NewPersistentEpochList_inv; [lia|unfold is_u64; lia|].
    constructor; [simpl; unfold is_u64; lia|constructor]. }
  exact (proj1 (ring_buffer_safety _ _ Hinv Hb Hop)).
Defined.

(** A restart restores exactly the synchronized epochs: an entry of the
    reference-location map is valid after reloading the persisted state if
    and only if it was valid before and belonged to a synchronized epoch. *)
Theorem persistent_state_roundtrip {G} `{!SingleThreadedGenerator G} (el : PersistentEpochList G)
    (g : G) minID minLoc es id seed l s :
  epoch_inv el -> zlen (epochs el) < 2 ^ 32 -> 0 <= l -> 1 <= s < 2 ^ 64 ->
  GetPersistentState el = Ok (minID, minLoc, es) ->
  resolves (NewPersistentEpochList (maximumLocationSpan el) g minID minLoc es) id seed l s <->
  resolves el id seed l s /\ u32 (id - minimumEpochID el) < synchronizedEpochs el.
Proof.
  intros H Hlen Hl Hs Hp. rewrite GetPersistentState_Ok in Hp by done. injection Hp as <- <- <-.
  pose proof (inv_sync _ H) as Hsync. pose proof (inv_min _ H) as Hmin.
  pose proof (chain_take _ _ (Z.to_nat (synchronizedEpochs el)) (inv_chain _ H)) as Hc.
  unfold NewPersistentEpochList. cbn [newNotificationChannel make_channel].
  rewrite reload_persist by (done || lia). simpl app.
  assert (chain 0 (take (Z.to_nat (synchronizedEpochs el)) (epochs el))) as Hc0
    by (eapply chain_weaken; [|exact Hc]; lia).
  assert (zlen (take (Z.to_nat (synchronizedEpochs el)) (epochs el)) < 2 ^ 32) as Hlen'
    by (unfold zlen in *; rewrite length_take; lia).
  rewrite prune_resolves by (done || (simpl; lia)).
  rewrite !resolves_iff by (done || by apply chain_zero). simpl.
  pose proof (Z.mod_pos_bound (id - minimumEpochID el) (2 ^ 32)) as Hi.
  fold (u32 (id - minimumEpochID el)) in Hi. set (i := u32 (id - minimumEpochID el)) in *.
  split.
  - intros (e&He&Hv). apply lookup_take_Some in He as [He Hlt]. split; [by exists e|lia].
  - intros [(e&He&Hv) Hlt]. exists e. split; [|done]. apply lookup_take_Some. split; [done|lia].
Qed.

Lemma persistent_state_roundtrip_witness :
  let el := NewPersistentEpochList 100 7 3 50 [mkPbEpochState 9 20] in
  resolves (NewPersistentEpochList 100 8 3 50 [mkPbEpochState 9 20]) 3 9 60 10.
Proof.
  cbv zeta. set (el := NewPersistentEpochList 100 7 3 50 [mkPbEpochState 9 20]).
  apply (persistent_state_roundtrip el 8 3 50 [mkPbEpochState 9 20] 3 9 60 10);
    [|by vm_compute|lia|lia|by vm_compute|].
  { apply NewPersistentEpochList_inv; [lia|unfold is_u64; lia|].
    constructor; [simpl; unfold is_u64; lia|constructor]. }
  split; [|by vm_compute]. eexists. split; [vm_compute; reflexivity|]. by vm_compute.
Defined.

Section entries.
Context {G : Type} `{!SingleThreadedGenerator G}.
Abbreviation PEL := (PersistentEpochList G).

(** Raising the minimum only removes entries. *)
Lemma set_minimumLocation_resolves (el : PEL) m id seed l s :
  chain 0 (epochs el) -> zlen (epochs el) < 2 ^ 32 -> minimumLocation el <= m -> 0 <= l ->
  1 <= s < 2 ^ 64 ->
  resolves (set_minimumLocation el m) id seed l s <-> m <= l /\ resolves el id seed l s.
Proof.
  intros Hc Hlen Hm Hl Hs. rewrite !resolves_iff by done. simpl. split.
  - intros (e&He&Hseed&?&?). split; [done|]. exists e. split; [done|]. split; [done|lia].
  - intros (?&e&He&Hseed&?&?). by exists e.
Qed.

(** Growing the last epoch only adds entries of that epoch. *)
Lemma grown_resolves (el el1 : PEL) location id seed l s :
  epoch_inv el -> extended el el1 location -> grown el el1 location ->
  zlen (epochs el1) < 2 ^ 32 -> 0 <= l -> 1 <= s < 2 ^ 64 ->
  resolves el1 id seed l s <->
  resolves el id seed l s \/
  (u32 (id - minimumEpochID el) = synchronizingEpochs el /\
   (exists e, last (epochs el1) = Some e /\ hashSeed e = seed) /\
   minimumLocation el <= l /\ l + s <= location).
Proof.
  intros H Hext (Eid&Emin&_&Esg&es&e&Ees&He&Hcase) Hlen Hl Hs.
  pose proof (ext_sync _ _ _ Hext) as [_ Hsync]. pose proof (ext_min _ _ _ Hext) as Hmin1.
  assert (chain 0 (epochs el1)) as Hc1
    by (eapply chain_weaken; [|apply (ext_chain _ _ _ Hext)]; lia).
  assert (length (epochs el) <= length (epochs el1))%nat as Hle.
  { rewrite Ees. destruct Hcase as [[-> _]|(e0&->&_)]; rewrite !length_app; simpl; lia. }
  rewrite !resolves_iff by (try done; try (by apply chain_zero); unfold zlen in *; lia).
  pose proof (Z.mod_pos_bound (id - minimumEpochID el) (2 ^ 32)) as Hi.
  fold (u32 (id - minimumEpochID el)) in Hi. rewrite Eid, Emin.
  set (i := u32 (id - minimumEpochID el)) in *.
  assert (Z.of_nat (length es) = synchronizingEpochs el) as Hes.
  { unfold zlen in Hsync. rewrite Ees, length_app in Hsync. simpl in Hsync. lia. }
  rewrite Ees, last_snoc. destruct (Z.lt_trichotomy i (synchronizingEpochs el)) as [Hlt|[Heq|Hgt]].
  - rewrite lookup_app_l by lia.
    assert (epochs el !! Z.to_nat i = es !! Z.to_nat i) as ->.
    { destruct Hcase as [[-> _]|(e0&->&_)]; [done|by rewrite lookup_app_l by lia]. }
    split; [by left|]. intros [?|(?&_)]; [done|lia].
  - rewrite list_lookup_middle by lia. split.
    + intros (e'&[= <-]&Hseed&?&?). right. split; [done|]. split; [by exists e|lia].
    + intros [(e'&He'&Hseed&?&?)|(_&(e'&[= <-]&Hseed)&?&?)]; exists e; split; try done; [|lia].
      destruct Hcase as [[E _]|(e0&E&Es0&Hm0)]; rewrite E in He'.
      * apply lookup_lt_Some in He'. lia.
      * rewrite list_lookup_middle in He' by lia. injection He' as <-.
        split; [congruence|lia].
  - split.
    + intros (e'&He'&_). apply lookup_lt_Some in He'. rewrite length_app in He'. simpl in He'. lia.
    + intros [(e'&He'&_)|(?&_)]; [|lia]. apply lookup_lt_Some in He'.
      rewrite Ees, length_app in Hle. simpl in Hle. lia.
Qed.

(** Pruning does not change the current epoch. *)
Lemma prune_current (el : PEL) e :
  0 <= synchronizingEpochs el -> zlen (epochs el) = synchronizingEpochs el + 1 ->
  zlen (epochs (pruneStaleEpochs el)) = synchronizingEpochs (pruneStaleEpochs el) + 1 ->
  last (epochs el) = Some e -> zlen (epochs el) < 2 ^ 32 ->
  PEL_GetCurrentEpochState (pruneStaleEpochs el) =
  Ok (mkEpochState (hashSeed e) (minimumLocation el) (maximumLocation e),
      u32 (minimumEpochID el + synchronizingEpochs el)).
Proof.
  intros Hsg Hlen Hlen' Hlast Hbound. unfold PEL_GetCurrentEpochState.
  rewrite Hlen', Z.eqb_refl. cbn [negb].
  pose proof (countStale_range (epochs el) (minimumLocation el)) as Hr. simpl in *.
  set (n := countStale (epochs el) (minimumLocation el)) in *.
  assert (n <= synchronizingEpochs el) as Hn.
  { unfold zlen in *. rewrite length_drop in Hlen'. revert Hlen'. case_bool; lia. }
  destruct (Z.ltb_spec (synchronizingEpochs el) n); [lia|].
  assert (index (drop (Z.to_nat n) (epochs el)) (synchronizingEpochs el - n) = Ok e) as ->.
  { unfold index. destruct (Z.ltb_spec (synchronizingEpochs el - n) 0); [lia|].
    rewrite lookup_drop. rewrite last_lookup in Hlast.
    replace (Z.to_nat n + Z.to_nat (synchronizingEpochs el - n))%nat
      with (pred (length (epochs el))) by (unfold zlen in *; lia). by rewrite Hlast. }
  simpl. do 2 f_equal. unfold u32.
  rewrite (Z.mod_small n), (Z.mod_small (synchronizingEpochs el - n)) by lia.
  rewrite Z.add_mod_idemp_l by lia. f_equal. lia.
Qed.
End entries.

(** A write that makes progress changes the valid entries exactly as the
    ring buffer does: entries that it overwrites become invalid, all others
    stay valid with the same epoch ID and hash seed, and the only new entries
    are those of the current epoch up to the location. *)
Theorem Finalize_valid_entries {G} `{!SingleThreadedGenerator G} (el el' : PersistentEpochList G)
    location id seed l s :
  epoch_inv el -> is_u64 location -> is_u32 id -> 0 <= l -> 1 <= s < 2 ^ 64 ->
  zlen (epochs el) < 2 ^ 32 - 1 ->
  lastMax (minimumLocation el) (epochs el) < location
    < lastMax (minimumLocation el) (epochs el) + 2 ^ 63 ->
  PEL_FinalizeWriteUpToLocation el location = (el', Ok tt) ->
  resolves el' id seed l s <->
  location - maximumLocationSpan el <= l /\
  (resolves el id seed l s \/
   (exists st, PEL_GetCurrentEpochState el' = Ok (st, id) /\ HashSeed st = seed) /\
   minimumLocation el <= l /\ l + s <= location).
Proof.
  intros H Hloc Hid Hl Hs Hlen Hprog Hf. pose proof (Finalize_cases el location H Hloc) as Hc.
  rewrite Hf in Hc. unfold is_u64 in Hloc.
  inversion Hc as [|el1 nc chans ?? Hext Hgrown ? Hinv Hlen1|?????|? Hstay Hlen0|? Hstay Hlen0];
    subst; clear Hc; [|lia|unfold stays in Hstay; lia|unfold stays in Hstay; lia].
  pose proof (ext_min _ _ _ Hext) as Hmin1. pose proof (ext_span _ _ _ Hext) as Espan.
  pose proof (ext_sync _ _ _ Hext) as [Hsd1 Hsg1].
  assert (chain 0 (epochs el1)) as Hc1
    by (eapply chain_weaken; [|apply (ext_chain _ _ _ Hext)]; lia).
  pose proof Hgrown as (Eid&Emin&_&Esg&_). pose proof (inv_sync _ H) as Hsync.
  assert (zlen (epochs el1) < 2 ^ 32) as Hlen' by lia.
  change (resolves (set_wakeup (progressed el1 location) nc chans) id seed l s)
    with (resolves (progressed el1 location) id seed l s).
  unfold progressed at 1. rewrite prune_resolves by (try done; simpl; lia).
  rewrite set_minimumLocation_resolves by (try done; lia).
  rewrite (grown_resolves el el1 location) by done.
  rewrite Espan, Emin.
  assert (u32 (id - minimumEpochID el) = synchronizingEpochs el /\
    (exists e, last (epochs el1) = Some e /\ hashSeed e = seed) <->
    exists st, PEL_GetCurrentEpochState (set_wakeup (progressed el1 location) nc chans) =
      Ok (st, id) /\ HashSeed st = seed) as Hcur.
  { destruct (ext_last _ _ _ Hext) as (e&Hlast&_).
    pose proof (prune_current (set_minimumLocation el1 (Z.max (minimumLocation el1)
      (location - maximumLocationSpan el1))) e ltac:(simpl; lia) Hsg1 Hlen1 Hlast Hlen') as Hcur.
    change (PEL_GetCurrentEpochState (set_wakeup (progressed el1 location) nc chans))
      with (PEL_GetCurrentEpochState (progressed el1 location)).
    unfold progressed. rewrite Hcur, Hlast. simpl. rewrite Eid, Esg. unfold is_u32, u32 in *.
    pose proof (inv_id _ H). split.
    - intros [E (e'&[= <-]&Hseed)]. rewrite <- E, Z.add_mod_idemp_r by lia.
      replace (minimumEpochID el + (id - minimumEpochID el)) with id by lia.
      rewrite (Z.mod_small id) by done. eexists. split; [reflexivity|exact Hseed].
    - intros (st&[= <- Eid']&Hseed). split; [|by exists e]. rewrite <- Eid'.
      rewrite Zminus_mod_idemp_l.
      replace (minimumEpochID el + synchronizingEpochs el - minimumEpochID el)
        with (synchronizingEpochs el) by lia.
      apply Z.mod_small. lia. }
  rewrite <- Hcur. assert (resolves el id seed l s -> minimumLocation el <= l) as Hres.
  { rewrite resolves_iff by (try done; try (by apply chain_zero); lia). intros (?&_&_&?&_). done. }
  split.
  - intros (Hm&[Hr|(?&?&?&?)]); (split; [lia|]); [by left|right; tauto].
  - intros (Hm&[Hr|(?&?&?)]); (split; [|tauto]); [specialize (Hres Hr); lia|lia].
Qed.

Definition exampleList : PersistentEpochList Z :=
  NewPersistentEpochList 100 7 3 50 [mkPbEpochState 9 20].

Lemma exampleList_inv : epoch_inv exampleList.
Proof.
  apply NewPersistentEpochList_inv; [lia|unfold is_u64; lia|].
  constructor; [simpl; unfold is_u64; lia|constructor].
Qed.

Lemma Finalize_valid_entries_witness :
  exists el', PEL_FinalizeWriteUpToLocation exampleList 155 = (el', Ok tt) /\
    (resolves el' 3 9 60 10 <-> 155 - 100 <= 60 /\
     (resolves exampleList 3 9 60 10 \/
      (exists st, PEL_GetCurrentEpochState el' = Ok (st, 3) /\ HashSeed st = 9) /\
      50 <= 60 /\ 60 + 10 <= 155)).
Proof.
  destruct (PEL_FinalizeWriteUpToLocation exampleList 155) as [el' o] eqn:E.
  assert (o = Ok tt) as -> by (vm_compute in E; congruence).
  exists el'. split; [done|].
  apply (Finalize_valid_entries exampleList el' 155 3 9 60 10 exampleList_inv);
    [unfold is_u64; lia|unfold is_u32; lia|lia|lia|by vm_compute|by vm_compute|exact E].
Defined.

(** [DiscardUpToLocation] invalidates exactly the entries below the
    location: none of them is valid afterwards, and every other entry stays
    valid.  It also wakes up the syncer, so that the loss is persisted. *)
Theorem Discard_valid_entries {G} `{!SingleThreadedGenerator G} (el : PersistentEpochList G)
    location :
  epoch_inv el -> is_u64 location -> zlen (epochs el) < 2 ^ 32 ->
  exists el', PEL_DiscardUpToLocation el location = (el', Ok tt) /\
    (forall id seed l s, 0 <= l -> 1 <= s < 2 ^ 64 ->
       resolves el' id seed l s <-> location <= l /\ resolves el id seed l s) /\
    (minimumLocation el < location ->
     allChannels el' !! GetLocationsChangedWakeup el' = Some true).
Proof.
  intros H Hl Hlen. pose proof (chain_zero el H) as Hc0. pose proof (inv_min _ H) as Hmin.
  unfold PEL_DiscardUpToLocation. unfold is_u64 in Hl.
  destruct (Z.ltb_spec (minimumLocation el) location) as [Hlt|Hge].
  - assert (channel_inv (locationsChangedWakeup (pruneStaleEpochs (set_minimumLocation el location)))
      (allChannels (pruneStaleEpochs (set_minimumLocation el location)))) as Hch by apply H.
    destruct (unblockWakeup_Ok _ Hch) as (nc&chans&->&Hnc&Hb). eexists. split; [done|]. split.
    + intros id seed l s Hl0 Hs.
      change (resolves (set_wakeup (pruneStaleEpochs (set_minimumLocation el location)) nc chans))
        with (resolves (pruneStaleEpochs (set_minimumLocation el location))).
      rewrite prune_resolves by (try done; simpl; lia).
      apply set_minimumLocation_resolves; (done || lia).
    + intros _. unfold channel_inv in Hnc. rewrite Hb in Hnc. exact Hnc.
  - exists el. split; [done|]. split; [|lia]. intros id seed l s Hl0 Hs.
    rewrite resolves_iff by done. split; [|by intros [_ ?]].
    intros (e&He&Hseed&?&?). split; [lia|]. by exists e.
Qed.

Lemma Discard_valid_entries_witness :
  exists el', PEL_DiscardUpToLocation exampleList 60 = (el', Ok tt) /\
    (resolves el' 3 9 55 10 <-> 60 <= 55 /\ resolves exampleList 3 9 55 10).
Proof.
  destruct (Discard_valid_entries exampleList 60 exampleList_inv) as (el'&H1&H2&_);
    [unfold is_u64; lia|by vm_compute|].
  exists el'. split; [exact H1|]. apply H2; lia.
Defined.

(** A write that finishes after a later write has been synchronized
    starts a new epoch without waking up the syncer.  From a fresh list, write
    20 bytes, synchronize, and then finish a write that ends at 10: it is
    valid in the new epoch, the epoch is not synchronized, and the wakeup
    channel blocks, so that nothing persists the epoch until the next write. *)
Theorem late_write_does_not_wake_up_syncer :
  let el0 := NewPersistentEpochList 100 7 0 0 [] in
  let el1 := fst (apply_op el0 (OpFinalize 20)) in
  let el2 := fst (apply_op (fst (apply_op el1 (OpSyncStarting false))) OpSyncCompleted) in
  let el3 := fst (apply_op el2 (OpFinalize 10)) in
  snd (apply_op el2 (OpFinalize 10)) = Ok tt /\
  (exists st, PEL_GetCurrentEpochState el3 = Ok (st, 1) /\ IsValidLocation st 0 10 = true) /\
  synchronizedEpochs el3 < zlen (epochs el3) /\
  allChannels el3 !! GetLocationsChangedWakeup el3 = Some false.
Proof.
  cbv zeta. split; [by vm_compute|]. split; [|split; by vm_compute].
  eexists. split; [vm_compute; reflexivity|by vm_compute].
Qed.
