(* ===== verification/BlockDevice.v ===== *)
(** * Block devices

    The block device of bb-storage is not part of this repository: it is a
    parameter, the class [BlockDevice].  [BlockDeviceLaws] states what the
    code relies on: reads within the device return what was last written.  A
    byte list of fixed length is a device that meets the laws. *)

From S2P Require Import Prelude.

(** [blockdevice.BlockDevice]: [ReadAt] of a number of bytes at an offset, and
    [WriteAt]. *)
Class BlockDevice (D : Type) := {
  ReadAt : D -> Z -> Z -> outcome (list Z);
  WriteAt : D -> list Z -> Z -> D * outcome unit;
}.

(** The behaviour of a device of [size] bytes. *)
Class BlockDeviceLaws (D : Type) `{!BlockDevice D} (size : Z) := {
  bd_contents : D -> list Z;
  bd_length d : zlen (bd_contents d) = size;
  bd_ReadAt d off n :
    0 <= off -> 0 <= n -> off + n <= size -> ReadAt d off n = slice (bd_contents d) off (off + n);
  bd_WriteAt d data off :
    0 <= off -> off + zlen data <= size ->
    exists d', WriteAt d data off = (d', Ok tt) /\
      bd_contents d' = copy_at (bd_contents d) (Z.to_nat off) data;
}.

(** A device that is a list of bytes of fixed length. *)
Definition sized_device (n : nat) : Type := { dev : list Z | length dev = n }.

Definition sized_write {n} (dev : sized_device n) (data : list Z) (off : Z) : sized_device n :=
  let dev' := copy_at (proj1_sig dev) (Z.to_nat off) data in
  match decide (length dev' = n) with left H => exist _ dev' H | right _ => dev end.

#[global] Instance sized_BlockDevice n : BlockDevice (sized_device n) := {
  ReadAt dev off len := slice (proj1_sig dev) off (off + len);
  WriteAt dev data off := (sized_write dev data off, Ok tt);
}.

#[global] Instance sized_laws n : BlockDeviceLaws (sized_device n) (Z.of_nat n).
Proof.
  refine {| bd_contents dev := proj1_sig dev |}.
  - intros [dev H]. unfold zlen. simpl. lia.
  - done.
  - intros dev data off Hoff Hfit. eexists. split; [done|]. unfold sized_write.
    destruct dev as [dev Hlen]. simpl. case_decide as H; [done|].
    destruct H. rewrite length_copy_at; [done|]. unfold zlen in Hfit. lia.
Defined.
