(* ===== verification/RingBuffer.v ===== *)
(** * Ring buffers

    Reading and writing a byte array at locations that grow without bound and
    wrap around its end.  Shared by the two location-blob maps. *)

From S2P Require Import Prelude.

(** The byte at a location of a ring buffer. *)
Definition ring_byte (mem : list Z) (x : Z) : Z := nth (Z.to_nat (x mod zlen mem)) mem 0.

Definition ring_read (mem : list Z) (l n : Z) : list Z :=
  map (fun i => ring_byte mem (l + i)) (seqZ 0 n).

(** [mem'] is [mem] with [data] written at location [v] and nothing else changed. *)
Record ring_write (mem mem' : list Z) (v : Z) (data : list Z) : Prop := {
  rw_length : zlen mem' = zlen mem;
  rw_fits : zlen data <= zlen mem;
  rw_bytes k : 0 <= k < zlen mem ->
    ring_byte mem' (v + k) =
    if k <? zlen data then nth (Z.to_nat k) data 0 else ring_byte mem (v + k);
}.

Lemma length_ring_read mem l n : 0 <= n -> zlen (ring_read mem l n) = n.
Proof. intros. unfold ring_read, zlen. rewrite length_map, length_seqZ. lia. Qed.

Lemma ring_byte_period mem x k : 0 < zlen mem -> ring_byte mem (x + k * zlen mem) = ring_byte mem x.
Proof. intros H. unfold ring_byte. by rewrite Z_mod_plus_full. Qed.

Lemma ring_read_app mem l n m :
  0 <= n -> 0 <= m -> ring_read mem l (n + m) = ring_read mem l n ++ ring_read mem (l + n) m.
Proof.
  intros Hn Hm. unfold ring_read. rewrite seqZ_app, map_app by done. f_equal.
  rewrite Z.add_0_l. rewrite <- (Z.add_0_r n) at 1. rewrite <- fmap_add_seqZ.
  change (Z.add n <$> seqZ 0 m) with (map (Z.add n) (seqZ 0 m)).
  rewrite map_map. apply map_ext. intros i. f_equal. lia.
Qed.

Lemma ring_read_ext mem mem' l n :
  (forall i, 0 <= i < n -> ring_byte mem' (l + i) = ring_byte mem (l + i)) ->
  ring_read mem' l n = ring_read mem l n.
Proof.
  intros H. unfold ring_read. apply map_ext_in. intros i Hi.
  apply list_elem_of_In, elem_of_seqZ in Hi. apply H. lia.
Qed.

Lemma ring_read_nth mem l n (d : list Z) :
  zlen d = n -> (forall i, 0 <= i < n -> ring_byte mem (l + i) = nth (Z.to_nat i) d 0) ->
  ring_read mem l n = d.
Proof.
  intros Hn H. apply nth_ext with 0 0.
  { pose proof (length_ring_read mem l n ltac:(unfold zlen in *; lia)). unfold zlen in *. lia. }
  intros i Hi. pose proof (length_ring_read mem l n ltac:(unfold zlen in *; lia)) as Hl.
  assert (i < Z.to_nat n)%nat as Hi' by (unfold zlen in *; lia).
  unfold ring_read. rewrite nth_lookup_total, list_lookup_fmap.
  rewrite lookup_seqZ_lt by lia. simpl. rewrite H by lia. f_equal. lia.
Qed.

Lemma ring_read_lookup mem l n i :
  0 <= i < n -> nth (Z.to_nat i) (ring_read mem l n) 0 = ring_byte mem (l + i).
Proof.
  intros Hi. unfold ring_read. rewrite nth_lookup_total, list_lookup_fmap.
  rewrite lookup_seqZ_lt by lia. simpl. f_equal. lia.
Qed.

(** A contiguous part of the buffer. *)
Lemma ring_read_slice mem l n :
  0 <= n -> 0 < zlen mem -> l mod zlen mem + n <= zlen mem ->
  slice mem (l mod zlen mem) (l mod zlen mem + n) = Ok (ring_read mem l n).
Proof.
  intros Hn Hm Hfit. pose proof (Z.mod_pos_bound l (zlen mem) Hm) as Hb.
  destruct (slice_in_range mem (l mod zlen mem) (l mod zlen mem + n)) as (k&Hk&Hlen); [lia|lia|].
  rewrite Hk. f_equal. symmetry. apply ring_read_nth; [lia|]. intros i Hi.
  unfold ring_byte. rewrite <- Z.add_mod_idemp_l, Z.mod_small by lia.
  apply slice_Ok in Hk as (a&c&Emem&Ha&_). rewrite Emem at 2.
  rewrite app_nth2 by (unfold zlen in *; lia).
  rewrite app_nth1 by (unfold zlen in *; lia). f_equal. unfold zlen in *. lia.
Qed.

Lemma ring_write_nil mem v : ring_write mem mem v [].
Proof.
  split; [done|unfold zlen; simpl; lia|]. intros k Hk. change (zlen (@nil Z)) with 0.
  case_bool; [lia|done].
Qed.

(** [copy] to a place where all the data fits before the end. *)
Lemma ring_write_copy mem v data :
  0 < zlen mem -> v mod zlen mem + zlen data <= zlen mem ->
  ring_write mem (copy_at mem (Z.to_nat (v mod zlen mem)) data) v data.
Proof.
  intros Hm Hfit. pose proof (Z.mod_pos_bound v (zlen mem) Hm) as Hb.
  assert (zlen (copy_at mem (Z.to_nat (v mod zlen mem)) data) = zlen mem) as Hlen
    by (unfold zlen in *; rewrite length_copy_at; lia).
  split; [done|lia|]. intros k Hk. unfold ring_byte. rewrite Hlen.
  rewrite nth_copy_at by (unfold zlen in *; lia).
  rewrite <- Z.add_mod_idemp_l by lia. set (off := v mod zlen mem) in *.
  destruct (Z.ltb_spec (off + k) (zlen mem)).
  - rewrite Z.mod_small by lia.
    case_bool; case_decide; try (unfold zlen in *; lia); f_equal; lia.
  - replace ((off + k) mod zlen mem) with (off + k - zlen mem)
      by (apply Z.mod_unique with 1; lia).
    case_bool; case_decide; unfold zlen in *; lia.
Qed.

(** Consecutive writes are one write. *)
Lemma ring_write_app m1 m2 m3 v d1 d2 :
  0 < zlen m1 -> ring_write m1 m2 v d1 -> ring_write m2 m3 (v + zlen d1) d2 ->
  zlen d1 + zlen d2 <= zlen m1 -> ring_write m1 m3 v (d1 ++ d2).
Proof.
  intros Hm [L1 F1 B1] [L2 F2 B2] Hfit.
  assert (zlen (d1 ++ d2) = zlen d1 + zlen d2) as Hlen by (unfold zlen; rewrite length_app; lia).
  assert (0 <= zlen d1) by (unfold zlen; lia). assert (0 <= zlen d2) by (unfold zlen; lia).
  split; [lia|lia|]. intros k Hk. rewrite Hlen.
  destruct (Z.ltb_spec k (zlen d1)) as [H1|H1].
  - pose proof (B2 (k - zlen d1 + zlen m1) ltac:(lia)) as E.
    destruct (Z.ltb_spec (k - zlen d1 + zlen m1) (zlen d2)); [lia|].
    replace (v + zlen d1 + (k - zlen d1 + zlen m1)) with (v + k + 1 * zlen m1) in E by lia.
    rewrite <- L1, ring_byte_period in E by lia.
    rewrite L1, <- L1, <- L2, ring_byte_period in E by lia. rewrite E, B1 by lia.
    destruct (Z.ltb_spec k (zlen d1)); [|lia].
    destruct (Z.ltb_spec k (zlen d1 + zlen d2)); [|lia].
    rewrite app_nth1 by (unfold zlen in *; lia). done.
  - pose proof (B2 (k - zlen d1) ltac:(lia)) as E.
    replace (v + zlen d1 + (k - zlen d1)) with (v + k) in E by lia. rewrite E.
    destruct (Z.ltb_spec (k - zlen d1) (zlen d2)), (Z.ltb_spec k (zlen d1 + zlen d2)); try lia.
    + rewrite app_nth2 by (unfold zlen in *; lia). f_equal. unfold zlen in *. lia.
    + rewrite B1 by lia. destruct (Z.ltb_spec k (zlen d1)); [lia|done].
Qed.

(** What a write leaves readable: the data itself, and everything in the rest
    of the buffer. *)
Lemma ring_write_read mem mem' v data :
  ring_write mem mem' v data -> ring_read mem' v (zlen data) = data.
Proof.
  intros [L F B]. apply ring_read_nth; [done|]. intros i Hi. rewrite B by lia.
  destruct (Z.ltb_spec i (zlen data)); [done|lia].
Qed.

Lemma ring_write_keeps mem mem' v data l n :
  0 < zlen mem -> ring_write mem mem' v data ->
  v + zlen data - zlen mem <= l -> l + n <= v ->
  ring_read mem' l n = ring_read mem l n.
Proof.
  intros Hm [L F B] Hlo Hhi. apply ring_read_ext. intros i Hi.
  pose proof (B (l + i - v + zlen mem)) as E.
  assert (0 <= zlen data) by (unfold zlen; lia). specialize (E ltac:(lia)).
  destruct (Z.ltb_spec (l + i - v + zlen mem) (zlen data)); [lia|].
  replace (v + (l + i - v + zlen mem)) with (l + i + 1 * zlen mem) in E by lia.
  rewrite (ring_byte_period mem) in E by done. rewrite <- L in E.
  by rewrite ring_byte_period in E by lia.
Qed.

Lemma ring_write_read_part mem mem' v a d c :
  ring_write mem mem' v (a ++ d ++ c) -> ring_read mem' (v + zlen a) (zlen d) = d.
Proof.
  intros [L F B]. apply ring_read_nth; [done|]. intros i Hi.
  assert (zlen (a ++ d ++ c) = zlen a + zlen d + zlen c) as Hlen
    by (unfold zlen; rewrite !length_app; lia).
  assert (0 <= zlen a) by (unfold zlen; lia). assert (0 <= zlen c) by (unfold zlen; lia).
  rewrite <- Z.add_assoc, B by lia. destruct (Z.ltb_spec (zlen a + i) (zlen (a ++ d ++ c))); [|lia].
  rewrite app_nth2 by (unfold zlen in *; lia). rewrite app_nth1 by (unfold zlen in *; lia).
  f_equal. unfold zlen. lia.
Qed.
