(* ===== verification/LocationBlobMap.v ===== *)
(** * Location-blob maps ([pkg/storage/object/local])

    The ring buffer that holds the contents of objects: every blob that is
    stored is assigned the next location, and the blobs with the lowest
    locations are overwritten.

    - [location_blob_map.go]: the class [LocationBlobMap], [allocateLocation]
    - [in_memory_location_blob_map.go]
    - [block_device_backed_location_blob_map.go]

    [LocationBlobMapLaws] is the contract the local store relies on: a map
    behaves as a log of which the last [span] bytes can be read.  Both
    implementations are shown to meet it.

    The definitions are those of one caller at a time: the retry loop around
    [CompareAndSwap] succeeds in its first iteration, and a [Put] runs to
    completion. *)

From S2P Require Import Prelude BlockDevice RingBuffer.

(** ** [location_blob_map.go] *)

Class LocationBlobMap (B : Type) := {
  LBM_Get : B -> Z -> Z -> outcome (list Z);
  LBM_Put : B -> list Z -> B * outcome Z;
  GetNextPutLocation : B -> Z;
}.

Definition allocateLocation (nextLocation sizeBytes : Z) : Z * Z :=
  let sum := nextLocation + u64 sizeBytes in
  if sum / 2 ^ 64 =? 0 then (nextLocation, u64 sum) else (0, u64 sizeBytes).

(** ** [in_memory_location_blob_map.go] *)

Record inMemoryLocationBlobMap := mkInMemory {
  imData : list Z;
  imNextLocation : Z;
}.

Definition NewInMemoryLocationBlobMap (sizeBytes : nat) : inMemoryLocationBlobMap :=
  mkInMemory (replicate sizeBytes 0) 0.

(** The loop of [Get], which copies up to the end of the array and continues
    at its start.  Every iteration produces at least one byte, hence one
    iteration per byte is enough fuel. *)
Fixpoint imGetLoop (fuel : nat) (data output : list Z) (outputRemaining offset inputRemaining : Z)
    : outcome (list Z) :=
  match fuel with
  | O => Panic
  | S fuel =>
      tail ← slice_from data offset;
      if inputRemaining <? outputRemaining then
        part ← slice tail 0 inputRemaining;
        imGetLoop fuel data (output ++ part) (outputRemaining - inputRemaining) 0 (zlen data)
      else
        part ← slice tail 0 outputRemaining;
        Ok (output ++ part)
  end.

Definition inMemory_Get (lbm : inMemoryLocationBlobMap) (location sizeBytes : Z)
    : outcome (list Z) :=
  if zlen (imData lbm) =? 0 then Panic else
  let offset := location mod zlen (imData lbm) in
  imGetLoop (S (Z.to_nat sizeBytes)) (imData lbm) [] sizeBytes offset (zlen (imData lbm) - offset).

(** The loop of [Put]: [data = data[copy(lbm.data[offset:], data):]]. *)
Fixpoint imPutLoop (fuel : nat) (mem data : list Z) (offset : Z) : outcome (list Z) :=
  match data with
  | [] => Ok mem
  | _ =>
      match fuel with
      | O => Panic
      | S fuel =>
          if zlen mem <? offset then Panic else
          let copied := Nat.min (length mem - Z.to_nat offset) (length data) in
          imPutLoop fuel (copy_at mem (Z.to_nat offset) data) (drop copied data) 0
      end
  end.

Definition inMemory_Put (lbm : inMemoryLocationBlobMap) (data : list Z)
    : inMemoryLocationBlobMap * outcome Z :=
  let '(location, newNextLocation) := allocateLocation (imNextLocation lbm) (zlen data) in
  let lbm := mkInMemory (imData lbm) newNextLocation in
  if zlen (imData lbm) =? 0 then (lbm, Panic) else
  match imPutLoop (length data) (imData lbm) data (location mod zlen (imData lbm)) with
  | Ok mem => (mkInMemory mem newNextLocation, Ok location)
  | _ => (lbm, Panic)
  end.

#[global] Instance inMemory_LocationBlobMap : LocationBlobMap inMemoryLocationBlobMap := {
  LBM_Get := inMemory_Get;
  LBM_Put := inMemory_Put;
  GetNextPutLocation := imNextLocation;
}.

(** ** [block_device_backed_location_blob_map.go] *)

(** A [*sharedSector] is an index into [sectors], the sectors that have been
    allocated so far. *)
Record blockDeviceBackedLocationBlobMap (D : Type) := mkBlockDeviceBacked {
  blockDevice : D;
  sectorSizeBytes : Z;
  sectorCount : Z;
  nextLocation : Z;
  sharedSector : option nat;
  sectors : list (list Z);
}.
Arguments mkBlockDeviceBacked {D} _ _ _ _ _ _.
Arguments blockDevice {D} _.
Arguments sectorSizeBytes {D} _.
Arguments sectorCount {D} _.
Arguments nextLocation {D} _.
Arguments sharedSector {D} _.
Arguments sectors {D} _.

Section block_device_backed.
Context {D : Type} `{!BlockDevice D}.
Abbreviation BDB := (blockDeviceBackedLocationBlobMap D).

Definition NewBlockDeviceBackedLocationBlobMap (dev : D) (size count initialLocation : Z) : BDB :=
  mkBlockDeviceBacked dev size count
    (u64 (u64 (initialLocation + size - 1) / size * size)) None [].

(** The loop of [Get], with one iteration per remaining byte as fuel. *)
Fixpoint bdGetLoop (fuel : nat) (dev : D) (deviceSize : Z) (output : list Z)
    (outputRemaining offset inputRemaining : Z) : outcome (list Z) :=
  match fuel with
  | O => Panic
  | S fuel =>
      if inputRemaining <? outputRemaining then
        part ← ReadAt dev (i64 offset) inputRemaining;
        bdGetLoop fuel dev deviceSize (output ++ part) (outputRemaining - inputRemaining)
          0 deviceSize
      else
        part ← ReadAt dev (i64 offset) outputRemaining;
        Ok (output ++ part)
  end.

Definition blockDevice_Get (lbm : BDB) (location sizeBytes : Z) : outcome (list Z) :=
  let blockDeviceSizeBytes := u64 (u64 (sectorSizeBytes lbm) * u64 (sectorCount lbm)) in
  if blockDeviceSizeBytes =? 0 then Panic else
  let offset := location mod blockDeviceSizeBytes in
  bdGetLoop (S (Z.to_nat sizeBytes)) (blockDevice lbm) blockDeviceSizeBytes [] sizeBytes offset
    (blockDeviceSizeBytes - offset).

(** What [Put] decides while it holds the lock. *)
Record reservation := mkReservation {
  resLocation : Z;
  firstSector : option nat;
  firstSectorIndex : Z;
  fullSectorIndex : Z;
  lastSector : option nat;
  lastSectorIndex : Z;
}.

Definition putReserve (lbm : BDB) (size : Z) : BDB * reservation :=
  let S := sectorSizeBytes lbm in
  let C := sectorCount lbm in
  let '(location, next) := allocateLocation (nextLocation lbm) size in
  let firstIndex := location / S mod C in
  let '(first, fullIndex) :=
    if location mod S =? 0 then (None, firstIndex)
    else (sharedSector lbm, (firstIndex + 1) mod C) in
  if next mod S =? 0 then
    (mkBlockDeviceBacked (blockDevice lbm) S C next None (sectors lbm),
     mkReservation location first firstIndex fullIndex None 0)
  else
    let lastIndex := next / S mod C in
    let '(shared, secs) :=
      if (match first with None => true | Some _ => false end) || negb (firstIndex =? lastIndex)
      then (Some (length (sectors lbm)), sectors lbm ++ [replicate (Z.to_nat S) 0])
      else (sharedSector lbm, sectors lbm) in
    (mkBlockDeviceBacked (blockDevice lbm) S C next shared secs,
     mkReservation location first firstIndex fullIndex shared lastIndex).

Definition setDevice (lbm : BDB) (dev : D) : BDB :=
  mkBlockDeviceBacked dev (sectorSizeBytes lbm) (sectorCount lbm) (nextLocation lbm)
    (sharedSector lbm) (sectors lbm).

(** Copy data into a shared sector at an offset and write the sector. *)
Definition writeSharedSector (lbm : BDB) (p : nat) (off : nat) (data : list Z) (sectorIndex : Z)
    : BDB * outcome unit :=
  match sectors lbm !! p with
  | None => (lbm, Panic)
  | Some sector =>
      let sector := copy_at sector off data in
      let lbm := mkBlockDeviceBacked (blockDevice lbm) (sectorSizeBytes lbm) (sectorCount lbm)
        (nextLocation lbm) (sharedSector lbm) (<[p := sector]> (sectors lbm)) in
      let '(dev, res) := WriteAt (blockDevice lbm) sector
        (i64 (i64 sectorIndex * sectorSizeBytes lbm)) in
      (setDevice lbm dev, res)
  end.

(** Cases 2 and 3: full sectors, in at most one piece per sector. *)
Fixpoint writeFullSectors (fuel : nat) (lbm : BDB) (data : list Z) (fullIndex : Z)
    : BDB * outcome (list Z) :=
  if zlen data <? sectorSizeBytes lbm then (lbm, Ok data) else
  match fuel with
  | O => (lbm, Panic)
  | S fuel =>
      let availableBytes :=
        Z.min (zlen data / sectorSizeBytes lbm) (sectorCount lbm - fullIndex)
        * sectorSizeBytes lbm in
      match slice data 0 availableBytes with
      | Ok part =>
          let '(dev, res) := WriteAt (blockDevice lbm) part
            (i64 (i64 fullIndex * sectorSizeBytes lbm)) in
          let lbm := setDevice lbm dev in
          match res with
          | Ok _ => writeFullSectors fuel lbm (drop (Z.to_nat availableBytes) data) 0
          | Err e => (lbm, Err e)
          | Panic => (lbm, Panic)
          end
      | _ => (lbm, Panic)
      end
  end.

(** Case 4: the trailing partial sector. *)
Definition writeTrailing (lbm : BDB) (r : reservation) (data : list Z) : BDB * outcome Z :=
  if zlen data >? 0 then
    match lastSector r with
    | None => (lbm, Panic)
    | Some p =>
        let '(lbm, res) := writeSharedSector lbm p 0 data (lastSectorIndex r) in
        (lbm, _ ← res; Ok (resLocation r))
    end
  else (lbm, Ok (resLocation r)).

Definition writeFromFull (lbm : BDB) (r : reservation) (data : list Z) : BDB * outcome Z :=
  let '(lbm, res) := writeFullSectors (length data) lbm data (fullSectorIndex r) in
  match res with
  | Ok data => writeTrailing lbm r data
  | Err e => (lbm, Err e)
  | Panic => (lbm, Panic)
  end.

(** What [Put] does after it has released the lock. *)
Definition putWrite (lbm : BDB) (r : reservation) (data : list Z) : BDB * outcome Z :=
  match firstSector r with
  | None => writeFromFull lbm r data
  | Some p =>
      let off := Z.to_nat (resLocation r mod sectorSizeBytes lbm) in
      let copied := Nat.min (Z.to_nat (sectorSizeBytes lbm) - off) (length data) in
      let '(lbm, res) := writeSharedSector lbm p off data (firstSectorIndex r) in
      match res with
      | Ok _ => writeFromFull lbm r (drop copied data)
      | Err e => (lbm, Err e)
      | Panic => (lbm, Panic)
      end
  end.

Definition blockDevice_Put (lbm : BDB) (data : list Z) : BDB * outcome Z :=
  if (sectorSizeBytes lbm =? 0) || (sectorCount lbm =? 0) then (lbm, Panic) else
  let '(lbm, r) := putReserve lbm (zlen data) in
  putWrite lbm r data.

#[global] Instance blockDevice_LocationBlobMap : LocationBlobMap BDB := {
  LBM_Get := blockDevice_Get;
  LBM_Put := blockDevice_Put;
  GetNextPutLocation := nextLocation;
}.
End block_device_backed.

(** ** The contract *)

(** A map is a log of which the last [span] bytes are kept.  [lb_holds b l d]
    says that the log has the bytes [d] at location [l]. *)
Class LocationBlobMapLaws (B : Type) `{!LocationBlobMap B} (span : Z) := {
  lb_inv : B -> Prop;
  lb_holds : B -> Z -> list Z -> Prop;
  lb_next_range b : lb_inv b -> 0 <= GetNextPutLocation b < 2 ^ 64;
  lb_Get_holds b l d :
    lb_inv b -> lb_holds b l d -> LBM_Get b l (zlen d) = Ok d;
  lb_Put_holds b d :
    lb_inv b -> 0 < zlen d <= span -> GetNextPutLocation b + zlen d < 2 ^ 64 ->
    exists b', LBM_Put b d = (b', Ok (GetNextPutLocation b)) /\ lb_inv b' /\
      GetNextPutLocation b' = GetNextPutLocation b + zlen d /\
      lb_holds b' (GetNextPutLocation b) d /\
      forall l d', lb_holds b l d' -> GetNextPutLocation b' - span <= l -> lb_holds b' l d';
}.

(** ** The in-memory map is a log *)

Lemma allocateLocation_fits next size :
  0 <= next -> 0 <= size -> next + size < 2 ^ 64 ->
  allocateLocation next size = (next, next + size).
Proof.
  intros Hn Hs Hfit. unfold allocateLocation, u64. rewrite (Z.mod_small size) by lia.
  by rewrite Z.div_small, Z.mod_small by lia.
Qed.

Lemma imPutLoop_write fuel mem data v :
  0 < zlen mem -> (length data <= fuel)%nat -> zlen data <= zlen mem ->
  exists mem', imPutLoop fuel mem data (v mod zlen mem) = Ok mem' /\ ring_write mem mem' v data.
Proof.
  revert mem data v. induction fuel as [|fuel IH]; intros mem data v Hm Hfuel Hfit.
  { destruct data; [|simpl in Hfuel; lia]. exists mem. split; [done|apply ring_write_nil]. }
  pose proof (Z.mod_pos_bound v (zlen mem) Hm) as Hoff.
  destruct data as [|b data0]; [exists mem; split; [done|apply ring_write_nil]|].
  set (data := b :: data0) in *.
  assert (imPutLoop (S fuel) mem data (v mod zlen mem) =
    imPutLoop fuel (copy_at mem (Z.to_nat (v mod zlen mem)) data)
      (drop (Nat.min (length mem - Z.to_nat (v mod zlen mem)) (length data)) data) 0) as ->.
  { subst data. cbn [imPutLoop]. by destruct (Z.ltb_spec (zlen mem) (v mod zlen mem)); [lia|]. }
  set (n := Nat.min (length mem - Z.to_nat (v mod zlen mem)) (length data)).
  assert (1 <= n)%nat by (subst n data; unfold zlen in *; simpl; lia).
  rewrite copy_at_take by (unfold zlen in *; lia). fold n.
  assert (zlen (take n data) = Z.of_nat n) as Hn
    by (unfold zlen; rewrite length_take; subst n; lia).
  pose proof (ring_write_copy mem v (take n data) Hm) as Hw.
  specialize (Hw ltac:(rewrite Hn; unfold zlen in *; subst n; lia)).
  set (mem1 := copy_at mem (Z.to_nat (v mod zlen mem)) (take n data)) in *.
  pose proof (rw_length _ _ _ _ Hw) as Hl1.
  assert (zlen (drop n data) = zlen data - Z.of_nat n) as Hd
    by (unfold zlen; rewrite length_drop; subst n; lia).
  destruct (drop n data) as [|b1 rest] eqn:Erest.
  - exists mem1. split; [by destruct fuel|].
    rewrite <- (take_drop n data), Erest, app_nil_r. done.
  - assert ((v + Z.of_nat n) mod zlen mem = 0) as Hwrap.
    { change (zlen (b1 :: rest)) with (Z.of_nat (S (length rest))) in Hd.
      assert (v mod zlen mem + Z.of_nat n = zlen mem) as E by (subst n; unfold zlen in *; lia).
      rewrite <- Z.add_mod_idemp_l, E by lia. apply Z_mod_same_full. }
    destruct (IH mem1 (b1 :: rest) (v + Z.of_nat n)) as (mem2&E2&Hw2).
    { lia. }
    { rewrite <- Erest, length_drop. lia. }
    { lia. }
    rewrite Hl1, Hwrap in E2. exists mem2. split; [done|].
    rewrite <- (take_drop n data), Erest. eapply ring_write_app; [done|exact Hw| |lia].
    by rewrite Hn.
Qed.

Lemma imGetLoop_read fuel mem output rem v :
  0 < zlen mem -> 0 <= rem < Z.of_nat fuel ->
  imGetLoop fuel mem output rem (v mod zlen mem) (zlen mem - v mod zlen mem) =
  Ok (output ++ ring_read mem v rem).
Proof.
  revert output rem v. induction fuel as [|fuel IH]; intros output rem v Hm Hfuel; [lia|].
  pose proof (Z.mod_pos_bound v (zlen mem) Hm) as Hoff. cbn [imGetLoop].
  set (off := v mod zlen mem) in *.
  assert (forall n, 0 <= n -> off + n <= zlen mem ->
    (tail ← slice_from mem off; slice tail 0 n) = Ok (ring_read mem v n)) as Hslice.
  { intros n Hn Hfit. pose proof (ring_read_slice mem v n Hn Hm Hfit) as Hs.
    pose proof (length_ring_read mem v n Hn) as Hlen. fold off in Hs. revert Hs Hlen.
    generalize (ring_read mem v n). intros r (a&c&Emem&Ha&_)%slice_Ok Hlen.
    rewrite Emem, slice_from_app by done. by apply slice_prefix. }
  destruct (slice_from mem off) as [tail| |] eqn:Etail;
    [|by specialize (Hslice 0 ltac:(lia) ltac:(lia))..]. cbn [mbind outcome_bind] in *.
  destruct (Z.ltb_spec (zlen mem - off) rem) as [Hlt|Hge].
  - rewrite Hslice by lia. cbn [mbind outcome_bind].
    assert ((v + (zlen mem - off)) mod zlen mem = 0) as Hwrap.
    { rewrite <- Z.add_mod_idemp_l by lia. fold off.
      replace (off + (zlen mem - off)) with (zlen mem) by lia. apply Z_mod_same_full. }
    specialize (IH (output ++ ring_read mem v (zlen mem - off)) (rem - (zlen mem - off))
      (v + (zlen mem - off)) Hm ltac:(lia)).
    rewrite Hwrap, Z.sub_0_r in IH. rewrite IH, <- app_assoc.
    rewrite <- ring_read_app by lia. do 3 f_equal. lia.
  - by rewrite Hslice by lia.
Qed.

#[global] Instance inMemory_laws span : LocationBlobMapLaws inMemoryLocationBlobMap span.
Proof.
  refine {|
    lb_inv b := 0 < zlen (imData b) /\ span <= zlen (imData b) /\ 0 <= imNextLocation b < 2 ^ 64;
    lb_holds b l d := l + zlen d <= imNextLocation b /\ ring_read (imData b) l (zlen d) = d;
  |}.
  - by intros b (_&_&?).
  - intros b l d (Hm&_&_) [_ Hr]. simpl. unfold inMemory_Get.
    destruct (Z.eqb_spec (zlen (imData b)) 0); [lia|].
    rewrite imGetLoop_read by (unfold zlen in *; lia). by rewrite Hr.
  - intros b d (Hm&Hspan&Hn) Hd Hfit. simpl in *. unfold inMemory_Put.
    rewrite allocateLocation_fits by lia. simpl.
    destruct (Z.eqb_spec (zlen (imData b)) 0); [lia|].
    destruct (imPutLoop_write (length d) (imData b) d (imNextLocation b)) as (mem&->&Hw);
      [lia..|]. pose proof (rw_length _ _ _ _ Hw) as Hl.
    eexists. split; [done|]. simpl. split; [lia|]. split; [done|].
    split; [split; [lia|by eapply ring_write_read]|].
    intros l d' [Hlt Hr] Hlo. split; [lia|]. rewrite <- Hr at 2.
    by eapply ring_write_keeps; [lia|exact Hw|lia|].
Defined.

(** ** The block device backed map is a log *)

Section block_device_laws.
Context {D : Type} `{!BlockDevice D} (S C : Z) `{!BlockDeviceLaws D (S * C)}.
Hypothesis HS : 0 < S.
Hypothesis HC : 0 < C.
Hypothesis HSC : S * C < 2 ^ 63.
Abbreviation BDB := (blockDeviceBackedLocationBlobMap D).
Abbreviation contents b := (bd_contents (blockDevice b)).
Abbreviation N := (S * C).

Lemma device_size_pos : 0 < N.
Proof. lia. Qed.

Lemma i64_offset x : 0 <= x < N -> i64 x = x.
Proof. intros Hx. apply sext_id; [lia|]. change (2 ^ (64 - 1)) with (2 ^ 63). lia. Qed.

(** The offset of the sector that holds an aligned location. *)
Lemma sector_offset v :
  v mod S = 0 -> i64 (i64 (v / S mod C) * S) = v mod N /\ v mod N mod S = 0 /\
  v / S mod C * S = v mod N.
Proof.
  intros Hv. assert (v / S mod C * S = v mod N) as E.
  { rewrite <- Z.mul_mod_distr_r by lia. pose proof (Z.div_mod v S ltac:(lia)).
    f_equal; lia. }
  pose proof (Z.mod_pos_bound (v / S) C HC). pose proof (Z.mod_pos_bound v N device_size_pos).
  rewrite (i64_offset (v / S mod C)) by nia. rewrite E, i64_offset by lia.
  split; [done|]. split; [|done]. rewrite <- E. apply Z.mod_mul. lia.
Qed.

Lemma WriteAt_ring dev data v :
  v mod N + zlen data <= N ->
  exists dev', WriteAt dev data (v mod N) = (dev', Ok tt) /\
    ring_write (bd_contents dev) (bd_contents dev') v data.
Proof.
  intros Hfit. pose proof (Z.mod_pos_bound v N device_size_pos).
  destruct (bd_WriteAt dev data (v mod N)) as (dev'&Hw&Hc); [lia|lia|].
  exists dev'. split; [done|]. rewrite Hc.
  pose proof (ring_write_copy (bd_contents dev) v data) as Hcopy. rewrite bd_length in Hcopy.
  apply Hcopy; lia.
Qed.

Lemma bdGetLoop_read fuel dev output rem v :
  0 <= rem < Z.of_nat fuel ->
  bdGetLoop fuel dev N output rem (v mod N) (N - v mod N) =
  Ok (output ++ ring_read (bd_contents dev) v rem).
Proof.
  revert output rem v. induction fuel as [|fuel IH]; intros output rem v Hfuel; [lia|].
  pose proof (Z.mod_pos_bound v N device_size_pos) as Hoff. cbn [bdGetLoop].
  rewrite i64_offset by done. pose proof (bd_length dev) as Hlen.
  assert (forall n, 0 <= n -> v mod N + n <= N ->
    ReadAt dev (v mod N) n = Ok (ring_read (bd_contents dev) v n)) as Hread.
  { intros n Hn Hfit. rewrite bd_ReadAt by lia.
    pose proof (ring_read_slice (bd_contents dev) v n) as Hs. rewrite Hlen in Hs. apply Hs; lia. }
  destruct (Z.ltb_spec (N - v mod N) rem) as [Hlt|Hge].
  - rewrite Hread by lia. cbn [mbind outcome_bind].
    assert ((v + (N - v mod N)) mod N = 0) as Hwrap.
    { rewrite <- Z.add_mod_idemp_l by lia.
      replace (v mod N + (N - v mod N)) with N by lia. apply Z_mod_same_full. }
    specialize (IH (output ++ ring_read (bd_contents dev) v (N - v mod N)) (rem - (N - v mod N))
      (v + (N - v mod N)) ltac:(lia)).
    rewrite Hwrap, Z.sub_0_r in IH. rewrite IH, <- app_assoc.
    rewrite <- ring_read_app by lia. do 3 f_equal. lia.
  - by rewrite Hread by lia.
Qed.

(** Writing one shared sector. *)
Lemma writeSharedSector_ring (b : BDB) p off data v sec :
  sectorSizeBytes b = S -> sectorCount b = C -> sectors b !! p = Some sec -> zlen sec = S ->
  (off <= length sec)%nat -> v mod S = 0 ->
  exists dev, writeSharedSector b p off data (v / S mod C) =
    (mkBlockDeviceBacked dev S C (nextLocation b) (sharedSector b)
       (<[p := copy_at sec off data]> (sectors b)), Ok tt) /\
    ring_write (contents b) (bd_contents dev) v (copy_at sec off data).
Proof.
  intros ES EC Hp Hsec Hoff Hv. unfold writeSharedSector. rewrite Hp. simpl.
  destruct (sector_offset v Hv) as (Eoff&Hmod&Eidx). rewrite ES, Eoff.
  destruct (WriteAt_ring (blockDevice b) (copy_at sec off data) v) as (dev&->&Hw).
  { unfold zlen in *. rewrite length_copy_at by done. rewrite Hsec.
    pose proof (Z.mod_pos_bound (v / S) C HC). nia. }
  exists dev. split; [|done]. unfold setDevice. simpl. by rewrite ?ES, ?EC.
Qed.

(** Writing full sectors from an aligned location on. *)
Lemma writeFullSectors_ring fuel (b : BDB) data v :
  sectorSizeBytes b = S -> sectorCount b = C -> v mod S = 0 -> (length data <= fuel)%nat ->
  zlen data <= N ->
  exists dev full rest, writeFullSectors fuel b data (v / S mod C) = (setDevice b dev, Ok rest) /\
    data = full ++ rest /\ zlen rest < S /\ zlen full mod S = 0 /\
    ring_write (contents b) (bd_contents dev) v full.
Proof.
  revert b data v. induction fuel as [|fuel IH]; intros b data v ES EC Hv Hfuel Hfit.
  { destruct data; [|simpl in Hfuel; lia]. exists (blockDevice b), [], []. simpl.
    rewrite ES. change (zlen (@nil Z)) with 0. destruct (Z.ltb_spec 0 S); [|lia].
    destruct b. split; [done|]. split; [done|]. split; [lia|].
    split; [done|apply ring_write_nil]. }
  cbn [writeFullSectors]. rewrite ES, EC.
  destruct (Z.ltb_spec (zlen data) S) as [Hlt|Hge].
  { exists (blockDevice b), [], data. destruct b.
    split; [done|]. split; [done|]. split; [lia|]. split; [done|apply ring_write_nil]. }
  destruct (sector_offset v Hv) as (Eoff&_&Eidx).
  pose proof (Z.mod_pos_bound (v / S) C HC) as Hidx.
  set (cnt := Z.min (zlen data / S) (C - v / S mod C)).
  assert (1 <= zlen data / S) by (apply Z.div_le_lower_bound; lia).
  assert (zlen data / S * S <= zlen data) by (pose proof (Z.mul_div_le (zlen data) S HS); lia).
  assert (1 <= cnt /\ cnt * S <= zlen data /\ cnt <= C - v / S mod C) as (Hc1&Hc2&Hc3) by nia.
  assert (zlen (take (Z.to_nat (cnt * S)) data) = cnt * S) as Hpart
    by (unfold zlen in *; rewrite length_take; lia).
  assert (slice data 0 (cnt * S) = Ok (take (Z.to_nat (cnt * S)) data)) as ->.
  { rewrite <- (take_drop (Z.to_nat (cnt * S)) data) at 1. by apply slice_prefix. }
  rewrite Eoff.
  destruct (WriteAt_ring (blockDevice b) (take (Z.to_nat (cnt * S)) data) v) as (dev&->&Hw).
  { rewrite Hpart. nia. }
  set (data' := drop (Z.to_nat (cnt * S)) data).
  assert (zlen data' = zlen data - cnt * S) as Hd'
    by (subst data'; unfold zlen in *; rewrite length_drop; lia).
  assert ((v + cnt * S) mod S = 0) as Hv' by (rewrite Z.mod_add by lia; done).
  destruct (IH (setDevice b dev) data' (v + cnt * S) ES EC Hv') as (dev'&full&rest&E&Hsplit&Hr&Hf&Hw').
  { unfold zlen in *. nia. }
  { lia. }
  assert (S <= zlen data' -> (v + cnt * S) / S mod C = 0) as Hwrap.
  { intros Hbig. assert (cnt = C - v / S mod C) as ->.
    { destruct (Z.min_spec (zlen data / S) (C - v / S mod C)) as [[_ Em]|[_ Em]]; [|done].
      unfold cnt in *. rewrite Em in *.
      pose proof (Z.mod_pos_bound (zlen data) S HS). pose proof (Z.div_mod (zlen data) S). lia. }
    rewrite Z.div_add by lia. rewrite <- Z.add_mod_idemp_l by lia.
    replace (v / S mod C + (C - v / S mod C)) with C by lia. apply Z_mod_same_full. }
  exists dev', (take (Z.to_nat (cnt * S)) data ++ full), rest.
  split; [|split; [|split; [done|split]]].
  - change (setDevice b dev') with (setDevice (setDevice b dev) dev'). rewrite <- E.
    destruct (Z.leb_spec S (zlen data')) as [Hbig|Hsmall].
    + by rewrite Hwrap.
    + destruct fuel; cbn [writeFullSectors setDevice sectorSizeBytes]; rewrite ES;
        destruct (Z.ltb_spec (zlen data') S); (done || lia).
  - rewrite <- app_assoc, <- Hsplit. subst data'. by rewrite take_drop.
  - unfold zlen in *. rewrite length_app, Nat2Z.inj_add, Hpart.
    rewrite Z.add_comm, Z.mod_add by lia. done.
  - eapply ring_write_app; [rewrite bd_length; lia|exact Hw|rewrite Hpart; exact Hw'|].
    rewrite bd_length, Hpart. assert (zlen full <= zlen data')
      by (rewrite Hsplit; unfold zlen; rewrite length_app; lia). lia.
Qed.

Lemma copy_at_zeros (rest : list Z) :
  zlen rest <= S ->
  copy_at (replicate (Z.to_nat S) 0) 0 rest = rest ++ replicate (Z.to_nat (S - zlen rest)) 0.
Proof.
  intros H. pose proof (copy_at_app [] (replicate (length rest) 0) rest
    (replicate (Z.to_nat (S - zlen rest)) 0) 0) as Hc. simpl in Hc.
  rewrite <- replicate_add in Hc. unfold zlen in *.
  replace (length rest + Z.to_nat (S - Z.of_nat (length rest)))%nat with (Z.to_nat S) in Hc by lia.
  apply Hc; [done|]. by rewrite length_replicate.
Qed.

(** The cases 2 to 4 of [Put], from an aligned location on. *)
Lemma writeFromFull_ring (b : BDB) r data v :
  sectorSizeBytes b = S -> sectorCount b = C -> v mod S = 0 -> zlen data <= N ->
  fullSectorIndex r = v / S mod C ->
  (zlen data mod S <> 0 -> exists p, lastSector r = Some p /\
     sectors b !! p = Some (replicate (Z.to_nat S) 0) /\
     lastSectorIndex r = (v + zlen data) / S mod C) ->
  exists dev secs pad,
    writeFromFull b r data =
      (mkBlockDeviceBacked dev S C (nextLocation b) (sharedSector b) secs, Ok (resLocation r)) /\
    ring_write (contents b) (bd_contents dev) v (data ++ pad) /\
    0 <= zlen pad < S /\ (zlen data + zlen pad) mod S = 0 /\
    (zlen data mod S <> 0 -> exists p sec, lastSector r = Some p /\ secs !! p = Some sec /\
       zlen sec = S /\ take (Z.to_nat (zlen data mod S)) sec =
         ring_read (bd_contents dev) (v + zlen data - zlen data mod S) (zlen data mod S)).
Proof.
  intros ES EC Hv Hfit Hfull Hlast. unfold writeFromFull. rewrite Hfull.
  destruct (writeFullSectors_ring (length data) b data v ES EC Hv ltac:(lia) Hfit)
    as (dev&full&rest&->&Hsplit&Hrest&Hmod&Hw).
  unfold writeTrailing. rewrite Z.gtb_ltb.
  assert (zlen data = zlen full + zlen rest) as Hlen
    by (rewrite Hsplit; unfold zlen; rewrite length_app; lia).
  assert (0 <= zlen rest) by (unfold zlen; lia). assert (0 <= zlen full) by (unfold zlen; lia).
  assert (zlen data mod S = zlen rest) as Hdm.
  { rewrite Hlen, <- Z.add_mod_idemp_l, Hmod by lia. apply Z.mod_small. lia. }
  rewrite Hdm in *. destruct (Z.ltb_spec 0 (zlen rest)) as [Hpos|Hnone].
  - destruct (Hlast ltac:(lia)) as (p&->&Hp&Hidx).
    assert ((v + zlen full) mod S = 0) as Hv4.
    { rewrite <- Z.add_mod_idemp_l, Hv by lia. done. }
    assert (lastSectorIndex r = (v + zlen full) / S mod C) as ->.
    { rewrite Hidx, Hlen, Z.add_assoc. f_equal.
      assert (v + zlen full = (v + zlen full) / S * S) as E
        by (pose proof (Z.div_mod (v + zlen full) S); lia).
      rewrite E at 1. rewrite Z.div_add_l, (Z.div_small (zlen rest)) by lia. lia. }
    set (sec := replicate (Z.to_nat S) 0) in *.
    destruct (writeSharedSector_ring (setDevice b dev) p 0 rest (v + zlen full) sec)
      as (dev'&->&Hw'); [done|done|done| |lia|done|].
    { unfold zlen, sec. rewrite length_replicate. lia. }
    subst sec. rewrite copy_at_zeros in * by lia. set (pad := replicate (Z.to_nat (S - zlen rest)) 0) in *.
    assert (zlen pad = S - zlen rest) as Hpad
      by (unfold pad, zlen in *; rewrite length_replicate; lia).
    assert (ring_write (contents b) (bd_contents dev') v (full ++ rest ++ pad)) as Hw2.
    { eapply ring_write_app; [rewrite bd_length; lia|exact Hw|exact Hw'|].
      rewrite bd_length. assert (zlen (rest ++ pad) = S) as ->
        by (unfold zlen in *; rewrite length_app; lia).
      assert (zlen full = S * (zlen full / S)) as Ef by (pose proof (Z.div_mod (zlen full) S); lia).
      assert (zlen full / S < C) by nia. nia. }
    eexists dev', _, pad. split; [reflexivity|]. rewrite Hsplit, <- app_assoc.
    split; [exact Hw2|]. split; [lia|]. split.
    { unfold zlen in *. rewrite length_app, Nat2Z.inj_add, Hpad.
      replace (_ + _ + _) with (Z.of_nat (length full) + 1 * S) by lia.
      by rewrite Z.mod_add by lia. }
    intros _. eexists p, _. split; [done|]. split.
    { apply list_lookup_insert_eq. by eapply lookup_lt_Some. }
    split; [unfold zlen in *; rewrite length_app; lia|].
    rewrite take_app_length' by (unfold zlen; lia).
    rewrite <- Hsplit, Hlen. replace (v + (zlen full + zlen rest) - zlen rest) with (v + zlen full) by lia.
    symmetry. by eapply ring_write_read_part.
  - assert (rest = []) as -> by (destruct rest; [done|unfold zlen in *; simpl in *; lia]).
    exists dev, (sectors b), []. rewrite app_nil_r in *. subst full.
    split; [unfold setDevice; by rewrite ES, EC|]. split; [done|].
    change (zlen (@nil Z)) with 0. rewrite Z.add_0_r. split; [lia|]. split; [done|lia].
Qed.

(** The part of the last sector that has been written is both on the device
    and in the shared sector. *)
Definition shared_ok (b : BDB) : Prop :=
  nextLocation b mod S <> 0 ->
  exists p sec, sharedSector b = Some p /\ sectors b !! p = Some sec /\ zlen sec = S /\
    take (Z.to_nat (nextLocation b mod S)) sec =
    ring_read (contents b) (nextLocation b - nextLocation b mod S) (nextLocation b mod S).

Definition bd_inv (b : BDB) : Prop :=
  sectorSizeBytes b = S /\ sectorCount b = C /\ 0 <= nextLocation b < 2 ^ 64 /\ shared_ok b.

(** What a [Put] does: the data is written behind the part of the first sector
    that is in use already, and the last sector is padded. *)
Definition put_done (b b' : BDB) (data : list Z) : Prop :=
  let off := nextLocation b mod S in
  bd_inv b' /\ nextLocation b' = nextLocation b + zlen data /\
  exists pad, 0 <= zlen pad < S /\
    ring_write (contents b) (contents b') (nextLocation b - off)
      (ring_read (contents b) (nextLocation b - off) off ++ data ++ pad).

Lemma Put_aligned (b : BDB) data :
  bd_inv b -> nextLocation b mod S = 0 -> 0 < zlen data <= N - S ->
  nextLocation b + zlen data < 2 ^ 64 ->
  exists b', blockDevice_Put b data = (b', Ok (nextLocation b)) /\ put_done b b' data.
Proof.
  intros (ES&EC&Hn&_) Hal Hd Hfit. unfold blockDevice_Put, putReserve. rewrite ES, EC.
  destruct (Z.eqb_spec S 0); [lia|]. destruct (Z.eqb_spec C 0); [lia|]. cbn [orb].
  rewrite allocateLocation_fits by lia. rewrite Hal. cbn [Z.eqb].
  set (v := nextLocation b) in *.
  assert ((v + zlen data) mod S = zlen data mod S) as Emod
    by (rewrite <- Z.add_mod_idemp_l, Hal by lia; done).
  assert (forall b1 r, sectorSizeBytes b1 = S -> sectorCount b1 = C ->
    nextLocation b1 = v + zlen data -> blockDevice b1 = blockDevice b -> firstSector r = None ->
    resLocation r = v -> fullSectorIndex r = v / S mod C ->
    lastSector r = sharedSector b1 ->
    (zlen data mod S <> 0 -> exists p, lastSector r = Some p /\
       sectors b1 !! p = Some (replicate (Z.to_nat S) 0) /\
       lastSectorIndex r = (v + zlen data) / S mod C) ->
    exists b', putWrite b1 r data = (b', Ok v) /\ put_done b b' data) as Hmain.
  { intros b1 r ES1 EC1 En1 Ed1 Efirst Eloc Efull Elast Hlast. unfold putWrite. rewrite Efirst.
    destruct (writeFromFull_ring b1 r data v ES1 EC1 Hal ltac:(lia) Efull Hlast)
      as (dev&secs&pad&->&Hw&Hpad&_&Hsec). rewrite Eloc.
    eexists. split; [done|]. unfold put_done. fold v. rewrite Hal, Z.sub_0_r.
    split; [|split; [done|]].
    - split; [done|]. split; [done|]. simpl. rewrite En1. split; [lia|].
      intros Hne. simpl in Hne |- *. rewrite Emod in Hne |- *. destruct (Hsec Hne) as (p&sec&Hp&Hl&Hs&Ht).
      exists p, sec. split; [congruence|]. split; [done|]. split; [done|].
      rewrite Ht. done.
    - exists pad. split; [done|]. rewrite <- Ed1. simpl. exact Hw. }
  destruct (Z.eqb_spec ((v + zlen data) mod S) 0) as [E|E].
  - apply Hmain; simpl; try done. intros Hne. lia.
  - cbn [orb]. apply Hmain; simpl; try done. intros Hne.
    exists (length (sectors b)). split; [done|]. split; [|done].
    by rewrite list_lookup_middle.
Qed.

Lemma writeFromFull_nil (b : BDB) r :
  sectorSizeBytes b = S -> writeFromFull b r [] = (b, Ok (resLocation r)).
Proof.
  intros ES. unfold writeFromFull. simpl. rewrite ES. change (zlen (@nil Z)) with 0.
  by destruct (Z.ltb_spec 0 S); [|lia].
Qed.

(** Adding to a partially written sector. *)
Lemma copy_at_sector (sec data : list Z) off :
  zlen sec = S -> 0 <= off <= S ->
  copy_at sec (Z.to_nat off) data =
  take (Z.to_nat off) sec ++ take (Nat.min (Z.to_nat (S - off)) (length data)) data ++
  drop (Z.to_nat off + length data) sec.
Proof.
  intros Hs Hoff. unfold copy_at. f_equal. f_equal. unfold zlen in Hs.
  destruct (decide (length data <= length sec - Z.to_nat off)%nat).
  - rewrite !take_ge by lia. done.
  - f_equal. lia.
Qed.

Lemma floor_range v : 0 <= v - v mod S <= v /\ v < v - v mod S + S /\ (v - v mod S) mod S = 0 \/ v < 0.
Proof.
  destruct (Z.ltb_spec v 0); [by right|left].
  pose proof (Z.mod_pos_bound v S HS). pose proof (Z.div_mod v S ltac:(lia)).
  pose proof (Z.div_pos v S ltac:(lia) HS). split; [nia|]. split; [lia|].
  replace (v - v mod S) with (v / S * S) by lia. apply Z.mod_mul. lia.
Qed.

Lemma floor_div v : v / S = (v - v mod S) / S.
Proof.
  pose proof (Z.div_mod v S ltac:(lia)). replace (v - v mod S) with (v / S * S) by lia.
  by rewrite Z.div_mul by lia.
Qed.

(** A write within a sector that is in use already. *)
Lemma Put_within_sector (b : BDB) data :
  bd_inv b -> nextLocation b mod S <> 0 -> 0 < zlen data <= S - nextLocation b mod S ->
  nextLocation b + zlen data < 2 ^ 64 ->
  exists b', blockDevice_Put b data = (b', Ok (nextLocation b)) /\ put_done b b' data.
Proof.
  intros (ES&EC&Hn&Hsh) Hal Hd Hfit. destruct (Hsh Hal) as (p&sec&Ep&Hp&Hs&Ht).
  unfold blockDevice_Put, putReserve. rewrite ES, EC.
  destruct (Z.eqb_spec S 0); [lia|]. destruct (Z.eqb_spec C 0); [lia|]. cbn [orb].
  rewrite allocateLocation_fits by lia. set (v := nextLocation b) in *.
  destruct (Z.eqb_spec (v mod S) 0) as [|_]; [done|]. rewrite Ep.
  destruct (floor_range v) as [(Hf1&Hf2&Hf3)|]; [|lia].
  pose proof (Z.mod_pos_bound v S HS) as Hoff.
  assert (forall b1 r, sectorSizeBytes b1 = S -> sectorCount b1 = C ->
    nextLocation b1 = v + zlen data -> blockDevice b1 = blockDevice b ->
    firstSector r = Some p -> firstSectorIndex r = v / S mod C -> resLocation r = v ->
    sectors b1 !! p = Some sec ->
    ((v + zlen data) mod S <> 0 -> sharedSector b1 = Some p) ->
    exists b', putWrite b1 r data = (b', Ok v) /\ put_done b b' data) as Hmain.
  { intros b1 r ES1 EC1 En1 Ed1 Efirst Eidx Eloc Hp1 Hsh1. unfold putWrite.
    rewrite Efirst, Eidx, Eloc, ES1, (floor_div v).
    destruct (writeSharedSector_ring b1 p (Z.to_nat (v mod S)) data (v - v mod S) sec)
      as (dev&->&Hw); [done|done|done|done|unfold zlen in *; lia|done|].
    rewrite drop_ge by (unfold zlen in *; lia). rewrite writeFromFull_nil by done. rewrite Eloc.
    rewrite copy_at_sector in * by lia. rewrite (take_ge data) in Hw by (unfold zlen in *; lia).
    rewrite Ht in Hw. rewrite Ed1 in Hw.
    eexists. split; [done|]. unfold put_done. fold v. split; [|split; [done|]].
    - split; [done|]. split; [done|]. simpl. rewrite En1. split; [lia|].
      intros Hne. simpl in Hne |- *.
      assert (v mod S + zlen data < S) as Hsmall.
      { destruct (Z.eqb_spec (v mod S + zlen data) S) as [E|]; [|lia].
        destruct Hne. rewrite <- Z.add_mod_idemp_l, E by lia. apply Z_mod_same_full. }
      assert ((v + zlen data) mod S = v mod S + zlen data) as ->
        by (rewrite <- Z.add_mod_idemp_l by lia; apply Z.mod_small; lia).
      eexists p, _. split; [by apply Hsh1|]. split.
      { apply list_lookup_insert_eq. by eapply lookup_lt_Some. }
      split. { unfold zlen in *. rewrite !length_app, !length_take, length_drop. lia. }
      replace (v + zlen data - (v mod S + zlen data)) with (v - v mod S) by lia.
      set (x := v mod S) in *. set (y := v - x) in *.
      pose proof (length_ring_read (contents b) y x ltac:(lia)) as Hl.
      rewrite Ht, (take_ge data) by (unfold zlen in *; lia).
      rewrite app_assoc, take_app_length' by (unfold zlen in *; rewrite length_app; lia).
      rewrite app_assoc in Hw. pose proof (ring_write_read_part (contents b) (bd_contents dev) y []
        (ring_read (contents b) y x ++ data) _ Hw) as Hpart.
      change (zlen (@nil Z)) with 0 in Hpart. rewrite Z.add_0_r in Hpart.
      replace (zlen (ring_read (contents b) y x ++ data)) with (x + zlen data) in Hpart
        by (unfold zlen in *; rewrite length_app; lia).
      by rewrite Hpart.
    - exists (drop (Z.to_nat (v mod S) + length data) sec). split; [|exact Hw].
      unfold zlen in *. rewrite length_drop. lia. }
  destruct (Z.eqb_spec ((v + zlen data) mod S) 0) as [E|E].
  - apply Hmain; simpl; done.
  - assert ((v + zlen data) / S = v / S) as ->.
    { rewrite (floor_div v). replace (v + zlen data) with ((v - v mod S) + (v mod S + zlen data)) by lia.
      assert (v - v mod S = (v - v mod S) / S * S) as E'
        by (pose proof (Z.div_mod (v - v mod S) S); lia).
      rewrite E' at 1. rewrite Z.div_add_l by lia. rewrite (Z.div_small (v mod S + _)); [lia|].
      split; [lia|]. destruct (Z.eqb_spec (v mod S + zlen data) S) as [E0|]; [|lia].
      destruct E. rewrite <- Z.add_mod_idemp_l, E0 by lia. apply Z_mod_same_full. }
    rewrite Z.eqb_refl. cbn [negb orb]. apply Hmain; simpl; done.
Qed.

(** Different sectors of one object have different indices. *)
Lemma sector_index_ne a b : a < b < a + C -> a mod C <> b mod C.
Proof.
  intros Hab E. pose proof (Z.div_mod a C ltac:(lia)) as Ha.
  pose proof (Z.div_mod b C ltac:(lia)) as Hb. rewrite E in Ha.
  assert (C * (b / C - a / C) = b - a) as Hd by lia.
  destruct (Z.leb_spec (b / C - a / C) 0); nia.
Qed.

(** A write that begins in a sector in use and ends beyond it. *)
Lemma Put_crossing (b : BDB) data :
  bd_inv b -> nextLocation b mod S <> 0 -> S - nextLocation b mod S < zlen data <= N - S ->
  nextLocation b + zlen data < 2 ^ 64 ->
  exists b', blockDevice_Put b data = (b', Ok (nextLocation b)) /\ put_done b b' data.
Proof.
  intros (ES&EC&Hn&Hsh) Hal Hd Hfit. destruct (Hsh Hal) as (p&sec&Ep&Hp&Hs&Ht).
  pose proof (Z.mod_pos_bound (nextLocation b) S HS) as Hoff.
  unfold blockDevice_Put, putReserve. rewrite ES, EC.
  destruct (Z.eqb_spec S 0); [lia|]. destruct (Z.eqb_spec C 0); [lia|]. cbn [orb].
  rewrite allocateLocation_fits by lia. set (v := nextLocation b) in *.
  destruct (Z.eqb_spec (v mod S) 0) as [|_]; [done|]. rewrite Ep.
  destruct (floor_range v) as [(Hf1&Hf2&Hf3)|]; [|lia].
  set (x := v mod S) in *. set (base := v - x) in *.
  set (copied := Nat.min (Z.to_nat S - Z.to_nat x) (length data)).
  assert (Z.of_nat copied = S - x) as Hcopied by (subst copied; unfold zlen in *; lia).
  assert (zlen (take copied data) = S - x) as Htake
    by (unfold zlen in *; rewrite length_take; subst copied; lia).
  assert (zlen (drop copied data) = zlen data - (S - x)) as Hdrop
    by (unfold zlen in *; rewrite length_drop; lia).
  assert ((base + S) mod S = 0) as Hv2
    by (rewrite <- Z.add_mod_idemp_l, Hf3 by lia; apply Z_mod_same_full).
  assert ((v + zlen data) mod S = zlen (drop copied data) mod S) as Emod.
  { replace (v + zlen data) with (base + S + zlen (drop copied data)) by lia.
    rewrite <- Z.add_mod_idemp_l, Hv2 by lia. done. }
  assert (forall b1 r, sectorSizeBytes b1 = S -> sectorCount b1 = C ->
    nextLocation b1 = v + zlen data -> blockDevice b1 = blockDevice b ->
    firstSector r = Some p -> firstSectorIndex r = v / S mod C -> resLocation r = v ->
    fullSectorIndex r = (v / S mod C + 1) mod C -> sectors b1 !! p = Some sec ->
    lastSector r = sharedSector b1 ->
    (zlen (drop copied data) mod S <> 0 -> exists q, lastSector r = Some q /\ q <> p /\
       sectors b1 !! q = Some (replicate (Z.to_nat S) 0) /\
       lastSectorIndex r = (v + zlen data) / S mod C) ->
    exists b', putWrite b1 r data = (b', Ok v) /\ put_done b b' data) as Hmain.
  { intros b1 r ES1 EC1 En1 Ed1 Efirst Eidx Eloc Efull Hp1 Elast Hlast. unfold putWrite.
    rewrite Efirst, Eidx, Eloc, ES1, (floor_div v). fold x base copied.
    destruct (writeSharedSector_ring b1 p (Z.to_nat x) data base sec)
      as (dev&->&Hw); [done|done|done|done|unfold zlen in *; lia|done|].
    rewrite copy_at_sector in * by lia.
    replace (Nat.min (Z.to_nat (S - x)) (length data)) with copied in *
      by (subst copied; unfold zlen in *; lia).
    rewrite (drop_ge sec) in * by (unfold zlen in *; lia). rewrite app_nil_r in *.
    rewrite Ht, Ed1 in Hw. set (b2 := mkBlockDeviceBacked dev _ _ _ _ _).
    pose proof (length_ring_read (contents b) base x ltac:(lia)) as Hl.
    destruct (writeFromFull_ring b2 r (drop copied data) (base + S))
      as (dev'&secs&pad&->&Hw2&Hpad&Hpm&Hsec); [done|done|done|lia| | |].
    { rewrite Efull, (floor_div v). fold x base. rewrite Z.add_mod_idemp_l by lia. f_equal.
      replace (base + S) with (base + 1 * S) by lia. by rewrite Z.div_add by lia. }
    { intros Hne. destruct (Hlast Hne) as (q&Hq&Hqp&Hl2&Hi2). exists q.
      split; [done|]. split; [simpl; by rewrite list_lookup_insert_ne by done|].
      rewrite Hi2. do 2 f_equal. lia. }
    rewrite Eloc. eexists. split; [done|]. unfold put_done. fold v x base.
    assert (ring_write (contents b) (bd_contents dev') base
      (ring_read (contents b) base x ++ data ++ pad)) as Hw3.
    { rewrite <- (take_drop copied data), <- !app_assoc, app_assoc.
      eapply ring_write_app; [rewrite bd_length; lia|exact Hw| |].
      - replace (zlen (ring_read (contents b) base x ++ take copied data)) with S
          by (unfold zlen in *; rewrite length_app; lia). exact Hw2.
      - rewrite bd_length. set (T := zlen (drop copied data) + zlen pad) in *.
        assert (T = S * (T / S)) as ET by (pose proof (Z.div_mod T S); lia).
        assert (T / S < C) by nia. unfold zlen in *. rewrite !length_app. nia. }
    split; [|split; [done|exists pad; by split]].
    split; [done|]. split; [done|]. simpl. rewrite En1. split; [lia|].
    intros Hne. simpl in Hne |- *. rewrite Emod in *. destruct (Hsec Hne) as (q&sec'&Hq&Hl'&Hs'&Ht').
    exists q, sec'. split; [congruence|]. split; [done|]. split; [done|].
    rewrite Ht'. f_equal. lia. }
  destruct (Z.eqb_spec ((v + zlen data) mod S) 0) as [E|E].
  - apply Hmain; simpl; try done. intros Hne. lia.
  - assert (v / S mod C <> (v + zlen data) / S mod C) as Hidx.
    { apply sector_index_ne. rewrite (floor_div v). fold x base.
      assert (base = base / S * S) as Eb by (pose proof (Z.div_mod base S); lia).
      split.
      - apply Z.lt_le_trans with (base / S + 1); [lia|]. apply Z.div_le_lower_bound; lia.
      - apply Z.div_lt_upper_bound; lia. }
    destruct (Z.eqb_spec (v / S mod C) ((v + zlen data) / S mod C)) as [|_]; [done|].
    cbn [negb orb]. apply Hmain; simpl; try done.
    + rewrite lookup_app_l; [done|]. by eapply lookup_lt_Some.
    + intros Hne. exists (length (sectors b)). split; [done|].
      split; [apply lookup_lt_Some in Hp; lia|]. split; [by rewrite list_lookup_middle|done].
Qed.

Lemma Put_done (b : BDB) data :
  bd_inv b -> 0 < zlen data <= N - S -> nextLocation b + zlen data < 2 ^ 64 ->
  exists b', blockDevice_Put b data = (b', Ok (nextLocation b)) /\ put_done b b' data.
Proof.
  intros Hb Hd Hfit. destruct (Z.eqb_spec (nextLocation b mod S) 0); [by apply Put_aligned|].
  destruct (Z.leb_spec (zlen data) (S - nextLocation b mod S)).
  - by apply Put_within_sector; [| |lia|].
  - by apply Put_crossing; [| |lia|].
Qed.

Lemma put_done_read (b b' : BDB) data :
  put_done b b' data ->
  ring_read (contents b') (nextLocation b) (zlen data) = data.
Proof.
  intros (_&_&pad&_&Hw). apply ring_write_read_part in Hw.
  rewrite length_ring_read in Hw by (apply Z.mod_pos_bound; lia).
  by replace (nextLocation b - nextLocation b mod S + nextLocation b mod S)
    with (nextLocation b) in Hw by lia.
Qed.

Lemma put_done_keeps (b b' : BDB) data l n :
  0 <= nextLocation b -> put_done b b' data -> 0 <= n -> l + n <= nextLocation b ->
  nextLocation b' - (N - S) <= l -> ring_read (contents b') l n = ring_read (contents b) l n.
Proof.
  intros Hpos (_&Hnext&pad&Hpad&Hw) Hn Hend Hlo. set (v := nextLocation b) in *.
  destruct (floor_range v) as [(Hf1&Hf2&Hf3)|]; [|lia].
  pose proof (Z.mod_pos_bound v S HS) as Hoff. set (x := v mod S) in *.
  pose proof (length_ring_read (contents b) (v - x) x ltac:(lia)) as Hl.
  pose proof (rw_length _ _ _ _ Hw) as Hlen. pose proof (bd_length (blockDevice b)) as HN.
  assert (0 < zlen (contents b)) as HN0 by lia.
  assert (zlen (ring_read (contents b) (v - x) x ++ data ++ pad) = x + zlen data + zlen pad) as Ht
    by (unfold zlen in *; rewrite !length_app; lia).
  destruct (Z.leb_spec l (v - x)) as [Hlow|Hhigh].
  - replace n with (Z.min n (v - x - l) + (n - Z.min n (v - x - l))) by lia.
    rewrite !ring_read_app by lia. f_equal.
    + eapply ring_write_keeps; [done|exact Hw|lia|lia].
    + destruct (Z.leb_spec n (v - x - l)); [rewrite Z.min_l, Z.sub_diag by lia; done|].
      rewrite Z.min_r by lia. replace (l + (v - x - l)) with (v - x) by lia.
      set (m := n - (v - x - l)).
      assert (ring_read (contents b') (v - x) x = ring_read (contents b) (v - x) x) as E.
      { pose proof (ring_write_read_part _ _ _ [] (ring_read (contents b) (v - x) x) _ Hw) as H'.
        change (zlen (@nil Z)) with 0 in H'. by rewrite Z.add_0_r, Hl in H'. }
      replace x with (m + (x - m)) in E at 2 4 by lia. rewrite !ring_read_app in E by lia.
      by apply app_inj_1 in E as [? _]; [|unfold ring_read; by rewrite !length_map].
  - assert (ring_read (contents b') (v - x) x = ring_read (contents b) (v - x) x) as E.
    { pose proof (ring_write_read_part _ _ _ [] (ring_read (contents b) (v - x) x) _ Hw) as H'.
      change (zlen (@nil Z)) with 0 in H'. by rewrite Z.add_0_r, Hl in H'. }
    apply ring_read_ext. intros i Hi.
    apply (f_equal (fun r => nth (Z.to_nat (l + i - (v - x))) r 0)) in E.
    rewrite !ring_read_lookup in E by lia.
    by replace (v - x + (l + i - (v - x))) with (l + i) in E by lia.
Qed.

Definition blockDevice_laws : LocationBlobMapLaws BDB (N - S).
Proof.
  refine {|
    lb_inv := bd_inv;
    lb_holds b l d := l + zlen d <= nextLocation b /\ ring_read (contents b) l (zlen d) = d;
  |}.
  - by intros b (_&_&?&_).
  - intros b l d (ES&EC&_) [_ Hr]. simpl. unfold blockDevice_Get. rewrite ES, EC.
    assert (S < 2 ^ 64 /\ C < 2 ^ 64) as [? ?] by nia.
    unfold u64. rewrite (Z.mod_small S), (Z.mod_small C), (Z.mod_small N) by lia.
    destruct (Z.eqb_spec N 0); [lia|].
    rewrite bdGetLoop_read by (unfold zlen; lia). by rewrite Hr.
  - intros b d Hb Hd Hfit. simpl in *. pose proof Hb as (_&_&Hn&_).
    destruct (Put_done b d Hb Hd Hfit) as (b'&->&Hp). exists b'. split; [done|].
    pose proof Hp as (Hb'&Hnext&_). split; [done|]. split; [done|].
    split; [split; [lia|by apply put_done_read]|].
    intros l d' [Hlt Hr] Hlo. split; [unfold zlen in *; lia|]. rewrite <- Hr at 2.
    apply (put_done_keeps b b' d); [lia|done|unfold zlen; lia|done|done].
Defined.
End block_device_laws.

(** ** Reading back, for every map that meets the contract *)

Definition totalSize (ds : list (list Z)) : Z := foldr (fun d n => zlen d + n) 0 ds.

Lemma totalSize_nonneg ds : 0 <= totalSize ds.
Proof. induction ds; simpl; [done|]. unfold zlen. lia. Qed.

Lemma sizes_bound ds span :
  Forall (fun d => 0 < zlen d) ds -> totalSize ds <= span ->
  Forall (fun d => 0 < zlen d <= span) ds.
Proof.
  induction 1 as [|d ds Hd _ IH]; intros Ht; constructor; simpl in Ht;
    pose proof (totalSize_nonneg ds); [unfold totalSize in *; lia|].
  apply IH. unfold totalSize in *. lia.
Qed.

Section log.
Context {B : Type} `{!LocationBlobMap B} (span : Z) `{!LocationBlobMapLaws B span}.

(** The state after a sequence of [Put] calls. *)
Fixpoint PutAll (b : B) (ds : list (list Z)) : B :=
  match ds with
  | [] => b
  | d :: ds => PutAll (fst (LBM_Put b d)) ds
  end.

Lemma PutAll_holds ds b l d :
  lb_inv b -> lb_holds b l d -> Forall (fun d' => 0 < zlen d' <= span) ds ->
  GetNextPutLocation b + totalSize ds < 2 ^ 64 ->
  GetNextPutLocation b + totalSize ds - span <= l ->
  lb_inv (PutAll b ds) /\ lb_holds (PutAll b ds) l d.
Proof.
  intros Hb Hh Hds. revert b Hb Hh. induction Hds as [|d' ds Hd' Hds IH]; intros b Hb Hh Hmax Hlo.
  { by split. }
  simpl in *. fold (totalSize ds) in *.
  pose proof (totalSize_nonneg ds) as Htot.
  destruct (lb_Put_holds b d' Hb Hd' ltac:(lia)) as (b'&->&Hb'&Hnext&_&Hkeep). simpl.
  apply IH; [done| |lia|lia]. apply Hkeep; [done|lia].
Qed.

(** A blob can be read back until [span] bytes have been written since its start. *)
Lemma Put_then_read b d ds :
  lb_inv b -> Forall (fun d' => 0 < zlen d' <= span) (d :: ds) ->
  totalSize (d :: ds) <= span -> GetNextPutLocation b + totalSize (d :: ds) < 2 ^ 64 ->
  exists b1, LBM_Put b d = (b1, Ok (GetNextPutLocation b)) /\
    LBM_Get (PutAll b1 ds) (GetNextPutLocation b) (zlen d) = Ok d.
Proof.
  intros Hb Hds Hspan Hmax. inversion Hds as [|?? Hd Hrest]; subst. simpl in *.
  fold (totalSize ds) in *. pose proof (totalSize_nonneg ds) as Htot.
  destruct (lb_Put_holds b d Hb Hd ltac:(lia)) as (b1&E&Hb1&Hnext&Hh&_).
  exists b1. split; [done|].
  destruct (PutAll_holds ds b1 (GetNextPutLocation b) d Hb1 Hh Hrest) as [Hb2 Hh2]; [lia|lia|].
  by apply lb_Get_holds.
Qed.
End log.

(** ** Properties *)

(** The in-memory map is a ring buffer: a blob is stored at the next
    location and is read back unchanged after any number of further writes, as
    long as no more bytes than the size of the array have been written since,
    however the blobs wrap around the end of the array. *)
Theorem inMemory_Put_then_Get b d ds :
  let size := zlen (imData b) in
  0 <= imNextLocation b -> Forall (fun d' => 0 < zlen d') (d :: ds) ->
  totalSize (d :: ds) <= size -> imNextLocation b + totalSize (d :: ds) < 2 ^ 64 ->
  exists b1, inMemory_Put b d = (b1, Ok (imNextLocation b)) /\
    inMemory_Get (PutAll b1 ds) (imNextLocation b) (zlen d) = Ok d.
Proof.
  intros size Hnext Hpos Htotal Hmax. pose proof (sizes_bound _ _ Hpos Htotal) as Hall.
  assert (lb_inv (span := size) b) as Hb.
  { simpl. inversion Hall; subst. pose proof (totalSize_nonneg (d :: ds)). lia. }
  exact (Put_then_read size b d ds Hb Hall Htotal Hmax).
Qed.

Lemma inMemory_Put_then_Get_witness :
  exists b1, inMemory_Put (mkInMemory [1; 2; 3; 4; 5] 3) [7; 8; 9] = (b1, Ok 3) /\
    inMemory_Get (PutAll b1 [[6]]) 3 3 = Ok [7; 8; 9].
Proof.
  apply (inMemory_Put_then_Get (mkInMemory [1; 2; 3; 4; 5] 3) [7; 8; 9] [[6]]); simpl; try lia.
  - repeat constructor.
  - unfold totalSize. simpl. unfold zlen. simpl. lia.
  - unfold totalSize. simpl. unfold zlen. simpl. lia.
Defined.

(** The block device backed map is the same ring buffer, with one sector
    less: although it only writes whole sectors, shares sectors between blobs
    and pads the last one, a blob is read back unchanged until more than the
    size of the device minus one sector has been written since its start. *)
Theorem blockDevice_Put_then_Get {D} `{!BlockDevice D} S C `{!BlockDeviceLaws D (S * C)}
    (b : blockDeviceBackedLocationBlobMap D) d ds :
  0 < S -> 0 < C -> S * C < 2 ^ 63 -> bd_inv S C b ->
  Forall (fun d' => 0 < zlen d') (d :: ds) -> totalSize (d :: ds) <= S * C - S ->
  nextLocation b + totalSize (d :: ds) < 2 ^ 64 ->
  exists b1, blockDevice_Put b d = (b1, Ok (nextLocation b)) /\
    blockDevice_Get (PutAll b1 ds) (nextLocation b) (zlen d) = Ok d.
Proof.
  intros HS HC HSC Hb Hpos Htotal Hmax. pose proof (sizes_bound _ _ Hpos Htotal) as Hall.
  exact (Put_then_read (S * C - S) (LocationBlobMapLaws0 := blockDevice_laws S C HS HC HSC)
    b d ds Hb Hall Htotal Hmax).
Qed.

(** A map that was just created meets the invariant, from any location. *)
Lemma NewBlockDeviceBacked_inv {D} `{!BlockDevice D} S C `{!BlockDeviceLaws D (S * C)} (dev : D) l :
  0 < S -> 0 <= l -> l + S <= 2 ^ 64 ->
  bd_inv S C (NewBlockDeviceBackedLocationBlobMap dev S C l) /\
  l <= nextLocation (NewBlockDeviceBackedLocationBlobMap dev S C l) < l + S.
Proof.
  intros HS Hl Hmax. unfold NewBlockDeviceBackedLocationBlobMap, bd_inv, shared_ok, u64. simpl.
  rewrite (Z.mod_small (l + S - 1)) by lia.
  pose proof (Z.div_mod (l + S - 1) S ltac:(lia)). pose proof (Z.mod_pos_bound (l + S - 1) S HS).
  rewrite Z.mod_small by nia. split; [|lia]. split; [done|]. split; [done|]. split; [nia|].
  rewrite Z.mod_mul by lia. done.
Qed.

Definition exampleDevice : sized_device 12 := exist _ (replicate 12 0) eq_refl.

Definition exampleBlobMap : blockDeviceBackedLocationBlobMap (sized_device 12) :=
  NewBlockDeviceBackedLocationBlobMap exampleDevice 4 3 9.

Lemma blockDevice_Put_then_Get_witness :
  exists b1, blockDevice_Put exampleBlobMap [1; 2; 3; 4; 5] = (b1, Ok 12) /\
    blockDevice_Get (PutAll b1 [[6; 7]]) 12 5 = Ok [1; 2; 3; 4; 5].
Proof.
  apply (blockDevice_Put_then_Get (D := sized_device 12) 4 3 exampleBlobMap [1; 2; 3; 4; 5] [[6; 7]]);
    try lia.
  - apply (NewBlockDeviceBacked_inv 4 3 exampleDevice 9); lia.
  - repeat constructor.
  - vm_compute. congruence.
  - by vm_compute.
Defined.
