(* ===== verification/RecordArrays.v ===== *)
(** * Record arrays of the reference-location map ([pkg/storage/object/local])

    The two backing stores of the hash table that maps flat references to
    locations.  Records carry the ID of the epoch in which they were written,
    and are suppressed when the epoch list does not consider them valid.

    - [in_memory_reference_location_record_array.go]
    - [block_device_backed_reference_location_record_array.go]

    Both are shown to satisfy [RecordArrayLaws], the contract of the hash map,
    for every epoch list that satisfies [EpochListLaws]. *)

From S2P Require Import Prelude BlockDevice LossyMap References EpochList.

(** ** [reference_location_map.go] *)

Abbreviation ReferenceLocationRecord := (MapRecord FlatReference Z).
Abbreviation ReferenceLocationRecordKey := (RecordKey FlatReference).

(** ** What record arrays rely on *)

Class EpochListLaws (E : Type) `{!EpochList E} := {
  el_inv : E -> Prop;
  el_current_found e st id :
    el_inv e -> GetCurrentEpochState e = Ok (st, id) ->
    GetEpochStateForEpochID e id = Some st /\ is_u32 id;
  el_current_last e st id st' id' :
    el_inv e -> GetCurrentEpochState e = Ok (st, id) -> GetEpochStateForEpochID e id' = Some st' ->
    MinimumLocation st' = MinimumLocation st /\ MaximumLocation st' <= MaximumLocation st;
  el_range e st id :
    el_inv e -> GetEpochStateForEpochID e id = Some st ->
    0 <= MinimumLocation st /\ MaximumLocation st < 2 ^ 64 /\ is_u64 (HashSeed st);
}.

(** ** [in_memory_reference_location_record_array.go] *)

Record inMemoryReferenceLocationRecord := mkInMemoryRecord {
  imEpochID : Z;
  imRecord : ReferenceLocationRecord;
}.

Record inMemoryReferenceLocationRecordArray := mkInMemoryArray {
  imRecords : list inMemoryReferenceLocationRecord;
}.

(** [FlatReference{}] *)
Definition zeroFlatReference : FlatReference := mkFlatReference (replicate 35 0).

Definition NewInMemoryReferenceLocationRecordArray (size : nat)
    : inMemoryReferenceLocationRecordArray :=
  mkInMemoryArray
    (replicate size (mkInMemoryRecord 0 (mkMapRecord (mkRecordKey zeroFlatReference 0) 0))).

Section in_memory.
Context {E : Type} `{!EpochList E}.

Definition inMemoryRecords_Get (lra : inMemoryReferenceLocationRecordArray) (i : Z) (resolver : E)
    : outcome ReferenceLocationRecord :=
  record ← index (imRecords lra) i;
  match GetEpochStateForEpochID resolver (imEpochID record) with
  | Some epochState =>
      if IsValidLocation epochState (Value (imRecord record))
           (FlatReference_GetSizeBytes (Key (recordKey (imRecord record))))
      then Ok (imRecord record) else Err ErrRecordInvalidOrExpired
  | None => Err ErrRecordInvalidOrExpired
  end.

Definition inMemoryRecords_Put (lra : inMemoryReferenceLocationRecordArray) (i : Z)
    (record : ReferenceLocationRecord) (resolver : E)
    : inMemoryReferenceLocationRecordArray * outcome unit :=
  match GetCurrentEpochState resolver with
  | Ok (epochState, epochID) =>
      if IsValidLocation epochState (Value record)
           (FlatReference_GetSizeBytes (Key (recordKey record)))
      then match index (imRecords lra) i with
           | Ok _ => (mkInMemoryArray (<[Z.to_nat i := mkInMemoryRecord epochID record]>
                        (imRecords lra)), Ok tt)
           | _ => (lra, Panic)
           end
      else (lra, Ok tt)
  | Err e => (lra, Err e)
  | Panic => (lra, Panic)
  end.

#[global] Instance inMemory_RecordArray
    : RecordArray inMemoryReferenceLocationRecordArray FlatReference Z E := {
  ra_Get := inMemoryRecords_Get;
  ra_Put := inMemoryRecords_Put;
}.
End in_memory.

(** ** [block_device_backed_reference_location_record_array.go] *)

Definition blockDeviceBackedReferenceLocationRecordSize : Z :=
  4 + SHA256V1FlatReferenceSizeBytes + 1 + 8 + 8.

Record blockDeviceBackedLocationRecordArray (D : Type) := mkDeviceArray { device : D }.
Arguments mkDeviceArray {D} _.
Arguments device {D} _.

(** [for i := 4; i < 4+35+1+8; i++ { h ^= record[i]; h *= 1099511628211 }] *)
Fixpoint fnv1a (bytes : list Z) (h : Z) : Z :=
  match bytes with
  | [] => h
  | b :: bytes => fnv1a bytes (u64 (Z.lxor h b * 1099511628211))
  end.

Definition computeChecksumForRecord (record : list Z) (h : Z) : Z :=
  fnv1a (take 44 (drop 4 record)) h.

Section block_device.
Context {E : Type} `{!EpochList E} {D : Type} `{!BlockDevice D}.

(** What [Get] does with the 56 bytes that it read. *)
Definition decodeRecord (record : list Z) (resolver : E) : outcome ReferenceLocationRecord :=
  let epochID := le_uint (take 4 record) in
  match GetEpochStateForEpochID resolver epochID with
  | None => Err ErrRecordInvalidOrExpired
  | Some epochState =>
      if negb (computeChecksumForRecord record (HashSeed epochState) =?
               le_uint (take 8 (drop 48 record)))
      then Err ErrRecordInvalidOrExpired else
      match NewFlatReference (take 35 (drop 4 record)) with
      | Panic => Panic
      | Err _ => Err ErrRecordInvalidOrExpired
      | Ok reference =>
          let location := le_uint (take 8 (drop 40 record)) in
          if negb (IsValidLocation epochState location (FlatReference_GetSizeBytes reference))
          then Err ErrRecordInvalidOrExpired
          else Ok (mkMapRecord (mkRecordKey reference (nth 39 record 0)) location)
      end
  end.

Definition deviceRecords_Get (lra : blockDeviceBackedLocationRecordArray D) (i : Z) (resolver : E)
    : outcome ReferenceLocationRecord :=
  record ← ReadAt (device lra) (i64 (i64 i * blockDeviceBackedReferenceLocationRecordSize))
    blockDeviceBackedReferenceLocationRecordSize;
  decodeRecord record resolver.

(** The 56 bytes that [Put] writes. *)
Definition encodeRecord (record : ReferenceLocationRecord) (epochState : EpochState) (epochID : Z)
    : list Z :=
  let raw := replicate 56 0 in
  let raw := copy_at raw 0 (le_bytes 4 epochID) in
  let raw := copy_at raw 4 (rawFlatReference (Key (recordKey record))) in
  let raw := <[39%nat := Attempt (recordKey record)]> raw in
  let raw := copy_at raw 40 (le_bytes 8 (Value record)) in
  copy_at raw 48 (le_bytes 8 (computeChecksumForRecord raw (HashSeed epochState))).

(** The check of the reference format cannot fail: there is only one. *)
Definition deviceRecords_Put (lra : blockDeviceBackedLocationRecordArray D) (i : Z)
    (record : ReferenceLocationRecord) (resolver : E)
    : blockDeviceBackedLocationRecordArray D * outcome unit :=
  match GetCurrentEpochState resolver with
  | Ok (epochState, epochID) =>
      if IsValidLocation epochState (Value record)
           (FlatReference_GetSizeBytes (Key (recordKey record)))
      then
        let '(dev, res) := WriteAt (device lra) (encodeRecord record epochState epochID)
          (i64 (i64 i * blockDeviceBackedReferenceLocationRecordSize)) in
        (mkDeviceArray dev, res)
      else (lra, Ok tt)
  | Err e => (lra, Err e)
  | Panic => (lra, Panic)
  end.

#[global] Instance blockDevice_RecordArray
    : RecordArray (blockDeviceBackedLocationRecordArray D) FlatReference Z E := {
  ra_Get := deviceRecords_Get;
  ra_Put := deviceRecords_Put;
}.
End block_device.

(** ** The arrays satisfy the contract of the hash map *)

Lemma IsValidLocation_mono st st' l s :
  0 <= MinimumLocation st -> MaximumLocation st < 2 ^ 64 ->
  MinimumLocation st' = MinimumLocation st -> MaximumLocation st' <= MaximumLocation st ->
  IsValidLocation st' l s = true -> IsValidLocation st l s = true.
Proof.
  intros Hmin Hmax Emin Emax. unfold IsValidLocation, sub_u64, u64. rewrite Emin, !Z.geb_leb.
  intros H. boolprop. rewrite (Z.mod_small (MaximumLocation st - l)) by lia.
  rewrite (Z.mod_small (MaximumLocation st' - l)) in * by lia. repeat case_bool; (done || lia).
Qed.

Lemma IsValidLocation_range st l s :
  0 <= MinimumLocation st -> MaximumLocation st < 2 ^ 64 -> IsValidLocation st l s = true ->
  is_u64 l /\ l < MaximumLocation st.
Proof.
  intros Hmin Hmax. unfold IsValidLocation, is_u64. rewrite !Z.geb_leb. intros H. boolprop. lia.
Qed.

Section in_memory_laws.
Context {E : Type} `{!EpochList E, !EpochListLaws E}.

Definition inMemoryView (a : inMemoryReferenceLocationRecordArray) (e : E) (i : Z)
    : option ReferenceLocationRecord :=
  match imRecords a !! Z.to_nat i with
  | Some record =>
      match GetEpochStateForEpochID e (imEpochID record) with
      | Some st => if IsValidLocation st (Value (imRecord record))
                        (FlatReference_GetSizeBytes (Key (recordKey (imRecord record))))
                   then Some (imRecord record) else None
      | None => None
      end
  | None => None
  end.

#[global] Instance inMemoryRecords_laws count :
  RecordArrayLaws inMemoryReferenceLocationRecordArray FlatReference Z E count.
Proof.
  refine {|
    ra_inv e a := el_inv e /\ zlen (imRecords a) = count /\
      Forall (fun r => 0 <= Attempt (recordKey (imRecord r)) < 2 ^ 8) (imRecords a);
    ra_view := inMemoryView;
    ra_writable e := exists st id, GetCurrentEpochState e = Ok (st, id);
    ra_valid e k v := forall st id, GetCurrentEpochState e = Ok (st, id) ->
      IsValidLocation st v (FlatReference_GetSizeBytes k) = true;
  |}; unfold inMemoryView.
  - intros a e i r (He&Hlen&Hall) Hi.
    destruct (imRecords a !! Z.to_nat i) as [record|] eqn:Ha; [|done].
    destruct (GetEpochStateForEpochID e (imEpochID record)) as [st|] eqn:Hst; [|done].
    destruct (IsValidLocation _ _ _) eqn:Hv; [|done]. intros [= <-]. split.
    + intros _ st' id Hcur. destruct (el_current_last e st' id st _ He Hcur Hst).
      destruct (el_current_found e st' id He Hcur) as [Hfound _].
      destruct (el_range e st' id He Hfound) as (?&?&_).
      by apply IsValidLocation_mono with st.
    + exact (Forall_lookup_1 _ _ _ _ Hall Ha).
  - intros a e i (He&Hlen&_) Hi. simpl. unfold inMemoryRecords_Get, index.
    destruct (Z.ltb_spec i 0); [lia|].
    destruct (imRecords a !! Z.to_nat i) as [record|] eqn:Ha; simpl.
    + destruct (GetEpochStateForEpochID _ _); [|done]. by destruct (IsValidLocation _ _ _).
    + apply lookup_ge_None in Ha. unfold zlen in Hlen. lia.
  - intros a e i r (He&Hlen&Hall) (st&id&Hcur) Hi Hatt Hv. simpl. unfold inMemoryRecords_Put, index.
    rewrite Hcur, (Hv st id Hcur). destruct (Z.ltb_spec i 0); [lia|].
    destruct (imRecords a !! Z.to_nat i) as [record|] eqn:Ha;
      [|apply lookup_ge_None in Ha; unfold zlen in Hlen; lia].
    eexists. split; [done|]. split.
    + split; [done|]. simpl. unfold zlen in *. rewrite length_insert. split; [done|]. by apply Forall_insert.
    + intros j Hj. unfold view_insert. simpl. case_decide as Hij.
      * subst j. rewrite list_lookup_insert_eq by (unfold zlen in Hlen; lia). simpl.
        destruct (el_current_found e st id He Hcur) as [-> _]. by rewrite (Hv st id Hcur).
      * by rewrite list_lookup_insert_ne by lia.
Defined.
End in_memory_laws.

(** A flat reference that [NewFlatReference] accepts. *)
Definition valid_flat (r : FlatReference) : Prop :=
  FlatReference_ok r /\ 1 <= FlatReference_GetSizeBytes r <= 2 ^ 21.

Lemma NewFlatReference_total raw :
  length raw = 35%nat -> bytes_ok raw ->
  (NewFlatReference raw = Ok (mkFlatReference raw) /\ valid_flat (mkFlatReference raw)) \/
  NewFlatReference raw = errInvalidArgument.
Proof.
  intros Hlen Hok. unfold NewFlatReference, zlen. rewrite Hlen.
  change (Z.of_nat 35 =? SHA256V1FlatReferenceSizeBytes) with true. cbn [negb].
  rewrite validateObjectSizeBytes_spec. case_decide; [left|by right]. by split.
Qed.

Lemma NewFlatReference_valid r :
  valid_flat r -> NewFlatReference (rawFlatReference r) = Ok r.
Proof.
  intros [[Hlen Hok] Hs]. unfold NewFlatReference, zlen. rewrite Hlen.
  change (Z.of_nat 35 =? SHA256V1FlatReferenceSizeBytes) with true. cbn [negb].
  destruct r as [raw]. simpl. rewrite validateObjectSizeBytes_spec.
  by rewrite decide_True by exact Hs.
Qed.

(** The layout of a serialized record. *)
Lemma encodeRecord_layout record st id :
  FlatReference_ok (Key (recordKey record)) ->
  let fields := rawFlatReference (Key (recordKey record)) ++ [Attempt (recordKey record)] ++
    le_bytes 8 (Value record) in
  encodeRecord record st id =
  le_bytes 4 id ++ fields ++ le_bytes 8 (fnv1a fields (HashSeed st)).
Proof.
  intros [Hlen _] fields. unfold encodeRecord.
  rewrite (copy_at_app [] (replicate 4 0) (le_bytes 4 id) (replicate 52 0)) by done. cbn [app].
  set (l4 := le_bytes 4 id). assert (length l4 = 4%nat) as H4 by apply length_le_bytes.
  change (replicate 52 0) with (replicate 35 0 ++ replicate 17 0).
  rewrite (copy_at_app l4 (replicate 35 0)) by (rewrite ?length_replicate; lia).
  set (k := rawFlatReference _) in *. change (replicate 17 0) with (0 :: replicate 16 0).
  rewrite !app_assoc. rewrite insert_app_r_alt by (rewrite length_app; lia).
  rewrite length_app, H4, Hlen. set (a := Attempt _).
  change (<[(39 - (4 + 35))%nat := a]> (0 :: replicate 16 0))
    with ([a] ++ replicate 8 0 ++ replicate 8 0).
  assert ((l4 ++ k) ++ [a] ++ replicate 8 0 ++ replicate 8 0 =
    (l4 ++ k ++ [a]) ++ replicate 8 0 ++ replicate 8 0) as -> by (by rewrite <- !app_assoc).
  rewrite copy_at_app by (rewrite ?length_le_bytes, ?length_app; simpl; lia).
  set (l8 := le_bytes 8 (Value record)).
  assert (length l8 = 8%nat) as H8 by apply length_le_bytes.
  assert ((l4 ++ k ++ [a]) ++ l8 ++ replicate 8 0 = l4 ++ fields ++ replicate 8 0) as ->.
  { subst fields. by rewrite <- !app_assoc. }
  assert (length fields = 44%nat) as Hf
    by (subst fields; rewrite !length_app; fold k l8; simpl; lia).
  assert (forall h, computeChecksumForRecord (l4 ++ fields ++ replicate 8 0) h = fnv1a fields h) as ->.
  { intros h. unfold computeChecksumForRecord. rewrite drop_app_length' by lia.
    by rewrite take_app_length' by lia. }
  rewrite (app_assoc l4), <- (app_nil_r (replicate 8 0)).
  rewrite (copy_at_app (l4 ++ fields)) by (rewrite ?length_app, ?length_le_bytes; simpl; lia).
  by rewrite app_nil_r, <- app_assoc.
Qed.

Section device_laws.
Context {E : Type} `{!EpochList E, !EpochListLaws E}.

Lemma length_encodeRecord record st id :
  FlatReference_ok (Key (recordKey record)) -> length (encodeRecord record st id) = 56%nat.
Proof.
  intros Hk. rewrite encodeRecord_layout by done. destruct Hk as [Hlen _].
  rewrite !length_app, !length_le_bytes, Hlen. reflexivity.
Qed.

Lemma encodeRecord_ok record st id :
  FlatReference_ok (Key (recordKey record)) -> 0 <= Attempt (recordKey record) < 2 ^ 8 ->
  bytes_ok (encodeRecord record st id).
Proof.
  intros Hk Ha. rewrite encodeRecord_layout by done. destruct Hk as [_ Hok].
  rewrite !bytes_ok_app. repeat split; auto with bonanza. by constructor.
Qed.

Lemma fnv1a_range bytes h : is_u64 h -> is_u64 (fnv1a bytes h).
Proof.
  revert h. induction bytes as [|b bytes IH]; intros h Hh; simpl; [done|].
  apply IH. unfold is_u64, u64. apply Z.mod_pos_bound. lia.
Qed.

(** A record that was written is read back, as long as its epoch is found with
    the same hash seed and the location is valid. *)
Lemma decodeRecord_encodeRecord record st st' id e :
  valid_flat (Key (recordKey record)) -> is_u64 (Value record) -> is_u32 id ->
  GetEpochStateForEpochID e id = Some st' -> HashSeed st' = HashSeed st -> is_u64 (HashSeed st) ->
  IsValidLocation st' (Value record) (FlatReference_GetSizeBytes (Key (recordKey record))) = true ->
  decodeRecord (encodeRecord record st id) e = Ok record.
Proof.
  intros Hk Hv Hid Hst Hseed Hs Hvalid. pose proof Hk as [Hok _].
  rewrite encodeRecord_layout by done.
  set (fields := rawFlatReference (Key (recordKey record)) ++ [Attempt (recordKey record)] ++
    le_bytes 8 (Value record)).
  pose proof Hok as [Hlen _]. unfold decodeRecord.
  assert (length fields = 44%nat) as Hf.
  { subst fields. rewrite !length_app, length_le_bytes, Hlen. reflexivity. }
  assert (le_uint (take 4 (le_bytes 4 id ++ fields ++ le_bytes 8 (fnv1a fields (HashSeed st)))) = id)
    as ->.
  { rewrite take_app_length' by (by rewrite length_le_bytes). rewrite le_uint_bytes. by apply Z.mod_small. }
  rewrite Hst. unfold computeChecksumForRecord.
  rewrite (drop_app_length' (le_bytes 4 id)) by by rewrite length_le_bytes.
  rewrite (take_app_length' fields) by done. rewrite Hseed.
  assert (drop 48 (le_bytes 4 id ++ fields ++ le_bytes 8 (fnv1a fields (HashSeed st))) =
    le_bytes 8 (fnv1a fields (HashSeed st))) as ->.
  { rewrite app_assoc, drop_app_length'; [done|]. rewrite length_app, length_le_bytes. lia. }
  rewrite take_ge by (rewrite length_le_bytes; lia). rewrite le_uint_bytes.
  rewrite (Z.mod_small (fnv1a _ _)) by (apply (fnv1a_range fields _ Hs)).
  rewrite Z.eqb_refl. cbn [negb].
  assert (take 35 (fields ++ le_bytes 8 (fnv1a fields (HashSeed st))) =
    rawFlatReference (Key (recordKey record))) as ->.
  { subst fields. rewrite <- !app_assoc. by apply take_app_length'. }
  rewrite NewFlatReference_valid by done.
  assert (le_uint (take 8 (drop 40 (le_bytes 4 id ++ fields ++ le_bytes 8 (fnv1a fields (HashSeed st)))))
    = Value record) as ->.
  { subst fields. rewrite <- !app_assoc, !app_assoc.
    rewrite <- (app_assoc _ (le_bytes 8 (Value record))).
    rewrite drop_app_length' by (rewrite !length_app, length_le_bytes, Hlen; reflexivity).
    rewrite take_app_length' by (by rewrite length_le_bytes). rewrite le_uint_bytes. by apply Z.mod_small. }
  rewrite Hvalid. cbn [negb].
  assert (nth 39 (le_bytes 4 id ++ fields ++ le_bytes 8 (fnv1a fields (HashSeed st))) 0 =
    Attempt (recordKey record)) as ->.
  { subst fields. rewrite app_nth2 by (rewrite length_le_bytes; lia). rewrite length_le_bytes.
    rewrite <- app_assoc, app_nth2 by lia. rewrite Hlen. reflexivity. }
  by destruct record as [[k a] v].
Qed.

(** What decoding accepts is a valid entry of an epoch that is found. *)
Lemma decodeRecord_Ok raw e record :
  length raw = 56%nat -> bytes_ok raw -> decodeRecord raw e = Ok record ->
  valid_flat (Key (recordKey record)) /\ 0 <= Attempt (recordKey record) < 2 ^ 8 /\
  exists st, GetEpochStateForEpochID e (le_uint (take 4 raw)) = Some st /\
    IsValidLocation st (Value record) (FlatReference_GetSizeBytes (Key (recordKey record))) = true.
Proof.
  intros Hlen Hok. unfold decodeRecord.
  destruct (GetEpochStateForEpochID e _) as [st|]; [|done].
  destruct (negb (_ =? _)); [done|].
  destruct (NewFlatReference_total (take 35 (drop 4 raw))) as [[-> Hk]| ->]; [| |..|done].
  { rewrite length_take, length_drop. lia. }
  { auto with bonanza. }
  destruct (IsValidLocation _ _ _) eqn:Hv; [|done]. intros [= <-]. simpl.
  split; [done|]. split; [|by exists st].
  destruct (lookup_lt_is_Some_2 raw 39) as [b Hb]; [lia|]. rewrite (nth_lookup_Some _ _ _ _ Hb).
  exact (bytes_ok_lookup _ _ _ Hok Hb).
Qed.

Lemma decodeRecord_no_panic raw e :
  length raw = 56%nat -> bytes_ok raw ->
  decodeRecord raw e = Err ErrRecordInvalidOrExpired \/ exists r, decodeRecord raw e = Ok r.
Proof.
  intros Hlen Hok. unfold decodeRecord.
  destruct (GetEpochStateForEpochID e _) as [st|]; [|by left].
  destruct (negb (_ =? _)); [by left|].
  destruct (NewFlatReference_total (take 35 (drop 4 raw))) as [[-> Hk]| ->]; [| |..|by left].
  { rewrite length_take, length_drop. lia. }
  { auto with bonanza. }
  destruct (IsValidLocation _ _ _); [by right; eexists|by left].
Qed.

Context {D : Type} `{!BlockDevice D} (size : Z) `{!BlockDeviceLaws D size}.
Hypothesis Hsize : size < 2 ^ 63.

(** The bytes of one slot. *)
Definition slotBytes (a : blockDeviceBackedLocationRecordArray D) (i : Z) : list Z :=
  take 56 (drop (Z.to_nat (i * 56)) (bd_contents (device a))).

Definition deviceView (a : blockDeviceBackedLocationRecordArray D) (e : E) (i : Z)
    : option ReferenceLocationRecord :=
  match decodeRecord (slotBytes a i) e with Ok r => Some r | _ => None end.

Lemma record_offset count i :
  count * 56 <= size -> 0 <= i < count ->
  i64 (i64 i * blockDeviceBackedReferenceLocationRecordSize) = i * 56 /\ 0 <= i * 56 /\
  i * 56 + 56 <= size.
Proof.
  intros Hc Hi. change blockDeviceBackedReferenceLocationRecordSize with 56.
  unfold i64. rewrite !sext_id; [lia|lia|change (64 - 1) with 63; lia|lia|].
  rewrite sext_id; change (64 - 1) with 63; lia.
Qed.

Lemma slotBytes_ok count a i :
  count * 56 <= size -> 0 <= i < count -> bytes_ok (bd_contents (device a)) ->
  length (slotBytes a i) = 56%nat /\ bytes_ok (slotBytes a i) /\
  slice (bd_contents (device a)) (i * 56) (i * 56 + 56) = Ok (slotBytes a i).
Proof.
  intros Hc Hi Hok. pose proof (bd_length (device a)) as Hl. unfold slotBytes.
  split; [rewrite length_take, length_drop; unfold zlen in *; lia|].
  split; [auto with bonanza|]. unfold slice. unfold zlen in Hl.
  destruct (Z.leb_spec 0 (i * 56)); [|lia]. destruct (Z.leb_spec (i * 56) (i * 56 + 56)); [|lia].
  destruct (Z.leb_spec (i * 56 + 56) (Z.of_nat (length (bd_contents (device a))))); [|lia].
  cbn [andb]. do 2 f_equal. lia.
Qed.

Definition deviceRecords_laws count (Hc : count * 56 <= size) :
  RecordArrayLaws (blockDeviceBackedLocationRecordArray D) FlatReference Z E count.
Proof.
  refine {|
    ra_inv e a := el_inv e /\ bytes_ok (bd_contents (device a));
    ra_view := deviceView;
    ra_writable e := exists st id, GetCurrentEpochState e = Ok (st, id);
    ra_valid e k v := valid_flat k /\ forall st id, GetCurrentEpochState e = Ok (st, id) ->
      IsValidLocation st v (FlatReference_GetSizeBytes k) = true;
  |}.
  - intros a e i r [He Hok] Hi. destruct (slotBytes_ok count a i Hc Hi Hok) as (Hl&Hb&_).
    unfold deviceView. destruct (decodeRecord _ _) as [r'| |] eqn:Hd; [|done|done].
    intros [= ->]. apply decodeRecord_Ok in Hd as (Hk&Ha&st&Hst&Hv); [|done|done].
    split; [|done]. intros _. split; [done|]. intros st' id Hcur.
    destruct (el_current_last e st' id st _ He Hcur Hst).
    destruct (el_current_found e st' id He Hcur) as [Hfound _].
    destruct (el_range e st' id He Hfound) as (?&?&_). by apply IsValidLocation_mono with st.
  - intros a e i [He Hok] Hi. simpl. unfold deviceRecords_Get.
    destruct (record_offset count i Hc Hi) as (->&Hlo&Hhi).
    destruct (slotBytes_ok count a i Hc Hi Hok) as (Hl&Hb&Hslice).
    change blockDeviceBackedReferenceLocationRecordSize with 56.
    rewrite bd_ReadAt by lia. rewrite Hslice. simpl. unfold deviceView.
    destruct (decodeRecord_no_panic (slotBytes a i) e Hl Hb) as [-> |(r&->)]; done.
  - intros a e i r [He Hok] (st&id&Hcur) Hi Ha [Hk Hv]. simpl. unfold deviceRecords_Put.
    rewrite Hcur, (Hv st id Hcur). destruct (record_offset count i Hc Hi) as (->&Hlo&Hhi).
    destruct (el_current_found e st id He Hcur) as [Hfound Hid].
    destruct (el_range e st id He Hfound) as (Hmin&Hmax&Hseed).
    pose proof (length_encodeRecord r st id (proj1 Hk)) as Hlen.
    destruct (bd_WriteAt (device a) (encodeRecord r st id) (i * 56)) as (dev&->&Hdev);
      [done|unfold zlen; lia|]. eexists. split; [done|].
    pose proof (bd_length (device a)) as Hl. unfold zlen in Hl. split.
    + split; [done|]. simpl. rewrite Hdev. apply bytes_ok_copy_at; [done|].
      apply encodeRecord_ok; [apply Hk|done].
    + intros j Hj. unfold view_insert, deviceView, slotBytes. simpl. rewrite Hdev.
      case_decide as Hij.
      * subst j. rewrite <- Hlen at 1. rewrite read_copy_same by lia.
        rewrite (decodeRecord_encodeRecord r st st id e); [done|done| |done|done|done|done|by apply (Hv st id)].
        exact (proj1 (IsValidLocation_range _ _ _ Hmin Hmax (Hv st id Hcur))).
      * by rewrite read_copy_other by lia.
Defined.
End device_laws.

(** ** The epoch lists keep the contract *)

Section epoch_list_laws.
Context {G : Type} `{!SingleThreadedGenerator G}.

Lemma lookup_lastMax (el : PersistentEpochList G) i e :
  epoch_inv el -> epochs el !! i = Some e ->
  maximumLocation e <= lastMax (minimumLocation el) (epochs el) < 2 ^ 64.
Proof.
  intros H He. pose proof (chain_lookup _ _ _ _ (inv_chain _ H) He).
  pose proof (lastMax_range el H). lia.
Qed.

#[global] Instance PersistentEpochList_laws : EpochListLaws (PersistentEpochList G).
Proof.
  refine {| el_inv el := epoch_inv el /\ zlen (epochs el) < 2 ^ 32 /\
              Forall (fun e => is_u64 (hashSeed e)) (epochs el) |}.
  - intros el st id (H&Hb&_). simpl. intros Hcur.
    assert (zlen (epochs el) = synchronizingEpochs el + 1) as Hlen.
    { unfold PEL_GetCurrentEpochState in Hcur.
      destruct (Z.eqb_spec (zlen (epochs el)) (synchronizingEpochs el + 1)); [done|].
      discriminate Hcur. }
    destruct (current_epoch el H Hlen Hb) as (seed&Hcur'&Hget). rewrite Hcur' in Hcur.
    injection Hcur as <- <-. split; [exact Hget|]. unfold is_u32, u32. apply Z.mod_pos_bound. lia.
  - intros el st id st' id' (H&Hb&_). simpl. intros Hcur Hget.
    assert (zlen (epochs el) = synchronizingEpochs el + 1) as Hlen.
    { unfold PEL_GetCurrentEpochState in Hcur.
      destruct (Z.eqb_spec (zlen (epochs el)) (synchronizingEpochs el + 1)); [done|].
      discriminate Hcur. }
    destruct (current_epoch el H Hlen Hb) as (seed&Hcur'&_). rewrite Hcur' in Hcur.
    injection Hcur as <- <-. unfold PEL_GetEpochStateForEpochID in Hget.
    destruct (_ >=? _); [done|]. destruct (epochs el !! _) as [e|] eqn:He; [|done].
    injection Hget as <-. simpl. split; [done|]. by eapply lookup_lastMax.
  - intros el st id (H&_&Hs). simpl. intros Hget. unfold PEL_GetEpochStateForEpochID in Hget.
    destruct (_ >=? _); [done|]. destruct (epochs el !! _) as [e|] eqn:He; [|done].
    injection Hget as <-. simpl. pose proof (inv_min _ H). pose proof (lookup_lastMax _ _ _ H He).
    split; [lia|]. split; [lia|]. exact (Forall_lookup_1 _ _ _ _ Hs He).
Defined.

#[global] Instance volatileEpochList_laws : EpochListLaws (volatileEpochList G).
Proof.
  refine {| el_inv el := is_u32 (vEpochID el) /\ 0 <= MinimumLocation (vEpochState el) /\
              MaximumLocation (vEpochState el) < 2 ^ 64 /\ is_u64 (HashSeed (vEpochState el)) |};
    simpl; unfold VEL_GetEpochStateForEpochID.
  - intros el st id (H&_). intros [= <- <-]. by rewrite Z.eqb_refl.
  - intros el st id st' id' _ [= <- <-]. destruct (id' =? vEpochID el); [|done]. by intros [= <-].
  - intros el st id (_&H). destruct (id =? vEpochID el); [|done]. by intros [= <-].
Defined.
End epoch_list_laws.

(** ** Writing and reading entries on storage *)

(** An entry that is written to the block device under the current epoch
    is read back unchanged (reference, attempt and location), its checksum
    being accepted, and no other slot of the array is affected. *)
Theorem deviceRecords_Put_then_Get {E D} `{!EpochList E, !EpochListLaws E, !BlockDevice D}
    (size : Z) `{!BlockDeviceLaws D size} count (a : blockDeviceBackedLocationRecordArray D) (e : E)
    i record st id :
  size < 2 ^ 63 -> count * blockDeviceBackedReferenceLocationRecordSize <= size ->
  el_inv e -> bytes_ok (bd_contents (device a)) -> 0 <= i < count ->
  0 <= Attempt (recordKey record) < 2 ^ 8 -> valid_flat (Key (recordKey record)) ->
  GetCurrentEpochState e = Ok (st, id) ->
  IsValidLocation st (Value record) (FlatReference_GetSizeBytes (Key (recordKey record))) = true ->
  exists a', deviceRecords_Put a i record e = (a', Ok tt) /\
    deviceRecords_Get a' i e = Ok record /\
    forall j, 0 <= j < count -> j <> i -> deviceRecords_Get a' j e = deviceRecords_Get a j e.
Proof.
  intros Hsize Hc He Hok Hi Ha Hk Hcur Hv.
  change blockDeviceBackedReferenceLocationRecordSize with 56 in Hc.
  set (L := deviceRecords_laws (E := E) size Hsize count Hc).
  assert (ra_inv (RecordArrayLaws := L) e a) as Hinv by (split; [exact He|exact Hok]).
  destruct (ra_Put_valid (RecordArrayLaws := L) a e i record) as (a'&HP&Hinv'&Hview).
  - exact Hinv.
  - exists st, id. exact Hcur.
  - exact Hi.
  - exact Ha.
  - split; [exact Hk|]. intros st' id' Hcur'. rewrite Hcur in Hcur'. by injection Hcur' as <- <-.
  - exists a'. split; [exact HP|].
    assert (forall j, 0 <= j < count -> deviceRecords_Get a' j e =
      match view_insert i record (ra_view (RecordArrayLaws := L) a e) j with
      | Some r => Ok r | None => Err ErrRecordInvalidOrExpired end) as HG.
    { intros j Hj. rewrite <- (Hview j Hj). exact (ra_Get_view (RecordArrayLaws := L) a' e j Hinv' Hj). }
    split; [by rewrite HG, view_insert_eq|].
    intros j Hj Hne. rewrite HG, view_insert_ne by done. symmetry.
    exact (ra_Get_view (RecordArrayLaws := L) a e j Hinv Hj).
Qed.

Lemma deviceRecords_Put_then_Get_witness :
  let e : volatileEpochList Z := mkVolatileEpochList 100 7 3 (mkEpochState 9 50 90) in
  let a := mkDeviceArray (exist _ (replicate 168 0) eq_refl : sized_device 168) in
  let record := mkMapRecord (mkRecordKey (mkFlatReference (replicate 32 5 ++ [16; 0; 0])) 2) 60 in
  exists a', deviceRecords_Put a 1 record e = (a', Ok tt) /\
    deviceRecords_Get a' 1 e = Ok record.
Proof.
  cbv zeta.
  set (e := mkVolatileEpochList 100 7 3 (mkEpochState 9 50 90) : volatileEpochList Z).
  set (a := mkDeviceArray (exist _ (replicate 168 0) eq_refl : sized_device 168)).
  set (record := mkMapRecord (mkRecordKey (mkFlatReference (replicate 32 5 ++ [16; 0; 0])) 2) 60).
  destruct (deviceRecords_Put_then_Get 168 3 a e 1 record (mkEpochState 9 50 90) 3)
    as (a'&HP&HG&_); [lia|reflexivity| | |lia|simpl; lia| |reflexivity|reflexivity|by exists a'].
  - unfold el_inv. simpl. unfold is_u32, is_u64. lia.
  - apply (Forall_replicate _ 168 0). by vm_compute.
  - split; [split|by vm_compute]; [reflexivity|]. subst record. simpl.
    repeat constructor; done.
Defined.
