(* ===== verification/ObjectStore.v ===== *)
(** * The interface of object stores

    [pkg/storage/object]: [downloader.go], [uploader.go] and [store.go].  A
    [Store] of the source is an interface that backends implement and
    decorators wrap.  Here it is a type class over a state, whose calls return
    the next state; contexts are left out.

    [ObjectStoreLaws] states what decorators may rely on.  A backend proves the
    laws from its own invariant, a decorator proves them from the laws of what
    it wraps, so that stacks of decorators are covered by instance resolution. *)

From S2P Require Import Prelude References.

(** ** [uploader.go] *)

Inductive UploadObjectResult (TLease : Type) :=
  | UploadObjectComplete (Lease : TLease)
  | UploadObjectIncomplete (contents : option Contents) (WantOutgoingReferencesLeases : list Z)
  | UploadObjectMissing.
Arguments UploadObjectComplete {TLease} _.
Arguments UploadObjectIncomplete {TLease} _ _.
Arguments UploadObjectMissing {TLease}.

(** ** [store.go] *)

Class ObjectStore (S TReference TLease : Type) := {
  os_DownloadObject : S -> TReference -> S * outcome Contents;
  os_UploadObject : S -> TReference -> option Contents -> list TLease -> bool ->
    S * outcome (UploadObjectResult TLease);
}.

(** ** [basic_reference.go] *)

(** [GetLocalReference], which flat references have as well. *)
Class ObjectReference (TReference : Type) := {
  or_GetLocalReference : TReference -> LocalReference;
}.

#[global] Instance LocalReference_ObjectReference : ObjectReference LocalReference :=
  {| or_GetLocalReference r := r |}.
#[global] Instance FlatReference_ObjectReference : ObjectReference FlatReference :=
  {| or_GetLocalReference := GetLocalReference |}.

(** What else the decorators use of [BasicReference]. *)
Class BasicReference (TReference : Type) := {
  br_GetRawReference : TReference -> list Z;
  br_Flatten : TReference -> FlatReference;
}.

#[global] Instance LocalReference_BasicReference : BasicReference LocalReference :=
  {| br_GetRawReference := rawReference; br_Flatten := Flatten |}.

(** Contents that validate under a reference. *)
Definition object_of {R} `{!ObjectReference R} (r : R) (c : Contents) : Prop :=
  bytes_ok (contentsData c) /\ NewContentsFromFullData (or_GetLocalReference r) (contentsData c) = Ok c.

(** [status.Code(err) == codes.NotFound] *)
Definition isNotFound (err : error) : bool :=
  match err with StatusError CodeNotFound => true | _ => false end.

(** The leases that a caller provides: none, or one for every child. *)
Definition leases_for {R L} `{!ObjectReference R} (r : R) (leases : list L) : Prop :=
  leases = [] \/ zlen leases = GetDegree (or_GetLocalReference r).

Lemma leases_for_nil {R L} `{!ObjectReference R} (r : R) : leases_for (L := L) r [].
Proof. by left. Qed.

Lemma leases_for_map {R L L'} `{!ObjectReference R} (f : L -> L') (r : R) leases :
  leases_for r leases -> leases_for r (map f leases).
Proof. intros [->|H]; [by left|right]. unfold zlen. by rewrite length_map. Qed.

#[export] Hint Resolve leases_for_nil leases_for_map : bonanza.

(** ** What a store promises *)

(** [os_inv n s]: the state is consistent, and calls that cost [n] in total can
    follow; a store that numbers what it writes does not last forever. *)
Class ObjectStoreLaws (S R L : Type) `{!ObjectReference R} `{!ObjectStore S R L} := {
  os_inv : Z -> S -> Prop;
  os_cost : R -> Z;
  (** References that the store can hold objects of. *)
  os_accepts : R -> Prop;
  (** The object is present. *)
  os_has : S -> R -> Prop;
  os_inv_mono n n' s : 0 <= n' <= n -> os_inv n s -> os_inv n' s;
  os_cost_nonneg r : os_accepts r -> 0 <= os_cost r;
  (** A download returns contents of the reference, or an error, which is
      NotFound only if the object is not present. *)
  os_Download n s r s' res :
    0 <= n -> os_inv (n + os_cost r) s -> os_accepts r -> os_DownloadObject s r = (s', res) ->
    os_inv n s' /\ res <> Panic /\
    (forall c, res = Ok c -> object_of r c /\ os_has s' r) /\
    (forall e, res = Err e -> isNotFound e = true -> ~ os_has s r);
  (** An upload with contents makes the object present; without contents the
      result tells whether it is. *)
  os_Upload n s r contents leases want s' res :
    0 <= n -> os_inv (n + os_cost r) s -> os_accepts r ->
    (forall c, contents = Some c -> object_of r c) -> leases_for r leases ->
    os_UploadObject s r contents leases want = (s', res) ->
    os_inv n s' /\ res <> Panic /\
    (forall e c, res = Err e -> contents = Some c -> isNotFound e = false) /\
    forall x, res = Ok x ->
      match x with
      | UploadObjectComplete _ => os_has s' r
      | UploadObjectIncomplete contents' _ =>
          os_has s' r /\ forall c, contents' = Some c -> object_of r c
      | UploadObjectMissing => contents = None
      end;
}.

Arguments os_inv {S R L _ _ ObjectStoreLaws} _ _ : rename.
Arguments os_cost S {R L _ _ ObjectStoreLaws} _ : rename.
Arguments os_accepts S {R L _ _ ObjectStoreLaws} _ : rename.
Arguments os_has {S R L _ _ ObjectStoreLaws} _ _ : rename.

(** Whether an upload left the object in the store. *)
Definition present {L} (x : UploadObjectResult L) : bool :=
  match x with UploadObjectMissing => false | _ => true end.
