(* ===== verification/LeaseMarshaling.v ===== *)
(** * Leases as byte slices

    [pkg/storage/object/leasemarshaling/uploader.go]: the interface
    [LeaseMarshaler], what marshalers promise, and the decorator that makes an
    uploader with native leases available with leases that are byte slices.

    [context.Context] is left out; [maximumLeaseSizeBytes] only determines the
    capacity of the slices that are allocated, and is kept as state. *)

From S2P Require Import Prelude References ObjectStore.

(** [LeaseMarshaler] *)
Class LeaseMarshaler (TLease : Type) := {
  MarshalLease : TLease -> list Z -> list Z;
  UnmarshalLease : list Z -> outcome TLease;
}.

(** [var unmarshaledLease TLease] *)
Class ZeroLease (TLease : Type) := zeroLease : TLease.

(** ** The decorator *)

Section uploader.
Context {S R TLease : Type} `{!ObjectStore S R TLease} `{!LeaseMarshaler TLease} `{!ZeroLease TLease}.

Record marshalingUploader := mkMarshalingUploader {
  lm_base : S;
  maximumLeaseSizeBytes : Z;
}.

(** The loop over [childrenLeases]: an empty slice stands for no lease. *)
Fixpoint unmarshalLeases (childrenLeases : list (list Z)) : outcome (list TLease) :=
  match childrenLeases with
  | [] => Ok []
  | marshaledLease :: childrenLeases =>
      unmarshaledLease ←
        (if zlen marshaledLease >? 0 then UnmarshalLease marshaledLease else Ok zeroLease);
      rest ← unmarshalLeases childrenLeases;
      Ok (unmarshaledLease :: rest)
  end.

Definition marshaling_UploadObject (u : marshalingUploader) (reference : R) (contents : option Contents)
    (childrenLeases : list (list Z)) (wantContentsIfIncomplete : bool)
    : marshalingUploader * outcome (UploadObjectResult (list Z)) :=
  match unmarshalLeases childrenLeases with
  | Err e => (u, Err e)
  | Panic => (u, Panic)
  | Ok unmarshaledChildrenLeases =>
      let '(b, result) := os_UploadObject (lm_base u) reference contents unmarshaledChildrenLeases
                            wantContentsIfIncomplete in
      match result with
      | Err e => (mkMarshalingUploader b (maximumLeaseSizeBytes u), Err e)
      | Panic => (mkMarshalingUploader b (maximumLeaseSizeBytes u), Panic)
      | Ok (UploadObjectComplete lease) =>
          let marshaledLease := MarshalLease lease [] in
          let l := zlen marshaledLease in
          let u := mkMarshalingUploader b
                     (if maximumLeaseSizeBytes u <? l then l else maximumLeaseSizeBytes u) in
          (u, Ok (UploadObjectComplete marshaledLease))
      | Ok (UploadObjectIncomplete contents want) =>
          (mkMarshalingUploader b (maximumLeaseSizeBytes u), Ok (UploadObjectIncomplete contents want))
      | Ok UploadObjectMissing =>
          (mkMarshalingUploader b (maximumLeaseSizeBytes u), Ok UploadObjectMissing)
      end
  end.
End uploader.
Arguments marshalingUploader S : clear implicits.

(** ** What marshalers promise *)

(** A marshaler appends bytes from which the lease is read back. *)
Class LeaseMarshalerLaws (L : Type) `{!LeaseMarshaler L} := {
  lease_valid : L -> Prop;
  lease_bytes : L -> list Z;
  lease_bytes_ok l : lease_valid l -> bytes_ok (lease_bytes l);
  lease_Marshal l dst : lease_valid l -> MarshalLease l dst = dst ++ lease_bytes l;
  lease_Unmarshal l : lease_valid l -> UnmarshalLease (lease_bytes l) = Ok l;
}.

(** Results with their leases marshaled. *)
Definition marshalResult {L} `{!LeaseMarshaler L} (x : UploadObjectResult L) : UploadObjectResult (list Z) :=
  match x with
  | UploadObjectComplete lease => UploadObjectComplete (MarshalLease lease [])
  | UploadObjectIncomplete contents want => UploadObjectIncomplete contents want
  | UploadObjectMissing => UploadObjectMissing
  end.

(** What a caller holds for a child: the bytes of a lease, or nothing. *)
Definition marshalOptional {L} `{!LeaseMarshaler L} (l : option L) : list Z :=
  match l with Some l => MarshalLease l [] | None => [] end.

Section laws.
Context {S R L : Type} `{!ObjectStore S R L} `{!LeaseMarshaler L} `{!ZeroLease L} `{!LeaseMarshalerLaws L}.

Lemma unmarshalLeases_marshaled (leases : list (option L)) :
  (forall l, Some l ∈ leases -> lease_valid l /\ lease_bytes l <> []) ->
  unmarshalLeases (map marshalOptional leases) = Ok (map (default zeroLease) leases).
Proof.
  induction leases as [|[l|] leases IH]; intros Hv; [done|..]; simpl.
  - destruct (Hv l) as [Hl Hne]; [by left|]. rewrite lease_Marshal, app_nil_l by done.
    assert ((zlen (lease_bytes l) >? 0) = true) as -> by (destruct (lease_bytes l); done).
    rewrite lease_Unmarshal by done. cbn [mbind outcome_bind].
    rewrite IH; [done|]. intros l' Hl'. apply Hv. by right.
  - cbn [mbind outcome_bind]. rewrite IH; [done|]. intros l' Hl'. apply Hv. by right.
Qed.

(** The decorator passes leases and results through. *)
Lemma marshaling_UploadObject_transparent (u : marshalingUploader S) (r : R) contents
    (leases : list (option L)) want :
  (forall l, Some l ∈ leases -> lease_valid l /\ lease_bytes l <> []) ->
  let '(u', res) := marshaling_UploadObject u r contents (map marshalOptional leases) want in
  let '(b, res') := os_UploadObject (lm_base u) r contents (map (default zeroLease) leases) want in
  lm_base u' = b /\ res = (x ← res'; Ok (marshalResult x)).
Proof.
  intros Hv. unfold marshaling_UploadObject. rewrite unmarshalLeases_marshaled by done.
  by destruct (os_UploadObject _ _ _ _ _) as [b [[| |]| |]].
Qed.
End laws.
