(* ===== verification/LocalStore.v ===== *)
(** * The local object store ([pkg/storage/object/local/store.go])

    The store combines the hash map of references to locations, the
    location-blob map and the epoch list.  Every call is modelled as one
    sequential step: locks are dropped, and the state is passed explicitly.

    - [configuration.go]: how the hash map hashes keys and compares values, and
      how the regions are sized;
    - [store.go]: [getObjectLocation], [readObjectAtLocation],
      [maybeWriteObject], [DownloadObject] and [UploadObject].

    The invariant [store_inv] says that the ring buffer, the epoch list and the
    hash map agree; it is the reason why a download returns what was uploaded. *)

From S2P Require Import Prelude LossyMap Sha256 References EpochList LocationBlobMap RecordArrays ObjectStore.

(** ** [configuration.go] *)

(** FNV-1a of the flat reference and of the attempt, which is a [uint8] that
    is shifted out in four rounds. *)
Fixpoint hashAttempt (rounds : nat) (attempt h : Z) : Z :=
  match rounds with
  | O => h
  | S rounds =>
      let h := u64 (Z.lxor h (Z.land attempt 0xff) * 1099511628211) in
      hashAttempt rounds (u8 (Z.shiftr attempt 8)) h
  end.

Definition referenceLocationHasher (hashInitialization : Z) (k : ReferenceLocationRecordKey) : Z :=
  hashAttempt 4 (Attempt k) (fnv1a (rawFlatReference (Key k)) hashInitialization).

(** The hash map that [NewStoreFromConfiguration] creates. *)
Definition newReferenceLocationMap (hashInitialization count getAttempts putAttempts : Z)
    : hashMap FlatReference Z :=
  mkHashMap count (referenceLocationHasher hashInitialization) cmp_Compare (u8 getAttempts)
    putAttempts.

(** The sizes of the current and new regions.  The ratios are [uint32], and
    their sum is computed at that width. *)
Definition regionSizes (maximumLocationSpan oldRatio currentRatio newRatio : Z)
    : outcome (Z * Z) :=
  if oldRatio <? 1 then Err (StatusError CodeInvalidArgument) else
  if currentRatio <? 1 then Err (StatusError CodeInvalidArgument) else
  if newRatio <? 1 then Err (StatusError CodeInvalidArgument) else
  let totalRatio := u32 (u32 (oldRatio + currentRatio) + newRatio) in
  if totalRatio =? 0 then Panic else
  Ok (u64 (maximumLocationSpan * currentRatio) / totalRatio,
      u64 (maximumLocationSpan * newRatio) / totalRatio).

(** ** [store.go] *)

Record store (A B E : Type) := mkStore {
  currentRegionSizeBytes : Z;
  newRegionSizeBytes : Z;
  referenceLocationMap : hashMap FlatReference Z;
  recordArray : A;
  locationBlobMap : B;
  epochList : E;
}.
Arguments mkStore {A B E} _ _ _ _ _ _.
Arguments currentRegionSizeBytes {A B E} _.
Arguments newRegionSizeBytes {A B E} _.
Arguments referenceLocationMap {A B E} _.
Arguments recordArray {A B E} _.
Arguments locationBlobMap {A B E} _.
Arguments epochList {A B E} _.

Section store.
Context {A B E : Type} `{!RecordArray A FlatReference Z E} `{!LocationBlobMap B} `{!EpochList E}.
Abbreviation Store := (store A B E).

Definition setRecordArray (s : Store) (a : A) : Store :=
  mkStore (currentRegionSizeBytes s) (newRegionSizeBytes s) (referenceLocationMap s) a
    (locationBlobMap s) (epochList s).

Definition setLocationBlobMap (s : Store) (b : B) : Store :=
  mkStore (currentRegionSizeBytes s) (newRegionSizeBytes s) (referenceLocationMap s)
    (recordArray s) b (epochList s).

Definition setEpochList (s : Store) (e : E) : Store :=
  mkStore (currentRegionSizeBytes s) (newRegionSizeBytes s) (referenceLocationMap s)
    (recordArray s) (locationBlobMap s) e.

(** The location, and whether the object needs to be refreshed. *)
Definition getObjectLocation (s : Store) (reference : FlatReference) : outcome (Z * bool) :=
  location ← hashMap_Get (referenceLocationMap s) (recordArray s) reference (epochList s);
  let distanceFromMaximum := i64 (GetNextPutLocation (locationBlobMap s) - location) in
  if currentRegionSizeBytes s =? 0 then Panic else
  let threshold := Z.lxor location (le_uint (take 8 (rawFlatReference reference)))
                   mod currentRegionSizeBytes s in
  let needsRefresh := distanceFromMaximum >? i64 (newRegionSizeBytes s + threshold) in
  Ok (location, needsRefresh).

Definition readObjectAtLocation (s : Store) (reference : FlatReference) (location : Z)
    : Store * outcome Contents :=
  let sizeBytes := FlatReference_GetSizeBytes reference in
  match LBM_Get (locationBlobMap s) location sizeBytes with
  | Ok data =>
      match NewContentsFromFullData (GetLocalReference reference) data with
      | Ok contents => (s, Ok contents)
      | Err _ =>
          let '(e, res) := DiscardUpToLocation (epochList s) (u64 (location + u64 sizeBytes)) in
          (setEpochList s e,
           match res with Panic => Panic | _ => Err (StatusError CodeNotFound) end)
      | Panic => (s, Panic)
      end
  | Err err => (s, Err err)
  | Panic => (s, Panic)
  end.

(** Allocating space, writing the data, and recording its location. *)
Definition writeObject (s : Store) (reference : FlatReference) (contents : Contents)
    : Store * outcome unit :=
  let data := GetFullData contents in
  let '(b, res) := LBM_Put (locationBlobMap s) data in
  let s := setLocationBlobMap s b in
  match res with
  | Ok location =>
      let '(e, res) := FinalizeWriteUpToLocation (epochList s) (u64 (location + zlen data)) in
      let s := setEpochList s e in
      match res with
      | Ok _ =>
          let '(a, res) := hashMap_Put (referenceLocationMap s) (recordArray s) reference location e in
          (setRecordArray s a, res)
      | err => (s, err)
      end
  | Err err => (s, Err err)
  | Panic => (s, Panic)
  end.

Definition maybeWriteObject (s : Store) (reference : FlatReference) (contents : Contents)
    : Store * outcome unit :=
  match index (rawFlatReference reference) 0 with
  | Ok _ =>
      match getObjectLocation s reference with
      | Err err => if isNotFound err then writeObject s reference contents else (s, Err err)
      | Ok (_, needsRefresh) =>
          if needsRefresh then writeObject s reference contents else (s, Ok tt)
      | Panic => (s, Panic)
      end
  | _ => (s, Panic)
  end.

Definition DownloadObject (s : Store) (reference : FlatReference) : Store * outcome Contents :=
  match getObjectLocation s reference with
  | Ok (location, needsRefresh) =>
      match readObjectAtLocation s reference location with
      | (s, Ok contents) =>
          if needsRefresh then
            match maybeWriteObject s reference contents with
            | (s, Ok _) => (s, Ok contents)
            | (s, Err err) => (s, Err err)
            | (s, Panic) => (s, Panic)
            end
          else (s, Ok contents)
      | (s, err) => (s, err)
      end
  | Err err => (s, Err err)
  | Panic => (s, Panic)
  end.

(** The result of a write, for the caller of [UploadObject]. *)
Definition uploadWritten (r : Store * outcome unit) : Store * outcome (UploadObjectResult unit) :=
  let '(s, res) := r in
  (s, match res with Ok _ => Ok (UploadObjectComplete tt) | Err err => Err err | Panic => Panic end).

Definition UploadObject (s : Store) (reference : FlatReference) (contents : option Contents)
    : Store * outcome (UploadObjectResult unit) :=
  match getObjectLocation s reference with
  | Err err =>
      if isNotFound err then
        match contents with
        | None => (s, Ok UploadObjectMissing)
        | Some contents => uploadWritten (maybeWriteObject s reference contents)
        end
      else (s, Err err)
  | Ok (location, true) =>
      match contents with
      | Some contents => uploadWritten (maybeWriteObject s reference contents)
      | None =>
          match readObjectAtLocation s reference location with
          | (s, Ok contents) => uploadWritten (maybeWriteObject s reference contents)
          | (s, Err err) =>
              if isNotFound err then (s, Ok UploadObjectMissing) else (s, Err err)
          | (s, Panic) => (s, Panic)
          end
      end
  | Ok (_, false) => (s, Ok (UploadObjectComplete tt))
  | Panic => (s, Panic)
  end.
End store.

(** ** What ties the components together *)

Lemma cmp_Compare_lt a b : cmp_Compare a b < 0 <-> a < b.
Proof. unfold cmp_Compare. destruct (Z.ltb_spec a b), (Z.ltb_spec b a); lia. Qed.

#[global] Instance cmp_Compare_AgeOrder : AgeOrder cmp_Compare.
Proof. split; intros *; unfold older; rewrite ?cmp_Compare_lt; lia. Qed.

#[global] Instance newReferenceLocationMap_AgeOrder h count ga pa :
  AgeOrder (valueComparator (newReferenceLocationMap h count ga pa)).
Proof. exact cmp_Compare_AgeOrder. Qed.

Lemma older_location h count ga pa a b :
  older (valueComparator (newReferenceLocationMap h count ga pa)) a b <-> a < b.
Proof. apply cmp_Compare_lt. Qed.

Lemma GetLocalReference_ok k : FlatReference_ok k -> LocalReference_ok (GetLocalReference k).
Proof.
  intros Hk. pose proof (rawReference_GetLocalReference k Hk) as E. destruct Hk as [Hlen Hok].
  split; rewrite E; [rewrite length_app, Hlen; reflexivity|]. apply bytes_ok_app.
  split; [done|]. apply Forall_replicate. unfold is_u8. lia.
Qed.

(** The size of a flat reference is that of the local reference it stands for. *)
Lemma flat_size k :
  FlatReference_ok k -> GetSizeBytes (GetLocalReference k) = FlatReference_GetSizeBytes k.
Proof.
  intros Hk. rewrite GetSizeBytes_take3 by auto using GetLocalReference_ok.
  rewrite rawReference_GetLocalReference by done. destruct Hk as [Hlen Hok].
  unfold FlatReference_GetSizeBytes. rewrite drop_app_le by lia.
  change (nth 32 (rawFlatReference k) 0) with (nth (32 + 0) (rawFlatReference k) 0).
  change (nth 33 (rawFlatReference k) 0) with (nth (32 + 1) (rawFlatReference k) 0).
  change (nth 34 (rawFlatReference k) 0) with (nth (32 + 2) (rawFlatReference k) 0).
  rewrite <- !nth_skipn.
  assert (length (drop 32 (rawFlatReference k)) = 3%nat) as Hd by (rewrite length_drop; lia).
  assert (bytes_ok (drop 32 (rawFlatReference k))) as Hb by auto with bonanza.
  destruct (drop 32 (rawFlatReference k)) as [|b0 [|b1 [|b2 [|]]]]; try done.
  inversion Hb as [|?? H0 Hb1]; subst. inversion Hb1 as [|?? H1 Hb2]; subst.
  inversion Hb2 as [|?? H2 _]; subst. unfold is_u8 in *.
  cbn [nth app take le_uint]. rewrite !Z.shiftl_mul_pow2 by lia.
  rewrite (lor_split_r 8 b0) by (rewrite ?Z_mod_mult; lia).
  rewrite (lor_split_r 16) by (rewrite ?Z_mod_mult; lia).
  rewrite take_0. simpl le_uint. lia.
Qed.

Lemma flat_size_range k : FlatReference_ok k -> 0 <= FlatReference_GetSizeBytes k < 2 ^ 24.
Proof.
  intros Hk. rewrite <- flat_size by done.
  apply (fields_range _ (GetLocalReference_ok k Hk)).
Qed.

Section invariant.
Context {G : Type} `{!SingleThreadedGenerator G}.
Context {B : Type} `{!LocationBlobMap B} (span : Z) `{!LocationBlobMapLaws B span}.
Context (hashInitialization count getAttempts putAttempts : Z).
Hypothesis Hcount : 0 < count.
Hypothesis Hget : 1 <= getAttempts < 2 ^ 8.
Hypothesis Hput : 1 <= putAttempts.
Hypothesis Hspan : 0 < span < 2 ^ 64.

Abbreviation E := (volatileEpochList G).
Abbreviation A := inMemoryReferenceLocationRecordArray.
Abbreviation Store := (store A B E).
Abbreviation m := (newReferenceLocationMap hashInitialization count getAttempts putAttempts).

Abbreviation low e := (MinimumLocation (vEpochState e)).
Abbreviation high e := (MaximumLocation (vEpochState e)).

(** The entries of a store that have not expired. *)
Definition live (s : Store) (k : FlatReference) (l : Z) : Prop :=
  stored m (inMemoryView (recordArray s) (epochList s)) k l.

(** A record of the current epoch lies before the end of the ring buffer. *)
Definition record_ended (e : E) (r : inMemoryReferenceLocationRecord) : Prop :=
  imEpochID r = vEpochID e ->
  let size := FlatReference_GetSizeBytes (Key (recordKey (imRecord r))) in
  1 <= size < 2 ^ 64 /\ 0 <= Value (imRecord r) /\ Value (imRecord r) + size <= high e.

(** The components agree on where the ring buffer starts and ends. *)
Record layout_inv (s : Store) : Prop := {
  li_map : referenceLocationMap s = m;
  li_region : 0 < currentRegionSizeBytes s;
  li_blobs : lb_inv (locationBlobMap s);
  li_span : vMaximumLocationSpan (epochList s) = span;
  li_epoch : el_inv (epochList s);
  li_next : high (epochList s) = GetNextPutLocation (locationBlobMap s);
  li_low : high (epochList s) - span <= low (epochList s) <= high (epochList s);
  li_count : zlen (imRecords (recordArray s)) = count;
  li_attempts : Forall (fun r => 0 <= Attempt (recordKey (imRecord r)) < 2 ^ 8)
    (imRecords (recordArray s));
  li_ended : Forall (record_ended (epochList s)) (imRecords (recordArray s));
  li_probe : probe_inv m (inMemoryView (recordArray s) (epochList s));
}.

(** The data is the object that the reference names. *)
Definition valid_object (k : FlatReference) (d : list Z) : Prop :=
  bytes_ok d /\ NewContentsFromFullData (GetLocalReference k) d = Ok (mkContents (GetLocalReference k) d).

(** The blob at the location is the object that the reference names. *)
Definition held (b : B) (k : FlatReference) (l : Z) : Prop :=
  exists d, lb_holds b l d /\ zlen d = FlatReference_GetSizeBytes k /\ valid_object k d.

Record store_inv (s : Store) : Prop := {
  si_layout : layout_inv s;
  si_held k l : live s k l -> held (locationBlobMap s) k l;
}.

Lemma inMemoryView_iff a (e : E) i r :
  inMemoryView a e i = Some r <->
  exists record, imRecords a !! Z.to_nat i = Some record /\ imRecord record = r /\
    imEpochID record = vEpochID e /\
    IsValidLocation (vEpochState e) (Value r) (FlatReference_GetSizeBytes (Key (recordKey r))) = true.
Proof.
  unfold inMemoryView. simpl. unfold VEL_GetEpochStateForEpochID. split.
  - destruct (imRecords a !! Z.to_nat i) as [record|]; [|done].
    destruct (Z.eqb_spec (imEpochID record) (vEpochID e)); [|done]. cbn [negb].
    destruct (IsValidLocation _ _ _) eqn:Hv; [|done]. intros [= <-]. by exists record.
  - intros (record&->&<-&->&Hv). rewrite Z.eqb_refl. cbn [negb]. by rewrite Hv.
Qed.

Lemma live_valid s k l :
  layout_inv s -> live s k l ->
  low (epochList s) <= l /\ l + FlatReference_GetSizeBytes k <= high (epochList s) /\
  1 <= FlatReference_GetSizeBytes k /\ 0 <= l.
Proof.
  intros H (i&r&Hi&Hr&<-&<-). apply inMemoryView_iff in Hr as (record&Hrec&<-&Hid&Hv).
  destruct (Forall_lookup_1 _ _ _ _ (li_ended s H) Hrec Hid) as (Hs&?&?).
  split; [|lia]. unfold IsValidLocation in Hv. rewrite Z.geb_leb in Hv. boolprop. lia.
Qed.

(** What [FinalizeWriteUpToLocation] and [DiscardUpToLocation] do to entries
    while locations do not wrap around: they expire oldest first. *)
Section expire.
Variables (a : A) (e e' : E).
Hypothesis Hended : Forall (record_ended e) (imRecords a).
Hypothesis Hid : vEpochID e' = vEpochID e.
Hypothesis Hlow : low e <= low e'.
Hypothesis Hhigh : high e <= high e' < 2 ^ 64.

Lemma view_expire i r :
  inMemoryView a e' i = Some r <-> inMemoryView a e i = Some r /\ low e' <= Value r.
Proof.
  rewrite !inMemoryView_iff, Hid. split.
  - intros (record&Hrec&<-&HID&Hv).
    destruct (Forall_lookup_1 _ _ _ _ Hended Hrec HID) as (?&?&?).
    apply IsValidLocation_iff in Hv; [|done|lia|done].
    split; [|lia]. exists record. split_and!; [done..|]. apply IsValidLocation_iff; [done|lia|done|lia].
  - intros [(record&Hrec&<-&HID&Hv) Hl].
    destruct (Forall_lookup_1 _ _ _ _ Hended Hrec HID) as (?&?&?).
    exists record. split_and!; [done..|]. apply IsValidLocation_iff; [done|lia|done|lia].
Qed.

Lemma probe_expire : probe_inv m (inMemoryView a e) -> probe_inv m (inMemoryView a e').
Proof.
  apply probe_inv_expire; [done| |].
  - intros j r _ Hr. by apply view_expire in Hr as [? _].
  - intros i j r r' _ _ Hr Hr' Hold. apply view_expire in Hr as [_ Hl]. apply view_expire.
    rewrite older_location in Hold. split; [done|lia].
Qed.

Lemma stored_expire k l :
  stored m (inMemoryView a e') k l <-> stored m (inMemoryView a e) k l /\ low e' <= l.
Proof.
  split.
  - intros (i&r&Hi&Hr&<-&<-). apply view_expire in Hr as [Hr Hl]. split; [|done]. by exists i, r.
  - intros [(i&r&Hi&Hr&<-&<-) Hl]. exists i, r. split; [done|]. split; [|done]. by apply view_expire.
Qed.

Lemma ended_expire : Forall (record_ended e') (imRecords a).
Proof.
  eapply Forall_impl; [exact Hended|]. intros r Hr HID. rewrite Hid in HID.
  destruct (Hr HID) as (?&?&?). lia.
Qed.
End expire.

(** [FinalizeWriteUpToLocation] when the ring buffer grows. *)
Lemma Finalize_grow (e : E) location :
  vMaximumLocationSpan e = span -> el_inv e -> high e - span <= low e <= high e ->
  high e < location < 2 ^ 64 -> location - high e < 2 ^ 63 ->
  exists e', VEL_FinalizeWriteUpToLocation e location = (e', Ok tt) /\
    vMaximumLocationSpan e' = span /\ vEpochID e' = vEpochID e /\ el_inv e' /\
    high e' = location /\ low e' = Z.max (low e) (location - span).
Proof.
  intros Hsp (Hid&Hlo&Hhi&Hseed) Hr Hl Hd. unfold VEL_FinalizeWriteUpToLocation.
  unfold i64. rewrite sext_id; [|lia|change (64 - 1) with 63; lia].
  destruct (Z.gtb_spec (location - high e) 0); [|lia].
  destruct (Z.ltb_spec location (high e)); [lia|]. eexists. split; [reflexivity|]. simpl.
  rewrite Hsp. unfold sub_u64, u64. rewrite Z.mod_small by lia.
  destruct (Z.gtb_spec (location - low e) span); simpl;
    [rewrite (Z.mod_small (location - span)) by lia|]; unfold is_u32, is_u64 in *;
    split_and!; (done || lia).
Qed.

Lemma getAttempts_range : 1 <= maximumGetAttempts m < 2 ^ 8.
Proof. simpl. unfold u8. rewrite Z.mod_small by lia. lia. Qed.

(** What a lookup finds. *)
Lemma getObjectLocation_cases s k :
  layout_inv s ->
  (exists l refresh, getObjectLocation s k = Ok (l, refresh) /\ live s k l /\
     hashMap_Get m (recordArray s) k (epochList s) = Ok l /\
     forall l', live s k l' -> l' <= l) \/
  (getObjectLocation s k = Err (StatusError CodeNotFound) /\ forall l, ~ live s k l).
Proof.
  intros H. unfold getObjectLocation. rewrite (li_map s H).
  assert (ra_inv (count := recordCount m) (epochList s) (recordArray s)) as Ha.
  { split; [apply H|]. split; apply H. }
  destruct (Get_newest m Hcount getAttempts_range (recordArray s) k (epochList s) Ha (li_probe s H))
    as [(l&HG&Hst&Hnew)|[HG Hno]]; rewrite HG; [left|right].
  - cbn [mbind outcome_bind]. destruct (Z.eqb_spec (currentRegionSizeBytes s) 0) as [E0|_].
    { pose proof (li_region s H). lia. }
    do 2 eexists. split; [reflexivity|]. split; [exact Hst|]. split; [done|].
    intros l' Hl'. specialize (Hnew l' Hl'). rewrite older_location in Hnew. lia.
  - split; [done|]. exact Hno.
Qed.

(** An object that is held is read back. *)
Lemma readObjectAtLocation_held (s : Store) k l :
  lb_inv (locationBlobMap s) -> held (locationBlobMap s) k l ->
  exists d, readObjectAtLocation s k l = (s, Ok (mkContents (GetLocalReference k) d)) /\
    lb_holds (locationBlobMap s) l d /\ zlen d = FlatReference_GetSizeBytes k /\ valid_object k d.
Proof.
  intros Hb (d&Hh&Hlen&Hc). exists d. split; [|done]. unfold readObjectAtLocation.
  rewrite <- Hlen, (lb_Get_holds _ _ d) by done. by rewrite (proj2 Hc).
Qed.

(** The laws of the record array, with [record_ended] added to its invariant. *)
Definition ended_laws : RecordArrayLaws A FlatReference Z E (recordCount m).
Proof.
  refine {|
    ra_inv (e : E) a := ra_inv (count := count) e a /\ Forall (record_ended e) (imRecords a);
    ra_view := inMemoryView;
    ra_writable (e : E) := True;
    ra_valid (e : E) k v := IsValidLocation (vEpochState e) v (FlatReference_GetSizeBytes k) = true /\
      1 <= FlatReference_GetSizeBytes k < 2 ^ 64;
  |}.
  - intros a e i r [Ha Hend] Hi Hr.
    destruct (ra_view_valid (count := count) a e i r Ha Hi Hr) as [_ Hatt]. split; [|done]. intros _.
    apply inMemoryView_iff in Hr as (record&Hrec&<-&Hid&Hv). split; [done|].
    apply (Forall_lookup_1 _ _ _ _ Hend Hrec Hid).
  - intros a e i [Ha _] Hi. exact (ra_Get_view (count := count) a e i Ha Hi).
  - intros a e i r [Ha Hend] _ Hi Hatt [Hv Hs].
    destruct (ra_Put_valid (count := count) a e i r Ha) as (a'&HP&Ha'&Hview);
      [by do 2 eexists|done|done|by intros ?? [= <- <-]|].
    exists a'. split; [done|]. split; [|done]. split; [done|].
    simpl in HP. unfold inMemoryRecords_Put in HP. simpl in HP. rewrite Hv in HP.
    destruct (index (imRecords a) i); [|done..]. injection HP as <-. simpl.
    apply Forall_insert; [done|]. intros _. simpl.
    destruct Ha as ((_&Hlo&Hhi&_)&_). 
    pose proof (IsValidLocation_range _ _ _ Hlo Hhi Hv) as [[? _] _].
    apply IsValidLocation_iff in Hv; [lia|done|done|done].
Defined.

(** Contents that match the reference that they are uploaded under. *)
Definition matches (k : FlatReference) (c : Contents) : Prop :=
  c = mkContents (GetLocalReference k) (contentsData c) /\
  1 <= FlatReference_GetSizeBytes k <= span /\ FlatReference_GetSizeBytes k < 2 ^ 63 /\
  zlen (contentsData c) = FlatReference_GetSizeBytes k /\ valid_object k (contentsData c).

Abbreviation next s := (GetNextPutLocation (locationBlobMap s)).

(** The state after a write, and where the object is found. *)
Definition written (s s' : Store) (k : FlatReference) (c : Contents) : Prop :=
  store_inv s' /\ next s' = next s + zlen (contentsData c) /\
  hashMap_Get m (recordArray s') k (epochList s') = Ok (next s) /\
  lb_holds (locationBlobMap s') (next s) (contentsData c).

Lemma writeObject_Ok s k c :
  store_inv s -> matches k c -> next s + zlen (contentsData c) < 2 ^ 64 ->
  exists s', writeObject s k c = (s', Ok tt) /\ written s s' k c.
Proof.
  intros [H Hheld] (Ec&Hsize&Hsmall&Hlen&Hc) Hmax. unfold writeObject, GetFullData.
  destruct (lb_Put_holds (locationBlobMap s) (contentsData c)) as (b&HP&Hb&Hnext&Hnew&Hkeep);
    [apply H|lia|lia|]. rewrite HP. cbn [epochList setLocationBlobMap FinalizeWriteUpToLocation
    volatileEpochList_EpochList]. pose proof (lb_next_range _ (li_blobs s H)) as Hr.
  unfold u64. rewrite Z.mod_small by lia. pose proof (li_next s H) as Hn. pose proof (li_low s H) as Hl.
  destruct (Finalize_grow (epochList s) (next s + zlen (contentsData c)))
    as (e&HF&Hsp&Hid&He&Hhi&Hlo); [apply H|apply H|lia|lia|lia|]. rewrite HF.
  cbn [setEpochList recordArray referenceLocationMap setLocationBlobMap].
  rewrite (li_map s H).
  assert (low (epochList s) <= low e) as Hle by lia.
  assert (high (epochList s) <= high e < 2 ^ 64) as Hge by lia.
  pose proof (stored_expire _ _ _ (li_ended s H) Hid Hle Hge) as Hexp.
  assert (forall k' l, stored m (inMemoryView (recordArray s) e) k' l -> l < next s) as Hold.
  { intros k' l Hst. apply Hexp in Hst as [Hst _]. pose proof (live_valid s k' l H Hst). lia. }
  assert (IsValidLocation (vEpochState e) (next s) (FlatReference_GetSizeBytes k) = true) as Hval.
  { apply IsValidLocation_iff; lia. }
  destruct (Put_effect (RecordArrayLaws0 := ended_laws) m Hcount getAttempts_range
    (recordArray s) k (next s) e) as (a&HA&[Ha Hend]&Hprobe&Hst&Hfound).
  - split; [split; [done|]; split; apply H|]. exact (ended_expire _ _ _ (li_ended s H) Hid Hge).
  - exact I.
  - apply (probe_expire _ _ _ (li_ended s H) Hid Hle Hge), H.
  - split; [done|lia].
  - eexists. split; [by rewrite HA|]. split; [|split; [exact Hnext|split; [|exact Hnew]]].
    + split.
      * split; simpl; [apply H|apply H|done|done|done|lia|lia|apply Ha|apply Ha|done|done].
      * intros k' l Hl'. simpl. destruct (Hst k' l Hl') as [Hl1|[= -> ->]].
        -- apply Hexp in Hl1 as [Hl1 Hl2]. destruct (Hheld k' l Hl1) as (d&Hd&?&?).
           exists d. split; [|done]. apply Hkeep; [done|lia].
        -- exists (contentsData c). by split.
    + apply Hfound; [done|]. intros k' l Hl'. apply older_location. by eapply Hold.
Qed.

Lemma maybeWriteObject_Ok s k c :
  store_inv s -> FlatReference_ok k -> matches k c -> next s + zlen (contentsData c) < 2 ^ 64 ->
  exists s', maybeWriteObject s k c = (s', Ok tt) /\
    (written s s' k c \/ s' = s /\ exists l, live s k l).
Proof.
  intros Hs [Hlen _] Hc Hmax. unfold maybeWriteObject.
  destruct (rawFlatReference k) as [|b raw] eqn:Hraw; [done|]. cbn -[getObjectLocation writeObject].
  destruct (writeObject_Ok s k c Hs Hc Hmax) as (s'&HW&Hw).
  destruct (getObjectLocation_cases s k (si_layout s Hs)) as [(l&refresh&->&Hl&_)|[-> _]].
  - destruct refresh; [exists s'; split; [done|by left]|].
    exists s. split; [done|]. right. by split; [|exists l].
  - exists s'. split; [done|by left].
Qed.

(** What was written is found again. *)
Lemma written_live s s' k c :
  written s s' k c -> exists l, hashMap_Get m (recordArray s') k (epochList s') = Ok l /\ live s' k l.
Proof.
  intros (Hs'&_&HG&_).
  destruct (getObjectLocation_cases s' k (si_layout s' Hs')) as [(l&?&_&Hl&HG'&_)|[HN _]]; [by exists l|].
  exfalso. unfold getObjectLocation in HN. rewrite (li_map s' (si_layout s' Hs')), HG in HN.
  cbn [mbind outcome_bind] in HN. by destruct (_ =? 0).
Qed.

(** An object that is live is downloaded, whether or not it is refreshed. *)
Lemma DownloadObject_live s k l :
  store_inv s -> FlatReference_ok k -> next s + FlatReference_GetSizeBytes k < 2 ^ 64 ->
  hashMap_Get m (recordArray s) k (epochList s) = Ok l -> live s k l ->
  exists s' d, DownloadObject s k = (s', Ok (mkContents (GetLocalReference k) d)) /\
    store_inv s' /\ next s <= next s' <= next s + FlatReference_GetSizeBytes k /\
    LBM_Get (locationBlobMap s) l (FlatReference_GetSizeBytes k) = Ok d /\
    valid_object k d /\ exists l', live s' k l'.
Proof.
  intros Hs Hk Hmax HG Hlive. pose proof (si_layout s Hs) as H. unfold DownloadObject.
  destruct (getObjectLocation_cases s k H) as [(l'&refresh&->&_&HG'&_)|[_ Hno]];
    [|by destruct (Hno l)].
  assert (l' = l) as -> by congruence.
  destruct (readObjectAtLocation_held s k l (li_blobs s H) (si_held s Hs k l Hlive))
    as (d&->&Hh&Hlen&Hc).
  pose proof (live_valid s k l H Hlive) as (Hlo&Hhi&Hsize&_). pose proof (li_low s H).
  assert (LBM_Get (locationBlobMap s) l (FlatReference_GetSizeBytes k) = Ok d) as Hread
    by (rewrite <- Hlen; apply lb_Get_holds; [apply H|done]).
  destruct refresh; [|exists s, d; split_and!; (done || lia || by exists l)].
  pose proof (flat_size_range k Hk).
  assert (matches k (mkContents (GetLocalReference k) d)) as Hm by (split_and!; simpl; (done || lia)).
  destruct (maybeWriteObject_Ok s k _ Hs Hk Hm) as (s'&->&[Hw|[-> _]]); [simpl; lia|..].
  - destruct (written_live _ _ _ _ Hw) as (l'&_&Hl'). destruct Hw as (Hs'&Hn&_).
    exists s', d. split; [done|]. simpl in *. split_and!; (done || lia || by exists l').
  - exists s, d. split; [done|]. split_and!; (done || lia || by exists l).
Qed.

(** An upload without contents finds out whether the object is there. *)
Lemma UploadObject_None s k :
  store_inv s -> FlatReference_ok k -> next s + FlatReference_GetSizeBytes k < 2 ^ 64 ->
  (UploadObject s k None = (s, Ok UploadObjectMissing) /\ forall l, ~ live s k l) \/
  exists s' l, UploadObject s k None = (s', Ok (UploadObjectComplete tt)) /\ store_inv s' /\
    next s <= next s' <= next s + FlatReference_GetSizeBytes k /\ live s' k l.
Proof.
  intros Hs Hk Hmax. pose proof (si_layout s Hs) as H. unfold UploadObject.
  pose proof (flat_size_range k Hk).
  destruct (getObjectLocation_cases s k H) as [(l&refresh&->&Hl&_)|[-> Hno]]; [right|by left].
  destruct refresh; [|exists s, l; split_and!; (done || lia)].
  destruct (readObjectAtLocation_held s k l (li_blobs s H) (si_held s Hs k l Hl)) as (d&->&_&Hlen&Hc).
  pose proof (live_valid s k l H Hl) as (Hlo&Hhi&Hsize&_). pose proof (li_low s H).
  assert (matches k (mkContents (GetLocalReference k) d)) as Hm by (split_and!; simpl; (done || lia)).
  destruct (maybeWriteObject_Ok s k _ Hs Hk Hm) as (s'&->&[Hw|[-> _]]); [simpl; lia|..]; simpl.
  - destruct (written_live _ _ _ _ Hw) as (l'&_&Hl'). destruct Hw as (Hs'&Hn&_). simpl in Hn.
    exists s', l'. split_and!; (done || lia).
  - exists s, l. split_and!; (done || lia).
Qed.

Lemma UploadObject_Some s k c :
  store_inv s -> FlatReference_ok k -> matches k c -> next s + zlen (contentsData c) < 2 ^ 64 ->
  exists s' l, UploadObject s k (Some c) = (s', Ok (UploadObjectComplete tt)) /\ store_inv s' /\
    next s <= next s' <= next s + zlen (contentsData c) /\
    hashMap_Get m (recordArray s') k (epochList s') = Ok l /\ live s' k l.
Proof.
  intros Hs Hk Hm Hmax. unfold UploadObject.
  assert (forall s', written s s' k c \/ s' = s /\ (exists l, live s k l) ->
    exists l, store_inv s' /\ next s <= next s' <= next s + zlen (contentsData c) /\
      hashMap_Get m (recordArray s') k (epochList s') = Ok l /\ live s' k l) as Hfin.
  { intros s' [Hw|[-> [l Hl]]].
    - destruct (written_live _ _ _ _ Hw) as (l&HG&Hl). destruct Hw as (Hs'&Hn&_).
      exists l. split; [done|]. split; [unfold zlen in *; lia|done].
    - destruct (getObjectLocation_cases s k (si_layout s Hs)) as [(l'&?&_&Hl'&HG'&_)|[_ Hno]];
        [|by destruct (Hno l)].
      exists l'. split; [done|]. split; [unfold zlen; lia|done]. }
  destruct (maybeWriteObject_Ok s k c Hs Hk Hm Hmax) as (s'&HW&Hw).
  destruct (getObjectLocation_cases s k (si_layout s Hs)) as [(l&refresh&->&Hl&_)|[-> _]].
  - destruct refresh; [rewrite HW; destruct (Hfin s' Hw) as (l'&?)|
      destruct (Hfin s) as (l'&?); [right; by split; [|exists l]|]].
    + by exists s', l'.
    + by exists s, l'.
  - simpl. rewrite HW. destruct (Hfin s' Hw) as (l'&?). by exists s', l'.
Qed.

(** Discarding everything up to the end of a live object. *)
Lemma discard_object s k l :
  layout_inv s -> live s k l ->
  exists e, VEL_DiscardUpToLocation (epochList s)
      (u64 (l + u64 (FlatReference_GetSizeBytes k))) = (e, Ok tt) /\
    layout_inv (setEpochList s e) /\
    forall k' l', live (setEpochList s e) k' l' <->
      live s k' l' /\ l + FlatReference_GetSizeBytes k <= l'.
Proof.
  intros H Hl. pose proof (live_valid s k l H Hl) as (Hlo&Hhi&Hsize&Hl0).
  pose proof (li_epoch s H) as (Hid&Hlow0&Hhigh&Hseed). pose proof (li_low s H) as Hr.
  unfold VEL_DiscardUpToLocation, u64. rewrite (Z.mod_small (FlatReference_GetSizeBytes k)) by lia.
  rewrite Z.mod_small by lia. set (q := l + FlatReference_GetSizeBytes k) in *.
  destruct (Z.ltb_spec (low (epochList s)) q); [|lia].
  destruct (Z.ltb_spec (high (epochList s)) q); [lia|].
  set (e := set_state _ _). exists e. split; [done|].
  assert (low (epochList s) <= low e) as Hle by (simpl; lia).
  assert (high (epochList s) <= high e < 2 ^ 64) as Hge by (simpl; lia).
  split; [|intros; apply (stored_expire (recordArray s) (epochList s) e (li_ended s H) eq_refl Hle Hge)].
  split; try apply H; simpl.
  - split_and!; (done || lia).
  - lia.
  - apply (probe_expire (recordArray s) (epochList s) e (li_ended s H) eq_refl Hle Hge), H.
Qed.

Lemma matches_Ok k c :
  FlatReference_ok k -> 1 <= FlatReference_GetSizeBytes k <= span -> bytes_ok (contentsData c) ->
  NewContentsFromFullData (GetLocalReference k) (contentsData c) = Ok c -> matches k c.
Proof.
  intros Hk Hs Hb Hc. pose proof (flat_size_range k Hk).
  destruct (NewContentsFromFullData_Ok _ _ _ Hc) as (Ec&Hlen&_). rewrite flat_size in Hlen by done.
  rewrite Ec in Hc at 2. split_and!; (done || lia).
Qed.

(** The store that [NewStoreFromConfiguration] creates without persistency:
    no record of a fresh array belongs to an epoch whose ID is not zero. *)
Definition freshStore (current new : Z) (b : B) (e : E) : Store :=
  mkStore current new m (NewInMemoryReferenceLocationRecordArray (Z.to_nat count)) b e.

Lemma freshStore_inv current new b (e : E) :
  0 < current -> lb_inv b -> GetNextPutLocation b = 0 -> vMaximumLocationSpan e = span ->
  is_u32 (vEpochID e) -> vEpochID e <> 0 -> is_u64 (HashSeed (vEpochState e)) ->
  low e = 0 -> high e = 0 -> store_inv (freshStore current new b e).
Proof.
  intros Hcur Hb Hn Hsp Hid Hid0 Hseed Hlo Hhi.
  set (zero := mkInMemoryRecord 0 (mkMapRecord (mkRecordKey zeroFlatReference 0) 0)).
  assert (forall i r, inMemoryView (NewInMemoryReferenceLocationRecordArray (Z.to_nat count)) e i
    <> Some r) as Hempty.
  { intros i r Hr. apply inMemoryView_iff in Hr as (record&Hrec&_&HID&_).
    apply lookup_replicate in Hrec as [-> _]. by rewrite <- HID in Hid0. }
  split; [split|]; simpl; [done|done|done|done| |lia|lia| | | | |].
  - split_and!; (done || lia).
  - unfold zlen. rewrite length_replicate. lia.
  - apply Forall_replicate. simpl. lia.
  - apply Forall_replicate. intros HID. by rewrite <- HID in Hid0.
  - intros i r _ Hr. by destruct (Hempty i r).
  - intros k l (i&r&_&Hr&_). by destruct (Hempty i r).
Qed.

(** Other bytes in the ring buffer do not affect the layout. *)
Lemma layout_setBlobs s b :
  layout_inv s -> lb_inv b -> GetNextPutLocation b = next s -> layout_inv (setLocationBlobMap s b).
Proof. intros [] Hb Hn. split; simpl; congruence || done. Qed.
End invariant.

(** ** An example *)

(** A store of five records with a ring buffer of 64 bytes. *)
Definition exampleReference : FlatReference := Flatten (contentsReference exampleLeaf).

Definition exampleContents : Contents :=
  mkContents (GetLocalReference exampleReference) (contentsData exampleLeaf).

Abbreviation ExampleStore :=
  (store inMemoryReferenceLocationRecordArray inMemoryLocationBlobMap (volatileEpochList Z)).

Definition exampleStore : ExampleStore :=
  freshStore 2 5 3 4 8 8 (NewInMemoryLocationBlobMap 64) (NewVolatileEpochList 64 1).

Lemma exampleStore_inv : store_inv 64 2 5 3 4 exampleStore.
Proof. apply freshStore_inv; vm_compute; repeat split; congruence. Qed.

Lemma exampleReference_ok : FlatReference_ok exampleReference.
Proof. apply Flatten_ok. exact (proj1 (Forall_inv exampleLeaf_valid)). Qed.

Lemma exampleReference_size : FlatReference_GetSizeBytes exampleReference = 3.
Proof. vm_compute. reflexivity. Qed.

Lemma exampleContents_Ok :
  NewContentsFromFullData (GetLocalReference exampleReference) (contentsData exampleContents)
  = Ok exampleContents.
Proof. vm_compute. reflexivity. Qed.

(** The state after the object was uploaded. *)
Definition uploadedStore : ExampleStore :=
  fst (UploadObject exampleStore exampleReference (Some exampleContents)).

Lemma uploadedStore_inv :
  store_inv 64 2 5 3 4 uploadedStore /\ GetNextPutLocation (locationBlobMap uploadedStore) <= 3.
Proof.
  pose proof exampleReference_size as Hsize.
  assert (zlen (contentsData exampleContents) = 3) as Hlen by (vm_compute; reflexivity).
  destruct (UploadObject_Some (G := Z) 64 2 5 3 4 ltac:(lia) ltac:(lia) ltac:(lia) ltac:(lia)
    exampleStore exampleReference exampleContents exampleStore_inv exampleReference_ok)
    as (s'&l&HU&Hs'&Hn&_).
  - apply matches_Ok; [exact exampleReference_ok|lia|literal_bytes|exact exampleContents_Ok].
  - rewrite Hlen. vm_compute. reflexivity.
  - unfold uploadedStore. rewrite HU. rewrite Hlen in Hn. split; [exact Hs'|]. simpl in *. lia.
Qed.

(** ** Properties *)

(** C10: Whatever the state of the store, and whatever its storage backends
    return, contents that are downloaded have the size and the SHA-256 hash of
    the reference that was requested: corruption is never passed on. *)
Theorem DownloadObject_sound {A B E} `{!RecordArray A FlatReference Z E} `{!LocationBlobMap B}
    `{!EpochList E} (s s' : store A B E) k c :
  DownloadObject s k = (s', Ok c) ->
  contentsReference c = GetLocalReference k /\
  zlen (contentsData c) = GetSizeBytes (GetLocalReference k) /\
  sha256 (contentsData c) = GetHash (GetLocalReference k).
Proof.
  unfold DownloadObject. destruct (getObjectLocation s k) as [[l refresh]| |]; [|done..].
  destruct (readObjectAtLocation s k l) as [s1 res] eqn:Hread. intros HD.
  assert (res = Ok c) as ->.
  { destruct res as [c'| |]; [|congruence..]. destruct refresh; [|congruence].
    by destruct (maybeWriteObject s1 k c') as [s2 [| |]]; simplify_eq. }
  clear HD. unfold readObjectAtLocation in Hread.
  destruct (LBM_Get _ _ _) as [d| |]; [|done..].
  destruct (NewContentsFromFullData _ d) as [c'| |] eqn:Hc; simplify_eq.
  - by apply NewContentsFromFullData_Ok in Hc as (->&?&?).
  - by destruct (DiscardUpToLocation _ _) as [? [| |]].
Qed.

Lemma DownloadObject_sound_witness :
  exists s' c, DownloadObject uploadedStore exampleReference = (s', Ok c) /\
    sha256 (contentsData c) = GetHash (GetLocalReference exampleReference).
Proof.
  destruct (DownloadObject uploadedStore exampleReference) as [s' r] eqn:HD.
  assert (r = Ok exampleContents) as ->.
  { transitivity (snd (DownloadObject uploadedStore exampleReference)); [by rewrite HD|].
    vm_compute. reflexivity. }
  exists s', exampleContents. split; [reflexivity|]. exact (proj2 (proj2 (DownloadObject_sound _ _ _ _ HD))).
Defined.

(** C9: An upload of valid contents always completes, keeps the invariant of
    the store, and makes the object available: the next download of the
    reference succeeds and returns contents with the same hash and size,
    whether the object was written, refreshed, or was already present. *)
Theorem UploadObject_then_DownloadObject {G B} `{!SingleThreadedGenerator G} `{!LocationBlobMap B}
    span `{!LocationBlobMapLaws B span} h count getAttempts putAttempts
    (s : store inMemoryReferenceLocationRecordArray B (volatileEpochList G)) k c :
  0 < count -> 1 <= getAttempts < 2 ^ 8 -> 1 <= putAttempts -> 0 < span < 2 ^ 64 ->
  store_inv span h count getAttempts putAttempts s -> FlatReference_ok k ->
  1 <= FlatReference_GetSizeBytes k <= span -> bytes_ok (contentsData c) ->
  NewContentsFromFullData (GetLocalReference k) (contentsData c) = Ok c ->
  GetNextPutLocation (locationBlobMap s) + 2 * FlatReference_GetSizeBytes k < 2 ^ 64 ->
  exists s1 s2 c', UploadObject s k (Some c) = (s1, Ok (UploadObjectComplete tt)) /\
    store_inv span h count getAttempts putAttempts s1 /\
    DownloadObject s1 k = (s2, Ok c') /\ store_inv span h count getAttempts putAttempts s2 /\
    NewContentsFromFullData (GetLocalReference k) (contentsData c') = Ok c' /\
    zlen (contentsData c') = zlen (contentsData c) /\
    sha256 (contentsData c') = sha256 (contentsData c).
Proof.
  intros Hcount Hget Hput Hspan Hs Hk Hsize Hcb Hc Hmax.
  destruct (NewContentsFromFullData_Ok _ _ _ Hc) as (_&Hlen&Hhash).
  pose proof Hlen as Hlen'. rewrite flat_size in Hlen' by done.
  pose proof (matches_Ok span k c Hk Hsize Hcb Hc) as Hm.
  destruct (UploadObject_Some span h count getAttempts putAttempts Hcount Hget Hput Hspan s k c)
    as (s1&l&HU&Hs1&Hn&HG&Hl); [done..|lia|].
  destruct (DownloadObject_live span h count getAttempts putAttempts Hcount Hget Hput Hspan s1 k l)
    as (s2&d&HD&Hs2&_&_&[_ Hd]&_); [done|done|lia|done|done|].
  destruct (NewContentsFromFullData_Ok _ _ _ Hd) as (_&Hlend&Hhashd).
  exists s1, s2, (mkContents (GetLocalReference k) d). simpl. rewrite Hlen, Hhash.
  by split_and!.
Qed.

Lemma UploadObject_then_DownloadObject_witness :
  exists s1 s2 c', UploadObject exampleStore exampleReference (Some exampleContents)
      = (s1, Ok (UploadObjectComplete tt)) /\
    DownloadObject s1 exampleReference = (s2, Ok c') /\
    sha256 (contentsData c') = sha256 (contentsData exampleContents).
Proof.
  pose proof exampleReference_size as Hsize.
  destruct (UploadObject_then_DownloadObject 64 2 5 3 4 exampleStore exampleReference
    exampleContents) as (s1&s2&c'&HU&_&HD&_&_&_&Hh);
    [lia|lia|lia|lia|exact exampleStore_inv|exact exampleReference_ok|lia|literal_bytes|exact exampleContents_Ok
    |rewrite Hsize; vm_compute; reflexivity|exists s1, s2, c'; exact (conj HU (conj HD Hh))].
Defined.

(** C11: In a store that satisfies its invariant, a download never panics and
    fails only with NotFound, and only when no live entry of the reference is
    left; otherwise it returns valid contents, and refreshing the object on
    the way keeps the invariant. *)
Theorem DownloadObject_total {G B} `{!SingleThreadedGenerator G} `{!LocationBlobMap B}
    span `{!LocationBlobMapLaws B span} h count getAttempts putAttempts
    (s : store inMemoryReferenceLocationRecordArray B (volatileEpochList G)) k :
  0 < count -> 1 <= getAttempts < 2 ^ 8 -> 1 <= putAttempts -> 0 < span < 2 ^ 64 ->
  store_inv span h count getAttempts putAttempts s -> FlatReference_ok k ->
  GetNextPutLocation (locationBlobMap s) + FlatReference_GetSizeBytes k < 2 ^ 64 ->
  (DownloadObject s k = (s, Err (StatusError CodeNotFound)) /\
   forall l, ~ live h count getAttempts putAttempts s k l) \/
  (exists s' c, DownloadObject s k = (s', Ok c) /\
     store_inv span h count getAttempts putAttempts s' /\
     NewContentsFromFullData (GetLocalReference k) (contentsData c) = Ok c /\
     exists l, live h count getAttempts putAttempts s k l /\
       LBM_Get (locationBlobMap s) l (FlatReference_GetSizeBytes k) = Ok (contentsData c)).
Proof.
  intros Hcount Hget Hput Hspan Hs Hk Hmax.
  destruct (getObjectLocation_cases span h count getAttempts putAttempts Hcount Hget s k
    (si_layout _ _ _ _ _ s Hs)) as [(l&refresh&_&Hl&HG&_)|[HN Hno]]; [right|left].
  - destruct (DownloadObject_live span h count getAttempts putAttempts Hcount Hget Hput Hspan s k l)
      as (s'&d&HD&Hs'&_&Hread&[_ Hd]&_); [done..|].
    exists s', (mkContents (GetLocalReference k) d). split_and!; [done..|]. by exists l.
  - split; [|done]. unfold DownloadObject. by rewrite HN.
Qed.

Lemma DownloadObject_total_witness :
  DownloadObject exampleStore exampleReference = (exampleStore, Err (StatusError CodeNotFound)) \/
  exists s' c, DownloadObject exampleStore exampleReference = (s', Ok c).
Proof.
  destruct (DownloadObject_total 64 2 5 3 4 exampleStore exampleReference) as [[HD _]|(s'&c&HD&_)];
    [lia|lia|lia|lia|exact exampleStore_inv|exact exampleReference_ok
    |rewrite exampleReference_size; vm_compute; reflexivity|left; exact HD|right; exists s', c; exact HD].
Defined.

(** C12: When the blob that a lookup leads to is not the object, the download
    reports NotFound and discards everything up to and including the object:
    the entries that remain are exactly the live ones behind it, so that the
    object itself is absent from then on. *)
Theorem corrupted_object_is_discarded {G B} `{!SingleThreadedGenerator G} `{!LocationBlobMap B}
    span `{!LocationBlobMapLaws B span} h count getAttempts putAttempts
    (s : store inMemoryReferenceLocationRecordArray B (volatileEpochList G)) k l refresh d err :
  0 < count -> 1 <= getAttempts < 2 ^ 8 ->
  layout_inv span h count getAttempts putAttempts s ->
  getObjectLocation s k = Ok (l, refresh) ->
  LBM_Get (locationBlobMap s) l (FlatReference_GetSizeBytes k) = Ok d ->
  NewContentsFromFullData (GetLocalReference k) d = Err err ->
  exists s', DownloadObject s k = (s', Err (StatusError CodeNotFound)) /\
    layout_inv span h count getAttempts putAttempts s' /\
    (forall k' l', live h count getAttempts putAttempts s' k' l' <->
       live h count getAttempts putAttempts s k' l' /\ l + FlatReference_GetSizeBytes k <= l') /\
    DownloadObject s' k = (s', Err (StatusError CodeNotFound)).
Proof.
  intros Hcount Hget H HG Hread Hbad. unfold DownloadObject at 1. rewrite HG.
  destruct (getObjectLocation_cases span h count getAttempts putAttempts Hcount Hget s k H)
    as [(l'&refresh'&HG'&Hl&_&Hnewest)|[HN _]]; [|congruence].
  rewrite HG in HG'. injection HG' as <- <-.
  destruct (discard_object span h count getAttempts putAttempts Hcount s k l H Hl) as (e&He&H'&Hlive).
  unfold readObjectAtLocation. rewrite Hread, Hbad.
  change (DiscardUpToLocation (epochList s)) with (VEL_DiscardUpToLocation (epochList s)).
  rewrite He. exists (setEpochList s e). split_and!; [done..|].
  destruct (getObjectLocation_cases span h count getAttempts putAttempts Hcount Hget
    (setEpochList s e) k H') as [(l'&?&_&Hl'&_)|[HN _]].
  - apply Hlive in Hl' as [Hl' Hge]. specialize (Hnewest l' Hl').
    pose proof (live_valid span h count getAttempts putAttempts s k l H Hl). lia.
  - unfold DownloadObject. by rewrite HN.
Qed.

(** The example with its ring buffer overwritten. *)
Definition corruptedStore : ExampleStore :=
  setLocationBlobMap uploadedStore (mkInMemory (replicate 64 0) 3).

Lemma corruptedStore_inv : layout_inv 64 2 5 3 4 corruptedStore.
Proof.
  apply layout_setBlobs; [exact (si_layout _ _ _ _ _ _ (proj1 uploadedStore_inv))| |].
  - vm_compute. repeat split; congruence.
  - vm_compute. reflexivity.
Qed.

Lemma corrupted_object_is_discarded_witness :
  exists s', DownloadObject corruptedStore exampleReference = (s', Err (StatusError CodeNotFound)) /\
    DownloadObject s' exampleReference = (s', Err (StatusError CodeNotFound)).
Proof.
  destruct (corrupted_object_is_discarded 64 2 5 3 4 corruptedStore exampleReference 0 false [0; 0; 0]
    (StatusError CodeInvalidArgument)) as (s'&HD&_&_&HD'); [lia|lia|exact corruptedStore_inv
    |vm_compute; reflexivity|vm_compute; reflexivity|vm_compute; reflexivity|exists s'; exact (conj HD HD')].
Defined.
