(* ===== verification/LocalObjectStore.v ===== *)
(** * The local store as an object store

    The local store satisfies [ObjectStoreLaws]: its invariant, together with
    room in the 64-bit location space for the bytes that the calls to come can
    write.  Decorators that are proved against the laws can be put on top. *)

From S2P Require Import Prelude LossyMap Sha256 References EpochList LocationBlobMap RecordArrays ObjectStore LocalStore.

#[global] Instance local_ObjectStore {A B E} `{!RecordArray A FlatReference Z E} `{!LocationBlobMap B}
    `{!EpochList E} : ObjectStore (store A B E) FlatReference unit := {|
  os_DownloadObject := DownloadObject;
  os_UploadObject s reference contents _ _ := UploadObject s reference contents;
|}.

Section laws.
Context {G : Type} `{!SingleThreadedGenerator G}.
Context {B : Type} `{!LocationBlobMap B} (span : Z) `{!LocationBlobMapLaws B span}.
Context (h count getAttempts putAttempts : Z).
Hypothesis Hcount : 0 < count.
Hypothesis Hget : 1 <= getAttempts < 2 ^ 8.
Hypothesis Hput : 1 <= putAttempts.
Hypothesis Hspan : 0 < span < 2 ^ 64.

Abbreviation Store := (store inMemoryReferenceLocationRecordArray B (volatileEpochList G)).

Definition local_inv (n : Z) (s : Store) : Prop :=
  store_inv span h count getAttempts putAttempts s /\ GetNextPutLocation (locationBlobMap s) + n < 2 ^ 64.

Definition local_accepts (k : FlatReference) : Prop :=
  FlatReference_ok k /\ 1 <= FlatReference_GetSizeBytes k <= span.

Definition local_has (s : Store) (k : FlatReference) : Prop :=
  exists l, live h count getAttempts putAttempts s k l.

Lemma local_Download n s k s' res :
  0 <= n -> local_inv (n + FlatReference_GetSizeBytes k) s -> local_accepts k -> DownloadObject s k = (s', res) ->
  local_inv n s' /\ res <> Panic /\
  (forall c, res = Ok c -> object_of k c /\ local_has s' k) /\
  (forall e, res = Err e -> isNotFound e = true -> ~ local_has s k).
Proof.
  intros Hn0 [Hs Hn] [Hk Hsize] HD. unfold local_inv.
  destruct (getObjectLocation_cases span h count getAttempts putAttempts Hcount Hget s k
    (si_layout _ _ _ _ _ s Hs)) as [(l&refresh&_&Hl&HG&_)|[HN Hno]].
  - destruct (DownloadObject_live span h count getAttempts putAttempts Hcount Hget Hput Hspan s k l)
      as (s1&d&HD'&Hs'&Hnext&_&Hd&Hl'); [done|done|lia|done|done|].
    rewrite HD' in HD. injection HD as <- <-. split; [split; [done|lia]|]. split; [done|].
    split; [|done]. intros c [= <-]. by split.
  - unfold DownloadObject in HD. rewrite HN in HD. injection HD as <- <-.
    split; [split; [done|lia]|]. split; [done|]. split; [done|]. intros e _ _ [l Hl]. by destruct (Hno l).
Qed.

Lemma local_Upload n s k contents (leases : list unit) (want : bool) s' res :
  0 <= n -> local_inv (n + FlatReference_GetSizeBytes k) s -> local_accepts k ->
  (forall c, contents = Some c -> object_of k c) -> leases_for k leases -> UploadObject s k contents = (s', res) ->
  local_inv n s' /\ res <> Panic /\
  (forall e c, res = Err e -> contents = Some c -> isNotFound e = false) /\
  forall x, res = Ok x ->
    match x with
    | UploadObjectComplete _ => local_has s' k
    | UploadObjectIncomplete contents' _ => local_has s' k /\ forall c, contents' = Some c -> object_of k c
    | UploadObjectMissing => contents = None
    end.
Proof.
  intros Hn0 [Hs Hn] [Hk Hsize] Hc _ HU. unfold local_inv. destruct contents as [c|].
  - destruct (Hc c eq_refl) as [Hcb Hco]. pose proof (matches_Ok span k c Hk Hsize Hcb Hco) as Hm.
    pose proof Hm as (_&_&_&Hlen&_).
    destruct (UploadObject_Some span h count getAttempts putAttempts Hcount Hget Hput Hspan s k c)
      as (s1&l&HU'&Hs1&Hnext&_&Hl); [done..|lia|].
    rewrite HU' in HU. injection HU as <- <-. split; [split; [done|lia]|]. split; [done|].
    split; [done|]. intros x [= <-]. by exists l.
  - destruct (UploadObject_None span h count getAttempts putAttempts Hcount Hget Hput Hspan s k)
      as [[HU' _]|(s1&l&HU'&Hs1&Hnext&Hl)]; [done|done|lia|..];
      rewrite HU' in HU; injection HU as <- <-.
    + split; [split; [done|lia]|]. split; [done|]. split; [done|]. by intros x [= <-].
    + split; [split; [done|lia]|]. split; [done|]. split; [done|]. intros x [= <-]. by exists l.
Qed.

Definition local_laws : ObjectStoreLaws Store FlatReference unit.
Proof.
  refine {|
    os_inv := local_inv;
    os_cost := FlatReference_GetSizeBytes;
    os_accepts := local_accepts;
    os_has := local_has;
  |}.
  - intros n n' s Hle [Hs Hn]. split; [done|lia].
  - intros k [_ Hk]. lia.
  - apply local_Download.
  - apply local_Upload.
Defined.
End laws.
