(* ===== verification/FlatBacked.v ===== *)
(** * Object stores on top of flat storage

    [pkg/storage/object/flatbacked]: a store of objects with children on top of
    a backend that only knows a flat namespace.  Whether the children of an
    object are complete is derived from leases, which are times at which they
    were last seen, kept in a lossy hash map.

    - [lease.go]: leases and how they are marshaled;
    - [lease_record_array_factory.go]: the in-memory record array;
    - [store.go]: [DownloadObject] and [UploadObject], whose loop over the
      children is [childrenLoop];
    - the laws of the store ([flatbacked_laws]) against those of its backend,
      and what it means that an object is reported as complete.

    The block-device-backed array is in [LeaseRecords].  The lock is dropped:
    a call is one step. *)

From Stdlib Require Import Sorted.
From S2P Require Import Prelude Varint LossyMap References EpochList LocationBlobMap RecordArrays ObjectStore LeaseMarshaling LocalStore LocalObjectStore.

(** ** [lease.go] *)

(** [Lease]: a [uint64], UNIX time in nanoseconds. *)
Definition TimeLease := Z.

#[global] Instance TimeLease_zero : ZeroLease TimeLease := 0.

Definition flat_MarshalLease (lease : TimeLease) (dst : list Z) : list Z := AppendForward dst lease.

Definition flat_UnmarshalLease (src : list Z) : outcome TimeLease :=
  '(v, n) ← ConsumeForward Varint.Uint64 src;
  if negb (n =? zlen src) then errInvalidArgument else Ok v.

#[global] Instance flat_LeaseMarshaler : LeaseMarshaler TimeLease :=
  {| MarshalLease := flat_MarshalLease; UnmarshalLease := flat_UnmarshalLease |}.

(** ** [lease_record_array_factory.go] *)

(** [cmp.Compare] of the leases. *)
Definition inMemoryLeases : Type :=
  lowerBoundComparingRecordArray (simpleRecordArray LocalReference TimeLease) TimeLease cmp_Compare.

Definition NewInMemoryRecordArray (entries : nat) : inMemoryLeases :=
  mkLowerBound (NewSimpleRecordArray (mkLocalReference (replicate 40 0)) 0 entries).

(** ** [store.go] *)

(** [clock.Clock]: [Now().UnixNano()], an [int64]. *)
Class Clock (C : Type) := UnixNano : C -> C * Z.

Section flatbacked.
Context {SB C A : Type} `{!ObjectStore SB FlatReference unit} `{!Clock C}.
Context `{!RecordArray A LocalReference TimeLease TimeLease}.

Record flatStore := mkFlatStore {
  fb_base : SB;
  fb_clock : C;
  leaseCompletenessDuration : Z;
  leasesMap : hashMap LocalReference TimeLease;
  leaseRecords : A;
}.

(** [NewStore]: the duration is an [int64]. *)
Definition NewStore (b : SB) (c : C) (duration : Z) (m : hashMap LocalReference TimeLease) (a : A) : flatStore :=
  mkFlatStore b c (u64 duration) m a.

Definition fb_download (b : SB) (reference : LocalReference) : SB * outcome Contents :=
  let '(b, res) := os_DownloadObject b (Flatten reference) in
  (b, flatContents ← res; Unflatten flatContents reference).

Definition flat_DownloadObject (s : flatStore) (reference : LocalReference) : flatStore * outcome Contents :=
  let '(b, res) := fb_download (fb_base s) reference in
  (mkFlatStore b (fb_clock s) (leaseCompletenessDuration s) (leasesMap s) (leaseRecords s), res).

(** The lease that the caller provided for a child is put in the map when it
    is valid: the lease to go on with. *)
Definition offerLease (m : hashMap LocalReference TimeLease) (a : A) (childReference : LocalReference)
    (childrenLeases : list TimeLease) (i now expirationCutoff : Z) : A * outcome TimeLease :=
  if zlen childrenLeases >? 0 then
    match index childrenLeases i with
    | Ok childLease =>
        let childLease := if childLease >? now then now else childLease in
        if childLease >=? expirationCutoff then
          let '(a, res) := hashMap_Put m a childReference childLease expirationCutoff in
          (a, _ ← res; Ok childLease)
        else (a, Ok childLease)
    | res => (a, res)
    end
  else (a, Ok 0).

(** A stored lease is used when the one at hand is too old. *)
Definition lookupLease (m : hashMap LocalReference TimeLease) (a : A) (childReference : LocalReference)
    (childLease incompleteCutoff expirationCutoff : Z) : outcome TimeLease :=
  if childLease <? incompleteCutoff then
    match hashMap_Get m a childReference expirationCutoff with
    | Ok storedChildLease => Ok storedChildLease
    | Err e => if isNotFound e then Ok childLease else Err e
    | Panic => Panic
    end
  else Ok childLease.

(** [for i := 0; i < degree; i++], from index [i] on: the indices of the
    children whose leases are wanted. *)
Fixpoint childrenLoop (n : nat) (i : Z) (m : hashMap LocalReference TimeLease) (a : A) (contents : Contents)
    (childrenLeases : list TimeLease) (now incompleteCutoff expirationCutoff : Z) : A * outcome (list Z) :=
  match n with
  | O => (a, Ok [])
  | S n =>
      match GetOutgoingReference contents i with
      | Ok childReference =>
          match offerLease m a childReference childrenLeases i now expirationCutoff with
          | (a, Ok childLease) =>
              match lookupLease m a childReference childLease incompleteCutoff expirationCutoff with
              | Ok childLease =>
                  let '(a, rest) := childrenLoop n (i + 1) m a contents childrenLeases now
                                      incompleteCutoff expirationCutoff in
                  (a, rest ← rest; Ok (if childLease <? incompleteCutoff then i :: rest else rest))
              | Err e => (a, Err e)
              | Panic => (a, Panic)
              end
          | (a, Err e) => (a, Err e)
          | (a, Panic) => (a, Panic)
          end
      | Err e => (a, Err e)
      | Panic => (a, Panic)
      end
  end.

(** [leaseNow - s.leaseCompletenessDuration], and the same again; with leases
    at hand the cutoff is less strict. *)
Definition expirationCutoffAt (duration now : Z) : Z := sub_u64 (sub_u64 now duration) duration.
Definition incompleteCutoffAt (duration now : Z) (childrenLeases : list TimeLease) : Z :=
  if zlen childrenLeases >? 0 then expirationCutoffAt duration now else sub_u64 now duration.

(** The contents of an object that has children: those of the caller, or else
    downloaded ones, whose absence is an internal error. *)
Definition obtainContents (b : SB) (reference : LocalReference) (contents : option Contents)
    : SB * outcome Contents :=
  match contents with
  | Some contents => (b, Ok contents)
  | None =>
      let '(b, res) := fb_download b reference in
      (b, match res with
          | Err e => if isNotFound e then Err (StatusError CodeInternal) else Err e
          | res => res
          end)
  end.

Definition flat_UploadObject (s : flatStore) (reference : LocalReference) (contents : option Contents)
    (childrenLeases : list TimeLease) (wantContentsIfIncomplete : bool)
    : flatStore * outcome (UploadObjectResult TimeLease) :=
  let '(c, unixNano) := UnixNano (fb_clock s) in
  let leaseNow := u64 unixNano in
  let m := leasesMap s in
  let duration := leaseCompletenessDuration s in
  let '(b, result) :=
    os_UploadObject (fb_base s) (Flatten reference) (FlattenContents <$> contents) [] false in
  let done b a res := (mkFlatStore b c duration m a, res) in
  match result with
  | Err e => done b (leaseRecords s) (Err e)
  | Panic => done b (leaseRecords s) Panic
  | Ok UploadObjectMissing => done b (leaseRecords s) (Ok UploadObjectMissing)
  | Ok (UploadObjectIncomplete _ _) => done b (leaseRecords s) Panic
  | Ok (UploadObjectComplete _) =>
      let degree := GetDegree reference in
      if degree >? 0 then
        let '(b, res) := obtainContents b reference contents in
        match res with
        | Ok contents =>
            let '(a, want) := childrenLoop (Z.to_nat degree) 0 m (leaseRecords s) contents
              childrenLeases leaseNow (incompleteCutoffAt duration leaseNow childrenLeases)
              (expirationCutoffAt duration leaseNow) in
            done b a
              (want ← want;
               if zlen want >? 0
               then Ok (UploadObjectIncomplete (if wantContentsIfIncomplete then Some contents else None) want)
               else Ok (UploadObjectComplete leaseNow))
        | Err e => done b (leaseRecords s) (Err e)
        | Panic => done b (leaseRecords s) Panic
        end
      else done b (leaseRecords s) (Ok (UploadObjectComplete leaseNow))
  end.

#[global] Instance flat_ObjectStore : ObjectStore flatStore LocalReference TimeLease := {|
  os_DownloadObject := flat_DownloadObject;
  os_UploadObject := flat_UploadObject;
|}.
End flatbacked.
Arguments flatStore SB C A : clear implicits.

(** ** What the store relies on *)

(** The backend knows nothing about children: it never answers that an object
    is incomplete. *)
Class CompleteOrMissing (S R L : Type) `{!ObjectStore S R L} := 
  never_incomplete s r contents leases want s' contents' want' :
    os_UploadObject s r contents leases want <> (s', Ok (UploadObjectIncomplete contents' want')).

(** An array of leases can be used under any cutoff. *)
Class LeaseArrayLaws (A : Type) (count : Z) `{!RecordArray A LocalReference TimeLease TimeLease}
    `{!RecordArrayLaws A LocalReference TimeLease TimeLease count} := {
  la_inv e e' (a : A) : ra_inv e a -> ra_inv e' a;
  la_writable (e : TimeLease) : ra_writable (A := A) e;
  la_valid (e : TimeLease) (k : LocalReference) (v : TimeLease) : e <= v -> ra_valid (A := A) e k v;
}.

#[global] Instance inMemoryLeases_RecordArray : RecordArray inMemoryLeases LocalReference TimeLease TimeLease :=
  lowerBoundComparingRecordArray_RecordArray cmp_Compare.

#[global] Instance inMemoryLeases_RecordArrayLaws count :
    RecordArrayLaws inMemoryLeases LocalReference TimeLease TimeLease count :=
  lowerBoundComparingRecordArray_laws cmp_Compare count.

#[global] Instance inMemoryLeases_laws count : LeaseArrayLaws inMemoryLeases count.
Proof.
  split; [done|done|]. intros e k v Hv. split; [done|]. unfold older.
  destruct (cmp_Compare_spec v e) as [[-> ?]|[[-> ?]|[-> ?]]]; lia.
Qed.

#[global] Instance local_CompleteOrMissing {A B E} `{!RecordArray A FlatReference Z E}
    `{!LocationBlobMap.LocationBlobMap B} `{!EpochList.EpochList E} :
  CompleteOrMissing (store A B E) FlatReference unit.
Proof.
  intros s r contents leases want s' contents' want'. cbn [os_UploadObject local_ObjectStore].
  unfold UploadObject, uploadWritten. repeat (case_match; try done); simplify_eq.
Qed.

(** ** Leases of children *)

Section children.
Context {A : Type} `{!RecordArray A LocalReference TimeLease TimeLease}.
Context (m : hashMap LocalReference TimeLease).
Context `{!RecordArrayLaws A LocalReference TimeLease TimeLease (recordCount m)}.
Context `{!LeaseArrayLaws A (recordCount m)}.
Hypothesis Hcount : 0 < recordCount m.
Hypothesis Hget : 1 <= maximumGetAttempts m < 2 ^ 8.

(** The caller provides the lease [v] for the child [k] at index [j]; leases
    from the future count as of now. *)
Definition offered (contents : Contents) (leases : list TimeLease) (now j : Z) (k : LocalReference) (v : TimeLease) : Prop :=
  GetOutgoingReference contents j = Ok k /\
  exists l, leases !! Z.to_nat j = Some l /\ v = Z.min l now.

(** The map has the lease [v] for the child [k]. *)
Definition remembered (a : A) (cutoff : Z) (k : LocalReference) (v : TimeLease) : Prop :=
  stored m (ra_view a cutoff) k v.

(** What remains of the map when the lease that the caller provides for the child at
    index [j] is recorded in it, and those of [n] children from index [i] on. *)
Definition putLease (contents : Contents) (leases : list TimeLease) (now e : Z) (a : A) (j : nat) : A :=
  match GetOutgoingReference contents (Z.of_nat j), leases !! j with
  | Ok k, Some l => if e <=? Z.min l now then (hashMap_Put m a k (Z.min l now) e).1 else a
  | _, _ => a
  end.

Definition putLeases (contents : Contents) (leases : list TimeLease) (now e : Z) (a : A) (i n : nat) : A :=
  foldl (putLease contents leases now e) a (seq i n).

(** The lease of the child [k] at index [j] is wanted: neither the caller nor the map
    has one that is recent enough. *)
Definition wanted (a : A) (contents : Contents) (leases : list TimeLease) (now cut e j : Z) (k : LocalReference) : Prop :=
  (forall v, offered contents leases now j k v -> v < cut) /\ forall v, hashMap_Get m a k e = Ok v -> v < cut.

Lemma offerLease_spec a k contents leases j now e :
  ra_inv e a -> GetOutgoingReference contents j = Ok k -> 0 <= j -> (leases = [] \/ j < zlen leases) ->
  exists a' v, offerLease m a k leases j now e = (a', Ok v) /\ ra_inv e a' /\
    a' = putLease contents leases now e a (Z.to_nat j) /\
    (forall k' v', remembered a' e k' v' ->
       remembered a e k' v' \/ k' = k /\ v' = v /\ offered contents leases now j k' v') /\
    (leases = [] /\ v = 0 \/ offered contents leases now j k v).
Proof.
  intros Ha Hk Hj Hl. unfold offerLease, putLease. rewrite Z2Nat.id, Hk by done. destruct leases as [|l0 leases'] eqn:El.
  { exists a, 0. split; [done|]. split; [done|]. split; [done|]. split; [by left|by left]. }
  rewrite <- El in *. assert ((zlen leases >? 0) = true) as -> by (subst; done).
  destruct Hl as [Hl|Hl]; [by rewrite El in Hl|]. unfold zlen in Hl.
  destruct (lookup_lt_is_Some_2 leases (Z.to_nat j)) as [l Hlj]; [lia|].
  rewrite (index_ok _ _ _ Hj Hlj).
  match goal with |- context [match ?x with Some _ => _ | None => _ end] => replace x with (Some l) by (symmetry; exact Hlj) end.
  assert ((if l >? now then now else l) = Z.min l now) as -> by (case_bools; lia).
  assert (offered contents leases now j k (Z.min l now)) as Hoff by (split; [done|by exists l]).
  rewrite Z.geb_leb. destruct (Z.leb_spec e (Z.min l now)) as [Hle|_].
  - destruct (Put_sound m Hcount Hget a k (Z.min l now) e Ha (la_writable e) (la_valid e k _ Hle))
      as (a'&->&Ha'&Hst).
    exists a', (Z.min l now). split; [done|]. split; [done|]. split; [done|]. split; [|by right].
    intros k' v' Hkv. destruct (Hst k' v' Hkv) as [?|[-> ->]]; [by left|]. by right.
  - exists a, (Z.min l now). split; [done|]. split; [done|]. split; [done|]. split; [by left|by right].
Qed.

Lemma lookupLease_spec a k v cut e :
  ra_inv e a ->
  exists v', lookupLease m a k v cut e = Ok v' /\ (v' = v \/ remembered a e k v') /\
    (v' < cut <-> v < cut /\ forall u, hashMap_Get m a k e = Ok u -> u < cut).
Proof.
  intros Ha. unfold lookupLease. destruct (Z.ltb_spec v cut) as [Hlt|Hge].
  - destruct (Get_sound m Hcount Hget a k e Ha) as [(v'&->&Hst)| ->].
    + exists v'. split; [done|]. split; [by right|]. split; [|by intros [_ H]; apply H]. intros H. split; [done|]. by intros u [= <-].
    + exists v. split; [done|]. split; [by left|]. split; [|by intros [H _]]. done.
  - exists v. split; [done|]. split; [by left|]. split; [lia|by intros [H _]].
Qed.

(** A child for which there is a lease that is recent enough: from the caller,
    or from the map. *)
Definition covered (a : A) (contents : Contents) (leases : list TimeLease) (now cut e : Z) (k : LocalReference) : Prop :=
  exists v, cut <= v /\ (remembered a e k v \/ exists j, offered contents leases now j k v).

(** A lease is wanted exactly if the loop finds none that is recent enough. *)
Lemma lookup_wanted a k contents leases j now cut e v v' :
  0 < cut -> GetOutgoingReference contents j = Ok k -> (leases = [] /\ v = 0 \/ offered contents leases now j k v) ->
  (v' < cut <-> v < cut /\ forall u, hashMap_Get m a k e = Ok u -> u < cut) ->
  v' < cut <-> wanted a contents leases now cut e j k.
Proof.
  intros Hcut Hk Hv ->. unfold wanted. apply and_iff_compat_r. split.
  - intros Hlt u (_&l&Hl&->). destruct Hv as [[-> _]|(_&l'&Hl'&->)]; [done|]. congruence.
  - intros H. destruct Hv as [[_ ->]|Ho]; [done|by apply H].
Qed.

Lemma childrenLoop_spec n i a contents leases now cut e :
  ra_inv e a -> 0 <= i -> (leases = [] \/ i + Z.of_nat n <= zlen leases) ->
  (forall j, i <= j < i + Z.of_nat n -> exists k, GetOutgoingReference contents j = Ok k) ->
  exists a' want, childrenLoop n i m a contents leases now cut e = (a', Ok want) /\ ra_inv e a' /\
    a' = putLeases contents leases now e a (Z.to_nat i) n /\
    StronglySorted Z.lt want /\ (forall j, j ∈ want -> i <= j < i + Z.of_nat n) /\
    (0 < cut -> forall j k, i <= j < i + Z.of_nat n -> GetOutgoingReference contents j = Ok k ->
       (j ∈ want <-> wanted (putLeases contents leases now e a (Z.to_nat i) (S (Z.to_nat (j - i)))) contents leases now cut e j k) /\
       (j ∉ want -> covered a contents leases now cut e k)).
Proof.
  revert i a. induction n as [|n IH]; intros i a Ha Hi Hl Hk; cbn [childrenLoop].
  { exists a, []. split; [done|]. split; [done|]. split; [done|]. split; [constructor|].
    split; [by intros j Hj%not_elem_of_nil|]. lia. }
  destruct (Hk i) as [k Ek]; [lia|]. rewrite Ek.
  destruct (offerLease_spec a k contents leases i now e Ha Ek Hi) as (a1&v&->&Ha1&Ea1&Hst1&Hv);
    [destruct Hl; [by left|right; lia]|].
  destruct (lookupLease_spec a1 k v cut e Ha1) as (v'&->&Hv'&Hlt).
  destruct (IH (i + 1) a1 Ha1) as (a2&want&->&Ha2&Ea2&Hsorted&Hrange&Hwant1);
    [lia|destruct Hl; [by left|right; lia]|intros j Hj; apply Hk; lia|].
  replace (Z.to_nat (i + 1)) with (S (Z.to_nat i)) in * by lia.
  set (want' := if v' <? cut then i :: want else want).
  assert (forall j, j ∈ want' <-> (v' < cut /\ j = i) \/ j ∈ want) as Hwant.
  { intros j. unfold want'. destruct (Z.ltb_spec v' cut); [rewrite elem_of_cons|]; intuition lia. }
  exists a2, want'. split; [done|]. split; [done|].
  split; [rewrite Ea2, Ea1; reflexivity|]. split.
  { unfold want'. destruct (v' <? cut); [|done]. constructor; [done|]. apply Forall_forall.
    intros j Hj. specialize (Hrange j Hj). lia. }
  split. { intros j Hj. apply Hwant in Hj as [[_ ->]|Hj]; [lia|]. specialize (Hrange j Hj). lia. }
  assert (forall k0 v0, cut <= v0 -> remembered a1 e k0 v0 -> covered a contents leases now cut e k0) as Hrem.
  { intros k0 v0 Hle Hr. exists v0. split; [done|]. destruct (Hst1 k0 v0 Hr) as [?|(_&_&?)]; [by left|]. right. by exists i. }
  intros Hcut j k0 Hj Hk0. rewrite Hwant. apply (lookup_wanted a1 k contents leases i now) in Hlt; [|done..]. destruct (Z.eq_dec j i) as [->|Hne].
  - rewrite Ek in Hk0. injection Hk0 as <-. replace (Z.to_nat (i - i)) with 0%nat by lia.
    change (putLeases contents leases now e a (Z.to_nat i) 1) with (putLease contents leases now e a (Z.to_nat i)).
    rewrite <- Ea1, <- Hlt. assert (i ∉ want) as Hi' by (intros Hin; specialize (Hrange i Hin); lia).
    split; [tauto|]. intros Hnot. assert (cut <= v') as Hle by (destruct (Z.lt_ge_cases v' cut); [tauto|lia]).
    destruct Hv' as [->|Hr]; [|by apply (Hrem k v')]. exists v. split; [done|]. destruct Hv as [[_ ->]|Ho]; [lia|].
    right. by exists i.
  - destruct (Hwant1 Hcut j k0) as [Hw Hcov]; [lia|done|].
    replace (S (Z.to_nat (j - i))) with (S (S (Z.to_nat (j - (i + 1))))) by lia.
    change (putLeases contents leases now e a (Z.to_nat i) (S (S (Z.to_nat (j - (i + 1))))))
      with (putLeases contents leases now e (putLease contents leases now e a (Z.to_nat i)) (S (Z.to_nat i)) (S (Z.to_nat (j - (i + 1))))).
    rewrite <- Ea1, <- Hw. split; [tauto|]. intros Hnot.
    destruct Hcov as (v0&Hle&[Hr|Ho]); [tauto|by apply (Hrem k0 v0)|]. exists v0. split; [done|by right].
Qed.
End children.

(** ** The store as an object store *)

Lemma object_flatten r c :
  valid_reference r -> object_of r c -> object_of (Flatten r) (FlattenContents c).
Proof.
  intros Hr [Hb Hok]. destruct c as [rc d]. cbn [contentsData] in *.
  destruct (NewContentsFromFullData_Ok _ _ _ Hok) as ([= ->]&Hsize&Hhash).
  rewrite FlattenContents_eq. split; [exact Hb|]. by apply flat_FromFullData.
Qed.

(** What a flat backend returns is validated as the object with its children. *)
Lemma Unflatten_object r c :
  valid_reference r -> object_of (Flatten r) c ->
  Unflatten c r = errInvalidArgument \/
  Unflatten c r = Ok (mkContents r (contentsData c)) /\ object_of r (mkContents r (contentsData c)).
Proof.
  intros Hr [Hb Hok]. destruct c as [rc d]. cbn [contentsData] in *.
  destruct (NewContentsFromFullData_Ok _ _ _ Hok) as ([= ->]&Hsize&Hhash).
  destruct (flattened_valid r Hr) as (_&Eh&Es&_).
  cbn [or_GetLocalReference FlatReference_ObjectReference] in *. rewrite Es in Hsize. rewrite Eh in Hhash.
  rewrite Unflatten_flat by done.
  destruct (NewContentsFromFullData_cases r d Hr Hb) as [HE|(refs&payload&_&_&HE&_)]; rewrite HE; [by left|right].
  split; [done|]. by split.
Qed.

Section laws.
Context {SB C A : Type} `{!ObjectStore SB FlatReference unit} `{!Clock C}.
Context `{!ObjectStoreLaws SB FlatReference unit} `{!CompleteOrMissing SB FlatReference unit}.
Context `{!RecordArray A LocalReference TimeLease TimeLease}.
Context (m : hashMap LocalReference TimeLease).
Context `{!RecordArrayLaws A LocalReference TimeLease TimeLease (recordCount m)}.
Context `{!LeaseArrayLaws A (recordCount m)}.
Hypothesis Hcount : 0 < recordCount m.
Hypothesis Hget : 1 <= maximumGetAttempts m < 2 ^ 8.
Abbreviation FS := (flatStore SB C A).

Lemma fb_download_spec n (b : SB) r b' res :
  0 <= n -> os_inv (n + os_cost SB (Flatten r)) b -> valid_reference r -> os_accepts SB (Flatten r) ->
  fb_download b r = (b', res) ->
  os_inv n b' /\ res <> Panic /\
  (forall c, res = Ok c -> object_of r c /\ os_has b' (Flatten r)) /\
  (forall e, res = Err e -> isNotFound e = true -> ~ os_has b (Flatten r)).
Proof.
  intros Hn Hi Hr Hacc. unfold fb_download.
  destruct (os_DownloadObject b (Flatten r)) as [b1 res1] eqn:E.
  destruct (os_Download n b (Flatten r) b1 res1 Hn Hi Hacc E) as (H1&H2&H3&H4).
  intros [= <- <-]. split; [done|]. destruct res1 as [c|e|]; cbn [mbind outcome_bind]; [|by split_and!|done].
  destruct (H3 c eq_refl) as [Hc Hhas].
  destruct (Unflatten_object r c Hr Hc) as [->|[-> Hc']].
  - split; [done|]. split; [done|]. by intros e [= <-].
  - split; [done|]. split; [|done]. intros c' [= <-]. by split.
Qed.

Lemma obtainContents_spec n (b : SB) r contents b' res :
  0 <= n -> os_inv (n + os_cost SB (Flatten r)) b -> valid_reference r -> os_accepts SB (Flatten r) ->
  (forall c, contents = Some c -> object_of r c) -> os_has b (Flatten r) ->
  obtainContents b r contents = (b', res) ->
  os_inv n b' /\ res <> Panic /\ (forall e, res = Err e -> isNotFound e = false) /\
  (forall c, res = Ok c -> object_of r c /\ os_has b' (Flatten r)).
Proof.
  intros Hn Hi Hr Hacc Hc Hhas. pose proof (os_cost_nonneg _ Hacc).
  unfold obtainContents. destruct contents as [c|].
  - intros [= <- <-]. split; [eapply os_inv_mono; [|exact Hi]; lia|]. split; [done|]. split; [done|].
    intros c' [= <-]. split; [by apply Hc|done].
  - destruct (fb_download b r) as [b1 res1] eqn:E.
    destruct (fb_download_spec n b r b1 res1 Hn Hi Hr Hacc E) as (H1&H2&H3&H4).
    intros [= <- <-]. split; [done|]. destruct res1 as [c|e|]; [by split_and!| |done].
    destruct (isNotFound e) eqn:Ee; (split; [done|]; split; [|done]); by intros e' [= <-].
Qed.

(** The children of an object whose contents are at hand. *)
Lemma children_readable r c :
  valid_reference r -> object_of r c ->
  forall j, 0 <= j < GetDegree r -> exists k, GetOutgoingReference c j = Ok k.
Proof.
  intros Hr [Hb Hok] j Hj. cbn [or_GetLocalReference LocalReference_ObjectReference] in Hok.
  destruct c as [rc d]. cbn [contentsData] in *.
  destruct (NewContentsFromFullData_Ok _ _ _ Hok) as ([= ->]&_).
  destruct (GetOutgoingReference_total r d j Hr Hb Hok Hj) as (k&?&_). by exists k.
Qed.

(** What a cutoff has to be: the clock is further than two durations from the
    start of the epoch. *)
Definition clock_ok (duration now : Z) : Prop := 0 <= duration /\ 2 * duration < now < 2 ^ 64.

Lemma cutoffs duration now :
  clock_ok duration now ->
  expirationCutoffAt duration now = now - 2 * duration /\
  forall leases, incompleteCutoffAt duration now leases =
    if zlen leases >? 0 then now - 2 * duration else now - duration.
Proof.
  intros [Hd Hn]. unfold incompleteCutoffAt, expirationCutoffAt, sub_u64, u64.
  rewrite !Z.mod_small by (rewrite ?Z.mod_small; lia).
  split; [lia|]. intros leases. case_match; lia.
Qed.

(** The children are those of [c], whose leases have been recorded one after the other
    in [rec], which leads to [rec']; [want] are the children of which a lease is wanted
    when it is their turn. *)
Definition leases_checked (rec rec' : A) (r : LocalReference) (c : Contents) (leases : list TimeLease)
    (now cut e : Z) (want : list Z) : Prop :=
  rec' = putLeases m c leases now e rec 0 (Z.to_nat (GetDegree r)) /\
  (0 < cut -> forall j k, 0 <= j < GetDegree r -> GetOutgoingReference c j = Ok k ->
     (j ∈ want <-> wanted m (putLeases m c leases now e rec 0 (S (Z.to_nat j))) c leases now cut e j k) /\
     (j ∉ want -> covered m rec c leases now cut e k)).

(** What an upload at time [now] tells: [rec] are the leases that were known
    before, and [rec'] those after it. *)
Definition flat_result_ok (rec rec' : A) (b : SB) (r : LocalReference) (contents : option Contents)
    (leases : list TimeLease) (duration now : Z) (x : UploadObjectResult TimeLease) : Prop :=
  let checked c := leases_checked rec rec' r c leases now (incompleteCutoffAt duration now leases) (expirationCutoffAt duration now) in
  match x with
  | UploadObjectComplete lease =>
      lease = now /\ os_has b (Flatten r) /\ (0 < GetDegree r -> exists c, object_of r c /\ checked c [])
  | UploadObjectIncomplete c' want =>
      os_has b (Flatten r) /\ (forall c, c' = Some c -> object_of r c) /\
      want <> [] /\ StronglySorted Z.lt want /\ (forall j, j ∈ want -> 0 <= j < GetDegree r) /\
      exists c, object_of r c /\ checked c want
  | UploadObjectMissing => contents = None
  end.

Lemma flat_Upload_spec n (s : FS) r contents leases want s' res :
  0 <= n -> os_inv (n + 2 * os_cost SB (Flatten r)) (fb_base s) -> ra_inv 0 (leaseRecords s) ->
  leasesMap s = m -> valid_reference r -> os_accepts SB (Flatten r) ->
  (forall c, contents = Some c -> object_of r c) -> leases_for r leases ->
  flat_UploadObject s r contents leases want = (s', res) ->
  (os_inv n (fb_base s') /\ ra_inv 0 (leaseRecords s') /\ leasesMap s' = m) /\ res <> Panic /\
  (forall e c, res = Err e -> contents = Some c -> isNotFound e = false) /\
  forall x, res = Ok x -> flat_result_ok (leaseRecords s) (leaseRecords s') (fb_base s') r contents leases
    (leaseCompletenessDuration s) (u64 (snd (UnixNano (fb_clock s)))) x.
Proof.
  intros Hn Hi Ha Hm Hr Hacc Hc Hl. pose proof (os_cost_nonneg _ Hacc) as Hcost.
  unfold flat_UploadObject. destruct (UnixNano (fb_clock s)) as [ck nano]. cbn [snd].
  set (now := u64 nano). set (duration := leaseCompletenessDuration s).
  destruct (os_UploadObject (fb_base s) _ _ _ _) as [b1 res1] eqn:E1.
  destruct (os_Upload (n + os_cost SB (Flatten r)) (fb_base s) (Flatten r) (FlattenContents <$> contents) [] false b1 res1)
    as (H1&H2&H3&H4); [lia|by replace (n + _ + _) with (n + 2 * os_cost SB (Flatten r)) by lia|done| |by left|done|].
  { intros c Ec. destruct contents as [c0|]; [|done]. injection Ec as <-. by apply object_flatten, Hc. }
  assert (os_inv n b1) as H1' by (eapply os_inv_mono; [|exact H1]; lia).
  destruct res1 as [x|e|]; [|intros [= <- <-]|done].
  2: { split; [done|]. split; [done|]. split; [|done]. intros e' c [= <-] ->. by apply (H3 e (FlattenContents c)). }
  specialize (H4 x eq_refl). destruct x as [u|c' w|].
  - destruct (Z.gtb_spec (GetDegree r) 0) as [Hdeg|Hdeg].
    2: { intros [= <- <-]. split; [done|]. split; [done|]. split; [done|]. intros x [= <-].
      split; [done|]. split; [done|]. lia. }
    destruct (obtainContents b1 r contents) as [b2 res2] eqn:E2.
    destruct (obtainContents_spec n b1 r contents b2 res2 Hn H1 Hr Hacc Hc H4 E2) as (I1&I2&I3&I4).
    destruct res2 as [c|e|]; [|intros [= <- <-]|done].
    2: { split; [done|]. split; [done|]. split; [|done]. intros e' c [= <-] _. by apply I3. }
    destruct (I4 c eq_refl) as [Hobj Hhas].
    destruct (childrenLoop_spec m Hcount Hget (Z.to_nat (GetDegree r)) 0 (leaseRecords s) c leases now
      (incompleteCutoffAt duration now leases) (expirationCutoffAt duration now))
      as (a&w&Ew&Ha'&Ea&Hsorted&Hrange&Hchecked); [exact (la_inv _ _ _ Ha)|done| | |].
    { destruct Hl as [->|Hl]; [by left|right]. cbn in Hl. lia. }
    { intros j Hj. apply (children_readable r c Hr Hobj). lia. }
    rewrite Hm, Ew. cbn [mbind outcome_bind]. apply (la_inv _ 0) in Ha'.
    assert (leases_checked (leaseRecords s) a r c leases now (incompleteCutoffAt duration now leases) (expirationCutoffAt duration now) w) as Hall.
    { split; [done|]. intros Hcut j k Hj Hk. specialize (Hchecked Hcut j k). rewrite Z.sub_0_r in Hchecked. apply Hchecked; [lia|done]. }
    destruct w as [|j0 w'] eqn:Eqw; cbv [zlen length Z.of_nat]; cbn [Z.gtb Z.compare]; rewrite <- ?Eqw in *; 
      intros [= <- <-]; (split; [done|]; split; [done|]; split; [done|]); intros x [= <-].
    + split; [done|]. split; [done|]. intros _. exists c. split; [done|]. by rewrite <- Eqw.
    + split; [done|]. split; [by destruct want; [intros ? [= <-]|done]|]. split; [by rewrite Eqw|].
      split; [done|]. split; [intros j Hj; specialize (Hrange j Hj); lia|]. by exists c.
  - by destruct (never_incomplete _ _ _ _ _ _ _ _ E1).
  - intros [= <- <-]. split; [done|]. split; [done|]. split; [done|]. intros x [= <-]. simpl. by destruct contents.
Qed.

Definition flatbacked_laws : ObjectStoreLaws FS LocalReference TimeLease.
Proof using All.
  refine {|
    os_inv n (s : FS) := os_inv n (fb_base s) /\ ra_inv 0 (leaseRecords s) /\ leasesMap s = m;
    os_cost r := 2 * os_cost SB (Flatten r);
    os_accepts r := valid_reference r /\ os_accepts SB (Flatten r);
    os_has (s : FS) r := os_has (fb_base s) (Flatten r);
  |}.
  - intros n n' s Hle (Hi&?&?). split; [|done]. by eapply os_inv_mono.
  - intros r [_ Hacc]. pose proof (os_cost_nonneg _ Hacc). lia.
  - intros n s r s' res Hn (Hi&Ha&Hm) [Hr Hacc]. cbn [os_DownloadObject flat_ObjectStore].
    unfold flat_DownloadObject. destruct (fb_download (fb_base s) r) as [b res1] eqn:E. intros [= <- <-].
    pose proof (os_cost_nonneg _ Hacc).
    destruct (fb_download_spec n (fb_base s) r b res1) as (H1&H2&H3&H4); [done| |done|done|done|].
    { eapply os_inv_mono; [|exact Hi]. lia. }
    by split_and!.
  - intros n s r contents leases want s' res Hn (Hi&Ha&Hm) [Hr Hacc] Hc Hl E.
    destruct (flat_Upload_spec n s r contents leases want s' res) as (H1&H2&H3&H4); [done..|].
    split; [done|]. split; [done|]. split; [done|]. intros x Hx. specialize (H4 x Hx).
    destruct x; simpl in H4; [by apply H4| |done]. split; apply H4.
Defined.
End laws.

(** ** Properties *)

(** C17: An object is only reported as complete when the backend has it and
    every child is covered by a lease that is recent enough: one that the
    caller provided (leases from the future count as of now) or one that was
    in the map.  The lease that is handed out is the current time.  Otherwise
    the indices of children that are wanted are non-empty, strictly increasing
    and within the degree.  They are exactly those of the children for which neither the
    caller provides a lease that is recent enough, nor the map has one after the leases
    for the children up to this one have been put in it; of a complete object there are
    none.  After the call the map has the leases of all children that are valid. *)
Theorem flat_UploadObject_leases {SB C A} `{!ObjectStore SB FlatReference unit} `{!Clock C}
    `{!ObjectStoreLaws SB FlatReference unit} `{!CompleteOrMissing SB FlatReference unit}
    `{!RecordArray A LocalReference TimeLease TimeLease} (m : hashMap LocalReference TimeLease)
    `{!RecordArrayLaws A LocalReference TimeLease TimeLease (recordCount m)}
    `{!LeaseArrayLaws A (recordCount m)} (s : flatStore SB C A) r contents leases want s' res :
  let duration := leaseCompletenessDuration s in
  let now := u64 (snd (UnixNano (fb_clock s))) in
  let cut := if zlen leases >? 0 then now - 2 * duration else now - duration in
  0 < recordCount m -> 1 <= maximumGetAttempts m < 2 ^ 8 -> clock_ok duration now ->
  os_inv (2 * os_cost SB (Flatten r)) (fb_base s) -> ra_inv 0 (leaseRecords s) ->
  leasesMap s = m -> valid_reference r -> os_accepts SB (Flatten r) ->
  (forall c, contents = Some c -> object_of r c) -> leases_for r leases ->
  flat_UploadObject s r contents leases want = (s', res) ->
  res <> Panic /\ ra_inv 0 (leaseRecords s') /\
  forall x, res = Ok x ->
    let recorded c n := putLeases m c leases now (now - 2 * duration) (leaseRecords s) 0 n in
    let wants c j k := wanted m (recorded c (S (Z.to_nat j))) c leases now cut (now - 2 * duration) j k in
    match x with
    | UploadObjectComplete lease =>
        lease = now /\ os_has (fb_base s') (Flatten r) /\
        (0 < GetDegree r -> exists c, object_of r c /\ leaseRecords s' = recorded c (Z.to_nat (GetDegree r)) /\
         forall j k, 0 <= j < GetDegree r -> GetOutgoingReference c j = Ok k ->
           ~ wants c j k /\ covered m (leaseRecords s) c leases now cut (now - 2 * duration) k)
    | UploadObjectIncomplete c' want =>
        os_has (fb_base s') (Flatten r) /\ (forall c, c' = Some c -> object_of r c) /\
        want <> [] /\ StronglySorted Z.lt want /\ (forall j, j ∈ want -> 0 <= j < GetDegree r) /\
        exists c, object_of r c /\ leaseRecords s' = recorded c (Z.to_nat (GetDegree r)) /\
         forall j k, 0 <= j < GetDegree r -> GetOutgoingReference c j = Ok k -> (j ∈ want <-> wants c j k)
    | UploadObjectMissing => contents = None
    end.
Proof.
  intros duration now cut Hcount Hget Hclock Hi Ha Hm Hr Hacc Hc Hl E.
  destruct (flat_Upload_spec m Hcount Hget 0 s r contents leases want s' res)
    as ((_&Ha'&_)&H2&_&H4); [done..|]. split; [done|]. split; [done|].
  intros x Hx recorded wants. specialize (H4 x Hx). fold duration now in H4. unfold flat_result_ok, leases_checked in H4.
  destruct (cutoffs duration now Hclock) as [He Hcut]. rewrite Hcut, He in H4. fold cut in H4.
  assert (0 < cut) as Hpos by (unfold cut; destruct Hclock, (zlen leases >? 0); lia). destruct x; [| |done].
  - destruct H4 as (?&?&Hch). split; [done|]. split; [done|]. intros Hdeg. destruct (Hch Hdeg) as (c&Hobj&Hrec&Hchk).
    exists c. split; [done|]. split; [done|]. intros j k Hj Hk. destruct (Hchk Hpos j k Hj Hk) as [Hw Hcov].
    split; [|apply Hcov, not_elem_of_nil]. intros Hwj. apply Hw in Hwj. by apply not_elem_of_nil in Hwj.
  - destruct H4 as (?&?&?&?&?&c&Hobj&Hrec&Hchk). split_and!; try done. exists c. split; [done|]. split; [done|].
    intros j k Hj Hk. apply (Hchk Hpos j k Hj Hk).
Qed.

(** A store of which the backend holds the example object, at time 1000, with
    room for four leases. *)
#[global] Instance fixedClock : Clock Z := fun now => (now, now).

Definition exampleParentFlat : FlatReference := Flatten (contentsReference exampleParent).

Definition flatExampleStore : ExampleStore :=
  fst (UploadObject exampleStore exampleParentFlat (Some (FlattenContents exampleParent))).

Definition exampleLeasesMap : hashMap LocalReference TimeLease :=
  mkHashMap 4 (fun rk => nth 0 (rawReference (Key rk)) 0 + Attempt rk) cmp_Compare 3 5.

Definition exampleFlatStore : flatStore ExampleStore Z inMemoryLeases :=
  mkFlatStore flatExampleStore 1000 100 exampleLeasesMap (NewInMemoryRecordArray 4).

Lemma exampleParentFlat_ok :
  FlatReference_ok exampleParentFlat /\ FlatReference_GetSizeBytes exampleParentFlat = 41.
Proof. split; [apply Flatten_ok, exampleParent_valid|vm_compute; reflexivity]. Qed.

Lemma flatExampleStore_inv :
  store_inv 64 2 5 3 4 flatExampleStore /\ GetNextPutLocation (locationBlobMap flatExampleStore) <= 41.
Proof.
  destruct exampleParentFlat_ok as [Hk Hsize].
  assert (zlen (contentsData (FlattenContents exampleParent)) = 41) as Hlen by (vm_compute; reflexivity).
  destruct (UploadObject_Some (G := Z) 64 2 5 3 4 ltac:(lia) ltac:(lia) ltac:(lia) ltac:(lia)
    exampleStore exampleParentFlat (FlattenContents exampleParent) exampleStore_inv Hk)
    as (s'&l&HU&Hs'&Hn&_).
  - apply matches_Ok; [exact Hk|lia|exact exampleParent_bytes|vm_compute; reflexivity].
  - rewrite Hlen. vm_compute. reflexivity.
  - unfold flatExampleStore. rewrite HU. rewrite Hlen in Hn. split; [exact Hs'|]. simpl in *. lia.
Qed.

Definition exampleFlatLaws : ObjectStoreLaws ExampleStore FlatReference unit :=
  local_laws 64 2 5 3 4 ltac:(lia) ltac:(lia) ltac:(lia) ltac:(lia).

(** The same with a lease for the child of the example object, of the time 950. *)
Definition rememberingStore : flatStore ExampleStore Z inMemoryLeases :=
  let a := NewInMemoryRecordArray 4 in
  mkFlatStore flatExampleStore 1000 100 exampleLeasesMap
    match GetOutgoingReference exampleParent 0 with
    | Ok k => (hashMap_Put exampleLeasesMap a k 950 800).1
    | _ => a
    end.

Abbreviation uploadAgain s leases := (flat_UploadObject s (contentsReference exampleParent) None leases false).

Lemma flat_example_hypotheses :
  os_inv (ObjectStoreLaws := exampleFlatLaws) (2 * os_cost (ObjectStoreLaws := exampleFlatLaws) ExampleStore exampleParentFlat) flatExampleStore /\
  os_accepts (ObjectStoreLaws := exampleFlatLaws) ExampleStore exampleParentFlat.
Proof.
  destruct exampleParentFlat_ok as [Hk Hsize]. destruct flatExampleStore_inv as [Hs Hnext]. split.
  - change (local_inv 64 2 5 3 4 (2 * FlatReference_GetSizeBytes exampleParentFlat) flatExampleStore).
    split; [exact Hs|]. lia.
  - split; [exact Hk|]. change (1 <= FlatReference_GetSizeBytes exampleParentFlat <= 64). lia.
Qed.

(** Without leases of the caller, the one that is in the map decides. *)
Lemma flat_UploadObject_leases_witness :
  (snd (uploadAgain rememberingStore []) = Ok (UploadObjectComplete 1000) /\
   exists c, object_of (contentsReference exampleParent) c /\ forall k, GetOutgoingReference c 0 = Ok k ->
     covered exampleLeasesMap (leaseRecords rememberingStore) c [] 1000 900 800 k) /\
  (snd (uploadAgain exampleFlatStore []) = Ok (UploadObjectIncomplete None [0]) /\
   exists c, object_of (contentsReference exampleParent) c /\ forall k, GetOutgoingReference c 0 = Ok k ->
     wanted exampleLeasesMap (putLeases exampleLeasesMap c [] 1000 800 (leaseRecords exampleFlatStore) 0 1) c [] 1000 900 800 0 k).
Proof.
  destruct flat_example_hypotheses as [Hi Hacc].
  assert (snd (uploadAgain rememberingStore []) = Ok (UploadObjectComplete 1000)) as H1 by (vm_compute; reflexivity).
  assert (snd (uploadAgain exampleFlatStore []) = Ok (UploadObjectIncomplete None [0])) as H2 by (vm_compute; reflexivity).
  split; (split; [assumption|]).
  - destruct (flat_UploadObject_leases (ObjectStoreLaws0 := exampleFlatLaws) exampleLeasesMap rememberingStore
      (contentsReference exampleParent) None [] false (fst (uploadAgain rememberingStore [])) (snd (uploadAgain rememberingStore []))) as (_&_&H).
    + reflexivity.
    + simpl; lia.
    + vm_compute. repeat split; congruence.
    + exact Hi.
    + vm_compute. split; [reflexivity|]. repeat constructor; congruence.
    + reflexivity.
    + exact exampleParent_valid.
    + exact Hacc.
    + intros c [=].
    + left. reflexivity.
    + apply surjective_pairing.
    + specialize (H _ H1). change (u64 (snd (UnixNano (fb_clock rememberingStore)))) with 1000 in H. cbv zeta in H.
      change (zlen [] >? 0) with false in H. cbv iota in H. change (leaseCompletenessDuration rememberingStore) with 100 in H.
      change (1000 - 100) with 900 in H. change (1000 - 2 * 100) with 800 in H.
      destruct H as (_&_&H'). destruct H' as (c&Hc&_&Hall); [vm_compute; reflexivity|].
      exists c. split; [exact Hc|]. intros k Hk. destruct (Hall 0 k) as [_ Hcov]; [vm_compute; split; congruence|exact Hk|exact Hcov].
  - destruct (flat_UploadObject_leases (ObjectStoreLaws0 := exampleFlatLaws) exampleLeasesMap exampleFlatStore
      (contentsReference exampleParent) None [] false (fst (uploadAgain exampleFlatStore [])) (snd (uploadAgain exampleFlatStore []))) as (_&_&H).
    + reflexivity.
    + simpl; lia.
    + vm_compute. repeat split; congruence.
    + exact Hi.
    + vm_compute. split; [reflexivity|]. repeat constructor; congruence.
    + reflexivity.
    + exact exampleParent_valid.
    + exact Hacc.
    + intros c [=].
    + left. reflexivity.
    + apply surjective_pairing.
    + specialize (H _ H2). change (u64 (snd (UnixNano (fb_clock exampleFlatStore)))) with 1000 in H. cbv zeta in H.
      change (zlen [] >? 0) with false in H. cbv iota in H. change (leaseCompletenessDuration exampleFlatStore) with 100 in H.
      change (1000 - 100) with 900 in H. change (1000 - 2 * 100) with 800 in H.
      destruct H as (_&_&_&_&_&c&Hc&_&Hall).
      exists c. split; [exact Hc|]. intros k Hk. destruct (Hall 0 k) as [Hw _]; [vm_compute; split; congruence|exact Hk|].
      apply Hw. constructor.
Defined.
