(* ===== verification/LeaseRecords.v ===== *)
(** * Leases on a block device

    [pkg/storage/object/flatbacked/block_device_backed_lease_record_array.go]:
    the record array for leases that is kept on storage.  [Put] writes the lease
    behind the reference and the attempt, at offset 41; [Get] reads it at offset
    36, using the size of a flat reference, so that it does not return the lease
    that was written ([deviceLeases_Get_misreads]).

    This file also has the laws of the lease marshaler of [lease.go]. *)

From S2P Require Import Prelude Varint LossyMap References BlockDevice ObjectStore LeaseMarshaling FlatBacked.

Definition blockDeviceBackedReferenceLeaseRecordSize : Z := SHA256V1ReferenceSizeBytes + 1 + 8.

Record blockDeviceBackedLeaseRecordArray (D : Type) := mkLeaseArray { leaseDevice : D }.
Arguments mkLeaseArray {D} _.
Arguments leaseDevice {D} _.

Abbreviation LeaseRecord := (MapRecord LocalReference TimeLease).

Section block_device.
Context {D : Type} `{!BlockDevice D}.

(** What [Get] does with the 49 bytes that it read. *)
Definition decodeLease (record : list Z) (minimumLease : TimeLease) : outcome LeaseRecord :=
  raw ← slice record 0 SHA256V1ReferenceSizeBytes;
  match NewLocalReference raw with
  | Panic => Panic
  | Err _ => Err ErrRecordInvalidOrExpired
  | Ok reference =>
      tail ← slice_from record (SHA256V1FlatReferenceSizeBytes + 1);
      lease ← LittleEndian_Uint 8 tail;
      if lease <? minimumLease then Err ErrRecordInvalidOrExpired else
      attempt ← index record SHA256V1ReferenceSizeBytes;
      Ok (mkMapRecord (mkRecordKey reference attempt) lease)
  end.

Definition deviceLeases_Get (lra : blockDeviceBackedLeaseRecordArray D) (i : Z) (minimumLease : TimeLease)
    : outcome LeaseRecord :=
  record ← ReadAt (leaseDevice lra) (i64 (i64 i * blockDeviceBackedReferenceLeaseRecordSize))
    blockDeviceBackedReferenceLeaseRecordSize;
  decodeLease record minimumLease.

(** The 49 bytes that [Put] writes. *)
Definition encodeLease (record : LeaseRecord) : list Z :=
  let raw := replicate 49 0 in
  let raw := copy_at raw 0 (rawReference (Key (recordKey record))) in
  let raw := <[40%nat := Attempt (recordKey record)]> raw in
  copy_at raw 41 (le_bytes 8 (Value record)).

(** The check of the reference format cannot fail: there is only one. *)
Definition deviceLeases_Put (lra : blockDeviceBackedLeaseRecordArray D) (i : Z) (record : LeaseRecord)
    (minimumLease : TimeLease) : blockDeviceBackedLeaseRecordArray D * outcome unit :=
  if Value record >=? minimumLease then
    let '(dev, res) := WriteAt (leaseDevice lra) (encodeLease record)
      (i64 (i64 i * blockDeviceBackedReferenceLeaseRecordSize)) in
    (mkLeaseArray dev, res)
  else (lra, Ok tt).

#[global] Instance blockDeviceLeases_RecordArray
    : RecordArray (blockDeviceBackedLeaseRecordArray D) LocalReference TimeLease TimeLease := {
  ra_Get := deviceLeases_Get;
  ra_Put := deviceLeases_Put;
}.
End block_device.

(** ** What is read back *)

Lemma encodeLease_layout record :
  LocalReference_ok (Key (recordKey record)) ->
  encodeLease record =
  rawReference (Key (recordKey record)) ++ [Attempt (recordKey record)] ++ le_bytes 8 (Value record).
Proof.
  intros [Hlen _]. unfold encodeLease.
  change (replicate 49 0) with ([] ++ replicate 40 0 ++ (0 :: replicate 8 0)).
  rewrite copy_at_app by (rewrite ?length_replicate; done). rewrite app_nil_l.
  rewrite insert_app_r_alt by lia. rewrite Hlen. set (a := Attempt (recordKey record)).
  change (<[(40 - 40)%nat := a]> (0 :: replicate 8 0)) with ([a] ++ replicate 8 0 ++ []).
  rewrite app_assoc. rewrite copy_at_app by (rewrite ?length_app, ?length_le_bytes, ?Hlen; done).
  by rewrite app_nil_r, <- app_assoc.
Qed.

(** What [Get] takes for the lease: the last two fields of the reference, the
    attempt, and the low three bytes of the lease. *)
Definition misreadLease (record : LeaseRecord) : Z :=
  let r := Key (recordKey record) in
  GetDegree r + 2 ^ 16 * getRawMaximumTotalParentsSizeBytes r +
  2 ^ 32 * Attempt (recordKey record) + 2 ^ 40 * (Value record mod 2 ^ 24).

Lemma misread_bytes record :
  LocalReference_ok (Key (recordKey record)) ->
  le_uint (take 8 (drop 36 (encodeLease record))) = misreadLease record.
Proof.
  intros Hr. rewrite encodeLease_layout by done. unfold misreadLease.
  set (r := Key (recordKey record)) in *. pose proof (fields_range r Hr) as (Hh&Hs&Hht&Hd&Hp).
  rewrite (reference_fields r Hr) at 1. cbn [rawReference]. unfold encodeReference.
  set (pre := GetHash r ++ le_bytes 3 (GetSizeBytes r) ++ [GetHeight r]).
  assert (length pre = 36%nat) as Hpre by (unfold pre; rewrite !length_app, Hh, length_le_bytes; done).
  replace ((GetHash r ++ le_bytes 3 (GetSizeBytes r) ++ [GetHeight r] ++ le_bytes 2 (GetDegree r) ++
      le_bytes 2 (getRawMaximumTotalParentsSizeBytes r)) ++
      [Attempt (recordKey record)] ++ le_bytes 8 (Value record))
    with (pre ++ le_bytes 2 (GetDegree r) ++ le_bytes 2 (getRawMaximumTotalParentsSizeBytes r) ++
      [Attempt (recordKey record)] ++ le_bytes 8 (Value record))
    by (unfold pre; by rewrite <- !app_assoc).
  rewrite drop_app_length' by done.
  change 8%nat with (2 + (2 + (1 + 3)))%nat at 1.
  change (le_bytes 8) with (le_bytes (3 + 5)). rewrite (le_bytes_add 3 5).
  rewrite take_app_add' by (by rewrite length_le_bytes).
  rewrite take_app_add' by (by rewrite length_le_bytes). rewrite take_app_add' by done.
  rewrite take_app_length' by (by rewrite length_le_bytes).
  rewrite !le_uint_app, !le_uint_bytes, !length_le_bytes. cbn [le_uint length].
  unfold is_u16 in *.
  change (256 ^ Z.of_nat 2) with (2 ^ 16). change (256 ^ Z.of_nat 1) with 256.
  change (256 ^ Z.of_nat 3) with (2 ^ 24). rewrite !Z.mod_small by lia. lia.
Qed.

Section laws.
Context {D : Type} `{!BlockDevice D} (size : Z) `{!BlockDeviceLaws D size}.
Hypothesis Hsize : size < 2 ^ 63.

Lemma lease_offset count i :
  count * blockDeviceBackedReferenceLeaseRecordSize <= size -> 0 <= i < count ->
  i64 (i64 i * blockDeviceBackedReferenceLeaseRecordSize) = i * 49 /\ 0 <= i * 49 /\ i * 49 + 49 <= size.
Proof.
  change blockDeviceBackedReferenceLeaseRecordSize with 49. intros Hc Hi.
  unfold i64. rewrite !sext_id; [lia|lia|change (64 - 1) with 63; lia|lia|].
  rewrite sext_id; change (64 - 1) with 63; lia.
Qed.

Lemma NewLocalReference_raw r : valid_reference r -> NewLocalReference (rawReference r) = Ok r.
Proof. intros Hr. apply NewLocalReference_Ok; [apply Hr|done]. Qed.

Lemma decodeLease_encodeLease record minimumLease :
  valid_reference (Key (recordKey record)) -> 0 <= Attempt (recordKey record) < 2 ^ 8 ->
  decodeLease (encodeLease record) minimumLease =
  if misreadLease record <? minimumLease then Err ErrRecordInvalidOrExpired
  else Ok (mkMapRecord (recordKey record) (misreadLease record)).
Proof using.
  intros Hr Ha. pose proof Hr as [Hok _]. pose proof Hok as [Hlen _].
  pose proof (misread_bytes record Hok) as Hmis. unfold decodeLease. rewrite encodeLease_layout in * by done.
  set (k := Key (recordKey record)) in *. set (a := Attempt (recordKey record)) in *.
  rewrite slice_prefix by (unfold zlen; rewrite Hlen; done). cbn [mbind outcome_bind].
  rewrite NewLocalReference_raw by done.
  assert (zlen (rawReference k ++ [a] ++ le_bytes 8 (Value record)) = 49) as Hl49
    by (unfold zlen; rewrite !length_app, Hlen, length_le_bytes; done).
  change (SHA256V1FlatReferenceSizeBytes + 1) with 36.
  rewrite slice_from_ok by lia. cbn [mbind outcome_bind]. change (Z.to_nat 36) with 36%nat.
  unfold LittleEndian_Uint. rewrite Hmis.
  assert ((Z.of_nat 8 <=? zlen (drop 36 (rawReference k ++ [a] ++ le_bytes 8 (Value record)))) = true) as ->.
  { apply Z.leb_le. unfold zlen in *. rewrite length_drop. lia. }
  cbn [mbind outcome_bind]. destruct (_ <? minimumLease); [done|].
  rewrite (index_ok _ 40 a); [|done|]. 
  - cbn [mbind outcome_bind]. subst k a. by destruct (recordKey record).
  - change (Z.to_nat 40) with 40%nat. by rewrite lookup_app_r, Hlen by lia.
Qed.
End laws.

(** The block-device-backed lease array does not return the leases that
    were stored in it.  A lease is written at offset 41 of its record, but read
    at offset 36: what [Get] returns for a lease that [Put] has just written
    consists of the last two fields of the reference, the attempt, and only the
    low 24 bits of the lease, whatever the lease was. *)
Theorem deviceLeases_Get_misreads {D} `{!BlockDevice D} (size : Z) `{!BlockDeviceLaws D size} count
    (a : blockDeviceBackedLeaseRecordArray D) i (record : LeaseRecord) (minimumLease : TimeLease) :
  size < 2 ^ 63 -> count * blockDeviceBackedReferenceLeaseRecordSize <= size -> 0 <= i < count ->
  valid_reference (Key (recordKey record)) -> 0 <= Attempt (recordKey record) < 2 ^ 8 ->
  minimumLease <= Value record ->
  exists a', deviceLeases_Put a i record minimumLease = (a', Ok tt) /\
    forall minimumLease', deviceLeases_Get a' i minimumLease' =
      if misreadLease record <? minimumLease' then Err ErrRecordInvalidOrExpired
      else Ok (mkMapRecord (recordKey record) (misreadLease record)).
Proof.
  intros Hsize Hc Hi Hr Ha Hmin. destruct (lease_offset size Hsize count i Hc Hi) as (Eoff&Hlo&Hhi).
  pose proof Hr as [Hok _]. pose proof Hok as [Hlen _].
  assert (length (encodeLease record) = 49%nat) as Hl
    by (rewrite encodeLease_layout by done; rewrite !length_app, Hlen, length_le_bytes; done).
  unfold deviceLeases_Put, deviceLeases_Get. rewrite Z.geb_leb. destruct (Z.leb_spec minimumLease (Value record)); [|lia].
  rewrite Eoff. destruct (bd_WriteAt (leaseDevice a) (encodeLease record) (i * 49)) as (dev&->&Hdev);
    [done|unfold zlen; lia|]. eexists. split; [done|]. intros minimumLease'. cbn [leaseDevice].
  change blockDeviceBackedReferenceLeaseRecordSize with 49 at 1. rewrite bd_ReadAt by lia. rewrite Hdev.
  pose proof (bd_length (leaseDevice a)) as Hbl. unfold zlen in Hbl.
  assert (slice (copy_at (bd_contents (leaseDevice a)) (Z.to_nat (i * 49)) (encodeLease record))
    (i * 49) (i * 49 + 49) = Ok (encodeLease record)) as ->.
  { unfold slice. rewrite length_copy_at by lia.
    replace (_ && _ && _) with true by (symmetry; rewrite !andb_true_iff, !Z.leb_le; lia).
    f_equal. replace (Z.to_nat (i * 49 + 49) - Z.to_nat (i * 49))%nat with (length (encodeLease record)) by lia.
    apply read_copy_same. lia. }
  cbn [mbind outcome_bind]. by apply decodeLease_encodeLease.
Qed.

(** A lease of one hour after the epoch for the example object, whose degree is
    one: neither the lease nor anything close to it comes back. *)
Lemma deviceLeases_Get_misreads_witness :
  let record := mkMapRecord (mkRecordKey (contentsReference exampleParent) 0) 3600000000000 in
  let a := mkLeaseArray (exist _ (replicate 98 0) eq_refl : sized_device 98) in
  misreadLease record <> Value record /\
  exists a', deviceLeases_Put a 1 record 0 = (a', Ok tt) /\
    deviceLeases_Get a' 1 0 = Ok (mkMapRecord (recordKey record) (misreadLease record)).
Proof.
  cbv zeta. set (record := mkMapRecord (mkRecordKey (contentsReference exampleParent) 0) 3600000000000).
  set (a := mkLeaseArray (exist _ (replicate 98 0) eq_refl : sized_device 98)).
  split; [vm_compute; congruence|].
  destruct (deviceLeases_Get_misreads 98 2 a 1 record 0) as (a'&HP&HG);
    [lia|change (98 <= 98); lia|lia|exact exampleParent_valid|simpl; lia|simpl; lia|].
  exists a'. split; [exact HP|]. rewrite HG.
  assert ((misreadLease record <? 0) = false) as -> by (vm_compute; reflexivity). reflexivity.
Defined.

(** ** Marshaling *)

#[global] Instance flat_LeaseMarshalerLaws : LeaseMarshalerLaws TimeLease.
Proof.
  assert (forall l : TimeLease, is_u64 l -> encodable l) as He by (unfold is_u64, encodable; lia).
  refine {| lease_valid := is_u64; lease_bytes l := AppendForward [] l |}.
  - intros l Hl. apply AppendForward_ok; auto.
  - intros l dst Hl. simpl. unfold flat_MarshalLease. by rewrite !AppendForward_encode, app_nil_l by auto.
  - intros l Hl. simpl. unfold flat_UnmarshalLease. rewrite <- (app_nil_r (AppendForward [] l)).
    rewrite ConsumeForward_AppendForward; [|by apply Z.mod_small|constructor].
    cbn [mbind outcome_bind]. by rewrite app_nil_r, Z.eqb_refl.
Defined.

Lemma flat_lease_nonempty (l : TimeLease) : is_u64 l -> lease_bytes l <> [].
Proof.
  intros Hl E. destruct (AppendForward_ok l) as [_ H]; [unfold is_u64, encodable in *; lia|].
  simpl in E. rewrite E in H. done.
Qed.
