(* ===== verification/Decorators.v ===== *)
(** * Small decorators of object stores

    - [pkg/storage/object/downloader.go]: the interface [Downloader] as a class;
    - [readcaching/downloader.go]: reads go to a fast flat backend first, and
      objects that it lacks are copied to it from a slow one;
    - [existenceprecondition/downloader.go]: NotFound becomes FailedPrecondition;
    - [namespacemapping]: references with and without a namespace. *)

From S2P Require Import Prelude References ObjectStore LocalStore FlatBacked.

(** [Downloader] *)
Class Downloader (S R : Type) := dl_DownloadObject : S -> R -> S * outcome Contents.

#[global] Instance ObjectStore_Downloader {S R L} `{!ObjectStore S R L} : Downloader S R := os_DownloadObject.

(** ** [existenceprecondition] *)

Definition existencePrecondition_DownloadObject {S R} `{!Downloader S R} (d : S) (reference : R)
    : S * outcome Contents :=
  let '(d, res) := dl_DownloadObject d reference in
  (d, match res with
      | Err e => if isNotFound e then Err (StatusError CodeFailedPrecondition) else Err e
      | res => res
      end).

(** ** [namespacemapping] *)

(** [NamespaceAddingNamespace]: what turns a local reference into one with a
    namespace. *)
Definition namespaceAdding_DownloadObject {S R} `{!Downloader S R} (WithLocalReference : LocalReference -> R)
    (d : S) (reference : LocalReference) : S * outcome Contents :=
  dl_DownloadObject d (WithLocalReference reference).

Definition namespaceRemoving_DownloadObject {S R} `{!Downloader S LocalReference, !ObjectReference R}
    (d : S) (reference : R) : S * outcome Contents :=
  dl_DownloadObject d (or_GetLocalReference reference).

Definition namespaceRemoving_UploadObject {S R L} `{!ObjectStore S LocalReference L, !ObjectReference R}
    (d : S) (reference : R) (contents : option Contents) (childrenLeases : list L)
    (wantContentsIfIncomplete : bool) : S * outcome (UploadObjectResult L) :=
  os_UploadObject d (or_GetLocalReference reference) contents childrenLeases wantContentsIfIncomplete.

(** ** [readcaching] *)

(** The references of the slow backend. *)
Class FlattenableReference (R : Type) := {
  fl_Flatten : R -> FlatReference;
  fl_GetLocalReference : R -> LocalReference;
  fl_flatten r : fl_Flatten r = Flatten (fl_GetLocalReference r);
}.

Section readcaching.
Context {SS SF R : Type} `{!Downloader SS R, !ObjectStore SF FlatReference unit, !FlattenableReference R}.

Record readCaching := mkReadCaching { slow : SS; fast : SF }.

Definition readCaching_DownloadObject (d : readCaching) (reference : R) : readCaching * outcome Contents :=
  let flatReference := fl_Flatten reference in
  let '(f, res) := os_DownloadObject (fast d) flatReference in
  match res with
  | Ok flatObjectContents =>
      (mkReadCaching (slow d) f, Unflatten flatObjectContents (fl_GetLocalReference reference))
  | Panic => (mkReadCaching (slow d) f, Panic)
  | Err e =>
      if negb (isNotFound e) then (mkReadCaching (slow d) f, Err e) else
      let '(s, res) := dl_DownloadObject (slow d) reference in
      match res with
      | Ok objectContents =>
          let '(f, result) := os_UploadObject f flatReference (Some (FlattenContents objectContents)) [] false in
          (mkReadCaching s f,
           match result with
           | Ok (UploadObjectComplete _) => Ok objectContents
           | Ok _ => Panic
           | Err e => Err e
           | Panic => Panic
           end)
      | res => (mkReadCaching s f, res)
      end
  end.
End readcaching.
Arguments readCaching SS SF : clear implicits.

(** ** What read caching promises *)

Section readcaching_laws.
Context {SS SF R : Type} `{!ObjectReference R, !FlattenableReference R}.
Context {LS : Type} `{!ObjectStore SS R LS, !ObjectStoreLaws SS R LS}.
Context `{!ObjectStore SF FlatReference unit, !ObjectStoreLaws SF FlatReference unit}.
Context `{!CompleteOrMissing SF FlatReference unit}.

Lemma readCaching_spec n (d : readCaching SS SF) r d' res :
  let flat := fl_Flatten r in
  or_GetLocalReference r = fl_GetLocalReference r -> valid_reference (fl_GetLocalReference r) ->
  0 <= n -> os_inv (n + os_cost SS r) (slow d) -> os_inv (n + 2 * os_cost SF flat) (fast d) ->
  os_accepts SS r -> os_accepts SF flat ->
  readCaching_DownloadObject d r = (d', res) ->
  os_inv n (slow d') /\ os_inv n (fast d') /\ res <> Panic /\
  (forall c, res = Ok c -> object_of r c /\ os_has (fast d') flat) /\
  (forall e, res = Err e -> isNotFound e = true -> ~ os_has (fast d) flat /\ ~ os_has (slow d) r).
Proof.
  intros flat Hlr Hr Hn His Hif Has Haf. pose proof (os_cost_nonneg r Has). pose proof (os_cost_nonneg flat Haf).
  unfold readCaching_DownloadObject. fold flat.
  assert (os_inv n (slow d)) as His' by (eapply os_inv_mono; [|exact His]; lia).
  destruct (os_DownloadObject (fast d) flat) as [f1 res1] eqn:E1.
  destruct (os_Download (n + os_cost SF flat) (fast d) flat f1 res1) as (H1&H2&H3&H4);
    [lia|by replace (n + _ + _) with (n + 2 * os_cost SF flat) by lia|done|done|].
  assert (os_inv n f1) as H1' by (eapply os_inv_mono; [|exact H1]; lia).
  assert (forall c, object_of (R := LocalReference) (fl_GetLocalReference r) c <-> object_of r c) as Hobj
    by (intros c; unfold object_of; by rewrite Hlr).
  destruct res1 as [c|e|]; [| |done].
  - intros [= <- <-]. cbn [slow fast]. split; [done|]. split; [done|].
    destruct (H3 c eq_refl) as [Hc Hhas]. unfold flat in Hc. rewrite fl_flatten in Hc.
    destruct (Unflatten_object _ _ Hr Hc) as [->|[-> Hc']].
    { split; [done|]. split; [done|]. by intros e [= <-]. }
    split; [done|]. split; [|done]. intros c' [= <-]. split; [by apply Hobj|done].
  - destruct (isNotFound e) eqn:Ee; cbn [negb].
    2: { intros [= <- <-]. cbn [slow fast]. split_and!; try done. intros e' [= <-]. by rewrite Ee. }
    unfold dl_DownloadObject, ObjectStore_Downloader.
    destruct (os_DownloadObject (slow d) r) as [s1 res2] eqn:E2.
    destruct (os_Download n (slow d) r s1 res2 Hn His Has E2) as (I1&I2&I3&I4).
    destruct res2 as [c|e2|]; [| |done].
    + destruct (I3 c eq_refl) as [Hc _].
      destruct (os_UploadObject f1 flat _ _ _) as [f2 result] eqn:E3.
      destruct (os_Upload n f1 flat (Some (FlattenContents c)) [] false f2 result Hn H1 Haf) as (J1&J2&J3&J4);
        [|by left|done|].
      { intros c' [= <-]. unfold flat. rewrite fl_flatten. by apply object_flatten, Hobj. }
      intros [= <- <-]. cbn [slow fast]. split; [done|]. split; [done|].
      destruct result as [[u|c' w|]|e3|]; [| | | |done].
      * split; [done|]. split; [|done]. intros c' [= <-]. split; [done|]. exact (J4 _ eq_refl).
      * by destruct (never_incomplete _ _ _ _ _ _ _ _ E3).
      * by specialize (J4 _ eq_refl).
      * split; [done|]. split; [done|]. intros e' [= <-] He'. by rewrite (J3 e3 _ eq_refl eq_refl) in He'.
    + intros [= <- <-]. cbn [slow fast]. split_and!; try done. intros e' [= <-] He'.
      split; [by apply (H4 e)|by apply (I4 e2)].
Qed.
End readcaching_laws.
