(* ===== verification/Grpc.v ===== *)
(** * Object stores over the network

    - [pkg/storage/object/instance_name.go], [namespace.go] and
      [global_reference.go]: names of namespaces, and references across them;
    - [uploader_server.go] and [downloader_server.go]: the servers;
    - [grpc/uploader.go] and [grpc/downloader.go]: the clients.

    The messages of [pkg/proto/storage/object/object.proto] are records; a
    [bytes] field that is empty and one that is absent are the same.  The remote
    side of a client is a parameter, the classes [UploaderClient] and
    [DownloaderClient]; a server is an instance of both, so that a client and a
    server can be put together, the transport passing messages and status codes
    on unchanged. *)

From Stdlib Require Import Sorted.
From S2P Require Import Prelude References ObjectStore.

(** ** [instance_name.go] *)

(** Strings are lists of bytes. *)
Definition isAlphanumeric (b : Z) : bool :=
  (48 <=? b) && (b <=? 57) || (65 <=? b) && (b <=? 90) || (97 <=? b) && (b <=? 122).

(** The rest of a match of [validInstanceNameRegexp]: whether the component that
    is being read has characters already. *)
Fixpoint matchComponents (nonEmpty : bool) (value : list Z) : bool :=
  match value with
  | [] => nonEmpty
  | b :: value =>
      if isAlphanumeric b then matchComponents true value
      else (b =? 47) && nonEmpty && matchComponents false value
  end.

Definition validInstanceName (value : list Z) : bool :=
  match value with [] => true | _ => matchComponents false value end.

Record InstanceName := mkInstanceName { instanceNameValue : list Z }.

#[global] Instance InstanceName_eq_dec : EqDecision InstanceName.
Proof. solve_decision. Defined.

Definition NewInstanceName (value : list Z) : outcome InstanceName :=
  if validInstanceName value then Ok (mkInstanceName value) else errInvalidArgument.

(** [url.PathEscape] of the Go standard library. *)
Definition hexDigit (v : Z) : Z := if v <? 10 then 48 + v else 55 + v.
Definition shouldEscape (b : Z) : bool :=
  negb (isAlphanumeric b || bool_decide (b ∈ [45; 95; 46; 126; 36; 38; 43; 58; 61; 64])).
Definition PathEscape (s : list Z) : list Z :=
  mbind (fun b => if shouldEscape b then [37; hexDigit (Z.shiftr b 4); hexDigit (Z.land b 15)] else [b]) s.

Definition AsURLSafeComponent (n : InstanceName) : list Z :=
  match instanceNameValue n with [] => [45] | value => PathEscape value end.

(** ** [global_reference.go], [namespace.go] *)

Record GlobalReference := mkGlobalReference { grInstanceName : InstanceName; grLocalReference : LocalReference }.

#[global] Instance GlobalReference_ObjectReference : ObjectReference GlobalReference :=
  {| or_GetLocalReference := grLocalReference |}.

Definition WithLocalReference (n : InstanceName) (r : LocalReference) : GlobalReference := mkGlobalReference n r.

(** [GlobalReference.CompareByHeight]; [strings.Compare]. *)
Definition Global_CompareByHeight (r other : GlobalReference) : Z :=
  let cmp := CompareByHeight (grLocalReference r) (grLocalReference other) in
  if negb (cmp =? 0) then cmp
  else bytes_compare (instanceNameValue (grInstanceName r)) (instanceNameValue (grInstanceName other)).

(** [object.proto]: [Namespace]. *)
Record NamespaceMessage := mkNamespaceMessage { pbInstanceName : list Z; pbReferenceFormat : Z }.

Definition ReferenceFormat_SHA256_V1 : Z := 1.

Definition NewReferenceFormat (value : Z) : outcome unit :=
  if negb (value =? ReferenceFormat_SHA256_V1) then errInvalidArgument else Ok tt.

(** A namespace is an instance name, as there is only one reference format. *)
Definition NewNamespace (namespaceMessage : option NamespaceMessage) : outcome InstanceName :=
  match namespaceMessage with
  | None => errInvalidArgument
  | Some m =>
      instanceName ← NewInstanceName (pbInstanceName m);
      _ ← NewReferenceFormat (pbReferenceFormat m);
      Ok instanceName
  end.

Definition NewGlobalReference (ns : InstanceName) (rawReference : list Z) : outcome GlobalReference :=
  localReference ← NewLocalReference rawReference;
  Ok (mkGlobalReference ns localReference).

Definition Namespace_ToProto (ns : InstanceName) : NamespaceMessage :=
  mkNamespaceMessage (instanceNameValue ns) ReferenceFormat_SHA256_V1.

Definition GetNamespace (r : GlobalReference) : InstanceName := grInstanceName r.

(** ** [object.proto] *)

Record DownloadObjectRequest := mkDownloadRequest { dlNamespace : option NamespaceMessage; dlReference : list Z }.

Record UploadObjectRequest := mkUploadRequest {
  upNamespace : option NamespaceMessage;
  upReference : list Z;
  upContents : list Z;
  OutgoingReferencesLeases : list (list Z);
  WantContentsIfIncomplete : bool;
}.

(** [UploadObjectResponse]: a [oneof] that may also be unset. *)
Inductive UploadObjectResponse :=
  | Response_Complete (Lease : list Z)
  | Response_Incomplete (contents : list Z) (WantOutgoingReferencesLeases : list Z)
  | Response_Unset.

Class DownloaderClient (N : Type) := rpc_DownloadObject : N -> DownloadObjectRequest -> N * outcome (list Z).
Class UploaderClient (N : Type) := rpc_UploadObject : N -> UploadObjectRequest -> N * outcome UploadObjectResponse.

(** ** [downloader_server.go], [uploader_server.go] *)

Section servers.
Context {S : Type} `{!ObjectStore S GlobalReference (list Z)}.

Definition server_DownloadObject (s : S) (request : DownloadObjectRequest) : S * outcome (list Z) :=
  match (namespace ← NewNamespace (dlNamespace request);
         NewGlobalReference namespace (dlReference request)) with
  | Ok reference =>
      let '(s, res) := os_DownloadObject s reference in
      (s, contents ← res; Ok (GetFullData contents))
  | Err e => (s, Err e)
  | Panic => (s, Panic)
  end.

(** The checks of a request: what is passed on. *)
Definition checkUploadRequest (request : UploadObjectRequest) : outcome (GlobalReference * option Contents) :=
  namespace ← NewNamespace (upNamespace request);
  reference ← NewGlobalReference namespace (upReference request);
  contents ←
    (if zlen (upContents request) >? 0
     then c ← NewContentsFromFullData (grLocalReference reference) (upContents request); Ok (Some c)
     else Ok None);
  let degree := GetDegree (grLocalReference reference) in
  let l := zlen (OutgoingReferencesLeases request) in
  if negb (l =? 0) && negb (l =? degree) then errInvalidArgument else
  if WantContentsIfIncomplete request &&
     (match contents with Some _ => true | None => false end || (degree =? 0))
  then errInvalidArgument
  else Ok (reference, contents).

Definition uploadResponse (result : UploadObjectResult (list Z)) : outcome UploadObjectResponse :=
  match result with
  | UploadObjectComplete lease => Ok (Response_Complete lease)
  | UploadObjectIncomplete contents want =>
      Ok (Response_Incomplete (match contents with Some c => GetFullData c | None => [] end) (map u32 want))
  | UploadObjectMissing => Err (StatusError CodeNotFound)
  end.

Definition server_UploadObject (s : S) (request : UploadObjectRequest) : S * outcome UploadObjectResponse :=
  match checkUploadRequest request with
  | Ok (reference, contents) =>
      let '(s, res) := os_UploadObject s reference contents (OutgoingReferencesLeases request)
                         (WantContentsIfIncomplete request) in
      (s, result ← res; uploadResponse result)
  | Err e => (s, Err e)
  | Panic => (s, Panic)
  end.

#[global] Instance server_DownloaderClient : DownloaderClient S := server_DownloadObject.
#[global] Instance server_UploaderClient : UploaderClient S := server_UploadObject.
End servers.

(** ** [grpc/downloader.go], [grpc/uploader.go] *)

Section clients.
Context {N : Type} `{!DownloaderClient N, !UploaderClient N}.

Record remote := mkRemote { connection : N }.

Definition grpc_DownloadObject (d : remote) (reference : GlobalReference) : remote * outcome Contents :=
  let '(n, response) := rpc_DownloadObject (connection d)
    (mkDownloadRequest (Some (Namespace_ToProto (GetNamespace reference)))
       (rawReference (grLocalReference reference))) in
  (mkRemote n,
   data ← response;
   match NewContentsFromFullData (grLocalReference reference) data with
   | Err _ => Err (StatusError CodeInternal)
   | res => res
   end).

Definition errInternal {A} : outcome A := Err (StatusError CodeInternal).

(** [for i := 1; i < len(wantLeases); i++ { if wantLeases[i-1] >= wantLeases[i] ... }] *)
Fixpoint strictlyIncreasing (l : list Z) : bool :=
  match l with
  | x :: (y :: _) as l => negb (x >=? y) && strictlyIncreasing l
  | _ => true
  end.

(** What the client makes of a response. *)
Definition checkUploadResponse (reference : GlobalReference) (wantContentsIfIncomplete : bool)
    (response : UploadObjectResponse) : outcome (UploadObjectResult (list Z)) :=
  match response with
  | Response_Complete lease => if zlen lease =? 0 then errInternal else Ok (UploadObjectComplete lease)
  | Response_Incomplete contents wantLeases =>
      contents ←
        (if wantContentsIfIncomplete then
           match NewContentsFromFullData (grLocalReference reference) contents with
           | Ok c => Ok (Some c)
           | Err _ => errInternal
           | Panic => Panic
           end
         else if zlen contents >? 0 then errInternal else Ok None);
      match last wantLeases with
      | None => errInternal
      | Some lastLease =>
          if negb (strictlyIncreasing wantLeases) then errInternal else
          if lastLease >=? u32 (GetDegree (grLocalReference reference)) then errInternal
          else Ok (UploadObjectIncomplete contents wantLeases)
      end
  | Response_Unset => errInternal
  end.

Definition grpc_UploadObject (u : remote) (reference : GlobalReference) (contents : option Contents)
    (childrenLeases : list (list Z)) (wantContentsIfIncomplete : bool)
    : remote * outcome (UploadObjectResult (list Z)) :=
  let request := mkUploadRequest (Some (Namespace_ToProto (GetNamespace reference)))
    (rawReference (grLocalReference reference))
    (match contents with Some c => GetFullData c | None => [] end) childrenLeases wantContentsIfIncomplete in
  let '(n, response) := rpc_UploadObject (connection u) request in
  (mkRemote n,
   match response with
   | Err e =>
       if isNotFound e then
         match contents with Some _ => errInternal | None => Ok UploadObjectMissing end
       else Err e
   | Ok response => checkUploadResponse reference wantContentsIfIncomplete response
   | Panic => Panic
   end).

#[global] Instance grpc_ObjectStore : ObjectStore remote GlobalReference (list Z) := {|
  os_DownloadObject := grpc_DownloadObject;
  os_UploadObject := grpc_UploadObject;
|}.
End clients.
Arguments remote N : clear implicits.

(** ** Instance names *)

Lemma escape_valid b :
  isAlphanumeric b = true \/ b = 47 ->
  (if shouldEscape b then [37; hexDigit (Z.shiftr b 4); hexDigit (Z.land b 15)] else [b]) =
  if b =? 47 then [37; 50; 70] else [b].
Proof.
  intros [Hb| ->]; [|done]. unfold shouldEscape. rewrite Hb. cbn [orb negb].
  destruct (Z.eqb_spec b 47) as [->|]; done.
Qed.

Lemma matchComponents_chars nonEmpty value :
  matchComponents nonEmpty value = true -> Forall (fun b => isAlphanumeric b = true \/ b = 47) value.
Proof.
  revert nonEmpty. induction value as [|b value IH]; intros nonEmpty H; [constructor|]. simpl in H.
  destruct (isAlphanumeric b) eqn:E; [constructor; [by left|by eapply IH]|].
  boolprop. constructor; [by right|by eapply IH].
Qed.

Lemma validInstanceName_chars value :
  validInstanceName value = true -> Forall (fun b => isAlphanumeric b = true \/ b = 47) value.
Proof. destruct value; [constructor|]. apply matchComponents_chars. Qed.

Lemma PathEscape_inj a b :
  Forall (fun b => isAlphanumeric b = true \/ b = 47) a ->
  Forall (fun b => isAlphanumeric b = true \/ b = 47) b -> PathEscape a = PathEscape b -> a = b.
Proof.
  assert (forall x l, isAlphanumeric x = true \/ x = 47 ->
    PathEscape (x :: l) = (if x =? 47 then [37; 50; 70] else [x]) ++ PathEscape l) as Hcons
    by (intros x l Hx; unfold PathEscape; rewrite bind_cons; by rewrite escape_valid).
  assert (forall x, isAlphanumeric x = true -> x <> 37) as H37 by (intros x Hx ->; done).
  revert b. induction a as [|x a IH]; intros [|y b] Ha Hb E; [done|..].
  - apply Forall_cons in Hb as [Hy _]. rewrite Hcons in E by done. by destruct (y =? 47).
  - apply Forall_cons in Ha as [Hx _]. rewrite Hcons in E by done. by destruct (x =? 47).
  - apply Forall_cons in Ha as [Hx Ha]. apply Forall_cons in Hb as [Hy Hb]. rewrite !Hcons in E by done.
    destruct (Z.eqb_spec x 47) as [->|Hx'], (Z.eqb_spec y 47) as [->|Hy']; cbn [app] in E;
      injection E as E; subst.
    + f_equal. by apply IH.
    + destruct Hy as [Hy|Hy]; [by destruct (H37 _ Hy)|done].
    + destruct Hx as [Hx|Hx]; [by destruct (H37 _ Hx)|done].
    + f_equal. by apply IH.
Qed.

(** ** What clients and servers promise *)

(** A result that a client may return: the indices of wanted leases are in
    range and increasing, and contents are those of the object and present
    exactly when they were asked for. *)
Definition wellformed_result (r : GlobalReference) (want : bool) (x : UploadObjectResult (list Z)) : Prop :=
  match x with
  | UploadObjectComplete lease => lease <> []
  | UploadObjectIncomplete c wantLeases =>
      wantLeases <> [] /\ StronglySorted Z.lt wantLeases /\
      (forall j, j ∈ wantLeases -> 0 <= j < GetDegree (grLocalReference r)) /\
      if want
      then exists c', c = Some c' /\ NewContentsFromFullData (grLocalReference r) (contentsData c') = Ok c'
      else c = None
  | UploadObjectMissing => True
  end.

Lemma strictlyIncreasing_sorted l : strictlyIncreasing l = true <-> StronglySorted Z.lt l.
Proof.
  split.
  - intros H. apply Sorted_StronglySorted; [intros x y z; lia|].
    induction l as [|x [|y l] IH]; [constructor|repeat constructor|].
    cbn [strictlyIncreasing] in H. boolprop. constructor; [by apply IH|]. constructor.
    lia.
  - induction 1 as [|x l Hl IH Hx]; [done|]. destruct l as [|y l]; [done|]. 
    change (strictlyIncreasing (x :: y :: l)) with (negb (x >=? y) && strictlyIncreasing (y :: l)).
    rewrite IH, andb_true_r. apply Forall_cons in Hx as [Hxy _]. rewrite Z.geb_leb.
    apply negb_true_iff, Z.leb_gt. lia.
Qed.

Lemma StronglySorted_last (l : list Z) x :
  StronglySorted Z.lt l -> last l = Some x -> forall y, y ∈ l -> y <= x.
Proof.
  induction 1 as [|a l Hl IH Ha]; [done|]. intros Hlast y Hy. destruct l as [|b l].
  - injection Hlast as <-. apply list_elem_of_singleton in Hy as ->. lia.
  - rewrite last_cons_cons in Hlast. apply elem_of_cons in Hy as [->|Hy]; [|by apply IH].
    assert (b <= x) by (apply IH; [done|by left]). apply Forall_cons in Ha as [Hab _]. lia.
Qed.

Lemma checkUploadResponse_wellformed r want response x :
  LocalReference_ok (grLocalReference r) ->
  match response with Response_Incomplete _ w => Forall is_u32 w | _ => True end ->
  checkUploadResponse r want response = Ok x -> wellformed_result r want x.
Proof.
  intros Hr Hw. destruct (fields_range _ Hr) as (_&_&_&Hd&_). unfold checkUploadResponse.
  destruct response as [lease|data w|]; [|destruct (if want then _ else _) as [c| |] eqn:E;
    cbn [mbind outcome_bind]; intros H; [|done|done]|done].
  - destruct (Z.eqb_spec (zlen lease) 0); [done|]. intros [= <-]. by intros ->.
  - destruct (last w) as [j|] eqn:Elast; [|done].
    destruct (strictlyIncreasing w) eqn:Einc; cbn [negb] in H; [|done].
    rewrite Z.geb_leb in H. destruct (Z.leb_spec (u32 (GetDegree (grLocalReference r))) j) as [|Hlt]; [done|].
    injection H as <-. apply strictlyIncreasing_sorted in Einc.
    split; [by destruct w|]. split; [done|]. split.
    + intros y Hy. pose proof (StronglySorted_last w j Einc Elast y Hy).
      pose proof (proj1 (Forall_forall _ _) Hw y Hy) as Hy'. unfold is_u32 in Hy'.
      unfold u32 in Hlt. rewrite Z.mod_small in Hlt by lia. lia.
    + destruct want.
      * destruct (NewContentsFromFullData _ data) as [c0| |] eqn:Ec; [|done|done]. injection E as <-.
        exists c0. split; [done|]. by destruct (NewContentsFromFullData_Ok _ _ _ Ec) as (->&_).
      * destruct (zlen data >? 0); [done|]. by injection E as <-.
Qed.

Definition valid_global (r : GlobalReference) : Prop :=
  validInstanceName (instanceNameValue (grInstanceName r)) = true /\ valid_reference (grLocalReference r).

Lemma namespace_roundtrip r :
  valid_global r ->
  (namespace ← NewNamespace (Some (Namespace_ToProto (GetNamespace r)));
   NewGlobalReference namespace (rawReference (grLocalReference r))) = Ok r.
Proof.
  intros [Hn Hr]. destruct r as [[n] l]. cbn in *. unfold NewInstanceName. rewrite Hn.
  cbn [mbind outcome_bind]. unfold NewGlobalReference. 
  rewrite (proj2 (NewLocalReference_Ok (rawReference l) l (proj2 (proj1 Hr)))) by done. done.
Qed.

Section transparency.
Context {S : Type} `{!ObjectStore S GlobalReference (list Z)}.

Lemma grpc_Download_transparent (s : S) r :
  valid_global r ->
  grpc_DownloadObject (mkRemote s) r =
  let '(s', res) := os_DownloadObject s r in
  (mkRemote s', c ← res; match NewContentsFromFullData (grLocalReference r) (contentsData c) with
                         | Err _ => Err (StatusError CodeInternal) | res => res end).
Proof.
  intros Hr. unfold grpc_DownloadObject, rpc_DownloadObject, server_DownloaderClient, server_DownloadObject.
  cbn [connection dlNamespace dlReference]. rewrite namespace_roundtrip by done.
  destruct (os_DownloadObject s r) as [s' [c| |]]; [|done|done].
  cbn [mbind outcome_bind]. by destruct c.
Qed.

(** A request that the server passes on. *)
Lemma checkUploadRequest_Ok r contents leases want :
  valid_global r -> (forall c, contents = Some c -> object_of r c) -> leases_for r leases ->
  checkUploadRequest (mkUploadRequest (Some (Namespace_ToProto (GetNamespace r)))
    (rawReference (grLocalReference r)) (match contents with Some c => GetFullData c | None => [] end) leases want) =
  if want && (match contents with Some _ => true | None => false end || (GetDegree (grLocalReference r) =? 0))
  then errInvalidArgument else Ok (r, contents).
Proof.
  intros Hr Hc Hl. unfold checkUploadRequest. cbn [upNamespace upReference upContents OutgoingReferencesLeases WantContentsIfIncomplete].
  pose proof (namespace_roundtrip r Hr) as Hns.
  destruct (NewNamespace _) as [ns| |]; [|done|done]. cbn [mbind outcome_bind] in *. rewrite Hns.
  cbn [mbind outcome_bind].
  assert ((if zlen (match contents with Some c => GetFullData c | None => [] end) >? 0
     then c ← NewContentsFromFullData (grLocalReference r) (match contents with Some c => GetFullData c | None => [] end); Ok (Some c)
     else Ok None) = Ok contents) as ->.
  { destruct contents as [c|]; [|done]. destruct (Hc c eq_refl) as [_ Hok].
    cbn [or_GetLocalReference GlobalReference_ObjectReference] in Hok. unfold GetFullData.
    destruct (NewContentsFromFullData_Ok _ _ _ Hok) as (_&Hsize&_). destruct Hr as [_ [_ (Hs&_)]].
    destruct (Z.gtb_spec (zlen (contentsData c)) 0); [|lia]. by rewrite Hok. }
  cbn [mbind outcome_bind].
  assert (negb (zlen leases =? 0) && negb (zlen leases =? GetDegree (grLocalReference r)) = false) as ->; [|done].
  destruct Hl as [->|Hl]; [done|]. cbn [or_GetLocalReference GlobalReference_ObjectReference] in Hl.
  rewrite Hl, Z.eqb_refl. by destruct (_ =? 0).
Qed.

(** Everything that the server answers arrives as it is. *)
Lemma checkUploadResponse_uploadResponse r want x :
  LocalReference_ok (grLocalReference r) -> wellformed_result r want x -> x <> UploadObjectMissing ->
  exists response, uploadResponse x = Ok response /\ checkUploadResponse r want response = Ok x.
Proof.
  intros Hr Hx Hm. destruct (fields_range _ Hr) as (_&_&_&Hd&_). destruct x as [lease|c w|]; [| |done].
  - exists (Response_Complete lease). split; [done|]. cbn [checkUploadResponse].
    simpl in Hx. destruct lease; [done|]. by destruct (Z.eqb_spec (zlen (z :: lease)) 0).
  - destruct Hx as (Hne&Hsorted&Hrange&Hc).
    assert (map u32 w = w) as Hmap.
    { rewrite <- (map_id w) at 2. apply map_ext_in. intros j Hj. apply list_elem_of_In in Hj.
      specialize (Hrange j Hj). unfold u32. rewrite Z.mod_small; lia. }
    eexists. split; [done|]. rewrite Hmap. cbn [checkUploadResponse].
    assert ((if want then
       match NewContentsFromFullData (grLocalReference r) (match c with Some c => GetFullData c | None => [] end) with
       | Ok c => Ok (Some c) | Err _ => errInternal | Panic => Panic end
       else if zlen (match c with Some c => GetFullData c | None => [] end) >? 0 then errInternal else Ok None) = Ok c) as ->.
    { destruct want; [destruct Hc as (c'&->&Hc'); unfold GetFullData; by rewrite Hc'|by rewrite Hc]. }
    cbn [mbind outcome_bind]. destruct (last w) as [j|] eqn:Elast; [|by apply last_None in Elast].
    rewrite (proj2 (strictlyIncreasing_sorted w) Hsorted). cbn [negb].
    assert (j ∈ w) as Hj by (apply last_Some in Elast as [l' ->]; apply elem_of_app; right; by apply list_elem_of_singleton).
    specialize (Hrange j Hj). unfold u32. rewrite Z.geb_leb, Z.mod_small by lia.
    by destruct (Z.leb_spec (GetDegree (grLocalReference r)) j); [lia|].
Qed.
End transparency.

(** ** Properties *)

(** C18: A client and a server put together behave like the store behind the
    server: the state, the result and errors are the same, for every request
    that the server admits and every well-formed result.  The only difference
    is how absence is reported: NotFound errors and missing objects are the
    same thing on the wire, and absence in spite of contents that were sent is
    an internal error. *)
Theorem grpc_UploadObject_transparent {S} `{!ObjectStore S GlobalReference (list Z)}
    (s s' : S) r contents leases want res :
  valid_global r -> (forall c, contents = Some c -> object_of r c) -> leases_for r leases ->
  (want = true -> contents = None /\ 0 < GetDegree (grLocalReference r)) ->
  os_UploadObject s r contents leases want = (s', res) ->
  (forall x, res = Ok x -> wellformed_result r want x) ->
  grpc_UploadObject (mkRemote s) r contents leases want =
  (mkRemote s',
   let missing := match contents with Some _ => errInternal | None => Ok UploadObjectMissing end in
   match res with
   | Ok UploadObjectMissing => missing
   | Err e => if isNotFound e then missing else Err e
   | res => res
   end).
Proof.
  intros Hr Hc Hl Hw E Hx. unfold grpc_UploadObject, rpc_UploadObject, server_UploaderClient, server_UploadObject.
  cbn [connection]. rewrite checkUploadRequest_Ok by done.
  assert (want && (match contents with Some _ => true | None => false end || (GetDegree (grLocalReference r) =? 0)) = false) as ->.
  { destruct want; [|done]. destruct (Hw eq_refl) as [-> Hd]. cbn. apply Z.eqb_neq. lia. }
  cbn [OutgoingReferencesLeases WantContentsIfIncomplete]. rewrite E. f_equal.
  destruct res as [x|e|]; cbn [mbind outcome_bind]; [|done|done].
  destruct (present x) eqn:Ep; [|destruct x; [done|done|by destruct contents]].
  destruct (checkUploadResponse_uploadResponse r want x) as (response&->&->); [apply Hr|by apply Hx|by intros ->|].
  by destruct x.
Qed.

(** C19: Whatever the remote side answers, a client only returns well-formed
    results: leases are not empty, the indices of children whose leases are
    wanted are strictly increasing and within the degree of the object, there
    is at least one, and contents are returned exactly when they were asked for
    and belong to the reference. *)
Theorem grpc_UploadObject_wellformed {N} `{!UploaderClient N} (u u' : remote N) r contents leases want x :
  LocalReference_ok (grLocalReference r) ->
  (forall n request n' c w, rpc_UploadObject n request = (n', Ok (Response_Incomplete c w)) -> Forall is_u32 w) ->
  grpc_UploadObject u r contents leases want = (u', Ok x) -> wellformed_result r want x.
Proof.
  intros Hr Hw. unfold grpc_UploadObject. destruct (rpc_UploadObject _ _) as [n [response|e|]] eqn:E.
  - intros [= <- Hx]. apply (checkUploadResponse_wellformed r want response); [done| |done].
    destruct response as [|c w|]; [done| |done]. by apply (Hw _ _ _ c w E).
  - destruct (isNotFound e); [|by intros [=]]. destruct contents; [by intros [=]|]. by intros [= <- <-].
  - by intros [=].
Qed.

(** The example: a remote store that holds the parent, and wants the lease of
    its child. *)
Definition exampleGlobal : GlobalReference :=
  mkGlobalReference (mkInstanceName [97; 47; 98]) (contentsReference exampleParent).

#[global] Instance exampleRemoteStore : ObjectStore Z GlobalReference (list Z) := {|
  os_DownloadObject n r := (n + 1, Ok exampleParent);
  os_UploadObject n r contents leases want :=
    (n + 1, Ok (UploadObjectIncomplete (if want then Some exampleParent else None) [0]));
|}.

Lemma exampleGlobal_valid : valid_global exampleGlobal.
Proof. split; [reflexivity|exact exampleParent_valid]. Qed.

Lemma exampleGlobal_degree : GetDegree (grLocalReference exampleGlobal) = 1.
Proof. vm_compute. reflexivity. Qed.

Lemma exampleResult_wellformed :
  wellformed_result exampleGlobal true (UploadObjectIncomplete (Some exampleParent) [0]).
Proof.
  split; [done|]. split; [repeat constructor|]. split.
  - intros j Hj. apply list_elem_of_singleton in Hj as ->. rewrite exampleGlobal_degree. lia.
  - exists exampleParent. split; [done|]. vm_compute. reflexivity.
Qed.

Lemma grpc_UploadObject_transparent_witness :
  grpc_UploadObject (mkRemote 5) exampleGlobal None [] true =
  (mkRemote 6, Ok (UploadObjectIncomplete (Some exampleParent) [0])).
Proof.
  apply (grpc_UploadObject_transparent 5 6 exampleGlobal None [] true
    (Ok (UploadObjectIncomplete (Some exampleParent) [0]))).
  - exact exampleGlobal_valid.
  - intros c [=].
  - left; reflexivity.
  - intros _. rewrite exampleGlobal_degree. split; [reflexivity|lia].
  - reflexivity.
  - intros x [= <-]. exact exampleResult_wellformed.
Defined.

(** A remote side that answers with an index. *)
Lemma grpc_UploadObject_wellformed_witness :
  wellformed_result exampleGlobal true (UploadObjectIncomplete (Some exampleParent) [0]).
Proof.
  apply (grpc_UploadObject_wellformed
    (UploaderClient0 := fun n _ => (n, Ok (Response_Incomplete (contentsData exampleParent) [0])))
    (mkRemote 5) (mkRemote 5) exampleGlobal None [] true).
  - exact (proj1 exampleParent_valid).
  - intros n request n' c w [= _ _ <-]. repeat constructor; lia.
  - vm_compute. reflexivity.
Defined.
