(* ===== verification/LeaseRenewing.v ===== *)
(** * Renewing leases of graphs of objects

    [pkg/storage/object/leaserenewing/uploader.go]: an uploader that answers
    requests to check the existence of an object by traversing the objects below
    it whose leases have expired, in parallel, within a limit on the resources
    for objects that have not been finalized.

    Here the calls of [UploadObject] of the base, which take place in goroutines
    of their own, are concurrent: the state says which of them have not returned
    yet, and [step] lets anything that can happen happen next.

    - An object is numbered; the phase of an object says where it is: in
      [pendingObjects], waiting for the result of its first or second call, waiting
      for its children ([hasUnfinalizedChildren]), or being finalized.
    - [finalizeObjectLocked] releases the lock while it starts a goroutine.  Its
      loop over the parents is therefore one step per parent ([finalizeParent]),
      and other steps may take place in between.
    - [pendingObjects] is a heap of the Go library: [processObject] may pick any
      pending object that no other one precedes.  Goroutines that wait for
      [pendingObjectsWakeup] are woken up after every change, so that picking is a
      step that is possible whenever its condition holds.
    - The semaphore that bounds the number of calls is left out: it is only held
      during calls. *)

From S2P Require Import Prelude References ObjectStore.

(** [Reference]: references that can be compared, and that can be changed to
    another object of the same namespace. *)
Class RenewableReference (R : Type) `{!EqDecision R, !Countable R, !ObjectReference R} := {
  rr_WithLocalReference : R -> LocalReference -> R;
  rr_local r l : or_GetLocalReference (rr_WithLocalReference r l) = l;
}.

#[global] Instance LocalReference_renewable : RenewableReference LocalReference :=
  {| rr_WithLocalReference _ l := l; rr_local _ _ := eq_refl |}.

Section renewing.
Context {R L : Type} `{!EqDecision R, !Countable R, !ObjectReference R, !RenewableReference R}.
(** The zero value of leases. *)
Context (zeroLease : L).

Abbreviation local r := (or_GetLocalReference r).

(** ** Data *)

(** [hasUnfinalizedChildrenState] *)
Record unfinalizedChildren := mkUnfinalizedChildren {
  uc_contents : Contents;
  (** Contents and wanted leases of the [UploadObjectIncomplete]. *)
  originalIncompleteResult : option (option Contents * list Z);
  leases : list L;
  gotNoLease : list Z;
  childErr : option error;
  unfinalizedChildrenCount : Z;
}.

(** Where an object is.  While [finalizeObjectLocked] runs for it, the parents
    that have not been dealt with, what is propagated to them, and whether the share of
    the children is released afterwards, as it is after the first call. *)
Inductive phase :=
  | Pending
  | FirstCall
  | Waiting (children : unfinalizedChildren)
  | SecondCall (children : unfinalizedChildren)
  | Finalizing (parents : list (nat * Z)) (lease : option L) (err : option error) (children : bool)
  | Finalized.

(** What callers get: a result, which may be nil, and an error. *)
Record answer := mkAnswer { an_result : option (UploadObjectResult L); an_err : option error }.

(** [objectState].  [hasCallers]: nobody, or callers that wait for the answer, or
    that have it. *)
Record objectState := mkObjectState {
  reference : R;
  hasCallers : option (option answer);
  unfinalizedParents : list (nat * Z);
  objectPhase : phase;
}.

Record uploader := mkUploader {
  maximumUnfinalizedParentsLimit : Limit;
  remainingUnfinalizedParentsLimit : Limit;
  objectsByReference : gmap R nat;
  objects : list objectState;
}.

Definition NewUploader (limit : Limit) : uploader := mkUploader limit limit ∅ [].

Definition setRemaining (u : uploader) (l : Limit) : uploader :=
  mkUploader (maximumUnfinalizedParentsLimit u) l (objectsByReference u) (objects u).

Definition setObject (u : uploader) (i : nat) (o : objectState) : uploader :=
  mkUploader (maximumUnfinalizedParentsLimit u) (remainingUnfinalizedParentsLimit u)
    (objectsByReference u) (<[i := o]> (objects u)).

Definition setPhase (o : objectState) (p : phase) : objectState :=
  mkObjectState (reference o) (hasCallers o) (unfinalizedParents o) p.

(** [getOrCreateObjectState] *)
Definition getOrCreateObjectState (u : uploader) (r : R) : uploader * nat :=
  match objectsByReference u !! r with
  | Some i => (u, i)
  | None =>
      let i := length (objects u) in
      (mkUploader (maximumUnfinalizedParentsLimit u) (remainingUnfinalizedParentsLimit u)
         (<[r := i]> (objectsByReference u)) (objects u ++ [mkObjectState r None [] Pending]), i)
  end.

(** [detachObjectState] *)
Definition detachObjectState (u : uploader) (i : nat) : uploader :=
  match objects u !! i with
  | Some o =>
      if decide (objectsByReference u !! reference o = Some i) then
        mkUploader (maximumUnfinalizedParentsLimit u) (remainingUnfinalizedParentsLimit u)
          (delete (reference o) (objectsByReference u)) (objects u)
      else u
  | None => u
  end.

(** ** [UploadObject] *)

(** A call either goes to the base directly, or is refused, or waits for the
    object with a number. *)
Inductive called := Forwarded | Refused (e : error) | Waits (i : nat).

Definition uploadObject (u : uploader) (r : R) (contents : option Contents) (childrenLeases : list L)
    : uploader * called :=
  if match contents with Some _ => true | None => false end || (zlen childrenLeases >? 0) ||
     (GetDegree (local r) =? 0)
  then (u, Forwarded)
  else if negb (CanAcquireParentAndChildren (maximumUnfinalizedParentsLimit u) (local r))
  then (u, Refused (StatusError CodeInvalidArgument))
  else
    let '(u, i) := getOrCreateObjectState u r in
    match objects u !! i with
    | Some o =>
        let callers := match hasCallers o with Some c => Some c | None => Some None end in
        (setObject u i (mkObjectState (reference o) callers (unfinalizedParents o) (objectPhase o)), Waits i)
    | None => (u, Waits i)
    end.

(** What a call returns once the object has an answer. *)
Definition callerAnswer (a : answer) (wantContentsIfIncomplete : bool) : answer :=
  match an_err a, an_result a with
  | None, Some (UploadObjectIncomplete _ want) =>
      if negb wantContentsIfIncomplete then mkAnswer (Some (UploadObjectIncomplete None want)) None else a
  | _, _ => a
  end.

(** ** [getPendingObject], [ProcessSingleObject] *)

Definition isPending (o : objectState) : bool :=
  match objectPhase o with Pending => true | _ => false end.

(** No pending object comes before [o]. *)
Definition firstPending (u : uploader) (o : objectState) : bool :=
  forallb (fun o' => negb (isPending o' && (CompareByHeight (local (reference o')) (local (reference o)) <? 0)))
    (objects u).

(** The object is taken from the heap, and its first call starts. *)
Definition processObject (u : uploader) (i : nat) : option uploader :=
  match objects u !! i with
  | Some o =>
      if isPending o && firstPending u o then
        let '(l, ok) := AcquireParentAndChildren (remainingUnfinalizedParentsLimit u) (local (reference o)) in
        if ok then Some (setObject (setRemaining u l) i (setPhase o FirstCall)) else None
      else None
  | None => None
  end.

(** ** [finalizeObjectLocked] *)

(** Up to the loop over the parents.  After the first call the caller of this function
    is going to release the share of the children. *)
Definition startFinalizing (u : uploader) (i : nat) (lease : option L)
    (result : option (UploadObjectResult L)) (err : option error) : uploader :=
  let u := detachObjectState u i in
  match objects u !! i with
  | Some o =>
      let callers := match hasCallers o with Some _ => Some (Some (mkAnswer result err)) | None => None end in
      setObject u i (mkObjectState (reference o) callers (unfinalizedParents o)
        (Finalizing (unfinalizedParents o) lease err (match objectPhase o with FirstCall => true | _ => false end)))
  | None => u
  end.

(** [bits.UintSize] *)
Definition UintSize : Z := 64.

(** [gotNoLease[i/bits.UintSize] |= 1 << (i % bits.UintSize)] *)
Definition setGotNoLease (words : list Z) (i : Z) : outcome (list Z) :=
  w ← index words (i / UintSize);
  Ok (<[Z.to_nat (i / UintSize) := Z.lor w (u64 (Z.shiftl 1 (i mod UintSize)))]> words).

(** [gotNoLease[i/bits.UintSize] & (1 << (i % bits.UintSize)) == 0], negated. *)
Definition getGotNoLease (words : list Z) (i : Z) : outcome bool :=
  w ← index words (i / UintSize);
  Ok (negb (Z.land w (u64 (Z.shiftl 1 (i mod UintSize))) =? 0)).

(** What the lease of a child, or the lack of one, changes. *)
Definition recordLease (c : unfinalizedChildren) (leaseIndex : Z) (lease : option L)
    : outcome unfinalizedChildren :=
  match lease with
  | None =>
      words ← setGotNoLease (gotNoLease c) leaseIndex;
      Ok (mkUnfinalizedChildren (uc_contents c) (originalIncompleteResult c) (leases c) words (childErr c)
            (unfinalizedChildrenCount c))
  | Some l =>
      _ ← index (leases c) leaseIndex;
      Ok (mkUnfinalizedChildren (uc_contents c) None (<[Z.to_nat leaseIndex := l]> (leases c)) (gotNoLease c)
            (childErr c) (unfinalizedChildrenCount c))
  end.

Definition recordError (c : unfinalizedChildren) (err : option error) : unfinalizedChildren * bool :=
  match err, childErr c with
  | Some e, None =>
      (mkUnfinalizedChildren (uc_contents c) (originalIncompleteResult c) (leases c) (gotNoLease c) (Some e)
         (unfinalizedChildrenCount c), true)
  | _, _ => (c, false)
  end.

(** The body of the loop, for the parent [p] of an object. *)
Definition finalizeParent (u : uploader) (p : nat) (leaseIndex : Z) (lease : option L) (err : option error)
    : outcome uploader :=
  match objects u !! p with
  | Some o =>
      match objectPhase o with
      | Waiting c =>
          c ← recordLease c leaseIndex lease;
          let '(c, failed) := recordError c err in
          let u := if failed then detachObjectState u p else u in
          let count := unfinalizedChildrenCount c - 1 in
          let c := mkUnfinalizedChildren (uc_contents c) (originalIncompleteResult c) (leases c) (gotNoLease c)
                     (childErr c) count in
          if count =? 0 then
            match originalIncompleteResult c with
            | Some (contents, want) =>
                Ok (startFinalizing u p None (Some (UploadObjectIncomplete contents want)) (childErr c))
            | None => Ok (setObject u p (setPhase o (SecondCall c)))
            end
          else Ok (setObject u p (setPhase o (Waiting c)))
      | _ => Panic
      end
  | None => Panic
  end.

(** One step of the loop over the parents of object [i], and what follows it: the share
    of the object is released, and then that of its children by [ProcessSingleObject],
    if this was the first call. *)
Definition finalizeNext (u : uploader) (i : nat) : option (outcome uploader) :=
  match objects u !! i with
  | Some o =>
      match objectPhase o with
      | Finalizing ((p, leaseIndex) :: parents) lease err children =>
          Some (finalizeParent (setObject u i (setPhase o (Finalizing parents lease err children))) p leaseIndex lease err)
      | Finalizing [] _ _ children =>
          let l := ReleaseParent (remainingUnfinalizedParentsLimit u) (local (reference o)) in
          Some (Ok (setRemaining (setObject u i (setPhase o Finalized))
            (if children then ReleaseChildren l (local (reference o)) else l)))
      | _ => None
      end
  | None => None
  end.

(** ** The first call *)

(** [for _, i := range resultType.WantOutgoingReferencesLeases] *)
Fixpoint queueChildren (u : uploader) (i : nat) (r : R) (contents : Contents) (want : list Z) : outcome uploader :=
  match want with
  | [] => Ok u
  | j :: want =>
      child ← GetOutgoingReference contents j;
      let '(u, k) := getOrCreateObjectState u (rr_WithLocalReference r child) in
      match objects u !! k with
      | Some o =>
          queueChildren (setObject u k (mkObjectState (reference o) (hasCallers o)
            (unfinalizedParents o ++ [(i, j)]) (objectPhase o))) i r contents want
      | None => Panic
      end
  end.

Definition newUnfinalizedChildren (contents : Contents) (want : list Z) (degree : Z) : unfinalizedChildren :=
  mkUnfinalizedChildren contents (Some (Some contents, want)) (replicate (Z.to_nat degree) zeroLease)
    (replicate (Z.to_nat ((degree + UintSize - 1) / UintSize)) 0) None (zlen want).

(** The result of the first call arrives.  The share of the children is released when
    they are queued, or when the object has been finalized. *)
Definition firstResult (u : uploader) (i : nat) (res : outcome (UploadObjectResult L)) : option (outcome uploader) :=
  match objects u !! i with
  | Some o =>
      match objectPhase o with
      | FirstCall =>
          let r := reference o in
          let release u := setRemaining u (ReleaseChildren (remainingUnfinalizedParentsLimit u) (local r)) in
          Some (match res with
          | Ok (UploadObjectComplete lease) =>
              Ok (startFinalizing u i (Some lease) (Some (UploadObjectComplete lease)) None)
          | Ok (UploadObjectIncomplete (Some contents) want) =>
              u ← queueChildren u i r contents want;
              match objects u !! i with
              | Some o =>
                  Ok (release (setObject u i (setPhase o
                    (Waiting (newUnfinalizedChildren contents want (GetDegree (local r)))))))
              | None => Panic
              end
          | Ok (UploadObjectIncomplete None want) => Panic
          | Ok UploadObjectMissing => Ok (startFinalizing u i None (Some UploadObjectMissing) None)
          | Err e => Ok (startFinalizing u i None None (Some e))
          | Panic => Panic
          end)
      | _ => None
      end
  | None => None
  end.

(** ** The second call *)

(** [finalizeObjectIncompleteLocked]: an index that is wanted although a lease
    was provided for it. *)
Fixpoint leaseNotAccepted (words : list Z) (want : list Z) : outcome bool :=
  match want with
  | [] => Ok false
  | j :: want =>
      got ← getGotNoLease words j;
      if negb got then Ok true else leaseNotAccepted words want
  end.

Definition finalizeObjectIncomplete (u : uploader) (i : nat) (want : list Z) (c : unfinalizedChildren)
    : outcome uploader :=
  expired ← leaseNotAccepted (gotNoLease c) want;
  if (expired : bool) then Ok (startFinalizing u i None None (Some (StatusError CodeInternal)))
  else Ok (startFinalizing u i None (Some (UploadObjectIncomplete (Some (uc_contents c)) want)) None).

(** The result of the second call arrives. *)
Definition secondResult (u : uploader) (i : nat) (res : outcome (UploadObjectResult L)) : option (outcome uploader) :=
  match objects u !! i with
  | Some o =>
      match objectPhase o with
      | SecondCall c =>
          Some (match childErr c, res with
          | _, Panic => Panic
          | Some e, _ => Ok (startFinalizing u i None None (Some e))
          | None, Err e => Ok (startFinalizing u i None None (Some e))
          | None, Ok (UploadObjectComplete lease) =>
              Ok (startFinalizing u i (Some lease) (Some (UploadObjectComplete lease)) None)
          | None, Ok (UploadObjectIncomplete _ want) => finalizeObjectIncomplete u i want c
          | None, Ok UploadObjectMissing => Ok (startFinalizing u i None None (Some (StatusError CodeInternal)))
          end)
      | _ => None
      end
  | None => None
  end.
End renewing.
Arguments unfinalizedChildren L : clear implicits.
Arguments phase L : clear implicits.
Arguments answer L : clear implicits.
Arguments objectState R L : clear implicits.
Arguments uploader R L {_ _}.

(** ** Everything that can happen *)

Section steps.
Context {R L : Type} `{!EqDecision R, !Countable R, !ObjectReference R, !RenewableReference R}.
Context (zeroLease : L).

(** What the base may answer to a call without contents: an object that is
    incomplete comes with its contents, if they were asked for, and with a
    non-empty list of indices of children, which are unique (object.proto). *)
Definition valid_first (r : R) (res : outcome (UploadObjectResult L)) : Prop :=
  res <> Panic /\
  forall contents want, res = Ok (UploadObjectIncomplete contents want) ->
    want <> [] /\ NoDup want /\ (forall j, j ∈ want -> 0 <= j < GetDegree (or_GetLocalReference r)) /\
    exists c, contents = Some c /\ object_of r c.

Definition valid_second (r : R) (res : outcome (UploadObjectResult L)) : Prop :=
  res <> Panic /\
  forall contents want, res = Ok (UploadObjectIncomplete contents want) ->
    forall j, j ∈ want -> 0 <= j < GetDegree (or_GetLocalReference r).

(** What happens without another call of [UploadObject]. *)
Inductive internal : uploader R L -> uploader R L -> Prop :=
  | step_process u i u' : processObject u i = Some u' -> internal u u'
  | step_first u i o res u' :
      objects u !! i = Some o -> valid_first (reference o) res ->
      firstResult zeroLease u i res = Some (Ok u') -> internal u u'
  | step_second u i o res u' :
      objects u !! i = Some o -> valid_second (reference o) res ->
      secondResult u i res = Some (Ok u') -> internal u u'
  | step_finalize u i u' : finalizeNext u i = Some (Ok u') -> internal u u'.

(** A call that waits for an object. *)
Definition call (u u' : uploader R L) : Prop :=
  exists r i, valid_reference (or_GetLocalReference r) /\ uploadObject u r None [] = (u', Waits i).

Inductive step (u u' : uploader R L) : Prop :=
  | step_internal : internal u u' -> step u u'
  | step_call : call u u' -> step u u'.

(** States that can be reached with a limit. *)
Inductive reachable (limit : Limit) : uploader R L -> Prop :=
  | reach_new : reachable limit (NewUploader limit)
  | reach_step u u' : reachable limit u -> step u u' -> reachable limit u'.
End steps.
