(* ===== verification/LeaseRenewingInv.v ===== *)
(** * The invariant of lease renewing

    What holds of every state that can be reached: the resources that are held
    add up to the limit, the objects that are looked up by reference can still
    get parents, every parent counts the children that it waits for, and the
    handlers never index out of range. *)

From S2P Require Import Prelude References ObjectStore LeaseRenewing.

(** ** Sums over lists *)

Fixpoint zsum {A} (f : A -> Z) (l : list A) : Z :=
  match l with [] => 0 | x :: l => f x + zsum f l end.

Lemma zsum_app {A} (f : A -> Z) l k : zsum f (l ++ k) = zsum f l + zsum f k.
Proof. induction l; simpl; lia. Qed.

Lemma zsum_insert {A} (f : A -> Z) l i x y :
  l !! i = Some x -> zsum f (<[i := y]> l) = zsum f l - f x + f y.
Proof.
  revert i. induction l as [|a l IH]; intros [|i] H; simpl in *; [done|done|..].
  - injection H as ->. lia.
  - rewrite (IH i H). lia.
Qed.

Lemma zsum_mono {A} (f g : A -> Z) l : (forall x, x ∈ l -> f x <= g x) -> zsum f l <= zsum g l.
Proof.
  induction l as [|x l IH]; intros H; simpl; [lia|].
  assert (f x <= g x) by (apply H; by left). assert (zsum f l <= zsum g l) by (apply IH; intros; apply H; by right). lia.
Qed.

Lemma zsum_ext {A} (f g : A -> Z) l : (forall x, x ∈ l -> f x = g x) -> zsum f l = zsum g l.
Proof.
  intros H. assert (zsum f l <= zsum g l /\ zsum g l <= zsum f l); [|lia].
  split; apply zsum_mono; intros x Hx; by rewrite (H x Hx).
Qed.

Lemma zsum_zero {A} (l : list A) : zsum (fun _ => 0) l = 0.
Proof. induction l; simpl; lia. Qed.

Lemma zsum_nonneg {A} (f : A -> Z) l : (forall x, x ∈ l -> 0 <= f x) -> 0 <= zsum f l.
Proof. intros H. rewrite <- (zsum_zero l). by apply zsum_mono. Qed.

Lemma zsum_elem {A} (f : A -> Z) l x :
  (forall x, x ∈ l -> 0 <= f x) -> x ∈ l -> f x <= zsum f l.
Proof.
  induction l as [|y l IH]; intros H Hx; [by apply not_elem_of_nil in Hx|]. simpl.
  assert (0 <= f y) by (apply H; by left).
  assert (forall x, x ∈ l -> 0 <= f x) as Hl by (intros; apply H; by right).
  pose proof (zsum_nonneg f l Hl). apply elem_of_cons in Hx as [->|Hx]; [lia|].
  specialize (IH Hl Hx). lia.
Qed.

Lemma zsum_pos {A} (f : A -> Z) l : 0 < zsum f l -> exists x, x ∈ l /\ 0 < f x.
Proof.
  induction l as [|y l IH]; simpl; intros H; [lia|].
  destruct (Z.ltb_spec 0 (f y)); [exists y; split; [by left|done]|].
  destruct IH as (x&Hx&?); [lia|]. exists x. split; [by right|done].
Qed.

(** ** Resources *)

(** Both components of a limit. *)
Inductive resource := Count | Size.

Definition amount (k : resource) (l : Limit) : Z :=
  match k with Count => limitCount l | Size => limitSizeBytes l end.

Definition full (k : resource) (r : LocalReference) : Z :=
  match k with Count => GetHeight r | Size => GetMaximumTotalParentsSizeBytes r true end.

Definition own (k : resource) (r : LocalReference) : Z :=
  if GetHeight r >? 0 then match k with Count => 1 | Size => GetSizeBytes r end else 0.

Lemma own_full k r : valid_reference r -> 0 <= own k r <= full k r.
Proof.
  intros Hr. pose proof (parents_range r Hr) as (?&?&Hpos&?). pose proof (fields_range r (proj1 Hr)) as (_&?&?&_).
  destruct Hr as [_ (?&_)]. unfold own, full. destruct (Z.gtb_spec (GetHeight r) 0), k; lia.
Qed.

Lemma Limit_eq l l' : (forall k, amount k l = amount k l') -> l = l'.
Proof. intros H. pose proof (H Count). pose proof (H Size). destruct l, l'; simpl in *. congruence. Qed.

Lemma acquire_amount l r l' :
  Limit_ok l -> valid_reference r -> AcquireParentAndChildren l r = (l', true) ->
  forall k, full k r <= amount k l /\ amount k l' = amount k l - full k r.
Proof.
  intros Hl Hr. destruct (AcquireParentAndChildren_spec l r Hl Hr) as [-> Hcan].
  destruct (CanAcquireParentAndChildren l r); [|done]. intros [= <-].
  destruct (proj1 Hcan eq_refl). intros []; simpl; lia.
Qed.

Lemma acquire_possible l r :
  Limit_ok l -> valid_reference r -> (forall k, full k r <= amount k l) ->
  exists l', AcquireParentAndChildren l r = (l', true).
Proof.
  intros Hl Hr Hk. destruct (AcquireParentAndChildren_spec l r Hl Hr) as [-> Hcan].
  rewrite (proj2 Hcan (conj (Hk Count) (Hk Size))). eauto.
Qed.

Lemma releaseParent_amount l r :
  Limit_ok l -> valid_reference r -> Limit_ok (mkLimit (limitCount l + own Count r) (limitSizeBytes l + own Size r)) ->
  forall k, amount k (ReleaseParent l r) = amount k l + own k r.
Proof.
  intros Hl Hr [Hc Hs] k. pose proof (fields_range r (proj1 Hr)) as (_&?&_). destruct Hl as [? ?].
  unfold ReleaseParent, own, is_u32, is_u64, u32, u64 in *. cbn [limitCount limitSizeBytes] in *.
  destruct (GetHeight r >? 0); [|destruct k; lia].
  destruct k; simpl; rewrite ?(Z.mod_small (GetSizeBytes r)) by lia; rewrite Z.mod_small; lia.
Qed.

Lemma releaseChildren_amount l r :
  Limit_ok l -> valid_reference r ->
  Limit_ok (mkLimit (limitCount l + (full Count r - own Count r)) (limitSizeBytes l + (full Size r - own Size r))) ->
  forall k, amount k (ReleaseChildren l r) = amount k l + (full k r - own k r).
Proof.
  intros Hl Hr [Hc Hs] k. pose proof (fields_range r (proj1 Hr)) as (_&?&?&_).
  pose proof (parents_range r Hr) as (?&?&Hpos&Hzero). destruct Hl as [? ?].
  unfold ReleaseChildren, own, full, is_u32, is_u64, u32, u64 in *. cbn [limitCount limitSizeBytes] in *.
  destruct (Z.gtb_spec (GetHeight r) 0).
  - specialize (Hpos ltac:(lia)). destruct k; simpl.
    + rewrite (Z.mod_small (GetHeight r - 1)) by lia. rewrite Z.mod_small; lia.
    + rewrite (Z.mod_small (GetMaximumTotalParentsSizeBytes r false)) by lia. rewrite Z.mod_small; lia.
  - specialize (Hzero ltac:(lia)). destruct k; simpl; lia.
Qed.

(** ** The invariant *)

Section invariant.
Context {R L : Type} `{!EqDecision R, !Countable R, !ObjectReference R, !RenewableReference R}.
Context (zeroLease : L).
Abbreviation U := (uploader R L).
Abbreviation O := (objectState R L).

Definition loc (o : O) : LocalReference := or_GetLocalReference (reference o).

(** What an object holds of the limit. *)
Definition held (k : resource) (o : O) : Z :=
  match objectPhase o with
  | Pending | Finalized => 0
  | FirstCall | Finalizing _ _ _ true => full k (loc o)
  | _ => own k (loc o)
  end.

Record accounted (u : U) : Prop := {
  acc_max : Limit_ok (maximumUnfinalizedParentsLimit u);
  acc_valid o : o ∈ objects u -> valid_reference (loc o);
  acc_sum k : amount k (remainingUnfinalizedParentsLimit u) + zsum (held k) (objects u) =
    amount k (maximumUnfinalizedParentsLimit u);
  acc_rem k : 0 <= amount k (remainingUnfinalizedParentsLimit u);
}.

(** Objects that can get further parents. *)
Definition attachable (o : O) : Prop :=
  match objectPhase o with Finalizing _ _ _ _ | Finalized => False | _ => True end.

(** The parents that still wait for an object. *)
Definition openLinks (o : O) : list (nat * Z) :=
  match objectPhase o with
  | Finalizing parents _ _ _ => parents
  | Finalized => []
  | _ => unfinalizedParents o
  end.

Definition linkCount (p : nat) (l : list (nat * Z)) : Z :=
  zsum (fun q => if decide (q.1 = p) then 1 else 0) l.

Definition links (os : list O) (p : nat) : Z := zsum (fun o => linkCount p (openLinks o)) os.

(** How many children an object waits for, by its own count. *)
Definition awaited (o : O) : Z :=
  match objectPhase o with Waiting c => unfinalizedChildrenCount c | _ => 0 end.

(** [off]: by how much the counts and the links differ for the moment. *)
Definition counted (off : nat -> Z) (os : list O) : Prop :=
  forall p o, os !! p = Some o -> links os p + off p = awaited o.

Definition none (p : nat) : Z := 0.

(** The fields of an object by itself. *)
Definition children_ok (o : O) (c : unfinalizedChildren L) : Prop :=
  zlen (leases c) = GetDegree (loc o) /\
  zlen (gotNoLease c) = (GetDegree (loc o) + UintSize - 1) / UintSize.

Definition object_ok (o : O) : Prop :=
  match objectPhase o with
  | Waiting c => children_ok o c /\ 0 < unfinalizedChildrenCount c
  | SecondCall c => children_ok o c
  | Finalizing _ _ _ _ | Finalized => hasCallers o <> Some None
  | _ => True
  end.

Record shaped (u : U) : Prop := {
  sh_map r i : objectsByReference u !! r = Some i ->
    exists o, objects u !! i = Some o /\ reference o = r /\ attachable o;
  sh_parents o p j : o ∈ objects u -> (p, j) ∈ openLinks o ->
    exists op, objects u !! p = Some op /\ GetHeight (loc o) < GetHeight (loc op) /\ 0 <= j < GetDegree (loc op);
  sh_object o : o ∈ objects u -> object_ok o;
}.

Lemma linkCount_nonneg p l : 0 <= linkCount p l.
Proof. apply zsum_nonneg. intros q _. case_decide; lia. Qed.

Lemma linkCount_cons p q l : linkCount p (q :: l) = (if decide (q.1 = p) then 1 else 0) + linkCount p l.
Proof. done. Qed.

Lemma linkCount_app p l l' : linkCount p (l ++ l') = linkCount p l + linkCount p l'.
Proof. apply zsum_app. Qed.

Lemma linkCount_pos p l : 0 < linkCount p l -> exists j, (p, j) ∈ l.
Proof.
  intros H. apply zsum_pos in H as ([q j]&Hq&Hd). case_decide as E; [|lia]. simpl in E. subst. by exists j.
Qed.

Lemma links_insert os i o o' p :
  os !! i = Some o -> links (<[i := o']> os) p = links os p - linkCount p (openLinks o) + linkCount p (openLinks o').
Proof. intros H. unfold links. by rewrite (zsum_insert _ _ _ _ _ H). Qed.

Lemma held_range k o : valid_reference (loc o) -> 0 <= held k o <= full k (loc o).
Proof. intros Hr. pose proof (own_full k _ Hr). unfold held. destruct (objectPhase o) as [| | | |? ? ? []|]; lia. Qed.

Lemma acc_lookup u i o : accounted u -> objects u !! i = Some o -> valid_reference (loc o).
Proof. intros Ha Hi. apply (acc_valid u Ha). by apply list_elem_of_lookup_2 in Hi. Qed.

Lemma acc_held u i o k :
  accounted u -> objects u !! i = Some o ->
  amount k (remainingUnfinalizedParentsLimit u) + held k o <= amount k (maximumUnfinalizedParentsLimit u).
Proof.
  intros Ha Hi. rewrite <- (acc_sum u Ha k). apply Z.add_le_mono_l, zsum_elem.
  - intros x Hx. by apply held_range, (acc_valid u Ha).
  - by apply list_elem_of_lookup_2 in Hi.
Qed.

Lemma acc_remaining u : accounted u -> Limit_ok (remainingUnfinalizedParentsLimit u).
Proof.
  intros Ha. destruct (acc_max u Ha) as [Hc Hs]. pose proof (acc_rem u Ha) as Hr.
  assert (forall k, 0 <= zsum (held k) (objects u)) as H0
    by (intros k; apply zsum_nonneg; intros x Hx; by apply held_range, (acc_valid u Ha)).
  pose proof (acc_sum u Ha Count). pose proof (acc_sum u Ha Size).
  pose proof (Hr Count). pose proof (Hr Size). pose proof (H0 Count). pose proof (H0 Size).
  unfold Limit_ok, is_u32, is_u64 in *. simpl in *. lia.
Qed.

(** One object changes, and what it holds is taken from or given to the limit. *)
Lemma acc_update (u u' : U) i o o' :
  accounted u -> objects u !! i = Some o -> reference o' = reference o ->
  maximumUnfinalizedParentsLimit u' = maximumUnfinalizedParentsLimit u ->
  objects u' = <[i := o']> (objects u) ->
  (forall k, amount k (remainingUnfinalizedParentsLimit u') =
     amount k (remainingUnfinalizedParentsLimit u) + held k o - held k o') ->
  (forall k, held k o' <= held k o \/ 0 <= amount k (remainingUnfinalizedParentsLimit u')) ->
  accounted u'.
Proof.
  intros Ha Hi Href Hmax Hos Hrem Hle. split.
  - rewrite Hmax. apply Ha.
  - intros x Hx. rewrite Hos in Hx. apply list_elem_of_lookup in Hx as [j Hj].
    apply list_lookup_insert_Some in Hj as [(<-&<-&_)|[_ Hj]].
    + unfold loc. rewrite Href. by apply (acc_lookup u i o).
    + by apply (acc_lookup u j x).
  - intros k. rewrite Hos, Hmax, (zsum_insert _ _ _ _ _ Hi), Hrem. pose proof (acc_sum u Ha k). lia.
  - intros k. destruct (Hle k) as [H|H]; [|done]. rewrite Hrem. pose proof (acc_rem u Ha k). lia.
Qed.

(** What is given back fits the limit. *)
Lemma acc_give_back (u : U) i o (x : resource -> Z) :
  accounted u -> objects u !! i = Some o -> (forall k, 0 <= x k <= held k o) ->
  let l := remainingUnfinalizedParentsLimit u in
  Limit_ok (mkLimit (limitCount l + x Count) (limitSizeBytes l + x Size)).
Proof.
  intros Ha Hi Hx l. pose proof (acc_held u i o Count Ha Hi). pose proof (acc_held u i o Size Ha Hi).
  pose proof (Hx Count). pose proof (Hx Size). destruct (acc_max u Ha) as [? ?].
  destruct (acc_remaining u Ha) as [? ?]. subst l. unfold Limit_ok, is_u32, is_u64 in *. simpl in *. lia.
Qed.

Lemma shaped_lookup u i o : shaped u -> objects u !! i = Some o -> object_ok o.
Proof. intros Hs Hi. apply (sh_object u Hs). by apply list_elem_of_lookup_2 in Hi. Qed.

(** A link to a parent whose child lies below it. *)
Definition link_ok (os : list O) (o : O) (p : nat) (j : Z) : Prop :=
  exists op, os !! p = Some op /\ GetHeight (loc o) < GetHeight (loc op) /\ 0 <= j < GetDegree (loc op).

Lemma link_ok_insert os i o o' x p j :
  os !! i = Some o -> reference o' = reference o -> link_ok os x p j -> link_ok (<[i := o']> os) x p j.
Proof.
  intros Hi Href (op&Hp&Hh&Hj). destruct (decide (i = p)) as [->|Hne].
  - exists o'. rewrite list_lookup_insert_eq by (by apply lookup_lt_Some in Hi).
    rewrite Hi in Hp. injection Hp as <-. unfold loc in *. by rewrite Href.
  - exists op. by rewrite list_lookup_insert_ne by done.
Qed.

Lemma shaped_update (u u' : U) i o o' :
  shaped u -> objects u !! i = Some o -> reference o' = reference o ->
  objects u' = <[i := o']> (objects u) ->
  (forall r j, objectsByReference u' !! r = Some j -> objectsByReference u !! r = Some j /\ (j = i -> attachable o')) ->
  (forall p j, (p, j) ∈ openLinks o' -> (p, j) ∈ openLinks o \/ link_ok (objects u) o p j) ->
  object_ok o' -> shaped u'.
Proof.
  intros Hs Hi Href Hos Hmap Hlinks Hok.
  pose proof (lookup_lt_Some _ _ _ Hi) as Hlt.
  assert (forall x, x ∈ objects u' -> x = o' \/ x ∈ objects u) as Hin.
  { intros x Hx. rewrite Hos in Hx. apply list_elem_of_lookup in Hx as [j Hj].
    apply list_lookup_insert_Some in Hj as [(<-&<-&_)|[_ Hj]]; [by left|right]. by eapply list_elem_of_lookup_2. }
  split.
  - intros r j Hr. destruct (Hmap r j Hr) as [Hr' Hatt]. destruct (sh_map u Hs r j Hr') as (x&Hx&<-&Hxa).
    rewrite Hos. destruct (decide (i = j)) as [<-|Hne].
    + exists o'. rewrite list_lookup_insert_eq by done. rewrite Hi in Hx. injection Hx as <-. auto.
    + exists x. by rewrite list_lookup_insert_ne by done.
  - intros x p j Hx Hp. rewrite Hos. apply (link_ok_insert _ i o o' x p j Hi Href).
    destruct (Hin x Hx) as [->|Hx']; [|by apply (sh_parents u Hs x)].
    assert (link_ok (objects u) o p j) as Hl; [|unfold link_ok, loc in *; by rewrite Href].
    destruct (Hlinks p j Hp) as [Hl|Hl]; [|done]. apply (sh_parents u Hs o); [|done]. by eapply list_elem_of_lookup_2.
  - intros x Hx. destruct (Hin x Hx) as [->|Hx']; [done|by apply (sh_object u Hs)].
Qed.

Lemma counted_update (off off' : nat -> Z) os i o o' :
  counted off os -> os !! i = Some o ->
  (forall p, off' p = off p + linkCount p (openLinks o) - linkCount p (openLinks o') +
     if decide (p = i) then awaited o' - awaited o else 0) ->
  counted off' (<[i := o']> os).
Proof.
  intros Hc Hi Hoff p x Hx. rewrite (links_insert _ _ _ _ _ Hi), Hoff.
  apply list_lookup_insert_Some in Hx as [(->&->&_)|[Hne Hx]].
  - rewrite decide_True by done. pose proof (Hc p o Hi). lia.
  - rewrite decide_False by done. pose proof (Hc p x Hx). lia.
Qed.

(** *** New objects *)

Lemma getOrCreate_spec (u : U) r :
  shaped u -> exists o, objects (getOrCreateObjectState u r).1 !! (getOrCreateObjectState u r).2 = Some o /\
    reference o = r /\ attachable o /\
    ((getOrCreateObjectState u r).1 = u \/
     getOrCreateObjectState u r = (mkUploader (maximumUnfinalizedParentsLimit u) (remainingUnfinalizedParentsLimit u)
       (<[r := length (objects u)]> (objectsByReference u)) (objects u ++ [o]), length (objects u)) /\
     o = mkObjectState r None [] Pending).
Proof.
  intros Hs. unfold getOrCreateObjectState. destruct (objectsByReference u !! r) as [i|] eqn:E; simpl.
  - destruct (sh_map u Hs r i E) as (o&Ho&<-&Ha). exists o. split_and!; try done. by left.
  - exists (mkObjectState r None [] Pending). split; [by rewrite lookup_app_r, Nat.sub_diag by lia|].
    split_and!; try done. by right.
Qed.

Lemma acc_new (u : U) r m :
  accounted u -> valid_reference (or_GetLocalReference r) ->
  accounted (mkUploader (maximumUnfinalizedParentsLimit u) (remainingUnfinalizedParentsLimit u) m
    (objects u ++ [mkObjectState r None [] Pending])).
Proof.
  intros Ha Hr. split; simpl.
  - apply Ha.
  - intros o Ho. apply elem_of_app in Ho as [Ho|Ho]; [by apply (acc_valid u Ha)|].
    by apply list_elem_of_singleton in Ho as ->.
  - intros k. rewrite zsum_app. simpl. pose proof (acc_sum u Ha k). unfold held at 2. simpl. lia.
  - apply Ha.
Qed.

Lemma shaped_new (u : U) r :
  shaped u ->
  shaped (mkUploader (maximumUnfinalizedParentsLimit u) (remainingUnfinalizedParentsLimit u)
    (<[r := length (objects u)]> (objectsByReference u)) (objects u ++ [mkObjectState r None [] Pending])).
Proof.
  intros Hs. split; simpl.
  - intros r' i Hi. apply lookup_insert_Some in Hi as [[<- <-]|[_ Hi]].
    + exists (mkObjectState r None [] Pending). by rewrite lookup_app_r, Nat.sub_diag by lia.
    + destruct (sh_map u Hs r' i Hi) as (o&Ho&?&?). exists o. split; [by apply lookup_app_l_Some|done].
  - intros o p j Ho Hp. apply elem_of_app in Ho as [Ho|Ho].
    + destruct (sh_parents u Hs o p j Ho Hp) as (op&?&?). exists op. split; [by apply lookup_app_l_Some|done].
    + apply list_elem_of_singleton in Ho as ->. by apply not_elem_of_nil in Hp.
  - intros o Ho. apply elem_of_app in Ho as [Ho|Ho]; [by apply (sh_object u Hs)|].
    by apply list_elem_of_singleton in Ho as ->.
Qed.

Lemma links_fresh (u : U) : shaped u -> links (objects u) (length (objects u)) = 0.
Proof.
  intros Hs. assert (0 <= links (objects u) (length (objects u))) as H
    by (apply zsum_nonneg; intros; apply linkCount_nonneg).
  destruct (Z.eqb_spec (links (objects u) (length (objects u))) 0) as [|Hne]; [done|].
  destruct (zsum_pos (fun o => linkCount (length (objects u)) (openLinks o)) (objects u)) as (o&Ho&Hl);
    [unfold links in *; lia|].
  apply linkCount_pos in Hl as [j Hj]. destruct (sh_parents u Hs o _ _ Ho Hj) as (op&Hop&_).
  apply lookup_lt_Some in Hop. lia.
Qed.

Lemma counted_new (u : U) off r :
  shaped u -> off (length (objects u)) = 0 -> counted off (objects u) ->
  counted off (objects u ++ [mkObjectState r None [] Pending]).
Proof.
  intros Hs Hoff Hc p o Ho. unfold links. rewrite zsum_app. cbn [zsum].
  change (linkCount p (openLinks (mkObjectState r None [] Pending))) with 0. fold (links (objects u) p).
  apply lookup_app_Some in Ho as [Ho|[Hp Ho]]; [rewrite <- (Hc p o Ho); lia|].
  apply list_lookup_singleton_Some in Ho as [Hp' <-].
  assert (p = length (objects u)) as -> by lia. rewrite links_fresh, Hoff by done. done.
Qed.
End invariant.
