(* ===== verification/LeaseRenewingProofs.v ===== *)
(** * Lease renewing keeps its invariant

    Every step that can be taken keeps the invariant of [LeaseRenewingInv], and
    no handler panics. *)

From S2P Require Import Prelude References ObjectStore LeaseRenewing LeaseRenewingInv.

(** The children of an object lie below it, and need no more than its own share
    leaves over. *)
Lemma children_below r c j :
  valid_reference r -> object_of r c -> 0 <= j < GetDegree r ->
  exists child, GetOutgoingReference c j = Ok child /\ valid_reference child /\
    GetHeight child < GetHeight r /\ forall k, full k child <= full k r - own k r.
Proof.
  intros Hr [Hb Hok] Hj. destruct c as [rc d]. cbn [contentsData or_GetLocalReference LocalReference_ObjectReference] in *.
  destruct (NewContentsFromFullData_Ok _ _ _ Hok) as ([= ->]&_).
  destruct (NewContentsFromFullData_cases r d Hr Hb) as [E|(refs&payload&Hrefs&->&_&HN)]; [by rewrite Hok in E|].
  destruct (NewContents_cases refs payload Hrefs) as [E|(rcs&f&Hstats&E)]; rewrite E in HN; [done|].
  injection HN as <-. destruct (object_fields refs payload rcs f Hrefs Hstats) as (_&_&Eh&Ed&_).
  set (r := objectReference refs payload rcs f) in *. rewrite Ed in Hj. unfold zlen in Hj.
  destruct (lookup_lt_is_Some_2 refs (Z.to_nat j)) as [child Hc]; [lia|].
  pose proof (Forall_lookup_1 _ _ _ _ Hrefs Hc) as Hv.
  assert (child ∈ refs) as Hin by (by eapply list_elem_of_lookup_2).
  exists child. split; [rewrite <- (Z2Nat.id j) by lia; by apply GetOutgoingReference_object|]. split; [done|].
  destruct (foldStats_child refs zeroStats rcs child) as [Hh _]; [apply Hstats|done|].
  split; [lia|]. pose proof (object_child refs payload rcs f child Hrefs Hstats Hin) as Hchild. fold r in Hchild.
  pose proof (parents_range r Hr) as (_&_&Hpos&_). pose proof (fields_range child (proj1 Hv)) as (_&_&?&_).
  unfold full, own. destruct (Z.gtb_spec (GetHeight r) 0); [|lia]. specialize (Hpos ltac:(lia)).
  intros []; lia.
Qed.

Section preservation.
Context {R L : Type} `{!EqDecision R, !Countable R, !ObjectReference R, !RenewableReference R}.
Context (zeroLease : L).
Abbreviation U := (uploader R L).
Abbreviation O := (objectState R L).

Record inv (u : U) : Prop := {
  inv_acc : accounted u;
  inv_shape : shaped u;
  inv_count : counted none (objects u);
}.

Lemma inv_new limit : Limit_ok limit -> inv (NewUploader limit).
Proof.
  intros Hl. split; [split|split|]; cbn [objects objectsByReference remainingUnfinalizedParentsLimit
    maximumUnfinalizedParentsLimit NewUploader zsum].
  - exact Hl.
  - intros o Ho. by apply not_elem_of_nil in Ho.
  - intros k. lia.
  - destruct Hl as [Hc Hs]. unfold is_u32, is_u64 in *. intros []; simpl; lia.
  - intros r i. by rewrite lookup_empty.
  - intros o p j Ho. by apply not_elem_of_nil in Ho.
  - intros o Ho. by apply not_elem_of_nil in Ho.
  - intros p o Ho. done.
Qed.

(** An object changes in a way that neither the limit nor its links show. *)
Lemma inv_update (u u' : U) i o o' :
  inv u -> objects u !! i = Some o -> reference o' = reference o ->
  maximumUnfinalizedParentsLimit u' = maximumUnfinalizedParentsLimit u ->
  objects u' = <[i := o']> (objects u) ->
  (forall k, amount k (remainingUnfinalizedParentsLimit u') =
     amount k (remainingUnfinalizedParentsLimit u) + held k o - held k o') ->
  (forall k, held k o' <= held k o \/ 0 <= amount k (remainingUnfinalizedParentsLimit u')) ->
  (forall r j, objectsByReference u' !! r = Some j -> objectsByReference u !! r = Some j /\ (j = i -> attachable o')) ->
  openLinks o' = openLinks o -> awaited o' = awaited o -> object_ok o' -> inv u'.
Proof.
  intros [Ha Hs Hc] Hi Href Hmax Hos Hrem Hle Hmap Hlinks Haw Hok. split.
  - by apply (acc_update u u' i o o').
  - apply (shaped_update u u' i o o'); try done. intros p j. rewrite Hlinks. by left.
  - rewrite Hos. apply (counted_update none none _ i o o' Hc Hi). intros p. rewrite Hlinks, Haw.
    unfold none. case_decide; lia.
Qed.

Lemma setObject_lookup (u : U) i o : objects (setObject u i o) = <[i := o]> (objects u).
Proof. done. Qed.

(** *** Calls *)

Lemma getOrCreate_inv (u : U) r :
  inv u -> valid_reference (or_GetLocalReference r) -> inv (getOrCreateObjectState u r).1.
Proof.
  intros [Ha Hs Hc] Hr. unfold getOrCreateObjectState. destruct (objectsByReference u !! r); [done|].
  split; [by apply acc_new|by apply shaped_new|by apply counted_new].
Qed.

Lemma call_inv (u u' : U) : inv u -> call u u' -> inv u'.
Proof.
  intros Hu (r&i&Hr&E). unfold uploadObject in E. destruct (_ || _ || _); [done|].
  destruct (negb _); [done|]. pose proof (getOrCreate_inv u r Hu Hr) as Hu1.
  pose proof (getOrCreate_spec u r (inv_shape u Hu)) as (o&Ho&Href&Hatt&_).
  destruct (getOrCreateObjectState u r) as [u1 i1]. cbn [fst snd] in *. rewrite Ho in E. injection E as <- <-.
  apply (inv_update u1 _ i1 o (mkObjectState (reference o)
    (match hasCallers o with Some c => Some c | None => Some None end) (unfinalizedParents o) (objectPhase o)) Hu1 Ho); try reflexivity.
  - intros k. simpl. unfold held, loc. simpl. lia.
  - intros k. left. unfold held, loc. simpl. lia.
  - intros r' j Hj. by split.
  - pose proof (shaped_lookup _ _ _ (inv_shape u1 Hu1) Ho) as Hok. unfold object_ok, attachable, children_ok, loc in *.
    simpl. by destruct (objectPhase o).
Qed.

(** *** Picking an object *)

Lemma process_inv (u u' : U) i : inv u -> processObject u i = Some u' -> inv u'.
Proof.
  intros Hu. unfold processObject. destruct (objects u !! i) as [o|] eqn:Ho; [|done].
  destruct (isPending o && firstPending u o) eqn:Ep; [|done]. boolprop.
  destruct (AcquireParentAndChildren _ _) as [l [|]] eqn:El; [|done]. intros [= <-].
  pose proof (acc_lookup u i o (inv_acc u Hu) Ho) as Hr.
  pose proof (acquire_amount _ _ _ (acc_remaining u (inv_acc u Hu)) Hr El) as Hl.
  clear El. unfold isPending in *. destruct (objectPhase o) eqn:Eph; [|discriminate..].
  apply (inv_update u _ i o (setPhase o FirstCall) Hu Ho); try reflexivity.
  - intros k. destruct (Hl k) as [_ Hk]. simpl. unfold held. rewrite Eph. simpl. unfold loc in *. simpl. lia.
  - intros k. right. simpl. destruct (Hl k) as [? ->]. unfold loc in *. lia.
  - intros r j Hj. by split.
  - unfold openLinks. by rewrite Eph.
  - unfold awaited. by rewrite Eph.
Qed.

(** *** Finalizing *)

Definition finalizing (o : O) (lease : option L) (result : option (UploadObjectResult L)) (err : option error) : O :=
  mkObjectState (reference o)
    (match hasCallers o with Some _ => Some (Some (mkAnswer result err)) | None => None end)
    (unfinalizedParents o) (Finalizing (unfinalizedParents o) lease err (match objectPhase o with FirstCall => true | _ => false end)).

Lemma detach_spec (u : U) i :
  shaped u ->
  objects (detachObjectState u i) = objects u /\
  remainingUnfinalizedParentsLimit (detachObjectState u i) = remainingUnfinalizedParentsLimit u /\
  maximumUnfinalizedParentsLimit (detachObjectState u i) = maximumUnfinalizedParentsLimit u /\
  forall r j, objectsByReference (detachObjectState u i) !! r = Some j -> objectsByReference u !! r = Some j /\ j <> i.
Proof.
  intros Hs. unfold detachObjectState. destruct (objects u !! i) as [o|] eqn:Ho.
  2: { split_and!; try done. intros r j Hr. split; [done|]. intros ->.
    destruct (sh_map u Hs r i Hr) as (o&Ho'&_). by rewrite Ho in Ho'. }
  case_decide as Hd; simpl; split_and!; try done; intros r j Hr.
  - apply lookup_delete_Some in Hr as [Hne Hr]. split; [done|]. intros ->.
    destruct (sh_map u Hs r i Hr) as (o'&Ho'&<-&_). rewrite Ho in Ho'. by injection Ho' as <-.
  - split; [done|]. intros ->. destruct (sh_map u Hs r i Hr) as (o'&Ho'&<-&_). rewrite Ho in Ho'. by injection Ho' as <-.
Qed.

Lemma startFinalizing_spec (u : U) i o lease result err :
  shaped u -> objects u !! i = Some o ->
  let u' := startFinalizing u i lease result err in
  objects u' = <[i := finalizing o lease result err]> (objects u) /\
  remainingUnfinalizedParentsLimit u' = remainingUnfinalizedParentsLimit u /\
  maximumUnfinalizedParentsLimit u' = maximumUnfinalizedParentsLimit u /\
  forall r j, objectsByReference u' !! r = Some j -> objectsByReference u !! r = Some j /\ j <> i.
Proof.
  intros Hs Ho. unfold startFinalizing. destruct (detach_spec u i Hs) as (Eo&Er&Em&Hmap).
  rewrite Eo, Ho. simpl. by rewrite Eo, Er, Em.
Qed.

Lemma finalizing_ok o lease result err : object_ok (finalizing o lease result err).
Proof. unfold object_ok. simpl. by destruct (hasCallers o). Qed.

(** From the first call: the share of the children is given back. *)
Lemma first_release_inv (u u1 : U) i (o o' : O) :
  accounted u -> objects u !! i = Some o -> objectPhase o = FirstCall ->
  (forall k, held k o' = own k (loc o)) ->
  remainingUnfinalizedParentsLimit u1 = remainingUnfinalizedParentsLimit u ->
  let u2 := setRemaining u1 (ReleaseChildren (remainingUnfinalizedParentsLimit u1) (loc o)) in
  (forall k, amount k (remainingUnfinalizedParentsLimit u2) =
     amount k (remainingUnfinalizedParentsLimit u) + held k o - held k o') /\
  (forall k, held k o' <= held k o).
Proof.
  intros Ha Ho Eph Hheld Hrem u2.
  pose proof (acc_lookup u i o Ha Ho) as Hr.
  assert (forall k, held k o = full k (loc o)) as Hfull by (intros k; unfold held; by rewrite Eph).
  pose proof (fun k => own_full k (loc o) Hr) as Hown.
  split; [|intros k; rewrite Hfull, Hheld; apply Hown]. intros k. simpl. rewrite Hrem.
  rewrite releaseChildren_amount; [rewrite Hfull, Hheld; lia|by apply acc_remaining|done|].
  apply (acc_give_back u i o (fun k => full k (loc o) - own k (loc o)) Ha Ho).
  intros k'. rewrite Hfull. pose proof (Hown k'). lia.
Qed.

(** *** Queueing children *)

(** A quantity that depends on the phase and the reference of objects, and to
    which pending objects add nothing. *)
Definition phased (f : O -> Z) : Prop :=
  (forall o o', reference o = reference o' -> objectPhase o = objectPhase o' -> f o = f o') /\
  (forall o, objectPhase o = Pending -> f o = 0).

(** Pending objects that were pending before, or that a share of the limit covers. *)
Definition pending_from (os os' : list O) (share : resource -> Z) : Prop :=
  forall q, q ∈ os' -> isPending q = true ->
    (exists q0, q0 ∈ os /\ isPending q0 = true /\ reference q0 = reference q) \/
    forall k, full k (loc q) <= share k.

(** Looking up or creating the object of a child does not change anything else. *)
Lemma getOrCreate_effect (u : U) r share :
  shaped u -> (forall k, full k (or_GetLocalReference r) <= share k) ->
  let u' := (getOrCreateObjectState u r).1 in
  remainingUnfinalizedParentsLimit u' = remainingUnfinalizedParentsLimit u /\
  maximumUnfinalizedParentsLimit u' = maximumUnfinalizedParentsLimit u /\
  (forall i o, objects u !! i = Some o -> objects u' !! i = Some o) /\
  pending_from (objects u) (objects u') share /\
  (forall f, phased f -> zsum f (objects u') = zsum f (objects u)).
Proof.
  intros Hs Hshare. unfold getOrCreateObjectState. destruct (objectsByReference u !! r); cbn [fst].
  - split_and!; try reflexivity; [done|]. intros q Hq Hp. left. by exists q.
  - cbn [objects remainingUnfinalizedParentsLimit maximumUnfinalizedParentsLimit].
    split_and!; try reflexivity.
    + intros i o Ho. by apply lookup_app_l_Some.
    + intros q Hq Hp. apply elem_of_app in Hq as [Hq|Hq]; [left; by exists q|].
      apply list_elem_of_singleton in Hq as ->. right. exact Hshare.
    + intros f [_ Hf]. rewrite zsum_app. cbn [zsum]. rewrite Hf by reflexivity. lia.
Qed.

Lemma pending_from_trans os os1 os2 share :
  pending_from os os1 share -> pending_from os1 os2 share -> pending_from os os2 share.
Proof.
  intros H1 H2 q Hq Hp. destruct (H2 q Hq Hp) as [(q1&Hq1&Hp1&E1)|H]; [|by right].
  destruct (H1 q1 Hq1 Hp1) as [(q0&Hq0&Hp0&E0)|H]; [left; exists q0; by rewrite E0|right].
  unfold loc in *. by rewrite E1 in H.
Qed.

Section queue.
Context (i : nat) (oi : O) (c : Contents).
Hypothesis Hphase : objectPhase oi = FirstCall.
Hypothesis Hvalid : valid_reference (loc oi).
Hypothesis Hobject : object_of (loc oi) c.
Abbreviation share := (fun k => full k (loc oi) - own k (loc oi)).

(** One child gets [oi] as a parent. *)
Lemma queueChild_spec (u : U) off j child :
  accounted u -> shaped u -> counted off (objects u) -> (forall p, p <> i -> off p = 0) ->
  objects u !! i = Some oi -> 0 <= j < GetDegree (loc oi) -> GetOutgoingReference c j = Ok child ->
  exists u1 k o, getOrCreateObjectState u (rr_WithLocalReference (reference oi) child) = (u1, k) /\
    objects u1 !! k = Some o /\
    let u' := setObject u1 k (mkObjectState (reference o) (hasCallers o) (unfinalizedParents o ++ [(i, j)]) (objectPhase o)) in
    accounted u' /\ shaped u' /\ counted (fun p => off p - if decide (p = i) then 1 else 0) (objects u') /\
    objects u' !! i = Some oi /\
    remainingUnfinalizedParentsLimit u' = remainingUnfinalizedParentsLimit u /\
    maximumUnfinalizedParentsLimit u' = maximumUnfinalizedParentsLimit u /\
    pending_from (objects u) (objects u') share /\
    forall f, phased f -> zsum f (objects u') = zsum f (objects u).
Proof using Hphase Hvalid Hobject.
  intros Ha Hs Hc Hoff Hi Hj Hchild.
  destruct (children_below (loc oi) c j Hvalid Hobject Hj) as (child'&E&Hcv&Hh&Hfull).
  rewrite Hchild in E. injection E as <-. set (r := rr_WithLocalReference (reference oi) child).
  assert (or_GetLocalReference r = child) as Hr by apply rr_local.
  destruct (getOrCreate_spec u r Hs) as (o&Ho&Href&Hatt&_).
  destruct (getOrCreate_effect u r share Hs) as (Erem&Emax&Hkeep&Hpend&Hsum); [by rewrite Hr|].
  assert (accounted (getOrCreateObjectState u r).1 /\ shaped (getOrCreateObjectState u r).1 /\
    counted off (objects (getOrCreateObjectState u r).1)) as (Ha1&Hs1&Hc1).
  { unfold getOrCreateObjectState. destruct (objectsByReference u !! r); [done|]. split_and!.
    - apply acc_new; [done|]. by rewrite Hr.
    - by apply shaped_new.
    - apply counted_new; [done| |done]. apply Hoff. apply lookup_lt_Some in Hi. lia. }
  destruct (getOrCreateObjectState u r) as [u1 k] eqn:E. cbn [fst snd] in *.
  assert (loc o = child) as Hloc by (unfold loc; by rewrite Href).
  pose proof (Hkeep i oi Hi) as Hi1.
  set (o' := mkObjectState (reference o) (hasCallers o) (unfinalizedParents o ++ [(i, j)]) (objectPhase o)).
  assert (openLinks o' = openLinks o ++ [(i, j)]) as Hlinks
    by (unfold openLinks, attachable in *; simpl; destruct (objectPhase o); done).
  assert (k <> i) as Hki. { intros ->. rewrite Hi1 in Ho. injection Ho as ->. rewrite Hloc in Hh. lia. }
  exists u1, k, o. split; [done|]. split; [done|]. cbv zeta. fold o'.
  assert (forall f, phased f -> f o' = f o) as Hf by (intros f [Hf _]; by apply Hf).
  split_and!.
  - apply (acc_update u1 _ k o o' Ha1 Ho); try reflexivity.
    + intros r'. unfold held, loc. simpl. lia.
    + intros r'. left. unfold held, loc. simpl. lia.
  - apply (shaped_update u1 _ k o o' Hs1 Ho); try reflexivity.
    + intros r' j' Hr'. by split.
    + intros p j'. rewrite Hlinks. intros [Hl|Hl]%elem_of_app; [by left|right].
      apply list_elem_of_singleton in Hl as [= -> ->]. exists oi. by rewrite Hloc.
    + pose proof (shaped_lookup _ _ _ Hs1 Ho) as Hok. unfold object_ok, children_ok, loc in *. simpl. by destruct (objectPhase o).
  - rewrite setObject_lookup. apply (counted_update off _ _ k o o' Hc1 Ho). intros p.
    rewrite Hlinks, linkCount_app, linkCount_cons. cbn [fst]. change (linkCount p []) with 0.
    assert (awaited o' = awaited o) as -> by done.
    destruct (decide (p = i)) as [->|Hne].
    + rewrite !decide_True by done. case_decide; lia.
    + rewrite !(decide_False (P := i = p)) by congruence. case_decide; lia.
  - rewrite setObject_lookup. by rewrite list_lookup_insert_ne.
  - exact Erem.
  - exact Emax.
  - apply (pending_from_trans _ (objects u1)); [done|]. intros q Hq Hp.
    rewrite setObject_lookup in Hq. apply list_elem_of_lookup in Hq as [n Hn].
    apply list_lookup_insert_Some in Hn as [(<-&<-&_)|[_ Hn]]; left.
    + exists o. split; [by eapply list_elem_of_lookup_2|done].
    + exists q. split; [by eapply list_elem_of_lookup_2|done].
  - intros f Hph. rewrite setObject_lookup, (zsum_insert _ _ _ _ _ Ho), (Hf f Hph), <- (Hsum f Hph). lia.
Qed.

Lemma queueChildren_spec want (u : U) off :
  accounted u -> shaped u -> counted off (objects u) -> (forall p, p <> i -> off p = 0) ->
  objects u !! i = Some oi -> (forall j, j ∈ want -> 0 <= j < GetDegree (loc oi)) ->
  exists u', queueChildren u i (reference oi) c want = Ok u' /\
    accounted u' /\ shaped u' /\ counted (fun p => off p - if decide (p = i) then zlen want else 0) (objects u') /\
    objects u' !! i = Some oi /\
    remainingUnfinalizedParentsLimit u' = remainingUnfinalizedParentsLimit u /\
    maximumUnfinalizedParentsLimit u' = maximumUnfinalizedParentsLimit u /\
    pending_from (objects u) (objects u') share /\
    forall f, phased f -> zsum f (objects u') = zsum f (objects u).
Proof using Hphase Hvalid Hobject.
  revert u off. induction want as [|j want IH]; intros u off Ha Hs Hc Hoff Hi Hw; cbn [queueChildren].
  { exists u. split_and!; try done.
    - intros p o Ho. rewrite <- (Hc p o Ho). change (zlen (A := Z) []) with 0. case_decide; lia.
    - intros q Hq Hp. left. by exists q. }
  destruct (children_below (loc oi) c j Hvalid Hobject) as (child&Hchild&_); [apply Hw; by left|].
  rewrite Hchild. cbn [mbind outcome_bind].
  destruct (queueChild_spec u off j child Ha Hs Hc Hoff Hi) as (u1&k&o&->&->&Ha1&Hs1&Hc1&Hi1&Er1&Em1&Hp1&Hf1);
    [apply Hw; by left|done|].
  destruct (IH _ _ Ha1 Hs1 Hc1) as (u2&E&Ha2&Hs2&Hc2&Hi2&Er2&Em2&Hp2&Hf2);
    [intros p Hp; rewrite decide_False by done; rewrite Hoff by done; lia|done|intros j' Hj'; apply Hw; by right|].
  exists u2. split; [done|]. split; [done|]. split; [done|]. split.
  { intros p o' Ho'. rewrite <- (Hc2 p o' Ho'). unfold zlen. cbn [length]. repeat case_decide; lia. }
  split; [done|]. split; [by rewrite Er2|]. split; [by rewrite Em2|].
  split; [by eapply pending_from_trans|]. intros f Hf. by rewrite Hf2, Hf1.
Qed.
End queue.

(** *** Admission *)

(** What objects that come after [q] hold. *)
Definition above (k : resource) (q o : O) : Z :=
  if CompareByHeight (loc q) (loc o) <? 0 then held k o else 0.

(** Every pending object fits what objects that come after it leave over. *)
Definition admitted (u : U) : Prop :=
  forall q k, q ∈ objects u -> isPending q = true ->
    full k (loc q) + zsum (above k q) (objects u) <= amount k (maximumUnfinalizedParentsLimit u).

Lemma above_phased k q : phased (above k q).
Proof.
  split.
  - intros o o' Er Ep. unfold above, held, loc. by rewrite Er, Ep.
  - intros o Ep. unfold above, held. rewrite Ep. by case_match.
Qed.

Lemma above_held (u : U) k q : accounted u -> zsum (above k q) (objects u) <= zsum (held k) (objects u).
Proof.
  intros Ha. apply zsum_mono. intros o Ho. pose proof (held_range k o (acc_valid u Ha o Ho)).
  unfold above. case_match; lia.
Qed.

Lemma above_le (u : U) k q i o o' :
  accounted u -> objects u !! i = Some o -> reference o' = reference o -> held k o' <= held k o ->
  zsum (above k q) (<[i := o']> (objects u)) <= zsum (above k q) (objects u).
Proof.
  intros Ha Ho Href Hle. rewrite (zsum_insert _ _ _ _ _ Ho). unfold above, loc. rewrite Href. case_match; lia.
Qed.

Lemma admitted_update (u u' : U) i o o' :
  accounted u -> admitted u -> objects u !! i = Some o -> reference o' = reference o ->
  maximumUnfinalizedParentsLimit u' = maximumUnfinalizedParentsLimit u ->
  objects u' = <[i := o']> (objects u) -> (isPending o' = true -> isPending o = true) ->
  (forall k, held k o' <= held k o) -> admitted u'.
Proof.
  intros Ha Hadm Ho Href Hmax Hos Hpend Hle q k Hq Hp. rewrite Hmax, Hos.
  pose proof (above_le u k q i o o' Ha Ho Href (Hle k)) as Hab.
  rewrite Hos in Hq. apply list_elem_of_lookup in Hq as [n Hn].
  assert (exists q0, q0 ∈ objects u /\ isPending q0 = true /\ reference q0 = reference q) as (q0&Hq0&Hp0&E0).
  { apply list_lookup_insert_Some in Hn as [(<-&<-&_)|[_ Hn]].
    - exists o. split; [by eapply list_elem_of_lookup_2|]. by auto.
    - exists q. split; [by eapply list_elem_of_lookup_2|done]. }
  pose proof (Hadm q0 k Hq0 Hp0) as H0. unfold above, loc in *. rewrite E0 in H0. lia.
Qed.

(** *** Results of the first call *)

(** Nothing is released before the parents have been dealt with. *)
Lemma finalizing_held k o lease result err :
  attachable o -> isPending o = false -> held k (finalizing o lease result err) = held k o.
Proof. unfold attachable, isPending, held, finalizing, loc. simpl. by destruct (objectPhase o). Qed.

(** From either call. *)
Lemma result_finalize (u : U) i o lease result err :
  inv u -> objects u !! i = Some o -> match objectPhase o with FirstCall | SecondCall _ => True | _ => False end ->
  inv (startFinalizing u i lease result err) /\ (admitted u -> admitted (startFinalizing u i lease result err)).
Proof.
  intros Hu Ho Hph. pose proof (inv_shape u Hu) as Hs. pose proof (inv_acc u Hu) as Ha.
  destruct (startFinalizing_spec u i o lease result err Hs Ho) as (Eo&Er&Em&Hmap).
  assert (forall k, held k (finalizing o lease result err) = held k o) as Hheld.
  { intros k. apply finalizing_held; unfold attachable, isPending; by destruct (objectPhase o). }
  split.
  - apply (inv_update u _ i o (finalizing o lease result err) Hu Ho); try done.
    + intros k. rewrite Er, Hheld. lia.
    + intros k. left. rewrite Hheld. lia.
    + unfold openLinks. simpl. by destruct (objectPhase o).
    + unfold awaited. simpl. by destruct (objectPhase o).
    + apply finalizing_ok.
  - intros Hadm. apply (admitted_update u _ i o (finalizing o lease result err) Ha Hadm Ho); try done.
    intros k. rewrite Hheld. lia.
Qed.

Lemma first_incomplete (u : U) i o c want :
  inv u -> objects u !! i = Some o -> objectPhase o = FirstCall ->
  want <> [] -> (forall j, j ∈ want -> 0 <= j < GetDegree (loc o)) -> object_of (loc o) c ->
  exists u', firstResult zeroLease u i (Ok (UploadObjectIncomplete (Some c) want)) = Some (Ok u') /\
    inv u' /\ (admitted u -> admitted u').
Proof.
  intros Hu Ho Eph Hne Hw Hobj. pose proof (inv_shape u Hu) as Hs. pose proof (inv_acc u Hu) as Ha.
  pose proof (acc_lookup u i o Ha Ho) as Hr.
  destruct (queueChildren_spec i o c Eph Hr Hobj want u none Ha Hs (inv_count u Hu)) as
    (u1&E&Ha1&Hs1&Hc1&Ho1&Er1&Em1&Hpend&Hsum); [done|done|done|].
  unfold firstResult. rewrite Ho, Eph, E. cbn [mbind outcome_bind]. rewrite Ho1.
  set (w := newUnfinalizedChildren zeroLease c want (GetDegree (or_GetLocalReference (reference o)))).
  set (o' := setPhase o (Waiting w)). eexists. split; [reflexivity|]. set (u' := setRemaining _ _).
  destruct (first_release_inv u1 (setObject u1 i o') i o o' Ha1 Ho1 Eph (fun k => eq_refl) eq_refl) as [Hrem Hle].
  assert (objects u' = <[i := o']> (objects u1)) as Eos by done.
  assert (0 < zlen want) as Hpos by (destruct want; [done|unfold zlen; simpl; lia]).
  pose proof (fields_range (loc o) (proj1 Hr)) as (_&_&_&Hd&_).
  split.
  - split.
    + apply (acc_update u1 u' i o o' Ha1 Ho1); try done. intros k. left. apply Hle.
    + apply (shaped_update u1 u' i o o' Hs1 Ho1); try done.
      * intros p j. unfold openLinks. rewrite Eph. simpl. by left.
      * split; [|exact Hpos]. unfold children_ok, w, newUnfinalizedChildren; cbn [leases gotNoLease]; split;
          unfold zlen; rewrite length_replicate, Z2Nat.id; try done.
        -- unfold loc in *. lia.
        -- apply Z.div_pos; unfold UintSize, loc in *; lia.
    + rewrite Eos. apply (counted_update _ none _ i o o' Hc1 Ho1). intros p.
      unfold openLinks, awaited, none. rewrite Eph. simpl. case_decide; lia.
  - intros Hadm q k Hq Hp. assert (maximumUnfinalizedParentsLimit u' = maximumUnfinalizedParentsLimit u) as Em by (by rewrite <- Em1).
    rewrite Em, Eos. pose proof (above_le u1 k q i o o' Ha1 Ho1 eq_refl (Hle k)) as Hab.
    assert (q ∈ objects u1) as Hq1.
    { rewrite Eos in Hq. apply list_elem_of_lookup in Hq as [n Hn].
      apply list_lookup_insert_Some in Hn as [(<-&<-&_)|[_ Hn]]; [by unfold isPending in Hp|by eapply list_elem_of_lookup_2]. }
    destruct (Hpend q Hq1 Hp) as [(q0&Hq0&Hp0&E0)|Hshare].
    + pose proof (Hadm q0 k Hq0 Hp0) as H0. rewrite <- (Hsum _ (above_phased k q0)) in H0.
      unfold above, loc in *. rewrite E0 in H0. lia.
    + specialize (Hshare k). assert (accounted u') as Ha'.
      { apply (acc_update u1 u' i o o' Ha1 Ho1); try done. intros k'. left. apply Hle. }
      pose proof (above_held u' k q Ha') as Habh. rewrite Eos in Habh. pose proof (acc_sum u' Ha' k) as Hacc.
      rewrite Eos, Em in Hacc. rewrite Hrem in Hacc. pose proof (acc_rem u1 Ha1 k).
      assert (held k o = full k (loc o)) as Hh by (unfold held; by rewrite Eph).
      assert (held k o' = own k (loc o)) as Hh' by done. lia.
Qed.

Lemma first_step (u : U) i o res x :
  inv u -> objects u !! i = Some o -> valid_first (reference o) res ->
  firstResult zeroLease u i res = Some x -> exists u', x = Ok u' /\ inv u' /\ (admitted u -> admitted u').
Proof.
  intros Hu Ho [Hnp Hv]. destruct (objectPhase o) eqn:Eph; try (unfold firstResult; by rewrite Ho, Eph).
  destruct res as [[l|contents want|]|e|]; [| | | |done].
  2: { destruct (Hv contents want eq_refl) as (Hne&_&Hw&c&->&Hc).
    destruct (first_incomplete u i o c want Hu Ho Eph Hne Hw Hc) as (u'&->&?&?). intros [= <-]. by exists u'. }
  all: unfold firstResult; rewrite Ho, Eph; intros [= <-]; eexists; (split; [reflexivity|]); apply (result_finalize u i o); by rewrite ?Eph.
Qed.

(** *** Results of the second call *)

(** Reading and writing the words of a bitmap. *)
Lemma word_index (words : list Z) degree j :
  zlen words = (degree + UintSize - 1) / UintSize -> 0 <= j < degree ->
  exists w, index words (j / UintSize) = Ok w.
Proof.
  unfold UintSize. intros Hlen Hj. unfold zlen in Hlen.
  assert (0 <= j / 64 < (degree + 64 - 1) / 64) as Hidx by (Z.div_mod_to_equations; lia).
  destruct (lookup_lt_is_Some_2 words (Z.to_nat (j / 64))) as [w Hw]; [lia|].
  exists w. apply index_ok; [lia|done].
Qed.

Lemma leaseNotAccepted_total words degree want :
  zlen words = (degree + UintSize - 1) / UintSize -> (forall j, j ∈ want -> 0 <= j < degree) ->
  exists b, leaseNotAccepted words want = Ok b.
Proof.
  intros Hlen. induction want as [|j want IH]; intros Hw; simpl; [by exists false|].
  unfold getGotNoLease. destruct (word_index words degree j Hlen) as [w ->]; [apply Hw; by left|].
  cbn [mbind outcome_bind]. case_match; [by exists true|]. apply IH. intros; apply Hw; by right.
Qed.

Lemma second_step (u : U) i o res x :
  inv u -> objects u !! i = Some o -> valid_second (reference o) res ->
  secondResult u i res = Some x -> exists u', x = Ok u' /\ inv u' /\ (admitted u -> admitted u').
Proof.
  intros Hu Ho [Hnp Hv]. unfold secondResult. rewrite Ho. destruct (objectPhase o) eqn:Eph; try done.
  assert (forall l r e, inv (startFinalizing u i l r e) /\ (admitted u -> admitted (startFinalizing u i l r e))) as Hfin
    by (intros; apply (result_finalize u i o); by rewrite ?Eph).
  intros [= <-].
  destruct (childErr children) as [e|]; [destruct res; [eauto|eauto|done]|].
  destruct res as [[l|contents want|]|e|]; [eauto| |eauto|eauto|done].
  pose proof (shaped_lookup _ _ _ (inv_shape u Hu) Ho) as Hok. unfold object_ok in Hok. rewrite Eph in Hok.
  destruct Hok as [_ Hwords]. unfold finalizeObjectIncomplete.
  destruct (leaseNotAccepted_total (gotNoLease children) _ want Hwords) as [b ->]; [exact (Hv contents want eq_refl)|].
  cbn [mbind outcome_bind]. destruct b; eauto.
Qed.

(** *** The loop over the parents *)

Lemma recordLease_total (o : O) c j lease :
  children_ok o c -> 0 <= j < GetDegree (loc o) ->
  exists c', recordLease c j lease = Ok c' /\ children_ok o c' /\
    unfinalizedChildrenCount c' = unfinalizedChildrenCount c.
Proof.
  intros [Hl Hw] Hj. destruct lease as [l|]; simpl.
  - unfold zlen in Hl. destruct (lookup_lt_is_Some_2 (leases c) (Z.to_nat j)) as [x Hx]; [lia|].
    rewrite (index_ok _ _ x) by (done || lia). cbn [mbind outcome_bind]. eexists. split; [reflexivity|].
    split; [|done]. split; [|done]. simpl. unfold zlen. by rewrite length_insert.
  - unfold setGotNoLease. destruct (word_index (gotNoLease c) _ j Hw Hj) as [w ->]. cbn [mbind outcome_bind].
    eexists. split; [reflexivity|]. split; [|done]. split; [done|]. simpl. unfold zlen. by rewrite length_insert.
Qed.

Lemma recordError_ok (o : O) c err :
  children_ok o c -> children_ok o (recordError c err).1 /\
    unfinalizedChildrenCount (recordError c err).1 = unfinalizedChildrenCount c.
Proof. intros H. unfold recordError. by destruct err, (childErr c). Qed.

(** A parent that awaits one child more than links to it show. *)
Lemma finalizeParent_spec (u : U) p j lease err op :
  accounted u -> shaped u -> counted (fun q => if decide (q = p) then 1 else 0) (objects u) ->
  objects u !! p = Some op -> 0 <= j < GetDegree (loc op) ->
  exists u', finalizeParent u p j lease err = Ok u' /\ inv u' /\ (admitted u -> admitted u').
Proof.
  intros Ha Hs Hc Hp Hj. pose proof (Hc p op Hp) as Hcount. cbv beta in Hcount.
  rewrite decide_True in Hcount by done.
  assert (0 <= links (objects u) p) by (apply zsum_nonneg; intros; apply linkCount_nonneg).
  unfold finalizeParent. rewrite Hp. unfold awaited in Hcount.
  destruct (objectPhase op) as [| |c| | |] eqn:Eph; try lia.
  pose proof (shaped_lookup _ _ _ Hs Hp) as Hok. unfold object_ok in Hok. rewrite Eph in Hok. destruct Hok as [Hok _].
  destruct (recordLease_total op c j lease Hok Hj) as (c1&->&Hok1&Hc1). cbn [mbind outcome_bind].
  destruct (recordError_ok op c1 err Hok1) as [Hok2 Hc2].
  destruct (recordError c1 err) as [c2 failed]. cbn [fst] in *.
  set (u1 := if failed then detachObjectState u p else u).
  assert (objects u1 = objects u /\ remainingUnfinalizedParentsLimit u1 = remainingUnfinalizedParentsLimit u /\
    maximumUnfinalizedParentsLimit u1 = maximumUnfinalizedParentsLimit u /\
    forall r i, objectsByReference u1 !! r = Some i -> objectsByReference u !! r = Some i) as (Eo&Er&Em&Emap).
  { unfold u1. destruct failed; [|done]. destruct (detach_spec u p Hs) as (?&?&?&Hm). split_and!; try done.
    intros r i Hr. by apply Hm. }
  set (count := unfinalizedChildrenCount c2 - 1). set (c3 := mkUnfinalizedChildren _ _ _ _ _ count).
  assert (children_ok op c3) as Hok3 by exact Hok2.
  assert (forall o' u', reference o' = reference op -> objects u' = <[p := o']> (objects u) ->
    remainingUnfinalizedParentsLimit u' = remainingUnfinalizedParentsLimit u ->
    maximumUnfinalizedParentsLimit u' = maximumUnfinalizedParentsLimit u ->
    (forall r i, objectsByReference u' !! r = Some i -> objectsByReference u !! r = Some i /\ (i = p -> attachable o')) ->
    (forall k, held k o' = held k op) -> openLinks o' = openLinks op -> awaited o' = count -> object_ok o' ->
    isPending o' = false -> inv u' /\ (admitted u -> admitted u')) as Hgo.
  { intros o' u' Href Hos Hrem Hmax Hmap Hheld Hlinks Haw Hoko Hnp. split.
    - split.
      + apply (acc_update u u' p op o' Ha Hp); try done; intros k; [rewrite Hrem, Hheld; lia|left; rewrite Hheld; lia].
      + apply (shaped_update u u' p op o' Hs Hp); try done. intros q i. rewrite Hlinks. by left.
      + rewrite Hos. apply (counted_update _ none _ p op o' Hc Hp). intros q. rewrite Hlinks, Haw.
        unfold none, awaited. rewrite Eph. case_decide; lia.
    - intros Hadm. apply (admitted_update u u' p op o' Ha Hadm Hp); try done; [by rewrite Hnp|].
      intros k. rewrite Hheld. lia. }
  assert (links (objects u) p = count) as Hlinks by lia.
  destruct (Z.eqb_spec count 0) as [E0|Hne]; [destruct (originalIncompleteResult c3) as [[contents want]|]|].
  - eexists. split; [reflexivity|]. assert (shaped u1) as Hs1.
    { clearbody u1. split.
      - intros r i Hr. rewrite Eo. by apply (sh_map u Hs), Emap.
      - rewrite Eo. apply (sh_parents u Hs).
      - rewrite Eo. apply (sh_object u Hs). }
    rewrite <- Eo in Hp. set (result := Some (UploadObjectIncomplete contents want)).
    destruct (startFinalizing_spec u1 p op None result (childErr c3) Hs1 Hp) as (Eo'&Er'&Em'&Hmap').
    apply (Hgo (finalizing op None result (childErr c3))); try done.
    + by rewrite Eo', Eo.
    + by rewrite Er', Er.
    + by rewrite Em', Em.
    + intros r i Hr. destruct (Hmap' r i Hr) as [H1 H2]. split; [by apply Emap|done].
    + intros k. apply finalizing_held; unfold attachable, isPending; by rewrite Eph.
    + unfold openLinks. by rewrite Eph.
    + apply finalizing_ok.
  - eexists. split; [reflexivity|]. apply (Hgo (setPhase op (SecondCall c3))); try done.
    + by rewrite setObject_lookup, Eo.
    + intros r i Hr. split; [by apply Emap|done].
    + intros k. unfold held. by rewrite Eph.
    + unfold openLinks. by rewrite Eph.
  - eexists. split; [reflexivity|]. apply (Hgo (setPhase op (Waiting c3))); try done.
    + by rewrite setObject_lookup, Eo.
    + intros r i Hr. split; [by apply Emap|done].
    + intros k. unfold held. by rewrite Eph.
    + unfold openLinks. by rewrite Eph.
    + split; [done|]. unfold c3. cbn [unfinalizedChildrenCount]. lia.
Qed.
End preservation.
