(* ===== verification/LeaseRenewingRuns.v ===== *)
(** * Runs of lease renewing

    What holds of every sequence of steps: the limit is accounted for and no
    handler panics; without further calls there are finitely many steps; calls
    that are made while nothing is held cannot get stuck, and all get an answer.
    Calls that are made while objects are held can get stuck. *)

From S2P Require Import Prelude References ObjectStore LeaseRenewing LeaseRenewingInv LeaseRenewingProofs.

(** An upper bound of the steps for an object of a height, and of what it queues. *)
Fixpoint cost (height : nat) : Z :=
  match height with O => 6 | S h => 6 + 65536 * (cost h + 1) end.

Section runs.
Context {R L : Type} `{!EqDecision R, !Countable R, !ObjectReference R, !RenewableReference R}.
Context (zeroLease : L).
Abbreviation U := (uploader R L).
Abbreviation O := (objectState R L).

(** *** The loop over the parents *)

(** Everything that the object holds is released. *)
Lemma release_all (u : U) i o lease err children :
  accounted u -> objects u !! i = Some o -> objectPhase o = Finalizing [] lease err children ->
  let l := ReleaseParent (remainingUnfinalizedParentsLimit u) (loc o) in
  forall k, amount k (if children then ReleaseChildren l (loc o) else l) =
    amount k (remainingUnfinalizedParentsLimit u) + held k o.
Proof.
  intros Ha Ho Eph l k. pose proof (acc_lookup u i o Ha Ho) as Hr. pose proof (acc_remaining u Ha) as Hl.
  pose proof (fun k => own_full k (loc o) Hr) as Hown.
  assert (forall k, held k o = if children then full k (loc o) else own k (loc o)) as Hheld
    by (intros k'; unfold held; rewrite Eph; by destruct children).
  assert (forall k, amount k l = amount k (remainingUnfinalizedParentsLimit u) + own k (loc o)) as Hparent.
  { intros k'. apply releaseParent_amount; [done|done|]. apply (acc_give_back u i o (fun k => own k (loc o)) Ha Ho).
    intros k2. rewrite Hheld. pose proof (Hown k2). destruct children; lia. }
  rewrite Hheld. destruct children; [|apply Hparent].
  rewrite releaseChildren_amount; [rewrite Hparent; lia| |done|].
  - rewrite <- (Limit_eq (mkLimit (limitCount (remainingUnfinalizedParentsLimit u) + own Count (loc o))
      (limitSizeBytes (remainingUnfinalizedParentsLimit u) + own Size (loc o))) l) by (intros []; symmetry; apply Hparent).
    apply (acc_give_back u i o (fun k => own k (loc o)) Ha Ho). intros k2. rewrite Hheld. apply Hown.
  - pose proof (Hparent Count) as H1. pose proof (Hparent Size) as H2. simpl in H1, H2. rewrite H1, H2, <- !Z.add_assoc.
    apply (acc_give_back u i o (fun k => own k (loc o) + (full k (loc o) - own k (loc o))) Ha Ho).
    intros k2. rewrite Hheld. pose proof (Hown k2). lia.
Qed.

Lemma release_spec (u : U) i o lease err children :
  inv u -> objects u !! i = Some o -> objectPhase o = Finalizing [] lease err children ->
  let l := ReleaseParent (remainingUnfinalizedParentsLimit u) (loc o) in
  let u' := setRemaining (setObject u i (setPhase o Finalized)) (if children then ReleaseChildren l (loc o) else l) in
  inv u' /\ (admitted u -> admitted u').
Proof.
  intros Hu Ho Eph l u'. pose proof (inv_acc u Hu) as Ha. pose proof (acc_lookup u i o Ha Ho) as Hr.
  pose proof (shaped_lookup _ _ _ (inv_shape u Hu) Ho) as Hok. unfold object_ok in Hok. rewrite Eph in Hok.
  assert (forall k, held k (setPhase o Finalized) = 0) as Hzero by done.
  pose proof (fun k => held_range k o Hr) as Hheld.
  split.
  - apply (inv_update u u' i o (setPhase o Finalized) Hu Ho); try done.
    + intros k. rewrite Hzero. cbn [u' remainingUnfinalizedParentsLimit setRemaining setObject].
      unfold l. rewrite (release_all u i o lease err children Ha Ho Eph). lia.
    + intros k. left. rewrite Hzero. apply Hheld.
    + intros r j Hj. split; [done|]. intros ->. destruct (sh_map u (inv_shape u Hu) r i Hj) as (o'&Ho'&_&Hatt).
      rewrite Ho in Ho'. injection Ho' as <-. unfold attachable in Hatt. by rewrite Eph in Hatt.
    + unfold openLinks. by rewrite Eph.
    + unfold awaited. by rewrite Eph.
  - intros Hadm. apply (admitted_update u u' i o (setPhase o Finalized) Ha Hadm Ho); try done.
    intros k. rewrite Hzero. apply Hheld.
Qed.

(** Taking a parent off the list: its count is one too high until it is dealt with. *)
Lemma pop_spec (u : U) i o p j parents lease err children :
  inv u -> objects u !! i = Some o -> objectPhase o = Finalizing ((p, j) :: parents) lease err children ->
  let u' := setObject u i (setPhase o (Finalizing parents lease err children)) in
  accounted u' /\ shaped u' /\ counted (fun q => if decide (q = p) then 1 else 0) (objects u') /\
  (admitted u -> admitted u') /\
  exists op, objects u' !! p = Some op /\ 0 <= j < GetDegree (loc op).
Proof.
  intros [Ha Hs Hc] Ho Eph u'. set (o' := setPhase o (Finalizing parents lease err children)).
  assert (forall k, held k o' = held k o) as Hheld by (intros k; unfold held; by rewrite Eph).
  assert (openLinks o = (p, j) :: openLinks o') as Hlinks by (unfold openLinks; by rewrite Eph).
  pose proof (shaped_lookup _ _ _ Hs Ho) as Hok. unfold object_ok in Hok. rewrite Eph in Hok.
  assert (shaped u') as Hs'.
  { apply (shaped_update u u' i o o' Hs Ho); try done.
    - intros r j' Hj. split; [done|]. intros ->. destruct (sh_map u Hs r i Hj) as (x&Hx&_&Hatt).
      rewrite Ho in Hx. injection Hx as <-. unfold attachable in Hatt. by rewrite Eph in Hatt.
    - intros p' j' Hin. left. rewrite Hlinks. by right. }
  split_and!; [|done|..].
  - apply (acc_update u u' i o o' Ha Ho); try done; intros k; [|left]; rewrite Hheld; [|done].
    cbn [u' remainingUnfinalizedParentsLimit setObject]. lia.
  - unfold u'. rewrite setObject_lookup. fold o'. apply (counted_update none _ _ i o o' Hc Ho). intros q.
    rewrite Hlinks, linkCount_cons. cbn [fst]. unfold awaited, none. rewrite Eph. cbn [o' setPhase objectPhase].
    destruct (decide (q = p)) as [->|Hne].
    + rewrite (decide_True (P := p = p)) by done. case_decide; lia.
    + rewrite (decide_False (P := p = q)) by congruence. case_decide; lia.
  - intros Hadm. apply (admitted_update u u' i o o' Ha Hadm Ho); try done. intros k. by rewrite Hheld.
  - assert (link_ok (objects u') o p j) as (op&Hop&_&Hj); [|by exists op].
    apply (link_ok_insert _ i o o' o p j Ho eq_refl). apply (sh_parents u Hs o).
    + by eapply list_elem_of_lookup_2.
    + rewrite Hlinks. by left.
Qed.

Lemma finalize_step (u : U) i x :
  inv u -> finalizeNext u i = Some x -> exists u', x = Ok u' /\ inv u' /\ (admitted u -> admitted u').
Proof.
  intros Hu. unfold finalizeNext. destruct (objects u !! i) as [o|] eqn:Ho; [|done].
  destruct (objectPhase o) as [| | | |parents lease err children|] eqn:Eph; try done.
  destruct parents as [|[p j] parents]; intros [= <-].
  - eexists. split; [reflexivity|]. by apply (release_spec u i o lease err children).
  - destruct (pop_spec u i o p j parents lease err children Hu Ho Eph) as (Ha&Hs&Hc&Hadm&op&Hop&Hj).
    destruct (finalizeParent_spec _ p j lease err op Ha Hs Hc Hop Hj) as (u'&->&Hu'&Hadm').
    exists u'. auto.
Qed.

(** *** Admission and picking *)

Lemma process_admitted (u u' : U) i : inv u -> admitted u -> processObject u i = Some u' -> admitted u'.
Proof.
  intros Hu Hadm. unfold processObject. destruct (objects u !! i) as [o|] eqn:Ho; [|done].
  destruct (isPending o && firstPending u o) eqn:Ep; [|done]. boolprop.
  destruct (AcquireParentAndChildren _ _) as [l [|]] eqn:El; [|done]. clear El. intros [= <-] q k Hq Hp.
  cbn [objects setObject setRemaining maximumUnfinalizedParentsLimit] in *.
  assert (q ∈ objects u) as Hqu.
  { apply list_elem_of_lookup in Hq as [n Hn].
    apply list_lookup_insert_Some in Hn as [(_&<-&_)|[_ Hn]]; [by unfold isPending in Hp|by eapply list_elem_of_lookup_2]. }
  pose proof (Hadm q k Hqu Hp) as Hq0. rewrite (zsum_insert _ _ _ _ _ Ho).
  assert (above k q (setPhase o FirstCall) = 0 /\ 0 <= above k q o) as [-> ?]; [|lia]. split.
  - unfold firstPending in *. match goal with H : forallb _ _ = true |- _ => rename H into Hf end.
    rewrite forallb_forall in Hf. specialize (Hf q (proj1 (list_elem_of_In _ _) Hqu)). rewrite Hp in Hf.
    unfold above, loc in *. simpl. by destruct (CompareByHeight _ _ <? 0).
  - unfold above. case_match; [|lia]. apply held_range. by apply (acc_lookup u i o (inv_acc u Hu)).
Qed.

Lemma internal_inv (u u' : U) : inv u -> internal zeroLease u u' -> inv u' /\ (admitted u -> admitted u').
Proof.
  intros Hu Hst. destruct Hst as [u i u' H|u i o res u' Ho Hv H|u i o res u' Ho Hv H|u i u' H].
  - split; eauto using process_inv, process_admitted.
  - by destruct (first_step zeroLease u i o res _ Hu Ho Hv H) as (?&[= <-]&?).
  - by destruct (second_step u i o res _ Hu Ho Hv H) as (?&[= <-]&?).
  - by destruct (finalize_step u i _ Hu H) as (?&[= <-]&?).
Qed.

Lemma renewing_reachable_inv limit (u : U) : Limit_ok limit -> reachable zeroLease limit u -> inv u.
Proof.
  intros Hl H. induction H as [|u u' _ IH Hst]; [by apply inv_new|].
  destruct Hst as [Hst|Hst]; [by apply (internal_inv u)|by apply (call_inv u)].
Qed.

(** *** Nothing gets stuck *)

Lemma CompareByHeight_step r s t : CompareByHeight r s < 0 -> CompareByHeight t s >= 0 -> CompareByHeight t r >= 0.
Proof.
  intros Hrs Hts. destruct (Z.ltb_spec (CompareByHeight t r) 0) as [Htr|]; [|lia]. exfalso.
  assert (CompareByHeight t s < 0); [|lia]. revert Htr Hrs. rewrite !CompareByHeight_lt.
  pose proof (bytes_compare_trans (rawReference t) (rawReference r) (rawReference s)). lia.
Qed.

Lemma CompareByHeight_irrefl r : CompareByHeight r r >= 0.
Proof.
  destruct (Z.ltb_spec (CompareByHeight r r) 0) as [H|]; [|lia]. rewrite CompareByHeight_lt, bytes_compare_refl in H. lia.
Qed.

(** The head of the heap. *)
Lemma first_exists (os : list O) :
  (exists q, q ∈ os /\ isPending q = true) ->
  exists q, q ∈ os /\ isPending q = true /\
    forall q', q' ∈ os -> isPending q' = true -> CompareByHeight (loc q') (loc q) >= 0.
Proof.
  induction os as [|o os IH]; intros (q&Hq&Hp); [by apply not_elem_of_nil in Hq|].
  destruct (isPending o) eqn:Eo.
  2: { destruct IH as (m&Hm&Hpm&Hmin).
    { apply elem_of_cons in Hq as [->|Hq]; [congruence|by exists q]. }
    exists m. split; [by right|]. split; [done|]. intros q' [->|Hq']%elem_of_cons Hp'; [congruence|by apply Hmin]. }
  destruct (existsb isPending os) eqn:Ex.
  - destruct IH as (m&Hm&Hpm&Hmin).
    { apply existsb_exists in Ex as (x&Hx%list_elem_of_In&?). by exists x. }
    destruct (Z.ltb_spec (CompareByHeight (loc o) (loc m)) 0).
    + exists o. split; [by left|]. split; [done|]. intros q' [->|Hq']%elem_of_cons Hp'; [apply CompareByHeight_irrefl|].
      eapply CompareByHeight_step; [done|by apply Hmin].
    + exists m. split; [by right|]. split; [done|]. intros q' [->|Hq']%elem_of_cons Hp'; [lia|by apply Hmin].
  - exists o. split; [by left|]. split; [done|]. intros q' [->|Hq']%elem_of_cons Hp'; [apply CompareByHeight_irrefl|].
    rewrite <- not_true_iff_false, existsb_exists in Ex. destruct Ex. exists q'. by rewrite <- list_elem_of_In.
Qed.

(** No call to the base is under way, and no loop over parents. *)
Definition resting (o : O) : Prop :=
  match objectPhase o with Pending | Waiting _ | Finalized => True | _ => False end.

#[export] Instance resting_dec (o : O) : Decision (resting o).
Proof. unfold resting. destruct (objectPhase o); apply _. Defined.

(** Below every object that waits there is a pending one. *)
Lemma pending_below (u : U) n o :
  inv u -> (forall o, o ∈ objects u -> resting o) ->
  o ∈ objects u -> GetHeight (loc o) < Z.of_nat n -> objectPhase o <> Finalized ->
  exists q, q ∈ objects u /\ isPending q = true /\
    GetHeight (loc q) <= GetHeight (loc o) /\ (isPending o = false -> GetHeight (loc q) < GetHeight (loc o)).
Proof.
  intros Hu Hrest. revert o. induction n as [|n IH]; intros o Ho Hn Hph.
  { pose proof (fields_range (loc o) (proj1 (acc_valid u (inv_acc u Hu) o Ho))). lia. }
  pose proof (Hrest o Ho) as Hro. unfold resting in Hro. destruct (objectPhase o) eqn:Eph; try done.
  { exists o. unfold isPending. by rewrite Eph. }
  pose proof (sh_object u (inv_shape u Hu) o Ho) as Hok. unfold object_ok in Hok. rewrite Eph in Hok.
  apply list_elem_of_lookup in Ho as [i Hi]. pose proof (inv_count u Hu i o Hi) as Hc.
  unfold none, awaited in Hc. rewrite Eph in Hc.
  destruct (zsum_pos (fun o => linkCount i (openLinks o)) (objects u)) as (x&Hx&Hl); [unfold links in Hc; lia|].
  apply linkCount_pos in Hl as [j Hj]. destruct (sh_parents u (inv_shape u Hu) x i j Hx Hj) as (o'&Ho'&Hh&_).
  rewrite Hi in Ho'. injection Ho' as <-.
  assert (objectPhase x <> Finalized) as Hxp.
  { intros E. unfold openLinks in Hj. rewrite E in Hj. by apply not_elem_of_nil in Hj. }
  destruct (IH x Hx ltac:(lia) Hxp) as (q&Hq&Hp&Hle&_). exists q. split_and!; [done|done|lia|]. intros _. lia.
Qed.

Lemma process_possible (u : U) :
  inv u -> admitted u -> (forall o, o ∈ objects u -> resting o) ->
  (exists o, o ∈ objects u /\ objectPhase o <> Finalized) -> exists i u', processObject u i = Some u'.
Proof.
  intros Hu Hadm Hrest (o0&Ho0&Hph0). pose proof (inv_acc u Hu) as Ha.
  assert (forall o, o ∈ objects u -> GetHeight (loc o) < Z.of_nat 256) as Hheight.
  { intros o Ho. pose proof (fields_range (loc o) (proj1 (acc_valid u Ha o Ho))). lia. }
  destruct (pending_below u 256 o0 Hu Hrest Ho0 (Hheight o0 Ho0) Hph0) as (q0&Hq0&Hp0&_).
  destruct (first_exists (objects u)) as (q&Hq&Hp&Hmin); [by exists q0|].
  apply list_elem_of_lookup in Hq as [i Hi]. pose proof (acc_lookup u i q Ha Hi) as Hr.
  assert (forall k, full k (loc q) <= amount k (remainingUnfinalizedParentsLimit u)) as Hfits.
  { intros k. pose proof (Hadm q k (list_elem_of_lookup_2 _ _ _ Hi) Hp) as Hq. pose proof (acc_sum u Ha k) as Hsum.
    rewrite (zsum_ext (above k q) (held k) (objects u)) in Hq; [lia|]. intros o Ho. unfold above.
    destruct (Z.ltb_spec (CompareByHeight (loc q) (loc o)) 0) as [|Hge]; [done|].
    destruct (isPending o) eqn:Epo; [unfold held, isPending in *; by destruct (objectPhase o)|].
    destruct (objectPhase o) eqn:Eph; try (by specialize (Hrest o Ho); unfold resting in Hrest; rewrite Eph in Hrest);
      [by unfold isPending in Epo; rewrite Eph in Epo| |unfold held; by rewrite Eph].
    destruct (pending_below u 256 o Hu Hrest Ho (Hheight o Ho)) as (q'&Hq'&Hp'&_&Hlt); [by rewrite Eph|].
    specialize (Hlt Epo). specialize (Hmin q' Hq' Hp').
    assert (CompareByHeight (loc q) (loc o) < 0); [|lia]. apply CompareByHeight_lt. left.
    assert (~ GetHeight (loc q') < GetHeight (loc q)); [|lia]. intros Hc.
    assert (CompareByHeight (loc q') (loc q) < 0); [|lia]. apply CompareByHeight_lt. by left. }
  destruct (acquire_possible _ _ (acc_remaining u Ha) Hr Hfits) as [l El].
  exists i. unfold processObject. rewrite Hi, Hp. cbn [andb].
  assert (firstPending u q = true) as ->.
  { apply forallb_forall. intros x Hx%list_elem_of_In. destruct (isPending x) eqn:Ex; [|done].
    specialize (Hmin x Hx Ex). unfold loc in Hmin. cbn [andb]. by rewrite (proj2 (Z.ltb_ge _ _)) by lia. }
  unfold loc in El. rewrite El. eauto.
Qed.

(** *** Without calls there are finitely many steps *)

Definition heightOf (r : LocalReference) : nat := Z.to_nat (GetHeight r).

Definition phaseCost (o : O) : Z :=
  match objectPhase o with
  | Pending => cost (heightOf (loc o))
  | FirstCall => cost (heightOf (loc o)) - 1
  | Waiting _ => 4
  | SecondCall _ => 3
  | Finalizing _ _ _ _ => 1
  | Finalized => 0
  end.

Definition weight (o : O) : Z := phaseCost o + zlen (openLinks o).

Definition total (u : U) : Z := zsum weight (objects u).

Lemma cost_pos h : 6 <= cost h.
Proof. induction h; cbn [cost]; lia. Qed.

Lemma cost_mono h h' : (h <= h')%nat -> cost h <= cost h'.
Proof. induction 1 as [|h' _ IH]; [lia|]. cbn [cost]. pose proof (cost_pos h'). lia. Qed.

Lemma weight_nonneg o : 0 <= weight o.
Proof.
  unfold weight, phaseCost. pose proof (cost_pos (heightOf (loc o))). unfold zlen. destruct (objectPhase o); lia.
Qed.

Lemma total_nonneg (u : U) : 0 <= total u.
Proof. apply zsum_nonneg. intros; apply weight_nonneg. Qed.

Lemma queueChildren_total i r c want h (u u' : U) :
  (forall j child, j ∈ want -> GetOutgoingReference c j = Ok child -> (heightOf child <= h)%nat) ->
  queueChildren u i r c want = Ok u' -> total u' <= total u + zlen want * (cost h + 1).
Proof.
  revert u. induction want as [|j want IH]; intros u Hh; cbn [queueChildren].
  { intros [= <-]. change (zlen (A := Z) []) with 0. lia. }
  destruct (GetOutgoingReference c j) as [child|e|] eqn:Ec; cbn [mbind outcome_bind]; try done.
  pose proof (Hh j child ltac:(by left) Ec) as Hc.
  assert (total (getOrCreateObjectState u (rr_WithLocalReference r child)).1 <= total u + cost h) as H1.
  { pose proof (cost_pos h). unfold getOrCreateObjectState. destruct (_ !! _); cbn [fst]; [lia|].
    unfold total. cbn [objects]. rewrite zsum_app. cbn [zsum].
    set (o := mkObjectState _ _ _ _). assert (weight o <= cost h); [|lia].
    unfold weight, phaseCost, loc. cbn [objectPhase o openLinks unfinalizedParents reference].
    rewrite rr_local. pose proof (cost_mono _ _ Hc). change (zlen (@nil (nat * Z))) with 0. lia. }
  destruct (getOrCreateObjectState u (rr_WithLocalReference r child)) as [u1 k]. cbn [fst] in H1.
  destruct (objects u1 !! k) as [o|] eqn:Ho; [|done]. intros H.
  apply IH in H; [|intros; eapply Hh; [by right|done]].
  unfold total in H. rewrite setObject_lookup, (zsum_insert _ _ _ _ _ Ho) in H. fold (total u1) (total u') in H.
  set (o' := mkObjectState _ _ _ _) in H. assert (weight o' <= weight o + 1) as Hw.
  { unfold weight, phaseCost, openLinks, loc. cbn [o' objectPhase unfinalizedParents reference].
    destruct (objectPhase o); unfold zlen; rewrite ?length_app; cbn [length]; lia. }
  unfold zlen in *. cbn [length]. rewrite Nat2Z.inj_succ, Z.mul_succ_l. lia.
Qed.

Lemma weight_finalizing o lease result err :
  attachable o -> 1 < phaseCost o -> weight (finalizing o lease result err) < weight o.
Proof.
  unfold attachable, weight, openLinks. intros Ha Hp. unfold phaseCost at 1. simpl. by destruct (objectPhase o); try lia.
Qed.

Lemma total_startFinalizing (u : U) i o lease result err :
  shaped u -> objects u !! i = Some o -> attachable o -> 1 < phaseCost o ->
  total (startFinalizing u i lease result err) < total u.
Proof.
  intros Hs Ho Ha Hp. destruct (startFinalizing_spec u i o lease result err Hs Ho) as (E&_).
  unfold total. rewrite E, (zsum_insert _ _ _ _ _ Ho). pose proof (weight_finalizing o lease result err Ha Hp). lia.
Qed.

Lemma total_setObject (u : U) i o o' :
  objects u !! i = Some o -> weight o' < weight o -> total (setObject u i o') < total u.
Proof. intros Ho Hw. unfold total. rewrite setObject_lookup, (zsum_insert _ _ _ _ _ Ho). lia. Qed.

Lemma total_first (u : U) i o res u' :
  inv u -> objects u !! i = Some o -> valid_first (reference o) res ->
  firstResult zeroLease u i res = Some (Ok u') -> total u' < total u.
Proof.
  intros Hu Ho [Hnp Hv]. unfold firstResult. rewrite Ho. destruct (objectPhase o) eqn:Eph; try done.
  pose proof (inv_shape u Hu) as Hs. pose proof (cost_pos (heightOf (loc o))) as Hpos.
  assert (attachable o) as Hatt by (unfold attachable; by rewrite Eph).
  assert (phaseCost o = cost (heightOf (loc o)) - 1) as Hcost by (unfold phaseCost; by rewrite Eph).
  assert (forall l r e, total (startFinalizing u i l r e) < total u) as Hfin
    by (intros; apply (total_startFinalizing u i o); try done; lia).
  destruct res as [[l|contents want|]|e|]; [intros [= <-]; apply Hfin| |intros [= <-]; apply Hfin..|done].
  destruct (Hv contents want eq_refl) as (Hne&Hnd&Hw&c&->&Hobj). intros [= E].
  pose proof (acc_lookup u i o (inv_acc u Hu) Ho) as Hr.
  destruct (queueChildren_spec i o c Eph Hr Hobj want u none (inv_acc u Hu) Hs (inv_count u Hu)) as
    (u1&E1&_&_&_&Ho1&_); [done|done|done|].
  rewrite E1 in E. cbn [mbind outcome_bind] in E. rewrite Ho1 in E. injection E as <-.
  assert (0 < GetDegree (loc o)) as Hdeg.
  { destruct want as [|j want]; [done|]. specialize (Hw j ltac:(by left)). unfold loc. lia. }
  assert (zlen want <= GetDegree (loc o)) as Hlen.
  { unfold zlen. rewrite <- (Z2Nat.id (GetDegree (loc o))) by lia. apply Nat2Z.inj_le.
    rewrite <- (length_seqZ 0 (GetDegree (loc o))). apply submseteq_length, NoDup_submseteq; [done|].
    intros j Hj. apply elem_of_seqZ. specialize (Hw j Hj). unfold loc. lia. }
  destruct (heightOf (loc o)) as [|h] eqn:Eh.
  { destruct want as [|j want]; [done|]. destruct (children_below (loc o) c j Hr Hobj) as (child&_&Hcv&Hh&_).
    - apply Hw. by left.
    - pose proof (fields_range child (proj1 Hcv)). unfold heightOf in Eh. lia. }
  assert (total u1 <= total u + zlen want * (cost h + 1)) as H1.
  { apply (queueChildren_total i (reference o) c want h u u1); [|exact E1]. intros j child Hj Hchild.
    destruct (children_below (loc o) c j Hr Hobj (Hw j Hj)) as (child'&E'&_&Hh&_).
    rewrite Hchild in E'. injection E' as <-. unfold heightOf in *. lia. }
  pose proof (fields_range (loc o) (proj1 Hr)) as (_&_&_&Hd&_).
  set (o' := setPhase o _). change (zsum weight (<[i := o']> (objects u1)) < total u).
  rewrite (zsum_insert _ _ _ _ _ Ho1). fold (total u1).
  assert (weight o = cost (S h) - 1 + zlen (unfinalizedParents o)) as -> by (unfold weight, openLinks; by rewrite Hcost, Eph).
  assert (weight o' = 4 + zlen (unfinalizedParents o)) as -> by done. cbn [cost].
  assert (zlen want * (cost h + 1) <= 65536 * (cost h + 1)) by (pose proof (cost_pos h); apply Z.mul_le_mono_nonneg_r; lia).
  lia.
Qed.

Lemma total_second (u : U) i o res u' :
  inv u -> objects u !! i = Some o -> secondResult u i res = Some (Ok u') -> total u' < total u.
Proof.
  intros Hu Ho. unfold secondResult. rewrite Ho. destruct (objectPhase o) eqn:Eph; try done.
  assert (forall l r e, total (startFinalizing u i l r e) < total u) as Hfin.
  { intros. apply (total_startFinalizing u i o); [apply Hu|done|unfold attachable; by rewrite Eph|].
    unfold phaseCost. rewrite Eph. lia. }
  unfold finalizeObjectIncomplete. intros [= E]. revert E.
  destruct (childErr children), res as [[|contents want|]| |]; try done; try (by intros [= <-]).
  destruct (leaseNotAccepted _ _) as [[]| |]; cbn [mbind outcome_bind]; try done; by intros [= <-].
Qed.

Lemma total_finalizeParent (u : U) p j lease err u' :
  shaped u -> finalizeParent u p j lease err = Ok u' -> total u' <= total u.
Proof.
  intros Hs. unfold finalizeParent. destruct (objects u !! p) as [o|] eqn:Ho; [|done].
  destruct (objectPhase o) as [| |c| | |] eqn:Eph; try done.
  destruct (recordLease c j lease) as [c1| |]; cbn [mbind outcome_bind]; try done.
  destruct (recordError c1 err) as [c2 failed].
  set (u1 := if failed then detachObjectState u p else u).
  assert (objects u1 = objects u /\ shaped u1) as [Eo Hs1].
  { unfold u1. destruct failed; [|done]. destruct (detach_spec u p Hs) as (E&_&_&Hm). split; [done|]. split.
    - intros r i Hr. rewrite E. apply (sh_map u Hs). by apply Hm.
    - rewrite E. apply (sh_parents u Hs).
    - rewrite E. apply (sh_object u Hs). }
  clearbody u1. assert (total u = total u1) as -> by (unfold total; by rewrite Eo). rewrite <- Eo in Ho.
  assert (weight o = 4 + zlen (unfinalizedParents o)) as Hw by (unfold weight, phaseCost, openLinks; by rewrite Eph).
  destruct (_ =? 0); [destruct (originalIncompleteResult _) as [[contents want]|]|]; intros [= <-].
  - apply Z.lt_le_incl, (total_startFinalizing u1 p o); try done; [unfold attachable; by rewrite Eph|].
    unfold phaseCost. rewrite Eph. lia.
  - unfold total. rewrite setObject_lookup, (zsum_insert _ _ _ _ _ Ho), Hw. unfold weight, phaseCost, openLinks. simpl. lia.
  - unfold total. rewrite setObject_lookup, (zsum_insert _ _ _ _ _ Ho), Hw. unfold weight, phaseCost, openLinks. simpl. lia.
Qed.

Lemma total_finalize (u : U) i u' : inv u -> finalizeNext u i = Some (Ok u') -> total u' < total u.
Proof.
  intros Hu. unfold finalizeNext. destruct (objects u !! i) as [o|] eqn:Ho; [|done].
  destruct (objectPhase o) as [| | | |parents lease err|] eqn:Eph; try done.
  assert (weight o = 1 + zlen parents) as Hw by (unfold weight, phaseCost, openLinks; by rewrite Eph).
  destruct parents as [|[p j] parents]; intros [= E].
  - subst u'. apply (total_setObject u i o _ Ho). rewrite Hw. done.
  - destruct (pop_spec u i o p j parents lease err children Hu Ho Eph) as (_&Hs&_).
    eapply Z.le_lt_trans; [by apply (total_finalizeParent _ _ _ _ _ _ Hs E)|].
    apply (total_setObject u i o _ Ho). rewrite Hw. unfold weight, phaseCost, openLinks, zlen. simpl. lia.
Qed.

Lemma total_process (u : U) i u' : processObject u i = Some u' -> total u' < total u.
Proof.
  unfold processObject. destruct (objects u !! i) as [o|] eqn:Ho; [|done].
  destruct (isPending o && firstPending u o) eqn:Ep; [|done]. boolprop.
  destruct (AcquireParentAndChildren _ _) as [l [|]]; [|done]. intros [= <-].
  apply (total_setObject (setRemaining u l) i o _ Ho). unfold isPending in *.
  destruct (objectPhase o) eqn:Eph; try done. unfold weight, phaseCost, openLinks. rewrite Eph. simpl.
  unfold loc. simpl. lia.
Qed.

Lemma internal_decreases (u u' : U) : inv u -> internal zeroLease u u' -> total u' < total u.
Proof.
  intros Hu Hst. destruct Hst as [u i u' H|u i o res u' Ho Hv H|u i o res u' Ho Hv H|u i u' H].
  - by apply (total_process u i).
  - by apply (total_first u i o res).
  - by apply (total_second u i o res).
  - by apply (total_finalize u i).
Qed.

Lemma internal_Acc (u : U) : inv u -> Acc (fun u2 u1 => internal zeroLease u1 u2) u.
Proof.
  intros Hu. remember (Z.to_nat (total u)) as n eqn:En. revert u Hu En.
  induction n as [n IH] using lt_wf_ind. intros u Hu ->. constructor. intros u' Hst.
  apply (IH (Z.to_nat (total u'))); [|by apply (internal_inv u u')|done].
  pose proof (internal_decreases u u' Hu Hst). pose proof (total_nonneg u'). lia.
Qed.

(** *** Calls while nothing is held *)

Inductive orderly (limit : Limit) : U -> Prop :=
  | orderly_new : orderly limit (NewUploader limit)
  | orderly_internal u u' : orderly limit u -> internal zeroLease u u' -> orderly limit u'
  | orderly_call u u' : orderly limit u ->
      remainingUnfinalizedParentsLimit u = maximumUnfinalizedParentsLimit u -> call u u' -> orderly limit u'.

Lemma call_admitted (u u' : U) :
  inv u -> admitted u -> remainingUnfinalizedParentsLimit u = maximumUnfinalizedParentsLimit u -> call u u' ->
  admitted u'.
Proof.
  intros Hu Hadm Hrem (r&i&Hr&E). pose proof (inv_acc u Hu) as Ha. unfold uploadObject in E.
  destruct (_ || _ || _); [done|].
  destruct (CanAcquireParentAndChildren (maximumUnfinalizedParentsLimit u) (or_GetLocalReference r)) eqn:Ecan; cbn [negb] in E; [|done].
  destruct (AcquireParentAndChildren_spec _ _ (acc_max u Ha) Hr) as [_ Hcan].
  apply Hcan in Ecan as [Hcount Hsize]. clear Hcan.
  assert (forall k, full k (or_GetLocalReference r) <= amount k (maximumUnfinalizedParentsLimit u)) as Hfit by (by intros []).
  pose proof (getOrCreate_spec u r (inv_shape u Hu)) as (o&Ho&_).
  destruct (getOrCreate_effect u r (fun k => amount k (maximumUnfinalizedParentsLimit u)) (inv_shape u Hu) Hfit)
    as (_&Em&_&Hpend&Hsum).
  destruct (getOrCreateObjectState u r) as [u1 i1]. cbn [fst snd] in *. rewrite Ho in E. injection E as <- <-.
  intros q k Hq Hp. rewrite setObject_lookup in *. set (o' := mkObjectState _ _ _ _) in *.
  rewrite (zsum_insert _ _ _ _ _ Ho). cbn [maximumUnfinalizedParentsLimit setObject]. rewrite Em.
  destruct (above_phased (R := R) (L := L) k q) as [Hph _]. rewrite (Hph o' o) by done.
  rewrite (Hsum _ (above_phased k q)).
  pose proof (above_held u k q Ha) as Hle. pose proof (acc_sum u Ha k) as Hacc. rewrite Hrem in Hacc.
  assert (full k (loc q) <= amount k (maximumUnfinalizedParentsLimit u)); [|lia].
  assert (exists q1, q1 ∈ objects u1 /\ isPending q1 = true /\ reference q1 = reference q) as (q1&Hq1&Hp1&E1).
  { apply list_elem_of_lookup in Hq as [n Hn]. apply list_lookup_insert_Some in Hn as [(_&<-&_)|[_ Hn]].
    - exists o. split; [by eapply list_elem_of_lookup_2|]. done.
    - exists q. split; [by eapply list_elem_of_lookup_2|done]. }
  unfold loc. rewrite <- E1. destruct (Hpend q1 Hq1 Hp1) as [(q0&Hq0&Hp0&E0)|H]; [|apply H].
  pose proof (Hadm q0 k Hq0 Hp0) as H0. assert (0 <= zsum (above k q0) (objects u)).
  { apply zsum_nonneg. intros x Hx. unfold above. case_match; [|lia]. apply held_range. by apply (acc_valid u Ha). }
  unfold loc in H0. rewrite E0 in H0. lia.
Qed.

Lemma orderly_inv limit (u : U) : Limit_ok limit -> orderly limit u -> inv u /\ admitted u.
Proof.
  intros Hl H. induction H as [|u u' _ [Hu Hadm] Hst|u u' _ [Hu Hadm] Hrem Hcall].
  - split; [by apply inv_new|]. intros q k Hq. by apply not_elem_of_nil in Hq.
  - destruct (internal_inv u u' Hu Hst) as [? Hadm']. auto.
  - split; [by apply (call_inv u)|by apply (call_admitted u u')].
Qed.

(** Every object that is not finalized has a step, or waits. *)
Lemma progress (u : U) :
  inv u -> admitted u -> (exists o, o ∈ objects u /\ objectPhase o <> Finalized) -> exists u', internal zeroLease u u'.
Proof.
  intros Hu Hadm Hex.
  assert ((exists o, o ∈ objects u /\ ~ resting o) \/ (forall o, o ∈ objects u -> resting o)) as [(o&Ho&Hn)|Hrest].
  { destruct (decide (Exists (fun o => ~ resting o) (objects u))) as [H|H].
    - left. by apply Exists_exists in H.
    - right. intros o Ho. apply dec_stable. intros Hn. apply H, Exists_exists. by exists o. }
  - apply list_elem_of_lookup in Ho as [i Ho]. unfold resting in Hn. destruct (objectPhase o) eqn:Eph; try done.
    + eexists. apply (step_first zeroLease u i o (Ok UploadObjectMissing) _ Ho); [by split|].
      unfold firstResult. by rewrite Ho, Eph.
    + destruct (childErr children) as [e|] eqn:Ee; eexists;
        (apply (step_second zeroLease u i o (Ok UploadObjectMissing) _ Ho); [by split|]);
        unfold secondResult; by rewrite Ho, Eph, Ee.
    + destruct (finalizeNext u i) as [x|] eqn:E.
      * destruct (finalize_step u i x Hu E) as (u'&->&_). exists u'. by apply (step_finalize zeroLease u i).
      * exfalso. unfold finalizeNext in E. rewrite Ho, Eph in E. by destruct parents as [|[]].
  - destruct (process_possible u Hu Hadm Hrest Hex) as (i&u'&E). exists u'. by apply (step_process zeroLease u i).
Qed.

(** The configured limit never changes. *)
Lemma startFinalizing_max (u : U) i lease result err :
  maximumUnfinalizedParentsLimit (startFinalizing u i lease result err) = maximumUnfinalizedParentsLimit u.
Proof.
  assert (maximumUnfinalizedParentsLimit (detachObjectState u i) = maximumUnfinalizedParentsLimit u) as E.
  { unfold detachObjectState. destruct (objects u !! i); [|done]. by case_decide. }
  unfold startFinalizing. by destruct (objects (detachObjectState u i) !! i).
Qed.

Lemma getOrCreate_max (u : U) r :
  maximumUnfinalizedParentsLimit (getOrCreateObjectState u r).1 = maximumUnfinalizedParentsLimit u.
Proof. unfold getOrCreateObjectState. by destruct (_ !! _). Qed.

Lemma queueChildren_max i r c want (u u' : U) :
  queueChildren u i r c want = Ok u' -> maximumUnfinalizedParentsLimit u' = maximumUnfinalizedParentsLimit u.
Proof.
  revert u. induction want as [|j want IH]; intros u; cbn [queueChildren]; [by intros [= <-]|].
  destruct (GetOutgoingReference c j) as [child| |]; cbn [mbind outcome_bind]; try done.
  pose proof (getOrCreate_max u (rr_WithLocalReference r child)) as E.
  destruct (getOrCreateObjectState u _) as [u1 k]. destruct (objects u1 !! k); [|done].
  intros H. by rewrite (IH _ H).
Qed.

Lemma step_max (u u' : U) :
  step zeroLease u u' -> maximumUnfinalizedParentsLimit u' = maximumUnfinalizedParentsLimit u.
Proof.
  intros [Hst|(r&i&_&E)].
  - destruct Hst as [u i u' H|u i o res u' Ho _ H|u i o res u' Ho _ H|u i u' H]; revert H.
    + unfold processObject. destruct (objects u !! i); [|done]. destruct (_ && _); [|done].
      by destruct (AcquireParentAndChildren _ _) as [? []]; [intros [= <-]|].
    + unfold firstResult. rewrite Ho. destruct (objectPhase o); try done.
      destruct res as [[l|[c|] want|]|e|]; try done; try (intros [= <-]; apply startFinalizing_max).
      intros [= E]. destruct (queueChildren u i _ c want) as [u1| |] eqn:E1; cbn [mbind outcome_bind] in E; try done.
      destruct (objects u1 !! i); [|done]. injection E as <-. by apply queueChildren_max in E1.
    + unfold secondResult, finalizeObjectIncomplete. rewrite Ho. destruct (objectPhase o); try done. intros [= E]. revert E.
      destruct (childErr children), res as [[|c want|]| |]; try done; try (intros [= <-]; apply startFinalizing_max).
      destruct (leaseNotAccepted _ _) as [[]| |]; cbn [mbind outcome_bind]; try done; intros [= <-]; apply startFinalizing_max.
    + unfold finalizeNext. destruct (objects u !! i) as [o|]; [|done].
      destruct (objectPhase o) as [| | | |[|[p j] parents] lease err|]; try done; intros [= E]; [by subst u'|].
      revert E. unfold finalizeParent. destruct (_ !! p) as [op|]; [|done]. destruct (objectPhase op) as [| |c| | |]; try done.
      destruct (recordLease _ _ _); cbn [mbind outcome_bind]; try done. destruct (recordError _ _) as [c1 failed].
      set (u1 := if failed then _ else _). assert (maximumUnfinalizedParentsLimit u1 = maximumUnfinalizedParentsLimit u) as E1.
      { unfold u1. destruct failed; [|done]. unfold detachObjectState. destruct (_ !! p); [|done]. by case_decide. }
      destruct (_ =? 0); [destruct (originalIncompleteResult _) as [[]|]|]; intros [= <-]; [|exact E1..].
      by rewrite startFinalizing_max.
  - unfold uploadObject in E. destruct (_ || _ || _); [done|]. destruct (negb _); [done|].
    pose proof (getOrCreate_max u r) as Em. destruct (getOrCreateObjectState u r) as [u1 i1].
    destruct (objects u1 !! i1); by injection E as <- _.
Qed.

Lemma reachable_max limit (u : U) : reachable zeroLease limit u -> maximumUnfinalizedParentsLimit u = limit.
Proof. induction 1 as [|u u' _ IH Hst]; [done|]. by rewrite (step_max _ _ Hst). Qed.

(** Only resting objects, and none that can be picked: nothing moves. *)
Lemma nothing_moves (u : U) :
  Forall resting (objects u) -> (forall i, processObject u i = None) -> forall u', ~ internal zeroLease u u'.
Proof.
  intros Hrest Hproc u' Hst. destruct Hst as [u i u' H|u i o res u' Ho _ H|u i o res u' Ho _ H|u i u' H].
  - by rewrite Hproc in H.
  - pose proof (Forall_lookup_1 _ _ _ _ Hrest Ho) as Hr. unfold firstResult in H. rewrite Ho in H.
    unfold resting in Hr. by destruct (objectPhase o).
  - pose proof (Forall_lookup_1 _ _ _ _ Hrest Ho) as Hr. unfold secondResult in H. rewrite Ho in H.
    unfold resting in Hr. by destruct (objectPhase o).
  - unfold finalizeNext in H. destruct (objects u !! i) as [o|] eqn:Ho; [|done].
    pose proof (Forall_lookup_1 _ _ _ _ Hrest Ho) as Hr. unfold resting in Hr. by destruct (objectPhase o).
Qed.

(** C14: However calls of [UploadObject], results of the base and the goroutines
    that finalize objects interleave: what the objects hold and what remains add
    up to the configured limit, nothing is taken beyond it, and no result that the
    base may return and no step of the loop over parents makes a handler panic (an
    index out of range, a parent that no longer waits, a counter below zero). *)
Theorem renewing_accounts limit (u : U) (i : nat) (o : O) :
  Limit_ok limit -> reachable zeroLease limit u -> objects u !! i = Some o ->
  (forall k, 0 <= amount k (remainingUnfinalizedParentsLimit u) /\
    amount k (remainingUnfinalizedParentsLimit u) + zsum (held k) (objects u) =
    amount k limit) /\
  (forall res, valid_first (reference o) res -> firstResult zeroLease u i res <> Some Panic) /\
  (forall res, valid_second (reference o) res -> secondResult u i res <> Some Panic) /\
  finalizeNext u i <> Some Panic.
Proof.
  intros Hl Hreach Ho. pose proof (renewing_reachable_inv limit u Hl Hreach) as Hu. split; [|split_and!].
  - intros k. rewrite <- (reachable_max limit u Hreach). split; [apply (acc_rem u (inv_acc u Hu))|apply (acc_sum u (inv_acc u Hu))].
  - intros res Hv E. by destruct (first_step zeroLease u i o res _ Hu Ho Hv E) as (?&?&_).
  - intros res Hv E. by destruct (second_step u i o res _ Hu Ho Hv E) as (?&?&_).
  - intros E. by destruct (finalize_step u i _ Hu E) as (?&?&_).
Qed.

(** C15: Calls that are made while nothing of the limit is held always complete:
    from every state that such calls lead to, there is no infinite sequence of
    further steps, and when no step is left, everything has been given back,
    every object is finalized and every caller has an answer. *)
Theorem renewing_completes limit (u : U) :
  Limit_ok limit -> orderly limit u ->
  Acc (fun u2 u1 => internal zeroLease u1 u2) u /\
  forall u', rtc (internal zeroLease) u u' -> (forall u2, ~ internal zeroLease u' u2) ->
    remainingUnfinalizedParentsLimit u' = maximumUnfinalizedParentsLimit u' /\
    forall o, o ∈ objects u' -> objectPhase o = Finalized /\ hasCallers o <> Some None.
Proof.
  intros Hl Hord. destruct (orderly_inv limit u Hl Hord) as [Hu Hadm]. split; [by apply internal_Acc|].
  intros u' Hrun Hstuck. assert (inv u' /\ admitted u') as [Hu' Hadm'].
  { clear Hstuck Hord. induction Hrun as [|u u1 u' Hst _ IH]; [done|].
    destruct (internal_inv u u1 Hu Hst) as [? Ha]. auto. }
  assert (forall o, o ∈ objects u' -> objectPhase o = Finalized) as Hfin.
  { intros o Ho. destruct (objectPhase o) eqn:Eph; [..|done];
      (destruct (progress u' Hu' Hadm') as [u2 Hu2]; [exists o; by rewrite Eph|by destruct (Hstuck u2)]). }
  split.
  - apply Limit_eq. intros k. rewrite <- (acc_sum u' (inv_acc u' Hu') k).
    rewrite (zsum_ext (held k) (fun _ => 0)), zsum_zero; [lia|].
    intros o Ho. unfold held. by rewrite (Hfin o Ho).
  - intros o Ho. split; [by apply Hfin|]. pose proof (sh_object u' (inv_shape u' Hu') o Ho) as Hok.
    unfold object_ok in Hok. by rewrite (Hfin o Ho) in Hok.
Qed.
End runs.

(** ** Witnesses, and calls that get stuck *)

Section examples.
Abbreviation uploaderZ := (uploader LocalReference Z).

Definition objectOf (refs : list LocalReference) (payload : list Z) : Contents :=
  match NewContents refs payload with Ok c => c | _ => mkContents (mkLocalReference []) [] end.

(** Three objects on top of a leaf, and a large one. *)
Definition leaf : Contents := Eval vm_compute in objectOf [] [1].
Definition bottom : Contents := Eval vm_compute in objectOf [contentsReference leaf] [2].
Definition middle : Contents := Eval vm_compute in objectOf [contentsReference bottom] [3].
Definition top : Contents := Eval vm_compute in objectOf [contentsReference middle] [4].
Definition large : Contents := Eval vm_compute in objectOf [contentsReference leaf] (replicate 220 5).

Lemma objects_Ok :
  NewContents [] [1] = Ok leaf /\ NewContents [contentsReference leaf] [2] = Ok bottom /\
  NewContents [contentsReference bottom] [3] = Ok middle /\
  NewContents [contentsReference middle] [4] = Ok top /\
  NewContents [contentsReference leaf] (replicate 220 5) = Ok large.
Proof. split_and!; vm_compute; reflexivity. Qed.

#[local] Opaque leaf bottom middle top large.

Lemma objects_valid : Forall valid_reference (map contentsReference [leaf; bottom; middle; top; large]).
Proof.
  destruct objects_Ok as (H1&H2&H3&H4&H5).
  pose proof (NewContents_valid _ _ _ (Forall_nil_2 _) H1) as V1.
  pose proof (NewContents_valid _ _ _ (Forall_cons_2 _ _ _ V1 (Forall_nil_2 _)) H2) as V2.
  pose proof (NewContents_valid _ _ _ (Forall_cons_2 _ _ _ V2 (Forall_nil_2 _)) H3) as V3.
  pose proof (NewContents_valid _ _ _ (Forall_cons_2 _ _ _ V3 (Forall_nil_2 _)) H4) as V4.
  pose proof (NewContents_valid _ _ _ (Forall_cons_2 _ _ _ V1 (Forall_nil_2 _)) H5) as V5.
  cbn [map]. do 5 (apply Forall_cons_2; [assumption|]). apply Forall_nil_2.
Qed.

Lemma top_valid : valid_reference (contentsReference top).
Proof. apply (Forall_lookup_1 _ _ 3 _ objects_valid). reflexivity. Qed.

Lemma large_valid : valid_reference (contentsReference large).
Proof. apply (Forall_lookup_1 _ _ 4 _ objects_valid). reflexivity. Qed.

Lemma top_object : object_of (contentsReference top) top.
Proof.
  split.
  - change (Forall (fun b => 0 <= b < 2 ^ 8) (contentsData top)). refine (bool_decide_unpack _ _). vm_compute. exact I.
  - vm_compute. reflexivity.
Qed.

Definition exampleLimit : Limit := mkLimit 10 290.

(** One caller asks for [top], which turns out to be incomplete; then another
    caller asks for [large]. *)
Definition exampleStart : uploaderZ := NewUploader exampleLimit.
Definition exampleCalled : uploaderZ := (uploadObject exampleStart (contentsReference top) None []).1.
Definition examplePicked : uploaderZ := default exampleCalled (processObject exampleCalled 0).
Definition exampleIncomplete : outcome (UploadObjectResult Z) := Ok (UploadObjectIncomplete (Some top) [0]).
Definition exampleWaiting : uploaderZ :=
  match firstResult 0 examplePicked 0 exampleIncomplete with Some (Ok u) => u | _ => examplePicked end.
Definition exampleStuck : uploaderZ := (uploadObject exampleWaiting (contentsReference large) None []).1.

Lemma exampleLimit_ok : Limit_ok exampleLimit.
Proof. split; unfold is_u32, is_u64; simpl; lia. Qed.

Lemma exampleIncomplete_valid : valid_first (contentsReference top) exampleIncomplete.
Proof.
  split; [done|]. intros contents want [= <- <-]. split; [done|]. split; [apply NoDup_singleton|]. split.
  - intros j Hj%list_elem_of_singleton. subst j. vm_compute. split; [discriminate|reflexivity].
  - exists top. split; [done|]. exact top_object.
Qed.

(** States are compared by how they were computed, not by what they hold. *)
Lemma call_example (u : uploaderZ) r i :
  valid_reference r -> (uploadObject u r None []).2 = Waits i -> call u (uploadObject u r None []).1.
Proof. intros Hr H. exists r, i. split; [exact Hr|]. rewrite <- H. apply surjective_pairing. Qed.

Lemma process_example (u : uploaderZ) i :
  match processObject u i with Some _ => true | None => false end = true ->
  internal 0 u (default u (processObject u i)).
Proof. intros H. apply (step_process 0 u i). by destruct (processObject u i). Qed.

Lemma first_example (u : uploaderZ) i r res :
  match objects u !! i with Some o => bool_decide (reference o = r) | None => false end = true ->
  valid_first r res -> match firstResult 0 u i res with Some (Ok _) => true | _ => false end = true ->
  internal 0 u (match firstResult 0 u i res with Some (Ok u') => u' | _ => u end).
Proof.
  intros Ho Hv H. destruct (objects u !! i) as [o|] eqn:E; [|discriminate Ho]. apply bool_decide_eq_true in Ho as <-.
  apply (step_first 0 u i o res _ E Hv). by destruct (firstResult 0 u i res) as [[]|].
Qed.

Lemma exampleCalled_step : call exampleStart exampleCalled.
Proof. apply (call_example exampleStart _ 0 top_valid). vm_compute. reflexivity. Qed.

Lemma exampleCalled_orderly : orderly 0 exampleLimit exampleCalled.
Proof. eapply orderly_call; [apply orderly_new|reflexivity|exact exampleCalled_step]. Qed.

Lemma exampleStuck_reachable : reachable 0 exampleLimit exampleStuck.
Proof.
  apply (reach_step 0 exampleLimit exampleWaiting).
  2: { apply step_call, (call_example exampleWaiting _ 2 large_valid). vm_compute. reflexivity. }
  apply (reach_step 0 exampleLimit examplePicked).
  2: { apply step_internal, (first_example examplePicked 0 (contentsReference top) exampleIncomplete);
    [vm_compute; reflexivity|exact exampleIncomplete_valid|vm_compute; reflexivity]. }
  apply (reach_step 0 exampleLimit exampleCalled).
  2: { apply step_internal, (process_example exampleCalled 0). vm_compute. reflexivity. }
  apply (reach_step 0 exampleLimit exampleStart); [apply reach_new|apply step_call; exact exampleCalled_step].
Qed.

Lemma renewing_accounts_witness :
  amount Size (remainingUnfinalizedParentsLimit exampleStuck) + zsum (held Size) (objects exampleStuck) = 290.
Proof.
  destruct (objects exampleStuck !! 0%nat) as [o|] eqn:Ho; [|vm_compute in Ho; discriminate Ho].
  destruct (renewing_accounts 0 exampleLimit exampleStuck 0 o exampleLimit_ok exampleStuck_reachable Ho) as [H _].
  apply (H Size).
Defined.

Lemma renewing_completes_witness : Acc (fun u2 u1 => internal 0 u1 u2) exampleCalled.
Proof. apply (renewing_completes 0 exampleLimit exampleCalled exampleLimit_ok exampleCalled_orderly). Defined.

(** C16: Calls that are made while objects are held can get stuck for good,
    although every object fits the limit: an object of height three waits for its
    child of height two, which comes after an object of height one in the order of
    traversal.  That one does not fit what the first object leaves over, so neither
    of them is ever picked, and no step is left while both callers wait. *)
Theorem renewing_deadlock :
  reachable 0 exampleLimit exampleStuck /\
  (forall u', ~ internal 0 exampleStuck u') /\
  map hasCallers (objects exampleStuck) = [Some None; None; Some None] /\
  forallb (fun o => CanAcquireParentAndChildren exampleLimit (loc o)) (objects exampleStuck) = true.
Proof.
  split; [exact exampleStuck_reachable|]. split; [|split; vm_compute; reflexivity].
  apply nothing_moves.
  - refine (bool_decide_unpack _ _). vm_compute. exact I.
  - assert (length (objects exampleStuck) = 3%nat) as Hlen by (vm_compute; reflexivity).
    intros [|[|[|i]]]; [vm_compute; reflexivity..|]. unfold processObject.
    rewrite (lookup_ge_None_2 (objects exampleStuck)); [done|lia].
Qed.
End examples.
