(* ===== verification/SchedulerState.v ===== *)
(** * The scheduler: state, invocations and workers

    [pkg/scheduler/in_memory_build_queue.go]: the data of the build queue, and the
    operations on invocations, workers and queued operations that the calls in
    [Scheduler] are made of.

    - Objects that the code points to are numbered, and kept in stores of their own
      ([allTasks], [allWorkers], ...).  An invocation is identified by its size class
      queue and its list of keys: the scheduler only ever reaches an invocation that
      is part of the tree, whose pointer is determined by both.  Its children are the
      invocations whose keys extend its own by one.
    - Heaps are lists under the operations of [Heap].  The fields that hold positions
      in heaps and lists ([queueIndex], [queuedChildrenIndex], [listIndex], the value of
      a [cleanupKey]) are left out: the position is looked up.  An object that is not in
      a heap has no position, where the code has a negative index.
    - Calls are functions on the state that may fail, panic, or wait for a lock that
      they hold themselves ([Deadlocks]).
    - The library and the interfaces that the code uses are parameters
      ([Environment]): elliptic curves, UUIDs, marshaling, arithmetic on floating point
      numbers, and the analyzers of size classes.
    - Metrics are left out. *)

From coqutil Require Export Datatypes.RecordSetters.
From S2P Require Import Prelude Heap.
Export RecordSetters.TriangleBracketNotations.

Abbreviation bytes := (list Z).

(** ** What the scheduler is built on *)

(** Worker IDs, and patterns of them: maps of strings. *)
Definition WorkerID : Type := gmap bytes bytes.

Class Environment := {
  Action : Type;
  (** Events of the execution of an action. *)
  Event : Type;
  (** [encoding/json], [crypto/sha256] and the routing of actions. *)
  marshalWorkerID : WorkerID -> bytes;
  unmarshalWorkerID : bytes -> WorkerID;
  deduplicationKeyOf : Action -> bytes;
  platformPkixPublicKeyOf : Action -> bytes;
  (** The UUID that is generated as the [n]-th. *)
  uuidGenerator : nat -> bytes;
  (** [crypto/ecdh], [crypto/aes] and [crypto/x509]: the curve of a marshaled public
      key, private keys with their marshaled public key, and a block of zeros that is
      encrypted with the shared secret. *)
  Curve : Type;
  Curve_eq_dec :: EqDecision Curve;
  Curve_countable :: Countable Curve;
  PrivateKey : Type;
  parsePKIXPublicKey : bytes -> outcome Curve;
  generatePrivateKey : Curve -> nat -> outcome (PrivateKey * bytes);
  encryptZeros : PrivateKey -> bytes -> outcome bytes;
  (** [float64], and [n * math.Pow(priorityExponentiationBase, d)]. *)
  Float : Type;
  floatOf : Z -> Float;
  timesPower : Z -> Z -> Float;
  floatLt : Float -> Float -> bool;
  floatEq : Float -> Float -> bool;
  (** [initialsizeclass.Selector], [initialsizeclass.Learner] and the action router. *)
  Selector : Type;
  Learner : Type;
  Select : Selector -> list Z -> Z * Z * Z * Learner;
  Succeeded : Learner -> Z -> list Z -> option (Z * Z * Z * Learner);
  FailedLearning : Learner -> bool -> option (Z * Z * Learner);
  RouteAction : Action -> outcome (list bytes * Selector);
  (** [invocation.BackgroundLearningKeys] *)
  BackgroundLearningKeys : list bytes;
}.

(** ** Results of calls *)

Inductive scheduled (A : Type) :=
  | Returns (a : A)
  | Fails (e : error)
  | Panics
  (** The lock is acquired by the one that holds it. *)
  | Deadlocks.
Arguments Returns {A} _.
Arguments Fails {A} _.
Arguments Panics {A}.
Arguments Deadlocks {A}.

Section state.
Context {E : Environment}.

(** ** Data *)

Definition InvocationId : Type := nat * list bytes.

(** [invocation] *)
Record invocation := mkInvocation {
  queuedOperations : list nat;
  queuedChildren : list InvocationId;
  idleSynchronizingWorkersChildren : list InvocationId;
  firstQueuedOperationPriority : Z;
  executingWorkers : gmap nat Z;
  lastOperationStarted : Z;
  lastOperationCompletion : Z;
  idleWorkersCount : Z;
  idleSynchronizingWorkers : list nat;
}.

(** [operation] *)
Record operation := mkOperation {
  operationName : bytes;
  operationTask : nat;
  operationPriority : Z;
  operationInvocation : InvocationId;
  waiters : Z;
  mayExistWithoutWaiters : bool;
}.

(** [task] *)
Record task := mkTask {
  operations : gmap InvocationId nat;
  deduplicationKey : bytes;
  taskUUID : bytes;
  taskAction : Action;
  effectiveExecutionTimeout : Z;
  queuedTimestamp : Z;
  currentWorker : option nat;
  retryCount : Z;
  expectedDuration : Z;
  initialSizeClassLearner : option Learner;
  lastExecutionEvent : option Event;
  executionEventsSeen : Z;
  failureErr : option error;
  stageChangeWakeup : option nat;
}.

(** [worker] *)
Record worker := mkWorker {
  workerKey : bytes;
  currentTask : option nat;
  terminating : bool;
  lastInvocation : option InvocationId;
  wakeup : option nat;
  stickinessStartingTimes : list Z;
}.

(** [sizeClassQueue] *)
Record sizeClassQueue := mkSizeClassQueue {
  queuePlatformQueue : nat;
  queueSizeClass : Z;
  mayBeRemoved : bool;
  workers : gmap bytes nat;
  drains : gmap bytes (WorkerID * Z);
  undrainWakeup : nat;
}.

(** [platformQueuePublicKey] *)
Record platformQueuePublicKey := mkPublicKey {
  pkixPublicKey : bytes;
  verificationZeros : bytes;
  curveIndex : Z;
}.

(** [platformQueue] *)
Record platformQueue := mkPlatformQueue {
  publicKeys : list platformQueuePublicKey;
  workerInvocationStickinessLimits : list Z;
  maximumQueuedBackgroundLearningOperations : Z;
  backgroundLearningOperationPriority : Z;
  sizeClasses : list Z;
  sizeClassQueues : list nat;
}.

(** What the closures in the cleanup queue do; they identify the [cleanupKey]. *)
Inductive cleanup :=
  | RemoveOperation (o : nat)
  | RemoveStaleWorker (scq : nat) (key : bytes) (removalTime : Z)
  | RemoveSizeClassQueue (scq : nat).

(** [cleanupEntry] *)
Record cleanupEntry := mkCleanupEntry { timestamp : Z; callback : cleanup }.

(** What learners and selectors are told. *)
Inductive learnerCall :=
  | SelectorSelected (s : Selector)
  | SelectorAbandoned (s : Selector)
  | LearnerSucceeded (l : Learner)
  | LearnerFailed (l : Learner)
  | LearnerAbandoned (l : Learner).

(** [InMemoryBuildQueueConfiguration] *)
Record configuration := mkConfiguration {
  ExecutionUpdateInterval : Z;
  OperationWithNoWaitersTimeout : Z;
  PlatformQueueWithNoWorkersTimeout : Z;
  BusyWorkerSynchronizationInterval : Z;
  WorkerTaskRetryCount : Z;
  WorkerWithNoSynchronizationsTimeout : Z;
  VerificationPrivateKeyRefreshInterval : Z;
}.

(** [InMemoryBuildQueue]: its own fields, then the stores, closed channels, and what
    numbers objects and random values. *)
Record buildQueue := mkBuildQueue {
  locked : bool;
  now : Z;
  platformQueueAbsenceHardFailureTime : Z;
  platformQueues : gmap bytes nat;
  verificationPrivateKeyExpiration : option Z;
  verificationCurveIndices : gmap Curve Z;
  verificationPrivateKeys : list (PrivateKey * bytes);
  operationsNameMap : gmap bytes nat;
  inFlightDeduplicationMap : gmap bytes nat;
  cleanupQueue : list cleanupEntry;
  allPlatformQueues : gmap nat platformQueue;
  allSizeClassQueues : gmap nat sizeClassQueue;
  allInvocations : gmap InvocationId invocation;
  allTasks : gmap nat task;
  allOperations : gmap nat operation;
  allWorkers : gmap nat worker;
  closedChannels : gset nat;
  nextId : nat;
  learnerCalls : list learnerCall;
}.

(** ** Calls *)

Definition M (A : Type) : Type := buildQueue -> scheduled A * buildQueue.

#[export] Instance M_ret : MRet M := fun A a s => (Returns a, s).
#[export] Instance M_bind : MBind M := fun A B f m s =>
  match m s with
  | (Returns a, s) => f a s
  | (Fails e, s) => (Fails e, s)
  | (Panics, s) => (Panics, s)
  | (Deadlocks, s) => (Deadlocks, s)
  end.

Definition fail {A} (e : error) : M A := fun s => (Fails e, s).
Definition panic {A} : M A := fun s => (Panics, s).
Definition gets {A} (f : buildQueue -> A) : M A := fun s => (Returns (f s), s).
Definition modify (f : buildQueue -> buildQueue) : M unit := fun s => (Returns tt, f s).

(** Following a pointer. *)
Definition deref {A} (f : buildQueue -> option A) : M A := fun s =>
  match f s with Some a => (Returns a, s) | None => (Panics, s) end.

Definition liftOutcome {A} (o : outcome A) : M A := fun s =>
  (match o with Ok a => Returns a | Err e => Fails e | Panic => Panics end, s).

Fixpoint forEach {A} (l : list A) (f : A -> M unit) : M unit :=
  match l with [] => mret tt | x :: l => _ ← f x; forEach l f end.

Definition whenM (b : bool) (m : M unit) : M unit := if b then m else mret tt.

Definition getInvocation (i : InvocationId) : M invocation := deref (fun s => allInvocations s !! i).
Definition getOperation (o : nat) : M operation := deref (fun s => allOperations s !! o).
Definition getTask (t : nat) : M task := deref (fun s => allTasks s !! t).
Definition getWorker (w : nat) : M worker := deref (fun s => allWorkers s !! w).
Definition getSizeClassQueue (q : nat) : M sizeClassQueue := deref (fun s => allSizeClassQueues s !! q).
Definition getPlatformQueue (p : nat) : M platformQueue := deref (fun s => allPlatformQueues s !! p).

Definition putInvocation (i : InvocationId) (v : invocation) : M unit :=
  modify (fun s => s <| allInvocations ::= <[i := v]> |>).
Definition putOperation (o : nat) (v : operation) : M unit :=
  modify (fun s => s <| allOperations ::= <[o := v]> |>).
Definition putTask (t : nat) (v : task) : M unit := modify (fun s => s <| allTasks ::= <[t := v]> |>).
Definition putWorker (w : nat) (v : worker) : M unit := modify (fun s => s <| allWorkers ::= <[w := v]> |>).
Definition putSizeClassQueue (q : nat) (v : sizeClassQueue) : M unit :=
  modify (fun s => s <| allSizeClassQueues ::= <[q := v]> |>).
Definition putPlatformQueue (p : nat) (v : platformQueue) : M unit :=
  modify (fun s => s <| allPlatformQueues ::= <[p := v]> |>).

(** A number for an object, a channel, or a UUID. *)
Definition newId : M nat := fun s => (Returns (nextId s), s <| nextId ::= S |>).

(** Closing a channel that is closed or nil panics. *)
Definition closeChannel (c : option nat) : M unit :=
  match c with
  | Some c =>
      s ← gets id;
      if bool_decide (c ∈ closedChannels s) then panic
      else modify (fun s => s <| closedChannels ::= union {[c]} |>)
  | None => panic
  end.

Definition tellLearner (c : learnerCall) : M unit := modify (fun s => s <| learnerCalls ::= cons c |>).

(** ** Heaps *)

Definition position {A} `{!EqDecision A} (x : A) (l : list A) : option nat := fst <$> list_find (x =.) l.

Section heaps.
Context {A : Type} `{!EqDecision A} (less : A -> A -> bool).

(** [heapMaybeFix] *)
Definition heapMaybeFix (l : list A) (x : A) : list A :=
  match position x l with Some k => heapFix less l k | None => l end.

(** [heapPushOrFix] *)
Definition heapPushOrFix (l : list A) (x : A) : list A :=
  match position x l with Some k => heapFix less l k | None => heapPush less l x end.

(** [heap.Remove] of an element. *)
Definition heapRemoveElement (l : list A) (x : A) : option (list A) :=
  k ← position x l; snd <$> heapRemove less l k.

(** [heapRemoveOrFix] *)
Definition heapRemoveOrFix (l : list A) (x : A) (count : nat) : option (list A) :=
  if (0 <? count)%nat then Some (heapMaybeFix l x) else heapRemoveElement l x.
End heaps.

(** ** Invocations *)

Definition parentInvocation (i : InvocationId) : option InvocationId :=
  match i.2 with [] => None | keys => Some (i.1, removelast keys) end.

(** An invocation, its parent, and so on up to the root. *)
Definition ancestors (i : InvocationId) : list InvocationId :=
  map (fun n => (i.1, take n i.2)) (reverse (seq 0 (S (length i.2)))).

Definition rootInvocation (scq : nat) : InvocationId := (scq, []).

Definition isQueued (i : invocation) : bool :=
  negb (bool_decide (queuedOperations i = [])) || negb (bool_decide (queuedChildren i = [])).

Definition isActive (i : invocation) : bool := isQueued i || (0 <? size (executingWorkers i))%nat.

(** [removeIfEmpty] *)
Definition removeIfEmpty (i : InvocationId) : M bool :=
  v ← getInvocation i;
  if bool_decide (parentInvocation i <> None) && negb (isActive v) && (idleWorkersCount v =? 0) then
    _ ← modify (fun s => s <| allInvocations ::= delete i |>);
    mret true
  else mret false.

(** [isPreferred] *)
Definition isPreferred (i j : invocation) (tieBreaker : bool) : bool :=
  let ei := Z.of_nat (size (executingWorkers i) + 1) in
  let ej := Z.of_nat (size (executingWorkers j) + 1) in
  let pi := firstQueuedOperationPriority i in
  let pj := firstQueuedOperationPriority j in
  let '(si, sj) :=
    if pi <? pj then (floatOf ei, timesPower ej (pj - pi))
    else if pi >? pj then (timesPower ei (pi - pj), floatOf ej)
    else (floatOf ei, floatOf ej) in
  floatLt si sj || (floatEq si sj && tieBreaker).

(** [queuedChildrenHeap.Less] *)
Definition queuedChildrenLess (s : buildQueue) (i j : InvocationId) : bool :=
  match allInvocations s !! i, allInvocations s !! j with
  | Some i, Some j => isPreferred i j (lastOperationStarted i <? lastOperationStarted j)
  | _, _ => false
  end.

(** [idleSynchronizingWorkersChildrenHeap.Less] *)
Definition idleChildrenLess (s : buildQueue) (i j : InvocationId) : bool :=
  match allInvocations s !! i, allInvocations s !! j with
  | Some i, Some j =>
      let ui := u64 (Z.of_nat (size (executingWorkers i)) * Z.of_nat (length (idleSynchronizingWorkers j))) in
      let uj := u64 (Z.of_nat (size (executingWorkers j)) * Z.of_nat (length (idleSynchronizingWorkers i))) in
      if ui <? uj then true else if ui >? uj then false
      else lastOperationCompletion i <? lastOperationCompletion j
  | _, _ => false
  end.

(** [queuedOperationsHeap.Less] *)
Definition queuedOperationsLess (s : buildQueue) (a b : nat) : bool :=
  match allOperations s !! a, allOperations s !! b with
  | Some a, Some b =>
      if operationPriority a <? operationPriority b then true
      else if operationPriority a >? operationPriority b then false
      else match allTasks s !! operationTask a, allTasks s !! operationTask b with
      | Some ta, Some tb =>
          if expectedDuration ta >? expectedDuration tb then true
          else if expectedDuration ta <? expectedDuration tb then false
          else queuedTimestamp ta <? queuedTimestamp tb
      | _, _ => false
      end
  | _, _ => false
  end.

(** The two calls of [heapMaybeFix] for the heaps of the parent. *)
Definition fixInParent (i : InvocationId) : M unit :=
  match parentInvocation i with
  | Some p =>
      v ← getInvocation p;
      s ← gets id;
      putInvocation p (v <| queuedChildren ::= fun l => heapMaybeFix (queuedChildrenLess s) l i |>
                         <| idleSynchronizingWorkersChildren ::= fun l => heapMaybeFix (idleChildrenLess s) l i |>)
  | None => mret tt
  end.

(** [decrementExecutingWorkersCount] *)
Definition decrementExecutingWorkersCount (i : InvocationId) (w : nat) : M unit :=
  forEach (ancestors i) (fun i =>
    v ← getInvocation i;
    let count := default 0 (executingWorkers v !! w) in
    if count <=? 0 then panic else
    t ← gets now;
    _ ← putInvocation i (v
      <| executingWorkers ::= (if count - 1 =? 0 then delete w else <[w := count - 1]>) |>
      <| lastOperationCompletion := t |>);
    match parentInvocation i with
    | None => mret tt
    | Some _ => _ ← fixInParent i; _ ← removeIfEmpty i; mret tt
    end).

(** [incrementExecutingWorkersCount] *)
Definition incrementExecutingWorkersCount (i : InvocationId) (w : nat) : M unit :=
  forEach (ancestors i) (fun i =>
    v ← getInvocation i;
    t ← gets now;
    _ ← putInvocation i (v <| executingWorkers ::= <[w := default 0 (executingWorkers v !! w) + 1]> |>
                           <| lastOperationStarted := t |>);
    fixInParent i).

(** [hasInvocationKey] *)
Definition hasInvocationKey (i : InvocationId) (filter : bytes) : bool := bool_decide (filter ∈ i.2).

(** [updateFirstOperationPriority] *)
Definition updateFirstOperationPriority (i : InvocationId) : M unit :=
  v ← getInvocation i;
  match queuedOperations v, queuedChildren v with
  | o :: _, _ => o ← getOperation o; putInvocation i (v <| firstQueuedOperationPriority := operationPriority o |>)
  | [], c :: _ =>
      c ← getInvocation c;
      putInvocation i (v <| firstQueuedOperationPriority := firstQueuedOperationPriority c |>)
  | [], [] => mret tt
  end.

(** [getOrCreateInvocation] *)
Definition newInvocation (t : Z) : invocation := mkInvocation [] [] [] 0 ∅ t t 0 [].

Definition getOrCreateInvocation (scq : nat) (keys : list bytes) : M InvocationId :=
  _ ← forEach (map (fun n => (scq, take n keys)) (seq 1 (length keys))) (fun i =>
    s ← gets id;
    match allInvocations s !! i with
    | Some _ => mret tt
    | None => putInvocation i (newInvocation (now s))
    end);
  mret (scq, keys).

(** ** Queued operations *)

(** [enqueue] *)
Definition enqueue (o : nat) : M unit :=
  op ← getOperation o;
  let i := operationInvocation op in
  v ← getInvocation i;
  s ← gets id;
  _ ← putInvocation i (v <| queuedOperations ::= fun l => heapPush (queuedOperationsLess s) l o |>);
  forEach (ancestors i) (fun i =>
    match parentInvocation i with
    | None => mret tt
    | Some p =>
        _ ← updateFirstOperationPriority i;
        v ← getInvocation p;
        s ← gets id;
        putInvocation p (v <| queuedChildren ::= fun l => heapPushOrFix (queuedChildrenLess s) l i |>)
    end).

(** [removeQueuedFromInvocation] *)
Definition removeQueuedFromInvocation (o : nat) : M unit :=
  op ← getOperation o;
  let i := operationInvocation op in
  v ← getInvocation i;
  s ← gets id;
  l ← deref (fun _ => heapRemoveElement (queuedOperationsLess s) (queuedOperations v) o);
  _ ← putInvocation i (v <| queuedOperations := l |>);
  forEach (ancestors i) (fun i =>
    match parentInvocation i with
    | None => mret tt
    | Some p =>
        _ ← updateFirstOperationPriority i;
        c ← getInvocation i;
        v ← getInvocation p;
        s ← gets id;
        l ← deref (fun _ => heapRemoveOrFix (queuedChildrenLess s) (queuedChildren v) i
               (length (queuedChildren c) + length (queuedOperations c))%nat);
        putInvocation p (v <| queuedChildren := l |>)
    end).
End state.
