(* ===== verification/SchedulerLifeCycle.v ===== *)
(** * The scheduler: the life cycle of tasks and operations

    What the build queue of [SchedulerState] promises its clients, on an abstract
    [view] of its state: workers with their task, tasks with their operations, and the
    operations that are queued, that have a name, and that are going to be cleaned up.

    [life] is the invariant of the scheduler, and [stable] what clients may rely on
    from one call to the next.  Every operation of the scheduler performs one of the
    transitions of this file; [SchedulerFrames] and [SchedulerSpec] show which. *)

From S2P Require Import Prelude References Heap SchedulerState.

Section view.
Context {E : Environment}.

(** ** The view of a state *)

Record taskView := mkTaskView {
  tvOperations : gmap InvocationId nat;
  tvKey : bytes;
  tvWorker : option nat;
  tvInFlight : bool;
  tvResult : option error * option Event;
}.

Record operationView := mkOperationView {
  ovName : bytes;
  ovTask : nat;
  ovInvocation : InvocationId;
  ovWaiters : Z;
  ovMayExist : bool;
}.

Record view := mkView {
  vWorkers : gmap nat (option nat);
  vTasks : gmap nat taskView;
  vOperations : gmap nat operationView;
  vNames : gmap bytes nat;
  vFlight : gmap bytes nat;
  vQueue : InvocationId -> list nat;
  vCleanup : list nat;
  vNext : nat;
}.

(** ** The invariant *)

(** An operation that is part of its task. *)
Definition attached (v : view) (o : nat) (ov : operationView) (tv : taskView) : Prop :=
  vOperations v !! o = Some ov /\ vTasks v !! ovTask ov = Some tv /\ tvOperations tv !! ovInvocation ov = Some o.

(** The key of tasks that are not deduplicated. *)
Definition zeroKey : bytes := replicate 32 0.

(** [D]: tasks that are being created.  [U]: operations that are between two stages.
    [G]: operations that are being created.  [R]: operations that are being removed. *)
Record life (D U G R : gset nat) (v : view) : Prop := {
  life_ids_workers w o : vWorkers v !! w = Some o -> (w < vNext v)%nat;
  life_ids_tasks t tv : vTasks v !! t = Some tv -> (t < vNext v)%nat;
  life_ids_operations o ov : vOperations v !! o = Some ov -> (o < vNext v)%nat /\ ((ovInvocation ov).1 < vNext v)%nat;
  life_worker w t : vWorkers v !! w = Some (Some t) <-> exists tv, vTasks v !! t = Some tv /\ tvWorker tv = Some w;
  life_executing t tv : vTasks v !! t = Some tv -> tvWorker tv <> None -> tvInFlight tv = true;
  life_flight k t : vFlight v !! k = Some t ->
    exists tv, vTasks v !! t = Some tv /\ tvKey tv = k /\ tvInFlight tv = true;
  life_deduplicated t tv : vTasks v !! t = Some tv -> tvInFlight tv = true -> tvKey tv <> zeroKey ->
    vFlight v !! tvKey tv = Some t;
  life_operations t tv i o : vTasks v !! t = Some tv -> tvOperations tv !! i = Some o ->
    exists ov, vOperations v !! o = Some ov /\ ovTask ov = t /\ ovInvocation ov = i;
  life_sizeClass t tv i j o p : vTasks v !! t = Some tv ->
    tvOperations tv !! i = Some o -> tvOperations tv !! j = Some p -> i.1 = j.1;
  life_queue i o : o ∈ vQueue v i ->
    exists ov tv, attached v o ov tv /\ ovInvocation ov = i /\ tvInFlight tv = true /\ tvWorker tv = None;
  life_queue_NoDup i : NoDup (vQueue v i);
  life_queued t tv i o : vTasks v !! t = Some tv -> tvInFlight tv = true -> tvWorker tv = None ->
    tvOperations tv !! i = Some o -> o ∉ U -> o ∈ vQueue v i;
  life_unqueued i o : o ∈ U -> o ∉ vQueue v i;
  life_nonempty t tv : vTasks v !! t = Some tv -> t ∉ D -> tvInFlight tv = true -> tvOperations tv <> ∅;
  life_cleanup o : o ∈ vCleanup v ->
    exists ov tv, attached v o ov tv /\ ovWaiters ov = 0 /\ ovMayExist ov = false;
  life_cleanup_NoDup : NoDup (vCleanup v);
  life_noLeak o ov tv : attached v o ov tv -> o ∉ G -> o ∉ R -> ovWaiters ov = 0 -> ovMayExist ov = false -> o ∈ vCleanup v;
  life_waiters o ov : vOperations v !! o = Some ov -> 0 <= ovWaiters ov;
  life_names n o : vNames v !! n = Some o -> exists ov tv, attached v o ov tv /\ ovName ov = n;
  life_removing o : o ∈ R -> o ∉ vCleanup v /\ (forall n, vNames v !! n <> Some o) /\
    exists ov tv, attached v o ov tv /\ ovWaiters ov = 0 /\ ovMayExist ov = false;
  life_waited o ov : vOperations v !! o = Some ov -> 0 < ovWaiters ov -> exists tv, attached v o ov tv;
}.

(** What clients rely on: tasks stay what they are, a completed task keeps its
    result, and an operation that somebody waits for is kept.  [X]: operations that a
    client stops to wait for. *)
Record stable (X : gset nat) (v v' : view) : Prop := {
  stable_tasks t tv : vTasks v !! t = Some tv ->
    exists tv', vTasks v' !! t = Some tv' /\ tvKey tv' = tvKey tv /\
      (tvInFlight tv = false -> tvInFlight tv' = false /\ tvResult tv' = tvResult tv);
  stable_operations o ov : vOperations v !! o = Some ov ->
    exists ov', vOperations v' !! o = Some ov' /\ ovName ov' = ovName ov /\ ovTask ov' = ovTask ov /\
      (ovInvocation ov').2 = (ovInvocation ov).2;
  stable_waited o ov tv : o ∉ X -> attached v o ov tv -> 0 < ovWaiters ov ->
    exists ov' tv', attached v' o ov' tv' /\ ovWaiters ov <= ovWaiters ov';
}.

(** The order of queues does not matter. *)
Record similar (v v' : view) : Prop := {
  similar_workers : vWorkers v' = vWorkers v;
  similar_tasks : vTasks v' = vTasks v;
  similar_operations : vOperations v' = vOperations v;
  similar_names : vNames v' = vNames v;
  similar_flight : vFlight v' = vFlight v;
  similar_queue i : vQueue v' i ≡ₚ vQueue v i;
  similar_cleanup : vCleanup v' ≡ₚ vCleanup v;
  similar_next : (vNext v <= vNext v')%nat;
}.

#[export] Instance similar_preorder : PreOrder similar.
Proof.
  split.
  - intros v. split; reflexivity || lia.
  - intros v1 v2 v3 H1 H2. split.
    + rewrite (similar_workers _ _ H2). apply H1.
    + rewrite (similar_tasks _ _ H2). apply H1.
    + rewrite (similar_operations _ _ H2). apply H1.
    + rewrite (similar_names _ _ H2). apply H1.
    + rewrite (similar_flight _ _ H2). apply H1.
    + intros i. rewrite (similar_queue _ _ H2). apply H1.
    + rewrite (similar_cleanup _ _ H2). apply H1.
    + pose proof (similar_next _ _ H1). pose proof (similar_next _ _ H2). lia.
Qed.

Lemma life_similar D U G R v v' : similar v v' -> life D U G R v -> life D U G R v'.
Proof.
  intros [Hw Ht Ho Hn Hf Hq Hc Hi] L. split; unfold attached; rewrite ?Hw, ?Ht, ?Ho, ?Hn, ?Hf; try apply L.
  - intros w o E1. pose proof (life_ids_workers _ _ _ _ _ L w o E1). lia.
  - intros t tv E1. pose proof (life_ids_tasks _ _ _ _ _ L t tv E1). lia.
  - intros o ov E1. destruct (life_ids_operations _ _ _ _ _ L o ov E1). lia.
  - intros i o. rewrite (Hq i). apply L.
  - intros i. rewrite (Hq i). apply L.
  - intros t tv i o. rewrite (Hq i). apply L.
  - intros i o. rewrite (Hq i). apply L.
  - intros o. rewrite Hc. apply L.
  - rewrite Hc. apply L.
  - intros o ov tv. rewrite Hc. apply L.
  - intros o. rewrite Hc. apply L.
Qed.

#[export] Instance stable_preorder X : PreOrder (stable X).
Proof.
  split.
  - intros v. split; [eauto 10|eauto 10|]. intros o ov tv _ H _. exists ov, tv. split; [done|lia].
  - intros v1 v2 v3 [T1 O1 W1] [T2 O2 W2]. split.
    + intros t tv Ht. destruct (T1 t tv Ht) as (tv2&Ht2&E1&C1). destruct (T2 t tv2 Ht2) as (tv3&Ht3&E2&C2).
      exists tv3. split; [done|]. split; [congruence|]. intros Hc. destruct (C1 Hc) as [Hc2 R2].
      destruct (C2 Hc2) as [Hc3 R3]. split; congruence.
    + intros o ov Ho. destruct (O1 o ov Ho) as (ov2&Ho2&E1&E2&E3). destruct (O2 o ov2 Ho2) as (ov3&Ho3&E4&E5&E6).
      exists ov3. split_and!; congruence.
    + intros o ov tv Hx Ha Hw. destruct (W1 o ov tv Hx Ha Hw) as (ov2&tv2&Ha2&?).
      destruct (W2 o ov2 tv2 Hx Ha2) as (ov3&tv3&Ha3&?); [lia|]. exists ov3, tv3. split; [done|lia].
Qed.

Lemma stable_similar X v v' : similar v v' -> stable X v v'.
Proof.
  intros [Hw Ht Ho Hn Hf Hq Hc Hi]. split; unfold attached; rewrite ?Ht, ?Ho; [eauto 10|eauto 10|].
  intros o ov tv _ H _. exists ov, tv. split; [done|lia].
Qed.

(** ** Changes of one task *)

Definition setTask (t : nat) (tv : taskView) (v : view) : view := v <| vTasks ::= <[t := tv]> |>.

Section setTask.
Context (v : view) (t : nat) (tv tv' : taskView).
Context (Ht : vTasks v !! t = Some tv) (Eops : tvOperations tv' = tvOperations tv).

(** The same operations are attached. *)
Lemma attached_setTask o ov tv0 :
  attached v o ov tv0 -> attached (setTask t tv' v) o ov (if decide (ovTask ov = t) then tv' else tv0).
Proof.
  intros (H1&H2&H3). unfold attached, setTask. simpl. split; [done|]. case_decide as E1.
  - subst. rewrite lookup_insert_eq. split; [done|]. rewrite Ht in H2. injection H2 as <-. by rewrite Eops.
  - by rewrite lookup_insert_ne.
Qed.

Lemma attached_setTask_inv o ov tv0 :
  attached (setTask t tv' v) o ov tv0 ->
  exists tv1, attached v o ov tv1 /\ (ovTask ov = t /\ tv1 = tv /\ tv0 = tv' \/ ovTask ov <> t /\ tv0 = tv1).
Proof.
  unfold attached, setTask. simpl. intros (H1&H2&H3). apply lookup_insert_Some in H2 as [[E1 <-]|[Hne H2]].
  - exists tv. rewrite <- E1, Ht, <- Eops. auto 10.
  - exists tv0. auto 10.
Qed.
End setTask.

(** A task that is in flight changes its worker, or is completed. *)
Lemma life_setTask D U U' G R v t tv tv' W F :
  life D U G R v -> vTasks v !! t = Some tv -> tvInFlight tv = true ->
  tvOperations tv' = tvOperations tv -> tvKey tv' = tvKey tv ->
  (forall w o, W !! w = Some o -> (w < vNext v)%nat) ->
  (forall w t', W !! w = Some (Some t') <-> exists tv0, <[t := tv']> (vTasks v) !! t' = Some tv0 /\ tvWorker tv0 = Some w) ->
  (tvWorker tv' <> None -> tvInFlight tv' = true) ->
  F = (if tvInFlight tv' then vFlight v else delete (tvKey tv) (vFlight v)) ->
  (forall i o, tvOperations tv !! i = Some o -> o ∈ vQueue v i -> tvInFlight tv' = true /\ tvWorker tv' = None) ->
  (tvInFlight tv' = true -> tvWorker tv' = None -> forall i o, tvOperations tv !! i = Some o -> o ∉ U' -> o ∈ vQueue v i) ->
  (forall o, o ∈ U' -> forall i, o ∉ vQueue v i) ->
  (forall o, o ∈ U -> o ∉ U' -> exists i, tvOperations tv !! i = Some o) ->
  life D U' G R (setTask t tv' v <| vWorkers := W |> <| vFlight := F |>).
Proof.
  intros L Ht Hf Eops Ekey HW Hworker Hexec HF Hq Hqd HU' HU.
  assert (forall o ov tv0, attached v o ov tv0 -> exists ov0 tv1,
    attached (setTask t tv' v <| vWorkers := W |> <| vFlight := F |>) o ov0 tv1 /\ ov0 = ov /\
      (ovTask ov = t -> tv1 = tv') /\ (ovTask ov <> t -> tv1 = tv0)) as Hatt.
  { intros o ov tv0 Ha. exists ov, (if decide (ovTask ov = t) then tv' else tv0).
    split; [by apply (attached_setTask v t tv tv')|]. split; [done|]. by case_decide. }
  split; simpl.
  - exact HW.
  - intros t0 tv0 H. apply lookup_insert_Some in H as [[<- _]|[_ H]]; by eapply life_ids_tasks.
  - apply L.
  - exact Hworker.
  - intros t0 tv0 H. apply lookup_insert_Some in H as [[<- <-]|[_ H]]; [done|by eapply life_executing].
  - intros k t0 Hk.
    assert (vFlight v !! k = Some t0 /\ (t0 = t -> tvInFlight tv' = true)) as [Hk' Hn].
    { unfold constant in Hk. subst F. destruct (tvInFlight tv') eqn:Ei; [done|]. apply lookup_delete_Some in Hk as [Hne Hk]. split; [done|].
      intros ->. destruct (life_flight _ _ _ _ _ L k t Hk) as (tv0&H0&E0&_). congruence. }
    destruct (life_flight _ _ _ _ _ L k t0 Hk') as (tv0&H0&E0&Hi).
    destruct (decide (t0 = t)) as [->|Hne].
    + exists tv'. rewrite lookup_insert_eq. split; [done|]. split; [|by apply Hn]. congruence.
    + exists tv0. by rewrite lookup_insert_ne.
  - intros t0 tv0 H Hi Hk. apply lookup_insert_Some in H as [[<- <-]|[Hne H]].
    + unfold constant. subst F. rewrite Hi. rewrite Ekey. apply (life_deduplicated _ _ _ _ _ L); [done..|]. congruence.
    + pose proof (life_deduplicated _ _ _ _ _ L t0 tv0 H Hi Hk) as Hf0. unfold constant. subst F.
      destruct (tvInFlight tv'); [done|].
      rewrite lookup_delete_ne; [done|]. intros E1. rewrite <- E1 in Hf0, Hk.
      rewrite (life_deduplicated _ _ _ _ _ L t tv Ht Hf Hk) in Hf0. congruence.
  - intros t0 tv0 i o H. apply lookup_insert_Some in H as [[<- <-]|[_ H]]; [rewrite Eops|]; by apply L.
  - intros t0 tv0 i j o p H. apply lookup_insert_Some in H as [[<- <-]|[_ H]]; [rewrite Eops|]; by eapply life_sizeClass.
  - intros i o H. destruct (life_queue _ _ _ _ _ L i o H) as (ov&tv0&Ha&Ei&Hi&Hw).
    destruct (Hatt o ov tv0 Ha) as (ov0&tv1&Ha'&->&H1&H2). exists ov, tv1. split; [done|]. split; [done|].
    destruct (decide (ovTask ov = t)) as [Et|Hne]; [|by rewrite (H2 Hne)].
    rewrite (H1 Et). destruct Ha as (_&Hv&Ho). rewrite Et, Ht in Hv. injection Hv as <-. rewrite Ei in Ho.
    by apply (Hq i o).
  - apply L.
  - intros t0 tv0 i o H Hi Hw Ho Hu. apply lookup_insert_Some in H as [[<- <-]|[Hne H]].
    + apply Hqd; [done..| |done]. by rewrite <- Eops.
    + apply (life_queued _ _ _ _ _ L t0 tv0); [done..|]. intros Hu0. destruct (HU o Hu0 Hu) as [j Hj].
      destruct (life_operations _ _ _ _ _ L t tv j o Ht Hj) as (ov&Ho1&E1&_).
      destruct (life_operations _ _ _ _ _ L t0 tv0 i o H Ho) as (ov2&Ho2&E2&_). congruence.
  - intros i o Ho. by apply HU'.
  - intros t0 tv0 H Hd Hi. apply lookup_insert_Some in H as [[<- <-]|[_ H]].
    + rewrite Eops. by apply (life_nonempty _ _ _ _ _ L t tv).
    + by apply (life_nonempty _ _ _ _ _ L t0 tv0).
  - intros o Ho. destruct (life_cleanup _ _ _ _ _ L o Ho) as (ov&tv0&Ha&H1&H2).
    destruct (Hatt o ov tv0 Ha) as (ov0&tv1&Ha'&->&_&_). eauto 10.
  - apply L.
  - intros o ov tv0 Ha. apply (attached_setTask_inv v t tv tv' Ht Eops) in Ha as (tv1&Ha&_).
    by apply (life_noLeak _ _ _ _ _ L o ov tv1).
  - apply L.
  - intros n o Ho. destruct (life_names _ _ _ _ _ L n o Ho) as (ov&tv0&Ha&H1).
    destruct (Hatt o ov tv0 Ha) as (ov0&tv1&Ha'&->&_&_). eauto 10.
  - intros o Ho. destruct (life_removing _ _ _ _ _ L o Ho) as (H1&H2&ov&tv0&Ha&H3).
    destruct (Hatt o ov tv0 Ha) as (ov0&tv1&Ha'&->&_&_). eauto 10.
  - intros o ov Ho Hw. destruct (life_waited _ _ _ _ _ L o ov Ho Hw) as [tv0 Ha].
    destruct (Hatt o ov tv0 Ha) as (ov0&tv1&Ha'&->&_&_). eauto 10.
Qed.

Lemma stable_setTask X v t tv tv' W F :
  vTasks v !! t = Some tv -> tvInFlight tv = true ->
  tvOperations tv' = tvOperations tv -> tvKey tv' = tvKey tv ->
  stable X v (setTask t tv' v <| vWorkers := W |> <| vFlight := F |>).
Proof.
  intros Ht Hf Eops Ekey. split; simpl.
  - intros t0 tv0 H. destruct (decide (t0 = t)) as [->|Hne].
    + exists tv'. rewrite lookup_insert_eq. rewrite Ht in H. injection H as <-. split; [done|]. split; [done|]. congruence.
    + exists tv0. by rewrite lookup_insert_ne.
  - eauto 10.
  - intros o ov tv0 _ Ha Hw. eexists ov, _. split; [exact (attached_setTask v t tv tv' Ht Eops o ov tv0 Ha)|lia].
Qed.

(** ** Changes of one operation *)

Definition setOperation (o : nat) (ov : operationView) (v : view) : view := v <| vOperations ::= <[o := ov]> |>.

Section setOperation.
Context (v : view) (o : nat) (ov ov' : operationView).
Context (Ho : vOperations v !! o = Some ov).
Context (Et : ovTask ov' = ovTask ov) (Ei : ovInvocation ov' = ovInvocation ov).

Lemma attached_setOperation p pv tv :
  attached v p pv tv -> attached (setOperation o ov' v) p (if decide (p = o) then ov' else pv) tv.
Proof.
  intros (H1&H2&H3). unfold attached, setOperation. simpl. case_decide as E1.
  - subst. rewrite lookup_insert_eq. split; [done|]. rewrite Ho in H1. injection H1 as <-. by rewrite Et, Ei.
  - by rewrite lookup_insert_ne.
Qed.

Lemma attached_setOperation_inv p pv tv :
  attached (setOperation o ov' v) p pv tv ->
  p = o /\ pv = ov' /\ attached v o ov tv \/ p <> o /\ attached v p pv tv.
Proof.
  unfold attached, setOperation. simpl. intros (H1&H2&H3). apply lookup_insert_Some in H1 as [[<- <-]|[Hne H1]].
  - left. by rewrite <- Et, <- Ei.
  - by right.
Qed.
End setOperation.

(** The waiters of an operation change, or whether it may be cleaned up. *)
Lemma life_setOperation D U G G' R v o ov ov' C :
  life D U G R v -> vOperations v !! o = Some ov ->
  ovTask ov' = ovTask ov -> ovInvocation ov' = ovInvocation ov -> ovName ov' = ovName ov -> 0 <= ovWaiters ov' ->
  NoDup C -> (forall p, p <> o -> p ∈ C <-> p ∈ vCleanup v) ->
  (o ∈ C -> ovWaiters ov' = 0 /\ ovMayExist ov' = false /\ exists tv, attached v o ov tv) ->
  (o ∉ G' -> (exists tv, attached v o ov tv) -> ovWaiters ov' = 0 -> ovMayExist ov' = false -> o ∈ C) ->
  (forall p, p <> o -> p ∈ G -> p ∈ G') -> o ∉ R -> (0 < ovWaiters ov' -> exists tv, attached v o ov tv) ->
  life D U G' R (setOperation o ov' v <| vCleanup := C |>).
Proof.
  intros L Ho Et Ei En Hw HC HCv HCo HG HG' HR Hwt.
  pose proof (fun p pv tv => attached_setOperation v o ov ov' Ho Et Ei p pv tv) as Hatt.
  split; simpl; unfold constant; try apply L.
  - intros p pv H. apply lookup_insert_Some in H as [[<- <-]|[_ H]]; [|by apply L].
    rewrite Ei. by apply (life_ids_operations _ _ _ _ _ L).
  - intros t tv i p H1 H2. destruct (life_operations _ _ _ _ _ L t tv i p H1 H2) as (pv&Hp&E1&E2).
    destruct (decide (p = o)) as [->|Hne].
    + exists ov'. rewrite lookup_insert_eq. rewrite Ho in Hp. injection Hp as ->. split_and!; congruence.
    + exists pv. by rewrite lookup_insert_ne.
  - intros i p Hp. destruct (life_queue _ _ _ _ _ L i p Hp) as (pv&tv&Ha&E1&H1&H2). eexists _, tv.
    split; [exact (Hatt p pv tv Ha)|]. split; [|done]. case_decide as Ep; [|done]. subst p.
    destruct Ha as (Ha&_). rewrite Ho in Ha. injection Ha as <-. congruence.
  - intros p Hp. destruct (decide (p = o)) as [->|Hne].
    + destruct (HCo Hp) as (H1&H2&tv&Ha). exists ov', tv. split; [|done].
      pose proof (Hatt o ov tv Ha) as Ha'. by rewrite decide_True in Ha'.
    + apply HCv in Hp; [|done]. destruct (life_cleanup _ _ _ _ _ L p Hp) as (pv&tv&Ha&H1&H2). exists pv, tv.
      split; [|done]. pose proof (Hatt p pv tv Ha) as Ha'. by rewrite decide_False in Ha'.
  - done.
  - intros p pv tv Ha Hp Hr H1 H2. change (attached (setOperation o ov' v) p pv tv) in Ha.
    apply (attached_setOperation_inv v o ov ov' Ho Et Ei) in Ha as [(->&->&Ha)|[Hne Ha]].
    + apply HG; eauto.
    + apply HCv; [done|]. apply (life_noLeak _ _ _ _ _ L p pv tv); [done| |done..]. intros Hg. by apply Hp, HG'.
  - intros p pv H. apply lookup_insert_Some in H as [[<- <-]|[_ H]]; [done|by apply (life_waiters _ _ _ _ _ L p)].
  - intros n p Hn. destruct (life_names _ _ _ _ _ L n p Hn) as (pv&tv&Ha&E1). eexists _, tv.
    split; [exact (Hatt p pv tv Ha)|]. case_decide as Ep; [|done]. subst p.
    destruct Ha as (Ha&_). rewrite Ho in Ha. injection Ha as <-. congruence.
  - intros p Hp. assert (p <> o) by congruence. destruct (life_removing _ _ _ _ _ L p Hp) as (H1&H2&pv&tv&Ha&H3).
    split; [by rewrite HCv|]. split; [done|]. exists pv, tv. split; [|done].
    pose proof (Hatt p pv tv Ha) as Ha'. by rewrite decide_False in Ha'.
  - intros p pv H Hp. apply lookup_insert_Some in H as [[<- <-]|[Hne H]].
    + destruct (Hwt Hp) as [tv Ha]. exists tv. pose proof (Hatt o ov tv Ha) as Ha'. by rewrite decide_True in Ha'.
    + destruct (life_waited _ _ _ _ _ L p pv H Hp) as [tv Ha]. exists tv.
      pose proof (Hatt p pv tv Ha) as Ha'. by rewrite decide_False in Ha'.
Qed.

Lemma stable_setOperation X v o ov ov' C :
  vOperations v !! o = Some ov ->
  ovTask ov' = ovTask ov -> ovInvocation ov' = ovInvocation ov -> ovName ov' = ovName ov ->
  (o ∉ X -> 0 < ovWaiters ov -> ovWaiters ov <= ovWaiters ov') ->
  stable X v (setOperation o ov' v <| vCleanup := C |>).
Proof.
  intros Ho Et Ei En Hw. split; simpl.
  - eauto 10.
  - intros p pv H. destruct (decide (p = o)) as [->|Hne].
    + exists ov'. rewrite lookup_insert_eq. rewrite Ho in H. injection H as <-. by rewrite Ei.
    + exists pv. by rewrite lookup_insert_ne.
  - intros p pv tv Hx Ha Hp. eexists _, tv. split; [exact (attached_setOperation v o ov ov' Ho Et Ei p pv tv Ha)|].
    case_decide as Ep; [|lia]. subst p. destruct Ha as (Ha&_). rewrite Ho in Ha. injection Ha as <-. by apply Hw.
Qed.

(** ** Changes of queues *)

(** Operations leave their queues. *)
Lemma life_dequeue D U G R v l Q :
  life D U G R v -> (forall i, NoDup (Q i)) -> (forall i o, o ∈ Q i <-> o ∈ vQueue v i /\ o ∉ l) ->
  life D (U ∪ list_to_set l) G R (v <| vQueue := Q |>).
Proof.
  intros L HN HQ. split; simpl; unfold constant, attached; simpl; try apply L.
  - intros i o H. apply HQ in H as [H _]. by apply (life_queue _ _ _ _ _ L).
  - done.
  - intros t tv i o Ht Hf Hw Ho HU. apply HQ. split; [|set_solver]. apply (life_queued _ _ _ _ _ L t tv i o); set_solver.
  - intros i o HU H. apply HQ in H as [H Hl]. apply elem_of_union in HU as [HU|HU]; [|set_solver].
    by apply (life_unqueued _ _ _ _ _ L i o).
Qed.

(** An operation joins its queue. *)
Lemma life_enqueue D U G R v o ov tv Q :
  life D U G R v -> attached v o ov tv -> tvInFlight tv = true -> tvWorker tv = None ->
  (forall i, o ∉ vQueue v i) ->
  (forall i, Q i ≡ₚ if decide (i = ovInvocation ov) then o :: vQueue v i else vQueue v i) ->
  life D (U ∖ {[o]}) G R (v <| vQueue := Q |>).
Proof.
  intros L Ha Hf Hw Hn HQ.
  assert (forall i p, p ∈ Q i <-> p ∈ vQueue v i \/ p = o /\ i = ovInvocation ov) as HQe.
  { intros i p. rewrite HQ. case_decide; set_solver. }
  split; simpl; unfold constant, attached; simpl; try apply L.
  - intros i p Hp. apply HQe in Hp as [Hp|[-> ->]]; [by apply (life_queue _ _ _ _ _ L)|]. eauto 10.
  - intros i. rewrite HQ. case_decide; [|apply L]. apply NoDup_cons. split; [done|apply L].
  - intros t tv0 i p Ht Hi Hw0 Hp HU. apply HQe. destruct (decide (p = o)) as [->|Hne].
    + right. split; [done|]. destruct (life_operations _ _ _ _ _ L t tv0 i o Ht Hp) as (ov0&Ho0&_&E1).
      destruct Ha as (Ho&_). congruence.
    + left. apply (life_queued _ _ _ _ _ L t tv0); set_solver.
  - intros i p HU Hp. apply HQe in Hp as [Hp|[-> _]]; [|set_solver]. apply (life_unqueued _ _ _ _ _ L i p); set_solver.
Qed.

Lemma stable_setQueue X v Q : stable X v (v <| vQueue := Q |>).
Proof. split; simpl; [eauto 10|eauto 10|]. intros o ov tv _ Ha Hw. exists ov, tv. split; [exact Ha|lia]. Qed.

(** ** New objects *)

Lemma life_newWorker D U G R v w :
  life D U G R v -> vWorkers v !! w = None -> (w < vNext v)%nat ->
  life D U G R (v <| vWorkers ::= <[w := None]> |>).
Proof.
  intros L Hw Hn. split; try apply L; simpl.
  - intros w' o H. apply lookup_insert_Some in H as [[<- _]|[_ H]]; [done|by apply (life_ids_workers _ _ _ _ _ L w' o)].
  - intros w' t. destruct (decide (w' = w)) as [->|Hne].
    + rewrite lookup_insert_eq. split; [done|]. intros H. apply (life_worker _ _ _ _ _ L) in H. congruence.
    + rewrite lookup_insert_ne by done. apply (life_worker _ _ _ _ _ L).
Qed.

(** A task without operations.  [k]: its key, if it is deduplicated. *)
Lemma life_newTask D U G R v t k a :
  life D U G R v -> vTasks v !! t = None -> (t < vNext v)%nat -> vFlight v !! default zeroKey k = None \/ k = None ->
  life (D ∪ {[t]}) U G R (v <| vTasks ::= <[t := mkTaskView ∅ (default zeroKey k) None true a]> |>
                          <| vFlight ::= match k with Some k => <[k := t]> | None => id end |>).
Proof.
  intros L Ht Hn Hk.
  assert (forall o ov tv, attached v o ov tv -> attached (v <| vTasks ::= <[t := mkTaskView ∅ (default zeroKey k) None true a]> |>
                          <| vFlight ::= match k with Some k => <[k := t]> | None => id end |>) o ov tv) as Hatt.
  { intros o ov tv (H1&H2&H3). split; [done|]. split; [|done]. simpl. rewrite lookup_insert_ne; [done|congruence]. }
  split; simpl; try apply L.
  - intros t0 tv H. apply lookup_insert_Some in H as [[<- _]|[_ H]]; [done|by apply (life_ids_tasks _ _ _ _ _ L t0 tv)].
  - intros w t0. rewrite (life_worker _ _ _ _ _ L). split; intros (tv&H&E1); exists tv.
    + split; [|done]. rewrite lookup_insert_ne; [done|congruence].
    + apply lookup_insert_Some in H as [[<- <-]|[_ H]]; [done|by split].
  - intros t0 tv H. apply lookup_insert_Some in H as [[<- <-]|[_ H]]; [done|by apply (life_executing _ _ _ _ _ L t0)].
  - intros k0 t0 H. assert (vFlight v !! k0 = Some t0 \/ k = Some k0 /\ t0 = t) as [H0|[-> ->]].
    { destruct k as [k|]; [|by left]. apply lookup_insert_Some in H as [[<- <-]|[_ H]]; [by right|by left]. }
    + destruct (life_flight _ _ _ _ _ L k0 t0 H0) as (tv&Ht0&E1). exists tv. split; [|done].
      rewrite lookup_insert_ne; [done|congruence].
    + eexists. rewrite lookup_insert_eq. done.
  - intros t0 tv H Hf Hz. apply lookup_insert_Some in H as [[<- <-]|[Hne H]]; simpl in *.
    + destruct k as [k|]; [|done]. simpl. by rewrite lookup_insert_eq.
    + pose proof (life_deduplicated _ _ _ _ _ L t0 tv H Hf Hz) as H0. destruct k as [k|]; [|done]. simpl in *.
      rewrite lookup_insert_ne; [done|]. intros ->. destruct Hk; congruence.
  - intros t0 tv i o H. apply lookup_insert_Some in H as [[<- <-]|[_ H]]; [done|by apply (life_operations _ _ _ _ _ L)].
  - intros t0 tv i j o p H. apply lookup_insert_Some in H as [[<- <-]|[_ H]]; [done|by apply (life_sizeClass _ _ _ _ _ L t0)].
  - intros i o Ho. destruct (life_queue _ _ _ _ _ L i o Ho) as (ov&tv&Ha&H1). exists ov, tv. auto.
  - intros t0 tv i o H. apply lookup_insert_Some in H as [[<- <-]|[_ H]]; [done|by apply (life_queued _ _ _ _ _ L t0)].
  - intros t0 tv H. apply lookup_insert_Some in H as [[<- <-]|[_ H]]; [set_solver|].
    intros Hd. apply (life_nonempty _ _ _ _ _ L t0); [done|set_solver].
  - intros o Ho. destruct (life_cleanup _ _ _ _ _ L o Ho) as (ov&tv&Ha&H1). exists ov, tv. auto.
  - intros o ov tv (H1&H2&H3). simpl in *. apply lookup_insert_Some in H2 as [[E1 <-]|[_ H2]]; [done|].
    by apply (life_noLeak _ _ _ _ _ L o ov tv).
  - intros n o Ho. destruct (life_names _ _ _ _ _ L n o Ho) as (ov&tv&Ha&H1). exists ov, tv. auto.
  - intros o Ho. destruct (life_removing _ _ _ _ _ L o Ho) as (H1&H2&ov&tv&Ha&H3). eauto 10.
  - intros o ov Ho Hw. destruct (life_waited _ _ _ _ _ L o ov Ho Hw) as [tv Ha]. eauto.
Qed.

Lemma stable_newTask X v t tv F :
  vTasks v !! t = None -> stable X v (v <| vTasks ::= <[t := tv]> |> <| vFlight := F |>).
Proof.
  intros Ht. split; simpl.
  - intros t0 tv0 H. exists tv0. rewrite lookup_insert_ne; [done|congruence].
  - eauto 10.
  - intros o ov tv0 _ (H1&H2&H3) Hw. exists ov, tv0. split; [|lia]. split; [done|]. split; [|done]. simpl.
    rewrite lookup_insert_ne; [done|congruence].
Qed.

(** Background operations may exist without anybody that waits for them. *)
Lemma life_mayExist D U G R v o ov :
  life D U (G ∪ {[o]}) R v -> vOperations v !! o = Some ov -> ovMayExist ov = true -> life D U G R v.
Proof.
  intros L Ho Hm. split; try apply L. intros p pv tv Ha Hg Hr Hw Hp.
  apply (life_noLeak _ _ _ _ _ L p pv tv); [done| |done..]. intros H. apply elem_of_union in H as [H|H]; [done|].
  apply elem_of_singleton in H as ->. destruct Ha as (Ha&_). congruence.
Qed.

(** An operation of a task that has a worker does not need to be queued. *)
Lemma life_assigned D U G R v o ov tv :
  life D (U ∪ {[o]}) G R v -> attached v o ov tv -> tvWorker tv <> None -> life D U G R v.
Proof.
  intros L Ha Hw. split; try apply L.
  - intros t tv0 i p Ht Hf Hw0 Hp Hu. apply (life_queued _ _ _ _ _ L t tv0); [done..|]. intros H.
    apply elem_of_union in H as [H|H]; [done|]. apply elem_of_singleton in H as ->.
    destruct (life_operations _ _ _ _ _ L t tv0 i o Ht Hp) as (ov'&B1&B2&_). destruct Ha as (A1&A2&_). congruence.
  - intros i p Hp. apply (life_unqueued _ _ _ _ _ L). set_solver.
Qed.

(** ** New operations *)

Definition addOperation (o : nat) (ov : operationView) (tv : taskView) (v : view) : view :=
  v <| vOperations ::= <[o := ov]> |>
    <| vTasks ::= <[ovTask ov := tv <| tvOperations ::= <[ovInvocation ov := o]> |>]> |>
    <| vNames ::= <[ovName ov := o]> |>.

Section addOperation.
Context (v : view) (o : nat) (ov : operationView) (tv : taskView).
Context (Ho : vOperations v !! o = None) (Ht : vTasks v !! ovTask ov = Some tv).
Context (Hi : tvOperations tv !! ovInvocation ov = None).

Lemma attached_addOperation p pv tv0 :
  attached v p pv tv0 -> exists tv1, attached (addOperation o ov tv v) p pv tv1 /\
    tvInFlight tv1 = tvInFlight tv0 /\ tvWorker tv1 = tvWorker tv0.
Proof.
  intros (H1&H2&H3). assert (p <> o) by congruence. destruct (decide (ovTask pv = ovTask ov)) as [E1|Hne].
  - eexists. split; [|split].
    + split; [simpl; by rewrite lookup_insert_ne|]. split; [simpl; rewrite E1; by rewrite lookup_insert_eq|].
      simpl. rewrite E1, Ht in H2. injection H2 as <-. rewrite lookup_insert_ne; [done|congruence].
    + rewrite E1, Ht in H2. by injection H2 as <-.
    + rewrite E1, Ht in H2. by injection H2 as <-.
  - exists tv0. split; [|done]. split; [simpl; by rewrite lookup_insert_ne|]. split; [|done]. simpl.
    by rewrite lookup_insert_ne.
Qed.

Lemma attached_addOperation_new :
  attached (addOperation o ov tv v) o ov (tv <| tvOperations ::= <[ovInvocation ov := o]> |>).
Proof. unfold attached, addOperation. simpl. by rewrite !lookup_insert_eq. Qed.

Lemma attached_addOperation_inv p pv tv1 :
  attached (addOperation o ov tv v) p pv tv1 -> p = o /\ pv = ov \/ p <> o /\ exists tv0, attached v p pv tv0.
Proof.
  unfold attached, addOperation. simpl. intros (H1&H2&H3).
  apply lookup_insert_Some in H1 as [[<- <-]|[Hne H1]]; [by left|]. right. split; [done|].
  apply lookup_insert_Some in H2 as [[E1 <-]|[Hne2 H2]]; [|by exists tv1]. exists tv. rewrite <- E1.
  split; [done|]. split; [done|]. simpl in H3. apply lookup_insert_Some in H3 as [[_ E2]|[_ H3]]; [congruence|done].
Qed.

Lemma life_addOperation D U G R :
  life D U G R v -> (o < vNext v)%nat -> ((ovInvocation ov).1 < vNext v)%nat -> ovWaiters ov = 0 ->
  (forall i p, tvOperations tv !! i = Some p -> i.1 = (ovInvocation ov).1) ->
  life (D ∖ {[ovTask ov]}) (U ∪ {[o]}) (G ∪ {[o]}) R (addOperation o ov tv v).
Proof.
  intros L Hno Hni Hw Hsc. pose proof attached_addOperation as Hatt.
  split; simpl; try apply L.
  - intros t0 tv0 H. apply lookup_insert_Some in H as [[<- _]|[_ H]]; by eapply life_ids_tasks.
  - intros p pv H. apply lookup_insert_Some in H as [[<- <-]|[_ H]]; [done|by apply (life_ids_operations _ _ _ _ _ L)].
  - intros w t0. rewrite (life_worker _ _ _ _ _ L). split; intros (tv0&H&E1).
    + destruct (decide (t0 = ovTask ov)) as [->|Hne].
      { eexists. rewrite lookup_insert_eq. split; [done|]. rewrite Ht in H. by injection H as <-. }
      exists tv0. by rewrite lookup_insert_ne.
    + apply lookup_insert_Some in H as [[<- <-]|[_ H]]; [by exists tv|by exists tv0].
  - intros t0 tv0 H. apply lookup_insert_Some in H as [[<- <-]|[_ H]]; simpl; by eapply life_executing.
  - intros k t0 H. destruct (life_flight _ _ _ _ _ L k t0 H) as (tv0&Ht0&E1&E2).
    destruct (decide (t0 = ovTask ov)) as [->|Hne].
    { eexists. rewrite lookup_insert_eq. split; [done|]. rewrite Ht in Ht0. by injection Ht0 as <-. }
    exists tv0. by rewrite lookup_insert_ne.
  - intros t0 tv0 H. apply lookup_insert_Some in H as [[<- <-]|[_ H]]; simpl; by eapply (life_deduplicated _ _ _ _ _ L).
  - intros t0 tv0 i p H Hp. destruct (decide (p = o)) as [->|Hpo].
    + assert (t0 = ovTask ov /\ i = ovInvocation ov) as [-> ->].
      { apply lookup_insert_Some in H as [[<- <-]|[_ H]]; simpl in *.
        - apply lookup_insert_Some in Hp as [[<- _]|[_ Hp]]; [done|].
          destruct (life_operations _ _ _ _ _ L _ _ _ _ Ht Hp) as (pv&Hpv&_). congruence.
        - destruct (life_operations _ _ _ _ _ L _ _ _ _ H Hp) as (pv&Hpv&_). congruence. }
      exists ov. by rewrite lookup_insert_eq.
    + rewrite lookup_insert_ne by done. apply lookup_insert_Some in H as [[<- <-]|[_ H]]; simpl in *.
      * apply lookup_insert_Some in Hp as [[_ ?]|[_ Hp]]; [congruence|]. by apply (life_operations _ _ _ _ _ L _ tv).
      * by apply (life_operations _ _ _ _ _ L _ tv0).
  - intros t0 tv0 i j p q H. apply lookup_insert_Some in H as [[<- <-]|[_ H]]; simpl; [|by eapply life_sizeClass].
    intros Hp Hq. apply lookup_insert_Some in Hp as [[<- _]|[_ Hp]], Hq as [[<- _]|[_ Hq]]; [done|symmetry; by eapply Hsc|by eapply Hsc|by eapply life_sizeClass].
  - intros i p Hp. destruct (life_queue _ _ _ _ _ L i p Hp) as (pv&tv0&Ha&E1&E2&E3).
    destruct (Hatt p pv tv0 Ha) as (tv1&Ha1&F1&F2). exists pv, tv1. split; [done|]. split; [done|]. split; congruence.
  - intros t0 tv0 i p H Hf Hwk Hp HU. apply lookup_insert_Some in H as [[<- <-]|[_ H]]; simpl in *.
    + apply lookup_insert_Some in Hp as [[_ <-]|[_ Hp]]; [set_solver|]. apply (life_queued _ _ _ _ _ L (ovTask ov) tv); set_solver.
    + apply (life_queued _ _ _ _ _ L t0 tv0); set_solver.
  - intros i p HU Hp. apply elem_of_union in HU as [HU|HU]; [by eapply (life_unqueued _ _ _ _ _ L)|].
    apply elem_of_singleton in HU as ->. destruct (life_queue _ _ _ _ _ L i o Hp) as (pv&tv0&(H&_)&_). congruence.
  - intros t0 tv0 H Hd Hf. apply lookup_insert_Some in H as [[<- <-]|[Hne H]]; simpl; [by apply insert_non_empty|].
    apply (life_nonempty _ _ _ _ _ L t0); [done| |done]. intros Hd'. apply Hd. apply elem_of_difference.
    split; [done|]. apply not_elem_of_singleton. congruence.
  - intros p Hp. destruct (life_cleanup _ _ _ _ _ L p Hp) as (pv&tv0&Ha&E1).
    destruct (Hatt p pv tv0 Ha) as (tv1&Ha1&_). exists pv, tv1. auto.
  - intros p pv tv1 Ha Hg. apply attached_addOperation_inv in Ha as [[-> ->]|[Hne [tv0 Ha]]]; [set_solver|].
    apply (life_noLeak _ _ _ _ _ L p pv tv0); [done|set_solver].
  - intros p pv H. apply lookup_insert_Some in H as [[<- <-]|[_ H]]; [lia|by apply (life_waiters _ _ _ _ _ L p)].
  - intros n p H. apply lookup_insert_Some in H as [[<- <-]|[Hne H]].
    + eexists _, _. split; [exact attached_addOperation_new|done].
    + destruct (life_names _ _ _ _ _ L n p H) as (pv&tv0&Ha&E1).
      destruct (Hatt p pv tv0 Ha) as (tv1&Ha1&_). exists pv, tv1. auto.
  - intros p Hp. destruct (life_removing _ _ _ _ _ L p Hp) as (H1&H2&pv&tv0&Ha&H3).
    destruct (Hatt p pv tv0 Ha) as (tv1&Ha1&_). split; [done|]. split; [|by exists pv, tv1].
    intros n H. apply lookup_insert_Some in H as [[_ <-]|[_ H]]; [|by apply (H2 n)].
    destruct Ha as (Ha&_). congruence.
  - intros p pv H Hp. apply lookup_insert_Some in H as [[<- <-]|[Hne H]]; [lia|].
    destruct (life_waited _ _ _ _ _ L p pv H Hp) as [tv0 Ha]. destruct (Hatt p pv tv0 Ha) as (tv1&Ha1&_). by exists tv1.
Qed.

Lemma stable_addOperation X : stable X v (addOperation o ov tv v).
Proof.
  split; simpl.
  - intros t0 tv0 H. destruct (decide (t0 = ovTask ov)) as [->|Hne].
    + eexists. rewrite lookup_insert_eq. split; [done|]. simpl. rewrite Ht in H. by injection H as <-.
    + exists tv0. by rewrite lookup_insert_ne.
  - intros p pv H. exists pv. rewrite lookup_insert_ne; [done|congruence].
  - intros p pv tv0 _ Ha Hp. destruct (attached_addOperation p pv tv0 Ha) as (tv1&Ha1&_). exists pv, tv1. split; [done|lia].
Qed.
End addOperation.

(** ** Removal of operations *)

Lemma life_forgetName D U G R v n : life D U G R v -> life D U G R (v <| vNames ::= delete n |>).
Proof.
  intros L. split; try apply L. 
  - simpl. intros m o H. apply lookup_delete_Some in H as [_ H]. by apply (life_names _ _ _ _ _ L m).
  - intros o Ho. destruct (life_removing _ _ _ _ _ L o Ho) as (H1&H2&H3). split; [done|]. split; [|done]. simpl.
    intros m H. apply lookup_delete_Some in H as [_ H]. by apply (H2 m).
Qed.

Lemma stable_forgetName X v n : stable X v (v <| vNames ::= delete n |>).
Proof. split; simpl; [eauto 10|eauto 10|]. intros o ov tv _ Ha Hw. exists ov, tv. split; [exact Ha|lia]. Qed.

(** An operation leaves the cleanup queue to be removed. *)
Lemma life_beginRemoval D U G R v o ov C :
  life D U G R v -> vCleanup v ≡ₚ o :: C -> vOperations v !! o = Some ov ->
  life D U G (R ∪ {[o]}) (v <| vCleanup := C |> <| vNames ::= delete (ovName ov) |>).
Proof.
  intros L HC Ho. assert (NoDup (o :: C)) as Hnd by (rewrite <- HC; apply L). apply NoDup_cons in Hnd as [Hn Hnd].
  assert (forall p, p ∈ C -> p ∈ vCleanup v) as Hin by (intros p; rewrite HC; set_solver).
  assert (forall n p, delete (ovName ov) (vNames v) !! n = Some p -> p <> o /\ vNames v !! n = Some p) as Hnames.
  { intros n p H. apply lookup_delete_Some in H as [Hne H]. split; [|done]. intros ->.
    destruct (life_names _ _ _ _ _ L n o H) as (ov'&tv&(H1&_)&E1). congruence. }
  split; simpl; unfold constant; try apply L.
  - intros p Hp. by apply (life_cleanup _ _ _ _ _ L), Hin.
  - done.
  - intros p pv tv Ha Hg Hr Hw Hm. assert (p ∈ vCleanup v) as Hp by (apply (life_noLeak _ _ _ _ _ L p pv tv); set_solver).
    rewrite HC in Hp. set_solver.
  - intros n p H. apply Hnames in H as [_ H]. by apply (life_names _ _ _ _ _ L).
  - intros p Hp. destruct (decide (p = o)) as [->|Hne].
    + split; [done|]. split; [|apply (life_cleanup _ _ _ _ _ L); rewrite HC; set_solver].
      intros n H. by apply Hnames in H as [? _].
    + destruct (life_removing _ _ _ _ _ L p) as (H1&H2&H3); [set_solver|]. split; [naive_solver|]. split; [|done].
      intros n H. apply Hnames in H as [_ H]. by apply (H2 n).
Qed.

Lemma stable_beginRemoval X v C n : stable X v (v <| vCleanup := C |> <| vNames ::= delete n |>).
Proof. split; simpl; [eauto 10|eauto 10|]. intros o ov tv _ Ha Hw. exists ov, tv. split; [exact Ha|lia]. Qed.

Definition detach (ov : operationView) (tv : taskView) (v : view) : view :=
  setTask (ovTask ov) (tv <| tvOperations ::= delete (ovInvocation ov) |>) v.

Section detach.
Context (v : view) (o : nat) (ov : operationView) (tv : taskView).
Context (Ha : attached v o ov tv).

Lemma attached_detach p pv tv0 :
  attached v p pv tv0 -> p <> o -> exists tv1, attached (detach ov tv v) p pv tv1 /\
    tvInFlight tv1 = tvInFlight tv0 /\ tvWorker tv1 = tvWorker tv0.
Proof.
  intros (H1&H2&H3) Hne. destruct Ha as (A1&A2&A3). destruct (decide (ovTask pv = ovTask ov)) as [E1|Hne1].
  - rewrite E1, A2 in H2. injection H2 as <-.
    exists (tv <| tvOperations ::= delete (ovInvocation ov) |>). split; [|done]. split; [done|].
    split; [simpl; rewrite E1; by rewrite lookup_insert_eq|]. change (delete (ovInvocation ov) (tvOperations tv) !! ovInvocation pv = Some p).
    rewrite lookup_delete_ne; [done|congruence].
  - exists tv0. split; [|done]. split; [done|]. split; [|done]. simpl. by rewrite lookup_insert_ne.
Qed.

Lemma attached_detach_inv D U G R p pv tv1 :
  life D U G R v -> attached (detach ov tv v) p pv tv1 -> p <> o /\ exists tv0, attached v p pv tv0.
Proof.
  intros L. unfold attached, detach. simpl. intros (H1&H2&H3). destruct Ha as (A1&A2&A3).
  change (vOperations v !! p = Some pv) in H1. apply lookup_insert_Some in H2 as [[E1 <-]|[Hne2 H2]].
  - simpl in H3. apply lookup_delete_Some in H3 as [Hne H3].
    split; [intros ->; rewrite A1 in H1; injection H1 as <-; by apply Hne|]. exists tv. split; [done|]. by rewrite <- E1.
  - split; [congruence|]. by exists tv1.
Qed.

Lemma life_detach D U G R :
  life D U G R v -> (forall i, o ∉ vQueue v i) -> o ∈ R ->
  (tvInFlight tv = true -> delete (ovInvocation ov) (tvOperations tv) <> ∅) ->
  life D (U ∖ {[o]}) G (R ∖ {[o]}) (detach ov tv v).
Proof.
  intros L Hq Hr Hne. pose proof attached_detach as Hatt. pose proof Ha as (A1&A2&A3).
  destruct (life_removing _ _ _ _ _ L o Hr) as (Hc&Hnm&ov'&tv'&(B1&_)&Hw&_).
  rewrite A1 in B1. injection B1 as <-.
  split; simpl; try apply L.
  - intros t0 tv0 H. apply lookup_insert_Some in H as [[<- _]|[_ H]]; by eapply life_ids_tasks.
  - intros w t0. rewrite (life_worker _ _ _ _ _ L). split; intros (tv0&H&E1).
    + destruct (decide (t0 = ovTask ov)) as [->|Hne'].
      { eexists. rewrite lookup_insert_eq. split; [done|]. rewrite A2 in H. by injection H as <-. }
      exists tv0. by rewrite lookup_insert_ne.
    + apply lookup_insert_Some in H as [[<- <-]|[_ H]]; [by exists tv|by exists tv0].
  - intros t0 tv0 H. apply lookup_insert_Some in H as [[<- <-]|[_ H]]; simpl; by eapply life_executing.
  - intros k t0 H. destruct (life_flight _ _ _ _ _ L k t0 H) as (tv0&Ht0&E1&E2).
    destruct (decide (t0 = ovTask ov)) as [->|Hne'].
    { eexists. rewrite lookup_insert_eq. split; [done|]. rewrite A2 in Ht0. by injection Ht0 as <-. }
    exists tv0. by rewrite lookup_insert_ne.
  - intros t0 tv0 H. apply lookup_insert_Some in H as [[<- <-]|[_ H]]; simpl; by eapply (life_deduplicated _ _ _ _ _ L).
  - intros t0 tv0 i p H Hp. apply lookup_insert_Some in H as [[<- <-]|[_ H]]; [|by eapply (life_operations _ _ _ _ _ L)].
    simpl in Hp. apply lookup_delete_Some in Hp as [_ Hp]. by eapply (life_operations _ _ _ _ _ L).
  - intros t0 tv0 i j p q H. apply lookup_insert_Some in H as [[<- <-]|[_ H]]; simpl; [|by eapply life_sizeClass].
    intros Hp Hq'. apply lookup_delete_Some in Hp as [_ Hp], Hq' as [_ Hq']. by eapply life_sizeClass.
  - intros i p Hp. assert (p <> o) by (intros ->; by eapply Hq).
    destruct (life_queue _ _ _ _ _ L i p Hp) as (pv&tv0&Hpa&E1&E2&E3).
    destruct (Hatt p pv tv0 Hpa) as (tv1&Ha1&F1&F2); [done|]. exists pv, tv1. split; [done|]. split; [done|]. split; congruence.
  - intros t0 tv0 i p H Hf Hwk Hp HU. destruct (decide (p = o)) as [->|Hpo].
    + exfalso. apply lookup_insert_Some in H as [[<- <-]|[Hne' H]]; simpl in *.
      * apply lookup_delete_Some in Hp as [Hne' Hp].
        destruct (life_operations _ _ _ _ _ L _ _ _ _ A2 Hp) as (pv&Hpv&_&E1). congruence.
      * destruct (life_operations _ _ _ _ _ L _ _ _ _ H Hp) as (pv&Hpv&E1&_). congruence.
    + apply lookup_insert_Some in H as [[<- <-]|[_ H]]; simpl in *.
      * apply lookup_delete_Some in Hp as [_ Hp]. apply (life_queued _ _ _ _ _ L (ovTask ov) tv); set_solver.
      * apply (life_queued _ _ _ _ _ L t0 tv0); set_solver.
  - intros i p HU. apply (life_unqueued _ _ _ _ _ L). set_solver.
  - intros t0 tv0 H Hd Hf. apply lookup_insert_Some in H as [[<- <-]|[_ H]]; simpl; [by apply Hne|].
    by apply (life_nonempty _ _ _ _ _ L t0).
  - intros p Hp. assert (p <> o) by (by intros ->).
    destruct (life_cleanup _ _ _ _ _ L p Hp) as (pv&tv0&Hpa&E1).
    destruct (Hatt p pv tv0 Hpa) as (tv1&Ha1&_); [done|]. exists pv, tv1. auto.
  - intros p pv tv1 Hpa Hg. apply (attached_detach_inv D U G R) in Hpa as [Hne' [tv0 Hpa]]; [|done].
    intros Hpr. apply (life_noLeak _ _ _ _ _ L p pv tv0); [done..|]. intros Hr'. apply Hpr, elem_of_difference.
    split; [done|]. by apply not_elem_of_singleton.
  - intros n p H. assert (p <> o) by (intros ->; by eapply Hnm).
    destruct (life_names _ _ _ _ _ L n p H) as (pv&tv0&Hpa&E1).
    destruct (Hatt p pv tv0 Hpa) as (tv1&Ha1&_); [done|]. exists pv, tv1. auto.
  - intros p Hp. apply elem_of_difference in Hp as [Hp Hpo].
    destruct (life_removing _ _ _ _ _ L p Hp) as (H1&H2&pv&tv0&Hpa&H3).
    destruct (Hatt p pv tv0 Hpa) as (tv1&Ha1&_); [set_solver|]. split; [done|]. split; [done|]. by exists pv, tv1.
  - intros p pv H Hp. change (vOperations v !! p = Some pv) in H. assert (p <> o) by (intros ->; rewrite A1 in H; injection H as <-; lia).
    destruct (life_waited _ _ _ _ _ L p pv H Hp) as [tv0 Hpa]. destruct (Hatt p pv tv0 Hpa) as (tv1&Ha1&_); [done|]. by exists tv1.
Qed.

Lemma stable_detach X : o ∈ X \/ ovWaiters ov <= 0 -> stable X v (detach ov tv v).
Proof.
  intros Hw. pose proof attached_detach as Hatt. destruct Ha as (A1&A2&A3). split; simpl.
  - intros t0 tv0 H. destruct (decide (t0 = ovTask ov)) as [->|Hne].
    + eexists. rewrite lookup_insert_eq. split; [done|]. rewrite A2 in H. by injection H as <-.
    + exists tv0. by rewrite lookup_insert_ne.
  - eauto 10.
  - intros p pv tv0 Hx Hpa Hp. assert (p <> o).
    { intros ->. destruct Hpa as (Hpa&_). rewrite A1 in Hpa. injection Hpa as <-. destruct Hw; [done|lia]. }
    destruct (Hatt p pv tv0 Hpa) as (tv1&Ha1&_); [done|]. exists pv, tv1. split; [done|lia].
Qed.
End detach.

(** ** Operations that move to another size class queue *)

Section move.
Context (D U G R : gset nat) (v : view) (t scq : nat) (tv : taskView).
Context (O : gmap nat operationView) (ops : gmap InvocationId nat).
Context (L : life D U G R v) (Ht : vTasks v !! t = Some tv).
Context (Hops : forall j o, ops !! j = Some o <-> exists i, tvOperations tv !! i = Some o /\ j = (scq, i.2)).
Context (HO : forall i o ov, tvOperations tv !! i = Some o -> vOperations v !! o = Some ov ->
  O !! o = Some (ov <| ovInvocation := (scq, i.2) |>)).
Context (HO' : forall o, (forall i, tvOperations tv !! i <> Some o) -> O !! o = vOperations v !! o).

Definition moved : view := setTask t (tv <| tvOperations := ops |>) v <| vOperations := O |>.

Lemma moved_operation o ov : vOperations v !! o = Some ov ->
  (exists i, tvOperations tv !! i = Some o /\ ovTask ov = t /\ ovInvocation ov = i /\
     O !! o = Some (ov <| ovInvocation := (scq, i.2) |>)) \/
  (forall i, tvOperations tv !! i <> Some o) /\ O !! o = Some ov.
Proof.
  intros Ho. destruct (decide (tvOperations tv !! ovInvocation ov = Some o)) as [E1|Hne].
  - left. exists (ovInvocation ov). destruct (life_operations _ _ _ _ _ L t tv _ o Ht E1) as (ov'&H1&H2&H3).
    rewrite Ho in H1. injection H1 as <-. split; [done|]. split; [done|]. split; [done|]. by apply HO.
  - right. assert (forall i, tvOperations tv !! i <> Some o) as Hn.
    { intros i Hi. destruct (life_operations _ _ _ _ _ L t tv i o Ht Hi) as (ov'&H1&H2&H3). congruence. }
    split; [done|]. by rewrite HO'.
Qed.

Lemma attached_moved o ov tv0 : attached v o ov tv0 ->
  exists ov' tv1, attached moved o ov' tv1 /\ tvInFlight tv1 = tvInFlight tv0 /\ tvWorker tv1 = tvWorker tv0 /\
    ovWaiters ov' = ovWaiters ov /\ ovMayExist ov' = ovMayExist ov /\ ovName ov' = ovName ov /\
    ((forall i, tvOperations tv !! i <> Some o) -> ov' = ov).
Proof.
  intros (H1&H2&H3). destruct (moved_operation o ov H1) as [(i&Hi&Et&Ei&HOo)|[Hn HOo]].
  - exists (ov <| ovInvocation := (scq, i.2) |>), (tv <| tvOperations := ops |>).
    split; [split; [exact HOo|]; split|].
    + change (<[t := tv <| tvOperations := ops |>]> (vTasks v) !! ovTask ov = Some (tv <| tvOperations := ops |>)).
      rewrite Et. by rewrite lookup_insert_eq.
    + change (ops !! (scq, i.2) = Some o). apply Hops. by exists i.
    + rewrite Et, Ht in H2. injection H2 as <-. do 5 (split; [done|]). intros Hn. by destruct (Hn i).
  - exists ov. destruct (decide (ovTask ov = t)) as [Et|Hne].
    + rewrite Et, Ht in H2. injection H2 as <-. by destruct (Hn (ovInvocation ov)).
    + exists tv0. split; [|done]. split; [exact HOo|]. split; [|done]. simpl. by rewrite lookup_insert_ne.
Qed.

Lemma attached_moved_inv o ov' tv1 : attached moved o ov' tv1 ->
  exists ov tv0, attached v o ov tv0 /\ ovWaiters ov' = ovWaiters ov /\ ovMayExist ov' = ovMayExist ov.
Proof.
  unfold attached, moved. simpl. unfold constant. intros (H1&H2&H3).
  apply lookup_insert_Some in H2 as [[E1 <-]|[Hne H2]].
  - simpl in H3. unfold constant in H3. apply Hops in H3 as (i&Hi&E2).
    destruct (life_operations _ _ _ _ _ L t tv i o Ht Hi) as (ov&A1&A2&A3). exists ov, tv.
    rewrite (HO i o ov Hi A1) in H1. injection H1 as <-. split; [|done]. rewrite A2, A3. done.
  - assert (forall i, tvOperations tv !! i <> Some o) as Hn.
    { intros i Hi. destruct (life_operations _ _ _ _ _ L t tv i o Ht Hi) as (ov&A1&A2&A3).
      rewrite (HO i o ov Hi A1) in H1. injection H1 as <-. by apply Hne. }
    rewrite HO' in H1 by done. by exists ov', tv1.
Qed.

Lemma life_moved : (scq < vNext v)%nat -> (forall i o, tvOperations tv !! i = Some o -> o ∈ U) -> life D U G R moved.
Proof.
  intros Hscq HU. pose proof attached_moved as Hatt.
  split; simpl; unfold constant; try apply L.
  - intros t0 tv0 H. apply lookup_insert_Some in H as [[<- _]|[_ H]]; by eapply life_ids_tasks.
  - intros o ov' H. destruct (vOperations v !! o) as [ov|] eqn:Eo.
    + destruct (life_ids_operations _ _ _ _ _ L o ov Eo).
      destruct (moved_operation o ov Eo) as [(i&_&_&_&H2)|[_ H2]]; rewrite H2 in H; by injection H as <-.
    + rewrite HO' in H; [congruence|]. intros i Hi. destruct (life_operations _ _ _ _ _ L t tv i o Ht Hi) as (?&?&_). congruence.
  - intros w t0. rewrite (life_worker _ _ _ _ _ L). split; intros (tv0&H&E1).
    + destruct (decide (t0 = t)) as [->|Hne'].
      { eexists. rewrite lookup_insert_eq. split; [done|]. rewrite Ht in H. by injection H as <-. }
      exists tv0. by rewrite lookup_insert_ne.
    + apply lookup_insert_Some in H as [[<- <-]|[_ H]]; [by exists tv|by exists tv0].
  - intros t0 tv0 H. apply lookup_insert_Some in H as [[<- <-]|[_ H]]; simpl; by eapply life_executing.
  - intros k t0 H. destruct (life_flight _ _ _ _ _ L k t0 H) as (tv0&Ht0&E1&E2).
    destruct (decide (t0 = t)) as [->|Hne'].
    { eexists. rewrite lookup_insert_eq. split; [done|]. rewrite Ht in Ht0. by injection Ht0 as <-. }
    exists tv0. by rewrite lookup_insert_ne.
  - intros t0 tv0 H. apply lookup_insert_Some in H as [[<- <-]|[_ H]]; simpl; by eapply (life_deduplicated _ _ _ _ _ L).
  - intros t0 tv0 j o H Ho. apply lookup_insert_Some in H as [[<- <-]|[Hne H]]; simpl in *.
    + apply Hops in Ho as (i&Hi&->). destruct (life_operations _ _ _ _ _ L t tv i o Ht Hi) as (ov&A1&A2&A3).
      eexists. split; [by apply HO|]. done.
    + destruct (life_operations _ _ _ _ _ L t0 tv0 j o H Ho) as (ov&A1&A2&A3).
      destruct (moved_operation o ov A1) as [(i&_&Et&_)|[_ H2]]; [congruence|]. by exists ov.
  - intros t0 tv0 i j p q H. apply lookup_insert_Some in H as [[<- <-]|[_ H]]; simpl; [|by eapply life_sizeClass].
    intros Hp Hq. apply Hops in Hp as (?&_&->), Hq as (?&_&->). done.
  - intros i o Ho. destruct (life_queue _ _ _ _ _ L i o Ho) as (ov&tv0&Ha&E1&E2&E3).
    destruct (Hatt o ov tv0 Ha) as (ov'&tv1&Ha1&F1&F2&_&_&_&F3). exists ov', tv1. split; [done|].
    split; [|split; congruence]. rewrite F3; [done|]. intros j Hj. by eapply (life_unqueued _ _ _ _ _ L i o); [eapply HU|].
  - intros t0 tv0 i o H Hf Hwk Ho Hu. apply lookup_insert_Some in H as [[<- <-]|[Hne H]]; simpl in *.
    + apply Hops in Ho as (j&Hj&_). destruct Hu. by eapply HU.
    + by apply (life_queued _ _ _ _ _ L t0 tv0).
  - intros t0 tv0 H Hd Hf. apply lookup_insert_Some in H as [[<- <-]|[_ H]]; simpl; [|by apply (life_nonempty _ _ _ _ _ L t0)].
    pose proof (life_nonempty _ _ _ _ _ L t tv Ht Hd Hf) as Hn. intros E1. unfold constant in E1. apply map_choose in Hn as (i&o&Hi).
    assert (ops !! (scq, i.2) = Some o) as H by (apply Hops; by exists i). by rewrite E1 in H.
  - intros o Ho. destruct (life_cleanup _ _ _ _ _ L o Ho) as (ov&tv0&Ha&E1&E2).
    destruct (Hatt o ov tv0 Ha) as (ov'&tv1&Ha1&_&_&F1&F2&_). exists ov', tv1. split; [done|]. split; congruence.
  - intros o ov' tv1 Ha Hg Hr Hw Hm. apply attached_moved_inv in Ha as (ov&tv0&Ha&E1&E2).
    apply (life_noLeak _ _ _ _ _ L o ov tv0); congruence.
  - intros o ov' H. destruct (vOperations v !! o) as [ov|] eqn:Eo.
    + pose proof (life_waiters _ _ _ _ _ L o ov Eo).
      destruct (moved_operation o ov Eo) as [(i&_&_&_&H2)|[_ H2]]; rewrite H2 in H; by injection H as <-.
    + rewrite HO' in H; [congruence|]. intros i Hi. destruct (life_operations _ _ _ _ _ L t tv i o Ht Hi) as (?&?&_). congruence.
  - intros n o Ho. destruct (life_names _ _ _ _ _ L n o Ho) as (ov&tv0&Ha&E1).
    destruct (Hatt o ov tv0 Ha) as (ov'&tv1&Ha1&_&_&_&_&F1&_). exists ov', tv1. split; [done|]. congruence.
  - intros o Ho. destruct (life_removing _ _ _ _ _ L o Ho) as (H1&H2&ov&tv0&Ha&E1&E2). split; [done|]. split; [done|].
    destruct (Hatt o ov tv0 Ha) as (ov'&tv1&Ha1&_&_&F1&F2&_). exists ov', tv1. split; [done|]. split; congruence.
  - intros o ov' H Hw. assert (exists ov, vOperations v !! o = Some ov /\ ovWaiters ov' = ovWaiters ov) as (ov&Eo&Ew).
    { destruct (vOperations v !! o) as [ov|] eqn:Eo.
      - exists ov. split; [done|].
        destruct (moved_operation o ov Eo) as [(i&_&_&_&H2)|[_ H2]]; rewrite H2 in H; by injection H as <-.
      - rewrite HO' in H; [congruence|]. intros i Hi. destruct (life_operations _ _ _ _ _ L t tv i o Ht Hi) as (?&?&_). congruence. }
    destruct (life_waited _ _ _ _ _ L o ov Eo) as [tv0 Ha]; [lia|].
    destruct (Hatt o ov tv0 Ha) as (ov2&tv1&Ha1&_). exists tv1. destruct Ha1 as (H1&H2&H3). simpl in H1. unfold constant in H1.
    rewrite H1 in H. injection H as <-. done.
Qed.

Lemma stable_moved X : stable X v moved.
Proof.
  split; simpl.
  - intros t0 tv0 H. destruct (decide (t0 = t)) as [->|Hne].
    + eexists. rewrite lookup_insert_eq. split; [done|]. rewrite Ht in H. by injection H as <-.
    + exists tv0. by rewrite lookup_insert_ne.
  - intros o ov Ho. unfold constant. destruct (moved_operation o ov Ho) as [(i&_&_&E1&H)|[_ H]]; [|by exists ov].
    eexists. split; [done|]. simpl. unfold constant. by rewrite E1.
  - intros o ov tv0 _ Ha _. destruct (attached_moved o ov tv0 Ha) as (ov'&tv1&Ha1&_&_&E1&_). exists ov', tv1. split; [done|lia].
Qed.
End move.
End view.
