(* ===== verification/Scheduler.v ===== *)
(** * The scheduler: tasks and workers

    [pkg/scheduler/in_memory_build_queue.go], continued from [SchedulerState]: the
    cleanup queue, the assignment of tasks to workers, and the life cycle of tasks and
    operations. *)

From stdpp Require Import sorting.
From S2P Require Import Prelude Heap SchedulerState.

Section scheduler.
Context {E : Environment}.
Context (cfg : configuration).

(** ** Channels and the cleanup queue *)

Definition cleanupLess (a b : cleanupEntry) : bool := timestamp a <? timestamp b.

(** Which object's [cleanupKey] an entry belongs to. *)
Definition sameKey (a b : cleanup) : bool :=
  match a, b with
  | RemoveOperation o, RemoveOperation o' => bool_decide (o = o')
  | RemoveStaleWorker q k _, RemoveStaleWorker q' k' _ => bool_decide (q = q' /\ k = k')
  | RemoveSizeClassQueue q, RemoveSizeClassQueue q' => bool_decide (q = q')
  | _, _ => false
  end.

Definition cleanupPosition (c : cleanup) (l : list cleanupEntry) : option nat :=
  fst <$> list_find (fun e => sameKey (callback e) c = true) l.

(** [cleanupKey.isActive] *)
Definition cleanupIsActive (c : cleanup) (s : buildQueue) : bool :=
  match cleanupPosition c (cleanupQueue s) with Some _ => true | None => false end.

(** [cleanupQueue.add] *)
Definition cleanupAdd (t : Z) (c : cleanup) : M unit :=
  active ← gets (cleanupIsActive c);
  if (active : bool) then panic
  else modify (fun s => s <| cleanupQueue ::= fun l => heapPush cleanupLess l (mkCleanupEntry t c) |>).

(** [cleanupQueue.remove] *)
Definition cleanupRemove (c : cleanup) : M unit :=
  l ← gets cleanupQueue;
  '(_, l) ← deref (fun _ => k ← cleanupPosition c l; heapRemove cleanupLess l k);
  modify (fun s => s <| cleanupQueue := l |>).

(** [cleanupQueue.getTimestamp] *)
Definition cleanupTimestamp (c : cleanup) (s : buildQueue) : option Z :=
  k ← cleanupPosition c (cleanupQueue s); timestamp <$> cleanupQueue s !! k.

(** ** Workers *)

(** [workerMatchesPattern] *)
Definition workerMatchesPattern (workerID pattern : WorkerID) : bool :=
  forallb (fun '(key, value) => bool_decide (default [] (workerID !! key) = value)) (map_to_list pattern).

(** [worker.isDrained] *)
Definition isDrained (w : worker) (scq : sizeClassQueue) (workerID : WorkerID) : bool :=
  terminating w || existsb (fun '(_, (pattern, _)) => workerMatchesPattern workerID pattern) (map_to_list (drains scq)).

(** [idleSynchronizingWorkersList.dequeue]: the last entry takes the place. *)
Definition dequeueFromList (l : list nat) (w : nat) : option (list nat) :=
  k ← position w l;
  z ← last l;
  Some (take (length l - 1) (<[k := z]> l)).

(** [worker.dequeue] *)
Definition dequeue (w : nat) : M unit :=
  wk ← getWorker w;
  i ← deref (fun _ => lastInvocation wk);
  v ← getInvocation i;
  l ← deref (fun _ => dequeueFromList (idleSynchronizingWorkers v) w);
  _ ← putInvocation i (v <| idleSynchronizingWorkers := l |>);
  _ ← forEach (ancestors i) (fun i =>
    match parentInvocation i with
    | None => mret tt
    | Some p =>
        c ← getInvocation i;
        v ← getInvocation p;
        s ← gets id;
        l ← deref (fun _ => heapRemoveOrFix (idleChildrenLess s) (idleSynchronizingWorkersChildren v) i
               (length (idleSynchronizingWorkers c) + length (idleSynchronizingWorkersChildren c))%nat);
        putInvocation p (v <| idleSynchronizingWorkersChildren := l |>)
    end);
  putWorker w (wk <| wakeup := None |>).

(** [worker.maybeDequeue] *)
Definition maybeDequeue (w : nat) : M unit :=
  wk ← getWorker w;
  match wakeup wk with Some _ => dequeue w | None => mret tt end.

(** [worker.wakeUp] *)
Definition wakeUp (w : nat) : M unit :=
  wk ← getWorker w;
  _ ← closeChannel (wakeup wk);
  dequeue w.

(** [worker.clearLastInvocation] *)
Definition clearLastInvocation (w : nat) : M unit :=
  wk ← getWorker w;
  if bool_decide (wakeup wk <> None) then panic else
  match lastInvocation wk with
  | None => mret tt
  | Some iLast =>
      _ ← forEach (ancestors iLast) (fun i =>
        v ← getInvocation i;
        if idleWorkersCount v =? 0 then panic else
        _ ← putInvocation i (v <| idleWorkersCount ::= fun n => u32 (n - 1) |>);
        _ ← removeIfEmpty i; mret tt);
      putWorker w (wk <| lastInvocation := None |>)
  end.

(** [worker.setLastInvocation] *)
Definition setLastInvocation (w : nat) (iLast : InvocationId) : M unit :=
  wk ← getWorker w;
  if bool_decide (lastInvocation wk <> None) then panic else
  _ ← putWorker w (wk <| lastInvocation := Some iLast |>);
  forEach (ancestors iLast) (fun i =>
    v ← getInvocation i;
    putInvocation i (v <| idleWorkersCount ::= fun n => u32 (n + 1) |>)).

(** The order in which [range] visits a map is not specified; here it is the one of
    the keys in the model. *)
Definition taskInvocations (t : task) : list InvocationId := (map_to_list (operations t)).*1.
Definition taskOperations (t : task) : list nat := (map_to_list (operations t)).*2.

(** [task.getCurrentSizeClassQueue] *)
Definition getCurrentSizeClassQueue (t : task) : M nat :=
  match taskInvocations t with i :: _ => mret i.1 | [] => panic end.

(** [task.reportNonFinalStageChange] *)
Definition reportNonFinalStageChange (t : nat) : M unit :=
  tk ← getTask t;
  _ ← closeChannel (stageChangeWakeup tk);
  c ← newId;
  putTask t (tk <| stageChangeWakeup := Some c |>).

(** [worker.assignUnqueuedTask] *)
Definition assignUnqueuedTask (w t : nat) (stickinessRetained : nat) : M unit :=
  wk ← getWorker w;
  tk ← getTask t;
  if bool_decide (currentTask wk <> None) then panic else
  if bool_decide (currentWorker tk <> None) then panic else
  _ ← putWorker w (wk <| currentTask := Some t |>);
  _ ← putTask t (tk <| currentWorker := Some w |> <| retryCount := 0 |>);
  _ ← forEach (taskInvocations tk) (fun i => incrementExecutingWorkersCount i w);
  _ ← clearLastInvocation w;
  wk ← getWorker w;
  n ← gets now;
  putWorker w (wk <| stickinessStartingTimes ::= fun l =>
    take stickinessRetained l ++ replicate (length l - stickinessRetained) n |>).

(** [worker.assignQueuedTask] *)
Definition assignQueuedTask (w t : nat) (stickinessRetained : nat) : M unit :=
  _ ← assignUnqueuedTask w t stickinessRetained;
  tk ← getTask t;
  _ ← forEach (taskOperations tk) removeQueuedFromInvocation;
  reportNonFinalStageChange t.

(** [worker.assignUnqueuedTaskAndWakeUp] *)
Definition assignUnqueuedTaskAndWakeUp (w t : nat) (stickinessRetained : nat) : M unit :=
  _ ← wakeUp w;
  assignUnqueuedTask w t stickinessRetained.

(** ** Picking a task *)

(** The loop of [worker.assignNextQueuedTask]: the task and how much stickiness is
    retained. *)
Fixpoint nextQueuedTask (fuel : nat) (wk : worker) (i : InvocationId)
    (lastInvocationKeys : list bytes) (limits : list Z) (stickinessRetained : nat)
    : M (option (nat * nat)) :=
  match fuel with
  | O => panic
  | S fuel =>
      v ← getInvocation i;
      match queuedOperations v, queuedChildren v with
      | o :: _, _ => o ← getOperation o; mret (Some (operationTask o, stickinessRetained))
      | [], iBest :: _ =>
          match lastInvocationKeys, limits with
          | key :: lastInvocationKeys, limit :: limits =>
              let iSticky := (i.1, i.2 ++ [key]) in
              vSticky ← getInvocation iSticky;
              vBest ← getInvocation iBest;
              t ← gets now;
              iBest ← (if isQueued vSticky then
                  start ← deref (fun _ => stickinessStartingTimes wk !! 0%nat);
                  mret (if isPreferred vSticky vBest (start + limit >? t) then iSticky else iBest)
                else mret iBest);
              if decide (iBest = iSticky)
              then nextQueuedTask fuel wk iBest lastInvocationKeys limits (S stickinessRetained)
              else nextQueuedTask fuel wk iBest [] limits stickinessRetained
          | _, _ => nextQueuedTask fuel wk iBest lastInvocationKeys limits stickinessRetained
          end
      | [], [] => mret None
      end
  end.

(** [worker.assignNextQueuedTask].  The loop descends the tree, which is at most as
    deep as it has invocations. *)
Definition assignNextQueuedTask (w scq : nat) : M bool :=
  wk ← getWorker w;
  last ← deref (fun _ => lastInvocation wk);
  q ← getSizeClassQueue scq;
  pq ← getPlatformQueue (queuePlatformQueue q);
  fuel ← gets (fun s => S (size (allInvocations s)));
  next ← nextQueuedTask fuel wk (rootInvocation scq) last.2 (workerInvocationStickinessLimits pq) 0;
  match next with
  | Some (t, retained) => _ ← assignQueuedTask w t retained; mret true
  | None => mret false
  end.

(** ** Operations and tasks *)

(** [task.newOperation] *)
Definition newOperation (t : nat) (priority : Z) (i : InvocationId) (mayExist : bool) : M nat :=
  u ← newId;
  let name := uuidGenerator u in
  tk ← getTask t;
  match operations tk !! i with
  | Some _ => panic
  | None =>
      o ← newId;
      _ ← putOperation o (mkOperation name t priority i 0 mayExist);
      _ ← putTask t (tk <| operations ::= <[i := o]> |>);
      _ ← modify (fun s => s <| operationsNameMap ::= <[name := o]> |>);
      mret o
  end.

(** The search of [task.schedule], one level: an invocation with idle workers below
    it, the end at a root, or the parents. *)
Inductive searchResult := FoundIdle (i : InvocationId) | ReachedRoot | Parents (l : list InvocationId).

Fixpoint searchIdle (s : buildQueue) (l : list InvocationId) : searchResult :=
  match l with
  | [] => Parents []
  | i :: l =>
      let idle := match allInvocations s !! i with
                  | Some v => negb (bool_decide (idleSynchronizingWorkers v = []))
                              || negb (bool_decide (idleSynchronizingWorkersChildren v = []))
                  | None => false
                  end in
      if idle then FoundIdle i else
      match parentInvocation i with
      | None => ReachedRoot
      | Some p =>
          match searchIdle s l with
          | Parents ps => Parents (p :: ps)
          | r => r
          end
      end
  end.

Fixpoint searchLevels (fuel : nat) (s : buildQueue) (l : list InvocationId) : option InvocationId :=
  match fuel with
  | O => None
  | S fuel =>
      match searchIdle s l with
      | FoundIdle i => Some i
      | ReachedRoot => None
      | Parents l => searchLevels fuel s l
      end
  end.

(** From an invocation down to one with idle workers of its own. *)
Fixpoint descendIdle (fuel : nat) (i : InvocationId) : M nat :=
  match fuel with
  | O => panic
  | S fuel =>
      v ← getInvocation i;
      match idleSynchronizingWorkers v, idleSynchronizingWorkersChildren v with
      | w :: _, _ => mret w
      | [], c :: _ => descendIdle fuel c
      | [], [] => panic
      end
  end.

(** [task.schedule].  The search goes up by one level at a time. *)
Definition schedule (t : nat) : M unit :=
  tk ← getTask t;
  _ ← getCurrentSizeClassQueue tk;
  s ← gets id;
  let invocations := taskInvocations tk in
  match searchLevels (S (max_list (map (fun i : InvocationId => length i.2) invocations))) s invocations with
  | Some i =>
      w ← descendIdle (S (size (allInvocations s))) i;
      assignUnqueuedTaskAndWakeUp w t 0
  | None => forEach (taskOperations tk) enqueue
  end.

(** The stage of a task. *)
Inductive stage := Queued | Executing | Completed.

(** [task.getStage] *)
Definition getStage (t : task) : stage :=
  match initialSizeClassLearner t, currentWorker t with
  | None, _ => Completed
  | Some _, Some _ => Executing
  | Some _, None => Queued
  end.

(** The lowest common ancestor of two invocations of a size class queue. *)
Fixpoint stripCommon (fuel : nat) (a b : list bytes) : list bytes :=
  match fuel with
  | O => a
  | S fuel => if decide (a = b) then a else stripCommon fuel (removelast a) (removelast b)
  end.

Definition lowestCommonAncestor (a b : InvocationId) : InvocationId :=
  let n := Nat.min (length a.2) (length b.2) in
  (a.1, stripCommon (S n) (take n a.2) (take n b.2)).

(** [task.leaveQueuedOrExecutingStage] *)
Definition leaveQueuedOrExecutingStage (t : nat) (completedByWorker : bool) : M unit :=
  tk ← getTask t;
  if bool_decide (initialSizeClassLearner tk = None) then panic else
  scq ← getCurrentSizeClassQueue tk;
  _ ← match currentWorker tk with
      | Some w =>
          if completedByWorker then
            match taskInvocations tk with
            | i :: l => setLastInvocation w (foldl lowestCommonAncestor i l)
            | [] => panic
            end
          else setLastInvocation w (rootInvocation scq)
      | None =>
          w ← newId;
          _ ← putWorker w (mkWorker [] None false None None []);
          assignQueuedTask w t 0
      end;
  tk ← getTask t;
  w ← deref (fun _ => currentWorker tk);
  _ ← forEach (taskInvocations tk) (fun i => decrementExecutingWorkersCount i w);
  wk ← getWorker w;
  _ ← putWorker w (wk <| currentTask := None |>);
  putTask t (tk <| currentWorker := None |>).

(** [operation.maybeStartCleanup] *)
Definition maybeStartCleanup (o : nat) : M unit :=
  op ← getOperation o;
  t ← gets now;
  if (waiters op =? 0) && negb (mayExistWithoutWaiters op)
  then cleanupAdd (t + OperationWithNoWaitersTimeout cfg) (RemoveOperation o)
  else mret tt.

(** [task.markCompleted] *)
Definition markCompleted (t : nat) : M unit :=
  tk ← getTask t;
  _ ← modify (fun s => s <| inFlightDeduplicationMap ::= delete (deduplicationKey tk) |>);
  _ ← closeChannel (stageChangeWakeup tk);
  _ ← putTask t (tk <| initialSizeClassLearner := None |> <| stageChangeWakeup := None |>);
  forEach (taskOperations tk) (fun o =>
    op ← getOperation o;
    if mayExistWithoutWaiters op then
      _ ← putOperation o (op <| mayExistWithoutWaiters := false |>);
      maybeStartCleanup o
    else mret tt).

(** [task.fail] *)
Definition taskFail (t : nat) (err : error) (completedByWorker : bool) : M unit :=
  tk ← getTask t;
  match initialSizeClassLearner tk with
  | None => mret tt
  | Some learner =>
      _ ← leaveQueuedOrExecutingStage t completedByWorker;
      _ ← tellLearner (LearnerAbandoned learner);
      tk ← getTask t;
      _ ← putTask t (tk <| initialSizeClassLearner := None |> <| failureErr := Some err |>);
      markCompleted t
  end.

(** [CurrentState_Completed] *)
Inductive completionResult := CompletionSucceeded | CompletionTimedOut | CompletionFailed.
Record completion := mkCompletion {
  completionEvent : option Event;
  completionOutcome : completionResult;
  virtualExecutionDuration : Z;
}.

(** The background task for learning of [task.complete]. *)
Definition learnInBackground (t : task) (pq : platformQueue)
    (index expected timeout : Z) (learner : Learner) : M unit :=
  if maximumQueuedBackgroundLearningOperations pq =? 0 then tellLearner (LearnerAbandoned learner) else
  scq ← liftOutcome (Prelude.index (sizeClassQueues pq) index);
  i ← getOrCreateInvocation scq BackgroundLearningKeys;
  v ← getInvocation i;
  if maximumQueuedBackgroundLearningOperations pq <=? zlen (queuedOperations v)
  then tellLearner (LearnerAbandoned learner)
  else
    uuid ← newId;
    b ← newId;
    wakeup ← newId;
    _ ← putTask b (mkTask ∅ (replicate 32 0) (uuidGenerator uuid) (taskAction t) timeout (queuedTimestamp t) None 0
           expected (Some learner) None 0 None (Some wakeup));
    _ ← newOperation b (backgroundLearningOperationPriority pq) i true;
    schedule b.

(** Moving the operations of a task to another size class queue. *)
Definition transplant (t scq : nat) : M unit :=
  tk ← getTask t;
  _ ← putTask t (tk <| operations := ∅ |>);
  forEach (map_to_list (operations tk)) (fun '(oldI, o) =>
    i ← getOrCreateInvocation scq oldI.2;
    tk ← getTask t;
    _ ← putTask t (tk <| operations ::= <[i := o]> |>);
    op ← getOperation o;
    putOperation o (op <| operationInvocation := i |>)).

(** [task.complete] *)
Definition taskComplete (t : nat) (completed : completion) : M unit :=
  tk ← getTask t;
  match initialSizeClassLearner tk with
  | None => mret tt
  | Some learner =>
      _ ← leaveQueuedOrExecutingStage t true;
      scq ← getCurrentSizeClassQueue tk;
      q ← getSizeClassQueue scq;
      pq ← getPlatformQueue (queuePlatformQueue q);
      let finish :=
        tk ← getTask t;
        _ ← putTask t (tk <| lastExecutionEvent := completionEvent completed |>);
        markCompleted t in
      match completionOutcome completed with
      | CompletionSucceeded =>
          _ ← tellLearner (LearnerSucceeded learner);
          _ ← match Succeeded learner (virtualExecutionDuration completed) (sizeClasses pq) with
              | Some (index, expected, timeout, background) => learnInBackground tk pq index expected timeout background
              | None => mret tt
              end;
          finish
      | result =>
          _ ← tellLearner (LearnerFailed learner);
          match FailedLearning learner (match result with CompletionTimedOut => true | _ => false end) with
          | Some (expected, timeout, retry) =>
              tk ← getTask t;
              _ ← putTask t (tk <| initialSizeClassLearner := Some retry |> <| expectedDuration := expected |>
                                <| effectiveExecutionTimeout := timeout |>);
              largest ← deref (fun _ => last (sizeClassQueues pq));
              _ ← transplant t largest;
              _ ← schedule t;
              reportNonFinalStageChange t
          | None => finish
          end
      end
  end.
End scheduler.
