(* ===== verification/SchedulerCalls.v ===== *)
(** * The scheduler: cleanup and calls

    [pkg/scheduler/in_memory_build_queue.go], continued from [Scheduler]: removal of
    what is stale, the lock, and the calls of clients, workers and administrators.

    A call that blocks is split where the code releases the lock: a worker that
    synchronizes waits for a wakeup, a timeout or a cancellation ([resumeDrained],
    [resumeQueued]), and a client that waits for an operation is sent updates
    ([waitExecutionUpdate]) until it ends ([waitExecutionEnd]). *)

From stdpp Require Import sorting.
From S2P Require Import Prelude References Heap SchedulerState Scheduler.

Section calls.
Context {E : Environment}.
Context (cfg : configuration).

(** ** Removal *)

(** [for i.removeIfEmpty() { i = i.parent }] *)
Fixpoint removeEmpty (l : list InvocationId) : M unit :=
  match l with
  | [] => mret tt
  | i :: l => removed ← removeIfEmpty i; if (removed : bool) then removeEmpty l else mret tt
  end.

(** [operation.remove] *)
Definition operationRemove (o : nat) : M unit :=
  op ← getOperation o;
  _ ← modify (fun s => s <| operationsNameMap ::= delete (operationName op) |>);
  let t := operationTask op in
  let i := operationInvocation op in
  tk ← getTask t;
  _ ← (if bool_decide (size (operations tk) = 1%nat) then
      _ ← taskFail cfg t (StatusError CodeCanceled) false;
      tk ← getTask t;
      _ ← getCurrentSizeClassQueue tk; mret tt
    else match currentWorker tk, initialSizeClassLearner tk with
    | Some w, _ => decrementExecutingWorkersCount i w
    | None, Some _ => _ ← removeQueuedFromInvocation o; removeEmpty (ancestors i)
    | None, None => mret tt
    end);
  tk ← getTask t;
  putTask t (tk <| operations ::= delete i |>).

(** [invocation.failAllQueuedOperations]: every round fails an operation or goes down
    to a child. *)
Fixpoint failAllQueuedOperations (fuel : nat) (i : InvocationId) (err : error) : M unit :=
  match fuel with
  | O => panic
  | S fuel =>
      s ← gets id;
      match allInvocations s !! i with
      | None => mret tt
      | Some v =>
          match last (queuedChildren v), last (queuedOperations v) with
          | Some c, _ =>
              _ ← failAllQueuedOperations fuel c err;
              failAllQueuedOperations fuel i err
          | None, Some o =>
              op ← getOperation o;
              _ ← taskFail cfg (operationTask op) err false;
              failAllQueuedOperations fuel i err
          | None, None => mret tt
          end
      end
  end.

(** Enough rounds for all operations and invocations there are. *)
Definition failAllFuel (s : buildQueue) : nat :=
  S (S (size (allOperations s)) * S (size (allInvocations s)))%nat.

(** [sizeClassQueue.remove] *)
Definition sizeClassQueueRemove (scq : nat) : M unit :=
  fuel ← gets failAllFuel;
  _ ← failAllQueuedOperations fuel (rootInvocation scq) (StatusError CodeUnavailable);
  q ← getSizeClassQueue scq;
  pq ← getPlatformQueue (queuePlatformQueue q);
  k ← deref (fun _ => position scq (sizeClassQueues pq));
  putPlatformQueue (queuePlatformQueue q) (pq <| sizeClasses ::= delete k |> <| sizeClassQueues ::= delete k |>).

(** [sizeClassQueue.markWorkerTerminating] *)
Definition markWorkerTerminating (w : nat) : M unit :=
  wk ← getWorker w; putWorker w (wk <| terminating := true |>).

(** [sizeClassQueue.removeStaleWorker] *)
Definition removeStaleWorker (scq : nat) (key : bytes) (removalTime : Z) : M unit :=
  q ← getSizeClassQueue scq;
  w ← deref (fun _ => workers q !! key);
  _ ← markWorkerTerminating w;
  wk ← getWorker w;
  _ ← match currentTask wk with
      | Some t => taskFail cfg t (StatusError CodeUnavailable) false
      | None => mret tt
      end;
  _ ← clearLastInvocation w;
  q ← getSizeClassQueue scq;
  let q := q <| workers ::= delete key |> in
  _ ← putSizeClassQueue scq q;
  if bool_decide (workers q = ∅) && mayBeRemoved q
  then cleanupAdd (removalTime + PlatformQueueWithNoWorkersTimeout cfg) (RemoveSizeClassQueue scq)
  else mret tt.

(** The closures of the cleanup queue. *)
Definition runCleanup (c : cleanup) : M unit :=
  match c with
  | RemoveOperation o => operationRemove o
  | RemoveStaleWorker scq key removalTime => removeStaleWorker scq key removalTime
  | RemoveSizeClassQueue scq => sizeClassQueueRemove scq
  end.

(** [cleanupQueue.run] *)
Fixpoint cleanupRun (fuel : nat) (t : Z) : M unit :=
  match fuel with
  | O => panic
  | S fuel =>
      l ← gets cleanupQueue;
      match l with
      | [] => mret tt
      | e :: _ =>
          if timestamp e >? t then mret tt else
          '(e, l) ← deref (fun _ => heapPop cleanupLess l);
          _ ← modify (fun s => s <| cleanupQueue := l |>);
          _ ← runCleanup (callback e);
          cleanupRun fuel t
      end
  end.

(** Every entry can make way for at most one for its size class queue, and for those
    of the operations of a background task. *)
Definition cleanupFuel (s : buildQueue) : nat :=
  S (length (cleanupQueue s) + size (allSizeClassQueues s) + size (allOperations s) + length (cleanupQueue s)).

(** ** The lock *)

(** [enter] *)
Definition enter (t : Z) : M unit := fun s =>
  if locked s then (Deadlocks, s) else
  let s := s <| locked := true |> in
  if t >? now s then let s := s <| now := t |> in cleanupRun (cleanupFuel s) t s
  else (Returns tt, s).

(** [leave] *)
Definition leave : M unit := modify (fun s => s <| locked := false |>).

(** [bq.enter(...); defer bq.leave()] *)
Definition critical {A} (t : Z) (m : M A) : M A := fun s =>
  match enter t s with
  | (Returns _, s) =>
      match m s with
      | (Returns a, s) => (Returns a, s <| locked := false |>)
      | (Fails e, s) => (Fails e, s <| locked := false |>)
      | r => r
      end
  | (Fails e, s) => (Fails e, s)
  | (Panics, s) => (Panics, s)
  | (Deadlocks, s) => (Deadlocks, s)
  end.

(** Errors that are wrapped with another code. *)
Definition wrapError {A} (c : code) (m : M A) : M A := fun s =>
  match m s with (Fails _, s) => (Fails (StatusError c), s) | r => r end.

(** ** Clients *)

(** The start of [operation.waitExecution]. *)
Definition waitExecutionStart (o : nat) : M unit :=
  active ← gets (cleanupIsActive (RemoveOperation o));
  _ ← whenM active (cleanupRemove (RemoveOperation o));
  op ← getOperation o;
  putOperation o (op <| waiters ::= Z.add 1 |>).

(** The response that is constructed in the loop of [operation.waitExecution], with
    the number of events that have been seen, and the channel to wait for. *)
Inductive update :=
  | UpdateError (e : error)
  | UpdateCompleted (event : option Event)
  | UpdateExecuting (event : option Event) (eventsReturned : Z)
  | UpdateQueued.

Definition waitExecutionUpdate (o : nat) (eventsReturned : Z) : M (update * option nat) :=
  op ← getOperation o;
  t ← getTask (operationTask op);
  mret (match initialSizeClassLearner t, failureErr t, currentWorker t with
        | None, Some e, _ => UpdateError e
        | None, None, _ => UpdateCompleted (lastExecutionEvent t)
        | Some _, _, Some _ =>
            if eventsReturned =? executionEventsSeen t then UpdateExecuting None eventsReturned
            else UpdateExecuting (lastExecutionEvent t) (executionEventsSeen t)
        | Some _, _, None => UpdateQueued
        end, stageChangeWakeup t).

(** The deferred function of [operation.waitExecution]. *)
Definition waitExecutionEnd (o : nat) : M unit :=
  op ← getOperation o;
  if waiters op =? 0 then panic else
  _ ← putOperation o (op <| waiters ::= fun n => n - 1 |>);
  maybeStartCleanup cfg o.

(** [Execute], up to the loop of [operation.waitExecution]: the operation that is
    waited for. *)
Definition Execute (t : Z) (action : option Action) (priority : Z) : M nat :=
  match action with
  | None => fail (StatusError CodeInvalidArgument)
  | Some action =>
      '(invocationKeys, selector) ← liftOutcome (RouteAction action);
      let key := deduplicationKeyOf action in
      critical t (
        s ← gets id;
        match inFlightDeduplicationMap s !! key with
        | Some t =>
            _ ← tellLearner (SelectorAbandoned selector);
            tk ← getTask t;
            scq ← getCurrentSizeClassQueue tk;
            i ← getOrCreateInvocation scq invocationKeys;
            match operations tk !! i with
            | Some o => _ ← waitExecutionStart o; mret o
            | None =>
                o ← newOperation t priority i false;
                _ ← match currentWorker tk with
                    | Some w => incrementExecutingWorkersCount i w
                    | None => enqueue o
                    end;
                _ ← waitExecutionStart o;
                mret o
            end
        | None =>
            match platformQueues s !! platformPkixPublicKeyOf action with
            | None =>
                _ ← tellLearner (SelectorAbandoned selector);
                fail (StatusError (if now s <? platformQueueAbsenceHardFailureTime s
                                   then CodeUnavailable else CodeFailedPrecondition))
            | Some p =>
                pq ← getPlatformQueue p;
                _ ← tellLearner (SelectorSelected selector);
                let '(sizeClassIndex, expected, timeout, learner) := Select selector (sizeClasses pq) in
                scq ← liftOutcome (index (sizeClassQueues pq) sizeClassIndex);
                uuid ← newId;
                t ← newId;
                wakeup ← newId;
                n ← gets now;
                _ ← putTask t (mkTask ∅ key (uuidGenerator uuid) action timeout n None 0 expected (Some learner)
                       None 0 None (Some wakeup));
                _ ← modify (fun s => s <| inFlightDeduplicationMap ::= <[key := t]> |>);
                i ← getOrCreateInvocation scq invocationKeys;
                o ← newOperation t priority i false;
                _ ← schedule t;
                _ ← waitExecutionStart o;
                mret o
            end
        end)
  end.

(** [WaitExecution], up to the loop of [operation.waitExecution].  [clock]: the times
    that the clock returns. *)
Fixpoint waitExecutionLoop (rounds : nat) (clock : nat -> Z) (name : bytes) : M nat :=
  match rounds with
  | O => panic
  | S rounds =>
      found ← gets (fun s => operationsNameMap s !! name);
      match found with
      | None => _ ← leave; fail (StatusError CodeNotFound)
      | Some o =>
          _ ← enter (clock rounds);
          again ← gets (fun s => operationsNameMap s !! name);
          if decide (again = Some o) then _ ← waitExecutionStart o; _ ← leave; mret o
          else waitExecutionLoop rounds clock name
      end
  end.

Definition WaitExecution (rounds : nat) (clock : nat -> Z) (name : bytes) : M nat :=
  _ ← enter (clock rounds); waitExecutionLoop rounds clock name.
End calls.
