(* ===== verification/SchedulerWorkers.v ===== *)
(** * The scheduler: workers

    [pkg/scheduler/in_memory_build_queue.go], continued from [SchedulerCalls]: the
    verification of public keys, platform queues and size class queues, and the calls
    in which workers report what they do and are told what to do. *)

From S2P Require Import Prelude References Heap SchedulerState Scheduler SchedulerCalls.

Section workers.
Context {E : Environment}.
Context (cfg : configuration).

(** ** Public keys *)

(** [aes.BlockSize] *)
Definition BlockSize : Z := 16.

(** [generateVerificationPrivateKey] *)
Definition generateVerificationPrivateKey (curve : Curve) : M (PrivateKey * bytes) :=
  n ← newId; wrapError CodeInternal (liftOutcome (generatePrivateKey curve n)).

(** [parsePKIXPublicKeyAndGetCurveIndex] *)
Definition parsePKIXPublicKeyAndGetCurveIndex (key : bytes) : M Z :=
  curve ← liftOutcome (parsePKIXPublicKey key);
  s ← gets id;
  match verificationCurveIndices s !! curve with
  | Some i => mret i
  | None =>
      k ← generateVerificationPrivateKey curve;
      let i := zlen (verificationPrivateKeys s) in
      _ ← modify (fun s => s <| verificationCurveIndices ::= <[curve := i]> |>
                            <| verificationPrivateKeys ::= fun l => l ++ [k] |>);
      mret i
  end.

(** [getPlatformQueuePublicKey] *)
Definition getPlatformQueuePublicKey (key : bytes) : M platformQueuePublicKey :=
  i ← parsePKIXPublicKeyAndGetCurveIndex key;
  keys ← gets verificationPrivateKeys;
  '(privateKey, _) ← liftOutcome (index keys i);
  zeros ← wrapError CodeInvalidArgument (liftOutcome (encryptZeros privateKey key));
  mret (mkPublicKey key zeros i).

(** [addNewPublicKeys]: the keys with the positions at which they are inserted. *)
Fixpoint mergePublicKeys (existing : list platformQueuePublicKey) (previous : nat)
    (new : list (platformQueuePublicKey * nat)) : outcome (list platformQueuePublicKey) :=
  match new with
  | [] => slice_from existing (Z.of_nat previous)
  | (k, i) :: new =>
      before ← slice existing (Z.of_nat previous) (Z.of_nat i);
      rest ← mergePublicKeys existing i new;
      Ok (before ++ k :: rest)
  end.

Definition addNewPublicKeys (p : nat) (new : list (platformQueuePublicKey * nat)) : M unit :=
  match new with
  | [] => mret tt
  | _ =>
      pq ← getPlatformQueue p;
      merged ← liftOutcome (mergePublicKeys (publicKeys pq) 0 new);
      _ ← modify (fun s => s <| platformQueues ::= fun m => foldl (fun m k => <[pkixPublicKey k.1 := p]> m) m new |>);
      putPlatformQueue p (pq <| publicKeys := merged |>)
  end.

(** [newPlatformQueue] *)
Definition newPlatformQueue (limits : list Z) (maximumQueued priority : Z) : M nat :=
  p ← newId;
  _ ← putPlatformQueue p (mkPlatformQueue [] limits maximumQueued priority [] []);
  mret p.

(** Where a size class goes. *)
Fixpoint insertionPosition (l : list Z) (sizeClass : Z) : nat :=
  match l with x :: l => if x <? sizeClass then S (insertionPosition l sizeClass) else O | [] => O end.

Definition insertAt {A} (i : nat) (x : A) (l : list A) : list A := take i l ++ x :: drop i l.

(** [addSizeClassQueue] *)
Definition addSizeClassQueue (p : nat) (sizeClass : Z) (removable : bool) : M nat :=
  pq ← getPlatformQueue p;
  _ ← deref (fun _ => publicKeys pq !! 0%nat);
  q ← newId;
  wakeup ← newId;
  _ ← putSizeClassQueue q (mkSizeClassQueue p sizeClass removable ∅ ∅ wakeup);
  _ ← putInvocation (rootInvocation q) (newInvocation 0);
  let i := insertionPosition (sizeClasses pq) sizeClass in
  _ ← putPlatformQueue p (pq <| sizeClasses ::= insertAt i sizeClass |> <| sizeClassQueues ::= insertAt i q |>);
  mret q.

(** [slices.IsSortedFunc] *)
Fixpoint isSorted {A} (cmp : A -> A -> Z) (l : list A) : bool :=
  match l with
  | x :: (y :: _) as l' => negb (cmp y x <? 0) && isSorted cmp l'
  | _ => true
  end.

(** [RegisterPredeclaredPlatformQueue] *)
Definition RegisterPredeclaredPlatformQueue (t : Z) (keys : list bytes) (limits : list Z)
    (maximumQueued priority : Z) (classes : list Z) : M unit :=
  let invalid := StatusError CodeInvalidArgument in
  if bool_decide (keys = []) then fail invalid else
  if negb (isSorted bytes_compare keys) then fail invalid else
  if bool_decide (classes = []) then fail invalid else
  if negb (isSorted Z.sub classes) then fail invalid else
  if (1 <? zlen classes) && (default 0 (classes !! 0%nat) =? 0) then fail invalid else
  critical cfg t (
    new ← (fix loop (keys : list bytes) : M (list (platformQueuePublicKey * nat)) :=
      match keys with
      | [] => mret []
      | key :: keys =>
          known ← gets (fun s => platformQueues s !! key);
          match known with
          | Some _ => fail invalid
          | None =>
              k ← wrapError CodeInvalidArgument (getPlatformQueuePublicKey key);
              new ← loop keys;
              mret ((k, 0%nat) :: new)
          end
      end) keys;
    p ← newPlatformQueue limits maximumQueued priority;
    _ ← addNewPublicKeys p new;
    forEach classes (fun c => _ ← addSizeClassQueue p c false; mret tt)).

(** ** Messages of workers *)

Inductive currentState :=
  | StateIdle
  | StateRejected (uuid : bytes) (reason : option error)
  | StateExecuting (uuid : bytes) (event : option Event)
  | StateCompleted (uuid : bytes) (completed : completion)
  | StateUnknown.

Record requestPublicKey := mkRequestPublicKey { requestKey : bytes; requestZeros : bytes }.

Record SynchronizeRequest := mkSynchronizeRequest {
  requestPublicKeys : list requestPublicKey;
  requestWorkerId : WorkerID;
  requestSizeClass : Z;
  requestCurrentState : currentState;
  PreferBeingIdle : bool;
}.

(** What the worker should do, and when it should synchronize again. *)
Inductive desiredState :=
  | NoDesiredState
  | DesiredIdle
  | DesiredExecuting (uuid : bytes) (action : Action) (timeout queued : Z)
  | DesiredVerifyingPublicKeys (keys : list bytes).

Record SynchronizeResponse := mkSynchronizeResponse {
  NextSynchronizationAt : Z;
  DesiredState : desiredState;
}.

(** A call returns a response, or waits for a channel: because the worker is drained,
    or because there is nothing to do. *)
Inductive synchronizing :=
  | Responds (r : SynchronizeResponse)
  | WaitsDrained (undrain : nat)
  | WaitsQueued (wakeup : nat).

(** ** Verification of public keys *)

(** Rotation of the keys of the scheduler: new private keys for all curves, and new
    zeros for all public keys. *)
Fixpoint regenerateKeys (l : list (Curve * Z)) (keys : list (option (PrivateKey * bytes)))
    : M (list (option (PrivateKey * bytes))) :=
  match l with
  | [] => mret keys
  | (curve, i) :: l =>
      k ← generateVerificationPrivateKey curve;
      _ ← liftOutcome (index keys i);
      regenerateKeys l (<[Z.to_nat i := Some k]> keys)
  end.

(** The body of the loop over the keys of a platform queue: the one at a position is
    replaced. *)
Definition recomputeZeros (p i : nat) : M unit :=
  pq ← getPlatformQueue p;
  publicKey ← deref (fun _ => publicKeys pq !! i);
  newPublicKey ← wrapError CodeInternal (getPlatformQueuePublicKey (pkixPublicKey publicKey));
  pq ← getPlatformQueue p;
  putPlatformQueue p (pq <| publicKeys ::= <[i := newPublicKey]> |>).

Definition rotateVerificationPrivateKeys : M unit :=
  s ← gets id;
  if match verificationPrivateKeyExpiration s with Some t => t >? now s | None => false end then mret tt else
  keys ← regenerateKeys (map_to_list (verificationCurveIndices s))
           (replicate (length (verificationPrivateKeys s)) None);
  keys ← deref (fun _ => mapM id keys);
  _ ← modify (fun s => s <| verificationPrivateKeys := keys |>);
  _ ← forEach (map_to_list (platformQueues s)).*2 (fun p =>
    pq ← getPlatformQueue p;
    forEach (seq 0 (length (publicKeys pq))) (recomputeZeros p));
  modify (fun s => s <| verificationPrivateKeyExpiration := Some (now s + VerificationPrivateKeyRefreshInterval cfg) |>).

(** The platform queue that public keys belong to: all to the same one. *)
Fixpoint findPlatformQueue (found : option nat) (keys : list requestPublicKey) : M (option nat) :=
  match keys with
  | [] => mret found
  | k :: keys =>
      p ← gets (fun s => platformQueues s !! requestKey k);
      match p, found with
      | None, _ => findPlatformQueue found keys
      | Some p, None => findPlatformQueue (Some p) keys
      | Some p, Some p' =>
          if decide (p = p') then findPlatformQueue found keys else fail (StatusError CodeInvalidArgument)
      end
  end.

(** The inner loop: the last comparison, and the position. *)
Fixpoint skipExisting (key : bytes) (existing : list platformQueuePublicKey) (i : nat) (cmp : Z) : Z * nat :=
  match existing with
  | [] => (cmp, i)
  | k :: existing =>
      let cmp := bytes_compare key (pkixPublicKey k) in
      if cmp >=? 0 then (cmp, i) else skipExisting key existing (S i) cmp
  end.

Record verification := mkVerification {
  insertionIndex : nat;
  needsVerification : bool;
  newPublicKeys : list (platformQueuePublicKey * nat);
  curvesSeen : list Z;
  verificationPKIXPublicKeys : list bytes;
}.

(** One public key of a request: the verification, and the index of its curve. *)
Definition verifyPublicKey (existing : list platformQueuePublicKey) (v : verification) (k : requestPublicKey)
    : M (verification * Z) :=
  let '(cmp, i) := skipExisting (requestKey k) (drop (insertionIndex v) existing) (insertionIndex v) 1 in
  let v := v <| insertionIndex := i |> in
  if cmp =? 0 then
    publicKey ← deref (fun _ => existing !! i);
    mret (if negb (needsVerification v) && negb (bool_decide (requestZeros k = verificationZeros publicKey))
          then v <| needsVerification := true |> else v, curveIndex publicKey)
  else if needsVerification v then
    c ← wrapError CodeInvalidArgument (parsePKIXPublicKeyAndGetCurveIndex (requestKey k));
    mret (v, c)
  else
    publicKey ← wrapError CodeInvalidArgument (getPlatformQueuePublicKey (requestKey k));
    mret (if bool_decide (requestZeros k = verificationZeros publicKey)
          then v <| newPublicKeys ::= fun l => l ++ [(publicKey, i)] |>
          else v <| needsVerification := true |>, curveIndex publicKey).

Fixpoint verifyPublicKeys (existing : list platformQueuePublicKey) (v : verification) (keys : list requestPublicKey)
    : M verification :=
  match keys with
  | [] => mret v
  | k :: keys =>
      '(v, c) ← verifyPublicKey existing v k;
      l ← gets verificationPrivateKeys;
      '(_, pkix) ← liftOutcome (index l c);
      let v := if bool_decide (c ∈ curvesSeen v) then v
               else v <| curvesSeen ::= cons c |> <| verificationPKIXPublicKeys ::= fun l => l ++ [pkix] |> in
      verifyPublicKeys existing v keys
  end.

(** ** Telling a worker what to do *)

(** [getIdleSynchronizeResponse] *)
Definition getIdleSynchronizeResponse : M synchronizing :=
  t ← gets now; mret (Responds (mkSynchronizeResponse t DesiredIdle)).

(** [getExecutingSynchronizeResponse] *)
Definition getExecutingSynchronizeResponse (w : nat) : M synchronizing :=
  wk ← getWorker w;
  t ← deref (fun _ => currentTask wk);
  tk ← getTask t;
  n ← gets now;
  mret (Responds (mkSynchronizeResponse (n + BusyWorkerSynchronizationInterval cfg)
    (DesiredExecuting (taskUUID tk) (taskAction tk) (effectiveExecutionTimeout tk) (queuedTimestamp tk)))).

(** The worker is placed in the queue of its last invocation. *)
Definition enqueueWorker (w : nat) : M nat :=
  wk ← getWorker w;
  i ← deref (fun _ => lastInvocation wk);
  v ← getInvocation i;
  if bool_decide (wakeup wk <> None) || bool_decide (w ∈ idleSynchronizingWorkers v) then panic else
  c ← newId;
  _ ← putWorker w (wk <| wakeup := Some c |>);
  _ ← putInvocation i (v <| idleSynchronizingWorkers ::= fun l => l ++ [w] |>);
  _ ← forEach (ancestors i) (fun i =>
    match parentInvocation i with
    | None => mret tt
    | Some p =>
        v ← getInvocation p;
        s ← gets id;
        putInvocation p (v <| idleSynchronizingWorkersChildren ::= fun l => heapPushOrFix (idleChildrenLess s) l i |>)
    end);
  mret c.

(** A round of the loop of [worker.getNextTask]. *)
Definition nextTaskRound (w scq : nat) (drained : bool) : M synchronizing :=
  if drained then q ← getSizeClassQueue scq; mret (WaitsDrained (undrainWakeup q)) else
  assigned ← assignNextQueuedTask w scq;
  if (assigned : bool) then getExecutingSynchronizeResponse w
  else c ← enqueueWorker w; mret (WaitsQueued c).

Definition workerIsDrained (w scq : nat) (workerID : WorkerID) : M bool :=
  wk ← getWorker w; q ← getSizeClassQueue scq; mret (isDrained wk q workerID).

(** [worker.getNextTask].  [blocking]: whether a context is provided. *)
Definition getNextTask (blocking : bool) (w scq : nat) (workerID : WorkerID) (preferBeingIdle : bool) : M synchronizing :=
  if preferBeingIdle then getIdleSynchronizeResponse else
  drained ← workerIsDrained w scq workerID;
  assigned ← (if (drained : bool) then mret false else assignNextQueuedTask w scq);
  if (assigned : bool) then getExecutingSynchronizeResponse w else
  if negb blocking then getIdleSynchronizeResponse else
  nextTaskRound w scq drained.

(** [worker.getCurrentOrNextTask] *)
Definition getCurrentOrNextTask (blocking : bool) (w scq : nat) (workerID : WorkerID) (preferBeingIdle : bool)
    : M synchronizing :=
  wk ← getWorker w;
  match currentTask wk with
  | None => getNextTask blocking w scq workerID preferBeingIdle
  | Some t =>
      tk ← getTask t;
      if retryCount tk <? WorkerTaskRetryCount cfg then
        _ ← putTask t (tk <| retryCount ::= Z.add 1 |>);
        getExecutingSynchronizeResponse w
      else
        _ ← taskFail cfg t (StatusError CodeInternal) false;
        getNextTask blocking w scq workerID preferBeingIdle
  end.

(** [worker.isRunningCorrectTask] *)
Definition isRunningCorrectTask (w : nat) (uuid : bytes) : M bool :=
  wk ← getWorker w;
  match currentTask wk with
  | None => mret false
  | Some t => tk ← getTask t; mret (bool_decide (taskUUID tk = uuid))
  end.

(** What follows from the state that a worker reports. *)
Definition processCurrentState (w scq : nat) (request : SynchronizeRequest) : M synchronizing :=
  let workerID := requestWorkerId request in
  let prefer := PreferBeingIdle request in
  match requestCurrentState request with
  | StateIdle => getCurrentOrNextTask true w scq workerID prefer
  | StateRejected uuid reason =>
      correct ← isRunningCorrectTask w uuid;
      if negb correct then getCurrentOrNextTask true w scq workerID prefer else
      match reason with
      | None => fail (StatusError CodeInvalidArgument)
      | Some e =>
          wk ← getWorker w;
          t ← deref (fun _ => currentTask wk);
          _ ← taskFail cfg t e true;
          getNextTask true w scq workerID prefer
      end
  | StateExecuting uuid event =>
      correct ← isRunningCorrectTask w uuid;
      if negb correct then getCurrentOrNextTask false w scq workerID prefer else
      _ ← match event with
          | None => mret tt
          | Some e =>
              wk ← getWorker w;
              t ← deref (fun _ => currentTask wk);
              tk ← getTask t;
              _ ← putTask t (tk <| lastExecutionEvent := Some e |> <| executionEventsSeen ::= Z.add 1 |>);
              reportNonFinalStageChange t
          end;
      n ← gets now;
      mret (Responds (mkSynchronizeResponse (n + BusyWorkerSynchronizationInterval cfg) NoDesiredState))
  | StateCompleted uuid completed =>
      correct ← isRunningCorrectTask w uuid;
      if negb correct then getCurrentOrNextTask true w scq workerID prefer else
      wk ← getWorker w;
      t ← deref (fun _ => currentTask wk);
      _ ← taskComplete cfg t completed;
      getNextTask true w scq workerID prefer
  | StateUnknown => fail (StatusError CodeInvalidArgument)
  end.

(** ** [Synchronize] *)

(** The deferred function: whenever the call returns, the worker may become stale. *)
Definition scheduleRemoval (scq : nat) (key : bytes) : M unit :=
  n ← gets now;
  let removalTime := n + WorkerWithNoSynchronizationsTimeout cfg in
  cleanupAdd removalTime (RemoveStaleWorker scq key removalTime).

Definition returning (scq : nat) (key : bytes) (m : M synchronizing) : M synchronizing := fun s =>
  match m s with
  | (Returns (Responds r), s) => (_ ← scheduleRemoval scq key; mret (Responds r)) s
  | (Fails e, s) => (_ ← scheduleRemoval scq key; fail e) s
  | r => r
  end.

(** The size class queue of a platform queue for a size class, if there is one. *)
Definition findSizeClassQueue (pq : platformQueue) (sizeClass : Z) : option nat :=
  let i := insertionPosition (sizeClasses pq) sizeClass in
  if bool_decide (sizeClasses pq !! i = Some sizeClass) then sizeClassQueues pq !! i else None.

(** Whether a size class may be added to a platform queue. *)
Definition checkNewSizeClass (pq : platformQueue) (sizeClass : Z) : M unit :=
  let invalid := StatusError CodeInvalidArgument in
  largest ← deref (fun _ => last (sizeClassQueues pq));
  q ← getSizeClassQueue largest;
  if mayBeRemoved q then fail invalid else
  maximum ← deref (fun _ => last (sizeClasses pq));
  if sizeClass >? maximum then fail invalid else
  if (maximum >? 0) && (sizeClass <? 1) then fail invalid else mret tt.

(** The worker of a key, which must not be synchronizing already; or a new one. *)
Definition getOrCreateWorker (scq : nat) (key : bytes) : M nat :=
  q ← getSizeClassQueue scq;
  match workers q !! key with
  | Some w =>
      active ← gets (cleanupIsActive (RemoveStaleWorker scq key 0));
      if negb active then fail (StatusError CodeResourceExhausted) else
      _ ← cleanupRemove (RemoveStaleWorker scq key 0);
      mret w
  | None =>
      pq ← getPlatformQueue (queuePlatformQueue q);
      w ← newId;
      _ ← putWorker w (mkWorker key None false (Some (rootInvocation scq)) None
             (replicate (length (workerInvocationStickinessLimits pq)) 0));
      v ← getInvocation (rootInvocation scq);
      _ ← putInvocation (rootInvocation scq) (v <| idleWorkersCount ::= fun n => u32 (n + 1) |>);
      _ ← putSizeClassQueue scq (q <| workers ::= <[key := w]> |>);
      mret w
  end.

(** Up to the point where the platform queue and the size class queue exist. *)
Definition registerQueues (p : option nat) (new : list (platformQueuePublicKey * nat)) (sizeClass : Z) : M nat :=
  '(p, scq) ← match p with
    | None => p ← newPlatformQueue [] 0 0; mret (p, None)
    | Some p =>
        pq ← getPlatformQueue p;
        match findSizeClassQueue pq sizeClass with
        | Some q =>
            active ← gets (cleanupIsActive (RemoveSizeClassQueue q));
            _ ← whenM active (cleanupRemove (RemoveSizeClassQueue q));
            mret (p, Some q)
        | None => _ ← checkNewSizeClass pq sizeClass; mret (p, None)
        end
    end;
  _ ← addNewPublicKeys p new;
  match scq with
  | Some q => mret q
  | None => addSizeClassQueue p sizeClass true
  end.

Definition Synchronize (t : Z) (request : SynchronizeRequest) : M synchronizing :=
  let keys := requestPublicKeys request in
  if bool_decide (keys = []) then fail (StatusError CodeInvalidArgument) else
  if negb (isSorted (fun a b => bytes_compare (requestKey a) (requestKey b)) keys)
  then fail (StatusError CodeInvalidArgument) else
  let key := marshalWorkerID (requestWorkerId request) in
  critical cfg t (
    _ ← rotateVerificationPrivateKeys;
    p ← findPlatformQueue None keys;
    existing ← match p with Some p => pq ← getPlatformQueue p; mret (publicKeys pq) | None => mret [] end;
    let missing := existsb (fun k => negb (zlen (requestZeros k) =? BlockSize)) keys in
    v ← verifyPublicKeys existing (mkVerification 0 missing [] [] []) keys;
    if needsVerification v then
      n ← gets now;
      mret (Responds (mkSynchronizeResponse n (DesiredVerifyingPublicKeys (verificationPKIXPublicKeys v))))
    else
      scq ← registerQueues p (newPublicKeys v) (requestSizeClass request);
      w ← getOrCreateWorker scq key;
      returning scq key (processCurrentState w scq request)).

(** How a wait ends. *)
Inductive wakeReason := TimedOut | Cancelled | WokenUp.

(** The loop of [worker.getNextTask] goes on after a wait. *)
Definition resumeDrained (t : Z) (w scq : nat) (key : bytes) (workerID : WorkerID) (reason : wakeReason) : M synchronizing :=
  critical cfg t (returning scq key
    match reason with
    | TimedOut => getIdleSynchronizeResponse
    | Cancelled => fail (StatusError CodeCanceled)
    | WokenUp => drained ← workerIsDrained w scq workerID; nextTaskRound w scq drained
    end).

Definition resumeQueued (t : Z) (w scq : nat) (key : bytes) (workerID : WorkerID) (reason : wakeReason) : M synchronizing :=
  critical cfg t (returning scq key
    match reason with
    | TimedOut =>
        _ ← maybeDequeue w;
        wk ← getWorker w;
        if bool_decide (currentTask wk <> None) then getExecutingSynchronizeResponse w else getIdleSynchronizeResponse
    | Cancelled => _ ← maybeDequeue w; fail (StatusError CodeCanceled)
    | WokenUp =>
        wk ← getWorker w;
        if bool_decide (currentTask wk <> None) then getExecutingSynchronizeResponse w else
        drained ← workerIsDrained w scq workerID; nextTaskRound w scq drained
    end).
End workers.
