(* ===== verification/SchedulerAdmin.v ===== *)
(** * The scheduler: inspection and administration

    [pkg/scheduler/in_memory_build_queue.go], the last part: the calls of the service
    that reports and changes the state of the build queue. *)

From stdpp Require Import sorting.
From S2P Require Import Prelude References Heap SchedulerState Scheduler SchedulerCalls SchedulerWorkers.

(** [getPaginationInfo]: the start, the total, and the end of a page.  [startIndex] is
    what [sort.Search] returns, the first position at which a predicate holds. *)
Definition getPaginationInfo (n pageSize startIndex : Z) : Z * Z * Z :=
  let startIndex := u32 startIndex in
  let endIndex := u32 n in
  let endIndex := if u32 (endIndex - startIndex) >? pageSize then u32 (startIndex + pageSize) else endIndex in
  (startIndex, u32 n, endIndex).

(** [sort.Search] over a list: the binary search. *)
Fixpoint searchLoop (fuel : nat) (f : nat -> bool) (i j : nat) : nat :=
  match fuel with
  | O => i
  | S fuel =>
      if (i <? j)%nat then
        let h := ((i + j) / 2)%nat in
        if f h then searchLoop fuel f i h else searchLoop fuel f (S h) j
      else i
  end.

Definition sortSearch (n : nat) (f : nat -> bool) : nat := searchLoop n f 0 n.

(** A page of a sorted list: the entries that [after] accepts, up to the size. *)
Definition page {A} (after : A -> bool) (pageSize : Z) (l : list A) : outcome (list A * (Z * Z)) :=
  let start := sortSearch (length l) (fun i => match l !! i with Some x => after x | None => false end) in
  let '(startIndex, total, endIndex) := getPaginationInfo (zlen l) pageSize (Z.of_nat start) in
  region ← slice l startIndex endIndex;
  Ok (region, (startIndex, total)).

(** [sort.Sort], for an order of heaps. *)
Definition sortBy {A} (le : A -> A -> bool) (l : list A) : list A :=
  @merge_sort A (fun a b => le a b = true) (fun a b => decide (le a b = true)) l.

Section admin.
Context {E : Environment}.
Context (cfg : configuration).

(** Names, and keys of workers and drains, as [sort.Strings] sorts them. *)
Definition bytes_le (a b : bytes) : Prop := bytes_compare a b <= 0.
#[local] Instance bytes_le_dec : RelDecision bytes_le.
Proof. unfold bytes_le. intros a b. apply _. Defined.

Definition sortStrings (l : list bytes) : list bytes := merge_sort bytes_le l.

(** ** Names of queues and invocations *)

Record SizeClassQueueName := mkSizeClassQueueName { namePublicKey : bytes; nameSizeClass : Z }.

(** [getSizeClassQueueByName] *)
Definition getSizeClassQueueByName (name : SizeClassQueueName) : M nat :=
  s ← gets id;
  match platformQueues s !! namePublicKey name with
  | None => fail (StatusError CodeNotFound)
  | Some p =>
      pq ← getPlatformQueue p;
      match findSizeClassQueue pq (nameSizeClass name) with
      | Some q => mret q
      | None => fail (StatusError CodeNotFound)
      end
  end.

(** [getInvocationByName]: the keys are those of the IDs. *)
Definition getInvocationByName (name : option (SizeClassQueueName * list bytes)) : M (InvocationId * nat) :=
  match name with
  | None => fail (StatusError CodeInvalidArgument)
  | Some (queueName, keys) =>
      scq ← getSizeClassQueueByName queueName;
      s ← gets id;
      if forallb (fun n => bool_decide (is_Some (allInvocations s !! (scq, take n keys)))) (seq 1 (length keys))
      then mret ((scq, keys), scq)
      else fail (StatusError CodeNotFound)
  end.

(** ** States that are reported *)

Record invocationState := mkInvocationState {
  QueuedOperationsCount : Z;
  ChildrenCount : Z;
  QueuedChildrenCount : Z;
  ActiveChildrenCount : Z;
  ExecutingWorkersCount : Z;
  IdleWorkersCount : Z;
  IdleSynchronizingWorkersCount : Z;
}.

(** The children of an invocation, with their last key. *)
Definition childrenOf (s : buildQueue) (i : InvocationId) : list (InvocationId * invocation) :=
  filter (fun c => parentInvocation c.1 = Some i) (map_to_list (allInvocations s)).

(** [getInvocationState] *)
Definition getInvocationState (i : InvocationId) : M invocationState :=
  v ← getInvocation i;
  s ← gets id;
  let children := childrenOf s i in
  mret (mkInvocationState
    (u32 (zlen (queuedOperations v))) (u32 (zlen children)) (u32 (zlen (queuedChildren v)))
    (u32 (zlen (filter (fun c : InvocationId * invocation => isActive c.2 = true) children)))
    (u32 (Z.of_nat (size (executingWorkers v)))) (idleWorkersCount v)
    (u32 (zlen (idleSynchronizingWorkers v)))).

Record operationState := mkOperationState {
  stateName : bytes;
  stateInvocation : bytes * Z * list bytes;
  stateExpectedDuration : Z;
  stateQueuedTimestamp : Z;
  stateAction : Action;
  stateTimeout : option Z;
  statePriority : Z;
  stateStage : stage;
}.

(** [operation.getOperationState] *)
Definition getOperationState (o : nat) : M operationState :=
  op ← getOperation o;
  t ← getTask (operationTask op);
  scq ← getCurrentSizeClassQueue t;
  q ← getSizeClassQueue scq;
  pq ← getPlatformQueue (queuePlatformQueue q);
  key ← deref (fun _ => publicKeys pq !! 0%nat);
  s ← gets id;
  mret (mkOperationState (operationName op)
    (pkixPublicKey key, queueSizeClass q, (operationInvocation op).2)
    (expectedDuration t) (queuedTimestamp t) (taskAction t)
    (cleanupTimestamp (RemoveOperation o) s) (operationPriority op) (getStage t)).

(** [GetOperation] *)
Definition GetOperation (t : Z) (name : bytes) : M operationState :=
  critical cfg t (
    found ← gets (fun s => operationsNameMap s !! name);
    match found with None => fail (StatusError CodeNotFound) | Some o => getOperationState o end).

(** [ListOperations], for a stage and an invocation key, after a name. *)
Fixpoint collect {A B} (l : list A) (f : A -> M B) : M (list B) :=
  match l with [] => mret [] | x :: l => y ← f x; l ← collect l f; mret (y :: l) end.

Definition operationMatches (s : buildQueue) (filterKey : option bytes) (filterStage : option stage) (o : nat) : M bool :=
  op ← getOperation o;
  t ← getTask (operationTask op);
  mret (match filterKey with None => true | Some k => hasInvocationKey (operationInvocation op) k end &&
    match filterStage, getStage t with
    | None, _ | Some Queued, Queued | Some Executing, Executing | Some Completed, Completed => true
    | _, _ => false
    end).

Fixpoint filterM {A} (f : A -> M bool) (l : list A) : M (list A) :=
  match l with
  | [] => mret []
  | x :: l => b ← f x; l ← filterM f l; mret (if (b : bool) then x :: l else l)
  end.

Definition ListOperations (t : Z) (filterKey : option bytes) (filterStage : option stage)
    (startAfter : option bytes) (pageSize : Z) : M (list operationState * (Z * Z)) :=
  critical cfg t (
    s ← gets id;
    l ← filterM (fun no => operationMatches s filterKey filterStage no.2) (map_to_list (operationsNameMap s));
    let names := sortStrings l.*1 in
    '(region, info) ← liftOutcome (page (fun name =>
      match startAfter with None => true | Some a => bytes_compare name a >? 0 end) pageSize names);
    states ← collect region (fun name => o ← deref (fun s => operationsNameMap s !! name); getOperationState o);
    mret (states, info)).

(** [ListPlatformQueues]: for every platform queue its keys, and its size classes with
    the timeout, the root invocation and the numbers of workers and drains. *)
Definition sizeClassQueueState (classAndQueue : Z * nat) : M (Z * option Z * invocationState * Z * Z) :=
  let '(c, q) := classAndQueue in
  scq ← getSizeClassQueue q;
  timeout ← gets (cleanupTimestamp (RemoveSizeClassQueue q));
  root ← getInvocationState (rootInvocation q);
  mret (c, timeout, root, u32 (Z.of_nat (size (workers scq))), u32 (Z.of_nat (size (drains scq)))).

Definition firstKeyLe (s : buildQueue) (p p' : nat) : Prop :=
  match (allPlatformQueues s !! p ≫= fun pq => publicKeys pq !! 0%nat),
        (allPlatformQueues s !! p' ≫= fun pq => publicKeys pq !! 0%nat) with
  | Some k, Some k' => bytes_le (pkixPublicKey k) (pkixPublicKey k')
  | _, _ => True
  end.
#[local] Instance firstKeyLe_dec s : RelDecision (firstKeyLe s).
Proof. unfold firstKeyLe. intros p p'. repeat case_match; apply _. Defined.

(** [slices.Compact] *)
Fixpoint compact (l : list nat) : list nat :=
  match l with
  | x :: (y :: _) as l' => if decide (x = y) then compact l' else x :: compact l'
  | _ => l
  end.

Definition ListPlatformQueues (t : Z)
    : M (list (list bytes * list (Z * option Z * invocationState * Z * Z))) :=
  critical cfg t (
    s ← gets id;
    collect (compact (merge_sort (firstKeyLe s) (map_to_list (platformQueues s)).*2)) (fun p =>
      pq ← getPlatformQueue p;
      states ← collect (zip (sizeClasses pq) (sizeClassQueues pq)) sizeClassQueueState;
      mret (map pkixPublicKey (publicKeys pq), states))).

(** [ListInvocationChildren] *)
Inductive childrenFilter := AllChildren | ActiveChildren | QueuedChildrenOnly.

Definition lastKey (i : InvocationId) : bytes := default [] (last i.2).

Definition ListInvocationChildren (t : Z) (name : option (SizeClassQueueName * list bytes)) (which : childrenFilter)
    : M (list (bytes * invocationState)) :=
  critical cfg t (
    '(i, _) ← getInvocationByName name;
    v ← getInvocation i;
    s ← gets id;
    match which with
    | QueuedChildrenOnly =>
        let sorted := sortBy (fun a b => negb (queuedChildrenLess s b a)) (queuedChildren v) in
        _ ← putInvocation i (v <| queuedChildren := sorted |>);
        collect sorted (fun c => st ← getInvocationState c; mret (lastKey c, st))
    | _ =>
        let children := filter (fun c : InvocationId * invocation =>
          match which with AllChildren => true | _ => isActive c.2 end = true) (childrenOf s i) in
        collect (sortStrings (map (fun c => lastKey c.1) children)) (fun k =>
          st ← getInvocationState (i.1, i.2 ++ [k]); mret (k, st))
    end).

(** [ListQueuedOperations]: after a priority, an expected duration and a timestamp. *)
Definition queuedAfter (s : buildQueue) (startAfter : option (Z * Z * Z)) (o : nat) : bool :=
  match startAfter, allOperations s !! o with
  | None, _ => true
  | Some (priority, expected, queued), Some op =>
      if operationPriority op >? priority then true
      else if operationPriority op <? priority then false
      else match allTasks s !! operationTask op with
      | Some t =>
          if expectedDuration t <? expected then true
          else if expectedDuration t >? expected then false
          else queuedTimestamp t >? queued
      | None => false
      end
  | _, None => false
  end.

Definition ListQueuedOperations (t : Z) (name : option (SizeClassQueueName * list bytes))
    (startAfter : option (Z * Z * Z)) (pageSize : Z) : M (list operationState * (Z * Z)) :=
  critical cfg t (
    '(i, _) ← getInvocationByName name;
    v ← getInvocation i;
    s ← gets id;
    let sorted := sortBy (fun a b => negb (queuedOperationsLess s b a)) (queuedOperations v) in
    _ ← putInvocation i (v <| queuedOperations := sorted |>);
    '(region, info) ← liftOutcome (page (queuedAfter s startAfter) pageSize sorted);
    states ← collect region getOperationState;
    mret (states, info)).

(** [ListWorkers]: the workers of a queue, those that execute operations of an
    invocation, or those that are idle in an invocation. *)
Inductive workersFilter :=
  | AllWorkers (name : SizeClassQueueName)
  | ExecutingWorkers (name : option (SizeClassQueueName * list bytes))
  | IdleSynchronizingWorkers (name : option (SizeClassQueueName * list bytes)).

Record workerState := mkWorkerState {
  workerStateId : WorkerID;
  workerStateTimeout : option Z;
  workerStateOperation : option operationState;
  workerStateDrained : bool;
}.

(** The operation of a task with the lowest name. *)
Definition lowestOperation (s : buildQueue) (l : list nat) : option nat :=
  foldl (fun acc o =>
    match acc, allOperations s !! o with
    | Some a, Some op =>
        match allOperations s !! a with
        | Some best => if bytes_compare (operationName best) (operationName op) >? 0 then Some o else acc
        | None => acc
        end
    | None, Some _ => Some o
    | _, None => acc
    end) None l.

Definition getWorkerState (scq : nat) (key : bytes) : M workerState :=
  q ← getSizeClassQueue scq;
  w ← deref (fun _ => workers q !! key);
  wk ← getWorker w;
  s ← gets id;
  op ← match currentTask wk with
       | None => mret None
       | Some t =>
           tk ← getTask t;
           o ← deref (fun _ => lowestOperation s (taskOperations tk));
           st ← getOperationState o; mret (Some st)
       end;
  let workerID := unmarshalWorkerID key in
  mret (mkWorkerState workerID (cleanupTimestamp (RemoveStaleWorker scq key 0) s) op (isDrained wk q workerID)).

Definition workerKeys (l : list nat) : M (list bytes) := collect l (fun w => wk ← getWorker w; mret (workerKey wk)).

Definition ListWorkers (t : Z) (which : workersFilter) (startAfter : option WorkerID) (pageSize : Z)
    : M (list workerState * (Z * Z)) :=
  critical cfg t (
    '(scq, keys) ← match which with
      | AllWorkers name =>
          scq ← getSizeClassQueueByName name;
          q ← getSizeClassQueue scq;
          mret (scq, (map_to_list (workers q)).*1)
      | ExecutingWorkers name =>
          '(i, scq) ← getInvocationByName name;
          v ← getInvocation i;
          keys ← workerKeys (map_to_list (executingWorkers v)).*1;
          mret (scq, keys)
      | IdleSynchronizingWorkers name =>
          '(i, scq) ← getInvocationByName name;
          v ← getInvocation i;
          keys ← workerKeys (idleSynchronizingWorkers v);
          mret (scq, keys)
      end;
    '(region, info) ← liftOutcome (page (fun key =>
      match startAfter with None => true | Some a => bytes_compare key (marshalWorkerID a) >? 0 end)
      pageSize (sortStrings keys));
    states ← collect region (getWorkerState scq);
    mret (states, info)).

(** ** Operations that are killed *)

Inductive killFilter := KillOperationName (name : bytes) | KillSizeClassQueueWithoutWorkers (name : SizeClassQueueName).

(** [KillOperations] *)
Definition KillOperations (t : Z) (reason : option error) (which : killFilter) : M unit :=
  match reason with
  | None => fail (StatusError CodeInvalidArgument)
  | Some err =>
      critical cfg t (
        match which with
        | KillOperationName name =>
            found ← gets (fun s => operationsNameMap s !! name);
            match found with
            | None => fail (StatusError CodeNotFound)
            | Some o => op ← getOperation o; taskFail cfg (operationTask op) err false
            end
        | KillSizeClassQueueWithoutWorkers name =>
            scq ← getSizeClassQueueByName name;
            q ← getSizeClassQueue scq;
            if negb (bool_decide (workers q = ∅)) then fail (StatusError CodeFailedPrecondition) else
            fuel ← gets failAllFuel;
            failAllQueuedOperations cfg fuel (rootInvocation scq) err
        end)
  end.

(** ** Drains and termination *)

(** The worker, if it waits in a queue and matches, is woken up. *)
Definition wakeUpMatching (pattern : WorkerID) (keyAndWorker : bytes * nat) : M unit :=
  let '(key, w) := keyAndWorker in
  wk ← getWorker w;
  if bool_decide (wakeup wk <> None) && workerMatchesPattern (unmarshalWorkerID key) pattern
  then wakeUp w else mret tt.

(** [AddDrain] *)
Definition AddDrain (t : Z) (name : SizeClassQueueName) (pattern : WorkerID) : M unit :=
  critical cfg t (
    scq ← getSizeClassQueueByName name;
    q ← getSizeClassQueue scq;
    n ← gets now;
    _ ← putSizeClassQueue scq (q <| drains ::= <[marshalWorkerID pattern := (pattern, n)]> |>);
    forEach (map_to_list (workers q)) (wakeUpMatching pattern)).

(** [RemoveDrain] *)
Definition RemoveDrain (t : Z) (name : SizeClassQueueName) (pattern : WorkerID) : M unit :=
  critical cfg t (
    scq ← getSizeClassQueueByName name;
    q ← getSizeClassQueue scq;
    _ ← closeChannel (Some (undrainWakeup q));
    c ← newId;
    putSizeClassQueue scq (q <| drains ::= delete (marshalWorkerID pattern) |> <| undrainWakeup := c |>)).

(** [ListDrains] *)
Definition ListDrains (t : Z) (name : SizeClassQueueName) : M (list (WorkerID * Z)) :=
  critical cfg t (
    scq ← getSizeClassQueueByName name;
    q ← getSizeClassQueue scq;
    collect (sortStrings (map_to_list (drains q)).*1) (fun k => deref (fun _ => drains q !! k))).

(** [TerminateWorkers], up to where it waits: the channels that it waits for. *)
Definition terminateWorker (keyAndWorker : bytes * nat) (pattern : WorkerID) : M (list nat) :=
  let '(key, w) := keyAndWorker in
  if negb (workerMatchesPattern (unmarshalWorkerID key) pattern) then mret [] else
  _ ← markWorkerTerminating w;
  wk ← getWorker w;
  match currentTask wk with
  | Some t => tk ← getTask t; c ← deref (fun _ => stageChangeWakeup tk); mret [c]
  | None => _ ← (if bool_decide (wakeup wk <> None) then wakeUp w else mret tt); mret []
  end.

Definition TerminateWorkers (t : Z) (pattern : WorkerID) : M (list nat) :=
  critical cfg t (
    s ← gets id;
    l ← collect (remove_dups (map_to_list (platformQueues s)).*2) (fun p =>
      pq ← getPlatformQueue p;
      l ← collect (sizeClassQueues pq) (fun scq =>
        q ← getSizeClassQueue scq;
        l ← collect (map_to_list (workers q)) (fun kw => terminateWorker kw pattern);
        mret (concat l));
      mret (concat l));
    mret (concat l)).

(** Whether the wait of [TerminateWorkers] is over. *)
Definition terminationDone (channels : list nat) (s : buildQueue) : bool :=
  forallb (fun c => bool_decide (c ∈ closedChannels s)) channels.
End admin.
