(* ===== verification/SchedulerFrames.v ===== *)
(** * The scheduler: reasoning about calls

    What calls leave unchanged.  [wp] is a weakest precondition for calls: of those
    that panic or wait forever nothing is claimed, as they end the process.  Most
    operations only move invocations and workers around: [same] says what they keep of
    tasks, operations, workers and queues ([Frame]). *)

From S2P Require Import Prelude References Heap SchedulerState SchedulerLifeCycle Scheduler SchedulerCalls SchedulerWorkers.

Section frames.
Context {E : Environment}.
Context (cfg : configuration).

(** ** Weakest preconditions *)

Definition wp {A} (m : M A) (Q : A -> buildQueue -> Prop) (F : buildQueue -> Prop) (s : buildQueue) : Prop :=
  match m s with (Returns a, s) => Q a s | (Fails _, s) => F s | _ => True end.

Lemma wp_ret {A} (a : A) Q F s : Q a s -> wp (mret a) Q F s.
Proof. done. Qed.

Lemma wp_bind {A B} (m : M A) (f : A -> M B) Q F s :
  wp m (fun a s => wp (f a) Q F s) F s -> wp (m ≫= f) Q F s.
Proof. unfold wp, mbind, M_bind. by destruct (m s) as [[] ?]. Qed.

Lemma wp_mono {A} (m : M A) (Q Q' : A -> buildQueue -> Prop) (F F' : buildQueue -> Prop) s :
  wp m Q F s -> (forall a s, Q a s -> Q' a s) -> (forall s, F s -> F' s) -> wp m Q' F' s.
Proof. unfold wp. destruct (m s) as [[] ?]; auto. Qed.

Lemma wp_gets {A} (f : buildQueue -> A) Q F s : Q (f s) s -> wp (gets f) Q F s.
Proof. done. Qed.

Lemma wp_modify f Q F s : Q tt (f s) -> wp (modify f) Q F s.
Proof. done. Qed.

Lemma wp_fail {A} e (Q : A -> _) (F : buildQueue -> Prop) s : F s -> wp (fail e) Q F s.
Proof. done. Qed.

Lemma wp_panic {A} (Q : A -> _) F s : wp panic Q F s.
Proof. done. Qed.

Lemma wp_deref {A} (f : buildQueue -> option A) (Q : A -> _) F s :
  (forall a, f s = Some a -> Q a s) -> wp (deref f) Q F s.
Proof. unfold wp, deref. destruct (f s); auto. Qed.

Lemma wp_newId Q F s : Q (nextId s) (s <| nextId ::= S |>) -> wp newId Q F s.
Proof. done. Qed.

Lemma wp_closeChannel c Q F s :
  (forall i, c = Some i -> Q tt (s <| closedChannels ::= union {[i]} |>)) -> wp (closeChannel c) Q F s.
Proof.
  unfold closeChannel. destruct c as [c|]; [|done]. intros H. unfold wp, mbind, M_bind, gets. cbv beta iota.
  case_bool_decide; [done|]. by apply (H c).
Qed.

(** ** Frames *)

(** What holds of the states before and after a call that does not fail, and of one
    that may fail. *)
Class Frame (R : relation buildQueue) {A} (m : M A) : Prop :=
  frame s : wp m (fun _ s' => R s s') (fun _ => False) s.

Class FailFrame (R : relation buildQueue) {A} (m : M A) : Prop :=
  failFrame s : wp m (fun _ s' => R s s') (fun s' => R s s') s.

Lemma wp_frame R {A} (m : M A) `{!Frame R m} Q F s : (forall a s', R s s' -> Q a s') -> wp m Q F s.
Proof. intros HQ. eapply wp_mono; [apply (frame s)|intros a s1 H1; exact (HQ a s1 H1)|done]. Qed.

Lemma wp_failFrame R {A} (m : M A) `{!FailFrame R m} Q F s :
  (forall a s', R s s' -> Q a s') -> (forall s', R s s' -> F s') -> wp m Q F s.
Proof. intros HQ HF. eapply wp_mono; [apply (failFrame s)|intros a s1 H1; exact (HQ a s1 H1)|exact HF]. Qed.

Section rules.
Context (R : relation buildQueue) `{!PreOrder R}.

#[export] Instance frame_ret {A} (a : A) : Frame R (mret a).
Proof. intros s. apply wp_ret. reflexivity. Qed.

#[export] Instance frame_bind {A B} (m : M A) (f : A -> M B) :
  Frame R m -> (forall a, Frame R (f a)) -> Frame R (m ≫= f).
Proof.
  intros Hm Hf s. apply wp_bind. eapply wp_mono; [apply Hm| |done]. intros a s1 H1. cbv beta.
  eapply wp_mono; [apply Hf|intros b s2 H2; exact (transitivity H1 H2)|done].
Qed.

#[export] Instance frame_gets {A} (f : buildQueue -> A) : Frame R (gets f).
Proof. intros s. apply wp_gets. reflexivity. Qed.

#[export] Instance frame_deref {A} (f : buildQueue -> option A) : Frame R (deref f).
Proof. intros s. apply wp_deref. reflexivity. Qed.

#[export] Instance frame_panic {A} : Frame R (A := A) panic.
Proof. done. Qed.

#[export] Instance frame_forEach {A} (l : list A) (f : A -> M unit) :
  (forall x, Frame R (f x)) -> Frame R (forEach l f).
Proof. intros Hf. induction l; simpl; apply _. Qed.

Lemma frame_modify f : (forall s, R s (f s)) -> Frame R (modify f).
Proof. intros H s. by apply wp_modify. Qed.

#[export] Instance failFrame_frame {A} (m : M A) : Frame R m -> FailFrame R m | 10.
Proof. intros Hm s. eapply wp_mono; [apply Hm|done|done]. Qed.

#[export] Instance failFrame_bind {A B} (m : M A) (f : A -> M B) :
  FailFrame R m -> (forall a, FailFrame R (f a)) -> FailFrame R (m ≫= f) | 5.
Proof.
  intros Hm Hf s. apply wp_bind. eapply wp_mono; [apply Hm| |done]. intros a s1 H1. cbv beta.
  eapply wp_mono; [apply Hf|intros b s2 H2; exact (transitivity H1 H2)|intros s2 H2; exact (transitivity H1 H2)].
Qed.

#[export] Instance failFrame_fail {A} e : FailFrame R (A := A) (fail e).
Proof. intros s. apply wp_fail. reflexivity. Qed.

#[export] Instance failFrame_liftOutcome {A} (o : outcome A) : FailFrame R (liftOutcome o).
Proof. intros s. unfold wp, liftOutcome. destruct o; simpl; reflexivity || done. Qed.

#[export] Instance failFrame_forEach {A} (l : list A) (f : A -> M unit) :
  (forall x, FailFrame R (f x)) -> FailFrame R (forEach l f).
Proof. intros Hf. induction l; simpl; apply _. Qed.

#[export] Instance failFrame_wrapError {A} c (m : M A) : FailFrame R m -> FailFrame R (wrapError c m).
Proof. intros Hm s. specialize (Hm s). unfold wp, wrapError in *. by destruct (m s) as [[] ?]. Qed.
End rules.

(** ** What most operations keep *)

(** The part of tasks and operations that their life cycle consists of. *)
Definition taskCore (t : task) : taskView :=
  mkTaskView (operations t) (deduplicationKey t) (currentWorker t)
    (match initialSizeClassLearner t with Some _ => true | None => false end) (failureErr t, lastExecutionEvent t).

Definition operationCore (o : operation) : operationView :=
  mkOperationView (operationName o) (operationTask o) (operationInvocation o) (waiters o) (mayExistWithoutWaiters o).

(** The queued operations of an invocation, if it exists. *)
Definition queueOf (s : buildQueue) (i : InvocationId) : list nat :=
  match allInvocations s !! i with Some v => queuedOperations v | None => [] end.

(** The operations that the cleanup queue is going to remove. *)
Definition removedOperation (e : cleanupEntry) : option nat :=
  match callback e with RemoveOperation o => Some o | _ => None end.

Definition cleanupOperations (s : buildQueue) : list nat := omap removedOperation (cleanupQueue s).

(** Size class queues are numbered below [nextId]. *)
Definition queueIds (s : buildQueue) : Prop :=
  forall p pq q, allPlatformQueues s !! p = Some pq -> q ∈ sizeClassQueues pq -> (q < nextId s)%nat.

(** The view of a state. *)
Definition viewOf (s : buildQueue) : view :=
  mkView (currentTask <$> allWorkers s) (taskCore <$> allTasks s) (operationCore <$> allOperations s)
    (operationsNameMap s) (inFlightDeduplicationMap s) (queueOf s) (cleanupOperations s) (nextId s).

Record same (s s' : buildQueue) : Prop := {
  same_workers : currentTask <$> allWorkers s' = currentTask <$> allWorkers s;
  same_tasks : taskCore <$> allTasks s' = taskCore <$> allTasks s;
  same_operations : operationCore <$> allOperations s' = operationCore <$> allOperations s;
  same_names : operationsNameMap s' = operationsNameMap s;
  same_inflight : inFlightDeduplicationMap s' = inFlightDeduplicationMap s;
  same_queues i : queueOf s' i ≡ₚ queueOf s i;
  same_cleanup : cleanupOperations s' ≡ₚ cleanupOperations s;
  same_queueIds : queueIds s -> queueIds s';
  same_ids : (nextId s <= nextId s')%nat;
}.

#[export] Instance same_preorder : PreOrder same.
Proof.
  split.
  - intros s. split; try reflexivity. done.
  - intros s1 s2 s3 H1 H2. split.
    + rewrite (same_workers _ _ H2). apply H1.
    + rewrite (same_tasks _ _ H2). apply H1.
    + rewrite (same_operations _ _ H2). apply H1.
    + rewrite (same_names _ _ H2). apply H1.
    + rewrite (same_inflight _ _ H2). apply H1.
    + intros i. rewrite (same_queues _ _ H2). apply H1.
    + rewrite (same_cleanup _ _ H2). apply H1.
    + intros H. by apply H2, H1.
    + pose proof (same_ids _ _ H1). pose proof (same_ids _ _ H2). lia.
Qed.

Lemma same_similar s s' : same s s' -> similar (viewOf s) (viewOf s').
Proof. intros H. split; apply H. Qed.

(** A change of the state that does not touch any of these. *)
Lemma same_stores (s s' : buildQueue) :
  allWorkers s' = allWorkers s -> allTasks s' = allTasks s -> allOperations s' = allOperations s ->
  operationsNameMap s' = operationsNameMap s -> inFlightDeduplicationMap s' = inFlightDeduplicationMap s -> allInvocations s' = allInvocations s ->
  cleanupQueue s' = cleanupQueue s -> allPlatformQueues s' = allPlatformQueues s ->
  (nextId s <= nextId s')%nat -> same s s'.
Proof.
  intros H1 H2 H3 H0 H4 H5 H6 H7 H8. split; rewrite ?H1, ?H2, ?H3, ?H0, ?H4; try done.
  - intros i. unfold queueOf. by rewrite H5.
  - unfold cleanupOperations. by rewrite H6.
  - intros H p pq q. rewrite H7. intros Hp Hq. specialize (H p pq q Hp Hq). lia.
Qed.

End frames.

Ltac stores := apply same_stores; first [reflexivity|exact (Nat.le_refl _)|exact (Nat.le_succ_diag_r _)].

Section keeping.
Context {E : Environment}.

#[export] Instance same_newId : Frame same newId.
Proof. intros s. apply wp_newId. stores. Qed.

#[export] Instance same_closeChannel c : Frame same (closeChannel c).
Proof. intros s. apply wp_closeChannel. intros i ->. stores. Qed.

#[export] Instance same_tellLearner c : Frame same (tellLearner c).
Proof. apply frame_modify. intros s. stores. Qed.

#[export] Instance same_putSizeClassQueue q v : Frame same (putSizeClassQueue q v).
Proof. apply frame_modify. intros s. stores. Qed.

(** The size class queues of a platform queue do not change, or only by removal. *)
Lemma same_putPlatformQueue_at s p pq :
  (forall q, q ∈ sizeClassQueues pq -> exists p' pq', allPlatformQueues s !! p' = Some pq' /\ q ∈ sizeClassQueues pq') ->
  same s (s <| allPlatformQueues ::= <[p := pq]> |>).
Proof.
  intros Hpq. split; try reflexivity. intros H p' pq' q Hp Hq. simpl in *.
  apply lookup_insert_Some in Hp as [[<- <-]|[_ Hp]]; [|by apply (H p' pq')].
  destruct (Hpq q Hq) as (p1&pq1&?&?). by apply (H p1 pq1).
Qed.

(** Writing an object back whose core is the one that is stored. *)
Lemma insert_core {K A B} `{Countable K} (f : A -> B) (m : gmap K A) k x y :
  m !! k = Some x -> f y = f x -> f <$> <[k := y]> m = f <$> m.
Proof. intros Hk E1. rewrite fmap_insert, E1. apply insert_id. by rewrite lookup_fmap, Hk. Qed.

Lemma same_putInvocation_at s i v v' :
  allInvocations s !! i = Some v -> queuedOperations v' ≡ₚ queuedOperations v ->
  same s (s <| allInvocations ::= <[i := v']> |>).
Proof.
  intros Hi Hq. split; try reflexivity; [|done]. intros j. unfold queueOf. simpl.
  destruct (decide (i = j)) as [<-|Hne]; [by rewrite lookup_insert_eq, Hi|by rewrite lookup_insert_ne].
Qed.

Lemma same_putWorker_at s w wk wk' :
  allWorkers s !! w = Some wk -> currentTask wk' = currentTask wk -> same s (s <| allWorkers ::= <[w := wk']> |>).
Proof. intros Hw Hc. split; try reflexivity; [|done]. simpl. by apply (insert_core _ _ _ wk). Qed.

Lemma same_putTask_at s t tk tk' :
  allTasks s !! t = Some tk -> taskCore tk' = taskCore tk -> same s (s <| allTasks ::= <[t := tk']> |>).
Proof. intros Hw Hc. split; try reflexivity; [|done]. simpl. by apply (insert_core _ _ _ tk). Qed.

Lemma same_putOperation_at s o op op' :
  allOperations s !! o = Some op -> operationCore op' = operationCore op -> same s (s <| allOperations ::= <[o := op']> |>).
Proof. intros Hw Hc. split; try reflexivity; [|done]. simpl. by apply (insert_core _ _ _ op). Qed.

(** The same after an operation that keeps the cores. *)
Lemma same_worker s s' w wk :
  same s s' -> allWorkers s !! w = Some wk -> exists wk', allWorkers s' !! w = Some wk' /\ currentTask wk' = currentTask wk.
Proof.
  intros Hs Hw. assert ((currentTask <$> allWorkers s') !! w = Some (currentTask wk)) as H
    by (by rewrite (same_workers _ _ Hs), lookup_fmap, Hw).
  rewrite lookup_fmap in H. destruct (allWorkers s' !! w) as [wk'|]; [|done]. apply Some_inj in H. by exists wk'.
Qed.

Lemma same_task s s' t tk :
  same s s' -> allTasks s !! t = Some tk -> exists tk', allTasks s' !! t = Some tk' /\ taskCore tk' = taskCore tk.
Proof.
  intros Hs Ht. assert ((taskCore <$> allTasks s') !! t = Some (taskCore tk)) as H
    by (by rewrite (same_tasks _ _ Hs), lookup_fmap, Ht).
  rewrite lookup_fmap in H. destruct (allTasks s' !! t) as [tk'|]; [|done]. apply Some_inj in H. by exists tk'.
Qed.

(** ** Symbolic execution of operations that keep the cores *)

Definition keeps {A} (s : buildQueue) (m : M A) : Prop := wp m (fun _ s' => same s s') (fun _ => False) s.

Lemma keeps_frame {A} s (m : M A) `{!Frame same m} : keeps s m.
Proof. apply (frame s). Qed.

Lemma frame_keeps {A} (m : M A) : (forall s, keeps s m) -> Frame same m.
Proof. intros H s. apply H. Qed.

Lemma keeps_bind {A B} s (m : M A) (f : A -> M B) `{!Frame same m} :
  (forall a s1, same s s1 -> keeps s1 (f a)) -> keeps s (m ≫= f).
Proof.
  intros Hf. apply wp_bind, (wp_frame same m). intros a s1 H1. eapply wp_mono; [by apply (Hf a s1)| |done].
  intros b s2 H2. exact (transitivity H1 H2).
Qed.

(** Reading does not change the state. *)
Lemma keeps_deref {A B} s (g : buildQueue -> option A) (f : A -> M B) :
  (forall a, g s = Some a -> keeps s (f a)) -> keeps s (deref g ≫= f).
Proof. intros Hf. by apply wp_bind, wp_deref. Qed.

Lemma keeps_gets {A B} s (g : buildQueue -> A) (f : A -> M B) : keeps s (f (g s)) -> keeps s (gets g ≫= f).
Proof. intros Hf. by apply wp_bind, wp_gets. Qed.

Lemma keeps_ret {A} s (a : A) : keeps s (mret a).
Proof. apply wp_ret. reflexivity. Qed.

Lemma keeps_panic {A} s : keeps s (panic (A := A)).
Proof. done. Qed.

Lemma keeps_modify {B} s g (f : unit -> M B) :
  same s (g s) -> (forall s1, same s s1 -> s1 = g s -> keeps s1 (f tt)) -> keeps s (modify g ≫= f).
Proof.
  intros H1 Hf. apply wp_bind, wp_modify. eapply wp_mono; [by apply (Hf (g s))| |done].
  intros b s2 H2. exact (transitivity H1 H2).
Qed.

Lemma keeps_newId {B} s (f : nat -> M B) :
  (forall s1, same s s1 -> s1 = s <| nextId ::= S |> -> keeps s1 (f (nextId s))) -> keeps s (newId ≫= f).
Proof.
  intros Hf. assert (same s (s <| nextId ::= S |>)) as H1 by stores.
  apply wp_bind, wp_newId. eapply wp_mono; [by apply (Hf (s <| nextId ::= S |>))| |done].
  intros b s2 H2. exact (transitivity H1 H2).
Qed.

Lemma keeps_modify_last s g : same s (g s) -> keeps s (modify g).
Proof. intros H. by apply wp_modify. Qed.

Lemma keeps_if {A} s (b : bool) (m m' : M A) : (b = true -> keeps s m) -> (b = false -> keeps s m') -> keeps s (if b then m else m').
Proof. destruct b; auto. Qed.
End keeping.

(** One step of symbolic execution. *)
Ltac keeps_step :=
  lazymatch goal with
  | |- keeps _ (let _ := _ in _) => cbv zeta
  | |- keeps _ (mret _) => apply keeps_ret
  | |- keeps _ panic => apply keeps_panic
  | |- keeps _ (if _ then _ else _) => apply keeps_if; intros
  | |- keeps _ (deref _ ≫= _) => apply keeps_deref; intros
  | |- keeps _ (getInvocation _ ≫= _) => apply keeps_deref; intros
  | |- keeps _ (getOperation _ ≫= _) => apply keeps_deref; intros
  | |- keeps _ (getTask _ ≫= _) => apply keeps_deref; intros
  | |- keeps _ (getWorker _ ≫= _) => apply keeps_deref; intros
  | |- keeps _ (gets _ ≫= _) => apply keeps_gets
  | |- keeps _ (putInvocation _ _ ≫= _) =>
      apply keeps_modify; [eapply same_putInvocation_at; [eassumption|try reflexivity]|intros ? ? ->]
  | |- keeps _ (putInvocation _ _) => apply keeps_modify_last; eapply same_putInvocation_at; [eassumption|try reflexivity]
  | |- keeps _ (_ ≫= _) => apply keeps_bind; [try apply _|intros]
  end.

Section kept.
Context {E : Environment}.

#[export] Instance same_removeIfEmpty i : Frame same (removeIfEmpty i).
Proof.
  apply frame_keeps. intros s. unfold removeIfEmpty. keeps_step. keeps_step.
  - boolprop. apply keeps_modify.
    + split; try reflexivity; [|done]. intros j. unfold queueOf. simpl. destruct (decide (i = j)) as [<-|Hne].
      * rewrite lookup_delete_eq. unfold isActive, isQueued in *. destruct (allInvocations s !! i) as [v|]; [|done]. simplify_eq. destruct (queuedOperations a); [done|]. by destruct (queuedChildren a).
      * by rewrite lookup_delete_ne.
    + intros. apply keeps_ret.
  - apply keeps_ret.
Qed.

#[export] Instance same_fixInParent i : Frame same (fixInParent i).
Proof.
  apply frame_keeps. intros s. unfold fixInParent. destruct (parentInvocation i); [|apply keeps_ret]. repeat keeps_step.
Qed.

#[export] Instance same_decrement i w : Frame same (decrementExecutingWorkersCount i w).
Proof.
  apply frame_forEach; [apply _|]. intros j. apply frame_keeps. intros s. repeat keeps_step.
  destruct (parentInvocation j); apply keeps_frame, _.
Qed.

#[export] Instance same_increment i w : Frame same (incrementExecutingWorkersCount i w).
Proof.
  apply frame_forEach; [apply _|]. intros j. apply frame_keeps. intros s. repeat keeps_step. apply keeps_frame, _.
Qed.

#[export] Instance same_updateFirst i : Frame same (updateFirstOperationPriority i).
Proof.
  apply frame_keeps. intros s. unfold updateFirstOperationPriority. keeps_step.
  destruct (queuedOperations a) eqn:Eq; [destruct (queuedChildren a)|]; repeat keeps_step; simpl; by rewrite Eq.
Qed.

#[export] Instance same_getOrCreateInvocation scq keys : Frame same (getOrCreateInvocation scq keys).
Proof.
  apply frame_bind; [apply _| |intros; apply _]. apply frame_forEach; [apply _|]. intros i. apply frame_keeps. intros s.
  keeps_step. destruct (allInvocations (id s) !! i) eqn:Ei; [apply keeps_ret|]. apply keeps_modify_last.
  split; try reflexivity; [|done]. intros j. unfold queueOf. simpl. destruct (decide (i = j)) as [<-|Hne].
  - rewrite lookup_insert_eq. change (allInvocations s !! i = None) in Ei. unfold InvocationId in *. by rewrite Ei.
  - by rewrite lookup_insert_ne.
Qed.

(** Writing back a worker or a task that was read before operations that keep the cores. *)
Lemma keeps_putWorker_last s0 s w wk wk' :
  allWorkers s0 !! w = Some wk -> same s0 s -> currentTask wk' = currentTask wk -> keeps s (putWorker w wk').
Proof.
  intros Hw Hs Hc. destruct (same_worker _ _ _ _ Hs Hw) as (wk1&Hw1&Hc1). apply keeps_modify_last.
  apply (same_putWorker_at _ _ wk1); [done|]. by rewrite Hc1.
Qed.

Lemma keeps_putWorker {B} s w wk wk' (f : unit -> M B) :
  allWorkers s !! w = Some wk -> currentTask wk' = currentTask wk ->
  (forall s1, same s s1 -> s1 = s <| allWorkers ::= <[w := wk']> |> -> keeps s1 (f tt)) ->
  keeps s (putWorker w wk' ≫= f).
Proof. intros Hw Hc Hf. apply keeps_modify; [by apply (same_putWorker_at _ _ wk)|done]. Qed.

Lemma keeps_putTask_last s0 s t tk tk' :
  allTasks s0 !! t = Some tk -> same s0 s -> taskCore tk' = taskCore tk -> keeps s (putTask t tk').
Proof.
  intros Hw Hs Hc. destruct (same_task _ _ _ _ Hs Hw) as (tk1&Hw1&Hc1). apply keeps_modify_last.
  apply (same_putTask_at _ _ tk1); [done|]. by rewrite Hc1.
Qed.

#[export] Instance same_dequeue w : Frame same (dequeue w).
Proof.
  apply frame_keeps. intros s. unfold dequeue. repeat keeps_step.
  - apply frame_forEach; [apply _|]. intros j. destruct (parentInvocation j); [|apply _].
    apply frame_keeps. intros s'. repeat keeps_step.
  - eapply keeps_putWorker_last; [eassumption| |reflexivity]. etrans; [eassumption|]. done.
Qed.

#[export] Instance same_maybeDequeue w : Frame same (maybeDequeue w).
Proof. apply frame_keeps. intros s. unfold maybeDequeue. keeps_step. destruct (wakeup a); [apply keeps_frame, _|apply keeps_ret]. Qed.

#[export] Instance same_wakeUp w : Frame same (wakeUp w).
Proof. unfold wakeUp. apply frame_keeps. intros s. repeat keeps_step. apply keeps_frame, _. Qed.

#[export] Instance same_clearLastInvocation w : Frame same (clearLastInvocation w).
Proof.
  apply frame_keeps. intros s. unfold clearLastInvocation. keeps_step. keeps_step; [apply keeps_panic|].
  destruct (lastInvocation a); [|apply keeps_ret]. keeps_step.
  - apply frame_forEach; [apply _|]. intros j. apply frame_keeps. intros s'. repeat keeps_step.
  - by eapply keeps_putWorker_last.
Qed.

#[export] Instance same_setLastInvocation w i : Frame same (setLastInvocation w i).
Proof.
  apply frame_keeps. intros s. unfold setLastInvocation. keeps_step. keeps_step; [apply keeps_panic|].
  eapply keeps_putWorker; [eassumption|reflexivity|]. intros s1 _ _. apply keeps_frame.
  apply frame_forEach; [apply _|]. intros j. apply frame_keeps. intros s'. repeat keeps_step.
Qed.

#[export] Instance same_reportNonFinalStageChange t : Frame same (reportNonFinalStageChange t).
Proof.
  apply frame_keeps. intros s. unfold reportNonFinalStageChange. repeat keeps_step.
  eapply keeps_putTask_last; [eassumption|by etrans|reflexivity].
Qed.

#[export] Instance same_nextQueuedTask fuel wk i keys limits retained : Frame same (nextQueuedTask fuel wk i keys limits retained).
Proof.
  revert i keys limits retained. induction fuel as [|fuel IH]; intros i keys limits retained; cbn [nextQueuedTask]; [apply _|].
  apply frame_keeps. intros s. keeps_step.
  destruct (queuedOperations a); [destruct (queuedChildren a)|]; repeat keeps_step.
  destruct keys; [apply keeps_frame, _|]. destruct limits; [apply keeps_frame, _|]. repeat keeps_step.
  - apply frame_keeps. intros s'. repeat keeps_step.
  - case_decide; apply keeps_frame, _.
Qed.

#[export] Instance same_descendIdle fuel i : Frame same (descendIdle fuel i).
Proof.
  revert i. induction fuel as [|fuel IH]; intros i; cbn [descendIdle]; [apply _|].
  apply frame_keeps. intros s. keeps_step.
  destruct (idleSynchronizingWorkers a); [destruct (idleSynchronizingWorkersChildren a)|];
    [apply keeps_panic|apply keeps_frame, _|apply keeps_ret].
Qed.

#[export] Instance same_getCurrentSizeClassQueue t : Frame same (getCurrentSizeClassQueue t).
Proof. unfold getCurrentSizeClassQueue. destruct (taskInvocations t); apply _. Qed.

Lemma omap_perm_same {A B} (f : A -> option B) (x : A) l l' :
  f x = None -> l' ≡ₚ x :: l -> omap f l' ≡ₚ omap f l.
Proof. intros Hx ->. simpl. by rewrite Hx. Qed.

(** Entries of workers and size class queues. *)
Lemma same_cleanupAdd t c : removedOperation (mkCleanupEntry t c) = None -> Frame same (cleanupAdd t c).
Proof.
  intros Hc. apply frame_keeps. intros s. unfold cleanupAdd. repeat keeps_step. apply keeps_modify_last.
  split; try reflexivity; [|done]. apply (omap_perm_same _ (mkCleanupEntry t c)); [done|]. apply heapPush_Permutation.
Qed.

Lemma cleanupPosition_spec c l k :
  cleanupPosition c l = Some k -> exists e, l !! k = Some e /\ sameKey (callback e) c = true.
Proof.
  unfold cleanupPosition. intros H. destruct (list_find _ l) as [[k' e]|] eqn:El; [|done]. injection H as ->.
  apply list_find_Some in El as (?&?&_). by exists e.
Qed.

Lemma same_cleanupRemove c : (forall o, c <> RemoveOperation o) -> Frame same (cleanupRemove c).
Proof.
  intros Hc. apply frame_keeps. intros s. unfold cleanupRemove. repeat keeps_step. destruct a as [e l].
  match goal with H : _ = Some (e, l) |- _ => rename H into Hr end.
  destruct (cleanupPosition c _) as [k|] eqn:Ek; [|done]. simpl in Hr.
  apply cleanupPosition_spec in Ek as (e'&He&Hk). destruct (heapRemove_spec cleanupLess _ k e' He) as (l'&E1&Hp).
  rewrite E1 in Hr. injection Hr as -> ->. apply keeps_modify_last. split; try reflexivity; [|done].
  symmetry. apply (omap_perm_same _ e); [|done]. unfold removedOperation. destruct (callback e); try done.
  by destruct c; try done; destruct (Hc o0).
Qed.

#[export] Instance same_markWorkerTerminating w : Frame same (markWorkerTerminating w).
Proof.
  apply frame_keeps. intros s. unfold markWorkerTerminating. keeps_step.
  by eapply keeps_putWorker_last.
Qed.

#[export] Instance same_enqueueWorker w : Frame same (enqueueWorker w).
Proof.
  apply frame_keeps. intros s. unfold enqueueWorker. do 3 keeps_step. keeps_step; [apply keeps_panic|].
  apply keeps_newId. intros s1 Hs1 ->.
  eapply keeps_putWorker; [eassumption|reflexivity|]. intros s2 _ ->. repeat keeps_step.
  apply frame_forEach; [apply _|]. intros j. destruct (parentInvocation j); [|apply _].
  apply frame_keeps. intros s'. repeat keeps_step.
Qed.
End kept.
