(* ===== verification/SchedulerStays.v ===== *)
(** * The scheduler: what no call touches

    The private keys of the scheduler, the public keys of platform queues with the blocks
    that are expected for them, and the lock are only changed by the few operations that
    are meant to do so.  [stays] says so of all others. *)

From S2P Require Import Prelude References Heap SchedulerState Scheduler SchedulerCalls SchedulerWorkers SchedulerAdmin SchedulerFrames.

Section stays.
Context {E : Environment}.
Context (cfg : configuration).

(** Platform queues may be created, without keys; private keys are only added. *)
Record stays (s s' : buildQueue) : Prop := {
  stays_private : verificationPrivateKeys s `prefix_of` verificationPrivateKeys s';
  stays_expiration : verificationPrivateKeyExpiration s' = verificationPrivateKeyExpiration s;
  stays_now : now s <= now s';
  stays_queues : platformQueues s' = platformQueues s;
  stays_cached p pq' : allPlatformQueues s' !! p = Some pq' -> publicKeys pq' = [] \/
    exists pq, allPlatformQueues s !! p = Some pq /\ publicKeys pq' = publicKeys pq;
}.

#[export] Instance stays_preorder : PreOrder stays.
Proof.
  split.
  - intros s. split; try done. intros p pq' Hp. right. by exists pq'.
  - intros s1 s2 s3 H1 H2. split.
    + transitivity (verificationPrivateKeys s2); [apply H1|apply H2].
    + rewrite (stays_expiration _ _ H2). apply H1.
    + pose proof (stays_now _ _ H1). pose proof (stays_now _ _ H2). lia.
    + rewrite (stays_queues _ _ H2). apply H1.
    + intros p pq3 Hp3. destruct (stays_cached _ _ H2 p pq3 Hp3) as [?|(pq2&Hp2&E2)]; [by left|].
      destruct (stays_cached _ _ H1 p pq2 Hp2) as [E1|(pq1&Hp1&E1)]; [left|right; exists pq1]; [congruence|split; congruence].
Qed.

(** The same, while the lock is held: the clock is only read when it is acquired. *)
Definition staysLocked (s s' : buildQueue) : Prop := stays s s' /\ locked s' = locked s /\ now s' = now s.

#[export] Instance staysLocked_preorder : PreOrder staysLocked.
Proof.
  split; [by split|]. intros s1 s2 s3 (H1&L1&N1) (H2&L2&N2). split; [by transitivity s2|split; congruence].
Qed.

Lemma stays_frame {A} (m : M A) : FailFrame staysLocked m -> FailFrame stays m.
Proof. intros Hm s. apply (wp_failFrame staysLocked m); by intros ? ? || intros ?; firstorder. Qed.

(** A change of the state that touches none of this. *)
Lemma stays_stores s s' :
  verificationPrivateKeys s' = verificationPrivateKeys s -> verificationPrivateKeyExpiration s' = verificationPrivateKeyExpiration s ->
  now s' = now s -> platformQueues s' = platformQueues s -> allPlatformQueues s' = allPlatformQueues s -> stays s s'.
Proof.
  intros H1 H2 H3 H4 H5. split; [by rewrite H1|done|by rewrite H3|done|]. intros p pq' Hp. right. exists pq'. by rewrite <- H5.
Qed.

#[export] Instance staysLocked_modify f :
  (forall s, staysLocked s (f s)) -> FailFrame staysLocked (modify f).
Proof. intros H s. by apply wp_modify. Qed.

Lemma failFrame_mret {A} (a : A) : FailFrame staysLocked (mret a).
Proof. apply _. Qed.
Lemma failFrame_gets {A} (f : buildQueue -> A) : FailFrame staysLocked (gets f).
Proof. apply _. Qed.
Lemma failFrame_deref {A} (f : buildQueue -> option A) : FailFrame staysLocked (deref f).
Proof. apply _. Qed.
End stays.

(** Going through an operation. *)
Ltac stays_step :=
  match goal with
  | |- forall _, _ => intros ?
  | |- FailFrame _ (_ ≫= _) => apply failFrame_bind; [apply staysLocked_preorder| |intros ?]
  | |- FailFrame _ (mret _) => apply failFrame_mret
  | |- FailFrame _ (gets _) => apply failFrame_gets
  | |- FailFrame _ (deref _) => apply failFrame_deref
  | |- FailFrame _ (modify _) => apply staysLocked_modify; intros ?; split; [by apply stays_stores|done]
  | |- FailFrame _ (forEach _ _) => apply failFrame_forEach; [apply staysLocked_preorder|intros ?]
  | |- FailFrame _ (whenM ?b _) => unfold whenM; destruct b
  | |- FailFrame _ (let _ := _ in _) => cbv zeta
  | |- FailFrame _ (match ?x with _ => _ end) => destruct x
  | |- FailFrame _ _ => apply _
  end.
Ltac stays_proof := repeat stays_step.

Section operations.
Context {E : Environment}.
Context (cfg : configuration).
Notation Stays := (FailFrame staysLocked).

(** ** Invocations, workers and tasks *)

#[export] Instance stays_newId : Stays newId.
Proof. intros s. apply wp_newId. split; [by apply stays_stores|done]. Qed.

#[export] Instance stays_fail {A} e : Stays (fail (A := A) e).
Proof. apply _. Qed.
#[export] Instance stays_panic {A} : Stays (panic (A := A)).
Proof. apply _. Qed.
#[export] Instance stays_liftOutcome {A} (o : outcome A) : Stays (liftOutcome o).
Proof. apply _. Qed.
#[export] Instance stays_closeChannel c : Stays (closeChannel c).
Proof. unfold closeChannel. stays_proof. Qed.
#[export] Instance stays_tellLearner c : Stays (tellLearner c).
Proof. unfold tellLearner. stays_proof. Qed.
#[export] Instance stays_putInvocation i v : Stays (putInvocation i v).
Proof. unfold putInvocation. stays_proof. Qed.
#[export] Instance stays_putOperation o v : Stays (putOperation o v).
Proof. unfold putOperation. stays_proof. Qed.
#[export] Instance stays_putTask t v : Stays (putTask t v).
Proof. unfold putTask. stays_proof. Qed.
#[export] Instance stays_putWorker w v : Stays (putWorker w v).
Proof. unfold putWorker. stays_proof. Qed.
#[export] Instance stays_putSizeClassQueue q v : Stays (putSizeClassQueue q v).
Proof. unfold putSizeClassQueue. stays_proof. Qed.
#[export] Instance stays_removeIfEmpty i : Stays (removeIfEmpty i).
Proof. unfold removeIfEmpty. stays_proof. Qed.
#[export] Instance stays_fixInParent i : Stays (fixInParent i).
Proof. unfold fixInParent. stays_proof. Qed.
#[export] Instance stays_decrement i w : Stays (decrementExecutingWorkersCount i w).
Proof. unfold decrementExecutingWorkersCount. stays_proof. Qed.
#[export] Instance stays_increment i w : Stays (incrementExecutingWorkersCount i w).
Proof. unfold incrementExecutingWorkersCount. stays_proof. Qed.
#[export] Instance stays_updateFirstOperationPriority i : Stays (updateFirstOperationPriority i).
Proof. unfold updateFirstOperationPriority. stays_proof. Qed.
#[export] Instance stays_getOrCreateInvocation q keys : Stays (getOrCreateInvocation q keys).
Proof. unfold getOrCreateInvocation. stays_proof. Qed.
#[export] Instance stays_enqueue o : Stays (enqueue o).
Proof. unfold enqueue. stays_proof. Qed.
#[export] Instance stays_removeQueued o : Stays (removeQueuedFromInvocation o).
Proof. unfold removeQueuedFromInvocation. stays_proof. Qed.
#[export] Instance stays_cleanupAdd t c : Stays (cleanupAdd t c).
Proof. unfold cleanupAdd. stays_proof. Qed.
#[export] Instance stays_cleanupRemove c : Stays (cleanupRemove c).
Proof. unfold cleanupRemove. stays_proof. Qed.
#[export] Instance stays_dequeue w : Stays (dequeue w).
Proof. unfold dequeue. stays_proof. Qed.
#[export] Instance stays_maybeDequeue w : Stays (maybeDequeue w).
Proof. unfold maybeDequeue. stays_proof. Qed.
#[export] Instance stays_wakeUp w : Stays (wakeUp w).
Proof. unfold wakeUp. stays_proof. Qed.
#[export] Instance stays_clearLastInvocation w : Stays (clearLastInvocation w).
Proof. unfold clearLastInvocation. stays_proof. Qed.
#[export] Instance stays_setLastInvocation w i : Stays (setLastInvocation w i).
Proof. unfold setLastInvocation. stays_proof. Qed.
#[export] Instance stays_getCurrentSizeClassQueue t : Stays (getCurrentSizeClassQueue t).
Proof. unfold getCurrentSizeClassQueue. stays_proof. Qed.
#[export] Instance stays_reportNonFinal t : Stays (reportNonFinalStageChange t).
Proof. unfold reportNonFinalStageChange. stays_proof. Qed.
#[export] Instance stays_assignUnqueuedTask w t n : Stays (assignUnqueuedTask w t n).
Proof. unfold assignUnqueuedTask. stays_proof. Qed.
#[export] Instance stays_assignQueuedTask w t n : Stays (assignQueuedTask w t n).
Proof. unfold assignQueuedTask. stays_proof. Qed.
#[export] Instance stays_assignAndWakeUp w t n : Stays (assignUnqueuedTaskAndWakeUp w t n).
Proof. unfold assignUnqueuedTaskAndWakeUp. stays_proof. Qed.
#[export] Instance stays_nextQueuedTask fuel wk i keys limits n : Stays (nextQueuedTask fuel wk i keys limits n).
Proof. revert i keys limits n. induction fuel; intros; cbn [nextQueuedTask]; stays_proof. Qed.
#[export] Instance stays_assignNextQueuedTask w q : Stays (assignNextQueuedTask w q).
Proof. unfold assignNextQueuedTask. stays_proof. Qed.
#[export] Instance stays_newOperation t p i b : Stays (newOperation t p i b).
Proof. unfold newOperation. stays_proof. Qed.
#[export] Instance stays_descendIdle fuel i : Stays (descendIdle fuel i).
Proof. revert i. induction fuel; intros; cbn [descendIdle]; stays_proof. Qed.
#[export] Instance stays_schedule t : Stays (schedule t).
Proof. unfold schedule. stays_proof. Qed.
#[export] Instance stays_leaveStage t b : Stays (leaveQueuedOrExecutingStage t b).
Proof. unfold leaveQueuedOrExecutingStage. stays_proof. Qed.
#[export] Instance stays_maybeStartCleanup o : Stays (maybeStartCleanup cfg o).
Proof. unfold maybeStartCleanup. stays_proof. Qed.
#[export] Instance stays_markCompleted t : Stays (markCompleted cfg t).
Proof. unfold markCompleted. stays_proof. Qed.
#[export] Instance stays_taskFail t e b : Stays (taskFail cfg t e b).
Proof. unfold taskFail. stays_proof. Qed.
#[export] Instance stays_learnInBackground t pq i e to l : Stays (learnInBackground t pq i e to l).
Proof. unfold learnInBackground. stays_proof. Qed.
#[export] Instance stays_transplant t q : Stays (transplant t q).
Proof. unfold transplant. stays_proof. Qed.
#[export] Instance stays_taskComplete t c : Stays (taskComplete cfg t c).
Proof. unfold taskComplete. stays_proof. Qed.

(** ** Clean-up and the lock *)

(** A platform queue is written back with the public keys that it has. *)
Lemma stays_putPlatformQueue s p pq pq' :
  allPlatformQueues s !! p = Some pq -> publicKeys pq' = publicKeys pq ->
  staysLocked s (s <| allPlatformQueues ::= <[p := pq']> |>).
Proof.
  intros Hp Hk. split; [|done]. split; try done. intros p' pq1 H. simpl in H. right.
  apply lookup_insert_Some in H as [[<- <-]|[_ H]]; [by exists pq|by exists pq1].
Qed.

#[export] Instance stays_removeEmpty l : Stays (removeEmpty l).
Proof. induction l; cbn [removeEmpty]; stays_proof. Qed.
#[export] Instance stays_operationRemove o : Stays (operationRemove cfg o).
Proof. unfold operationRemove. stays_proof. Qed.
#[export] Instance stays_failAll fuel i e : Stays (failAllQueuedOperations cfg fuel i e).
Proof. revert i. induction fuel; intros; cbn [failAllQueuedOperations]; stays_proof. Qed.
#[export] Instance stays_sizeClassQueueRemove q : Stays (sizeClassQueueRemove cfg q).
Proof.
  unfold sizeClassQueueRemove. do 3 (stays_step; [stays_proof|]). intros s.
  apply wp_bind, wp_deref. intros pq Hpq. apply wp_bind, wp_deref. intros k _. apply wp_modify.
  by apply (stays_putPlatformQueue s _ pq).
Qed.
#[export] Instance stays_markWorkerTerminating w : Stays (markWorkerTerminating w).
Proof. unfold markWorkerTerminating. stays_proof. Qed.
#[export] Instance stays_removeStaleWorker q k t : Stays (removeStaleWorker cfg q k t).
Proof. unfold removeStaleWorker. stays_proof. Qed.
#[export] Instance stays_runCleanup c : Stays (runCleanup cfg c).
Proof. destruct c; cbn [runCleanup]; apply _. Qed.
#[export] Instance stays_cleanupRun fuel t : Stays (cleanupRun cfg fuel t).
Proof. induction fuel; cbn [cleanupRun]; stays_proof. Qed.

(** The lock is held from then on. *)
Lemma wp_enter s t : wp (enter cfg t) (fun _ s' => stays s s' /\ locked s' = true) (fun s' => stays s s' /\ locked s' = true) s.
Proof.
  unfold wp, enter. destruct (locked s); [done|]. set (s1 := s <| locked := true |>).
  assert (stays s s1) as H1 by (by apply stays_stores). destruct (Z.gtb_spec t (now s1)) as [Hgt|]; [|by split].
  set (s2 := s1 <| now := t |>). assert (stays s s2) as H2.
  { split; try done; [change (now s <= t); change (now s1) with (now s) in Hgt; lia|]. intros p pq' Hp. right. by exists pq'. }
  pose proof (stays_cleanupRun (cleanupFuel s2) t s2) as H. unfold wp in H. destruct (cleanupRun cfg (cleanupFuel s2) t s2) as [[a|e| |] s3]; try done;
    destruct H as (H3&L3&_); (split; [by transitivity s2|exact L3]).
Qed.

#[export] Instance stays_enter t : FailFrame stays (enter cfg t).
Proof. intros s. eapply wp_mono; [apply wp_enter|by intros _ s' [H _]|by intros s' [H _]]. Qed.

Lemma stays_unlock s s' : stays s s' -> stays s (s' <| locked := false |>).
Proof. intros H. transitivity s'; [done|by apply stays_stores]. Qed.

(** What a call achieves while it holds the lock. *)
Lemma wp_critical {A} t (m : M A) Q F s :
  (forall s1, stays s s1 -> wp m (fun a s' => Q a (s' <| locked := false |>)) (fun s' => F (s' <| locked := false |>)) s1) ->
  (forall s1, stays s s1 -> F s1) -> wp (critical cfg t m) Q F s.
Proof.
  intros Hm HF. unfold wp, critical. pose proof (wp_enter s t) as He. unfold wp in He.
  destruct (enter cfg t s) as [[[]|e| |] s1]; try done; [|by apply HF, He].
  specialize (Hm s1 (proj1 He)). unfold wp in Hm. by destruct (m s1) as [[a|e| |] s2].
Qed.

#[export] Instance stays_critical {A} t (m : M A) : Stays m -> FailFrame stays (critical cfg t m).
Proof.
  intros Hm s. apply wp_critical; [|done]. intros s1 H1.
  apply (wp_failFrame staysLocked m); intros; apply stays_unlock; transitivity s1; firstorder.
Qed.

#[export] Instance stays_wrapError {A} c (m : M A) : Stays m -> Stays (wrapError c m).
Proof. apply failFrame_wrapError. Qed.

(** ** Calls of clients *)

#[export] Instance stays_waitExecutionStart o : Stays (waitExecutionStart o).
Proof. unfold waitExecutionStart. stays_proof. Qed.
#[export] Instance stays_waitExecutionUpdate o n : Stays (waitExecutionUpdate o n).
Proof. unfold waitExecutionUpdate. stays_proof. Qed.
#[export] Instance stays_waitExecutionEnd o : Stays (waitExecutionEnd cfg o).
Proof. unfold waitExecutionEnd. stays_proof. Qed.
#[export] Instance stays_Execute t a p : FailFrame stays (Execute cfg t a p).
Proof.
  destruct a as [a|]; cbn [Execute]; [|apply _]. apply failFrame_bind; [apply _..|]. intros [keys selector]. cbv zeta.
  apply stays_critical. stays_proof.
Qed.
#[export] Instance stays_WaitExecution rounds clock name : FailFrame stays (WaitExecution cfg rounds clock name).
Proof.
  apply failFrame_bind; [apply _..|]. intros _. induction rounds as [|rounds IH]; cbn [waitExecutionLoop]; [apply _|].
  assert (FailFrame stays leave) as Hleave by (intros s; apply wp_modify, stays_unlock; reflexivity).
  assert (FailFrame stays (A := unit) (fun s => enter cfg (clock rounds) s)) by apply stays_enter.
  apply failFrame_bind; [apply _..|]. intros [o|].
  - apply failFrame_bind; [apply _..|]. intros _. apply failFrame_bind; [apply _..|]. intros again.
    destruct (decide (again = Some o)); [|done]. apply failFrame_bind; [apply _|apply stays_frame, _|]. intros _.
    apply failFrame_bind; apply _.
  - apply failFrame_bind; apply _.
Qed.

(** ** Calls of workers *)

#[export] Instance stays_generate c : Stays (generateVerificationPrivateKey c).
Proof. unfold generateVerificationPrivateKey. stays_proof. Qed.

(** A private key is added. *)
#[export] Instance stays_parsePKIX k : Stays (parsePKIXPublicKeyAndGetCurveIndex k).
Proof.
  unfold parsePKIXPublicKeyAndGetCurveIndex. do 2 (stays_step; [stays_proof|]).
  match goal with |- FailFrame _ (match ?x with _ => _ end) => destruct x end; [stays_proof|]. stays_step; [stays_proof|]. cbv zeta.
  stays_step; [|stays_proof]. intros s'. apply wp_modify. split; [|done]. split; try done; [by eexists|].
  intros p pq' Hp. right. by exists pq'.
Qed.

#[export] Instance stays_getPlatformQueuePublicKey k : Stays (getPlatformQueuePublicKey k).
Proof. unfold getPlatformQueuePublicKey. stays_proof. Qed.

(** A platform queue is created. *)
#[export] Instance stays_newPlatformQueue l m b : Stays (newPlatformQueue l m b).
Proof.
  unfold newPlatformQueue. stays_step; [stays_proof|]. stays_step; [|stays_proof]. intros s. apply wp_modify.
  split; [|done]. split; try done. intros p pq' H. simpl in H.
  apply lookup_insert_Some in H as [[<- <-]|[_ H]]; [by left|right; by exists pq'].
Qed.

#[export] Instance stays_addSizeClassQueue p c b : Stays (addSizeClassQueue p c b).
Proof.
  intros s. apply wp_bind, wp_deref. intros pq Hpq. apply wp_bind, wp_deref. intros k _.
  do 2 apply wp_bind, wp_newId. do 2 apply wp_bind, wp_modify. cbv zeta.
  match goal with |- wp _ _ _ ?x => set (s1 := x) end. apply wp_bind, wp_modify, wp_ret.
  transitivity s1; [split; [by apply stays_stores|done]|]. by apply (stays_putPlatformQueue s1 p pq).
Qed.

#[export] Instance stays_getIdle : Stays getIdleSynchronizeResponse.
Proof. unfold getIdleSynchronizeResponse. stays_proof. Qed.
#[export] Instance stays_getExecuting w : Stays (getExecutingSynchronizeResponse cfg w).
Proof. unfold getExecutingSynchronizeResponse. stays_proof. Qed.
#[export] Instance stays_enqueueWorker w : Stays (enqueueWorker w).
Proof. unfold enqueueWorker. stays_proof. Qed.
#[export] Instance stays_nextTaskRound w q b : Stays (nextTaskRound cfg w q b).
Proof. unfold nextTaskRound. stays_proof. Qed.
#[export] Instance stays_workerIsDrained w q id : Stays (workerIsDrained w q id).
Proof. unfold workerIsDrained. stays_proof. Qed.
#[export] Instance stays_getNextTask b w q id prefer : Stays (getNextTask cfg b w q id prefer).
Proof. unfold getNextTask. stays_proof. Qed.
#[export] Instance stays_getCurrentOrNextTask b w q id prefer : Stays (getCurrentOrNextTask cfg b w q id prefer).
Proof. unfold getCurrentOrNextTask. stays_proof. Qed.
#[export] Instance stays_isRunningCorrectTask w u : Stays (isRunningCorrectTask w u).
Proof. unfold isRunningCorrectTask. stays_proof. Qed.
#[export] Instance stays_processCurrentState w q r : Stays (processCurrentState cfg w q r).
Proof. unfold processCurrentState. stays_proof. Qed.
#[export] Instance stays_scheduleRemoval q k : Stays (scheduleRemoval cfg q k).
Proof. unfold scheduleRemoval. stays_proof. Qed.

#[export] Instance stays_returning q k m : Stays m -> Stays (returning cfg q k m).
Proof.
  intros Hm s. specialize (Hm s). unfold wp, returning in *. pose proof (stays_scheduleRemoval q k) as Hr. unfold FailFrame, wp in Hr.
  destruct (m s) as [[[r|u|u]|e| |] s1]; try done; specialize (Hr s1); unfold mbind, M_bind, mret, M_ret, fail;
    destruct (scheduleRemoval cfg q k s1) as [[a|e'| |] s2]; try done; by transitivity s1.
Qed.

#[export] Instance stays_findPlatformQueue found keys : Stays (findPlatformQueue found keys).
Proof. revert found. induction keys; intros; cbn [findPlatformQueue]; stays_proof. Qed.
#[export] Instance stays_verifyPublicKey existing v k : Stays (verifyPublicKey existing v k).
Proof. unfold verifyPublicKey. stays_proof. Qed.
#[export] Instance stays_verifyPublicKeys existing v keys : Stays (verifyPublicKeys existing v keys).
Proof. revert v. induction keys; intros; cbn [verifyPublicKeys]; stays_proof. Qed.
#[export] Instance stays_checkNewSizeClass pq c : Stays (checkNewSizeClass pq c).
Proof. unfold checkNewSizeClass. stays_proof. Qed.
#[export] Instance stays_getOrCreateWorker q k : Stays (getOrCreateWorker q k).
Proof. unfold getOrCreateWorker. stays_proof. Qed.
#[export] Instance stays_resumeDrained t w q k id reason : FailFrame stays (resumeDrained cfg t w q k id reason).
Proof. apply stays_critical, stays_returning. stays_proof. Qed.
#[export] Instance stays_resumeQueued t w q k id reason : FailFrame stays (resumeQueued cfg t w q k id reason).
Proof. apply stays_critical, stays_returning. stays_proof. Qed.

(** ** Inspection and administration *)

#[export] Instance stays_collect {A B} (l : list A) (f : A -> M B) : (forall x, Stays (f x)) -> Stays (collect l f).
Proof. intros Hf. induction l; cbn [collect]; stays_proof. Qed.
#[export] Instance stays_filterM {A} (f : A -> M bool) l : (forall x, Stays (f x)) -> Stays (filterM f l).
Proof. intros Hf. induction l; cbn [filterM]; stays_proof. Qed.
#[export] Instance stays_getQueueByName n : Stays (getSizeClassQueueByName n).
Proof. unfold getSizeClassQueueByName. stays_proof. Qed.
#[export] Instance stays_getInvocationByName n : Stays (getInvocationByName n).
Proof. unfold getInvocationByName. stays_proof. Qed.
#[export] Instance stays_getInvocationState i : Stays (getInvocationState i).
Proof. unfold getInvocationState. stays_proof. Qed.
#[export] Instance stays_getOperationState o : Stays (getOperationState o).
Proof. unfold getOperationState. stays_proof. Qed.
#[export] Instance stays_operationMatches s k st o : Stays (operationMatches s k st o).
Proof. unfold operationMatches. stays_proof. Qed.
#[export] Instance stays_sizeClassQueueState cq : Stays (sizeClassQueueState cq).
Proof. unfold sizeClassQueueState. stays_proof. Qed.
#[export] Instance stays_getWorkerState q k : Stays (getWorkerState q k).
Proof. unfold getWorkerState. stays_proof. Qed.
#[export] Instance stays_workerKeys l : Stays (workerKeys l).
Proof. unfold workerKeys. apply stays_collect. stays_proof. Qed.
#[export] Instance stays_wakeUpMatching pattern kw : Stays (wakeUpMatching pattern kw).
Proof. unfold wakeUpMatching. stays_proof. Qed.
#[export] Instance stays_terminateWorker kw pattern : Stays (terminateWorker kw pattern).
Proof. unfold terminateWorker. stays_proof. Qed.

Ltac stays_call := apply stays_critical; repeat (stays_step || apply stays_collect).

#[export] Instance stays_GetOperation t n : FailFrame stays (GetOperation cfg t n).
Proof. stays_call. Qed.
#[export] Instance stays_ListOperations t k st a n : FailFrame stays (ListOperations cfg t k st a n).
Proof. stays_call. Qed.
#[export] Instance stays_ListPlatformQueues t : FailFrame stays (ListPlatformQueues cfg t).
Proof. stays_call. Qed.
#[export] Instance stays_ListInvocationChildren t n w : FailFrame stays (ListInvocationChildren cfg t n w).
Proof. stays_call. Qed.
#[export] Instance stays_ListQueuedOperations t n a k : FailFrame stays (ListQueuedOperations cfg t n a k).
Proof. stays_call. Qed.
#[export] Instance stays_ListWorkers t w a k : FailFrame stays (ListWorkers cfg t w a k).
Proof. stays_call. Qed.
#[export] Instance stays_KillOperations t reason w : FailFrame stays (KillOperations cfg t reason w).
Proof. destruct reason; cbn [KillOperations]; [stays_call|apply _]. Qed.
#[export] Instance stays_AddDrain t n p : FailFrame stays (AddDrain cfg t n p).
Proof. stays_call. Qed.
#[export] Instance stays_RemoveDrain t n p : FailFrame stays (RemoveDrain cfg t n p).
Proof. stays_call. Qed.
#[export] Instance stays_ListDrains t n : FailFrame stays (ListDrains cfg t n).
Proof. stays_call. Qed.
#[export] Instance stays_TerminateWorkers t p : FailFrame stays (TerminateWorkers cfg t p).
Proof. stays_call. Qed.
End operations.
