(* ===== verification/SchedulerSpec.v ===== *)
(** * The scheduler: what the operations on tasks do

    Every operation on tasks and operations performs transitions of
    [SchedulerLifeCycle] on the view of the state, so that the life cycle is kept.
    The transitions are given for single steps, and composed the way the code
    composes the steps. *)

From S2P Require Import Prelude References Heap SchedulerState SchedulerLifeCycle Scheduler SchedulerCalls SchedulerWorkers SchedulerFrames.

Section spec.
Context {E : Environment}.
Context (cfg : configuration).
(** Operations that a client stops to wait for. *)
Context (X : gset nat).

(** From the state [s0], the state [s] has been reached. *)
Definition ok (D U G R : gset nat) (s0 s : buildQueue) : Prop :=
  life D U G R (viewOf s) /\ queueIds s /\ stable X (viewOf s0) (viewOf s).

Lemma ok_step D U G R D' U' G' R' s0 s s' v' :
  ok D U G R s0 s -> life D' U' G' R' v' -> stable X (viewOf s) v' -> similar v' (viewOf s') -> (queueIds s -> queueIds s') ->
  ok D' U' G' R' s0 s'.
Proof.
  intros (L&Q&S) L' S' Hs HQ. split; [by apply (life_similar _ _ _ _ v')|]. split; [auto|].
  transitivity (viewOf s); [done|]. transitivity v'; [done|]. by apply stable_similar.
Qed.

Lemma ok_same D U G R s0 s s' : ok D U G R s0 s -> same s s' -> ok D U G R s0 s'.
Proof.
  intros Hok Hs. apply (ok_step D U G R D U G R s0 s s' (viewOf s)); [done|apply Hok|reflexivity|by apply same_similar|apply Hs].
Qed.

(** An operation that keeps what matters. *)
Lemma wp_ok {A} (m : M A) `{!Frame same m} D U G R s0 s :
  ok D U G R s0 s -> wp m (fun _ s' => ok D U G R s0 s' /\ same s s') (fun _ => False) s.
Proof. intros Hok. apply (wp_frame same m). intros _ s' Hs. split; [by eapply ok_same|done]. Qed.

(** What the view says of an object. *)
Lemma view_task s t tk : allTasks s !! t = Some tk -> vTasks (viewOf s) !! t = Some (taskCore tk).
Proof. intros H. simpl. by rewrite lookup_fmap, H. Qed.

Lemma view_operation s o op : allOperations s !! o = Some op -> vOperations (viewOf s) !! o = Some (operationCore op).
Proof. intros H. simpl. by rewrite lookup_fmap, H. Qed.

Lemma view_worker s w wk : allWorkers s !! w = Some wk -> vWorkers (viewOf s) !! w = Some (currentTask wk).
Proof. intros H. simpl. by rewrite lookup_fmap, H. Qed.

Lemma task_view s t tv : vTasks (viewOf s) !! t = Some tv -> exists tk, allTasks s !! t = Some tk /\ taskCore tk = tv.
Proof. simpl. rewrite lookup_fmap. destruct (allTasks s !! t) as [tk|]; [|done]. intros [= <-]. by exists tk. Qed.

Lemma operation_view s o ov :
  vOperations (viewOf s) !! o = Some ov -> exists op, allOperations s !! o = Some op /\ operationCore op = ov.
Proof. simpl. rewrite lookup_fmap. destruct (allOperations s !! o) as [op|]; [|done]. intros [= <-]. by exists op. Qed.

Lemma same_task_view s s' t tv : same s s' -> vTasks (viewOf s) !! t = Some tv -> vTasks (viewOf s') !! t = Some tv.
Proof. intros Hs. simpl. by rewrite (same_tasks _ _ Hs). Qed.

(** ** Assignment of tasks *)

Definition assignView (w t : nat) (tv : taskView) (v : view) : view :=
  setTask t (tv <| tvWorker := Some w |>) v <| vWorkers := <[w := Some t]> (vWorkers v) |> <| vFlight := vFlight v |>.

Lemma view_putTask s t tk : similar (setTask t (taskCore tk) (viewOf s)) (viewOf (s <| allTasks ::= <[t := tk]> |>)).
Proof. split; simpl; [done|apply fmap_insert|done..]. Qed.

Lemma view_putWorker s w wk :
  similar ((viewOf s) <| vWorkers ::= <[w := currentTask wk]> |>) (viewOf (s <| allWorkers ::= <[w := wk]> |>)).
Proof. split; simpl; [apply fmap_insert|done..]. Qed.

Lemma wp_assignUnqueuedTask s w t n :
  wp (assignUnqueuedTask w t n) (fun _ s' => exists tv,
      vTasks (viewOf s) !! t = Some tv /\ vWorkers (viewOf s) !! w = Some None /\ tvWorker tv = None /\
      similar (assignView w t tv (viewOf s)) (viewOf s') /\ (queueIds s -> queueIds s')) (fun _ => False) s.
Proof.
  unfold assignUnqueuedTask. apply wp_bind, wp_deref. intros wk Hw. apply wp_bind, wp_deref. intros tk Ht.
  case_bool_decide as Hc; [done|]. case_bool_decide as Hc'; [done|].
  assert (currentTask wk = None) as Ec by (destruct (currentTask wk); [by destruct Hc|done]).
  assert (currentWorker tk = None) as Ew by (destruct (currentWorker tk); [by destruct Hc'|done]).
  apply wp_bind, wp_modify, wp_bind, wp_modify. match goal with |- wp _ _ _ ?x => set (s1 := x) end.
  assert (similar (assignView w t (taskCore tk) (viewOf s)) (viewOf s1)) as Hs1
    by (unfold s1; split; simpl; unfold constant; rewrite ?fmap_insert; reflexivity).
  apply (wp_mono _ (fun _ s' => same s1 s') _ (fun _ => False)); [|intros _ s' Hs|done].
  - apply wp_frame with same; [|by intros]. apply frame_bind; [apply _|apply _|]. intros _.
    apply frame_bind; [apply _|apply _|]. intros _. apply frame_keeps. intros s2. repeat keeps_step.
    by eapply keeps_putWorker_last.
  - exists (taskCore tk). split; [by apply view_task|]. split; [by rewrite (view_worker _ _ _ Hw), Ec|]. split; [done|].
    split; [transitivity (viewOf s1); [done|by apply same_similar]|]. intros HQ. by apply Hs.
Qed.

Lemma life_assign D U U' G R v w t tv :
  life D U G R v -> vTasks v !! t = Some tv -> vWorkers v !! w = Some None -> tvWorker tv = None -> tvInFlight tv = true ->
  (forall i o, tvOperations tv !! i = Some o -> o ∉ vQueue v i) ->
  (forall o, o ∈ U' -> o ∈ U) -> (forall o, o ∈ U -> o ∉ U' -> exists i, tvOperations tv !! i = Some o) ->
  life D U' G R (assignView w t tv v).
Proof.
  intros L Ht Hw Htw Hf Hq HU HU'. eapply life_setTask; try done.
  - intros w' o H. apply lookup_insert_Some in H as [[<- _]|[_ H]]; by eapply life_ids_workers.
  - intros w' t'. destruct (decide (w' = w)) as [->|Hne].
    + rewrite lookup_insert_eq. split.
      * intros [= <-]. exists (tv <| tvWorker := Some w |>). by rewrite lookup_insert_eq.
      * intros (tv0&H&E1). apply lookup_insert_Some in H as [[<- _]|[_ H]]; [done|].
        assert (vWorkers v !! w = Some (Some t')) by (apply (life_worker _ _ _ _ _ L); eauto). congruence.
    + rewrite lookup_insert_ne by done. rewrite (life_worker _ _ _ _ _ L). split; intros (tv0&H&E1).
      * exists tv0. split; [|done]. rewrite lookup_insert_ne; [done|congruence].
      * apply lookup_insert_Some in H as [[<- <-]|[_ H]]; [|by exists tv0]. simpl in E1. unfold constant in E1. congruence.
  - change (vFlight v = if tvInFlight tv then vFlight v else delete (tvKey tv) (vFlight v)). by rewrite Hf.
  - intros i o Ho Hqi. by destruct (Hq i o).
  - intros o Ho i. apply (life_unqueued _ _ _ _ _ L). auto.
Qed.

(** ** Operations leave and join their queues *)

Lemma position_Some {A} `{!EqDecision A} (x : A) l k : position x l = Some k -> l !! k = Some x.
Proof.
  unfold position. destruct (list_find _ l) as [[k' y]|] eqn:El; [|done]. intros [= <-].
  by apply list_find_Some in El as (?&->&_).
Qed.

Lemma heapRemoveElement_perm less (l l' : list nat) x : heapRemoveElement less l x = Some l' -> l ≡ₚ x :: l'.
Proof.
  unfold heapRemoveElement. destruct (position x l) as [k|] eqn:Ek; [|done]. apply position_Some in Ek. simpl.
  destruct (heapRemove_spec less l k x Ek) as (l0&E0&Hp). rewrite E0. by intros [= <-].
Qed.

(** The queues of a state with another queue of one invocation. *)
Lemma queueOf_putInvocation s i v j :
  queueOf (s <| allInvocations ::= <[i := v]> |>) j = if decide (j = i) then queuedOperations v else queueOf s j.
Proof.
  unfold queueOf. simpl. case_decide as Ej; [subst; by rewrite lookup_insert_eq|by rewrite lookup_insert_ne].
Qed.

Lemma wp_removeQueued s o :
  wp (removeQueuedFromInvocation o) (fun _ s' => exists op l,
      allOperations s !! o = Some op /\ queueOf s (operationInvocation op) ≡ₚ o :: l /\
      similar ((viewOf s) <| vQueue ::= fun Q i => if decide (i = operationInvocation op) then l else Q i |>) (viewOf s') /\
      (queueIds s -> queueIds s')) (fun _ => False) s.
Proof.
  unfold removeQueuedFromInvocation. apply wp_bind, wp_deref. intros op Ho. apply wp_bind, wp_deref. intros v Hv.
  apply wp_bind, wp_gets, wp_bind, wp_deref. intros l Hl. apply heapRemoveElement_perm in Hl.
  apply wp_bind, wp_modify. match goal with |- wp _ _ _ ?x => set (s1 := x) end.
  apply (wp_mono _ (fun _ s' => same s1 s') _ (fun _ => False)); [|intros _ s' Hs|done].
  - apply wp_frame with same; [|by intros]. apply frame_forEach; [apply _|]. intros i.
    destruct (parentInvocation i); [|apply _]. apply frame_keeps. intros s2. repeat keeps_step.
  - exists op, l. split; [done|]. split; [unfold queueOf; unfold InvocationId in *; by rewrite Hv|].
    split; [|intros HQ; by apply Hs]. transitivity (viewOf s1); [|by apply same_similar].
    unfold s1. split; try reflexivity. intros i. cbn [viewOf vQueue]. rewrite queueOf_putInvocation. simpl. by case_decide.
Qed.

(** Queues hold operations of their invocation, once. *)
Definition queuesGood (v : view) : Prop :=
  (forall i, NoDup (vQueue v i)) /\
  (forall i o, o ∈ vQueue v i -> exists ov, vOperations v !! o = Some ov /\ ovInvocation ov = i).

Lemma life_queuesGood D U G R v : life D U G R v -> queuesGood v.
Proof.
  intros L. split; [apply L|]. intros i o H. destruct (life_queue _ _ _ _ _ L i o H) as (ov&tv&(Ho&_)&Ei&_). by exists ov.
Qed.

Lemma wp_removeQueuedAll s l :
  queuesGood (viewOf s) ->
  wp (forEach l removeQueuedFromInvocation) (fun _ s' => exists Q,
      (forall i, NoDup (Q i)) /\ (forall i o, o ∈ Q i <-> o ∈ queueOf s i /\ o ∉ l) /\
      similar ((viewOf s) <| vQueue := Q |>) (viewOf s') /\ (queueIds s -> queueIds s')) (fun _ => False) s.
Proof.
  revert s. induction l as [|o l IH]; intros s Hgood; cbn [forEach].
  { apply wp_ret. exists (queueOf s). split; [apply Hgood|]. split; [set_solver|]. split; [|done]. by split. }
  apply wp_bind. eapply wp_mono; [apply wp_removeQueued| |done]. intros _ s1 (op&l1&Ho&Hl1&Hs1&HQ1). cbv beta.
  set (i0 := operationInvocation op) in *.
  assert (NoDup (o :: l1)) as Hnd by (rewrite <- Hl1; apply Hgood). apply NoDup_cons in Hnd as [Hno Hnd].
  assert (forall i p, p ∈ queueOf s1 i <-> p ∈ queueOf s i /\ p <> o) as Hq1.
  { intros i p. rewrite (similar_queue _ _ Hs1 i). simpl. case_decide as Ei.
    - subst i. rewrite Hl1. set_solver.
    - split; [|by intros [? _]]. intros Hp. split; [done|]. intros ->.
      destruct Hgood as [_ Hg]. destruct (Hg i o Hp) as (ov&Hov&Eov).
      rewrite (view_operation s o op Ho) in Hov. injection Hov as <-. by apply Ei. }
  assert (queuesGood (viewOf s1)) as Hgood1.
  { split.
    - intros i. rewrite (similar_queue _ _ Hs1 i). simpl. case_decide; [done|apply Hgood].
    - intros i p Hp. rewrite (similar_operations _ _ Hs1). simpl. apply Hgood. by apply Hq1 in Hp as [Hp _]. }
  eapply wp_mono; [by apply IH| |done]. intros _ s2 (Q&HN&HQ&Hs2&HQ2). exists Q. split; [done|]. split.
  - intros i p. rewrite HQ, Hq1. set_solver.
  - split; [|by auto]. transitivity ((viewOf s1) <| vQueue := Q |>); [|done].
    destruct Hs1 as [H1 H2 H3 H4 H5 H6 H7 H8]. by split.
Qed.

(** The operations of a task. *)
Definition operationsOf (tv : taskView) : list nat := (map_to_list (tvOperations tv)).*2.

Lemma operationsOf_spec tv o : o ∈ operationsOf tv <-> exists i, tvOperations tv !! i = Some o.
Proof.
  unfold operationsOf. rewrite list_elem_of_fmap. split.
  - intros ([i o']&->&H). apply elem_of_map_to_list in H. by exists i.
  - intros [i H]. exists (i, o). split; [done|]. by apply elem_of_map_to_list.
Qed.

Lemma taskOperations_core tk : taskOperations tk = operationsOf (taskCore tk).
Proof. done. Qed.

(** A queued task is assigned to a worker. *)
Lemma wp_assignQueuedTask D U G R s0 s w t n tv :
  ok D U G R s0 s -> vTasks (viewOf s) !! t = Some tv -> tvInFlight tv = true ->
  wp (assignQueuedTask w t n) (fun _ s' => ok D U G R s0 s' /\
    vTasks (viewOf s') !! t = Some (tv <| tvWorker := Some w |>)) (fun _ => False) s.
Proof.
  intros Hok Ht Hf. unfold assignQueuedTask. apply wp_bind.
  eapply wp_mono; [apply wp_assignUnqueuedTask| |done]. intros _ s1 (tv'&Ht'&Hw&Htw&Hs1&HQ1). cbv beta.
  rewrite Ht in Ht'. injection Ht' as <-. pose proof Hok as (L&_&_).
  assert (vTasks (viewOf s1) !! t = Some (tv <| tvWorker := Some w |>)) as Ht1
    by (rewrite (similar_tasks _ _ Hs1); apply lookup_insert_eq).
  apply wp_bind, wp_deref. intros tk1 Htk1. rewrite taskOperations_core.
  rewrite (view_task _ _ _ Htk1) in Ht1. apply Some_inj in Ht1. rewrite Ht1.
  change (operationsOf (tv <| tvWorker := Some w |>)) with (operationsOf tv).
  destruct (life_queuesGood _ _ _ _ _ L) as [HN Hg].
  apply wp_bind. eapply wp_mono; [apply wp_removeQueuedAll| |done].
  { split; [intros i; rewrite (similar_queue _ _ Hs1 i); apply HN|]. intros i o.
    rewrite (similar_queue _ _ Hs1 i), (similar_operations _ _ Hs1). apply Hg. }
  intros _ s2 (Q&HNQ&HQ&Hs2&HQ2). cbv beta. set (v2 := (viewOf s) <| vQueue := Q |>).
  assert (life D (U ∪ list_to_set (operationsOf tv)) G R v2) as L2.
  { apply life_dequeue; [done|done|]. intros i o. rewrite HQ. rewrite (similar_queue _ _ Hs1 i). done. }
  assert (ok D U G R s0 s2 /\ vTasks (viewOf s2) !! t = Some (tv <| tvWorker := Some w |>)) as [Hok2 Ht2].
  { split; [|rewrite (similar_tasks _ _ Hs2); change (vTasks (viewOf s1) !! t = Some (tv <| tvWorker := Some w |>));
             rewrite (similar_tasks _ _ Hs1); apply lookup_insert_eq].
    apply (ok_step D U G R D U G R s0 s s2 (assignView w t tv v2)); [done|..].
    - apply (life_assign D (U ∪ list_to_set (operationsOf tv))); try done.
      + intros i o Ho Hq. apply HQ in Hq as [_ Hq]. apply Hq, operationsOf_spec. by exists i.
      + set_solver.
      + intros o Ho Hn. apply operationsOf_spec. set_solver.
    - transitivity v2; [apply stable_setQueue|]. by apply (stable_setTask X v2 t tv).
    - destruct Hs1 as [H1 H2 H3 H4 H5 H6 H7 H8]. destruct Hs2 as [H1' H2' H3' H4' H5' H6' H7' H8'].
      split; [exact (eq_trans H1' H1)|exact (eq_trans H2' H2)|exact (eq_trans H3' H3)|exact (eq_trans H4' H4)|
        exact (eq_trans H5' H5)|exact H6'|exact (Permutation_trans H7' H7)|exact (Nat.le_trans _ _ _ H8 H8')].
    - auto. }
  eapply wp_mono; [by apply (wp_ok _ D U G R s0)| |done]. intros _ s3 [Hok3 Hs3]. split; [done|].
  by apply (same_task_view s2).
Qed.

(** A task leaves its stage. *)
Lemma life_leave D U G R v w t tv :
  life D U G R v -> vTasks v !! t = Some tv -> tvWorker tv = Some w ->
  life D (U ∪ list_to_set (operationsOf tv)) G R
    (setTask t (tv <| tvWorker := None |>) v <| vWorkers := <[w := None]> (vWorkers v) |> <| vFlight := vFlight v |>).
Proof.
  intros L Ht Hw. assert (tvInFlight tv = true) as Hf by (apply (life_executing _ _ _ _ _ L t); [done|congruence]).
  assert (vWorkers v !! w = Some (Some t)) as Hwt by (apply (life_worker _ _ _ _ _ L); eauto).
  assert (forall i o, tvOperations tv !! i = Some o -> forall j, o ∉ vQueue v j) as Hq.
  { intros i o Ho j Hj. destruct (life_operations _ _ _ _ _ L t tv i o Ht Ho) as (ov&A1&A2&A3).
    destruct (life_queue _ _ _ _ _ L j o Hj) as (ov'&tv'&(B1&B2&_)&_&_&B3). congruence. }
  apply (life_setTask D U (U ∪ list_to_set (operationsOf tv)) G R v t tv (tv <| tvWorker := None |>)
           (<[w := None]> (vWorkers v)) (vFlight v)); try done.
  - intros w' o H. apply lookup_insert_Some in H as [[<- _]|[_ H]]; by eapply life_ids_workers.
  - intros w' t'. destruct (decide (w' = w)) as [->|Hne].
    + rewrite lookup_insert_eq. split; [done|]. intros (tv0&H&E1).
      apply lookup_insert_Some in H as [[<- <-]|[Hne H]]; [done|].
      assert (vWorkers v !! w = Some (Some t')) by (apply (life_worker _ _ _ _ _ L); eauto). congruence.
    + rewrite lookup_insert_ne by done. rewrite (life_worker _ _ _ _ _ L). split; intros (tv0&H&E1).
      * exists tv0. split; [|done]. rewrite lookup_insert_ne; [done|congruence].
      * apply lookup_insert_Some in H as [[<- <-]|[_ H]]; [done|by exists tv0].
  - change (vFlight v = if tvInFlight tv then vFlight v else delete (tvKey tv) (vFlight v)). by rewrite Hf.
  - intros _ _ i o Ho Hn. destruct Hn. apply elem_of_union_r, elem_of_list_to_set, operationsOf_spec. by exists i.
  - intros o Ho i. apply elem_of_union in Ho as [Ho|Ho]; [by apply (life_unqueued _ _ _ _ _ L)|].
    apply elem_of_list_to_set, operationsOf_spec in Ho as [j Hj]. by apply (Hq j o).
  - set_solver.
Qed.

(** Reading the current state of a task. *)
Lemma task_core s t tk tv : allTasks s !! t = Some tk -> vTasks (viewOf s) !! t = Some tv -> taskCore tk = tv.
Proof. intros Htk H. rewrite (view_task _ _ _ Htk) in H. by apply Some_inj in H. Qed.

(** The end of [leaveQueuedOrExecutingStage]. *)
Lemma wp_leaveWorker D U G R s0 s t tv :
  ok D U G R s0 s -> vTasks (viewOf s) !! t = Some tv ->
  wp (tk ← getTask t;
      w ← deref (fun _ => currentWorker tk);
      _ ← forEach (taskInvocations tk) (fun i => decrementExecutingWorkersCount i w);
      wk ← getWorker w;
      _ ← putWorker w (wk <| currentTask := None |>);
      putTask t (tk <| currentWorker := None |>))
    (fun _ s' => ok D (U ∪ list_to_set (operationsOf tv)) G R s0 s' /\
       vTasks (viewOf s') !! t = Some (tv <| tvWorker := None |>)) (fun _ => False) s.
Proof.
  intros Hok Ht. apply wp_bind, wp_deref. intros tk Htk. pose proof (task_core _ _ _ _ Htk Ht) as Ec.
  apply wp_bind, wp_deref. intros w Hw.
  apply wp_bind. eapply wp_mono; [by apply (wp_ok _ D U G R s0)| |done]. intros _ s1 [Hok1 Hs1]. cbv beta.
  pose proof (same_task_view _ _ _ _ Hs1 Ht) as Ht1. pose proof Hok1 as (L1&_&_).
  apply wp_bind, wp_deref. intros wk Hwk. apply wp_bind, wp_modify, wp_modify.
  match goal with |- context[ok _ _ _ _ _ ?x] => set (s2 := x) end.
  assert (tvWorker tv = Some w) as Htw by (by rewrite <- Ec).
  assert (viewOf s2 = setTask t (tv <| tvWorker := None |>) (viewOf s1) <| vWorkers := <[w := None]> (vWorkers (viewOf s1)) |>
     <| vFlight := vFlight (viewOf s1) |>) as Ev.
  { rewrite <- Ec. unfold s2, viewOf, setTask. simpl. unfold constant. by rewrite !fmap_insert. }
  split.
  - apply (ok_step D U G R D (U ∪ list_to_set (operationsOf tv)) G R s0 s1 s2 (viewOf s2)); [done|..].
    + rewrite Ev. by apply life_leave.
    + rewrite Ev. apply (stable_setTask X _ t tv); try done. apply (life_executing _ _ _ _ _ L1 t); [done|congruence].
    + reflexivity.
    + done.
  - rewrite Ev. apply lookup_insert_eq.
Qed.

Lemma wp_leaveQueuedOrExecutingStage D U G R s0 s t b tv :
  ok D U G R s0 s -> vTasks (viewOf s) !! t = Some tv ->
  wp (leaveQueuedOrExecutingStage t b)
    (fun _ s' => ok D (U ∪ list_to_set (operationsOf tv)) G R s0 s' /\
       vTasks (viewOf s') !! t = Some (tv <| tvWorker := None |>)) (fun _ => False) s.
Proof.
  intros Hok Ht. unfold leaveQueuedOrExecutingStage. apply wp_bind, wp_deref. intros tk Htk.
  pose proof (task_core _ _ _ _ Htk Ht) as Ec. case_bool_decide as Hl; [done|].
  assert (tvInFlight tv = true) as Hf by (rewrite <- Ec; simpl; by destruct (initialSizeClassLearner tk)).
  apply wp_bind. eapply wp_mono; [by apply (wp_ok _ D U G R s0)| |done]. intros scq s1 [Hok1 Hs1]. cbv beta.
  pose proof (same_task_view _ _ _ _ Hs1 Ht) as Ht1.
  apply wp_bind. apply (wp_mono _ (fun _ s' => ok D U G R s0 s' /\ exists w,
    vTasks (viewOf s') !! t = Some (tv <| tvWorker := w |>)) _ (fun _ => False)); [| |done].
  - destruct (currentWorker tk) as [w|] eqn:Ew.
    + assert (Frame same (if b then match taskInvocations tk with
          | i :: l => setLastInvocation w (foldl lowestCommonAncestor i l) | [] => panic end
        else setLastInvocation w (rootInvocation scq))) by (destruct b; [destruct (taskInvocations tk)|]; apply _).
      eapply wp_mono; [by apply (wp_ok _ D U G R s0)| |done]. intros _ s2 [Hok2 Hs2]. split; [done|].
      exists (tvWorker tv). rewrite (same_task_view _ _ _ _ Hs2 Ht1). f_equal. by destruct tv.
    + apply wp_bind, wp_newId, wp_bind, wp_modify. match goal with |- wp _ _ _ ?x => set (s2 := x) end.
      assert (ok D U G R s0 s2) as Hok2.
      { pose proof Hok1 as (L1&_&_).
        apply (ok_step D U G R D U G R s0 (s1 <| nextId ::= S |>) s2
                 ((viewOf (s1 <| nextId ::= S |>)) <| vWorkers ::= <[nextId s1 := None]> |>)).
        - eapply ok_same; [exact Hok1|stores].
        - apply life_newWorker.
          + eapply life_similar; [|exact L1]. apply same_similar. stores.
          + destruct (vWorkers (viewOf (s1 <| nextId ::= S |>)) !! nextId s1) as [o|] eqn:Eo; [|done].
            pose proof (life_ids_workers _ _ _ _ _ L1 (nextId s1) o Eo) as Hlt. change (nextId s1 < nextId s1)%nat in Hlt. lia.
          + exact (Nat.lt_succ_diag_r (nextId s1)).
        - split; simpl; [eauto 10|eauto 10|]. intros o ov tv0 _ Ha Hw. exists ov, tv0. split; [exact Ha|lia].
        - apply (view_putWorker (s1 <| nextId ::= S |>) (nextId s1) (mkWorker [] None false None None [])).
        - done. }
      eapply wp_mono; [by apply (wp_assignQueuedTask D U G R s0 s2 _ t 0 tv)| |done].
      intros _ s3 [Hok3 Ht3]. split; [done|by eexists].
  - intros _ s2 [Hok2 [w Ht2]]. eapply wp_mono; [by apply (wp_leaveWorker D U G R s0 s2 t _ Hok2 Ht2)| |done].
    intros a s3 H3. exact H3.
Qed.

(** [enqueue] *)
Lemma wp_enqueue D U G R s0 s o tv :
  ok D U G R s0 s -> (exists ov, attached (viewOf s) o ov tv) -> tvInFlight tv = true -> tvWorker tv = None ->
  (forall i, o ∉ queueOf s i) ->
  wp (enqueue o) (fun _ s' => ok D (U ∖ {[o]}) G R s0 s' /\ vTasks (viewOf s') = vTasks (viewOf s) /\
    vOperations (viewOf s') = vOperations (viewOf s) /\ (forall i p, p ∈ queueOf s' i -> p = o \/ p ∈ queueOf s i))
    (fun _ => False) s.
Proof.
  intros Hok [ov Ha] Hf Hw Hn. unfold enqueue. apply wp_bind, wp_deref. intros op Ho.
  assert (operationCore op = ov) as Eo.
  { destruct Ha as (Ha&_). rewrite (view_operation _ _ _ Ho) in Ha. by apply Some_inj in Ha. }
  apply wp_bind, wp_deref. intros v Hv. apply wp_bind, wp_gets, wp_bind, wp_modify.
  match goal with |- wp _ _ _ ?x => set (s1 := x) end.
  set (Q := fun i => if decide (i = ovInvocation ov) then o :: queueOf s i else queueOf s i).
  assert (similar ((viewOf s) <| vQueue := Q |>) (viewOf s1)) as Hs1.
  { unfold s1. split; try reflexivity. intros i. cbn [viewOf vQueue]. rewrite queueOf_putInvocation. simpl. unfold Q.
    rewrite <- Eo. simpl. unfold constant. case_decide; [|done]. subst i. etrans; [apply heapPush_Permutation|]. unfold queueOf.
    unfold InvocationId in *. by rewrite Hv. }
  assert (ok D (U ∖ {[o]}) G R s0 s1) as Hok1.
  { apply (ok_step D U G R D (U ∖ {[o]}) G R s0 s s1 ((viewOf s) <| vQueue := Q |>)); [done| |apply stable_setQueue|done|done].
    apply (life_enqueue D U G R (viewOf s) o ov tv Q); [apply Hok|done|done|done|exact Hn|intros i; reflexivity]. }
  assert (Frame same (forEach (ancestors (operationInvocation op)) (fun i =>
    match parentInvocation i with
    | None => mret tt
    | Some p =>
        _ ← updateFirstOperationPriority i;
        v ← getInvocation p;
        s ← gets id;
        putInvocation p (v <| queuedChildren ::= fun l => heapPushOrFix (queuedChildrenLess s) l i |>)
    end))).
  { apply frame_forEach; [apply _|]. intros i. destruct (parentInvocation i); [|apply _].
    apply frame_keeps. intros s2. repeat keeps_step. }
  eapply wp_mono; [by apply (wp_ok _ D (U ∖ {[o]}) G R s0)| |done]. intros _ s2 [Hok2 Hs2]. apply same_similar in Hs2.
  split; [done|]. split; [exact (eq_trans (similar_tasks _ _ Hs2) (similar_tasks _ _ Hs1))|].
  split; [exact (eq_trans (similar_operations _ _ Hs2) (similar_operations _ _ Hs1))|].
  intros i p Hp. change (queueOf s2 i) with (vQueue (viewOf s2) i) in Hp.
  rewrite (similar_queue _ _ Hs2 i), (similar_queue _ _ Hs1 i) in Hp. simpl in Hp. unfold constant, Q in Hp.
  case_decide; [|by right]. by apply elem_of_cons in Hp.
Qed.

Lemma NoDup_operationsOf D U G R v t tv : life D U G R v -> vTasks v !! t = Some tv -> NoDup (operationsOf tv).
Proof.
  intros L Ht. unfold operationsOf. apply NoDup_fmap_2_strong; [|apply NoDup_map_to_list].
  intros [i o] [j p] Hi Hj. simpl. intros <-. apply elem_of_map_to_list in Hi, Hj.
  destruct (life_operations _ _ _ _ _ L t tv i o Ht Hi) as (ov&A1&_&A2).
  destruct (life_operations _ _ _ _ _ L t tv j o Ht Hj) as (ov'&B1&_&B2). congruence.
Qed.

Lemma attached_operationsOf D U G R v t tv o :
  life D U G R v -> vTasks v !! t = Some tv -> o ∈ operationsOf tv -> exists ov, attached v o ov tv /\ ovTask ov = t.
Proof.
  intros L Ht Ho. apply operationsOf_spec in Ho as [i Hi].
  destruct (life_operations _ _ _ _ _ L t tv i o Ht Hi) as (ov&A1&<-&<-). exists ov. by split.
Qed.

(** Operations of a task join their queues. *)
Lemma wp_enqueueAll D U G R s0 s t tv l :
  ok D U G R s0 s -> vTasks (viewOf s) !! t = Some tv -> tvInFlight tv = true -> tvWorker tv = None ->
  NoDup l -> (forall o, o ∈ l -> o ∈ operationsOf tv) -> (forall o, o ∈ l -> forall i, o ∉ queueOf s i) ->
  wp (forEach l enqueue) (fun _ s' => ok D (U ∖ list_to_set l) G R s0 s' /\ vTasks (viewOf s') = vTasks (viewOf s) /\
    vOperations (viewOf s') = vOperations (viewOf s)) (fun _ => False) s.
Proof.
  revert U s. induction l as [|o l IH]; intros U s Hok Ht Hf Hw Hnd Hops Hq; cbn [forEach].
  { apply wp_ret. assert (U ∖ list_to_set [] = U) as -> by set_solver. done. }
  apply NoDup_cons in Hnd as [Hno Hnd]. pose proof Hok as (L&_&_).
  destruct (attached_operationsOf _ _ _ _ _ _ _ o L Ht) as (ov&Ha&_); [apply Hops; set_solver|].
  apply wp_bind. eapply wp_mono; [apply (wp_enqueue D U G R s0 s o tv); try done; [by exists ov|apply Hq; set_solver]| |done].
  intros _ s1 (Hok1&Et&Eo&Hq1). eapply wp_mono; [apply (IH (U ∖ {[o]}) s1); try done| |done].
  - by rewrite Et.
  - intros p Hp. apply Hops. set_solver.
  - intros p Hp i Hi. destruct (Hq1 i p Hi) as [->|Hi']; [done|]. apply (Hq p) with i; [set_solver|done].
  - intros a s2 (Hok2&E2&F2). assert (U ∖ list_to_set (o :: l) = (U ∖ {[o]}) ∖ list_to_set l) as -> by set_solver.
    split; [done|]. by rewrite E2, F2.
Qed.

Lemma elem_of_rest (U : gset nat) (l : list nat) o : o ∈ U -> o ∉ U ∖ list_to_set l -> o ∈ l.
Proof. intros H1 H2. destruct (decide (o ∈ l)); [done|]. destruct H2. set_solver. Qed.

Lemma elem_of_rest_1 (U : gset nat) (l : list nat) o : o ∈ U ∖ list_to_set l -> o ∈ U.
Proof. set_solver. Qed.

(** [schedule] *)
Lemma wp_schedule D U G R s0 s t tv :
  ok D U G R s0 s -> vTasks (viewOf s) !! t = Some tv -> tvInFlight tv = true -> tvWorker tv = None ->
  (forall o, o ∈ operationsOf tv -> o ∈ U) ->
  wp (schedule t) (fun _ s' => ok D (U ∖ list_to_set (operationsOf tv)) G R s0 s' /\
    (forall t', t' <> t -> vTasks (viewOf s') !! t' = vTasks (viewOf s) !! t') /\
    vOperations (viewOf s') = vOperations (viewOf s) /\
    exists tv', vTasks (viewOf s') !! t = Some tv' /\ tvOperations tv' = tvOperations tv) (fun _ => False) s.
Proof.
  intros Hok Ht Hf Hw HU. unfold schedule. apply wp_bind, wp_deref. intros tk Htk.
  pose proof (task_core _ _ _ _ Htk Ht) as Ec.
  apply wp_bind. eapply wp_mono; [by apply (wp_ok _ D U G R s0)| |done]. intros scq s1 [Hok1 Hs1]. cbv beta.
  pose proof (same_task_view _ _ _ _ Hs1 Ht) as Ht1. pose proof Hok1 as (L1&_&_).
  apply wp_bind, wp_gets. cbv zeta. destruct (searchLevels _ _ _) as [i|].
  - apply wp_bind. eapply wp_mono; [by apply (wp_ok _ D U G R s0)| |done]. intros w s2 [Hok2 Hs2]. cbv beta.
    pose proof (same_task_view _ _ _ _ Hs2 Ht1) as Ht2.
    unfold assignUnqueuedTaskAndWakeUp. apply wp_bind.
    eapply wp_mono; [by apply (wp_ok _ D U G R s0)| |done]. intros _ s3 [Hok3 Hs3]. cbv beta.
    pose proof (same_task_view _ _ _ _ Hs3 Ht2) as Ht3. pose proof Hok3 as (L3&_&_).
    eapply wp_mono; [apply wp_assignUnqueuedTask| |done]. intros _ s4 (tv'&Ht'&Hww&_&Hs4&HQ4).
    rewrite Ht3 in Ht'. injection Ht' as <-.
    split; [apply (ok_step D U G R D (U ∖ list_to_set (operationsOf tv)) G R s0 s3 s4 (assignView w t tv (viewOf s3))); [done|..]|].
    + apply (life_assign D U); try done.
      * intros j o Ho. apply (life_unqueued _ _ _ _ _ L3), HU, operationsOf_spec. by exists j.
      * intros o. apply elem_of_rest_1.
      * intros o Ho Hn. apply operationsOf_spec. by apply (elem_of_rest U).
    + by apply (stable_setTask X (viewOf s3) t tv).
    + done.
    + done.
    + apply same_similar in Hs1, Hs2, Hs3. split; [|split].
      * intros t' Hne. rewrite (similar_tasks _ _ Hs4). simpl. rewrite lookup_insert_ne by done.
        change (vTasks (viewOf s3) !! t' = vTasks (viewOf s) !! t').
        by rewrite (similar_tasks _ _ Hs3), (similar_tasks _ _ Hs2), (similar_tasks _ _ Hs1).
      * rewrite (similar_operations _ _ Hs4). change (vOperations (viewOf s3) = vOperations (viewOf s)).
        by rewrite (similar_operations _ _ Hs3), (similar_operations _ _ Hs2), (similar_operations _ _ Hs1).
      * exists (tv <| tvWorker := Some w |>). rewrite (similar_tasks _ _ Hs4). split; [apply lookup_insert_eq|done].
  - rewrite taskOperations_core, Ec. eapply wp_mono; [apply (wp_enqueueAll D U G R s0 s1 t tv)| |done]; try done.
    + by apply (NoDup_operationsOf D U G R (viewOf s1) t).
    + intros o Ho i. apply (life_unqueued _ _ _ _ _ L1). by apply HU.
    + intros a s2 (Hok2&E2&F2). split; [done|]. apply same_similar in Hs1. split; [|split].
      * intros t' _. by rewrite E2, (similar_tasks _ _ Hs1).
      * by rewrite F2, (similar_operations _ _ Hs1).
      * exists tv. by rewrite E2.
Qed.

(** [newOperation] *)
Lemma wp_newOperation D U G R s0 s t priority i mayExist tv :
  ok D U G R s0 s -> vTasks (viewOf s) !! t = Some tv -> (i.1 < nextId s)%nat ->
  (forall j p, tvOperations tv !! j = Some p -> j.1 = i.1) ->
  wp (newOperation t priority i mayExist) (fun o s' =>
      ok (D ∖ {[t]}) (U ∪ {[o]}) (G ∪ {[o]}) R s0 s' /\
      vTasks (viewOf s') !! t = Some (tv <| tvOperations ::= <[i := o]> |>) /\
      (exists ov, vOperations (viewOf s') !! o = Some ov /\ ovMayExist ov = mayExist /\ ovTask ov = t /\ ovInvocation ov = i) /\
      o ∉ R /\ (nextId s <= o)%nat /\ forall t', t' <> t -> vTasks (viewOf s') !! t' = vTasks (viewOf s) !! t')
    (fun _ => False) s.
Proof.
  intros Hok Ht Hi Hsc. unfold newOperation. apply wp_bind, wp_newId, wp_bind, wp_deref. intros tk Htk.
  pose proof (task_core _ _ _ _ Htk Ht) as Ec.
  cbv beta zeta. case_match eqn:Eo; [apply wp_panic|].
  apply wp_bind, wp_newId. do 3 apply wp_bind, wp_modify. apply wp_ret. cbn [nextId].
  match goal with |- context[ok _ _ _ _ _ ?x] => set (s2 := x) end.
  change (nextId (s <| nextId ::= S |>)) with (S (nextId s)) in *. set (o := S (nextId s)) in *.
  set (s1 := s <| nextId ::= S |> <| nextId ::= S |>).
  assert (ok D U G R s0 s1) as Hok1.
  { eapply ok_same; [exact Hok|]. apply same_stores; try reflexivity. change (nextId s <= S (S (nextId s)))%nat. lia. }
  pose proof Hok1 as (L1&_&_).
  set (ov := mkOperationView (uuidGenerator (nextId s)) t i 0 mayExist).
  assert (vOperations (viewOf s1) !! o = None) as Ho.
  { destruct (vOperations (viewOf s1) !! o) as [ov'|] eqn:E1; [|done]. pose proof Hok as (L&_&_).
    destruct (life_ids_operations _ _ _ _ _ L o ov' E1) as [Hlt _]. change (o < nextId s)%nat in Hlt. unfold o in Hlt. lia. }
  assert (viewOf s2 = addOperation o ov tv (viewOf s1)) as Ev.
  { rewrite <- Ec. unfold s2, s1, viewOf, addOperation. simpl. by rewrite !fmap_insert. }
  assert (tvOperations tv !! i = None) as Ei by (by rewrite <- Ec).
  assert (life (D ∖ {[t]}) (U ∪ {[o]}) (G ∪ {[o]}) R (viewOf s2)) as L2.
  { rewrite Ev. apply (life_addOperation (viewOf s1) o ov tv Ho Ht Ei); try done.
    - change (o < S (S (nextId s)))%nat. unfold o. lia.
    - change (i.1 < S (S (nextId s)))%nat. lia. }
  split; [|split; [|split; [|split; [|split]]]].
  - apply (ok_step D U G R (D ∖ {[t]}) (U ∪ {[o]}) (G ∪ {[o]}) R s0 s1 s2 (viewOf s2)); [done|done| |reflexivity|done].
    rewrite Ev. by apply stable_addOperation.
  - rewrite Ev. apply lookup_insert_eq.
  - exists ov. split; [|done]. rewrite Ev. apply lookup_insert_eq.
  - intros HR. destruct (life_removing _ _ _ _ _ L1 o HR) as (_&_&ov'&tv'&(H&_)&_). congruence.
  - unfold o. lia.
  - intros t' Hne. rewrite Ev. simpl. by rewrite lookup_insert_ne.
Qed.

(** ** The cleanup of operations *)

Lemma cleanupPosition_None o l : cleanupPosition (RemoveOperation o) l = None -> o ∉ omap removedOperation l.
Proof.
  unfold cleanupPosition. destruct (list_find _ l) as [|] eqn:El; [done|]. intros _ H.
  apply list_find_None in El. apply list_elem_of_omap in H as (e&He&Hr). rewrite Forall_forall in El.
  apply (El e He). unfold removedOperation in Hr. destruct (callback e); try done. injection Hr as ->. simpl.
  by rewrite bool_decide_true.
Qed.

Lemma cleanupIsActive_spec o s : cleanupIsActive (RemoveOperation o) s = false -> o ∉ cleanupOperations s.
Proof.
  unfold cleanupIsActive. destruct (cleanupPosition _ _) eqn:Ep; [done|]. intros _. by apply cleanupPosition_None.
Qed.

Lemma wp_cleanupAdd s t o :
  wp (cleanupAdd t (RemoveOperation o)) (fun _ s' => o ∉ cleanupOperations s /\
     similar ((viewOf s) <| vCleanup := o :: cleanupOperations s |>) (viewOf s') /\ (queueIds s -> queueIds s')) (fun _ => False) s.
Proof.
  unfold cleanupAdd. apply wp_bind, wp_gets. destruct (cleanupIsActive _ s) eqn:Ea; [done|].
  apply cleanupIsActive_spec in Ea. apply wp_modify. split; [done|]. split; [|done].
  split; try reflexivity. simpl. unfold constant, cleanupOperations. simpl. rewrite heapPush_Permutation. done.
Qed.

Lemma wp_cleanupRemove s o :
  wp (cleanupRemove (RemoveOperation o)) (fun _ s' => exists C, cleanupOperations s ≡ₚ o :: C /\
     similar ((viewOf s) <| vCleanup := C |>) (viewOf s') /\ (queueIds s -> queueIds s')) (fun _ => False) s.
Proof.
  unfold cleanupRemove. apply wp_bind, wp_gets, wp_bind, wp_deref. intros [e l] Hr.
  destruct (cleanupPosition _ _) as [k|] eqn:Ek; [|done]. simpl in Hr.
  apply cleanupPosition_spec in Ek as (e'&He&Hk). destruct (heapRemove_spec cleanupLess _ k e' He) as (l'&E1&Hp).
  rewrite E1 in Hr. injection Hr as -> ->. apply wp_modify. exists (omap removedOperation l). split; [|split; [|done]].
  - unfold cleanupOperations. rewrite Hp. simpl. unfold removedOperation at 1. destruct (callback e); try done.
    simpl in Hk. apply bool_decide_eq_true_1 in Hk as ->. done.
  - split; reflexivity.
Qed.

(** An operation may be cleaned up from now on. *)
Lemma wp_maybeStartCleanup D U G R s0 s o op op' :
  ok D U G R s0 s -> allOperations s !! o = Some op ->
  operationTask op' = operationTask op -> operationInvocation op' = operationInvocation op ->
  operationName op' = operationName op -> 0 <= waiters op' -> o ∉ R ->
  waiters op <> 0 \/ mayExistWithoutWaiters op = true ->
  (exists tv, attached (viewOf s) o (operationCore op) tv) ->
  (o ∉ X -> 0 < waiters op -> waiters op <= waiters op') ->
  wp (_ ← putOperation o op'; maybeStartCleanup cfg o) (fun _ s' => ok D U G R s0 s' /\
     vTasks (viewOf s') = vTasks (viewOf s)) (fun _ => False) s.
Proof.
  intros Hok Ho Et Ei En Hw HR Hold Ha Hst. pose proof Hok as (L&_&_).
  assert (o ∉ cleanupOperations s) as Hn.
  { intros H. destruct (life_cleanup _ _ _ _ _ L o H) as (ov&tv&(H1&_)&H2&H3).
    rewrite (view_operation _ _ _ Ho) in H1. injection H1 as <-. simpl in *. destruct Hold; congruence. }
  apply wp_bind, wp_modify. match goal with |- wp _ _ _ ?x => set (s1 := x) end.
  set (ov' := operationCore op'). set (b := (waiters op' =? 0) && negb (mayExistWithoutWaiters op')).
  set (C := if b then o :: cleanupOperations s else cleanupOperations s).
  assert (forall s', similar ((viewOf s1) <| vCleanup := C |>) (viewOf s') -> (queueIds s1 -> queueIds s') ->
    ok D U G R s0 s' /\ vTasks (viewOf s') = vTasks (viewOf s)) as Hgoal.
  { intros s' Hs HQ. split; [|exact (similar_tasks _ _ Hs)].
    apply (ok_step D U G R D U G R s0 s s' (setOperation o ov' (viewOf s) <| vCleanup := C |>)); [done|..].
    - apply (life_setOperation D U G G R (viewOf s) o (operationCore op) ov' C); try done.
      + by apply view_operation.
      + unfold C. destruct b; [apply NoDup_cons; split; [done|]|]; apply L.
      + intros p Hp. unfold C. destruct b; simpl; [|done]. rewrite elem_of_cons. naive_solver.
      + unfold C, ov'. destruct b eqn:Eb; [|done]. intros _. unfold b in Eb. apply andb_true_iff in Eb as [E1 E2].
        apply Z.eqb_eq in E1. apply negb_true_iff in E2. simpl. auto.
      + unfold C, ov'. simpl. intros _ _ E1 E2. unfold b. rewrite E1, E2. apply elem_of_cons. by left.
    - by apply (stable_setOperation X (viewOf s) o (operationCore op)); [by apply view_operation|..].
    - transitivity ((viewOf s1) <| vCleanup := C |>); [|done].
      unfold s1. split; try reflexivity. simpl. by rewrite fmap_insert.
    - exact HQ. }
  unfold maybeStartCleanup. apply wp_bind, wp_deref. intros op1 Ho1.
  assert (op1 = op') as ->. { unfold s1 in Ho1. simpl in Ho1. rewrite lookup_insert_eq in Ho1. by injection Ho1. }
  apply wp_bind, wp_gets. fold b. destruct b eqn:Eb.
  - eapply wp_mono; [apply wp_cleanupAdd| |done]. intros _ s2 (_&Hs2&HQ2). apply Hgoal; [exact Hs2|done].
  - apply wp_ret, Hgoal; [|done]. split; reflexivity.
Qed.

(** [waitExecutionStart] *)
Lemma wp_waitExecutionStart D U G R s0 s o :
  ok D U G R s0 s -> o ∉ R -> (exists ov tv, attached (viewOf s) o ov tv) ->
  wp (waitExecutionStart o) (fun _ s' => ok D U (G ∖ {[o]}) R s0 s') (fun _ => False) s.
Proof.
  intros Hok HR (ov&tv&Ha). unfold waitExecutionStart. apply wp_bind, wp_gets.
  apply wp_bind. apply (wp_mono _ (fun _ s1 => exists C, o ∉ C /\ NoDup C /\ (forall p, p <> o -> p ∈ C <-> p ∈ cleanupOperations s) /\
    similar ((viewOf s) <| vCleanup := C |>) (viewOf s1) /\ (queueIds s -> queueIds s1)) _ (fun _ => False)); [| |done].
  - pose proof Hok as (L&_&_). pose proof (life_cleanup_NoDup _ _ _ _ _ L) as Hnd. simpl in Hnd.
    destruct (cleanupIsActive _ s) eqn:Ea; cbn [whenM].
    + eapply wp_mono; [apply wp_cleanupRemove| |done]. intros _ s1 (C&HC&Hs&HQ). rewrite HC in Hnd.
      apply NoDup_cons in Hnd as [Hno Hnd]. exists C. split; [done|]. split; [done|]. split; [|done].
      intros p Hp. rewrite HC, elem_of_cons. naive_solver.
    + apply cleanupIsActive_spec in Ea. apply wp_ret. exists (cleanupOperations s).
      split; [done|]. split; [done|]. split; [done|]. split; [|done]. split; reflexivity.
  - intros _ s1 (C&Hno&Hnd&HC&Hs1&HQ1). apply wp_bind, wp_deref. intros op Hop. apply wp_modify.
    match goal with |- ok _ _ _ _ _ ?x => set (s2 := x) end. pose proof Hok as (L&_&_).
    assert (ov = operationCore op) as ->.
    { destruct Ha as (Ha&_). pose proof (view_operation _ _ _ Hop) as H. rewrite (similar_operations _ _ Hs1) in H.
      change (vOperations (viewOf s) !! o = Some (operationCore op)) in H. rewrite Ha in H. by apply Some_inj in H. }
    pose proof (life_waiters _ _ _ _ _ L o _ (proj1 Ha)) as Hw. simpl in Hw.
    set (ov' := operationCore (op <| waiters ::= Z.add 1 |>)).
    apply (ok_step D U G R D U (G ∖ {[o]}) R s0 s s2 (setOperation o ov' (viewOf s) <| vCleanup := C |>)); [done|..].
    + apply (life_setOperation D U G (G ∖ {[o]}) R (viewOf s) o (operationCore op) ov' C); try done.
      * apply Ha.
      * change (0 <= 1 + waiters op). lia.
      * intros _ _ Hz. change (1 + waiters op = 0) in Hz. lia.
      * set_solver.
      * intros _. by exists tv.
    + apply (stable_setOperation X (viewOf s) o (operationCore op)); try done; [apply Ha|]. change (o ∉ X -> 0 < waiters op -> waiters op <= 1 + waiters op). lia.
    + transitivity (setOperation o ov' (viewOf s1)); [|unfold s2; split; try reflexivity; simpl; by rewrite fmap_insert].
      destruct Hs1 as [H1 H2 H3 H4 H5 H6 H7 H8].
      split; [exact H1|exact H2| |exact H4|exact H5|exact H6|exact H7|exact H8].
      unfold setOperation. simpl in *. unfold constant in *. by rewrite H3.
    + done.
Qed.

(** ** The end of tasks *)

(** The operations of a completed task may be cleaned up. *)
Lemma wp_expireAll D U G R s0 s t tv l :
  ok D U G R s0 s -> vTasks (viewOf s) !! t = Some tv -> (forall o, o ∈ l -> o ∈ operationsOf tv) ->
  wp (forEach l (fun o =>
    op ← getOperation o;
    if mayExistWithoutWaiters op then
      _ ← putOperation o (op <| mayExistWithoutWaiters := false |>);
      maybeStartCleanup cfg o
    else mret tt)) (fun _ s' => ok D U G R s0 s' /\ vTasks (viewOf s') = vTasks (viewOf s)) (fun _ => False) s.
Proof.
  revert s. induction l as [|o l IH]; intros s Hok Ht Hops; cbn [forEach]; [by apply wp_ret|].
  apply wp_bind, (wp_mono _ (fun _ s' => ok D U G R s0 s' /\ vTasks (viewOf s') = vTasks (viewOf s)) _ (fun _ => False)); [| |done].
  - apply wp_bind, wp_deref. intros op Hop. destruct (mayExistWithoutWaiters op) eqn:Em; [|by apply wp_ret].
    pose proof Hok as (L&_&_).
    destruct (attached_operationsOf _ _ _ _ _ _ _ o L Ht) as (ov&Ha&_); [apply Hops, elem_of_cons; by left|].
    assert (ov = operationCore op) as ->.
    { destruct Ha as (Ha&_). rewrite (view_operation _ _ _ Hop) in Ha. by apply Some_inj in Ha. }
    apply (wp_maybeStartCleanup D U G R s0 s o op); try done.
    + exact (life_waiters _ _ _ _ _ L o _ (proj1 Ha)).
    + intros HR. destruct (life_removing _ _ _ _ _ L o HR) as (_&_&ov'&tv'&(H1&_)&_&H2).
      rewrite (view_operation _ _ _ Hop) in H1. injection H1 as <-. simpl in H2. congruence.
    + by right.
    + by exists tv.
  - intros _ s1 [Hok1 E1]. eapply wp_mono; [apply (IH s1 Hok1); [by rewrite E1|]| |done].
    + intros p Hp. apply Hops, elem_of_cons. by right.
    + intros _ s2 [Hok2 E2]. split; [done|]. by rewrite E2.
Qed.

(** [markCompleted], after the result of the task has been set: in the state [s1] the
    task [tk] has left its stage, and [tk'] has replaced it. *)
Lemma wp_markCompleted D U U' G R s0 s1 t tk tk' :
  ok D U G R s0 s1 -> allTasks s1 !! t = Some tk -> tvInFlight (taskCore tk) = true -> currentWorker tk = None ->
  operations tk' = operations tk -> deduplicationKey tk' = deduplicationKey tk -> currentWorker tk' = None ->
  (forall o, o ∈ operationsOf (taskCore tk) -> o ∈ U) -> U' = U ∖ list_to_set (operationsOf (taskCore tk)) ->
  wp (markCompleted cfg t) (fun _ s' => ok D U' G R s0 s' /\
     vTasks (viewOf s') !! t = Some (mkTaskView (operations tk) (deduplicationKey tk) None false (failureErr tk', lastExecutionEvent tk')))
    (fun _ => False) (s1 <| allTasks ::= <[t := tk']> |>).
Proof.
  intros Hok Htk Hf Hcw Eops Ekey Hcw' HU ->. unfold markCompleted. apply wp_bind, wp_deref. intros tk2 Htk2.
  assert (tk2 = tk') as ->. { simpl in Htk2. rewrite lookup_insert_eq in Htk2. by injection Htk2. }
  apply wp_bind, wp_modify. match goal with |- wp _ _ _ ?x => set (s2 := x) end.
  apply wp_bind, wp_closeChannel. intros c Hc. apply wp_bind, wp_modify.
  match goal with |- wp _ _ _ ?x => set (s3 := x) end.
  set (tv := taskCore tk). set (tv' := mkTaskView (operations tk) (deduplicationKey tk) None false (failureErr tk', lastExecutionEvent tk')).
  pose proof Hok as (L1&_&_). pose proof (view_task _ _ _ Htk) as Ht.
  set (v' := setTask t tv' (viewOf s1) <| vWorkers := vWorkers (viewOf s1) |> <| vFlight := delete (tvKey tv) (vFlight (viewOf s1)) |>).
  assert (taskCore (tk' <| initialSizeClassLearner := None |> <| stageChangeWakeup := None |>) = tv') as Ev
    by (unfold tv'; rewrite <- Eops, <- Ekey, <- Hcw'; reflexivity).
  assert (similar v' (viewOf s3)) as Hs3.
  { unfold s3, s2, v'. split; try reflexivity.
    - change (taskCore <$> <[t := tk' <| initialSizeClassLearner := None |> <| stageChangeWakeup := None |>]> (<[t := tk']> (allTasks s1)) =
        <[t := tv']> (taskCore <$> allTasks s1)). by rewrite insert_insert_eq, fmap_insert, Ev.
    - change (delete (deduplicationKey tk') (inFlightDeduplicationMap s1) = delete (deduplicationKey tk) (inFlightDeduplicationMap s1)).
      by rewrite Ekey. }
  assert (ok D (U ∖ list_to_set (operationsOf tv)) G R s0 s3) as Hok3.
  { apply (ok_step D U G R D (U ∖ list_to_set (operationsOf tv)) G R s0 s1 s3 v'); [done|..|done|done].
    - apply (life_setTask D U (U ∖ list_to_set (operationsOf tv)) G R (viewOf s1) t tv tv'); try done.
      + exact (life_ids_workers _ _ _ _ _ L1).
      + intros w t'. rewrite (life_worker _ _ _ _ _ L1). split; intros (tv0&H&E1).
        * exists tv0. split; [|done]. rewrite lookup_insert_ne; [done|]. intros <-. rewrite Ht in H. injection H as <-.
          simpl in E1. congruence.
        * apply lookup_insert_Some in H as [[<- <-]|[_ H]]; [done|by exists tv0].
      + intros i o Ho Hq. destruct (life_unqueued _ _ _ _ _ L1 i o); [|done]. apply HU, operationsOf_spec. by exists i.
      + intros o Ho i. apply (life_unqueued _ _ _ _ _ L1). by apply elem_of_rest_1 in Ho.
      + intros o Ho Hn. apply operationsOf_spec. by apply (elem_of_rest U).
    - by apply (stable_setTask X (viewOf s1) t tv). }
  assert (vTasks (viewOf s3) !! t = Some tv') as Ht3
    by (rewrite (similar_tasks _ _ Hs3); apply lookup_insert_eq).
  eapply wp_mono; [apply (wp_expireAll D (U ∖ list_to_set (operationsOf tv)) G R s0 s3 t tv'); try done| |done].
  - intros o. rewrite taskOperations_core. unfold operationsOf. simpl. by rewrite Eops.
  - intros _ s4 [Hok4 E4]. split; [done|]. by rewrite E4.
Qed.

(** [fail] *)
Lemma wp_taskFail D G R s0 s t err b tv :
  ok D ∅ G R s0 s -> vTasks (viewOf s) !! t = Some tv ->
  wp (taskFail cfg t err b) (fun _ s' => ok D ∅ G R s0 s' /\ exists tv',
     vTasks (viewOf s') !! t = Some tv' /\ tvInFlight tv' = false /\ tvOperations tv' = tvOperations tv) (fun _ => False) s.
Proof.
  intros Hok Ht. unfold taskFail. apply wp_bind, wp_deref. intros tk Htk. pose proof (task_core _ _ _ _ Htk Ht) as Ec.
  destruct (initialSizeClassLearner tk) as [learner|] eqn:El.
  2: { apply wp_ret. split; [done|]. exists tv. split; [done|]. split; [|done]. rewrite <- Ec. simpl. by rewrite El. }
  assert (tvInFlight tv = true) as Hf by (rewrite <- Ec; simpl; by rewrite El).
  apply wp_bind. eapply wp_mono; [by apply (wp_leaveQueuedOrExecutingStage D ∅ G R s0 s t b tv)| |done].
  intros _ s1 [Hok1 Ht1]. cbv beta.
  apply wp_bind. eapply wp_mono; [by apply (wp_ok _ D (∅ ∪ list_to_set (operationsOf tv)) G R s0)| |done].
  intros _ s2 [Hok2 Hs2]. cbv beta. pose proof (same_task_view _ _ _ _ Hs2 Ht1) as Ht2.
  apply wp_bind, wp_deref. intros tk2 Htk2. pose proof (task_core _ _ _ _ Htk2 Ht2) as Ec2.
  apply wp_bind, wp_modify. assert (operationsOf (taskCore tk2) = operationsOf tv) as Eops by (by rewrite Ec2).
  eapply wp_mono; [apply (wp_markCompleted D (∅ ∪ list_to_set (operationsOf tv)) ∅ G R s0 s2 t tk2); try done| |done].
  - by rewrite Ec2.
  - change (tvWorker (taskCore tk2) = None). by rewrite Ec2.
  - change (tvWorker (taskCore tk2) = None). by rewrite Ec2.
  - rewrite Eops. set_solver.
  - rewrite Eops. set_solver.
  - intros _ s3 [Hok3 Ht3]. split; [done|]. eexists. split; [exact Ht3|]. split; [done|].
    change (tvOperations (taskCore tk2) = tvOperations tv). by rewrite Ec2.
Qed.

(** ** Operations that move to another size class queue *)

Section moves.
Context (scq : nat).

Definition moveOps (m : gmap InvocationId nat) (l : list (InvocationId * nat)) : gmap InvocationId nat :=
  foldl (fun m io => <[(scq, io.1.2) := io.2]> m) m l.

Definition moveOperations (O : gmap nat operationView) (l : list (InvocationId * nat)) : gmap nat operationView :=
  foldl (fun O io => alter (fun ov => ov <| ovInvocation := (scq, io.1.2) |>) io.2 O) O l.

Lemma moveOps_spec l m j o :
  NoDup (map (fun io : InvocationId * nat => io.1.2) l) ->
  moveOps m l !! j = Some o <-> (exists i, (i, o) ∈ l /\ j = (scq, i.2)) \/
    m !! j = Some o /\ forall io, io ∈ l -> j <> (scq, io.1.2).
Proof.
  revert m. induction l as [|[i p] l IH]; intros m Hnd; cbn [moveOps foldl map].
  { split; [intros H; right; set_solver|]. intros [(i&H&_)|[H _]]; [set_solver|done]. }
  apply NoDup_cons in Hnd as [Hn Hnd]. simpl in Hn. unfold moveOps in IH. rewrite (IH _ Hnd). simpl.
  assert (forall io, io ∈ l -> io.1.2 <> i.2) as Hne.
  { intros io Hio E1. apply Hn. rewrite <- E1. apply list_elem_of_fmap. by exists io. }
  split.
  - intros [(i'&Hi'&->)|[H Hl]]; [left; exists i'; split; [by apply elem_of_cons; right|done]|].
    apply lookup_insert_Some in H as [[<- <-]|[Hj H]].
    + left. exists i. split; [by apply elem_of_cons; left|done].
    + right. split; [done|]. intros io Hio. apply elem_of_cons in Hio as [->|Hio]; [by apply not_eq_sym|by apply Hl].
  - intros [(i'&Hi'&->)|[H Hl]].
    + apply elem_of_cons in Hi' as [Hi'|Hi']; [|left; by exists i']. injection Hi' as -> ->. right.
      rewrite lookup_insert_eq. split; [done|]. intros io Hio E1. injection E1 as E1. by apply (Hne io).
    + right. split.
      * rewrite lookup_insert_ne; [done|]. apply not_eq_sym, (Hl (i, p)). by apply elem_of_cons; left.
      * intros io Hio. apply Hl. by apply elem_of_cons; right.
Qed.

Lemma moveOperations_other l O o : o ∉ l.*2 -> moveOperations O l !! o = O !! o.
Proof.
  revert O. induction l as [|[i p] l IH]; intros O H; cbn [moveOperations foldl]; [done|].
  apply not_elem_of_cons in H as [Hne H]. unfold moveOperations in IH. rewrite IH by done. by rewrite lookup_alter_ne.
Qed.

Lemma moveOperations_spec l O i o ov :
  NoDup (l.*2) -> (i, o) ∈ l -> O !! o = Some ov -> moveOperations O l !! o = Some (ov <| ovInvocation := (scq, i.2) |>).
Proof.
  revert O. induction l as [|[j p] l IH]; intros O Hnd Hl Ho; [set_solver|]. apply NoDup_cons in Hnd as [Hn Hnd].
  cbn [moveOperations foldl]. apply elem_of_cons in Hl as [Hl|Hl].
  - injection Hl as <- <-. change (moveOperations (alter (fun ov => ov <| ovInvocation := (scq, i.2) |>) o O) l !! o =
      Some (ov <| ovInvocation := (scq, i.2) |>)). rewrite moveOperations_other by done. by rewrite lookup_alter_eq, Ho.
  - unfold moveOperations in IH. apply IH; [done..|]. rewrite lookup_alter_ne; [done|]. simpl. intros ->. apply Hn.
    apply list_elem_of_fmap. by exists (i, o).
Qed.

Lemma wp_getOrCreate s keys (Q : InvocationId -> buildQueue -> Prop) F :
  (forall s1, same s s1 -> Q (scq, keys) s1) -> wp (getOrCreateInvocation scq keys) Q F s.
Proof.
  intros HQ. pose proof (frame (R := same) (m := getOrCreateInvocation scq keys) s) as Hf. unfold wp in *.
  unfold getOrCreateInvocation, mbind, M_bind in *. destruct (forEach _ _ s) as [[[]|e| |] s1]; [by apply HQ|done..].
Qed.

(** The loop of [transplant]. *)
Lemma wp_moveLoop s t tv l :
  vTasks (viewOf s) !! t = Some tv ->
  wp (forEach l (fun '(oldI, o) =>
    i ← getOrCreateInvocation scq oldI.2;
    tk ← getTask t;
    _ ← putTask t (tk <| operations ::= <[i := o]> |>);
    op ← getOperation o;
    putOperation o (op <| operationInvocation := i |>)))
  (fun _ s' => similar ((viewOf s) <| vTasks ::= <[t := tv <| tvOperations := moveOps (tvOperations tv) l |>]> |>
      <| vOperations := moveOperations (vOperations (viewOf s)) l |>) (viewOf s') /\ (queueIds s -> queueIds s')) (fun _ => False) s.
Proof.
  revert s tv. induction l as [|[oldI o] l IH]; intros s tv Ht; cbn [forEach].
  { apply wp_ret. split; [|done]. split; try reflexivity.
    change (vTasks (viewOf s) = <[t := tv <| tvOperations := tvOperations tv |>]> (vTasks (viewOf s))).
    rewrite insert_id; [done|]. rewrite Ht. by destruct tv. }
  apply wp_bind, wp_bind, (wp_getOrCreate s).
  intros s1 Hs1. pose proof (same_task_view _ _ _ _ Hs1 Ht) as Ht1. apply same_similar in Hs1 as Hv1.
  apply wp_bind, wp_deref. intros tk Htk. pose proof (task_core _ _ _ _ Htk Ht1) as Ec.
  apply wp_bind, wp_modify, wp_bind, wp_deref. intros op Hop. apply wp_modify.
  match goal with |- wp _ _ _ ?x => set (s3 := x) end.
  set (tv3 := tv <| tvOperations ::= <[(scq, oldI.2) := o]> |>).
  assert (similar ((viewOf s) <| vTasks ::= <[t := tv3]> |>
      <| vOperations ::= alter (fun ov => ov <| ovInvocation := (scq, oldI.2) |>) o |>) (viewOf s3)) as Hs3.
  { destruct Hv1 as [H1 H2 H3 H4 H5 H6 H7 H8].
    split; [exact H1| | |exact H4|exact H5|exact H6|exact H7|exact H8].
    - change (taskCore <$> <[t := tk <| operations ::= <[(scq, oldI.2) := o]> |>]> (allTasks s1) = <[t := tv3]> (vTasks (viewOf s))).
      rewrite fmap_insert. change (taskCore <$> allTasks s1) with (vTasks (viewOf s1)). rewrite H2. unfold tv3. by rewrite <- Ec.
    - change (operationCore <$> <[o := op <| operationInvocation := (scq, oldI.2) |>]> (allOperations s1) =
        alter (fun ov => ov <| ovInvocation := (scq, oldI.2) |>) o (vOperations (viewOf s))).
      rewrite <- H3. change (vOperations (viewOf s1)) with (operationCore <$> allOperations s1).
      rewrite fmap_insert. apply map_eq. intros p. destruct (decide (p = o)) as [->|Hne].
      + rewrite lookup_insert_eq, lookup_alter_eq, lookup_fmap. change (allOperations s1 !! o = Some op) in Hop. by rewrite Hop.
      + by rewrite lookup_insert_ne, lookup_alter_ne. }
  assert (vTasks (viewOf s3) !! t = Some tv3) as Ht3 by (rewrite (similar_tasks _ _ Hs3); apply lookup_insert_eq).
  eapply wp_mono; [exact (IH s3 tv3 Ht3)| |done]. intros _ s4 [Hs4 HQ4]. split; [|intros HQ; by apply HQ4, Hs1].
  destruct Hs3 as [H1 H2 H3 H4 H5 H6 H7 H8]. destruct Hs4 as [H1' H2' H3' H4' H5' H6' H7' H8'].
  split; [exact (eq_trans H1' H1)| | |exact (eq_trans H4' H4)|exact (eq_trans H5' H5)|
    intros i; exact (Permutation_trans (H6' i) (H6 i))|exact (Permutation_trans H7' H7)|exact (Nat.le_trans _ _ _ H8 H8')].
  - rewrite H2'. change (<[t := tv3 <| tvOperations := moveOps (tvOperations tv3) l |>]> (vTasks (viewOf s3)) =
      <[t := tv <| tvOperations := moveOps (tvOperations tv3) l |>]> (vTasks (viewOf s))).
    rewrite H2. change (<[t := tv3 <| tvOperations := moveOps (tvOperations tv3) l |>]> (<[t := tv3]> (vTasks (viewOf s))) =
      <[t := tv <| tvOperations := moveOps (tvOperations tv3) l |>]> (vTasks (viewOf s))). by rewrite insert_insert_eq.
  - rewrite H3'. change (moveOperations (vOperations (viewOf s3)) l = moveOperations (vOperations (viewOf s)) ((oldI, o) :: l)).
    by rewrite H3.
Qed.

(** [transplant] *)
Lemma wp_transplant D U G R s0 s t tv :
  ok D U G R s0 s -> vTasks (viewOf s) !! t = Some tv -> (forall o, o ∈ operationsOf tv -> o ∈ U) -> (scq < nextId s)%nat ->
  wp (transplant t scq) (fun _ s' => ok D U G R s0 s' /\ exists tv', vTasks (viewOf s') !! t = Some tv' /\
     tvInFlight tv' = tvInFlight tv /\ tvWorker tv' = tvWorker tv /\
     forall o, o ∈ operationsOf tv' <-> o ∈ operationsOf tv) (fun _ => False) s.
Proof.
  intros Hok Ht HU Hscq. pose proof Hok as (L&_&_). unfold transplant. apply wp_bind, wp_deref. intros tk Htk.
  pose proof (task_core _ _ _ _ Htk Ht) as Ec. apply wp_bind, wp_modify.
  match goal with |- wp _ _ _ ?x => set (s1 := x) end. change (operations tk) with (tvOperations (taskCore tk)). rewrite Ec.
  set (l := map_to_list (tvOperations tv)).
  assert (vTasks (viewOf s1) = <[t := tv <| tvOperations := ∅ |>]> (vTasks (viewOf s))) as Es1.
  { change (taskCore <$> <[t := tk <| operations := ∅ |>]> (allTasks s) = <[t := tv <| tvOperations := ∅ |>]> (vTasks (viewOf s))).
    rewrite fmap_insert. by rewrite <- Ec. }
  assert (NoDup (map (fun io : InvocationId * nat => io.1.2) l)) as Hnd1.
  { apply NoDup_fmap_2_strong; [|apply NoDup_map_to_list]. intros [i o] [j p] Hi Hj. simpl. intros E1.
    apply elem_of_map_to_list in Hi, Hj. pose proof (life_sizeClass _ _ _ _ _ L t tv i j o p Ht Hi Hj) as E2.
    assert (i = j) as -> by (destruct i, j; simpl in *; congruence). rewrite Hi in Hj. by injection Hj as ->. }
  pose proof (NoDup_operationsOf _ _ _ _ _ _ _ L Ht) as Hnd2.
  eapply wp_mono; [apply (wp_moveLoop s1 t (tv <| tvOperations := ∅ |>) l)| |done].
  { rewrite Es1. apply lookup_insert_eq. }
  intros _ s2 [Hs2 HQ2]. set (ops := moveOps ∅ l). set (O := moveOperations (vOperations (viewOf s)) l).
  assert (forall j o, ops !! j = Some o <-> exists i, tvOperations tv !! i = Some o /\ j = (scq, i.2)) as Hops.
  { intros j o. unfold ops. rewrite moveOps_spec by done. split.
    - intros [(i&Hi&->)|[H _]]; [|done]. exists i. by apply elem_of_map_to_list in Hi.
    - intros (i&Hi&->). left. exists i. by apply elem_of_map_to_list in Hi. }
  set (v' := moved (viewOf s) t tv O ops).
  assert (forall i o ov, tvOperations tv !! i = Some o -> vOperations (viewOf s) !! o = Some ov ->
    O !! o = Some (ov <| ovInvocation := (scq, i.2) |>)) as HO.
  { intros i o ov Hi Ho. apply moveOperations_spec; [done| |done]. by apply elem_of_map_to_list. }
  assert (forall o, (forall i, tvOperations tv !! i <> Some o) -> O !! o = vOperations (viewOf s) !! o) as HO'.
  { intros o Hn. apply moveOperations_other. intros Ho. apply operationsOf_spec in Ho as [i Hi]. by apply (Hn i). }
  assert (similar v' (viewOf s2)) as Hv.
  { destruct Hs2 as [H1 H2 H3 H4 H5 H6 H7 H8].
    split; [exact H1| |exact H3|exact H4|exact H5|exact H6|exact H7|exact H8]. rewrite H2.
    change (<[t := tv <| tvOperations := ops |>]> (vTasks (viewOf s1)) = <[t := tv <| tvOperations := ops |>]> (vTasks (viewOf s))).
    rewrite Es1. by rewrite insert_insert_eq. }
  split.
  - apply (ok_step D U G R D U G R s0 s s2 v'); [done|..|done|].
    + apply (life_moved D U G R (viewOf s) t scq tv O ops); try done.
      intros i o Hi. apply HU, operationsOf_spec. by exists i.
    + by apply (stable_moved D U G R (viewOf s) t scq tv O ops).
    + intros HQ. by apply HQ2.
  - exists (tv <| tvOperations := ops |>). split; [rewrite (similar_tasks _ _ Hv); apply lookup_insert_eq|].
    split; [done|]. split; [done|]. intros o. rewrite !operationsOf_spec.
    change (tvOperations (tv <| tvOperations := ops |>)) with ops. split.
    + intros [j Hj]. apply Hops in Hj as (i&Hi&_). by exists i.
    + intros [i Hi]. exists (scq, i.2). apply Hops. by exists i.
Qed.
End moves.

(** A new task is registered. *)
Lemma ok_newTask D U G R s0 s t tk k a :
  ok D U G R s0 s -> vTasks (viewOf s) !! t = None -> (t < nextId s)%nat ->
  inFlightDeduplicationMap s !! default zeroKey k = None \/ k = None ->
  taskCore tk = mkTaskView ∅ (default zeroKey k) None true a ->
  ok (D ∪ {[t]}) U G R s0 (s <| allTasks ::= <[t := tk]> |>
     <| inFlightDeduplicationMap ::= match k with Some k => <[k := t]> | None => id end |>).
Proof.
  intros Hok Ht Hn Hk Ec. pose proof Hok as (L&_&_).
  pose proof (life_newTask D U G R (viewOf s) t k a L Ht Hn Hk) as L'.
  eapply (ok_step D U G R (D ∪ {[t]}) U G R s0 s _ _ Hok L'); [by apply stable_newTask| |done].
  split; try reflexivity. simpl. by rewrite fmap_insert, Ec.
Qed.

Lemma fresh_task D U G R s0 s : ok D U G R s0 s -> forall t, (nextId s <= t)%nat -> vTasks (viewOf s) !! t = None.
Proof.
  intros (L&_&_) t Ht. destruct (vTasks (viewOf s) !! t) as [tv|] eqn:E1; [|done].
  pose proof (life_ids_tasks _ _ _ _ _ L t tv E1) as H. change (t < nextId s)%nat in H. lia.
Qed.

Lemma wp_index {A} (l : list A) i (Q : A -> buildQueue -> Prop) F s :
  (forall a, a ∈ l -> Q a s) -> wp (liftOutcome (Prelude.index l i)) Q F s.
Proof.
  intros HQ. unfold wp, liftOutcome, Prelude.index. destruct (i <? 0); [done|]. destruct (l !! Z.to_nat i) as [a|] eqn:Ea; [|done].
  by apply HQ, (list_elem_of_lookup_2 _ (Z.to_nat i)).
Qed.

(** The background task for learning is created, and other tasks are left alone. *)
Lemma wp_learnInBackground U G R s0 s tk pq index expected timeout learner :
  ok ∅ U G R s0 s -> (forall o, o ∈ U -> (o < nextId s)%nat) -> (forall q, q ∈ sizeClassQueues pq -> (q < nextId s)%nat) ->
  wp (learnInBackground tk pq index expected timeout learner) (fun _ s' => ok ∅ U G R s0 s' /\
     forall t tv, vTasks (viewOf s) !! t = Some tv -> vTasks (viewOf s') !! t = Some tv) (fun _ => False) s.
Proof.
  intros Hok HU Hpq. unfold learnInBackground.
  assert (forall s1 c, ok ∅ U G R s0 s1 -> same s s1 -> wp (tellLearner c) (fun _ s' => ok ∅ U G R s0 s' /\
     forall t tv, vTasks (viewOf s) !! t = Some tv -> vTasks (viewOf s') !! t = Some tv) (fun _ => False) s1) as Htell.
  { intros s1 c Hok1 Hs1. eapply wp_mono; [by apply (wp_ok _ ∅ U G R s0)| |done]. intros _ s2 [Hok2 Hs2]. split; [done|].
    intros t tv Ht. by eapply same_task_view, same_task_view. }
  destruct (maximumQueuedBackgroundLearningOperations pq =? 0); [by apply Htell|].
  apply wp_bind, wp_index. intros scq Hscq. apply Hpq in Hscq.
  apply wp_bind, wp_getOrCreate. intros s1 Hs1. pose proof (ok_same _ _ _ _ _ _ _ Hok Hs1) as Hok1.
  apply wp_bind, wp_deref. intros v Hv. case_match; [by apply Htell|].
  do 3 apply wp_bind, wp_newId. set (n := nextId s1). set (s2 := s1 <| nextId ::= S |> <| nextId ::= S |> <| nextId ::= S |>).
  assert (ok ∅ U G R s0 s2) as Hok2.
  { eapply ok_same; [exact Hok1|]. apply same_stores; try reflexivity. change (n <= S (S (S n)))%nat. lia. }
  apply wp_bind, wp_modify. match goal with |- wp _ _ _ ?x => set (s3 := x) end.
  change (nextId (s1 <| nextId ::= S |>)) with (S n) in *.
  assert (vTasks (viewOf s2) !! S n = None) as Hfresh by (apply (fresh_task _ _ _ _ _ _ Hok1 (S n)); unfold n; lia).
  assert (ok (∅ ∪ {[S n]}) U G R s0 s3) as Hok3.
  { apply (ok_newTask ∅ U G R s0 s2 (S n) _ None (None, None)); try done; [|by right].
    change (S n < S (S (S n)))%nat. lia. }
  set (tv0 := mkTaskView ∅ zeroKey None true (None, None)).
  assert (vTasks (viewOf s3) = <[S n := tv0]> (vTasks (viewOf s2))) as Et3 by (unfold s3; simpl; by rewrite fmap_insert).
  apply wp_bind. eapply wp_mono; [apply (wp_newOperation (∅ ∪ {[S n]}) U G R s0 s3 (S n) _ (scq, BackgroundLearningKeys) true tv0)| |done]; try done.
  { rewrite Et3. apply lookup_insert_eq. }
  { pose proof (same_ids _ _ Hs1). change (scq < S (S (S n)))%nat. unfold n. lia. }
  intros o s4 (Hok4&Ht4&(ov&Ho4&Hm4&_)&_&Hno&Hother4). cbv beta.
  set (tv1 := tv0 <| tvOperations ::= <[(scq, BackgroundLearningKeys) := o]> |>) in *.
  assert (operationsOf tv1 = [o]) as Eops by (unfold operationsOf;
    change (tvOperations tv1) with ({[ (scq, BackgroundLearningKeys) := o ]} : gmap InvocationId nat); by rewrite map_to_list_singleton).
  assert (ok ∅ (U ∪ {[o]}) G R s0 s4) as Hok4'.
  { destruct Hok4 as (L4&Q4&S4). split; [|by split].
    apply (life_mayExist _ _ _ _ _ o ov); [|done|done].
    assert ((∅ ∪ {[S n]}) ∖ {[S n]} = (∅ : gset nat)) as E1 by set_solver. by rewrite E1 in L4. }
  eapply wp_mono; [apply (wp_schedule ∅ (U ∪ {[o]}) G R s0 s4 (S n) tv1); try done| |done].
  { rewrite Eops. set_solver. }
  intros _ s5 (Hok5&Hother5&_&_). split.
  - rewrite Eops in Hok5. assert ((U ∪ {[o]}) ∖ list_to_set [o] = U) as E1; [|by rewrite E1 in Hok5].
    assert (o ∉ U); [|set_solver]. intros Ho. apply HU in Ho. pose proof (same_ids _ _ Hs1).
    change (S (S (S n)) <= o)%nat in Hno. unfold n in Hno. lia.
  - intros t tv Ht. assert (t <> S n) as Hne.
    { intros ->. pose proof (same_task_view _ _ _ _ Hs1 Ht) as H1. change (vTasks (viewOf s2) !! S n = Some tv) in H1. congruence. }
    rewrite Hother5, Hother4, Et3, lookup_insert_ne by done. by apply (same_task_view s s1).
Qed.

(** [complete] *)
Lemma wp_taskComplete G R s0 s t completed :
  ok ∅ ∅ G R s0 s -> wp (taskComplete cfg t completed) (fun _ s' => ok ∅ ∅ G R s0 s') (fun _ => False) s.
Proof.
  intros Hok. unfold taskComplete. apply wp_bind, wp_deref. intros tk0 Htk0. pose proof (view_task _ _ _ Htk0) as Ht.
  destruct (initialSizeClassLearner tk0) as [learner|] eqn:El; [|by apply wp_ret].
  set (tv := taskCore tk0) in *. assert (tvInFlight tv = true) as Hf by (unfold tv; simpl; by rewrite El).
  apply wp_bind. eapply wp_mono; [by apply (wp_leaveQueuedOrExecutingStage ∅ ∅ G R s0 s t true tv)| |done].
  intros _ s1 [Hok1 Ht1]. cbv beta. set (U := ∅ ∪ list_to_set (operationsOf tv)) in *.
  set (tv1 := tv <| tvWorker := None |>) in *.
  apply wp_bind. eapply wp_mono; [by apply (wp_ok _ ∅ U G R s0)| |done]. intros scq s2 [Hok2 Hs2]. cbv beta.
  pose proof (same_task_view _ _ _ _ Hs2 Ht1) as Ht2. pose proof Hok2 as (L2&Q2&_).
  apply wp_bind, wp_deref. intros q Hq. apply wp_bind, wp_deref. intros pq Hpq. cbv zeta.
  assert (forall q, q ∈ sizeClassQueues pq -> (q < nextId s2)%nat) as Hids by (intros q' Hq'; by apply (Q2 (queuePlatformQueue q) pq)).
  assert (forall o, o ∈ U <-> o ∈ operationsOf tv1) as HU.
  { intros o. unfold U. change (operationsOf tv1) with (operationsOf tv). set_solver. }
  assert (forall o, o ∈ U -> (o < nextId s2)%nat) as HUids.
  { intros o Ho. apply HU in Ho. destruct (attached_operationsOf _ _ _ _ _ _ _ o L2 Ht2 Ho) as (ov&(A1&_)&_).
    by apply (life_ids_operations _ _ _ _ _ L2 o ov). }
  assert (forall s3, ok ∅ U G R s0 s3 -> vTasks (viewOf s3) !! t = Some tv1 ->
    wp (tk ← getTask t; _ ← putTask t (tk <| lastExecutionEvent := completionEvent completed |>); markCompleted cfg t)
      (fun _ s' => ok ∅ ∅ G R s0 s') (fun _ => False) s3) as Hfinish.
  { intros s3 Hok3 Ht3. apply wp_bind, wp_deref. intros tk3 Htk3. pose proof (task_core _ _ _ _ Htk3 Ht3) as Ec.
    apply wp_bind, wp_modify. eapply wp_mono; [apply (wp_markCompleted ∅ U ∅ G R s0 s3 t tk3); try done| |done].
    - by rewrite Ec.
    - change (tvWorker (taskCore tk3) = None). by rewrite Ec.
    - change (tvWorker (taskCore tk3) = None). by rewrite Ec.
    - rewrite Ec. intros o. apply HU.
    - rewrite Ec. apply leibniz_equiv. intros o. rewrite elem_of_difference, elem_of_list_to_set, HU. set_solver.
    - intros _ s4 [Hok4 _]. done. }
  assert (forall b, wp (_ ← tellLearner (LearnerFailed learner);
    match FailedLearning learner b with
    | Some (expected, timeout, retry) =>
        tk ← getTask t;
        _ ← putTask t (tk <| initialSizeClassLearner := Some retry |> <| expectedDuration := expected |>
                          <| effectiveExecutionTimeout := timeout |>);
        largest ← deref (fun _ => last (sizeClassQueues pq));
        _ ← transplant t largest;
        _ ← schedule t;
        reportNonFinalStageChange t
    | None => tk ← getTask t; _ ← putTask t (tk <| lastExecutionEvent := completionEvent completed |>); markCompleted cfg t
    end) (fun _ s' => ok ∅ ∅ G R s0 s') (fun _ => False) s2) as Hfail.
  { intros b. apply wp_bind. eapply wp_mono; [by apply (wp_ok _ ∅ U G R s0)| |done]. intros _ s3 [Hok3 Hs3]. cbv beta.
    pose proof (same_task_view _ _ _ _ Hs3 Ht2) as Ht3. pose proof (same_ids _ _ Hs3) as Hn3.
    destruct (FailedLearning _ _) as [[[expected timeout] retry]|]; [|by apply Hfinish].
    apply wp_bind, wp_deref. intros tk3 Htk3. pose proof (task_core _ _ _ _ Htk3 Ht3) as Ec.
    apply wp_bind, wp_modify. match goal with |- wp _ _ _ ?x => set (s4 := x) end.
    assert (same s3 s4) as Hs4.
    { apply (same_putTask_at _ _ tk3); [done|]. assert (tvInFlight (taskCore tk3) = true) as Hf3 by (rewrite Ec; exact Hf).
      unfold taskCore in *. simpl in Hf3. destruct (initialSizeClassLearner tk3); [reflexivity|discriminate]. }
    pose proof (ok_same _ _ _ _ _ _ _ Hok3 Hs4) as Hok4. pose proof (same_task_view _ _ _ _ Hs4 Ht3) as Ht4.
    apply wp_bind, wp_deref. intros largest Hl. rewrite last_lookup in Hl. apply list_elem_of_lookup_2, Hids in Hl.
    apply wp_bind. eapply wp_mono; [apply (wp_transplant largest ∅ U G R s0 s4 t tv1 Hok4 Ht4)| |done].
    - intros o. apply HU.
    - change (nextId s4) with (nextId s3). lia.
    - intros _ s5 [Hok5 (tv5&Ht5&Hf5&Hw5&Hops5)]. cbv beta. apply wp_bind.
      eapply wp_mono; [apply (wp_schedule ∅ U G R s0 s5 t tv5 Hok5 Ht5)| |done].
      + by rewrite Hf5.
      + by rewrite Hw5.
      + intros o Ho. by apply HU, Hops5.
      + intros _ s6 [Hok6 _]. cbv beta.
        assert (U ∖ list_to_set (operationsOf tv5) = ∅) as E6.
        { apply leibniz_equiv. intros o. rewrite elem_of_difference, elem_of_list_to_set, HU, Hops5. set_solver. }
        rewrite E6 in Hok6. eapply wp_mono; [by apply (wp_ok _ ∅ ∅ G R s0)| |done]. by intros _ s7 [Hok7 _]. }
  destruct (completionOutcome completed).
  - apply wp_bind. eapply wp_mono; [by apply (wp_ok _ ∅ U G R s0)| |done]. intros _ s3 [Hok3 Hs3]. cbv beta.
    pose proof (same_task_view _ _ _ _ Hs3 Ht2) as Ht3.
    apply wp_bind, (wp_mono _ (fun _ s4 => ok ∅ U G R s0 s4 /\ vTasks (viewOf s4) !! t = Some tv1) _ (fun _ => False)); [| |done].
    + destruct (Succeeded _ _ _) as [[[[index expected] timeout] background]|]; [|by apply wp_ret].
      pose proof (same_ids _ _ Hs3).
      eapply wp_mono; [apply (wp_learnInBackground U G R s0 s3 tk0 pq index expected timeout background Hok3)| |done].
      * intros o Ho. apply HUids in Ho. lia.
      * intros q' Hq'. apply Hids in Hq'. lia.
      * intros _ s4 [Hok4 H4]. split; [done|]. by apply H4.
    + intros _ s4 [Hok4 Ht4]. by apply Hfinish.
  - by apply (Hfail true).
  - by apply (Hfail false).
Qed.
End spec.
