(* ===== verification/SchedulerGood.v ===== *)
(** * The scheduler: calls keep the life cycle

    Every call of clients, workers and administrators keeps the invariant of
    [SchedulerLifeCycle], whether it succeeds or fails. *)

From S2P Require Import Prelude References Heap SchedulerState SchedulerLifeCycle Scheduler SchedulerCalls SchedulerWorkers SchedulerAdmin SchedulerFrames SchedulerSpec.

Section good.
Context {E : Environment}.
Context (cfg : configuration).

(** No object is in transition. *)
Definition good (X : gset nat) (s0 s : buildQueue) : Prop := ok X ∅ ∅ ∅ ∅ s0 s.

Class Good (X : gset nat) {A} (m : M A) : Prop :=
  wp_good s0 s : good X s0 s -> wp m (fun _ s' => good X s0 s') (fun s' => good X s0 s') s.

Section rules.
Context (X : gset nat).

#[export] Instance good_bind {A B} (m : M A) (f : A -> M B) : Good X m -> (forall a, Good X (f a)) -> Good X (m ≫= f) | 5.
Proof.
  intros Hm Hf s0 s Hs. apply wp_bind. eapply wp_mono; [by apply Hm| |done]. intros a s1 H1. by apply Hf.
Qed.

#[export] Instance good_same {A} (m : M A) : FailFrame same m -> Good X m | 10.
Proof.
  intros Hm s0 s Hs. apply (wp_failFrame same m); [intros _ s' H|intros s' H]; by eapply ok_same.
Qed.

#[export] Instance good_fail {A} e : Good X (A := A) (fail e).
Proof. intros s0 s Hs. by apply wp_fail. Qed.

#[export] Instance good_forEach {A} (l : list A) (f : A -> M unit) : (forall x, Good X (f x)) -> Good X (forEach l f).
Proof. intros Hf. induction l; simpl; apply _. Qed.

#[export] Instance good_if {A} (b : bool) (m m' : M A) : Good X m -> Good X m' -> Good X (if b then m else m').
Proof. by destruct b. Qed.

#[export] Instance good_wrapError {A} c (m : M A) : Good X m -> Good X (wrapError c m).
Proof. intros Hm s0 s Hs. specialize (Hm s0 s Hs). unfold wp, wrapError in *. by destruct (m s) as [[] ?]. Qed.

#[export] Instance good_taskFail t err b : Good X (taskFail cfg t err b).
Proof.
  intros s0 s Hs. destruct (allTasks s !! t) as [tk|] eqn:Et.
  - eapply wp_mono; [by apply (wp_taskFail cfg X ∅ ∅ ∅ s0 s t err b (taskCore tk)); [|apply view_task]| |done].
    by intros _ s' [H _].
  - unfold wp, taskFail, getTask, deref, mbind, M_bind. by rewrite Et.
Qed.

#[export] Instance good_taskComplete t c : Good X (taskComplete cfg t c).
Proof. intros s0 s Hs. eapply wp_mono; [by apply wp_taskComplete|done|done]. Qed.

(** ** Removal *)

#[export] Instance same_removeEmpty l : Frame same (removeEmpty l).
Proof. induction l as [|i l IH]; simpl; [apply _|]. apply frame_bind; [apply _..|]. intros []; apply _. Qed.

#[export] Instance good_failAll fuel i err : Good X (failAllQueuedOperations cfg fuel i err).
Proof.
  revert i. induction fuel as [|fuel IH]; intros i; cbn [failAllQueuedOperations]; [apply _|].
  apply good_bind; [apply _|]. intros s. destruct (allInvocations s !! i) as [v|]; [|apply _].
  destruct (last (queuedChildren v)) as [c|]; [apply _|]. destruct (last (queuedOperations v)) as [o|]; apply _.
Qed.

Lemma wp_forEach_one {A} (x : A) f (Q : buildQueue -> Prop) F s :
  wp (forEach [x] f) (fun _ s' => Q s') F s -> wp (f x) (fun _ s' => Q s') F s.
Proof. unfold wp, forEach, mbind, M_bind. by destruct (f x s) as [[]]. Qed.

(** The removal of an operation that has left the cleanup queue. *)
Lemma wp_operationRemove s0 s o l C :
  good X s0 s -> cleanupOperations s ≡ₚ o :: C -> omap removedOperation l = C ->
  wp (operationRemove cfg o) (fun _ s' => good X s0 s') (fun _ => False) (s <| cleanupQueue := l |>).
Proof.
  intros Hok HC El. unfold operationRemove. apply wp_bind, wp_deref. intros op Hop.
  change (allOperations s !! o = Some op) in Hop. pose proof (view_operation _ _ _ Hop) as Ho.
  set (ov := operationCore op) in *. apply wp_bind, wp_modify. match goal with |- wp _ _ _ ?x => set (s1 := x) end.
  assert (ok X ∅ ∅ ∅ (∅ ∪ {[o]}) s0 s1) as Hok1.
  { apply (ok_step X ∅ ∅ ∅ ∅ ∅ ∅ ∅ (∅ ∪ {[o]}) s0 s s1 ((viewOf s) <| vCleanup := C |> <| vNames ::= delete (ovName ov) |>)).
    - done.
    - apply (life_beginRemoval ∅ ∅ ∅ ∅ (viewOf s) o ov C); [apply Hok|done|done].
    - apply stable_beginRemoval.
    - split; try reflexivity. change (omap removedOperation l ≡ₚ C). by rewrite El.
    - done. }
  pose proof Hok1 as (L1&_&_). set (R := ∅ ∪ {[o]}) in *. assert (o ∈ R) as HoR by (unfold R; set_solver).
  destruct (life_removing _ _ _ _ _ L1 o HoR) as (_&_&ov'&tv&(A1&A2&A3)&Hw&Hm).
  change (vOperations (viewOf s1) !! o) with (vOperations (viewOf s) !! o) in A1.
  rewrite Ho in A1. injection A1 as <-. set (t := operationTask op) in *. set (i := operationInvocation op) in *.
  apply wp_bind, wp_deref. intros tk Htk. pose proof (task_core _ _ _ _ Htk A2) as Ec. cbv zeta.
  (** The end: the operation is detached. *)
  assert (forall U s2 tv2, ok X ∅ U ∅ R s0 s2 -> U ⊆ {[o]} ->
    vTasks (viewOf s2) !! t = Some tv2 -> tvOperations tv2 !! i = Some o ->
    (forall j, o ∉ queueOf s2 j) -> (tvInFlight tv2 = true -> delete i (tvOperations tv2) <> ∅) ->
    wp (tk ← getTask t; putTask t (tk <| operations ::= delete i |>)) (fun _ s' => good X s0 s') (fun _ => False) s2) as Hend.
  { intros U s2 tv2 Hok2 HU Ht2 Hi2 Hq2 Hne2. apply wp_bind, wp_deref. intros tk2 Htk2.
    pose proof (task_core _ _ _ _ Htk2 Ht2) as Ec2. apply wp_modify. match goal with |- good _ _ ?x => set (s3 := x) end.
    pose proof Hok2 as (L2&_&_). destruct (life_operations _ _ _ _ _ L2 t tv2 i o Ht2 Hi2) as (ov2&Ho2&Et2&Ei2).
    assert (attached (viewOf s2) o ov2 tv2) as Ha2 by (split; [done|by rewrite Et2, Ei2]).
    destruct (life_removing _ _ _ _ _ L2 o HoR) as (_&_&ov3&tv3&(B1&_)&Hw2&_).
    rewrite Ho2 in B1. injection B1 as <-.
    assert (ok X ∅ (U ∖ {[o]}) ∅ (R ∖ {[o]}) s0 s3) as Hok3.
    { apply (ok_step X ∅ U ∅ R ∅ (U ∖ {[o]}) ∅ (R ∖ {[o]}) s0 s2 s3 (detach ov2 tv2 (viewOf s2))); [done|..|done].
      - apply (life_detach (viewOf s2) o ov2 tv2 Ha2); [done|exact Hq2|done|by rewrite Ei2].
      - apply (stable_detach (viewOf s2) o ov2 tv2 Ha2 X). right. lia.
      - unfold detach. rewrite Et2, Ei2, <- Ec2. exact (view_putTask s2 t (tk2 <| operations ::= delete i |>)). }
    assert (U ∖ {[o]} = ∅ /\ R ∖ {[o]} = ∅) as [E1 E2] by (unfold R; set_solver). by rewrite E1, E2 in Hok3. }
  (** An operation of a task that is not queued is in no queue. *)
  assert (forall U s2 tv2 j, ok X ∅ U ∅ R s0 s2 -> vTasks (viewOf s2) !! t = Some tv2 -> tvOperations tv2 !! i = Some o ->
    tvInFlight tv2 = false \/ tvWorker tv2 <> None -> o ∉ queueOf s2 j) as Hnq.
  { intros U s2 tv2 j (L2&_&_) Ht2 Hi2 Hnot Hj.
    destruct (life_operations _ _ _ _ _ L2 t tv2 i o Ht2 Hi2) as (ov2&Ho2&Et2&Ei2).
    destruct (life_queue _ _ _ _ _ L2 j o Hj) as (ov3&tv3&(B1&B2&_)&_&Hf&Hn). destruct Hnot; congruence. }
  assert (bool_decide (size (operations tk) = 1%nat) = false -> delete i (tvOperations tv) <> ∅) as Hrest.
  { intros Hs Hd. apply bool_decide_eq_false in Hs. apply Hs. change (operations tk) with (tvOperations (taskCore tk)). rewrite Ec.
    rewrite <- (insert_delete_id (tvOperations tv) i o A3), Hd. by rewrite insert_empty, map_size_singleton. }
  apply wp_bind. destruct (bool_decide (size (operations tk) = 1%nat)) eqn:Hsize.
  - apply wp_bind. eapply wp_mono; [apply (wp_taskFail cfg X ∅ ∅ R s0 s1 t _ false tv Hok1 A2)| |done].
    intros _ s2 (Hok2&tv2&Ht2&Hf2&Hops2). cbv beta.
    assert (tvOperations tv2 !! i = Some o) as Hi2 by (by rewrite Hops2).
    assert (Frame same (tk ← getTask t; _ ← getCurrentSizeClassQueue tk; mret tt)) as HF by apply _.
    eapply wp_mono; [by apply (wp_ok X _ ∅ ∅ ∅ R s0)| |done]. intros _ s3 [Hok3 Hs3]. cbv beta.
    pose proof (same_task_view _ _ _ _ Hs3 Ht2) as Ht3.
    apply (Hend ∅ s3 tv2); try done; [|by rewrite Hf2]. intros j. apply (Hnq ∅ s3 tv2); [done..|by left].
  - destruct (currentWorker tk) as [w|] eqn:Ew.
    + eapply wp_mono; [by apply (wp_ok X _ ∅ ∅ ∅ R s0)| |done]. intros _ s2 [Hok2 Hs2]. cbv beta.
      pose proof (same_task_view _ _ _ _ Hs2 A2) as Ht2. apply (Hend ∅ s2 tv); try done; [|by intros; apply Hrest].
      intros j. apply (Hnq ∅ s2 tv); [done..|]. right. rewrite <- Ec. simpl. congruence.
    + destruct (initialSizeClassLearner tk) as [learner|] eqn:Elearner.
      * apply wp_bind. destruct (life_queuesGood _ _ _ _ _ L1) as [HN Hg].
        eapply wp_mono; [apply wp_forEach_one, (wp_removeQueuedAll s1 [o]); by split| |done].
        intros _ s2 (Q&HNQ&HQ&Hs2&HQ2). cbv beta.
        assert (ok X ∅ (∅ ∪ list_to_set [o]) ∅ R s0 s2) as Hok2.
        { apply (ok_step X ∅ ∅ ∅ R ∅ (∅ ∪ list_to_set [o]) ∅ R s0 s1 s2 ((viewOf s1) <| vQueue := Q |>)); [done|..|done|done].
          - by apply life_dequeue.
          - apply stable_setQueue. }
        assert (vTasks (viewOf s2) !! t = Some tv) as Ht2 by (rewrite (similar_tasks _ _ Hs2); exact A2).
        eapply wp_mono; [by apply (wp_ok X _ ∅ (∅ ∪ list_to_set [o]) ∅ R s0)| |done]. intros _ s3 [Hok3 Hs3]. cbv beta.
        pose proof (same_task_view _ _ _ _ Hs3 Ht2) as Ht3. pose proof Hok3 as (L3&_&_).
        apply (Hend (∅ ∪ list_to_set [o]) s3 tv); try done; [set_solver| |by intros; apply Hrest].
        intros j. apply (life_unqueued _ _ _ _ _ L3). set_solver.
      * apply wp_ret. apply (Hend ∅ s1 tv); try done; [|by intros; apply Hrest].
        intros j. apply (Hnq ∅ s1 tv); [done..|]. left. rewrite <- Ec. simpl. by rewrite Elearner.
Qed.

#[export] Instance good_sizeClassQueueRemove q : Good X (sizeClassQueueRemove cfg q).
Proof.
  apply good_bind; [apply _|]. intros fuel. apply good_bind; [apply _|]. intros _ s0 s Hok.
  apply wp_bind, wp_deref. intros scq _. apply wp_bind, wp_deref. intros pq Hpq. apply wp_bind, wp_deref. intros k Hk.
  apply wp_modify. eapply ok_same; [exact Hok|]. apply same_putPlatformQueue_at. simpl. intros q' Hq'.
  eexists _, pq. split; [exact Hpq|]. by apply list_elem_of_delete_inv in Hq'.
Qed.

#[export] Instance good_cleanupAddQueue t q : Good X (cleanupAdd t (RemoveSizeClassQueue q)).
Proof. apply good_same, failFrame_frame. by apply same_cleanupAdd. Qed.

#[export] Instance good_removeStaleWorker q k t : Good X (removeStaleWorker cfg q k t).
Proof.
  apply good_bind; [apply _|]. intros scq. apply good_bind; [apply _|]. intros w.
  apply good_bind; [apply _|]. intros _. apply good_bind; [apply _|]. intros wk.
  apply good_bind; [destruct (currentTask wk); apply _|]. intros _. apply good_bind; [apply _|]. intros _.
  apply good_bind; [apply _|]. intros scq'. cbv zeta. apply good_bind; [apply _|]. intros _. apply _.
Qed.

(** ** The cleanup queue and the lock *)

#[export] Instance good_cleanupRun fuel t : Good X (cleanupRun cfg fuel t).
Proof.
  induction fuel as [|fuel IH]; cbn [cleanupRun]; [apply _|]. intros s0 s Hok. apply wp_bind, wp_gets.
  destruct (cleanupQueue s) as [|e l] eqn:Eq; [by apply wp_ret|].
  destruct (timestamp e >? t); [by apply wp_ret|]. apply wp_bind, wp_deref. intros [e' l'] Hpop.
  destruct (heapPop_spec cleanupLess (e :: l) e eq_refl) as (l1&E1&Hp). rewrite E1 in Hpop. injection Hpop as <- <-.
  apply wp_bind, wp_modify, wp_bind.
  assert (cleanupOperations s ≡ₚ omap removedOperation (e :: l1)) as Hc by (unfold cleanupOperations; by rewrite Eq, Hp).
  assert (forall m : M unit, Good X m -> removedOperation e = None ->
    wp m (fun _ s' => good X s0 s') (fun s' => good X s0 s') (s <| cleanupQueue := l1 |>)) as Hother.
  { intros m Hm He. apply Hm. eapply ok_same; [exact Hok|].
    split; try reflexivity; [|done]. change (omap removedOperation l1 ≡ₚ cleanupOperations s).
    rewrite Hc. simpl. by rewrite He. }
  apply (wp_mono _ (fun _ s' => good X s0 s') _ (fun s' => good X s0 s')); [|by intros _ s1 H1; apply IH|done].
  destruct (callback e) as [o|q k time|q] eqn:Ecb; cbn [runCleanup].
  - eapply wp_mono; [apply (wp_operationRemove s0 s o l1 (omap removedOperation l1)); try done|done|done].
    rewrite Hc. simpl. unfold removedOperation at 1. by rewrite Ecb.
  - apply Hother; [apply _|]. unfold removedOperation. by rewrite Ecb.
  - apply Hother; [apply _|]. unfold removedOperation. by rewrite Ecb.
Qed.

Lemma good_locked b s0 s : good X s0 s -> good X s0 (s <| locked := b |>).
Proof. intros Hok. eapply ok_same; [exact Hok|]. stores. Qed.

#[export] Instance good_enter t : Good X (enter cfg t).
Proof.
  intros s0 s Hok. unfold wp, enter. destruct (locked s); [done|].
  match goal with |- context[t >? now ?x] => set (s1 := x) end.
  assert (good X s0 s1) as Hok1 by (by apply good_locked). destruct (t >? now s1); [|done].
  apply (good_cleanupRun (cleanupFuel (s1 <| now := t |>)) t). eapply ok_same; [exact Hok1|]. stores.
Qed.

#[export] Instance good_leave : Good X leave.
Proof. intros s0 s Hok. by apply wp_modify, good_locked. Qed.

#[export] Instance good_critical {A} t (m : M A) : Good X m -> Good X (critical cfg t m).
Proof.
  intros Hm s0 s Hok. unfold wp, critical. pose proof (good_enter t s0 s Hok) as He. unfold wp in He.
  destruct (enter cfg t s) as [[[]|e| |] s1]; try done. specialize (Hm s0 s1 He). unfold wp in Hm.
  destruct (m s1) as [[a|e| |] s2]; try done; by apply good_locked.
Qed.

(** ** Calls of clients *)

#[export] Instance good_waitExecutionUpdate o n : Good X (waitExecutionUpdate o n).
Proof. apply _. Qed.

(** An operation is added to a task that is in flight. *)
Lemma wp_joinTask s0 s t tk priority i tv :
  good X s0 s -> vTasks (viewOf s) !! t = Some tv -> tvInFlight tv = true -> (i.1 < nextId s)%nat ->
  (forall j p, tvOperations tv !! j = Some p -> j.1 = i.1) -> tvWorker tv = currentWorker tk ->
  wp (o ← newOperation t priority i false;
      _ ← match currentWorker tk with
          | Some w => incrementExecutingWorkersCount i w
          | None => enqueue o
          end;
      _ ← waitExecutionStart o;
      mret o) (fun _ s' => good X s0 s') (fun s' => good X s0 s') s.
Proof.
  intros Hok Ht Hf Hi Hsc Hw. apply wp_bind.
  eapply wp_mono; [by apply (wp_newOperation X ∅ ∅ ∅ ∅ s0 s t priority i false tv)| |done].
  intros o s1 (Hok1&Ht1&(ov&Ho1&Hm1&Et1&Ei1)&_&Hno&_). cbv beta. set (tv1 := tv <| tvOperations ::= <[i := o]> |>) in *.
  assert ((∅ : gset nat) ∖ {[t]} = ∅) as E1 by set_solver. rewrite E1 in Hok1.
  assert (attached (viewOf s1) o ov tv1) as Ha1.
  { split; [done|]. rewrite Et1, Ei1. split; [done|]. apply lookup_insert_eq. }
  apply wp_bind, (wp_mono _ (fun _ s2 => ok X ∅ ∅ (∅ ∪ {[o]}) ∅ s0 s2 /\ exists ov tv, attached (viewOf s2) o ov tv) _ (fun _ => False)); [| |done].
  - destruct (currentWorker tk) as [w|].
    + assert (ok X ∅ ∅ (∅ ∪ {[o]}) ∅ s0 s1) as Hok1'.
      { destruct Hok1 as (L1&Q1&S1). split; [|by split]. apply (life_assigned ∅ ∅ _ ∅ (viewOf s1) o ov tv1 L1 Ha1).
        change (tvWorker tv <> None). by rewrite Hw. }
      eapply wp_mono; [by apply (wp_ok X _ ∅ ∅ (∅ ∪ {[o]}) ∅ s0)| |done]. intros _ s2 [Hok2 Hs2]. split; [done|].
      apply same_similar in Hs2. exists ov, tv1. destruct Ha1 as (A1&A2&A3).
      split; [by rewrite (similar_operations _ _ Hs2)|]. split; [by rewrite (similar_tasks _ _ Hs2)|done].
    + pose proof Hok1 as (L1&_&_).
      eapply wp_mono; [apply (wp_enqueue X ∅ (∅ ∪ {[o]}) (∅ ∪ {[o]}) ∅ s0 s1 o tv1 Hok1)| |done]; try done.
      * by exists ov.
      * intros j. apply (life_unqueued _ _ _ _ _ L1). set_solver.
      * intros _ s2 (Hok2&Et2&Eo2&_). assert ((∅ ∪ {[o]}) ∖ {[o]} = (∅ : gset nat)) as E2 by set_solver.
        rewrite E2 in Hok2. split; [done|]. exists ov, tv1. unfold attached. by rewrite Et2, Eo2.
  - intros _ s2 [Hok2 Ha2]. cbv beta. apply wp_bind.
    eapply wp_mono; [by apply (wp_waitExecutionStart X ∅ ∅ (∅ ∪ {[o]}) ∅ s0 s2 o Hok2)| |done].
    intros a s3 Hok3. assert ((∅ ∪ {[o]}) ∖ {[o]} = (∅ : gset nat)) as E3 by set_solver. rewrite E3 in Hok3. by apply wp_ret.
Qed.

Lemma wp_startWaiting s0 s o :
  good X s0 s -> (exists ov tv, attached (viewOf s) o ov tv) ->
  wp (waitExecutionStart o) (fun _ s' => good X s0 s') (fun _ => False) s.
Proof.
  intros Hok Ha. eapply wp_mono; [by apply (wp_waitExecutionStart X ∅ ∅ ∅ ∅ s0 s o Hok)| |done].
  intros a s1 Hok1. assert ((∅ : gset nat) ∖ {[o]} = ∅) as E1 by set_solver. by rewrite E1 in Hok1.
Qed.

#[export] Instance good_WaitExecution rounds clock name : Good X (WaitExecution cfg rounds clock name).
Proof.
  apply good_bind; [apply _|]. intros _. induction rounds as [|rounds IH]; cbn [waitExecutionLoop]; [apply _|].
  apply good_bind; [apply _|]. intros [o|]; [|apply _]. apply good_bind; [apply _|]. intros _ s0 s Hok.
  apply wp_bind, wp_gets. case_decide as Ho; [|by apply IH]. apply wp_bind. eapply wp_mono; [apply wp_startWaiting; [exact Hok|]| |done].
  - pose proof Hok as (L&_&_). destruct (life_names _ _ _ _ _ L name o Ho) as (ov&tv&Ha&_). by exists ov, tv.
  - intros a s1 Hok1. apply wp_bind, wp_modify, wp_ret. by apply good_locked.
Qed.

(** A task that is created for an action. *)
Lemma wp_createTask s0 s scq keys key action timeout expected learner priority :
  good X s0 s -> inFlightDeduplicationMap s !! key = None -> (scq < nextId s)%nat ->
  wp (uuid ← newId;
      t ← newId;
      wakeup ← newId;
      n ← gets now;
      _ ← putTask t (mkTask ∅ key (uuidGenerator uuid) action timeout n None 0 expected (Some learner)
             None 0 None (Some wakeup));
      _ ← modify (fun s => s <| inFlightDeduplicationMap ::= <[key := t]> |>);
      i ← getOrCreateInvocation scq keys;
      o ← newOperation t priority i false;
      _ ← schedule t;
      _ ← waitExecutionStart o;
      mret o) (fun _ s' => good X s0 s') (fun s' => good X s0 s') s.
Proof.
  intros Hok Hkey Hscq. do 3 apply wp_bind, wp_newId. apply wp_bind, wp_gets, wp_bind, wp_modify, wp_bind, wp_modify.
  set (n := nextId s). set (s1 := s <| nextId ::= S |> <| nextId ::= S |> <| nextId ::= S |>).
  match goal with |- wp _ _ _ ?x => set (s2 := x) end. change (nextId (s <| nextId ::= S |>)) with (S n) in *.
  assert (good X s0 s1) as Hok1.
  { eapply ok_same; [exact Hok|]. apply same_stores; try reflexivity. change (n <= S (S (S n)))%nat. lia. }
  assert (vTasks (viewOf s1) !! S n = None) as Hfresh by (apply (fresh_task X _ _ _ _ _ _ Hok (S n)); unfold n; lia).
  assert (ok X (∅ ∪ {[S n]}) ∅ ∅ ∅ s0 s2) as Hok2.
  { apply (ok_newTask X ∅ ∅ ∅ ∅ s0 s1 (S n) _ (Some key) (None, None)); try done; [|by left].
    change (S n < S (S (S n)))%nat. lia. }
  set (tv0 := mkTaskView ∅ key None true (None, None)).
  assert (vTasks (viewOf s2) = <[S n := tv0]> (vTasks (viewOf s1))) as Et2 by (unfold s2; simpl; by rewrite fmap_insert).
  apply wp_bind, wp_getOrCreate. intros s3 Hs3. pose proof (ok_same _ _ _ _ _ _ _ _ Hok2 Hs3) as Hok3.
  assert (vTasks (viewOf s3) !! S n = Some tv0) as Ht3 by (apply (same_task_view s2); [done|]; rewrite Et2; apply lookup_insert_eq).
  pose proof (same_ids _ _ Hs3) as Hn3. change (S (S (S n)) <= nextId s3)%nat in Hn3.
  apply wp_bind. eapply wp_mono; [apply (wp_newOperation X (∅ ∪ {[S n]}) ∅ ∅ ∅ s0 s3 (S n) priority (scq, keys) false tv0 Hok3 Ht3)| |done].
  { simpl. unfold n in Hn3. lia. }
  { done. }
  intros o s4 (Hok4&Ht4&(ov&Ho4&Hm4&Et4&Ei4)&_&_&_). cbv beta.
  assert ((∅ ∪ {[S n]}) ∖ {[S n]} = (∅ : gset nat)) as E4 by set_solver. rewrite E4 in Hok4.
  set (tv1 := tv0 <| tvOperations ::= <[(scq, keys) := o]> |>) in *.
  assert (operationsOf tv1 = [o]) as Eops by (unfold operationsOf;
    change (tvOperations tv1) with ({[ (scq, keys) := o ]} : gmap InvocationId nat); by rewrite map_to_list_singleton).
  apply wp_bind. eapply wp_mono; [apply (wp_schedule X ∅ (∅ ∪ {[o]}) (∅ ∪ {[o]}) ∅ s0 s4 (S n) tv1 Hok4 Ht4)| |done]; try done.
  { rewrite Eops. set_solver. }
  intros _ s5 (Hok5&_&Eo5&tv5&Ht5&Eops5). cbv beta. rewrite Eops in Hok5.
  assert ((∅ ∪ {[o]}) ∖ list_to_set [o] = (∅ : gset nat)) as E5 by set_solver. rewrite E5 in Hok5.
  apply wp_bind. eapply wp_mono; [apply (wp_waitExecutionStart X ∅ ∅ (∅ ∪ {[o]}) ∅ s0 s5 o Hok5); [set_solver|]| |done].
  { exists ov, tv5. split; [by rewrite Eo5|]. rewrite Et4, Ei4. split; [done|]. rewrite Eops5. apply lookup_insert_eq. }
  intros a s6 Hok6. assert ((∅ ∪ {[o]}) ∖ {[o]} = (∅ : gset nat)) as E6 by set_solver. rewrite E6 in Hok6. by apply wp_ret.
Qed.

Lemma wp_getCurrentSizeClassQueue s tk (Q : nat -> buildQueue -> Prop) F :
  (forall i o, operations tk !! i = Some o -> Q i.1 s) -> wp (getCurrentSizeClassQueue tk) Q F s.
Proof.
  intros HQ. unfold getCurrentSizeClassQueue, taskInvocations. destruct (map_to_list (operations tk)) as [|[i o] l] eqn:El; [done|].
  apply wp_ret, (HQ i o), elem_of_map_to_list. unfold InvocationId in *. rewrite El. apply elem_of_cons. by left.
Qed.

#[export] Instance good_Execute t action priority : Good X (Execute cfg t action priority).
Proof.
  destruct action as [action|]; cbn [Execute]; [|apply _]. apply good_bind; [apply _|]. intros [keys selector]. cbv zeta.
  apply good_critical. intros s0 s Hok. apply wp_bind, wp_gets.
  destruct (inFlightDeduplicationMap (id s) !! deduplicationKeyOf action) as [tid|] eqn:Ek.
  - apply wp_bind. eapply wp_mono; [by apply (wp_ok X _ ∅ ∅ ∅ ∅ s0)| |done]. intros _ s1 [Hok1 Hs1]. cbv beta.
    apply wp_bind, wp_deref. intros tk Htk. pose proof (view_task _ _ _ Htk) as Ht1. pose proof Hok1 as (L1&_&_).
    assert (vFlight (viewOf s1) !! deduplicationKeyOf action = Some tid) as Hfl
      by (apply same_similar in Hs1; rewrite (similar_flight _ _ Hs1); exact Ek).
    destruct (life_flight _ _ _ _ _ L1 _ _ Hfl) as (tv&Ht&_&Hf). rewrite Ht in Ht1. injection Ht1 as ->.
    apply wp_bind, wp_getCurrentSizeClassQueue. intros j p Hj.
    apply wp_bind, wp_getOrCreate. intros s2 Hs2. pose proof (ok_same _ _ _ _ _ _ _ _ Hok1 Hs2) as Hok2.
    pose proof (same_task_view _ _ _ _ Hs2 Ht) as Ht2. pose proof Hok2 as (L2&_&_).
    match goal with |- wp (match ?x with _ => _ end) _ _ _ => destruct x as [o|] eqn:Eo end.
    + apply wp_bind. eapply wp_mono; [apply (wp_startWaiting s0 s2 o Hok2)| |done].
      * destruct (life_operations _ _ _ _ _ L2 tid _ _ o Ht2 Eo) as (ov&B1&B2&B3). exists ov, (taskCore tk).
        split; [done|]. by rewrite B2, B3.
      * intros a s3 Hok3. by apply wp_ret.
    + apply (wp_joinTask s0 s2 tid tk priority (j.1, keys) (taskCore tk)); try done.
      * destruct (life_operations _ _ _ _ _ L2 tid _ _ p Ht2 Hj) as (ov&B1&B2&B3).
        destruct (life_ids_operations _ _ _ _ _ L2 p ov B1) as [_ Hlt]. rewrite B3 in Hlt. exact Hlt.
      * intros j' p' Hj'. exact (life_sizeClass _ _ _ _ _ L2 tid _ _ _ _ _ Ht2 Hj' Hj).
  - destruct (platformQueues (id s) !! platformPkixPublicKeyOf action) as [p|]; [|exact (wp_good s0 s Hok)].
    apply wp_bind, wp_deref. intros pq Hpq.
    apply wp_bind, wp_modify. match goal with |- wp _ _ _ ?x => set (s1 := x) end.
    assert (good X s0 s1) as Hok1 by (eapply ok_same; [exact Hok|stores]).
    destruct (Select selector (sizeClasses pq)) as [[[index expected] timeout] learner].
    apply wp_bind, wp_index. intros scq Hscq. apply (wp_createTask s0 s1); try done.
    destruct Hok as (_&HQ&_). by apply (HQ p pq).
Qed.
End rules.
End good.
