(* ===== verification/SchedulerGoodWorkers.v ===== *)
(** * The scheduler: calls of workers and administrators keep the life cycle

    The rest of [SchedulerGood]: the verification of public keys, [Synchronize], and
    the calls that inspect and administer the build queue. *)

From stdpp Require Import sorting.
From S2P Require Import Prelude References Heap SchedulerState SchedulerLifeCycle Scheduler SchedulerCalls SchedulerWorkers SchedulerAdmin SchedulerFrames SchedulerSpec SchedulerGood.

Section good.
Context {E : Environment}.
Context (cfg : configuration).
Context (X : gset nat).

#[local] Notation good := (good X).
#[local] Notation Good := (Good X).

(** The end of a wait. *)
Lemma good_waitExecutionEnd o : o ∈ X -> Good (waitExecutionEnd cfg o).
Proof.
  intros HX s0 s Hok. unfold waitExecutionEnd. apply wp_bind, wp_deref. intros op Hop.
  destruct (Z.eqb_spec (waiters op) 0) as [|Hw]; [done|]. pose proof Hok as (L&_&_).
  pose proof (view_operation _ _ _ Hop) as Ho. pose proof (life_waiters _ _ _ _ _ L o _ Ho) as Hge. simpl in Hge.
  eapply wp_mono; [apply (wp_maybeStartCleanup cfg X ∅ ∅ ∅ ∅ s0 s o op)| |done]; try done.
  - change (0 <= waiters op - 1). lia.
  - by left.
  - apply (life_waited _ _ _ _ _ L o); [done|]. change (0 < waiters op). lia.
  - by intros _ s1 [Hok1 _].
Qed.

(** ** Platform queues *)

Lemma good_putPlatformQueue_at s0 s p pq :
  good s0 s -> (forall q, q ∈ sizeClassQueues pq -> (q < nextId s)%nat) -> good s0 (s <| allPlatformQueues ::= <[p := pq]> |>).
Proof.
  intros Hok Hq. apply (ok_step X ∅ ∅ ∅ ∅ ∅ ∅ ∅ ∅ s0 s _ (viewOf s)); [done|apply Hok|reflexivity|split; reflexivity|].
  intros HQ p' pq' q Hp Hq'. simpl in Hp. apply lookup_insert_Some in Hp as [[<- <-]|[_ Hp]]; [by apply Hq|by apply (HQ p' pq')].
Qed.

#[export] Instance same_generateVerificationPrivateKey c : FailFrame same (generateVerificationPrivateKey c).
Proof. unfold generateVerificationPrivateKey. apply _. Qed.

Lemma same_modify_stores f :
  (forall s, same s (f s)) -> FailFrame same (modify f).
Proof. intros H. apply failFrame_frame. by apply frame_modify. Qed.

#[export] Instance same_parsePKIX k : FailFrame same (parsePKIXPublicKeyAndGetCurveIndex k).
Proof.
  apply failFrame_bind; [apply _..|]. intros c. apply failFrame_bind; [apply _..|]. intros s.
  destruct (verificationCurveIndices s !! c); [apply _|]. apply failFrame_bind; [apply _..|]. intros k'. cbv zeta.
  apply failFrame_bind; [apply _| |apply _]. apply same_modify_stores. intros s'. stores.
Qed.

#[export] Instance same_getPlatformQueuePublicKey k : FailFrame same (getPlatformQueuePublicKey k).
Proof.
  apply failFrame_bind; [apply _..|]. intros i. apply failFrame_bind; [apply _..|]. intros keys.
  apply failFrame_bind; [apply _..|]. intros [k' b]. apply _.
Qed.

#[export] Instance good_recomputeZeros p i : Good (recomputeZeros p i).
Proof.
  apply good_bind; [apply _|]. intros pq. apply good_bind; [apply _|]. intros k.
  apply good_bind; [apply _|]. intros k'. intros s0 s Hok. apply wp_bind, wp_deref. intros pq' Hpq'.
  pose proof Hok as (_&HQ&_). apply wp_modify, good_putPlatformQueue_at; [done|]. simpl. intros q Hq.
  exact (HQ p pq' q Hpq' Hq).
Qed.

#[export] Instance same_regenerateKeys l keys : FailFrame same (regenerateKeys l keys).
Proof. revert keys. induction l as [|[c i] l IH]; intros keys; cbn [regenerateKeys]; apply _. Qed.

#[export] Instance good_rotate : Good (rotateVerificationPrivateKeys cfg).
Proof.
  apply good_bind; [apply _|]. intros s. apply good_if; [apply _|].
  apply good_bind; [apply _|]. intros keys. apply good_bind; [apply _|]. intros keys'.
  apply good_bind; [apply good_same, same_modify_stores; intros s'; stores|]. intros _.
  apply good_bind; [|intros _; apply good_same, same_modify_stores; intros s'; stores].
  apply good_forEach. intros p. apply good_bind; [apply _|]. intros pq. apply _.
Qed.

#[export] Instance good_newPlatformQueue l m p : Good (newPlatformQueue l m p).
Proof.
  intros s0 s Hok. apply wp_bind, wp_newId, wp_bind, wp_modify, wp_ret. apply good_putPlatformQueue_at; [|set_solver].
  eapply ok_same; [exact Hok|stores].
Qed.

#[export] Instance good_addNewPublicKeys p new : Good (addNewPublicKeys p new).
Proof.
  destruct new as [|k new]; [apply _|]. intros s0 s Hok. apply wp_bind, wp_deref. intros pq Hpq.
  apply wp_bind. apply (wp_failFrame same (liftOutcome (mergePublicKeys (publicKeys pq) 0 (k :: new)))); [|intros s2 Hs2; by eapply ok_same].
  intros merged s1 Hs1. apply wp_bind, wp_modify, wp_modify. apply good_putPlatformQueue_at.
  - eapply ok_same; [eapply ok_same; [exact Hok|exact Hs1]|stores].
  - intros q Hq. destruct Hok as (_&HQ&_). pose proof (HQ p pq q Hpq Hq). pose proof (same_ids _ _ Hs1).
    change (q < nextId s1)%nat. lia.
Qed.

Lemma elem_of_insertAt {A} i (x y : A) l : y ∈ insertAt i x l -> y = x \/ y ∈ l.
Proof.
  unfold insertAt. rewrite elem_of_app, elem_of_cons. intros [H|[H|H]]; [right|by left|right].
  - rewrite <- (take_drop i l). apply elem_of_app. by left.
  - rewrite <- (take_drop i l). apply elem_of_app. by right.
Qed.

(** A number that has not been used has no queue. *)
Lemma queueOf_fresh D U G R v i o : life D U G R v -> (vNext v <= i.1)%nat -> o ∉ vQueue v i.
Proof.
  intros L Hi Ho. destruct (life_queue _ _ _ _ _ L i o Ho) as (ov&tv&(H1&_)&<-&_).
  destruct (life_ids_operations _ _ _ _ _ L o ov H1). lia.
Qed.

#[export] Instance good_addSizeClassQueue p c b : Good (addSizeClassQueue p c b).
Proof.
  intros s0 s Hok. apply wp_bind, wp_deref. intros pq Hpq. apply wp_bind, wp_deref. intros k _.
  do 2 apply wp_bind, wp_newId. apply wp_bind, wp_modify, wp_bind, wp_modify. cbv zeta.
  match goal with |- wp _ _ _ ?x => set (s2 := x) end.
  apply wp_bind, wp_modify, wp_ret. set (q := nextId s). pose proof Hok as (L&HQ&_).
  assert (good s0 s2) as Hok2.
  { eapply ok_same; [exact Hok|]. split; try reflexivity.
    - intros i. unfold s2, queueOf. simpl. destruct (decide (rootInvocation q = i)) as [<-|Hne].
      + rewrite lookup_insert_eq. simpl. pose proof (fun o => queueOf_fresh _ _ _ _ _ (rootInvocation q) o L) as Hf.
        change (match allInvocations s !! rootInvocation q with Some v => queuedOperations v | None => [] end)
          with (vQueue (viewOf s) (rootInvocation q)).
        destruct (vQueue (viewOf s) (rootInvocation q)) as [|o l] eqn:Eq; [done|]. exfalso. apply (Hf o).
        * change (nextId s <= nextId s)%nat. done.
        * set_solver.
      + by rewrite lookup_insert_ne.
    - intros HQ' p' pq' q' Hp' Hq'. specialize (HQ' p' pq' q' Hp' Hq'). change (q' < S (S (nextId s)))%nat. lia.
    - change (nextId s <= S (S (nextId s)))%nat. lia. }
  apply good_putPlatformQueue_at; [done|]. simpl. intros q' Hq'. change (q' < S (S (nextId s)))%nat.
  apply elem_of_insertAt in Hq' as [->|Hq']; [unfold q; lia|]. pose proof (HQ p pq q' Hpq Hq'). lia.
Qed.

#[export] Instance good_RegisterPredeclared t keys limits m p classes :
  Good (RegisterPredeclaredPlatformQueue cfg t keys limits m p classes).
Proof.
  unfold RegisterPredeclaredPlatformQueue. cbv zeta. do 5 (apply good_if; [apply _|]). apply good_critical, good_bind.
  - apply good_same. generalize keys. clear. intros keys. induction keys as [|k keys IH]; [apply _|].
    apply failFrame_bind; [apply _..|]. intros [p|]; [apply _|].
    apply failFrame_bind; [apply _..|]. intros k'. apply failFrame_bind; [apply _|exact IH|]. intros l. apply _.
  - intros new. apply _.
Qed.

(** ** Picking a task *)

(** The task that is found is in flight. *)
Lemma wp_nextQueuedTask D U G R s fuel wk i keys limits n :
  life D U G R (viewOf s) ->
  wp (nextQueuedTask fuel wk i keys limits n) (fun r s' => s' = s /\
     forall t m, r = Some (t, m) -> exists tv, vTasks (viewOf s) !! t = Some tv /\ tvInFlight tv = true) (fun _ => False) s.
Proof.
  intros L. revert i keys limits n. induction fuel as [|fuel IH]; intros i keys limits n; cbn [nextQueuedTask]; [done|].
  apply wp_bind, wp_deref. intros v Hv. destruct (queuedOperations v) as [|o l] eqn:Eq.
  - destruct (queuedChildren v) as [|iBest l]; [by apply wp_ret|].
    destruct keys as [|key keys]; [apply IH|]. destruct limits as [|limit limits]; [apply IH|]. cbv zeta.
    apply wp_bind, wp_deref. intros vS _. apply wp_bind, wp_deref. intros vB _. apply wp_bind, wp_gets, wp_bind.
    apply (wp_mono _ (fun _ s' => s' = s) _ (fun _ => False)); [| |done].
    + destruct (isQueued vS); [|by apply wp_ret]. apply wp_bind, wp_deref. intros start _. by apply wp_ret.
    + intros b s' ->. case_decide; apply IH.
  - apply wp_bind, wp_deref. intros op Hop. apply wp_ret. split; [done|]. intros t m [= <- <-].
    assert (o ∈ vQueue (viewOf s) i) as Hin.
    { change (o ∈ queueOf s i). unfold queueOf. unfold InvocationId in *. rewrite Hv, Eq. set_solver. }
    destruct (life_queue _ _ _ _ _ L i o Hin) as (ov&tv&(A1&A2&_)&_&Hf&_). rewrite (view_operation _ _ _ Hop) in A1.
    injection A1 as <-. by exists tv.
Qed.

#[export] Instance good_assignNextQueuedTask w q : Good (assignNextQueuedTask w q).
Proof.
  intros s0 s Hok. apply wp_bind, wp_deref. intros wk _. apply wp_bind, wp_deref. intros lst _.
  apply wp_bind, wp_deref. intros scq _. apply wp_bind, wp_deref. intros pq _. apply wp_bind, wp_gets.
  pose proof Hok as (L&_&_). apply wp_bind. eapply wp_mono; [by eapply (wp_nextQueuedTask ∅ ∅ ∅ ∅ s)| |done].
  intros r s' [-> Hr]. cbv beta. destruct r as [[t m]|]; [|by apply wp_ret].
  destruct (Hr t m eq_refl) as (tv&Ht&Hf). apply wp_bind.
  eapply wp_mono; [by apply (wp_assignQueuedTask X ∅ ∅ ∅ ∅ s0 s w t m tv)| |done]. intros _ s1 [Hok1 _]. by apply wp_ret.
Qed.

#[export] Instance good_workerIsDrained w q id : Good (workerIsDrained w q id).
Proof. apply _. Qed.

#[export] Instance good_getIdle : Good getIdleSynchronizeResponse.
Proof. apply _. Qed.

#[export] Instance good_getExecuting w : Good (getExecutingSynchronizeResponse cfg w).
Proof. apply _. Qed.

#[export] Instance good_nextTaskRound w q b : Good (nextTaskRound cfg w q b).
Proof.
  unfold nextTaskRound. apply good_if; [apply _|]. apply good_bind; [apply _|]. intros a. apply good_if; apply _.
Qed.

#[export] Instance good_getNextTask b w q id prefer : Good (getNextTask cfg b w q id prefer).
Proof.
  unfold getNextTask. apply good_if; [apply _|]. apply good_bind; [apply _|]. intros drained.
  apply good_bind; [apply good_if; apply _|]. intros a. apply good_if; [apply _|]. apply good_if; apply _.
Qed.

#[export] Instance good_getCurrentOrNextTask b w q id prefer : Good (getCurrentOrNextTask cfg b w q id prefer).
Proof.
  apply good_bind; [apply _|]. intros wk. destruct (currentTask wk) as [t|]; [|apply _].
  intros s0 s Hok. apply wp_bind, wp_deref. intros tk Htk. destruct (retryCount tk <? WorkerTaskRetryCount cfg).
  - apply wp_bind, wp_modify. apply good_getExecuting. eapply ok_same; [exact Hok|]. by apply (same_putTask_at _ _ tk).
  - by refine (wp_good (m := _ ← taskFail cfg t (StatusError CodeInternal) false; getNextTask cfg b w q id prefer) s0 s Hok).
Qed.

#[export] Instance good_isRunningCorrectTask w u : Good (isRunningCorrectTask w u).
Proof. apply good_bind; [apply _|]. intros wk. destruct (currentTask wk); apply _. Qed.

(** An event of the execution is recorded. *)
Lemma wp_recordEvent s0 s w e :
  good s0 s ->
  wp (wk ← getWorker w;
      t ← deref (fun _ => currentTask wk);
      tk ← getTask t;
      _ ← putTask t (tk <| lastExecutionEvent := Some e |> <| executionEventsSeen ::= Z.add 1 |>);
      reportNonFinalStageChange t) (fun _ s' => good s0 s') (fun s' => good s0 s') s.
Proof.
  intros Hok. pose proof Hok as (L&_&_). apply wp_bind, wp_deref. intros wk Hwk. apply wp_bind, wp_deref. intros t Ht.
  apply wp_bind, wp_deref. intros tk Htk. apply wp_bind, wp_modify. match goal with |- wp _ _ _ ?x => set (s1 := x) end.
  pose proof (view_task _ _ _ Htk) as Hv. pose proof (view_worker _ _ _ Hwk) as Hw. rewrite Ht in Hw.
  apply (life_worker _ _ _ _ _ L) in Hw as (tv&Hv'&Hwt). rewrite Hv in Hv'. injection Hv' as <-.
  assert (tvInFlight (taskCore tk) = true) as Hf by (apply (life_executing _ _ _ _ _ L t); [done|congruence]).
  set (tv' := taskCore (tk <| lastExecutionEvent := Some e |> <| executionEventsSeen ::= Z.add 1 |>)).
  assert (good s0 s1) as Hok1.
  { apply (ok_step X ∅ ∅ ∅ ∅ ∅ ∅ ∅ ∅ s0 s s1 (setTask t tv' (viewOf s) <| vWorkers := vWorkers (viewOf s) |> <| vFlight := vFlight (viewOf s) |>));
      [done|..|done].
    - apply (life_setTask ∅ ∅ ∅ ∅ ∅ (viewOf s) t (taskCore tk) tv'); try done.
      + exact (life_ids_workers _ _ _ _ _ L).
      + intros w' t'. rewrite (life_worker _ _ _ _ _ L). split; intros (tv0&H&E1).
        * destruct (decide (t' = t)) as [->|Hne].
          -- exists tv'. rewrite lookup_insert_eq. rewrite Hv in H. by injection H as <-.
          -- exists tv0. by rewrite lookup_insert_ne.
        * apply lookup_insert_Some in H as [[<- <-]|[_ H]]; [by exists (taskCore tk)|by exists tv0].
      + change (vFlight (viewOf s) = if tvInFlight (taskCore tk) then vFlight (viewOf s)
          else delete (tvKey (taskCore tk)) (vFlight (viewOf s))). by rewrite Hf.
      + intros i o Ho Hq. destruct (life_queue _ _ _ _ _ L i o Hq) as (ov&tv&(A1&A2&_)&_&_&Hn).
        destruct (life_operations _ _ _ _ _ L t _ i o Hv Ho) as (ov'&B1&B2&_). congruence.
      + intros _ Hn. change (tvWorker (taskCore tk) = None) in Hn. congruence.
    - by apply (stable_setTask X (viewOf s) t (taskCore tk) tv').
    - unfold s1. split; try reflexivity. simpl. by rewrite fmap_insert. }
  eapply wp_mono; [by apply (wp_ok X _ ∅ ∅ ∅ ∅ s0)| |done]. by intros _ s2 [Hok2 _].
Qed.

#[export] Instance good_processCurrentState w q r : Good (processCurrentState cfg w q r).
Proof.
  unfold processCurrentState. cbv zeta. destruct (requestCurrentState r) as [|u reason|u event|u completed|].
  - apply _.
  - apply good_bind; [apply _|]. intros b. apply good_if; [apply _|]. destruct reason as [e|]; [|apply _].
    apply good_bind; [apply _|]. intros wk. apply _.
  - apply good_bind; [apply _|]. intros b. apply good_if; [apply _|]. apply good_bind; [|intros _; apply _].
    destruct event as [e|]; [|apply _]. intros s0 s Hok. by apply wp_recordEvent.
  - apply good_bind; [apply _|]. intros b. apply good_if; [apply _|]. apply _.
  - apply _.
Qed.

(** ** [Synchronize] *)

#[export] Instance good_scheduleRemoval q k : Good (scheduleRemoval cfg q k).
Proof.
  apply good_bind; [apply _|]. intros n. apply good_same, failFrame_frame. by apply same_cleanupAdd.
Qed.

#[export] Instance good_returning q k m : Good m -> Good (returning cfg q k m).
Proof.
  intros Hm s0 s Hok. unfold wp, returning. specialize (Hm s0 s Hok). unfold wp in Hm.
  destruct (m s) as [[[r|u|u]|e| |] s1]; try done.
  - by refine (wp_good (m := _ ← scheduleRemoval cfg q k; mret (Responds r)) s0 s1 Hm).
  - by refine (wp_good (m := _ ← scheduleRemoval cfg q k; fail e) s0 s1 Hm).
Qed.

#[export] Instance same_findPlatformQueue found keys : FailFrame same (findPlatformQueue found keys).
Proof.
  revert found. induction keys as [|k keys IH]; intros found; cbn [findPlatformQueue]; [apply _|].
  apply failFrame_bind; [apply _..|]. intros p. destruct p as [p|], found as [p'|]; try apply _. case_decide; apply _.
Qed.

#[export] Instance same_if {A} (b : bool) (m m' : M A) : FailFrame same m -> FailFrame same m' -> FailFrame same (if b then m else m').
Proof. by destruct b. Qed.

#[export] Instance same_verifyPublicKey existing v k : FailFrame same (verifyPublicKey existing v k).
Proof.
  unfold verifyPublicKey. destruct (skipExisting _ _ _ _) as [cmp i]. cbv zeta. apply same_if; [apply _|]. apply same_if; apply _.
Qed.

#[export] Instance same_verifyPublicKeys existing v keys : FailFrame same (verifyPublicKeys existing v keys).
Proof.
  revert v. induction keys as [|k keys IH]; intros v; cbn [verifyPublicKeys]; [apply _|].
  apply failFrame_bind; [apply _..|]. intros [v' c]. apply failFrame_bind; [apply _..|]. intros l.
  apply failFrame_bind; [apply _..|]. intros [pk pkix]. apply _.
Qed.

#[export] Instance good_cleanupRemoveQueue q : Good (cleanupRemove (RemoveSizeClassQueue q)).
Proof. apply good_same, failFrame_frame. by apply same_cleanupRemove. Qed.

#[export] Instance good_cleanupRemoveWorker q k t : Good (cleanupRemove (RemoveStaleWorker q k t)).
Proof. apply good_same, failFrame_frame. by apply same_cleanupRemove. Qed.

#[export] Instance good_registerQueues p new c : Good (registerQueues p new c).
Proof.
  apply good_bind.
  - destruct p as [p|]; [|apply _]. apply good_bind; [apply _|]. intros pq.
    destruct (findSizeClassQueue pq c) as [q|].
    + apply good_bind; [apply _|]. intros active. apply good_bind; [unfold whenM; apply good_if; apply _|]. intros _. apply _.
    + apply good_bind; [|intros _; apply _]. unfold checkNewSizeClass. cbv zeta.
      apply good_bind; [apply _|]. intros largest. apply good_bind; [apply _|]. intros q.
      apply good_if; [apply _|]. apply good_bind; [apply _|]. intros m. repeat (apply good_if; [apply _|]). apply _.
  - intros [p' [q|]]; apply good_bind; try apply _; intros _; apply _.
Qed.

#[export] Instance good_getOrCreateWorker q k : Good (getOrCreateWorker q k).
Proof.
  intros s0 s Hok. apply wp_bind, wp_deref. intros scq _. destruct (workers scq !! k) as [w|].
  - by refine (wp_good (m := active ← gets (cleanupIsActive (RemoveStaleWorker q k 0));
      if negb active then fail (StatusError CodeResourceExhausted) else
      _ ← cleanupRemove (RemoveStaleWorker q k 0); mret w) s0 s Hok).
  - apply wp_bind, wp_deref. intros pq _. apply wp_bind, wp_newId, wp_bind, wp_modify.
    match goal with |- wp _ _ _ ?x => set (s1 := x) end. pose proof Hok as (L&_&_).
    assert (good s0 s1) as Hok1.
    { apply (ok_step X ∅ ∅ ∅ ∅ ∅ ∅ ∅ ∅ s0 (s <| nextId ::= S |>) s1 ((viewOf (s <| nextId ::= S |>)) <| vWorkers ::= <[nextId s := None]> |>)).
      - eapply ok_same; [exact Hok|stores].
      - apply life_newWorker.
        + eapply life_similar; [|exact L]. apply same_similar. stores.
        + destruct (vWorkers (viewOf (s <| nextId ::= S |>)) !! nextId s) as [o|] eqn:Eo; [|done].
          pose proof (life_ids_workers _ _ _ _ _ L (nextId s) o Eo) as Hlt. change (nextId s < nextId s)%nat in Hlt. lia.
        + exact (Nat.lt_succ_diag_r (nextId s)).
      - split; simpl; [eauto 10|eauto 10|]. intros o ov tv0 _ Ha Hw. exists ov, tv0. split; [exact Ha|lia].
      - split; try reflexivity. simpl. by rewrite fmap_insert.
      - intros HQ p' pq' q' Hp' Hq'. exact (HQ p' pq' q' Hp' Hq'). }
    apply wp_bind, wp_deref. intros v Hv. apply wp_bind, wp_modify, wp_bind, wp_modify, wp_ret.
    eapply ok_same; [eapply ok_same; [exact Hok1|by apply (same_putInvocation_at s1 (rootInvocation q) v (v <| idleWorkersCount ::= fun n => u32 (n + 1) |>))]|stores].
Qed.

#[export] Instance good_Synchronize t r : Good (Synchronize cfg t r).
Proof.
  unfold Synchronize. cbv zeta. do 2 (apply good_if; [apply _|]). apply good_critical.
  apply good_bind; [apply _|]. intros _. apply good_bind; [apply _|]. intros p.
  apply good_bind; [destruct p; apply _|]. intros existing. apply good_bind; [apply _|]. intros v.
  apply good_if; apply _.
Qed.

#[export] Instance good_resumeDrained t w q k id reason : Good (resumeDrained cfg t w q k id reason).
Proof. apply good_critical, good_returning. destruct reason; apply _. Qed.

#[export] Instance good_resumeQueued t w q k id reason : Good (resumeQueued cfg t w q k id reason).
Proof.
  apply good_critical, good_returning. destruct reason; [| |]; repeat (apply good_bind; [apply _|intros ?]);
    try apply _; apply good_if; apply _.
Qed.

(** ** Inspection and administration *)

#[export] Instance same_collect {A B} (l : list A) (f : A -> M B) : (forall x, FailFrame same (f x)) -> FailFrame same (collect l f).
Proof. intros Hf. induction l as [|x l IH]; cbn [collect]; apply _. Qed.

#[export] Instance good_collect {A B} (l : list A) (f : A -> M B) : (forall x, Good (f x)) -> Good (collect l f).
Proof. intros Hf. induction l as [|x l IH]; cbn [collect]; apply _. Qed.

#[export] Instance same_filterM {A} (f : A -> M bool) l : (forall x, FailFrame same (f x)) -> FailFrame same (filterM f l).
Proof. intros Hf. induction l as [|x l IH]; cbn [filterM]; apply _. Qed.

#[export] Instance same_getSizeClassQueueByName n : FailFrame same (getSizeClassQueueByName n).
Proof.
  apply failFrame_bind; [apply _..|]. intros s. destruct (platformQueues s !! namePublicKey n); [|apply _].
  apply failFrame_bind; [apply _..|]. intros pq. destruct (findSizeClassQueue _ _); apply _.
Qed.

#[export] Instance same_getInvocationByName n : FailFrame same (getInvocationByName n).
Proof.
  destruct n as [[q keys]|]; cbn [getInvocationByName]; [|apply _].
  apply failFrame_bind; [apply _..|]. intros scq. apply failFrame_bind; [apply _..|]. intros s. apply _.
Qed.

#[export] Instance same_getOperationState o : FailFrame same (getOperationState o).
Proof. apply _. Qed.

#[export] Instance good_GetOperation t name : Good (GetOperation cfg t name).
Proof. apply good_critical, good_bind; [apply _|]. intros [o|]; apply _. Qed.

#[export] Instance same_operationMatches s k st o : FailFrame same (operationMatches s k st o).
Proof. apply _. Qed.

#[export] Instance good_ListOperations t k st a n : Good (ListOperations cfg t k st a n).
Proof.
  apply good_critical, good_bind; [apply _|]. intros s. apply good_bind; [apply _|]. intros l. cbv zeta.
  apply good_bind; [apply _|]. intros [region info]. apply _.
Qed.

#[export] Instance good_ListPlatformQueues t : Good (ListPlatformQueues cfg t).
Proof.
  apply good_critical, good_bind; [apply _|]. intros s. apply good_collect. intros p. apply good_bind; [apply _|].
  intros pq. apply good_bind; [|apply _]. apply good_collect. intros [c q]. apply _.
Qed.

#[export] Instance good_ListInvocationChildren t n w : Good (ListInvocationChildren cfg t n w).
Proof.
  apply good_critical, good_bind; [apply _|]. intros [i q] s0 s Hok. apply wp_bind, wp_deref. intros v Hv.
  apply wp_bind, wp_gets. destruct w.
  - match goal with |- wp ?m _ _ _ => by refine (wp_good (m := m) s0 s Hok) end.
  - match goal with |- wp ?m _ _ _ => by refine (wp_good (m := m) s0 s Hok) end.
  - cbv zeta. apply wp_bind, wp_modify.
    match goal with |- wp ?m _ _ ?s1 => refine (wp_good (m := m) s0 s1 _) end.
    eapply ok_same; [exact Hok|]. by apply (same_putInvocation_at _ _ v).
Qed.

Lemma sortBy_Permutation {A} (le : A -> A -> bool) l : sortBy le l ≡ₚ l.
Proof. apply merge_sort_Permutation. Qed.

#[export] Instance good_ListQueuedOperations t n a k : Good (ListQueuedOperations cfg t n a k).
Proof.
  apply good_critical, good_bind; [apply _|]. intros [i q] s0 s Hok. apply wp_bind, wp_deref. intros v Hv.
  apply wp_bind, wp_gets. cbv zeta. apply wp_bind, wp_modify.
  match goal with |- wp ?m _ _ ?s1 => refine (wp_good (m := m) s0 s1 _) end.
  - apply good_bind; [apply _|]. intros [region info]. apply _.
  - eapply ok_same; [exact Hok|]. apply (same_putInvocation_at _ _ v); [exact Hv|]. apply sortBy_Permutation.
Qed.

#[export] Instance good_ListWorkers t w a k : Good (ListWorkers cfg t w a k).
Proof.
  apply good_critical, good_bind.
  - destruct w; [apply _| |]; (apply good_bind; [apply _|]; intros [i q]; unfold workerKeys; apply _).
  - intros [scq keys]. apply good_bind; [apply _|]. intros [region info]. apply good_bind; [|apply _].
    apply good_collect. intros key. unfold getWorkerState. repeat (apply good_bind; [apply _|intros ?]).
    apply good_bind; [|intros ?; apply _]. match goal with |- Good (match currentTask ?w with _ => _ end) => destruct (currentTask w) end; apply _.
Qed.

#[export] Instance good_KillOperations t reason w : Good (KillOperations cfg t reason w).
Proof.
  destruct reason as [err|]; cbn [KillOperations]; [|apply _]. apply good_critical. destruct w.
  - apply good_bind; [apply _|]. intros [o|]; apply _.
  - apply good_bind; [apply _|]. intros scq. apply good_bind; [apply _|]. intros q. apply good_if; apply _.
Qed.

#[export] Instance same_wakeUpMatching pattern kw : FailFrame same (wakeUpMatching pattern kw).
Proof. destruct kw as [k w]. apply failFrame_bind; [apply _..|]. intros wk. apply _. Qed.

#[export] Instance good_AddDrain t n p : Good (AddDrain cfg t n p).
Proof. apply good_critical. apply _. Qed.

#[export] Instance good_RemoveDrain t n p : Good (RemoveDrain cfg t n p).
Proof. apply good_critical. apply _. Qed.

#[export] Instance good_ListDrains t n : Good (ListDrains cfg t n).
Proof. apply good_critical. apply _. Qed.

#[export] Instance same_terminateWorker kw p : FailFrame same (terminateWorker kw p).
Proof.
  destruct kw as [k w]. unfold terminateWorker. apply same_if; [apply _|]. apply failFrame_bind; [apply _..|]. intros _.
  apply failFrame_bind; [apply _..|]. intros wk. destruct (currentTask wk); apply _.
Qed.

#[export] Instance good_TerminateWorkers t p : Good (TerminateWorkers cfg t p).
Proof.
  apply good_critical, good_same. apply failFrame_bind; [apply _..|]. intros s. apply failFrame_bind; [apply _| |apply _].
  apply same_collect. intros q. apply _.
Qed.
End good.
