(* ===== verification/SchedulerCorrect.v ===== *)
(** * The scheduler: what clients may rely on

    The calls of the scheduler as steps between states in which nobody holds the lock,
    and what holds of every state that they lead to. *)

From S2P Require Import Prelude References Heap SchedulerState SchedulerLifeCycle Scheduler SchedulerCalls SchedulerWorkers SchedulerAdmin SchedulerFrames SchedulerSpec SchedulerGood SchedulerGoodWorkers.

Section correct.
Context {E : Environment}.
Context (cfg : configuration).

(** ** Steps *)

(** A call that is made in the state [s] returns, with or without an error, and leaves
    the state [s']. *)
Definition finishes {A} (m : M A) (s s' : buildQueue) : Prop :=
  match m s with (Returns _, s1) | (Fails _, s1) => s1 = s' | _ => False end.

(** The calls, and what follows when a wait ends.  [X]: the operation that a client
    stops to wait for. *)
Inductive step : gset nat -> buildQueue -> buildQueue -> Prop :=
  | StepRegister t keys limits m p classes s s' :
      finishes (RegisterPredeclaredPlatformQueue cfg t keys limits m p classes) s s' -> step ∅ s s'
  | StepExecute t action priority s s' : finishes (Execute cfg t action priority) s s' -> step ∅ s s'
  | StepWaitExecution rounds clock name s s' : finishes (WaitExecution cfg rounds clock name) s s' -> step ∅ s s'
  | StepWaitUpdate t o seen s s' : finishes (critical cfg t (waitExecutionUpdate o seen)) s s' -> step ∅ s s'
  | StepWaitEnd t o s s' : finishes (critical cfg t (waitExecutionEnd cfg o)) s s' -> step {[o]} s s'
  | StepSynchronize t request s s' : finishes (Synchronize cfg t request) s s' -> step ∅ s s'
  | StepResumeDrained t w q key id reason s s' : finishes (resumeDrained cfg t w q key id reason) s s' -> step ∅ s s'
  | StepResumeQueued t w q key id reason s s' : finishes (resumeQueued cfg t w q key id reason) s s' -> step ∅ s s'
  | StepGetOperation t name s s' : finishes (GetOperation cfg t name) s s' -> step ∅ s s'
  | StepListOperations t key st after n s s' : finishes (ListOperations cfg t key st after n) s s' -> step ∅ s s'
  | StepListPlatformQueues t s s' : finishes (ListPlatformQueues cfg t) s s' -> step ∅ s s'
  | StepListInvocationChildren t name which s s' : finishes (ListInvocationChildren cfg t name which) s s' -> step ∅ s s'
  | StepListQueuedOperations t name after n s s' : finishes (ListQueuedOperations cfg t name after n) s s' -> step ∅ s s'
  | StepListWorkers t which after n s s' : finishes (ListWorkers cfg t which after n) s s' -> step ∅ s s'
  | StepKillOperations t reason which s s' : finishes (KillOperations cfg t reason which) s s' -> step ∅ s s'
  | StepAddDrain t name pattern s s' : finishes (AddDrain cfg t name pattern) s s' -> step ∅ s s'
  | StepRemoveDrain t name pattern s s' : finishes (RemoveDrain cfg t name pattern) s s' -> step ∅ s s'
  | StepListDrains t name s s' : finishes (ListDrains cfg t name) s s' -> step ∅ s s'
  | StepTerminateWorkers t pattern s s' : finishes (TerminateWorkers cfg t pattern) s s' -> step ∅ s s'.

(** [NewInMemoryBuildQueue], at the time [t]. *)
Definition NewInMemoryBuildQueue (t : Z) : buildQueue :=
  mkBuildQueue false 0 (t + PlatformQueueWithNoWorkersTimeout cfg) ∅ None ∅ [] ∅ ∅ [] ∅ ∅ ∅ ∅ ∅ ∅ ∅ 0 [].

Inductive reachable : buildQueue -> Prop :=
  | ReachNew t : reachable (NewInMemoryBuildQueue t)
  | ReachStep X s s' : reachable s -> step X s s' -> reachable s'.

(** ** The life cycle is kept *)

Lemma finishes_good X {A} (m : M A) `{!Good X m} s0 s s' : finishes m s s' -> good X s0 s -> good X s0 s'.
Proof.
  intros Hf Hok. pose proof (wp_good (m := m) s0 s Hok) as H. unfold finishes, wp in *.
  by destruct (m s) as [[a|e| |] s1]; try done; subst.
Qed.

Lemma step_good X s s' : step X s s' -> good X s s -> good X s s'.
Proof.
  destruct 1; intros Hok; eapply finishes_good; try eassumption; try apply _.
  apply good_critical, good_waitExecutionEnd. set_solver.
Qed.

Lemma life_empty n : life ∅ ∅ ∅ ∅ (mkView ∅ ∅ ∅ ∅ ∅ (fun _ => []) [] n).
Proof.
  split; simpl; try (intros *; rewrite ?lookup_empty; intros; (discriminate || set_solver)).
  - constructor.
  - constructor.
  - intros o ov tv (H&_). simpl in H. by rewrite lookup_empty in H.
Qed.

Lemma life_new t : life ∅ ∅ ∅ ∅ (viewOf (NewInMemoryBuildQueue t)).
Proof.
  apply (life_similar _ _ _ _ (mkView ∅ ∅ ∅ ∅ ∅ (fun _ => []) [] 0)); [|apply life_empty].
  split; simpl; rewrite ?fmap_empty; reflexivity.
Qed.

Lemma reachable_life s : reachable s -> life ∅ ∅ ∅ ∅ (viewOf s) /\ queueIds s.
Proof.
  induction 1 as [t|X s s' _ [L Q] Hs].
  - split; [apply life_new|]. intros p pq q H. simpl in H. by rewrite lookup_empty in H.
  - destruct (step_good X s s' Hs) as (L'&Q'&_); [|done]. split; [done|]. split; [done|]. reflexivity.
Qed.

(** ** What it means for clients *)

(** C1: The life cycle of tasks and operations is an invariant of all calls, also of
    those that fail: a worker and the task that it executes know each other, the map of
    tasks in flight is exact, operations belong to their tasks and are queued once as
    long as their task waits for a worker, and an operation that nobody waits for is
    going to be cleaned up. *)
Theorem scheduler_lifecycle s : reachable s -> life ∅ ∅ ∅ ∅ (viewOf s).
Proof. intros Hs. by apply reachable_life. Qed.

(** C4: Requests of clients are deduplicated: of the tasks in flight that have a
    deduplication key, which is that of their action, there are never two with the same
    key, and the scheduler finds the one that there is.  Tasks of background learning
    have no such key, and may exist next to another task for the same action. *)
Theorem scheduler_deduplicates s t tk :
  reachable s -> allTasks s !! t = Some tk -> initialSizeClassLearner tk <> None -> deduplicationKey tk <> zeroKey ->
  inFlightDeduplicationMap s !! deduplicationKey tk = Some t /\
  forall t' tk', allTasks s !! t' = Some tk' -> initialSizeClassLearner tk' <> None ->
    deduplicationKey tk' = deduplicationKey tk -> t' = t.
Proof.
  intros Hs Ht Hl Hk. destruct (reachable_life s Hs) as [L _].
  assert (forall t' tk', allTasks s !! t' = Some tk' -> initialSizeClassLearner tk' <> None ->
    deduplicationKey tk' = deduplicationKey tk -> inFlightDeduplicationMap s !! deduplicationKey tk = Some t') as H.
  { intros t' tk' Ht' Hl' Ek. rewrite <- Ek.
    apply (life_deduplicated _ _ _ _ _ L t' (taskCore tk') (view_task _ _ _ Ht')); [|simpl; congruence].
    simpl. by destruct (initialSizeClassLearner tk'). }
  split; [by apply (H t tk)|]. intros t' tk' Ht' Hl' Ek. pose proof (H t tk Ht Hl eq_refl). pose proof (H t' tk' Ht' Hl' Ek).
  congruence.
Qed.

(** C2: No task is lost: a task that is not completed has operations, and it is
    executed by a worker that knows it, or all its operations are in the queues of
    their invocations, once. *)
Theorem scheduler_loses_no_task s t tk :
  reachable s -> allTasks s !! t = Some tk -> initialSizeClassLearner tk <> None ->
  operations tk <> ∅ /\
  match currentWorker tk with
  | Some w => exists wk, allWorkers s !! w = Some wk /\ currentTask wk = Some t
  | None => forall i o, operations tk !! i = Some o ->
      exists v, allInvocations s !! i = Some v /\ o ∈ queuedOperations v /\ NoDup (queuedOperations v)
  end.
Proof.
  intros Hs Ht Hl. destruct (reachable_life s Hs) as [L _]. pose proof (view_task _ _ _ Ht) as Hv.
  assert (tvInFlight (taskCore tk) = true) as Hf by (simpl; by destruct (initialSizeClassLearner tk)).
  split; [by apply (life_nonempty _ _ _ _ _ L t _ Hv); [set_solver|]|].
  destruct (currentWorker tk) as [w|] eqn:Ew.
  - assert (vWorkers (viewOf s) !! w = Some (Some t)) as H by (apply (life_worker _ _ _ _ _ L); by exists (taskCore tk)).
    simpl in H. rewrite lookup_fmap in H. destruct (allWorkers s !! w) as [wk|]; [|done]. apply Some_inj in H. by exists wk.
  - intros i o Ho. pose proof (life_queued _ _ _ _ _ L t _ i o Hv Hf Ew Ho) as Hq.
    pose proof (life_queue_NoDup _ _ _ _ _ L i) as Hn. simpl in Hq, Hn. unfold queueOf in *.
    destruct (allInvocations s !! i) as [v|] eqn:Ev; [|set_solver]. exists v. split; [done|]. split; [|done]. apply Hq. set_solver.
Qed.

(** An operation that clients can refer to, or wait for, is part of its task. *)
Definition registered (s : buildQueue) (o : nat) (op : operation) : Prop :=
  allOperations s !! o = Some op /\
  exists tk, allTasks s !! operationTask op = Some tk /\ operations tk !! operationInvocation op = Some o.

Lemma attached_registered s o ov tv :
  attached (viewOf s) o ov tv -> exists op, registered s o op /\ operationCore op = ov.
Proof.
  intros (A1&A2&A3). destruct (operation_view _ _ _ A1) as (op&Ho&<-). destruct (task_view _ _ _ A2) as (tk&Ht&<-).
  exists op. split; [|done]. split; [done|]. by exists tk.
Qed.


End correct.
