(* ===== verification/SchedulerKeys.v ===== *)
(** * The scheduler: workers prove that they have private keys

    A worker has to send, for each public key that it announces, a block that is encrypted
    with the secret which this key shares with a private key of the scheduler.  The blocks
    that are expected are kept with the public keys of platform queues.  They are current
    in every state in which the private keys have not expired, and are computed again when
    private keys are replaced; [Synchronize] only lets workers pass that sent them. *)

From S2P Require Import Prelude References Heap SchedulerState Scheduler SchedulerCalls SchedulerWorkers SchedulerAdmin SchedulerFrames SchedulerStays SchedulerGoodWorkers SchedulerCorrect.

Section keys.
Context {E : Environment}.
Context (cfg : configuration).

(** The state that an error leaves. *)
Lemma wp_failing R {A} (m : M A) Q s : FailFrame R m -> wp m Q (fun _ => True) s -> wp m (fun a s' => R s s' /\ Q a s') (R s) s.
Proof. intros Hm. specialize (Hm s). unfold wp in *. by destruct (m s) as [[a|e| |] s']. Qed.

(** ** The verification of a request *)

(** A block of zeros, encrypted with the secret that a public key shares with one of
    the scheduler's private keys. *)
Definition encryptedFor (s : buildQueue) (key zeros : bytes) : Prop :=
  exists i sk pkix, verificationPrivateKeys s !! i = Some (sk, pkix) /\ encryptZeros sk key = Ok zeros.

Lemma encryptedFor_stays s s' key zeros : stays s s' -> encryptedFor s key zeros -> encryptedFor s' key zeros.
Proof. intros Hs (i&sk&pkix&Hi&He). exists i, sk, pkix. split; [eapply prefix_lookup_Some; [exact Hi|apply Hs]|done]. Qed.

Lemma wp_getPlatformQueuePublicKey s key :
  wp (getPlatformQueuePublicKey key) (fun k s' => staysLocked s s' /\ pkixPublicKey k = key /\
    encryptedFor s' key (verificationZeros k)) (fun s' => staysLocked s s') s.
Proof.
  unfold getPlatformQueuePublicKey. apply wp_bind.
  apply (wp_failFrame staysLocked (parsePKIXPublicKeyAndGetCurveIndex key)); [|done]. intros i s1 H1.
  apply wp_bind, wp_gets. apply wp_bind. unfold wp at 1, liftOutcome.
  destruct (index (verificationPrivateKeys s1) i) as [[sk pkix]|e|] eqn:Ei; [|done|done].
  apply wp_bind. unfold wp at 1, wrapError, liftOutcome. destruct (encryptZeros sk key) as [zeros|e|] eqn:Ez; [|done|done].
  apply wp_ret. split; [done|]. split; [done|]. unfold index in Ei. destruct (i <? 0); [done|].
  exists (Z.to_nat i), sk, pkix. destruct (_ !! _); [by injection Ei as ->|done].
Qed.

Lemma skipExisting_found key l i c j :
  c <> 0 -> skipExisting key l i c = (0, j) -> exists k, l !! (j - i)%nat = Some k /\ bytes_compare key (pkixPublicKey k) = 0 /\ (i <= j)%nat.
Proof.
  revert i c. induction l as [|k l IH]; intros i c Hc H; cbn [skipExisting] in H; [by injection H|].
  destruct (Z.geb_spec (bytes_compare key (pkixPublicKey k)) 0) as [Hge|Hlt].
  - injection H as E1 <-. exists k. rewrite Nat.sub_diag. done.
  - destruct (IH (S i) (bytes_compare key (pkixPublicKey k)) ltac:(lia) H) as (k'&Hk&E1&Hle). exists k'. split; [|split; [done|lia]].
    replace (j - i)%nat with (S (j - S i)) by lia. done.
Qed.

Definition zerosCurrent (s : buildQueue) (l : list platformQueuePublicKey) : Prop :=
  forall k, k ∈ l -> encryptedFor s (pkixPublicKey k) (verificationZeros k).

(** Keys that are going to be added belong to keys of the request that are verified. *)
Definition newKeysVerified (s : buildQueue) (v : verification) : Prop :=
  forall k i, (k, i) ∈ newPublicKeys v -> encryptedFor s (pkixPublicKey k) (verificationZeros k).

Lemma wp_verifyPublicKey s existing v k :
  zerosCurrent s existing -> newKeysVerified s v ->
  wp (verifyPublicKey existing v k) (fun vc s' => stays s s' /\ newKeysVerified s' vc.1 /\
    (needsVerification vc.1 = false -> needsVerification v = false /\ encryptedFor s' (requestKey k) (requestZeros k)))
    (fun _ => True) s.
Proof.
  intros Hex Hnew. unfold verifyPublicKey. destruct (skipExisting _ _ _ _) as [cmp i] eqn:Es. cbv zeta.
  assert (forall s' v', stays s s' -> newPublicKeys v' = newPublicKeys v -> newKeysVerified s' v') as Hkeep.
  { intros s' v' Hs E1 k' j Hk. rewrite E1 in Hk. eapply encryptedFor_stays; [exact Hs|by eapply Hnew]. }
  destruct (Z.eqb_spec cmp 0) as [->|Hne].
  - apply skipExisting_found in Es as (k0&Hk0&E0&Hle); [|done]. rewrite lookup_drop in Hk0.
    replace (insertionIndex v + (i - insertionIndex v))%nat with i in Hk0 by lia.
    apply bytes_compare_eq in E0. apply wp_bind, wp_deref. intros k1 Hk1. rewrite Hk0 in Hk1. injection Hk1 as <-.
    apply wp_ret. split; [reflexivity|]. cbn [fst]. simpl. unfold constant.
    destruct v as [ins nv nk cs ks]. simpl in *. unfold constant in *.
    destruct nv; simpl; [split; [apply Hkeep; reflexivity|done]|].
    case_bool_decide as Hz; simpl; [|split; [apply Hkeep; reflexivity|done]].
    split; [apply Hkeep; reflexivity|]. intros _. split; [done|].
    rewrite E0, Hz. by apply Hex, (list_elem_of_lookup_2 _ i).
  - destruct v as [ins nv nk cs ks]. simpl in *. unfold constant in *. destruct nv; simpl.
    + apply wp_bind. apply (wp_failFrame staysLocked (wrapError CodeInvalidArgument (parsePKIXPublicKeyAndGetCurveIndex (requestKey k)))); [|done].
      intros c s1 [Hs1 _]. apply wp_ret. split; [done|]. split; [by apply Hkeep|done].
    + apply wp_bind. unfold wp, wrapError. pose proof (wp_getPlatformQueuePublicKey s (requestKey k)) as Hg. unfold wp in Hg.
      destruct (getPlatformQueuePublicKey (requestKey k) s) as [[pk|e| |] s1]; [|done..]. destruct Hg as ([Hs1 _]&E1&He).
      unfold mret, M_ret. split; [done|]. cbn [fst]. case_bool_decide as Hz; [|split; [by apply Hkeep|done]]. split.
      * intros k' j Hk'. simpl in Hk'. unfold constant in Hk'. apply elem_of_app in Hk' as [Hk'|Hk'].
        -- eapply encryptedFor_stays; [exact Hs1|by eapply Hnew].
        -- apply list_elem_of_singleton in Hk'. injection Hk' as -> ->. by rewrite E1.
      * intros _. split; [done|]. by rewrite Hz.
Qed.

(** A request whose verification succeeds. *)
Lemma wp_verifyPublicKeys existing v keys s :
  zerosCurrent s existing -> newKeysVerified s v ->
  wp (verifyPublicKeys existing v keys) (fun v' s' => stays s s' /\ newKeysVerified s' v' /\
    (needsVerification v' = false ->
       needsVerification v = false /\ forall k, k ∈ keys -> encryptedFor s' (requestKey k) (requestZeros k)))
    (fun _ => True) s.
Proof.
  revert v s. induction keys as [|k keys IH]; intros v s Hex Hnew; cbn [verifyPublicKeys].
  { apply wp_ret. split; [reflexivity|]. split; [done|]. intros H. split; [done|]. intros k Hk. by apply elem_of_nil in Hk. }
  apply wp_bind. eapply wp_mono; [by apply wp_verifyPublicKey| |done]. intros [v1 c] s1 (Hs1&Hn1&H1). cbn [fst] in *.
  apply wp_bind, wp_gets, wp_bind. unfold wp at 1, liftOutcome.
  destruct (index (verificationPrivateKeys s1) c) as [[sk pkix]|e|]; [|done..].
  match goal with |- wp (verifyPublicKeys _ ?x _) _ _ _ => set (v2 := x) in * end.
  assert (newPublicKeys v2 = newPublicKeys v1 /\ needsVerification v2 = needsVerification v1) as [E1 E2]
    by (unfold v2; by case_bool_decide).
  eapply wp_mono; [apply (IH v2 s1)| |done].
  { intros k' Hk'. eapply encryptedFor_stays; [exact Hs1|by apply Hex]. }
  { by unfold newKeysVerified; rewrite E1. }
  intros v' s' (Hs2&Hn2&H2). split; [by transitivity s1|]. split; [done|]. intros Hf. destruct (H2 Hf) as [Hf1 Hk]. rewrite E2 in Hf1.
  destruct (H1 Hf1) as [Hf0 Hk0]. split; [done|]. intros k' Hk'. apply elem_of_cons in Hk' as [->|Hk']; [|by apply Hk].
  by eapply encryptedFor_stays.
Qed.


(** ** Blocks that are current *)

Definition queueCurrent (s : buildQueue) (p : nat) : Prop :=
  forall pq, allPlatformQueues s !! p = Some pq -> zerosCurrent s (publicKeys pq).

(** Of every platform queue that can be found by a public key. *)
Definition current (s : buildQueue) : Prop := forall key p, platformQueues s !! key = Some p -> queueCurrent s p.

(** Before a rotation is due. *)
Definition keysFresh (s : buildQueue) : Prop :=
  forall t, verificationPrivateKeyExpiration s = Some t -> now s < t -> current s.

Lemma queueCurrent_stays s s' p : stays s s' -> queueCurrent s p -> queueCurrent s' p.
Proof.
  intros Hs Hp pq' Hpq' k Hk. destruct (stays_cached _ _ Hs p pq' Hpq') as [E1|(pq&Hpq&E1)]; rewrite E1 in Hk; [by apply elem_of_nil in Hk|].
  eapply encryptedFor_stays; [exact Hs|by apply (Hp pq)].
Qed.

Lemma current_stays s s' : stays s s' -> current s -> current s'.
Proof. intros Hs Hc key p Hp. rewrite (stays_queues _ _ Hs) in Hp. eapply queueCurrent_stays; [exact Hs|by apply (Hc key)]. Qed.

Lemma keysFresh_stays s s' : stays s s' -> keysFresh s -> keysFresh s'.
Proof.
  intros Hs Hf t Ht Hlt. rewrite (stays_expiration _ _ Hs) in Ht. pose proof (stays_now _ _ Hs).
  eapply current_stays; [exact Hs|]. apply (Hf t Ht). lia.
Qed.

Lemma current_fresh s : current s -> keysFresh s.
Proof. by intros Hc t _ _. Qed.

(** ** Public keys are added *)

Lemma elem_of_slice {A} (l : list A) i j r x : slice l i j = Ok r -> x ∈ r -> x ∈ l.
Proof.
  unfold slice. destruct (_ && _); [|done]. intros [= <-] Hx. rewrite elem_of_take in Hx. destruct Hx as (n&Hx&_).
  rewrite lookup_drop in Hx. by eapply list_elem_of_lookup_2.
Qed.

Lemma elem_of_mergePublicKeys existing previous new l k :
  mergePublicKeys existing previous new = Ok l -> k ∈ l -> k ∈ existing \/ exists i, (k, i) ∈ new.
Proof.
  revert previous l. induction new as [|[k0 i] new IH]; intros previous l; cbn [mergePublicKeys].
  - intros Hl Hk. left. exact (elem_of_slice _ _ _ _ _ Hl Hk).
  - destruct (slice existing _ _) as [before| |] eqn:Eb; [|done..].
    simpl. destruct (mergePublicKeys existing i new) as [rest| |] eqn:Er; [|done..]. intros [= <-] Hk.
    apply elem_of_app in Hk as [Hk|Hk]; [left; by eapply elem_of_slice|]. apply elem_of_cons in Hk as [->|Hk].
    + right. exists i. by left.
    + destruct (IH i rest Er Hk) as [?|(j&Hj)]; [by left|]. right. exists j. by right.
Qed.

Lemma foldl_insert_lookup (new : list (platformQueuePublicKey * nat)) (p : nat) (m : gmap bytes nat) (key : bytes) (p' : nat) :
  foldl (fun m k => <[pkixPublicKey k.1 := p]> m) m new !! key = Some p' -> p' = p \/ m !! key = Some p'.
Proof.
  revert m. induction new as [|k new IH]; intros m H; [by right|]. apply IH in H as [->|H]; [by left|].
  apply lookup_insert_Some in H as [[_ <-]|[_ H]]; [by left|by right].
Qed.

Lemma wp_addNewPublicKeys s p new :
  queueCurrent s p -> (forall k i, (k, i) ∈ new -> encryptedFor s (pkixPublicKey k) (verificationZeros k)) ->
  wp (addNewPublicKeys p new) (fun _ s' => (current s -> current s') /\ verificationPrivateKeys s' = verificationPrivateKeys s /\
    verificationPrivateKeyExpiration s' = verificationPrivateKeyExpiration s /\ now s' = now s) (fun s' => s' = s) s.
Proof.
  intros Hp Hnew. destruct new as [|k0 new0]; [by apply wp_ret|]. unfold addNewPublicKeys. set (new := k0 :: new0) in *.
  apply wp_bind, wp_deref. intros pq Hpq. apply wp_bind. unfold wp at 1, liftOutcome.
  destruct (mergePublicKeys (publicKeys pq) 0 new) as [l|e|] eqn:El; [|done..].
  apply wp_bind, wp_modify, wp_modify. split; [|done]. intros Hc key p' Hp' pq' Hpq' k Hk.
  change (encryptedFor s (pkixPublicKey k) (verificationZeros k)). change (foldl (fun m k => <[pkixPublicKey k.1 := p]> m) (platformQueues s) new !! key = Some p') in Hp'.
  change (<[p := pq <| publicKeys := l |>]> (allPlatformQueues s) !! p' = Some pq') in Hpq'.
  apply lookup_insert_Some in Hpq' as [[<- <-]|[Hne Hpq']].
  - destruct (elem_of_mergePublicKeys _ _ _ _ k El Hk) as [Hk'|(i&Hi)]; [by apply (Hp pq)|by eapply Hnew].
  - apply foldl_insert_lookup in Hp' as [->|Hp']; [done|]. by apply (Hc key p' Hp' pq').
Qed.

(** ** Rotation *)

(** What the loops over public keys keep: keys only change to ones whose block is
    current. *)
Record renews (s s' : buildQueue) : Prop := {
  renews_private : verificationPrivateKeys s `prefix_of` verificationPrivateKeys s';
  renews_expiration : verificationPrivateKeyExpiration s' = verificationPrivateKeyExpiration s;
  renews_now : now s' = now s;
  renews_queues : platformQueues s' = platformQueues s;
  renews_cached p pq' : allPlatformQueues s' !! p = Some pq' -> exists pq, allPlatformQueues s !! p = Some pq /\
    length (publicKeys pq') = length (publicKeys pq) /\
    forall i k, publicKeys pq' !! i = Some k -> publicKeys pq !! i = Some k \/ encryptedFor s' (pkixPublicKey k) (verificationZeros k);
}.

Lemma encryptedFor_prefix s s' key zeros :
  verificationPrivateKeys s `prefix_of` verificationPrivateKeys s' -> encryptedFor s key zeros -> encryptedFor s' key zeros.
Proof. intros Hs (i&sk&pkix&Hi&He). exists i, sk, pkix. split; [by eapply prefix_lookup_Some|done]. Qed.

#[export] Instance renews_preorder : PreOrder renews.
Proof.
  split.
  - intros s. split; try done. intros p pq' Hp. exists pq'. split; [done|]. split; [done|]. by left.
  - intros s1 s2 s3 H1 H2. split.
    + transitivity (verificationPrivateKeys s2); [apply H1|apply H2].
    + rewrite (renews_expiration _ _ H2). apply H1.
    + rewrite (renews_now _ _ H2). apply H1.
    + rewrite (renews_queues _ _ H2). apply H1.
    + intros p pq3 Hp3. destruct (renews_cached _ _ H2 p pq3 Hp3) as (pq2&Hp2&L2&K2).
      destruct (renews_cached _ _ H1 p pq2 Hp2) as (pq1&Hp1&L1&K1). exists pq1. split; [done|]. split; [congruence|].
      intros i k Hk. destruct (K2 i k Hk) as [Hk2|?]; [|by right].
      destruct (K1 i k Hk2) as [?|He]; [by left|]. right. eapply encryptedFor_prefix; [apply H2|done].
Qed.

(** Keys before some position are current. *)
Definition currentBelow (s : buildQueue) (p n : nat) : Prop :=
  forall pq i k, allPlatformQueues s !! p = Some pq -> (i < n)%nat -> publicKeys pq !! i = Some k ->
    encryptedFor s (pkixPublicKey k) (verificationZeros k).

Lemma currentBelow_renews s s' p n : renews s s' -> currentBelow s p n -> currentBelow s' p n.
Proof.
  intros Hs Hc pq' i k Hp' Hi Hk. destruct (renews_cached _ _ Hs p pq' Hp') as (pq&Hp&_&Hkeys).
  destruct (Hkeys i k Hk) as [Hk'|]; [|done]. eapply encryptedFor_prefix; [apply Hs|by apply (Hc pq i k)].
Qed.

(** The block of a key is computed without changing platform queues. *)
Definition keepsQueues (s s' : buildQueue) : Prop := allPlatformQueues s' = allPlatformQueues s /\ now s' = now s.
#[export] Instance keepsQueues_preorder : PreOrder keepsQueues.
Proof. split; [by split|]. intros s1 s2 s3 [H1 N1] [H2 N2]. split; congruence. Qed.

#[export] Instance keepsQueues_generate c : FailFrame keepsQueues (generateVerificationPrivateKey c).
Proof. intros s. apply wp_bind, wp_newId. by apply (wp_failFrame keepsQueues (wrapError CodeInternal (liftOutcome _))). Qed.

#[export] Instance keepsQueues_parse key : FailFrame keepsQueues (parsePKIXPublicKeyAndGetCurveIndex key).
Proof.
  apply failFrame_bind; [apply _..|]. intros curve s. apply wp_bind, wp_gets. change (id s) with s.
  destruct (verificationCurveIndices s !! curve) as [i|]; [by apply wp_ret|]. apply wp_bind.
  apply (wp_failFrame keepsQueues (generateVerificationPrivateKey curve)); [|done]. intros k s1 H1.
  apply wp_bind, wp_modify, wp_ret. transitivity s1; done.
Qed.

Lemma getPlatformQueuePublicKey_queues key s :
  wp (getPlatformQueuePublicKey key) (fun _ s' => keepsQueues s s') (fun s' => keepsQueues s s') s.
Proof.
  apply wp_bind. apply (wp_failFrame keepsQueues (parsePKIXPublicKeyAndGetCurveIndex key)); [|done]. intros i s1 H1.
  apply wp_bind, wp_gets, wp_bind. unfold wp at 1, liftOutcome. destruct (index _ i) as [[sk pkix]|e|]; [|done..].
  apply wp_bind. unfold wp at 1, wrapError. by destruct (encryptZeros sk key) as [zeros|e|].
Qed.

(** While new private keys are generated, the old ones have expired. *)
Definition renewsClock (s s' : buildQueue) : Prop :=
  verificationPrivateKeyExpiration s' = verificationPrivateKeyExpiration s /\ now s' = now s /\ platformQueues s' = platformQueues s.
#[export] Instance renewsClock_preorder : PreOrder renewsClock.
Proof. split; [by split|]. intros s1 s2 s3 (H1&N1&Q1) (H2&N2&Q2). split_and!; congruence. Qed.

#[export] Instance renewsClock_regenerate l keys : FailFrame renewsClock (regenerateKeys l keys).
Proof.
  revert keys. induction l as [|[c i] l IH]; intros keys; cbn [regenerateKeys]; [apply _|].
  apply failFrame_bind; [apply _| |].
  - intros s. apply wp_bind, wp_newId. by apply (wp_failFrame renewsClock (wrapError CodeInternal (liftOutcome _))).
  - intros k. apply failFrame_bind; apply _.
Qed.

Lemma wp_recomputeZeros s p i :
  currentBelow s p i ->
  wp (recomputeZeros p i) (fun _ s' => renews s s' /\ currentBelow s' p (S i)) (fun s' => renews s s') s.
Proof.
  intros Hc. apply wp_bind, wp_deref. intros pq Hpq. apply wp_bind, wp_deref. intros k Hk. apply wp_bind.
  unfold wp at 1, wrapError. pose proof (wp_getPlatformQueuePublicKey s (pkixPublicKey k)) as Hg.
  assert (forall s1, verificationPrivateKeys s `prefix_of` verificationPrivateKeys s1 -> staysLocked s s1 ->
    allPlatformQueues s1 = allPlatformQueues s -> now s1 = now s -> renews s s1) as Hstay.
  { intros s1 Hp1 [Hs1 _] Hq Hn. split; [done|apply Hs1|done|apply Hs1|]. intros p' pq' Hp'. rewrite Hq in Hp'. exists pq'.
    split; [done|]. split; [done|]. by left. }
  pose proof (getPlatformQueuePublicKey_queues (pkixPublicKey k) s) as Hsame. unfold wp in Hg, Hsame.
  destruct (getPlatformQueuePublicKey (pkixPublicKey k) s) as [[k'|e| |] s1]; try done.
  - destruct Hg as (Hs1&E1&He), Hsame as [Hq Hn]. assert (renews s s1) as Hr1 by (by apply Hstay; [apply Hs1|..]).
    apply wp_bind, wp_deref. intros pq1 Hpq1. apply wp_modify. rewrite Hq, Hpq in Hpq1. injection Hpq1 as <-.
    match goal with |- renews s ?x /\ _ => set (s2 := x) end.
    assert (forall j k2, publicKeys (pq <| publicKeys ::= <[i := k']> |>) !! j = Some k2 ->
      k2 = k' /\ j = i \/ j <> i /\ publicKeys pq !! j = Some k2) as Hkeys.
    { intros j k2 Hj. simpl in Hj. apply list_lookup_insert_Some in Hj as [(->&->&_)|[Hne Hj]]; [by left|right; by split]. }
    assert (renews s s2) as Hr2.
    { transitivity s1; [done|]. split; try done. intros p' pq' Hp'. change (<[p := pq <| publicKeys ::= <[i := k']> |>]> (allPlatformQueues s1) !! p' = Some pq') in Hp'.
      apply lookup_insert_Some in Hp' as [[<- <-]|[_ Hp']].
      - exists pq. split; [by rewrite Hq|]. split; [simpl; by rewrite length_insert|]. intros j k2 Hj.
        destruct (Hkeys j k2 Hj) as [[-> ->]|[_ Hj']]; [right|by left]. by rewrite E1.
      - exists pq'. split; [done|]. split; [done|]. by left. }
    split; [done|]. intros pq' j k2 Hp' Hj Hk2. change (<[p := pq <| publicKeys ::= <[i := k']> |>]> (allPlatformQueues s1) !! p = Some pq') in Hp'.
    rewrite lookup_insert_eq in Hp'. injection Hp' as <-. destruct (Hkeys j k2 Hk2) as [[-> ->]|[Hne Hj']]; [by rewrite E1|].
    eapply encryptedFor_prefix; [apply Hr2|]. apply (Hc pq j k2); [done|lia|done].
  - destruct Hsame as [Hq Hn]. apply Hstay; [apply Hg|done|done|done].
Qed.

Lemma wp_recomputeQueue s p n i :
  currentBelow s p i ->
  wp (forEach (seq i n) (recomputeZeros p)) (fun _ s' => renews s s' /\ currentBelow s' p (i + n)) (fun s' => renews s s') s.
Proof.
  revert s i. induction n as [|n IH]; intros s i Hc; cbn [seq forEach]; [apply wp_ret; split; [done|by rewrite Nat.add_0_r]|].
  apply wp_bind. eapply wp_mono; [by apply wp_recomputeZeros| |done]. intros _ s1 [H1 C1].
  eapply wp_mono; [apply (IH s1 (S i) C1)| |].
  - intros _ s2 [H2 C2]. split; [by transitivity s1|]. by rewrite Nat.add_succ_r.
  - intros s2 H2. by transitivity s1.
Qed.

(** Of all platform queues. *)
Lemma wp_recomputeAll s ps :
  wp (forEach ps (fun p => pq ← getPlatformQueue p; forEach (seq 0 (length (publicKeys pq))) (recomputeZeros p)))
    (fun _ s' => renews s s' /\ forall p, p ∈ ps -> queueCurrent s' p) (fun s' => renews s s') s.
Proof.
  revert s. induction ps as [|p ps IH]; intros s; cbn [forEach]; [apply wp_ret; split; [done|intros p Hp; by apply elem_of_nil in Hp]|].
  apply wp_bind, wp_bind, wp_deref. intros pq Hpq.
  eapply wp_mono; [apply (wp_recomputeQueue s p (length (publicKeys pq)) 0); intros ? ? ? _ ?; lia| |done].
  intros _ s1 [H1 C1]. eapply wp_mono; [apply (IH s1)| |intros s2 H2; by transitivity s1].
  intros _ s2 [H2 C2]. split; [by transitivity s1|]. intros p' [->|Hp']%elem_of_cons; [|by apply C2].
  intros pq2 Hpq2 k [i Hi]%list_elem_of_lookup_1. eapply (currentBelow_renews s1 s2); [done|exact C1|done| |done].
  assert (renews s s2) as Hr by (by transitivity s1). destruct (renews_cached _ _ Hr p pq2 Hpq2) as (pq0&Hpq0&Hl&_).
  rewrite Hpq in Hpq0. injection Hpq0 as <-. rewrite <- Hl. simpl. by eapply lookup_lt_Some.
Qed.

Definition expired (s : buildQueue) : Prop := forall t, verificationPrivateKeyExpiration s = Some t -> t <= now s.

Lemma expired_fresh s : expired s -> keysFresh s.
Proof. intros He t Ht Hlt. specialize (He t Ht). lia. Qed.

Lemma expired_renews s s' : expired s -> renewsClock s s' -> expired s'.
Proof. intros He (H1&H2&_) t Ht. rewrite H1 in Ht. rewrite H2. by apply He. Qed.

(** The private keys are in use for at most the configured time. *)
Definition inUse (s : buildQueue) : Prop :=
  exists t, verificationPrivateKeyExpiration s = Some t /\ (now s < t \/ t = now s + VerificationPrivateKeyRefreshInterval cfg).

Lemma inUse_stays s s' : staysLocked s s' -> inUse s -> inUse s'.
Proof. intros (Hs&_&Hn) (t&Ht&H). exists t. rewrite (stays_expiration _ _ Hs), Hn. by split. Qed.

(** Afterwards all blocks are current; an error leaves private keys that have expired. *)
Lemma wp_rotate s : keysFresh s -> wp (rotateVerificationPrivateKeys cfg) (fun _ s' => current s' /\ inUse s') keysFresh s.
Proof.
  intros Hf. apply wp_bind, wp_gets. change (id s) with s.
  destruct (match verificationPrivateKeyExpiration s with Some t => t >? now s | None => false end) eqn:Eb.
  { apply wp_ret. destruct (verificationPrivateKeyExpiration s) as [t|] eqn:Et; [|done]. rewrite Z.gtb_ltb in Eb. apply Z.ltb_lt in Eb.
    split; [by apply (Hf t Et)|]. exists t. split; [done|by left]. }
  assert (expired s) as He by (intros t Ht; rewrite Ht in Eb; rewrite Z.gtb_ltb in Eb; by apply Z.ltb_ge in Eb).
  apply wp_bind. apply (wp_failFrame renewsClock (regenerateKeys _ _)); [|intros s1 H1; by apply expired_fresh, (expired_renews s)].
  intros keys s1 H1. apply wp_bind, wp_deref. intros keys' _. apply wp_bind, wp_modify.
  match goal with |- wp _ _ _ ?x => set (s2 := x) end. assert (expired s2) as H2 by exact (expired_renews s s1 He H1).
  apply wp_bind. eapply wp_mono; [apply (wp_recomputeAll s2)| |].
  - intros _ s3 [H3 C3]. apply wp_modify. split; [|eexists; split; [done|by right]]. intros key p Hp. apply (C3 p). apply list_elem_of_fmap. exists (key, p). split; [done|].
    apply elem_of_map_to_list. destruct H1 as (_&_&<-). change (platformQueues s3 !! key = Some p) in Hp. by rewrite (renews_queues _ _ H3) in Hp.
  - intros s3 H3. apply expired_fresh, (expired_renews s2 s3 H2). by destruct H3.
Qed.

(** ** Registration of queues *)

Lemma findPlatformQueue_known found keys s :
  wp (findPlatformQueue found keys) (fun p s' => s' = s /\ forall q, p = Some q -> found = Some q \/ exists key, platformQueues s !! key = Some q)
    (fun s' => s' = s) s.
Proof.
  revert found. induction keys as [|k keys IH]; intros found; cbn [findPlatformQueue]; [apply wp_ret; split; [done|by left]|].
  apply wp_bind, wp_gets. destruct (platformQueues s !! requestKey k) as [q|] eqn:Eq; [|apply IH].
  destruct found as [q'|].
  - case_decide; [apply IH|by apply wp_fail].
  - eapply wp_mono; [apply (IH (Some q))| |done]. intros p s' [-> H]. split; [done|]. intros q0 H0. right.
    destruct (H q0 H0) as [[= <-]|?]; [by eexists|done].
Qed.

(** A new platform queue has no keys. *)
Lemma wp_newPlatformQueue s l m b :
  wp (newPlatformQueue l m b) (fun p s' => staysLocked s s' /\ queueCurrent s' p) (fun _ => False) s.
Proof.
  apply wp_bind, wp_newId, wp_bind, wp_modify, wp_ret. cbv zeta. split.
  - split; [|done]. split; try done. intros p' pq' H. simpl in H. apply lookup_insert_Some in H as [[<- <-]|[_ H]]; [by left|right; by exists pq'].
  - intros pq H k Hk. simpl in H. rewrite lookup_insert_eq in H. injection H as <-. by apply elem_of_nil in Hk.
Qed.

Lemma wp_registerQueues s p new sizeClass :
  current s -> (forall q, p = Some q -> queueCurrent s q) ->
  (forall k i, (k, i) ∈ new -> encryptedFor s (pkixPublicKey k) (verificationZeros k)) ->
  wp (registerQueues p new sizeClass)
    (fun _ s' => current s' /\ verificationPrivateKeys s `prefix_of` verificationPrivateKeys s' /\ (inUse s -> inUse s')) current s.
Proof.
  intros Hc Hp Hnew. unfold registerQueues. apply wp_bind.
  eapply (wp_mono _ (fun pq s1 => staysLocked s s1 /\ queueCurrent s1 pq.1) _ (fun s1 => stays s s1)).
  - destruct p as [p|].
    + specialize (Hp p eq_refl).
      apply wp_bind, wp_deref. intros pq _. destruct (findSizeClassQueue pq sizeClass) as [q|].
      * apply wp_bind, wp_gets, wp_bind. match goal with |- wp ?m _ _ _ => assert (FailFrame staysLocked m) as Hm by stays_proof end.
        apply (wp_failFrame staysLocked _); [|by intros s1 []].
        intros _ s1 H1. apply wp_ret. split; [done|]. eapply queueCurrent_stays; [apply H1|done].
      * apply wp_bind. apply (wp_failFrame staysLocked (checkNewSizeClass _ _)); [|by intros s1 []].
        intros _ s1 H1. apply wp_ret. split; [done|]. eapply queueCurrent_stays; [apply H1|done].
    + apply wp_bind. eapply wp_mono; [apply wp_newPlatformQueue| |done]. intros p s1 H1. by apply wp_ret.
  - intros [p1 scq] s1 [L1 Hp1]. pose proof (proj1 L1) as H1. apply wp_bind.
    eapply wp_mono; [apply (wp_addNewPublicKeys s1 p1 new); [done|]| |intros s2 ->; by eapply current_stays].
    { intros k i Hk. eapply encryptedFor_stays; [exact H1|by eapply Hnew]. }
    intros _ s2 (C2&E2&X2&N2). specialize (C2 (current_stays _ _ H1 Hc)).
    assert (verificationPrivateKeys s `prefix_of` verificationPrivateKeys s2) as P2 by (rewrite E2; apply H1).
    assert (inUse s -> inUse s2) as U2.
    { intros Hu. destruct (inUse_stays _ _ L1 Hu) as (te&Hte&Hle). exists te. by rewrite X2, N2. }
    destruct scq as [q|]; [by apply wp_ret|]. apply (wp_failFrame staysLocked (addSizeClassQueue p1 sizeClass true)).
    + intros _ s3 H3. split; [eapply current_stays; [apply H3|done]|]. split; [transitivity (verificationPrivateKeys s2); [done|apply H3]|].
      intros Hu. by apply (inUse_stays s2), U2.
    + intros s3 [H3 _]. by eapply current_stays.
  - intros s1 H1. by eapply current_stays.
Qed.

(** ** Calls *)

(** What a worker has to send to pass. *)
Definition verifiedBy (s : buildQueue) (keys : list requestPublicKey) : Prop :=
  forall k, k ∈ keys -> encryptedFor s (requestKey k) (requestZeros k).

Definition asksVerification (r : synchronizing) : Prop :=
  exists n keys, r = Responds (mkSynchronizeResponse n (DesiredVerifyingPublicKeys keys)).

Lemma verifiedBy_prefix s s' keys :
  verificationPrivateKeys s `prefix_of` verificationPrivateKeys s' -> verifiedBy s keys -> verifiedBy s' keys.
Proof. intros Hs Hv k Hk. by eapply encryptedFor_prefix, Hv. Qed.

Lemma wp_Synchronize t request s :
  keysFresh s ->
  wp (Synchronize cfg t request)
    (fun r s' => keysFresh s' /\ inUse s' /\ (asksVerification r \/ verifiedBy s' (requestPublicKeys request))) keysFresh s.
Proof.
  intros Hf. unfold Synchronize. case_bool_decide as Hk; [by apply wp_fail|]. destruct (negb _); [by apply wp_fail|]. cbv zeta.
  apply wp_critical; [|intros s1 H1; by eapply keysFresh_stays]. intros s1 H1.
  apply wp_bind. eapply wp_mono; [by apply wp_rotate, (keysFresh_stays s)| |intros s2 H2; by eapply keysFresh_stays; [apply stays_unlock|]].
  intros a s2 [C2 U2]. clear a. assert (forall s', current s' -> keysFresh (s' <| locked := false |>)) as Hleave.
  { intros s' C. by apply current_fresh, (current_stays s'); [apply stays_unlock|]. }
  apply wp_bind. eapply wp_mono; [apply (findPlatformQueue_known None)| |intros s3 ->; by apply Hleave]. intros p s3 [-> Hp].
  assert (forall q, p = Some q -> queueCurrent s2 q) as Hpc by (intros q Hq; destruct (Hp q Hq) as [?|[key Hkey]]; [done|by apply (C2 key)]).
  apply wp_bind. apply (wp_mono _ (fun l s3 => s3 = s2 /\ zerosCurrent s2 l) _ (fun _ => False)); [| |done].
  { destruct p as [p|]; [|apply wp_ret; split; [done|intros k Hk0; by apply elem_of_nil in Hk0]].
    apply wp_bind, wp_deref. intros pq Hpq. apply wp_ret. split; [done|]. by apply (Hpc p eq_refl). }
  intros existing s3 [-> Hex]. apply wp_bind.
  eapply wp_mono; [apply (wp_failing staysLocked), wp_verifyPublicKeys; [apply _|done|]| |intros s3 H3; apply Hleave, (current_stays s2); [apply H3|done]].
  { intros k i Hk0. by apply elem_of_nil in Hk0. }
  intros v s3 [L3 (H3&N3&V3)]. assert (inUse s3) as U3 by by apply (inUse_stays s2). assert (current s3) as C3 by by eapply current_stays.
  destruct (needsVerification v) eqn:En; [apply wp_bind, wp_gets, wp_ret; split; [by apply Hleave|split; [done|left; by do 2 eexists]]|].
  destruct (V3 eq_refl) as [_ V3']. apply wp_bind.
  eapply wp_mono; [apply (wp_registerQueues s3 p (newPublicKeys v))|..]; [done| |exact N3| |exact Hleave].
  { intros q Hq. eapply queueCurrent_stays; [exact H3|by apply Hpc]. }
  intros scq s4 (C4&P4&U4). specialize (U4 U3). assert (verifiedBy s4 (requestPublicKeys request)) as V4 by by eapply verifiedBy_prefix.
  match goal with |- wp ?m _ _ _ => assert (FailFrame staysLocked m) as Hm by (apply failFrame_bind; [apply _..|]; intros w; apply _) end.
  apply (wp_failFrame staysLocked _); [|intros s5 [H5 _]; by apply Hleave, (current_stays s4)].
  intros r s5 L5. pose proof (proj1 L5) as H5. split; [by apply Hleave, (current_stays s4)|]. split; [change (inUse s5); by apply (inUse_stays s4)|]. right. eapply verifiedBy_prefix; [|exact V4]. apply H5.
Qed.

(** Keys of a predeclared platform queue are computed when it is registered. *)
Lemma wp_Register t keys limits m b classes s :
  keysFresh s ->
  wp (RegisterPredeclaredPlatformQueue cfg t keys limits m b classes) (fun _ s' => keysFresh s') keysFresh s.
Proof.
  intros Hf. unfold RegisterPredeclaredPlatformQueue. cbv zeta. do 5 (match goal with |- wp (if ?b then _ else _) _ _ _ => destruct b; [by apply wp_fail|] end).
  apply wp_critical; [|intros s1 H1; by eapply keysFresh_stays]. intros s1 H1.
  assert (keysFresh s1) as F1 by by eapply keysFresh_stays.
  assert (forall s', keysFresh s' -> keysFresh (s' <| locked := false |>)) as Hleave by (intros s' ?; by apply (keysFresh_stays s'); [apply stays_unlock|]).
  apply wp_bind.
  eapply (wp_mono _ (fun new s2 => stays s1 s2 /\ forall k i, (k, i) ∈ new -> encryptedFor s2 (pkixPublicKey k) (verificationZeros k))
    _ (fun s2 => stays s1 s2)).
  { clear. revert s1. induction keys as [|key keys IH]; intros s1.
    { apply wp_ret. split; [done|]. intros k i Hk. by apply elem_of_nil in Hk. }
    apply wp_bind, wp_gets. destruct (platformQueues s1 !! key); [by apply wp_fail|]. apply wp_bind.
    pose proof (wp_getPlatformQueuePublicKey s1 key) as Hk. unfold wp at 1, wrapError. unfold wp in Hk.
    destruct (getPlatformQueuePublicKey key s1) as [[k|e| |] s2]; [|by destruct Hk|done..]. destruct Hk as ([H2 _]&E2&He).
    apply wp_bind. eapply wp_mono; [apply IH| |intros s3 H3; by transitivity s2]. intros new s3 [H3 N3]. apply wp_ret.
    split; [by transitivity s2|]. intros k' i [[= -> ->]|Hk']%elem_of_cons; [|by eapply N3].
    rewrite E2. by eapply encryptedFor_stays. }
  2: intros s2 H2; by apply Hleave, (keysFresh_stays s1).
  intros new s2 [H2 N2]. apply wp_bind. eapply wp_mono; [apply wp_newPlatformQueue| |done]. intros p s3 [[H3 _] Q3].
  assert (keysFresh s3) as F3 by by eapply keysFresh_stays, keysFresh_stays.
  apply wp_bind. eapply wp_mono; [apply (wp_addNewPublicKeys s3 p new Q3)| |intros s4 ->; by apply Hleave].
  { intros k i Hk. eapply encryptedFor_stays; [exact H3|by eapply N2]. }
  intros _ s4 (C4&_&E4&T4). assert (keysFresh s4) as F4.
  { intros t0 Ht Hlt. rewrite E4 in Ht. rewrite T4 in Hlt. by apply C4, (F3 t0). }
  match goal with |- wp ?m _ _ _ => assert (FailFrame staysLocked m) as Hm by stays_proof end.
  apply (wp_failFrame staysLocked _); [intros _ s5 [H5 _]|intros s5 [H5 _]]; by apply Hleave, (keysFresh_stays s4).
Qed.

(** ** Reachable states *)

Lemma finishes_wp {A} (m : M A) (P : buildQueue -> Prop) s s' : finishes m s s' -> wp m (fun _ => P) P s -> P s'.
Proof. unfold finishes, wp. by destruct (m s) as [[a|e| |] s1]; intros Hf; subst. Qed.

Lemma finishes_fresh {A} (m : M A) s s' `{!FailFrame stays m} : finishes m s s' -> keysFresh s -> keysFresh s'.
Proof.
  intros Hf Hk. eapply finishes_wp; [exact Hf|]. apply (wp_failFrame stays _); intros; by eapply keysFresh_stays.
Qed.

Lemma step_fresh X s s' : step cfg X s s' -> keysFresh s -> keysFresh s'.
Proof.
  destruct 1; intros Hk; try (match goal with H : finishes _ _ _ |- _ => exact (finishes_fresh _ _ _ H Hk) end).
  - eapply finishes_wp; [eassumption|]. by apply wp_Register.
  - eapply finishes_wp; [eassumption|]. eapply wp_mono; [by apply wp_Synchronize|by intros ? ? []|done].
Qed.

Lemma reachable_fresh s : reachable cfg s -> keysFresh s.
Proof. induction 1 as [t|X s s' _ Hs Hstep]; [by intros t' Ht|by eapply step_fresh]. Qed.


End keys.
