(* ===== verification/SchedulerProperties.v ===== *)
(** * The scheduler: properties of single calls

    What the parts of calls compute: the invocation that a worker is associated with
    after a task, pages of listings, and the two calls
    that do not do what their documentation says, [WaitExecution] and the choice of a
    task for a worker that sticks to an invocation. *)

From stdpp Require Import sorting.
From S2P Require Import Prelude References Heap SchedulerState SchedulerLifeCycle Scheduler SchedulerCalls SchedulerWorkers SchedulerAdmin SchedulerFrames SchedulerStays SchedulerGoodWorkers.

(** ** Lowest common ancestors *)

Lemma removelast_prefix {A} (l : list A) : removelast l `prefix_of` l.
Proof. destruct l as [|x l] using rev_ind; [done|]. rewrite removelast_last. by exists [x]. Qed.

Lemma length_removelast {A} (l : list A) : length (removelast l) = (length l - 1)%nat.
Proof. destruct l as [|x l] using rev_ind; [done|]. rewrite removelast_last, length_app. simpl. lia. Qed.

(** A prefix that is not all of a list is one of what remains without the last entry. *)
Lemma prefix_removelast {A} (p l : list A) : p `prefix_of` l -> p <> l -> p `prefix_of` removelast l.
Proof.
  intros [r ->] Hne. destruct r as [|x r] using rev_ind; [by rewrite app_nil_r in Hne|].
  rewrite app_assoc, removelast_last. by exists r.
Qed.

Lemma stripCommon_spec fuel a b :
  length a = length b -> (length a < fuel)%nat ->
  let p := stripCommon fuel a b in
  p `prefix_of` a /\ p `prefix_of` b /\ forall q, q `prefix_of` a -> q `prefix_of` b -> q `prefix_of` p.
Proof.
  revert a b. induction fuel as [|fuel IH]; intros a b Hl Hf; [lia|]. cbn [stripCommon]. case_decide as E1; [by subst|].
  assert (0 < length a)%nat as Hpos by (destruct a, b; [done|discriminate..|simpl; lia]).
  destruct (IH (removelast a) (removelast b)) as (H1&H2&H3); [rewrite !length_removelast; lia..|].
  pose proof (removelast_prefix a). pose proof (removelast_prefix b).
  split; [by transitivity (removelast a)|]. split; [by transitivity (removelast b)|]. intros q Hqa Hqb.
  apply H3; apply prefix_removelast; try done; intros ->; apply E1.
  - by apply prefix_length_eq; [|lia].
  - symmetry. by apply prefix_length_eq; [|lia].
Qed.

Lemma prefix_take_min {A} (q a b : list A) : q `prefix_of` a -> q `prefix_of` b -> q `prefix_of` take (Nat.min (length a) (length b)) a.
Proof.
  intros Ha Hb. pose proof (prefix_length _ _ Ha). pose proof (prefix_length _ _ Hb). destruct Ha as [r ->].
  rewrite take_app. exists (take (Nat.min (length (q ++ r)) (length b) - length q) r). f_equal.
  apply take_ge. rewrite length_app in *. lia.
Qed.

(** C8: A worker that has executed a task of two invocations sticks to their lowest
    common ancestor: the invocation whose keys are the longest common prefix of both. *)
Theorem lowestCommonAncestor_longest a b :
  let c := lowestCommonAncestor a b in
  c.1 = a.1 /\ c.2 `prefix_of` a.2 /\ c.2 `prefix_of` b.2 /\
  forall keys, keys `prefix_of` a.2 -> keys `prefix_of` b.2 -> keys `prefix_of` c.2.
Proof.
  unfold lowestCommonAncestor. cbv zeta. cbn [fst snd]. set (n := Nat.min (length a.2) (length b.2)).
  destruct (stripCommon_spec (S n) (take n a.2) (take n b.2)) as (H1&H2&H3);
    [rewrite !length_take; unfold n; lia..|].
  split; [done|]. split; [transitivity (take n a.2); [done|apply prefix_take]|].
  split; [transitivity (take n b.2); [done|apply prefix_take]|]. intros keys Ha Hb. apply H3.
  - by apply prefix_take_min.
  - unfold n. rewrite Nat.min_comm. by apply prefix_take_min.
Qed.

(** ** Pages *)

(** The binary search finds where a predicate starts to hold. *)
Lemma searchLoop_spec fuel f i j :
  (i <= j)%nat -> (j - i <= fuel)%nat ->
  (forall h k, (h <= k < j)%nat -> f h = true -> f k = true) ->
  (forall h, (h < i)%nat -> f h = false) ->
  let r := searchLoop fuel f i j in
  (i <= r <= j)%nat /\ (forall h, (h < r)%nat -> f h = false) /\ (forall h, (r <= h < j)%nat -> f h = true).
Proof.
  revert i j. induction fuel as [|fuel IH]; intros i j Hij Hf Hm Hlo; cbn [searchLoop]; cbv zeta.
  { split; [lia|]. split; [done|]. intros h Hh. lia. }
  destruct (Nat.ltb_spec i j) as [Hlt|Hge].
  2: { split; [lia|]. split; [done|]. intros h Hh. lia. }
  set (h := ((i + j) / 2)%nat). assert (i <= h < j)%nat as Hh.
  { unfold h. split; [apply Nat.div_le_lower_bound; lia|apply Nat.Div0.div_lt_upper_bound; lia]. }
  destruct (f h) eqn:Efh.
  - destruct (IH i h) as (H1&H2&H3); [lia|lia|intros a b Hab; apply Hm; lia|done|].
    split; [lia|]. split; [done|]. intros k Hk.
    destruct (decide (k < h)%nat); [apply H3; lia|]. apply (Hm h); [lia|done].
  - destruct (IH (S h) j) as (H1&H2&H3); [lia|lia|done| |].
    + intros k Hk. destruct (f k) eqn:Ek; [|done]. rewrite (Hm k h) in Efh; [done|lia|done].
    + split; [lia|]. split; done.
Qed.

(** The entries that come after some point are at the end of the list. *)
Definition afterwards {A} (after : A -> bool) (l : list A) : Prop :=
  forall i j x y, (i <= j)%nat -> l !! i = Some x -> l !! j = Some y -> after x = true -> after y = true.

Lemma filter_none {A} (P : A -> Prop) `{!forall x, Decision (P x)} l : Forall (fun x => ~ P x) l -> filter P l = [].
Proof. induction 1; [done|]. by rewrite filter_cons_False. Qed.

Lemma filter_everything {A} (P : A -> Prop) `{!forall x, Decision (P x)} l : Forall P l -> filter P l = l.
Proof. induction 1 as [|x l Hx _ IH]; [done|]. by rewrite filter_cons_True, IH. Qed.

Lemma sortSearch_filter {A} (after : A -> bool) (l : list A) :
  afterwards after l ->
  let start := sortSearch (length l) (fun i => match l !! i with Some x => after x | None => false end) in
  (start <= length l)%nat /\ filter (fun x => after x = true) l = drop start l.
Proof.
  intros Hl. cbv zeta. set (f := fun i => match l !! i with Some x => after x | None => false end).
  destruct (searchLoop_spec (length l) f 0 (length l)) as (H1&H2&H3); [lia|lia| |intros h Hh; lia|].
  { unfold f. intros h k Hk. destruct (lookup_lt_is_Some_2 l h) as [x Hx]; [lia|].
    destruct (lookup_lt_is_Some_2 l k) as [y Hy]; [lia|]. rewrite Hx, Hy. apply (Hl h k); [lia|done|done]. }
  change (searchLoop _ _ _ _) with (sortSearch (length l) f) in *. set (start := sortSearch (length l) f) in *.
  split; [lia|]. rewrite <- (take_drop start l) at 1. rewrite filter_app.
  assert (filter (fun x => after x = true) (take start l) = []) as ->.
  { apply filter_none, Forall_lookup. intros i x Hx. apply lookup_take_Some in Hx as [Hx Hi].
    specialize (H2 i Hi). unfold f in H2. rewrite Hx in H2. congruence. }
  simpl. apply filter_everything, Forall_lookup. intros i x Hx. rewrite lookup_drop in Hx.
  specialize (H3 (start + i)%nat). unfold f in H3. rewrite Hx in H3. apply H3. apply lookup_lt_Some in Hx. lia.
Qed.

(** A page of a listing holds the first entries that come after the given one, as
    many as fit, together with their position and the total. *)
Theorem page_correct {A} (after : A -> bool) pageSize (l : list A) :
  afterwards after l -> zlen l < 2 ^ 32 -> 0 <= pageSize < 2 ^ 32 ->
  let rest := filter (fun x => after x = true) l in
  page after pageSize l = Ok (take (Z.to_nat pageSize) rest, (zlen l - zlen rest, zlen l)).
Proof.
  intros Hl Hn Hp. cbv zeta. destruct (sortSearch_filter after l Hl) as [Hs Hr]. rewrite Hr. unfold page.
  set (start := sortSearch _ _) in *. unfold getPaginationInfo, zlen in *. rewrite length_drop.
  assert (u32 (Z.of_nat start) = Z.of_nat start) as -> by (apply Z.mod_small; lia).
  assert (u32 (Z.of_nat (length l)) = Z.of_nat (length l)) as -> by (apply Z.mod_small; lia).
  assert (u32 (Z.of_nat (length l) - Z.of_nat start) = Z.of_nat (length l) - Z.of_nat start) as -> by (apply Z.mod_small; lia).
  set (m := (length l - start)%nat).
  assert (Z.of_nat start = Z.of_nat (length l) - Z.of_nat m) as Es by (unfold m; lia).
  unfold slice. destruct (Z.gtb_spec (Z.of_nat (length l) - Z.of_nat start) pageSize) as [Hgt|Hle].
  - assert (u32 (Z.of_nat start + pageSize) = Z.of_nat start + pageSize) as -> by (apply Z.mod_small; lia).
    rewrite !(proj2 (Z.leb_le _ _)) by lia. simpl. rewrite Nat2Z.id, <- Es. do 3 f_equal. lia.
  - rewrite !(proj2 (Z.leb_le _ _)) by lia. simpl. rewrite !Nat2Z.id, <- Es. f_equal. f_equal.
    rewrite !take_ge; [done|rewrite length_drop; lia..].
Qed.

Lemma page_correct_witness :
  page (fun x => 3 <? x) 2 [1; 3; 5; 7; 9] = Ok ([5; 7], (2, 5)).
Proof.
  rewrite (page_correct (fun x => 3 <? x) 2 [1; 3; 5; 7; 9]).
  - vm_compute. reflexivity.
  - intros i j x y Hij Hx Hy H.
    do 5 (destruct i as [|i]; [do 5 (destruct j as [|j]; [simpl in *; simplify_eq; first [discriminate|reflexivity|lia]|]); discriminate Hy|]);
      discriminate Hx.
  - vm_compute. reflexivity.
  - vm_compute. split; [discriminate|reflexivity].
Defined.

Section properties.
Context {E : Environment}.
Context (cfg : configuration).

(** ** The search for idle workers *)

Lemma searchIdle_Parents s l ps : searchIdle s l = Parents ps -> Forall2 (fun i p => parentInvocation i = Some p) l ps.
Proof.
  revert ps. induction l as [|i l IH]; intros ps; cbn [searchIdle]; [by intros [= <-]|].
  cbv zeta. destruct (match allInvocations s !! i with Some _ => _ | None => _ end); [discriminate|].
  destruct (parentInvocation i) as [p|] eqn:Ep; [|discriminate].
  destruct (searchIdle s l) as [?| |ps'] eqn:Es; [discriminate..|]. intros [= <-]. constructor; [done|by apply IH].
Qed.

Lemma length_parent i p : parentInvocation i = Some p -> (length i.2 = S (length p.2))%nat.
Proof.
  unfold parentInvocation. destruct i as [q keys]. cbn [snd fst]. pose proof (length_removelast keys) as H.
  destruct keys as [|k keys]; [done|]. intros Hp. apply Some_inj in Hp. subst p. cbn [snd]. cbn [length] in H |- *. lia.
Qed.

(** The search of [task.schedule] ends at a root: one level for every key of an
    invocation of the task, and one more, are enough. *)
Lemma searchLevels_enough s l i n m :
  i ∈ l -> (length i.2 < n)%nat -> (length i.2 < m)%nat -> searchLevels n s l = searchLevels m s l.
Proof.
  revert l i m. induction n as [|n IH]; intros l i m Hi Hn Hm; [lia|]. destruct m as [|m]; [lia|].
  cbn [searchLevels]. destruct (searchIdle s l) as [?| |ps] eqn:Es; [done..|].
  apply searchIdle_Parents in Es. apply list_elem_of_lookup_1 in Hi as [k Hk].
  destruct (Forall2_lookup_l _ _ _ _ _ Es Hk) as (p&Hp&Ep). apply length_parent in Ep.
  apply (IH ps p); [by apply (list_elem_of_lookup_2 _ k)|lia..].
Qed.
(** ** [WaitExecution] *)

(** C7: A client that waits for an operation that exists makes the scheduler stop: the
    lock is acquired a second time by the call that holds it.  This is so whenever the
    operation exists after the cleanup that is due has been done, with which the call
    starts; if it does not, the call returns and releases the lock. *)
Theorem WaitExecution_deadlocks s s1 rounds clock name :
  enter cfg (clock (S rounds)) s = (Returns tt, s1) ->
  (WaitExecution cfg (S rounds) clock name s).1 =
    match operationsNameMap s1 !! name with Some _ => Deadlocks | None => Fails (StatusError CodeNotFound) end /\
  (operationsNameMap s1 !! name = None -> locked (WaitExecution cfg (S rounds) clock name s).2 = false).
Proof.
  intros He. assert (locked s1 = true) as Hl by (pose proof (wp_enter cfg s (clock (S rounds))) as H; unfold wp in H; rewrite He in H; apply H).
  unfold WaitExecution, mbind, M_bind. rewrite He.
  cbn [waitExecutionLoop]. unfold mbind, M_bind, gets.
  destruct (operationsNameMap s1 !! name) as [o|] eqn:Eo; [|by split]. split; [|done].
  unfold enter. by rewrite Hl.
Qed.

(** ** Stickiness *)

(** How long a worker sticks to invocations below the top level depends on when it
    started with the one at the top level: the times of the other levels have no
    influence on the task that is chosen, or on the levels that are retained. *)
Theorem stickiness_ignores_deeper_times fuel wk wk' i keys limits retained s :
  head (stickinessStartingTimes wk) = head (stickinessStartingTimes wk') ->
  nextQueuedTask fuel wk i keys limits retained s = nextQueuedTask fuel wk' i keys limits retained s.
Proof.
  intros Hh. assert (stickinessStartingTimes wk !! 0%nat = stickinessStartingTimes wk' !! 0%nat) as H0
    by (destruct (stickinessStartingTimes wk), (stickinessStartingTimes wk'); done).
  revert i keys limits retained s. induction fuel as [|fuel IH]; intros i keys limits retained s; cbn [nextQueuedTask]; [done|].
  unfold mbind, M_bind. destruct (getInvocation i s) as [[v|e| |] s1]; [|done..].
  destruct (queuedOperations v); [|done]. destruct (queuedChildren v) as [|iBest l]; [done|].
  destruct keys as [|key keys], limits as [|limit limits]; try apply IH. cbv zeta.
  destruct (getInvocation _ s1) as [[vS|e| |] s2]; [|done..]. destruct (getInvocation iBest s2) as [[vB|e| |] s3]; [|done..].
  unfold gets, deref. rewrite H0. destruct (isQueued vS).
  - destruct (stickinessStartingTimes wk' !! 0%nat); [|done]. unfold mret, M_ret. case_decide; apply IH.
  - unfold mret, M_ret. case_decide; apply IH.
Qed.
End properties.
