(* ===== verification/SchedulerRuns.v ===== *)
(** * The scheduler: runs

    An environment for the scheduler, runs of it that reach the states which the
    theorems are applied to, and runs that show what happens where the code does not do
    what it means to. *)

From S2P Require Import Prelude References Heap SchedulerState SchedulerLifeCycle Scheduler SchedulerCalls SchedulerWorkers SchedulerAdmin SchedulerFrames SchedulerGoodWorkers SchedulerCorrect SchedulerKeys SchedulerProperties.

(** ** The environment *)

(** Actions are triples of a digest, a public key and invocation keys.  A worker ID has
    one property, a single curve exists, and blocks are encrypted by writing down the
    number of the private key and the public key. *)
#[local] Instance sampleEnvironment : Environment := {|
  Action := bytes * bytes * list bytes;
  Event := Z;
  marshalWorkerID m := default [] (m !! [1]);
  unmarshalWorkerID v := {[ [1] := v ]};
  deduplicationKeyOf a := a.1.1;
  platformPkixPublicKeyOf a := a.1.2;
  uuidGenerator n := [Z.of_nat n];
  Curve := unit;
  PrivateKey := nat;
  parsePKIXPublicKey k := Ok tt;
  generatePrivateKey _ n := Ok (n, [Z.of_nat n]);
  encryptZeros n key := Ok (Z.of_nat n :: take 15 (key ++ replicate 15 0));
  Float := Z;
  floatOf n := n * 1000;
  timesPower n d := n * (1000 + 7 * d);
  floatLt := Z.ltb;
  floatEq := Z.eqb;
  Selector := unit;
  Learner := nat;
  Select _ classes := (zlen classes - 1, 0, 0, 0%nat);
  Succeeded _ _ _ := None;
  FailedLearning _ _ := None;
  RouteAction a := Ok (a.2, tt);
  BackgroundLearningKeys := [[0]];
|}.

Definition sampleConfiguration : configuration := mkConfiguration 1 10 20 1 2 5 1000.

Definition sampleWorkerID : WorkerID := {[ [1] := [7] ]}.

(** The block that proves that a worker has the private key of a public key. *)
Definition sampleZeros (key : bytes) : bytes := 0 :: take 15 (key ++ replicate 15 0).

(** A worker that announces public keys, and proves that it has their private keys. *)
Definition sampleRequest (keys : list bytes) (st : currentState) : SynchronizeRequest :=
  mkSynchronizeRequest (map (fun k => mkRequestPublicKey k (sampleZeros k)) keys) sampleWorkerID 0 st false.

Definition sampleAction (n : Z) : Action := ([n], [5], [[8]; [6]]).

(** ** Running calls *)

Definition finishesb {A} (r : scheduled A * buildQueue) : bool :=
  match r.1 with Returns _ | Fails _ => true | _ => false end.

Lemma finishes_run {A} (m : M A) s : finishesb (m s) = true -> finishes m s (m s).2.
Proof. unfold finishesb, finishes. by destruct (m s) as [[a|e| |] s']. Qed.

Notation sync t keys st := (Synchronize sampleConfiguration t (sampleRequest keys st)).
Notation woken w scq t reason := (resumeQueued sampleConfiguration t w scq [7] sampleWorkerID reason).

(** A worker synchronizes, first without the proof that it has the private key, and
    waits for a task. *)
Definition created : buildQueue := NewInMemoryBuildQueue sampleConfiguration 0.
Definition announced : buildQueue :=
  (Synchronize sampleConfiguration 1
     (mkSynchronizeRequest [mkRequestPublicKey [5] []] sampleWorkerID 0 StateIdle false) created).2.
Definition waiting : buildQueue := (sync 1 [[5]] StateIdle announced).2.

(** Two clients execute an action, which the worker is given, and one executes another
    one, which is queued. *)
Definition executing : buildQueue := (Execute sampleConfiguration 2 (Some (sampleAction 9)) 0 waiting).2.
Definition deduplicated : buildQueue := (Execute sampleConfiguration 2 (Some (sampleAction 9)) 0 executing).2.
Definition queued : buildQueue := (Execute sampleConfiguration 2 (Some (sampleAction 8)) 0 deduplicated).2.
Definition started : buildQueue := (woken 4 2 2 WokenUp queued).2.

(** The worker completes the first action and is given the second.  The clients of the
    first one stop to wait. *)
Definition completed : buildQueue :=
  (sync 3 [[5]] (StateCompleted [6] (mkCompletion (Some 42) CompletionSucceeded 1)) started).2.
Definition stopped : buildQueue := (critical sampleConfiguration 4 (waitExecutionEnd sampleConfiguration 10) completed).2.
Definition unwatched : buildQueue := (critical sampleConfiguration 4 (waitExecutionEnd sampleConfiguration 10) stopped).2.

Ltac run_step x c := unfold x; eapply c, finishes_run; vm_compute; reflexivity.

Lemma step_announced : step sampleConfiguration ∅ created announced.
Proof. run_step announced StepSynchronize. Qed.

Lemma step_waiting : step sampleConfiguration ∅ announced waiting.
Proof. run_step waiting StepSynchronize. Qed.

Lemma step_executing : step sampleConfiguration ∅ waiting executing.
Proof. run_step executing StepExecute. Qed.

Lemma step_deduplicated : step sampleConfiguration ∅ executing deduplicated.
Proof. run_step deduplicated StepExecute. Qed.

Lemma step_queued : step sampleConfiguration ∅ deduplicated queued.
Proof. run_step queued StepExecute. Qed.

Lemma step_started : step sampleConfiguration ∅ queued started.
Proof. run_step started StepResumeQueued. Qed.

Lemma step_completed : step sampleConfiguration ∅ started completed.
Proof. run_step completed StepSynchronize. Qed.

Lemma step_stopped : step sampleConfiguration {[ 10%nat ]} completed stopped.
Proof. run_step stopped StepWaitEnd. Qed.

Lemma step_unwatched : step sampleConfiguration {[ 10%nat ]} stopped unwatched.
Proof. run_step unwatched StepWaitEnd. Qed.

Lemma reachable_queued : reachable sampleConfiguration queued.
Proof.
  eapply ReachStep, step_queued. eapply ReachStep, step_deduplicated. eapply ReachStep, step_executing.
  eapply ReachStep, step_waiting. eapply ReachStep, step_announced. apply ReachNew.
Qed.

Lemma reachable_completed : reachable sampleConfiguration completed.
Proof. eapply ReachStep, step_completed. eapply ReachStep, step_started. apply reachable_queued. Qed.

Lemma reachable_unwatched : reachable sampleConfiguration unwatched.
Proof. eapply ReachStep, step_unwatched. eapply ReachStep, step_stopped. apply reachable_completed. Qed.

(** ** Where the theorems apply *)

Lemma scheduler_lifecycle_witness : reachable sampleConfiguration unwatched /\ life ∅ ∅ ∅ ∅ (viewOf unwatched).
Proof. split; [apply reachable_unwatched|apply (scheduler_lifecycle sampleConfiguration), reachable_unwatched]. Defined.

(** What is found in a store, from what it has been computed to be. *)
Lemma found {A B} (f : A -> B) (m : option A) y : f <$> m = Some y -> exists x, m = Some x /\ f x = y.
Proof. intros (x&Hx&Hm)%fmap_Some. by exists x. Qed.

Definition taskFacts (t : task) : option nat * bytes * option nat := (initialSizeClassLearner t, deduplicationKey t, currentWorker t).

Lemma queued_first : exists tk, allTasks queued !! 7%nat = Some tk /\ taskFacts tk = (Some 0%nat, [9], Some 4%nat).
Proof. apply found. vm_compute. reflexivity. Qed.

Lemma queued_second : exists tk, allTasks queued !! 12%nat = Some tk /\
  (taskFacts tk, operations tk !! (2%nat, [[8]; [6]])) = ((Some 0%nat, [8], None), Some 15%nat).
Proof. apply found. vm_compute. reflexivity. Qed.

Lemma completed_first : exists tk, allTasks completed !! 7%nat = Some tk /\
  (initialSizeClassLearner tk, lastExecutionEvent tk) = (None, Some 42).
Proof. apply found. vm_compute. reflexivity. Qed.

Lemma unwatched_operation : exists op, allOperations unwatched !! 10%nat = Some op /\
  (operationTask op, operationInvocation op, waiters op, mayExistWithoutWaiters op) = (7%nat, (2%nat, [[8]; [6]]), 0, false).
Proof. apply found. vm_compute. reflexivity. Qed.

Lemma unwatched_task : exists tk, allTasks unwatched !! 7%nat = Some tk /\ operations tk !! (2%nat, [[8]; [6]]) = Some 10%nat.
Proof. apply found. vm_compute. reflexivity. Qed.

(** Of the first task there is one, in spite of the two calls. *)
Lemma scheduler_deduplicates_witness : inFlightDeduplicationMap queued !! [9] = Some 7%nat.
Proof.
  destruct queued_first as (tk&Ht&F). injection F as F1 F2 F3. rewrite <- F2.
  apply (scheduler_deduplicates sampleConfiguration queued 7 tk reachable_queued Ht).
  - rewrite F1. discriminate.
  - rewrite F2. discriminate.
Defined.

(** The first task is executed, and the second one is in a queue. *)
Lemma scheduler_loses_no_task_witness :
  (exists wk, allWorkers queued !! 4%nat = Some wk /\ currentTask wk = Some 7%nat) /\
  (exists v, allInvocations queued !! (2%nat, [[8]; [6]]) = Some v /\ 15%nat ∈ queuedOperations v).
Proof.
  split.
  - destruct queued_first as (tk&Ht&F). injection F as F1 F2 F3.
    destruct (scheduler_loses_no_task sampleConfiguration queued 7 tk reachable_queued Ht) as [_ H]; [rewrite F1; discriminate|].
    rewrite F3 in H. exact H.
  - destruct queued_second as (tk&Ht&F). injection F as F1 F2 F3 F4.
    destruct (scheduler_loses_no_task sampleConfiguration queued 12 tk reachable_queued Ht) as [_ H]; [rewrite F1; discriminate|].
    rewrite F3 in H. destruct (H _ _ F4) as (v&Hv&Hq&_). exists v. split; [exact Hv|exact Hq].
Defined.



(** ** Verification of public keys *)

(** Private keys are replaced after two units of time.  A block is encrypted by writing
    down the number of the private key. *)
Definition rotatingConfiguration : configuration := mkConfiguration 1 10 20 1 2 5 2.
Definition sampleBlock (n : Z) (key : bytes) : bytes := n :: take 15 (key ++ replicate 15 0).

Definition presenting (zeros : bytes) : SynchronizeRequest :=
  mkSynchronizeRequest [mkRequestPublicKey [5] zeros] sampleWorkerID 0 StateIdle false.

Notation present t zeros := (Synchronize rotatingConfiguration t (presenting zeros)).

(** A worker is asked to verify its key, does so, and finds nothing to do. *)
Definition unknown : buildQueue := NewInMemoryBuildQueue rotatingConfiguration 0.
Definition asked : buildQueue := (present 1 [] unknown).2.
Definition passed : buildQueue := (present 1 (sampleBlock 0 [5]) asked).2.
Definition timedOut : buildQueue := (resumeQueued rotatingConfiguration 2 4 2 [7] sampleWorkerID TimedOut passed).2.

Lemma step_asked : step rotatingConfiguration ∅ unknown asked.
Proof. run_step asked StepSynchronize. Qed.

Lemma step_passed : step rotatingConfiguration ∅ asked passed.
Proof. run_step passed StepSynchronize. Qed.

Lemma step_timedOut : step rotatingConfiguration ∅ passed timedOut.
Proof. run_step timedOut StepResumeQueued. Qed.

Lemma reachable_timedOut : reachable rotatingConfiguration timedOut.
Proof. eapply ReachStep, step_timedOut. eapply ReachStep, step_passed. eapply ReachStep, step_asked. apply ReachNew. Qed.

Definition blocksOf (s : buildQueue) : list (list bytes) :=
  map (fun pq => map verificationZeros (publicKeys pq.2)) (map_to_list (allPlatformQueues s)).


(** ** Clients that wait *)

(** The client gives the name of the operation that it executes, after some time in which
    the worker may have become stale. *)
Lemma WaitExecution_deadlocks_witness :
  (WaitExecution sampleConfiguration 1 (fun _ => 7) [9] executing).1 = Deadlocks /\
  (WaitExecution sampleConfiguration 1 (fun _ => 7) [2] executing).1 = Fails (StatusError CodeNotFound) /\
  locked (WaitExecution sampleConfiguration 1 (fun _ => 7) [2] executing).2 = false.
Proof.
  set (entered := enter sampleConfiguration 7 executing).
  assert (entered = (Returns tt, entered.2)) as He.
  { assert (entered.1 = Returns tt) as <- by (vm_compute; reflexivity). apply surjective_pairing. }
  assert (operationsNameMap entered.2 !! [9] = Some 10%nat) as H9 by (vm_compute; reflexivity).
  assert (operationsNameMap entered.2 !! [2] = None) as H2 by (vm_compute; reflexivity).
  split; [|split].
  - destruct (WaitExecution_deadlocks sampleConfiguration executing entered.2 0 (fun _ => 7) [9] He) as [H _]. rewrite H, H9. reflexivity.
  - destruct (WaitExecution_deadlocks sampleConfiguration executing entered.2 0 (fun _ => 7) [2] He) as [H _]. rewrite H, H2. reflexivity.
  - apply (WaitExecution_deadlocks sampleConfiguration executing entered.2 0 (fun _ => 7) [2] He). exact H2.
Defined.

Lemma stickiness_ignores_deeper_times_witness :
  let wk times := mkWorker [7] None false (Some (2%nat, [[8]; [6]])) None times in
  nextQueuedTask 9 (wk [2; 2]) (2%nat, []) [[8]; [6]] [5; 5] 0 queued =
  nextQueuedTask 9 (wk [2; 100]) (2%nat, []) [[8]; [6]] [5; 5] 0 queued.
Proof. intros wk. apply stickiness_ignores_deeper_times. reflexivity. Defined.

(** ** What goes wrong *)

(** The keys of all platform queues. *)
Definition keysOf (s : buildQueue) : list (list bytes) := map (fun pq => map pkixPublicKey (publicKeys pq.2)) (map_to_list (allPlatformQueues s)).

(** A worker with two public keys registers, and synchronizes again after nothing has
    been found for it to do. *)
Definition twoAnnounced : buildQueue :=
  (Synchronize sampleConfiguration 1
     (mkSynchronizeRequest [mkRequestPublicKey [5] []; mkRequestPublicKey [6] []] sampleWorkerID 0 StateIdle false) created).2.
Definition twoWaiting : buildQueue := (sync 1 [[5]; [6]] StateIdle twoAnnounced).2.
Definition twoIdle : buildQueue := (woken 4 2 2 TimedOut twoWaiting).2.
Definition twoAgain : buildQueue := (sync 3 [[5]; [6]] StateIdle twoIdle).2.

(** The search for a public key among those of the platform queue stops too early, so
    that the second one is added again. *)
Lemma Synchronize_duplicates_public_keys : keysOf twoWaiting = [[[5]; [6]]] /\ keysOf twoAgain = [[[6]; [5]; [6]]].
Proof. vm_compute. split; reflexivity. Qed.

(** The worker times out and stays away for long. *)
Definition idle : buildQueue := (woken 4 2 5 TimedOut waiting).2.

(** The platform queue remains when its last size class queue has been removed: the
    worker that returns, and a client, make the scheduler panic. *)
Lemma scheduler_panics_after_removal :
  finishesb (woken 4 2 5 TimedOut waiting) = true /\
  (sync 100 [[5]] StateIdle idle).1 = Panics /\
  (Execute sampleConfiguration 100 (Some (sampleAction 9)) 0 idle).1 = Panics.
Proof. vm_compute. repeat split; reflexivity. Qed.

(** The worker is terminated as it executes the first action, and then reports an event
    of its execution. *)
Definition terminated := TerminateWorkers sampleConfiguration 3 ∅ started.
Definition progress : buildQueue := (sync 3 [[5]] (StateExecuting [6] (Some 41)) terminated.2).2.

Definition stageOf (s : buildQueue) (t : nat) : option stage := getStage <$> allTasks s !! t.

(** The wait for the termination of workers ends, and the action is still executed. *)
Lemma TerminateWorkers_returns_early :
  match terminated.1 with
  | Returns channels => channels <> [] /\ terminationDone channels terminated.2 = false /\ terminationDone channels progress = true
  | _ => False
  end /\ stageOf progress 7 = Some Executing.
Proof. vm_compute. repeat split; try reflexivity. discriminate. Qed.
