(* ===== verification/Text.v ===== *)
(** * Strings and regular expressions

    What the code uses of the Go packages [strings] and [regexp]: searching for bytes
    in a string, and testing whether all of a string matches a regular expression.

    Strings are lists of bytes.  The regular expressions that the code uses only
    distinguish ASCII characters, and treat all others alike, so that matching bytes
    is matching characters: [Chars] is a set of bytes.  [matchString] computes with
    derivatives, and [matchString_lang] shows that it decides the language [lang].
    The analyses ([onlyb], [firstb], [lastb]) decide facts about all strings that match. *)

From Stdlib Require Import String Ascii.
From S2P Require Import Prelude.
Export String.StringSyntax.
Open Scope list_scope.

(** ** Literals *)

Definition str (s : string) : list Z := map (fun a => Z.of_N (N_of_ascii a)) (list_ascii_of_string s).
Arguments str s%_string.

(** ** Searching *)

(** [strings.IndexByte] *)
Fixpoint IndexByte (l : list Z) (c : Z) : option nat :=
  match l with
  | [] => None
  | x :: l => if x =? c then Some O else S <$> IndexByte l c
  end.

(** [strings.LastIndexByte] *)
Fixpoint LastIndexByte (l : list Z) (c : Z) : option nat :=
  match l with
  | [] => None
  | x :: l =>
      match LastIndexByte l c with
      | Some k => Some (S k)
      | None => if x =? c then Some O else None
      end
  end.

(** [strings.IndexAny], for ASCII characters. *)
Fixpoint IndexAny (l chars : list Z) : option nat :=
  match l with
  | [] => None
  | x :: l => if existsb (Z.eqb x) chars then Some O else S <$> IndexAny l chars
  end.

(** What Go returns for a position. *)
Definition position (i : option nat) : Z := match i with Some i => Z.of_nat i | None => -1 end.

(** [strings.HasPrefix] and [strings.HasSuffix] *)
Definition HasPrefix (l prefix : list Z) : bool := bool_decide (take (length prefix) l = prefix).
Definition HasSuffix (l suffix : list Z) : bool :=
  (length suffix <=? length l)%nat && bool_decide (drop (length l - length suffix) l = suffix).

(** [strings.CutSuffix] and [strings.TrimSuffix] *)
Definition CutSuffix (l suffix : list Z) : list Z * bool :=
  if HasSuffix l suffix then (take (length l - length suffix) l, true) else (l, false).
Definition TrimSuffix (l suffix : list Z) : list Z := (CutSuffix l suffix).1.

(** [strings.TrimLeft] of one character. *)
Fixpoint TrimLeft (l : list Z) (c : Z) : list Z :=
  match l with
  | x :: l' => if x =? c then TrimLeft l' c else l
  | [] => []
  end.

Lemma IndexByte_app_here a b c : c ∉ a -> IndexByte (a ++ c :: b) c = Some (length a).
Proof.
  induction a as [|x a IH]; simpl; intros H; [by rewrite Z.eqb_refl|].
  destruct (Z.eqb_spec x c) as [->|Hne]; [set_solver|]. rewrite IH; [done|set_solver].
Qed.

Lemma IndexByte_None l c : IndexByte l c = None <-> c ∉ l.
Proof.
  induction l as [|x l IH]; simpl; [split; [set_solver|done]|].
  destruct (Z.eqb_spec x c) as [->|Hne]; [split; [done|set_solver]|].
  rewrite fmap_None, IH. set_solver.
Qed.

Lemma IndexByte_Some l c i : IndexByte l c = Some i -> exists a b, l = a ++ c :: b /\ c ∉ a /\ length a = i.
Proof.
  revert i. induction l as [|x l IH]; simpl; intros i H; [done|].
  destruct (Z.eqb_spec x c) as [->|Hne]; [injection H as <-; exists [], l; set_solver|].
  destruct (IndexByte l c) as [k|]; [|done]. injection H as <-. destruct (IH k eq_refl) as (a&b&->&Hn&<-).
  exists (x :: a), b. split; [done|]. split; [set_solver|done].
Qed.

Lemma LastIndexByte_None l c : LastIndexByte l c = None <-> c ∉ l.
Proof.
  induction l as [|x l IH]; simpl; [split; [set_solver|done]|].
  destruct (LastIndexByte l c) as [k|]; [split; [done|]; intros H; exfalso; set_solver|].
  destruct (Z.eqb_spec x c) as [->|Hne]; [split; [done|set_solver]|]. set_solver.
Qed.

Lemma LastIndexByte_app_here a b c : c ∉ b -> LastIndexByte (a ++ c :: b) c = Some (length a).
Proof.
  intros Hb. induction a as [|x a IH]; simpl; [|by rewrite IH].
  by rewrite (proj2 (LastIndexByte_None b c)), Z.eqb_refl.
Qed.

Lemma LastIndexByte_Some l c i : LastIndexByte l c = Some i -> exists a b, l = a ++ c :: b /\ c ∉ b /\ length a = i.
Proof.
  revert i. induction l as [|x l IH]; simpl; intros i H; [done|].
  destruct (LastIndexByte l c) as [k|] eqn:Ek.
  - injection H as <-. destruct (IH k eq_refl) as (a&b&->&Hn&<-). by exists (x :: a), b.
  - destruct (Z.eqb_spec x c) as [->|Hne]; [|done]. injection H as <-. exists [], l.
    split; [done|]. split; [by apply LastIndexByte_None|done].
Qed.

Lemma HasSuffix_app a b : HasSuffix (a ++ b) b = true.
Proof.
  unfold HasSuffix. rewrite length_app. replace (length a + length b - length b)%nat with (length a) by lia.
  rewrite drop_app_length, bool_decide_true by done. rewrite andb_true_r. apply Nat.leb_le. lia.
Qed.

Lemma HasSuffix_spec l b : HasSuffix l b = true <-> exists a, l = a ++ b.
Proof.
  split; [|by intros [a ->]; apply HasSuffix_app]. unfold HasSuffix. intros [Hl H]%andb_true_iff.
  apply bool_decide_eq_true_1 in H. exists (take (length l - length b) l). rewrite <- H at 2. by rewrite take_drop.
Qed.

Lemma CutSuffix_app a b : CutSuffix (a ++ b) b = (a, true).
Proof.
  unfold CutSuffix. rewrite HasSuffix_app, length_app. replace (length a + length b - length b)%nat with (length a) by lia.
  by rewrite take_app_length.
Qed.

Lemma CutSuffix_no l b : HasSuffix l b = false -> CutSuffix l b = (l, false).
Proof. unfold CutSuffix. by intros ->. Qed.

Lemma HasPrefix_app a b : HasPrefix (a ++ b) a = true.
Proof. unfold HasPrefix. by rewrite take_app_length, bool_decide_true. Qed.

Lemma TrimLeft_id l c : head l <> Some c -> TrimLeft l c = l.
Proof. destruct l as [|x l]; simpl; [done|]. intros H. destruct (Z.eqb_spec x c) as [->|]; [done|done]. Qed.

(** ** Regular expressions *)

Inductive regexp :=
  | Never
  | Eps
  | Chars (p : Z -> bool)
  | Cat (r s : regexp)
  | Alt (r s : regexp)
  | Star (r : regexp).

(** A literal, [r+] and [r?]. *)
Definition Lit (l : list Z) : regexp := foldr (fun c r => Cat (Chars (Z.eqb c)) r) Eps l.
Definition Plus (r : regexp) : regexp := Cat r (Star r).
Definition Opt (r : regexp) : regexp := Alt r Eps.

Definition isByte (c : Z) : bool := (0 <=? c) && (c <? 256).

(** The strings that match. *)
Fixpoint lang (r : regexp) (l : list Z) : Prop :=
  match r with
  | Never => False
  | Eps => l = []
  | Chars p => exists c, l = [c] /\ isByte c = true /\ p c = true
  | Cat r s => exists a b, l = a ++ b /\ lang r a /\ lang s b
  | Alt r s => lang r l \/ lang s l
  | Star r => exists ls, l = concat ls /\ Forall (lang r) ls
  end.

Fixpoint nullable (r : regexp) : bool :=
  match r with
  | Never | Chars _ => false
  | Eps | Star _ => true
  | Cat r s => nullable r && nullable s
  | Alt r s => nullable r || nullable s
  end.

(** Constructors that simplify. *)
Definition cat (r s : regexp) : regexp :=
  match r, s with Never, _ | _, Never => Never | Eps, r | r, Eps => r | _, _ => Cat r s end.
Definition alt (r s : regexp) : regexp :=
  match r, s with Never, r | r, Never => r | _, _ => Alt r s end.

(** What has to follow a byte. *)
Fixpoint derivative (c : Z) (r : regexp) : regexp :=
  match r with
  | Never | Eps => Never
  | Chars p => if isByte c && p c then Eps else Never
  | Cat r s =>
      if nullable r then alt (cat (derivative c r) s) (derivative c s) else cat (derivative c r) s
  | Alt r s => alt (derivative c r) (derivative c s)
  | Star r => cat (derivative c r) (Star r)
  end.

(** [MatchString] of [regexp.MustCompile("^" + r + "$")] *)
Fixpoint matchString (r : regexp) (l : list Z) : bool :=
  match l with
  | [] => nullable r
  | c :: l => matchString (derivative c r) l
  end.

Lemma nullable_lang r : nullable r = true <-> lang r [].
Proof.
  induction r as [| |p|r IHr s IHs|r IHr s IHs|r IHr]; simpl.
  - done.
  - done.
  - split; [done|]. by intros (c&H&_).
  - rewrite andb_true_iff, IHr, IHs. split; [intros [??]; by exists [], []|].
    intros (a&b&H&Ha&Hb). symmetry in H. apply app_eq_nil in H as [-> ->]. done.
  - rewrite orb_true_iff, IHr, IHs. done.
  - split; [|done]. intros _. exists []. split; [done|constructor].
Qed.

Lemma lang_cat r s l : lang (cat r s) l <-> lang (Cat r s) l.
Proof.
  assert (forall s, lang s l <-> lang (Cat Eps s) l) as He.
  { intros s'. simpl. split; [intros H; by exists [], l|]. by intros (a&b&->&->&H). }
  assert (forall s, lang s l <-> lang (Cat s Eps) l) as He'.
  { intros s'. simpl. split; [intros H; exists l, []; by rewrite app_nil_r|]. intros (a&b&->&H&->). by rewrite app_nil_r. }
  assert (forall s, False <-> lang (Cat Never s) l) as Hn by (intros s'; simpl; split; [done|]; by intros (a&b&_&H&_)).
  assert (forall s, False <-> lang (Cat s Never) l) as Hn' by (intros s'; simpl; split; [done|]; by intros (a&b&_&_&H)).
  destruct r, s; unfold cat; first [done|apply Hn|apply Hn'|apply He|apply He'].
Qed.

Lemma lang_alt r s l : lang (alt r s) l <-> lang (Alt r s) l.
Proof. destruct r, s; simpl; try tauto. Qed.

Lemma lang_star_cons r c l : lang (Star r) (c :: l) <-> exists a b, l = a ++ b /\ lang r (c :: a) /\ lang (Star r) b.
Proof.
  simpl. split.
  - intros (ls&E1&Hls). induction Hls as [|x ls Hx Hls IH]; simpl in E1; [done|].
    destruct x as [|c' x]; [by apply IH|]. injection E1 as <- ->. exists x, (concat ls). split; [done|]. split; [done|]. by exists ls.
  - intros (a&b&->&Ha&ls&->&Hls). exists ((c :: a) :: ls). split; [done|by constructor].
Qed.

Lemma derivative_lang c r l : lang (derivative c r) l <-> lang r (c :: l).
Proof.
  revert l. induction r as [| |p|r IHr s IHs|r IHr s IHs|r IHr]; intros l; cbn [derivative].
  - done.
  - done.
  - simpl. destruct (isByte c && p c) eqn:Ec; simpl.
    + apply andb_true_iff in Ec as [??]. split; [intros ->; by exists c|]. by intros (c'&[= <- ->]&_).
    + split; [done|]. intros (c'&[= <- ->]&H1&H2). by rewrite H1, H2 in Ec.
  - assert (lang (Cat (derivative c r) s) l <-> exists a b, l = a ++ b /\ lang r (c :: a) /\ lang s b) as H1.
    { simpl. split; intros (a&b&->&Ha&Hb); exists a, b; [by rewrite <- IHr|by rewrite IHr]. }
    assert (lang (Cat r s) (c :: l) <-> (exists a b, l = a ++ b /\ lang r (c :: a) /\ lang s b) \/ (nullable r = true /\ lang s (c :: l))) as H2.
    { simpl. split.
      - intros (a&b&E1&Ha&Hb). destruct a as [|c' a]; [right; simpl in E1; subst; by rewrite nullable_lang|].
        injection E1 as <- ->. left. by exists a, b.
      - intros [(a&b&->&Ha&Hb)|[Hn Hs]]; [by exists (c :: a), b|]. apply nullable_lang in Hn. by exists [], (c :: l). }
    rewrite H2. destruct (nullable r).
    + rewrite lang_alt. cbn [lang]. rewrite lang_cat, H1, IHs. naive_solver.
    + rewrite lang_cat, H1. naive_solver.
  - rewrite lang_alt. simpl. by rewrite IHr, IHs.
  - rewrite lang_cat, lang_star_cons. simpl. split; intros (a&b&->&Ha&Hb); exists a, b; [by rewrite <- IHr|by rewrite IHr].
Qed.

(** Matching decides the language. *)
Lemma matchString_lang r l : matchString r l = true <-> lang r l.
Proof.
  revert r. induction l as [|c l IH]; intros r; simpl; [apply nullable_lang|]. rewrite IH. apply derivative_lang.
Qed.

Lemma lang_Lit l k : bytes_ok l -> lang (Lit l) k <-> k = l.
Proof.
  intros Hl. revert k. induction Hl as [|c l Hc Hl IH]; intros k; [done|]. cbn [Lit foldr lang]. split.
  - intros (a&b&->&(c'&->&_&E1)&Hb). apply Z.eqb_eq in E1 as <-. apply IH in Hb as ->. done.
  - intros ->. exists [c], l. split; [done|]. split; [|by apply IH]. exists c. split; [done|].
    unfold isByte, is_u8 in *. rewrite Z.eqb_refl. split; [|done]. apply andb_true_iff. split; [apply Z.leb_le|apply Z.ltb_lt]; lia.
Qed.

(** ** Analyses *)

Definition allBytes : list Z := seqZ 0 256.

Lemma forallb_bytes (p : Z -> bool) c : forallb p allBytes = true -> isByte c = true -> p c = true.
Proof.
  intros Hp Hc. rewrite forallb_forall in Hp. apply Hp. apply list_elem_of_In. unfold allBytes. apply elem_of_seqZ.
  unfold isByte in Hc. apply andb_true_iff in Hc as [H1 H2]. lia.
Qed.

(** All bytes of strings that match satisfy [p]. *)
Fixpoint onlyb (p : Z -> bool) (r : regexp) : bool :=
  match r with
  | Never | Eps => true
  | Chars q => forallb (fun c => implb (q c) (p c)) allBytes
  | Cat r s | Alt r s => onlyb p r && onlyb p s
  | Star r => onlyb p r
  end.

Lemma onlyb_lang p r l : onlyb p r = true -> lang r l -> Forall (fun c => p c = true) l.
Proof.
  revert l. induction r as [| |q|r IHr s IHs|r IHr s IHs|r IHr]; cbn [onlyb lang]; intros l Ho Hl.
  - done.
  - subst. constructor.
  - destruct Hl as (c&->&Hb&Hq). constructor; [|constructor].
    pose proof (forallb_bytes (fun c => implb (q c) (p c)) c Ho Hb) as H. cbv beta in H. by rewrite Hq in H.
  - apply andb_true_iff in Ho as [??]. destruct Hl as (a&b&->&?&?). apply Forall_app. auto.
  - apply andb_true_iff in Ho as [??]. destruct Hl; auto.
  - destruct Hl as (ls&->&Hls). apply Forall_concat. eapply Forall_impl; [exact Hls|]. auto.
Qed.

(** The first byte of strings that match, if they have one, satisfies [p]. *)
Fixpoint firstb (p : Z -> bool) (r : regexp) : bool :=
  match r with
  | Never | Eps => true
  | Chars q => forallb (fun c => implb (q c) (p c)) allBytes
  | Cat r s => firstb p r && (negb (nullable r) || firstb p s)
  | Alt r s => firstb p r && firstb p s
  | Star r => firstb p r
  end.

Lemma firstb_lang p r c l : firstb p r = true -> lang r (c :: l) -> p c = true.
Proof.
  revert l. induction r as [| |q|r IHr s IHs|r IHr s IHs|r IHr]; cbn [firstb]; intros l Ho Hl.
  - done.
  - done.
  - destruct Hl as (c'&[= <- ->]&Hb&Hq). pose proof (forallb_bytes (fun c => implb (q c) (p c)) c Ho Hb) as H. cbv beta in H. by rewrite Hq in H.
  - apply andb_true_iff in Ho as [H1 H2]. destruct Hl as (a&b&E1&Ha&Hb). destruct a as [|c' a].
    + apply nullable_lang in Ha. rewrite Ha in H2. simpl in E1. subst b. by apply (IHs l).
    + injection E1 as <- ->. by apply (IHr a).
  - apply andb_true_iff in Ho as [??]. destruct Hl; [by apply (IHr l)|by apply (IHs l)].
  - apply lang_star_cons in Hl as (a&b&->&Ha&_). by apply (IHr a).
Qed.

(** The same of the last byte. *)
Fixpoint lastb (p : Z -> bool) (r : regexp) : bool :=
  match r with
  | Never | Eps => true
  | Chars q => forallb (fun c => implb (q c) (p c)) allBytes
  | Cat r s => lastb p s && (negb (nullable s) || lastb p r)
  | Alt r s => lastb p r && lastb p s
  | Star r => lastb p r
  end.

Lemma lastb_lang p r l c : lastb p r = true -> lang r (l ++ [c]) -> p c = true.
Proof.
  revert l. induction r as [| |q|r IHr s IHs|r IHr s IHs|r IHr]; cbn [lastb]; intros l Ho Hl.
  - done.
  - by destruct l.
  - destruct Hl as (c'&E1&Hb&Hq). destruct l as [|x l]; [|by destruct l]. injection E1 as <-.
    pose proof (forallb_bytes (fun c => implb (q c) (p c)) c Ho Hb) as H. cbv beta in H. by rewrite Hq in H.
  - apply andb_true_iff in Ho as [H1 H2]. destruct Hl as (a&b&E1&Ha&Hb). destruct b as [|x b] using rev_ind.
    + apply nullable_lang in Hb. rewrite Hb in H2. rewrite app_nil_r in E1. subst a. by apply (IHr l).
    + rewrite app_assoc in E1. apply app_inj_tail in E1 as [-> ->]. by apply (IHs b).
  - apply andb_true_iff in Ho as [??]. destruct Hl; [by apply (IHr l)|by apply (IHs l)].
  - destruct Hl as (ls&E1&Hls). revert E1. induction ls as [|x ls IHl] using rev_ind; intros E1; [by destruct l|].
    apply Forall_app in Hls as [Hls Hx]. apply Forall_cons_1 in Hx as [Hx _].
    rewrite concat_app in E1. simpl in E1. rewrite app_nil_r in E1. destruct x as [|y x] using rev_ind.
    + rewrite app_nil_r in E1. by apply IHl.
    + rewrite app_assoc in E1. apply app_inj_tail in E1 as [-> ->]. by apply (IHr x).
Qed.

(** A byte that no string of the language has. *)
Definition without (c : Z) (r : regexp) : bool := onlyb (fun x => negb (x =? c)) r.

Lemma without_lang c r l : without c r = true -> lang r l -> c ∉ l.
Proof.
  intros Hw Hl Hin. pose proof (onlyb_lang _ _ _ Hw Hl) as H. rewrite Forall_forall in H. specialize (H c Hin).
  by rewrite Z.eqb_refl in H.
Qed.

Lemma not_nullable_lang r l : nullable r = false -> lang r l -> l <> [].
Proof. intros Hn Hl ->. apply nullable_lang in Hl. congruence. Qed.

Lemma lang_bytes_ok r l : lang r l -> bytes_ok l.
Proof.
  revert l. induction r as [| |q|r IHr s IHs|r IHr s IHs|r IHr]; simpl; intros l Hl.
  - done.
  - subst. constructor.
  - destruct Hl as (c&->&Hb&_). constructor; [|constructor]. unfold isByte in Hb. unfold is_u8. lia.
  - destruct Hl as (a&b&->&?&?). apply Forall_app. split; [by apply IHr|by apply IHs].
  - destruct Hl; [by apply IHr|by apply IHs].
  - destruct Hl as (ls&->&Hls). apply Forall_concat. eapply Forall_impl; [exact Hls|]. auto.
Qed.
