(* ===== verification/Labels.v ===== *)
(** * Labels, target patterns and names of repositories

    [pkg/label]: strings that name modules, repositories, packages, targets and
    Starlark identifiers.  Every type of the package is a record around a string; a
    value is made by a function that matches a regular expression, and functions
    that take strings apart rely on it.  [LabelProofs] shows what they return. *)

From S2P Require Import Prelude Text.

Abbreviation bytes := (list Z).

(** ** Character classes *)

Definition between (lo hi c : Z) : bool := (lo <=? c) && (c <=? hi).
Definition isLower (c : Z) : bool := between 97 122 c.
Definition isUpper (c : Z) : bool := between 65 90 c.
Definition isDigit (c : Z) : bool := between 48 57 c.
Definition isAlpha (c : Z) : bool := isLower c || isUpper c.
Definition isAlnum (c : Z) : bool := isAlpha c || isDigit c.
(** [\w] *)
Definition isWord (c : Z) : bool := isAlnum c || (c =? 95).
(** [[:cntrl:]] *)
Definition isCntrl (c : Z) : bool := (c <? 32) || (c =? 127).

(** ** Types *)

Record Module_ := mkModule { moduleValue : bytes }.
Record ModuleVersion := mkModuleVersion { moduleVersionValue : bytes }.
Record ModuleInstance := mkModuleInstance { moduleInstanceValue : bytes }.
Record ModuleExtension := mkModuleExtension { moduleExtensionValue : bytes }.
Record StarlarkIdentifier := mkStarlarkIdentifier { starlarkIdentifierValue : bytes }.
Record ApparentRepo := mkApparentRepo { apparentRepoValue : bytes }.
Record CanonicalRepo := mkCanonicalRepo { canonicalRepoValue : bytes }.
Record CanonicalPackage := mkCanonicalPackage { canonicalPackageValue : bytes }.
Record TargetName := mkTargetName { targetNameValue : bytes }.
Record CanonicalLabel := mkCanonicalLabel { canonicalLabelValue : bytes }.
Record ApparentLabel := mkApparentLabel { apparentLabelValue : bytes }.
Record ResolvedLabel := mkResolvedLabel { resolvedLabelValue : bytes }.
Record CanonicalTargetPattern := mkCanonicalTargetPattern { canonicalTargetPatternValue : bytes }.
Record ApparentTargetPattern := mkApparentTargetPattern { apparentTargetPatternValue : bytes }.
Record CanonicalStarlarkIdentifier := mkCanonicalStarlarkIdentifier { canonicalStarlarkIdentifierValue : bytes }.

(** ** Patterns *)

Definition validModulePattern : regexp :=
  Cat (Chars isLower)
    (Opt (Cat (Star (Chars (fun c => isLower c || isDigit c || (c =? 46) || (c =? 95) || (c =? 45))))
              (Chars (fun c => isLower c || isDigit c)))).

Definition numericIdentifierPattern : regexp :=
  Alt (Lit (str "0")) (Cat (Chars (between 49 57)) (Star (Chars isDigit))).

Definition versionIdentifierPattern : regexp :=
  Alt numericIdentifierPattern
    (Cat (Star (Chars isDigit)) (Cat (Chars isAlpha) (Star (Chars isAlnum)))).

Definition prereleaseIdentifierPattern : regexp :=
  Alt numericIdentifierPattern
    (Cat (Star (Chars isDigit)) (Cat (Chars (fun c => isAlpha c || (c =? 45))) (Star (Chars (fun c => isAlnum c || (c =? 45)))))).

Definition buildIdentifierPattern : regexp := Plus (Chars (fun c => isAlnum c || (c =? 45))).

(** [r(\.r)*] *)
Definition dotted (r : regexp) : regexp := Cat r (Star (Cat (Lit (str ".")) r)).

Definition canonicalModuleVersionPattern : regexp :=
  Cat (dotted versionIdentifierPattern) (Opt (Cat (Lit (str "-")) (dotted prereleaseIdentifierPattern))).

Definition validModuleVersionPattern : regexp :=
  Cat canonicalModuleVersionPattern (Opt (Cat (Lit (str "+")) (dotted buildIdentifierPattern))).

Definition validModuleInstancePattern : regexp :=
  Cat validModulePattern (Cat (Lit (str "+")) (Opt canonicalModuleVersionPattern)).

Definition validStarlarkIdentifierPattern : regexp :=
  Cat (Chars (fun c => isAlpha c || (c =? 95))) (Star (Chars isWord)).

Definition validModuleExtensionPattern : regexp :=
  Cat validModuleInstancePattern (Cat (Lit (str "+")) validStarlarkIdentifierPattern).

Definition validApparentRepoPattern : regexp :=
  Alt (Cat (Chars isAlpha) (Star (Chars (fun c => (c =? 45) || (c =? 46) || isWord c)))) (Lit (str "_builtins")).

Definition validCanonicalRepoPattern : regexp :=
  Cat validModuleInstancePattern
    (Opt (Cat (Lit (str "+")) (Cat validStarlarkIdentifierPattern (Cat (Lit (str "+")) validApparentRepoPattern)))).

(** [[^[:cntrl:]/:\\]], and without dots. *)
Definition isNameCharacter (c : Z) : bool := negb (isCntrl c || (c =? 47) || (c =? 58) || (c =? 92)).
Definition isNameNonDotCharacter (c : Z) : bool := isNameCharacter c && negb (c =? 46).

Definition validPackageNameComponentPattern : regexp :=
  Cat (Star (Chars isNameCharacter)) (Cat (Chars isNameNonDotCharacter) (Star (Chars isNameCharacter))).

(** [r(/r)*] *)
Definition slashed (r : regexp) : regexp := Cat r (Star (Cat (Lit (str "/")) r)).

Definition validNonEmptyPackageNamePattern : regexp := slashed validPackageNameComponentPattern.

Definition validTargetNameComponentPattern : regexp :=
  Alt validPackageNameComponentPattern (Cat (Lit (str ".")) (Plus (Chars (Z.eqb 46)))).

Definition validTargetNamePattern : regexp := slashed validTargetNameComponentPattern.

Definition colonTargetName : regexp := Cat (Lit (str ":")) validTargetNamePattern.

Definition validAbsoluteLabelPattern : regexp :=
  Cat (Lit (str "//")) (Alt colonTargetName (Cat validNonEmptyPackageNamePattern (Opt colonTargetName))).
Definition validMaybeAbsoluteLabelPattern : regexp := Opt validAbsoluteLabelPattern.

Definition validCanonicalLabelPattern : regexp :=
  Cat (Lit (str "@@")) (Cat validCanonicalRepoPattern validMaybeAbsoluteLabelPattern).

Definition validApparentOrCanonicalRepoPattern : regexp :=
  Cat (Lit (str "@")) (Alt validApparentRepoPattern (Cat (Lit (str "@")) validCanonicalRepoPattern)).

Definition validApparentLabelPattern : regexp :=
  Alt (Cat validApparentOrCanonicalRepoPattern validMaybeAbsoluteLabelPattern)
      (Cat (Lit (str "@@")) validAbsoluteLabelPattern).

Definition validResolvedLabelPattern : regexp :=
  Alt validCanonicalLabelPattern
      (Cat (Lit (str "@@[")) (Cat (Plus (Chars (fun c => negb (c =? 93)))) (Cat (Lit (str "]")) validAbsoluteLabelPattern))).

Definition validCanonicalPackagePattern : regexp :=
  Cat (Lit (str "@@")) (Cat validCanonicalRepoPattern (Opt (Cat (Lit (str "//")) validNonEmptyPackageNamePattern))).

Definition validRelativeRecursiveTargetPatternPattern : regexp :=
  Cat (Star (Cat validPackageNameComponentPattern (Lit (str "/"))))
    (Cat (Lit (str "...")) (Opt (Cat (Lit (str ":")) (Alt (Lit (str "all")) (Alt (Lit (str "all-targets")) (Lit (str "*"))))))).

Definition validAbsoluteTargetPatternPattern : regexp :=
  Cat (Lit (str "//"))
    (Alt colonTargetName (Alt (Cat validNonEmptyPackageNamePattern (Opt colonTargetName)) validRelativeRecursiveTargetPatternPattern)).
Definition validMaybeAbsoluteTargetPatternPattern : regexp := Opt validAbsoluteTargetPatternPattern.

Definition validCanonicalTargetPatternPattern : regexp :=
  Cat (Lit (str "@@")) (Cat validCanonicalRepoPattern validMaybeAbsoluteTargetPatternPattern).

Definition validApparentTargetPatternPattern : regexp :=
  Alt (Cat validApparentOrCanonicalRepoPattern validMaybeAbsoluteTargetPatternPattern)
      (Cat (Lit (str "@@")) validAbsoluteTargetPatternPattern).

Definition validApparentOrAbsoluteLabelPattern : regexp := Alt validApparentLabelPattern validAbsoluteLabelPattern.

Definition validRelativeTargetNameLabelPattern : regexp :=
  Cat (Opt (Cat (Opt validNonEmptyPackageNamePattern) (Lit (str ":")))) validTargetNamePattern.

Definition validApparentOrAbsoluteTargetPatternPattern : regexp :=
  Alt validApparentTargetPatternPattern validAbsoluteTargetPatternPattern.

Definition validRelativeTargetNameTargetPatternPattern : regexp :=
  Alt validRelativeTargetNameLabelPattern validRelativeRecursiveTargetPatternPattern.

Definition validCanonicalStarlarkIdentifierPattern : regexp :=
  Cat validCanonicalLabelPattern (Cat (Lit (str "%")) validStarlarkIdentifierPattern).

(** A constructor that validates its argument. *)
Definition validated {A} (r : regexp) (f : bytes -> A) (value : bytes) : outcome A :=
  if matchString r value then Ok (f value) else Err PlainError.

(** ** Modules *)

Definition NewModule : bytes -> outcome Module_ := validated validModulePattern mkModule.
Definition NewModuleVersion : bytes -> outcome ModuleVersion := validated validModuleVersionPattern mkModuleVersion.
Definition NewModuleInstance : bytes -> outcome ModuleInstance := validated validModuleInstancePattern mkModuleInstance.
Definition NewModuleExtension : bytes -> outcome ModuleExtension := validated validModuleExtensionPattern mkModuleExtension.
Definition NewStarlarkIdentifier : bytes -> outcome StarlarkIdentifier :=
  validated validStarlarkIdentifierPattern mkStarlarkIdentifier.

(** [Module.ToApparentRepo] and [Module.ToModuleInstance] *)
Definition ToApparentRepo (m : Module_) : ApparentRepo := mkApparentRepo (moduleValue m).

Definition ToModuleInstance (m : Module_) (mv : option ModuleVersion) : ModuleInstance :=
  match mv with
  | None => mkModuleInstance (moduleValue m ++ str "+")
  | Some mv => mkModuleInstance (moduleValue m ++ str "+" ++ moduleVersionValue mv)
  end.

(** [ModuleInstance] *)
Definition GetModule (mi : ModuleInstance) : outcome Module_ :=
  let v := moduleInstanceValue mi in mkModule <$> slice v 0 (position (IndexByte v 43)).

Definition GetModuleVersion (mi : ModuleInstance) : option ModuleVersion :=
  let v := moduleInstanceValue mi in
  match drop (Z.to_nat (position (IndexByte v 43) + 1)) v with [] => None | version => Some (mkModuleVersion version) end.

Definition GetBareCanonicalRepo (mi : ModuleInstance) : CanonicalRepo := mkCanonicalRepo (moduleInstanceValue mi).

Definition ModuleInstance_GetModuleExtension (mi : ModuleInstance) (name : StarlarkIdentifier) : ModuleExtension :=
  mkModuleExtension (moduleInstanceValue mi ++ str "+" ++ starlarkIdentifierValue name).

(** [ModuleExtension] *)
Definition ModuleExtension_GetModuleInstance (me : ModuleExtension) : outcome ModuleInstance :=
  let v := moduleExtensionValue me in mkModuleInstance <$> slice v 0 (position (LastIndexByte v 43)).

Definition GetExtensionName (me : ModuleExtension) : StarlarkIdentifier :=
  let v := moduleExtensionValue me in
  mkStarlarkIdentifier (drop (Z.to_nat (position (LastIndexByte v 43) + 1)) v).

Definition GetCanonicalRepoWithModuleExtension (me : ModuleExtension) (repo : ApparentRepo) : CanonicalRepo :=
  mkCanonicalRepo (moduleExtensionValue me ++ str "+" ++ apparentRepoValue repo).

(** [StarlarkIdentifier.IsPublic] *)
Definition IsPublic (i : StarlarkIdentifier) : outcome bool :=
  c ← index (starlarkIdentifierValue i) 0; Ok (negb (c =? 95)).

(** ** Repositories *)

Definition NewApparentRepo : bytes -> outcome ApparentRepo := validated validApparentRepoPattern mkApparentRepo.
Definition NewCanonicalRepo : bytes -> outcome CanonicalRepo := validated validCanonicalRepoPattern mkCanonicalRepo.

(** [CanonicalRepo.GetModuleInstance] *)
Definition CanonicalRepo_GetModuleInstance (r : CanonicalRepo) : ModuleInstance :=
  let v := canonicalRepoValue r in
  let versionIndex := Z.to_nat (position (IndexByte v 43) + 1) in
  match IndexByte (drop versionIndex v) 43 with
  | Some offset => mkModuleInstance (take (versionIndex + offset) v)
  | None => mkModuleInstance v
  end.

(** [CanonicalRepo.GetRootPackage] *)
Definition GetRootPackage (r : CanonicalRepo) : CanonicalPackage := mkCanonicalPackage (str "@@" ++ canonicalRepoValue r).

(** [CanonicalRepo.GetModuleExtension] *)
Definition CanonicalRepo_GetModuleExtension (r : CanonicalRepo) : outcome (option (ModuleExtension * ApparentRepo)) :=
  let v := canonicalRepoValue r in
  let repoIndex := position (LastIndexByte v 43) in
  moduleExtension ← slice v 0 repoIndex;
  match IndexByte moduleExtension 43 with
  | None => Ok None
  | Some _ => repo ← slice_from v (repoIndex + 1); Ok (Some (mkModuleExtension moduleExtension, mkApparentRepo repo))
  end.

(** [CanonicalRepo.applyToLabelOrTargetPattern] *)
Definition applyToLabelOrTargetPattern (r : CanonicalRepo) (value : bytes) : bytes :=
  match IndexByte value 47 with
  | Some (S _ as offset) => str "@@" ++ canonicalRepoValue r ++ drop offset value
  | _ => str "@@" ++ canonicalRepoValue r ++ str "//:" ++ TrimLeft value 64
  end.

(** ** Target names *)

Definition NewTargetName : bytes -> outcome TargetName := validated validTargetNamePattern mkTargetName.

(** [TargetName.GetSibling] *)
Definition GetSibling (tn child : TargetName) : TargetName :=
  match LastIndexByte (targetNameValue tn) 47 with
  | None => child
  | Some slash => mkTargetName (take (S slash) (targetNameValue tn) ++ targetNameValue child)
  end.

(** [TargetName.ToComponents].  [newComponent]: [path.MustNewComponent] of bb-storage. *)
Fixpoint toComponents (fuel : nat) (newComponent : bytes -> outcome bytes) (v : bytes) : outcome (list bytes) :=
  match fuel with
  | O => Panic
  | S fuel =>
      match IndexByte v 47 with
      | None => c ← newComponent v; Ok [c]
      | Some slash =>
          c ← newComponent (take slash v);
          l ← toComponents fuel newComponent (drop (S slash) v);
          Ok (c :: l)
      end
  end.

Definition ToComponents (newComponent : bytes -> outcome bytes) (tn : TargetName) : outcome (list bytes) :=
  toComponents (S (length (targetNameValue tn))) newComponent (targetNameValue tn).

(** ** Labels *)

(** [removeLabelTargetNameIfRedundant] *)
Definition removeLabelTargetNameIfRedundant (label : bytes) : bytes :=
  match IndexByte label 58 with
  | None => label
  | Some targetNameOffset =>
      let targetName := drop (S targetNameOffset) label in
      let canonicalPackage := take targetNameOffset label in
      match CutSuffix canonicalPackage (str "//") with
      | (canonicalRepo, true) =>
          if HasPrefix canonicalRepo (str "@@[") then label else
          if bool_decide (targetName = TrimLeft canonicalRepo 64) then canonicalRepo else label
      | (_, false) =>
          let lastComponent := drop (Z.to_nat (position (LastIndexByte canonicalPackage 47) + 1)) canonicalPackage in
          if bool_decide (targetName = lastComponent) then canonicalPackage else label
      end
  end.

Definition newValidCanonicalLabel (value : bytes) : CanonicalLabel := mkCanonicalLabel (removeLabelTargetNameIfRedundant value).
Definition newValidApparentLabel (value : bytes) : ApparentLabel := mkApparentLabel (removeLabelTargetNameIfRedundant value).
Definition newValidResolvedLabel (value : bytes) : ResolvedLabel := mkResolvedLabel (removeLabelTargetNameIfRedundant value).

Definition NewCanonicalLabel : bytes -> outcome CanonicalLabel := validated validCanonicalLabelPattern newValidCanonicalLabel.
Definition NewApparentLabel : bytes -> outcome ApparentLabel := validated validApparentLabelPattern newValidApparentLabel.
Definition NewResolvedLabel : bytes -> outcome ResolvedLabel := validated validResolvedLabelPattern newValidResolvedLabel.
Definition NewCanonicalPackage : bytes -> outcome CanonicalPackage := validated validCanonicalPackagePattern mkCanonicalPackage.

(** [CanonicalPackage.GetCanonicalRepo] and [CanonicalLabel.GetCanonicalRepo] *)
Definition getCanonicalRepo (value : bytes) : outcome CanonicalRepo :=
  repo ← slice_from value 2;
  Ok (mkCanonicalRepo (match IndexByte repo 47 with Some offset => take offset repo | None => repo end)).

Definition CanonicalPackage_GetCanonicalRepo (p : CanonicalPackage) : outcome CanonicalRepo := getCanonicalRepo (canonicalPackageValue p).
Definition CanonicalLabel_GetCanonicalRepo (l : CanonicalLabel) : outcome CanonicalRepo := getCanonicalRepo (canonicalLabelValue l).

(** [CanonicalPackage.GetPackagePath] *)
Definition GetPackagePath (p : CanonicalPackage) : outcome bytes :=
  let v := canonicalPackageValue p in
  match IndexByte v 47 with
  | Some offset => slice_from v (Z.of_nat offset + 2)
  | None => Ok []
  end.

(** [CanonicalLabel.GetCanonicalPackage] *)
Definition GetCanonicalPackage (l : CanonicalLabel) : CanonicalPackage :=
  let v := canonicalLabelValue l in
  match IndexByte v 58 with
  | Some offset => mkCanonicalPackage (TrimSuffix (take offset v) (str "//"))
  | None => mkCanonicalPackage v
  end.

(** [CanonicalLabel.GetTargetName] *)
Definition GetTargetName (l : CanonicalLabel) : TargetName :=
  let v := canonicalLabelValue l in
  match IndexByte v 58 with
  | Some offset => mkTargetName (drop (S offset) v)
  | None =>
      match LastIndexByte v 47 with
      | Some offset => mkTargetName (drop (S offset) v)
      | None => mkTargetName (TrimLeft v 64)
      end
  end.

(** [CanonicalLabel.GetExternalRelativePath] *)
Definition GetExternalRelativePath (l : CanonicalLabel) : outcome bytes :=
  label ← slice_from (canonicalLabelValue l) 2;
  match IndexByte label 58 with
  | Some targetNameOffset =>
      let repoAndPackage := take targetNameOffset label in
      let targetName := drop (S targetNameOffset) label in
      let slashOffset := position (IndexByte repoAndPackage 47) in
      repoSlash ← slice repoAndPackage 0 (slashOffset + 1);
      pkg ← slice_from repoAndPackage (slashOffset + 2);
      Ok (match pkg with [] => repoSlash ++ targetName | _ => repoSlash ++ pkg ++ str "/" ++ targetName end)
  | None =>
      match IndexByte label 47 with
      | Some slashOffset =>
          pkg ← slice_from label (Z.of_nat slashOffset + 2);
          Ok (take (S slashOffset) label ++ pkg ++ str "/" ++ drop (Z.to_nat (position (LastIndexByte label 47) + 1)) label)
      | None => Ok (label ++ str "/" ++ label)
      end
  end.

(** [CanonicalLabel.GetRepoRelativePath] *)
Definition GetRepoRelativePath (l : CanonicalLabel) : outcome bytes :=
  label ← slice_from (canonicalLabelValue l) 2;
  match IndexByte label 58 with
  | Some targetNameOffset =>
      let repoAndPackage := take targetNameOffset label in
      let targetName := drop (S targetNameOffset) label in
      pkg ← slice_from repoAndPackage (position (IndexByte repoAndPackage 47) + 2);
      Ok (match pkg with [] => targetName | _ => pkg ++ str "/" ++ targetName end)
  | None =>
      match IndexByte label 47 with
      | Some slashOffset =>
          pkg ← slice_from label (Z.of_nat slashOffset + 2);
          Ok (pkg ++ str "/" ++ drop (Z.to_nat (position (LastIndexByte label 47) + 1)) label)
      | None => Ok label
      end
  end.

(** [CanonicalLabel.AppendStarlarkIdentifier] and [CanonicalLabel.AsResolved] *)
Definition AppendStarlarkIdentifier (l : CanonicalLabel) (i : StarlarkIdentifier) : CanonicalStarlarkIdentifier :=
  mkCanonicalStarlarkIdentifier (canonicalLabelValue l ++ str "%" ++ starlarkIdentifierValue i).

Definition AsResolved (l : CanonicalLabel) : ResolvedLabel := mkResolvedLabel (canonicalLabelValue l).

(** ** Apparent labels *)

(** [hasCanonicalRepo] *)
Definition hasCanonicalRepo (value : bytes) : bool :=
  (2 <? zlen value) && bool_decide (value !! 1%nat = Some 64) && negb (bool_decide (value !! 2%nat = Some 47)).

(** [getApparentRepo] *)
Definition getApparentRepo (value : bytes) : outcome (option ApparentRepo) :=
  repo ← slice_from value 1;
  c ← index repo 0;
  if c =? 64 then Ok None else
  Ok (Some (mkApparentRepo (match IndexByte repo 47 with Some (S _ as offset) => take offset repo | _ => repo end))).

Definition ApparentLabel_AsCanonical (l : ApparentLabel) : option CanonicalLabel :=
  if hasCanonicalRepo (apparentLabelValue l) then Some (mkCanonicalLabel (apparentLabelValue l)) else None.

Definition ApparentLabel_GetApparentRepo (l : ApparentLabel) : outcome (option ApparentRepo) := getApparentRepo (apparentLabelValue l).

Definition ApparentLabel_WithCanonicalRepo (l : ApparentLabel) (r : CanonicalRepo) : CanonicalLabel :=
  newValidCanonicalLabel (applyToLabelOrTargetPattern r (apparentLabelValue l)).

(** [ApparentLabel.AsResolvedWithError] *)
Definition AsResolvedWithError (l : ApparentLabel) (message : bytes) : outcome ResolvedLabel :=
  match IndexByte message 93 with
  | Some _ => Panic
  | None =>
      let v := apparentLabelValue l in
      Ok match IndexByte v 47 with
         | Some (S _ as offset) => mkResolvedLabel (str "@@[" ++ message ++ str "]" ++ drop offset v)
         | _ => mkResolvedLabel (str "@@[" ++ message ++ str "]//:" ++ TrimLeft v 64)
         end
  end.

(** ** Packages *)

(** [CanonicalPackage.concatenateApparentOrAbsolute] *)
Definition concatenateApparentOrAbsolute (p : CanonicalPackage) (value : bytes) : outcome bytes :=
  c ← index value 0;
  if c =? 64 then Ok value else
  if c =? 47 then
    let repo := canonicalPackageValue p in
    Ok (match IndexByte repo 47 with Some offset => take offset repo | None => repo end ++ value)
  else Panic.

(** [CanonicalPackage.concatenateRelative] *)
Definition concatenateRelative (p : CanonicalPackage) (value : bytes) (forceHasPackage : bool) : outcome bytes :=
  let v := canonicalPackageValue p in
  let isRoot := match IndexByte v 47 with None => true | Some _ => false end in
  if forceHasPackage || match IndexByte value 58 with Some _ => true | None => false end then
    if isRoot then Ok (v ++ str "//" ++ value) else
    c ← index value 0; Ok (v ++ (if c =? 58 then [] else str "/") ++ value)
  else Ok (v ++ (if isRoot then str "//:" else str ":") ++ value).

(** [CanonicalPackage.AppendLabel] *)
Definition AppendLabel (p : CanonicalPackage) (value : bytes) : outcome ApparentLabel :=
  if matchString validApparentOrAbsoluteLabelPattern value then
    newValidApparentLabel <$> concatenateApparentOrAbsolute p value
  else if matchString validRelativeTargetNameLabelPattern value then
    newValidApparentLabel <$> concatenateRelative p value false
  else Err PlainError.

(** [CanonicalPackage.AppendTargetName] *)
Definition CanonicalPackage_AppendTargetName (p : CanonicalPackage) (targetName : TargetName) : CanonicalLabel :=
  let v := canonicalPackageValue p in
  newValidCanonicalLabel (v ++ match IndexByte v 47 with None => str "//:" | Some _ => str ":" end ++ targetNameValue targetName).

(** ** Resolved labels *)

(** [ResolvedLabel.asCanonical] *)
Definition asCanonical (l : ResolvedLabel) : outcome (option CanonicalLabel) :=
  c ← index (resolvedLabelValue l) 2;
  Ok (if c =? 91 then None else Some (mkCanonicalLabel (resolvedLabelValue l))).

(** The message of a resolved label that is not canonical, and what follows [//]. *)
Definition errorAndPath (l : ResolvedLabel) : outcome (bytes * bytes) :=
  errorMessage ← slice_from (resolvedLabelValue l) 3;
  let bracket := position (IndexByte errorMessage 93) in
  message ← slice errorMessage 0 bracket;
  packagePath ← slice_from errorMessage (bracket + 3);
  Ok (message, packagePath).

(** [ResolvedLabel.AsCanonical]: the label, or the message of the error. *)
Definition ResolvedLabel_AsCanonical (l : ResolvedLabel) : outcome (CanonicalLabel + bytes) :=
  c ← asCanonical l;
  match c with
  | Some c => Ok (inl c)
  | None =>
      errorMessage ← slice_from (resolvedLabelValue l) 3;
      message ← slice errorMessage 0 (position (IndexByte errorMessage 93)); Ok (inr message)
  end.

(** [ResolvedLabel.GetPackagePath] *)
Definition ResolvedLabel_GetPackagePath (l : ResolvedLabel) : outcome bytes :=
  c ← asCanonical l;
  match c with
  | Some c => GetPackagePath (GetCanonicalPackage c)
  | None =>
      '(_, packagePath) ← errorAndPath l;
      Ok (match IndexByte packagePath 58 with Some colonOffset => take colonOffset packagePath | None => packagePath end)
  end.

(** [ResolvedLabel.GetTargetName] *)
Definition ResolvedLabel_GetTargetName (l : ResolvedLabel) : outcome TargetName :=
  c ← asCanonical l;
  match c with
  | Some c => Ok (GetTargetName c)
  | None =>
      '(_, packagePath) ← errorAndPath l;
      Ok (mkTargetName match IndexByte packagePath 58 with
                       | Some colonOffset => drop (S colonOffset) packagePath
                       | None => drop (Z.to_nat (position (LastIndexByte packagePath 47) + 1)) packagePath
                       end)
  end.

(** [ResolvedLabel.AppendTargetName] *)
Definition ResolvedLabel_AppendTargetName (l : ResolvedLabel) (targetName : TargetName) : outcome ResolvedLabel :=
  c ← asCanonical l;
  match c with
  | Some c => Ok (AsResolved (CanonicalPackage_AppendTargetName (GetCanonicalPackage c) targetName))
  | None =>
      let v := resolvedLabelValue l in
      errorMessage ← slice_from v 3;
      let packagePathOffset := 3 + (position (IndexByte errorMessage 93) + 3) in
      packagePath ← slice_from v packagePathOffset;
      match IndexByte packagePath 58 with
      | Some colonOffset =>
          prefix ← slice v 0 (packagePathOffset + Z.of_nat colonOffset + 1);
          Ok (newValidResolvedLabel (prefix ++ targetNameValue targetName))
      | None => Ok (newValidResolvedLabel (v ++ str ":" ++ targetNameValue targetName))
      end
  end.

(** ** Starlark identifiers *)

(** [NewCanonicalStarlarkIdentifier] *)
Definition NewCanonicalStarlarkIdentifier (value : bytes) : outcome CanonicalStarlarkIdentifier :=
  if matchString validCanonicalStarlarkIdentifierPattern value then
    let identifierOffset := position (LastIndexByte value 37) in
    label ← slice value 0 identifierOffset;
    identifier ← slice_from value identifierOffset;
    Ok (mkCanonicalStarlarkIdentifier (removeLabelTargetNameIfRedundant label ++ identifier))
  else Err PlainError.

(** [CanonicalStarlarkIdentifier.GetCanonicalLabel] *)
Definition GetCanonicalLabel (i : CanonicalStarlarkIdentifier) : outcome CanonicalLabel :=
  let v := canonicalStarlarkIdentifierValue i in
  mkCanonicalLabel <$> slice v 0 (position (LastIndexByte v 37)).

(** [CanonicalStarlarkIdentifier.GetStarlarkIdentifier] *)
Definition GetStarlarkIdentifier (i : CanonicalStarlarkIdentifier) : StarlarkIdentifier :=
  let v := canonicalStarlarkIdentifierValue i in
  mkStarlarkIdentifier (drop (Z.to_nat (position (LastIndexByte v 37) + 1)) v).

(** [CanonicalStarlarkIdentifier.ToModuleExtension] *)
Definition ToModuleExtension (i : CanonicalStarlarkIdentifier) : outcome ModuleExtension :=
  v ← slice_from (canonicalStarlarkIdentifierValue i) 2;
  let versionIndex := position (IndexByte v 43) + 1 in
  version ← slice_from v versionIndex;
  let versionEnd := position (IndexAny version (str "+/")) in
  instance ← slice v 0 (versionIndex + versionEnd);
  identifier ← slice_from v (position (LastIndexByte v 37) + 1);
  Ok (mkModuleExtension (instance ++ str "+" ++ identifier)).

(** ** Target patterns *)

(** [removeTargetPatternTargetNameIfRedundant] *)
Definition removeTargetPatternTargetNameIfRedundant (targetPattern : bytes) : bytes :=
  match IndexByte targetPattern 58 with
  | None => targetPattern
  | Some targetNameOffset =>
      let targetName := drop (S targetNameOffset) targetPattern in
      let '(canonicalPackage, lastComponent) :=
        match CutSuffix (take targetNameOffset targetPattern) (str "//") with
        | (canonicalRepo, true) => (canonicalRepo, TrimLeft canonicalRepo 64)
        | (canonicalPackage, false) =>
            (canonicalPackage, drop (Z.to_nat (position (LastIndexByte canonicalPackage 47) + 1)) canonicalPackage)
        end in
      if bool_decide (targetName = str "all") then
        if bool_decide (lastComponent = str "...") then canonicalPackage else targetPattern
      else if bool_decide (targetName = str "all-targets") then
        if bool_decide (lastComponent = str "...") then canonicalPackage ++ str ":*" else targetPattern
      else if bool_decide (targetName = str "*") then targetPattern
      else if bool_decide (targetName = lastComponent) then canonicalPackage else targetPattern
  end.

Definition newValidCanonicalTargetPattern (value : bytes) : CanonicalTargetPattern :=
  mkCanonicalTargetPattern (removeTargetPatternTargetNameIfRedundant value).
Definition newValidApparentTargetPattern (value : bytes) : ApparentTargetPattern :=
  mkApparentTargetPattern (removeTargetPatternTargetNameIfRedundant value).

Definition NewCanonicalTargetPattern : bytes -> outcome CanonicalTargetPattern :=
  validated validCanonicalTargetPatternPattern newValidCanonicalTargetPattern.
Definition NewApparentTargetPattern : bytes -> outcome ApparentTargetPattern :=
  validated validApparentTargetPatternPattern newValidApparentTargetPattern.

Definition ApparentTargetPattern_AsCanonical (tp : ApparentTargetPattern) : option CanonicalTargetPattern :=
  if hasCanonicalRepo (apparentTargetPatternValue tp) then Some (mkCanonicalTargetPattern (apparentTargetPatternValue tp)) else None.

Definition ApparentTargetPattern_GetApparentRepo (tp : ApparentTargetPattern) : outcome (option ApparentRepo) :=
  getApparentRepo (apparentTargetPatternValue tp).

Definition ApparentTargetPattern_WithCanonicalRepo (tp : ApparentTargetPattern) (r : CanonicalRepo) : CanonicalTargetPattern :=
  newValidCanonicalTargetPattern (applyToLabelOrTargetPattern r (apparentTargetPatternValue tp)).

(** [CanonicalTargetPattern.AsCanonicalLabel] *)
Definition AsCanonicalLabel (tp : CanonicalTargetPattern) : option CanonicalLabel :=
  let v := canonicalTargetPatternValue tp in
  if HasSuffix v (str "/...") || HasSuffix v (str ":all") || HasSuffix v (str ":all-targets") || HasSuffix v (str ":*")
  then None else Some (mkCanonicalLabel v).

(** [CanonicalTargetPattern.AsSinglePackageTargetPattern]: the initial target, and
    whether targets of files are included. *)
Definition AsSinglePackageTargetPattern (tp : CanonicalTargetPattern) : option (CanonicalLabel * bool) :=
  let v := canonicalTargetPatternValue tp in
  match IndexByte v 58 with
  | None => None
  | Some targetNameOffset =>
      if HasSuffix (take targetNameOffset v) (str "/...") then None else
      let targetName := drop (S targetNameOffset) v in
      if bool_decide (targetName = str "all") then Some (newValidCanonicalLabel v, false) else
      if bool_decide (targetName = str "all-targets") || bool_decide (targetName = str "*")
      then Some (newValidCanonicalLabel v, true) else None
  end.

(** [CanonicalTargetPattern.AsRecursiveTargetPattern]: the base package, and whether
    targets of files are included. *)
Definition AsRecursiveTargetPattern (tp : CanonicalTargetPattern) : option (CanonicalPackage * bool) :=
  let v := canonicalTargetPatternValue tp in
  match CutSuffix v (str "/...") with
  | (packageName, true) => Some (mkCanonicalPackage (TrimSuffix packageName (str "/")), false)
  | _ =>
      match CutSuffix v (str "/...:*") with
      | (packageName, true) => Some (mkCanonicalPackage (TrimSuffix packageName (str "/")), true)
      | _ => None
      end
  end.

(** [CanonicalPackage.AppendTargetPattern] *)
Definition AppendTargetPattern (p : CanonicalPackage) (value : bytes) : outcome ApparentTargetPattern :=
  if matchString validApparentOrAbsoluteTargetPatternPattern value then
    newValidApparentTargetPattern <$> concatenateApparentOrAbsolute p value
  else if matchString validRelativeTargetNameTargetPatternPattern value then
    let forceHasPackage := bool_decide (value = str "...") || HasSuffix value (str "/...") in
    newValidApparentTargetPattern <$> concatenateRelative p value forceHasPackage
  else Err PlainError.

(** [CanonicalPackage.ToRecursiveTargetPatternBelow] *)
Definition ToRecursiveTargetPatternBelow (p : CanonicalPackage) (pathBelow : bytes) (includeFileTargets : bool)
    : outcome CanonicalTargetPattern :=
  if matchString validNonEmptyPackageNamePattern pathBelow then
    let v := canonicalPackageValue p in
    let midfix := match IndexByte v 47 with None => str "//" | Some _ => str "/" end in
    let suffix := if includeFileTargets then str "/...:*" else str "/..." in
    Ok (mkCanonicalTargetPattern (v ++ midfix ++ pathBelow ++ suffix))
  else Err PlainError.

(** ** Resolution *)

(** [Resolver] *)
Class Resolver := {
  ResolverGetCanonicalRepo : CanonicalRepo -> ApparentRepo -> outcome (option CanonicalRepo);
  ResolverGetRootModule : outcome Module_;
}.

(** [Canonicalizable] *)
Class Canonicalizable (TApparent TCanonical : Type) := {
  AsCanonical : TApparent -> option TCanonical;
  GetApparentRepo : TApparent -> outcome (option ApparentRepo);
  WithCanonicalRepo : TApparent -> CanonicalRepo -> TCanonical;
}.

#[export] Instance ApparentLabel_Canonicalizable : Canonicalizable ApparentLabel CanonicalLabel := {|
  AsCanonical := ApparentLabel_AsCanonical;
  GetApparentRepo := ApparentLabel_GetApparentRepo;
  WithCanonicalRepo := ApparentLabel_WithCanonicalRepo;
|}.

#[export] Instance ApparentTargetPattern_Canonicalizable : Canonicalizable ApparentTargetPattern CanonicalTargetPattern := {|
  AsCanonical := ApparentTargetPattern_AsCanonical;
  GetApparentRepo := ApparentTargetPattern_GetApparentRepo;
  WithCanonicalRepo := ApparentTargetPattern_WithCanonicalRepo;
|}.

Section resolution.
Context `{!Resolver}.

Definition rootRepo (rootModule : Module_) : CanonicalRepo := GetBareCanonicalRepo (ToModuleInstance rootModule None).

(** The error message of a repository that does not exist. *)
Definition unknownRepo (toApparentRepo : ApparentRepo) (fromRepo : CanonicalRepo) : bytes :=
  str "unknown repo '" ++ apparentRepoValue toApparentRepo ++ str "' requested from " ++ canonicalRepoValue fromRepo.

(** [Resolve] *)
Definition Resolve (fromRepo : CanonicalRepo) (toApparent : ApparentLabel) : outcome ResolvedLabel :=
  match ApparentLabel_AsCanonical toApparent with
  | Some toCanonical => Ok (AsResolved toCanonical)
  | None =>
      apparentRepo ← ApparentLabel_GetApparentRepo toApparent;
      match apparentRepo with
      | Some toApparentRepo =>
          match ResolverGetCanonicalRepo fromRepo toApparentRepo with
          | Ok (Some toCanonicalRepo) => Ok (AsResolved (ApparentLabel_WithCanonicalRepo toApparent toCanonicalRepo))
          | Ok None => AsResolvedWithError toApparent (unknownRepo toApparentRepo fromRepo)
          | Err _ => Err PlainError
          | Panic => Panic
          end
      | None =>
          match ResolverGetRootModule with
          | Ok rootModule => Ok (AsResolved (ApparentLabel_WithCanonicalRepo toApparent (rootRepo rootModule)))
          | Err _ => Err PlainError
          | Panic => Panic
          end
      end
  end.

(** [Canonicalize] *)
Definition Canonicalize {TApparent TCanonical} `{!Canonicalizable TApparent TCanonical} (fromRepo : CanonicalRepo)
    (toApparent : TApparent) : outcome TCanonical :=
  match AsCanonical toApparent with
  | Some toCanonical => Ok toCanonical
  | None =>
      apparentRepo ← GetApparentRepo toApparent;
      match apparentRepo with
      | Some toApparentRepo =>
          match ResolverGetCanonicalRepo fromRepo toApparentRepo with
          | Ok (Some toCanonicalRepo) => Ok (WithCanonicalRepo toApparent toCanonicalRepo)
          | Ok None => Err PlainError
          | Err _ => Err PlainError
          | Panic => Panic
          end
      | None =>
          match ResolverGetRootModule with
          | Ok rootModule => Ok (WithCanonicalRepo toApparent (rootRepo rootModule))
          | Err _ => Err PlainError
          | Panic => Panic
          end
      end
  end.
End resolution.

(** ** Comparing versions *)

(** [stripIdentifier] *)
Definition stripIdentifier (s separators : bytes) : bytes * bytes :=
  let i := default (length s) (IndexAny s separators) in (take i s, drop i s).

(** [identifierIsNumeric] *)
Definition identifierIsNumeric (s : bytes) : Z := if forallb isDigit s then 1 else 0.

(** [stripSeparator] *)
Definition stripSeparator (s : bytes) : outcome (Z * bytes) :=
  match s with
  | [] => Ok (0, [])
  | c :: s => if c =? 45 then Ok (-1, s) else if c =? 43 then Ok (0, s) else if c =? 46 then Ok (1, s) else Panic
  end.

(** The loop of [ModuleVersion.Compare]: every round strips a separator. *)
Fixpoint compareVersions (fuel : nat) (separators a b : bytes) : outcome Z :=
  match fuel with
  | O => Panic
  | S fuel =>
      let '(aIdentifier, a) := stripIdentifier a separators in
      let '(bIdentifier, b) := stripIdentifier b separators in
      let aIsNumeric := identifierIsNumeric aIdentifier in
      let d := identifierIsNumeric bIdentifier - aIsNumeric in
      if negb (d =? 0) then Ok d else
      let d := zlen aIdentifier - zlen bIdentifier in
      if negb (aIsNumeric =? 0) && negb (d =? 0) then Ok d else
      let cmp := bytes_compare aIdentifier bIdentifier in
      if negb (cmp =? 0) then Ok cmp else
      '(aSeparator, a) ← stripSeparator a;
      '(bSeparator, b) ← stripSeparator b;
      let d := aSeparator - bSeparator in
      if negb (d =? 0) || (aSeparator =? 0) then Ok d else
      compareVersions fuel (if aSeparator <=? 0 then str "+." else separators) a b
  end.

(** [ModuleVersion.Compare] *)
Definition Compare (mv other : ModuleVersion) : outcome Z :=
  compareVersions (S (length (moduleVersionValue mv))) (str "+.-") (moduleVersionValue mv) (moduleVersionValue other).
