(* ===== verification/LabelVersions.v ===== *)
(** * Labels: the order of versions

    [ModuleVersion.Compare] is a total order on versions up to their build metadata:
    what follows a plus sign is ignored, as the format of versions says. *)

From S2P Require Import Prelude Text Labels.

(** ** Identifiers *)

Lemma IndexAny_bound l cs i : IndexAny l cs = Some i -> (i < length l)%nat.
Proof.
  revert i. induction l as [|x l IH]; simpl; intros i H; [done|].
  destruct (existsb (Z.eqb x) cs); [injection H as <-; lia|].
  destruct (IndexAny l cs) as [k|]; [|done]. injection H as <-. specialize (IH k eq_refl). lia.
Qed.

Lemma IndexAny_lookup l cs i : IndexAny l cs = Some i -> exists c, l !! i = Some c /\ existsb (Z.eqb c) cs = true.
Proof.
  revert i. induction l as [|x l IH]; simpl; intros i H; [done|].
  destruct (existsb (Z.eqb x) cs) eqn:Ex; [injection H as <-; by exists x|].
  destruct (IndexAny l cs) as [k|]; [|done]. injection H as <-. by apply (IH k).
Qed.

(** What [stripIdentifier] leaves is empty or starts with a separator. *)
Lemma stripIdentifier_spec s seps i r :
  stripIdentifier s seps = (i, r) ->
  s = i ++ r /\ (r = [] \/ exists c r', r = c :: r' /\ existsb (Z.eqb c) seps = true).
Proof.
  unfold stripIdentifier. intros [= <- <-]. split; [by rewrite take_drop|].
  destruct (IndexAny s seps) as [k|] eqn:Ek; simpl; [|left; by rewrite drop_all].
  destruct (IndexAny_lookup _ _ _ Ek) as (c&Hc&Hs). right. exists c, (drop (S k) s). split; [|done]. by apply drop_S.
Qed.

(** The order of identifiers: numbers come before others, and shorter ones before
    longer ones. *)
Definition identifierCompare (a b : bytes) : Z :=
  let d := identifierIsNumeric b - identifierIsNumeric a in
  if negb (d =? 0) then d else
  let d := zlen a - zlen b in
  if negb (identifierIsNumeric a =? 0) && negb (d =? 0) then d else bytes_compare a b.

Lemma identifierIsNumeric_values a : identifierIsNumeric a = 0 \/ identifierIsNumeric a = 1.
Proof. unfold identifierIsNumeric. destruct (forallb _ _); auto. Qed.

Lemma identifierCompare_eq a b : identifierCompare a b = 0 <-> a = b.
Proof.
  unfold identifierCompare. destruct (Z.eqb_spec (identifierIsNumeric b - identifierIsNumeric a) 0) as [E1|E1]; simpl.
  - destruct (Z.eqb_spec (identifierIsNumeric a) 0) as [E2|E2]; simpl; [apply bytes_compare_eq|].
    destruct (Z.eqb_spec (zlen a - zlen b) 0) as [E3|E3]; simpl; [apply bytes_compare_eq|]. split; [lia|]. intros ->. lia.
  - split; [lia|]. intros ->. lia.
Qed.

Lemma identifierCompare_antisym a b : identifierCompare b a = - identifierCompare a b.
Proof.
  unfold identifierCompare. pose proof (bytes_compare_antisym a b).
  destruct (Z.eqb_spec (identifierIsNumeric b - identifierIsNumeric a) 0) as [E1|E1],
           (Z.eqb_spec (identifierIsNumeric a - identifierIsNumeric b) 0) as [E2|E2]; simpl; try lia.
  destruct (Z.eqb_spec (identifierIsNumeric a) 0), (Z.eqb_spec (identifierIsNumeric b) 0); simpl; try lia.
  destruct (Z.eqb_spec (zlen a - zlen b) 0), (Z.eqb_spec (zlen b - zlen a) 0); simpl; lia.
Qed.

Lemma identifierCompare_trans a b c :
  identifierCompare a b <= 0 -> identifierCompare b c <= 0 -> identifierCompare a c <= 0.
Proof.
  unfold identifierCompare. pose proof (bytes_compare_le_trans a b c).
  destruct (identifierIsNumeric_values a) as [Ea|Ea], (identifierIsNumeric_values b) as [Eb|Eb],
    (identifierIsNumeric_values c) as [Ec|Ec]; rewrite Ea, Eb, Ec; simpl; try lia.
  destruct (Z.eqb_spec (zlen a - zlen b) 0), (Z.eqb_spec (zlen b - zlen c) 0), (Z.eqb_spec (zlen a - zlen c) 0); simpl; lia.
Qed.

(** ** Rounds *)

(** The separators of the loop, at first and later. *)
Definition separatorsOk (seps : bytes) : Prop := seps = str "+.-" \/ seps = str "+.".

(** The value of the separator that a rest starts with, and what follows it. *)
Definition separator (r : bytes) : Z * bytes :=
  match r with [] => (0, []) | c :: r => (if c =? 45 then -1 else if c =? 46 then 1 else 0, r) end.

Definition restOk (seps r : bytes) : Prop := r = [] \/ exists c r', r = c :: r' /\ existsb (Z.eqb c) seps = true.

Lemma separatorsOk_char seps c : separatorsOk seps -> existsb (Z.eqb c) seps = true -> c = 43 \/ c = 46 \/ c = 45.
Proof. intros Hs (x&Hin&->%Z.eqb_eq)%existsb_exists. destruct Hs as [-> | ->]; simpl in Hin; intuition lia. Qed.

Lemma stripSeparator_ok seps r : separatorsOk seps -> restOk seps r -> stripSeparator r = Ok (separator r).
Proof.
  intros Hs [->|(c&r'&->&Hc)]; [done|]. apply (separatorsOk_char _ _ Hs) in Hc. simpl.
  by destruct Hc as [-> | [-> | ->]].
Qed.

Definition nextSeparators (v : Z) (seps : bytes) : bytes := if v <=? 0 then str "+." else seps.

Lemma nextSeparators_ok v seps : separatorsOk seps -> separatorsOk (nextSeparators v seps).
Proof. intros H. unfold nextSeparators. destruct (v <=? 0); [by right|done]. Qed.

(** A round of the loop. *)
Lemma compareVersions_round fuel seps a b :
  separatorsOk seps ->
  compareVersions (S fuel) seps a b =
    (let '(ia, ra) := stripIdentifier a seps in
     let '(ib, rb) := stripIdentifier b seps in
     if negb (identifierCompare ia ib =? 0) then Ok (identifierCompare ia ib) else
     let '(sa, ra) := separator ra in
     let '(sb, rb) := separator rb in
     if negb (sa - sb =? 0) || (sa =? 0) then Ok (sa - sb) else compareVersions fuel (nextSeparators sa seps) ra rb).
Proof.
  intros Hs. cbn [compareVersions]. destruct (stripIdentifier a seps) as [ia ra] eqn:Ea, (stripIdentifier b seps) as [ib rb] eqn:Eb.
  apply stripIdentifier_spec in Ea as [_ Ha]. apply stripIdentifier_spec in Eb as [_ Hb].
  unfold identifierCompare. cbv zeta.
  destruct (Z.eqb_spec (identifierIsNumeric ib - identifierIsNumeric ia) 0) as [E1|E1]; simpl.
  - destruct (negb (identifierIsNumeric ia =? 0) && negb (zlen ia - zlen ib =? 0)) eqn:E2.
    + apply andb_true_iff in E2 as [_ E2]. by rewrite E2.
    + destruct (Z.eqb_spec (bytes_compare ia ib) 0) as [E3|E3]; simpl; [|done].
      rewrite (stripSeparator_ok seps ra Hs Ha). simpl. rewrite (stripSeparator_ok seps rb Hs Hb). simpl.
      by destruct (separator ra), (separator rb).
  - apply Z.eqb_neq in E1. by rewrite E1.
Qed.

Lemma separator_length r v r' : separator r = (v, r') -> v <> 0 -> (length r' < length r)%nat.
Proof. destruct r as [|c r]; simpl; intros [= <- <-]; [done|]. lia. Qed.

Lemma round_length s seps i r v r' :
  stripIdentifier s seps = (i, r) -> separator r = (v, r') -> v <> 0 -> (length r' < length s)%nat.
Proof.
  intros Hi Hr Hv. apply stripIdentifier_spec in Hi as [-> _]. apply separator_length in Hr; [|done]. rewrite length_app. lia.
Qed.

(** Enough fuel is enough. *)
Lemma compareVersions_fuel n m seps a b :
  separatorsOk seps -> (length a < n)%nat -> (length a < m)%nat ->
  compareVersions n seps a b = compareVersions m seps a b /\ exists d, compareVersions n seps a b = Ok d.
Proof.
  revert m seps a b. induction n as [|n IH]; intros m seps a b Hs Hn Hm; [lia|]. destruct m as [|m]; [lia|].
  rewrite !compareVersions_round by done. destruct (stripIdentifier a seps) as [ia ra] eqn:Ea, (stripIdentifier b seps) as [ib rb].
  destruct (negb (identifierCompare ia ib =? 0)); [eauto|].
  destruct (separator ra) as [sa ra'] eqn:Er, (separator rb) as [sb rb'].
  destruct (negb (sa - sb =? 0) || (sa =? 0)) eqn:Ed; [eauto|].
  assert (sa <> 0) as Hsa by (apply orb_false_iff in Ed as [_ Ed]; by apply Z.eqb_neq in Ed).
  pose proof (round_length _ _ _ _ _ _ Ea Er Hsa). apply IH; [by apply nextSeparators_ok|lia..].
Qed.

(** ** The order *)

(** The versions, compared from some separators on. *)
Definition compareFrom (seps a b : bytes) : Z :=
  match compareVersions (S (length a)) seps a b with Ok d => d | _ => 0 end.

Lemma compareFrom_round seps a b :
  separatorsOk seps ->
  compareFrom seps a b =
    (let '(ia, ra) := stripIdentifier a seps in
     let '(ib, rb) := stripIdentifier b seps in
     if negb (identifierCompare ia ib =? 0) then identifierCompare ia ib else
     let '(sa, ra) := separator ra in
     let '(sb, rb) := separator rb in
     if negb (sa - sb =? 0) || (sa =? 0) then sa - sb else compareFrom (nextSeparators sa seps) ra rb).
Proof.
  intros Hs. unfold compareFrom at 1. rewrite compareVersions_round by done.
  destruct (stripIdentifier a seps) as [ia ra] eqn:Ea, (stripIdentifier b seps) as [ib rb].
  destruct (negb (identifierCompare ia ib =? 0)); [done|].
  destruct (separator ra) as [sa ra'] eqn:Er, (separator rb) as [sb rb'].
  destruct (negb (sa - sb =? 0) || (sa =? 0)) eqn:Ed; [done|].
  assert (sa <> 0) as Hsa by (apply orb_false_iff in Ed as [_ Ed]; by apply Z.eqb_neq in Ed).
  pose proof (round_length _ _ _ _ _ _ Ea Er Hsa). unfold compareFrom.
  destruct (compareVersions_fuel (length a) (S (length ra')) (nextSeparators sa seps) ra' rb') as [-> _];
    [by apply nextSeparators_ok|lia..|done].
Qed.

Lemma Compare_compareFrom a b : Compare a b = Ok (compareFrom (str "+.-") (moduleVersionValue a) (moduleVersionValue b)).
Proof.
  unfold Compare, compareFrom.
  destruct (compareVersions_fuel (S (length (moduleVersionValue a))) (S (length (moduleVersionValue a))) (str "+.-")
    (moduleVersionValue a) (moduleVersionValue b)) as [_ [d Hd]]; [by left|lia..|]. by rewrite Hd.
Qed.

Lemma compareFrom_antisym seps a b : separatorsOk seps -> compareFrom seps b a = - compareFrom seps a b.
Proof.
  remember (length a) as n eqn:En. revert seps a b En. induction n as [n IH] using lt_wf_ind. intros seps a b En Hs.
  rewrite !compareFrom_round by done.
  destruct (stripIdentifier a seps) as [ia ra] eqn:Ea, (stripIdentifier b seps) as [ib rb].
  rewrite (identifierCompare_antisym ia ib).
  destruct (Z.eqb_spec (identifierCompare ia ib) 0) as [E1|E1], (Z.eqb_spec (- identifierCompare ia ib) 0); simpl; try lia.
  destruct (separator ra) as [sa ra'] eqn:Er, (separator rb) as [sb rb'].
  destruct (Z.eqb_spec (sa - sb) 0) as [E2|E2], (Z.eqb_spec (sb - sa) 0); simpl; try lia.
  assert (sb = sa) as -> by lia. destruct (Z.eqb_spec sa 0); [lia|].
  apply (IH (length ra')); [subst; by eapply round_length|done|by apply nextSeparators_ok].
Qed.

Lemma compareFrom_trans seps a b c :
  separatorsOk seps -> compareFrom seps a b <= 0 -> compareFrom seps b c <= 0 -> compareFrom seps a c <= 0.
Proof.
  remember (length a) as n eqn:En. revert seps a b c En. induction n as [n IH] using lt_wf_ind. intros seps a b c En Hs.
  rewrite !compareFrom_round by done.
  destruct (stripIdentifier a seps) as [ia ra] eqn:Ea, (stripIdentifier b seps) as [ib rb], (stripIdentifier c seps) as [ic rc].
  pose proof (identifierCompare_trans ia ib ic) as Ht.
  destruct (Z.eqb_spec (identifierCompare ia ib) 0) as [E1|E1], (Z.eqb_spec (identifierCompare ib ic) 0) as [E2|E2]; simpl.
  - apply identifierCompare_eq in E1 as ->. apply identifierCompare_eq in E2 as ->.
    rewrite (proj2 (Z.eqb_eq _ _) (proj2 (identifierCompare_eq ic ic) eq_refl)). simpl.
    destruct (separator ra) as [sa ra'] eqn:Er, (separator rb) as [sb rb'], (separator rc) as [sc rc'].
    destruct (Z.eqb_spec (sa - sb) 0), (Z.eqb_spec (sb - sc) 0), (Z.eqb_spec (sa - sc) 0); simpl; try lia.
    assert (sb = sa) as -> by lia. assert (sc = sa) as -> by lia. destruct (Z.eqb_spec sa 0); [lia|].
    apply (IH (length ra')); [subst; by eapply round_length|done|by apply nextSeparators_ok].
  - apply identifierCompare_eq in E1 as ->. destruct (Z.eqb_spec (identifierCompare ib ic) 0); [done|]. done.
  - apply identifierCompare_eq in E2 as ->. destruct (Z.eqb_spec (identifierCompare ia ic) 0); [done|]. done.
  - intros H1 H2. specialize (Ht H1 H2). destruct (Z.eqb_spec (identifierCompare ia ic) 0) as [E3|E3]; simpl; [|done].
    apply identifierCompare_eq in E3 as ->. pose proof (identifierCompare_antisym ic ib). lia.
Qed.

(** What comes before the build metadata. *)
Fixpoint withoutBuild (l : bytes) : bytes :=
  match l with [] => [] | c :: l => if c =? 43 then [] else c :: withoutBuild l end.

Lemma withoutBuild_app i r : 43 ∉ i -> withoutBuild (i ++ r) = i ++ withoutBuild r.
Proof.
  induction i as [|x i IH]; simpl; intros H; [done|]. destruct (Z.eqb_spec x 43) as [->|]; [set_solver|].
  rewrite IH; [done|set_solver].
Qed.

(** No separator is part of an identifier. *)
Definition noSeparator (seps i : bytes) : Prop := Forall (fun c => existsb (Z.eqb c) seps = false) i.

Lemma stripIdentifier_noSeparator s seps i r : stripIdentifier s seps = (i, r) -> noSeparator seps i.
Proof.
  revert i r. induction s as [|x s IH]; intros i r; unfold stripIdentifier; simpl; [intros [= <- <-]; constructor|].
  destruct (existsb (Z.eqb x) seps) eqn:Ex; simpl; [intros [= <- <-]; constructor|].
  unfold stripIdentifier in IH. destruct (IndexAny s seps) as [k|] eqn:Ek; simpl in *; intros [= <- <-]; constructor; try done;
    by eapply IH.
Qed.

Lemma noSeparator_split seps i i' r r' :
  noSeparator seps i -> noSeparator seps i' -> restOk seps r -> restOk seps r' -> i ++ r = i' ++ r' -> i = i' /\ r = r'.
Proof.
  intros Hi. revert i'. induction Hi as [|c i Hc Hi IH]; intros i' Hi' Hr Hr' E1.
  - destruct Hi' as [|c' i' Hc' Hi']; [done|]. simpl in E1. subst r. destruct Hr as [|(x&y&[= <- <-]&Hx)]; congruence.
  - destruct Hi' as [|c' i' Hc' Hi']; simpl in E1.
    + subst r'. destruct Hr' as [|(x&y&[= <- <-]&Hx)]; congruence.
    + injection E1 as <- E1. destruct (IH i' Hi' Hr Hr' E1) as [-> ->]. done.
Qed.

Lemma restOk_withoutBuild seps r : restOk seps r -> restOk seps (withoutBuild r).
Proof.
  intros [->|(c&r'&->&Hc)]; [by left|]. simpl. destruct (c =? 43); [by left|]. right. by exists c, (withoutBuild r').
Qed.

Lemma noSeparator_plus seps i : separatorsOk seps -> noSeparator seps i -> 43 ∉ i.
Proof.
  intros Hs Hi Hin. unfold noSeparator in Hi. rewrite Forall_forall in Hi. specialize (Hi 43 Hin). by destruct Hs as [-> | ->].
Qed.

(** What the separator and the rest say about the part before the build metadata. *)
Lemma separator_withoutBuild seps r v r' :
  separatorsOk seps -> restOk seps r -> separator r = (v, r') ->
  withoutBuild r = if v =? 0 then [] else (if v =? 1 then 46 else 45) :: withoutBuild r'.
Proof.
  intros Hs [->|(c&r0&->&Hc)]; simpl; intros [= <- <-]; [done|]. apply (separatorsOk_char _ _ Hs) in Hc.
  by destruct Hc as [-> | [-> | ->]].
Qed.

Lemma separator_value r : let v := (separator r).1 in v = -1 \/ v = 0 \/ v = 1.
Proof. destruct r as [|c r]; simpl; [auto|]. destruct (c =? 45), (c =? 46); auto. Qed.

Lemma compareFrom_eq seps a b : separatorsOk seps -> compareFrom seps a b = 0 <-> withoutBuild a = withoutBuild b.
Proof.
  remember (length a) as n eqn:En. revert seps a b En. induction n as [n IH] using lt_wf_ind. intros seps a b En Hs.
  rewrite compareFrom_round by done.
  destruct (stripIdentifier a seps) as [ia ra] eqn:Ea, (stripIdentifier b seps) as [ib rb] eqn:Eb.
  pose proof (stripIdentifier_noSeparator _ _ _ _ Ea) as Na. pose proof (stripIdentifier_noSeparator _ _ _ _ Eb) as Nb.
  pose proof (round_length a seps ia ra) as Hlen. specialize (fun v r' => Hlen v r' Ea).
  apply stripIdentifier_spec in Ea as [-> Ra]. apply stripIdentifier_spec in Eb as [-> Rb].
  rewrite !withoutBuild_app by (by apply (noSeparator_plus seps)).
  pose proof (separator_value ra) as Va. pose proof (separator_value rb) as Vb.
  destruct (separator ra) as [sa ra'] eqn:Sa, (separator rb) as [sb rb'] eqn:Sb. cbn [fst] in *.
  pose proof (separator_withoutBuild _ _ _ _ Hs Ra Sa) as Wa. pose proof (separator_withoutBuild _ _ _ _ Hs Rb Sb) as Wb.
  assert (ia ++ withoutBuild ra = ib ++ withoutBuild rb <-> ia = ib /\ withoutBuild ra = withoutBuild rb) as ->.
  { split; [|by intros [-> ->]]. apply (noSeparator_split seps); try done; by apply restOk_withoutBuild. }
  destruct (Z.eqb_spec (identifierCompare ia ib) 0) as [E1|E1]; simpl.
  2: { split; [done|]. intros [-> _]. exfalso. apply E1. by apply identifierCompare_eq. }
  apply identifierCompare_eq in E1 as ->. rewrite Wa, Wb.
  destruct (Z.eqb_spec (sa - sb) 0) as [E2|E2]; simpl.
  - assert (sb = sa) as -> by lia. destruct (Z.eqb_spec sa 0) as [->|Hne]; [split; [done|lia]|].
    rewrite (IH (length ra')); [|subst n; by eapply Hlen|done|by apply nextSeparators_ok].
    split; [by intros ->|]. intros [_ H]. by injection H.
  - split; [lia|]. intros [_ H]. exfalso. apply E2.
    destruct (Z.eqb_spec sa 0), (Z.eqb_spec sb 0), (Z.eqb_spec sa 1), (Z.eqb_spec sb 1); try lia; try done.
Qed.

(** C31: Versions are totally ordered up to their build metadata: comparing them always
    has a result, which is antisymmetric and transitive, and it is zero for versions
    that only differ in what follows a plus sign. *)
Theorem Compare_total_order a b c :
  exists ab ba bc ac,
    Compare a b = Ok ab /\ Compare b a = Ok ba /\ Compare b c = Ok bc /\ Compare a c = Ok ac /\
    ba = - ab /\ (ab <= 0 -> bc <= 0 -> ac <= 0) /\
    (ab = 0 <-> withoutBuild (moduleVersionValue a) = withoutBuild (moduleVersionValue b)).
Proof.
  do 4 eexists. split_and!; try apply Compare_compareFrom.
  - by apply compareFrom_antisym; left.
  - by apply compareFrom_trans; left.
  - by apply compareFrom_eq; left.
Qed.
