(* ===== verification/LabelProofs.v ===== *)
(** * Labels: what they denote

    A canonical label stands for a repository, a package and a target.  Here it is
    shown that the short forms of labels are sound: labels that are made from the
    same triple are the same string, and what the functions return are the parts of
    that triple. *)

From S2P Require Import Prelude Text Labels.

(** ** Languages *)

Lemma lang_Cat r s a b : lang r a -> lang s b -> lang (Cat r s) (a ++ b).
Proof. intros Ha Hb. by exists a, b. Qed.

Lemma lang_StarChars p l : lang (Star (Chars p)) l <-> Forall (fun c => isByte c && p c = true) l.
Proof.
  split.
  - intros (ls&->&Hls). apply Forall_concat. eapply Forall_impl; [exact Hls|].
    intros x (c&->&Hb&Hp). constructor; [by rewrite Hb, Hp|constructor].
  - intros H. exists (map (fun c => [c]) l). induction H as [|c l Hc Hl [IH1 IH2]]; [split; [done|constructor]|].
    apply andb_true_iff in Hc as [??]. split; [simpl; by rewrite <- IH1|]. constructor; [by exists c|done].
Qed.

Lemma lang_Opt r l : lang (Opt r) l <-> l = [] \/ lang r l.
Proof. simpl. tauto. Qed.

Lemma str_ok s : forallb isByte (str s) = true -> bytes_ok (str s).
Proof.
  rewrite forallb_forall. intros H. apply Forall_forall. intros x Hx. apply list_elem_of_In, H in Hx.
  unfold isByte in Hx. unfold is_u8. lia.
Qed.

Lemma lang_str s k : forallb isByte (str s) = true -> lang (Lit (str s)) k <-> k = str s.
Proof. intros H. by apply lang_Lit, str_ok. Qed.

(** Strings of the form [r(/r)*]: the last component. *)
Lemma lang_slashed r l :
  lang (slashed r) l <-> lang r l \/ exists l' x, l = l' ++ 47 :: x /\ lang (slashed r) l' /\ lang r x.
Proof.
  split.
  - intros (a&b&->&Ha&ls&->&Hls). induction ls as [|y ls IH] using rev_ind; [left; by rewrite app_nil_r|].
    right. apply Forall_app in Hls as [Hls Hy]. apply Forall_cons_1 in Hy as [Hy _].
    destruct Hy as (s&x&->&Hs&Hx). apply lang_str in Hs as ->; [|done]. exists (a ++ concat ls), x.
    split; [rewrite concat_app; simpl; by rewrite app_nil_r, app_assoc|]. split; [|done].
    exists a, (concat ls). split; [done|]. split; [done|]. by exists ls.
  - intros [H|(l'&x&->&(a&b&->&Ha&ls&->&Hls)&Hx)]; [exists l, []; rewrite app_nil_r; split; [done|split; [done|]]; by exists []|].
    exists a, (concat ls ++ 47 :: x). split; [by rewrite app_assoc|]. split; [done|].
    exists (ls ++ [47 :: x]). split; [rewrite concat_app; simpl; by rewrite app_nil_r|].
    apply Forall_app. split; [done|]. constructor; [|constructor]. exists (str "/"), x. split; [done|]. split; [|done]. by apply lang_str.
Qed.

(** A string of allowed characters that starts with one that is not a dot. *)
Lemma lang_component c l :
  isNameNonDotCharacter c = true -> Forall (fun c => isNameCharacter c = true) l -> bytes_ok (c :: l) ->
  lang validPackageNameComponentPattern (c :: l).
Proof.
  intros Hc Hl Hb. apply Forall_cons_1 in Hb as [Hb Hbl].
  assert (forall x, is_u8 x -> isByte x = true) as Hbyte by (intros x; unfold is_u8, isByte; lia).
  apply (lang_Cat _ _ [] (c :: l)); [by exists []|]. apply (lang_Cat _ _ [c] l); [exists c; auto|].
  apply lang_StarChars. unfold bytes_ok in Hbl. rewrite Forall_forall in *. intros x Hx. rewrite Hl, Hbyte by auto. done.
Qed.

(** ** The parts of labels *)

Definition repoOk (r : bytes) : Prop := lang validCanonicalRepoPattern r.
Definition packageOk (p : bytes) : Prop := p = [] \/ lang validNonEmptyPackageNamePattern p.
Definition targetOk (t : bytes) : Prop := lang validTargetNamePattern t.

Ltac decide_lang H := eapply without_lang; [|exact H]; vm_compute; reflexivity.

Lemma repo_slash r : repoOk r -> 47 ∉ r.
Proof. intros H. decide_lang H. Qed.
Lemma repo_colon r : repoOk r -> 58 ∉ r.
Proof. intros H. decide_lang H. Qed.
Lemma repo_bracket r : repoOk r -> 91 ∉ r.
Proof. intros H. decide_lang H. Qed.
Lemma repo_at r : repoOk r -> 64 ∉ r.
Proof. intros H. decide_lang H. Qed.
Lemma repo_cons r : repoOk r -> exists c l, r = c :: l /\ isLower c = true.
Proof.
  intros H. destruct r as [|c l]; [by apply not_nullable_lang in H|].
  exists c, l. split; [done|]. eapply firstb_lang; [|exact H]. vm_compute. reflexivity.
Qed.

Lemma package_colon p : packageOk p -> 58 ∉ p.
Proof. intros [->|H]; [set_solver|]. decide_lang H. Qed.
Lemma target_colon t : targetOk t -> 58 ∉ t.
Proof. intros H. decide_lang H. Qed.
Lemma target_cons t : targetOk t -> t <> [].
Proof. apply not_nullable_lang. reflexivity. Qed.

Lemma component_target x : lang validPackageNameComponentPattern x -> targetOk x.
Proof. intros H. apply lang_slashed. left. by left. Qed.

(** The name of a repository is a target name. *)
Lemma repo_target r : repoOk r -> targetOk r.
Proof.
  intros H. apply component_target. pose proof (lang_bytes_ok _ _ H) as Hb.
  destruct (repo_cons r H) as (c&l&->&Hc). apply lang_component; [|..|done].
  - unfold isNameNonDotCharacter, isNameCharacter, isCntrl, isLower, between in *. lia.
  - eapply (onlyb_lang isNameCharacter) in H; [|vm_compute; reflexivity]. by apply Forall_cons_1 in H as [_ H].
Qed.

(** The last component of a package. *)
Definition baseName (p : bytes) : bytes := drop (Z.to_nat (position (LastIndexByte p 47) + 1)) p.

Lemma component_slash x : lang validPackageNameComponentPattern x -> 47 ∉ x.
Proof. intros H. decide_lang H. Qed.

Lemma component_nonempty x : lang validPackageNameComponentPattern x -> x <> [].
Proof. apply not_nullable_lang. reflexivity. Qed.

Lemma baseName_app a x : 47 ∉ x -> baseName (a ++ 47 :: x) = x.
Proof.
  intros Hx. unfold baseName. rewrite LastIndexByte_app_here by done. simpl.
  replace (Z.to_nat (Z.of_nat (length a) + 1)) with (length (a ++ [47])) by (rewrite length_app; simpl; lia).
  rewrite (cons_middle 47 a x), app_assoc. apply drop_app_length.
Qed.

Lemma baseName_only x : 47 ∉ x -> baseName x = x.
Proof. intros Hx. unfold baseName. by rewrite (proj2 (LastIndexByte_None x 47)). Qed.

Lemma package_baseName p : lang validNonEmptyPackageNamePattern p -> lang validPackageNameComponentPattern (baseName p).
Proof.
  intros [H|(l&x&->&_&H)]%lang_slashed.
  - by rewrite baseName_only; [|apply component_slash].
  - by rewrite baseName_app; [|apply component_slash].
Qed.

(** A package does not end with a slash. *)
Lemma package_last p x : lang validNonEmptyPackageNamePattern (p ++ [x]) -> x <> 47.
Proof.
  intros H ->. eapply (lastb_lang (fun c => negb (c =? 47))) in H; [done|]. vm_compute. reflexivity.
Qed.

Lemma package_suffix a p : lang validNonEmptyPackageNamePattern p -> HasSuffix (a ++ p) (str "//") = false.
Proof.
  intros H. destruct (HasSuffix (a ++ p) (str "//")) eqn:E1; [|done]. apply HasSuffix_spec in E1 as [b E1]. exfalso.
  destruct p as [|x p _] using rev_ind; [by apply not_nullable_lang in H|].
  apply package_last in H. change (str "//") with ([47] ++ [47]) in E1. rewrite !app_assoc in E1. by apply app_inj_tail in E1 as [_ ->].
Qed.

Lemma drop_after (a : bytes) c t : drop (S (length a)) (a ++ c :: t) = t.
Proof. rewrite (cons_middle c a t), app_assoc. apply drop_app_length'. rewrite length_app. simpl. lia. Qed.

(** ** Short forms *)

(** The long form of a label, and its package. *)
Definition fullLabel (r p t : bytes) : bytes := str "@@" ++ r ++ str "//" ++ p ++ str ":" ++ t.
Definition packageForm (r p : bytes) : bytes := str "@@" ++ r ++ match p with [] => [] | _ => str "//" ++ p end.

(** The target that a package is short for. *)
Definition defaultTarget (r p : bytes) : bytes := match p with [] => r | _ => baseName p end.

Definition shortLabel (r p t : bytes) : bytes := if bool_decide (t = defaultTarget r p) then packageForm r p else fullLabel r p t.

Lemma fullLabel_split r p t :
  fullLabel r p t = (str "@@" ++ r ++ str "//" ++ p) ++ 58 :: t.
Proof. unfold fullLabel. change (58 :: t) with (str ":" ++ t). by rewrite <- !app_assoc. Qed.

Lemma not_in_app (c : Z) (a b : bytes) : c ∉ a ++ b <-> c ∉ a /\ c ∉ b.
Proof. rewrite elem_of_app. tauto. Qed.

Lemma prefix_colon r p : repoOk r -> packageOk p -> 58 ∉ str "@@" ++ r ++ str "//" ++ p.
Proof.
  intros Hr Hp. rewrite !not_in_app. split_and!; [by simpl; set_solver|by apply repo_colon|by simpl; set_solver|by apply package_colon].
Qed.

(** A label after a prefix for the repository. *)
Definition shortAfter (s n p t : bytes) : bytes :=
  if bool_decide (t = defaultTarget n p) then s ++ match p with [] => [] | _ => str "//" ++ p end
  else s ++ str "//" ++ p ++ str ":" ++ t.

Lemma removeRedundant_after s p t :
  47 ∉ s -> 58 ∉ s -> HasPrefix s (str "@@[") = false -> packageOk p ->
  removeLabelTargetNameIfRedundant (s ++ str "//" ++ p ++ str ":" ++ t) = shortAfter s (TrimLeft s 64) p t.
Proof.
  intros Hs1 Hs2 Hb Hp. unfold removeLabelTargetNameIfRedundant.
  assert (s ++ str "//" ++ p ++ str ":" ++ t = (s ++ str "//" ++ p) ++ 58 :: t) as E0
    by (change (58 :: t) with (str ":" ++ t); by rewrite <- !app_assoc).
  assert (58 ∉ s ++ str "//" ++ p) as Hc.
  { rewrite !not_in_app. split_and!; [done|by vm_compute; set_solver|by apply package_colon]. }
  rewrite E0, IndexByte_app_here by done. set (a := s ++ str "//" ++ p). rewrite take_app_length, drop_after.
  unfold shortAfter, defaultTarget. rewrite E0. fold a. unfold a at 1. destruct Hp as [->|Hp].
  - replace (s ++ str "//" ++ []) with (s ++ str "//") by (by rewrite app_nil_r).
    rewrite CutSuffix_app, Hb. by rewrite app_nil_r.
  - assert (p <> []) as Hne by (by apply not_nullable_lang in Hp).
    assert (s ++ str "//" ++ p = (s ++ str "//") ++ p) as Ea by (by rewrite !app_assoc).
    rewrite Ea, CutSuffix_no by (by apply package_suffix).
    change (drop (Z.to_nat (position (LastIndexByte ?x 47) + 1)) ?x) with (baseName x).
    assert (baseName a = baseName p) as ->.
    { unfold a. rewrite Ea. apply lang_slashed in Hp as [Hp|(l&x&->&_&Hp)]; pose proof (component_slash _ Hp) as Hs.
      - rewrite (baseName_only p Hs). change (str "//") with ([47] ++ [47]). rewrite !app_assoc, <- (app_assoc _ [47] p).
        by apply baseName_app.
      - by rewrite baseName_app, app_assoc, baseName_app. }
    by destruct p.
Qed.

Lemma TrimLeft_repo r : repoOk r -> TrimLeft (str "@@" ++ r) 64 = r.
Proof.
  intros Hr. destruct (repo_cons r Hr) as (c&l&->&Hc). simpl. destruct (Z.eqb_spec c 64) as [->|]; [by vm_compute in Hc|done].
Qed.

Lemma at_repo_slash r : repoOk r -> 47 ∉ str "@@" ++ r.
Proof. intros Hr. rewrite not_in_app. split; [by vm_compute; set_solver|by apply repo_slash]. Qed.

Lemma shortAfter_repo r p t : shortAfter (str "@@" ++ r) r p t = shortLabel r p t.
Proof. unfold shortAfter, shortLabel, packageForm, fullLabel. by rewrite <- !app_assoc. Qed.

Lemma removeRedundant_full r p t :
  repoOk r -> packageOk p -> removeLabelTargetNameIfRedundant (fullLabel r p t) = shortLabel r p t.
Proof.
  intros Hr Hp. unfold fullLabel. rewrite app_assoc, removeRedundant_after; [|by apply at_repo_slash|..|done].
  - rewrite TrimLeft_repo by done. apply shortAfter_repo.
  - rewrite not_in_app. split; [by vm_compute; set_solver|by apply repo_colon].
  - destruct (repo_cons r Hr) as (c&l&->&Hc). apply bool_decide_eq_false. simpl. intros [= ->]. by vm_compute in Hc.
Qed.

Lemma packageForm_colon r p : repoOk r -> packageOk p -> 58 ∉ packageForm r p.
Proof.
  intros Hr Hp. pose proof (prefix_colon r p Hr Hp) as H. rewrite !not_in_app in H. destruct H as (H1&H2&H3&H4).
  unfold packageForm. rewrite !not_in_app. split_and!; [done..|]. destruct p; [set_solver|]. by rewrite not_in_app.
Qed.

Lemma removeRedundant_package r p : repoOk r -> packageOk p -> removeLabelTargetNameIfRedundant (packageForm r p) = packageForm r p.
Proof.
  intros Hr Hp. unfold removeLabelTargetNameIfRedundant. by rewrite (proj2 (IndexByte_None _ 58) (packageForm_colon r p Hr Hp)).
Qed.

Lemma defaultTarget_ok r p : repoOk r -> packageOk p -> targetOk (defaultTarget r p).
Proof.
  intros Hr [->|Hp]; [by apply repo_target|]. destruct p as [|x p]; [by apply repo_target|].
  by apply component_target, package_baseName.
Qed.

(** Labels that match are long or short forms. *)
Lemma lang_absolute l :
  lang validAbsoluteLabelPattern l <->
  exists p, packageOk p /\ ((exists t, targetOk t /\ l = str "//" ++ p ++ str ":" ++ t) \/ (p <> [] /\ l = str "//" ++ p)).
Proof.
  split.
  - intros (a&b&->&Ha&Hb). apply lang_str in Ha as ->; [|done]. destruct Hb as [(c&t&->&Hc&Ht)|(p&b'&->&Hp&Hb)].
    + apply lang_str in Hc as ->; [|done]. exists []. split; [by left|]. left. by exists t.
    + exists p. split; [by right|]. apply lang_Opt in Hb as [->|(c&t&->&Hc&Ht)].
      * right. split; [by apply not_nullable_lang in Hp|]. by rewrite app_nil_r.
      * apply lang_str in Hc as ->; [|done]. left. by exists t.
  - intros (p&Hp&[(t&Ht&->)|[Hne ->]]); (apply lang_Cat; [by apply lang_str|]).
    + assert (lang colonTargetName (str ":" ++ t)) by (apply lang_Cat; [by apply lang_str|done]).
      destruct Hp as [->|Hp]; [by left|]. right. apply lang_Cat; [done|]. by left.
    + right. destruct Hp as [->|Hp]; [done|]. exists p, []. rewrite app_nil_r. split; [done|]. split; [done|]. by right.
Qed.

Lemma lang_canonicalLabel v :
  lang validCanonicalLabelPattern v <->
  exists r p t, repoOk r /\ packageOk p /\ targetOk t /\
    (v = fullLabel r p t \/ (v = packageForm r p /\ t = defaultTarget r p)).
Proof.
  split.
  - intros (a&b&->&Ha&r&rest&->&Hr&Hb). apply lang_str in Ha as ->; [|done]. apply lang_Opt in Hb as [->|Hb].
    + exists r, [], r. split; [done|]. split; [by left|]. split; [by apply repo_target|]. right. done.
    + apply lang_absolute in Hb as (p&Hp&[(t&Ht&->)|[Hne ->]]); [exists r, p, t; by auto|].
      exists r, p, (defaultTarget r p). split; [done|]. split; [done|]. split; [by apply defaultTarget_ok|]. right.
      split; [|done]. unfold packageForm. by destruct p.
  - intros (r&p&t&Hr&Hp&Ht&Hv). assert (exists rest, v = str "@@" ++ r ++ rest /\ (rest = [] \/ lang validAbsoluteLabelPattern rest)) as (rest&->&H).
    { destruct Hv as [->|[-> _]].
      - exists (str "//" ++ p ++ str ":" ++ t). split; [done|]. right. apply lang_absolute. exists p. split; [done|]. left. by exists t.
      - unfold packageForm. destruct p as [|x p]; [exists []; auto|]. exists (str "//" ++ x :: p). split; [done|]. right.
        apply lang_absolute. exists (x :: p). split; [done|]. by right. }
    apply lang_Cat; [by apply lang_str|]. apply lang_Cat; [done|]. apply lang_Opt. tauto.
Qed.

Lemma shortLabel_lang r p t : repoOk r -> packageOk p -> targetOk t -> lang validCanonicalLabelPattern (shortLabel r p t).
Proof.
  intros Hr Hp Ht. apply lang_canonicalLabel. exists r, p, t. split; [done|]. split; [done|]. split; [done|].
  unfold shortLabel. case_bool_decide; auto.
Qed.

Lemma removeRedundant_short r p t :
  repoOk r -> packageOk p -> removeLabelTargetNameIfRedundant (shortLabel r p t) = shortLabel r p t.
Proof.
  intros Hr Hp. unfold shortLabel at 1. case_bool_decide as Et; [|by apply removeRedundant_full].
  rewrite removeRedundant_package by done. unfold shortLabel. by rewrite bool_decide_true.
Qed.

Lemma validated_lang {A} r (f : bytes -> A) v : lang r v -> validated r f v = Ok (f v).
Proof. intros H. unfold validated. by rewrite (proj2 (matchString_lang r v) H). Qed.

Lemma validated_Ok {A} r (f : bytes -> A) v x : validated r f v = Ok x -> lang r v /\ x = f v.
Proof. unfold validated. destruct (matchString r v) eqn:Em; [|done]. intros [= <-]. split; [by apply matchString_lang|done]. Qed.

(** The label of a repository, a package and a target. *)
Definition labelOf (r p t : bytes) : CanonicalLabel := mkCanonicalLabel (shortLabel r p t).

Lemma NewCanonicalLabel_full r p t :
  repoOk r -> packageOk p -> targetOk t -> NewCanonicalLabel (fullLabel r p t) = Ok (labelOf r p t).
Proof.
  intros Hr Hp Ht. unfold NewCanonicalLabel. rewrite validated_lang.
  - unfold newValidCanonicalLabel. by rewrite removeRedundant_full.
  - apply lang_canonicalLabel. exists r, p, t. auto.
Qed.

Lemma NewCanonicalLabel_short r p t :
  repoOk r -> packageOk p -> targetOk t -> NewCanonicalLabel (canonicalLabelValue (labelOf r p t)) = Ok (labelOf r p t).
Proof.
  intros Hr Hp Ht. unfold NewCanonicalLabel, labelOf. cbn [canonicalLabelValue].
  rewrite validated_lang by (by apply shortLabel_lang). unfold newValidCanonicalLabel. by rewrite removeRedundant_short.
Qed.

Lemma NewCanonicalLabel_inv v l :
  NewCanonicalLabel v = Ok l -> exists r p t, repoOk r /\ packageOk p /\ targetOk t /\ l = labelOf r p t.
Proof.
  intros [Hv ->]%validated_Ok. apply lang_canonicalLabel in Hv as (r&p&t&Hr&Hp&Ht&Hv). exists r, p, t.
  split; [done|]. split; [done|]. split; [done|]. unfold newValidCanonicalLabel, labelOf. f_equal.
  destruct Hv as [->|[-> ->]]; [by apply removeRedundant_full|]. rewrite removeRedundant_package by done.
  unfold shortLabel. by rewrite bool_decide_true.
Qed.

(** ** What the functions return *)

Lemma getCanonicalRepo_form r rest :
  47 ∉ r -> (rest = [] \/ exists k, rest = 47 :: k) -> getCanonicalRepo (str "@@" ++ r ++ rest) = Ok (mkCanonicalRepo r).
Proof.
  intros Hr Hrest. unfold getCanonicalRepo. rewrite slice_from_app by done. simpl. destruct Hrest as [->|[k ->]].
  - rewrite app_nil_r. by rewrite (proj2 (IndexByte_None r 47)).
  - rewrite IndexByte_app_here by done. by rewrite take_app_length.
Qed.

Lemma GetCanonicalRepo_label r p t : repoOk r -> CanonicalLabel_GetCanonicalRepo (labelOf r p t) = Ok (mkCanonicalRepo r).
Proof.
  intros Hr. unfold CanonicalLabel_GetCanonicalRepo, labelOf, shortLabel, packageForm. cbn [canonicalLabelValue].
  case_bool_decide; [|apply getCanonicalRepo_form; [by apply repo_slash|right; by eexists]].
  apply getCanonicalRepo_form; [by apply repo_slash|]. destruct p; [by left|right; by eexists].
Qed.

Lemma GetCanonicalRepo_package r p : repoOk r -> CanonicalPackage_GetCanonicalRepo (mkCanonicalPackage (packageForm r p)) = Ok (mkCanonicalRepo r).
Proof.
  intros Hr. apply getCanonicalRepo_form; [by apply repo_slash|]. destruct p; [by left|right; by eexists].
Qed.

Lemma GetPackagePath_form r p : repoOk r -> packageOk p -> GetPackagePath (mkCanonicalPackage (packageForm r p)) = Ok p.
Proof.
  intros Hr Hp. unfold GetPackagePath, packageForm. cbn [canonicalPackageValue]. pose proof (repo_slash r Hr) as Hs.
  assert (47 ∉ str "@@" ++ r) as Hs' by (rewrite not_in_app; split; [by vm_compute; set_solver|done]).
  destruct p as [|x p].
  - rewrite app_nil_r. by rewrite (proj2 (IndexByte_None _ 47) Hs').
  - change (str "//" ++ x :: p) with (47 :: 47 :: x :: p). rewrite app_assoc, IndexByte_app_here by done.
    change (47 :: 47 :: x :: p) with ([47; 47] ++ x :: p). rewrite app_assoc. apply slice_from_app.
    unfold zlen. rewrite length_app. simpl. lia.
Qed.

Lemma GetCanonicalPackage_label r p t :
  repoOk r -> packageOk p -> GetCanonicalPackage (labelOf r p t) = mkCanonicalPackage (packageForm r p).
Proof.
  intros Hr Hp. unfold GetCanonicalPackage, labelOf, shortLabel. cbn [canonicalLabelValue]. case_bool_decide.
  - by rewrite (proj2 (IndexByte_None _ 58) (packageForm_colon r p Hr Hp)).
  - rewrite fullLabel_split, IndexByte_app_here by (by apply prefix_colon). rewrite take_app_length. f_equal.
    unfold TrimSuffix, packageForm. destruct Hp as [->|Hp].
    + replace (str "@@" ++ r ++ str "//" ++ []) with ((str "@@" ++ r) ++ str "//") by (by rewrite app_nil_r, app_assoc).
      rewrite CutSuffix_app. by rewrite app_nil_r.
    + assert (str "@@" ++ r ++ str "//" ++ p = (str "@@" ++ r ++ str "//") ++ p) as Ea by (by rewrite !app_assoc).
      rewrite Ea, CutSuffix_no by (by apply package_suffix). apply not_nullable_lang in Hp; [|done]. by destruct p.
Qed.

Lemma GetTargetName_label r p t : repoOk r -> packageOk p -> GetTargetName (labelOf r p t) = mkTargetName t.
Proof.
  intros Hr Hp. unfold GetTargetName, labelOf, shortLabel. cbn [canonicalLabelValue]. case_bool_decide as Et.
  - rewrite (proj2 (IndexByte_None _ 58) (packageForm_colon r p Hr Hp)). subst t. unfold packageForm, defaultTarget.
    destruct Hp as [->|Hp].
    + rewrite app_nil_r. assert (47 ∉ str "@@" ++ r) as Hs
        by (rewrite not_in_app; split; [by vm_compute; set_solver|by apply repo_slash]).
      rewrite (proj2 (LastIndexByte_None _ 47) Hs). f_equal. destruct (repo_cons r Hr) as (c&l&->&Hc). simpl.
      destruct (Z.eqb_spec c 64) as [->|]; [by vm_compute in Hc|done].
    + assert (exists a x, str "@@" ++ r ++ str "//" ++ p = a ++ 47 :: x /\ 47 ∉ x /\ baseName p = x) as (a&x&E1&Hx&Eb).
      { apply lang_slashed in Hp as [Hp|(l&x&->&_&Hp)]; pose proof (component_slash _ Hp) as Hs.
        - exists (str "@@" ++ r ++ [47]), p. rewrite baseName_only by done. split; [|done].
          change (str "//") with ([47] ++ [47]). by rewrite <- !app_assoc.
        - exists (str "@@" ++ r ++ str "//" ++ l), x. rewrite baseName_app by done. split; [by rewrite <- !app_assoc|done]. }
      destruct p as [|y p]; [by apply not_nullable_lang in Hp|]. rewrite E1, LastIndexByte_app_here by done.
      by rewrite drop_after, Eb.
  - rewrite fullLabel_split, IndexByte_app_here by (by apply prefix_colon). by rewrite drop_after.
Qed.

(** C29: A canonical label stands for a repository, a package and a target: it can be
    made from any of them, the functions of the label return them, and a label is
    made from its own string.  Every string that is accepted yields the label of some
    repository, package and target, so that labels are equal if and only if they
    stand for the same. *)
Theorem CanonicalLabel_parts r p t :
  repoOk r -> packageOk p -> targetOk t ->
  (exists l, NewCanonicalLabel (fullLabel r p t) = Ok l /\ NewCanonicalLabel (canonicalLabelValue l) = Ok l /\
    CanonicalLabel_GetCanonicalRepo l = Ok (mkCanonicalRepo r) /\ GetPackagePath (GetCanonicalPackage l) = Ok p /\
    GetTargetName l = mkTargetName t) /\
  (forall v l, NewCanonicalLabel v = Ok l -> exists r p t, repoOk r /\ packageOk p /\ targetOk t /\ NewCanonicalLabel (fullLabel r p t) = Ok l).
Proof.
  intros Hr Hp Ht. split.
  - exists (labelOf r p t). split; [by apply NewCanonicalLabel_full|]. split; [by apply NewCanonicalLabel_short|].
    split; [by apply GetCanonicalRepo_label|]. rewrite GetCanonicalPackage_label by done.
    split; [by apply GetPackagePath_form|]. by apply GetTargetName_label.
  - intros v l (r'&p'&t'&Hr'&Hp'&Ht'&->)%NewCanonicalLabel_inv. exists r', p', t'. split; [done|]. split; [done|].
    split; [done|]. by apply NewCanonicalLabel_full.
Qed.

Lemma repoOk_example : repoOk (str "rules_go+1.2").
Proof. apply matchString_lang. vm_compute. reflexivity. Qed.
Lemma packageOk_example : packageOk (str "go/tools").
Proof. right. apply matchString_lang. vm_compute. reflexivity. Qed.
Lemma targetOk_example : targetOk (str "tools").
Proof. apply matchString_lang. vm_compute. reflexivity. Qed.

Lemma CanonicalLabel_parts_witness :
  exists l, NewCanonicalLabel (str "@@rules_go+1.2//go/tools:tools") = Ok l /\ GetTargetName l = mkTargetName (str "tools").
Proof.
  destruct (CanonicalLabel_parts (str "rules_go+1.2") (str "go/tools") (str "tools") repoOk_example packageOk_example targetOk_example)
    as [(l&H1&_&_&_&H2) _]. exists l. split; [exact H1|exact H2].
Defined.

(** ** Paths *)

(** The path of a target in its repository. *)
Definition pathOf (p t : bytes) : bytes := match p with [] => t | _ => p ++ str "/" ++ t end.

Lemma slice_from_2 v : slice_from (str "@@" ++ v) 2 = Ok v.
Proof. by apply slice_from_app. Qed.

(** The label without the leading at signs, taken apart. *)
Lemma label_body r p t :
  repoOk r -> packageOk p ->
  exists body, slice_from (canonicalLabelValue (labelOf r p t)) 2 = Ok body /\
    ((t = defaultTarget r p /\ IndexByte body 58 = None /\
       ((p = [] /\ body = r /\ IndexByte body 47 = None) \/
        (p <> [] /\ body = r ++ str "//" ++ p /\ IndexByte body 47 = Some (length r) /\ baseName body = t))) \/
     (body = (r ++ str "//" ++ p) ++ 58 :: t /\ IndexByte body 58 = Some (length (r ++ str "//" ++ p)))).
Proof.
  intros Hr Hp. pose proof (repo_slash r Hr) as Hs. pose proof (repo_colon r Hr) as Hc. pose proof (package_colon p Hp) as Hpc.
  assert (58 ∉ r ++ str "//" ++ p) as Hcol.
  { rewrite !not_in_app. split_and!; [done|by vm_compute; set_solver|done]. }
  unfold labelOf, shortLabel. cbn [canonicalLabelValue]. case_bool_decide as Et.
  - unfold packageForm. rewrite slice_from_2. destruct Hp as [->|Hp].
    + exists r. rewrite app_nil_r. split; [done|]. left. split; [done|]. rewrite !(proj2 (IndexByte_None r _)) by done.
      split; [done|]. by left.
    + assert (p <> []) as Hne by (by apply not_nullable_lang in Hp).
      exists (r ++ str "//" ++ p). split; [by destruct p|]. left. split; [done|].
      rewrite (proj2 (IndexByte_None _ 58)) by done. split; [done|]. right. split; [done|]. split; [done|].
      split; [by apply (IndexByte_app_here r (str "/" ++ p) 47)|]. subst t. unfold defaultTarget.
      apply lang_slashed in Hp as [Hp|(l&x&->&_&Hp)]; pose proof (component_slash _ Hp) as Hx.
      * replace (r ++ str "//" ++ p) with ((r ++ [47]) ++ 47 :: p) by (by rewrite <- app_assoc).
        rewrite baseName_app by done. destruct p; [done|]. by rewrite baseName_only.
      * rewrite !app_assoc, baseName_app by done. destruct (l ++ 47 :: x) eqn:El; [done|]. by rewrite <- El, baseName_app.
  - exists ((r ++ str "//" ++ p) ++ 58 :: t). split; [|right; split; [done|by apply IndexByte_app_here]].
    rewrite fullLabel_split, <- (app_assoc (str "@@")). apply slice_from_2.
Qed.

Lemma slice_from_package r p : slice_from (r ++ str "//" ++ p) (Z.of_nat (length r) + 2) = Ok p.
Proof. rewrite app_assoc. apply slice_from_app. unfold zlen. rewrite length_app. simpl. lia. Qed.

Lemma IndexByte_package r p : 47 ∉ r -> IndexByte (r ++ str "//" ++ p) 47 = Some (length r).
Proof. intros H. by apply (IndexByte_app_here r (str "/" ++ p) 47). Qed.

(** The path of a label in its repository is the one of the target below its
    package, and the one below the directory of all repositories has the name of the
    repository before it; the short forms of labels make no difference. *)
Theorem RelativePath_of_parts r p t :
  repoOk r -> packageOk p ->
  GetRepoRelativePath (labelOf r p t) = Ok (pathOf p t) /\
  GetExternalRelativePath (labelOf r p t) = Ok (r ++ str "/" ++ pathOf p t).
Proof.
  intros Hr Hp. pose proof (repo_slash r Hr) as Hs. destruct (label_body r p t Hr Hp) as (body&Hb&H).
  unfold GetRepoRelativePath, GetExternalRelativePath. rewrite Hb. simpl.
  destruct H as [(Et&Ec&[(->&->&Ei)|(Hne&->&Ei&El)])|(->&Ec)]; rewrite Ec.
  - rewrite Ei. by rewrite Et.
  - rewrite Ei, slice_from_package. cbn [mbind outcome_bind]. unfold baseName in El. rewrite El.
    destruct p as [|x p]; [done|]. split; [done|]. f_equal.
    change (str "//" ++ x :: p) with ([47] ++ 47 :: x :: p). rewrite (app_assoc r [47]), (take_app_length' (r ++ [47])) by (rewrite length_app; simpl; lia).
    by rewrite <- app_assoc.
  - rewrite take_app_length, IndexByte_package by done. cbn [position]. rewrite slice_from_package.
    rewrite drop_after. split; [by destruct p|].
    assert (slice (r ++ str "//" ++ p) 0 (Z.of_nat (length r) + 1) = Ok (r ++ [47])) as ->.
    { change (str "//" ++ p) with ([47] ++ 47 :: p). rewrite app_assoc. apply slice_prefix. unfold zlen. rewrite length_app. simpl. lia. }
    simpl. destruct p; simpl; by rewrite <- app_assoc.
Qed.

Lemma RelativePath_of_parts_witness :
  GetExternalRelativePath (labelOf (str "rules_go+1.2") (str "go/tools") (str "tools")) = Ok (str "rules_go+1.2/go/tools/tools").
Proof. apply (RelativePath_of_parts _ _ _ repoOk_example packageOk_example). Defined.

(** ** Apparent labels and their resolution *)

Definition apparentRepoOk (a : bytes) : Prop := lang validApparentRepoPattern a.
Definition moduleOk (m : bytes) : Prop := lang validModulePattern m.

Lemma apparentRepo_without a c : apparentRepoOk a -> without c validApparentRepoPattern = true -> c ∉ a.
Proof. intros H Hc. by eapply without_lang. Qed.

Lemma apparentRepo_cons a : apparentRepoOk a -> exists c l, a = c :: l /\ isWord c = true.
Proof.
  intros H. destruct a as [|c l]; [by apply not_nullable_lang in H|]. exists c, l. split; [done|].
  eapply firstb_lang; [|exact H]. vm_compute. reflexivity.
Qed.

Lemma module_repo m : moduleOk m -> repoOk (m ++ str "+").
Proof.
  intros Hm. exists (m ++ str "+"), []. rewrite app_nil_r. split; [done|]. split; [|by right].
  apply lang_Cat; [done|]. exists (str "+"), []. split; [done|]. split; [by apply lang_str|by right].
Qed.

(** What comes before the two slashes of an apparent label, and the target that it is
    short for. *)
Inductive apparentPrefix : bytes -> bytes -> Prop :=
  | PrefixApparent a : apparentRepoOk a -> apparentPrefix (str "@" ++ a) a
  | PrefixRoot : apparentPrefix (str "@@") []
  | PrefixCanonical r : repoOk r -> apparentPrefix (str "@@" ++ r) r.

Lemma apparentPrefix_facts s n :
  apparentPrefix s n ->
  47 ∉ s /\ 58 ∉ s /\ HasPrefix s (str "@@[") = false /\ TrimLeft s 64 = n /\ (0 < length s)%nat.
Proof.
  destruct 1 as [a Ha| |r Hr].
  - pose proof (apparentRepo_without a 47 Ha eq_refl). pose proof (apparentRepo_without a 58 Ha eq_refl).
    destruct (apparentRepo_cons a Ha) as (c&l&->&Hc).
    assert (c <> 64) by (intros ->; by vm_compute in Hc).
    split; [rewrite not_in_app; split; [by vm_compute; set_solver|done]|].
    split; [rewrite not_in_app; split; [by vm_compute; set_solver|done]|].
    split; [apply bool_decide_eq_false; simpl; by intros [= -> _]|]. split; [|simpl; lia].
    simpl. by destruct (Z.eqb_spec c 64).
  - split; [by vm_compute; set_solver|]. split; [by vm_compute; set_solver|]. split; [done|]. split; [done|simpl; lia].
  - pose proof (repo_slash r Hr). pose proof (repo_colon r Hr). destruct (repo_cons r Hr) as (c&l&->&Hc).
    split; [rewrite not_in_app; split; [by vm_compute; set_solver|done]|].
    split; [rewrite not_in_app; split; [by vm_compute; set_solver|done]|].
    split; [apply bool_decide_eq_false; simpl; intros [= ->]; by vm_compute in Hc|]. split; [|simpl; lia]. by apply TrimLeft_repo.
Qed.

(** The apparent label of a prefix, a package and a target. *)
Definition apparentLabelOf (s n p t : bytes) : ApparentLabel := mkApparentLabel (shortAfter s n p t).

Lemma lang_absolute_full p t : packageOk p -> targetOk t -> lang validAbsoluteLabelPattern (str "//" ++ p ++ str ":" ++ t).
Proof. intros Hp Ht. apply lang_absolute. exists p. split; [done|]. left. by exists t. Qed.

Lemma NewApparentLabel_full s n p t :
  apparentPrefix s n -> packageOk p -> targetOk t ->
  NewApparentLabel (s ++ str "//" ++ p ++ str ":" ++ t) = Ok (apparentLabelOf s n p t).
Proof.
  intros Hs Hp Ht. destruct (apparentPrefix_facts s n Hs) as (H1&H2&H3&<-&_). unfold NewApparentLabel. rewrite validated_lang.
  - unfold newValidApparentLabel. by rewrite removeRedundant_after.
  - pose proof (lang_absolute_full p t Hp Ht) as Ha. destruct Hs as [a Happ| |r Hr].
    + left. apply lang_Cat; [|by left]. apply lang_Cat; [by apply lang_str|by left].
    + right. apply lang_Cat; [by apply lang_str|done].
    + left. apply lang_Cat; [|by left]. change (str "@@") with (str "@" ++ str "@"). rewrite <- app_assoc.
      apply lang_Cat; [by apply lang_str|]. right. apply lang_Cat; [by apply lang_str|done].
Qed.

(** A label with another repository in its place. *)
Lemma shortAfter_cases s n p t :
  shortAfter s n p t = s ++ str "//" ++ p ++ str ":" ++ t \/
  (t = n /\ p = [] /\ shortAfter s n p t = s) \/
  (p <> [] /\ t = baseName p /\ shortAfter s n p t = s ++ str "//" ++ p).
Proof.
  unfold shortAfter, defaultTarget. case_bool_decide as Et; [|by left]. right. destruct p; [left|right; done].
  by rewrite app_nil_r.
Qed.

Lemma IndexByte_after s k : 47 ∉ s -> IndexByte (s ++ str "//" ++ k) 47 = Some (length s).
Proof. apply IndexByte_package. Qed.

Lemma WithCanonicalRepo_label s n p t r :
  apparentPrefix s n -> repoOk r -> packageOk p ->
  ApparentLabel_WithCanonicalRepo (apparentLabelOf s n p t) (mkCanonicalRepo r) = labelOf r p t.
Proof.
  intros Hs Hr Hp. destruct (apparentPrefix_facts s n Hs) as (H1&_&_&Hn&Hl). unfold ApparentLabel_WithCanonicalRepo, apparentLabelOf.
  cbn [apparentLabelValue]. unfold applyToLabelOrTargetPattern, newValidCanonicalLabel, labelOf. cbn [canonicalRepoValue]. f_equal.
  destruct (shortAfter_cases s n p t) as [->|[(->&->&->)|(Hne&->&->)]].
  - rewrite IndexByte_after by done. destruct (length s) eqn:El; [lia|]. rewrite <- El, drop_app_length. by apply removeRedundant_full.
  - rewrite (proj2 (IndexByte_None s 47) H1), Hn. apply (removeRedundant_full r [] n Hr Hp).
  - rewrite IndexByte_after by done. destruct (length s) eqn:El; [lia|]. rewrite <- El, drop_app_length.
    assert (str "@@" ++ r ++ str "//" ++ p = packageForm r p) as -> by (unfold packageForm; by destruct p).
    rewrite removeRedundant_package by done. unfold shortLabel, defaultTarget. rewrite bool_decide_true; [done|by destruct p].
Qed.

Lemma hasCanonicalRepo_prefix c1 c2 k :
  hasCanonicalRepo (64 :: c1 :: c2 :: k) = (c1 =? 64) && negb (c2 =? 47).
Proof.
  unfold hasCanonicalRepo. assert (2 <? zlen (64 :: c1 :: c2 :: k) = true) as -> by (apply Z.ltb_lt; unfold zlen; simpl; lia).
  simpl. f_equal; [|f_equal]; apply eq_true_iff_eq; rewrite bool_decide_eq_true, Z.eqb_eq; split; congruence.
Qed.

Lemma shortAfter_prefix s n p t : exists k, shortAfter s n p t = s ++ k /\ (k = [] \/ exists k', k = 47 :: k').
Proof.
  destruct (shortAfter_cases s n p t) as [->|[(->&->&->)|(Hne&->&->)]].
  - exists (str "//" ++ p ++ str ":" ++ t). split; [done|right; by eexists].
  - exists []. rewrite app_nil_r. auto.
  - exists (str "//" ++ p). split; [done|right; by eexists].
Qed.

Lemma AsCanonical_apparent a p t : apparentRepoOk a -> ApparentLabel_AsCanonical (apparentLabelOf (str "@" ++ a) a p t) = None.
Proof.
  intros Ha. unfold ApparentLabel_AsCanonical, apparentLabelOf. cbn [apparentLabelValue].
  destruct (shortAfter_prefix (str "@" ++ a) a p t) as (k&->&Hk). destruct (apparentRepo_cons a Ha) as (c&l&->&Hc).
  assert (c <> 64) as Hne by (intros ->; by vm_compute in Hc). simpl. destruct (l ++ k) as [|c2 k'] eqn:El; [done|].
  rewrite hasCanonicalRepo_prefix. by destruct (Z.eqb_spec c 64).
Qed.

Lemma AsCanonical_root p t : ApparentLabel_AsCanonical (apparentLabelOf (str "@@") [] p t) = None.
Proof.
  unfold ApparentLabel_AsCanonical, apparentLabelOf. cbn [apparentLabelValue].
  destruct (shortAfter_prefix (str "@@") [] p t) as (k&->&[->|[k' ->]]); [done|]. simpl. by rewrite hasCanonicalRepo_prefix.
Qed.

Lemma AsCanonical_canonical r p t :
  repoOk r -> ApparentLabel_AsCanonical (apparentLabelOf (str "@@" ++ r) r p t) = Some (labelOf r p t).
Proof.
  intros Hr. unfold ApparentLabel_AsCanonical, apparentLabelOf, labelOf. cbn [apparentLabelValue]. rewrite <- shortAfter_repo.
  destruct (shortAfter_prefix (str "@@" ++ r) r p t) as (k&->&_). destruct (repo_cons r Hr) as (c&l&->&Hc). simpl.
  rewrite hasCanonicalRepo_prefix. simpl. destruct (Z.eqb_spec c 47) as [->|]; [by vm_compute in Hc|done].
Qed.

Lemma GetApparentRepo_apparent a p t :
  apparentRepoOk a -> ApparentLabel_GetApparentRepo (apparentLabelOf (str "@" ++ a) a p t) = Ok (Some (mkApparentRepo a)).
Proof.
  intros Ha. unfold ApparentLabel_GetApparentRepo, apparentLabelOf. cbn [apparentLabelValue].
  destruct (shortAfter_prefix (str "@" ++ a) a p t) as (k&->&Hk). unfold getApparentRepo.
  pose proof (apparentRepo_without a 47 Ha eq_refl) as H47. rewrite <- app_assoc, slice_from_app by done. cbn [mbind outcome_bind].
  destruct (apparentRepo_cons a Ha) as (c&l&->&Hc). assert (c <> 64) as Hne by (intros ->; by vm_compute in Hc).
  change (index ((c :: l) ++ k) 0) with (Ok c). cbn [mbind outcome_bind]. rewrite (proj2 (Z.eqb_neq c 64) Hne). do 3 f_equal.
  destruct Hk as [->|[k' ->]].
  - rewrite app_nil_r. by rewrite (proj2 (IndexByte_None _ 47) H47).
  - rewrite IndexByte_app_here by done. apply take_app_length.
Qed.

Lemma GetApparentRepo_root p t : ApparentLabel_GetApparentRepo (apparentLabelOf (str "@@") [] p t) = Ok None.
Proof.
  unfold ApparentLabel_GetApparentRepo, apparentLabelOf. cbn [apparentLabelValue].
  destruct (shortAfter_prefix (str "@@") [] p t) as (k&->&_). unfold getApparentRepo.
  change (str "@@" ++ k) with (str "@" ++ str "@" ++ k). by rewrite slice_from_app.
Qed.

(** ** Labels that cannot be resolved *)

(** The label of an error message, a package and a target; the target is only left out
    if there is a package. *)
Definition errorLabelOf (m a p t : bytes) : ResolvedLabel :=
  mkResolvedLabel (str "@@[" ++ m ++ str "]" ++
    match p with [] => str "//:" ++ t | _ => if bool_decide (t = baseName p) then str "//" ++ p else str "//" ++ p ++ str ":" ++ t end).

Lemma AsResolvedWithError_label a p t m :
  apparentRepoOk a -> packageOk p -> 93 ∉ m ->
  AsResolvedWithError (apparentLabelOf (str "@" ++ a) a p t) m = Ok (errorLabelOf m a p t).
Proof.
  intros Ha Hp Hm. destruct (apparentPrefix_facts _ _ (PrefixApparent a Ha)) as (H1&_&_&Hn&Hl).
  unfold AsResolvedWithError, apparentLabelOf. cbn [apparentLabelValue]. rewrite (proj2 (IndexByte_None m 93) Hm). f_equal.
  unfold errorLabelOf. unfold shortAfter, defaultTarget. destruct p as [|x p].
  - case_bool_decide as Et.
    + subst t. rewrite app_nil_r, (proj2 (IndexByte_None _ 47) H1), Hn. f_equal.
    + rewrite IndexByte_after by done. destruct (length (str "@" ++ a)) eqn:El; [lia|]. by rewrite <- El, drop_app_length.
  - case_bool_decide as Et.
    + rewrite IndexByte_after by done. destruct (length (str "@" ++ a)) eqn:El; [lia|]. by rewrite <- El, drop_app_length.
    + rewrite IndexByte_after by done. destruct (length (str "@" ++ a)) eqn:El; [lia|]. by rewrite <- El, drop_app_length.
Qed.

Definition messageOk (m : bytes) : Prop := m <> [] /\ bytes_ok m /\ 93 ∉ m /\ 58 ∉ m.

(** What is between the bracket and the package. *)
Lemma errorAndPath_label m a p t :
  messageOk m ->
  errorAndPath (errorLabelOf m a p t) =
    Ok (m, match p with [] => 58 :: t | _ => if bool_decide (t = baseName p) then p else p ++ 58 :: t end).
Proof.
  intros (_&_&Hm&_). unfold errorAndPath, errorLabelOf. cbn [resolvedLabelValue].
  set (rest := match p with [] => str "//:" ++ t | _ => _ end).
  assert (exists path, rest = str "//" ++ path /\
    path = match p with [] => 58 :: t | _ => if bool_decide (t = baseName p) then p else p ++ 58 :: t end) as (path&->&<-).
  { eexists. split; [|done]. unfold rest. destruct p; [done|]. by case_bool_decide. }
  rewrite slice_from_app by done. cbn [mbind outcome_bind].
  change (str "]" ++ str "//" ++ path) with (93 :: str "//" ++ path). rewrite IndexByte_app_here by done. cbn [position].
  rewrite slice_prefix by done. cbn [mbind outcome_bind].
  change (93 :: str "//" ++ path) with (str "]//" ++ path). rewrite app_assoc, slice_from_app; [done|].
  unfold zlen. rewrite length_app. simpl. lia.
Qed.

Lemma asCanonical_error m a p t : asCanonical (errorLabelOf m a p t) = Ok None.
Proof. reflexivity. Qed.

Lemma errorLabel_parts m a p t :
  messageOk m -> packageOk p -> targetOk t ->
  ResolvedLabel_AsCanonical (errorLabelOf m a p t) = Ok (inr m) /\
  ResolvedLabel_GetPackagePath (errorLabelOf m a p t) = Ok p /\
  ResolvedLabel_GetTargetName (errorLabelOf m a p t) = Ok (mkTargetName t).
Proof.
  intros Hm Hp Ht. pose proof (errorAndPath_label m a p t Hm) as He. pose proof (package_colon p Hp) as Hpc.
  split; [|split].
  - unfold ResolvedLabel_AsCanonical. rewrite asCanonical_error. cbn [mbind outcome_bind].
    unfold errorLabelOf. cbn [resolvedLabelValue]. rewrite slice_from_app by done. cbn [mbind outcome_bind].
    destruct Hm as (_&_&Hm&_). set (rest := match p with [] => _ | _ => _ end). change (str "]" ++ rest) with (93 :: rest).
    rewrite IndexByte_app_here by done. cbn [position]. by rewrite slice_prefix.
  - unfold ResolvedLabel_GetPackagePath. rewrite asCanonical_error. cbn [mbind outcome_bind]. rewrite He. cbn [mbind outcome_bind].
    destruct p as [|x p]; [done|]. case_bool_decide.
    + by rewrite (proj2 (IndexByte_None _ 58) Hpc).
    + rewrite IndexByte_app_here by done. by rewrite take_app_length.
  - unfold ResolvedLabel_GetTargetName. rewrite asCanonical_error. cbn [mbind outcome_bind]. rewrite He. cbn [mbind outcome_bind].
    destruct p as [|x p]; [done|]. case_bool_decide as Et.
    + rewrite (proj2 (IndexByte_None _ 58) Hpc). rewrite Et. reflexivity.
    + rewrite IndexByte_app_here by done. by rewrite drop_after.
Qed.

Lemma errorLabel_valid m a p t :
  messageOk m -> packageOk p -> targetOk t ->
  NewResolvedLabel (resolvedLabelValue (errorLabelOf m a p t)) = Ok (errorLabelOf m a p t).
Proof.
  intros (Hne&Hb&H93&H58) Hp Ht. unfold NewResolvedLabel, errorLabelOf. cbn [resolvedLabelValue]. rewrite validated_lang.
  - unfold newValidResolvedLabel. f_equal. f_equal. destruct p as [|x p].
    + unfold removeLabelTargetNameIfRedundant. change (str "//:" ++ t) with (str "//" ++ 58 :: t).
      rewrite !app_assoc. rewrite IndexByte_app_here.
      2: { rewrite !not_in_app. split_and!; [by vm_compute; set_solver|done|by vm_compute; set_solver..]. }
      rewrite take_app_length, CutSuffix_app. by rewrite <- !app_assoc, HasPrefix_app.
    + assert (58 ∉ str "@@[" ++ m ++ str "]") as Hc.
      { rewrite !not_in_app. split_and!; [by vm_compute; set_solver|done|by vm_compute; set_solver]. }
      case_bool_decide as Et.
      * unfold removeLabelTargetNameIfRedundant. rewrite (proj2 (IndexByte_None _ 58)); [done|].
        rewrite app_assoc, app_assoc, !not_in_app. rewrite !not_in_app in Hc. pose proof (package_colon _ Hp).
        split_and!; [by vm_compute; set_solver|by destruct Hc as (_&?&_)|by vm_compute; set_solver..|done].
      * assert (exists s, str "@@[" ++ m ++ str "]" ++ str "//" ++ (x :: p) ++ str ":" ++ t = s ++ 58 :: t /\ 58 ∉ s /\
          HasSuffix s (str "//") = false /\ baseName s = baseName (x :: p)) as (s&->&Hs&Hsuf&Hbase).
        { exists ((str "@@[" ++ m ++ str "]" ++ str "//") ++ x :: p). split; [by rewrite <- !app_assoc|].
          destruct Hp as [|Hp]; [done|]. split; [|split; [by apply package_suffix|]].
          - rewrite !not_in_app. rewrite !not_in_app in Hc. pose proof (package_colon _ (or_intror Hp)).
            split_and!; [by vm_compute; set_solver|by destruct Hc as (_&?&_)|by vm_compute; set_solver..|done].
          - apply lang_slashed in Hp as [Hp|(l&y&E1&_&Hp)]; pose proof (component_slash _ Hp) as Hsl.
            + rewrite (baseName_only _ Hsl). change (str "//") with ([47] ++ [47]). rewrite !app_assoc, <- (app_assoc _ [47] (x :: p)).
              by apply baseName_app.
            + by rewrite E1, baseName_app, app_assoc, baseName_app. }
        unfold removeLabelTargetNameIfRedundant. rewrite IndexByte_app_here by done. rewrite take_app_length, drop_after.
        rewrite CutSuffix_no by done. change (drop (Z.to_nat (position (LastIndexByte s 47) + 1)) s) with (baseName s).
        rewrite Hbase. by rewrite bool_decide_false.
  - right. apply lang_Cat; [by apply lang_str|]. apply lang_Cat.
    + destruct m as [|c m]; [done|]. apply (lang_Cat _ _ [c] m).
      * exists c. split; [done|]. apply Forall_cons_1 in Hb as [Hb _]. unfold is_u8 in Hb. unfold isByte.
        rewrite not_elem_of_cons in H93. lia.
      * apply lang_StarChars. apply Forall_cons_1 in Hb as [_ Hb]. unfold bytes_ok in Hb. rewrite Forall_forall in *. intros x Hx.
        specialize (Hb x Hx). unfold is_u8 in Hb. unfold isByte. assert (x <> 93) by (intros ->; set_solver). lia.
    + apply lang_Cat; [by apply lang_str|]. apply lang_absolute. exists p. split; [done|].
      destruct p as [|x p]; [left; by exists t|]. case_bool_decide; [by right|left; by exists t].
Qed.

(** ** Resolution *)

Section resolution.
Context `{!Resolver}.

Lemma unknownRepo_ok a from : apparentRepoOk a -> repoOk from -> messageOk (unknownRepo (mkApparentRepo a) (mkCanonicalRepo from)).
Proof.
  intros Ha Hf. unfold unknownRepo. cbn [apparentRepoValue canonicalRepoValue].
  pose proof (apparentRepo_without a 93 Ha eq_refl). pose proof (apparentRepo_without a 58 Ha eq_refl). pose proof (repo_colon _ Hf).
  assert (93 ∉ from) by (eapply without_lang; [|exact Hf]; vm_compute; reflexivity).
  split; [discriminate|]. split.
  - unfold bytes_ok. rewrite !Forall_app. split_and!; [by apply str_ok|by eapply lang_bytes_ok|by apply str_ok|by eapply lang_bytes_ok].
  - rewrite !not_in_app. split_and!; try done; by vm_compute; set_solver.
Qed.

(** C30: Resolving a label keeps its package and target.  A label with the name of a
    repository, as it is known to the one that refers to it, becomes the label of the
    repository that the resolver knows; one without a name becomes that of the root
    module; one with a canonical name stays the same.  If the repository is unknown the
    result is a valid label that carries the message, and that still has the package and
    the target. *)
Theorem Resolve_parts from p t :
  repoOk from -> packageOk p -> targetOk t ->
  (forall r, repoOk r ->
     exists al, NewApparentLabel (str "@@" ++ r ++ str "//" ++ p ++ str ":" ++ t) = Ok al /\
       Resolve (mkCanonicalRepo from) al = Ok (AsResolved (labelOf r p t))) /\
  (forall m, moduleOk m -> ResolverGetRootModule = Ok (mkModule m) ->
     exists al, NewApparentLabel (str "@@//" ++ p ++ str ":" ++ t) = Ok al /\
       Resolve (mkCanonicalRepo from) al = Ok (AsResolved (labelOf (m ++ str "+") p t))) /\
  (forall a, apparentRepoOk a ->
     exists al, NewApparentLabel (str "@" ++ a ++ str "//" ++ p ++ str ":" ++ t) = Ok al /\
       match ResolverGetCanonicalRepo (mkCanonicalRepo from) (mkApparentRepo a) with
       | Ok (Some r) => repoOk (canonicalRepoValue r) ->
           Resolve (mkCanonicalRepo from) al = Ok (AsResolved (labelOf (canonicalRepoValue r) p t))
       | Ok None =>
           exists rl, Resolve (mkCanonicalRepo from) al = Ok rl /\
             NewResolvedLabel (resolvedLabelValue rl) = Ok rl /\
             ResolvedLabel_AsCanonical rl = Ok (inr (unknownRepo (mkApparentRepo a) (mkCanonicalRepo from))) /\
             ResolvedLabel_GetPackagePath rl = Ok p /\ ResolvedLabel_GetTargetName rl = Ok (mkTargetName t)
       | Err _ => Resolve (mkCanonicalRepo from) al = Err PlainError
       | Panic => Resolve (mkCanonicalRepo from) al = Panic
       end).
Proof.
  intros Hf Hp Ht. split_and!.
  - intros r Hr. exists (apparentLabelOf (str "@@" ++ r) r p t). split.
    + rewrite app_assoc. by apply NewApparentLabel_full; [constructor|..].
    + unfold Resolve. by rewrite AsCanonical_canonical.
  - intros m Hm Hroot. exists (apparentLabelOf (str "@@") [] p t). split.
    + apply (NewApparentLabel_full (str "@@") []); [constructor|done..].
    + unfold Resolve. rewrite AsCanonical_root, GetApparentRepo_root. cbn [mbind outcome_bind]. rewrite Hroot.
      unfold rootRepo, GetBareCanonicalRepo, ToModuleInstance. cbn [moduleInstanceValue moduleValue].
      by rewrite WithCanonicalRepo_label; [|constructor|by apply module_repo|].
  - intros a Ha. exists (apparentLabelOf (str "@" ++ a) a p t). split.
    + rewrite app_assoc. by apply NewApparentLabel_full; [constructor|..].
    + unfold Resolve. rewrite AsCanonical_apparent, GetApparentRepo_apparent by done. cbn [mbind outcome_bind].
      destruct (ResolverGetCanonicalRepo _ _) as [[[r]|]|e|]; [|..|done|done].
      * intros Hr. by rewrite WithCanonicalRepo_label; [|constructor|..].
      * pose proof (unknownRepo_ok a from Ha Hf) as Hm. rewrite AsResolvedWithError_label; [|done|done|by apply Hm].
        eexists. split; [done|]. split; [by apply errorLabel_valid|]. by apply errorLabel_parts.
Qed.
End resolution.

#[local] Instance sampleResolver : Resolver := {|
  ResolverGetCanonicalRepo _ a :=
    Ok (if bool_decide (apparentRepoValue a = str "rules_go") then Some (mkCanonicalRepo (str "rules_go+1.2")) else None);
  ResolverGetRootModule := Ok (mkModule (str "app"));
|}.

Lemma moduleOk_example : moduleOk (str "app").
Proof. apply matchString_lang. vm_compute. reflexivity. Qed.
Lemma apparentRepoOk_example : apparentRepoOk (str "rules_go").
Proof. apply matchString_lang. vm_compute. reflexivity. Qed.

Lemma Resolve_parts_witness :
  exists al, NewApparentLabel (str "@rules_go//go/tools:tools") = Ok al /\
    Resolve (mkCanonicalRepo (str "rules_go+1.2")) al = Ok (AsResolved (labelOf (str "rules_go+1.2") (str "go/tools") (str "tools"))).
Proof.
  destruct (Resolve_parts (str "rules_go+1.2") (str "go/tools") (str "tools") repoOk_example packageOk_example targetOk_example) as (_&_&H).
  destruct (H (str "rules_go") apparentRepoOk_example) as (al&H1&H2). exists al. split; [exact H1|]. apply H2. exact repoOk_example.
Defined.

(** ** Labels relative to a package *)

Lemma packageForm_slash r p : repoOk r -> packageOk p -> (47 ∈ packageForm r p <-> p <> []).
Proof.
  intros Hr Hp. unfold packageForm. pose proof (at_repo_slash r Hr) as Hs. destruct p as [|x p].
  - rewrite app_nil_r. split; [by intros H|done].
  - split; [done|]. intros _. rewrite !elem_of_app. right. right. left. by vm_compute; set_solver.
Qed.

(** [":" + target], with the slashes if the package is the one of the root. *)
Lemma packageForm_full r p t :
  repoOk r -> packageOk p ->
  packageForm r p ++ match IndexByte (packageForm r p) 47 with None => str "//:" | Some _ => str ":" end ++ t = fullLabel r p t.
Proof.
  intros Hr Hp. pose proof (packageForm_slash r p Hr Hp) as Hs. destruct (IndexByte (packageForm r p) 47) eqn:Ei.
  - assert (p <> []) as Hne by (apply Hs; apply IndexByte_Some in Ei as (a&b&->&_); set_solver).
    unfold packageForm, fullLabel. destruct p; [done|]. by rewrite <- !app_assoc.
  - apply IndexByte_None in Ei. assert (p = []) as -> by (destruct p; [done|]; exfalso; apply Ei, Hs; done).
    unfold packageForm, fullLabel. rewrite app_nil_r. by rewrite <- app_assoc.
Qed.

(** A target name after a colon, or appended to a package, is the one of the
    package; a label that starts with two slashes is in the repository of the
    package.  Labels that name a repository are taken as they are. *)
Theorem AppendLabel_parts r p t :
  repoOk r -> packageOk p -> targetOk t ->
  let pkg := mkCanonicalPackage (packageForm r p) in
  NewCanonicalPackage (packageForm r p) = Ok pkg /\
  CanonicalPackage_AppendTargetName pkg (mkTargetName t) = labelOf r p t /\
  AppendLabel pkg (str ":" ++ t) = NewApparentLabel (fullLabel r p t) /\
  (forall q u, packageOk q -> targetOk u ->
     AppendLabel pkg (str "//" ++ q ++ str ":" ++ u) = NewApparentLabel (fullLabel r q u)) /\
  (forall s n q u, apparentPrefix s n -> packageOk q -> targetOk u ->
     AppendLabel pkg (s ++ str "//" ++ q ++ str ":" ++ u) = NewApparentLabel (s ++ str "//" ++ q ++ str ":" ++ u)).
Proof.
  intros Hr Hp Ht pkg.
  assert (forall q u, packageOk q -> targetOk u -> NewApparentLabel (fullLabel r q u) = Ok (newValidApparentLabel (fullLabel r q u))) as Hfull.
  { intros q u Hq Hu. unfold fullLabel. rewrite app_assoc, (NewApparentLabel_full _ r _ _ (PrefixCanonical r Hr)) by done.
    unfold newValidApparentLabel, apparentLabelOf. f_equal. f_equal.
    pose proof (removeRedundant_full r q u Hr Hq) as E1. unfold fullLabel in E1. rewrite app_assoc in E1. rewrite E1. by apply shortAfter_repo. }
  split_and!.
  - unfold NewCanonicalPackage. rewrite validated_lang; [done|]. unfold packageForm. apply lang_Cat; [by apply lang_str|].
    destruct Hp as [->|Hp]; [exists r, []; split; [done|split; [done|]]; by right|]. apply lang_Cat; [done|]. left.
    destruct p; [by apply not_nullable_lang in Hp|]. apply lang_Cat; [by apply lang_str|done].
  - unfold CanonicalPackage_AppendTargetName, newValidCanonicalLabel, labelOf. cbn [canonicalPackageValue targetNameValue pkg].
    rewrite packageForm_full by done. by rewrite removeRedundant_full.
  - rewrite Hfull by done. unfold AppendLabel.
    destruct (matchString validApparentOrAbsoluteLabelPattern (str ":" ++ t)) eqn:Em.
    { apply matchString_lang in Em. apply (firstb_lang (fun c => (c =? 64) || (c =? 47))) in Em; [done|]. vm_compute. reflexivity. }
    rewrite (proj2 (matchString_lang _ _)).
    2: { apply lang_Cat; [|done]. left. exists [], (str ":"). split; [done|]. split; [by right|by apply lang_str]. }
    unfold concatenateRelative. cbn [canonicalPackageValue pkg]. cbn [orb]. pose proof (packageForm_full r p t Hr Hp) as E1.
    replace (IndexByte (str ":" ++ t) 58) with (Some O) by done. destruct (IndexByte (packageForm r p) 47); simpl in *; by rewrite E1.
  - intros q u Hq Hu. rewrite Hfull by done. unfold AppendLabel. rewrite (proj2 (matchString_lang _ _)) by (right; by apply lang_absolute_full).
    unfold concatenateApparentOrAbsolute. cbn [canonicalPackageValue pkg index mbind outcome_bind].
    change (index (str "//" ++ q ++ str ":" ++ u) 0) with (Ok 47 : outcome Z). cbn [mbind outcome_bind fmap outcome_fmap]. simpl Z.eqb. cbn [fmap outcome_fmap].
    do 2 f_equal. pose proof (at_repo_slash r Hr) as Hs.
    assert (match IndexByte (packageForm r p) 47 with Some o => take o (packageForm r p) | None => packageForm r p end = str "@@" ++ r) as ->.
    { unfold packageForm. destruct p as [|x p].
      - rewrite app_nil_r. by rewrite (proj2 (IndexByte_None _ 47) Hs).
      - rewrite app_assoc, IndexByte_package by done. apply take_app_length. }
    unfold fullLabel. by rewrite <- !app_assoc.
  - intros s n q u Hs Hq Hu. rewrite (NewApparentLabel_full s n) by done. pose proof (NewApparentLabel_full s n q u Hs Hq Hu) as Hn.
    apply validated_Ok in Hn as [Hl ->]. unfold AppendLabel. rewrite (proj2 (matchString_lang _ _)) by (by left).
    unfold concatenateApparentOrAbsolute. set (v := s ++ _).
    assert (index v 0 = Ok 64) as -> by (unfold v; by destruct Hs). done.
Qed.

Lemma AppendLabel_parts_witness :
  AppendLabel (mkCanonicalPackage (str "@@rules_go+1.2//go/tools")) (str ":tools") = NewApparentLabel (str "@@rules_go+1.2//go/tools:tools").
Proof. apply (AppendLabel_parts _ _ _ repoOk_example packageOk_example targetOk_example). Defined.

(** ** Names of repositories *)

Definition instanceOk (i : bytes) : Prop := lang validModuleInstancePattern i.
Definition identifierOk (i : bytes) : Prop := lang validStarlarkIdentifierPattern i.

Lemma instance_parts i : instanceOk i -> exists m v, i = m ++ 43 :: v /\ moduleOk m /\ 43 ∉ m /\ 43 ∉ v.
Proof.
  intros (m&b&->&Hm&c&v&->&Hc&Hv). apply lang_str in Hc as ->; [|done]. exists m, v. split; [done|]. split; [done|].
  split; [eapply without_lang; [|exact Hm]; vm_compute; reflexivity|].
  apply lang_Opt in Hv as [->|Hv]; [set_solver|]. eapply without_lang; [|exact Hv]; vm_compute; reflexivity.
Qed.

(** The name of a repository that a module extension declares is taken apart into
    the extension and the name that it gave; the name of a module's own repository is
    not mistaken for one.  Both have the instance of the module. *)
Theorem CanonicalRepo_parts i name a :
  instanceOk i -> identifierOk name -> apparentRepoOk a ->
  let instance := mkModuleInstance i in
  let extension := ModuleInstance_GetModuleExtension instance (mkStarlarkIdentifier name) in
  let repo := GetCanonicalRepoWithModuleExtension extension (mkApparentRepo a) in
  NewCanonicalRepo (canonicalRepoValue repo) = Ok repo /\
  CanonicalRepo_GetModuleExtension repo = Ok (Some (extension, mkApparentRepo a)) /\
  CanonicalRepo_GetModuleInstance repo = instance /\
  ModuleExtension_GetModuleInstance extension = Ok instance /\ GetExtensionName extension = mkStarlarkIdentifier name /\
  NewCanonicalRepo i = Ok (GetBareCanonicalRepo instance) /\
  CanonicalRepo_GetModuleExtension (GetBareCanonicalRepo instance) = Ok None /\
  CanonicalRepo_GetModuleInstance (GetBareCanonicalRepo instance) = instance.
Proof.
  intros Hi Hn Ha instance extension repo. destruct (instance_parts i Hi) as (m&v&Ei&_&Hm&Hv).
  assert (43 ∉ name) as Hn43 by (eapply without_lang; [|exact Hn]; vm_compute; reflexivity).
  assert (43 ∉ a) as Ha43 by (by apply apparentRepo_without).
  unfold repo, extension, instance, GetCanonicalRepoWithModuleExtension, ModuleInstance_GetModuleExtension, GetBareCanonicalRepo in *.
  cbn [canonicalRepoValue moduleExtensionValue moduleInstanceValue starlarkIdentifierValue apparentRepoValue].
  split_and!.
  - unfold NewCanonicalRepo. rewrite validated_lang; [done|]. rewrite <- !app_assoc. apply lang_Cat; [done|]. left.
    apply lang_Cat; [by apply lang_str|]. apply lang_Cat; [done|]. apply lang_Cat; [by apply lang_str|done].
  - unfold CanonicalRepo_GetModuleExtension. cbn [canonicalRepoValue]. change (str "+" ++ a) with (43 :: a).
    rewrite LastIndexByte_app_here by done. cbn [position]. rewrite slice_prefix by done. cbn [mbind outcome_bind].
    assert (IndexByte (i ++ str "+" ++ name) 43 = Some (length m)) as ->
      by (rewrite Ei, <- app_assoc; cbn [app]; by rewrite IndexByte_app_here).
    change (43 :: a) with (str "+" ++ a). rewrite (app_assoc _ (str "+") a). rewrite slice_from_app; [done|].
    unfold zlen. rewrite (length_app (i ++ str "+" ++ name)). simpl. lia.
  - unfold CanonicalRepo_GetModuleInstance. cbn [canonicalRepoValue].
    assert ((i ++ str "+" ++ name) ++ str "+" ++ a = m ++ 43 :: v ++ 43 :: name ++ str "+" ++ a) as ->
      by (rewrite Ei, <- !app_assoc; reflexivity).
    rewrite IndexByte_app_here by done. cbn [position]. replace (Z.to_nat (Z.of_nat (length m) + 1)) with (S (length m)) by lia.
    rewrite drop_after, IndexByte_app_here by done. f_equal. rewrite Ei.
    change (m ++ 43 :: v ++ 43 :: name ++ str "+" ++ a) with (m ++ (43 :: v) ++ 43 :: name ++ str "+" ++ a).
    rewrite app_assoc. apply take_app_length'. rewrite length_app. simpl. lia.
  - unfold ModuleExtension_GetModuleInstance. cbn [moduleExtensionValue]. change (str "+" ++ name) with (43 :: name).
    rewrite LastIndexByte_app_here by done. cbn [position]. by rewrite slice_prefix.
  - unfold GetExtensionName. cbn [moduleExtensionValue]. change (str "+" ++ name) with (43 :: name).
    rewrite LastIndexByte_app_here by done. cbn [position]. replace (Z.to_nat (Z.of_nat (length i) + 1)) with (S (length i)) by lia.
    by rewrite drop_after.
  - unfold NewCanonicalRepo. rewrite validated_lang; [done|]. exists i, []. rewrite app_nil_r. split; [done|]. split; [done|]. by right.
  - unfold CanonicalRepo_GetModuleExtension. cbn [canonicalRepoValue]. rewrite Ei, LastIndexByte_app_here by done. cbn [position].
    rewrite slice_prefix by done. cbn [mbind outcome_bind]. by rewrite (proj2 (IndexByte_None m 43) Hm).
  - unfold CanonicalRepo_GetModuleInstance. cbn [canonicalRepoValue]. rewrite Ei, IndexByte_app_here by done. cbn [position].
    replace (Z.to_nat (Z.of_nat (length m) + 1)) with (S (length m)) by lia. rewrite drop_after.
    by rewrite (proj2 (IndexByte_None v 43) Hv).
Qed.

Lemma CanonicalRepo_parts_witness :
  CanonicalRepo_GetModuleExtension (mkCanonicalRepo (str "gazelle++go_deps+org_golang_x_lint")) =
    Ok (Some (mkModuleExtension (str "gazelle++go_deps"), mkApparentRepo (str "org_golang_x_lint"))).
Proof.
  apply (CanonicalRepo_parts (str "gazelle+") (str "go_deps") (str "org_golang_x_lint"));
    apply matchString_lang; vm_compute; reflexivity.
Defined.

(** ** Recursive target patterns *)

Lemma lang_directories p : lang validNonEmptyPackageNamePattern p -> lang (Star (Cat validPackageNameComponentPattern (Lit (str "/")))) (p ++ str "/").
Proof.
  remember (length p) as n eqn:En. revert p En. induction n as [n IH] using lt_wf_ind. intros p En [H|(l&x&->&Hl&Hx)]%lang_slashed.
  - exists [p ++ str "/"]. split; [simpl; by rewrite app_nil_r|]. constructor; [|constructor]. apply lang_Cat; [done|by apply lang_str].
  - destruct (IH (length l)) with (p := l) as (ls&E1&Hls); [subst n; rewrite length_app; simpl; lia|done|done|].
    exists (ls ++ [x ++ str "/"]). split.
    + rewrite concat_app, <- E1. simpl. by rewrite app_nil_r, <- !app_assoc.
    + apply Forall_app. split; [done|]. constructor; [|constructor]. apply lang_Cat; [done|by apply lang_str].
Qed.

(** All packages below a package. *)
Definition recursiveForm (r p : bytes) : bytes := str "@@" ++ r ++ str "//" ++ match p with [] => str "..." | _ => p ++ str "/..." end.

Lemma recursiveForm_lang r p suffix :
  repoOk r -> packageOk p -> lang (Opt (Cat (Lit (str ":")) (Alt (Lit (str "all")) (Alt (Lit (str "all-targets")) (Lit (str "*")))))) suffix ->
  lang validCanonicalTargetPatternPattern (recursiveForm r p ++ suffix).
Proof.
  intros Hr Hp Hs. unfold recursiveForm. rewrite <- !app_assoc. apply lang_Cat; [by apply lang_str|]. apply lang_Cat; [done|]. left.
  apply lang_Cat; [by apply lang_str|]. right. right. destruct Hp as [->|Hp].
  - apply (lang_Cat _ _ [] (str "..." ++ suffix)); [by exists []|]. apply (lang_Cat _ _ (str "...") suffix); [by apply lang_str|done].
  - assert (p <> []) by (by apply not_nullable_lang in Hp). apply lang_directories in Hp.
    replace (match p with [] => str "..." | _ => p ++ str "/..." end) with ((p ++ str "/") ++ str "...") by (destruct p; [done|]; by rewrite <- app_assoc).
    rewrite <- app_assoc. apply lang_Cat; [done|]. apply lang_Cat; [by apply lang_str|done].
Qed.

(** The form ends with a slash and three dots. *)
Lemma recursiveForm_end r p :
  repoOk r -> packageOk p ->
  exists a, recursiveForm r p = a ++ str "/..." /\ 58 ∉ a /\ TrimSuffix a (str "/") = packageForm r p.
Proof.
  intros Hr Hp. pose proof (prefix_colon r p Hr Hp) as Hc. destruct Hp as [->|Hp].
  - exists ((str "@@" ++ r) ++ str "/"). split; [unfold recursiveForm; by rewrite <- !app_assoc|].
    rewrite !not_in_app in *. split; [split; [tauto|by vm_compute; set_solver]|].
    unfold TrimSuffix. rewrite CutSuffix_app. unfold packageForm. by rewrite app_nil_r.
  - assert (p <> []) as Hne by (by apply not_nullable_lang in Hp). exists (str "@@" ++ r ++ str "//" ++ p).
    split; [unfold recursiveForm; destruct p; [done|]; by rewrite <- !app_assoc|]. split; [done|].
    unfold TrimSuffix. rewrite CutSuffix_no; [unfold packageForm; by destruct p|].
    destruct (HasSuffix _ _) eqn:E1; [|done]. apply HasSuffix_spec in E1 as [b E1]. exfalso.
    destruct p as [|x p _] using rev_ind; [done|]. apply package_last in Hp. rewrite !app_assoc in E1.
    change (str "/") with [47] in E1. by apply app_inj_tail in E1 as [_ ->].
Qed.

Lemma HasSuffix_last a b x y : x <> y -> HasSuffix (a ++ [x]) (b ++ [y]) = false.
Proof.
  intros Hne. destruct (HasSuffix _ _) eqn:E1; [|done]. apply HasSuffix_spec in E1 as [c E1]. exfalso.
  rewrite app_assoc in E1. by apply app_inj_tail in E1 as [_ ->].
Qed.

(** What is removed from a recursive pattern with a suffix. *)
Lemma removeRedundant_recursive a name :
  58 ∉ a ->
  removeTargetPatternTargetNameIfRedundant ((a ++ str "/...") ++ 58 :: name) =
    if bool_decide (name = str "all") then a ++ str "/..."
    else if bool_decide (name = str "all-targets") then (a ++ str "/...") ++ str ":*"
    else if bool_decide (name = str "*") then (a ++ str "/...") ++ 58 :: name
    else if bool_decide (name = str "...") then a ++ str "/..." else (a ++ str "/...") ++ 58 :: name.
Proof.
  intros Ha. unfold removeTargetPatternTargetNameIfRedundant.
  rewrite IndexByte_app_here by (rewrite not_in_app; split; [done|by vm_compute; set_solver]). rewrite take_app_length, drop_after.
  rewrite CutSuffix_no.
  2: { change (str "/...") with (str "/.." ++ [46]). rewrite app_assoc. change (str "//") with ([47] ++ [47]). by apply HasSuffix_last. }
  change (drop (Z.to_nat (position (LastIndexByte ?x 47) + 1)) ?x) with (baseName x).
  change (a ++ str "/...") with (a ++ 47 :: str "..."). rewrite baseName_app by (by vm_compute; set_solver).
  by rewrite (bool_decide_true (str "..." = str "...")).
Qed.

(** The three ways to write a recursive target pattern with a suffix, and the one
    without, are told apart: all packages below a package are matched, starting at that
    package, and targets of files are included if the suffix says so. *)
Theorem RecursiveTargetPattern_parts r p :
  repoOk r -> packageOk p ->
  let pkg := mkCanonicalPackage (packageForm r p) in
  exists plain files,
    NewCanonicalTargetPattern (recursiveForm r p) = Ok plain /\ NewCanonicalTargetPattern (recursiveForm r p ++ str ":all") = Ok plain /\
    NewCanonicalTargetPattern (recursiveForm r p ++ str ":all-targets") = Ok files /\ NewCanonicalTargetPattern (recursiveForm r p ++ str ":*") = Ok files /\
    AsRecursiveTargetPattern plain = Some (pkg, false) /\ AsRecursiveTargetPattern files = Some (pkg, true) /\
    AsCanonicalLabel plain = None /\ AsCanonicalLabel files = None /\
    AsSinglePackageTargetPattern plain = None /\ AsSinglePackageTargetPattern files = None.
Proof.
  intros Hr Hp pkg. destruct (recursiveForm_end r p Hr Hp) as (a&Ea&Ha&Et).
  assert (58 ∉ a ++ str "/...") as Hc by (rewrite not_in_app; split; [done|by vm_compute; set_solver]).
  exists (mkCanonicalTargetPattern (a ++ str "/...")), (mkCanonicalTargetPattern (a ++ str "/...:*")).
  assert (forall x, lang (Opt (Cat (Lit (str ":")) (Alt (Lit (str "all")) (Alt (Lit (str "all-targets")) (Lit (str "*")))))) x ->
    NewCanonicalTargetPattern (recursiveForm r p ++ x) = Ok (newValidCanonicalTargetPattern ((a ++ str "/...") ++ x))) as Hnew.
  { intros x Hx. unfold NewCanonicalTargetPattern. rewrite validated_lang by (by apply recursiveForm_lang). by rewrite Ea. }
  assert ((a ++ str "/...") ++ str ":*" = a ++ str "/...:*") as Estar by (by rewrite <- app_assoc).
  unfold newValidCanonicalTargetPattern in Hnew. split_and!.
  - rewrite <- (app_nil_r (recursiveForm r p)), Hnew by (by right). rewrite app_nil_r.
    unfold removeTargetPatternTargetNameIfRedundant. by rewrite (proj2 (IndexByte_None _ 58) Hc).
  - rewrite Hnew by (apply matchString_lang; reflexivity). change (str ":all") with (58 :: str "all"). by rewrite removeRedundant_recursive.
  - rewrite Hnew by (apply matchString_lang; reflexivity). change (str ":all-targets") with (58 :: str "all-targets").
    rewrite removeRedundant_recursive by done. simpl bool_decide. by rewrite Estar.
  - rewrite Hnew by (apply matchString_lang; reflexivity). change (str ":*") with (58 :: str "*").
    rewrite removeRedundant_recursive by done. change (58 :: str "*") with (str ":*"). by rewrite Estar.
  - unfold AsRecursiveTargetPattern. cbn [canonicalTargetPatternValue]. rewrite CutSuffix_app. by rewrite Et.
  - unfold AsRecursiveTargetPattern. cbn [canonicalTargetPatternValue]. rewrite CutSuffix_no.
    + rewrite CutSuffix_app. by rewrite Et.
    + change (str "/...:*") with (str "/...:" ++ [42]). change (str "/...") with (str "/.." ++ [46]). rewrite app_assoc. by apply HasSuffix_last.
  - unfold AsCanonicalLabel. cbn [canonicalTargetPatternValue]. by rewrite HasSuffix_app.
  - unfold AsCanonicalLabel. cbn [canonicalTargetPatternValue]. rewrite <- Estar, HasSuffix_app. by rewrite !orb_true_r.
  - unfold AsSinglePackageTargetPattern. cbn [canonicalTargetPatternValue]. by rewrite (proj2 (IndexByte_None _ 58) Hc).
  - unfold AsSinglePackageTargetPattern. cbn [canonicalTargetPatternValue]. rewrite <- Estar. change (str ":*") with (58 :: str "*").
    rewrite IndexByte_app_here by done. by rewrite take_app_length, HasSuffix_app.
Qed.

Lemma RecursiveTargetPattern_parts_witness :
  exists tp, NewCanonicalTargetPattern (str "@@rules_go+1.2//go/tools/...:all-targets") = Ok tp /\
    AsRecursiveTargetPattern tp = Some (mkCanonicalPackage (str "@@rules_go+1.2//go/tools"), true).
Proof.
  destruct (RecursiveTargetPattern_parts _ _ repoOk_example packageOk_example) as (plain&files&_&_&H1&_&_&H2&_).
  exists files. split; [exact H1|exact H2].
Defined.

(** ** What goes wrong *)

(** Two dots are a target name, although the comment asks for more than two; the
    components of the path of such a target make the code panic, if two dots are not
    accepted as the component of a path. *)
Lemma TargetName_accepts_dot_dot newComponent :
  newComponent (str "..") = Panic ->
  exists tn, NewTargetName (str "../../etc") = Ok tn /\ ToComponents newComponent tn = Panic.
Proof. intros H. exists (mkTargetName (str "../../etc")). split; [reflexivity|]. unfold ToComponents.
  change (toComponents (S (length (targetNameValue (mkTargetName (str "../../etc"))))) newComponent (targetNameValue (mkTargetName (str "../../etc"))))
    with (c ← newComponent (str ".."); l ← toComponents 9 newComponent (str "../etc"); Ok (c :: l)). by rewrite H.
Qed.

(** The module extension of an identifier in a file that is named like its repository
    lacks the version of the module, and it is not valid. *)
Lemma ToModuleExtension_loses_version :
  exists i, NewCanonicalStarlarkIdentifier (str "@@foo+1.0//:foo+1.0%ext") = Ok i /\
    ToModuleExtension i = Ok (mkModuleExtension (str "foo+ext")) /\ NewModuleExtension (str "foo+ext") = Err PlainError.
Proof. eexists. vm_compute. repeat split; reflexivity. Qed.

(** A target whose name ends with three dots after a slash is taken for a recursive
    target pattern, of a package that is not one. *)
Lemma AsRecursiveTargetPattern_takes_target :
  exists tp p, NewCanonicalTargetPattern (str "@@a+//foo:x/...") = Ok tp /\ AsCanonicalLabel tp = None /\
    AsRecursiveTargetPattern tp = Some (p, false) /\ NewCanonicalPackage (canonicalPackageValue p) = Err PlainError /\
    exists l, NewCanonicalLabel (str "@@a+//foo:x/...") = Ok l.
Proof. do 2 eexists. vm_compute. repeat split; try reflexivity. eexists. reflexivity. Qed.
