(* ===== verification/Btree.v ===== *)
(** * Trees of messages

    [pkg/model/core/btree]: lists of messages that are too large for an object are
    stored as trees, whose nodes are cut at places that depend on the contents
    ([prolly_chunker_factory.go]), which a builder pushes from level to level
    ([height_aware_builder.go]), and which are searched ([find.go]) and traversed
    ([all_leaves.go]).

    Messages are a parameter, with what the code asks of them: their size, their
    encoding, the references that they have, and whether they refer to a parent. *)

From coqutil Require Import Datatypes.RecordSetters.
From S2P Require Import Prelude Varint.
Import RecordSetters.TriangleBracketNotations.

(** [fnv.New64a], of the Go library. *)
Definition fnv64a (data : list Z) : Z :=
  foldl (fun h b => u64 (Z.lxor h b * 1099511628211)) 14695981039346656037 data.

(** Messages, with references. *)
Class NodeOperations (Node : Type) := {
  (** [proto.MarshalOptions.Size] and [Marshal] *)
  messageSize : Node -> Z;
  marshal : Node -> outcome (list Z);
  (** [Patcher.GetReferencesSizeBytes], and the references that
      [Patcher.SortAndSetReferences] returns. *)
  GetReferencesSizeBytes : Node -> Z;
  rawReferences : Node -> list (list Z);
  (** [Patcher.GetHeight] *)
  GetHeight : Node -> nat;
}.

(** [PopThreshold] *)
Inductive PopThreshold := PopDefinitive | PopChild | PopLargeEnough | PopAll.

(** ** Chunking *)

(** [prollyCutPoint] and [prollyCut] *)
Record prollyCutPoint := mkCutPoint { cutIndex : nat; cumulativeSizeBytes : Z }.
Record prollyCut := mkCut { point : prollyCutPoint; hash : Z }.

Definition zeroPoint : prollyCutPoint := mkCutPoint 0 0.
Definition zeroCut : prollyCut := mkCut zeroPoint 0.

Section chunker.
Context {Node : Type} `{!NodeOperations Node}.

(** [prollyChunkerFactory] *)
Record prollyChunkerFactory := mkFactory {
  minimumSizeBytes : Z;
  maximumSizeBytes : Z;
  isParent : Node -> bool;
}.

Context (cf : prollyChunkerFactory).

(** [prollyChunker] *)
Record prollyChunker := mkChunker {
  nodes : list Node;
  uncutSizesBytes : list Z;
  totalUncutSizeBytes : Z;
  cuts : list prollyCut;
}.

(** [prollyChunkerFactory.NewChunker] *)
Definition NewChunker : prollyChunker := mkChunker [] [] 0 [zeroCut; zeroCut].

(** [prollyChunker.isLargeEnough].  A node is only looked at if there is one. *)
Definition isLargeEnough (nodes : list Node) (start end_ : prollyCutPoint) : bool :=
  let count := Z.of_nat (cutIndex end_) - Z.of_nat (cutIndex start) in
  (cumulativeSizeBytes end_ - cumulativeSizeBytes start >=? minimumSizeBytes cf) &&
  ((count >=? 2) ||
   ((count =? 1) && match nodes !! cutIndex start with Some n => negb (isParent cf n) | None => false end)).

(** The size of a node in an object: its references, and the message after its size. *)
Definition sizeBytes (n : Node) : Z := GetReferencesSizeBytes n + Varint.SizeBytes (messageSize n) + messageSize n.

(** The hash of a node, over its references and its message. *)
Definition nodeHash (n : Node) : outcome Z :=
  m ← marshal n; Ok (fnv64a (concat (rawReferences n) ++ m)).

(** How many cuts are kept before a new one. *)
Fixpoint cutsToKeep (nodes : list Node) (cuts : list prollyCut) (newHash : Z) (newCutPoint : prollyCutPoint) (n : nat) : nat :=
  match n with
  | S (S m as k) =>
      match cuts !! m, cuts !! k with
      | Some a, Some b =>
          if negb (isLargeEnough nodes (point a) (point b)) ||
             ((hash b <? newHash) &&
              (cumulativeSizeBytes newCutPoint - cumulativeSizeBytes (point a) <=? maximumSizeBytes cf))
          then cutsToKeep nodes cuts newHash newCutPoint k else n
      | _, _ => n
      end
  | _ => n
  end.

(** The loop of [PushSingle]: every round adds a cut. *)
Fixpoint addCuts (fuel : nat) (c : prollyChunker) : outcome prollyChunker :=
  match fuel with
  | O => Panic
  | S fuel =>
      match last (cuts c), uncutSizesBytes c with
      | Some lastCut, size :: uncut =>
          let lastCutPoint := point lastCut in
          let newCutPoint := mkCutPoint (S (cutIndex lastCutPoint)) (cumulativeSizeBytes lastCutPoint + size) in
          if negb (isLargeEnough (nodes c) newCutPoint
                (mkCutPoint (length (nodes c)) (cumulativeSizeBytes lastCutPoint + totalUncutSizeBytes c)))
          then Ok c
          else
            h ← (if isLargeEnough (nodes c) zeroPoint newCutPoint then
                   match nodes c !! cutIndex lastCutPoint with Some n => nodeHash n | None => Panic end
                 else Ok 0);
            let keep := cutsToKeep (nodes c) (cuts c) h newCutPoint (length (cuts c)) in
            addCuts fuel (mkChunker (nodes c) uncut (totalUncutSizeBytes c - size) (take keep (cuts c) ++ [mkCut newCutPoint h]))
      | _, _ => Panic
      end
  end.

(** [prollyChunker.PushSingle] *)
Definition PushSingle (c : prollyChunker) (node : Node) : outcome prollyChunker :=
  let size := sizeBytes node in
  let c := mkChunker (nodes c ++ [node]) (uncutSizesBytes c ++ [size]) (totalUncutSizeBytes c + size) (cuts c) in
  addCuts (S (length (uncutSizesBytes c))) c.

(** Cuts, as seen from a cut. *)
Definition shiftCut (p : prollyCutPoint) (c : prollyCut) : prollyCut :=
  mkCut (mkCutPoint (cutIndex (point c) - cutIndex p) (cumulativeSizeBytes (point c) - cumulativeSizeBytes p)) (hash c).

(** [prollyChunker.PopMultiple] *)
Definition PopMultiple (c : prollyChunker) (threshold : PopThreshold) : outcome (list Node * prollyChunker) :=
  match cuts c !! 1%nat, last (cuts c) with
  | Some firstCut, Some lastCut =>
      let cutPoint := point firstCut in
      let cutPointIsLargeEnough := isLargeEnough (nodes c) zeroPoint cutPoint in
      let endCutPoint := mkCutPoint (length (nodes c)) (cumulativeSizeBytes (point lastCut) + totalUncutSizeBytes c) in
      if match threshold with
         | PopDefinitive => negb cutPointIsLargeEnough || (cumulativeSizeBytes (point lastCut) <? maximumSizeBytes cf)
         | PopChild => negb cutPointIsLargeEnough
         | PopLargeEnough => negb (isLargeEnough (nodes c) zeroPoint endCutPoint)
         | PopAll => match nodes c with [] => true | _ => false end
         end
      then Ok ([], c)
      else if negb cutPointIsLargeEnough && (2 <? length (cuts c))%nat then Panic
      else
        let '(cutPoint, uncut, total) :=
          if cutPointIsLargeEnough then (cutPoint, uncutSizesBytes c, totalUncutSizeBytes c) else (endCutPoint, [], 0) in
        Ok (take (cutIndex cutPoint) (nodes c),
            mkChunker (drop (cutIndex cutPoint) (nodes c)) uncut total
              (match cuts c with
               | first :: _ :: (_ :: _) as rest => first :: map (shiftCut cutPoint) (drop 2 (cuts c))
               | cuts => take 1 cuts ++ [zeroCut]
               end))
  | _, _ => Panic
  end.
End chunker.

Arguments prollyChunkerFactory Node : clear implicits.
Arguments prollyChunker Node : clear implicits.
Arguments mkChunker {Node} _ _ _ _.
Arguments NewChunker {Node}.

(** ** The builder *)

(** [ChunkerFactory] and [Chunker], as interfaces. *)
Class Chunkers (Node Chunker : Type) := {
  newChunker : Chunker;
  pushSingle : Chunker -> Node -> outcome Chunker;
  popMultiple : Chunker -> PopThreshold -> outcome (list Node * Chunker);
}.

#[export] Instance prollyChunkers {Node} `{!NodeOperations Node} (cf : prollyChunkerFactory Node) :
    Chunkers Node (prollyChunker Node) := {
  newChunker := NewChunker;
  pushSingle := PushSingle cf;
  popMultiple := PopMultiple cf;
}.

Section builder.
Context {Node Chunker : Type} `{!NodeOperations Node} `{!Chunkers Node Chunker}.

(** [NodeMerger] *)
Context (nodeMerger : list Node -> outcome Node).

(** What is left of loops that pop chunks and go up levels. *)
Context (fuel : nat).

(** [heightAwareBuilder] is its [levels].  [b.levels[i].PushSingle] and
    [b.levels[i].PopMultiple]: *)
Definition pushAt (levels : list Chunker) (i : nat) (node : Node) : outcome (list Chunker) :=
  match levels !! i with
  | Some c => c' ← pushSingle c node; Ok (<[i := c']> levels)
  | None => Panic
  end.

Definition popAt (levels : list Chunker) (i : nat) (threshold : PopThreshold) : outcome (list Node * list Chunker) :=
  match levels !! i with
  | Some c => '(nodes, c') ← popMultiple c threshold; Ok (nodes, <[i := c']> levels)
  | None => Panic
  end.

Fixpoint pushAll (levels : list Chunker) (i : nat) (nodes : list Node) : outcome (list Chunker) :=
  match nodes with
  | [] => Ok levels
  | node :: nodes => levels ← pushAt levels i node; pushAll levels i nodes
  end.

(** [heightAwareBuilder.pushChildrenToParent] *)
Definition pushChildrenToParent (levels : list Chunker) (parentLevel : nat) (children : list Node) : outcome (list Chunker) :=
  let levels := if (parentLevel =? length levels)%nat then levels ++ [newChunker] else levels in
  node ← nodeMerger children;
  pushAt levels parentLevel node.

(** The first loop of [drainUpToLevel]: objects of the lower level. *)
Fixpoint drainObjects (fuel : nat) (levels : list Chunker) (lowerLevel : nat) : outcome (list Chunker) :=
  match fuel with
  | O => Panic
  | S fuel =>
      '(lowerNodes, levels) ← popAt levels lowerLevel PopLargeEnough;
      match lowerNodes with
      | [] => Ok levels
      | _ =>
          upperNode ← nodeMerger lowerNodes;
          levels ← pushAt levels (S lowerLevel) upperNode;
          drainObjects fuel levels lowerLevel
      end
  end.

(** The second loop: nodes that are promoted. *)
Fixpoint promoteNodes (fuel : nat) (levels : list Chunker) (lowerLevel : nat) : outcome (list Chunker) :=
  match fuel with
  | O => Panic
  | S fuel =>
      '(lowerNodes, levels) ← popAt levels lowerLevel PopAll;
      match lowerNodes with
      | [] => Ok levels
      | _ =>
          levels ← pushAll levels (S lowerLevel) lowerNodes;
          promoteNodes fuel levels lowerLevel
      end
  end.

Fixpoint drainLevels (levels : list Chunker) (lowerLevels : list nat) : outcome (list Chunker) :=
  match lowerLevels with
  | [] => Ok levels
  | lowerLevel :: lowerLevels =>
      match levels !! S lowerLevel with
      | Some _ =>
          levels ← drainObjects fuel levels lowerLevel;
          levels ← promoteNodes fuel levels lowerLevel;
          drainLevels levels lowerLevels
      | None => Panic
      end
  end.

(** [heightAwareBuilder.drainUpToLevel] *)
Definition drainUpToLevel (levels : list Chunker) (height : nat) : outcome (list Chunker) :=
  if (height <=? length levels)%nat then drainLevels levels (seq 0 height) else Panic.

(** The loops at the end of [PushChild], from the first children on. *)
Fixpoint pushDefinitive (fuel : nat) (levels : list Chunker) (childLevel : nat) (children : list Node) : outcome (list Chunker) :=
  match fuel with
  | O => Panic
  | S fuel =>
      levels ← pushChildrenToParent levels (S childLevel) children;
      '(children, levels) ← popAt levels childLevel PopDefinitive;
      match children with
      | [] => Ok levels
      | _ => pushDefinitive fuel levels childLevel children
      end
  end.

Fixpoint pushLevels (fuel' : nat) (levels : list Chunker) (childLevel : nat) : outcome (list Chunker) :=
  match fuel' with
  | O => Panic
  | S fuel' =>
      if (childLevel <? length levels)%nat then
        '(children, levels) ← popAt levels childLevel PopDefinitive;
        match children with
        | [] => Ok levels
        | _ =>
            levels ← pushDefinitive fuel levels childLevel children;
            pushLevels fuel' levels (S childLevel)
        end
      else Ok levels
  end.

(** [heightAwareBuilder.PushChild] *)
Definition PushChild (levels : list Chunker) (node : Node) : outcome (list Chunker) :=
  let nodeLevel := GetHeight node in
  let levels := levels ++ replicate (S nodeLevel - length levels) newChunker in
  levels ← drainUpToLevel levels nodeLevel;
  levels ← pushAt levels nodeLevel node;
  pushLevels fuel levels nodeLevel.

(** The loops of [FinalizeList]. *)
Fixpoint finalizeLevel (fuel : nat) (levels : list Chunker) (childLevel : nat) : outcome (list Chunker) :=
  match fuel with
  | O => Panic
  | S fuel =>
      let threshold := if (S childLevel =? length levels)%nat then PopChild else PopAll in
      '(children, levels) ← popAt levels childLevel threshold;
      match children with
      | [] => Ok levels
      | _ =>
          levels ← pushChildrenToParent levels (S childLevel) children;
          finalizeLevel fuel levels childLevel
      end
  end.

Fixpoint finalizeLevels (fuel' : nat) (levels : list Chunker) (childLevel : nat) : outcome (list Chunker) :=
  match fuel' with
  | O => Panic
  | S fuel' =>
      if (childLevel <? length levels)%nat then
        levels ← finalizeLevel fuel levels childLevel;
        finalizeLevels fuel' levels (S childLevel)
      else Ok levels
  end.

(** [heightAwareBuilder.FinalizeList] *)
Definition FinalizeList (levels : list Chunker) : outcome (list Node) :=
  match levels with
  | [] => Ok []
  | _ =>
      let bottomLevels := (length levels - 1)%nat in
      levels ← drainUpToLevel levels bottomLevels;
      levels ← finalizeLevels fuel levels bottomLevels;
      '(nodes, _) ← popAt levels (length levels - 1)%nat PopAll;
      Ok nodes
  end.

(** [heightAwareBuilder.FinalizeSingle] *)
Definition FinalizeSingle (levels : list Chunker) : outcome (option Node) :=
  rootChildren ← FinalizeList levels;
  match rootChildren with
  | [] => Ok None
  | [node] => Ok (Some node)
  | _ => node ← nodeMerger rootChildren; Ok (Some node)
  end.
End builder.

(** ** Searching and traversing *)

Section find.
(** Messages of stored trees, with the references that they may have. *)
Context {Message Reference : Type}.

(** [Dereference] of [pkg/model/parser], which reads an object. *)
Context (Dereference : Reference -> outcome (list Message)).

(** The comparison of the caller: its sign, and the child of a parent. *)
Context (cmp : Message -> Z * option Reference).

(** The binary search in a list: an exact match of a leaf, or the child to go on in. *)
Fixpoint findIndex (fuel : nat) (list : list Message) (low high : nat) (childReference : option Reference) :
    outcome (Message + option Reference) :=
  match fuel with
  | O => Panic
  | S fuel =>
      if (low <? high)%nat then
        let index := ((low + high) / 2)%nat in
        match list !! index with
        | None => Panic
        | Some m =>
            let '(r, reference) := cmp m in
            if r <? 0 then findIndex fuel list low index childReference
            else if 0 <? r then findIndex fuel list (S index) high reference
            else match reference with
                 | None => Ok (inl m)
                 | Some _ => Ok (inr reference)
                 end
        end
      else Ok (inr childReference)
  end.

(** [Find] *)
Fixpoint Find (fuel : nat) (list : list Message) : outcome (option Message) :=
  match fuel with
  | O => Panic
  | S fuel =>
      r ← findIndex (S (length list)) list 0 (length list) None;
      match r with
      | inl m => Ok (Some m)
      | inr None => Ok None
      | inr (Some childReference) => list ← Dereference childReference; Find fuel list
      end
  end.
End find.

Section leaves.
Context {Message Reference State : Type}.
Context (Dereference : Reference -> outcome (list Message)).

(** What an iterator leaves in [errOut]. *)
Inductive ErrOut := Unchanged | SetNil | SetErr (e : error).

(** How [AllLeaves] ends: the lists that it keeps, [errOut], and the state of the
    functions of the caller. *)
Definition Ended : Type := list (list Message) * ErrOut * State.

(** [AllLeaves].  The function that traverses and the one that consumes leaves may
    keep state; the last list is the first of the model. *)
Fixpoint AllLeaves (fuel : nat)
    (traverser : Message -> State -> outcome (option Reference) * State)
    (yield : Message -> State -> bool * State)
    (lists : list (list Message)) (s : State) : outcome Ended :=
  match fuel with
  | O => Panic
  | S fuel =>
      match lists with
      | [] => Ok ([], Unchanged, s)
      | [] :: lists => AllLeaves fuel traverser yield lists s
      | (entry :: lastList) :: lists =>
          match traverser entry s with
          | (Err e, s) => Ok (lastList :: lists, SetErr e, s)
          | (Panic, s) => Panic
          | (Ok None, s) =>
              let '(continue, s) := yield entry s in
              if continue : bool then AllLeaves fuel traverser yield (lastList :: lists) s
              else Ok (lastList :: lists, SetNil, s)
          | (Ok (Some childReference), s) =>
              match Dereference childReference with
              | Ok child => AllLeaves fuel traverser yield (child :: lastList :: lists) s
              | Err e => Ok (lastList :: lists, SetErr e, s)
              | Panic => Panic
              end
          end
      end
  end.
End leaves.

Section skipping.
Context {Message Reference Key State : Type} `{!EqDecision Key} `{!Countable Key}.
Context (Dereference : Reference -> outcome (list Message)).

(** [FlattenDecodableReference] and the key of [parentsSeen]: the local reference with
    the parameters of the decoder. *)
Context (parentKey : Reference -> outcome Key).

(** [AllLeavesSkippingDuplicateParents] *)
Definition skippingTraverser (traverser : Message -> outcome (option Reference))
    (m : Message) (s : gset Key * State) : outcome (option Reference) * (gset Key * State) :=
  match traverser m with
  | Err e => (Err e, s)
  | Panic => (Panic, s)
  | Ok None => (Ok None, s)
  | Ok (Some parentReference) =>
      match parentKey parentReference with
      | Err e => (Err e, s)
      | Panic => (Panic, s)
      | Ok key =>
          if decide (key ∈ s.1) then (Ok None, s)
          else (Ok (Some parentReference), ({[key]} ∪ s.1, s.2))
      end
  end.

Definition skippingYield (traverser : Message -> outcome (option Reference))
    (yield : Message -> State -> bool * State) (m : Message) (s : gset Key * State) : bool * (gset Key * State) :=
  match traverser m with
  | Ok (Some _) => (true, s)
  | _ => let '(continue, s') := yield m s.2 in (continue, (s.1, s'))
  end.

Definition AllLeavesSkippingDuplicateParents (fuel : nat)
    (traverser : Message -> outcome (option Reference)) (yield : Message -> State -> bool * State)
    (root : list Message) (parentsSeen : gset Key) (s : State) : outcome (@Ended Message (gset Key * State)) :=
  AllLeaves Dereference fuel (skippingTraverser traverser) (skippingYield traverser yield) [root] (parentsSeen, s).
End skipping.

(** ** Merging *)

Section merging.
Context {Node Object : Type}.

(** [ParentNodeComputer], and [MarshalAndEncodeDeterministic] of a list of nodes. *)
Context (parentNodeComputer : Object -> list Node -> outcome Node).
Context (MarshalAndEncode : list Node -> outcome Object).

(** [NewObjectCreatingNodeMerger] *)
Definition ObjectCreatingNodeMerger (list : list Node) : outcome Node :=
  createdObject ← MarshalAndEncode list;
  parentNodeComputer createdObject list.

(** [MaybeMergeNodes] *)
Definition MaybeMergeNodes (nodes : list Node) (externalObject : option Object) : outcome (list Node) :=
  match externalObject, nodes with
  | Some externalObject, _ :: _ => merged ← parentNodeComputer externalObject nodes; Ok [merged]
  | _, _ => Ok nodes
  end.
End merging.
