(* ===== verification/BtreeChunks.v ===== *)
(** * Chunking refines a scan

    [prollyChunker] keeps a list of cuts that it adjusts with every node.  Here is what
    it computes: [chunks], which cuts a list of nodes from its start, every time at the
    place that a scan of the hashes finds ([scan]), as long as what follows is large
    enough for an object of its own ([cutLimit]). *)

From S2P Require Import Prelude Varint Btree.

Section spec.
Context {Node : Type} `{Operations : !NodeOperations Node} (cf : prollyChunkerFactory Node).

(** Sizes are not negative, and marshaling returns. *)
Class NodeLaws : Prop := {
  GetReferencesSizeBytes_nonneg n : 0 <= GetReferencesSizeBytes n;
  messageSize_nonneg n : 0 <= messageSize n;
  marshal_no_panic n : marshal n <> Panic;
}.

Definition total (ns : list Node) : Z := foldr (fun n z => sizeBytes n + z) 0 ns.
Definition pointAt (ns : list Node) (i : nat) : prollyCutPoint := mkCutPoint i (total (take i ns)).
Definition large (ns : list Node) (i j : nat) : bool := isLargeEnough cf ns (pointAt ns i) (pointAt ns j).
Definition between (ns : list Node) (i j : nat) : Z := total (take j ns) - total (take i ns).

(** The hash that belongs to a cut is the one of the node in front of it. *)
Definition hashOf (n : Node) : Z := match nodeHash n with Ok h => h | _ => 0 end.
Definition hashAt (ns : list Node) (i : nat) : Z := match ns !! pred i with Some n => hashOf n | None => 0 end.

(** From a cut [a], the places up to [m]: the first that makes a chunk that is large
    enough, and then those of a greater hash that make it no larger than the maximum. *)
Definition scanStep (ns : list Node) (a : nat) (best : option nat) (i : nat) : option nat :=
  match best with
  | None => if large ns a i then Some i else None
  | Some b => if (hashAt ns b <? hashAt ns i) && (between ns a i <=? maximumSizeBytes cf) then Some i else Some b
  end.
Definition scan (ns : list Node) (a m : nat) : option nat := foldl (scanStep ns a) None (seq (S a) (m - a)).

(** The last place after which nodes are large enough, or the start. *)
Fixpoint lastLarge (ns : list Node) (i : nat) : nat :=
  match i with
  | O => O
  | S j => if large ns i (length ns) then i else lastLarge ns j
  end.
Definition cutLimit (ns : list Node) : nat := lastLarge ns (length ns).

Fixpoint chunksUpTo (fuel : nat) (ns : list Node) : list (list Node) :=
  match fuel, ns with
  | S fuel, _ :: _ =>
      let k := match scan ns 0 (cutLimit ns) with Some k => k | None => length ns end in
      take k ns :: chunksUpTo fuel (drop k ns)
  | _, _ => []
  end.
Definition chunks (ns : list Node) : list (list Node) := chunksUpTo (length ns) ns.

(** Calls of a chunker, and the chunks that it returns. *)
Inductive chunkerCall := CallPush (n : Node) | CallPop (threshold : PopThreshold).

Fixpoint runChunker (c : prollyChunker Node) (calls : list chunkerCall) : outcome (list (list Node) * prollyChunker Node) :=
  match calls with
  | [] => Ok ([], c)
  | CallPush n :: calls => c ← PushSingle cf c n; runChunker c calls
  | CallPop threshold :: calls =>
      '(ns, c) ← PopMultiple cf c threshold;
      '(rest, c) ← runChunker c calls;
      Ok (match ns with [] => rest | _ => ns :: rest end, c)
  end.

Definition pushed (calls : list chunkerCall) : list Node :=
  concat (map (fun call => match call with CallPush n => [n] | CallPop _ => [] end) calls).

(** What is popped at the end. *)
Fixpoint drainChunker (fuel : nat) (c : prollyChunker Node) : outcome (list (list Node)) :=
  match fuel with
  | O => Panic
  | S fuel =>
      '(ns, c) ← PopMultiple cf c PopAll;
      match ns with [] => Ok [] | _ => rest ← drainChunker fuel c; Ok (ns :: rest) end
  end.

(** ** Sizes *)

Context `{Laws : !NodeLaws}.

Lemma SizeBytes_pos v : 0 < Varint.SizeBytes v.
Proof.
  unfold Varint.SizeBytes.
  assert (forall w, 0 <= Len64 (u64 w) / 7) as H.
  { intros w. apply Z.div_pos; [|lia]. apply Len64_nonneg, Z.mod_pos_bound. lia. }
  destruct (v <? 0); match goal with |- 0 < Len64 (u64 ?w) / 7 + 1 => pose proof (H w) end; lia.
Qed.

Lemma sizeBytes_pos n : 0 < sizeBytes n.
Proof.
  unfold sizeBytes. pose proof (GetReferencesSizeBytes_nonneg n). pose proof (messageSize_nonneg n).
  pose proof (SizeBytes_pos (messageSize n)). lia.
Qed.

Lemma total_app l k : total (l ++ k) = total l + total k.
Proof. induction l; simpl; lia. Qed.

Lemma total_nodes_nonneg l : 0 <= total l.
Proof. induction l as [|n l IH]; simpl; [lia|]. pose proof (sizeBytes_pos n). lia. Qed.

Lemma total_take_S ns i n : ns !! i = Some n -> total (take (S i) ns) = total (take i ns) + sizeBytes n.
Proof. intros Hn. rewrite (take_S_r ns i n Hn), total_app. simpl. lia. Qed.

Lemma total_take_le ns i j : (i <= j)%nat -> total (take i ns) <= total (take j ns).
Proof.
  intros Hij. replace j with (i + (j - i))%nat by lia. rewrite <- take_take_drop, total_app.
  pose proof (total_nodes_nonneg (take (j - i) (drop i ns))). lia.
Qed.

Lemma total_take_lt ns i j : (i < j <= length ns)%nat -> total (take i ns) < total (take j ns).
Proof.
  intros Hij. destruct (lookup_lt_is_Some_2 ns i) as [n Hn]; [lia|].
  pose proof (total_take_S ns i n Hn). pose proof (sizeBytes_pos n).
  pose proof (total_take_le ns (S i) j). lia.
Qed.

Lemma large_spec ns i j : large ns i j = true <->
  minimumSizeBytes cf <= between ns i j /\
  ((i + 2 <= j)%nat \/ j = S i /\ exists n, ns !! i = Some n /\ isParent cf n = false).
Proof.
  unfold large, isLargeEnough, between. cbn [cutIndex cumulativeSizeBytes pointAt]. split.
  - intros H. apply andb_true_iff in H as [H1 H2]. boolprop; (split; [lia|]).
    + left. lia.
    + right. split; [lia|]. destruct (ns !! i) as [n|] eqn:E; [|done]. exists n. by destruct (isParent cf n).
  - intros [H1 H2]. apply andb_true_iff. split; [lia|]. apply orb_true_iff.
    destruct H2 as [H2|(-> & n & -> & ->)]; [left; lia|right]. apply andb_true_iff. split; [|done]. apply Z.eqb_eq. lia.
Qed.

Lemma large_lt ns i j : large ns i j = true -> (i < j)%nat.
Proof. intros H%large_spec. lia. Qed.

(** Chunks that get larger stay large enough. *)
Lemma large_mono ns i i' j j' :
  (i' <= i)%nat -> (j <= j')%nat -> large ns i j = true -> large ns i' j' = true.
Proof.
  rewrite !large_spec. unfold between. intros Hi Hj [H1 H2].
  pose proof (total_take_le ns i' i Hi). pose proof (total_take_le ns j j' Hj). split; [lia|].
  destruct H2 as [H2|(-> & n & Hn & Hp)]; [left; lia|].
  destruct (decide (i' = i /\ j' = S i)) as [[-> ->]|]; [right; eauto|left; lia].
Qed.

Lemma large_mono_false ns i i' j j' :
  (i' <= i)%nat -> (j <= j')%nat -> large ns i' j' = false -> large ns i j = false.
Proof.
  intros Hi Hj H. destruct (large ns i j) eqn:E; [|done]. by rewrite (large_mono ns i i' j j' Hi Hj E) in H.
Qed.

Lemma between_app ns ms i j : (i <= length ns)%nat -> (j <= length ns)%nat -> between (ns ++ ms) i j = between ns i j.
Proof. intros. unfold between. by rewrite !take_app_le. Qed.

Lemma large_app ns ms i j : (j <= length ns)%nat -> large (ns ++ ms) i j = large ns i j.
Proof.
  intros Hj. apply Bool.eq_iff_eq_true. rewrite !large_spec.
  destruct (decide (i < j)%nat) as [Hij|]; [|split; intros; lia].
  rewrite between_app by lia. by rewrite lookup_app_l by lia.
Qed.

Lemma hashAt_app ns ms i : (0 < i <= length ns)%nat -> hashAt (ns ++ ms) i = hashAt ns i.
Proof. intros. unfold hashAt. by rewrite lookup_app_l by lia. Qed.

Lemma total_drop ns p i : total (take i (drop p ns)) = between ns p (p + i).
Proof.
  unfold between. rewrite <- (take_take_drop ns p i), total_app. lia.
Qed.

Lemma between_drop ns p i j : between (drop p ns) i j = between ns (p + i) (p + j).
Proof. unfold between at 1. rewrite !total_drop. unfold between. lia. Qed.

Lemma large_drop ns p i j : large (drop p ns) i j = large ns (p + i) (p + j).
Proof.
  apply Bool.eq_iff_eq_true. rewrite !large_spec, between_drop, lookup_drop.
  replace (p + i + 2 <= p + j)%nat with (p + (i + 2) <= p + j)%nat by (f_equal; lia).
  assert ((i + 2 <= j)%nat <-> (p + (i + 2) <= p + j)%nat) as -> by lia.
  assert (j = S i <-> (p + j)%nat = S (p + i)) as -> by lia. done.
Qed.

Lemma hashAt_drop ns p i : (0 < i)%nat -> hashAt (drop p ns) i = hashAt ns (p + i).
Proof. intros. unfold hashAt. rewrite lookup_drop. by replace (pred (p + i)) with (p + pred i)%nat by lia. Qed.

(** ** Scans *)

Lemma scan_self ns a : scan ns a a = None.
Proof. unfold scan. by rewrite Nat.sub_diag. Qed.

Lemma scan_S ns a m : (a <= m)%nat -> scan ns a (S m) = scanStep ns a (scan ns a m) (S m).
Proof.
  intros Ham. unfold scan. replace (S m - a)%nat with (S (m - a)) by lia.
  rewrite seq_S, foldl_app. simpl. f_equal. lia.
Qed.

Lemma scan_none ns a m : (a <= m)%nat -> scan ns a m = None <-> large ns a m = false.
Proof.
  intros Ham. induction Ham as [|m Ham IH]; [rewrite scan_self|rewrite scan_S by lia].
  - split; [|done]. intros _. destruct (large ns a a) eqn:E; [|done]. apply large_lt in E. lia.
  - destruct (scan ns a m) as [b|]; simpl.
    + split; [by case_match|]. intros Hl. destruct IH as [_ IH].
      discriminate IH. apply (large_mono_false ns a a m (S m)); auto with lia.
    + by destruct (large ns a (S m)).
Qed.

(** What a scan finds. *)
Record found_at (ns : list Node) (a m b : nat) : Prop := {
  found_le : (a < b <= m)%nat;
  found_large : large ns a b = true;
  found_best i : (i <= m)%nat -> large ns a i = true -> between ns a i <= maximumSizeBytes cf -> hashAt ns i <= hashAt ns b;
  found_first i : (i < b)%nat -> large ns a i = true ->
    hashAt ns i < hashAt ns b /\ between ns a b <= maximumSizeBytes cf;
}.

Lemma scan_some ns a m b : (a <= m)%nat -> scan ns a m = Some b -> found_at ns a m b.
Proof.
  intros Ham. revert b. induction Ham as [|m Ham IH]; intros b; [by rewrite scan_self|rewrite scan_S by lia].
  destruct (scan ns a m) as [b'|] eqn:Hs; simpl; intros Hb.
  - destruct (IH b' eq_refl) as [Hle Hl Hbest Hfirst].
    destruct (_ && _) eqn:E in Hb; injection Hb as <-.
    + boolprop. assert (large ns a (S m) = true) as HlS by (apply (large_mono ns a a b' (S m)); auto with lia).
      split; [lia|done| |].
      * intros i Hi Hli Hbi. destruct (decide (i = S m)) as [->|]; [lia|].
        pose proof (Hbest i ltac:(lia) Hli Hbi). lia.
      * intros i Hi Hli. split; [|done].
        assert (between ns a i <= between ns a (S m)).
        { unfold between. pose proof (total_take_le ns i (S m)). lia. }
        pose proof (Hbest i ltac:(lia) Hli ltac:(lia)). lia.
    + split; [lia|done| |done]. intros i Hi Hli Hbi.
      destruct (decide (i = S m)) as [->|]; [boolprop; lia|]. apply Hbest; auto with lia.
  - destruct (large ns a (S m)) eqn:E; [|done]. injection Hb as <-.
    assert (forall i, (i < S m)%nat -> large ns a i = false) as Hno.
    { intros i Hi. apply (large_mono_false ns a a i m); [lia|lia|]. by apply scan_none. }
    split; [lia|done| |].
    + intros i Hi Hli Hbi. destruct (decide (i = S m)) as [->|]; [lia|]. rewrite Hno in Hli by lia. done.
    + intros i Hi Hli. by rewrite Hno in Hli.
Qed.

Lemma scan_app ns ms a m : (m <= length ns)%nat -> scan (ns ++ ms) a m = scan ns a m.
Proof.
  intros Hm. destruct (decide (a <= m)%nat) as [Ham|].
  2: { unfold scan. by replace (m - a)%nat with O by lia. }
  induction Ham as [|m Ham IH]; [by rewrite !scan_self|]. rewrite !scan_S, IH by lia.
  destruct (scan ns a m) as [b|] eqn:E; simpl; [|by rewrite large_app].
  apply scan_some in E as [Hle _ _ _]; [|done].
  by rewrite !hashAt_app, between_app by lia.
Qed.

Lemma scan_drop ns p a m : scan (drop p ns) a m = (fun i => (i - p)%nat) <$> scan ns (p + a) (p + m).
Proof.
  destruct (decide (a <= m)%nat) as [Ham|].
  2: { unfold scan. replace (m - a)%nat with O by lia. by replace (p + m - (p + a))%nat with O by lia. }
  induction Ham as [|m Ham IH]; [by rewrite !scan_self|].
  rewrite Nat.add_succ_r, !scan_S, IH by lia.
  destruct (scan ns (p + a) (p + m)) as [b|] eqn:E; simpl.
  - apply scan_some in E as [Hle _ _ _]; [|lia].
    rewrite !hashAt_drop, between_drop by lia. replace (p + (b - p))%nat with b by lia.
    rewrite !Nat.add_succ_r. case_match; simpl; do 2 f_equal; lia.
  - rewrite large_drop, Nat.add_succ_r. case_match; simpl; do 2 f_equal; lia.
Qed.

(** What is further than the maximum does not count. *)
Lemma scan_stable ns a m m' b :
  (a <= m <= m')%nat -> (m' <= length ns)%nat -> maximumSizeBytes cf <= between ns a m ->
  scan ns a m = Some b -> scan ns a m' = Some b.
Proof.
  intros [Ham Hm] Hm' Hmax E. induction Hm as [|m' Hm IH]; [done|].
  rewrite scan_S, IH by lia. simpl. destruct (Z.leb_spec (between ns a (S m')) (maximumSizeBytes cf)) as [Hle|]; [|by rewrite andb_false_r].
  unfold between in *. pose proof (total_take_lt ns m (S m')). lia.
Qed.

Lemma lastLarge_spec ns i :
  (lastLarge ns i <= i)%nat /\ (lastLarge ns i = O \/ large ns (lastLarge ns i) (length ns) = true) /\
  forall j, (lastLarge ns i < j <= i)%nat -> large ns j (length ns) = false.
Proof.
  induction i as [|i (IH1 & IH2 & IH3)]; simpl; [split_and!; auto; lia|].
  destruct (large ns (S i) (length ns)) eqn:E; split_and!; auto with lia.
  intros j Hj. destruct (decide (j = S i)) as [->|]; [done|]. apply IH3. lia.
Qed.

Lemma cutLimit_le ns : (cutLimit ns <= length ns)%nat.
Proof. apply lastLarge_spec. Qed.

Lemma cutLimit_large ns : cutLimit ns = O \/ large ns (cutLimit ns) (length ns) = true.
Proof. apply lastLarge_spec. Qed.

Lemma cutLimit_max ns j : (cutLimit ns < j)%nat -> large ns j (length ns) = false.
Proof.
  intros Hj. destruct (decide (j <= length ns)%nat); [apply (lastLarge_spec ns (length ns)); unfold cutLimit in Hj; lia|].
  destruct (large ns j (length ns)) eqn:E; [apply large_lt in E; lia|done].
Qed.

Lemma cutLimit_unique ns m :
  m = O \/ large ns m (length ns) = true -> large ns (S m) (length ns) = false -> cutLimit ns = m.
Proof.
  intros Hm HS. destruct (cutLimit_large ns) as [H0|HL].
  - destruct (decide (m = O)); [congruence|]. destruct Hm as [|Hm]; [done|].
    rewrite (cutLimit_max ns m) in Hm by lia. done.
  - destruct (decide (cutLimit ns <= m)%nat).
    + destruct (decide (cutLimit ns = m)); [done|]. destruct Hm as [Hm|Hm]; [lia|].
      rewrite (cutLimit_max ns m) in Hm by lia. done.
    + rewrite (large_mono ns (cutLimit ns) (S m) (length ns) (length ns)) in HS by (auto with lia). done.
Qed.

Lemma cutLimit_drop ns p : (p <= cutLimit ns)%nat -> cutLimit (drop p ns) = (cutLimit ns - p)%nat.
Proof.
  intros Hp. pose proof (cutLimit_le ns). apply cutLimit_unique; rewrite large_drop, length_drop;
    replace (p + (length ns - p))%nat with (length ns) by lia.
  - destruct (cutLimit_large ns) as [H0|HL]; [left; lia|right].
    by replace (p + (cutLimit ns - p))%nat with (cutLimit ns) by lia.
  - apply cutLimit_max. lia.
Qed.

(** ** Cuts *)

Definition cutAt (k : prollyCut) : nat := cutIndex (point k).

(** The cuts of nodes of which [m] were looked at. *)
Record cutsOk (ns : list Node) (m : nat) (cuts : list prollyCut) : Prop := {
  cuts_points : Forall (fun k => point k = pointAt ns (cutAt k) /\ (cutAt k <= m)%nat) cuts;
  cuts_first : exists k, cuts !! O = Some k /\ cutAt k = O;
  cuts_last : exists k, last cuts = Some k /\ cutAt k = m;
  cuts_pairs i a b : cuts !! i = Some a -> cuts !! S i = Some b ->
    if large ns (cutAt a) (cutAt b)
    then hash b = hashAt ns (cutAt b) /\ scan ns (cutAt a) m = Some (cutAt b)
    else S (S i) = length cuts /\ scan ns (cutAt a) m = None;
}.

Lemma cutsOk_point ns m cuts i k : cutsOk ns m cuts -> cuts !! i = Some k ->
  point k = pointAt ns (cutAt k) /\ (cutAt k <= m)%nat.
Proof. intros [HF _ _ _] Hk. by eapply Forall_lookup_1 in HF. Qed.

Lemma cutsOk_large ns m cuts i j a b : cutsOk ns m cuts -> cuts !! i = Some a -> cuts !! j = Some b ->
  isLargeEnough cf ns (point a) (point b) = large ns (cutAt a) (cutAt b).
Proof.
  intros Hok Ha Hb. apply (cutsOk_point _ _ _ _ _ Hok) in Ha as [-> _], Hb as [-> _]. done.
Qed.

Lemma hashOf_nonneg n : 0 <= hashOf n.
Proof.
  unfold hashOf. destruct (nodeHash n) as [h| |] eqn:E; [|lia..].
  unfold nodeHash in E. destruct (marshal n) as [m| |]; simpl in E; [|done..]. injection E as <-.
  unfold fnv64a. generalize (concat (rawReferences n) ++ m). intros data.
  induction data as [|b data IH] using rev_ind; [simpl; lia|].
  rewrite foldl_app. simpl. apply Z.mod_pos_bound. lia.
Qed.

Lemma hashAt_nonneg ns i : 0 <= hashAt ns i.
Proof. unfold hashAt. case_match; [apply hashOf_nonneg|lia]. Qed.

(** When a cut is removed. *)
Definition collapses (ns : list Node) (h : Z) (new : nat) (a b : prollyCut) : bool :=
  negb (large ns (cutAt a) (cutAt b)) || ((hash b <? h) && (between ns (cutAt a) new <=? maximumSizeBytes cf)).

Lemma cutsToKeep_SS ns cuts h new n :
  cutsToKeep cf ns cuts h new (S (S n)) =
  match cuts !! n, cuts !! S n with
  | Some a, Some b =>
      if negb (isLargeEnough cf ns (point a) (point b)) ||
         ((hash b <? h) && (cumulativeSizeBytes new - cumulativeSizeBytes (point a) <=? maximumSizeBytes cf))
      then cutsToKeep cf ns cuts h new (S n) else S (S n)
  | _, _ => S (S n)
  end.
Proof. done. Qed.

Lemma cutsToKeep_spec ns m cuts h new n :
  cutsOk ns m cuts -> (1 <= n <= length cuts)%nat ->
  forall k, k = cutsToKeep cf ns cuts h (pointAt ns new) n ->
  (1 <= k <= n)%nat /\
  (forall i a b, S (S i) = k -> cuts !! i = Some a -> cuts !! S i = Some b -> collapses ns h new a b = false) /\
  (forall i a b, S i = k -> (k < n)%nat -> cuts !! i = Some a -> cuts !! S i = Some b -> collapses ns h new a b = true).
Proof.
  intros Hok. induction n as [|[|n] IH]; intros Hn k ->; [lia| |].
  { simpl. split_and!; intros; lia. }
  rewrite cutsToKeep_SS.
  destruct (lookup_lt_is_Some_2 cuts n) as [a Ha]; [lia|].
  destruct (lookup_lt_is_Some_2 cuts (S n)) as [b Hb]; [lia|].
  rewrite Ha, Hb, (cutsOk_large _ _ _ _ _ _ _ Hok Ha Hb).
  destruct (cutsOk_point _ _ _ _ _ Hok Ha) as [Hpa _].
  assert (cumulativeSizeBytes (pointAt ns new) - cumulativeSizeBytes (point a) = between ns (cutAt a) new) as -> by (by rewrite Hpa).
  fold (collapses ns h new a b). destruct (collapses ns h new a b) eqn:E.
  - destruct (IH ltac:(lia) _ eq_refl) as (IH1 & IH2 & IH3). split_and!; [lia|lia|exact IH2|].
    intros i a' b' Hi Hk Ha' Hb'.
    destruct (decide (cutsToKeep cf ns cuts h (pointAt ns new) (S n) = S n)) as [Heq|].
    + rewrite Heq in Hi. injection Hi as ->. congruence.
    + eapply IH3; eauto. lia.
  - split_and!; [lia|lia| |lia]. intros i a' b' [= ->] Ha' Hb'. congruence.
Qed.

Lemma collapses_false ns h new a b : collapses ns h new a b = false ->
  large ns (cutAt a) (cutAt b) = true /\ (hash b < h -> maximumSizeBytes cf < between ns (cutAt a) new).
Proof. unfold collapses. intros H. boolprop; (split; [done|intros]); lia. Qed.

(** A scan stops at a cut that is kept: it is not beaten by what is new. *)
Lemma kept_not_beaten ns m cuts k i a b :
  cutsOk ns m cuts -> (S m <= length ns)%nat ->
  (forall i a b, S (S i) = k -> cuts !! i = Some a -> cuts !! S i = Some b ->
     collapses ns (hashAt ns (S m)) (S m) a b = false) ->
  (k <= length cuts)%nat -> (S (S i) <= k)%nat ->
  cuts !! i = Some a -> cuts !! S i = Some b -> large ns (cutAt a) (cutAt b) = true ->
  hashAt ns (cutAt b) < hashAt ns (S m) -> maximumSizeBytes cf < between ns (cutAt a) (S m).
Proof.
  intros Hok Hm Hlast Hk. remember (k - S (S i))%nat as d eqn:Hd. revert i a b Hd.
  induction d as [|d IH]; intros i a b Hd Hi Ha Hb Hl Hh.
  - pose proof (cuts_pairs _ _ _ Hok i a b Ha Hb) as Hp. rewrite Hl in Hp. destruct Hp as [Hhb _].
    apply (collapses_false ns (hashAt ns (S m)) (S m) a b); [apply (Hlast i); auto; lia|lia].
  - destruct (lookup_lt_is_Some_2 cuts (S (S i))) as [c Hc]; [lia|].
    destruct (cutsOk_point _ _ _ _ _ Hok Hb) as [_ Hbm], (cutsOk_point _ _ _ _ _ Hok Hc) as [_ Hcm].
    pose proof (cuts_pairs _ _ _ Hok i a b Ha Hb) as Hp. rewrite Hl in Hp. destruct Hp as [_ Hs].
    pose proof (large_lt _ _ _ Hl). apply scan_some in Hs as [Hle _ Hbest _]; [|lia].
    destruct (large ns (cutAt b) (cutAt c)) eqn:Hbc.
    + destruct (decide (maximumSizeBytes cf < between ns (cutAt a) (S m))) as [|Hno]; [done|].
      pose proof (large_lt _ _ _ Hbc).
      pose proof (total_take_le ns (cutAt a) (cutAt b)). pose proof (total_take_le ns (cutAt c) (S m)).
      assert (large ns (cutAt a) (cutAt c) = true) as Hac by (apply (large_mono ns (cutAt b) (cutAt a) (cutAt c) (cutAt c)); [lia|lia|done]).
      pose proof (Hbest (cutAt c) Hcm Hac) as Hx. unfold between in Hx, Hno.
      destruct (decide (hashAt ns (cutAt c) < hashAt ns (S m))) as [Hlt|]; [|lia].
      pose proof (IH (S i) b c ltac:(lia) ltac:(lia) Hb Hc Hbc Hlt) as Hy. unfold between in Hy. lia.
    + pose proof (cuts_pairs _ _ _ Hok (S i) b c Hb Hc) as Hp. rewrite Hbc in Hp. destruct Hp as [Hlen _].
      assert (collapses ns (hashAt ns (S m)) (S m) b c = false) as Hcol by (apply (Hlast (S i)); auto with lia).
      apply collapses_false in Hcol as [Hcol _]. congruence.
Qed.

(** A new cut, with the hash that it gets. *)
Lemma addCut_ok ns m cuts h :
  cutsOk ns m cuts -> cuts <> [] -> (S m <= length ns)%nat ->
  h = (if large ns 0 (S m) then hashAt ns (S m) else 0) ->
  let keep := cutsToKeep cf ns cuts h (pointAt ns (S m)) (length cuts) in
  cutsOk ns (S m) (take keep cuts ++ [mkCut (pointAt ns (S m)) h]) /\
  (2 <= length (take keep cuts ++ [mkCut (pointAt ns (S m)) h]))%nat.
Proof.
  intros Hok Hne Hm Hh keep.
  destruct (cutsToKeep_spec ns m cuts h (S m) (length cuts) Hok) with (k := keep) as (Hk & Hlast & Hnext);
    [destruct cuts; simpl in *; [done|lia]|done|].
  assert (forall a b, large ns a b = true -> (b <= S m)%nat -> h = hashAt ns (S m)) as Hlh.
  { intros a b Hl Hb. by rewrite Hh, (large_mono ns a 0 b (S m) ltac:(lia) Hb Hl). }
  assert (length (take keep cuts) = keep) as Hlen by (rewrite length_take; lia).
  split; [|rewrite length_app, Hlen; simpl; lia]. split.
  - apply Forall_app. split; [|constructor; [simpl; split; [done|unfold cutAt; simpl; lia]|done]].
    apply Forall_take. eapply Forall_impl; [apply (cuts_points _ _ _ Hok)|]. simpl. intros ? [? ?]. split; [done|lia].
  - destruct (cuts_first _ _ _ Hok) as (k & Hk0 & Hk1). exists k. split; [|done].
    rewrite lookup_app_l by lia. by rewrite lookup_take_lt by lia.
  - eexists. rewrite last_snoc. done.
  - intros i a b Ha Hb. rewrite length_app, Hlen. simpl.
    assert (i < keep)%nat as Hik.
    { apply lookup_lt_Some in Hb. rewrite length_app, Hlen in Hb. simpl in Hb. lia. }
    rewrite lookup_app_l, lookup_take_lt in Ha by lia.
    destruct (cutsOk_point _ _ _ _ _ Hok Ha) as [_ Ham].
    destruct (decide (S i < keep)%nat) as [HSi|].
    + rewrite lookup_app_l, lookup_take_lt in Hb by lia.
      pose proof (cuts_pairs _ _ _ Hok i a b Ha Hb) as Hp.
      assert (large ns (cutAt a) (cutAt b) = true) as Hl.
      { destruct (large ns (cutAt a) (cutAt b)) eqn:E; [done|]. destruct Hp as [Hp _].
        destruct (collapses_false ns h (S m) a b) as [Hl _]; [apply (Hlast i); [lia|done..]|]. congruence. }
      rewrite Hl in Hp |- *. destruct Hp as [Hhb Hs]. split; [done|].
      rewrite scan_S, Hs by lia. simpl.
      destruct (Z.ltb_spec (hashAt ns (cutAt b)) (hashAt ns (S m))) as [Hlt|]; [|done].
      destruct (cutsOk_point _ _ _ _ _ Hok Hb) as [_ Hbm].
      rewrite (Hlh _ _ Hl ltac:(lia)) in Hlast.
      pose proof (kept_not_beaten ns m cuts keep i a b Hok Hm Hlast ltac:(lia) ltac:(lia) Ha Hb Hl Hlt).
      destruct (Z.leb_spec (between ns (cutAt a) (S m)) (maximumSizeBytes cf)); [lia|done].
    + replace (S i) with keep in Hb by lia. rewrite list_lookup_middle in Hb by lia. injection Hb as <-.
      change (cutAt (mkCut (pointAt ns (S m)) h)) with (S m). cbn [hash].
      assert (scan ns (cutAt a) (S m) = if large ns (cutAt a) (S m) then Some (S m) else None) as ->.
      2: { destruct (large ns (cutAt a) (S m)) eqn:E; [|split; [lia|done]]. split; [|done]. eapply Hlh; [done|lia]. }
      rewrite scan_S by lia. destruct (decide (keep < length cuts)%nat) as [Hlt|].
      * destruct (lookup_lt_is_Some_2 cuts (S i)) as [b Hb]; [lia|].
        pose proof (cuts_pairs _ _ _ Hok i a b Ha Hb) as Hp.
        pose proof (Hnext i a b ltac:(lia) Hlt Ha Hb) as Hcol. unfold collapses in Hcol.
        destruct (large ns (cutAt a) (cutAt b)) eqn:Hl; destruct Hp as [Hhb ->]; [|done]. simpl in Hcol |- *.
        destruct (cutsOk_point _ _ _ _ _ Hok Hb) as [_ Hbm].
        rewrite <- (Hlh _ _ Hl ltac:(lia)), <- Hhb, Hcol.
        by rewrite (large_mono ns (cutAt a) (cutAt a) (cutAt b) (S m) ltac:(lia) ltac:(lia) Hl).
      * destruct (cuts_last _ _ _ Hok) as (x & Hx & Hxm).
        rewrite last_lookup in Hx. replace (pred (length cuts)) with i in Hx by lia.
        assert (x = a) as -> by congruence. rewrite Hxm, scan_self. done.
Qed.

(** ** The invariant of chunkers *)

(** While cuts are added: [m] nodes were looked at. *)
Record chunkerAt (m : nat) (c : prollyChunker Node) : Prop := {
  at_cuts : cutsOk (nodes c) m (cuts c);
  at_length : (2 <= length (cuts c))%nat;
  at_le : (m <= length (nodes c))%nat;
  at_uncut : uncutSizesBytes c = sizeBytes <$> drop m (nodes c);
  at_total : totalUncutSizeBytes c = total (drop m (nodes c));
  at_large : m = O \/ large (nodes c) m (length (nodes c)) = true;
}.

Definition chunkerOk (c : prollyChunker Node) : Prop := chunkerAt (cutLimit (nodes c)) c.

Lemma total_drop_all ns m : (m <= length ns)%nat -> total (take m ns) + total (drop m ns) = total ns.
Proof. intros. rewrite <- (take_drop m ns) at 3. by rewrite total_app. Qed.

(** The end of the nodes, as the code computes it. *)
Lemma endPoint ns m c : chunkerAt m c -> nodes c = ns -> forall last', last (cuts c) = Some last' ->
  mkCutPoint (length ns) (cumulativeSizeBytes (point last') + totalUncutSizeBytes c) = pointAt ns (length ns) /\
  point last' = pointAt ns m.
Proof.
  intros Hc <- last' Hl. destruct (cuts_last _ _ _ (at_cuts _ _ Hc)) as (k & Hk & Hkm).
  assert (k = last') as -> by congruence. rewrite last_lookup in Hk.
  destruct (cutsOk_point _ _ _ _ _ (at_cuts _ _ Hc) Hk) as [Hp _]. rewrite Hkm in Hp.
  rewrite Hp, (at_total _ _ Hc). split; [|done]. unfold pointAt. simpl. f_equal.
  rewrite firstn_all. apply total_drop_all. by apply (at_le _ _ Hc).
Qed.

Lemma addCuts_ok fuel m c :
  chunkerAt m c -> (m < length (nodes c))%nat -> (length (nodes c) - m <= fuel)%nat ->
  match addCuts cf fuel c with
  | Ok c' => chunkerOk c' /\ nodes c' = nodes c
  | Err e => exists n, n ∈ nodes c /\ marshal n = Err e
  | Panic => False
  end.
Proof.
  revert m c. induction fuel as [|fuel IH]; intros m c Hc Hm Hf; [lia|]. simpl.
  destruct (cuts_last _ _ _ (at_cuts _ _ Hc)) as (x & Hx & Hxm). rewrite Hx.
  destruct (endPoint _ _ _ Hc eq_refl x Hx) as [-> Hpx]. rewrite Hpx. cbn [cutIndex cumulativeSizeBytes pointAt].
  destruct (lookup_lt_is_Some_2 (nodes c) m Hm) as [n Hn].
  rewrite (at_uncut _ _ Hc), (drop_S _ _ _ Hn). cbn [fmap list_fmap].
  assert (mkCutPoint (S m) (total (take m (nodes c)) + sizeBytes n) = pointAt (nodes c) (S m)) as ->.
  { unfold pointAt. by rewrite (total_take_S _ _ _ Hn). }
  fold (large (nodes c) (S m) (length (nodes c))).
  destruct (large (nodes c) (S m) (length (nodes c))) eqn:Hl; cbn [negb].
  2: { split; [|done]. unfold chunkerOk. by rewrite (cutLimit_unique _ m (at_large _ _ Hc) Hl). }
  fold zeroPoint. change zeroPoint with (pointAt (nodes c) 0). fold (large (nodes c) 0 (S m)). rewrite Hn.
  assert (forall h, h = (if large (nodes c) 0 (S m) then hashAt (nodes c) (S m) else 0) ->
    chunkerAt (S m) (mkChunker (nodes c) (sizeBytes <$> drop (S m) (nodes c)) (totalUncutSizeBytes c - sizeBytes n)
      (take (cutsToKeep cf (nodes c) (cuts c) h (pointAt (nodes c) (S m)) (length (cuts c))) (cuts c) ++
         [mkCut (pointAt (nodes c) (S m)) h]))) as Hnew.
  { intros h Hh. destruct (addCut_ok (nodes c) m (cuts c) h (at_cuts _ _ Hc)) as [H1 H2]; [| |done|].
    - pose proof (at_length _ _ Hc). by destruct (cuts c).
    - lia.
    - split; simpl; [done|done|lia|done| |by right].
      rewrite (at_total _ _ Hc), (drop_S _ _ _ Hn). simpl. lia. }
  assert (hashAt (nodes c) (S m) = hashOf n) as HhS by (unfold hashAt; simpl; by rewrite Hn).
  rewrite HhS in Hnew. pose proof (large_lt _ _ _ Hl).
  destruct (large (nodes c) 0 (S m)); simpl.
  - unfold hashOf in Hnew. unfold nodeHash in *. destruct (marshal n) as [b|e|] eqn:Em; simpl in *.
    + by apply (IH (S m) _ (Hnew _ eq_refl)); simpl; lia.
    + exists n. split; [by eapply list_elem_of_lookup_2|done].
    + by apply (marshal_no_panic n).
  - by apply (IH (S m) _ (Hnew _ eq_refl)); simpl; lia.
Qed.

Lemma cutsOk_app ns ms m cuts : (m <= length ns)%nat -> cutsOk ns m cuts -> cutsOk (ns ++ ms) m cuts.
Proof.
  intros Hm Hok. split.
  - eapply Forall_impl; [apply (cuts_points _ _ _ Hok)|]. simpl. intros k [-> Hk]. split; [|done].
    unfold pointAt, cutAt. simpl. unfold cutAt, pointAt in Hk. simpl in Hk. by rewrite take_app_le by lia.
  - apply (cuts_first _ _ _ Hok).
  - apply (cuts_last _ _ _ Hok).
  - intros i a b Ha Hb. pose proof (cuts_pairs _ _ _ Hok i a b Ha Hb) as Hp.
    destruct (cutsOk_point _ _ _ _ _ Hok Ha) as [_ Ham], (cutsOk_point _ _ _ _ _ Hok Hb) as [_ Hbm].
    rewrite large_app, scan_app by lia. destruct (large ns (cutAt a) (cutAt b)) eqn:Hl; [|done].
    apply large_lt in Hl. by rewrite hashAt_app by lia.
Qed.

Lemma NewChunker_ok : chunkerOk NewChunker.
Proof.
  assert (large [] 0 0 = false) as Hl by (destruct (large [] 0 0) eqn:E; [apply large_lt in E; lia|done]).
  split; simpl; auto. split; simpl.
  - repeat constructor.
  - by exists zeroCut.
  - by exists zeroCut.
  - intros [|[|i]] a b; simpl; intros [= <-] [= <-]. change (cutAt zeroCut) with O. by rewrite Hl.
Qed.

(** [PushSingle] adds a node, unless a node cannot be marshaled. *)
Lemma PushSingle_ok c n : chunkerOk c ->
  match PushSingle cf c n with
  | Ok c' => chunkerOk c' /\ nodes c' = nodes c ++ [n]
  | Err e => exists n', n' ∈ nodes c ++ [n] /\ marshal n' = Err e
  | Panic => False
  end.
Proof.
  intros Hc. unfold PushSingle. pose proof (at_le _ _ Hc) as Hle.
  set (c1 := mkChunker _ _ _ _).
  assert (chunkerAt (cutLimit (nodes c)) c1) as H1.
  { split; simpl.
    - apply cutsOk_app; [done|apply (at_cuts _ _ Hc)].
    - apply (at_length _ _ Hc).
    - rewrite length_app. simpl. lia.
    - rewrite drop_app_le by done. rewrite fmap_app. by rewrite (at_uncut _ _ Hc).
    - rewrite drop_app_le by done. rewrite total_app. simpl. rewrite (at_total _ _ Hc). lia.
    - destruct (at_large _ _ Hc) as [H0|H0]; [by left|right]. rewrite length_app.
      apply (large_mono _ (cutLimit (nodes c)) _ (length (nodes c))); [lia|lia|]. by rewrite large_app. }
  apply (addCuts_ok _ _ _ H1); simpl; rewrite length_app; simpl; [lia|].
  rewrite length_app, (at_uncut _ _ Hc), length_fmap, length_drop. simpl. lia.
Qed.

(** ** Popping *)

Lemma cuts_sorted ns m cuts i j a b : cutsOk ns m cuts -> (i <= j)%nat ->
  cuts !! i = Some a -> cuts !! j = Some b -> (cutAt a <= cutAt b)%nat.
Proof.
  intros Hok Hij Ha. revert b. induction Hij as [|j Hij IH]; intros b Hb; [by assert (a = b) as -> by congruence|].
  destruct (lookup_lt_is_Some_2 cuts j) as [k Hk]; [apply lookup_lt_Some in Hb; lia|].
  specialize (IH k Hk). pose proof (cuts_pairs _ _ _ Hok j k b Hk Hb) as Hp.
  destruct (large ns (cutAt k) (cutAt b)) eqn:Hl; [apply large_lt in Hl; lia|]. destruct Hp as [Hlen _].
  destruct (cuts_last _ _ _ Hok) as (x & Hx & Hxm). rewrite last_lookup, <- Hlen in Hx. simpl in Hx.
  assert (x = b) as -> by congruence. destruct (cutsOk_point _ _ _ _ _ Hok Hk) as [_ Hkm]. lia.
Qed.

Lemma pointAt_drop ns p i : (p <= i)%nat ->
  mkCutPoint (i - p) (total (take i ns) - total (take p ns)) = pointAt (drop p ns) (i - p).
Proof. intros. unfold pointAt. rewrite total_drop. unfold between. by replace (p + (i - p))%nat with i by lia. Qed.

(** The cuts after the first, as seen from it. *)
Lemma cutsOk_shift ns m z p rest : cutsOk ns m (z :: p :: rest) -> rest <> [] ->
  cutsOk (drop (cutAt p) ns) (m - cutAt p) (z :: map (shiftCut (point p)) rest).
Proof.
  intros Hok Hrest.
  assert (forall j b, (p :: rest) !! j = Some b -> (cutAt p <= cutAt b <= m)%nat /\ point b = pointAt ns (cutAt b)) as Hall.
  { intros j b Hb. destruct (cutsOk_point ns m _ (S j) b Hok Hb). split; [|done]. split; [|done].
    by apply (cuts_sorted ns m _ 1 (S j) p b Hok ltac:(lia)). }
  destruct (Hall O p eq_refl) as [_ Hpp].
  destruct (cuts_first _ _ _ Hok) as (z' & [= <-] & Hz0).
  destruct (cutsOk_point ns m _ O z Hok eq_refl) as [Hzp _]. rewrite Hz0 in Hzp.
  assert (forall b, cutAt (shiftCut (point p) b) = (cutAt b - cutAt p)%nat) as Hshift by done.
  (* an element of the new list, and the old one that it stands for *)
  assert (forall j b, (z :: map (shiftCut (point p)) rest) !! j = Some b ->
    exists k, (p :: rest) !! j = Some k /\ cutAt b = (cutAt k - cutAt p)%nat /\ ((0 < j)%nat -> hash b = hash k)) as Hold.
  { intros [|j] b; simpl.
    - intros [= <-]. exists p. rewrite Hz0. split_and!; [done|lia|lia].
    - rewrite list_lookup_fmap. destruct (rest !! j) as [k|] eqn:Hk; simpl; [intros [= <-]|done]. by exists k. }
  split.
  - constructor; [rewrite Hz0; split; [by rewrite Hzp|lia]|]. apply Forall_map, Forall_lookup. intros j k Hk.
    destruct (Hall (S j) k Hk) as [Hle Hkp]. simpl. rewrite Hshift. split; [|lia].
    unfold shiftCut. simpl. rewrite Hkp, Hpp. cbn [cutIndex cumulativeSizeBytes pointAt].
    by rewrite pointAt_drop by lia.
  - by exists z.
  - destruct (cuts_last _ _ _ Hok) as (x & Hx & Hxm). exists (shiftCut (point p) x). split; [|by rewrite Hshift, Hxm].
    destruct rest as [|q rest _] using rev_ind; [done|]. rewrite map_app. simpl.
    rewrite app_comm_cons, last_snoc. rewrite !app_comm_cons, last_snoc in Hx. congruence.
  - intros i a b Ha Hb. destruct (Hold _ _ Ha) as (ka & Hka & -> & _), (Hold _ _ Hb) as (kb & Hkb & -> & ->); [|lia].
    pose proof (cuts_pairs _ _ _ Hok (S i) ka kb Hka Hkb) as Hp.
    destruct (Hall _ _ Hka) as [Hale _], (Hall _ _ Hkb) as [Hble _].
    rewrite large_drop. replace (cutAt p + (cutAt ka - cutAt p))%nat with (cutAt ka) by lia.
    replace (cutAt p + (cutAt kb - cutAt p))%nat with (cutAt kb) by lia.
    rewrite scan_drop. replace (cutAt p + (cutAt ka - cutAt p))%nat with (cutAt ka) by lia.
    replace (cutAt p + (m - cutAt p))%nat with m by lia.
    destruct (large ns (cutAt ka) (cutAt kb)) eqn:Hl; destruct Hp as [H1 H2].
    + rewrite H2. split; [|done]. apply large_lt in Hl. rewrite hashAt_drop by lia.
      by replace (cutAt p + (cutAt kb - cutAt p))%nat with (cutAt kb) by lia.
    + rewrite H2. split; [|done]. simpl in H1 |- *. rewrite length_map. lia.
Qed.

Lemma firstCut_cases c : chunkerOk c -> exists z p rest,
  cuts c = z :: p :: rest /\ point p = pointAt (nodes c) (cutAt p) /\ cutAt z = O /\ point z = zeroPoint /\
  (cutAt p <= cutLimit (nodes c))%nat /\
  if large (nodes c) 0 (cutAt p) then scan (nodes c) 0 (cutLimit (nodes c)) = Some (cutAt p)
  else rest = [] /\ scan (nodes c) 0 (cutLimit (nodes c)) = None.
Proof.
  intros Hc. pose proof (at_length _ _ Hc). pose proof (at_cuts _ _ Hc) as Hok.
  destruct (cuts c) as [|z [|p rest]] eqn:E; simpl in *; [lia|lia|]. exists z, p, rest.
  destruct (cuts_first _ _ _ Hok) as (z' & [= <-] & Hz0).
  destruct (cutsOk_point _ _ _ O z Hok eq_refl) as [Hzp _].
  destruct (cutsOk_point _ _ _ 1%nat p Hok eq_refl) as [Hpp Hpm].
  pose proof (cuts_pairs _ _ _ Hok O z p eq_refl eq_refl) as Hp. rewrite Hz0 in *. split_and!; auto.
  destruct (large (nodes c) 0 (cutAt p)); destruct Hp as [H1 H2]; [done|]. split; [|done].
  destruct rest; [done|simpl in H1; lia].
Qed.

Lemma popCut_ok c z p rest : chunkerOk c -> cuts c = z :: p :: rest ->
  (cutAt p <= cutLimit (nodes c))%nat -> cutAt z = O -> point z = zeroPoint -> point p = pointAt (nodes c) (cutAt p) ->
  chunkerOk (mkChunker (drop (cutAt p) (nodes c)) (uncutSizesBytes c) (totalUncutSizeBytes c)
    match rest with [] => [z; zeroCut] | _ :: _ => z :: map (shiftCut (point p)) rest end).
Proof.
  intros Hc Hcuts Hpm Hz Hzp Hpp. unfold chunkerOk. cbn [nodes].
  rewrite cutLimit_drop by done. pose proof (cutLimit_le (nodes c)). pose proof (at_cuts _ _ Hc) as Hok. rewrite Hcuts in Hok.
  split; cbn [nodes cuts uncutSizesBytes totalUncutSizeBytes].
  - destruct rest as [|q rest]; [|by apply cutsOk_shift].
    destruct (cuts_last _ _ _ Hok) as (x & [= <-] & Hxm). rewrite Hxm, Nat.sub_diag.
    split; cbn [length lookup list_lookup last].
    + constructor; [by rewrite Hz, Hzp|]. by repeat constructor.
    + by exists z.
    + by exists zeroCut.
    + intros [|[|i]] a b; simpl; intros [= <-] [= <-]. change (cutAt zeroCut) with O. rewrite Hz.
      destruct (large (drop (cutLimit (nodes c)) (nodes c)) 0 0) eqn:E; [apply large_lt in E; lia|done].
  - destruct rest as [|q rest]; [done|]. simpl. lia.
  - rewrite length_drop. lia.
  - rewrite (at_uncut _ _ Hc), drop_drop. do 2 f_equal. lia.
  - rewrite (at_total _ _ Hc), drop_drop. do 2 f_equal. lia.
  - rewrite large_drop, length_drop. replace (cutAt p + (length (nodes c) - cutAt p))%nat with (length (nodes c)) by lia.
    destruct (at_large _ _ Hc) as [H0|H0]; [left; lia|right].
    by replace (cutAt p + (cutLimit (nodes c) - cutAt p))%nat with (cutLimit (nodes c)) by lia.
Qed.

(** What is left when everything was popped. *)
Lemma emptied_ok z : cutAt z = O -> point z = zeroPoint -> chunkerOk (mkChunker [] [] 0 [z; zeroCut]).
Proof.
  intros Hz Hzp.
  assert (large [] 0 0 = false) as Hl by (destruct (large [] 0 0) eqn:E; [apply large_lt in E; lia|done]).
  split; simpl; auto. split; simpl.
  - constructor; [|by repeat constructor]. rewrite Hz, Hzp. by split.
  - by exists z.
  - by exists zeroCut.
  - intros [|[|i]] a b; simpl; intros [= <-] [= <-]. change (cutAt zeroCut) with O. by rewrite Hz, Hl.
Qed.

(** Whether [PopMultiple] returns nodes. *)
Definition pops (ns : list Node) (threshold : PopThreshold) : bool :=
  match threshold with
  | PopDefinitive => match scan ns 0 (cutLimit ns) with Some _ => maximumSizeBytes cf <=? between ns 0 (cutLimit ns) | None => false end
  | PopChild => match scan ns 0 (cutLimit ns) with Some _ => true | None => false end
  | PopLargeEnough => large ns 0 (length ns)
  | PopAll => match ns with [] => false | _ => true end
  end.

(** How many. *)
Definition firstChunk (ns : list Node) : nat :=
  match scan ns 0 (cutLimit ns) with Some k => k | None => length ns end.

Lemma PopMultiple_ok c threshold : chunkerOk c ->
  if pops (nodes c) threshold
  then exists c', PopMultiple cf c threshold = Ok (take (firstChunk (nodes c)) (nodes c), c') /\
    chunkerOk c' /\ nodes c' = drop (firstChunk (nodes c)) (nodes c)
  else PopMultiple cf c threshold = Ok ([], c).
Proof.
  intros Hc. destruct (firstCut_cases c Hc) as (z & p & rest & Hcuts & Hpp & Hz & Hzp & Hpm & Hfirst).
  destruct (cuts_last _ _ _ (at_cuts _ _ Hc)) as (x & Hx & Hxm).
  destruct (endPoint _ _ _ Hc eq_refl x Hx) as [Hend Hpx].
  assert (isLargeEnough cf (nodes c) zeroPoint (point p) = large (nodes c) 0 (cutAt p)) as Hlp by (by rewrite Hpp).
  assert (cumulativeSizeBytes (point x) = between (nodes c) 0 (cutLimit (nodes c))) as Hxs.
  { rewrite Hpx. unfold between. simpl. lia. }
  unfold PopMultiple. rewrite Hx, Hend, Hxs, Hcuts. cbn [lookup list_lookup].
  rewrite Hlp. change (isLargeEnough cf (nodes c) zeroPoint (pointAt (nodes c) (length (nodes c)))) with (large (nodes c) 0 (length (nodes c))).
  unfold firstChunk, pops.
  destruct (large (nodes c) 0 (cutAt p)) eqn:Hl.
  - rewrite Hfirst. pose proof (cutLimit_le (nodes c)).
    rewrite (large_mono (nodes c) 0 0 (cutAt p) (length (nodes c)) ltac:(lia) ltac:(lia) Hl). cbn [negb andb orb].
    assert (nodes c <> []) as Hne by (intros E; apply large_lt in Hl; rewrite E in *; simpl in *; lia).
    pose proof (popCut_ok c z p rest Hc Hcuts Hpm Hz Hzp Hpp) as Hc'.
    assert (match nodes c with [] => false | _ :: _ => true end = true) as Hall by (by destruct (nodes c)).
    destruct threshold; cbn [negb].
    + destruct (Z.ltb_spec (between (nodes c) 0 (cutLimit (nodes c))) (maximumSizeBytes cf)) as [Hb|Hb].
      * by rewrite (proj2 (Z.leb_gt _ _) Hb).
      * rewrite (proj2 (Z.leb_le _ _) Hb). eexists. split; [|split; [exact Hc'|done]]. destruct rest; [by rewrite Hpp|by rewrite Hpp].
    + eexists. split; [|split; [exact Hc'|done]]. destruct rest; by rewrite Hpp.
    + eexists. split; [|split; [exact Hc'|done]]. destruct rest; by rewrite Hpp.
    + rewrite Hall. eexists. split; [|split; [exact Hc'|done]].
      destruct (nodes c) eqn:En; [done|]. rewrite <- En. destruct rest; by rewrite Hpp.
  - destruct Hfirst as [-> Hfirst]. rewrite Hfirst. cbn [negb andb orb length Nat.ltb Nat.leb].
    rewrite firstn_all, drop_all.
    destruct threshold; [done|done| |].
    + destruct (large (nodes c) 0 (length (nodes c))) eqn:El; [|done]. cbn [negb].
      eexists. split; [cbn [cutIndex pointAt]; by rewrite firstn_all, drop_all|]. split; [by apply emptied_ok|done].
    + destruct (nodes c) as [|n ns] eqn:En; [done|]. rewrite <- En.
      eexists. split; [cbn [cutIndex pointAt]; by rewrite firstn_all, drop_all|]. split; [by apply emptied_ok|done].
Qed.

(** ** Refinement *)

Lemma firstChunk_bounds ns : ns <> [] -> (0 < firstChunk ns <= length ns)%nat.
Proof.
  intros Hne. unfold firstChunk. pose proof (cutLimit_le ns).
  destruct (scan ns 0 (cutLimit ns)) as [k|] eqn:E.
  - apply scan_some in E as [Hle _ _ _]; lia.
  - destruct ns; simpl in *; [done|lia].
Qed.

Lemma chunksUpTo_fuel fuel fuel' ns : (length ns <= fuel)%nat -> (length ns <= fuel')%nat ->
  chunksUpTo fuel ns = chunksUpTo fuel' ns.
Proof.
  revert fuel' ns. induction fuel as [|fuel IH]; intros fuel' ns Hf Hf'.
  { destruct ns; [|simpl in Hf; lia]. by destruct fuel'. }
  destruct ns as [|n ns]; [by destruct fuel'|]. destruct fuel' as [|fuel']; [simpl in Hf'; lia|].
  cbn [chunksUpTo]. fold (firstChunk (n :: ns)). pose proof (firstChunk_bounds (n :: ns) ltac:(done)).
  f_equal. apply IH; rewrite length_drop; lia.
Qed.

Lemma chunks_nil : chunks [] = [].
Proof. done. Qed.

Lemma chunks_cons ns : ns <> [] -> chunks ns = take (firstChunk ns) ns :: chunks (drop (firstChunk ns) ns).
Proof.
  intros Hne. pose proof (firstChunk_bounds ns Hne). unfold chunks at 1.
  destruct ns as [|n ns]; [done|]. cbn [length chunksUpTo]. fold (firstChunk (n :: ns)). f_equal.
  unfold chunks. apply chunksUpTo_fuel; rewrite length_drop; simpl in *; lia.
Qed.

Lemma chunks_concat ns : concat (chunks ns) = ns.
Proof.
  remember (length ns) as k eqn:Hk. revert ns Hk. induction (lt_wf k) as [k _ IH]. intros ns ->.
  destruct (decide (ns = [])) as [->|Hne]; [done|]. rewrite chunks_cons by done. simpl.
  pose proof (firstChunk_bounds ns Hne).
  rewrite (IH (length (drop (firstChunk ns) ns))); [apply take_drop|rewrite length_drop; lia|done].
Qed.

Lemma cutLimit_mono ns ms : (cutLimit ns <= cutLimit (ns ++ ms))%nat.
Proof.
  pose proof (cutLimit_le ns).
  destruct (cutLimit_large ns) as [->|Hl]; [lia|].
  destruct (decide (cutLimit ns <= cutLimit (ns ++ ms))%nat) as [|Hn]; [done|].
  assert (large (ns ++ ms) (cutLimit ns) (length (ns ++ ms)) = false) as Hf by (apply cutLimit_max; lia).
  assert (large (ns ++ ms) (cutLimit ns) (length (ns ++ ms)) = true) as Ht.
  { apply (large_mono _ (cutLimit ns) _ (length ns)); [lia|rewrite length_app; lia|by rewrite large_app]. }
  congruence.
Qed.

(** What is definitive does not depend on what follows. *)
Lemma definitive_stable ns ms : pops ns PopDefinitive = true -> firstChunk (ns ++ ms) = firstChunk ns.
Proof.
  simpl. unfold firstChunk. destruct (scan ns 0 (cutLimit ns)) as [k|] eqn:E; [|done]. intros Hmax%Z.leb_le.
  pose proof (cutLimit_le ns). pose proof (cutLimit_mono ns ms). pose proof (cutLimit_le (ns ++ ms)).
  erewrite (scan_stable (ns ++ ms) 0 (cutLimit ns)); [done|lia|lia| |].
  - by rewrite between_app by lia.
  - by rewrite scan_app by lia.
Qed.

Lemma pops_nonempty ns t : pops ns t = true -> ns <> [].
Proof.
  intros H ->. destruct t; simpl in H; try done.
  destruct (large [] 0 0) eqn:E; [apply large_lt in E; lia|done].
Qed.

(** A pop of nodes, in one step. *)
Lemma PopMultiple_cases c threshold ns c' : chunkerOk c -> PopMultiple cf c threshold = Ok (ns, c') ->
  chunkerOk c' /\ ((ns = [] /\ c' = c /\ pops (nodes c) threshold = false) \/
   (ns <> [] /\ pops (nodes c) threshold = true /\ ns = take (firstChunk (nodes c)) (nodes c) /\ nodes c' = drop (firstChunk (nodes c)) (nodes c))).
Proof.
  intros Hc Hpop. pose proof (PopMultiple_ok c threshold Hc) as H.
  destruct (pops (nodes c) threshold) eqn:Hp.
  - destruct H as (c'' & Heq & Hc'' & Hn). rewrite Hpop in Heq. injection Heq as -> ->. split; [done|right].
    split_and!; [|done..]. apply pops_nonempty in Hp. pose proof (firstChunk_bounds _ Hp).
    destruct (nodes c); [done|]. by destruct (firstChunk _); [lia|].
  - rewrite Hpop in H. injection H as -> ->. split; [done|by left].
Qed.

Lemma PopMultiple_returns c threshold : chunkerOk c -> exists r, PopMultiple cf c threshold = Ok r.
Proof.
  intros Hc. pose proof (PopMultiple_ok c threshold Hc) as H.
  destruct (pops (nodes c) threshold); [|eauto]. destruct H as (c' & -> & _). eauto.
Qed.

Lemma drainChunker_ok fuel c : chunkerOk c -> (length (nodes c) < fuel)%nat -> drainChunker fuel c = Ok (chunks (nodes c)).
Proof.
  revert c. induction fuel as [|fuel IH]; intros c Hc Hf; [lia|]. simpl.
  destruct (PopMultiple_returns c PopAll Hc) as [[ns c'] Hpop]. rewrite Hpop. simpl.
  destruct (PopMultiple_cases c PopAll ns c' Hc Hpop) as [Hc' [(-> & -> & Hp)|(Hne & Hp & -> & Hn)]].
  - simpl in Hp. by destruct (nodes c).
  - apply pops_nonempty in Hp. pose proof (firstChunk_bounds _ Hp).
    rewrite IH; [|done|rewrite Hn, length_drop; lia]. rewrite (chunks_cons (nodes c)) by done. simpl. rewrite Hn.
    by destruct (take (firstChunk (nodes c)) (nodes c)).
Qed.

Definition marshals (n : Node) : Prop := exists m, marshal n = Ok m.
Definition definitiveCall (call : chunkerCall) : Prop :=
  match call with CallPush n => marshals n | CallPop threshold => threshold = PopDefinitive end.

Lemma runChunker_definitive calls c : chunkerOk c -> Forall marshals (nodes c) -> Forall definitiveCall calls ->
  exists chs c', runChunker c calls = Ok (chs, c') /\ chunkerOk c' /\
    chs ++ chunks (nodes c') = chunks (nodes c ++ pushed calls).
Proof.
  intros Hc Hm Hcalls. revert c Hc Hm. induction Hcalls as [|call calls Hcall Hcalls IH]; intros c Hc Hm.
  { exists [], c. split_and!; [done|done|]. unfold pushed. simpl. by rewrite app_nil_r. }
  destruct call as [n|threshold]; simpl in Hcall |- *.
  - pose proof (PushSingle_ok c n Hc) as Hpush. destruct (PushSingle cf c n) as [c1|e|]; simpl; [| |done].
    + destruct Hpush as [Hc1 Hn1]. destruct (IH c1 Hc1) as (chs & c' & -> & Hc' & Heq).
      { rewrite Hn1. apply Forall_app. split; [done|by constructor]. }
      exists chs, c'. split_and!; [done|done|]. rewrite Heq, Hn1. unfold pushed. simpl. by rewrite <- app_assoc.
    + destruct Hpush as (n' & Hin & He). assert (Forall marshals (nodes c ++ [n])) as Hall.
      { apply Forall_app. split; [done|by constructor]. }
      rewrite Forall_forall in Hall. destruct (Hall n' Hin) as [m Hn']. congruence.
  - subst threshold. destruct (PopMultiple_returns c PopDefinitive Hc) as [[ns c1] Hpop]. rewrite Hpop. simpl.
    change (pushed (CallPop PopDefinitive :: calls)) with (pushed calls).
    destruct (PopMultiple_cases c _ ns c1 Hc Hpop) as [Hc1 [(-> & -> & Hp)|(Hne & Hp & -> & Hn)]].
    + destruct (IH c Hc Hm) as (chs & c' & -> & Hc' & Heq). by exists chs, c'.
    + destruct (IH c1 Hc1) as (chs & c' & -> & Hc' & Heq); [rewrite Hn; by apply Forall_drop|].
      exists (take (firstChunk (nodes c)) (nodes c) :: chs), c'. simpl. split_and!; [|done|].
      * by destruct (take (firstChunk (nodes c)) (nodes c)).
      * pose proof (pops_nonempty _ _ Hp) as Hne'. pose proof (firstChunk_bounds _ Hne').
        rewrite (chunks_cons (nodes c ++ pushed calls)) by (by destruct (nodes c)).
        rewrite definitive_stable by done. rewrite take_app_le, drop_app_le by lia. by rewrite Heq, Hn.
Qed.

(** ** What chunks are like *)

Lemma scan_large_rest ns k : scan ns 0 (cutLimit ns) = Some k ->
  large ns 0 k = true /\ large (drop k ns) 0 (length (drop k ns)) = true /\ (k < length ns)%nat.
Proof.
  intros Hs. apply scan_some in Hs as [Hle Hl _ _]; [|lia]. split; [done|].
  destruct (cutLimit_large ns) as [H0|HL]; [lia|].
  assert (large ns k (length ns) = true) as Hk by (apply (large_mono ns (cutLimit ns) k (length ns) (length ns)); [lia|lia|done]).
  split; [|by apply large_lt in Hk]. rewrite large_drop, length_drop, Nat.add_0_r.
  by replace (k + (length ns - k))%nat with (length ns) by (apply large_lt in Hk; lia).
Qed.

Lemma large_take ns k i : (i <= k)%nat -> (k <= length ns)%nat -> large (take k ns) 0 i = large ns 0 i.
Proof.
  intros Hi Hk. rewrite <- (take_drop k ns) at 2. rewrite large_app; [done|]. rewrite length_take. lia.
Qed.

(** Chunks are large enough, if there is more than one. *)
Lemma chunks_large ns i chunk : chunks ns !! i = Some chunk ->
  large chunk 0 (length chunk) = true \/ chunks ns = [chunk].
Proof.
  remember (length ns) as k eqn:Hk. revert ns i Hk. induction (lt_wf k) as [k _ IH]. intros ns i ->.
  destruct (decide (ns = [])) as [->|Hne]; [done|]. rewrite chunks_cons by done.
  pose proof (firstChunk_bounds ns Hne). unfold firstChunk in *.
  destruct (scan ns 0 (cutLimit ns)) as [k|] eqn:E.
  - destruct (scan_large_rest ns k E) as (Hl & Hr & Hlt). destruct i as [|i]; simpl.
    + intros [= <-]. left. rewrite length_take, Nat.min_l by lia. by rewrite large_take by lia.
    + intros Hi. destruct (IH (length (drop k ns))) with (ns := drop k ns) (i := i) as [Hc|Hc]; auto; [rewrite length_drop; lia|].
      left. pose proof (chunks_concat (drop k ns)) as Hcc. rewrite Hc in Hcc. simpl in Hcc. rewrite app_nil_r in Hcc.
      by rewrite Hcc.
  - rewrite firstn_all, drop_all, chunks_nil. destruct i as [|i]; simpl; [|done]. intros [= <-]. by right.
Qed.

(** And not larger than the maximum, unless they would not be large enough. *)
Lemma chunks_small ns i chunk : chunks ns !! i = Some chunk -> (S i < length (chunks ns))%nat ->
  total chunk <= maximumSizeBytes cf \/ large chunk 0 (length chunk - 1) = false.
Proof.
  remember (length ns) as k eqn:Hk. revert ns i Hk. induction (lt_wf k) as [k _ IH]. intros ns i ->.
  destruct (decide (ns = [])) as [->|Hne]; [done|]. rewrite chunks_cons by done.
  pose proof (firstChunk_bounds ns Hne). destruct i as [|i]; simpl.
  - intros [= <-]. unfold firstChunk in *. destruct (scan ns 0 (cutLimit ns)) as [k|] eqn:E.
    + intros _. apply scan_some in E as [Hle Hl _ Hfirst]; [|lia].
      rewrite length_take, Nat.min_l, large_take by lia.
      destruct (large ns 0 (k - 1)) eqn:Hp; [left|by right].
      destruct (Hfirst (k - 1)%nat ltac:(lia) Hp) as [_ Hb]. unfold between in Hb. simpl in Hb. lia.
    + rewrite drop_all, chunks_nil. simpl. lia.
  - intros Hi Hlen. apply (IH (length (drop (firstChunk ns) ns))) with (ns := drop (firstChunk ns) ns) (i := i); auto; [|lia].
    rewrite length_drop. lia.
Qed.

(** C24: Whatever is popped early as definitive, chunks do not change: pushing nodes to
    a new chunker, popping definitive chunks at any time and everything at the end
    always returns the chunks of the reference definition, which only depends on the
    list of all nodes.  So equal lists have equal trees. *)
Theorem chunker_refines calls fuel :
  Forall definitiveCall calls -> (length (pushed calls) < fuel)%nat ->
  exists early c rest, runChunker NewChunker calls = Ok (early, c) /\
    drainChunker fuel c = Ok rest /\ early ++ rest = chunks (pushed calls).
Proof.
  intros Hcalls Hf. destruct (runChunker_definitive calls NewChunker NewChunker_ok) as (early & c & Hrun & Hc & Heq); [done|done|].
  simpl in Heq. exists early, c, (chunks (nodes c)). split_and!; [done| |done].
  apply drainChunker_ok; [done|]. apply (f_equal (fun l => length (concat l))) in Heq.
  rewrite concat_app, length_app, !chunks_concat in Heq. lia.
Qed.

(** C25: Sizes of objects: of the chunks of a list of nodes, all are large enough if
    there is more than one (the minimum of bytes, and two nodes or one that is no
    parent), and all but the last have at most the maximum of bytes, unless they would
    not be large enough without their last node. *)
Theorem chunk_sizes calls early c rest fuel i chunk :
  Forall definitiveCall calls -> runChunker NewChunker calls = Ok (early, c) ->
  (length (pushed calls) < fuel)%nat -> drainChunker fuel c = Ok rest ->
  (early ++ rest) !! i = Some chunk ->
  (isLargeEnough cf chunk zeroPoint (mkCutPoint (length chunk) (total chunk)) = true \/ early ++ rest = [chunk]) /\
  ((S i < length (early ++ rest))%nat -> total chunk <= maximumSizeBytes cf \/
    isLargeEnough cf chunk zeroPoint (mkCutPoint (length chunk - 1) (total (take (length chunk - 1) chunk))) = false).
Proof.
  intros Hcalls Hrun Hf Hdrain.
  destruct (runChunker_definitive calls NewChunker NewChunker_ok) as (early' & c' & Hrun' & Hc & Heq); [done|done|].
  rewrite Hrun in Hrun'. injection Hrun' as <- <-. simpl in Heq.
  rewrite drainChunker_ok in Hdrain; [|done|].
  2: { apply (f_equal (fun l => length (concat l))) in Heq.
       rewrite concat_app, length_app, !chunks_concat in Heq. lia. }
  injection Hdrain as <-. rewrite Heq. intros Hi. split.
  - rewrite <- (firstn_all chunk) at 3. exact (chunks_large _ _ _ Hi).
  - intros Hlen. exact (chunks_small _ _ _ Hi Hlen).
Qed.

(** C0: No schedule of pushes and pops makes a chunker panic, and no node is lost,
    duplicated or moved: what was popped and what is left are the nodes that were
    pushed.  Only nodes that cannot be marshaled make pushes fail. *)
Theorem chunker_keeps_nodes calls :
  match runChunker NewChunker calls with
  | Ok (early, c) => concat early ++ nodes c = pushed calls
  | Err e => exists n, n ∈ pushed calls /\ marshal n = Err e
  | Panic => False
  end.
Proof.
  assert (forall c, chunkerOk c -> match runChunker c calls with
    | Ok (early, c') => concat early ++ nodes c' = nodes c ++ pushed calls
    | Err e => exists n, n ∈ nodes c ++ pushed calls /\ marshal n = Err e
    | Panic => False end) as Hall.
  { induction calls as [|[n|threshold] calls IH]; intros c Hc; simpl.
    - unfold pushed. simpl. by rewrite app_nil_r.
    - pose proof (PushSingle_ok c n Hc) as Hpush. destruct (PushSingle cf c n) as [c1|e|]; simpl; [| |done].
      + destruct Hpush as [Hc1 Hn1]. specialize (IH c1 Hc1). rewrite Hn1, <- app_assoc in IH. exact IH.
      + destruct Hpush as (n' & Hin & He). exists n'. split; [|done]. unfold pushed. simpl. set_solver.
    - destruct (PopMultiple_returns c threshold Hc) as [[ns c1] Hpop]. rewrite Hpop. simpl.
      destruct (PopMultiple_cases c _ ns c1 Hc Hpop) as [Hc1 [(-> & -> & Hp)|(Hne & Hp & -> & Hn)]].
      + specialize (IH c Hc). destruct (runChunker c calls) as [[rest c']|e|]; simpl; done.
      + specialize (IH c1 Hc1). rewrite Hn in IH. change (pushed (CallPop threshold :: calls)) with (pushed calls).
        destruct (runChunker c1 calls) as [[rest c']|e|]; simpl; [| |done].
        * destruct (take (firstChunk (nodes c)) (nodes c)) as [|x l] eqn:Ht; [done|]. rewrite <- Ht.
          simpl. rewrite <- app_assoc, IH, app_assoc. by rewrite take_drop.
        * destruct IH as (n & Hin & He). exists n. split; [|done].
          apply elem_of_app in Hin as [Hin|Hin]; apply elem_of_app; [left|by right].
          rewrite <- (take_drop (firstChunk (nodes c)) (nodes c)). apply elem_of_app. by right. }
  exact (Hall NewChunker NewChunker_ok).
Qed.
End spec.

(** ** A run *)

Module Run.

(** Nodes: a name, a number of bytes, and whether it is a parent. *)
Definition Node : Type := Z * Z * bool.
#[local] Instance operations : NodeOperations Node := {
  messageSize n := Z.max 0 n.1.2;
  marshal n := Ok [n.1.1];
  GetReferencesSizeBytes n := if n.2 then 40 else 0;
  rawReferences n := if n.2 then [[n.1.1; 7]] else [];
  GetHeight n := if n.2 then 1%nat else O;
}.
Definition factory : prollyChunkerFactory Node := mkFactory 100 300 (fun n => n.2).

Definition leaf (i : Z) : Node := (i, 20 + (i * 7) mod 30, false).
Definition calls : list (@chunkerCall Node) :=
  concat (map (fun i => [CallPush (leaf i); CallPop PopDefinitive]) (seqZ 0 30)).

Lemma operations_laws : NodeLaws.
Proof. split; [|simpl; lia|done]. intros n. simpl. by destruct n.2. Qed.

Lemma calls_definitive : Forall definitiveCall calls.
Proof.
  apply Forall_concat, Forall_map, Forall_forall. intros i _. repeat constructor. by eexists.
Qed.

Definition popped : list (list Node) * prollyChunker Node :=
  match runChunker factory NewChunker calls with Ok r => r | _ => ([], NewChunker) end.

Lemma chunker_refines_witness : exists early c rest,
  runChunker factory NewChunker calls = Ok (early, c) /\ drainChunker factory 31 c = Ok rest /\
  early ++ rest = chunks factory (pushed calls).
Proof. apply (chunker_refines factory (Laws := operations_laws)); [apply calls_definitive|vm_compute; lia]. Defined.

Lemma chunk_sizes_witness :
  let chunk := map leaf (seqZ 4 7) in
  (isLargeEnough factory chunk zeroPoint (mkCutPoint (length chunk) (total chunk)) = true \/ popped.1 ++ chunks factory (nodes popped.2) = [chunk]) /\
  ((2 < length (popped.1 ++ chunks factory (nodes popped.2)))%nat -> total chunk <= 300 \/
    isLargeEnough factory chunk zeroPoint (mkCutPoint 6 (total (take 6 chunk))) = false).
Proof.
  refine (chunk_sizes factory (Laws := operations_laws) calls popped.1 popped.2 (chunks factory (nodes popped.2)) 31 1 _ calls_definitive _ _ _ _);
    [vm_compute; reflexivity|vm_compute; lia|vm_compute; reflexivity|vm_compute; reflexivity].
Defined.

Lemma chunker_keeps_nodes_witness :
  match runChunker factory NewChunker
    (map CallPush (map leaf (seqZ 0 20)) ++ [CallPop PopLargeEnough; CallPush (5, 9, true); CallPop PopChild; CallPop PopAll; CallPop PopAll])
  with
  | Ok (early, c) => concat early ++ nodes c = map leaf (seqZ 0 20) ++ [(5, 9, true)]
  | _ => False
  end.
Proof.
  exact (chunker_keeps_nodes factory (Laws := operations_laws)
    (map CallPush (map leaf (seqZ 0 20)) ++ [CallPop PopLargeEnough; CallPush (5, 9, true); CallPop PopChild; CallPop PopAll; CallPop PopAll])).
Defined.
End Run.
