(* ===== verification/BtreeBuilder.v ===== *)
(** * The builder of trees

    [heightAwareBuilder], against any chunkers that keep the laws of [ChunkerLaws], such
    as those of [prollyChunkerFactory]: leaves keep their order, whatever their height
    is, and all loops end. *)

From S2P Require Import Prelude Btree BtreeChunks.

Section laws.
Context (Node Chunker : Type) `{!Chunkers Node Chunker}.

(** Whether a node is a parent: one is not enough for a chunk that has a parent of its
    own. *)
Context (parent : Node -> bool).

Definition weight (ns : list Node) : nat := sum_list_with (fun n => if parent n then 1 else 2)%nat ns.

(** What the builder relies on.  Chunks that are popped before the end are enough for a
    parent, and so is what they leave, if anything. *)
Class ChunkerLaws := {
  chunker_inv : Chunker -> Prop;
  pending : Chunker -> list Node;
  new_chunker : chunker_inv newChunker /\ pending newChunker = [];
  push_chunker c n : chunker_inv c ->
    match pushSingle c n with
    | Ok c' => chunker_inv c' /\ pending c' = pending c ++ [n]
    | Err _ => True
    | Panic => False
    end;
  pop_chunker c threshold : chunker_inv c -> exists ns c', popMultiple c threshold = Ok (ns, c') /\ chunker_inv c' /\
    pending c = ns ++ pending c' /\
    (ns = [] -> threshold = PopAll -> pending c = []) /\
    (ns = [] \/ (2 <= weight ns /\ (pending c' = [] \/ 2 <= weight (pending c')))%nat \/ (threshold = PopAll /\ pending c' = []));
  (** The root takes all nodes. *)
  pop_root c c' : chunker_inv c -> popMultiple c PopChild = Ok ([], c') ->
    exists c'', popMultiple c' PopAll = Ok (pending c', c'');
}.
End laws.

Section builder.
Context {Node Chunker : Type} `{Ops : !NodeOperations Node} `{Chs : !Chunkers Node Chunker}.
Context (parent : Node -> bool) `{Laws : !ChunkerLaws Node Chunker parent}.
Context (nodeMerger : list Node -> outcome Node).

(** The leaves that a node stands for.  A merger makes parents of what it is given. *)
Context {Leaf : Type} (leavesOf : Node -> list Leaf).
Context (merger_parent : forall ns n, nodeMerger ns = Ok n -> parent n = true).
Context (merger_leaves : forall ns n, nodeMerger ns = Ok n -> leavesOf n = flat_map leavesOf ns).
Context (merger_no_panic : forall ns, nodeMerger ns <> Panic).

Notation pendings levels := (map (pending Node Chunker parent) levels).
Notation valid levels := (Forall (chunker_inv Node Chunker parent) levels).
Notation weight := (weight Node parent).

(** The builder only fails when merging or pushing does. *)
Definition failure (e : error) : Prop :=
  (exists ns, nodeMerger ns = Err e) \/ (exists (c : Chunker) n, pushSingle c n = Err e).
Definition returns {A} (P : A -> Prop) (r : outcome A) : Prop :=
  match r with Ok a => P a | Err e => failure e | Panic => False end.

Lemma returns_bind {A B} (P : A -> Prop) (Q : B -> Prop) (m : outcome A) (k : A -> outcome B) :
  returns P m -> (forall a, P a -> returns Q (k a)) -> returns Q (m ≫= k).
Proof. destruct m; simpl; auto. Qed.

Lemma returns_mono {A} (P Q : A -> Prop) (m : outcome A) : returns P m -> (forall a, P a -> Q a) -> returns Q m.
Proof. destruct m; simpl; auto. Qed.

(** All nodes of all levels, in the order of the tree: higher levels come first. *)
Definition content (p : list (list Node)) : list Node := concat (reverse p).
Definition leaves (p : list (list Node)) : list Leaf := flat_map leavesOf (content p).
Definition weights (p : list (list Node)) : nat := weight (concat p).

Lemma weight_app l k : weight (l ++ k) = (weight l + weight k)%nat.
Proof. apply sum_list_with_app. Qed.

Lemma weight_length l : (length l <= weight l)%nat.
Proof. induction l as [|n l IH]; simpl; [lia|]. unfold BtreeBuilder.weight in *. simpl. case_match; lia. Qed.

(** A level of a list of levels. *)
Lemma split_level (p : list (list Node)) i ns : p !! i = Some ns ->
  p = take i p ++ ns :: drop (S i) p.
Proof. intros H. symmetry. by apply take_drop_middle. Qed.

Lemma weights_insert p i ns ms : p !! i = Some ns ->
  (weights (<[i := ms]> p) + weight ns = weights p + weight ms)%nat.
Proof.
  intros H. pose proof (lookup_lt_Some _ _ _ H). unfold weights.
  rewrite insert_take_drop by done. rewrite (split_level p i ns H) at 3.
  rewrite !concat_app. simpl. rewrite !weight_app. lia.
Qed.

Lemma leaves_split p i ns : p !! i = Some ns ->
  leaves p = leaves (drop (S i) p) ++ flat_map leavesOf ns ++ leaves (take i p).
Proof.
  intros H. unfold leaves, content. rewrite (split_level p i ns H) at 1.
  rewrite reverse_app, reverse_cons, !concat_app. simpl. rewrite app_nil_r, !flat_map_app. by rewrite app_assoc.
Qed.

(** Nodes that move up from the front of a level to the end of the next, or what is made
    of them. *)
Lemma leaves_move p i ns rest up moved :
  p !! i = Some (ns ++ rest) -> p !! S i = Some up -> flat_map leavesOf moved = flat_map leavesOf ns ->
  leaves (<[S i := up ++ moved]> (<[i := rest]> p)) = leaves p.
Proof.
  intros Hi HSi Hm. pose proof (lookup_lt_Some _ _ _ Hi). pose proof (lookup_lt_Some _ _ _ HSi).
  rewrite (leaves_split p (S i) up HSi), (leaves_split (<[S i := _]> _) (S i) (up ++ moved)).
  2: { rewrite list_lookup_insert_eq; [done|]. by rewrite length_insert. }
  rewrite drop_insert_lt by lia. rewrite drop_insert_lt by lia. f_equal.
  rewrite flat_map_app, <- app_assoc. f_equal. rewrite take_insert_ge by lia.
  rewrite (leaves_split (take (S i) (<[i := rest]> p)) i rest).
  2: { rewrite lookup_take_lt by lia. by rewrite list_lookup_insert_eq. }
  rewrite (leaves_split (take (S i) p) i (ns ++ rest)).
  2: { by rewrite lookup_take_lt by lia. }
  rewrite !drop_ge by (rewrite length_take; rewrite ?length_insert; lia).
  rewrite !take_take, !Nat.min_l by lia. rewrite take_insert_ge by lia.
  unfold leaves at 1 3, content. simpl. rewrite flat_map_app, Hm. by rewrite <- app_assoc.
Qed.

Lemma pendings_lookup levels i : pendings levels !! i = pending Node Chunker parent <$> (levels !! i).
Proof. apply list_lookup_fmap. Qed.

Lemma pendings_insert levels i c : pendings (<[i := c]> levels) = <[i := pending Node Chunker parent c]> (pendings levels).
Proof. apply list_fmap_insert. Qed.

Lemma pushAt_ok levels i ns n : valid levels -> pendings levels !! i = Some ns ->
  returns (fun levels' => valid levels' /\ pendings levels' = <[i := ns ++ [n]]> (pendings levels)) (pushAt levels i n).
Proof.
  intros Hv. rewrite pendings_lookup. intros (c & Hc & ->)%fmap_Some_1. unfold pushAt. rewrite Hc.
  assert (chunker_inv Node Chunker parent c) as Hinv by (by eapply Forall_lookup_1).
  pose proof (push_chunker Node Chunker parent c n Hinv) as Hpush.
  destruct (pushSingle c n) as [c'|e|] eqn:E; simpl; [|right; eauto|done]. destruct Hpush as [Hc' Hp].
  rewrite pendings_insert, Hp. split; [|done]. by apply Forall_insert.
Qed.

Lemma pushAll_ok levels i ns ms : valid levels -> pendings levels !! i = Some ns ->
  returns (fun levels' => valid levels' /\ pendings levels' = <[i := ns ++ ms]> (pendings levels)) (pushAll levels i ms).
Proof.
  revert levels ns. induction ms as [|m ms IH]; intros levels ns Hv Hi; simpl.
  { split; [done|]. by rewrite app_nil_r, list_insert_id. }
  eapply returns_bind; [by apply pushAt_ok|]. intros levels' [Hv' Hp'].
  eapply returns_mono; [apply (IH levels' (ns ++ [m]) Hv')|].
  - rewrite Hp'. apply list_lookup_insert_eq. by eapply lookup_lt_Some.
  - intros levels'' [? ->]. split; [done|]. by rewrite Hp', list_insert_insert_eq, <- app_assoc.
Qed.

(** A pop, and what the laws say about it. *)
Lemma popAt_ok levels i threshold all : valid levels -> pendings levels !! i = Some all ->
  exists ns levels' rest, popAt levels i threshold = Ok (ns, levels') /\ valid levels' /\
    all = ns ++ rest /\ pendings levels' = <[i := rest]> (pendings levels) /\
    (ns = [] -> threshold = PopAll -> all = []) /\
    (ns = [] \/ (2 <= weight ns /\ (rest = [] \/ 2 <= weight rest))%nat \/ (threshold = PopAll /\ rest = [])).
Proof.
  intros Hv. rewrite pendings_lookup. intros (c & Hc & ->)%fmap_Some_1. unfold popAt. rewrite Hc.
  assert (chunker_inv Node Chunker parent c) as Hinv by (by eapply Forall_lookup_1).
  destruct (pop_chunker Node Chunker parent c threshold Hinv) as (ns & c' & -> & Hc' & Heq & Hall & Hcases). simpl.
  exists ns, (<[i := c']> levels), (pending Node Chunker parent c'). rewrite pendings_insert.
  split_and!; auto. by apply Forall_insert.
Qed.

Lemma weights_level p i ns : p !! i = Some ns -> (length ns <= weight ns <= weights p)%nat.
Proof.
  intros H. split; [apply weight_length|]. unfold weights. rewrite (split_level p i ns H), concat_app. simpl.
  rewrite !weight_app. lia.
Qed.

(** ** Levels that are emptied into the next *)

Record moved (i : nat) (p p' : list (list Node)) : Prop := {
  moved_leaves : leaves p' = leaves p;
  moved_weights : (weights p' <= weights p)%nat;
  moved_length : length p' = length p;
  moved_other j : j <> i -> j <> S i -> p' !! j = p !! j;
}.

Lemma moved_refl i p : moved i p p.
Proof. by split. Qed.

Lemma moved_trans i p p' p'' : moved i p p' -> moved i p' p'' -> moved i p p''.
Proof.
  intros [H1 H2 H3 H4] [H1' H2' H3' H4']. split; [congruence|lia|congruence|]. intros j Hj HSj. by rewrite H4', H4.
Qed.

(** Nodes that are pushed to the next level, or their parent. *)
Lemma moved_push i p ns rest up ms :
  p !! i = Some (ns ++ rest) -> p !! S i = Some up -> flat_map leavesOf ms = flat_map leavesOf ns ->
  (weight ms <= weight ns)%nat ->
  let p' := <[S i := up ++ ms]> (<[i := rest]> p) in
  moved i p p' /\ p' !! i = Some rest /\ (weights p' + weight ns = weights p + weight ms)%nat.
Proof.
  intros Hi HSi Hm Hw p'. pose proof (lookup_lt_Some _ _ _ Hi).
  assert (p' !! i = Some rest) as Hr by (unfold p'; rewrite list_lookup_insert_ne by lia; by apply list_lookup_insert_eq).
  pose proof (weights_insert p i _ rest Hi) as H1. rewrite weight_app in H1.
  pose proof (weights_insert (<[i := rest]> p) (S i) up (up ++ ms)) as H2.
  rewrite list_lookup_insert_ne in H2 by lia. specialize (H2 HSi). rewrite weight_app in H2. fold p' in H2.
  split_and!; [|done|lia]. split; [|lia|unfold p'; by rewrite !length_insert|].
  - by apply (leaves_move p i ns).
  - intros j Hj HSj. unfold p'. by rewrite !list_lookup_insert_ne by lia.
Qed.

Lemma parent_weight n : parent n = true -> weight [n] = 1%nat.
Proof. unfold BtreeBuilder.weight. simpl. by intros ->. Qed.

(** [mergeUp] is what all loops do with nodes that were popped. *)
Lemma merge_up levels p i ns rest up :
  valid levels -> pendings levels = <[i := rest]> p -> p !! i = Some (ns ++ rest) -> p !! S i = Some up -> ns <> [] ->
  returns (fun levels' => valid levels' /\ moved i p (pendings levels') /\ pendings levels' !! i = Some rest /\
      (weights (pendings levels') + weight ns = S (weights p))%nat)
    (n ← nodeMerger ns; pushAt levels (S i) n).
Proof.
  intros Hv Hp Hi HSi Hne. destruct (nodeMerger ns) as [n|e|] eqn:En; simpl; [|left; eauto|by apply (merger_no_panic ns)].
  assert (pendings levels !! S i = Some up) as Hup by (rewrite Hp, list_lookup_insert_ne by lia; done).
  eapply returns_mono; [by apply pushAt_ok|]. intros levels' [Hv' Hp']. rewrite Hp' , Hp.
  pose proof (parent_weight n (merger_parent _ _ En)) as Hw.
  destruct (moved_push i p ns rest up [n]) as (H1 & H2 & H3); auto.
  - simpl. rewrite app_nil_r. by apply merger_leaves.
  - rewrite Hw. pose proof (weight_length ns). destruct ns; simpl in *; [done|lia].
  - split_and!; auto. lia.
Qed.

Lemma drainObjects_ok fuel levels i all up :
  valid levels -> pendings levels !! i = Some all -> pendings levels !! S i = Some up -> (length all < fuel)%nat ->
  returns (fun levels' => valid levels' /\ moved i (pendings levels) (pendings levels')) (drainObjects nodeMerger fuel levels i).
Proof.
  revert levels all up. induction fuel as [|fuel IH]; intros levels all up Hv Hi HSi Hf; [lia|]. simpl.
  destruct (popAt_ok levels i PopLargeEnough all Hv Hi) as (ns & levels1 & rest & -> & Hv1 & -> & Hp1 & _). simpl.
  destruct ns as [|n ns].
  { simpl. split; [done|]. rewrite Hp1, list_insert_id by done. apply moved_refl. }
  pose proof (merge_up levels1 (pendings levels) i (n :: ns) rest up Hv1 Hp1 Hi HSi ltac:(done)) as Hm.
  destruct (nodeMerger (n :: ns)) as [m|e|]; simpl in *; [|done|done].
  eapply returns_bind; [exact Hm|]. intros levels2 (Hv2 & Hmv & Hi2 & _).
  destruct (lookup_lt_is_Some_2 (pendings levels2) (S i)) as [up2 Hup2].
  { rewrite (moved_length _ _ _ Hmv). by eapply lookup_lt_Some. }
  eapply returns_mono; [apply (IH levels2 rest up2); auto; rewrite length_app in Hf; simpl in Hf; lia|].
  intros levels3 [? ?]. split; [done|]. by eapply moved_trans.
Qed.

Lemma promoteNodes_ok fuel levels i all up :
  valid levels -> pendings levels !! i = Some all -> pendings levels !! S i = Some up -> (length all < fuel)%nat ->
  returns (fun levels' => valid levels' /\ moved i (pendings levels) (pendings levels') /\ pendings levels' !! i = Some [])
    (promoteNodes fuel levels i).
Proof.
  revert levels all up. induction fuel as [|fuel IH]; intros levels all up Hv Hi HSi Hf; [lia|]. simpl.
  destruct (popAt_ok levels i PopAll all Hv Hi) as (ns & levels1 & rest & -> & Hv1 & -> & Hp1 & Hall & _). simpl.
  destruct ns as [|n ns].
  { simpl. specialize (Hall eq_refl eq_refl). simpl in Hall. subst rest. rewrite Hp1, list_insert_id by done.
    split_and!; [done|apply moved_refl|done]. }
  assert (pendings levels1 !! S i = Some up) as Hup by (rewrite Hp1, list_lookup_insert_ne by lia; done).
  eapply returns_bind; [by apply (pushAll_ok levels1 (S i) up (n :: ns))|]. intros levels2 [Hv2 Hp2].
  destruct (moved_push i (pendings levels) (n :: ns) rest up (n :: ns)) as (Hmv & Hi2 & _); auto.
  rewrite <- Hp1, <- Hp2 in Hmv, Hi2.
  destruct (lookup_lt_is_Some_2 (pendings levels2) (S i)) as [up2 Hup2].
  { rewrite (moved_length _ _ _ Hmv). by eapply lookup_lt_Some. }
  eapply returns_mono; [apply (IH levels2 rest up2); auto; rewrite length_app in Hf; simpl in Hf; lia|].
  intros levels3 (? & ? & ?). split_and!; [done| |done]. by eapply moved_trans.
Qed.

(** ** Draining, pushing and finalizing *)

Context (fuel : nat).

Record kept (p p' : list (list Node)) : Prop := {
  kept_leaves : leaves p' = leaves p;
  kept_weights : (weights p' <= weights p)%nat;
  kept_length : (length p <= length p')%nat;
}.

Lemma kept_refl p : kept p p.
Proof. by split. Qed.

Lemma kept_trans p p' p'' : kept p p' -> kept p' p'' -> kept p p''.
Proof. intros [? ? ?] [? ? ?]. split; [congruence|lia|lia]. Qed.

Lemma moved_kept i p p' : moved i p p' -> kept p p'.
Proof. intros [? ? ? ?]. split; [done|done|lia]. Qed.

Definition emptyBelow (h : nat) (p : list (list Node)) : Prop := forall j, (j < h)%nat -> p !! j = Some [].

Lemma drainLevels_ok k n levels : valid levels -> emptyBelow k (pendings levels) ->
  (k + n < length levels)%nat -> (weights (pendings levels) < fuel)%nat ->
  returns (fun levels' => valid levels' /\ kept (pendings levels) (pendings levels') /\
      length levels' = length levels /\ emptyBelow (k + n) (pendings levels'))
    (drainLevels nodeMerger fuel levels (seq k n)).
Proof.
  revert k levels. induction n as [|n IH]; intros k levels Hv He Hlen Hf; simpl.
  { rewrite Nat.add_0_r. split_and!; [done|apply kept_refl|done|done]. }
  assert (length (pendings levels) = length levels) as Hpl by apply length_map.
  destruct (lookup_lt_is_Some_2 levels (S k)) as [c Hc]; [lia|]. rewrite Hc.
  destruct (lookup_lt_is_Some_2 (pendings levels) k) as [all Hall]; [lia|].
  destruct (lookup_lt_is_Some_2 (pendings levels) (S k)) as [up Hup]; [lia|].
  pose proof (weights_level _ _ _ Hall).
  eapply returns_bind; [apply (drainObjects_ok fuel levels k all up Hv Hall Hup); lia|].
  intros levels1 [Hv1 Hm1]. pose proof (moved_length _ _ _ Hm1). pose proof (moved_weights _ _ _ Hm1).
  destruct (lookup_lt_is_Some_2 (pendings levels1) k) as [all1 Hall1]; [lia|].
  destruct (lookup_lt_is_Some_2 (pendings levels1) (S k)) as [up1 Hup1]; [lia|].
  pose proof (weights_level _ _ _ Hall1).
  eapply returns_bind; [apply (promoteNodes_ok fuel levels1 k all1 up1 Hv1 Hall1 Hup1); lia|].
  intros levels2 (Hv2 & Hm2 & Hi2).
  pose proof (moved_trans _ _ _ _ Hm1 Hm2) as Hm. pose proof (moved_length _ _ _ Hm) as Hl. pose proof (moved_weights _ _ _ Hm).
  assert (length (pendings levels2) = length levels2) as Hpl2 by apply length_map.
  eapply returns_mono; [apply (IH (S k) levels2 Hv2); [|lia|lia]|].
  - intros j Hj. destruct (decide (j = k)) as [->|]; [done|]. rewrite (moved_other _ _ _ Hm) by lia. apply He. lia.
  - intros levels3 (? & ? & ? & ?). replace (k + S n)%nat with (S k + n)%nat by lia. split_and!; [done| |lia|done].
    eapply kept_trans; [by eapply moved_kept|done].
Qed.

Lemma drainUpToLevel_ok levels height : valid levels -> (height < length levels)%nat -> (weights (pendings levels) < fuel)%nat ->
  returns (fun levels' => valid levels' /\ kept (pendings levels) (pendings levels') /\
      length levels' = length levels /\ emptyBelow height (pendings levels'))
    (drainUpToLevel nodeMerger fuel levels height).
Proof.
  intros Hv Hh Hf. unfold drainUpToLevel. rewrite (proj2 (Nat.leb_le _ _)) by lia.
  apply (drainLevels_ok 0 height levels); auto. intros j Hj. lia.
Qed.

Lemma leaves_app_nil p : leaves (p ++ [[]]) = leaves p.
Proof. unfold leaves, content. by rewrite reverse_snoc. Qed.

Lemma weights_app_nil p : weights (p ++ [[]]) = weights p.
Proof. unfold weights. rewrite concat_app. simpl. by rewrite app_nil_r. Qed.

(** Levels with a new one at the top, if [parentLevel] is not there yet. *)
Lemma pushChildrenToParent_ok levels p i ns rest :
  valid levels -> pendings levels = <[i := rest]> p -> p !! i = Some (ns ++ rest) -> ns <> [] ->
  returns (fun levels' => valid levels' /\ kept p (pendings levels') /\ pendings levels' !! i = Some rest /\
      (S i < length levels')%nat /\ (length levels' <= Nat.max (length p) (S (S i)))%nat /\
      (forall h, (h <= i)%nat -> emptyBelow h p -> emptyBelow h (pendings levels')) /\
      (weights (pendings levels') + weight ns = S (weights p))%nat)
    (pushChildrenToParent nodeMerger levels (S i) ns).
Proof.
  intros Hv Hp Hi Hne. unfold pushChildrenToParent.
  pose proof (lookup_lt_Some _ _ _ Hi) as Hlt.
  assert (length levels = length p) as Hlen by (rewrite <- (length_map (pending Node Chunker parent)), Hp; apply length_insert).
  destruct (new_chunker Node Chunker parent) as [Hnew Hnil].
  (* the levels with the parent's *)
  assert (exists levels1 p1, (if (S i =? length levels)%nat then levels ++ [newChunker] else levels) = levels1 /\
    valid levels1 /\ pendings levels1 = <[i := rest]> p1 /\ p1 !! i = Some (ns ++ rest) /\ (S i < length p1)%nat /\
    (length p1 = Nat.max (length p) (S (S i))) /\
    leaves p1 = leaves p /\ weights p1 = weights p /\ (forall j, (j < length p)%nat -> p1 !! j = p !! j))
    as (levels1 & p1 & -> & Hv1 & Hp1 & Hi1 & HSi1 & Hl1 & Hleaves1 & Hw1 & Hsame1).
  { destruct (Nat.eqb_spec (S i) (length levels)) as [He|He].
    - exists (levels ++ [newChunker]), (p ++ [[]]). split_and!; [done| | | | | | | |].
      + apply Forall_app. split; [done|]. by constructor.
      + rewrite map_app, Hp. simpl. rewrite Hnil. by rewrite insert_app_l.
      + by rewrite lookup_app_l.
      + rewrite length_app. simpl. lia.
      + rewrite length_app. simpl. lia.
      + apply leaves_app_nil.
      + apply weights_app_nil.
      + intros j Hj. by rewrite lookup_app_l.
    - exists levels, p. split_and!; auto; lia. }
  destruct (lookup_lt_is_Some_2 p1 (S i) HSi1) as [up Hup].
  eapply returns_mono; [apply (merge_up levels1 p1 i ns rest up Hv1 Hp1 Hi1 Hup Hne)|].
  intros levels2 (Hv2 & Hm2 & Hi2 & Hw2). pose proof (moved_length _ _ _ Hm2) as Hl2. rewrite length_map in Hl2.
  split_and!; [done| |done|lia|lia| |lia].
  - split; [rewrite (moved_leaves _ _ _ Hm2); done|pose proof (moved_weights _ _ _ Hm2); lia|rewrite length_map; lia].
  - intros h Hh He j Hj. rewrite (moved_other _ _ _ Hm2), Hsame1 by lia. by apply He.
Qed.

Lemma pushDefinitive_ok fuel' levels p i ns rest :
  valid levels -> pendings levels = <[i := rest]> p -> p !! i = Some (ns ++ rest) -> ns <> [] -> (2 <= weight ns)%nat ->
  (length rest < fuel')%nat ->
  returns (fun levels' => valid levels' /\ kept p (pendings levels') /\ (weights (pendings levels') < weights p)%nat)
    (pushDefinitive nodeMerger fuel' levels i ns).
Proof.
  revert levels p ns rest. induction fuel' as [|fuel' IH]; intros levels p ns rest Hv Hp Hi Hne Hw Hf; [lia|]. simpl.
  eapply returns_bind; [by apply (pushChildrenToParent_ok levels p i ns rest)|].
  intros levels1 (Hv1 & Hk1 & Hi1 & _ & _ & _ & Hw1).
  destruct (popAt_ok levels1 i PopDefinitive rest Hv1 Hi1) as (ns2 & levels2 & rest2 & -> & Hv2 & -> & Hp2 & _ & Hcases). simpl.
  destruct ns2 as [|n2 ns2].
  { simpl. rewrite Hp2, list_insert_id by done. split_and!; [done|done|lia]. }
  destruct Hcases as [Hc|[[Hc _]|[Hc _]]]; [done| |done].
  eapply returns_mono; [apply (IH levels2 (pendings levels1) (n2 :: ns2) rest2); auto; rewrite length_app in Hf; simpl in Hf; lia|].
  intros levels3 (? & ? & ?). split_and!; [done|by eapply kept_trans|lia].
Qed.

Lemma pushLevels_ok fuel' levels i : valid levels ->
  (weights (pendings levels) < fuel')%nat -> (weights (pendings levels) < fuel)%nat ->
  returns (fun levels' => valid levels' /\ kept (pendings levels) (pendings levels')) (pushLevels nodeMerger fuel fuel' levels i).
Proof.
  revert levels i. induction fuel' as [|fuel' IH]; intros levels i Hv Hf' Hf; [lia|]. simpl.
  destruct (Nat.ltb_spec i (length levels)) as [Hi|]; [|split; [done|apply kept_refl]].
  destruct (lookup_lt_is_Some_2 (pendings levels) i) as [all Hall]; [by rewrite length_map|].
  destruct (popAt_ok levels i PopDefinitive all Hv Hall) as (ns & levels1 & rest & -> & Hv1 & -> & Hp1 & _ & Hcases). simpl.
  pose proof (weights_level _ _ _ Hall) as Hl. rewrite length_app in Hl.
  destruct ns as [|n ns].
  { split; [done|]. rewrite Hp1, list_insert_id by done. apply kept_refl. }
  destruct Hcases as [Hc|[[Hc _]|[Hc _]]]; [done| |done].
  eapply returns_bind; [apply (pushDefinitive_ok fuel levels1 (pendings levels) i (n :: ns) rest); auto; simpl in Hl; lia|].
  intros levels2 (Hv2 & Hk2 & Hw2). eapply returns_mono; [apply IH; [done|lia|lia]|].
  intros levels3 [? ?]. split; [done|by eapply kept_trans].
Qed.

Lemma leaves_empty p h : emptyBelow h p -> leaves (take h p) = [].
Proof.
  intros He. assert (forall q : list (list Node), (forall j ns, q !! j = Some ns -> ns = []) -> concat (reverse q) = []) as Hall.
  { intros q Hq. apply concat_nil_Forall, Forall_reverse, Forall_lookup. exact Hq. }
  unfold leaves, content. rewrite Hall; [done|]. intros j ns. rewrite lookup_take.
  case_decide as Hj; [|done]. rewrite He by done. by intros [= <-].
Qed.

Lemma pendings_replicate k : pendings (replicate k newChunker) = replicate k [] /\ valid (replicate k newChunker).
Proof.
  destruct (new_chunker Node Chunker parent) as [Hnew Hnil]. induction k as [|k [IH1 IH2]]; [done|].
  simpl. rewrite IH1, Hnil. split; [done|by constructor].
Qed.

Lemma app_nils p k : leaves (p ++ replicate k []) = leaves p /\ weights (p ++ replicate k []) = weights p.
Proof.
  induction k as [|k [IH1 IH2]]; [by rewrite app_nil_r|].
  rewrite replicate_S_end, app_assoc, leaves_app_nil, weights_app_nil. done.
Qed.

(** A node is put after all that are there. *)
Lemma PushChild_ok levels node : valid levels -> (weights (pendings levels) + 2 < fuel)%nat ->
  returns (fun levels' => valid levels' /\ leaves (pendings levels') = leaves (pendings levels) ++ leavesOf node /\
      (weights (pendings levels') <= weights (pendings levels) + 2)%nat /\ levels' <> [])
    (PushChild nodeMerger fuel levels node).
Proof.
  intros Hv Hf. unfold PushChild. set (h := GetHeight node). set (levels0 := levels ++ _).
  assert (valid levels0 /\ leaves (pendings levels0) = leaves (pendings levels) /\
    weights (pendings levels0) = weights (pendings levels) /\ (h < length levels0)%nat) as (Hv0 & Hl0 & Hw0 & Hlen0).
  { unfold levels0. destruct (pendings_replicate (S h - length levels)) as [Hr1 Hr2].
    rewrite map_app, Hr1. destruct (app_nils (pendings levels) (S h - length levels)) as [-> ->].
    split_and!; [by apply Forall_app|done|done|]. rewrite length_app, length_replicate. lia. }
  eapply returns_bind; [apply (drainUpToLevel_ok levels0 h); [done|done|lia]|].
  intros levels1 (Hv1 & Hk1 & Hlen1 & He1). pose proof (kept_weights _ _ Hk1).
  destruct (lookup_lt_is_Some_2 (pendings levels1) h) as [ns Hns]; [rewrite length_map; lia|].
  eapply returns_bind; [apply (pushAt_ok levels1 h ns node Hv1 Hns)|].
  intros levels2 [Hv2 Hp2].
  assert (weights (pendings levels2) <= weights (pendings levels1) + 2)%nat as Hw2.
  { pose proof (weights_insert _ _ ns (ns ++ [node]) Hns) as Hw. rewrite <- Hp2, weight_app in Hw.
    unfold BtreeBuilder.weight in Hw at 3. simpl in Hw. destruct (parent node); lia. }
  eapply returns_mono; [apply (pushLevels_ok fuel levels2 h Hv2); lia|].
  intros levels3 [Hv3 Hk3]. pose proof (kept_weights _ _ Hk3). split_and!; [done| |lia|].
  - rewrite (kept_leaves _ _ Hk3), Hp2.
    rewrite (leaves_split (<[h := _]> _) h (ns ++ [node])) by (apply list_lookup_insert_eq; by eapply lookup_lt_Some).
    rewrite drop_insert_lt, take_insert_ge by lia. rewrite (leaves_empty _ h He1), <- Hl0, <- (kept_leaves _ _ Hk1).
    rewrite (leaves_split (pendings levels1) h ns Hns), (leaves_empty _ h He1).
    rewrite !app_nil_r, flat_map_app, app_assoc. simpl. by rewrite app_nil_r.
  - intros ->. pose proof (kept_length _ _ Hk3) as Hlen3. rewrite Hp2, length_insert, length_map in Hlen3. simpl in Hlen3. lia.
Qed.

(** A level that has a parent already is popped completely. *)
Lemma finalizeRest_ok fuel' levels i rest : valid levels -> pendings levels !! i = Some rest ->
  length levels = S (S i) -> (length rest < fuel')%nat -> (rest = [] \/ 2 <= weight rest)%nat -> emptyBelow i (pendings levels) ->
  returns (fun levels' => valid levels' /\ kept (pendings levels) (pendings levels') /\ length levels' = S (S i) /\
      emptyBelow (S i) (pendings levels'))
    (finalizeLevel nodeMerger fuel' levels i).
Proof.
  revert levels rest. induction fuel' as [|fuel' IH]; intros levels rest Hv Hi Hlen Hf Hset He; [lia|]. cbn [finalizeLevel].
  rewrite (proj2 (Nat.eqb_neq _ _)) by lia.
  destruct (popAt_ok levels i PopAll rest Hv Hi) as (ns & levels1 & rest1 & -> & Hv1 & -> & Hp1 & Hall & Hcases). simpl.
  assert (length levels1 = length levels) as Hlen1.
  { rewrite <- (length_map (pending Node Chunker parent)), Hp1, length_insert. apply length_map. }
  destruct ns as [|n ns].
  { specialize (Hall eq_refl eq_refl). simpl in Hall, Hi. subst rest1. simpl. rewrite Hp1, list_insert_id by done.
    split_and!; [done|apply kept_refl|lia|]. intros j Hj. destruct (decide (j = i)) as [->|]; [done|]. apply He. lia. }
  eapply returns_bind; [by apply (pushChildrenToParent_ok levels1 (pendings levels) i (n :: ns) rest1)|].
  intros levels2 (Hv2 & Hk2 & Hi2 & Hlt2 & Hle2 & He2 & _). rewrite length_map in Hle2.
  eapply returns_mono; [apply (IH levels2 rest1); auto|].
  - lia.
  - rewrite length_app in Hf. simpl in Hf. lia.
  - destruct Hcases as [Hc|[[_ Hc]|[_ Hc]]]; auto. done.
  - intros levels3 (? & ? & ? & ?). split_and!; [done|by eapply kept_trans|done|done].
Qed.

(** The level at the top: it remains the root, or gets a level above it. *)
Lemma finalizeTop_ok levels i : valid levels -> length levels = S i -> emptyBelow i (pendings levels) ->
  (weights (pendings levels) < fuel)%nat ->
  returns (fun levels' => valid levels' /\ kept (pendings levels) (pendings levels') /\
      ((length levels' = S i /\ emptyBelow i (pendings levels') /\
        exists ns r, pendings levels' !! i = Some ns /\ popAt levels' i PopAll = Ok (ns, r)) \/
       (length levels' = S (S i) /\ emptyBelow (S i) (pendings levels') /\
        (weights (pendings levels') < weights (pendings levels))%nat)))
    (finalizeLevel nodeMerger fuel levels i).
Proof.
  intros Hv Hlen He Hf. destruct fuel as [|fuel']; [lia|]. cbn [finalizeLevel]. rewrite (proj2 (Nat.eqb_eq _ _)) by lia.
  destruct (lookup_lt_is_Some_2 (pendings levels) i) as [all Hall]; [rewrite length_map; lia|].
  destruct (popAt_ok levels i PopChild all Hv Hall) as (ns & levels1 & rest & Hpop & Hv1 & -> & Hp1 & _ & Hcases).
  rewrite Hpop. simpl.
  assert (length levels1 = length levels) as Hlen1.
  { rewrite <- (length_map (pending Node Chunker parent)), Hp1, length_insert. apply length_map. }
  pose proof (weights_level _ _ _ Hall) as Hl. rewrite length_app in Hl.
  destruct ns as [|n ns].
  { simpl. rewrite Hp1, list_insert_id by done. split_and!; [done|apply kept_refl|left].
    split_and!; [lia|done|]. exists rest. unfold popAt in Hpop |- *.
    destruct (levels !! i) as [c|] eqn:Hc; [|done].
    assert (chunker_inv Node Chunker parent c) as Hinv by (eapply Forall_lookup_1; [exact Hv|exact Hc]).
    destruct (popMultiple c PopChild) as [[ns' c']| |] eqn:Ec; simpl in Hpop; [|done..]. injection Hpop as -> <-.
    destruct (pop_root Node Chunker parent c c' Hinv Ec) as [c'' Hc''].
    pose proof (lookup_lt_Some _ _ _ Hc). rewrite list_lookup_insert_eq by done. rewrite Hc''. simpl.
    eexists. split; [done|].
    assert (pending Node Chunker parent c' = rest) as <-; [|done].
    rewrite pendings_insert in Hp1. apply (f_equal (fun l => l !! i)) in Hp1.
    rewrite !list_lookup_insert_eq in Hp1 by (rewrite length_map; done). by injection Hp1. }
  destruct Hcases as [Hc|[[Hw Hc]|[Hc _]]]; [done| |done].
  pose proof (pushChildrenToParent_ok levels1 (pendings levels) i (n :: ns) rest Hv1 Hp1 Hall ltac:(done)) as Hpush.
  eapply returns_bind; [exact Hpush|].
  intros levels2 (Hv2 & Hk2 & Hi2 & Hlt2 & Hle2 & He2 & Hw2). rewrite length_map in Hle2.
  eapply returns_mono; [apply (finalizeRest_ok fuel' levels2 i rest); auto; [lia|simpl in Hl; lia]|].
  intros levels3 (Hv3 & Hk3 & Hlen3 & He3). pose proof (kept_weights _ _ Hk3).
  split_and!; [done|by eapply kept_trans|right]. split_and!; [done|done|lia].
Qed.

Lemma finalizeLevels_ok fuel' levels i : valid levels -> length levels = S i -> emptyBelow i (pendings levels) ->
  (weights (pendings levels) + 1 < fuel')%nat -> (weights (pendings levels) < fuel)%nat ->
  returns (fun levels' => valid levels' /\ kept (pendings levels) (pendings levels') /\
      exists top ns r, length levels' = S top /\ emptyBelow top (pendings levels') /\
        pendings levels' !! top = Some ns /\ popAt levels' top PopAll = Ok (ns, r))
    (finalizeLevels nodeMerger fuel fuel' levels i).
Proof.
  revert levels i. induction fuel' as [|fuel' IH]; intros levels i Hv Hlen He Hf' Hf; [lia|]. cbn [finalizeLevels].
  rewrite (proj2 (Nat.ltb_lt _ _)) by lia.
  eapply returns_bind; [by apply finalizeTop_ok|].
  intros levels1 (Hv1 & Hk1 & [(Hlen1 & He1 & ns & r & Hns & Hpop)|(Hlen1 & He1 & Hw1)]).
  - destruct fuel' as [|fuel']; [lia|]. simpl. rewrite (proj2 (Nat.ltb_ge _ _)) by lia.
    split_and!; [done|done|]. by exists i, ns, r.
  - eapply returns_mono; [apply (IH levels1 (S i)); auto; lia|].
    intros levels2 (? & ? & ?). split_and!; [done|by eapply kept_trans|done].
Qed.

(** The nodes of the root stand for all leaves. *)
Lemma FinalizeList_ok levels : valid levels -> (weights (pendings levels) + 1 < fuel)%nat ->
  returns (fun root => flat_map leavesOf root = leaves (pendings levels)) (FinalizeList nodeMerger fuel levels).
Proof.
  intros Hv Hf. unfold FinalizeList. destruct levels as [|c levels0] eqn:E; [done|]. rewrite <- E in *.
  assert (0 < length levels)%nat by (rewrite E; simpl; lia). clear E.
  eapply returns_bind; [apply (drainUpToLevel_ok levels (length levels - 1)); [done|lia|lia]|].
  intros levels1 (Hv1 & Hk1 & Hlen1 & He1). pose proof (kept_weights _ _ Hk1).
  eapply returns_bind; [apply (finalizeLevels_ok fuel levels1 (length levels - 1)); auto; lia|].
  intros levels2 (Hv2 & Hk2 & top & ns & r & Hlen2 & He2 & Hns & Hpop).
  rewrite Hlen2. replace (S top - 1)%nat with top by lia. rewrite Hpop. simpl.
  rewrite <- (kept_leaves _ _ Hk1), <- (kept_leaves _ _ Hk2), (leaves_split _ _ _ Hns), (leaves_empty _ _ He2), app_nil_r.
  rewrite drop_ge by (rewrite length_map; lia). done.
Qed.

Fixpoint PushChildren (levels : list Chunker) (nodes : list Node) : outcome (list Chunker) :=
  match nodes with
  | [] => Ok levels
  | node :: nodes => levels ← PushChild nodeMerger fuel levels node; PushChildren levels nodes
  end.

Lemma PushChildren_ok nodes levels : valid levels -> (weights (pendings levels) + 2 * length nodes < fuel)%nat ->
  returns (fun levels' => valid levels' /\ leaves (pendings levels') = leaves (pendings levels) ++ flat_map leavesOf nodes /\
      (weights (pendings levels') <= weights (pendings levels) + 2 * length nodes)%nat) (PushChildren levels nodes).
Proof.
  revert levels. induction nodes as [|node nodes IH]; intros levels Hv Hf; simpl in *.
  { split_and!; [done| |lia]. by rewrite app_nil_r. }
  eapply returns_bind; [apply (PushChild_ok levels node Hv)|]; [lia|].
  intros levels1 (Hv1 & Hl1 & Hw1 & _). eapply returns_mono; [apply (IH levels1 Hv1)|]; [lia|].
  intros levels2 (Hv2 & Hl2 & Hw2). split_and!; [done| |lia]. by rewrite Hl2, Hl1, <- app_assoc.
Qed.

(** C26: The tree of a list of nodes, of any heights, stands for the leaves of the nodes,
    in their order; it is finished with enough fuel, and it fails only if merging nodes
    or pushing them to a chunker does.  The same goes for a single root, which there is
    unless there are no leaves. *)
Theorem builder_keeps_leaves nodes : (2 * length nodes + 1 < fuel)%nat ->
  match (levels ← PushChildren [] nodes; FinalizeList nodeMerger fuel levels) with
  | Ok root => flat_map leavesOf root = flat_map leavesOf nodes
  | Err e => failure e
  | Panic => False
  end /\
  match (levels ← PushChildren [] nodes; FinalizeSingle nodeMerger fuel levels) with
  | Ok (Some root) => leavesOf root = flat_map leavesOf nodes
  | Ok None => flat_map leavesOf nodes = []
  | Err e => failure e
  | Panic => False
  end.
Proof.
  intros Hf. pose proof (PushChildren_ok nodes [] ltac:(done) ltac:(simpl; lia)) as Hpush.
  destruct (PushChildren [] nodes) as [levels|e|]; simpl in *; [|done|done]. destruct Hpush as (Hv & Hl & Hw).
  assert (weights [] = O) as H0 by done.
  assert (weights (pendings levels) + 1 < fuel)%nat as Hf' by lia.
  pose proof (FinalizeList_ok levels Hv Hf') as Hfin. unfold FinalizeSingle.
  destruct (FinalizeList nodeMerger fuel levels) as [root|e|]; simpl in *; [|done|done].
  rewrite Hl in Hfin. split; [done|]. destruct root as [|node [|node' root]]; simpl in *; [done|by rewrite app_nil_r in Hfin|].
  destruct (nodeMerger (node :: node' :: root)) as [n|e|] eqn:En; simpl; [|left; eauto|by eapply merger_no_panic].
  by rewrite (merger_leaves _ _ En).
Qed.
End builder.

(** ** The chunkers of [prollyChunkerFactory] *)

Section prolly.
Context {Node : Type} `{Ops : !NodeOperations Node} (cf : prollyChunkerFactory Node) (Laws : NodeLaws).

Lemma large_weight ns : large cf ns 0 (length ns) = true -> (2 <= weight Node (isParent cf) ns)%nat.
Proof.
  intros [_ [H|(H & n & Hn & Hp)]]%large_spec.
  - pose proof (weight_length (isParent cf) ns). lia.
  - destruct ns as [|n' [|]]; simpl in *; try lia. injection Hn as ->. unfold weight. simpl. rewrite Hp. lia.
Qed.

#[export] Instance prolly_laws : @ChunkerLaws Node (prollyChunker Node) (prollyChunkers cf) (isParent cf).
Proof.
  refine {| chunker_inv := chunkerOk cf : prollyChunker Node -> Prop; pending := nodes |}.
  - split; [apply NewChunker_ok|done].
  - intros c n Hc. pose proof (PushSingle_ok cf c n Hc) as H. simpl. by destruct (PushSingle cf c n).
  - intros c threshold Hc. destruct (PopMultiple_returns cf c threshold Hc) as [[ns c'] Hpop]. exists ns, c'.
    destruct (PopMultiple_cases cf c threshold ns c' Hc Hpop) as [Hc' [(-> & -> & Hp)|(Hne & Hp & -> & Hn)]].
    + split_and!; auto. intros _ ->. simpl in Hp. by destruct (nodes c).
    + split_and!; auto.
      * rewrite Hn. by rewrite take_drop.
      * done.
      * right. rewrite Hn. unfold firstChunk. destruct (scan cf (nodes c) 0 (cutLimit cf (nodes c))) as [k|] eqn:E.
        -- left. destruct (scan_large_rest cf (nodes c) k E) as (H1 & H2 & H3). split.
           ++ apply large_weight. rewrite length_take, Nat.min_l by lia. by rewrite large_take by lia.
           ++ right. by apply large_weight.
        -- rewrite firstn_all, drop_all. destruct threshold; simpl in Hp; rewrite ?E in Hp; try done; [|by right].
           left. split; [by apply large_weight|by left].
  - intros c c' Hc Hpop. destruct (PopMultiple_cases cf c _ [] c' Hc Hpop) as [_ [(_ & -> & Hp)|(? & _)]]; [|done].
    pose proof (PopMultiple_ok cf c PopAll Hc) as H. simpl in Hp, H. unfold firstChunk in H.
    destruct (scan cf (nodes c) 0 (cutLimit cf (nodes c))) eqn:E; [done|].
    destruct (nodes c) as [|n ns] eqn:En; [by exists c|]. rewrite <- En in *.
    destruct H as (c'' & H & _). rewrite firstn_all in H. by exists c''.
Defined.
End prolly.

(** ** A run *)

Module Run.

(** Leaves with a name and a height, and parents with the nodes of their object. *)
Inductive Node := Leaf (name : Z) (height : nat) | Parent (children : list Node).

Fixpoint leavesOf (n : Node) : list Z :=
  match n with Leaf name _ => [name] | Parent children => flat_map leavesOf children end.
Fixpoint heightOf (n : Node) : nat :=
  match n with Leaf _ height => height | Parent children => S (foldr (fun n m => Nat.max (heightOf n) m) O children) end.

#[local] Instance operations : NodeOperations Node := {
  messageSize n := match n with Leaf name _ => 20 + name mod 30 | Parent _ => 10 end;
  marshal n := Ok (leavesOf n);
  GetReferencesSizeBytes n := match n with Leaf _ _ => 0 | Parent _ => 40 end;
  rawReferences n := match n with Leaf _ _ => [] | Parent children => [flat_map leavesOf children] end;
  GetHeight := heightOf;
}.
Definition isParent (n : Node) : bool := match n with Leaf _ _ => false | Parent _ => true end.
Definition factory : prollyChunkerFactory Node := mkFactory 100 300 isParent.
Definition merger (ns : list Node) : outcome Node := Ok (Parent ns).

Lemma nodes_laws : NodeLaws.
Proof.
  split; [| |done].
  - intros []; simpl; lia.
  - intros [name h|]; simpl; [|lia]. pose proof (Z.mod_pos_bound name 30). lia.
Qed.

(** Most leaves have no height; a few do. *)
Definition inputs : list Node := map (fun i => Leaf i (if i mod 20 =? 7 then 2%nat else O)) (seqZ 0 60).

#[local] Instance chunkers : Chunkers Node (prollyChunker Node) := prollyChunkers factory.

Definition list_run : outcome (list Node) := levels ← PushChildren merger 200 [] inputs; FinalizeList merger 200 levels.
Definition single_run : outcome (option Node) := levels ← PushChildren merger 200 [] inputs; FinalizeSingle merger 200 levels.
Definition roots : list Node := match list_run with Ok root => root | _ => [] end.

Lemma list_run_ok : list_run = Ok roots.
Proof. vm_compute. reflexivity. Qed.
Lemma single_run_ok : single_run = Ok (Some (Parent roots)).
Proof. vm_compute. reflexivity. Qed.

Lemma builder_keeps_leaves_witness :
  list_run = Ok roots /\ flat_map leavesOf roots = flat_map leavesOf inputs /\
  single_run = Ok (Some (Parent roots)) /\ leavesOf (Parent roots) = flat_map leavesOf inputs.
Proof.
  pose proof (builder_keeps_leaves (Chs := chunkers) isParent (Laws := prolly_laws factory nodes_laws) merger leavesOf
    ltac:(by intros ns n [= <-]) ltac:(by intros ns n [= <-]) ltac:(done) 200 inputs
    ltac:(vm_compute; lia)) as H.
  fold list_run in H. fold single_run in H. rewrite list_run_ok, single_run_ok in H.
  split_and!; [apply list_run_ok|apply H|apply single_run_ok|apply H].
Defined.
End Run.
