(* ===== verification/BtreeSearch.v ===== *)
(** * Searching and traversing trees

    [Find] returns what a search of all leaves would return, if leaves are in order and
    parents compare as their first leaf; [AllLeaves] yields all leaves in their order,
    and can be resumed; [AllLeavesSkippingDuplicateParents] loses no leaf. *)

From S2P Require Import Prelude Btree.

(** ** Binary search *)

Section find.
Context {Message Reference : Type}.
Context (Dereference : Reference -> outcome (list Message)).
Context (cmp : Message -> Z * option Reference).

Definition sign (m : Message) : Z := (cmp m).1.

(** Trees of at most some depth, and their leaves: parents have leaves, and compare as
    the first of them. *)
Inductive searchable : nat -> list Message -> list Message -> Prop :=
  | searchable_nil d : searchable d [] []
  | searchable_leaf d m ms leaves :
      (cmp m).2 = None -> searchable d ms leaves -> searchable d (m :: ms) (m :: leaves)
  | searchable_parent d m r children ms first own leaves :
      (cmp m).2 = Some r -> Dereference r = Ok children -> searchable d children (first :: own) ->
      Z.sgn (sign m) = Z.sgn (sign first) -> searchable (S d) ms leaves ->
      searchable (S d) (m :: ms) (first :: own ++ leaves).

(** What is sought comes after some leaves, is at most one, and comes before others. *)
Definition inOrder (ms : list Message) : Prop :=
  forall i j a b, (i < j)%nat -> ms !! i = Some a -> ms !! j = Some b -> 0 <= sign b -> 0 < sign a.

Definition search (leaves : list Message) : option Message := List.find (fun m => sign m =? 0) leaves.

Lemma inOrder_cons m ms : inOrder (m :: ms) <->
  (forall b, b ∈ ms -> 0 <= sign b -> 0 < sign m) /\ inOrder ms.
Proof.
  split.
  - intros H. split.
    + intros b [j Hj]%list_elem_of_lookup_1 Hb. by apply (H O (S j) m b ltac:(lia)).
    + intros i j a b Hij Ha Hb. by apply (H (S i) (S j)); [lia| |].
  - intros [H1 H2] [|i] [|j] a b Hij Ha Hb; simpl in *; [lia| |lia|].
    + injection Ha as <-. apply H1. by eapply list_elem_of_lookup_2.
    + by apply (H2 i j a b ltac:(lia)).
Qed.

Lemma inOrder_app l k : inOrder (l ++ k) <->
  inOrder l /\ inOrder k /\ forall a b, a ∈ l -> b ∈ k -> 0 <= sign b -> 0 < sign a.
Proof.
  induction l as [|m l IH]; simpl.
  - split; [|tauto]. intros H. split_and!; [by intros ? ? ? ?|done|]. intros a b Ha. by apply not_elem_of_nil in Ha.
  - rewrite !inOrder_cons, IH. setoid_rewrite elem_of_app. setoid_rewrite elem_of_cons. naive_solver.
Qed.

(** The entries of a list are in order, as their leaves are. *)
Lemma searchable_order d ms leaves : searchable d ms leaves -> inOrder leaves ->
  inOrder ms /\ forall m, m ∈ ms -> exists leaf, leaf ∈ leaves /\ Z.sgn (sign leaf) = Z.sgn (sign m).
Proof.
  induction 1 as [d|d m ms leaves Hm _ IH|d m r children ms first own leaves Hm Hr _ _ Hsgn _ IH].
  - intros _. split; [by intros ? ? ? ?|]. intros m Hm. by apply not_elem_of_nil in Hm.
  - intros [H1 H2]%inOrder_cons. destruct (IH H2) as [IH1 IH2]. split.
    + apply inOrder_cons. split; [|done]. intros b Hb Hs. destruct (IH2 b Hb) as (leaf & Hl & Heq). apply (H1 leaf Hl). lia.
    + setoid_rewrite elem_of_cons. intros m' [->|Hm']; [by exists m; auto|]. destruct (IH2 m' Hm') as (leaf & ? & ?). exists leaf. auto.
  - intros [H1 H2]%inOrder_cons. apply inOrder_app in H2 as (_ & H2 & _). destruct (IH H2) as [IH1 IH2]. split.
    + apply inOrder_cons. split; [|done]. intros b Hb Hs. destruct (IH2 b Hb) as (leaf & Hl & Heq).
      enough (0 < sign first) by lia. apply (H1 leaf); [apply elem_of_app; by right|lia].
    + setoid_rewrite elem_of_cons. setoid_rewrite elem_of_app. intros m' [->|Hm']; [exists first; auto|].
      destruct (IH2 m' Hm') as (leaf & ? & ?). exists leaf. auto.
Qed.

(** The result of the binary search: [k] is the number of entries that do not come
    after what is sought. *)
Definition located (ms : list Message) (r : Message + option Reference) : Prop := exists k,
  (k <= length ms)%nat /\ (forall i m, ms !! i = Some m -> (k <= i)%nat -> sign m < 0) /\
  match r with
  | inl m => exists j, k = S j /\ ms !! j = Some m /\ sign m = 0 /\ (cmp m).2 = None
  | inr reference =>
      (k = O /\ reference = None) \/
      exists j m, k = S j /\ ms !! j = Some m /\ 0 <= sign m /\ reference = (cmp m).2 /\ (reference = None -> 0 < sign m)
  end.

Lemma findIndex_ok ms fuel low high childReference : inOrder ms ->
  (low <= high <= length ms)%nat -> (high - low < fuel)%nat ->
  (forall i m, ms !! i = Some m -> (high <= i)%nat -> sign m < 0) ->
  match low with
  | O => childReference = None
  | S j => exists m, ms !! j = Some m /\ 0 < sign m /\ childReference = (cmp m).2
  end ->
  exists r, findIndex cmp fuel ms low high childReference = Ok r /\ located ms r.
Proof.
  intros Hord. revert low high childReference. induction fuel as [|fuel IH]; intros low high childReference Hlh Hf Hhigh Hlow; [lia|].
  cbn [findIndex]. destruct (Nat.ltb_spec low high) as [Hlt|].
  2: { exists (inr childReference). split; [done|]. exists low. assert (low = high) as -> by lia. split_and!; [lia|done|].
       destruct high as [|j]; [by left|right]. destruct Hlow as (m & Hm & Hs & ->). exists j, m. split_and!; auto. lia. }
  cbv zeta. set (index := ((low + high) / 2)%nat).
  assert (low <= index < high)%nat as Hindex.
  { unfold index. pose proof (Nat.div_mod (low + high) 2). pose proof (Nat.mod_upper_bound (low + high) 2). lia. }
  destruct (lookup_lt_is_Some_2 ms index) as [m Hm]; [lia|]. rewrite Hm.
  destruct (cmp m) as [r reference] eqn:Hc. assert (sign m = r) as Hs by (unfold sign; by rewrite Hc).
  destruct (Z.ltb_spec r 0).
  - apply IH; [lia|lia| |done]. intros i m' Hm' Hi. destruct (decide (i = index)) as [->|]; [|].
    + assert (m' = m) as -> by congruence. lia.
    + destruct (Z.lt_ge_cases (sign m') 0) as [|Hge]; [done|].
      pose proof (Hord index i m m' ltac:(lia) Hm Hm' Hge). lia.
  - destruct (Z.ltb_spec 0 r).
    + apply IH; [lia|lia|done|]. exists m. split_and!; [done|lia|]. by rewrite Hc.
    + assert (forall i m', ms !! i = Some m' -> (S index <= i)%nat -> sign m' < 0) as Hafter.
      { intros i m' Hm' Hi. destruct (Z.lt_ge_cases (sign m') 0) as [|Hge]; [done|].
        pose proof (Hord index i m m' ltac:(lia) Hm Hm' Hge). lia. }
      destruct reference as [reference|]; eexists; (split; [done|]); exists (S index); (split_and!; [lia|done|]).
      * right. exists index, m. rewrite Hc. simpl. split_and!; [done|done|lia|done|done].
      * exists index. rewrite Hc. simpl. split_and!; [done|done|lia|done].
Qed.

(** Leaves that do not match. *)
Lemma search_app l k : search (l ++ k) = match search l with Some m => Some m | None => search k end.
Proof. unfold search. induction l as [|m l IH]; simpl; [done|]. by destruct (sign m =? 0). Qed.

Lemma search_none leaves : (forall m, m ∈ leaves -> sign m <> 0) -> search leaves = None.
Proof.
  intros H. induction leaves as [|m leaves IH]; [done|]. unfold search. simpl.
  destruct (Z.eqb_spec (sign m) 0) as [H0|]; [by apply H in H0; [|left]|]. apply IH. intros m' Hm'. apply H. by right.
Qed.

(** The leaves of one entry, those before it, and those after it. *)
Lemma searchable_split d ms leaves j m : searchable d ms leaves -> ms !! j = Some m ->
  exists before own after, leaves = before ++ own ++ after /\
    searchable d (drop (S j) ms) after /\
    match (cmp m).2 with
    | None => own = [m]
    | Some r => exists children d', d = S d' /\ Dereference r = Ok children /\ searchable d' children own /\
        exists first, head own = Some first /\ Z.sgn (sign m) = Z.sgn (sign first)
    end.
Proof.
  intros H. revert j. induction H as [d|d m' ms leaves Hm Hms IH|d m' r children ms first own leaves Hm Hr Hch _ Hsgn Hms IH];
    intros [|j] Hj; simpl in Hj; try done.
  - injection Hj as ->. exists [], [m], leaves. by rewrite Hm.
  - destruct (IH j Hj) as (before & own & after & -> & ? & ?). by exists (m' :: before), own, after.
  - injection Hj as ->. exists [], (first :: own), leaves. rewrite Hm. split_and!; [done|done|].
    exists children, d. split_and!; [done..|]. by exists first.
  - destruct (IH j Hj) as (before & own' & after & -> & ? & ?). exists (first :: own ++ before), own', after.
    split_and!; [|done|done]. simpl. by rewrite <- app_assoc.
Qed.

(** Entries that come after what is sought have leaves that do. *)
Lemma searchable_after d ms leaves : searchable d ms leaves -> inOrder leaves ->
  (forall m, m ∈ ms -> sign m < 0) -> forall leaf, leaf ∈ leaves -> sign leaf < 0.
Proof.
  induction 1 as [d|d m ms leaves Hm _ IH|d m r children ms first own leaves Hm Hr _ _ Hsgn _ IH].
  - intros _ _ leaf Hl. by apply not_elem_of_nil in Hl.
  - intros [_ H2]%inOrder_cons Hneg leaf [->|Hl]%elem_of_cons; [apply Hneg; by left|].
    apply IH; [done| |done]. intros m' Hm'. apply Hneg. by right.
  - intros Hord Hneg leaf. assert (sign first < 0) as Hf by (pose proof (Hneg m ltac:(by left)); lia).
    intros [->|Hl]%elem_of_cons; [done|]. destruct (Z.lt_ge_cases (sign leaf) 0) as [|Hge]; [done|].
    apply inOrder_cons in Hord as [H1 _]. pose proof (H1 leaf Hl Hge). lia.
Qed.

(** C27: A search of a tree returns what a search of the list of all its leaves would:
    the leaf that matches, if there is one.  Leaves have to be in order, and parents to
    compare as their first leaf; the depth bounds the number of objects that are read. *)
Theorem Find_searches_leaves d ms leaves fuel : searchable d ms leaves -> inOrder leaves -> (d < fuel)%nat ->
  Find Dereference cmp fuel ms = Ok (search leaves).
Proof.
  revert d ms leaves. induction fuel as [|fuel IH]; intros d ms leaves Hs Hord Hf; [lia|]. cbn [Find].
  destruct (searchable_order d ms leaves Hs Hord) as [Hms _].
  destruct (findIndex_ok ms (S (length ms)) 0 (length ms) None) as (r & Hr & k & Hk & Hafter & Hres); [done|lia|lia| |done|].
  { intros i m Hm%lookup_lt_Some Hi. lia. }
  rewrite Hr. simpl.
  assert (forall after, searchable d (drop k ms) after -> inOrder after -> search after = None) as Hnone.
  { intros after Ha Hoa. apply search_none. intros m Hm.
    enough (sign m < 0) by lia. apply (searchable_after d (drop k ms) after); auto.
    intros m' [i Hi]%list_elem_of_lookup_1. rewrite lookup_drop in Hi. apply (Hafter (k + i)%nat); [done|lia]. }
  (* an entry that comes before what is sought, or matches *)
  assert (forall j m, k = S j -> ms !! j = Some m -> 0 <= sign m -> exists before own after,
    leaves = before ++ own ++ after /\ search leaves = search own /\ inOrder own /\
    match (cmp m).2 with
    | None => own = [m]
    | Some r => exists children d', d = S d' /\ Dereference r = Ok children /\ searchable d' children own
    end) as Hsplit.
  { intros j m -> Hm Hge. destruct (searchable_split d ms leaves j m Hs Hm) as (before & own & after & -> & Hdrop & Hown).
    exists before, own, after. pose proof Hord as Hord'.
    apply inOrder_app in Hord' as (_ & (Ho & Ha & _)%inOrder_app & Hb).
    assert (exists first, first ∈ own /\ 0 <= sign first) as (first & Hfirst & Hsf).
    { destruct (cmp m).2 as [r'|].
      - destruct Hown as (_ & _ & _ & _ & _ & first & Hh & Hsgn). exists first. split; [|lia].
        destruct own; [done|]. injection Hh as ->. by left.
      - rewrite Hown. exists m. split; [by left|done]. }
    split_and!; [done| |done|].
    - rewrite !search_app, (Hnone after Hdrop Ha). rewrite (search_none before).
      + by destruct (search own).
      + intros b Hbin. pose proof (Hb b first Hbin ltac:(apply elem_of_app; by left) Hsf). lia.
    - destruct (cmp m).2 as [r'|]; [|done]. destruct Hown as (children & d' & ? & ? & ? & _). by exists children, d'. }
  destruct r as [m|[reference|]]; simpl in Hres.
  - destruct Hres as (j & -> & Hm & H0 & Hleaf). destruct (Hsplit j m eq_refl Hm ltac:(lia)) as (before & own & after & -> & -> & _ & Hown).
    rewrite Hleaf in Hown. subst own. unfold search. simpl. by rewrite H0.
  - destruct Hres as [[_ ?]|(j & m & -> & Hm & Hge & Href & _)]; [done|].
    destruct (Hsplit j m eq_refl Hm Hge) as (before & own & after & -> & -> & Ho & Hown).
    rewrite <- Href in Hown. destruct Hown as (children & d' & -> & -> & Hch). simpl. apply (IH d'); [done|done|lia].
  - destruct Hres as [[-> _]|(j & m & -> & Hm & Hge & Href & Hpos)].
    + symmetry. f_equal. apply Hnone; [by rewrite drop_0|done].
    + destruct (Hsplit j m eq_refl Hm Hge) as (before & own & after & -> & -> & Ho & Hown).
      rewrite <- Href in Hown. subst own. symmetry. f_equal. apply search_none. intros m' ->%list_elem_of_singleton.
      specialize (Hpos eq_refl). lia.
Qed.
End find.

(** ** All leaves *)

Section leaves.
Context {Message Reference State : Type}.
Context (Dereference : Reference -> outcome (list Message)).
Context (child : Message -> option Reference).
Context (yield : Message -> State -> bool * State).

(** A list of messages stands for its leaves, through objects that can be read. *)
Inductive entries : list Message -> list Message -> Prop :=
  | entries_nil : entries [] []
  | entries_leaf m ms leaves : child m = None -> entries ms leaves -> entries (m :: ms) (m :: leaves)
  | entries_parent m r children ms own leaves :
      child m = Some r -> Dereference r = Ok children -> entries children own -> entries ms leaves ->
      entries (m :: ms) (own ++ leaves).

(** The lists that an iterator keeps, and the leaves that are to come. *)
Inductive iterator : list (list Message) -> list Message -> Prop :=
  | iterator_nil : iterator [] []
  | iterator_cons ms lists own leaves : entries ms own -> iterator lists leaves -> iterator (ms :: lists) (own ++ leaves).

(** A consumer that is given leaves until it has enough: whether it wants more, the
    leaves that it was not given, and its state. *)
Fixpoint consume (leaves : list Message) (s : State) : bool * list Message * State :=
  match leaves with
  | [] => (true, [], s)
  | leaf :: leaves =>
      let '(continue, s) := yield leaf s in
      if continue : bool then consume leaves s else (false, leaves, s)
  end.

Lemma consume_app l k s : consume (l ++ k) s =
  match consume l s with
  | (true, _, s) => consume k s
  | (false, rest, s) => (false, rest ++ k, s)
  end.
Proof.
  revert s. induction l as [|leaf l IH]; intros s; simpl; [done|].
  destruct (yield leaf s) as [[] s']; [apply IH|done].
Qed.

Definition pureTraverser (m : Message) (s : State) : outcome (option Reference) * State := (Ok (child m), s).

Notation run fuel lists s := (AllLeaves Dereference fuel pureTraverser yield lists s).

(** The entries of a list are done after some rounds, unless the consumer stops. *)
Lemma AllLeaves_entries ms leaves : entries ms leaves -> exists n, forall lists rest s, iterator lists rest ->
  match consume leaves s with
  | (true, _, s') => forall fuel, run (n + fuel)%nat (ms :: lists) s = run fuel lists s'
  | (false, todo, s') => exists lists', iterator lists' (todo ++ rest) /\
      forall fuel, run (n + fuel)%nat (ms :: lists) s = Ok (lists', SetNil, s')
  end.
Proof.
  induction 1 as [|m ms leaves Hm Hms [n IH]|m r children ms own leaves Hm Hr Hch [n1 IH1] Hms [n2 IH2]].
  - exists 1%nat. intros lists rest s Hl fuel. done.
  - exists (S n). intros lists rest s Hl. cbn [consume].
    destruct (yield m s) as [[] s1] eqn:Hy.
    + specialize (IH lists rest s1 Hl). destruct (consume leaves s1) as [[[] todo] s2].
      * intros fuel. simpl. rewrite Hm, Hy. apply IH.
      * destruct IH as (lists' & Hl' & IH). exists lists'. split; [done|]. intros fuel. simpl. rewrite Hm, Hy. apply IH.
    + exists (ms :: lists). split; [by constructor|]. intros fuel. simpl. by rewrite Hm, Hy.
  - exists (S (n1 + n2)). intros lists rest s Hl. rewrite consume_app.
    assert (iterator (ms :: lists) (leaves ++ rest)) as Hl1 by (by constructor).
    specialize (IH1 (ms :: lists) (leaves ++ rest) s Hl1).
    destruct (consume own s) as [[[] todo] s1].
    + specialize (IH2 lists rest s1 Hl). destruct (consume leaves s1) as [[[] todo2] s2].
      * intros fuel. simpl. rewrite Hm, Hr, <- Nat.add_assoc, IH1. apply IH2.
      * destruct IH2 as (lists' & Hl' & IH2). exists lists'. split; [done|]. intros fuel. simpl.
        rewrite Hm, Hr, <- Nat.add_assoc, IH1. apply IH2.
    + destruct IH1 as (lists' & Hl' & IH1). exists lists'. rewrite <- app_assoc. split; [done|].
      intros fuel. simpl. rewrite Hm, Hr, <- Nat.add_assoc. apply IH1.
Qed.

(** Iterators yield the leaves in their order, until the consumer stops, and what
    they keep when it does are the leaves that are to come: an iterator that is used
    again goes on where it was.  All of this takes finitely many rounds. *)
Theorem AllLeaves_yields lists leaves s : iterator lists leaves -> exists n, forall fuel, (n <= fuel)%nat ->
  exists lists', 
    run fuel lists s = Ok (lists', if (consume leaves s).1.1 then Unchanged else SetNil, (consume leaves s).2) /\
    iterator lists' (consume leaves s).1.2.
Proof.
  intros H. revert s. induction H as [|ms lists own leaves Hms Hl IH]; intros s.
  { exists 1%nat. intros [|fuel] Hf; [lia|]. exists []. split; [done|constructor]. }
  destruct (AllLeaves_entries ms own Hms) as [n1 Hn1]. specialize (Hn1 lists leaves s Hl).
  rewrite consume_app. destruct (consume own s) as [[[] todo] s1].
  - destruct (IH s1) as [n2 Hn2]. exists (n1 + n2)%nat. intros fuel Hf.
    destruct (Hn2 (fuel - n1)%nat ltac:(lia)) as (lists' & Hrun & Hl'). exists lists'. split; [|done].
    replace fuel with (n1 + (fuel - n1))%nat by lia. by rewrite Hn1.
  - destruct Hn1 as (lists' & Hl' & Hn1). exists n1. intros fuel Hf. exists lists'. split; [|done].
    replace fuel with (n1 + (fuel - n1))%nat by lia. apply Hn1.
Qed.
End leaves.

(** ** Skipping parents *)

Section skipping.
Context {Message Reference Key : Type} `{EqKey : !EqDecision Key} `{CountKey : !Countable Key}.
Context (Dereference : Reference -> outcome (list Message)).
Context (child : Message -> option Reference).

(** Keys identify references, and objects only refer to objects of a lower rank: their
    height. *)
Context (key : Reference -> Key) (rank : Reference -> nat).
Context (key_inj : forall r r', key r = key r' -> r = r').
Context (rank_lt : forall r children m r', Dereference r = Ok children -> m ∈ children -> child m = Some r' -> (rank r' < rank r)%nat).

(** A consumer that keeps the leaves. *)
Definition collect (m : Message) (out : list Message) : bool * list Message := (true, out ++ [m]).

Notation traverser := (fun m => Ok (child m)).
Notation run fuel lists s :=
  (AllLeaves Dereference fuel (skippingTraverser (fun r => Ok (key r)) traverser) (skippingYield traverser collect) lists s).

Definition holds (r : Reference) (leaf : Message) : Prop :=
  exists children own, Dereference r = Ok children /\ entries Dereference child children own /\ leaf ∈ own.

(** A leaf that was yielded, or that a parent has that was seen. *)
Definition covered (seen : gset Key) (out : list Message) (below : nat) (leaf : Message) : Prop :=
  leaf ∈ out \/ exists r, key r ∈ seen /\ (rank r < below)%nat /\ holds r leaf.

Lemma entries_unique ms l l' : entries Dereference child ms l -> entries Dereference child ms l' -> l = l'.
Proof.
  intros H. revert l'. induction H as [|m ms leaves Hm _ IH|m r children ms own leaves Hm Hr _ IH1 _ IH2]; intros l' H';
    inversion H' as [|m' ms' l1 Hm' Hms'|m' r' children' ms' l1 l2 Hm' Hr' Hch' Hms']; subst; [done|..].
  - f_equal. by apply IH.
  - congruence.
  - congruence.
  - assert (r' = r) as -> by congruence. assert (children' = children) as -> by congruence. f_equal; auto.
Qed.

Lemma covered_mono seen out out' n n' leaf : covered seen out n leaf -> out ⊆ out' -> (n <= n')%nat -> covered seen out' n' leaf.
Proof. intros [H|(r & H1 & H2 & H3)] Ho Hn; [left; auto|right]. exists r. split_and!; [done|lia|done]. Qed.

(** What a traversal of a list does, if the parents in it have ranks below [n]. *)
Record skipped (seen seen' : gset Key) (out leaves : list Message) (n : nat) : Prop := {
  skipped_sublist : out `sublist_of` leaves;
  skipped_seen : seen ⊆ seen';
  skipped_leaves leaf : leaf ∈ leaves -> covered seen out n leaf;
  skipped_new r leaf : key r ∈ seen' -> key r ∉ seen -> holds r leaf -> covered seen out (S (rank r)) leaf;
}.

Lemma skipped_app seen seen1 seen2 out1 out2 l1 l2 n :
  skipped seen seen1 out1 l1 n -> skipped seen1 seen2 out2 l2 n -> skipped seen seen2 (out1 ++ out2) (l1 ++ l2) n.
Proof.
  intros [S1 E1 L1 N1] [S2 E2 L2 N2].
  assert (forall leaf k, covered seen1 out2 k leaf -> covered seen (out1 ++ out2) k leaf) as Hstep.
  { intros leaf k [Hl|(r & Hr & Hk & Hh)]; [left; set_solver|].
    destruct (decide (key r ∈ seen)) as [Hs|Hs]; [right; exists r; auto|].
    eapply covered_mono; [by apply (N1 r)|set_solver|lia]. }
  split.
  - by apply sublist_app.
  - set_solver.
  - intros leaf [Hl|Hl]%elem_of_app; [eapply covered_mono; [by apply L1|set_solver|done]|]. apply Hstep. by apply L2.
  - intros r leaf Hr Hs Hh. destruct (decide (key r ∈ seen1)) as [H1|H1].
    + eapply covered_mono; [by apply N1|set_solver|done].
    + apply Hstep. by apply N2.
Qed.

Lemma AllLeaves_skipping ms leaves : entries Dereference child ms leaves -> forall n,
  (forall m r, m ∈ ms -> child m = Some r -> (rank r < n)%nat) -> forall lists seen out0, exists rounds seen' out,
  (forall fuel, run (rounds + fuel)%nat (ms :: lists) (seen, out0) = run fuel lists (seen', out0 ++ out)) /\
  skipped seen seen' out leaves n.
Proof.
  induction 1 as [|m ms leaves Hm Hms IH|m r children ms own leaves Hm Hr Hch IH1 Hms IH2]; intros n Hn lists seen out0.
  - exists 1%nat, seen, []. rewrite app_nil_r. split; [done|]. split; [done|done| |done].
    intros leaf Hl. by apply not_elem_of_nil in Hl.
  - destruct (IH n ltac:(intros; eapply Hn; [by right|done]) lists seen (out0 ++ [m])) as (rounds & seen' & out & Hrun & Hs).
    exists (S rounds), seen', (m :: out). split.
    + intros fuel. simpl. unfold skippingTraverser at 1. rewrite Hm. cbn. unfold skippingYield at 1. rewrite Hm. cbn.
      rewrite Hrun. by rewrite <- app_assoc.
    + change (m :: out) with ([m] ++ out). change (m :: leaves) with ([m] ++ leaves).
      eapply skipped_app; [|exact Hs]. split; [done|done| |set_solver]. intros leaf Hl. by left.
  - assert (forall m' r', m' ∈ ms -> child m' = Some r' -> (rank r' < n)%nat) as Hn' by (intros; eapply Hn; [by right|done]).
    pose proof (Hn m r ltac:(by left) Hm) as Hrank. destruct (decide (key r ∈ seen)) as [Hin|Hin].
    + destruct (IH2 n Hn' lists seen out0) as (rounds & seen' & out & Hrun & Hs). exists (S rounds), seen', ([] ++ out).
      split.
      * intros fuel. simpl. unfold skippingTraverser at 1. rewrite Hm. cbn. rewrite decide_True by done. cbn.
        unfold skippingYield at 1. rewrite Hm. cbn. apply Hrun.
      * eapply skipped_app; [|exact Hs]. split; [apply sublist_nil_l|done| |set_solver].
        intros leaf Hl. right. exists r. split_and!; [done|done|]. by exists children, own.
    + destruct (IH1 (rank r)) with (lists := ms :: lists) (seen := {[key r]} ∪ seen) (out0 := out0)
        as (rounds1 & seen1 & out1 & Hrun1 & [S1 E1 L1 N1]); [intros m' r' Hm' Hr'; by eapply rank_lt|].
      destruct (IH2 n Hn' lists seen1 (out0 ++ out1)) as (rounds2 & seen2 & out2 & Hrun2 & Hs2).
      exists (S (rounds1 + rounds2)), seen2, (out1 ++ out2). split.
      * intros fuel. simpl. unfold skippingTraverser at 1. rewrite Hm. cbn. rewrite decide_False by done. cbn.
        rewrite Hr, <- Nat.add_assoc, Hrun1, Hrun2. by rewrite <- app_assoc.
      * eapply skipped_app; [|exact Hs2].
        assert (forall leaf, leaf ∈ own -> covered seen out1 (rank r) leaf) as Hown.
        { intros leaf Hl. destruct (L1 leaf Hl) as [Ho|(r' & Hr' & Hlt & Hh)]; [by left|right]. exists r'.
          split_and!; [|done|done]. apply elem_of_union in Hr' as [Hr'%elem_of_singleton|Hr']; [|done].
          apply key_inj in Hr' as ->. lia. }
        split; [done|set_solver| |].
        -- intros leaf Hl. eapply covered_mono; [by apply Hown|done|lia].
        -- intros r0 leaf Hr0 Hs0 Hh. destruct (decide (key r0 = key r)) as [->%key_inj|Hne].
           ++ destruct Hh as (children' & own' & Hc' & He' & Hl). assert (children' = children) as -> by congruence.
              rewrite (entries_unique _ _ _ He' Hch) in Hl. eapply covered_mono; [by apply Hown|done|lia].
           ++ destruct (N1 r0 leaf Hr0) as [Ho|(r' & Hr' & Hlt & Hh')]; [|done|by left|].
              { by intros [Hk%elem_of_singleton|]%elem_of_union. }
              apply elem_of_union in Hr' as [Hr'%elem_of_singleton|Hr']; [|right; by exists r'].
              apply key_inj in Hr' as ->. destruct Hh' as (children' & own' & Hc' & He' & Hl). assert (children' = children) as -> by congruence.
              rewrite (entries_unique _ _ _ He' Hch) in Hl. eapply covered_mono; [by apply Hown|done|lia].
Qed.

(** C28: A traversal that skips parents that it has seen loses no leaf: whatever parents
    share, every leaf of the tree is yielded, and leaves are yielded in their order. *)
Theorem skipping_loses_no_leaf root leaves : entries Dereference child root leaves -> exists n, forall fuel, (n <= fuel)%nat ->
  exists seen out,
    AllLeavesSkippingDuplicateParents Dereference (fun r => Ok (key r)) fuel traverser collect root ∅ [] =
      Ok ([], Unchanged, (seen, out)) /\
    out `sublist_of` leaves /\ forall leaf, leaf ∈ leaves -> leaf ∈ out.
Proof.
  intros He.
  destruct (AllLeaves_skipping root leaves He (S (sum_list_with (fun m => match child m with Some r => rank r | None => O end) root)))
    with (lists := @nil (list Message)) (seen := (∅ : gset Key)) (out0 := @nil Message) as (rounds & seen & out & Hrun & [S1 _ L1 _]).
  { intros m r Hm Hr. pose proof (sum_list_with_in m (fun m => match child m with Some r => rank r | None => O end) root Hm) as H.
    cbn beta in H. rewrite Hr in H. lia. }
  exists (S rounds). intros fuel Hf. exists seen, out. split_and!; [|done|].
  - unfold AllLeavesSkippingDuplicateParents. replace fuel with (rounds + S (fuel - rounds - 1))%nat by lia. rewrite Hrun. done.
  - intros leaf Hl. destruct (L1 leaf Hl) as [Ho|(r & Hr & _)]; [done|]. by apply not_elem_of_empty in Hr.
Qed.
End skipping.

(** ** Runs *)

Module Run.

(** Leaves with a name, and parents with the name of their first leaf. *)
Inductive Message := Leaf (name : Z) | Parent (firstName : Z) (object : nat).

Definition child (m : Message) : option nat := match m with Leaf _ => None | Parent _ r => Some r end.
Definition Dereference (r : nat) : outcome (list Message) :=
  match r with
  | 1%nat => Ok [Leaf 1; Leaf 2]
  | 2%nat => Ok [Leaf 4; Leaf 6]
  | 3%nat => Ok [Parent 1 1; Leaf 3; Parent 4 2]
  | _ => Err (StatusError CodeNotFound)
  end.
Definition cmp (target : Z) (m : Message) : Z * option nat :=
  (target - match m with Leaf name => name | Parent firstName _ => firstName end, child m).

Definition root : list Message := [Parent 1 3; Leaf 9].
Definition allLeaves : list Message := map Leaf [1; 2; 3; 4; 6; 9].

(** A tree in which two objects occur twice. *)
Definition shared : list Message := [Parent 1 3; Leaf 9; Parent 1 1; Parent 1 3; Leaf 9].
Definition sharedLeaves : list Message := map Leaf [1; 2; 3; 4; 6; 9; 1; 2; 1; 2; 3; 4; 6; 9].

Lemma root_searchable target : searchable Dereference (cmp target) 2 root allLeaves.
Proof.
  assert (forall d, searchable Dereference (cmp target) d (map Leaf [1; 2]) (map Leaf [1; 2])) as H1 by (intros; repeat constructor).
  assert (forall d, searchable Dereference (cmp target) d (map Leaf [4; 6]) (map Leaf [4; 6])) as H2 by (intros; repeat constructor).
  assert (searchable Dereference (cmp target) 1 [Parent 1 1; Leaf 3; Parent 4 2] (map Leaf [1; 2; 3; 4; 6])) as H3.
  { apply (searchable_parent _ _ 0 (Parent 1 1) 1%nat (map Leaf [1; 2]) _ (Leaf 1) (map Leaf [2]) (map Leaf [3; 4; 6])); auto.
    apply searchable_leaf; [done|].
    apply (searchable_parent _ _ 0 (Parent 4 2) 2%nat (map Leaf [4; 6]) [] (Leaf 4) (map Leaf [6]) []); auto. constructor. }
  apply (searchable_parent _ _ 1 (Parent 1 3) 3%nat [Parent 1 1; Leaf 3; Parent 4 2] [Leaf 9] (Leaf 1) (map Leaf [2; 3; 4; 6]) [Leaf 9]); auto.
  repeat constructor.
Qed.

Lemma allLeaves_order : inOrder (cmp 4) allLeaves.
Proof.
  unfold allLeaves. repeat (apply inOrder_cons; split; [|]).
  all: try (intros b Hb; repeat (apply elem_of_cons in Hb as [->|Hb]; [unfold sign; simpl; lia|]); by apply not_elem_of_nil in Hb).
  by intros ? ? ? ?.
Qed.

Lemma Find_searches_leaves_witness : Find Dereference (cmp 4) 3 root = Ok (Some (Leaf 4)).
Proof. exact (Find_searches_leaves Dereference (cmp 4) 2 root allLeaves 3 (root_searchable 4) allLeaves_order ltac:(lia)). Defined.

Lemma leaf_entries names : entries Dereference child (map Leaf names) (map Leaf names).
Proof. induction names; by constructor. Qed.

Lemma object_entries : entries Dereference child [Parent 1 1; Leaf 3; Parent 4 2] (map Leaf [1; 2; 3; 4; 6]).
Proof.
  apply (entries_parent _ _ (Parent 1 1) 1%nat (map Leaf [1; 2]) _ (map Leaf [1; 2]) (map Leaf [3; 4; 6])); [done|done|apply leaf_entries|].
  apply entries_leaf; [done|].
  apply (entries_parent _ _ (Parent 4 2) 2%nat (map Leaf [4; 6]) [] (map Leaf [4; 6]) []); [done|done|apply leaf_entries|constructor].
Qed.

Lemma shared_entries : entries Dereference child shared sharedLeaves.
Proof.
  apply (entries_parent _ _ (Parent 1 3) 3%nat [Parent 1 1; Leaf 3; Parent 4 2] _ (map Leaf [1; 2; 3; 4; 6]) (map Leaf [9; 1; 2; 1; 2; 3; 4; 6; 9]));
    [done|done|apply object_entries|].
  apply entries_leaf; [done|].
  apply (entries_parent _ _ (Parent 1 1) 1%nat (map Leaf [1; 2]) _ (map Leaf [1; 2]) (map Leaf [1; 2; 3; 4; 6; 9])); [done|done|apply leaf_entries|].
  apply (entries_parent _ _ (Parent 1 3) 3%nat [Parent 1 1; Leaf 3; Parent 4 2] [Leaf 9] (map Leaf [1; 2; 3; 4; 6]) [Leaf 9]);
    [done|done|apply object_entries|apply (leaf_entries [9])].
Qed.

(** A consumer that wants three leaves. *)
Definition three (m : Message) (s : list Message) : bool * list Message := ((length s <? 2)%nat, s ++ [m]).

Lemma AllLeaves_yields_witness : exists n, forall fuel, (n <= fuel)%nat -> exists lists',
  AllLeaves Dereference fuel (pureTraverser child) three [shared] [] = Ok (lists', SetNil, map Leaf [1; 2; 3]) /\
  iterator Dereference child lists' (map Leaf [4; 6; 9; 1; 2; 1; 2; 3; 4; 6; 9]).
Proof.
  refine (AllLeaves_yields Dereference child three [shared] sharedLeaves [] _).
  apply (iterator_cons _ _ shared [] sharedLeaves []); [apply shared_entries|constructor].
Defined.

Lemma Dereference_rank r children m r' :
  Dereference r = Ok children -> m ∈ children -> child m = Some r' -> (r' < r)%nat.
Proof.
  destruct r as [|[|[|[|r]]]]; simpl; try done; intros [= <-] Hm Hr;
    repeat (apply elem_of_cons in Hm as [->|Hm]; [simpl in Hr; try discriminate Hr; injection Hr as <-; lia|]);
    by apply not_elem_of_nil in Hm.
Qed.

Lemma skipping_loses_no_leaf_witness : exists n, forall fuel, (n <= fuel)%nat -> exists (seen : gset nat) out,
  AllLeavesSkippingDuplicateParents Dereference (fun r => Ok r) fuel (fun m => Ok (child m)) collect shared ∅ [] =
    Ok ([], Unchanged, (seen, out)) /\
  out `sublist_of` sharedLeaves /\ forall leaf, leaf ∈ sharedLeaves -> leaf ∈ out.
Proof.
  exact (skipping_loses_no_leaf Dereference child (fun r => r) (fun r => r) (fun r r' H => H) Dereference_rank shared sharedLeaves shared_entries).
Defined.
End Run.
