(* ===== verification/Messages.v ===== *)
(** * Messages with references

    [pkg/model/core]: messages refer to objects by indices into the list of outgoing
    references of the object that they are stored in.  While a message is built, a
    [ReferenceMessagePatcher] keeps pointers to these indices, by reference, and sets
    them once the list is known ([reference_message_patcher.go]); messages of different
    objects are combined by merging patchers ([patched_message.go]).

    Indices that are pointed to are cells of a [heap], so that what patchers and messages
    share is explicit.  Metadata of references are resources: the heap also keeps what was
    discarded.  A message is the tree of its [Reference] and [ReferenceSet] messages; all
    else that it may contain plays no part.  Fields that are maps, for whose values the
    traversal would panic, are not represented. *)

From stdpp Require Import sorting.
From S2P Require Import Prelude Varint References.

Definition MaxUint32 : Z := 2 ^ 32 - 1.

(** [GetIndexFromReferenceMessage], of the index of a message, if there is one. *)
Definition GetIndexFromReferenceMessage (referenceMessage : option Z) (degree : Z) : outcome Z :=
  match referenceMessage with
  | None => Err (StatusError CodeInvalidArgument)
  | Some index => if (index <=? 0) || (index >? degree) then Err (StatusError CodeInvalidArgument) else Ok (index - 1)
  end.

(** [core.Reference] and [core.ReferenceSet] with their indices, and other messages. *)
Inductive messageOf (A : Type) :=
  | Reference (index : A)
  | ReferenceSet (indices : list A)
  | Fields (fields : list (messageOf A)).
Arguments Reference {A} _.
Arguments ReferenceSet {A} _.
Arguments Fields {A} _.

(** Messages in memory have the cells of their indices. *)
Abbreviation message := (messageOf nat).

Section patcher.
Context {Metadata : Type}.

Record heap := mkHeap { cells : gmap nat Z; nextCell : nat; discarded : list Metadata }.

(** The values of the cells of a message. *)
Definition value (h : heap) (c : nat) : Z := default 0 (cells h !! c).
Fixpoint view (h : heap) (m : message) : messageOf Z :=
  match m with
  | Reference c => Reference (value h c)
  | ReferenceSet cs => ReferenceSet (map (value h) cs)
  | Fields fields => Fields (map (view h) fields)
  end.

(** [referenceMessages] and [ReferenceMessagePatcher] *)
Record referenceMessages := mkMessages { metadata : Metadata; indices : list nat }.
Record ReferenceMessagePatcher := mkPatcher {
  messagesByReference : gmap LocalReference referenceMessages;
  height : Z;
}.

(** [NewReferenceMessagePatcher] *)
Definition NewReferenceMessagePatcher : ReferenceMessagePatcher := mkPatcher ∅ 0.

Definition alloc (h : heap) (v : Z) : nat * heap :=
  (nextCell h, mkHeap (<[nextCell h := v]> (cells h)) (S (nextCell h)) (discarded h)).
Definition setCell (h : heap) (c : nat) (v : Z) : heap := mkHeap (<[c := v]> (cells h)) (nextCell h) (discarded h).
Definition discardMetadata (h : heap) (m : Metadata) : heap := mkHeap (cells h) (nextCell h) (discarded h ++ [m]).

(** [maybeIncreaseHeight] *)
Definition maybeIncreaseHeight (p : ReferenceMessagePatcher) (newHeight : Z) : ReferenceMessagePatcher :=
  if height p <? newHeight then mkPatcher (messagesByReference p) newHeight else p.

(** [addIndex] *)
Definition addIndex (h : heap) (p : ReferenceMessagePatcher) (index : nat) (reference : LocalReference) (m : Metadata) :
    heap * ReferenceMessagePatcher :=
  match messagesByReference p !! reference with
  | Some existingMessages =>
      (discardMetadata h m,
       mkPatcher (<[reference := mkMessages (metadata existingMessages) (indices existingMessages ++ [index])]> (messagesByReference p)) (height p))
  | None =>
      (h, maybeIncreaseHeight (mkPatcher (<[reference := mkMessages m [index]]> (messagesByReference p)) (height p)) (GetHeight reference + 1))
  end.

(** [AddReference] *)
Definition AddReference (h : heap) (p : ReferenceMessagePatcher) (reference : LocalReference) (m : Metadata) :
    message * (heap * ReferenceMessagePatcher) :=
  let '(c, h) := alloc h MaxUint32 in (Reference c, addIndex h p c reference m).

(** The loop of [Merge], over the references of the smaller map. *)
Definition mergeStep (s : heap * gmap LocalReference referenceMessages) (entry : LocalReference * referenceMessages) :
    heap * gmap LocalReference referenceMessages :=
  let '(h, messages) := s in
  let '(reference, newMessages) := entry in
  match messages !! reference with
  | Some existingMessages =>
      (discardMetadata h (metadata newMessages),
       <[reference := mkMessages (metadata existingMessages) (indices existingMessages ++ indices newMessages)]> messages)
  | None => (h, <[reference := newMessages]> messages)
  end.

(** [Merge]; the other patcher is emptied. *)
Definition Merge (h : heap) (p other : ReferenceMessagePatcher) : heap * ReferenceMessagePatcher :=
  let '(larger, smaller) :=
    if (size (messagesByReference p) <? size (messagesByReference other))%nat
    then (messagesByReference other, messagesByReference p) else (messagesByReference p, messagesByReference other) in
  let '(h, messages) := foldl mergeStep (h, larger) (map_to_list smaller) in
  (h, maybeIncreaseHeight (mkPatcher messages (height p)) (height other)).

(** [Discard] *)
Definition Discard (h : heap) (p : ReferenceMessagePatcher) : heap * ReferenceMessagePatcher :=
  (foldl (fun h entry => discardMetadata h (metadata entry.2)) h (map_to_list (messagesByReference p)), NewReferenceMessagePatcher).

(** [GetReferencesSizeBytes]: all references have the size of any of them. *)
Definition GetReferencesSizeBytes (p : ReferenceMessagePatcher) : Z :=
  match map_to_list (messagesByReference p) with
  | [] => 0
  | (reference, _) :: _ => zlen (rawReference reference) * Z.of_nat (size (messagesByReference p))
  end.

(** [referencesList.Less] is [bytes.Compare(...) < 0]; a sort leaves no element after a
    greater one. *)
Definition referenceLe (a b : LocalReference) : Prop := bytes_compare (rawReference a) (rawReference b) <= 0.
#[export] Instance referenceLe_dec a b : Decision (referenceLe a b) := Z_le_dec _ _.

(** The indices of one reference are set. *)
Definition setIndices (h : heap) (index : Z) (indices : list nat) : heap :=
  foldl (fun h c => setCell h c (u32 (index + 1))) h indices.

Fixpoint setAllIndices (h : heap) (p : ReferenceMessagePatcher) (index : Z) (references : list LocalReference) : heap :=
  match references with
  | [] => h
  | reference :: references =>
      let h := match messagesByReference p !! reference with Some m => setIndices h index (indices m) | None => h end in
      setAllIndices h p (index + 1) references
  end.

Definition sortedReferences (p : ReferenceMessagePatcher) : list LocalReference :=
  merge_sort referenceLe (map_to_list (messagesByReference p)).*1.

(** [SortAndSetReferences] *)
Definition SortAndSetReferences (h : heap) (p : ReferenceMessagePatcher) : heap * (list LocalReference * list Metadata) :=
  let references := sortedReferences p in
  (setAllIndices h p 0 references,
   (references, omap (fun reference => metadata <$> messagesByReference p !! reference) references)).

(** [MapReferenceMessagePatcherMetadata], with metadata of the same type. *)
Definition MapReferenceMessagePatcherMetadata (p : ReferenceMessagePatcher) (mapMetadata : LocalReference -> Metadata -> Metadata) :
    ReferenceMessagePatcher :=
  mkPatcher (map_imap (fun reference m => Some (mkMessages (mapMetadata reference (metadata m)) (indices m))) (messagesByReference p)) (height p).

(** ** Messages of objects *)

Section existing.
(** The references of the object that a message is part of, and metadata for them. *)
Context (outgoingReferences : list LocalReference) (createMetadata : Z -> Metadata).

Notation degree := (zlen outgoingReferences).

(** The loop over the indices of a set, which is cut off where it is not valid. *)
Fixpoint addSet (h : heap) (p : ReferenceMessagePatcher) (previousRawIndex : Z) (cs : list nat) :
    list nat * (heap * ReferenceMessagePatcher) :=
  match cs with
  | [] => ([], (h, p))
  | c :: cs =>
      let rawIndex := default 0 (cells h !! c) in
      if (rawIndex <=? previousRawIndex) || (rawIndex >? degree) then ([], (h, p))
      else
        match index outgoingReferences (rawIndex - 1) with
        | Ok reference =>
            let '(h, p) := addIndex h p c reference (createMetadata (rawIndex - 1)) in
            let '(kept, s) := addSet (setCell h c MaxUint32) p rawIndex cs in
            (c :: kept, s)
        | _ => ([], (h, p))
        end
  end.

(** [addReferenceMessagesRecursively] *)
Fixpoint addReferenceMessagesRecursively (m : message) (h : heap) (p : ReferenceMessagePatcher) :
    message * (heap * ReferenceMessagePatcher) :=
  match m with
  | Reference c =>
      let '(h, p) :=
        match GetIndexFromReferenceMessage (cells h !! c) degree with
        | Ok i =>
            match index outgoingReferences i with
            | Ok reference => addIndex h p c reference (createMetadata i)
            | _ => (h, p)
            end
        | _ => (h, p)
        end in
      (Reference c, (setCell h c MaxUint32, p))
  | ReferenceSet cs => let '(kept, s) := addSet h p 0 cs in (ReferenceSet kept, s)
  | Fields fields =>
      let '(fields, s) :=
        (fix go fields h p :=
           match fields with
           | [] => ([], (h, p))
           | m :: fields =>
               let '(m, (h, p)) := addReferenceMessagesRecursively m h p in
               let '(fields, s) := go fields h p in
               (m :: fields, s)
           end) fields h p in
      (Fields fields, s)
  end.

(** [proto.CloneOf]: a copy has cells of its own. *)
Definition cloneCells (h : heap) (cs : list nat) : list nat * heap :=
  foldr (fun c '(copies, h) => let '(c', h) := alloc h (default 0 (cells h !! c)) in (c' :: copies, h)) ([], h) cs.

Fixpoint CloneOf (m : message) (h : heap) : message * heap :=
  match m with
  | Reference c => let '(c, h) := alloc h (default 0 (cells h !! c)) in (Reference c, h)
  | ReferenceSet cs => let '(cs, h) := cloneCells h cs in (ReferenceSet cs, h)
  | Fields fields =>
      let '(fields, h) :=
        (fix go fields h :=
           match fields with
           | [] => ([], h)
           | m :: fields => let '(m, h) := CloneOf m h in let '(fields, h) := go fields h in (m :: fields, h)
           end) fields h in
      (Fields fields, h)
  end.

(** [NewPatchedMessageFromExisting] *)
Definition NewPatchedMessageFromExisting (h : heap) (existing : message) : message * (heap * ReferenceMessagePatcher) :=
  if degree =? 0 then (existing, (h, NewReferenceMessagePatcher))
  else let '(clonedMessage, h) := CloneOf existing h in
       addReferenceMessagesRecursively clonedMessage h NewReferenceMessagePatcher.
End existing.

(** [PatchedMessageList.Merge] *)
Definition MergeList (h : heap) (l : list (message * ReferenceMessagePatcher)) : list message * (heap * ReferenceMessagePatcher) :=
  (l.*1, foldl (fun s entry => Merge s.1 s.2 entry.2) (h, NewReferenceMessagePatcher) l).

(** [NewDecodable]: parameters of at most 16 bytes. *)
Definition NewDecodable {A} (value : A) (decodingParameters : list Z) : outcome (A * list Z) :=
  if zlen decodingParameters >? 16 then Err (StatusError CodeInvalidArgument) else Ok (value, decodingParameters).

(** [MarshalAndEncodeDeterministic].  What a message marshals to depends on the indices
    in it.  If anything fails, the metadata are discarded. *)
Definition MarshalAndEncodeDeterministic (h : heap) (p : ReferenceMessagePatcher)
    (MarshalBinary : gmap nat Z -> outcome (list Z)) (EncodeBinary : list Z -> outcome (list Z * list Z)) :
    heap * outcome ((Contents * list Metadata) * list Z) :=
  let '(h, (references, sortedMetadata)) := SortAndSetReferences h p in
  match
    (data ← MarshalBinary (cells h);
     '(encodedData, decodingParameters) ← EncodeBinary data;
     contents ← NewContents references encodedData;
     Ok (contents, decodingParameters))
  with
  | Ok (contents, decodingParameters) => (h, NewDecodable (contents, sortedMetadata) decodingParameters)
  | Err e => (fst (Discard h p), Err e)
  | Panic => (h, Panic)
  end.

(** [MarshalAndEncodeKeyed]: parameters are provided. *)
Definition MarshalAndEncodeKeyed (h : heap) (p : ReferenceMessagePatcher)
    (MarshalBinary : gmap nat Z -> outcome (list Z)) (EncodeBinary : list Z -> list Z -> outcome (list Z)) (decodingParameters : list Z) :
    heap * outcome (Contents * list Metadata) :=
  let '(h, (references, sortedMetadata)) := SortAndSetReferences h p in
  match
    (data ← MarshalBinary (cells h);
     encodedData ← EncodeBinary data decodingParameters;
     NewContents references encodedData)
  with
  | Ok contents => (h, Ok (contents, sortedMetadata))
  | Err e => (fst (Discard h p), Err e)
  | Panic => (h, Panic)
  end.
End patcher.
Arguments heap : clear implicits.
Arguments referenceMessages : clear implicits.
Arguments ReferenceMessagePatcher : clear implicits.

(** ** Messages that are read

    [message.go] and [top_level_message.go]: messages that do not change any more, whose
    indices are values. *)

(** [OutgoingReferences]: the list of an object, or those that a [ReferenceSet] selects
    of others ([remappingOutgoingReferences]). *)
Inductive OutgoingReferences :=
  | OutgoingReferencesList (references : list LocalReference)
  | remappingOutgoingReferences (indices : list Z) (outer : OutgoingReferences).

Definition GetDegree_ (or : OutgoingReferences) : Z :=
  match or with
  | OutgoingReferencesList references => zlen references
  | remappingOutgoingReferences indices _ => zlen indices
  end.

Fixpoint GetOutgoingReference_ (or : OutgoingReferences) (i : Z) : outcome LocalReference :=
  match or with
  | OutgoingReferencesList references => index references i
  | remappingOutgoingReferences indices outer => rawIndex ← index indices i; GetOutgoingReference_ outer (u32 (rawIndex - 1))
  end.

(** The loop of [remappingOutgoingReferences.DetachOutgoingReferences], over the indices:
    every one of them is used as a position. *)
Fixpoint detachRemapped (or : OutgoingReferences) (indices : list Z) (remaining : list Z) (list_ : list LocalReference) :
    outcome (list LocalReference) :=
  match remaining with
  | [] => Ok list_
  | i :: remaining =>
      rawIndex ← index indices i;
      reference ← GetOutgoingReference_ or (u32 (rawIndex - 1));
      detachRemapped or indices remaining (list_ ++ [reference])
  end.

(** The list starts with as many zero references as there are indices. *)
Definition DetachOutgoingReferences_ (or : OutgoingReferences) : outcome OutgoingReferences :=
  match or with
  | OutgoingReferencesList references => Ok or
  | remappingOutgoingReferences indices outer =>
      list_ ← detachRemapped outer indices indices (replicate (length indices) (mkLocalReference []));
      Ok (OutgoingReferencesList list_)
  end.

(** [FlattenReference] *)
Definition FlattenReference (m : option Z) (or : OutgoingReferences) : outcome LocalReference :=
  i ← GetIndexFromReferenceMessage m (GetDegree_ or);
  GetOutgoingReference_ or i.

(** [FlattenDecodableReference], of a reference with parameters. *)
Definition FlattenDecodableReference (m : option (option Z * list Z)) (or : OutgoingReferences) : outcome (LocalReference * list Z) :=
  match m with
  | None => Err (StatusError CodeInvalidArgument)
  | Some (reference, decodingParameters) => r ← FlattenReference reference or; NewDecodable r decodingParameters
  end.

Fixpoint strictlySorted (indices : list Z) : bool :=
  match indices with
  | a :: (b :: _) as rest => negb (a >=? b) && strictlySorted rest
  | _ => true
  end.

(** [FlattenReferenceSet] *)
Definition FlattenReferenceSet (m : option (list Z)) (or : OutgoingReferences) : outcome OutgoingReferences :=
  match m with
  | None => Err (StatusError CodeInvalidArgument)
  | Some [] => Ok (OutgoingReferencesList [])
  | Some ((firstIndex :: _) as indices) =>
      if negb (strictlySorted indices) then Err (StatusError CodeInvalidArgument)
      else
        match last indices with
        | Some lastIndex =>
            if (firstIndex <=? 0) || (lastIndex >? GetDegree_ or) then Err (StatusError CodeInvalidArgument)
            else Ok (remappingOutgoingReferences indices or)
        | None => Panic
        end
  end.

Section topLevel.
(** Protobuf messages, with deterministic encoding, parsing, and [proto.Equal]. *)
Context {Message : Type}.
Context (Marshal : Message -> outcome (list Z)) (Unmarshal : list Z -> outcome Message) (Equal : Message -> Message -> bool).

(** [MarshalTopLevelMessage] *)
Definition MarshalTopLevelMessage (m : Message) (references : list LocalReference) : outcome (list Z) :=
  data ← Marshal m;
  Ok (AppendForward [] (zlen references) ++ concat (map rawReference references) ++ data).

(** The loop over references in [UnmarshalTopLevelMessage]. *)
Fixpoint unmarshalReferences (n : nat) (i : Z) (data : list Z) : outcome (list LocalReference) :=
  match n with
  | O => Ok []
  | S n =>
      tail ← slice_from data (i * SHA256V1ReferenceSizeBytes);
      raw ← slice tail 0 SHA256V1ReferenceSizeBytes;
      localReference ← NewLocalReference raw;
      rest ← unmarshalReferences n (i + 1) data;
      Ok (localReference :: rest)
  end.

(** [UnmarshalTopLevelMessage] *)
Definition UnmarshalTopLevelMessage (data : list Z) : outcome (Message * list LocalReference) :=
  '(degree, n) ← ConsumeForward Uint64 data;
  if n <? 0 then Err (StatusError CodeInvalidArgument)
  else
    data ← slice_from data n;
    let maximumDegree := Z.quot (zlen data) SHA256V1ReferenceSizeBytes in
    if degree >? maximumDegree then Err (StatusError CodeInvalidArgument)
    else
      references ← unmarshalReferences (Z.to_nat degree) 0 data;
      rest ← slice_from data (degree * SHA256V1ReferenceSizeBytes);
      m ← Unmarshal rest;
      Ok (m, references).

(** [TopLevelMessagesEqual] *)
Definition TopLevelMessagesEqual (m1 : Message) (references1 : list LocalReference) (m2 : Message) (references2 : list LocalReference) : bool :=
  (zlen references1 =? zlen references2) &&
  forallb (fun '(r1, r2) => bool_decide (r1 = r2)) (zip references1 references2) && Equal m1 m2.
End topLevel.

(** [PatchedMessagesEqual]: sizes are compared first, before indices are set.  What
    [proto.Equal] and [Size] see of a message are the values of its cells. *)
Section equal.
Context {Metadata : Type} (Size : messageOf Z -> Z) (Equal : messageOf Z -> messageOf Z -> bool).

Definition PatchedMessagesEqual (h : heap Metadata) (m1 : message) (p1 : ReferenceMessagePatcher Metadata)
    (m2 : message) (p2 : ReferenceMessagePatcher Metadata) : heap Metadata * bool :=
  if negb (Size (view h m1) =? Size (view h m2)) then (h, false)
  else
    let '(h, (references1, _)) := SortAndSetReferences h p1 in
    let '(h, (references2, _)) := SortAndSetReferences h p2 in
    (h, TopLevelMessagesEqual Equal (view h m1) references1 (view h m2) references2).
End equal.
