(* ===== verification/PatcherProofs.v ===== *)
(** * Patchers keep what messages refer to

    The invariant of patchers, and what their operations do to the indices that they
    manage.  [refersTo] relates a message in memory to what it stands for while it is
    built, [denote] a message of an object whose list of references is known. *)

From stdpp Require Import sorting.
From S2P Require Import Prelude Varint References Messages.

Section proofs.
Context {Metadata : Type}.
Notation patcher := (ReferenceMessagePatcher Metadata).
Notation heap := (heap Metadata).

(** ** The invariant *)

Definition managed (p : patcher) (c : nat) (r : LocalReference) : Prop :=
  exists m, messagesByReference p !! r = Some m /\ c ∈ indices m.

Record patcher_ok (h : heap) (p : patcher) : Prop := {
  patcher_cells c r : managed p c r -> (c < nextCell h)%nat;
  patcher_unique c r r' : managed p c r -> managed p c r' -> r = r';
  patcher_valid r : is_Some (messagesByReference p !! r) -> valid_reference r;
  patcher_height r : is_Some (messagesByReference p !! r) -> GetHeight r + 1 <= height p;
  patcher_highest : (messagesByReference p = ∅ /\ height p = 0) \/
    exists r, is_Some (messagesByReference p !! r) /\ height p = GetHeight r + 1;
}.

(** Metadata that are kept, or were discarded. *)
Definition metadatas (m : gmap LocalReference (referenceMessages Metadata)) : list Metadata := (fun e => metadata e.2) <$> map_to_list m.
Definition resources (h : heap) (p : patcher) : list Metadata := discarded h ++ metadatas (messagesByReference p).

Lemma metadatas_insert m r x : m !! r = None -> metadatas (<[r := x]> m) ≡ₚ metadata x :: metadatas m.
Proof. intros Hr. unfold metadatas. by rewrite (map_to_list_insert m r x Hr). Qed.

Lemma metadatas_update m r x y : m !! r = Some x -> metadata y = metadata x -> metadatas (<[r := y]> m) ≡ₚ metadatas m.
Proof.
  intros Hr Hy. rewrite <- (insert_delete_id m r x Hr) at 2. rewrite <- insert_delete_eq.
  rewrite !metadatas_insert by apply lookup_delete_eq. by rewrite Hy.
Qed.

Lemma metadatas_empty : metadatas ∅ = [].
Proof. unfold metadatas. by rewrite map_to_list_empty. Qed.

Lemma managed_insert m k r x h c :
  managed (mkPatcher (<[r := x]> m) k) c h <-> (h = r /\ c ∈ indices x) \/ (h <> r /\ managed (mkPatcher m k) c h).
Proof.
  unfold managed. cbn [messagesByReference]. destruct (decide (h = r)) as [->|Hne].
  - rewrite lookup_insert_eq. naive_solver.
  - rewrite lookup_insert_ne by done. naive_solver.
Qed.

Lemma managed_height m k k' c r : managed (mkPatcher m k) c r <-> managed (mkPatcher m k') c r.
Proof. done. Qed.

Lemma maybeIncreaseHeight_eq (p : patcher) k : maybeIncreaseHeight p k = mkPatcher (messagesByReference p) (Z.max (height p) k).
Proof.
  unfold maybeIncreaseHeight. destruct (Z.ltb_spec (height p) k).
  - by rewrite Z.max_r by lia.
  - rewrite Z.max_l by lia. by destruct p.
Qed.

Lemma managed_new c r : ~ managed NewReferenceMessagePatcher c r.
Proof. intros (e & He & _). unfold NewReferenceMessagePatcher in He. cbn [messagesByReference] in He. by rewrite lookup_empty in He. Qed.

Lemma NewReferenceMessagePatcher_ok h : patcher_ok h NewReferenceMessagePatcher.
Proof.
  assert (forall r, messagesByReference (NewReferenceMessagePatcher : patcher) !! r = None) as Hn by (intros; apply lookup_empty).
  split.
  - intros c r (m & Hm & _). by rewrite Hn in Hm.
  - intros c r r' (m & Hm & _). by rewrite Hn in Hm.
  - intros r [m Hm]. by rewrite Hn in Hm.
  - intros r [m Hm]. by rewrite Hn in Hm.
  - by left.
Qed.

Lemma patcher_height_nonneg h p : patcher_ok h p -> 0 <= height p.
Proof.
  intros Hp. destruct (patcher_highest _ _ Hp) as [[_ ->]|(r & Hr & ->)]; [lia|].
  pose proof (patcher_valid _ _ Hp r Hr) as [Hok _]. pose proof (fields_range r Hok) as (_ & _ & Hh & _). lia.
Qed.

(** A heap with other contents, but the same or more cells. *)
Lemma patcher_ok_heap h h' p : (nextCell h <= nextCell h')%nat -> patcher_ok h p -> patcher_ok h' p.
Proof.
  intros Hn [H1 H2 H3 H4 H5]. split; auto. intros c r Hm. specialize (H1 c r Hm). lia.
Qed.

(** ** Adding an index *)

Lemma addIndex_ok h p c r m h' p' :
  patcher_ok h p -> valid_reference r -> (c < nextCell h)%nat -> (forall r', ~ managed p c r') ->
  addIndex h p c r m = (h', p') ->
  patcher_ok h' p' /\ cells h' = cells h /\ nextCell h' = nextCell h /\
  (forall c' r', managed p' c' r' <-> managed p c' r' \/ (c' = c /\ r' = r)) /\
  resources h' p' ≡ₚ m :: resources h p.
Proof.
  intros Hp Hr Hc Hun. unfold addIndex. pose proof (patcher_height_nonneg h p Hp) as Hnn.
  pose proof (fields_range r (proj1 Hr)) as (_ & _ & Hh & _).
  destruct (messagesByReference p !! r) as [e|] eqn:E; intros [= <- <-].
  - assert (forall c' r', managed (mkPatcher (<[r := mkMessages (metadata e) (indices e ++ [c])]> (messagesByReference p)) (height p)) c' r' <->
      managed p c' r' \/ (c' = c /\ r' = r)) as Hm.
    { intros c' r'. rewrite managed_insert. cbn [indices]. rewrite elem_of_app, list_elem_of_singleton.
      unfold managed. cbn [messagesByReference]. destruct (decide (r' = r)) as [->|]; [rewrite E|]; naive_solver. }
    split_and!; [|done|done|done|].
    + split; cbn [messagesByReference height nextCell discardMetadata].
      * intros c' r' [Hm'|[-> ->]]%Hm; [by eapply patcher_cells|done].
      * intros c' r1 r2 H1%Hm H2%Hm. destruct H1 as [H1|[-> ->]], H2 as [H2|[? ->]]; subst; try done; [by eapply patcher_unique|..]; by destruct (Hun _ ltac:(eassumption)).
      * intros r'. destruct (decide (r' = r)) as [->|]; [done|]. rewrite lookup_insert_ne by done. apply (patcher_valid _ _ Hp).
      * intros r'. destruct (decide (r' = r)) as [->|]; [intros _; apply (patcher_height _ _ Hp); by rewrite E|].
        rewrite lookup_insert_ne by done. apply (patcher_height _ _ Hp).
      * right. destruct (patcher_highest _ _ Hp) as [[H0 _]|(r' & Hr' & Hh')]; [by rewrite H0, lookup_empty in E|].
        exists r'. split; [|done]. destruct (decide (r' = r)) as [->|]; [by rewrite lookup_insert_eq|by rewrite lookup_insert_ne].
    + unfold resources. cbn [discarded discardMetadata messagesByReference].
      rewrite (metadatas_update _ r e) by done. rewrite <- app_assoc. simpl. by rewrite Permutation_middle.
  - rewrite maybeIncreaseHeight_eq. cbn [messagesByReference height].
    assert (forall c' r', managed (mkPatcher (<[r := mkMessages m [c]]> (messagesByReference p)) (Z.max (height p) (GetHeight r + 1))) c' r' <->
      managed p c' r' \/ (c' = c /\ r' = r)) as Hm.
    { intros c' r'. rewrite managed_insert. cbn [indices]. rewrite list_elem_of_singleton.
      unfold managed. cbn [messagesByReference]. destruct (decide (r' = r)) as [->|]; [rewrite E|]; naive_solver. }
    split_and!; [|done|done|done|].
    + split; cbn [messagesByReference height].
      * intros c' r' [Hm'|[-> ->]]%Hm; [by eapply patcher_cells|done].
      * intros c' r1 r2 H1%Hm H2%Hm. destruct H1 as [H1|[-> ->]], H2 as [H2|[? ->]]; subst; try done; [by eapply patcher_unique|..]; by destruct (Hun _ ltac:(eassumption)).
      * intros r'. destruct (decide (r' = r)) as [->|]; [done|]. rewrite lookup_insert_ne by done. apply (patcher_valid _ _ Hp).
      * intros r'. destruct (decide (r' = r)) as [->|]; [lia|]. rewrite lookup_insert_ne by done.
        intros Hs. pose proof (patcher_height _ _ Hp r' Hs). lia.
      * right. destruct (Z.max_spec (height p) (GetHeight r + 1)) as [[_ ->]|[Hle ->]].
        { exists r. by rewrite lookup_insert_eq. }
        destruct (patcher_highest _ _ Hp) as [[_ H0]|(r' & Hr' & Hh')]; [lia|].
        exists r'. split; [|done]. destruct (decide (r' = r)) as [->|]; [by rewrite lookup_insert_eq|by rewrite lookup_insert_ne].
    + unfold resources. cbn [messagesByReference]. rewrite metadatas_insert by done. cbn [metadata].
      by rewrite Permutation_middle.
Qed.

(** ** Merging *)

Notation managedIn m c r := (managed (mkPatcher m 0) c r).

(** The loop of [Merge], over any list of references with what belongs to them. *)
Lemma mergeLoop_ok (l : list (LocalReference * referenceMessages Metadata)) h m h' m' :
  foldl mergeStep (h, m) l = (h', m') ->
  cells h' = cells h /\ nextCell h' = nextCell h /\
  (forall c r, managedIn m' c r <-> managedIn m c r \/ exists e, (r, e) ∈ l /\ c ∈ indices e) /\
  (forall r, is_Some (m' !! r) <-> is_Some (m !! r) \/ r ∈ l.*1) /\
  discarded h' ++ metadatas m' ≡ₚ discarded h ++ metadatas m ++ ((fun e => metadata e.2) <$> l).
Proof.
  revert h m. induction l as [|[r e] l IH]; intros h m.
  { intros [= <- <-]. split_and!; [done|done| | |by rewrite app_nil_r].
    - intros c r. split; [by left|]. intros [|(e & He & _)]; [done|by apply not_elem_of_nil in He].
    - intros r. split; [by left|]. intros [|Hr]; [done|by apply not_elem_of_nil in Hr]. }
  cbn [foldl mergeStep]. set (s := match m !! r with Some _ => _ | None => _ end). destruct s as [h1 m1] eqn:Es. intros Hl.
  destruct (IH h1 m1 Hl) as (Hc & Hn & Hman & Hdom & Hres).
  assert (cells h1 = cells h /\ nextCell h1 = nextCell h /\
    (forall c r', managedIn m1 c r' <-> managedIn m c r' \/ (r' = r /\ c ∈ indices e)) /\
    (forall r', is_Some (m1 !! r') <-> is_Some (m !! r') \/ r' = r) /\
    discarded h1 ++ metadatas m1 ≡ₚ metadata e :: discarded h ++ metadatas m) as (Hc1 & Hn1 & Hman1 & Hdom1 & Hres1).
  { subst s. destruct (m !! r) as [x|] eqn:E; injection Es as <- <-; (split_and!; [done|done| | |]).
    - intros c r'. rewrite managed_insert. cbn [indices]. rewrite elem_of_app. unfold managed. cbn [messagesByReference].
      destruct (decide (r' = r)) as [->|]; [rewrite E|]; naive_solver.
    - intros r'. destruct (decide (r' = r)) as [->|]; [rewrite lookup_insert_eq|rewrite lookup_insert_ne by done]; naive_solver.
    - cbn [discarded discardMetadata]. rewrite (metadatas_update _ r x) by done. rewrite <- app_assoc. simpl. by rewrite Permutation_middle.
    - intros c r'. rewrite managed_insert. unfold managed. cbn [messagesByReference].
      destruct (decide (r' = r)) as [->|]; [rewrite E|]; naive_solver.
    - intros r'. destruct (decide (r' = r)) as [->|]; [rewrite lookup_insert_eq|rewrite lookup_insert_ne by done]; naive_solver.
    - rewrite metadatas_insert by done. by rewrite Permutation_middle. }
  split_and!; [congruence|congruence| | |].
  - intros c r'. rewrite Hman, Hman1. setoid_rewrite elem_of_cons. naive_solver.
  - intros r'. rewrite Hdom, Hdom1. rewrite fmap_cons, elem_of_cons. simpl. naive_solver.
  - rewrite Hres, app_assoc, Hres1. simpl. rewrite <- !app_assoc. by rewrite !(Permutation_middle (discarded h)), (Permutation_middle (metadatas m)).
Qed.

Definition disjoint_patchers (p q : patcher) : Prop := forall c r r', managed p c r -> managed q c r' -> False.

Lemma metadatas_list m : metadatas m = (fun e => metadata e.2) <$> map_to_list m.
Proof. done. Qed.

(** Patchers that share no cells can be merged. *)
Lemma Merge_ok h p q h' p' :
  patcher_ok h p -> patcher_ok h q -> disjoint_patchers p q -> Merge h p q = (h', p') ->
  patcher_ok h' p' /\ cells h' = cells h /\ nextCell h' = nextCell h /\
  (forall c r, managed p' c r <-> managed p c r \/ managed q c r) /\
  height p' = Z.max (height p) (height q) /\
  resources h' p' ≡ₚ discarded h ++ metadatas (messagesByReference p) ++ metadatas (messagesByReference q).
Proof.
  intros Hp Hq Hdis. unfold Merge.
  destruct (if (_ <? _)%nat then _ else _) as [larger smaller] eqn:Hswap.
  assert ((larger = messagesByReference p /\ smaller = messagesByReference q) \/
    (larger = messagesByReference q /\ smaller = messagesByReference p)) as Hls by (destruct (_ <? _)%nat; injection Hswap as <- <-; auto).
  clear Hswap. destruct (foldl mergeStep (h, larger) (map_to_list smaller)) as [h1 m1] eqn:Hl. intros [= <- <-].
  destruct (mergeLoop_ok _ _ _ _ _ Hl) as (Hc & Hn & Hman & Hdom & Hres).
  rewrite maybeIncreaseHeight_eq. cbn [messagesByReference height].
  assert (forall c r, managedIn m1 c r <-> managed p c r \/ managed q c r) as Hm.
  { intros c r. rewrite Hman. setoid_rewrite elem_of_map_to_list. unfold managed. cbn [messagesByReference].
    destruct Hls as [[-> ->]|[-> ->]]; naive_solver. }
  assert (forall r, is_Some (m1 !! r) <-> is_Some (messagesByReference p !! r) \/ is_Some (messagesByReference q !! r)) as Hd.
  { intros r. rewrite Hdom, list_elem_of_fmap.
    assert ((exists y : LocalReference * referenceMessages Metadata, r = y.1 /\ y ∈ map_to_list smaller) <-> is_Some (smaller !! r)) as ->.
    { split; [intros ([r' e] & -> & He%elem_of_map_to_list); by exists e|intros [e He]; exists (r, e); by rewrite elem_of_map_to_list]. }
    destruct Hls as [[-> ->]|[-> ->]]; naive_solver. }
  split_and!; [|done|done|done|done|].
  - split; cbn [messagesByReference height].
    + intros c r Hcr. rewrite Hn. apply Hm in Hcr as [H|H]; [exact (patcher_cells _ _ Hp c r H)|exact (patcher_cells _ _ Hq c r H)].
    + intros c r r' H1 H2. apply Hm in H1 as [H1|H1], H2 as [H2|H2].
      * exact (patcher_unique _ _ Hp c r r' H1 H2).
      * destruct (Hdis c r r' H1 H2).
      * destruct (Hdis c r' r H2 H1).
      * exact (patcher_unique _ _ Hq c r r' H1 H2).
    + intros r Hr. apply Hd in Hr as [H|H]; [exact (patcher_valid _ _ Hp r H)|exact (patcher_valid _ _ Hq r H)].
    + intros r [H|H]%Hd; [pose proof (patcher_height _ _ Hp r H)|pose proof (patcher_height _ _ Hq r H)]; lia.
    + pose proof (patcher_height_nonneg _ _ Hp). pose proof (patcher_height_nonneg _ _ Hq).
      destruct (patcher_highest _ _ Hp) as [[E1 H1]|(r1 & E1 & H1)], (patcher_highest _ _ Hq) as [[E2 H2]|(r2 & E2 & H2)].
      * left. split; [|lia]. apply map_empty. intros r. apply eq_None_not_Some. intros Hr%Hd. rewrite E1, E2, lookup_empty in Hr.
        destruct Hr as [[? [=]]|[? [=]]].
      * right. exists r2. split; [apply Hd; by right|lia].
      * right. exists r1. split; [apply Hd; by left|lia].
      * right. destruct (Z.max_spec (height p) (height q)) as [[_ ->]|[_ ->]]; [exists r2|exists r1]; (split; [apply Hd; auto|done]).
  - unfold resources. cbn [messagesByReference]. rewrite Hres. f_equiv. rewrite <- metadatas_list.
    destruct Hls as [[-> ->]|[-> ->]]; [done|apply Permutation_app_comm].
Qed.

(** ** Sorting *)

Definition referenceLt (a b : LocalReference) : Prop := bytes_compare (rawReference a) (rawReference b) < 0.

(** Lists of references of objects: in order, without duplicates. *)
Definition inOrder (l : list LocalReference) : Prop :=
  forall i j a b, (i < j)%nat -> l !! i = Some a -> l !! j = Some b -> referenceLt a b.

#[local] Instance referenceLe_trans : Transitive referenceLe.
Proof. intros a b c. apply bytes_compare_le_trans. Qed.
#[local] Instance referenceLe_total : Total referenceLe.
Proof. intros a b. unfold referenceLe. pose proof (bytes_compare_antisym (rawReference a) (rawReference b)). lia. Qed.

Lemma rawReference_inj a b : rawReference a = rawReference b -> a = b.
Proof. destruct a, b. simpl. by intros ->. Qed.

Lemma sorted_inOrder l : StronglySorted referenceLe l -> NoDup l -> inOrder l.
Proof.
  induction 1 as [|x l Hs IH Hx]; intros Hnd i j a b Hij Ha Hb; [done|].
  apply NoDup_cons in Hnd as [Hn Hnd]. destruct j as [|j]; [lia|]. simpl in Hb. destruct i as [|i]; simpl in Ha.
  - injection Ha as ->. rewrite Forall_forall in Hx. pose proof (list_elem_of_lookup_2 _ _ _ Hb) as Hin.
    pose proof (Hx b Hin) as Hle. unfold referenceLe in Hle. unfold referenceLt.
    destruct (Z.eq_dec (bytes_compare (rawReference a) (rawReference b)) 0) as [E|]; [|lia].
    apply bytes_compare_eq, rawReference_inj in E as ->. done.
  - apply (IH Hnd i j); [lia|done|done].
Qed.

Lemma inOrder_position l i j a b : inOrder l -> l !! i = Some a -> l !! j = Some b -> referenceLt a b -> (i < j)%nat.
Proof.
  intros Hl Ha Hb Hlt. destruct (decide (i < j)%nat) as [|Hn]; [done|]. unfold referenceLt in Hlt.
  destruct (decide (i = j)) as [->|]; [assert (a = b) as -> by congruence; rewrite bytes_compare_refl in Hlt; lia|].
  pose proof (Hl j i b a ltac:(lia) Hb Ha) as H. unfold referenceLt in H.
  pose proof (bytes_compare_antisym (rawReference a) (rawReference b)). lia.
Qed.

Lemma sortedReferences_dom (p : patcher) r : r ∈ sortedReferences p <-> is_Some (messagesByReference p !! r).
Proof.
  unfold sortedReferences. rewrite merge_sort_Permutation, list_elem_of_fmap. split.
  - intros ([r' e] & -> & He%elem_of_map_to_list). by exists e.
  - intros [e He]. exists (r, e). by rewrite elem_of_map_to_list.
Qed.

Lemma sortedReferences_nodup (p : patcher) : NoDup (sortedReferences p).
Proof. unfold sortedReferences. rewrite merge_sort_Permutation. apply NoDup_fst_map_to_list. Qed.

Lemma sortedReferences_inOrder (p : patcher) : inOrder (sortedReferences p).
Proof. apply sorted_inOrder; [apply (StronglySorted_merge_sort _)|apply sortedReferences_nodup]. Qed.

Lemma sortedReferences_length (p : patcher) : length (sortedReferences p) = size (messagesByReference p).
Proof. unfold sortedReferences. by rewrite merge_sort_Permutation, length_fmap, length_map_to_list. Qed.

Lemma setIndices_ok (h : heap) i cs :
  nextCell (setIndices h i cs) = nextCell h /\ discarded (setIndices h i cs) = discarded h /\
  forall c, cells (setIndices h i cs) !! c = if decide (c ∈ cs) then Some (u32 (i + 1)) else cells h !! c.
Proof.
  unfold setIndices. revert h. induction cs as [|c cs IH]; intros h; [done|]. cbn [foldl].
  destruct (IH (setCell h c (u32 (i + 1)))) as (-> & -> & Hc). split_and!; [done|done|]. intros c'. rewrite Hc. cbn [cells setCell].
  destruct (decide (c' ∈ cs)) as [Hin|Hin].
  - by rewrite decide_True by (by right).
  - destruct (decide (c' = c)) as [->|Hne].
    + rewrite lookup_insert_eq. by rewrite decide_True by (by left).
    + rewrite lookup_insert_ne by done. rewrite decide_False; [done|]. by intros [?|?]%elem_of_cons.
Qed.

(** Indices are set to the positions of their references. *)
Lemma setAllIndices_ok p references : (forall c r r', managed p c r -> managed p c r' -> r = r') -> NoDup references ->
  forall (h : heap) k, let h' := setAllIndices h p k references in
  nextCell h' = nextCell h /\ discarded h' = discarded h /\
  (forall i r c, references !! i = Some r -> managed p c r -> cells h' !! c = Some (u32 (k + Z.of_nat i + 1))) /\
  (forall c, (forall r, r ∈ references -> ~ managed p c r) -> cells h' !! c = cells h !! c).
Proof.
  intros Hun. induction references as [|r references IH]; intros Hnd h k; [done|]. apply NoDup_cons in Hnd as [Hr Hnd].
  cbn [setAllIndices]. set (h1 := match _ with Some _ => _ | None => _ end).
  assert (nextCell h1 = nextCell h /\ discarded h1 = discarded h /\
    (forall c, managed p c r -> cells h1 !! c = Some (u32 (k + 1))) /\
    (forall c, ~ managed p c r -> cells h1 !! c = cells h !! c)) as (Hn1 & Hd1 & Hs1 & Hu1).
  { subst h1. unfold managed. destruct (messagesByReference p !! r) as [e|]; [|split_and!; [done|done|naive_solver|done]].
    destruct (setIndices_ok h k (indices e)) as (Hn & Hd & Hc). split_and!; [done|done| |].
    - intros c (e' & [= <-] & Hin). by rewrite Hc, decide_True.
    - intros c Hnm. rewrite Hc, decide_False; [done|]. naive_solver. }
  destruct (IH Hnd h1 (k + 1)) as (Hn & Hd & Hset & Hkeep). split_and!; [congruence|congruence| |].
  - intros [|i] r' c Hi Hm; simpl in Hi.
    + injection Hi as ->. rewrite Hkeep.
      * rewrite Hs1 by done. do 2 f_equal. lia.
      * intros r Hin Hm'. by rewrite (Hun c r' r Hm Hm') in Hr.
    + rewrite (Hset i r' c Hi Hm). do 2 f_equal. lia.
  - intros c Hc. rewrite Hkeep by (intros r' Hr'; apply Hc; by right). apply Hu1, Hc. by left.
Qed.

Lemma SortAndSetReferences_ok h p h' refs metas : patcher_ok h p -> SortAndSetReferences h p = (h', (refs, metas)) ->
  refs = sortedReferences p /\ inOrder refs /\ (forall r, r ∈ refs <-> is_Some (messagesByReference p !! r)) /\
  nextCell h' = nextCell h /\ discarded h' = discarded h /\
  (forall i r c, refs !! i = Some r -> managed p c r -> cells h' !! c = Some (u32 (Z.of_nat i + 1))) /\
  (forall c, (forall r, ~ managed p c r) -> cells h' !! c = cells h !! c).
Proof.
  intros Hp. unfold SortAndSetReferences. intros [= <- <- <-].
  destruct (setAllIndices_ok p (sortedReferences p) (patcher_unique _ _ Hp) (sortedReferences_nodup p) h 0) as (Hn & Hd & Hs & Hk).
  split_and!; auto using sortedReferences_inOrder, sortedReferences_dom. 
Qed.

(** ** What messages stand for *)

(** Of an index, the reference. *)
Definition resolve (refs : list LocalReference) (v : Z) : option LocalReference :=
  if (v <=? 0) || (v >? zlen refs) then None else refs !! Z.to_nat (v - 1).

(** Of a set, the references up to where it is not valid. *)
Fixpoint resolveSet (refs : list LocalReference) (previous : Z) (vs : list Z) : list (option LocalReference) :=
  match vs with
  | [] => []
  | v :: vs => if (v <=? previous) || (v >? zlen refs) then [] else refs !! Z.to_nat (v - 1) :: resolveSet refs v vs
  end.

(** What a message with its indices stands for, in an object that has the references. *)
Fixpoint denote (refs : list LocalReference) (m : messageOf Z) : messageOf (option LocalReference) :=
  match m with
  | Reference v => Reference (resolve refs v)
  | ReferenceSet vs => ReferenceSet (resolveSet refs 0 vs)
  | Fields fields => Fields (map (denote refs) fields)
  end.

Fixpoint messageCells (m : message) : list nat :=
  match m with
  | Reference c => [c]
  | ReferenceSet cs => cs
  | Fields fields => flat_map messageCells fields
  end.

(** What a message stands for while it is built: its indices are managed, or are not
    valid and stay so. *)
Definition cellRefersTo (p : patcher) (h : heap) (c : nat) (o : option LocalReference) : Prop :=
  match o with
  | Some r => managed p c r
  | None => (forall r, ~ managed p c r) /\ cells h !! c = Some MaxUint32
  end.

Definition setRefersTo (p : patcher) (cs : list nat) (os : list (option LocalReference)) : Prop :=
  exists rs, os = map Some rs /\ Forall2 (managed p) cs rs /\ inOrder rs.

Inductive refersTo (p : patcher) (h : heap) : message -> messageOf (option LocalReference) -> Prop :=
  | refersTo_reference c o : cellRefersTo p h c o -> refersTo p h (Reference c) (Reference o)
  | refersTo_set cs os : setRefersTo p cs os -> refersTo p h (ReferenceSet cs) (ReferenceSet os)
  | refersTo_fields fields ds : Forall2 (refersTo p h) fields ds -> refersTo p h (Fields fields) (Fields ds).

(** Induction over messages, and their fields. *)
Lemma message_ind' {A} (P : messageOf A -> Prop) :
  (forall c, P (Reference c)) -> (forall cs, P (ReferenceSet cs)) -> (forall fields, Forall P fields -> P (Fields fields)) ->
  forall m, P m.
Proof.
  intros HR HS HF. fix IH 1. intros [c|cs|fields]; [apply HR|apply HS|apply HF].
  induction fields; constructor; auto.
Qed.

Lemma refersTo_ind' p h (P : message -> messageOf (option LocalReference) -> Prop) :
  (forall c o, cellRefersTo p h c o -> P (Reference c) (Reference o)) ->
  (forall cs os, setRefersTo p cs os -> P (ReferenceSet cs) (ReferenceSet os)) ->
  (forall fields ds, Forall2 (refersTo p h) fields ds -> Forall2 P fields ds -> P (Fields fields) (Fields ds)) ->
  forall m d, refersTo p h m d -> P m d.
Proof.
  intros HR HS HF. fix IH 3. intros m d [c o Hc|cs os Hs|fields ds Hf]; [by apply HR|by apply HS|apply HF; [done|]].
  induction Hf; constructor; auto.
Qed.

(** ** Indices that are set *)

Lemma position_unique l i j (r : LocalReference) : inOrder l -> l !! i = Some r -> l !! j = Some r -> i = j.
Proof.
  intros Hl Hi Hj. destruct (lt_eq_lt_dec i j) as [[H|H]|H]; [|done|].
  - pose proof (Hl i j r r H Hi Hj) as Hlt. unfold referenceLt in Hlt. rewrite bytes_compare_refl in Hlt. lia.
  - pose proof (Hl j i r r H Hj Hi) as Hlt. unfold referenceLt in Hlt. rewrite bytes_compare_refl in Hlt. lia.
Qed.

Lemma inOrder_tail r l : inOrder (r :: l) -> inOrder l /\ forall b, b ∈ l -> referenceLt r b.
Proof.
  intros H. split.
  - intros i j a b Hij Ha Hb. apply (H (S i) (S j)); [lia|done|done].
  - intros b [j Hj]%list_elem_of_lookup_1. apply (H O (S j)); [lia|done|done].
Qed.

Lemma resolveSet_positions refs rs previous (positions : list nat) :
  inOrder refs -> inOrder rs -> Forall2 (fun i r => refs !! i = Some r) positions rs ->
  (forall i r, positions !! 0%nat = Some i -> rs !! 0%nat = Some r -> previous <= Z.of_nat i) ->
  resolveSet refs previous (map (fun i => Z.of_nat i + 1) positions) = map Some rs.
Proof.
  intros Hrefs Hrs Hf. revert previous. induction Hf as [|i r positions rs Hi Hf IH]; intros previous Hp; [done|]. simpl.
  pose proof (lookup_lt_Some _ _ _ Hi). specialize (Hp i r eq_refl eq_refl).
  apply inOrder_tail in Hrs as [Hrs Hfirst].
  rewrite (proj2 (Z.leb_gt _ _)) by lia. rewrite Z.gtb_ltb, (proj2 (Z.ltb_ge _ _)) by (unfold zlen; lia). simpl.
  replace (Z.to_nat (Z.of_nat i + 1 - 1)) with i by lia. rewrite Hi. f_equal. apply IH; [done|].
  intros j r' Hj Hr'. pose proof (Hfirst r' (list_elem_of_lookup_2 _ _ _ Hr')) as Hlt.
  assert (refs !! j = Some r') as Hj' by (eapply (Forall2_lookup_lr _ _ _ _ _ _ Hf); eauto).
  pose proof (inOrder_position refs i j r r' Hrefs Hi Hj' Hlt). lia.
Qed.

(** Messages that were built stand for what they referred to. *)
Lemma refersTo_sorted h p h' refs metas m d :
  patcher_ok h p -> SortAndSetReferences h p = (h', (refs, metas)) -> zlen refs < MaxUint32 ->
  refersTo p h m d -> denote refs (view h' m) = d.
Proof.
  intros Hp Hsort Hlen. destruct (SortAndSetReferences_ok h p h' refs metas Hp Hsort) as (_ & Hord & Hdom & _ & _ & Hset & Hkeep).
  assert (forall c r, managed p c r -> exists i, refs !! i = Some r /\ value h' c = Z.of_nat i + 1) as Hpos.
  { intros c r Hm. assert (r ∈ refs) as [i Hi]%list_elem_of_lookup_1 by (apply Hdom; destruct Hm as (e & He & _); by exists e).
    exists i. split; [done|]. unfold value. rewrite (Hset i r c Hi Hm). simpl. unfold u32. apply Z.mod_small.
    apply lookup_lt_Some in Hi. unfold zlen, MaxUint32 in *. lia. }
  revert m d. apply refersTo_ind'.
  - intros c [r|] Hc; simpl in Hc |- *.
    + destruct (Hpos c r Hc) as (i & Hi & ->). unfold resolve. pose proof (lookup_lt_Some _ _ _ Hi).
      rewrite (proj2 (Z.leb_gt _ _)) by lia. rewrite Z.gtb_ltb, (proj2 (Z.ltb_ge _ _)) by (unfold zlen; lia). simpl.
      by replace (Z.to_nat (Z.of_nat i + 1 - 1)) with i by lia; rewrite Hi.
    + destruct Hc as [Hun Hmax]. unfold value. rewrite Hkeep, Hmax by done. simpl. unfold resolve.
      rewrite Z.gtb_ltb, (proj2 (Z.ltb_lt _ _)) by done. by rewrite orb_true_r.
  - intros cs os (rs & -> & Hf & Hrs). simpl. f_equal.
    assert (exists positions, map (value h') cs = map (fun i => Z.of_nat i + 1) positions /\
      Forall2 (fun i r => refs !! i = Some r) positions rs) as (positions & -> & Hpositions).
    { clear Hrs. induction Hf as [|c r cs rs Hc _ (positions & IH1 & IH2)]; [by exists []|].
      destruct (Hpos c r Hc) as (i & Hi & Hv). exists (i :: positions). simpl. rewrite Hv, IH1. split; [done|by constructor]. }
    apply resolveSet_positions; auto. intros; lia.
  - intros fields ds _ Hf. simpl. f_equal. induction Hf as [|m d fields ds Hm _ IH]; [done|]. simpl. by rewrite Hm, IH.
Qed.

(** A patcher that manages more, but no other cells of the message. *)
Lemma refersTo_more p h p' h' m d :
  refersTo p h m d -> (forall c r, managed p c r -> managed p' c r) ->
  (forall c r, c ∈ messageCells m -> managed p' c r -> managed p c r) ->
  (forall c, c ∈ messageCells m -> (forall r, ~ managed p c r) -> cells h' !! c = cells h !! c) ->
  refersTo p' h' m d.
Proof.
  intros Href Hmore. revert m d Href. apply (refersTo_ind' p h (fun m d => _ -> _ -> _)).
  - intros c [r|] Hc Hback Hsame; constructor; simpl in *; [by apply Hmore|]. destruct Hc as [Hun Hmax]. split.
    + intros r Hr. apply (Hun r). apply Hback; [by left|done].
    + rewrite Hsame; [done|by left|done].
  - intros cs os (rs & -> & Hf & Hrs) _ _. constructor. exists rs. split_and!; [done| |done].
    eapply Forall2_impl; [exact Hf|]. auto.
  - intros fields ds _ Hf Hback Hsame. constructor. simpl in Hback, Hsame.
    induction Hf as [|m d fields ds Hm _ IH]; constructor; simpl in *.
    + apply Hm; intros; [apply Hback|apply Hsame]; auto; apply elem_of_app; by left.
    + apply IH; intros; [apply Hback|apply Hsame]; auto; apply elem_of_app; by right.
Qed.

(** ** Existing messages *)

Section existing.
Context (og : list LocalReference) (createMetadata : Z -> Metadata).
Context (og_valid : Forall valid_reference og) (og_order : inOrder og).

Lemma resolveSet_inOrder previous vs : 0 <= previous -> exists rs, resolveSet og previous vs = map Some rs /\ inOrder rs /\
  forall r, r ∈ rs -> exists i, og !! i = Some r /\ previous <= Z.of_nat i.
Proof.
  revert previous. induction vs as [|v vs IH]; intros previous Hp; simpl.
  { exists []. split_and!; [done|by intros ? ? ? ?|]. intros r Hr. by apply not_elem_of_nil in Hr. }
  destruct (Z.leb_spec v previous); simpl.
  { exists []. split_and!; [done|by intros ? ? ? ?|]. intros r Hr. by apply not_elem_of_nil in Hr. }
  rewrite Z.gtb_ltb. destruct (Z.ltb_spec (zlen og) v); simpl.
  { exists []. split_and!; [done|by intros ? ? ? ?|]. intros r Hr. by apply not_elem_of_nil in Hr. }
  destruct (lookup_lt_is_Some_2 og (Z.to_nat (v - 1))) as [r Hr]; [unfold zlen in *; lia|].
  destruct (IH v ltac:(lia)) as (rs & Hrs & Hord & Hpos). exists (r :: rs). rewrite Hr, Hrs. split_and!; [done| |].
  - intros [|i] [|j] a b Hij Ha Hb; simpl in *; [lia| |lia|apply (Hord i j); [lia|done|done]].
    injection Ha as <-. destruct (Hpos b (list_elem_of_lookup_2 _ _ _ Hb)) as (k & Hk & Hvk).
    apply (og_order (Z.to_nat (v - 1)) k); [lia|done|done].
  - intros r' [->|Hr']%elem_of_cons; [exists (Z.to_nat (v - 1)); split; [done|lia]|].
    destruct (Hpos r' Hr') as (k & Hk & Hvk). exists k. split; [done|lia].
Qed.

(** What adding the references of cells leaves as it was. *)
Record added (cs : list nat) (h h' : heap) (p p' : patcher) : Prop := {
  added_ok : patcher_ok h' p';
  added_next : nextCell h' = nextCell h;
  added_more c r : managed p c r -> managed p' c r;
  added_only c r : managed p' c r -> managed p c r \/ c ∈ cs;
  added_same c : c ∉ cs -> cells h' !! c = cells h !! c;
}.

Lemma added_trans cs cs' h h1 h2 p p1 p2 : added cs h h1 p p1 -> added cs' h1 h2 p1 p2 -> added (cs ++ cs') h h2 p p2.
Proof.
  intros [H1 H2 H3 H4 H5] [H1' H2' H3' H4' H5']. split; [done|congruence|auto| |].
  - intros c r [H|H]%H4'; [apply H4 in H as [H|H]|]; rewrite elem_of_app; auto.
  - intros c Hc. rewrite elem_of_app in Hc. rewrite H5', H5; [done|naive_solver|naive_solver].
Qed.

Lemma added_refl h p : patcher_ok h p -> added [] h h p p.
Proof. intros Hp. split; auto. Qed.

Lemma added_weaken cs cs' h h' p p' : (forall c, c ∈ cs -> c ∈ cs') -> added cs h h' p p' -> added cs' h h' p p'.
Proof. intros Hcs [H1 H2 H3 H4 H5]. split; auto. intros c r H. apply H4 in H as [H|H]; auto. Qed.

Definition unused (h : heap) (p : patcher) (cs : list nat) : Prop :=
  NoDup cs /\ forall c, c ∈ cs -> (c < nextCell h)%nat /\ forall r, ~ managed p c r.

(** One index, which is no longer valid afterwards. *)
Lemma addCell_ok h p c r m h' p' :
  patcher_ok h p -> valid_reference r -> unused h p [c] -> addIndex h p c r m = (h', p') ->
  added [c] h (setCell h' c MaxUint32) p p' /\ managed p' c r.
Proof.
  intros Hp Hr [_ Hun] Hadd. destruct (Hun c ltac:(by left)) as [Hc Hm].
  destruct (addIndex_ok h p c r m h' p' Hp Hr Hc Hm Hadd) as (Hok & Hcells & Hnext & Hman & _).
  split; [split|].
  - by apply (patcher_ok_heap h').
  - done.
  - intros c' r' H. apply Hman. by left.
  - intros c' r' [H|[-> _]]%Hman; [by left|right; by left].
  - intros c' Hc'. cbn [cells setCell]. rewrite lookup_insert_ne by (intros ->; apply Hc'; by left). by rewrite Hcells.
  - apply Hman. by right.
Qed.

Lemma unused_after h h1 p p1 cs cs' : unused h p (cs ++ cs') -> added cs h h1 p p1 -> unused h1 p1 cs'.
Proof.
  intros [Hnd Hun] [H1 H2 H3 H4 H5]. apply NoDup_app in Hnd as (Hnd1 & Hdis & Hnd2). split; [done|].
  intros c Hc. destruct (Hun c ltac:(apply elem_of_app; by right)) as [Hlt Hm]. split; [lia|].
  intros r [Hr|Hr]%H4; [by apply (Hm r)|by apply (Hdis c)].
Qed.

Lemma unused_app_l h p cs cs' : unused h p (cs ++ cs') -> unused h p cs.
Proof.
  intros [Hnd Hun]. apply NoDup_app in Hnd as (Hnd & _ & _). split; [done|].
  intros c Hc. apply Hun. apply elem_of_app. by left.
Qed.

Lemma index_position v : 0 < v <= zlen og -> exists r, index og (v - 1) = Ok r /\ og !! Z.to_nat (v - 1) = Some r /\ valid_reference r.
Proof.
  intros Hv. destruct (lookup_lt_is_Some_2 og (Z.to_nat (v - 1))) as [r Hr]; [unfold zlen in *; lia|]. exists r.
  unfold index. rewrite (proj2 (Z.ltb_ge _ _)) by lia. rewrite Hr. split_and!; [done|done|].
  rewrite Forall_forall in og_valid. apply og_valid. by eapply list_elem_of_lookup_2.
Qed.

Lemma addSet_ok cs h p previous kept h' p' : 0 <= previous -> patcher_ok h p -> unused h p cs ->
  addSet og createMetadata h p previous cs = (kept, (h', p')) ->
  added cs h h' p p' /\ (forall c, c ∈ kept -> c ∈ cs) /\
  exists rs, resolveSet og previous (map (value h) cs) = map Some rs /\ Forall2 (managed p') kept rs.
Proof.
  revert h p previous kept. induction cs as [|c cs IH]; intros h p previous kept Hprev Hp Hun.
  { simpl. intros [= <- <- <-]. split_and!; [by apply added_refl|done|by exists []]. }
  cbn [addSet map resolveSet]. fold (value h c).
  destruct ((value h c <=? previous) || (value h c >? zlen og)) eqn:Hv.
  { intros [= <- <- <-]. split_and!; [|intros c' Hc'; by apply not_elem_of_nil in Hc'|by exists []].
    apply (added_weaken []); [|by apply added_refl]. intros c' Hc'. by apply not_elem_of_nil in Hc'. }
  boolprop. destruct (index_position (value h c)) as (r & -> & Hr & Hvalid); [lia|]. rewrite Hr.
  destruct (addIndex h p c r (createMetadata (value h c - 1))) as [h1 p1] eqn:Hadd.
  destruct (addSet og createMetadata (setCell h1 c MaxUint32) p1 (value h c) cs) as [kept' s] eqn:Hset. intros [= <- ->].
  change (c :: cs) with ([c] ++ cs) in Hun |- *.
  destruct (addCell_ok h p c r _ h1 p1 Hp Hvalid (unused_app_l _ _ _ _ Hun) Hadd) as [Hadded Hman].
  destruct (IH (setCell h1 c MaxUint32) p1 (value h c) kept' ltac:(lia) (added_ok _ _ _ _ _ Hadded) (unused_after _ _ _ _ _ _ Hun Hadded) Hset)
    as (Hadded' & Hkept & rs & Hrs & Hf).
  split_and!; [by eapply added_trans| |].
  - intros c' [->|Hc']%elem_of_cons; apply elem_of_app; [left; by left|right; by apply Hkept].
  - exists (r :: rs). cbn [map]. split.
    + f_equal. rewrite <- Hrs. f_equal. apply map_ext_in. intros c' Hc'%list_elem_of_In. unfold value. symmetry. f_equal.
      apply (added_same _ _ _ _ _ Hadded). intros ->%list_elem_of_singleton. destruct Hun as [Hnd _].
      by apply NoDup_cons in Hnd as [Hnd _].
    + constructor; [by apply (added_more _ _ _ _ _ Hadded')|done].
Qed.

(** The fields of a message, one after the other. *)
Fixpoint addFields (fields : list message) (h : heap) (p : patcher) : list message * (heap * patcher) :=
  match fields with
  | [] => ([], (h, p))
  | m :: fields =>
      let '(m, (h, p)) := addReferenceMessagesRecursively og createMetadata m h p in
      let '(fields, s) := addFields fields h p in
      (m :: fields, s)
  end.

Lemma addReferenceMessagesRecursively_Fields fields h p :
  addReferenceMessagesRecursively og createMetadata (Fields fields) h p =
  let '(fields, s) := addFields fields h p in (Fields fields, s).
Proof. done. Qed.

Lemma view_same (h h' : heap) m : (forall c, c ∈ messageCells m -> cells h' !! c = cells h !! c) -> view h' m = view h m.
Proof.
  induction m as [c|cs|fields IH] using message_ind'; intros Hsame; simpl in *.
  - unfold value. by rewrite Hsame by (by left).
  - f_equal. apply map_ext_in. intros c Hc%list_elem_of_In. unfold value. by rewrite Hsame.
  - f_equal. induction IH as [|m fields Hm _ IH]; [done|]. simpl in *. f_equal.
    + apply Hm. intros c Hc. apply Hsame, elem_of_app. by left.
    + apply IH. intros c Hc. apply Hsame, elem_of_app. by right.
Qed.

(** A message that was added stands for what it stood for in its object. *)
Definition addedMessage (m m' : message) (h h' : heap) (p p' : patcher) : Prop :=
  added (messageCells m) h h' p p' /\ (forall c, c ∈ messageCells m' -> c ∈ messageCells m) /\
  refersTo p' h' m' (denote og (view h m)).

Lemma addRecursively_ok m h p m' h' p' : patcher_ok h p -> unused h p (messageCells m) ->
  addReferenceMessagesRecursively og createMetadata m h p = (m', (h', p')) -> addedMessage m m' h h' p p'.
Proof.
  revert h p m' h' p'. induction m as [c|cs|fields IH] using message_ind'; intros h p m' h' p' Hp Hun.
  - cbn [addReferenceMessagesRecursively messageCells] in *. unfold GetIndexFromReferenceMessage.
    assert (forall h1, cells h1 = cells h -> nextCell h1 = nextCell h ->
      (resolve og (value h c) = None) -> addedMessage (Reference c) (Reference c) h (setCell h1 c MaxUint32) p p) as Hinvalid.
    { intros h1 Hc1 Hn1 Hnone. split_and!; [split|done|].
      - apply (patcher_ok_heap h); [simpl; lia|done].
      - done.
      - done.
      - intros c' r H. by left.
      - intros c' Hc'. cbn [cells setCell]. rewrite lookup_insert_ne, Hc1; [done|]. intros ->. apply Hc'. by left.
      - cbn [denote view]. rewrite Hnone. constructor. split; [apply Hun; by left|apply lookup_insert_eq]. }
    destruct (cells h !! c) as [v|] eqn:Ec.
    2: { intros [= <- <- <-]. apply Hinvalid; [done|done|]. unfold value. by rewrite Ec. }
    assert (value h c = v) as Hv by (unfold value; by rewrite Ec).
    destruct ((v <=? 0) || (v >? zlen og)) eqn:Hr.
    { intros [= <- <- <-]. apply Hinvalid; [done|done|]. unfold resolve. by rewrite Hv, Hr. }
    boolprop. destruct (index_position v) as (r & -> & Hpos & Hvalid); [lia|].
    destruct (addIndex h p c r (createMetadata (v - 1))) as [h1 p1] eqn:Hadd. intros [= <- <- <-].
    destruct (addCell_ok h p c r _ h1 p1 Hp Hvalid Hun Hadd) as [Hadded Hman].
    split_and!; [done|done|]. cbn [denote view]. rewrite Hv. unfold resolve.
    rewrite (proj2 (Z.leb_gt v 0)) by lia. rewrite Z.gtb_ltb, (proj2 (Z.ltb_ge _ _)) by lia. simpl. rewrite Hpos. by constructor.
  - cbn [addReferenceMessagesRecursively messageCells] in *. destruct (addSet og createMetadata h p 0 cs) as [kept s] eqn:Hset.
    intros [= <- ->]. destruct (addSet_ok cs h p 0 kept h' p' ltac:(lia) Hp Hun Hset) as (Hadded & Hkept & rs & Hrs & Hf).
    split_and!; [done|done|]. cbn [denote view]. constructor. exists rs. split_and!; [done|done|].
    destruct (resolveSet_inOrder 0 (map (value h) cs) ltac:(lia)) as (rs' & Hrs' & Hord & _).
    assert (rs' = rs) as ->; [|done]. rewrite Hrs in Hrs'. symmetry. by apply (inj (map Some)) in Hrs'.
  - rewrite addReferenceMessagesRecursively_Fields. destruct (addFields fields h p) as [fields' s] eqn:Ef. intros [= <- ->].
    enough (added (flat_map messageCells fields) h h' p p' /\
      (forall c, c ∈ flat_map messageCells fields' -> c ∈ flat_map messageCells fields) /\
      Forall2 (refersTo p' h') fields' (map (denote og) (map (view h) fields))) as (H1 & H2 & H3).
    { split_and!; [done|done|]. cbn [denote view]. by constructor. }
    cbn [messageCells] in Hun. revert h p fields' Hp Hun Ef.
    induction IH as [|m fields Hm _ IHf]; intros h p fields'' Hp Hun; cbn [addFields].
    { intros [= <- <- <-]. split_and!; [by apply added_refl|done|constructor]. }
    destruct (addReferenceMessagesRecursively og createMetadata m h p) as [m1 [h1 p1]] eqn:E1.
    destruct (addFields fields h1 p1) as [fields1 s] eqn:E2. intros [= <- ->]. cbn [flat_map] in Hun |- *.
    destruct (Hm h p m1 h1 p1 Hp (unused_app_l _ _ _ _ Hun) E1) as (Ha1 & Hc1 & Hr1).
    pose proof (unused_after _ _ _ _ _ _ Hun Ha1) as Hun1.
    destruct (IHf h1 p1 fields1 (added_ok _ _ _ _ _ Ha1) Hun1 E2) as (Ha2 & Hc2 & Hr2).
    destruct Hun as [Hnd _]. apply NoDup_app in Hnd as (_ & Hdis & _).
    split_and!; [by eapply added_trans| |constructor].
    + intros c [Hc|Hc]%elem_of_app; apply elem_of_app; auto.
    + apply (refersTo_more p1 h1); [done|apply (added_more _ _ _ _ _ Ha2)| |].
      * intros c r Hc H. apply (added_only _ _ _ _ _ Ha2) in H as [H|H]; [done|]. by destruct (Hdis c (Hc1 c Hc)).
      * intros c Hc _. apply (added_same _ _ _ _ _ Ha2). intros H. by apply (Hdis c (Hc1 c Hc)).
    + change (Forall2 (refersTo p' h') fields1 (map (denote og) (map (view h) fields))).
      assert (map (view h) fields = map (view h1) fields) as ->; [|done]. apply map_ext_in. intros m0 Hm0. symmetry.
      apply view_same. intros c Hc. apply (added_same _ _ _ _ _ Ha1). intros H. apply (Hdis c H).
      apply list_elem_of_In, in_flat_map. exists m0. split; [done|by apply list_elem_of_In].
Qed.
End existing.

(** ** Copies *)

(** What [CloneOf] does to a heap: new cells, and nothing else. *)
Record cloned (cs : list nat) (h h' : heap) : Prop := {
  cloned_next : (nextCell h <= nextCell h')%nat;
  cloned_same c : (c < nextCell h)%nat -> cells h' !! c = cells h !! c;
  cloned_fresh c : c ∈ cs -> (nextCell h <= c < nextCell h')%nat;
  cloned_nodup : NoDup cs;
}.

Lemma cloned_app cs cs' h h1 h2 : cloned cs h h1 -> cloned cs' h1 h2 -> cloned (cs ++ cs') h h2.
Proof.
  intros [H1 H2 H3 H4] [H1' H2' H3' H4']. split; [lia| | |].
  - intros c Hc. rewrite H2', H2 by lia. done.
  - intros c [Hc|Hc]%elem_of_app; [specialize (H3 c Hc)|specialize (H3' c Hc)]; lia.
  - apply NoDup_app. split_and!; [done| |done]. intros c Hc Hc'. specialize (H3 c Hc). specialize (H3' c Hc'). lia.
Qed.

Lemma cloned_refl h : cloned [] h h.
Proof. split; auto; [|constructor]. intros c Hc. by apply not_elem_of_nil in Hc. Qed.

Lemma alloc_cloned h v c h' : alloc h v = (c, h') -> cloned [c] h h' /\ value h' c = v.
Proof.
  intros [= <- <-]. split; [split; cbn [nextCell cells]|].
  - lia.
  - intros c Hc. by rewrite lookup_insert_ne by lia.
  - intros c ->%list_elem_of_singleton. lia.
  - apply NoDup_singleton.
  - unfold value. cbn [cells]. by rewrite lookup_insert_eq.
Qed.

Definition belowNext (h : heap) (cs : list nat) : Prop := forall c, c ∈ cs -> (c < nextCell h)%nat.

Lemma cloned_value cs (h h' : heap) c : cloned cs h h' -> (c < nextCell h)%nat -> value h' c = value h c.
Proof. intros Hc Hlt. unfold value. by rewrite (cloned_same _ _ _ Hc). Qed.

Lemma cloneCells_ok cs h cs' h' : belowNext h cs -> cloneCells h cs = (cs', h') ->
  exists cs1, cs' ≡ₚ cs1 /\ cloned cs1 h h' /\ map (value h') cs' = map (value h) cs.
Proof.
  intros Hb. revert cs' h'. induction cs as [|c cs IH]; intros cs' h'; unfold cloneCells; cbn [foldr].
  { intros [= <- <-]. exists []. split_and!; [done|apply cloned_refl|done]. }
  fold (cloneCells h cs). destruct (cloneCells h cs) as [copies h1] eqn:E.
  destruct (IH ltac:(intros c' Hc'; apply Hb; by right) copies h1 eq_refl) as (cs1 & Hperm & Hcl & Hval).
  destruct (alloc h1 (default 0 (cells h1 !! c))) as [c' h2] eqn:Ea. intros [= <- <-].
  destruct (alloc_cloned _ _ _ _ Ea) as [Ha Hv]. exists (cs1 ++ [c']). split_and!.
  - rewrite Hperm. by rewrite Permutation_app_comm.
  - by eapply cloned_app.
  - simpl. f_equal.
    + rewrite Hv. fold (value h1 c). apply (cloned_value _ _ _ _ Hcl), Hb. by left.
    + rewrite <- Hval. apply map_ext_in. intros c0 Hc0%list_elem_of_In. apply (cloned_value _ _ _ _ Ha).
      apply (cloned_fresh _ _ _ Hcl). by rewrite <- Hperm.
Qed.

Fixpoint cloneFields (fields : list message) (h : heap) : list message * heap :=
  match fields with
  | [] => ([], h)
  | m :: fields => let '(m, h) := CloneOf m h in let '(fields, h) := cloneFields fields h in (m :: fields, h)
  end.

Lemma CloneOf_Fields fields h : CloneOf (Fields fields) h = let '(fields, h) := cloneFields fields h in (Fields fields, h).
Proof. done. Qed.

Lemma cloned_view cs h h' m : cloned cs h h' -> belowNext h (messageCells m) -> view h' m = view h m.
Proof. intros Hc Hb. apply view_same. intros c Hin. apply (cloned_same _ _ _ Hc). by apply Hb. Qed.

Lemma cloned_perm cs cs' h h' : cs ≡ₚ cs' -> cloned cs h h' -> cloned cs' h h'.
Proof. intros Hp [H1 H2 H3 H4]. split; auto; [|by rewrite <- Hp]. intros c Hc. apply H3. by rewrite Hp. Qed.

Lemma CloneOf_ok m h m' h' : belowNext h (messageCells m) -> CloneOf m h = (m', h') ->
  cloned (messageCells m') h h' /\ view h' m' = view h m.
Proof.
  revert h m' h'. induction m as [c|cs|fields IH] using message_ind'; intros h m' h' Hb.
  - cbn [CloneOf]. destruct (alloc h _) as [c' h1] eqn:Ea. intros [= <- <-].
    destruct (alloc_cloned _ _ _ _ Ea) as [Ha Hv]. split; [done|]. cbn [view]. by rewrite Hv.
  - cbn [CloneOf]. destruct (cloneCells h cs) as [cs' h1] eqn:E. intros [= <- <-].
    destruct (cloneCells_ok cs h cs' h1 Hb E) as (cs1 & Hp & Hcl & Hv). split; [by eapply cloned_perm|].
    cbn [view]. by rewrite Hv.
  - rewrite CloneOf_Fields. destruct (cloneFields fields h) as [fields' h1] eqn:E. intros [= <- <-].
    enough (cloned (flat_map messageCells fields') h h1 /\ map (view h1) fields' = map (view h) fields) as [H1 H2].
    { split; [done|]. cbn [view]. by rewrite H2. }
    cbn [messageCells] in Hb. revert h fields' Hb E.
    induction IH as [|m fields Hm _ IHf]; intros h fields'' Hb; cbn [cloneFields].
    { intros [= <- <-]. split; [apply cloned_refl|done]. }
    destruct (CloneOf m h) as [m1 h2] eqn:E1. destruct (cloneFields fields h2) as [fields1 h3] eqn:E2. intros [= <- <-].
    cbn [flat_map] in Hb |- *. destruct (Hm h m1 h2) as [Hcl1 Hv1]; [intros c Hc; apply Hb, elem_of_app; by left|done|].
    assert (belowNext h (flat_map messageCells fields)) as Hbf by (intros c Hc; apply Hb, elem_of_app; by right).
    destruct (IHf h2 fields1) as [Hcl2 Hv2]; [|done|].
    { intros c Hc. pose proof (Hbf c Hc). pose proof (cloned_next _ _ _ Hcl1). lia. }
    split; [by eapply cloned_app|]. cbn [map]. f_equal.
    + rewrite <- Hv1. apply (cloned_view _ _ _ _ Hcl2). intros c Hc. apply (cloned_fresh _ _ _ Hcl1 c Hc).
    + etransitivity; [exact Hv2|]. apply map_ext_in. intros m0 Hm0. apply (cloned_view _ _ _ _ Hcl1).
      intros c Hc. apply Hbf, list_elem_of_In, in_flat_map. exists m0. split; [done|by apply list_elem_of_In].
Qed.
End proofs.
