(* ===== verification/MessageProofs.v ===== *)
(** * Messages with references: properties

    Messages stand for the same when they are moved to other objects, objects have the
    height and the size that patchers announce, top-level messages are read back, and
    what of [message.go] does not do what it should. *)

From S2P Require Import Prelude Varint References Messages PatcherProofs.

Section patched.
Context {Metadata : Type}.
Notation patcher := (ReferenceMessagePatcher Metadata).
Notation heap := (heap Metadata).

(** ** Moving messages *)

Lemma NewPatchedMessageFromExisting_ok og createMetadata (h : heap) m m' h' p' :
  Forall valid_reference og -> inOrder og -> og <> [] -> belowNext h (messageCells m) ->
  NewPatchedMessageFromExisting og createMetadata h m = (m', (h', p')) ->
  patcher_ok h' p' /\ (nextCell h <= nextCell h')%nat /\ refersTo p' h' m' (denote og (view h m)) /\
  (forall c, (c < nextCell h)%nat -> cells h' !! c = cells h !! c) /\
  (forall c r, managed p' c r -> (nextCell h <= c)%nat) /\ (forall c, c ∈ messageCells m' -> (nextCell h <= c)%nat).
Proof.
  intros Hv Ho Hne Hb. unfold NewPatchedMessageFromExisting. rewrite (proj2 (Z.eqb_neq _ _)) by (destruct og; [done|unfold zlen; simpl; lia]).
  destruct (CloneOf m h) as [m1 h1] eqn:Ec. intros Hadd. destruct (CloneOf_ok m h m1 h1 Hb Ec) as [Hcl Hview].
  assert (unused h1 (NewReferenceMessagePatcher : patcher) (messageCells m1)) as Hun.
  { split; [apply (cloned_nodup _ _ _ Hcl)|]. intros c Hc. split; [apply (cloned_fresh _ _ _ Hcl c Hc)|].
    intros r. apply managed_new. }
  destruct (addRecursively_ok og createMetadata Hv Ho m1 h1 NewReferenceMessagePatcher m' h' p' (NewReferenceMessagePatcher_ok h1) Hun Hadd)
    as (Ha & Hsub & Href). rewrite Hview in Href.
  pose proof (cloned_next _ _ _ Hcl). pose proof (added_next _ _ _ _ _ Ha).
  assert (forall c, c ∈ messageCells m1 -> (nextCell h <= c)%nat) as Hfresh by (intros c Hc; apply (cloned_fresh _ _ _ Hcl c Hc)).
  split_and!; [apply (added_ok _ _ _ _ _ Ha)|lia|done| | |auto].
  - intros c Hc. rewrite (added_same _ _ _ _ _ Ha); [by apply (cloned_same _ _ _ Hcl)|]. intros Hin. specialize (Hfresh c Hin). lia.
  - intros c r [He|Hc]%(added_only _ _ _ _ _ Ha); [by apply managed_new in He|auto].
Qed.

(** C20: A message of an object that has references, in order, is put into another one,
    together with messages that are built there.  Once indices have been set, it refers
    to the same objects as before, and so do the others; a reference of it that was not
    valid is not valid afterwards.  The condition that the object has references is
    needed: without any, a reference that is not valid may become one to an object (see
    [Run.invalid_reference_becomes_valid]). *)
Theorem patching_keeps_references og createMetadata (h : heap) (q : patcher) other otherRefers m m' h1 p h2 q' h3 refs metas :
  Forall valid_reference og -> inOrder og -> og <> [] -> belowNext h (messageCells m) ->
  patcher_ok h q -> belowNext h (messageCells other) -> refersTo q h other otherRefers ->
  NewPatchedMessageFromExisting og createMetadata h m = (m', (h1, p)) -> Merge h1 q p = (h2, q') ->
  SortAndSetReferences h2 q' = (h3, (refs, metas)) -> zlen refs < MaxUint32 ->
  denote refs (view h3 m') = denote og (view h m) /\ denote refs (view h3 other) = otherRefers.
Proof.
  intros Hv Ho Hne Hb Hq Hbo Hother Hnew Hmerge Hsort Hlen.
  destruct (NewPatchedMessageFromExisting_ok og createMetadata h m m' h1 p Hv Ho Hne Hb Hnew) as (Hp & Hn1 & Href & Hsame & Hfresh & Hfresh').
  assert (patcher_ok h1 q) as Hq1 by (by apply (patcher_ok_heap h)).
  assert (disjoint_patchers q p) as Hdis.
  { intros c r r' H1 H2. pose proof (patcher_cells _ _ Hq c r H1). specialize (Hfresh c r' H2). lia. }
  destruct (Merge_ok h1 q p h2 q' Hq1 Hp Hdis Hmerge) as (Hok & Hc2 & Hn2 & Hman & _).
  split; apply (refersTo_sorted h2 q' h3 refs metas); auto.
  - apply (refersTo_more p h1); [done|intros c r H; apply Hman; by right| |by rewrite Hc2].
    intros c r Hc [H|H]%Hman; [|done]. pose proof (patcher_cells _ _ Hq c r H). specialize (Hfresh' c Hc). lia.
  - apply (refersTo_more q h); [done|intros c r H; apply Hman; by left| |].
    + intros c r Hc [H|H]%Hman; [done|]. specialize (Hfresh c r H). specialize (Hbo c Hc). lia.
    + intros c Hc _. rewrite Hc2. apply Hsame. by apply Hbo.
Qed.

(** ** Objects *)

Lemma foldStats_height refs rcs rcs' k : foldStats refs rcs = Ok rcs' ->
  (forall r, r ∈ refs -> GetHeight r + 1 <= k) -> statsHeight rcs <= k ->
  statsHeight rcs' <= k.
Proof.
  revert rcs. induction refs as [|r refs IH]; intros rcs; simpl; [by intros [= <-]|].
  destruct (addChildReference rcs r) as [rcs1| |] eqn:E; simpl; [|done|done]. intros H Hr Hs.
  apply addChildReference_Ok in E as (_ & Eh & Hmax & _). apply (IH rcs1 H).
  - intros r' Hr'. apply Hr. by right.
  - pose proof (Hr r ltac:(by left)). lia.
Qed.

(** References in order are accepted, up to the greatest height. *)
Lemma foldStats_accepts refs rcs : inOrder refs -> (forall r, r ∈ refs -> GetHeight r + 1 <= 255) ->
  (forall last r, lastRawReference rcs = Some last -> r ∈ refs -> bytes_compare last (rawReference r) < 0) ->
  exists rcs', foldStats refs rcs = Ok rcs'.
Proof.
  revert rcs. induction refs as [|r refs IH]; intros rcs Hord Hh Hlast; simpl; [eauto|].
  apply inOrder_tail in Hord as [Hord Hfirst].
  assert (exists rcs1, addChildReference rcs r = Ok rcs1) as [rcs1 E].
  { unfold addChildReference. pose proof (Hh r ltac:(by left)) as Hr. pose proof (fun last => Hlast last r) as Hl.
    assert (match lastRawReference rcs with Some last => bytes_compare last (rawReference r) >=? 0 | None => false end = false) as ->.
    { destruct (lastRawReference rcs) as [last|]; [|done]. specialize (Hl last eq_refl ltac:(by left)).
      rewrite Z.geb_leb. by apply Z.leb_gt. }
    rewrite (Z.gtb_ltb (GetHeight r + 1) 255), (proj2 (Z.ltb_ge 255 _)) by lia. destruct (statsHeight rcs <? _); simpl; eauto. }
  rewrite E. simpl. apply IH; [done|intros; apply Hh; by right|].
  intros last r' Hl Hr'. apply addChildReference_Ok in E as (_ & _ & _ & _ & _ & E). rewrite E in Hl. injection Hl as <-.
  by apply Hfirst.
Qed.

Lemma sorted_valid (h : heap) (p : patcher) : patcher_ok h p -> Forall valid_reference (sortedReferences p).
Proof. intros Hp. apply Forall_forall. intros r Hr%sortedReferences_dom. by apply (patcher_valid _ _ Hp). Qed.

Lemma sorted_height (h : heap) (p : patcher) rcs : patcher_ok h p -> foldStats (sortedReferences p) zeroStats = Ok rcs -> statsHeight rcs = height p.
Proof.
  intros Hp Hf. assert (statsHeight rcs <= height p) as Hle.
  { apply (foldStats_height _ _ _ _ Hf).
    - intros r Hr%sortedReferences_dom. by apply (patcher_height _ _ Hp).
    - simpl. by apply (patcher_height_nonneg h). }
  destruct (patcher_highest _ _ Hp) as [[He Hh]|(r & Hr & Hh)].
  - destruct (foldStats_ok _ _ _ zeroStats_ok (sorted_valid h p Hp) Hf) as [Hok _]. pose proof (stats_height _ Hok). lia.
  - apply sortedReferences_dom in Hr. destruct (foldStats_child _ _ _ r Hf Hr) as [Hge _]. lia.
Qed.

Lemma GetReferencesSizeBytes_eq (h : heap) (p : patcher) : patcher_ok h p -> GetReferencesSizeBytes p = zlen (sortedReferences p) * 40.
Proof.
  intros Hp. unfold GetReferencesSizeBytes, zlen. rewrite sortedReferences_length, <- length_map_to_list.
  destruct (map_to_list (messagesByReference p)) as [|[r e] l] eqn:E; [done|].
  assert ((r, e) ∈ map_to_list (messagesByReference p)) as Hin by (rewrite E; by left).
  apply elem_of_map_to_list in Hin.
  destruct (patcher_valid _ _ Hp r) as [[Hlen _] _]; [by exists e|]. rewrite Hlen. lia.
Qed.

(** C21: What [GetHeight] and [GetReferencesSizeBytes] announce is what objects have: the
    object that is created of a patched message has the references of the patcher, in
    order and without duplicates, its height is that of the patcher, and its size that
    of the references and the encoded message.  Creating it only fails if marshaling or
    encoding does, if the object has no or too many bytes, if it is too high, or if the
    parameters of the encoder are too long. *)
Theorem objects_are_as_announced (h h' : heap) (p : patcher) MarshalBinary EncodeBinary data enc params r :
  patcher_ok h p ->
  MarshalBinary (cells (SortAndSetReferences h p).1) = Ok data -> EncodeBinary data = Ok (enc, params) ->
  MarshalAndEncodeDeterministic h p MarshalBinary EncodeBinary = (h', r) ->
  if decide (1 <= GetReferencesSizeBytes p + zlen enc <= 2 ^ 21 /\ height p <= 255 /\ zlen params <= 16)
  then exists contents metas, r = Ok ((contents, metas), params) /\
    GetHeight (contentsReference contents) = height p /\
    GetSizeBytes (contentsReference contents) = GetReferencesSizeBytes p + zlen enc /\
    DetachOutgoingReferences contents = Ok (sortedReferences p) /\ GetPayload contents = Ok enc
  else r = Err (StatusError CodeInvalidArgument).
Proof.
  intros Hp Hm He. unfold MarshalAndEncodeDeterministic.
  destruct (SortAndSetReferences h p) as [h1 [refs metas]] eqn:Hsort. simpl in Hm. rewrite Hm. simpl. rewrite He. simpl.
  destruct (SortAndSetReferences_ok h p h1 refs metas Hp Hsort) as (-> & Hord & _).
  pose proof (sorted_valid h p Hp) as Hvalid. rewrite (GetReferencesSizeBytes_eq h p Hp).
  destruct (decide (1 <= zlen (sortedReferences p) * 40 + zlen enc <= 2 ^ 21 /\ height p <= 255)) as [[Hsize Hheight]|Hno].
  - destruct (foldStats_accepts (sortedReferences p) zeroStats Hord) as [rcs Hf]; [|done|].
    { intros r' Hr'%sortedReferences_dom. pose proof (patcher_height _ _ Hp r' Hr'). lia. }
    destruct (foldStats_ok _ _ _ zeroStats_ok Hvalid Hf) as [Hok _]. destruct (stats_encode rcs Hok) as (f & Hf16 & _).
    assert (objectStats (sortedReferences p) enc rcs f) as Hstats by done.
    pose proof (NewContents_object _ enc rcs f Hvalid Hstats) as Hc. rewrite Hc. simpl.
    destruct (object_fields _ enc rcs f Hvalid Hstats) as (_ & Hs & Hh & _).
    destruct (NewContents_roundtrip _ enc _ Hvalid Hc) as (_ & _ & Hdetach & Hpayload & _).
    intros [= <- <-]. unfold NewDecodable. rewrite Z.gtb_ltb. destruct (Z.ltb_spec 16 (zlen params)).
    + rewrite decide_False; [done|lia].
    + rewrite decide_True by lia. eexists _, metas. split; [done|]. cbn [contentsReference]. rewrite Hh, Hs.
      rewrite (sorted_height h p rcs Hp Hf). pose proof (length_rawReferences _ Hvalid).
      split_and!; [done|unfold zlen in *; rewrite length_app; lia|done|done].
  - rewrite decide_False by tauto.
    assert (NewContents (sortedReferences p) enc = errInvalidArgument) as ->; [|by intros [= <- <-]].
    destruct (NewContents_cases (sortedReferences p) enc Hvalid) as [?|(rcs & f & Hstats & _)]; [done|].
    exfalso. apply Hno. destruct Hstats as (Hsize & Hf & _). split; [done|].
    rewrite <- (sorted_height h p rcs Hp Hf). destruct (foldStats_ok _ _ _ zeroStats_ok Hvalid Hf) as [Hok _].
    pose proof (stats_height _ Hok). lia.
Qed.
End patched.

(** ** References of messages *)

(** What a list of references that may be remapped stands for. *)
Fixpoint selected (or : OutgoingReferences) : list (option LocalReference) :=
  match or with
  | OutgoingReferencesList references => map Some references
  | remappingOutgoingReferences indices outer => map (fun v => mjoin (selected outer !! Z.to_nat (v - 1))) indices
  end.

Lemma length_selected or : zlen (selected or) = GetDegree_ or.
Proof. destruct or; unfold zlen; simpl; by rewrite length_map. Qed.

Lemma strictlySorted_head a indices : strictlySorted (a :: indices) = true -> Forall (fun b => a < b) indices /\ strictlySorted indices = true.
Proof.
  revert a. induction indices as [|b indices IH]; intros a; [done|]. cbn [strictlySorted].
  intros [H1%negb_true_iff H2]%andb_true_iff. rewrite Z.geb_leb in H1. apply Z.leb_gt in H1.
  split; [|done]. destruct (IH b H2) as [H3 _]. constructor; [done|]. eapply Forall_impl; [exact H3|]. simpl. lia.
Qed.

Lemma strictlySorted_bounds indices last' : strictlySorted indices = true -> last indices = Some last' ->
  Forall (fun v => v <= last') indices.
Proof.
  induction indices as [|a indices IH]; [done|]. intros Hs Hl. apply strictlySorted_head in Hs as [Ha Hs].
  destruct indices as [|b indices]; [injection Hl as ->; by repeat constructor|].
  rewrite last_cons_cons in Hl. specialize (IH Hs Hl). constructor; [|done].
  apply Forall_cons in Ha as [Ha _]. apply Forall_cons in IH as [Hb _]. lia.
Qed.

(** All references of a set that is accepted can be obtained. *)
Definition gets_all (or : OutgoingReferences) : Prop := forall i, 0 <= i < GetDegree_ or -> exists r,
  GetOutgoingReference_ or i = Ok r /\ selected or !! Z.to_nat i = Some (Some r).

Lemma list_gets_all references : gets_all (OutgoingReferencesList references).
Proof.
  intros i Hi. simpl in *. destruct (lookup_lt_is_Some_2 references (Z.to_nat i)) as [r Hr]; [unfold zlen in *; lia|].
  exists r. unfold index. rewrite (proj2 (Z.ltb_ge _ _)) by lia. rewrite Hr. split; [done|].
  by rewrite list_lookup_fmap, Hr.
Qed.

(** C22: A set of references that is accepted gives access to exactly the references that
    its indices select, one for every index, and what is not accepted is reported as
    such: access to them never panics. *)
Theorem FlattenReferenceSet_selects m or : gets_all or -> GetDegree_ or < 2 ^ 32 ->
  (forall indices, m = Some indices -> Forall is_u32 indices) ->
  match FlattenReferenceSet m or with
  | Ok set => gets_all set /\ exists indices, m = Some indices /\ GetDegree_ set = zlen indices /\
      selected set = map (fun v => mjoin (selected or !! Z.to_nat (v - 1))) indices
  | Err e => e = StatusError CodeInvalidArgument
  | Panic => False
  end.
Proof.
  intros Hall Hdeg Hu32. destruct m as [[|firstIndex indices]|]; cbn [FlattenReferenceSet]; [|..|done].
  { split; [apply list_gets_all|]. by exists []. }
  destruct (negb (strictlySorted (firstIndex :: indices))) eqn:Hs; [done|].
  apply negb_false_iff in Hs.
  destruct (last (firstIndex :: indices)) as [lastIndex|] eqn:Hl; [|by apply last_None in Hl].
  destruct ((firstIndex <=? 0) || (lastIndex >? GetDegree_ or)) eqn:Hb; [done|]. boolprop.
  split; [|by exists (firstIndex :: indices)].
  assert (Forall (fun v => 0 < v <= GetDegree_ or) (firstIndex :: indices)) as Hrange.
  { pose proof (strictlySorted_bounds _ _ Hs Hl) as Hle. apply strictlySorted_head in Hs as [Hlt _].
    rewrite Forall_cons in Hle |- *. destruct Hle as [Hle1 Hle2]. split; [lia|].
    rewrite Forall_forall in Hlt, Hle2 |- *. intros v Hv. specialize (Hlt v Hv). specialize (Hle2 v Hv). lia. }
  intros i Hi. cbn [GetDegree_ GetOutgoingReference_] in Hi |- *.
  destruct (lookup_lt_is_Some_2 (firstIndex :: indices) (Z.to_nat i)) as [v Hv]; [unfold zlen in Hi; lia|].
  assert (0 < v <= GetDegree_ or) as Hvr by (rewrite Forall_forall in Hrange; apply Hrange; by eapply list_elem_of_lookup_2).
  unfold index. rewrite (proj2 (Z.ltb_ge i 0)) by lia. rewrite Hv. simpl.
  unfold u32. rewrite Z.mod_small by lia. destruct (Hall (v - 1) ltac:(lia)) as (r & Hr & Hsel). exists r. split; [done|].
  etransitivity; [exact (list_lookup_fmap (fun v => mjoin (selected or !! Z.to_nat (v - 1))) (firstIndex :: indices) (Z.to_nat i))|].
  rewrite Hv. simpl. by rewrite Hsel.
Qed.

Lemma strictlySorted_last indices low last' : strictlySorted indices = true -> Forall (fun v => low < v) indices ->
  last indices = Some last' -> low + zlen indices <= last'.
Proof.
  revert low. induction indices as [|a indices IH]; intros low Hs Hlow Hl; [done|].
  apply strictlySorted_head in Hs as [Ha Hs]. apply Forall_cons in Hlow as [Hlow _].
  destruct indices as [|b indices]; [injection Hl as ->; unfold zlen; simpl; lia|].
  rewrite last_cons_cons in Hl. specialize (IH a Hs Ha Hl). unfold zlen in *. simpl in *. lia.
Qed.

(** Copying the references of a set that is accepted panics, unless it is empty: indices
    are used as positions in the set, of which the last one is not less than its size. *)
Theorem DetachOutgoingReferences_panics m or set : FlattenReferenceSet (Some m) or = Ok set -> m <> [] -> gets_all or ->
  GetDegree_ or < 2 ^ 32 -> DetachOutgoingReferences_ set = Panic.
Proof.
  intros Hf Hne Hall Hdeg. destruct m as [|firstIndex indices]; [done|]. cbn [FlattenReferenceSet] in Hf.
  destruct (negb (strictlySorted (firstIndex :: indices))) eqn:Hs; [done|]. apply negb_false_iff in Hs.
  destruct (last (firstIndex :: indices)) as [lastIndex|] eqn:Hl; [|done].
  destruct ((firstIndex <=? 0) || (lastIndex >? GetDegree_ or)) eqn:Hb; [done|]. injection Hf as <-. boolprop.
  set (all := firstIndex :: indices) in *.
  assert (Forall (fun v => 0 < v <= GetDegree_ or) all) as Hrange.
  { pose proof (strictlySorted_bounds _ _ Hs Hl) as Hle. pose proof Hs as Hs'. apply strictlySorted_head in Hs' as [Hlt _].
    unfold all in *. rewrite Forall_cons in Hle |- *. destruct Hle as [Hle1 Hle2]. split; [lia|].
    rewrite Forall_forall in Hlt, Hle2 |- *. intros v Hv. specialize (Hlt v Hv). specialize (Hle2 v Hv). lia. }
  assert (0 + zlen all <= lastIndex) as Hlast.
  { apply (strictlySorted_last all); [done| |done]. eapply Forall_impl; [exact Hrange|]. simpl. lia. }
  assert (forall todo k, todo <> [] -> last todo = Some lastIndex -> Forall (fun v => 0 < v <= GetDegree_ or) todo ->
    detachRemapped or all todo k = Panic) as Hloop.
  { induction todo as [|v todo IH]; intros k Hne' Hl' Hr; [done|]. cbn [detachRemapped]. apply Forall_cons in Hr as [Hv Hr].
    unfold index at 1. rewrite (proj2 (Z.ltb_ge v 0)) by lia.
    destruct (all !! Z.to_nat v) as [raw|] eqn:Hraw; [|done]. simpl.
    assert (0 < raw <= GetDegree_ or) as Hrr by (rewrite Forall_forall in Hrange; apply Hrange; by eapply list_elem_of_lookup_2).
    unfold u32. rewrite Z.mod_small by lia. destruct (Hall (raw - 1) ltac:(lia)) as (r & -> & _). simpl.
    destruct todo as [|w todo].
    - injection Hl' as ->. apply lookup_lt_Some in Hraw. unfold zlen in Hlast. lia.
    - apply IH; [done|by rewrite last_cons_cons in Hl'|done]. }
  unfold DetachOutgoingReferences_. rewrite Hloop; done.
Qed.

(** ** Top-level messages *)

Section topLevel.
Context {Message : Type} (Marshal : Message -> outcome (list Z)) (Unmarshal : list Z -> outcome Message).

(** Messages are marshaled to bytes, and parsed again. *)
Context (Marshal_bytes : forall m data, Marshal m = Ok data -> bytes_ok data).
Context (Unmarshal_Marshal : forall m data, Marshal m = Ok data -> Unmarshal data = Ok m).

Lemma unmarshalReferences_refs refs i pre rest :
  Forall valid_reference refs -> zlen pre = i * 40 ->
  unmarshalReferences (length refs) i (pre ++ rawReferences refs ++ rest) = Ok refs.
Proof.
  intros Hrefs. revert i pre. unfold rawReferences.
  induction Hrefs as [|r refs Hr Hrefs IH]; intros i pre Hpre; simpl; [done|].
  pose proof Hr as [[Hlen Hok] _]. change SHA256V1ReferenceSizeBytes with 40.
  rewrite slice_from_app by done. simpl.
  rewrite <- app_assoc, slice_prefix by (unfold zlen; lia). simpl.
  rewrite (proj2 (NewLocalReference_Ok (rawReference r) r Hok)) by done. simpl.
  rewrite app_assoc, IH; [done|]. unfold zlen in *. rewrite length_app. lia.
Qed.

(** C23: Top-level messages are read back as they were written, with their references, so
    that keys which are made of them identify them. *)
Theorem top_level_roundtrip m refs key :
  Forall valid_reference refs -> zlen refs < 2 ^ 63 -> MarshalTopLevelMessage Marshal m refs = Ok key ->
  UnmarshalTopLevelMessage Unmarshal key = Ok (m, refs).
Proof.
  intros Hrefs Hlen. unfold MarshalTopLevelMessage. destruct (Marshal m) as [data| |] eqn:Em; simpl; [|done..]. intros [= <-].
  change (concat (map rawReference refs)) with (rawReferences refs).
  assert (0 <= zlen refs) by (unfold zlen; lia).
  pose proof (length_rawReferences refs Hrefs) as Hraw. unfold UnmarshalTopLevelMessage.
  rewrite ConsumeForward_AppendForward.
  2: { unfold in_range, convert, u64. apply Z.mod_small. lia. }
  2: { apply bytes_ok_app. split; [by apply rawReferences_ok|by apply (Marshal_bytes m)]. }
  simpl. destruct (AppendForward_ok (zlen refs)) as [_ Hpos]; [unfold encodable; lia|].
  rewrite (proj2 (Z.ltb_ge _ _)) by lia. rewrite slice_from_app by done. simpl.
  change SHA256V1ReferenceSizeBytes with 40. rewrite Z.gtb_ltb.
  rewrite (proj2 (Z.ltb_ge _ _)).
  2: { apply Z.quot_le_lower_bound; [lia|]. unfold zlen in *. rewrite length_app. lia. }
  replace (Z.to_nat (zlen refs)) with (length refs) by (unfold zlen; lia).
  rewrite (unmarshalReferences_refs refs 0 [] data Hrefs eq_refl : unmarshalReferences _ 0 (rawReferences refs ++ data) = _).
  simpl. rewrite slice_from_app by done. simpl. by rewrite (Unmarshal_Marshal m data Em).
Qed.
End topLevel.

(** ** Equality *)

Section equal.
Context {Metadata : Type} (Size : messageOf Z -> Z) (Equal : messageOf Z -> messageOf Z -> bool).
Context (Equal_spec : forall m1 m2, Equal m1 m2 = true -> m1 = m2).
Notation patcher := (ReferenceMessagePatcher Metadata).
Notation heap := (heap Metadata).

Lemma references_equal (refs1 refs2 : list LocalReference) : zlen refs1 = zlen refs2 ->
  forallb (fun '(r1, r2) => bool_decide (r1 = r2)) (zip refs1 refs2) = true -> refs1 = refs2.
Proof.
  revert refs2. induction refs1 as [|r refs1 IH]; intros [|r2 refs2] Hlen; try done; unfold zlen in *; simpl in *; try lia.
  intros [Hr%bool_decide_eq_true Hrest]%andb_true_iff. f_equal; [done|]. apply IH; [unfold zlen; lia|done].
Qed.

(** Messages that are being built, with patchers that share no indices, and that are
    reported to be equal refer to the same objects at the same places. *)
Theorem PatchedMessagesEqual_sound (h : heap) m1 (p1 : patcher) m2 (p2 : patcher) d1 d2 h' :
  patcher_ok h p1 -> patcher_ok h p2 -> disjoint_patchers p1 p2 -> refersTo p1 h m1 d1 -> refersTo p2 h m2 d2 ->
  (forall c r, c ∈ messageCells m1 -> ~ managed p2 c r) ->
  Z.of_nat (size (messagesByReference p1)) < MaxUint32 -> Z.of_nat (size (messagesByReference p2)) < MaxUint32 ->
  (forall c r, c ∈ messageCells m2 -> ~ managed p1 c r) ->
  PatchedMessagesEqual Size Equal h m1 p1 m2 p2 = (h', true) -> d1 = d2.
Proof.
  intros Hp1 Hp2 Hdis Hm1 Hm2 Hc1 Hs1 Hs2 Hc2. unfold PatchedMessagesEqual. destruct (negb _); [done|].
  destruct (SortAndSetReferences h p1) as [h1 [refs1 metas1]] eqn:E1.
  destruct (SortAndSetReferences h1 p2) as [h2 [refs2 metas2]] eqn:E2. intros [= _ Heq].
  unfold TopLevelMessagesEqual in Heq. apply andb_true_iff in Heq as [[Hlen%Z.eqb_eq Hrefs]%andb_true_iff Hv%Equal_spec].
  destruct (SortAndSetReferences_ok h p1 h1 refs1 metas1 Hp1 E1) as (-> & _ & _ & Hn1 & _ & _ & Hkeep1).
  assert (patcher_ok h1 p2) as Hp2' by (apply (patcher_ok_heap h); [lia|done]).
  destruct (SortAndSetReferences_ok h1 p2 h2 refs2 metas2 Hp2' E2) as (-> & _ & _ & _ & _ & _ & Hkeep2).
  assert (view h2 m1 = view h1 m1) as Hview.
  { apply view_same. intros c Hc. apply Hkeep2. intros r. by apply Hc1. }
  assert (refersTo p2 h1 m2 d2) as Hm2'.
  { apply (refersTo_more p2 h); try done. intros c Hc _. apply Hkeep1. intros r. by apply Hc2. }
  rewrite <- (refersTo_sorted h p1 h1 _ metas1 m1 d1 Hp1 E1), <- (refersTo_sorted h1 p2 h2 _ metas2 m2 d2 Hp2' E2); try done.
  - rewrite <- (references_equal _ _ Hlen Hrefs). by rewrite <- Hview, Hv.
  - unfold zlen. by rewrite sortedReferences_length.
  - unfold zlen. by rewrite sortedReferences_length.
Qed.
End equal.

(** ** Runs *)

Module Run.

(** The references of an object and of another one. *)
Definition leaf : LocalReference := contentsReference exampleLeaf.
Definition parent : LocalReference := contentsReference exampleParent.

Lemma triple_eq {A B C} (x : A * (B * C)) : x = (x.1, (x.2.1, x.2.2)).
Proof. by destruct x as [? []]. Qed.

Lemma leaf_valid : valid_reference leaf.
Proof. pose proof exampleLeaf_valid as H. by apply Forall_cons in H as [H _]. Qed.
Lemma parent_valid : valid_reference parent.
Proof. exact exampleParent_valid. Qed.
Lemma leaf_before_parent : bytes_compare (rawReference leaf) (rawReference parent) = -1.
Proof. vm_compute. reflexivity. Qed.

Lemma singleton_inOrder r : inOrder [r].
Proof. intros [|i] [|j] a b Hij Ha Hb; [lia| |lia|]; done. Qed.

(** A message with two indices: a reference, and a set with another one that is too large;
    it is part of an object that only refers to [leaf]. *)
Definition start : heap Z := mkHeap (list_to_map [(0%nat, 1); (1%nat, 1); (2%nat, 7)]) 3 [].
Definition existing : message := Fields [Reference 0%nat; ReferenceSet [1%nat; 2%nat]].

(** A message is built that refers to [parent]. *)
Definition added := AddReference start NewReferenceMessagePatcher parent 50.
Definition built : message := added.1.
Definition builtHeap : heap Z := added.2.1.
Definition builtPatcher : ReferenceMessagePatcher Z := added.2.2.

(** The other one is put next to it. *)
Definition patched := NewPatchedMessageFromExisting [leaf] (fun i => 100 + i) builtHeap existing.
Definition merged := Merge patched.2.1 builtPatcher patched.2.2.
Definition set := SortAndSetReferences merged.1 merged.2.

Lemma built_ok : patcher_ok builtHeap builtPatcher /\ refersTo builtPatcher builtHeap built (Reference (Some parent)) /\
  (forall c r, managed builtPatcher c r <-> c = 3%nat /\ r = parent).
Proof.
  destruct (addIndex_ok (alloc start MaxUint32).2 NewReferenceMessagePatcher 3%nat parent 50 builtHeap builtPatcher)
    as (Hok & _ & _ & Hm & _).
  - apply NewReferenceMessagePatcher_ok.
  - exact parent_valid.
  - simpl. lia.
  - intros r. apply managed_new.
  - reflexivity.
  - split_and!; [done| |].
    + constructor. simpl. apply Hm. by right.
    + intros c r. rewrite Hm. pose proof (managed_new (Metadata := Z) c r). tauto.
Qed.

Lemma patching_keeps_references_witness :
  set.2.1 = [leaf; parent] /\ denote set.2.1 (view set.1 patched.1) = Fields [Reference (Some leaf); ReferenceSet [Some leaf]] /\
  denote set.2.1 (view set.1 built) = Reference (Some parent).
Proof.
  split; [vm_compute; reflexivity|].
  apply (patching_keeps_references [leaf] (fun i => 100 + i) builtHeap builtPatcher built (Reference (Some parent)) existing
    patched.1 patched.2.1 patched.2.2 merged.1 merged.2 set.1 set.2.1 set.2.2).
  - apply Forall_singleton, leaf_valid.
  - apply singleton_inOrder.
  - done.
  - intros c Hc. change (nextCell builtHeap) with 4%nat. cbn in Hc. repeat (apply elem_of_cons in Hc as [->|Hc]; [lia|]). by apply not_elem_of_nil in Hc.
  - apply built_ok.
  - intros c Hc. change (nextCell builtHeap) with 4%nat. cbn in Hc. repeat (apply elem_of_cons in Hc as [->|Hc]; [lia|]). by apply not_elem_of_nil in Hc.
  - apply built_ok.
  - exact (triple_eq patched).
  - exact (surjective_pairing merged).
  - exact (triple_eq set).
  - vm_compute. reflexivity.
Defined.

Definition marshal (_ : gmap nat Z) : outcome (list Z) := Ok [1; 2; 3].
Definition encode (data : list Z) : outcome (list Z * list Z) := Ok (data, [9]).
Definition createdObject := MarshalAndEncodeDeterministic builtHeap builtPatcher marshal encode.

Lemma objects_are_as_announced_witness : exists contents metas, createdObject.2 = Ok ((contents, metas), [9]) /\
  GetHeight (contentsReference contents) = height builtPatcher /\
  GetSizeBytes (contentsReference contents) = GetReferencesSizeBytes builtPatcher + 3 /\
  DetachOutgoingReferences contents = Ok (sortedReferences builtPatcher) /\ GetPayload contents = Ok [1; 2; 3].
Proof.
  pose proof (objects_are_as_announced builtHeap createdObject.1 builtPatcher marshal encode [1; 2; 3] [1; 2; 3] [9] createdObject.2
    (proj1 built_ok) eq_refl eq_refl (surjective_pairing createdObject)) as H.
  rewrite decide_True in H; [exact H|]. vm_compute. repeat split; discriminate.
Defined.

Lemma FlattenReferenceSet_selects_witness :
  exists set', FlattenReferenceSet (Some [2]) (OutgoingReferencesList [leaf; parent]) = Ok set' /\ selected set' = [Some parent].
Proof.
  pose proof (FlattenReferenceSet_selects (Some [2]) (OutgoingReferencesList [leaf; parent]) (list_gets_all _) ltac:(reflexivity)
    ltac:(intros ? [= <-]; repeat constructor; unfold is_u32; lia)) as H.
  destruct (FlattenReferenceSet (Some [2]) (OutgoingReferencesList [leaf; parent])) as [set'| |] eqn:E; [|discriminate E..].
  destruct H as (_ & indices & [= <-] & _ & H). by exists set'.
Defined.

(** Messages that are their own encoding. *)
Definition ownEncoding (data : list Z) : outcome (list Z) := if decide (bytes_ok data) then Ok data else Panic.

Lemma top_level_roundtrip_witness :
  UnmarshalTopLevelMessage Ok (130 :: rawReference leaf ++ rawReference parent ++ [7; 8]) = Ok ([7; 8], [leaf; parent]).
Proof.
  apply (top_level_roundtrip ownEncoding Ok).
  - intros m data. unfold ownEncoding. destruct (decide (bytes_ok m)); [by intros [= <-]|done].
  - intros m data. unfold ownEncoding. destruct (decide (bytes_ok m)); [by intros [= <-]|done].
  - apply Forall_cons. split; [exact leaf_valid|apply Forall_singleton; exact parent_valid].
  - reflexivity.
  - vm_compute. reflexivity.
Defined.

(** A second message that refers to [parent], with a patcher of its own. *)
Definition again := AddReference builtHeap NewReferenceMessagePatcher parent 60.

Definition sameMessage (m1 m2 : messageOf Z) : bool :=
  match m1, m2 with Reference v1, Reference v2 => v1 =? v2 | _, _ => false end.

Lemma sameMessage_eq m1 m2 : sameMessage m1 m2 = true -> m1 = m2.
Proof. destruct m1, m2; simpl; try done. by intros ->%Z.eqb_eq. Qed.

Lemma again_ok : patcher_ok again.2.1 again.2.2 /\ refersTo again.2.2 again.2.1 again.1 (Reference (Some parent)) /\
  (forall c r, managed again.2.2 c r <-> c = 4%nat /\ r = parent).
Proof.
  destruct (addIndex_ok (alloc builtHeap MaxUint32).2 NewReferenceMessagePatcher 4%nat parent 60 again.2.1 again.2.2)
    as (Hok & _ & _ & Hm & _).
  - apply NewReferenceMessagePatcher_ok.
  - exact parent_valid.
  - apply Nat.lt_succ_diag_r.
  - intros r. apply managed_new.
  - reflexivity.
  - split_and!; [done| |].
    + constructor. simpl. apply Hm. by right.
    + intros c r. rewrite Hm. pose proof (managed_new (Metadata := Z) c r). tauto.
Qed.

Lemma PatchedMessagesEqual_sound_witness :
  (PatchedMessagesEqual (fun _ => 0) sameMessage again.2.1 built builtPatcher again.1 again.2.2).2 = true /\
  Reference (Some parent) = Reference (Some parent).
Proof.
  split; [vm_compute; reflexivity|].
  apply (PatchedMessagesEqual_sound (fun _ => 0) sameMessage sameMessage_eq again.2.1 built builtPatcher again.1 again.2.2 _ _
    (PatchedMessagesEqual (fun _ => 0) sameMessage again.2.1 built builtPatcher again.1 again.2.2).1).
  - apply (patcher_ok_heap builtHeap); [apply Nat.le_succ_diag_r|apply built_ok].
  - apply again_ok.
  - intros c r r' [-> _]%(proj2 (proj2 built_ok)) [H _]%again_ok. discriminate H.
  - constructor. destruct built_ok as (_ & H & _). by inversion H.
  - apply again_ok.
  - intros c r Hc [-> _]%again_ok. by apply list_elem_of_singleton in Hc.
  - reflexivity.
  - reflexivity.
  - intros c r Hc%list_elem_of_singleton [Hm _]%(proj2 (proj2 built_ok)). rewrite Hm in Hc. discriminate Hc.
  - vm_compute. reflexivity.
Defined.

(** A message of an object without references is not copied, nor are its indices, which
    are not valid, set: once it is put into an object with references, they are valid. *)
Definition unpatched := NewPatchedMessageFromExisting [] (fun _ => 0) builtHeap (Reference 0%nat).
Definition unpatchedMerged := Merge unpatched.2.1 builtPatcher unpatched.2.2.
Definition unpatchedSet := SortAndSetReferences unpatchedMerged.1 unpatchedMerged.2.

Theorem invalid_reference_becomes_valid : denote [] (view builtHeap (Reference 0%nat)) = Reference None /\
  denote unpatchedSet.2.1 (view unpatchedSet.1 unpatched.1) = Reference (Some parent).
Proof. vm_compute. by split. Qed.
End Run.
