(* ===== verification/Mirrored.v ===== *)
(** * Mirrored object stores

    [pkg/storage/object/mirrored]: a decorator that writes objects to two
    replicas, reads them from either, and repairs what one of them has lost.

    The two replicas are states with their own [ObjectStore] instances.  The
    goroutines that call both replicas share nothing, so that the calls are made
    one after the other here; when both fail, the error of replica A is
    returned, where the source returns that of the call that failed first. *)

From Stdlib Require Import Sorted.
From S2P Require Import Prelude Varint LossyMap References EpochList LocationBlobMap RecordArrays ObjectStore LeaseMarshaling LocalStore LocalObjectStore.

(** ** [lease.go] *)

Record Lease (TLeaseA TLeaseB : Type) := mkLease { LeaseA : TLeaseA; LeaseB : TLeaseB }.
Arguments mkLease {TLeaseA TLeaseB} _ _.
Arguments LeaseA {TLeaseA TLeaseB} _.
Arguments LeaseB {TLeaseA TLeaseB} _.

Section lease.
Context {LA LB : Type} `{!LeaseMarshaler LA} `{!LeaseMarshaler LB}.

Definition mirrored_MarshalLease (lease : Lease LA LB) (dst : list Z) : list Z :=
  let dstA := MarshalLease (LeaseA lease) dst in
  let lengthA := zlen dstA - zlen dst in
  let dst := MarshalLease (LeaseB lease) dstA in
  AppendBackward dst lengthA.

Definition mirrored_UnmarshalLease (src : list Z) : outcome (Lease LA LB) :=
  '(lengthA, n) ← ConsumeBackward Varint.Uint64 src;
  if n <? 0 then Err (StatusError CodeInvalidArgument) else
  src ← slice src 0 (zlen src - n);
  if u64 (zlen src) <? lengthA then Err (StatusError CodeInvalidArgument) else
  srcA ← slice src 0 lengthA;
  leaseA ← UnmarshalLease srcA;
  srcB ← slice_from src lengthA;
  leaseB ← UnmarshalLease srcB;
  Ok (mkLease leaseA leaseB).
End lease.

#[global] Instance mirrored_LeaseMarshaler {LA LB} `{!LeaseMarshaler LA} `{!LeaseMarshaler LB}
    : LeaseMarshaler (Lease LA LB) :=
  {| MarshalLease := mirrored_MarshalLease; UnmarshalLease := mirrored_UnmarshalLease |}.

(** ** [uploader.go] *)

(** The loop that merges the indices that the replicas want, both of which are
    in increasing order. *)
Fixpoint mergeWant (wantA : list Z) : list Z -> list Z :=
  fix merge (wantB : list Z) : list Z :=
    match wantA, wantB with
    | li :: wantA', lj :: wantB' =>
        if li <? lj then li :: mergeWant wantA' wantB
        else if lj <? li then lj :: merge wantB'
        else li :: mergeWant wantA' wantB'
    | _, _ => wantA ++ wantB
    end.

(** What the results of both replicas lead to. *)
Inductive combined (L : Type) :=
  | Return (result : UploadObjectResult L)
  | ReplicateAToB
  | ReplicateBToA.
Arguments Return {L} _.
Arguments ReplicateAToB {L}.
Arguments ReplicateBToA {L}.

Definition combineResults {LA LB} (resultA : UploadObjectResult LA) (resultB : UploadObjectResult LB)
    (contentsIfIncomplete : option Contents) : combined (Lease LA LB) :=
  match resultA with
  | UploadObjectComplete leaseA =>
      match resultB with
      | UploadObjectComplete leaseB => Return (UploadObjectComplete (mkLease leaseA leaseB))
      | UploadObjectIncomplete _ wantB => Return (UploadObjectIncomplete contentsIfIncomplete wantB)
      | UploadObjectMissing => ReplicateAToB
      end
  | UploadObjectIncomplete _ wantA =>
      match resultB with
      | UploadObjectComplete _ => Return (UploadObjectIncomplete contentsIfIncomplete wantA)
      | UploadObjectIncomplete _ wantB =>
          Return (UploadObjectIncomplete contentsIfIncomplete (mergeWant wantA wantB))
      | UploadObjectMissing => ReplicateAToB
      end
  | UploadObjectMissing =>
      match resultB with
      | UploadObjectComplete _ => ReplicateBToA
      | UploadObjectIncomplete _ _ => ReplicateBToA
      | UploadObjectMissing => Return UploadObjectMissing
      end
  end.

(** [if incomplete, ok := result.(object.UploadObjectIncomplete); contents == nil && ok] *)
Definition extractContents {L} (contents : option Contents) (result : UploadObjectResult L)
    : option Contents :=
  match contents, result with
  | None, UploadObjectIncomplete contents' _ => contents'
  | _, _ => contents
  end.

(** A result whose contents are not looked at any more. *)
Definition failed {S A B} (s : S) (o : outcome A) : S * outcome B :=
  (s, match o with Err e => Err e | _ => Panic end).

Section mirrored.
Context {SA SB R LA LB : Type}.
Context `{!ObjectStore SA R LA} `{!ObjectStore SB R LB}.

Record mirrored := mkMirrored {
  replicaA : SA;
  replicaB : SB;
  (** [downloader.round], a [uint32]. *)
  round : Z;
}.

(** Replicating an object to a replica that does not have it: the contents
    that were used, and the result of that replica.  [None] stands for an
    object that has disappeared from the other replica in the mean time. *)
Definition replicate {SF SD LF LD} `{!ObjectStore SF R LF} `{!ObjectStore SD R LD}
    (from : SF) (to : SD) (reference : R) (contents : option Contents) (leases : list LD)
    : SF * SD * outcome (option (Contents * UploadObjectResult LD)) :=
  let '(from, downloaded) :=
    match contents with
    | Some contents => (from, Ok contents)
    | None => os_DownloadObject from reference
    end in
  match downloaded with
  | Ok contents =>
      let '(to, result) := os_UploadObject to reference (Some contents) leases false in
      (from, to, result ← result; Ok (Some (contents, result)))
  | Err e => (from, to, if isNotFound e then Ok None else Err e)
  | Panic => (from, to, Panic)
  end.

(** The [for] loop of [UploadObject]; two rounds are enough. *)
Fixpoint uploadLoop (fuel : nat) (s : mirrored) (reference : R) (contents : option Contents)
    (leasesA : list LA) (leasesB : list LB) (resultA : UploadObjectResult LA)
    (resultB : UploadObjectResult LB) (wantContentsIfIncomplete : bool)
    : mirrored * outcome (UploadObjectResult (Lease LA LB)) :=
  match fuel with
  | O => (s, Panic)
  | S fuel =>
      let contents := extractContents contents resultA in
      let contents := extractContents contents resultB in
      let contentsIfIncomplete := if wantContentsIfIncomplete then contents else None in
      match combineResults resultA resultB contentsIfIncomplete with
      | Return result => (s, Ok result)
      | ReplicateAToB =>
          let '(a, b, res) := replicate (replicaA s) (replicaB s) reference contents leasesB in
          let s := mkMirrored a b (round s) in
          match res with
          | Ok (Some (contents, resultB)) =>
              uploadLoop fuel s reference (Some contents) leasesA leasesB resultA resultB
                wantContentsIfIncomplete
          | Ok None => (s, Ok UploadObjectMissing)
          | res => failed s res
          end
      | ReplicateBToA =>
          let '(b, a, res) := replicate (replicaB s) (replicaA s) reference contents leasesA in
          let s := mkMirrored a b (round s) in
          match res with
          | Ok (Some (contents, resultA)) =>
              uploadLoop fuel s reference (Some contents) leasesA leasesB resultA resultB
                wantContentsIfIncomplete
          | Ok None => (s, Ok UploadObjectMissing)
          | res => failed s res
          end
      end
  end.

Definition mirrored_UploadObject (s : mirrored) (reference : R) (contents : option Contents)
    (childrenLeases : list (Lease LA LB)) (wantContentsIfIncomplete : bool)
    : mirrored * outcome (UploadObjectResult (Lease LA LB)) :=
  let childrenLeasesA := map LeaseA childrenLeases in
  let childrenLeasesB := map LeaseB childrenLeases in
  let '(a, resultA) := os_UploadObject (replicaA s) reference contents childrenLeasesA
                         wantContentsIfIncomplete in
  let '(b, resultB) := os_UploadObject (replicaB s) reference contents childrenLeasesB
                         wantContentsIfIncomplete in
  let s := mkMirrored a b (round s) in
  match resultA, resultB with
  | Ok resultA, Ok resultB =>
      uploadLoop 2 s reference contents childrenLeasesA childrenLeasesB resultA resultB
        wantContentsIfIncomplete
  | Panic, _ | _, Panic => (s, Panic)
  | Err e, _ => (s, Err e)
  | _, Err e => (s, Err e)
  end.

(** ** [downloader.go] *)

(** [unidirectionalDownloader.downloadObject] *)
Definition downloadObject {SF SD LF LD} `{!ObjectStore SF R LF} `{!ObjectStore SD R LD}
    (first : SF) (second : SD) (reference : R) : SF * SD * outcome Contents :=
  match os_DownloadObject first reference with
  | (first, Ok contents) => (first, second, Ok contents)
  | (first, Panic) => (first, second, Panic)
  | (first, Err e) =>
      if negb (isNotFound e) then (first, second, Err e) else
      match os_DownloadObject second reference with
      | (second, Ok contents) =>
          let '(first, result) := os_UploadObject first reference (Some contents) [] false in
          (first, second, _ ← result; Ok contents)
      | (second, res) => (first, second, res)
      end
  end.

Definition mirrored_DownloadObject (s : mirrored) (reference : R) : mirrored * outcome Contents :=
  let round := u32 (round s + 1) in
  if round mod 2 =? 1 then
    let '(a, b, res) := downloadObject (replicaA s) (replicaB s) reference in
    (mkMirrored a b round, res)
  else
    let '(b, a, res) := downloadObject (replicaB s) (replicaA s) reference in
    (mkMirrored a b round, res).

#[global] Instance mirrored_ObjectStore : ObjectStore mirrored R (Lease LA LB) := {|
  os_DownloadObject := mirrored_DownloadObject;
  os_UploadObject := mirrored_UploadObject;
|}.
End mirrored.
Arguments mirrored SA SB : clear implicits.

(** ** What mirroring promises *)

Section laws.
Context {SA SB R LA LB : Type} `{!ObjectReference R}.
Context `{!ObjectStore SA R LA} `{!ObjectStore SB R LB}.
Context `{!ObjectStoreLaws SA R LA} `{!ObjectStoreLaws SB R LB}.

(** What a result tells about the replica that returned it. *)
Definition result_ok {S L} `{!ObjectStore S R L} `{!ObjectStoreLaws S R L} (s : S) (r : R)
    (x : UploadObjectResult L) : Prop :=
  match x with
  | UploadObjectComplete _ => os_has s r
  | UploadObjectIncomplete contents _ => os_has s r /\ forall c, contents = Some c -> object_of r c
  | UploadObjectMissing => True
  end.

Definition contents_ok (r : R) (contents : option Contents) : Prop :=
  forall c, contents = Some c -> object_of r c.

Lemma extractContents_ok {S L} `{!ObjectStore S R L} `{!ObjectStoreLaws S R L} (s : S) r contents
    (x : UploadObjectResult L) :
  contents_ok r contents -> result_ok s r x -> contents_ok r (extractContents contents x).
Proof. intros Hc Hx c. destruct contents as [c'|], x; simpl; try apply Hc; try done. by apply Hx. Qed.

(** An upload with contents. *)
Lemma upload_contents {S L} `{!ObjectStore S R L} `{!ObjectStoreLaws S R L} n (s : S) r c leases want s' res :
  0 <= n -> os_inv (n + os_cost S r) s -> os_accepts S r -> object_of r c -> leases_for r leases ->
  os_UploadObject s r (Some c) leases want = (s', res) ->
  os_inv n s' /\ res <> Panic /\ (forall e, res = Err e -> isNotFound e = false) /\
  forall x, res = Ok x -> present x = true /\ result_ok s' r x.
Proof.
  intros Hn Hi Ha Hc Hl E. destruct (os_Upload n s r (Some c) leases want s' res Hn Hi Ha) as (H1&H2&H3&H4);
    [by intros ? [= <-]|done|done|]. split; [done|]. split; [done|]. split; [intros e He; by apply (H3 e c)|].
  intros x Hx. specialize (H4 x Hx). by destruct x.
Qed.

Section replicate.
Context {SF SD LF LD : Type} `{!ObjectStore SF R LF} `{!ObjectStore SD R LD}.
Context `{!ObjectStoreLaws SF R LF} `{!ObjectStoreLaws SD R LD}.

Lemma replicate_spec n (from : SF) (to : SD) r contents leases from' to' res :
  0 <= n -> os_inv (n + os_cost SF r) from -> os_inv (n + os_cost SD r) to -> os_accepts SF r ->
  os_accepts SD r -> contents_ok r contents -> leases_for r leases -> os_has from r ->
  replicate from to r contents leases = (from', to', res) ->
  os_inv n from' /\ os_inv n to' /\ res <> Panic /\
  (forall e c, res = Err e -> contents = Some c -> isNotFound e = false) /\
  (res = Ok None -> contents = None) /\
  forall c x, res = Ok (Some (c, x)) ->
    object_of r c /\ present x = true /\ result_ok to' r x /\ os_has from' r.
Proof.
  intros Hn Hf Ht Haf Hat Hc Hl Hhas. unfold replicate.
  assert (os_inv n to) as Ht0 by (eapply os_inv_mono; [|exact Ht]; pose proof (os_cost_nonneg r Hat); lia).
  assert (forall from1 c, os_inv n from1 -> os_has from1 r -> object_of r c ->
    (let '(to, result) := os_UploadObject to r (Some c) leases false in
      (from1, to, result ← result; Ok (Some (c, result)))) = (from', to', res) ->
    os_inv n from' /\ os_inv n to' /\ res <> Panic /\
    (forall e, res = Err e -> isNotFound e = false) /\ res <> Ok None /\
    forall c x, res = Ok (Some (c, x)) ->
      object_of r c /\ present x = true /\ result_ok to' r x /\ os_has from' r) as Hup.
  { intros from1 c Hf1 Hh1 Hc1. destruct (os_UploadObject to r (Some c) leases false) as [to1 result] eqn:E.
    intros [= <- <- <-]. destruct (upload_contents n to r c leases false to1 result Hn Ht Hat Hc1 Hl E) as (H1&H2&H3&H4).
    split; [done|]. split; [done|]. destruct result as [x|e|]; simpl; [| |done].
    2: { split; [done|]. split; [intros e' [= <-]; by apply H3|]. by split. }
    split; [done|]. split; [done|]. split; [done|]. intros c' x' [= <- <-].
    destruct (H4 x eq_refl). by split_and!. }
  destruct contents as [c|].
  - intros E. assert (os_inv n from) as Hf0
      by (eapply os_inv_mono; [|exact Hf]; pose proof (os_cost_nonneg r Haf); lia).
    destruct (Hup from c Hf0 Hhas (Hc c eq_refl) E) as (?&?&?&He&?&?).
    split_and!; try done. intros e c' ? _. by apply He.
  - destruct (os_DownloadObject from r) as [from1 downloaded] eqn:E.
    destruct (os_Download n from r from1 downloaded Hn Hf Haf E) as (H1&H2&H3&H4).
    destruct downloaded as [c|e|]; [| |done].
    + destruct (H3 c eq_refl) as [Hc1 Hh1]. intros E'.
      destruct (Hup from1 c H1 Hh1 Hc1 E') as (?&?&?&_&?&?). by split_and!.
    + intros [= <- <- <-]. split; [done|]. split; [done|]. destruct (isNotFound e); by split_and!.
Qed.

Lemma downloadObject_spec n (first : SF) (second : SD) r first' second' res :
  0 <= n -> os_inv (n + 2 * os_cost SF r) first -> os_inv (n + os_cost SD r) second -> os_accepts SF r ->
  os_accepts SD r -> downloadObject first second r = (first', second', res) ->
  os_inv n first' /\ os_inv n second' /\ res <> Panic /\
  (forall c, res = Ok c -> object_of r c /\ os_has first' r) /\
  (forall e, res = Err e -> isNotFound e = true -> ~ os_has first r /\ ~ os_has second r).
Proof.
  intros Hn Hf Hs Haf Hat. unfold downloadObject.
  pose proof (os_cost_nonneg r Haf). pose proof (os_cost_nonneg r Hat).
  assert (os_inv n second) as Hs0 by (eapply os_inv_mono; [|exact Hs]; lia).
  destruct (os_DownloadObject first r) as [first1 res1] eqn:E1.
  destruct (os_Download (n + os_cost SF r) first r first1 res1) as (H1&H2&H3&H4); [lia| |done|done|].
  { eapply os_inv_mono; [|exact Hf]. lia. }
  assert (os_inv n first1) as Hf1 by (eapply os_inv_mono; [|exact H1]; lia).
  destruct res1 as [c|e|]; [|destruct (isNotFound e) eqn:En; cbn [negb]|done].
  - intros [= <- <- <-]. by split_and!.
  - destruct (os_DownloadObject second r) as [second1 res2] eqn:E2.
    destruct (os_Download n second r second1 res2 Hn Hs Hat E2) as (I1&I2&I3&I4).
    destruct res2 as [c|e2|]; [| |done].
    + destruct (I3 c eq_refl) as [Hc _].
      destruct (os_UploadObject first1 r (Some c) [] false) as [first2 res3] eqn:E3.
      destruct (upload_contents n first1 r c [] false first2 res3 Hn H1 Haf Hc (leases_for_nil r) E3) as (J1&J2&J3&J4).
      intros [= <- <- <-]. split; [done|]. split; [done|].
      destruct res3 as [x|e3|]; simpl; [| |done].
      * split; [done|]. split; [|done]. intros c' [= <-]. split; [done|].
        destruct (J4 x eq_refl) as [Hp Hx]. destruct x; [done|by destruct Hx|done].
      * split; [done|]. split; [done|]. intros e' [= <-] He'. by rewrite (J3 e3 eq_refl) in He'.
    + intros [= <- <- <-]. split_and!; try done. intros e' [= <-] He'.
      split; [by apply (H4 e eq_refl)|by apply (I4 e2 eq_refl)].
  - intros [= <- <- <-]. split_and!; try done.
    intros e' [= <-] He'. by rewrite En in He'.
Qed.
End replicate.

(** *** The loop of [UploadObject] *)

Abbreviation M := (mirrored SA SB).

Definition both_have (s : M) (r : R) : Prop := os_has (replicaA s) r /\ os_has (replicaB s) r.

Definition mirrored_result_ok (s : M) (r : R) (contents : option Contents)
    (x : UploadObjectResult (Lease LA LB)) : Prop :=
  match x with
  | UploadObjectComplete _ => both_have s r
  | UploadObjectIncomplete c _ => both_have s r /\ contents_ok r c
  | UploadObjectMissing => contents = None
  end.

Definition loop_spec (n : Z) (r : R) (contents : option Contents) (s : M)
    (out : M * outcome (UploadObjectResult (Lease LA LB))) : Prop :=
  os_inv n (replicaA out.1) /\ os_inv n (replicaB out.1) /\ out.2 <> Panic /\
  (forall e c, out.2 = Err e -> contents = Some c -> isNotFound e = false) /\
  forall x, out.2 = Ok x -> mirrored_result_ok out.1 r contents x.

(** Both replicas have the object: their results are combined. *)
Lemma uploadLoop_present fuel n (s : M) r contents leasesA leasesB resultA resultB want orig :
  os_inv n (replicaA s) -> os_inv n (replicaB s) -> contents_ok r contents ->
  present resultA = true -> present resultB = true ->
  result_ok (replicaA s) r resultA -> result_ok (replicaB s) r resultB ->
  loop_spec n r orig s
    (uploadLoop (S fuel) s r contents leasesA leasesB resultA resultB want).
Proof.
  intros Ha Hb Hc Hpa Hpb Hra Hrb.
  pose proof (extractContents_ok _ _ _ _ (extractContents_ok _ _ _ _ Hc Hra) Hrb) as Hc'.
  cbn [uploadLoop]. set (contents' := extractContents (extractContents contents resultA) resultB) in *.
  assert (contents_ok r (if want then contents' else None)) as Hc'' by (by destruct want).
  assert (both_have s r) as Hboth by (destruct resultA, resultB; try done; split; tauto || (by apply Hra) || (by apply Hrb)).
  destruct resultA, resultB; try done; simpl; (split; [done|]; split; [done|]; split; [done|];
    split; [done|]; intros x [= <-]; simpl; by try split).
Qed.

Lemma uploadLoop_spec n (s : M) r contents leasesA leasesB resultA resultB want :
  0 <= n -> os_inv (n + os_cost SA r) (replicaA s) -> os_inv (n + os_cost SB r) (replicaB s) ->
  os_accepts SA r -> os_accepts SB r -> contents_ok r contents ->
  leases_for r leasesA -> leases_for r leasesB ->
  result_ok (replicaA s) r resultA -> result_ok (replicaB s) r resultB ->
  (present resultA = false -> contents = None) -> (present resultB = false -> contents = None) ->
  loop_spec n r contents s
    (uploadLoop 2 s r contents leasesA leasesB resultA resultB want).
Proof.
  intros Hn Ha Hb Haa Hab Hc HlA HlB Hra Hrb Hma Hmb.
  pose proof (os_cost_nonneg r Haa). pose proof (os_cost_nonneg r Hab).
  assert (os_inv n (replicaA s)) as Ha0 by (eapply os_inv_mono; [|exact Ha]; lia).
  assert (os_inv n (replicaB s)) as Hb0 by (eapply os_inv_mono; [|exact Hb]; lia).
  destruct (present resultA) eqn:Ea, (present resultB) eqn:Eb.
  - by apply uploadLoop_present.
  - pose proof (extractContents_ok _ _ _ _ (extractContents_ok _ _ _ _ Hc Hra) Hrb) as Hc'.
    assert (os_has (replicaA s) r) as Hhas by (destruct resultA; [done|by destruct Hra|done]).
    remember 1%nat as fuel. cbn [uploadLoop].
    set (contents' := extractContents (extractContents contents resultA) resultB) in *.
    assert (combineResults resultA resultB (if want then contents' else None) = ReplicateAToB) as ->
      by (by destruct resultA, resultB).
    destruct (replicate (replicaA s) (replicaB s) r contents' leasesB) as [[a b] res] eqn:E.
    destruct (replicate_spec n _ _ _ _ _ _ _ _ Hn Ha Hb Haa Hab Hc' HlB Hhas E) as (H1&H2&H3&H4&H5&H6).
    rewrite (Hmb eq_refl) in *. destruct res as [[[c x]|]|e|]; [| | |done].
    + destruct (H6 c x eq_refl) as (Hcx&Hpx&Hx&Hha). subst fuel.
      apply uploadLoop_present; simpl; try done; [by intros ? [= <-]|].
      destruct resultA; [done|by destruct Hra|done].
    + split; [done|]. split; [done|]. split; [done|]. split; [done|]. by intros x [= <-].
    + split; [done|]. split; [done|]. split; [done|]. split; [done|]. by intros x [=].
  - pose proof (extractContents_ok _ _ _ _ (extractContents_ok _ _ _ _ Hc Hra) Hrb) as Hc'.
    assert (os_has (replicaB s) r) as Hhas by (destruct resultB; [done|by destruct Hrb|done]).
    remember 1%nat as fuel. cbn [uploadLoop].
    set (contents' := extractContents (extractContents contents resultA) resultB) in *.
    assert (combineResults resultA resultB (if want then contents' else None) = ReplicateBToA) as ->
      by (by destruct resultA, resultB).
    destruct (replicate (replicaB s) (replicaA s) r contents' leasesA) as [[b a] res] eqn:E.
    destruct (replicate_spec n _ _ _ _ _ _ _ _ Hn Hb Ha Hab Haa Hc' HlA Hhas E) as (H1&H2&H3&H4&H5&H6).
    rewrite (Hma eq_refl) in *. destruct res as [[[c x]|]|e|]; [| | |done].
    + destruct (H6 c x eq_refl) as (Hcx&Hpx&Hx&Hhb). subst fuel.
      apply uploadLoop_present; simpl; try done; [by intros ? [= <-]|].
      destruct resultB; [done|by destruct Hrb|done].
    + split; [done|]. split; [done|]. split; [done|]. split; [done|]. by intros x [= <-].
    + split; [done|]. split; [done|]. split; [done|]. split; [done|]. by intros x [=].
  - rewrite (Hma eq_refl). destruct resultA, resultB; try done.
    split; [done|]. split; [done|]. split; [done|]. split; [done|]. by intros x [= <-].
Qed.

Lemma upload_spec n (s : M) r contents leases want s' res :
  0 <= n -> os_inv (n + 2 * (os_cost SA r + os_cost SB r)) (replicaA s) ->
  os_inv (n + 2 * (os_cost SA r + os_cost SB r)) (replicaB s) ->
  os_accepts SA r -> os_accepts SB r -> contents_ok r contents -> leases_for r leases ->
  mirrored_UploadObject s r contents leases want = (s', res) -> loop_spec n r contents s (s', res).
Proof.
  intros Hn Ha Hb Haa Hab Hc Hl. unfold mirrored_UploadObject.
  pose proof (os_cost_nonneg r Haa). pose proof (os_cost_nonneg r Hab).
  assert (0 <= n + os_cost SA r) as HnA by lia. assert (0 <= n + os_cost SB r) as HnB by lia.
  assert (os_inv (n + os_cost SA r + os_cost SA r) (replicaA s)) as Ha' by (eapply os_inv_mono; [|exact Ha]; lia).
  assert (os_inv (n + os_cost SB r + os_cost SB r) (replicaB s)) as Hb' by (eapply os_inv_mono; [|exact Hb]; lia).
  destruct (os_UploadObject (replicaA s) r contents _ want) as [a resA] eqn:EA.
  destruct (os_Upload (n + os_cost SA r) _ r contents _ want a resA HnA Ha' Haa Hc (leases_for_map _ _ _ Hl) EA) as (A1&A2&A3&A4).
  destruct (os_UploadObject (replicaB s) r contents _ want) as [b resB] eqn:EB.
  destruct (os_Upload (n + os_cost SB r) _ r contents _ want b resB HnB Hb' Hab Hc (leases_for_map _ _ _ Hl) EB) as (B1&B2&B3&B4).
  assert (os_inv n a) as A1' by (eapply os_inv_mono; [|exact A1]; lia).
  assert (os_inv n b) as B1' by (eapply os_inv_mono; [|exact B1]; lia).
  destruct resA as [resA|e|]; [| |done].
  - destruct resB as [resB|e|]; [| |done].
    + intros E. rewrite <- E. specialize (A4 resA eq_refl). specialize (B4 resB eq_refl).
      destruct (uploadLoop_spec n (mkMirrored a b (round s)) r contents (map LeaseA leases) (map LeaseB leases)
        resA resB want) as (H1&H2&H3&H4&H5); try done; auto with bonanza.
      * by destruct resA.
      * by destruct resB.
      * by destruct resA.
      * by destruct resB.
    + intros [= <- <-]. split; [done|]. split; [done|]. split; [done|]. split; [|done].
      intros e' c [= <-]. by apply B3.
  - assert ((s', res) = (mkMirrored a b (round s), Err e) -> loop_spec n r contents s (s', res)) as Hgo.
    { intros [= -> ->]. split; [done|]. split; [done|]. split; [done|]. split; [|done].
      intros e' c [= <-]. by apply A3. }
    destruct resB as [resB|e'|]; [| |done]; intros E; apply Hgo; by rewrite E.
Qed.

Lemma download_spec n (s : M) r s' res :
  0 <= n -> os_inv (n + 2 * (os_cost SA r + os_cost SB r)) (replicaA s) ->
  os_inv (n + 2 * (os_cost SA r + os_cost SB r)) (replicaB s) ->
  os_accepts SA r -> os_accepts SB r -> mirrored_DownloadObject s r = (s', res) ->
  os_inv n (replicaA s') /\ os_inv n (replicaB s') /\ res <> Panic /\
  (forall c, res = Ok c -> object_of r c /\
     if round s' mod 2 =? 1 then os_has (replicaA s') r else os_has (replicaB s') r) /\
  (forall e, res = Err e -> isNotFound e = true -> ~ os_has (replicaA s) r /\ ~ os_has (replicaB s) r).
Proof.
  intros Hn Ha Hb Haa Hab. unfold mirrored_DownloadObject.
  pose proof (os_cost_nonneg r Haa). pose proof (os_cost_nonneg r Hab).
  assert (os_inv (n + 2 * os_cost SA r) (replicaA s)) as Ha2 by (eapply os_inv_mono; [|exact Ha]; lia).
  assert (os_inv (n + 2 * os_cost SB r) (replicaB s)) as Hb2 by (eapply os_inv_mono; [|exact Hb]; lia).
  assert (os_inv (n + os_cost SA r) (replicaA s)) as Ha1 by (eapply os_inv_mono; [|exact Ha]; lia).
  assert (os_inv (n + os_cost SB r) (replicaB s)) as Hb1 by (eapply os_inv_mono; [|exact Hb]; lia).
  destruct (_ =? 1) eqn:Er.
  - destruct (downloadObject (replicaA s) (replicaB s) r) as [[a b] res1] eqn:E. intros [= <- <-].
    destruct (downloadObject_spec n _ _ r a b res1 Hn Ha2 Hb1 Haa Hab E) as (H1&H2&H3&H4&H5).
    simpl. rewrite Er. by split_and!.
  - destruct (downloadObject (replicaB s) (replicaA s) r) as [[b a] res1] eqn:E. intros [= <- <-].
    destruct (downloadObject_spec n _ _ r b a res1 Hn Hb2 Ha1 Hab Haa E) as (H1&H2&H3&H4&H5).
    simpl. rewrite Er. split_and!; try done. intros e He Hnf. by destruct (H5 e He Hnf).
Qed.

(** A mirrored store is an object store again. *)
#[global] Instance mirrored_laws : ObjectStoreLaws M R (Lease LA LB).
Proof.
  refine {|
    os_inv n (s : M) := os_inv n (replicaA s) /\ os_inv n (replicaB s);
    os_cost r := 2 * (os_cost SA r + os_cost SB r);
    os_accepts r := os_accepts SA r /\ os_accepts SB r;
    os_has (s : M) r := os_has (replicaA s) r \/ os_has (replicaB s) r;
  |}.
  - intros n n' s Hle [Ha Hb]. split; (eapply os_inv_mono; [exact Hle|done]).
  - intros r [Ha Hb]. pose proof (os_cost_nonneg r Ha). pose proof (os_cost_nonneg r Hb). lia.
  - intros n s r s' res Hn [Ha Hb] [Haa Hab] E.
    destruct (download_spec n s r s' res Hn Ha Hb Haa Hab E) as (H1&H2&H3&H4&H5).
    split; [done|]. split; [done|]. split.
    + intros c Hc. destruct (H4 c Hc) as [Ho Hhas]. split; [done|].
      destruct (_ =? 1); [by left|by right].
    + intros e He Hnf. destruct (H5 e He Hnf). tauto.
  - intros n s r contents leases want s' res Hn [Ha Hb] [Haa Hab] Hc Hl E.
    destruct (upload_spec n s r contents leases want s' res Hn Ha Hb Haa Hab Hc Hl E) as (H1&H2&H3&H4&H5).
    split; [done|]. split; [done|]. split; [done|]. intros x Hx. specialize (H5 x Hx).
    destruct x; simpl in *; [left; by apply H5| |done]. destruct H5 as [[? _] ?]. split; [by left|done].
Defined.
End laws.

(** ** Merging the wanted leases *)

Lemma mergeWant_nil_l l : mergeWant [] l = l.
Proof. by destruct l. Qed.

Lemma mergeWant_nil_r l : mergeWant l [] = l.
Proof. destruct l; simpl; [done|]. by rewrite app_nil_r. Qed.

Lemma mergeWant_cons x a y b :
  mergeWant (x :: a) (y :: b) =
  if x <? y then x :: mergeWant a (y :: b)
  else if y <? x then y :: mergeWant (x :: a) b
  else x :: mergeWant a b.
Proof. done. Qed.

Lemma mergeWant_elem a b x : x ∈ mergeWant a b <-> x ∈ a \/ x ∈ b.
Proof.
  pose proof (not_elem_of_nil x). revert b. induction a as [|y a IH]; intros b.
  { rewrite mergeWant_nil_l. tauto. }
  induction b as [|z b IHb]; [rewrite mergeWant_nil_r; tauto|]. rewrite mergeWant_cons.
  destruct (Z.ltb_spec y z); [|destruct (Z.ltb_spec z y)].
  - rewrite elem_of_cons, IH, !elem_of_cons. tauto.
  - rewrite elem_of_cons, IHb, !elem_of_cons. tauto.
  - assert (y = z) as -> by lia. rewrite !elem_of_cons, IH. tauto.
Qed.

Lemma StronglySorted_cons_elem (x : Z) l :
  StronglySorted Z.lt (x :: l) <-> StronglySorted Z.lt l /\ forall y, y ∈ l -> x < y.
Proof.
  split.
  - intros H. inversion H as [|?? Hs Hf]; subst. split; [done|]. by apply Forall_forall.
  - intros [Hs Hf]. constructor; [done|]. by apply Forall_forall.
Qed.

(** when both replicas want leases, the merged list is again in increasing
    order, without duplicates, and holds exactly the indices that at least one
    of the replicas wants. *)
Theorem mergeWant_sorted_union a b :
  StronglySorted Z.lt a -> StronglySorted Z.lt b ->
  StronglySorted Z.lt (mergeWant a b) /\ forall x, x ∈ mergeWant a b <-> x ∈ a \/ x ∈ b.
Proof.
  intros Ha Hb. split; [|intros x; apply mergeWant_elem].
  revert b Hb. induction a as [|x a IH]; intros b Hb; [by rewrite mergeWant_nil_l|].
  apply StronglySorted_cons_elem in Ha as [Ha Hxa].
  induction b as [|y b IHb]; [rewrite mergeWant_nil_r; by apply StronglySorted_cons_elem|].
  pose proof Hb as Hb'. apply StronglySorted_cons_elem in Hb as [Hb Hyb]. rewrite mergeWant_cons.
  destruct (Z.ltb_spec x y) as [Hlt|]; [|destruct (Z.ltb_spec y x) as [Hlt|]];
    apply StronglySorted_cons_elem.
  - split; [by apply IH|]. intros z Hz. apply mergeWant_elem in Hz as [Hz|Hz]; [by apply Hxa|].
    apply elem_of_cons in Hz as [->|Hz]; [done|]. specialize (Hyb z Hz). lia.
  - split; [by apply IHb|]. intros z Hz. apply mergeWant_elem in Hz as [Hz|Hz]; [|by apply Hyb].
    apply elem_of_cons in Hz as [->|Hz]; [done|]. specialize (Hxa z Hz). lia.
  - assert (x = y) as -> by lia. split; [by apply IH|]. intros z Hz.
    apply mergeWant_elem in Hz as [Hz|Hz]; [by apply Hxa|by apply Hyb].
Qed.

Lemma mergeWant_sorted_union_witness :
  mergeWant [0; 2; 5] [1; 2; 7] = [0; 1; 2; 5; 7] /\ StronglySorted Z.lt (mergeWant [0; 2; 5] [1; 2; 7]).
Proof.
  split; [reflexivity|]. apply mergeWant_sorted_union; repeat constructor; lia.
Defined.

(** ** Leases *)

Section lease_laws.
Context {LA LB : Type} `{!LeaseMarshaler LA} `{!LeaseMarshaler LB}.
Context `{!LeaseMarshalerLaws LA} `{!LeaseMarshalerLaws LB}.

(** Both leases, and the size of the first one backwards. *)
Definition mirrored_lease_bytes (l : Lease LA LB) : list Z :=
  (lease_bytes (LeaseA l) ++ lease_bytes (LeaseB l)) ++
  reverse (AppendForward [] (zlen (lease_bytes (LeaseA l)))).

(** Slices are shorter than 2^63 bytes. *)
Definition mirrored_lease_valid (l : Lease LA LB) : Prop :=
  lease_valid (LeaseA l) /\ lease_valid (LeaseB l) /\ zlen (mirrored_lease_bytes l) < 2 ^ 63.

Lemma mirrored_lease_size l :
  mirrored_lease_valid l -> encodable (zlen (lease_bytes (LeaseA l))) /\
    zlen (lease_bytes (LeaseA l) ++ lease_bytes (LeaseB l)) < 2 ^ 63.
Proof.
  intros (_&_&H). unfold mirrored_lease_bytes, zlen in *. rewrite !length_app in *.
  unfold encodable. lia.
Qed.

Lemma mirrored_Unmarshal l :
  mirrored_lease_valid l -> mirrored_UnmarshalLease (mirrored_lease_bytes l) = Ok l.
Proof.
  intros Hv. destruct (mirrored_lease_size l Hv) as [He Hs]. destruct Hv as (Ha&Hb&_).
  pose proof (lease_bytes_ok _ Ha) as Hoa. pose proof (lease_bytes_ok _ Hb) as Hob.
  destruct (AppendForward_ok _ He) as [Hok Hlen].
  unfold mirrored_UnmarshalLease, mirrored_lease_bytes. set (a := lease_bytes (LeaseA l)) in *.
  set (b := lease_bytes (LeaseB l)) in *.
  rewrite ConsumeBackward_forward.
  2: { rewrite !bytes_ok_app, bytes_ok_reverse. auto. }
  rewrite reverse_app, reverse_involutive, ConsumeForward_AppendForward.
  3: { rewrite bytes_ok_reverse, bytes_ok_app. auto. }
  2: { apply Z.mod_small. unfold zlen in *. rewrite length_app in Hs. lia. }
  cbn [mbind outcome_bind]. destruct (Z.ltb_spec (zlen (AppendForward [] (zlen a))) 0); [lia|].
  rewrite slice_prefix by (unfold zlen; rewrite (length_app (a ++ b)), length_reverse; lia).
  cbn [mbind outcome_bind]. unfold u64. rewrite Z.mod_small by (unfold zlen in *; lia).
  destruct (Z.ltb_spec (zlen (a ++ b)) (zlen a)) as [Hlt|_]; [unfold zlen in Hlt; rewrite length_app in Hlt; lia|].
  rewrite slice_prefix by done. cbn [mbind outcome_bind]. unfold a, b. rewrite lease_Unmarshal by done.
  cbn [mbind outcome_bind]. rewrite slice_from_app by done. cbn [mbind outcome_bind].
  rewrite lease_Unmarshal by done. by destruct l.
Qed.

#[global] Instance mirrored_LeaseMarshalerLaws : LeaseMarshalerLaws (Lease LA LB).
Proof.
  refine {| lease_valid := mirrored_lease_valid; lease_bytes := mirrored_lease_bytes |}.
  - intros l Hv. destruct (mirrored_lease_size l Hv) as [He _]. destruct Hv as (Ha&Hb&_).
    unfold mirrored_lease_bytes. rewrite !bytes_ok_app, bytes_ok_reverse.
    split; [split; by apply lease_bytes_ok|by apply AppendForward_ok].
  - intros l dst (Ha&Hb&_). simpl. unfold mirrored_MarshalLease, mirrored_lease_bytes.
    rewrite !lease_Marshal, AppendBackward_forward by done. rewrite <- !app_assoc. do 5 f_equal.
    unfold zlen. rewrite length_app. lia.
  - apply mirrored_Unmarshal.
Defined.
End lease_laws.

(** ** Properties *)

(** C13: an upload to a mirrored store repairs differences between the replicas
    and always returns: whichever replica had lost the object, when the result
    is that the object is complete or incomplete, both replicas have it; an
    upload with contents never reports that the object is missing; contents
    that are returned belong to the reference. *)
Theorem mirrored_UploadObject_repairs {SA SB R LA LB} `{!ObjectReference R}
    `{!ObjectStore SA R LA} `{!ObjectStore SB R LB} `{!ObjectStoreLaws SA R LA} `{!ObjectStoreLaws SB R LB}
    (s : mirrored SA SB) r contents (leases : list (Lease LA LB)) want s' res :
  os_inv (2 * (os_cost SA r + os_cost SB r)) (replicaA s) ->
  os_inv (2 * (os_cost SA r + os_cost SB r)) (replicaB s) ->
  os_accepts SA r -> os_accepts SB r -> contents_ok r contents -> leases_for r leases ->
  mirrored_UploadObject s r contents leases want = (s', res) ->
  res <> Panic /\
  forall x, res = Ok x ->
    match x with
    | UploadObjectComplete _ => os_has (replicaA s') r /\ os_has (replicaB s') r
    | UploadObjectIncomplete c _ =>
        os_has (replicaA s') r /\ os_has (replicaB s') r /\ contents_ok r c
    | UploadObjectMissing => contents = None
    end.
Proof.
  intros Ha Hb Haa Hab Hc Hl E.
  destruct (upload_spec 0 s r contents leases want s' res) as (_&_&H3&_&H5); [done..|].
  split; [done|]. intros x Hx. specialize (H5 x Hx). destruct x; [done| |done].
  destruct H5 as [[? ?] ?]. by split_and!.
Qed.

(** a download from a mirrored store copies the object to the replica that
    was asked first when only the other one has it; it returns valid contents,
    and reports NotFound only when neither replica has the object. *)
Theorem mirrored_DownloadObject_copies {SA SB R LA LB} `{!ObjectReference R}
    `{!ObjectStore SA R LA} `{!ObjectStore SB R LB} `{!ObjectStoreLaws SA R LA} `{!ObjectStoreLaws SB R LB}
    (s : mirrored SA SB) r s' res :
  os_inv (2 * (os_cost SA r + os_cost SB r)) (replicaA s) ->
  os_inv (2 * (os_cost SA r + os_cost SB r)) (replicaB s) ->
  os_accepts SA r -> os_accepts SB r ->
  mirrored_DownloadObject s r = (s', res) ->
  res <> Panic /\ round s' = u32 (round s + 1) /\
  (forall c, res = Ok c -> object_of r c /\
     if round s' mod 2 =? 1 then os_has (replicaA s') r else os_has (replicaB s') r) /\
  (forall e, res = Err e -> isNotFound e = true -> ~ os_has (replicaA s) r /\ ~ os_has (replicaB s) r).
Proof.
  intros Ha Hb Haa Hab E.
  destruct (download_spec 0 s r s' res) as (_&_&H3&H4&H5); [done..|].
  split; [done|]. split; [|done]. unfold mirrored_DownloadObject in E.
  destruct (_ =? 1), (downloadObject _ _ _) as [[? ?] ?]; by injection E as <- <-.
Qed.

(** Two local stores, the first of which holds the example object. *)
Definition exampleMirrored : mirrored ExampleStore ExampleStore :=
  mkMirrored uploadedStore exampleStore 0.

Definition exampleLaws : ObjectStoreLaws ExampleStore FlatReference unit :=
  local_laws 64 2 5 3 4 ltac:(lia) ltac:(lia) ltac:(lia) ltac:(lia).

Abbreviation exampleCost := (2 * (FlatReference_GetSizeBytes exampleReference +
  FlatReference_GetSizeBytes exampleReference)).

Lemma exampleMirrored_ok :
  os_inv (ObjectStoreLaws := exampleLaws) exampleCost uploadedStore /\
  os_inv (ObjectStoreLaws := exampleLaws) exampleCost exampleStore /\
  os_accepts (ObjectStoreLaws := exampleLaws) ExampleStore exampleReference.
Proof.
  change (local_inv 64 2 5 3 4 exampleCost uploadedStore /\ local_inv 64 2 5 3 4 exampleCost exampleStore /\
    local_accepts 64 exampleReference).
  unfold local_inv, local_accepts. rewrite exampleReference_size. destruct uploadedStore_inv as [Hu Hn].
  split; [split; [exact Hu|lia]|]. split; [|split; [exact exampleReference_ok|lia]].
  split; [exact exampleStore_inv|]. vm_compute. reflexivity.
Qed.

Lemma mirrored_UploadObject_repairs_witness :
  exists s' x, mirrored_UploadObject exampleMirrored exampleReference None [] false = (s', Ok x) /\
    present x = true /\ local_has 2 5 3 4 (replicaB s') exampleReference.
Proof.
  destruct exampleMirrored_ok as (Ha&Hb&Hr).
  destruct (mirrored_UploadObject exampleMirrored exampleReference None [] false) as [s' res] eqn:E.
  destruct (mirrored_UploadObject_repairs (ObjectStoreLaws0 := exampleLaws) (ObjectStoreLaws1 := exampleLaws)
    exampleMirrored exampleReference None [] false s' res) as [_ H];
    [exact Ha|exact Hb|exact Hr|exact Hr|intros ? [=]|by left|exact E|].
  assert (res = Ok (UploadObjectComplete (mkLease tt tt))) as ->.
  { transitivity (snd (mirrored_UploadObject exampleMirrored exampleReference None [] false));
      [by rewrite E|]. vm_compute. reflexivity. }
  exists s', (UploadObjectComplete (mkLease tt tt)). split; [done|]. split; [done|].
  exact (proj2 (H _ eq_refl)).
Defined.

Lemma mirrored_DownloadObject_copies_witness :
  exists s' res, mirrored_DownloadObject (mkMirrored exampleStore uploadedStore 0) exampleReference = (s', res) /\
    res <> Panic /\ round s' = 1.
Proof.
  destruct exampleMirrored_ok as (Ha&Hb&Hr).
  destruct (mirrored_DownloadObject (mkMirrored exampleStore uploadedStore 0) exampleReference) as [s' res] eqn:E.
  destruct (mirrored_DownloadObject_copies (ObjectStoreLaws0 := exampleLaws) (ObjectStoreLaws1 := exampleLaws)
    (mkMirrored exampleStore uploadedStore 0) exampleReference s' res) as (H&H1&_);
    [exact Hb|exact Ha|exact Hr|exact Hr|exact E|].
  exists s', res. split; [reflexivity|]. split; [exact H|exact H1].
Defined.
