(* ===== verification/Sharded.v ===== *)
(** * Sharded object stores

    [pkg/storage/object/sharded]: the fixed-point logarithm, the weighted
    rendezvous hashing that picks a shard, and the downloader and uploader that
    forward calls to it.  [slices.SortFunc] is an insertion sort: the keys of
    shards differ, and then the sorted list is unique. *)

From Stdlib Require Import Sorted Permutation.
From S2P Require Import Prelude Sha256 References RecordArrays ObjectStore.

(** ** [log2fixed64.go] *)

Definition log2LUTBits : Z := 6.

Definition log2LUT : list Z := [
  0x0000; 0x05ba; 0x0b5d; 0x10eb; 0x1664; 0x1bc8; 0x2119; 0x2656;
  0x2b80; 0x3098; 0x359f; 0x3a94; 0x3f78; 0x444c; 0x4910; 0x4dc5;
  0x526a; 0x5700; 0x5b89; 0x6003; 0x646f; 0x68ce; 0x6d20; 0x7165;
  0x759d; 0x79ca; 0x7dea; 0x81ff; 0x8608; 0x8a06; 0x8dfa; 0x91e2;
  0x95c0; 0x9994; 0x9d5e; 0xa11e; 0xa4d4; 0xa881; 0xac24; 0xafbe;
  0xb350; 0xb6d9; 0xba59; 0xbdd1; 0xc140; 0xc4a8; 0xc807; 0xcb5f;
  0xceaf; 0xd1f7; 0xd538; 0xd872; 0xdba5; 0xded0; 0xe1f5; 0xe513;
  0xe82a; 0xeb3b; 0xee45; 0xf149; 0xf446; 0xf73e; 0xfa2f; 0xfd1a;
  0x0000].

(** A shift by 64 gives zero. *)
Definition Log2Fixed64 (v : Z) : outcome Z :=
  let exponent := Len64 (Z.shiftr v 1) in
  let significand := shl_u64 v (64 - exponent) in
  let lutIndex := Z.shiftr significand (64 - log2LUTBits) in
  lutBegin ← index log2LUT lutIndex;
  lutEnd ← index log2LUT (lutIndex + 1);
  let delta := u16 (lutEnd - lutBegin) in
  let remainingSignificand := shl_u64 significand log2LUTBits in
  let linearApproximation :=
    u64 (shl_u64 lutBegin (64 - 16) + u64 (Z.shiftr remainingSignificand 16 * delta)) in
  let lengthLength := 6 in
  Ok (Z.lor (shl_u64 exponent (64 - lengthLength)) (Z.shiftr linearApproximation lengthLength)).

(** ** [weighted_rendezvous_picker.go] *)

Record WeightedShard := mkWeightedShard { shardKey : list Z; shardWeight : Z }.

Record preprocessedShard := mkPreprocessedShard {
  psHash : Z;
  psWeight : Z;
  psIndex : Z;
}.

Definition maximumWeight (weightedShards : list WeightedShard) : Z :=
  fold_left (fun m s => if m <? shardWeight s then shardWeight s else m) weightedShards 1.

Definition preprocessShard (weightScalingFactor : Z) (i : Z) (s : WeightedShard) : preprocessedShard :=
  mkPreprocessedShard (Z.lor (le_uint (take 8 (sha256 (shardKey s)))) 1)
    (u64 (shardWeight s * weightScalingFactor)) i.

Fixpoint preprocessFrom (weightScalingFactor i : Z) (weightedShards : list WeightedShard)
    : list (list Z * preprocessedShard) :=
  match weightedShards with
  | [] => []
  | s :: weightedShards =>
      (shardKey s, preprocessShard weightScalingFactor i s)
      :: preprocessFrom weightScalingFactor (i + 1) weightedShards
  end.

(** Sorting by key; the keys are carried along with the shards. *)
Fixpoint insertShard (s : list Z * preprocessedShard) (l : list (list Z * preprocessedShard))
    : list (list Z * preprocessedShard) :=
  match l with
  | [] => [s]
  | s' :: l => if bytes_compare s.1 s'.1 <? 0 then s :: s' :: l else s' :: insertShard s l
  end.

Definition sortShards (l : list (list Z * preprocessedShard)) : list (list Z * preprocessedShard) :=
  fold_right insertShard [] l.

Definition weightScalingFactor (weightedShards : list WeightedShard) : Z :=
  (2 ^ 64 - 1) / maximumWeight weightedShards.

Definition NewWeightedRendezvousPicker (weightedShards : list WeightedShard) : list preprocessedShard :=
  (sortShards (preprocessFrom (weightScalingFactor weightedShards) 0 weightedShards)).*2.

(** [fnv.New64a] *)
Definition fnv64aOffset : Z := 14695981039346656037.

Definition shardScore (dataHash : Z) (shard : preprocessedShard) : outcome Z :=
  let combinedHash := u64 (dataHash * psHash shard) in
  l ← Log2Fixed64 combinedHash;
  let minusLogHash := sub_u64 (Z.shiftl 1 32) (Z.shiftr l 32) in
  if minusLogHash =? 0 then Panic else Ok (psWeight shard / minusLogHash).

Fixpoint bestShard (dataHash : Z) (shards : list preprocessedShard) (bestIndex bestScore : Z) : outcome Z :=
  match shards with
  | [] => Ok bestIndex
  | shard :: shards =>
      score ← shardScore dataHash shard;
      if bestScore <? score then bestShard dataHash shards (psIndex shard) score
      else bestShard dataHash shards bestIndex bestScore
  end.

Definition PickShard (shards : list preprocessedShard) (data : list Z) : outcome Z :=
  bestShard (fnv1a data fnv64aOffset) shards 0 0.

(** ** [downloader.go], [uploader.go] *)

Record sharded (S : Type) := mkSharded { shards : list S; picker : list preprocessedShard }.
Arguments mkSharded {S} _ _.
Arguments shards {S} _.
Arguments picker {S} _.

Section sharded.
Context {S R L : Type} `{!BasicReference R} `{!ObjectStore S R L}.

(** Forwarding a call to the shard of a reference. *)
Definition onShard {A} (s : sharded S) (reference : R) (call : S -> S * outcome A)
    : sharded S * outcome A :=
  match PickShard (picker s) (br_GetRawReference reference) with
  | Ok shardIndex =>
      match index (shards s) shardIndex with
      | Ok shard =>
          let '(shard, res) := call shard in
          (mkSharded (<[Z.to_nat shardIndex := shard]> (shards s)) (picker s), res)
      | _ => (s, Panic)
      end
  | _ => (s, Panic)
  end.

Definition sharded_DownloadObject (s : sharded S) (reference : R) : sharded S * outcome Contents :=
  onShard s reference (fun shard => os_DownloadObject shard reference).

Definition sharded_UploadObject (s : sharded S) (reference : R) (contents : option Contents)
    (childrenLeases : list L) (wantContentsIfIncomplete : bool)
    : sharded S * outcome (UploadObjectResult L) :=
  onShard s reference (fun shard =>
    os_UploadObject shard reference contents childrenLeases wantContentsIfIncomplete).

#[global] Instance sharded_ObjectStore : ObjectStore (sharded S) R L := {|
  os_DownloadObject := sharded_DownloadObject;
  os_UploadObject := sharded_UploadObject;
|}.
End sharded.

(** ** The logarithm *)

Definition lutDelta (i : Z) : Z :=
  u16 (nth (Z.to_nat (i + 1)) log2LUT 0 - nth (Z.to_nat i) log2LUT 0).

Abbreviation lutAt i := (nth (Z.to_nat i) log2LUT 0).

(** The table increases, up to 2^16 after its last entry. *)
Definition lut_checked : bool :=
  forallb (fun i =>
    (0 <=? lutAt i) && (0 <=? lutDelta i) && (lutAt i + lutDelta i <=? 2 ^ 16) &&
    forallb (fun j => (j <=? i) || (lutAt i + lutDelta i <=? lutAt j)) (seqZ 0 64)) (seqZ 0 64).

Lemma lut_ok i :
  0 <= i < 64 -> 0 <= lutAt i /\ 0 <= lutDelta i /\ lutAt i + lutDelta i <= 2 ^ 16 /\
  forall j, i < j < 64 -> lutAt i + lutDelta i <= lutAt j.
Proof.
  intros Hi. assert (lut_checked = true) as H by (vm_compute; reflexivity).
  unfold lut_checked in H. rewrite forallb_forall in H. specialize (H i).
  rewrite <- list_elem_of_In in H. specialize (H ltac:(apply elem_of_seqZ; lia)). cbv beta in H.
  apply andb_true_iff in H as [H Hj]. boolprop.
  split; [done|]. split; [done|]. split; [done|]. intros j Hij.
  rewrite forallb_forall in Hj. specialize (Hj j). rewrite <- list_elem_of_In in Hj.
  specialize (Hj ltac:(apply elem_of_seqZ; lia)). boolprop; lia.
Qed.

Lemma index_lut i : 0 <= i <= 64 -> index log2LUT i = Ok (lutAt i).
Proof.
  intros Hi. destruct (lookup_lt_is_Some_2 log2LUT (Z.to_nat i)) as [v Hv]; [simpl; lia|].
  rewrite (index_ok _ i v) by (done || lia). f_equal. by rewrite nth_lookup, Hv.
Qed.

(** The approximation of the fractional part. *)
Definition linear (significand : Z) : Z :=
  let i := significand / 2 ^ 58 in lutAt i * 2 ^ 48 + significand mod 2 ^ 58 / 2 ^ 10 * lutDelta i.

Lemma linear_range s : 0 <= s < 2 ^ 64 ->
  0 <= s / 2 ^ 58 < 64 /\ 0 <= s mod 2 ^ 58 / 2 ^ 10 < 2 ^ 48 /\
  lutAt (s / 2 ^ 58) * 2 ^ 48 <= linear s <= (lutAt (s / 2 ^ 58) + lutDelta (s / 2 ^ 58)) * 2 ^ 48 /\
  0 <= linear s < 2 ^ 64.
Proof.
  intros Hs. assert (0 <= s / 2 ^ 58 < 64) as Hi by (literal_pow; arith).
  assert (0 <= s mod 2 ^ 58 / 2 ^ 10 < 2 ^ 48) as Hr by (literal_pow; arith).
  destruct (lut_ok _ Hi) as (H1&H2&H3&_). unfold linear.
  set (r := s mod 2 ^ 58 / 2 ^ 10) in *. set (b := lutAt (s / 2 ^ 58)) in *.
  set (d := lutDelta (s / 2 ^ 58)) in *.
  assert (0 <= r * d <= (2 ^ 48 - 1) * d) as Hrd by nia.
  split; [done|]. split; [done|]. split; [lia|]. split; [lia|].
  destruct (decide (d = 0)) as [->|]; [|lia].
  assert (b <= 2 ^ 16 - 1 \/ b = 2 ^ 16) as [?|Hb] by lia; [lia|].
  assert (b < 2 ^ 16); [|lia]. unfold b. clear -Hi.
  assert (forallb (fun i => lutAt i <? 2 ^ 16) (seqZ 0 64) = true) as H by (vm_compute; reflexivity).
  rewrite forallb_forall in H. specialize (H (s / 2 ^ 58)). rewrite <- list_elem_of_In in H.
  specialize (H ltac:(apply elem_of_seqZ; lia)). by apply Z.ltb_lt.
Qed.

Lemma linear_mono s s' : 0 <= s <= s' -> s' < 2 ^ 64 -> linear s <= linear s'.
Proof.
  intros Hs Hs'. destruct (linear_range s ltac:(lia)) as (Hi&Hr&Hb&_).
  destruct (linear_range s' ltac:(lia)) as (Hi'&Hr'&Hb'&_).
  assert (s / 2 ^ 58 <= s' / 2 ^ 58) as Hle by (apply Z.div_le_mono; lia).
  destruct (decide (s / 2 ^ 58 = s' / 2 ^ 58)) as [E|Hne].
  - unfold linear. rewrite <- E. destruct (lut_ok _ Hi) as (_&Hd&_).
    assert (s mod 2 ^ 58 / 2 ^ 10 <= s' mod 2 ^ 58 / 2 ^ 10); [|nia].
    apply Z.div_le_mono; [lia|]. rewrite !Z.mod_eq by lia. rewrite <- E. lia.
  - destruct (lut_ok _ Hi) as (_&_&_&Hlut). specialize (Hlut (s' / 2 ^ 58) ltac:(lia)). nia.
Qed.

(** Exponent and significand of the input. *)
Definition exponentOf (v : Z) : Z := Len64 (Z.shiftr v 1).
Definition significandOf (v : Z) : Z := shl_u64 v (64 - exponentOf v).

Lemma Log2Fixed64_linear v :
  0 <= v < 2 ^ 64 -> 0 <= exponentOf v <= 63 /\ 0 <= significandOf v < 2 ^ 64 /\
  Log2Fixed64 v = Ok (exponentOf v * 2 ^ 58 + linear (significandOf v) / 2 ^ 6).
Proof.
  intros Hv. assert (0 <= exponentOf v <= 63) as He.
  { unfold exponentOf. rewrite Z.shiftr_div_pow2 by lia. unfold Len64.
    destruct (Z.eqb_spec (v / 2 ^ 1) 0); [lia|]. assert (0 < v / 2 ^ 1 < 2 ^ 63) as Hh by (literal_pow; arith).
    pose proof (Z.log2_nonneg (v / 2 ^ 1)).
    pose proof (proj1 (Z.log2_lt_pow2 (v / 2 ^ 1) 63 ltac:(lia)) ltac:(lia)). lia. }
  assert (0 <= significandOf v < 2 ^ 64) as Hs by (apply Z.mod_pos_bound; lia).
  split; [done|]. split; [done|]. unfold Log2Fixed64. fold (exponentOf v). fold (significandOf v).
  cbv zeta. set (s := significandOf v) in *. set (e := exponentOf v) in *.
  change (64 - log2LUTBits) with 58. rewrite (Z.shiftr_div_pow2 s) by lia.
  destruct (linear_range s Hs) as (Hi&Hr&Hb&Hlin).
  rewrite !index_lut by lia. cbn [mbind outcome_bind]. fold (lutDelta (s / 2 ^ 58)).
  assert (Z.shiftr (shl_u64 s log2LUTBits) 16 = s mod 2 ^ 58 / 2 ^ 10) as ->.
  { unfold shl_u64, u64. change log2LUTBits with 6. rewrite Z.shiftr_div_pow2, Z.shiftl_mul_pow2 by lia.
    literal_pow. arith. }
  destruct (lut_ok _ Hi) as (H1&H2&H3&_).
  set (r := s mod 2 ^ 58 / 2 ^ 10) in *. set (b := lutAt (s / 2 ^ 58)) in *.
  set (d := lutDelta (s / 2 ^ 58)) in *.
  assert (linear s = b * 2 ^ 48 + r * d) as El by done.
  assert (0 <= r * d) by nia. assert (0 <= b * 2 ^ 48) by nia.
  assert (u64 (shl_u64 b (64 - 16) + u64 (r * d)) = linear s) as ->.
  { unfold shl_u64, u64. change (64 - 16) with 48. rewrite Z.shiftl_mul_pow2 by lia.
    rewrite (Z.mod_small (b * _)), (Z.mod_small (r * d)), Z.mod_small; lia. }
  unfold shl_u64, u64. change (64 - 6) with 58. rewrite Z.shiftl_mul_pow2, (Z.shiftr_div_pow2 (linear s)) by lia.
  rewrite (Z.mod_small (e * _)) by lia. rewrite lor_disjoint; [done|lia|]. literal_pow. arith.
Qed.

Lemma exponentOf_log2 v : 1 <= v < 2 ^ 64 -> exponentOf v = Z.log2 v /\
  significandOf v = (v - 2 ^ Z.log2 v) * 2 ^ (64 - Z.log2 v).
Proof.
  intros Hv. destruct (Z.log2_spec v ltac:(lia)) as [Hlo Hhi].
  pose proof (Z.log2_nonneg v) as H0. set (k := Z.log2 v) in *. replace (Z.succ k) with (k + 1) in Hhi by lia.
  assert (exponentOf v = k) as E.
  { unfold exponentOf. rewrite Z.shiftr_div_pow2 by lia. change (2 ^ 1) with 2.
    destruct (decide (k = 0)) as [Ek|].
    - rewrite Ek in *. assert (v = 1) as -> by (simpl in *; lia). done.
    - assert (2 ^ (k - 1) <= v / 2 < 2 ^ k) as Hd.
      { replace (2 ^ k) with (2 * 2 ^ (k - 1)) in *
          by (rewrite <- (Z.pow_succ_r 2 (k - 1)) by lia; f_equal; lia).
        replace (2 ^ (k + 1)) with (2 * (2 * 2 ^ (k - 1))) in Hhi
          by (rewrite <- (Z.pow_succ_r 2 (k - 1)), <- Z.pow_succ_r by lia; f_equal; lia). arith. }
      unfold Len64. assert (0 < 2 ^ (k - 1)) by (apply Z.pow_pos_nonneg; lia).
      destruct (Z.eqb_spec (v / 2) 0); [lia|].
      rewrite (Z.log2_unique (v / 2) (k - 1)); [lia|lia|]. replace (Z.succ (k - 1)) with k by lia. done. }
  split; [done|]. unfold significandOf. rewrite E. unfold shl_u64, u64.
  assert (k <= 63) by (apply Z.lt_succ_r, (Z.pow_lt_mono_r_iff 2); lia).
  rewrite Z.shiftl_mul_pow2 by lia.
  assert (2 ^ 64 = 2 ^ k * 2 ^ (64 - k)) as Ep by (rewrite <- Z.pow_add_r by lia; f_equal; lia).
  assert (2 ^ (k + 1) = 2 * 2 ^ k) as Ek by (rewrite Z.pow_add_r by lia; lia).
  assert (0 < 2 ^ (64 - k)) by (apply Z.pow_pos_nonneg; lia).
  replace (v * 2 ^ (64 - k)) with ((v - 2 ^ k) * 2 ^ (64 - k) + 1 * 2 ^ 64) by (rewrite Ep; ring).
  rewrite Z_mod_plus_full. apply Z.mod_small. nia.
Qed.

(** the fixed-point logarithm is total, increases with its input, has the
    exact integer part in its upper six bits and is exact for powers of two. *)
Theorem Log2Fixed64_monotone v w :
  1 <= v <= w -> w < 2 ^ 64 ->
  exists a b, Log2Fixed64 v = Ok a /\ Log2Fixed64 w = Ok b /\ a <= b < 2 ^ 64 /\
    a / 2 ^ 58 = Z.log2 v /\ (v = 2 ^ Z.log2 v -> a = Z.log2 v * 2 ^ 58).
Proof.
  intros Hv Hw. destruct (Log2Fixed64_linear v) as (He&Hs&->); [lia|].
  destruct (Log2Fixed64_linear w) as (He'&Hs'&->); [lia|]. do 2 eexists. split; [done|]. split; [done|].
  destruct (exponentOf_log2 v) as [E1 E2]; [lia|]. destruct (exponentOf_log2 w) as [E1' E2']; [lia|].
  destruct (linear_range _ Hs) as (_&_&_&Hl). destruct (linear_range _ Hs') as (_&_&_&Hl').
  assert (0 <= linear (significandOf v) / 2 ^ 6 < 2 ^ 58) as Hq by (literal_pow; arith).
  assert (0 <= linear (significandOf w) / 2 ^ 6 < 2 ^ 58) as Hq' by (literal_pow; arith).
  rewrite E1, E1' in *. pose proof (Z.log2_le_mono v w ltac:(lia)). split; [|split].
  - split; [|lia]. destruct (decide (Z.log2 v = Z.log2 w)) as [E|]; [|lia].
    assert (linear (significandOf v) <= linear (significandOf w)) as Hlin.
    { apply linear_mono; [|lia]. split; [lia|]. rewrite E2, E2', E.
      apply Z.mul_le_mono_nonneg_r; [apply Z.pow_nonneg; lia|lia]. }
    rewrite E. pose proof (Z.div_le_mono _ _ (2 ^ 6) ltac:(lia) Hlin). lia.
  - rewrite Z.add_comm, Z.div_add, Z.div_small by lia. lia.
  - intros Ev. rewrite E2, <- Ev, Z.sub_diag. change (linear (0 * _) / 2 ^ 6) with 0. lia.
Qed.

Lemma Log2Fixed64_monotone_witness :
  exists a b, Log2Fixed64 1024 = Ok a /\ Log2Fixed64 1500 = Ok b /\ a <= b < 2 ^ 64 /\
    a / 2 ^ 58 = Z.log2 1024 /\ (1024 = 2 ^ Z.log2 1024 -> a = Z.log2 1024 * 2 ^ 58).
Proof. apply Log2Fixed64_monotone; lia. Defined.

(** ** Picking a shard *)

(** The score of a shard, which is always defined. *)
Definition score (h : Z) (s : preprocessedShard) : Z :=
  match shardScore h s with Ok v => v | _ => 0 end.

Lemma Log2Fixed64_total v : 0 <= v < 2 ^ 64 -> exists a, Log2Fixed64 v = Ok a /\ 0 <= a < 2 ^ 64.
Proof.
  intros Hv. destruct (Log2Fixed64_linear v Hv) as (He&Hs&->). eexists. split; [done|].
  destruct (linear_range _ Hs) as (_&_&_&Hl).
  assert (0 <= linear (significandOf v) / 2 ^ 6 < 2 ^ 58) by (literal_pow; arith). lia.
Qed.

Lemma shardScore_Ok h s : shardScore h s = Ok (score h s) /\
  (2 ^ 32 <= psWeight s -> 0 < score h s).
Proof.
  unfold score, shardScore.
  destruct (Log2Fixed64_total (u64 (h * psHash s))) as (a&->&Ha); [apply Z.mod_pos_bound; lia|].
  cbn [mbind outcome_bind]. rewrite Z.shiftr_div_pow2 by lia. change (Z.shiftl 1 32) with (2 ^ 32).
  assert (0 <= a / 2 ^ 32 < 2 ^ 32) as Hq by (literal_pow; arith).
  assert (sub_u64 (2 ^ 32) (a / 2 ^ 32) = 2 ^ 32 - a / 2 ^ 32) as ->
    by (unfold sub_u64, u64; apply Z.mod_small; lia).
  destruct (Z.eqb_spec (2 ^ 32 - a / 2 ^ 32) 0); [lia|]. split; [done|]. intros Hw.
  apply Z.div_str_pos. lia.
Qed.

Abbreviation Entry := (list Z * preprocessedShard)%type.

(** An entry that is better than another: a higher score, or a lower key. *)
Definition better (h : Z) (e e' : Entry) : Prop :=
  score h e'.2 < score h e.2 \/ (score h e'.2 = score h e.2 /\ bytes_compare e.1 e'.1 < 0).

Definition wins (h : Z) (l : list Entry) (e : Entry) : Prop :=
  e ∈ l /\ forall e', e' ∈ l -> e' = e \/ better h e e'.

Lemma better_asym h e e' : better h e e' -> ~ better h e' e.
Proof.
  unfold better. rewrite (bytes_compare_antisym e.1 e'.1).
  pose proof (bytes_compare_values e.1 e'.1). lia.
Qed.

Lemma wins_unique h l e e' : wins h l e -> wins h l e' -> e = e'.
Proof.
  intros [H1 H2] [H1' H2']. destruct (H2 e' H1') as [->|Hb]; [done|].
  destruct (H2' e H1) as [->|Hb']; [done|]. by destruct (better_asym _ _ _ Hb).
Qed.

Definition before (e e' : Entry) : Prop := bytes_compare e.1 e'.1 < 0.

(** The first entry with the highest score. *)
Lemma bestShard_wins h l bestIndex bestScore :
  StronglySorted before l ->
  exists i, bestShard h l.*2 bestIndex bestScore = Ok i /\
    ((i = bestIndex /\ forall e, e ∈ l -> score h e.2 <= bestScore) \/
     exists e, wins h l e /\ bestScore < score h e.2 /\ i = psIndex e.2).
Proof.
  revert bestIndex bestScore. induction l as [|e l IH]; intros bestIndex bestScore Hs.
  - exists bestIndex. split; [done|]. left. split; [done|]. intros e He. by apply not_elem_of_nil in He.
  - inversion Hs as [|?? Hs' Hf]; subst. rewrite Forall_forall in Hf. cbn [fmap list_fmap bestShard].
    destruct (shardScore_Ok h e.2) as [-> _]. cbn [mbind outcome_bind].
    destruct (Z.ltb_spec bestScore (score h e.2)) as [Hlt|Hge].
    + destruct (IH (psIndex e.2) (score h e.2) Hs') as (i&->&[[-> Hall]|(e'&[Hin Hw]&Hb&->)]).
      * eexists. split; [done|]. right. exists e. split; [|done]. split; [by left|].
        intros e' He'. apply elem_of_cons in He' as [->|He']; [by left|right].
        pose proof (Hall e' He'). pose proof (Hf e' He') as Hk. unfold before, better in *. lia.
      * eexists. split; [done|]. right. exists e'. split; [|split; [lia|done]]. split; [by right|].
        intros e2 He2. apply elem_of_cons in He2 as [->|He2]; [right; left; lia|by apply Hw].
    + destruct (IH bestIndex bestScore Hs') as (i&->&[[-> Hall]|(e'&[Hin Hw]&Hb&->)]).
      * eexists. split; [done|]. left. split; [done|]. intros e' He'.
        apply elem_of_cons in He' as [->|He']; [lia|by apply Hall].
      * eexists. split; [done|]. right. exists e'. split; [|done]. split; [by right|].
        intros e2 He2. apply elem_of_cons in He2 as [->|He2]; [right; left; lia|by apply Hw].
Qed.

Lemma insertShard_elem s l e : e ∈ insertShard s l <-> e = s \/ e ∈ l.
Proof.
  induction l as [|s' l IH]; simpl; [by rewrite elem_of_cons|].
  destruct (_ <? 0); rewrite !elem_of_cons; [tauto|]. rewrite IH. tauto.
Qed.

Lemma sortShards_elem l e : e ∈ sortShards l <-> e ∈ l.
Proof.
  induction l as [|s l IH]; [done|]. simpl. by rewrite insertShard_elem, IH, elem_of_cons.
Qed.

Lemma insertShard_sorted s l :
  StronglySorted before l -> (forall e, e ∈ l -> e.1 <> s.1) -> StronglySorted before (insertShard s l).
Proof.
  induction l as [|s' l IH]; intros Hs Hne; simpl; [by repeat constructor|].
  inversion Hs as [|?? Hs' Hf]; subst. destruct (Z.ltb_spec (bytes_compare s.1 s'.1) 0) as [Hlt|Hge].
  - constructor; [done|]. constructor; [done|]. eapply Forall_impl; [exact Hf|]. intros e He.
    by eapply bytes_compare_trans.
  - constructor; [apply IH; [done|]; intros; apply Hne; by right|]. apply Forall_forall. intros e He.
    apply insertShard_elem in He as [->|He]; [|by rewrite Forall_forall in Hf; apply Hf].
    unfold before. rewrite bytes_compare_antisym. specialize (Hne s' ltac:(by left)).
    destruct (bytes_compare_eq s.1 s'.1) as [He _].
    assert (bytes_compare s.1 s'.1 <> 0) by (intros E; apply Hne; symmetry; by apply He). lia.
Qed.

Lemma sortShards_sorted l : NoDup l.*1 -> StronglySorted before (sortShards l).
Proof.
  induction l as [|s l IH]; intros Hnd; [constructor|]. cbn in Hnd. apply NoDup_cons in Hnd as [Hnin Hnd].
  simpl. apply insertShard_sorted; [by apply IH|]. intros e He E. apply Hnin. rewrite <- E.
  apply list_elem_of_fmap_2. by apply sortShards_elem.
Qed.

Lemma preprocess_keys f i l : (preprocessFrom f i l).*1 = shardKey <$> l.
Proof. revert i. induction l as [|s l IH]; intros i; [done|]. simpl. by rewrite IH. Qed.

Lemma preprocess_app f i l l' :
  preprocessFrom f i (l ++ l') = preprocessFrom f i l ++ preprocessFrom f (i + zlen l) l'.
Proof.
  unfold zlen. revert i. induction l as [|s l IH]; intros i; simpl; [by rewrite Z.add_0_r|].
  rewrite IH. do 3 f_equal. lia.
Qed.

Lemma preprocess_elem f i l e :
  e ∈ preprocessFrom f i l -> i <= psIndex e.2 < i + zlen l /\ exists s, s ∈ l /\ psWeight e.2 = u64 (shardWeight s * f).
Proof.
  unfold zlen. revert i. induction l as [|s l IH]; intros i He; [by apply not_elem_of_nil in He|].
  simpl in He. apply elem_of_cons in He as [->|He].
  - simpl. split; [lia|]. exists s. split; [by left|done].
  - destruct (IH (i + 1) He) as (H1&s'&H2&H3). simpl length. split; [lia|]. exists s'. split; [by right|done].
Qed.

Lemma maximumWeight_from l m :
  m <= fold_left (fun m s => if m <? shardWeight s then shardWeight s else m) l m /\
  (forall s, s ∈ l -> shardWeight s <= fold_left (fun m s => if m <? shardWeight s then shardWeight s else m) l m) /\
  (m < 2 ^ 32 -> Forall (fun s => is_u32 (shardWeight s)) l ->
   fold_left (fun m s => if m <? shardWeight s then shardWeight s else m) l m < 2 ^ 32).
Proof.
  revert m. induction l as [|s l IH]; intros m; simpl.
  - split; [lia|]. split; [|done]. intros s Hs. by apply not_elem_of_nil in Hs.
  - destruct (IH (if m <? shardWeight s then shardWeight s else m)) as (H1&H2&H3).
    destruct (Z.ltb_spec m (shardWeight s)).
    + split; [lia|]. split.
      * intros s' Hs'. apply elem_of_cons in Hs' as [->|Hs']; [lia|by apply H2].
      * intros Hm Hall. inversion Hall as [|?? Hw Hall']; subst. unfold is_u32 in Hw. apply H3; [lia|done].
    + split; [lia|]. split.
      * intros s' Hs'. apply elem_of_cons in Hs' as [->|Hs']; [lia|by apply H2].
      * intros Hm Hall. inversion Hall; subst. by apply H3.
Qed.

Definition shards_ok (l : list WeightedShard) : Prop :=
  NoDup (shardKey <$> l) /\ Forall (fun s => 1 <= shardWeight s < 2 ^ 32) l.

(** Weights are scaled without overflow and stay above every -log(hash). *)
Lemma scaled_weight l s :
  shards_ok l -> s ∈ l -> 2 ^ 32 <= u64 (shardWeight s * weightScalingFactor l).
Proof.
  intros [_ Hw] Hs. unfold weightScalingFactor, maximumWeight.
  destruct (maximumWeight_from l 1) as (H1&H2&H3). specialize (H2 s Hs).
  rewrite Forall_forall in Hw. pose proof (Hw s Hs) as Hws. set (m := fold_left _ l 1) in *.
  assert (m < 2 ^ 32) as Hm.
  { apply H3; [lia|]. apply Forall_forall. intros s' Hs'. specialize (Hw s' Hs'). unfold is_u32. lia. }
  set (f := (2 ^ 64 - 1) / m).
  assert (2 ^ 32 <= f) as Hf by (apply Z.div_le_lower_bound; lia).
  assert (m * f <= 2 ^ 64 - 1) as Hmf by (apply Z.mul_div_le; lia).
  unfold u64. rewrite Z.mod_small by nia. nia.
Qed.

(** The shard that is picked is the winner of the entries. *)
Lemma PickShard_wins l data :
  shards_ok l -> l <> [] ->
  exists e, wins (fnv1a data fnv64aOffset) (preprocessFrom (weightScalingFactor l) 0 l) e /\
    PickShard (NewWeightedRendezvousPicker l) data = Ok (psIndex e.2).
Proof.
  intros Hok Hne. set (h := fnv1a data fnv64aOffset). set (entries := preprocessFrom (weightScalingFactor l) 0 l).
  assert (StronglySorted before (sortShards entries)) as Hsort.
  { apply sortShards_sorted. unfold entries. rewrite preprocess_keys. apply Hok. }
  destruct (bestShard_wins h (sortShards entries) 0 0 Hsort) as (i&E&[[_ Hall]|(e&[Hin Hw]&_&->)]).
  - exfalso. destruct l as [|s l]; [done|].
    assert (exists e, e ∈ entries) as [e He] by (eexists; by left).
    pose proof (proj2 (sortShards_elem entries e) He) as He'. specialize (Hall e He').
    destruct (preprocess_elem _ _ _ _ He) as (_&s'&Hs'&Hwt).
    pose proof (scaled_weight _ s' Hok Hs'). destruct (shardScore_Ok h e.2) as [_ Hpos].
    rewrite Hwt in Hpos. specialize (Hpos H). lia.
  - exists e. split; [|exact E]. split; [by apply sortShards_elem|]. intros e' He'.
    apply Hw. by apply sortShards_elem.
Qed.

(** rendezvous hashing is stable.  When shards are added to a configuration
    without raising the largest weight, every key either moves to one of the
    new shards or stays at the shard it was on; the index that is picked is
    always that of a shard. *)
Theorem PickShard_stable old new data :
  shards_ok (old ++ new) -> old <> [] -> maximumWeight (old ++ new) = maximumWeight old ->
  exists i j, PickShard (NewWeightedRendezvousPicker old) data = Ok i /\ 0 <= i < zlen old /\
    PickShard (NewWeightedRendezvousPicker (old ++ new)) data = Ok j /\
    (j = i \/ zlen old <= j < zlen (old ++ new)).
Proof.
  intros Hok Hne Hmax. assert (shards_ok old) as Hold.
  { destruct Hok as [Hk Hw]. rewrite fmap_app in Hk. apply NoDup_app in Hk as (Hk&_&_).
    apply Forall_app in Hw as [Hw _]. done. }
  assert (old ++ new <> []) as Hne2 by (by destruct old).
  destruct (PickShard_wins old data Hold Hne) as (e&He&->).
  destruct (PickShard_wins (old ++ new) data Hok Hne2) as (e'&He'&->).
  exists (psIndex e.2), (psIndex e'.2). split; [done|].
  destruct (preprocess_elem _ _ _ _ (proj1 He)) as [Hi _]. split; [lia|]. split; [done|].
  assert (weightScalingFactor (old ++ new) = weightScalingFactor old) as Hf
    by (unfold weightScalingFactor; by rewrite Hmax).
  rewrite Hf, preprocess_app in He'. destruct He' as [Hin Hw].
  apply elem_of_app in Hin as [Hin|Hin].
  - left. f_equal. f_equal. eapply wins_unique; [|exact He]. split; [done|]. intros e2 He2.
    apply Hw, elem_of_app. by left.
  - right. destruct (preprocess_elem _ _ _ _ Hin) as [Hj _]. unfold zlen in *. rewrite length_app. lia.
Qed.

Lemma PickShard_stable_witness :
  exists i j, PickShard (NewWeightedRendezvousPicker [mkWeightedShard [65] 2; mkWeightedShard [66] 1]) [1; 2] = Ok i /\
    0 <= i < 2 /\
    PickShard (NewWeightedRendezvousPicker [mkWeightedShard [65] 2; mkWeightedShard [66] 1; mkWeightedShard [67] 2])
      [1; 2] = Ok j /\ (j = i \/ 2 <= j < 3).
Proof.
  apply (PickShard_stable [mkWeightedShard [65] 2; mkWeightedShard [66] 1] [mkWeightedShard [67] 2] [1; 2]).
  - split; [|repeat constructor; simpl; lia]. apply (bool_decide_unpack _). vm_compute. exact I.
  - discriminate.
  - reflexivity.
Defined.

(** ** Sharded stores are object stores *)

Section sharded_laws.
Context {S R L : Type} `{!ObjectReference R} `{!BasicReference R} `{!ObjectStore S R L}.
Context `{!ObjectStoreLaws S R L}.

(** The shard that a reference belongs to. *)
Definition shard_of (s : sharded S) (r : R) (shard : S) : Prop :=
  exists i, PickShard (picker s) (br_GetRawReference r) = Ok i /\ 0 <= i /\
    shards s !! Z.to_nat i = Some shard.

Definition sharded_inv (n : Z) (s : sharded S) : Prop :=
  Forall (os_inv n) (shards s) /\
  forall data, exists i, PickShard (picker s) data = Ok i /\ 0 <= i < zlen (shards s).

Lemma onShard_spec {A} (s : sharded S) r (call : S -> S * outcome A) n m s' res :
  sharded_inv m s -> 0 <= n <= m -> onShard s r call = (s', res) ->
  exists shard shard', shard_of s r shard /\ os_inv m shard /\ call shard = (shard', res) /\
    (os_inv n shard' -> sharded_inv n s' /\ shard_of s' r shard').
Proof.
  intros [Hall Hpick] Hn. unfold onShard.
  destruct (Hpick (br_GetRawReference r)) as (i&Hi&Hr). rewrite Hi.
  destruct (lookup_lt_is_Some_2 (shards s) (Z.to_nat i)) as [shard Hs]; [unfold zlen in Hr; lia|].
  rewrite (index_ok _ i shard) by (done || lia).
  destruct (call shard) as [shard' res'] eqn:E. intros [= <- <-]. exists shard, shard'.
  split; [exists i; split; [done|]; split; [lia|done]|].
  split; [by apply (Forall_lookup_1 _ _ _ _ Hall Hs)|]. split; [done|]. intros Hinv. split.
  - split; simpl.
    + apply Forall_insert; [|done]. eapply Forall_impl; [exact Hall|]. intros x Hx.
      by eapply os_inv_mono.
    + intros data. destruct (Hpick data) as (j&Hj&Hjr). exists j. split; [done|].
      unfold zlen. by rewrite length_insert.
  - exists i. split; [done|]. split; [lia|]. simpl. apply list_lookup_insert_eq. by eapply lookup_lt_Some.
Qed.

Lemma shard_of_fun s r shard shard' : shard_of s r shard -> shard_of s r shard' -> shard = shard'.
Proof. intros (i&Hi&_&Hs) (j&Hj&_&Hs'). congruence. Qed.

#[global] Instance sharded_ObjectStoreLaws : ObjectStoreLaws (sharded S) R L.
Proof.
  refine {|
    os_inv := sharded_inv;
    os_cost := os_cost S;
    os_accepts := os_accepts S;
    os_has s r := exists shard, shard_of s r shard /\ os_has shard r;
  |}.
  - intros n n' s Hn [Hall Hpick]. split; [|done]. eapply Forall_impl; [exact Hall|].
    intros x Hx. by eapply os_inv_mono.
  - intros r. apply os_cost_nonneg.
  - intros n s r s' res Hn Hs Hr E. pose proof (os_cost_nonneg r Hr).
    destruct (onShard_spec s r _ n _ s' res Hs ltac:(lia) E) as (shard&shard'&Hof&Hinv&Hc&Hback).
    destruct (os_Download n shard r shard' res Hn Hinv Hr Hc) as (H1&H2&H3&H4).
    destruct (Hback H1) as [H5 H6]. split; [done|]. split; [done|]. split.
    + intros c Hok. destruct (H3 c Hok). split; [done|]. by exists shard'.
    + intros e He Hnf (x&Hx&Hhas). apply (H4 e He Hnf). by rewrite (shard_of_fun _ _ _ _ Hof Hx).
  - intros n s r contents leases want s' res Hn Hs Hr Hcontents Hl E. pose proof (os_cost_nonneg r Hr).
    destruct (onShard_spec s r _ n _ s' res Hs ltac:(lia) E) as (shard&shard'&Hof&Hinv&Hc&Hback).
    destruct (os_Upload n shard r contents leases want shard' res Hn Hinv Hr Hcontents Hl Hc) as (H1&H2&H3&H4).
    destruct (Hback H1) as [H5 H6]. split; [done|]. split; [done|]. split; [done|]. intros x Hx.
    specialize (H4 x Hx). destruct x; [by exists shard'| |done]. destruct H4 as [? ?].
    split; [by exists shard'|done].
Defined.
End sharded_laws.

(** The picker of a configuration suits a list of as many shards. *)
Lemma configured_inv {S L} `{!ObjectStore S LocalReference L} `{!ObjectStoreLaws S LocalReference L}
    n (l : list WeightedShard) (backends : list S) :
  shards_ok l -> l <> [] -> length backends = length l -> Forall (os_inv n) backends ->
  sharded_inv n (mkSharded backends (NewWeightedRendezvousPicker l)).
Proof.
  intros Hok Hne Hlen Hall. split; [done|]. intros data. simpl.
  destruct (PickShard_wins l data Hok Hne) as (e&[Hin _]&E). exists (psIndex e.2). split; [exact E|].
  destruct (preprocess_elem _ _ _ _ Hin) as [Hi _]. unfold zlen in *. lia.
Qed.
