(* ===== verification/Glob.v ===== *)
(** * Glob patterns ([pkg/glob])

    A set of glob patterns is compiled to a nondeterministic finite automaton,
    against which paths are matched one character at a time.

    - [nfa.go]: the packed states, the construction from patterns and from
      suffixes, and the propagation of the early termination bit;
    - [matcher.go]: the sets of active states and [WriteRune].

    States are indices into a slice of pairs of packed 64-bit words, exactly as
    in the code.  Strings are lists of runes.  Maps that are used as sets are
    finite sets; the model iterates over a set in the order of its elements,
    where the code uses an unspecified order. *)

From S2P Require Import Prelude.

(** ** [nfa.go]: packed states *)

Definition stateBits : Z := (64 - 21) / 2.
Definition stateMask : Z := Z.shiftl 1 stateBits - 1.

Definition endStateNone : Z := 0.
Definition endStatePositive : Z := 1.
Definition endStateNegative : Z := 2.

Record state := mkState { wildcards : Z; runes : Z }.

Definition zeroState : state := mkState 0 0.

Definition getStarIndex (s : state) : Z := u32 (Z.land (wildcards s) stateMask).

Definition setStarIndex (s : state) (i : Z) : state :=
  mkState (Z.lor (Z.ldiff (wildcards s) stateMask) i) (runes s).

Definition getStarStarSlashIndex (s : state) : Z :=
  u32 (Z.land (Z.shiftr (wildcards s) stateBits) stateMask).

Definition setStarStarSlashIndex (s : state) (i : Z) : state :=
  mkState (Z.lor (Z.ldiff (wildcards s) (Z.shiftl stateMask stateBits)) (shl_u64 i stateBits))
    (runes s).

Definition hasPositiveEndState : Z := Z.shiftl 1 (2 * stateBits).

Definition getHasPositiveEndState (s : state) : bool :=
  negb (Z.land (wildcards s) (Z.shiftl 1 (2 * stateBits)) =? 0).

Definition setHasPositiveEndState (s : state) : state :=
  mkState (Z.lor (wildcards s) hasPositiveEndState) (runes s).

Definition getEndState (s : state) : Z := Z.shiftr (wildcards s) (2 * stateBits + 1).

Definition setEndState (s : state) (endState : Z) : state :=
  let shift := 2 * stateBits + 1 in
  mkState (Z.lor (Z.land (wildcards s) (Z.shiftl 1 shift - 1)) (shl_u64 endState shift)) (runes s).

Definition getCurrentRune (s : state) : Z := sext 32 (Z.shiftr (runes s) (2 * stateBits)).

Definition initializeRune (s : state) (r nextRuneIndex : Z) : state :=
  mkState (wildcards s) (Z.lor (shl_u64 r (2 * stateBits)) (shl_u64 nextRuneIndex stateBits)).

Definition getFirstRuneIndex (s : state) : Z := u32 (Z.land (runes s) stateMask).

Definition setFirstRuneIndex (s : state) (i : Z) : state :=
  mkState (wildcards s) (Z.lor (Z.ldiff (runes s) stateMask) i).

Definition getNextRuneIndex (s : state) : Z := u32 (Z.land (Z.shiftr (runes s) stateBits) stateMask).

Definition setNextRuneIndex (s : state) (i : Z) : state :=
  mkState (wildcards s)
    (Z.lor (Z.ldiff (runes s) (Z.shiftl stateMask stateBits)) (shl_u64 i stateBits)).

(** ** [nfa.go]: construction *)

(** [f(&(states)[i])], which panics when the index is out of range. *)
Definition updateState (states : list state) (i : Z) (f : state -> state) : outcome (list state) :=
  s ← index states i;
  Ok (<[Z.to_nat i := f s]> states).

Definition addState (states : list state) : outcome (list state * Z) :=
  let i := u32 (zlen states) in
  if i >? stateMask then Err PlainError
  else Ok (states ++ [zeroState], i).

(** The loop over the outgoing edges of a state: either the state of an
    existing edge, or the edges between which a new one is inserted.  The
    number of states bounds the length of every list of edges. *)
Fixpoint findRune (fuel : nat) (states : list state) (r previousState compareState : Z)
    : outcome (Z + Z * Z) :=
  if compareState =? 0 then Ok (inr (previousState, compareState)) else
  match fuel with
  | O => Panic
  | S fuel =>
      s ← index states compareState;
      let cr := getCurrentRune s in
      if cr =? r then Ok (inl compareState)
      else if cr >? r then Ok (inr (previousState, compareState))
      else findRune fuel states r compareState (getNextRuneIndex s)
  end.

Definition getOrAddRune (states : list state) (currentState r : Z)
    : outcome (list state * Z) :=
  s ← index states currentState;
  found ← findRune (length states) states r 0 (getFirstRuneIndex s);
  match found with
  | inl compareState => Ok (states, compareState)
  | inr (previousState, compareState) =>
      '(states, i) ← addState states;
      states ← (if previousState =? 0
                then updateState states currentState (fun s => setFirstRuneIndex s i)
                else updateState states previousState (fun s => setNextRuneIndex s i));
      states ← updateState states i (fun s => initializeRune s r compareState);
      Ok (states, i)
  end.

Definition getOrAddStar (states : list state) (currentState : Z) : outcome (list state * Z) :=
  s ← index states currentState;
  let i := getStarIndex s in
  if negb (i =? 0) then Ok (states, i) else
  '(states, i) ← addState states;
  states ← updateState states currentState (fun s => setStarIndex s i);
  Ok (states, i).

Definition getOrAddStarStarSlash (states : list state) (currentState : Z)
    : outcome (list state * Z) :=
  s ← index states currentState;
  let i := getStarStarSlashIndex s in
  if negb (i =? 0) then Ok (states, i) else
  '(states, i) ← addState states;
  states ← updateState states currentState (fun s => setStarStarSlashIndex s i);
  Ok (states, i).

Definition runeSlash : Z := 47.
Definition runeStar : Z := 42.

(** The local variables of [addPattern]. *)
Record scanner := mkScanner {
  gotRunes : bool;
  gotStarStarSlash : bool;
  gotStars : Z;
  previousDirectoryEndState : Z;
  currentState : Z;
}.

Definition initialScanner : scanner := mkScanner false false 0 0 0.

(** The body of the loop over the runes of a pattern. *)
Definition scanRune (states : list state) (sc : scanner) (r : Z)
    : outcome (list state * scanner) :=
  if r =? runeStar then
    if (gotStars sc =? 1) && gotRunes sc then Err PlainError
    else if gotStars sc =? 2 then Err PlainError
    else Ok (states, mkScanner (gotRunes sc) (gotStarStarSlash sc) (gotStars sc + 1)
                       (previousDirectoryEndState sc) (currentState sc))
  else if r =? runeSlash then
    if gotStars sc =? 2 then
      if gotStarStarSlash sc then Err PlainError else
      '(states, current) ← getOrAddStarStarSlash states (currentState sc);
      Ok (states, mkScanner false true 0 (previousDirectoryEndState sc) current)
    else
      '(states, current) ←
        (if gotStars sc =? 0 then
           if negb (gotRunes sc) then Err PlainError else Ok (states, currentState sc)
         else if gotStars sc =? 1 then getOrAddStar states (currentState sc)
         else Panic);
      let previousDirectoryEndState := current in
      '(states, current) ← getOrAddRune states current runeSlash;
      Ok (states, mkScanner false false 0 previousDirectoryEndState current)
  else
    '(states, current) ←
      (if gotStars sc =? 1 then getOrAddStar states (currentState sc)
       else if gotStars sc =? 2 then Err PlainError
       else Ok (states, currentState sc));
    '(states, current) ← getOrAddRune states current r;
    Ok (states, mkScanner true (gotStarStarSlash sc) 0 (previousDirectoryEndState sc) current).

Fixpoint scanRunes (states : list state) (sc : scanner) (pattern : list Z)
    : outcome (list state * scanner) :=
  match pattern with
  | [] => Ok (states, sc)
  | r :: pattern =>
      '(states, sc) ← scanRune states sc r;
      scanRunes states sc pattern
  end.

(** The processing of trailing stars. *)
Definition finishPattern (states : list state) (sc : scanner) (endState : Z)
    : outcome (list state) :=
  '(states, current) ←
    (if gotStars sc =? 0 then
       if negb (gotRunes sc) then Err PlainError else Ok (states, currentState sc)
     else if gotStars sc =? 1 then getOrAddStar states (currentState sc)
     else if gotStars sc =? 2 then
       if gotStarStarSlash sc then Err PlainError else
       states ← (if previousDirectoryEndState sc >? 0
                 then updateState states (previousDirectoryEndState sc)
                        (fun s => setEndState s endState)
                 else Ok states);
       '(states, current) ← getOrAddStarStarSlash states (currentState sc);
       getOrAddStar states current
     else Panic);
  updateState states current (fun s => setEndState s endState).

Definition addPattern (states : list state) (pattern : list Z) (endState : Z)
    : outcome (list state) :=
  '(states, sc) ← scanRunes states initialScanner pattern;
  finishPattern states sc endState.

Fixpoint addPatterns (states : list state) (patterns : list (list Z)) (endState : Z)
    : outcome (list state) :=
  match patterns with
  | [] => Ok states
  | pattern :: patterns =>
      states ← addPattern states pattern endState;
      addPatterns states patterns endState
  end.

(** Whether one of the states in a list of edges has the bit set. *)
Fixpoint anyRuneHasPositive (fuel : nat) (states : list state) (i : Z) : outcome bool :=
  if i =? 0 then Ok false else
  match fuel with
  | O => Panic
  | S fuel =>
      s ← index states i;
      if getHasPositiveEndState s then Ok true
      else anyRuneHasPositive fuel states (getNextRuneIndex s)
  end.

Definition propagateState (states : list state) (current : Z) : outcome (list state) :=
  s ← index states current;
  star ← index states (getStarIndex s);
  starStarSlash ← index states (getStarStarSlashIndex s);
  if (getEndState s =? endStatePositive) || getHasPositiveEndState star ||
     getHasPositiveEndState starStarSlash
  then updateState states current setHasPositiveEndState
  else
    found ← anyRuneHasPositive (length states) states (getFirstRuneIndex s);
    if (found : bool) then updateState states current setHasPositiveEndState else Ok states.

(** [for currentState := n; currentState > 0; currentState--] *)
Fixpoint propagateFrom (n : nat) (states : list state) : outcome (list state) :=
  match n with
  | O => Ok states
  | S n' =>
      states ← propagateState states (Z.of_nat n);
      propagateFrom n' states
  end.

Definition propagateHasPositiveEndState (states : list state) : outcome (list state) :=
  propagateFrom (length states - 1) states.

Record NFA := mkNFA { nfaStates : list state }.

Definition NFAMatchingNothing : NFA := mkNFA [zeroState].

Definition NFAMatchingEverything : NFA := mkNFA [
  mkState (Z.lor (Z.shiftl 1 stateBits) hasPositiveEndState) 0;
  mkState (Z.lor 2 hasPositiveEndState) 0;
  mkState (Z.lor (Z.shiftl endStatePositive (2 * stateBits + 1)) hasPositiveEndState) 0].

Definition NewNFAFromPatterns (includes excludes : list (list Z)) : outcome NFA :=
  states ← addPatterns [zeroState] includes endStatePositive;
  states ← addPatterns states excludes endStateNegative;
  states ← propagateHasPositiveEndState states;
  Ok (mkNFA states).

(** The loop over the runes of a suffix. *)
Fixpoint addSuffixRunes (states : list state) (current : Z) (suffix : list Z)
    : outcome (list state * Z) :=
  match suffix with
  | [] => Ok (states, current)
  | r :: suffix =>
      if r =? runeSlash then Err PlainError else
      '(states, current) ← getOrAddRune states current r;
      addSuffixRunes states current suffix
  end.

Fixpoint addSuffixes (states : list state) (suffixes : list (list Z)) : outcome (list state) :=
  match suffixes with
  | [] => Ok states
  | suffix :: suffixes =>
      '(states, current) ← getOrAddStarStarSlash states 0;
      '(states, current) ← getOrAddStar states current;
      '(states, current) ← addSuffixRunes states current suffix;
      states ← updateState states current (fun s => setEndState s endStatePositive);
      addSuffixes states suffixes
  end.

Definition NewNFAFromSuffixes (suffixes : list (list Z)) : outcome NFA :=
  states ← addSuffixes [zeroState] suffixes;
  states ← propagateHasPositiveEndState states;
  Ok (mkNFA states).

(** ** [matcher.go] *)

Record statesSet := mkStatesSet {
  setStates : gset Z;
  setHasPositive : bool;
}.

Definition emptyStates : statesSet := mkStatesSet ∅ false.

Definition statesSet_add (s : statesSet) (states : list state) (i : Z) : outcome statesSet :=
  st ← index states i;
  Ok (mkStatesSet ({[i]} ∪ setStates s) (setHasPositive s || getHasPositiveEndState st)).

Definition statesSet_clear (s : statesSet) : statesSet := emptyStates.

Definition statesSet_copyFrom (s s2 : statesSet) : statesSet :=
  mkStatesSet (setStates s2) (setHasPositive s2).

(** [previousStatesList] is empty between calls, and a local variable of the
    model of [WriteRune]. *)
Record Matcher := mkMatcher {
  mStates : list state;
  currentStates : statesSet;
  currentStars : statesSet;
  currentStarStarSlashes : statesSet;
}.

Definition expandState1 (m : Matcher) (i : Z) : outcome Matcher :=
  cur ← statesSet_add (currentStates m) (mStates m) i;
  Ok (mkMatcher (mStates m) cur (currentStars m) (currentStarStarSlashes m)).

Definition expandState2 (m : Matcher) (index1 : Z) : outcome Matcher :=
  m ← expandState1 m index1;
  s ← index (mStates m) index1;
  let index2 := getStarIndex s in
  if negb (index2 =? 0) then
    stars ← statesSet_add (currentStars m) (mStates m) index2;
    expandState1 (mkMatcher (mStates m) (currentStates m) stars (currentStarStarSlashes m)) index2
  else Ok m.

Definition expandState3 (m : Matcher) (index1 : Z) : outcome Matcher :=
  m ← expandState2 m index1;
  s ← index (mStates m) index1;
  let index2 := getStarStarSlashIndex s in
  if negb (index2 =? 0) then
    sss ← statesSet_add (currentStarStarSlashes m) (mStates m) index2;
    expandState2 (mkMatcher (mStates m) (currentStates m) (currentStars m) sss) index2
  else Ok m.

Definition Matcher_Initialize (nfa : NFA) : outcome Matcher :=
  expandState3 (mkMatcher (nfaStates nfa) emptyStates emptyStates emptyStates) 0.

Definition Matcher_CopyFrom (m m2 : Matcher) : Matcher :=
  mkMatcher (mStates m2) (statesSet_copyFrom (currentStates m) (currentStates m2))
    (statesSet_copyFrom (currentStars m) (currentStars m2))
    (statesSet_copyFrom (currentStarStarSlashes m) (currentStarStarSlashes m2)).

(** The loops over sets of wildcards.  Expanding one of their states adds none
    to the set being ranged over ([GlobMatch.range_stars_stable]). *)
Fixpoint expandStates (m : Matcher) (l : list Z) : outcome Matcher :=
  match l with
  | [] => Ok m
  | i :: l => m ← expandState3 m i; expandStates m l
  end.

(** Following the edges of one previous state, which are sorted by rune. *)
Fixpoint followRunes (fuel : nat) (m : Matcher) (r index2 : Z) : outcome Matcher :=
  if index2 =? 0 then Ok m else
  match fuel with
  | O => Panic
  | S fuel =>
      s ← index (mStates m) index2;
      let cr := getCurrentRune s in
      if r =? cr then
        m ← expandState3 m index2;
        followRunes fuel m r (getNextRuneIndex s)
      else if r <? cr then Ok m
      else followRunes fuel m r (getNextRuneIndex s)
  end.

Fixpoint followStates (m : Matcher) (r : Z) (previousStatesList : list Z) : outcome Matcher :=
  match previousStatesList with
  | [] => Ok m
  | index1 :: previousStatesList =>
      s ← index (mStates m) index1;
      m ← followRunes (length (mStates m)) m r (getFirstRuneIndex s);
      followStates m r previousStatesList
  end.

Definition WriteRune (m : Matcher) (r : Z) : outcome (Matcher * bool) :=
  let previousStatesList := elements (setStates (currentStates m)) in
  let m := mkMatcher (mStates m) (statesSet_clear (currentStates m)) (currentStars m)
             (currentStarStarSlashes m) in
  m ← (if r =? runeSlash then
         let m := mkMatcher (mStates m) (currentStates m) (statesSet_clear (currentStars m))
                    (currentStarStarSlashes m) in
         expandStates m (elements (setStates (currentStarStarSlashes m)))
       else expandStates m (elements (setStates (currentStars m))));
  m ← followStates m r previousStatesList;
  Ok (m, setHasPositive (currentStates m) || setHasPositive (currentStars m) ||
         setHasPositive (currentStarStarSlashes m)).

(** The largest end state of the active states. *)
Fixpoint maxEndState (states : list state) (l : list Z) (acc : Z) : outcome Z :=
  match l with
  | [] => Ok acc
  | i :: l =>
      s ← index states i;
      maxEndState states l (if acc <? getEndState s then getEndState s else acc)
  end.

Definition IsMatch (m : Matcher) : outcome bool :=
  e ← maxEndState (mStates m) (elements (setStates (currentStates m))) endStateNone;
  Ok (e =? endStatePositive).

(** Matching a whole path, ignoring requests to terminate early. *)
Fixpoint writeRunes (m : Matcher) (path : list Z) : outcome Matcher :=
  match path with
  | [] => Ok m
  | r :: path =>
      '(m, _) ← WriteRune m r;
      writeRunes m path
  end.

Definition matchPath (nfa : NFA) (path : list Z) : outcome bool :=
  m ← Matcher_Initialize nfa;
  m ← writeRunes m path;
  IsMatch m.

(** ** The fields of packed states *)

Definition state_ok (s : state) : Prop := is_u64 (wildcards s) /\ is_u64 (runes s).

Definition index_ok21 (i : Z) : Prop := 0 <= i < 2 ^ 21.

(** The three fields of a word, from the lowest bit up. *)
Definition low21 (w : Z) : Z := w mod 2 ^ 21.
Definition mid21 (w : Z) : Z := w / 2 ^ 21 mod 2 ^ 21.
Definition high (w : Z) : Z := w / 2 ^ 42.

Definition pack (a b c : Z) : Z := a + 2 ^ 21 * b + 2 ^ 42 * c.

Lemma fields_pack a b c :
  index_ok21 a -> index_ok21 b ->
  low21 (pack a b c) = a /\ mid21 (pack a b c) = b /\ high (pack a b c) = c.
Proof. unfold low21, mid21, high, pack, index_ok21. literal_pow. intros. arith. Qed.

Lemma pack_fields w :
  is_u64 w -> w = pack (low21 w) (mid21 w) (high w) /\ index_ok21 (low21 w) /\ index_ok21 (mid21 w) /\
  0 <= high w < 2 ^ 22.
Proof. unfold low21, mid21, high, pack, index_ok21, is_u64. literal_pow. intros. arith. Qed.

Lemma get_low w : u32 (Z.land w stateMask) = low21 w.
Proof.
  unfold u32, low21. rewrite (land_mask 21) by done. apply Z.mod_small.
  pose proof (Z.mod_pos_bound w (2 ^ 21)). lia.
Qed.

Lemma get_mid w : u32 (Z.land (Z.shiftr w stateBits) stateMask) = mid21 w.
Proof. rewrite get_low. unfold low21, mid21. by rewrite Z.shiftr_div_pow2 by done. Qed.

Lemma set_low w i :
  is_u64 w -> index_ok21 i -> Z.lor (Z.ldiff w stateMask) i = pack i (mid21 w) (high w).
Proof.
  intros Hw Hi. change stateMask with (Z.ones 21). rewrite Z.ldiff_ones_r by lia.
  rewrite Z.shiftr_div_pow2, Z.shiftl_mul_pow2 by lia. rewrite (lor_disjoint _ i 21) by (done || lia).
  unfold pack, mid21, high, is_u64, index_ok21 in *. literal_pow. arith.
Qed.

Lemma land_shifted w m n : 0 <= n -> Z.land w (Z.shiftl m n) = Z.shiftl (Z.land (Z.shiftr w n) m) n.
Proof.
  intros Hn. apply Z.bits_inj'. intros k Hk. rewrite Z.land_spec, !Z.shiftl_spec, Z.land_spec by done.
  destruct (Z.leb_spec n k).
  - rewrite Z.shiftr_spec by lia. by replace (k - n + n) with k by lia.
  - rewrite !(Z.testbit_neg_r _ (k - n)) by lia. apply andb_false_r.
Qed.

Lemma ldiff_sub a b : Z.ldiff a b = a - Z.land a b.
Proof.
  assert (Z.land (Z.ldiff a b) (Z.land a b) = 0) as E.
  { apply Z.bits_inj'. intros k Hk. rewrite !Z.land_spec, Z.ldiff_spec, Z.bits_0.
    by destruct (Z.testbit a k), (Z.testbit b k). }
  apply Z.add_nocarry_lxor in E. rewrite Z.lxor_lor, Z.lor_ldiff_and in E; [lia|].
  apply Z.bits_inj'. intros k Hk. rewrite !Z.land_spec, Z.ldiff_spec, Z.bits_0.
  by destruct (Z.testbit a k), (Z.testbit b k).
Qed.

Lemma set_mid w i :
  is_u64 w -> index_ok21 i ->
  Z.lor (Z.ldiff w (Z.shiftl stateMask stateBits)) (shl_u64 i stateBits) = pack (low21 w) i (high w).
Proof.
  intros Hw Hi. rewrite ldiff_sub, land_shifted by done. change stateBits with 21.
  rewrite (land_mask 21) by done. unfold shl_u64, u64. rewrite Z.shiftr_div_pow2, !Z.shiftl_mul_pow2 by lia.
  destruct (pack_fields w Hw) as (E&Ha&Hb&Hc). fold (mid21 w).
  rewrite (Z.mod_small (i * 2 ^ 21)) by (unfold index_ok21 in Hi; lia).
  rewrite E at 1. unfold pack. unfold index_ok21 in *.
  replace (low21 w + 2 ^ 21 * mid21 w + 2 ^ 42 * high w - mid21 w * 2 ^ 21)
    with (high w * 2 ^ 42 + low21 w) by lia.
  rewrite <- (lor_disjoint (high w) (low21 w) 42) by lia.
  rewrite <- Z.lor_assoc, (Z.lor_comm (low21 w)), (lor_disjoint i (low21 w) 21) by lia.
  rewrite (lor_disjoint (high w) _ 42) by lia. lia.
Qed.

(** The fields of a state, unpacked. *)
Record fields := mkFields {
  fStar : Z;
  fStarStarSlash : Z;
  fPositive : bool;
  fEnd : Z;
  fFirst : Z;
  fNext : Z;
  fRune : Z;
}.

Definition unpack (s : state) : fields :=
  mkFields (getStarIndex s) (getStarStarSlashIndex s) (getHasPositiveEndState s) (getEndState s)
    (getFirstRuneIndex s) (getNextRuneIndex s) (getCurrentRune s).

Lemma getHasPositive_high s : getHasPositiveEndState s = Z.odd (high (wildcards s)).
Proof.
  unfold getHasPositiveEndState, high. change (Z.shiftl 1 (2 * stateBits)) with (Z.shiftl (Z.ones 1) 42).
  rewrite land_shifted, Z.land_ones, Z.shiftl_mul_pow2, Z.shiftr_div_pow2 by lia.
  rewrite Zmod_odd. by destruct (Z.odd _).
Qed.

Lemma getEndState_high s : getEndState s = high (wildcards s) / 2.
Proof.
  unfold getEndState, high. rewrite Z.shiftr_div_pow2 by done. by rewrite Z.div_div by lia.
Qed.

Lemma getCurrentRune_high s : is_u64 (runes s) -> getCurrentRune s = high (runes s).
Proof.
  intros H. unfold getCurrentRune. rewrite Z.shiftr_div_pow2 by done. fold (high (runes s)).
  destruct (pack_fields _ H) as (_&_&_&Hh). apply sext_id; [lia|]. literal_pow. lia.
Qed.

Lemma unpack_eq s :
  state_ok s ->
  unpack s = mkFields (low21 (wildcards s)) (mid21 (wildcards s)) (Z.odd (high (wildcards s)))
    (high (wildcards s) / 2) (low21 (runes s)) (mid21 (runes s)) (high (runes s)).
Proof.
  intros [_ Hr]. unfold unpack, getStarIndex, getStarStarSlashIndex, getFirstRuneIndex,
    getNextRuneIndex.
  by rewrite !get_mid, !get_low, getHasPositive_high, getEndState_high, getCurrentRune_high.
Qed.

Lemma pack_u64 a b c :
  index_ok21 a -> index_ok21 b -> 0 <= c < 2 ^ 22 -> is_u64 (pack a b c).
Proof. unfold index_ok21, is_u64, pack. literal_pow. lia. Qed.

(** Storing packed words whose fields are known. *)
Lemma unpack_wildcards s a b c :
  state_ok s -> index_ok21 a -> index_ok21 b -> 0 <= c < 2 ^ 22 ->
  let s' := mkState (pack a b c) (runes s) in
  state_ok s' /\ unpack s' = mkFields a b (Z.odd c) (c / 2) (fFirst (unpack s)) (fNext (unpack s))
    (fRune (unpack s)).
Proof.
  intros Hs Ha Hb Hc s'. assert (state_ok s') as Hs' by (split; [by apply pack_u64|apply Hs]).
  split; [done|]. rewrite !unpack_eq by done. simpl.
  by destruct (fields_pack a b c Ha Hb) as (->&->&->).
Qed.

Lemma unpack_runes s a b c :
  state_ok s -> index_ok21 a -> index_ok21 b -> 0 <= c < 2 ^ 22 ->
  let s' := mkState (wildcards s) (pack a b c) in
  state_ok s' /\ unpack s' = mkFields (fStar (unpack s)) (fStarStarSlash (unpack s))
    (fPositive (unpack s)) (fEnd (unpack s)) a b c.
Proof.
  intros Hs Ha Hb Hc s'. assert (state_ok s') as Hs' by (split; [apply Hs|by apply pack_u64]).
  split; [done|]. rewrite !unpack_eq by done. simpl.
  by destruct (fields_pack a b c Ha Hb) as (->&->&->).
Qed.

Lemma lor_1 h : Z.lor h 1 = h - h mod 2 + 1.
Proof.
  assert (forall q, Z.lor (q * 2 ^ 1) 1 = q * 2 ^ 1 + 1) as H by (intros; by apply lor_disjoint).
  rewrite Zmod_odd. destruct (Z.odd h) eqn:O.
  - replace h with (h / 2 * 2 ^ 1 + 1) at 1 by (pose proof (Zmod_odd h) as E; rewrite O in E; arith).
    rewrite <- H, <- Z.lor_assoc. change (Z.lor 1 1) with 1. rewrite H.
    pose proof (Zmod_odd h) as E; rewrite O in E; arith.
  - replace h with (h / 2 * 2 ^ 1) at 1 by (pose proof (Zmod_odd h) as E; rewrite O in E; arith).
    rewrite H. pose proof (Zmod_odd h) as E; rewrite O in E; arith.
Qed.

Section setters.
Variable s : state.
Hypothesis Hs : state_ok s.
Abbreviation f := (unpack s).

Lemma fields_ranges :
  index_ok21 (fStar f) /\ index_ok21 (fStarStarSlash f) /\ index_ok21 (fFirst f) /\
  index_ok21 (fNext f) /\ 0 <= fEnd f < 2 ^ 21 /\ 0 <= fRune f < 2 ^ 22.
Proof.
  rewrite unpack_eq by done. simpl. destruct Hs as [Hw Hr].
  destruct (pack_fields _ Hw) as (_&?&?&?). destruct (pack_fields _ Hr) as (_&?&?&?).
  split_and!; try done; lia || (apply Z.div_lt_upper_bound; lia) || (apply Z.div_pos; lia).
Qed.

Lemma setStarIndex_fields i :
  index_ok21 i -> state_ok (setStarIndex s i) /\ unpack (setStarIndex s i) =
  mkFields i (fStarStarSlash f) (fPositive f) (fEnd f) (fFirst f) (fNext f) (fRune f).
Proof.
  intros Hi. unfold setStarIndex. destruct Hs as [Hw Hr]. rewrite set_low by done.
  destruct (pack_fields _ Hw) as (_&?&?&?).
  destruct (unpack_wildcards s i (mid21 (wildcards s)) (high (wildcards s))) as [Hok ->]; [done..|].
  split; [done|]. by rewrite !unpack_eq.
Qed.

Lemma setStarStarSlashIndex_fields i :
  index_ok21 i -> state_ok (setStarStarSlashIndex s i) /\ unpack (setStarStarSlashIndex s i) =
  mkFields (fStar f) i (fPositive f) (fEnd f) (fFirst f) (fNext f) (fRune f).
Proof.
  intros Hi. unfold setStarStarSlashIndex. destruct Hs as [Hw Hr]. rewrite set_mid by done.
  destruct (pack_fields _ Hw) as (_&?&?&?).
  destruct (unpack_wildcards s (low21 (wildcards s)) i (high (wildcards s))) as [Hok ->]; [done..|].
  split; [done|]. by rewrite !unpack_eq.
Qed.

Lemma setFirstRuneIndex_fields i :
  index_ok21 i -> state_ok (setFirstRuneIndex s i) /\ unpack (setFirstRuneIndex s i) =
  mkFields (fStar f) (fStarStarSlash f) (fPositive f) (fEnd f) i (fNext f) (fRune f).
Proof.
  intros Hi. unfold setFirstRuneIndex. destruct Hs as [Hw Hr]. rewrite set_low by done.
  destruct (pack_fields _ Hr) as (_&?&?&?).
  destruct (unpack_runes s i (mid21 (runes s)) (high (runes s))) as [Hok ->]; [done..|].
  split; [done|]. by rewrite !unpack_eq.
Qed.

Lemma setNextRuneIndex_fields i :
  index_ok21 i -> state_ok (setNextRuneIndex s i) /\ unpack (setNextRuneIndex s i) =
  mkFields (fStar f) (fStarStarSlash f) (fPositive f) (fEnd f) (fFirst f) i (fRune f).
Proof.
  intros Hi. unfold setNextRuneIndex. destruct Hs as [Hw Hr]. rewrite set_mid by done.
  destruct (pack_fields _ Hr) as (_&?&?&?).
  destruct (unpack_runes s (low21 (runes s)) i (high (runes s))) as [Hok ->]; [done..|].
  split; [done|]. by rewrite !unpack_eq.
Qed.

Lemma initializeRune_fields r n :
  0 <= r < 2 ^ 21 -> index_ok21 n -> state_ok (initializeRune s r n) /\
  unpack (initializeRune s r n) =
  mkFields (fStar f) (fStarStarSlash f) (fPositive f) (fEnd f) 0 n r.
Proof.
  intros Hr Hn. unfold initializeRune, shl_u64, u64. change (2 * stateBits) with 42.
  change stateBits with 21. rewrite !Z.shiftl_mul_pow2 by lia. unfold index_ok21 in Hn.
  rewrite !Z.mod_small by lia.
  rewrite (lor_disjoint r (n * 2 ^ 21) 42) by lia.
  replace (r * 2 ^ 42 + n * 2 ^ 21) with (pack 0 n r) by (unfold pack; lia).
  apply unpack_runes; unfold index_ok21; (done || lia).
Qed.

Lemma setEndState_fields e :
  0 <= e < 2 ^ 21 -> state_ok (setEndState s e) /\ unpack (setEndState s e) =
  mkFields (fStar f) (fStarStarSlash f) (fPositive f) e (fFirst f) (fNext f) (fRune f).
Proof.
  intros He. unfold setEndState, shl_u64, u64. change (2 * stateBits + 1) with 43.
  rewrite (land_mask 43) by done. rewrite Z.shiftl_mul_pow2, (Z.mod_small (e * _)) by lia.
  pose proof (Z.mod_pos_bound (wildcards s) (2 ^ 43) ltac:(lia)).
  rewrite Z.lor_comm, (lor_disjoint e _ 43) by lia. destruct Hs as [Hw Hr].
  destruct (pack_fields _ Hw) as (E&H1&H2&H3). set (h := high (wildcards s)) in *.
  assert (e * 2 ^ 43 + wildcards s mod 2 ^ 43 =
    pack (low21 (wildcards s)) (mid21 (wildcards s)) (h mod 2 + 2 * e)) as ->.
  { rewrite E at 1. unfold pack, index_ok21 in *. literal_pow. arith. }
  destruct (unpack_wildcards s (low21 (wildcards s)) (mid21 (wildcards s)) (h mod 2 + 2 * e))
    as [H4 ->]; [done..|arith|]. split; [done|]. rewrite !unpack_eq by done. fold h. simpl. f_equal.
  - rewrite Z.odd_add_mul_2. rewrite Zmod_odd. by destruct (Z.odd h).
  - arith.
Qed.

Lemma setHasPositiveEndState_fields :
  state_ok (setHasPositiveEndState s) /\ unpack (setHasPositiveEndState s) =
  mkFields (fStar f) (fStarStarSlash f) true (fEnd f) (fFirst f) (fNext f) (fRune f).
Proof.
  unfold setHasPositiveEndState. destruct Hs as [Hw Hr].
  destruct (pack_fields _ Hw) as (E&H1&H2&H3). set (h := high (wildcards s)) in *.
  assert (Z.lor (wildcards s) hasPositiveEndState =
    pack (low21 (wildcards s)) (mid21 (wildcards s)) (h - h mod 2 + 1)) as ->.
  { rewrite E at 1. unfold pack, index_ok21 in *.
    set (x := low21 (wildcards s) + 2 ^ 21 * mid21 (wildcards s)) in *.
    replace (x + 2 ^ 42 * h) with (h * 2 ^ 42 + x) by lia.
    rewrite <- (lor_disjoint h x 42) by lia. change hasPositiveEndState with (1 * 2 ^ 42).
    rewrite (Z.lor_comm (h * _)), <- Z.lor_assoc, <- !Z.shiftl_mul_pow2, <- Z.shiftl_lor by lia.
    replace (Z.lor h 1) with (h - h mod 2 + 1).
    - rewrite Z.lor_comm, Z.shiftl_mul_pow2, lor_disjoint by lia. lia.
    - by rewrite lor_1. }
  destruct (unpack_wildcards s (low21 (wildcards s)) (mid21 (wildcards s)) (h - h mod 2 + 1))
    as [H4 ->]; [done..|arith|]. split; [done|]. rewrite !unpack_eq by done. fold h. simpl. f_equal.
  - replace (h - h mod 2 + 1) with (1 + 2 * (h / 2)) by arith. by rewrite Z.odd_add_mul_2.
  - arith.
Qed.
End setters.
