(* ===== verification/GlobTrie.v ===== *)
(** * The automaton of a set of glob patterns is a trie of tokens

    Every state of the automaton that [addPattern] builds is reached by exactly
    one sequence of tokens.  [trie] states this for the packed representation
    with its linked lists of edges, and every operation of the construction is
    shown to preserve it. *)

From Stdlib Require Import Sorted.
From S2P Require Import Prelude Glob.

(** ** Tokens *)

Inductive token :=
  | TRune (r : Z)
  | TStar
  | TStarStarSlash.

#[global] Instance token_eq_dec : EqDecision token.
Proof. solve_decision. Defined.

Definition token_ok (t : token) : Prop :=
  match t with TRune r => 0 <= r < 2 ^ 21 | _ => True end.

(** The operation that adds an edge for a token. *)
Definition advance (states : list state) (current : Z) (t : token) : outcome (list state * Z) :=
  match t with
  | TRune r => getOrAddRune states current r
  | TStar => getOrAddStar states current
  | TStarStarSlash => getOrAddStarStarSlash states current
  end.

(** ** The shape of an automaton *)

(** State [i] is reached by the tokens [w]. *)
Definition node (P : list (list token)) (w : list token) (i : Z) : Prop :=
  0 <= i /\ P !! Z.to_nat i = Some w.

(** An edge that is stored as an index, zero standing for its absence. *)
Definition link (P : list (list token)) (w : list token) (t : token) (i : Z) : Prop :=
  (i = 0 /\ forall j, ~ node P (w ++ [t]) j) \/ (i <> 0 /\ node P (w ++ [t]) i).

(** A linked list of edges from index [i]: the indices and runes of its states. *)
Fixpoint chain (S : list state) (i : Z) (l : list (Z * Z)) : Prop :=
  match l with
  | [] => i = 0
  | (j, c) :: l =>
      i = j /\ 0 < j /\ exists s, S !! Z.to_nat j = Some s /\ getCurrentRune s = c /\
      chain S (getNextRuneIndex s) l
  end.

Definition sorted (l : list (Z * Z)) : Prop := StronglySorted Z.lt l.*2.

Record trie (S : list state) (P : list (list token)) : Prop := {
  tr_length : length S = length P;
  tr_bound : zlen S <= 2 ^ 21;
  tr_root : P !! 0%nat = Some [];
  tr_nodup : NoDup P;
  tr_ok : Forall state_ok S;
  tr_star i s w : S !! i = Some s -> P !! i = Some w -> link P w TStar (getStarIndex s);
  tr_starStarSlash i s w :
    S !! i = Some s -> P !! i = Some w -> link P w TStarStarSlash (getStarStarSlashIndex s);
  tr_runes i s w :
    S !! i = Some s -> P !! i = Some w -> exists l, chain S (getFirstRuneIndex s) l /\ sorted l /\
      forall j c, (j, c) ∈ l <-> node P (w ++ [TRune c]) j;
  tr_parent i w t : P !! i = Some (w ++ [t]) -> exists j, (j < i)%nat /\ P !! j = Some w;
}.

(** ** Lookups *)

Lemma node_inj P w i j : NoDup P -> node P w i -> node P w j -> i = j.
Proof.
  intros Hnd [Hi Hw] [Hj Hw']. apply Z2Nat.inj; [done..|]. by eapply NoDup_lookup.
Qed.

Lemma node_fun P w w' i : node P w i -> node P w' i -> w = w'.
Proof. intros [_ H] [_ H']. congruence. Qed.

Lemma node_range P w i : node P w i -> 0 <= i < zlen P.
Proof. intros [Hi Hw]. apply lookup_lt_Some in Hw. unfold zlen. lia. Qed.

Lemma node_root P w : P !! 0%nat = Some [] -> node P w 0 -> w = [].
Proof. intros H [_ Hw]. change (Z.to_nat 0) with 0%nat in Hw. congruence. Qed.

Lemma node_child_pos P w t i : P !! 0%nat = Some [] -> node P (w ++ [t]) i -> 0 < i.
Proof.
  intros H Hn. destruct (decide (i = 0)) as [->|]; [|destruct Hn; lia].
  apply node_root in Hn; [|done]. by destruct w.
Qed.

Lemma node_snoc P x w j : node (P ++ [x]) w j <-> node P w j \/ (j = zlen P /\ w = x).
Proof.
  unfold node, zlen. rewrite lookup_app_Some, list_lookup_singleton_Some. split.
  - intros (Hj&[Hl|(Hge&Hz&<-)]); [by left|]. right. split; [lia|done].
  - intros [[Hj Hl]|[-> ->]]; [split; [done|by left]|].
    split; [lia|]. right. rewrite Nat2Z.id. split_and!; (done || lia).
Qed.

Lemma node_state (S : list state) P w i :
  length S = length P -> node P w i -> exists s, S !! Z.to_nat i = Some s /\ index S i = Ok s.
Proof.
  intros Hlen [Hi Hw]. destruct (lookup_lt_is_Some_2 S (Z.to_nat i)) as [s Hs].
  { rewrite Hlen. by eapply lookup_lt_Some. }
  exists s. split; [done|]. by apply index_ok.
Qed.

Lemma link_other P x w t i : link P w t i -> w ++ [t] <> x -> link (P ++ [x]) w t i.
Proof.
  intros [[-> H]|[Hi H]] Hne; [left|right]; (split; [done|]).
  - intros j Hj. apply node_snoc in Hj as [Hj|[_ Hj]]; [by destruct (H j)|done].
  - apply node_snoc. by left.
Qed.

Lemma link_new P w t : P !! 0%nat = Some [] -> link (P ++ [w ++ [t]]) w t (zlen P).
Proof.
  intros H. right. split; [|apply node_snoc; by right].
  apply lookup_lt_Some in H. unfold zlen. lia.
Qed.

Lemma link_get P w t i j : NoDup P -> link P w t i -> node P (w ++ [t]) j -> i = j.
Proof.
  intros Hnd [[_ H]|[_ H]] Hj; [by destruct (H j)|]. by eapply node_inj.
Qed.

(** A fresh node has no edges. *)
Lemma link_leaf S P w t t' :
  trie S P -> (forall j, ~ node P (w ++ [t]) j) -> link (P ++ [w ++ [t]]) (w ++ [t]) t' 0.
Proof.
  intros H Hfresh. left. split; [done|]. intros j Hj.
  apply node_snoc in Hj as [[Hj Hl]|[_ E]].
  - destruct (tr_parent S P H _ _ _ Hl) as (k&_&Hk). apply (Hfresh (Z.of_nat k)).
    split; [lia|]. by rewrite Nat2Z.id.
  - apply (f_equal length) in E. rewrite !length_app in E. simpl in E. lia.
Qed.

(** ** Lists of edges *)

Lemma chain_ext S S' i l :
  (forall j c s, (j, c) ∈ l -> S !! Z.to_nat j = Some s ->
     exists s', S' !! Z.to_nat j = Some s' /\ getCurrentRune s' = getCurrentRune s /\
       getNextRuneIndex s' = getNextRuneIndex s) ->
  chain S i l -> chain S' i l.
Proof.
  revert i. induction l as [|[j c] l IH]; intros i Hext; [done|].
  intros (->&Hj&s&Hs&Hc&Hl). destruct (Hext j c s) as (s'&Hs'&Hc'&Hn'); [set_solver|done|].
  split; [done|]. split; [done|]. exists s'. split; [done|]. split; [congruence|].
  rewrite Hn'. apply IH; [|done]. intros j' c' s0 Hin. apply (Hext j' c' s0). set_solver.
Qed.

Lemma edge_chain_lookup S i l j c :
  chain S i l -> (j, c) ∈ l -> exists s, S !! Z.to_nat j = Some s /\ getCurrentRune s = c /\ 0 < j.
Proof.
  revert i. induction l as [|[j' c'] l IH]; intros i; [set_solver|].
  intros (->&Hj&s&Hs&Hc&Hl). rewrite elem_of_cons. intros [[= -> ->]|Hin]; [by exists s|by eapply IH].
Qed.

Definition lastIndex (previous : Z) (l : list (Z * Z)) : Z :=
  match last l with Some (j, _) => j | None => previous end.

Definition headIndex (l : list (Z * Z)) : Z := match l with (j, _) :: _ => j | [] => 0 end.

Lemma chain_head S i l : chain S i l -> i = headIndex l.
Proof. destruct l as [|[j c] l]; [done|]. by intros (->&_). Qed.

Lemma sorted_cons j c l : sorted ((j, c) :: l) <-> sorted l /\ Forall (fun p => c < p.2) l.
Proof.
  unfold sorted. rewrite <- (Forall_fmap snd (Z.lt c)). simpl. split.
  - intros H. by apply StronglySorted_inv in H.
  - intros [H1 H2]. by constructor.
Qed.

(** What the loop over the edges finds. *)
Lemma findRune_spec fuel S i l r previous :
  chain S i l -> sorted l -> (length l <= fuel)%nat ->
  (exists j, (j, r) ∈ l /\ findRune fuel S r previous i = Ok (inl j)) \/
  (exists l1 l2, l = l1 ++ l2 /\ Forall (fun p => p.2 < r) l1 /\ Forall (fun p => r < p.2) l2 /\
     findRune fuel S r previous i = Ok (inr (lastIndex previous l1, headIndex l2))).
Proof.
  revert i previous fuel. induction l as [|[j c] l IH]; intros i previous fuel Hc Hs Hfuel.
  { simpl in Hc. subst i. right. exists [], []. split_and!; [done..|]. by destruct fuel. }
  destruct Hc as (->&Hj&s&Hs'&Hcr&Hl). apply sorted_cons in Hs as [Hs Hall].
  destruct fuel as [|fuel]; [simpl in Hfuel; lia|]. cbn [findRune].
  destruct (Z.eqb_spec j 0); [lia|].
  rewrite (index_ok S j s) by (done || lia). cbn [mbind outcome_bind]. rewrite Hcr.
  destruct (Z.eqb_spec c r) as [->|Hne].
  { left. exists j. split; [set_solver|done]. }
  rewrite Z.gtb_ltb. destruct (Z.ltb_spec r c) as [Hlt|Hge].
  { right. exists [], ((j, c) :: l). split_and!; [done..| |done]. constructor; [done|].
    eapply Forall_impl; [exact Hall|]. simpl. intros. lia. }
  simpl in Hfuel. destruct (IH (getNextRuneIndex s) j fuel Hl Hs ltac:(lia))
    as [(j'&Hin&->)|(l1&l2&->&Hl1&Hl2&->)].
  - left. exists j'. split; [set_solver|done].
  - right. exists ((j, c) :: l1), l2. split_and!; [done| |done|].
    + constructor; [simpl; lia|done].
    + do 3 f_equal. unfold lastIndex. rewrite last_cons. by destruct (last l1) as [[]|].
Qed.

(** ** Adding an edge *)

Lemma snoc_ne {A} (w w' : list A) t t' : w <> w' \/ t <> t' -> w ++ [t] <> w' ++ [t'].
Proof. intros H E. apply app_inj_tail in E as [? ?]. by destruct H. Qed.

Section extend.
Variables (S : list state) (P : list (list token)) (w : list token) (t : token) (cur : Z).
Hypothesis Htrie : trie S P.
Hypothesis Hcur : node P w cur.
Hypothesis Hfresh : forall j, ~ node P (w ++ [t]) j.
Abbreviation P' := (P ++ [w ++ [t]]).

Lemma trie_extend S' :
  zlen S < 2 ^ 21 -> length S' = Datatypes.S (length S) -> Forall state_ok S' ->
  (exists s, S' !! length S = Some s /\ getStarIndex s = 0 /\ getStarStarSlashIndex s = 0 /\
     getFirstRuneIndex s = 0) ->
  (forall i s w', S' !! i = Some s -> P !! i = Some w' ->
     link P' w' TStar (getStarIndex s) /\ link P' w' TStarStarSlash (getStarStarSlashIndex s) /\
     exists l, chain S' (getFirstRuneIndex s) l /\ sorted l /\
       forall j c, (j, c) ∈ l <-> node P' (w' ++ [TRune c]) j) ->
  trie S' P'.
Proof.
  intros Hbound Hlen Hok (new&Hnew&Hstar&Hsss&Hfirst) Hold.
  pose proof (tr_length S P Htrie) as HlenP.
  assert (forall i s w', S' !! i = Some s -> P' !! i = Some w' ->
    P !! i = Some w' \/ s = new /\ w' = w ++ [t]) as Hcases.
  { intros i s w' Hs Hw'. apply lookup_app_Some in Hw' as [?|[Hge Hl]]; [by left|].
    apply list_lookup_singleton_Some in Hl as [Hi <-]. right. split; [|done].
    assert (i = length S) as -> by lia. congruence. }
  assert (P !! length P = None) as Hnone by (by apply lookup_ge_None).
  split.
  - rewrite length_app. simpl. lia.
  - unfold zlen in *. lia.
  - apply lookup_app_l_Some. apply Htrie.
  - apply NoDup_app. split_and!; [apply Htrie| |apply NoDup_singleton].
    intros x Hx Hin. apply list_elem_of_singleton in Hin as ->.
    apply list_elem_of_lookup in Hx as [i Hi]. apply (Hfresh (Z.of_nat i)).
    split; [lia|]. by rewrite Nat2Z.id.
  - done.
  - intros i s w' Hs Hw'. destruct (Hcases i s w' Hs Hw') as [Hp|[-> ->]]; [by apply (Hold i)|].
    rewrite Hstar. by apply (link_leaf S).
  - intros i s w' Hs Hw'. destruct (Hcases i s w' Hs Hw') as [Hp|[-> ->]]; [by apply (Hold i)|].
    rewrite Hsss. by apply (link_leaf S).
  - intros i s w' Hs Hw'. destruct (Hcases i s w' Hs Hw') as [Hp|[-> ->]]; [by apply (Hold i)|].
    exists []. rewrite Hfirst. split; [done|]. split; [constructor|]. intros j c.
    split; [set_solver|]. intros Hj. exfalso.
    destruct (link_leaf S P w t (TRune c) Htrie Hfresh) as [[_ H]|[H _]]; [by eapply H|done].
  - intros i w' t' Hl. apply lookup_app_Some in Hl as [Hl|[Hge Hl]].
    + destruct (tr_parent S P Htrie _ _ _ Hl) as (j&Hj&Hjw). exists j. split; [done|].
      by apply lookup_app_l_Some.
    + apply list_lookup_singleton_Some in Hl as [Hi E]. apply app_inj_tail in E as [<- <-].
      exists (Z.to_nat cur). split; [|apply lookup_app_l_Some, Hcur].
      apply node_range in Hcur. unfold zlen in Hcur. lia.
Qed.

(** Edges of other kinds, and of other states, are not affected. *)
Lemma link_kept i s w' t' k :
  S !! i = Some s -> P !! i = Some w' -> w' <> w \/ t' <> t -> link P w' t' k -> link P' w' t' k.
Proof. intros _ _ Hne Hl. apply link_other; [done|]. by apply snoc_ne. Qed.

Lemma runes_kept S' i s s' w' :
  S !! i = Some s -> P !! i = Some w' -> w' <> w \/ (forall c, t <> TRune c) ->
  getFirstRuneIndex s' = getFirstRuneIndex s ->
  (forall j c x, node P (w' ++ [TRune c]) j -> S !! Z.to_nat j = Some x ->
     exists x', S' !! Z.to_nat j = Some x' /\ getCurrentRune x' = getCurrentRune x /\
       getNextRuneIndex x' = getNextRuneIndex x) ->
  exists l, chain S' (getFirstRuneIndex s') l /\ sorted l /\
    forall j c, (j, c) ∈ l <-> node P' (w' ++ [TRune c]) j.
Proof.
  intros Hs Hw' Hne -> Hext. destruct (tr_runes S P Htrie i s w' Hs Hw') as (l&Hc&Hsort&Hl).
  exists l. split_and!; [|done|].
  - eapply chain_ext; [|exact Hc]. intros j c x Hin. apply Hext with c. by apply Hl.
  - intros j c. rewrite Hl, node_snoc. split; [by left|]. intros [?|[_ E]]; [done|].
    apply app_inj_tail in E as [-> E]. destruct Hne as [?|Hne]; [done|by destruct (Hne c)].
Qed.
End extend.

(** ** The operations *)

(** The end states of an automaton: [ends w] is that of the state reached by
    [w]; states that do not exist count as not being end states. *)
Definition end_states (S : list state) (P : list (list token)) (ends : list token -> Z) : Prop :=
  (forall i s w, S !! i = Some s -> P !! i = Some w ->
     getEndState s = ends w /\ getHasPositiveEndState s = false) /\
  (forall w, w ∉ P -> ends w = endStateNone).

(** What adding an edge for a token does. *)
Definition advanced (S S' : list state) (P P' : list (list token)) (w : list token) (t : token)
    (i : Z) : Prop :=
  trie S' P' /\ node P' (w ++ [t]) i /\
  (P' = P \/ P' = P ++ [w ++ [t]]) /\
  forall ends, end_states S P ends -> end_states S' P' ends.

Lemma advanced_same S P w t i : trie S P -> node P (w ++ [t]) i -> advanced S S P P w t i.
Proof. intros. split_and!; [done..|by left|done]. Qed.

Lemma addState_Ok S :
  zlen S <= 2 ^ 21 ->
  addState S = (if decide (zlen S = 2 ^ 21) then Err PlainError else Ok (S ++ [zeroState], zlen S)).
Proof.
  intros Hb. unfold addState, u32. unfold zlen in *. rewrite Z.mod_small by lia.
  change stateMask with (2 ^ 21 - 1). rewrite Z.gtb_ltb.
  case_decide; destruct (Z.ltb_spec (2 ^ 21 - 1) (Z.of_nat (length S))); (done || lia).
Qed.

Lemma updateState_Ok S i s (f : state -> state) :
  0 <= i -> S !! Z.to_nat i = Some s -> updateState S i f = Ok (<[Z.to_nat i := f s]> S).
Proof. intros Hi Hs. unfold updateState. by rewrite (index_ok S i s). Qed.

Lemma zeroState_ok : state_ok zeroState.
Proof. split; unfold is_u64; simpl; lia. Qed.

Lemma end_states_extend S S' P w t ends :
  length S = length P ->
  (forall i s', S' !! i = Some s' ->
     (exists s, S !! i = Some s /\ getEndState s' = getEndState s /\
        getHasPositiveEndState s' = getHasPositiveEndState s) \/
     i = length S /\ getEndState s' = endStateNone /\ getHasPositiveEndState s' = false) ->
  w ++ [t] ∉ P ->
  end_states S P ends -> end_states S' (P ++ [w ++ [t]]) ends.
Proof.
  intros Hlen Hs Hfresh [H1 H2]. split.
  - intros i s' w' Hs' Hw'. destruct (Hs i s' Hs') as [(s&Hs0&->&->)|(->&->&->)].
    + apply lookup_app_Some in Hw' as [Hw'|[Hge _]]; [exact (H1 i s w' Hs0 Hw')|].
      apply lookup_lt_Some in Hs0. lia.
    + rewrite Hlen, lookup_app_r, Nat.sub_diag in Hw' by lia. injection Hw' as <-.
      split; [|done]. symmetry. by apply H2.
  - intros w' Hw'. apply H2. intros Hin. apply Hw', elem_of_app. by left.
Qed.

Lemma fresh_notin P w : (forall j, ~ node P w j) -> w ∉ P.
Proof.
  intros H Hin. apply list_elem_of_lookup in Hin as [i Hi]. apply (H (Z.of_nat i)).
  split; [lia|]. by rewrite Nat2Z.id.
Qed.

(** Lookups after one state was changed and one was appended. *)
Lemma lookup_change {A} (S : list A) c s0 (f : A -> A) x i s' :
  S !! c = Some s0 -> <[c := f s0]> (S ++ [x]) !! i = Some s' ->
  (i = c /\ s' = f s0 /\ (i < length S)%nat) \/ (i <> c /\ S !! i = Some s') \/
  (i = length S /\ s' = x /\ i <> c).
Proof.
  intros Hc Hi. pose proof (lookup_lt_Some _ _ _ Hc) as Hlt.
  apply list_lookup_insert_Some in Hi as [(<-&<-&_)|[Hne Hi]]; [by left|right].
  apply lookup_app_Some in Hi as [?|[Hge Hl]]; [by left|right].
  apply list_lookup_singleton_Some in Hl as [? <-]. split_and!; (done || lia).
Qed.

Section wildcard_edges.
Variables (S : list state) (P : list (list token)) (w : list token) (cur : Z) (s : state).
Hypothesis Htrie : trie S P.
Hypothesis Hcur : node P w cur.
Hypothesis Hs : S !! Z.to_nat cur = Some s.
Hypothesis Hbound : zlen S < 2 ^ 21.

(** Adding a wildcard edge, for a setter that changes only its own field. *)
Lemma add_wildcard t (f : state -> state) :
  (forall j, ~ node P (w ++ [t]) j) -> (t = TStar \/ t = TStarStarSlash) ->
  state_ok (f s) ->
  unpack (f s) = mkFields (if decide (t = TStar) then zlen S else getStarIndex s)
    (if decide (t = TStar) then getStarStarSlashIndex s else zlen S)
    (getHasPositiveEndState s) (getEndState s) (getFirstRuneIndex s) (getNextRuneIndex s)
    (getCurrentRune s) ->
  advanced S (<[Z.to_nat cur := f s]> (S ++ [zeroState])) P (P ++ [w ++ [t]]) w t (zlen S).
Proof.
  intros Hfresh Ht Hok Hf. pose proof (tr_length S P Htrie) as Hlen.
  assert (zlen S = zlen P) as Hz by (unfold zlen; lia).
  injection Hf as Hf1 Hf2 Hf3 Hf4 Hf5 Hf6 Hf7.
  pose proof (lookup_lt_Some _ _ _ Hs) as Hlt.
  assert (forall j x, S !! j = Some x -> exists x',
    <[Z.to_nat cur := f s]> (S ++ [zeroState]) !! j = Some x' /\
    getCurrentRune x' = getCurrentRune x /\ getNextRuneIndex x' = getNextRuneIndex x) as Hkeep.
  { intros j x Hx. destruct (decide (j = Z.to_nat cur)) as [->|Hne].
    - exists (f s). rewrite list_lookup_insert_eq by (rewrite length_app; lia).
      assert (x = s) as -> by congruence. done.
    - exists x. rewrite list_lookup_insert_ne by done. split; [|done]. by apply lookup_app_l_Some. }
  split; [|split; [|split]].
  - apply (trie_extend S P w t cur Htrie Hcur Hfresh); [done| | | |].
    + rewrite length_insert, length_app. simpl. lia.
    + apply Forall_insert; [|done]. apply Forall_app. split; [apply Htrie|].
      constructor; [apply zeroState_ok|done].
    + exists zeroState. split; [|done]. rewrite list_lookup_insert_ne by lia.
      by rewrite lookup_app_r, Nat.sub_diag by lia.
    + intros i s' w' Hs' Hw'. apply (lookup_change S _ s) in Hs' as [(->&->&_)|[[Hne Hs']|(->&_&_)]];
        [| |exfalso; rewrite Hlen in Hw'; by rewrite lookup_ge_None_2 in Hw'|done].
      * assert (w' = w) as -> by (destruct Hcur; congruence).
        rewrite Hf1, Hf2. split; [|split].
        -- case_decide as E; [subst t; rewrite Hz; apply link_new, Htrie|].
           eapply link_kept; [done..|by right|by apply (tr_star S P Htrie (Z.to_nat cur))].
        -- case_decide as E; [subst t|].
           ++ eapply link_kept; [done..|by right|by apply (tr_starStarSlash S P Htrie (Z.to_nat cur))].
           ++ destruct Ht as [?| ->]; [done|]. rewrite Hz. apply link_new, Htrie.
        -- eapply (runes_kept S P w t); [done|exact Hs|exact Hw'| |done|].
           ++ right. intros c ->. by destruct Ht.
           ++ intros j c x _. apply Hkeep.
      * assert (w' <> w) as Hw.
        { intros ->. destruct Hcur as [_ Hc]. apply Hne.
          by eapply NoDup_lookup; [apply Htrie| |]. }
        split; [|split].
        -- eapply link_kept; [done..|by left|by apply (tr_star S P Htrie i)].
        -- eapply link_kept; [done..|by left|by apply (tr_starStarSlash S P Htrie i)].
        -- eapply (runes_kept S P w t); [done|exact Hs'|exact Hw'|by left|done|].
           intros j c x _. apply Hkeep.
  - rewrite Hz. apply node_snoc. by right.
  - by right.
  - intros ends. apply end_states_extend; [done| |by apply fresh_notin].
    intros i s' Hs'. apply (lookup_change S _ s) in Hs' as [(->&->&_)|[[Hne Hs']|(->&->&_)]]; [| | |done].
    + left. exists s. by rewrite Hf3, Hf4.
    + left. by exists s'.
    + by right.
Qed.
End wildcard_edges.

(** The result of adding an edge: a larger automaton, or an error when the
    number of states is exhausted. *)
Definition advance_result (S : list state) (P : list (list token)) (w : list token) (t : token)
    (o : outcome (list state * Z)) : Prop :=
  (exists S' P' i, o = Ok (S', i) /\ advanced S S' P P' w t i) \/
  (o = Err PlainError /\ zlen S = 2 ^ 21).

Lemma getOrAddStar_spec S P w cur :
  trie S P -> node P w cur -> advance_result S P w TStar (getOrAddStar S cur).
Proof.
  intros H Hn. destruct (node_state S P w cur) as (s&Hs&Hi); [apply H|done|].
  unfold getOrAddStar. rewrite Hi. cbn [mbind outcome_bind]. destruct Hn as [Hc Hw].
  destruct (tr_star S P H _ s w Hs Hw) as [[E Hno]|[E Hyes]].
  - rewrite E. simpl negb. cbv iota. rewrite addState_Ok by apply H.
    case_decide as Hfull; [by right|]. left. cbn [mbind outcome_bind].
    rewrite (updateState_Ok _ cur s) by (done || by apply lookup_app_l_Some).
    cbn [mbind outcome_bind]. pose proof (tr_bound S P H) as Hb.
    assert (state_ok s) as Hok by (exact (Forall_lookup_1 _ _ _ _ (tr_ok S P H) Hs)).
    assert (index_ok21 (zlen S)) as Hz by (unfold index_ok21, zlen in *; lia).
    do 3 eexists. split; [reflexivity|].
    destruct (setStarIndex_fields s Hok (zlen S) Hz) as [Hok' Hf].
    apply (add_wildcard S P w cur s H (conj Hc Hw) Hs) with (f := fun s => setStarIndex s (zlen S));
      [lia|done|by left|done|exact Hf].
  - apply Z.eqb_neq in E. rewrite E. left. do 3 eexists. split; [reflexivity|]. by apply advanced_same.
Qed.

Lemma getOrAddStarStarSlash_spec S P w cur :
  trie S P -> node P w cur -> advance_result S P w TStarStarSlash (getOrAddStarStarSlash S cur).
Proof.
  intros H Hn. destruct (node_state S P w cur) as (s&Hs&Hi); [apply H|done|].
  unfold getOrAddStarStarSlash. rewrite Hi. cbn [mbind outcome_bind]. destruct Hn as [Hc Hw].
  destruct (tr_starStarSlash S P H _ s w Hs Hw) as [[E Hno]|[E Hyes]].
  - rewrite E. simpl negb. cbv iota. rewrite addState_Ok by apply H.
    case_decide as Hfull; [by right|]. left. cbn [mbind outcome_bind].
    rewrite (updateState_Ok _ cur s) by (done || by apply lookup_app_l_Some).
    cbn [mbind outcome_bind]. pose proof (tr_bound S P H) as Hb.
    assert (state_ok s) as Hok by (exact (Forall_lookup_1 _ _ _ _ (tr_ok S P H) Hs)).
    assert (index_ok21 (zlen S)) as Hz by (unfold index_ok21, zlen in *; lia).
    do 3 eexists. split; [reflexivity|].
    destruct (setStarStarSlashIndex_fields s Hok (zlen S) Hz) as [Hok' Hf].
    apply (add_wildcard S P w cur s H (conj Hc Hw) Hs)
      with (f := fun s => setStarStarSlashIndex s (zlen S)); [lia|done|by right|done|exact Hf].
  - apply Z.eqb_neq in E. rewrite E. left. do 3 eexists. split; [reflexivity|]. by apply advanced_same.
Qed.

(** *** Runes *)

Lemma sorted_nodup_indices S i l P w :
  NoDup P -> chain S i l -> sorted l -> (forall j c, (j, c) ∈ l <-> node P (w ++ [TRune c]) j) ->
  NoDup l.*1.
Proof.
  intros _ _ Hs Hl. assert (NoDup l.*2) as Hnd.
  { clear Hl. unfold sorted in Hs. induction Hs as [|c cs _ IH Hall]; [constructor|].
    constructor; [|done]. intros Hin. rewrite Forall_forall in Hall. specialize (Hall c Hin). lia. }
  assert (forall j c c', (j, c) ∈ l -> (j, c') ∈ l -> c = c') as Hfun.
  { intros j c c' H1 H2. apply Hl in H1, H2. pose proof (node_fun _ _ _ _ H1 H2) as E.
    apply app_inj_tail in E as [_ E]. congruence. }
  clear Hl Hs. induction l as [|[j c] l IH]; simpl in *; [constructor|].
  inversion Hnd as [|?? Hc Hnd']; subst. constructor.
  - intros Hin. apply list_elem_of_fmap in Hin as ([j' c']&->&Hin). simpl in *.
    assert (c = c') as -> by (apply (Hfun j'); set_solver). apply Hc.
    apply list_elem_of_fmap. by exists (j', c').
  - apply IH; [done|]. intros j' c1 c2 H1 H2. apply (Hfun j'); set_solver.
Qed.

Lemma nodup_bound (l : list Z) n : NoDup l -> (forall j, j ∈ l -> 0 <= j < Z.of_nat n) -> (length l <= n)%nat.
Proof.
  intros Hnd Hr. assert (NoDup (Z.to_nat <$> l)) as Hnd'.
  { apply NoDup_fmap_2_strong; [|done]. intros x y Hx Hy E. apply Hr in Hx, Hy. lia. }
  rewrite <- (length_fmap Z.to_nat l). transitivity (length (seq 0 n)); [|by rewrite length_seq].
  apply submseteq_length. apply NoDup_submseteq; [done|]. intros x Hx.
  apply list_elem_of_fmap in Hx as (j&->&Hj). apply elem_of_seq. apply Hr in Hj. lia.
Qed.

Lemma chain_length S P w i l :
  trie S P -> chain S i l -> sorted l -> (forall j c, (j, c) ∈ l <-> node P (w ++ [TRune c]) j) ->
  (length l <= length S)%nat.
Proof.
  intros H Hc Hs Hl. rewrite <- (length_fmap fst l), (tr_length S P H). apply nodup_bound.
  - eapply sorted_nodup_indices; [apply H|done..].
  - intros j Hj. apply list_elem_of_fmap in Hj as ([j' c]&->&Hin). apply Hl in Hin.
    by apply node_range in Hin.
Qed.

(** A state keeps its place in the lists of edges. *)
Definition same_edge (S S' : list state) (j : Z) : Prop :=
  forall x, S !! Z.to_nat j = Some x -> exists x', S' !! Z.to_nat j = Some x' /\
    getCurrentRune x' = getCurrentRune x /\ getNextRuneIndex x' = getNextRuneIndex x.

Lemma lastIndex_cons p j c l : lastIndex p ((j, c) :: l) = lastIndex j l.
Proof. unfold lastIndex. rewrite last_cons. by destruct (last l) as [[]|]. Qed.

Lemma lastIndex_in p l : lastIndex p l = p \/ exists c, (lastIndex p l, c) ∈ l.
Proof.
  unfold lastIndex. destruct (last l) as [[j c]|] eqn:E; [|by left].
  right. exists c. by apply last_Some_elem_of.
Qed.

(** Inserting a state in the middle of a list of edges. *)
Lemma chain_insert S S' i l1 l2 n r sn :
  chain S i (l1 ++ l2) -> NoDup (l1 ++ l2).*1 -> 0 < n ->
  S' !! Z.to_nat n = Some sn -> getCurrentRune sn = r -> getNextRuneIndex sn = headIndex l2 ->
  (forall j c, (j, c) ∈ l1 ++ l2 -> j <> lastIndex 0 l1 -> same_edge S S' j) ->
  (forall x, l1 <> [] -> S !! Z.to_nat (lastIndex 0 l1) = Some x -> exists x',
     S' !! Z.to_nat (lastIndex 0 l1) = Some x' /\ getCurrentRune x' = getCurrentRune x /\
     getNextRuneIndex x' = n) ->
  chain S' (match l1 with [] => n | _ => i end) (l1 ++ (n, r) :: l2).
Proof.
  intros Hc Hnd Hn Hsn Hr Hnext Hsame Hlast.
  revert i Hc Hnd Hsame Hlast. induction l1 as [|[j c] l1 IH]; intros i Hc Hnd Hsame Hlast.
  - simpl in *. split; [done|]. split; [done|]. exists sn. split; [done|]. split; [done|].
    rewrite Hnext, <- (chain_head S i l2 Hc). eapply chain_ext; [|exact Hc].
    intros j c x Hin. eapply (Hsame j c); [done|].
    destruct (edge_chain_lookup _ _ _ _ _ Hc Hin) as (_&_&_&?). unfold lastIndex. simpl. lia.
  - simpl in Hc. destruct Hc as (->&Hj&s&Hs&Hcr&Hc). simpl in Hnd.
    inversion Hnd as [|?? Hjn Hnd']; subst. rewrite lastIndex_cons in *.
    destruct l1 as [|[j' c'] l1].
    + change (lastIndex j []) with j in *.
      destruct (Hlast s) as (x'&Hx'&Hcx&Hnx); [done..|].
      simpl. split; [done|]. split; [done|]. exists x'. split; [done|]. split; [done|].
      rewrite Hnx. apply (IH (getNextRuneIndex s) Hc Hnd'); [|done].
      intros k d Hin _. apply (Hsame k d); [by right|]. intros ->. apply Hjn.
      apply list_elem_of_fmap. by exists (j, d).
    + rewrite lastIndex_cons in *.
      assert (j <> lastIndex j' l1) as Hne.
      { intros E. apply Hjn. apply list_elem_of_fmap.
        destruct (lastIndex_in j' l1) as [E'|[d Hd]].
        - exists (j', c'). split; [simpl; congruence|by left].
        - exists (lastIndex j' l1, d). split; [done|]. right. apply elem_of_app. by left. }
      destruct (Hsame j (getCurrentRune s) ltac:(by left) Hne s Hs) as (x'&Hx'&Hcx&Hnx).
      split; [done|]. split; [done|]. exists x'. split; [done|]. split; [done|]. rewrite Hnx.
      apply (IH (getNextRuneIndex s) Hc Hnd').
      * intros k d Hin. rewrite ?lastIndex_cons. apply (Hsame k d). by right.
      * rewrite ?lastIndex_cons. intros x _. by apply Hlast.
Qed.

Lemma sorted_insert l1 l2 n r :
  sorted (l1 ++ l2) -> Forall (fun p => p.2 < r) l1 -> Forall (fun p => r < p.2) l2 ->
  sorted (l1 ++ (n, r) :: l2).
Proof.
  induction l1 as [|[j c] l1 IH]; simpl; intros Hs H1 H2.
  - by apply sorted_cons.
  - apply sorted_cons in Hs as [Hs Hall]. inversion H1 as [|?? Hc H1']; subst.
    apply sorted_cons. split; [by apply IH|]. apply Forall_app in Hall as [??].
    apply Forall_app. split; [done|]. by constructor.
Qed.

Section rune_edge.
Variables (S : list state) (P : list (list token)) (w : list token) (cur r : Z).
Hypothesis Htrie : trie S P.
Hypothesis Hcur : node P w cur.
Hypothesis Hbound : zlen S < 2 ^ 21.
Hypothesis Hr : 0 <= r < 2 ^ 21.
Hypothesis Hfresh : forall j, ~ node P (w ++ [TRune r]) j.
Variables (s : state) (l1 l2 : list (Z * Z)).
Hypothesis Hs : S !! Z.to_nat cur = Some s.
Hypothesis Hchain : chain S (getFirstRuneIndex s) (l1 ++ l2).
Hypothesis Hsorted : sorted (l1 ++ l2).
Hypothesis Hl1 : Forall (fun p => p.2 < r) l1.
Hypothesis Hl2 : Forall (fun p => r < p.2) l2.
Hypothesis Hedges : forall j c, (j, c) ∈ l1 ++ l2 <-> node P (w ++ [TRune c]) j.

Abbreviation n := (zlen S).
Abbreviation new := (initializeRune zeroState r (headIndex l2)).

(** The state whose link is changed, and how. *)
Variables (tgt : Z) (st : state) (f : state -> state).
Hypothesis Htgt0 : 0 <= tgt.
Hypothesis Htgt : S !! Z.to_nat tgt = Some st.
Hypothesis Hf : state_ok (f st) /\ unpack (f st) = mkFields (getStarIndex st)
  (getStarStarSlashIndex st) (getHasPositiveEndState st) (getEndState st)
  (if decide (l1 = []) then n else getFirstRuneIndex st)
  (if decide (l1 = []) then getNextRuneIndex st else n) (getCurrentRune st).
Hypothesis Hwhich : tgt = if decide (l1 = []) then cur else lastIndex 0 l1.

Abbreviation S' := (<[Z.to_nat n := new]> (<[Z.to_nat tgt := f st]> (S ++ [zeroState]))).

Lemma new_fields :
  state_ok new /\ unpack new = mkFields 0 0 false 0 0 (headIndex l2) r.
Proof.
  destruct (initializeRune_fields zeroState zeroState_ok r (headIndex l2)) as [H1 H2]; [done| |].
  - destruct l2 as [|[j c] l] eqn:E; [unfold index_ok21; simpl; lia|].
    assert (node P (w ++ [TRune c]) j) as Hj by (apply Hedges, elem_of_app; right; by left).
    apply node_range in Hj. rewrite <- (tr_length S P Htrie) in Hj || idtac.
    pose proof (tr_length S P Htrie). unfold index_ok21, zlen in *. simpl. lia.
  - split; [exact H1|]. rewrite H2. reflexivity.
Qed.

Lemma lookup_new i x :
  S' !! i = Some x ->
  (i = length S /\ x = new) \/ (i = Z.to_nat tgt /\ x = f st /\ (i < length S)%nat) \/
  (i <> Z.to_nat tgt /\ S !! i = Some x).
Proof.
  intros Hx. apply list_lookup_insert_Some in Hx as [(<-&<-&_)|[Hne Hx]].
  { left. split; [unfold zlen; lia|done]. }
  apply (lookup_change S _ st) in Hx as [(->&->&?)|[[? ?]|(->&_&_)]]; [| | |done].
  - right. by left.
  - right. by right.
  - unfold zlen in Hne. lia.
Qed.

Lemma lookup_kept i x :
  S !! i = Some x -> i <> Z.to_nat tgt -> S' !! i = Some x.
Proof.
  intros Hx Hne. pose proof (lookup_lt_Some _ _ _ Hx).
  rewrite list_lookup_insert_ne by (unfold zlen; lia). rewrite list_lookup_insert_ne by done.
  by apply lookup_app_l_Some.
Qed.

Lemma lookup_tgt : S' !! Z.to_nat tgt = Some (f st).
Proof.
  pose proof (lookup_lt_Some _ _ _ Htgt).
  rewrite list_lookup_insert_ne by (unfold zlen; lia).
  apply list_lookup_insert_eq. rewrite length_app. lia.
Qed.

Lemma lookup_last : S' !! Z.to_nat n = Some new.
Proof.
  apply list_lookup_insert_eq. rewrite length_insert, length_app. unfold zlen. simpl. lia.
Qed.

Lemma edge_pos j c : (j, c) ∈ l1 ++ l2 -> 0 < j /\ j <> cur.
Proof.
  intros Hin. destruct (edge_chain_lookup _ _ _ _ _ Hchain Hin) as (_&_&_&?). split; [done|].
  intros ->. apply Hedges in Hin. pose proof (node_fun _ _ _ _ Hin Hcur) as E.
  apply (f_equal length) in E. rewrite length_app in E. simpl in E. lia.
Qed.

Lemma tgt_cases :
  (l1 = [] /\ tgt = cur) \/
  (l1 <> [] /\ tgt = lastIndex 0 l1 /\ 0 < tgt /\ tgt <> cur /\ exists c, (tgt, c) ∈ l1).
Proof.
  rewrite Hwhich. case_decide as Hl; [by left|right]. split; [done|]. split; [done|].
  destruct (last l1) as [[j c]|] eqn:E; [|by apply last_None in E].
  assert (lastIndex 0 l1 = j) as -> by (unfold lastIndex; by rewrite E).
  assert ((j, c) ∈ l1) as Hin by (by apply last_Some_elem_of).
  destruct (edge_pos j c) as [? ?]; [apply elem_of_app; by left|]. split_and!; [done..|by exists c].
Qed.

(** The list of edges that the new state is inserted into. *)
Lemma edges_cur x : S' !! Z.to_nat cur = Some x ->
  chain S' (getFirstRuneIndex x) (l1 ++ (n, r) :: l2).
Proof.
  intros Hx. destruct Hf as [_ Hfu]. injection Hfu as _ _ _ _ Hf5 Hf6 Hf7.
  pose proof (proj1 Hcur) as Hc0. pose proof (lookup_lt_Some _ _ _ Hs) as Hslt.
  assert (getFirstRuneIndex x = match l1 with [] => n | _ => getFirstRuneIndex s end) as ->.
  { destruct tgt_cases as [[Hl E]|(Hl&_&?&?&_)].
    - rewrite E, lookup_tgt in Hx || (rewrite <- E in Hx; rewrite lookup_tgt in Hx).
      injection Hx as <-. rewrite Hf5, Hl. done.
    - rewrite (lookup_kept _ s) in Hx by (done || lia). injection Hx as <-. by destruct l1. }
  destruct new_fields as [_ Hn]. pose proof (f_equal fNext Hn) as Hn6. pose proof (f_equal fRune Hn) as Hn7.
  apply (chain_insert S _ _ l1 l2 n r new); [done| | | |exact Hn7|exact Hn6| |].
  - eapply sorted_nodup_indices; [apply Htrie|done..].
  - unfold zlen. lia.
  - exact lookup_last.
  - intros j c Hin Hne y Hy. exists y. split; [|done]. apply lookup_kept; [done|].
    destruct (edge_pos j c Hin). destruct tgt_cases as [[_ ->]|(_&->&?&_)]; [lia|].
    intros E. apply Z2Nat.inj in E; lia.
  - intros y Hl Hy. destruct tgt_cases as [[? _]|(_&E&_)]; [done|]. rewrite <- E in *.
    exists (f st). rewrite lookup_tgt. assert (y = st) as -> by congruence. split; [done|].
    split; [done|]. rewrite Hf6. by rewrite decide_False by done.
Qed.

Lemma add_rune : advanced S S' P (P ++ [w ++ [TRune r]]) w (TRune r) n.
Proof.
  pose proof (tr_length S P Htrie) as Hlen. assert (zlen S = zlen P) as Hz by (unfold zlen; lia).
  destruct new_fields as [Hnok Hn].
  pose proof Hf as [Hfok Hfu]. injection Hfu as Hf1 Hf2 Hf3 Hf4 Hf5 Hf6 Hf7.
  assert (forall i s' w', S' !! i = Some s' -> P !! i = Some w' -> exists s0, S !! i = Some s0 /\
    getStarIndex s' = getStarIndex s0 /\ getStarStarSlashIndex s' = getStarStarSlashIndex s0 /\
    (w' <> w -> getFirstRuneIndex s' = getFirstRuneIndex s0)) as Hold.
  { intros i s' w' Hs' Hw'. apply lookup_new in Hs' as [[-> _]|[(->&->&_)|[_ Hs']]].
    - rewrite Hlen in Hw'. by rewrite lookup_ge_None_2 in Hw'.
    - exists st. split_and!; [done..|]. intros Hne. rewrite Hf5.
      destruct tgt_cases as [[Hl E]|[Hl _]]; [|by rewrite decide_False].
      rewrite E in Hw'. destruct Hcur. congruence.
    - by exists s'. }
  split; [|split; [|split]].
  - apply (trie_extend S P w (TRune r) cur Htrie Hcur Hfresh); [done| | | |].
    + rewrite !length_insert, length_app. simpl. lia.
    + apply Forall_insert; [|done]. apply Forall_insert; [|done].
      apply Forall_app. split; [apply Htrie|]. constructor; [apply zeroState_ok|done].
    + exists new. split_and!; [|exact (f_equal fStar Hn)|exact (f_equal fStarStarSlash Hn)
        |exact (f_equal fFirst Hn)].
      replace (length S) with (Z.to_nat n) by (unfold zlen; lia). exact lookup_last.
    + intros i s' w' Hs' Hw'. destruct (Hold i s' w' Hs' Hw') as (s0&Hs0&->&->&Hfirst).
      split; [|split].
      * eapply link_kept; [done..|by right|by apply (tr_star S P Htrie i)].
      * eapply link_kept; [done..|by right|by apply (tr_starStarSlash S P Htrie i)].
      * destruct (decide (w' = w)) as [->|Hne].
        -- assert (i = Z.to_nat cur) as ->.
           { destruct Hcur as [_ Hc]. by eapply NoDup_lookup; [apply Htrie| |]. }
           exists (l1 ++ (n, r) :: l2). split; [by apply edges_cur|].
           split; [by apply sorted_insert|]. intros j c. rewrite node_snoc.
           rewrite <- Hedges, !elem_of_app, elem_of_cons, Hz. split.
           ++ intros [?|[[= -> ->]|?]]; [left; by left|by right|left; by right].
           ++ intros [[?|?]|[-> E]]; [by left|right; by right|right; left].
              apply app_inj_tail in E as [_ E]. congruence.
        -- eapply (runes_kept S P w (TRune r)); [done|exact Hs0|exact Hw'|by left|by apply Hfirst|].
           intros j c x Hj Hx. destruct (decide (j = tgt)) as [->|Hjt].
           ++ exists (f st). assert (x = st) as -> by congruence.
              rewrite lookup_tgt. split; [done|]. split; [done|]. rewrite Hf6.
              destruct tgt_cases as [[Hl _]|(_&_&_&_&c'&Hin)]; [by rewrite decide_True|].
              assert ((tgt, c') ∈ l1 ++ l2) as Hin' by (apply elem_of_app; by left).
              apply Hedges in Hin'. pose proof (node_fun _ _ _ _ Hj Hin') as E.
              by apply app_inj_tail in E as [? _].
           ++ exists x. split; [|done]. apply lookup_kept; [done|].
              intros E. apply Z2Nat.inj in E; [done|by destruct Hj|done].
  - rewrite Hz. apply node_snoc. by right.
  - by right.
  - intros ends. apply end_states_extend; [done| |by apply fresh_notin].
    intros i s' Hs'. apply lookup_new in Hs' as [[-> ->]|[(->&->&_)|[_ Hs']]].
    + right. split_and!; [done|exact (f_equal fEnd Hn)|exact (f_equal fPositive Hn)].
    + left. exists st. by rewrite Hf3, Hf4.
    + left. by exists s'.
Qed.
End rune_edge.

(** The two updates of the states that insert an edge. *)
Lemma updateState_twice (S : list state) tgt st (f g : state -> state) :
  0 <= tgt -> S !! Z.to_nat tgt = Some st ->
  (states ← updateState (S ++ [zeroState]) tgt f;
   states ← updateState states (zlen S) g; Ok (states, zlen S)) =
  Ok (<[Z.to_nat (zlen S) := g zeroState]> (<[Z.to_nat tgt := f st]> (S ++ [zeroState])), zlen S).
Proof.
  intros Ht Hst. pose proof (lookup_lt_Some _ _ _ Hst).
  rewrite (updateState_Ok _ tgt st) by (done || by apply lookup_app_l_Some).
  cbn [mbind outcome_bind]. rewrite (updateState_Ok _ (zlen S) zeroState); [done|unfold zlen; lia|].
  unfold zlen. rewrite Nat2Z.id, list_lookup_insert_ne by lia.
  by rewrite lookup_app_r, Nat.sub_diag by lia.
Qed.

Lemma getOrAddRune_spec S P w cur r :
  trie S P -> node P w cur -> 0 <= r < 2 ^ 21 -> advance_result S P w (TRune r) (getOrAddRune S cur r).
Proof.
  intros H Hn Hr. destruct (node_state S P w cur) as (s&Hs&Hi); [apply H|done|].
  unfold getOrAddRune. rewrite Hi. cbn [mbind outcome_bind]. pose proof Hn as [Hc Hw].
  destruct (tr_runes S P H _ s w Hs Hw) as (l&Hl&Hsort&Hedges).
  destruct (findRune_spec (length S) S _ l r 0 Hl Hsort) as [(j&Hin&->)|(l1&l2&->&Hl1&Hl2&->)].
  { by eapply chain_length. }
  { left. do 3 eexists. split; [reflexivity|]. apply advanced_same; [done|]. by apply Hedges. }
  cbn [mbind outcome_bind]. rewrite addState_Ok by apply H.
  case_decide as Hfull; [by right|]. left. cbn [mbind outcome_bind].
  pose proof (tr_bound S P H) as Hb. assert (zlen S < 2 ^ 21) as Hb' by lia.
  assert (index_ok21 (zlen S)) as Hz by (unfold index_ok21, zlen in *; lia).
  assert (forall j, ~ node P (w ++ [TRune r]) j) as Hfresh.
  { intros j Hj. apply Hedges, elem_of_app in Hj as [Hj|Hj].
    - rewrite Forall_forall in Hl1. specialize (Hl1 _ Hj). simpl in Hl1. lia.
    - rewrite Forall_forall in Hl2. specialize (Hl2 _ Hj). simpl in Hl2. lia. }
  pose proof (add_rune S P w cur r H Hn Hb' Hr Hfresh s l1 l2 Hs Hl Hsort Hl1 Hl2 Hedges) as Hadd.
  assert (state_ok s) as Hok by (exact (Forall_lookup_1 _ _ _ _ (tr_ok S P H) Hs)).
  destruct (decide (l1 = [])) as [->|Hne].
  - change (lastIndex 0 []) with 0. simpl (0 =? 0). cbv iota. rewrite (updateState_twice S cur s) by done.
    do 3 eexists. split; [reflexivity|].
    apply (Hadd cur s (fun s => setFirstRuneIndex s (zlen S))); [done|done|by apply setFirstRuneIndex_fields|done].
  - destruct (last l1) as [[j c]|] eqn:E; [|by apply last_None in E].
    assert (lastIndex 0 l1 = j) as Hj by (unfold lastIndex; by rewrite E). rewrite Hj in *.
    assert ((j, c) ∈ l1 ++ l2) as Hin by (apply elem_of_app; left; by apply last_Some_elem_of).
    destruct (edge_chain_lookup _ _ _ _ _ Hl Hin) as (sj&Hsj&_&Hpos).
    destruct (Z.eqb_spec j 0); [lia|]. rewrite (updateState_twice S j sj) by (done || lia).
    do 3 eexists. split; [reflexivity|].
    assert (state_ok sj) as Hokj by (exact (Forall_lookup_1 _ _ _ _ (tr_ok S P H) Hsj)).
    apply (Hadd j sj (fun s => setNextRuneIndex s (zlen S))); [lia|done| |].
    + by apply setNextRuneIndex_fields.
    + done.
Qed.

Lemma advance_spec S P w cur t :
  trie S P -> node P w cur -> token_ok t -> advance_result S P w t (advance S cur t).
Proof.
  intros H Hn Ht. destruct t; simpl.
  - by apply getOrAddRune_spec.
  - by apply getOrAddStar_spec.
  - by apply getOrAddStarStarSlash_spec.
Qed.
