(* ===== verification/GlobPattern.v ===== *)
(** * From glob patterns to the trie of their tokens

    [pattern_paths] is what the scanner of [addPattern] makes of a pattern: the
    sequences of tokens whose states become end states.  [component_paths] is
    the documented meaning of a pattern, component by component; the two agree
    on every pattern, rejections included.  [NewNFAFromPatterns] is shown to
    build the trie of exactly these sequences. *)

From S2P Require Import Prelude Glob GlobTrie.

(** ** The scanner, on sequences of tokens *)

Record tokens := mkTokens {
  tRunes : bool;
  tStarStarSlash : bool;
  tStars : Z;
  tPrevious : option (list token);
  tCurrent : list token;
}.

Definition initialTokens : tokens := mkTokens false false 0 None [].

(** The tokens of a pending star. *)
Definition pendingStar (n : Z) : list token := if n =? 1 then [TStar] else [].

Definition tokenRune (ts : tokens) (r : Z) : option tokens :=
  if r =? runeStar then
    if (tStars ts =? 1) && tRunes ts then None else if tStars ts =? 2 then None
    else Some (mkTokens (tRunes ts) (tStarStarSlash ts) (tStars ts + 1) (tPrevious ts) (tCurrent ts))
  else if r =? runeSlash then
    if tStars ts =? 2 then
      if tStarStarSlash ts then None
      else Some (mkTokens false true 0 (tPrevious ts) (tCurrent ts ++ [TStarStarSlash]))
    else if (tStars ts =? 0) && negb (tRunes ts) then None
    else
      let current := tCurrent ts ++ pendingStar (tStars ts) in
      Some (mkTokens false false 0 (Some current) (current ++ [TRune runeSlash]))
  else if tStars ts =? 2 then None
  else Some (mkTokens true (tStarStarSlash ts) 0 (tPrevious ts)
               ((tCurrent ts ++ pendingStar (tStars ts)) ++ [TRune r])).

Fixpoint tokenRunes (ts : tokens) (pattern : list Z) : option tokens :=
  match pattern with
  | [] => Some ts
  | r :: pattern => match tokenRune ts r with Some ts => tokenRunes ts pattern | None => None end
  end.

Definition tokenFinish (ts : tokens) : option (list (list token)) :=
  if tStars ts =? 2 then
    if tStarStarSlash ts then None
    else Some (option_list (tPrevious ts) ++ [tCurrent ts ++ [TStarStarSlash; TStar]])
  else if (tStars ts =? 0) && negb (tRunes ts) then None
  else Some [tCurrent ts ++ pendingStar (tStars ts)].

Definition pattern_paths (pattern : list Z) : option (list (list token)) :=
  match tokenRunes initialTokens pattern with Some ts => tokenFinish ts | None => None end.

(** ** Changes that keep the shape of the trie *)

Lemma trie_shape S S' P :
  trie S P -> length S' = length S -> Forall state_ok S' ->
  (forall i s s', S !! i = Some s -> S' !! i = Some s' ->
     getStarIndex s' = getStarIndex s /\ getStarStarSlashIndex s' = getStarStarSlashIndex s /\
     getFirstRuneIndex s' = getFirstRuneIndex s /\ getNextRuneIndex s' = getNextRuneIndex s /\
     getCurrentRune s' = getCurrentRune s) ->
  trie S' P.
Proof.
  intros H Hlen Hok Hsame.
  assert (forall i s', S' !! i = Some s' -> exists s, S !! i = Some s) as Hold.
  { intros i s' Hs'. apply lookup_lt_is_Some. rewrite <- Hlen. by eapply lookup_lt_Some. }
  split; try apply H.
  - rewrite Hlen. apply H.
  - unfold zlen. rewrite Hlen. apply H.
  - done.
  - intros i s' w Hs' Hw. destruct (Hold i s' Hs') as [s Hs].
    destruct (Hsame i s s' Hs Hs') as (->&_). by apply (tr_star S P H i).
  - intros i s' w Hs' Hw. destruct (Hold i s' Hs') as [s Hs].
    destruct (Hsame i s s' Hs Hs') as (_&->&_). by apply (tr_starStarSlash S P H i).
  - intros i s' w Hs' Hw. destruct (Hold i s' Hs') as [s Hs].
    destruct (Hsame i s s' Hs Hs') as (_&_&->&_).
    destruct (tr_runes S P H i s w Hs Hw) as (l&Hc&Hl). exists l. split; [|done].
    eapply chain_ext; [|exact Hc]. intros j c x _ Hx.
    destruct (lookup_lt_is_Some_2 S' (Z.to_nat j)) as [x' Hx'].
    { rewrite Hlen. by eapply lookup_lt_Some. }
    exists x'. split; [done|]. by destruct (Hsame _ x x' Hx Hx') as (_&_&_&->&->).
Qed.

(** Changing one state without changing its edges. *)
Lemma update_shape S P i s (f : state -> state) :
  trie S P -> 0 <= i -> S !! Z.to_nat i = Some s -> state_ok (f s) ->
  getStarIndex (f s) = getStarIndex s -> getStarStarSlashIndex (f s) = getStarStarSlashIndex s ->
  getFirstRuneIndex (f s) = getFirstRuneIndex s -> getNextRuneIndex (f s) = getNextRuneIndex s ->
  getCurrentRune (f s) = getCurrentRune s ->
  updateState S i f = Ok (<[Z.to_nat i := f s]> S) /\ trie (<[Z.to_nat i := f s]> S) P.
Proof.
  intros H Hi Hs Hok H1 H2 H3 H4 H5. split; [by apply updateState_Ok|].
  apply (trie_shape S); [done|apply length_insert|apply Forall_insert; [apply H|done]|].
  intros k x x' Hx Hx'. apply list_lookup_insert_Some in Hx' as [(<-&<-&_)|[_ Hx']].
  - assert (x = s) as -> by congruence. by split_and!.
  - assert (x' = x) as -> by congruence. by split_and!.
Qed.

(** [setEndState] *)
Definition upd (ends : list token -> Z) (w : list token) (e : Z) : list token -> Z :=
  fun w' => if decide (w' = w) then e else ends w'.

Lemma setEndState_spec S P ends w i e :
  trie S P -> end_states S P ends -> node P w i -> 0 <= e < 2 ^ 21 ->
  exists S', updateState S i (fun s => setEndState s e) = Ok S' /\ trie S' P /\
    length S' = length S /\ end_states S' P (upd ends w e).
Proof.
  intros H [He1 He2] Hn He. destruct (node_state S P w i) as (s&Hs&_); [apply H|done|].
  assert (state_ok s) as Hok by (exact (Forall_lookup_1 _ _ _ _ (tr_ok S P H) Hs)).
  destruct (setEndState_fields s Hok e He) as [Hok' Hf].
  pose proof (f_equal fPositive Hf) as Hf3. pose proof (f_equal fEnd Hf) as Hf4.
  simpl in Hf3, Hf4. destruct Hn as [Hi Hw].
  destruct (update_shape S P i s (fun s => setEndState s e)) as [HU HT];
    [done|done|done|done|exact (f_equal fStar Hf)|exact (f_equal fStarStarSlash Hf)
    |exact (f_equal fFirst Hf)|exact (f_equal fNext Hf)|exact (f_equal fRune Hf)|].
  eexists. split; [exact HU|]. split; [done|]. split; [apply length_insert|]. split.
  - intros k x w' Hx Hw'. unfold upd. apply list_lookup_insert_Some in Hx as [(<-&<-&_)|[Hne Hx]].
    + rewrite decide_True by congruence. rewrite Hf4, Hf3. split; [done|].
      by apply (He1 (Z.to_nat i) s w).
    + rewrite decide_False; [by apply (He1 k)|]. intros ->. apply Hne.
      by eapply NoDup_lookup; [apply H| |].
  - intros w' Hw'. unfold upd. rewrite decide_False; [by apply He2|]. intros ->. apply Hw'.
    by eapply list_elem_of_lookup_2.
Qed.

(** ** The scanner builds the trie *)

(** Adjacent tokens: a wildcard is never followed by one that would extend it. *)
Definition allowed (t t' : token) : bool :=
  match t, t' with
  | TStar, TStar | TStar, TStarStarSlash | TStarStarSlash, TStarStarSlash => false
  | _, _ => true
  end.

Definition allowed_after (w : list token) (t : token) : Prop :=
  forall t', last w = Some t' -> allowed t' t = true.

Definition good (w : list token) : Prop :=
  forall u t t' v, w = u ++ t :: t' :: v -> allowed t t' = true.

Lemma good_snoc w t : good w -> allowed_after w t -> good (w ++ [t]).
Proof.
  intros Hg Ha u t1 t2 v E. destruct v as [|x v _] using rev_ind.
  - replace (u ++ [t1; t2]) with ((u ++ [t1]) ++ [t2]) in E by (by rewrite <- app_assoc).
    apply app_inj_tail in E as [-> <-]. apply Ha. by rewrite last_snoc.
  - replace (u ++ t1 :: t2 :: v ++ [x]) with ((u ++ t1 :: t2 :: v) ++ [x]) in E
      by (by rewrite <- app_assoc).
    apply app_inj_tail in E as [-> _]. by eapply Hg.
Qed.

Definition built (S : list state) (P : list (list token)) (ends : list token -> Z) : Prop :=
  trie S P /\ Forall good P /\ end_states S P ends.

Definition grows (P P' : list (list token)) : Prop := exists Q, P' = P ++ Q.

#[global] Instance grows_preorder : PreOrder grows.
Proof.
  split.
  - intros P. exists []. by rewrite app_nil_r.
  - intros P P' P'' [Q ->] [Q' ->]. exists (Q ++ Q'). by rewrite app_assoc.
Qed.

Lemma node_grows P P' w i : grows P P' -> node P w i -> node P' w i.
Proof. intros [Q ->] [Hi Hw]. split; [done|]. by apply lookup_app_l_Some. Qed.

(** A computation that succeeds with a result in [Q], or that fails because it
    would need more than [budget] further states. *)
Definition within {A} (size : Z) (budget : Z) (o : outcome A) (Q : A -> Prop) : Prop :=
  (exists a, o = Ok a /\ Q a) \/ (o = Err PlainError /\ 2 ^ 21 < size + budget).

Lemma within_bind {A B} size n m (o : outcome A) (f : A -> outcome B) (Q : A -> Prop) (R : B -> Prop) :
  within size n o Q -> 0 <= m -> (forall a, Q a -> within (size + n) m (f a) R) ->
  within size (n + m) (o ≫= f) R.
Proof.
  intros [(a&->&Ha)|[-> Hfull]] Hm Hf; [|right; split; [done|lia]].
  destruct (Hf a Ha) as [?|[? ?]]; [by left|right; split; [done|lia]].
Qed.

Lemma within_ret {A} size n (a : A) (Q : A -> Prop) : Q a -> within size n (Ok a) Q.
Proof. intros. left. by exists a. Qed.

Lemma within_weaken {A} size size' n n' (o : outcome A) (Q R : A -> Prop) :
  within size n o Q -> size + n <= size' + n' -> (forall a, Q a -> R a) -> within size' n' o R.
Proof.
  intros [(a&->&Ha)|[-> Hfull]] Hle Himp; [left; exists a; auto|right; split; [done|lia]].
Qed.

(** The state after moving on to the tokens [w]. *)
Definition moved (S : list state) (P : list (list token)) (ends : list token -> Z) (budget : Z)
    (w : list token) (r : list state * Z) : Prop :=
  exists P', built r.1 P' ends /\ node P' w r.2 /\ grows P P' /\ zlen r.1 <= zlen S + budget.

Lemma advance_within S P ends w cur t :
  built S P ends -> node P w cur -> token_ok t -> allowed_after w t ->
  within (zlen S) 1 (advance S cur t) (moved S P ends 1 (w ++ [t])).
Proof.
  intros (H&Hgood&He) Hn Ht Ha. assert (good (w ++ [t])) as Hnew.
  { apply good_snoc; [|done]. destruct Hn as [_ Hw]. exact (Forall_lookup_1 _ _ _ _ Hgood Hw). }
  destruct (advance_spec S P w cur t H Hn Ht)
    as [(S'&P'&i&->&H'&Hn'&HP'&He')|[-> Hfull]].
  - left. eexists. split; [done|]. exists P'. split; [split; [done|split; [|by apply He']]|].
    { destruct HP' as [->| ->]; [done|]. apply Forall_app. split; [done|by constructor]. }
    split; [done|]. simpl. unfold zlen. rewrite (tr_length _ _ H'), (tr_length _ _ H).
    destruct HP' as [->| ->]; [split; [done|lia]|]. split; [by eexists|]. rewrite length_app. simpl. lia.
  - right. split; [done|]. unfold zlen in *. lia.
Qed.

(** The scanner and the tokens it stands for. *)
Definition scan_rel (P : list (list token)) (sc : scanner) (ts : tokens) : Prop :=
  gotRunes sc = tRunes ts /\ gotStarStarSlash sc = tStarStarSlash ts /\ gotStars sc = tStars ts /\
  0 <= tStars ts <= 2 /\ (tRunes ts = true -> tCurrent ts <> []) /\
  last (tCurrent ts) <> Some TStar /\
  (last (tCurrent ts) = Some TStarStarSlash -> tStarStarSlash ts = true) /\
  node P (tCurrent ts) (currentState sc) /\
  match tPrevious ts with
  | Some w => node P w (previousDirectoryEndState sc) /\ w <> []
  | None => previousDirectoryEndState sc = 0
  end.

Definition scanned (S : list state) (P : list (list token)) (ends : list token -> Z) (budget : Z)
    (ts : tokens) (r : list state * scanner) : Prop :=
  exists P', built r.1 P' ends /\ scan_rel P' r.2 ts /\ grows P P' /\ zlen r.1 <= zlen S + budget.

Lemma previous_grows P P' (prev : option (list token)) k :
  grows P P' ->
  match prev with Some w => node P w k /\ w <> [] | None => k = 0 end ->
  match prev with Some w => node P' w k /\ w <> [] | None => k = 0 end.
Proof. intros Hg. destruct prev; [|done]. intros [? ?]. split; [by eapply node_grows|done]. Qed.

Lemma allowed_star w : last w <> Some TStar -> allowed_after w TStar.
Proof. intros H [r| |] Hl; done. Qed.

Lemma allowed_starStarSlash w :
  last w <> Some TStar -> last w <> Some TStarStarSlash -> allowed_after w TStarStarSlash.
Proof. intros H1 H2 [r| |] Hl; done. Qed.

Lemma allowed_rune w r : allowed_after w (TRune r).
Proof. by intros [r'| |] _. Qed.

(** A pending star, followed by another token. *)
Lemma pending_within S P ends w cur n :
  built S P ends -> node P w cur -> 0 <= n <= 1 -> last w <> Some TStar ->
  within (zlen S) 1 (if n =? 1 then getOrAddStar S cur else Ok (S, cur))
    (moved S P ends 1 (w ++ pendingStar n)).
Proof.
  intros Hb Hn Hr Hlast. unfold pendingStar. destruct (Z.eqb_spec n 1).
  - apply (advance_within S P ends w cur TStar Hb Hn I). by apply allowed_star.
  - apply within_ret. exists P. rewrite app_nil_r. simpl. split_and!; [done..|lia].
Qed.

(** The guard of a component boundary. *)
Lemma pendingCond {A} stars runes (x y : outcome A) :
  (stars =? 0) && negb runes = false -> 0 <= stars <= 2 -> stars <> 2 ->
  (if stars =? 0 then if negb runes then Err PlainError else y
   else if stars =? 1 then x else Panic) = (if stars =? 1 then x else y).
Proof.
  intros Hempty Hr Hne. destruct (Z.eqb_spec stars 0) as [->|]; simpl in *.
  - by rewrite Hempty.
  - by replace stars with 1 by lia.
Qed.

Lemma scanRune_within S P ends sc ts r :
  built S P ends -> scan_rel P sc ts -> 0 <= r < 2 ^ 21 ->
  match tokenRune ts r with
  | Some ts' => within (zlen S) 2 (scanRune S sc r) (scanned S P ends 2 ts')
  | None => scanRune S sc r = Err PlainError
  end.
Proof.
  intros Hb (E1&E2&E3&Hn&Hne0&Hla&Hlb&Hc&Hp) Hr. unfold tokenRune, scanRune. rewrite E1, E2, E3.
  destruct (r =? runeStar).
  { destruct ((tStars ts =? 1) && tRunes ts); [done|].
    destruct (Z.eqb_spec (tStars ts) 2); [done|]. apply within_ret.
    exists P. split; [done|]. split; [|split; [reflexivity|simpl; lia]].
    unfold scan_rel. simpl. split_and!; (done || lia). }
  destruct (r =? runeSlash).
  - destruct (Z.eqb_spec (tStars ts) 2) as [_|Hne].
    + destruct (tStarStarSlash ts) eqn:Hsss; [done|].
      assert (allowed_after (tCurrent ts) TStarStarSlash) as Hall.
      { apply allowed_starStarSlash; [done|]. intros Hl. by specialize (Hlb Hl). }
      eapply (within_bind _ 1 1 (getOrAddStarStarSlash S (currentState sc)));
        [exact (advance_within S P ends _ _ TStarStarSlash Hb Hc I Hall)|lia|].
      intros [S' cur] (P'&Hb'&Hn'&Hg&Hl). apply within_ret. exists P'. simpl in *.
      split; [done|]. split; [|split; [done|lia]]. unfold scan_rel. simpl.
      rewrite last_snoc. split_and!; try (done || lia). by eapply previous_grows.
    + destruct ((tStars ts =? 0) && negb (tRunes ts)) eqn:Hempty.
      { boolprop. by rewrite H, H0. }
      rewrite pendingCond by done.
      eapply (within_bind _ 1 1); [by apply (pending_within S P ends (tCurrent ts)); [..|lia|]|lia|].
      intros [S1 cur1] (P1&Hb1&Hn1&Hg1&Hl1). simpl in *.
      eapply within_weaken; [eapply (within_bind _ 1 0);
        [exact (advance_within S1 P1 ends _ _ (TRune runeSlash) Hb1 Hn1 ltac:(done) (allowed_rune _ _))|lia|]|simpl in *; lia|exact (fun _ H => H)].
      intros [S2 cur2] (P2&Hb2&Hn2&Hg2&Hl2). apply within_ret. exists P2. simpl in *.
      split; [done|]. split; [|split; [by transitivity P1|lia]]. unfold scan_rel. simpl.
      rewrite last_snoc. split_and!; try (done || lia); [by eapply node_grows|].
      unfold pendingStar. destruct (Z.eqb_spec (tStars ts) 0) as [E|]; simpl in Hempty.
      * apply negb_false_iff in Hempty. intros Hnil. apply app_eq_nil in Hnil as [? _]. by apply Hne0.
      * replace (tStars ts) with 1 by lia. simpl. by destruct (tCurrent ts).
  - destruct (Z.eqb_spec (tStars ts) 2) as [->|Hne]; [done|].
    eapply (within_bind _ 1 1); [by apply (pending_within S P ends (tCurrent ts)); [..|lia|]|lia|].
    intros [S1 cur1] (P1&Hb1&Hn1&Hg1&Hl1). simpl in *.
    eapply within_weaken; [eapply (within_bind _ 1 0);
      [exact (advance_within S1 P1 ends _ _ (TRune r) Hb1 Hn1 Hr (allowed_rune _ _))|lia|]|simpl in *; lia|exact (fun _ H => H)].
    intros [S2 cur2] (P2&Hb2&Hn2&Hg2&Hl2). apply within_ret. exists P2. simpl in *.
    split; [done|]. split; [|split; [by transitivity P1|lia]]. unfold scan_rel. simpl.
    rewrite last_snoc. split_and!; try (done || lia); [by destruct (_ ++ _)|].
    eapply previous_grows; [|exact Hp]. by transitivity P1.
Qed.

Lemma scanRunes_within pattern S P ends sc ts :
  built S P ends -> scan_rel P sc ts -> Forall (fun r => 0 <= r < 2 ^ 21) pattern ->
  match tokenRunes ts pattern with
  | Some ts' => within (zlen S) (2 * zlen pattern) (scanRunes S sc pattern)
                  (scanned S P ends (2 * zlen pattern) ts')
  | None => scanRunes S sc pattern = Err PlainError
  end.
Proof.
  revert S P sc ts. induction pattern as [|r pattern IH]; intros S P sc ts Hb Hrel Hr; simpl.
  { apply within_ret. exists P. split_and!; [done..|reflexivity|unfold zlen; simpl; lia]. }
  inversion Hr as [|?? Hr1 Hr2]; subst.
  pose proof (scanRune_within S P ends sc ts r Hb Hrel Hr1) as H1.
  destruct (tokenRune ts r) as [ts1|]; [|by rewrite H1].
  assert (2 * zlen (r :: pattern) = 2 + 2 * zlen pattern) as -> by (unfold zlen; simpl; lia).
  destruct (tokenRunes ts1 pattern) as [ts2|] eqn:E2.
  - eapply within_bind; [exact H1|unfold zlen; lia|].
    intros [S1 sc1] (P1&Hb1&Hrel1&Hg1&Hl1). simpl in *.
    pose proof (IH S1 P1 sc1 ts1 Hb1 Hrel1 Hr2) as H2. rewrite E2 in H2.
    eapply within_weaken; [exact H2|lia|].
    intros [S2 sc2] (P2&Hb2&Hrel2&Hg2&Hl2). exists P2. split_and!; [done..|by transitivity P1|simpl in *; lia].
  - destruct H1 as [([S1 sc1]&->&(P1&Hb1&Hrel1&Hg1&Hl1))|[-> _]]; [|done]. simpl.
    pose proof (IH S1 P1 sc1 ts1 Hb1 Hrel1 Hr2) as H2. by rewrite E2 in H2.
Qed.

(** The end states after the paths [ws] were made end states. *)
Definition upd_all (ends : list token -> Z) (ws : list (list token)) (e : Z) : list token -> Z :=
  fun w => if decide (w ∈ ws) then e else ends w.

Lemma upd_all_snoc ends ws w e w' :
  upd_all ends (ws ++ [w]) e w' = upd (upd_all ends ws e) w e w'.
Proof.
  unfold upd_all, upd. destruct (decide (w' = w)) as [->|Hne].
  - rewrite decide_True; [done|]. apply elem_of_app. right. by left.
  - destruct (decide (w' ∈ ws)) as [Hin|Hnin].
    + rewrite decide_True; [done|]. apply elem_of_app. by left.
    + rewrite decide_False; [done|]. rewrite elem_of_app, list_elem_of_singleton. tauto.
Qed.

Lemma upd_all_single ends w e w' : upd_all ends [w] e w' = upd ends w e w'.
Proof.
  unfold upd_all, upd. destruct (decide (w' = w)) as [->|Hne].
  - rewrite decide_True; [done|]. by left.
  - rewrite decide_False; [done|]. by rewrite list_elem_of_singleton.
Qed.

Lemma end_states_ext S P ends ends' :
  (forall w, ends w = ends' w) -> end_states S P ends -> end_states S P ends'.
Proof.
  intros E [H1 H2]. split; [intros i s w; rewrite <- E; apply H1|].
  intros w Hw. rewrite <- E. by apply H2.
Qed.

Definition patterned (S : list state) (P : list (list token)) (ends : list token -> Z) (budget : Z)
    (S' : list state) : Prop :=
  exists P', built S' P' ends /\ grows P P' /\ zlen S' <= zlen S + budget.

Lemma finish_within S P ends w cur e :
  built S P ends -> node P w cur -> 0 <= e < 2 ^ 21 ->
  within (zlen S) 0 (updateState S cur (fun s => setEndState s e))
    (patterned S P (upd ends w e) 0).
Proof.
  intros (H&Hgood&He) Hn Hr. destruct (setEndState_spec S P ends w cur e H He Hn Hr)
    as (S'&->&H'&Hl&He'). apply within_ret. exists P. split; [done|]. split; [reflexivity|].
  unfold zlen. lia.
Qed.

Lemma advance2_within S P ends w cur t1 t2 :
  built S P ends -> node P w cur -> token_ok t1 -> token_ok t2 ->
  allowed_after w t1 -> allowed t1 t2 = true ->
  within (zlen S) 2 ('(S1, cur1) ← advance S cur t1; advance S1 cur1 t2)
    (moved S P ends 2 (w ++ [t1; t2])).
Proof.
  intros Hb Hn H1 H2 Ha1 Ha2.
  eapply (within_bind _ 1 1); [exact (advance_within S P ends w cur t1 Hb Hn H1 Ha1)|lia|].
  intros [S1 cur1] (P1&Hb1&Hn1&Hg1&Hl1). simpl in *.
  eapply within_weaken; [apply (advance_within S1 P1 ends _ cur1 t2 Hb1 Hn1 H2)|lia|].
  { intros t'. rewrite last_snoc. by intros [= <-]. }
  intros [S2 cur2] (P2&Hb2&Hn2&Hg2&Hl2). exists P2. rewrite <- app_assoc in Hn2. simpl in *.
  split_and!; [done..|by transitivity P1|lia].
Qed.

Lemma finishPattern_within S P ends sc ts e :
  built S P ends -> scan_rel P sc ts -> 0 <= e < 2 ^ 21 ->
  match tokenFinish ts with
  | Some ws => within (zlen S) 2 (finishPattern S sc e) (patterned S P (upd_all ends ws e) 2)
  | None => finishPattern S sc e = Err PlainError
  end.
Proof.
  intros Hb (E1&E2&E3&Hn&Hne0&Hla&Hlb&Hc&Hp) He. unfold tokenFinish, finishPattern. rewrite E1, E2, E3.
  destruct (Z.eqb_spec (tStars ts) 2) as [E|Hne].
  - rewrite E. simpl (2 =? 0). simpl (2 =? 1). cbv iota. destruct (tStarStarSlash ts) eqn:Hsss; [done|].
    assert (allowed_after (tCurrent ts) TStarStarSlash) as Hall.
    { apply allowed_starStarSlash; [done|]. intros Hl. by specialize (Hlb Hl). }
    assert (exists S0 ends0, (if previousDirectoryEndState sc >? 0
        then updateState S (previousDirectoryEndState sc) (fun s => setEndState s e) else Ok S) = Ok S0 /\
      built S0 P ends0 /\ length S0 = length S /\
      forall w, ends0 w = upd_all ends (option_list (tPrevious ts)) e w) as (S0&ends0&->&Hb0&Hl0&Hends).
    { destruct (tPrevious ts) as [w|]; simpl in *.
      - destruct Hp as [Hp Hw]. destruct Hb as (Ht&Hgood&Hes).
        assert (0 < previousDirectoryEndState sc) as Hpos.
        { destruct Hp as [? Hl]. destruct (decide (previousDirectoryEndState sc = 0)) as [E0|]; [|lia].
          rewrite E0 in Hl. change (Z.to_nat 0) with 0%nat in Hl. rewrite (tr_root S P Ht) in Hl. congruence. }
        rewrite Z.gtb_ltb. destruct (Z.ltb_spec 0 (previousDirectoryEndState sc)); [|lia].
        destruct (setEndState_spec S P ends w _ e Ht Hes Hp He) as (S0&->&Ht0&Hl0&He0).
        exists S0, (upd ends w e). split_and!; [done..|]. intros w'. unfold upd, upd_all.
        case_decide as Ew; case_decide as Ew'; try done.
        + destruct Ew'. subst. by left.
        + apply list_elem_of_singleton in Ew'. done.
      - rewrite Hp. exists S, ends. split_and!; [done..|]. intros w'. unfold upd_all.
        rewrite decide_False by (apply not_elem_of_nil). done. }
    cbn [mbind outcome_bind]. eapply (within_weaken (zlen S0) _ (2 + 0));
      [eapply within_bind; [exact (advance2_within S0 P ends0 _ _ TStarStarSlash TStar Hb0 Hc I I Hall eq_refl)|lia|]
      |unfold zlen; lia|exact (fun _ H => H)].
    intros [S1 cur1] (P1&Hb1&Hn1&Hg1&Hl1). simpl in *.
    eapply within_weaken; [exact (finish_within S1 P1 ends0 _ cur1 e Hb1 Hn1 He)|lia|].
    intros S2 (P2&(Ht2&Hgood2&He2)&Hg2&Hl2). exists P2. split_and!; [split; [done|split; [done|]]|by transitivity P1|unfold zlen in *; lia].
    eapply end_states_ext; [|exact He2]. intros w'. rewrite upd_all_snoc. unfold upd. by rewrite Hends.
  - destruct ((tStars ts =? 0) && negb (tRunes ts)) eqn:Hempty.
    { boolprop. by rewrite H, H0. }
    cbv iota. rewrite pendingCond by done.
    eapply (within_weaken _ _ (1 + 0)); [eapply (within_bind _ 1 0);
      [by apply (pending_within S P ends (tCurrent ts)); [..|lia|]|lia|]|lia|exact (fun _ H => H)].
    intros [S1 cur1] (P1&Hb1&Hn1&Hg1&Hl1). simpl in *.
    eapply within_weaken; [exact (finish_within S1 P1 ends _ cur1 e Hb1 Hn1 He)|lia|].
    intros S2 (P2&(Ht2&Hgood2&He2)&Hg2&Hl2). exists P2. split_and!; [split; [done|split; [done|]]|by transitivity P1|lia].
    eapply end_states_ext; [|exact He2]. intros w'. by rewrite upd_all_single.
Qed.

Lemma addPattern_within S P ends pattern e :
  built S P ends -> Forall (fun r => 0 <= r < 2 ^ 21) pattern -> 0 <= e < 2 ^ 21 ->
  match pattern_paths pattern with
  | Some ws => within (zlen S) (2 * zlen pattern + 2) (addPattern S pattern e)
                 (patterned S P (upd_all ends ws e) (2 * zlen pattern + 2))
  | None => addPattern S pattern e = Err PlainError
  end.
Proof.
  intros Hb Hr He. unfold pattern_paths, addPattern.
  assert (scan_rel P initialScanner initialTokens) as Hrel.
  { unfold scan_rel. simpl. split_and!; try (done || lia). split; [lia|]. apply Hb. }
  pose proof (scanRunes_within pattern S P ends _ _ Hb Hrel Hr) as H1.
  destruct (tokenRunes initialTokens pattern) as [ts|]; [|by rewrite H1].
  destruct (tokenFinish ts) as [ws|] eqn:Hws.
  - eapply within_bind; [exact H1|lia|]. intros [S1 sc1] (P1&Hb1&Hrel1&Hg1&Hl1). simpl in *.
    pose proof (finishPattern_within S1 P1 ends sc1 ts e Hb1 Hrel1 He) as H2. rewrite Hws in H2.
    eapply within_weaken; [exact H2|lia|].
    intros S2 (P2&Hb2&Hg2&Hl2). exists P2. split_and!; [done|by transitivity P1|lia].
  - destruct H1 as [([S1 sc1]&->&(P1&Hb1&Hrel1&Hg1&Hl1))|[-> _]]; [|done]. simpl.
    pose proof (finishPattern_within S1 P1 ends sc1 ts e Hb1 Hrel1 He) as H2. by rewrite Hws in H2.
Qed.

(** ** Sets of patterns *)

(** The number of states that a set of patterns may need. *)
Definition patternsBudget (patterns : list (list Z)) : Z :=
  foldr (fun p n => 2 * zlen p + 2 + n) 0 patterns.

Lemma patternsBudget_nonneg ps : 0 <= patternsBudget ps.
Proof. induction ps; simpl; unfold zlen; lia. Qed.

(** The paths of all the patterns, if all of them are valid. *)
Fixpoint all_paths (patterns : list (list Z)) : option (list (list token)) :=
  match patterns with
  | [] => Some []
  | p :: ps => match pattern_paths p, all_paths ps with
               | Some ws, Some wss => Some (ws ++ wss)
               | _, _ => None
               end
  end.

Definition runes_ok (pattern : list Z) : Prop := Forall (fun r => 0 <= r < 2 ^ 21) pattern.

Lemma upd_all_app ends ws ws' e w :
  upd_all (upd_all ends ws e) ws' e w = upd_all ends (ws ++ ws') e w.
Proof.
  unfold upd_all. destruct (decide (w ∈ ws ++ ws')) as [Hin|Hnin].
  - case_decide; [done|]. rewrite decide_True; [done|]. apply elem_of_app in Hin. tauto.
  - rewrite elem_of_app in Hnin. rewrite !decide_False by tauto. done.
Qed.

Lemma addPatterns_within ps S P ends e :
  built S P ends -> Forall runes_ok ps -> 0 <= e < 2 ^ 21 ->
  match all_paths ps with
  | Some ws => within (zlen S) (patternsBudget ps) (addPatterns S ps e)
                 (patterned S P (upd_all ends ws e) (patternsBudget ps))
  | None => addPatterns S ps e = Err PlainError
  end.
Proof.
  revert S P ends. induction ps as [|p ps IH]; intros S P ends Hb Hr He.
  { apply within_ret. exists P. split; [|split; [reflexivity|simpl; lia]].
    destruct Hb as (Ht&Hgood&Hes). split; [done|split; [done|]]. eapply end_states_ext; [|exact Hes].
    intros w. unfold upd_all. rewrite decide_False; [done|]. apply not_elem_of_nil. }
  inversion Hr as [|?? Hr1 Hr2]; subst. cbn [all_paths addPatterns].
  pose proof (addPattern_within S P ends p e Hb Hr1 He) as H1.
  pose proof (patternsBudget_nonneg ps).
  destruct (pattern_paths p) as [ws|]; [|by rewrite H1].
  destruct (all_paths ps) as [wss|].
  - change (patternsBudget (p :: ps)) with (2 * zlen p + 2 + patternsBudget ps).
    eapply within_bind; [exact H1|done|]. intros S1 (P1&Hb1&Hg1&Hl1).
    pose proof (IH S1 P1 _ Hb1 Hr2 He) as H2. eapply within_weaken; [exact H2|lia|].
    intros S2 (P2&(Ht2&Hgood2&He2)&Hg2&Hl2). exists P2.
    split_and!; [split; [done|split; [done|]]|by transitivity P1|].
    2: lia.
    eapply end_states_ext; [|exact He2]. apply upd_all_app.
  - destruct H1 as [(S1&->&(P1&Hb1&Hg1&Hl1))|[-> _]]; [|done]. simpl. by eapply IH.
Qed.

(** ** Early termination *)

(** Some state at or below [w] is a positive end state. *)
Definition positive_below (P : list (list token)) (ends : list token -> Z) (w : list token) : Prop :=
  exists u, w ++ u ∈ P /\ ends (w ++ u) = endStatePositive.

Lemma elem_node P w : w ∈ P <-> exists i, node P w i.
Proof.
  rewrite list_elem_of_lookup. split.
  - intros [i Hi]. exists (Z.of_nat i). split; [lia|]. by rewrite Nat2Z.id.
  - intros [i [_ Hi]]. by eexists.
Qed.

Lemma prefix_closed S P w u : trie S P -> w ++ u ∈ P -> w ∈ P.
Proof.
  intros H. induction u as [|t u IH] using rev_ind; [by rewrite app_nil_r|].
  rewrite app_assoc. intros Hin. apply list_elem_of_lookup in Hin as [i Hi].
  destruct (tr_parent S P H _ _ _ Hi) as (j&_&Hj). apply IH. by eapply list_elem_of_lookup_2.
Qed.

Lemma child_after S P w t i j : trie S P -> node P w i -> node P (w ++ [t]) j -> i < j.
Proof.
  intros H [Hi Hw] [Hj Hwt]. destruct (tr_parent S P H _ _ _ Hwt) as (k&Hk&Hkw).
  assert (k = Z.to_nat i) as -> by (eapply NoDup_lookup; [apply H|done..]). lia.
Qed.

(** A state has a positive end state below it when it is one, or when one of
    its edges leads to such a state. *)
Lemma positive_below_step S P ends w i :
  trie S P -> node P w i ->
  positive_below P ends w <-> ends w = endStatePositive \/
    exists t j, node P (w ++ [t]) j /\ positive_below P ends (w ++ [t]).
Proof.
  intros H Hn. split.
  - intros (u&Hin&He). destruct u as [|t u]; [left; by rewrite app_nil_r in He|right].
    assert (w ++ t :: u = (w ++ [t]) ++ u) as E by (by rewrite <- app_assoc). rewrite E in *.
    pose proof (prefix_closed S P _ _ H Hin) as Ht. apply elem_node in Ht as [j Hj].
    exists t, j. split; [done|]. by exists u.
  - intros [He|(t&j&Hj&u&Hin&He)].
    + exists []. rewrite app_nil_r. split; [|done]. apply elem_node. by exists i.
    + exists (t :: u). rewrite <- app_assoc in Hin, He. done.
Qed.

Lemma anyRune_spec fuel S i l :
  chain S i l -> (length l <= fuel)%nat ->
  exists b : bool, anyRuneHasPositive fuel S i = Ok b /\
    (b = true <-> exists j c s, (j, c) ∈ l /\ S !! Z.to_nat j = Some s /\ getHasPositiveEndState s = true).
Proof.
  revert i fuel. induction l as [|[j c] l IH]; intros i fuel Hc Hf.
  - simpl in Hc. subst i. exists false. split; [by destruct fuel|]. split; [done|].
    intros (?&?&?&Hin&_). by apply not_elem_of_nil in Hin.
  - destruct Hc as (->&Hj&s&Hs&Hcr&Hl). destruct fuel as [|fuel]; [simpl in Hf; lia|].
    cbn [anyRuneHasPositive]. destruct (Z.eqb_spec j 0); [lia|].
    rewrite (index_ok S j s) by (done || lia). cbn [mbind outcome_bind].
    destruct (getHasPositiveEndState s) eqn:E.
    + exists true. split; [done|]. split; [|done]. intros _. exists j, c, s. split; [by left|done].
    + simpl in Hf. destruct (IH _ fuel Hl ltac:(lia)) as (b&->&Hb). exists b. split; [done|].
      rewrite Hb. split.
      * intros (j'&c'&s'&Hin&?). exists j', c', s'. split; [by right|done].
      * intros (j'&c'&s'&Hin&Hs'&Hp). apply elem_of_cons in Hin as [[= -> ->]|Hin]; [congruence|].
        by exists j', c', s'.
Qed.

(** The bit is set for the states from index [n] on. *)
Definition propagated (S : list state) (P : list (list token)) (ends : list token -> Z) (n : Z) : Prop :=
  trie S P /\
  (forall i s w, S !! i = Some s -> P !! i = Some w -> getEndState s = ends w) /\
  (forall i s w, S !! i = Some s -> P !! i = Some w ->
     getHasPositiveEndState s = true <-> n <= Z.of_nat i /\ positive_below P ends w).

Lemma propagated_index S P ends n i w :
  propagated S P ends n -> node P w i -> exists s, S !! Z.to_nat i = Some s /\ index S i = Ok s /\
    (getHasPositiveEndState s = true <-> n <= i /\ positive_below P ends w).
Proof.
  intros (H&_&Hp) Hn. destruct (node_state S P w i) as (s&Hs&Hi); [apply H|done|].
  exists s. split; [done|]. split; [done|]. destruct Hn as [Hi0 Hw].
  rewrite (Hp _ s w Hs Hw). by rewrite Z2Nat.id.
Qed.

(** What following a wildcard edge finds, state 0 standing for its absence. *)
Lemma propagated_link S P ends n t w i k :
  propagated S P ends n -> 0 < n -> n <= i + 1 -> node P w i -> link P w t k ->
  exists s, index S k = Ok s /\
    (getHasPositiveEndState s = true <-> exists j, node P (w ++ [t]) j /\ positive_below P ends (w ++ [t])).
Proof.
  intros Hp Hn Hni Hw Hl. pose proof Hp as [H _]. destruct Hl as [[-> Hno]|[Hk Hyes]].
  - destruct (propagated_index S P ends n 0 [] Hp) as (s&_&Hi&Hs).
    { split; [lia|]. apply H. }
    exists s. split; [done|]. rewrite Hs. split; [lia|]. intros (j&Hj&_). by destruct (Hno j).
  - destruct (propagated_index S P ends n k _ Hp Hyes) as (s&_&Hi&Hs).
    exists s. split; [done|]. rewrite Hs. pose proof (child_after S P w t i k H Hw Hyes).
    split; [intros [_ ?]; by exists k|]. intros (_&_&?). split; [lia|done].
Qed.

Lemma propagated_set S P ends i w :
  propagated S P ends (i + 1) -> node P w i -> positive_below P ends w ->
  exists S', updateState S i setHasPositiveEndState = Ok S' /\ propagated S' P ends i.
Proof.
  intros (H&He&Hp) Hn Hb. destruct (node_state S P w i) as (s&Hs&_); [apply H|done|].
  assert (state_ok s) as Hok by (exact (Forall_lookup_1 _ _ _ _ (tr_ok S P H) Hs)).
  destruct (setHasPositiveEndState_fields s Hok) as [Hok' Hf]. destruct Hn as [Hi Hw].
  destruct (update_shape S P i s setHasPositiveEndState) as [HU HT];
    [done|done|done|done|exact (f_equal fStar Hf)|exact (f_equal fStarStarSlash Hf)
    |exact (f_equal fFirst Hf)|exact (f_equal fNext Hf)|exact (f_equal fRune Hf)|].
  eexists. split; [exact HU|]. split; [done|]. split.
  - intros k x w' Hx Hw'. apply list_lookup_insert_Some in Hx as [(<-&<-&_)|[_ Hx]].
    + pose proof (f_equal fEnd Hf) as E. simpl in E. rewrite E. by apply (He (Z.to_nat i)).
    + by apply (He k).
  - intros k x w' Hx Hw'. apply list_lookup_insert_Some in Hx as [(<-&<-&_)|[Hne Hx]].
    + pose proof (f_equal fPositive Hf) as E. simpl in E. rewrite E.
      assert (w' = w) as -> by congruence. split; [split; [lia|done]|done].
    + rewrite (Hp k x w' Hx Hw'). split; intros [? ?]; (split; [lia|done]).
Qed.

Lemma propagated_unset S P ends i w :
  propagated S P ends (i + 1) -> node P w i -> ~ positive_below P ends w -> propagated S P ends i.
Proof.
  intros (H&He&Hp) [Hi Hw] Hb. split; [done|]. split; [done|]. intros k x w' Hx Hw'.
  rewrite (Hp k x w' Hx Hw'). split; intros [? ?]; (split; [|done]); [lia|].
  destruct (decide (Z.of_nat k = i)) as [E|]; [|lia].
  replace (Z.to_nat i) with k in Hw by lia. congruence.
Qed.

Lemma propagateState_spec S P ends i w :
  propagated S P ends (i + 1) -> node P w i -> 0 < i ->
  exists S', propagateState S i = Ok S' /\ propagated S' P ends i.
Proof.
  intros Hp Hn Hpos. pose proof Hp as (H&He&Hhp).
  destruct (node_state S P w i) as (s&Hs&Hi); [apply H|done|]. destruct Hn as [Hi0 Hw].
  unfold propagateState. rewrite Hi. cbn [mbind outcome_bind].
  destruct (propagated_link S P ends (i + 1) TStar w i (getStarIndex s)) as (s1&->&Hs1);
    [done|lia|lia|by split|by apply (tr_star S P H (Z.to_nat i))|]. cbn [mbind outcome_bind].
  destruct (propagated_link S P ends (i + 1) TStarStarSlash w i (getStarStarSlashIndex s))
    as (s2&->&Hs2); [done|lia|lia|by split|by apply (tr_starStarSlash S P H (Z.to_nat i))|].
  cbn [mbind outcome_bind].
  pose proof (positive_below_step S P ends w i H (conj Hi0 Hw)) as Hstep.
  destruct (_ || _ || _) eqn:Hor.
  { apply (propagated_set S P ends i w Hp (conj Hi0 Hw)). apply Hstep. boolprop.
    - left. rewrite <- (He _ s w Hs Hw). done.
    - right. destruct Hs1 as [Hs1 _]. destruct Hs1 as (j&Hj&?); [done|]. by exists TStar, j.
    - right. destruct Hs2 as [Hs2 _]. destruct Hs2 as (j&Hj&?); [done|]. by exists TStarStarSlash, j. }
  apply orb_false_iff in Hor as [Hor Hor3]. apply orb_false_iff in Hor as [Hor1 Hor2].
  destruct (tr_runes S P H _ s w Hs Hw) as (l&Hl&Hsort&Hedges).
  destruct (anyRune_spec (length S) S _ l Hl) as (b&->&Hb); [by eapply chain_length|].
  cbn [mbind outcome_bind].
  assert (b = true <-> exists c j, node P (w ++ [TRune c]) j /\ positive_below P ends (w ++ [TRune c]))
    as Hb'.
  { rewrite Hb. split.
    - intros (j&c&x&Hin&Hx&Hxp). apply Hedges in Hin. exists c, j. split; [done|].
      destruct Hin as [Hj Hjw]. by apply (Hhp _ x _ Hx Hjw) in Hxp as [_ ?].
    - intros (c&j&Hj&Hbelow). pose proof (child_after S P w _ i j H (conj Hi0 Hw) Hj).
      destruct (node_state S P _ j (tr_length S P H) Hj) as (x&Hx&_). exists j, c, x.
      split; [by apply Hedges|]. split; [done|]. destruct Hj as [Hj Hjw].
      apply (Hhp _ x _ Hx Hjw). split; [lia|done]. }
  destruct b.
  - apply (propagated_set S P ends i w Hp (conj Hi0 Hw)). apply Hstep. right.
    destruct (proj1 Hb' eq_refl) as (c&j&?&?). by exists (TRune c), j.
  - exists S. split; [done|]. apply (propagated_unset S P ends i w Hp (conj Hi0 Hw)).
    rewrite Hstep. intros [E|([c| |]&j&Hj&Hbelow)].
    + rewrite <- (He _ s w Hs Hw) in E. rewrite E in Hor1. done.
    + assert (false = true); [|done]. apply Hb'. by exists c, j.
    + assert (getHasPositiveEndState s1 = true) by (apply Hs1; by exists j). congruence.
    + assert (getHasPositiveEndState s2 = true) by (apply Hs2; by exists j). congruence.
Qed.

Lemma propagateFrom_spec n S P ends :
  propagated S P ends (Z.of_nat n + 1) -> (n < length S)%nat ->
  exists S', propagateFrom n S = Ok S' /\ propagated S' P ends 1.
Proof.
  revert S. induction n as [|n IH]; intros S Hp Hn; [by exists S|].
  cbn [propagateFrom]. destruct (lookup_lt_is_Some_2 P (Datatypes.S n)) as [w Hw].
  { destruct Hp as [H _]. by rewrite <- (tr_length S P H). }
  destruct (propagateState_spec S P ends (Z.of_nat (Datatypes.S n)) w) as (S'&->&Hp'); [done| |lia|].
  { split; [lia|]. by rewrite Nat2Z.id. }
  cbn [mbind outcome_bind]. apply IH; [by replace (Z.of_nat n + 1) with (Z.of_nat (Datatypes.S n)) by lia|].
  destruct Hp as [H _], Hp' as [H' _]. rewrite (tr_length S' P H'), <- (tr_length S P H). lia.
Qed.

Lemma propagate_spec S P ends :
  built S P ends -> exists S', propagateHasPositiveEndState S = Ok S' /\ propagated S' P ends 1.
Proof.
  intros (H&_&[He _]). unfold propagateHasPositiveEndState.
  assert (0 < length S)%nat as Hlen.
  { rewrite (tr_length S P H). by eapply lookup_lt_Some, (tr_root S P H). }
  apply propagateFrom_spec; [|lia]. split; [done|]. split.
  - intros i s w Hs Hw. by apply (He i).
  - intros i s w Hs Hw. destruct (He i s w Hs Hw) as [_ ->]. split; [done|].
    intros [Hi _]. apply lookup_lt_Some in Hs. lia.
Qed.

(** ** The automaton of a set of patterns *)

Lemma built_empty : built [zeroState] [[]] (fun _ => endStateNone).
Proof.
  split; [split|split; [|split]].
  - done.
  - unfold zlen. simpl. lia.
  - done.
  - apply NoDup_singleton.
  - constructor; [apply zeroState_ok|done].
  - intros i s w Hs Hw. apply list_lookup_singleton_Some in Hs as [-> <-]. injection Hw as <-.
    left. split; [done|]. intros j [_ Hj]. apply list_lookup_singleton_Some in Hj as [_ ?]. done.
  - intros i s w Hs Hw. apply list_lookup_singleton_Some in Hs as [-> <-]. injection Hw as <-.
    left. split; [done|]. intros j [_ Hj]. apply list_lookup_singleton_Some in Hj as [_ ?]. done.
  - intros i s w Hs Hw. apply list_lookup_singleton_Some in Hs as [-> <-]. injection Hw as <-.
    exists []. split; [done|]. split; [constructor|]. intros j c. split; [intros Hin; by apply not_elem_of_nil in Hin|].
    intros [_ Hj]. apply list_lookup_singleton_Some in Hj as [_ ?]. done.
  - intros i w t Hl. apply list_lookup_singleton_Some in Hl as [_ E]. by destruct w.
  - constructor; [|done]. intros u t t' v E. by destruct u.
  - intros i s w Hs Hw. by apply list_lookup_singleton_Some in Hs as [-> <-].
  - done.
Qed.

(** The end states of the automaton: excluded paths win over included ones. *)
Definition pattern_ends (included excluded : list (list token)) : list token -> Z :=
  upd_all (upd_all (fun _ => endStateNone) included endStatePositive) excluded endStateNegative.

Lemma NewNFAFromPatterns_spec includes excludes :
  Forall runes_ok includes -> Forall runes_ok excludes ->
  match all_paths includes, all_paths excludes with
  | Some ws, Some wss =>
      within 1 (patternsBudget includes + patternsBudget excludes)
        (NewNFAFromPatterns includes excludes)
        (fun nfa => exists P, propagated (nfaStates nfa) P (pattern_ends ws wss) 1 /\ Forall good P /\
           forall w, w ∉ P -> pattern_ends ws wss w = endStateNone)
  | _, _ => NewNFAFromPatterns includes excludes = Err PlainError
  end.
Proof.
  intros Hi He. unfold NewNFAFromPatterns.
  pose proof (addPatterns_within includes [zeroState] [[]] _ endStatePositive built_empty Hi) as H1.
  specialize (H1 ltac:(done)). change (zlen [zeroState]) with 1 in H1.
  destruct (all_paths includes) as [ws|]; [|by rewrite H1].
  destruct (all_paths excludes) as [wss|] eqn:E2.
  - eapply within_bind; [exact H1|apply patternsBudget_nonneg|].
    intros S1 (P1&Hb1&_&Hl1). change (zlen [zeroState]) with 1 in Hl1.
    pose proof (addPatterns_within excludes S1 P1 _ endStateNegative Hb1 He ltac:(done)) as H2.
    rewrite E2 in H2. eapply (within_weaken _ _ (_ + 0)); [eapply within_bind; [exact H2|lia|]|lia|exact (fun _ H => H)].
    intros S2 (P2&Hb2&_&_). destruct (propagate_spec S2 P2 _ Hb2) as (S3&->&Hp).
    apply within_ret. exists P2. destruct Hb2 as (_&?&_&?). done.
  - destruct H1 as [(S1&->&(P1&Hb1&_&Hl1))|[-> _]]; [|done]. cbn [mbind outcome_bind].
    pose proof (addPatterns_within excludes S1 P1 _ endStateNegative Hb1 He ltac:(done)) as H2.
    rewrite E2 in H2. by rewrite H2.
Qed.

(** ** The meaning of a pattern, by components *)

Fixpoint split_slash (pattern : list Z) : list (list Z) :=
  match pattern with
  | [] => [[]]
  | r :: pattern =>
      if r =? runeSlash then [] :: split_slash pattern
      else match split_slash pattern with c :: cs => (r :: c) :: cs | [] => [[r]] end
  end.

Definition star_star : list Z := [runeStar; runeStar].

Fixpoint has_double_star (c : list Z) : bool :=
  match c with
  | r :: ((r' :: _) as c') => ((r =? runeStar) && (r' =? runeStar)) || has_double_star c'
  | _ => false
  end.

(** A component other than "**": stars match within it, runes literally. *)
Definition component_ok (c : list Z) : bool := bool_decide (c <> []) && negb (has_double_star c).

Definition rune_token (r : Z) : token := if r =? runeStar then TStar else TRune r.

Definition component_tokens (c : list Z) : list token := map rune_token c.

(** The paths of a list of components, [after] telling whether it follows a
    component "**".  A trailing "**" stands for "**/*", and also matches the
    directory before it. *)
Fixpoint component_paths (after : bool) (cs : list (list Z)) : option (list (list token)) :=
  match cs with
  | [] => None
  | c :: cs =>
      if decide (c = star_star) then
        if after then None
        else match cs with
             | [] => Some [[TStarStarSlash; TStar]]
             | _ => map (cons TStarStarSlash) <$> component_paths true cs
             end
      else if component_ok c then
        match cs with
        | [] => Some [component_tokens c]
        | _ => (fun ws => (if decide (cs = [star_star]) then [component_tokens c] else []) ++
                          map (app (component_tokens c ++ [TRune runeSlash])) ws)
               <$> component_paths false cs
        end
      else None
  end.

(** *** Scanning one component *)

Lemma tokenRunes_app ts p q :
  tokenRunes ts (p ++ q) =
  match tokenRunes ts p with Some ts' => tokenRunes ts' q | None => None end.
Proof. revert ts. induction p as [|r p IH]; intros ts; simpl; [done|]. by destruct (tokenRune ts r). Qed.

Definition ends_in_star (c : list Z) : bool := bool_decide (last c = Some runeStar).

Lemma has_double_star_cons x y c :
  has_double_star (x :: y :: c) = ((x =? runeStar) && (y =? runeStar)) || has_double_star (y :: c).
Proof. done. Qed.

Lemma has_double_star_snoc c r :
  has_double_star (c ++ [r]) = has_double_star c || (ends_in_star c && (r =? runeStar)).
Proof.
  induction c as [|x c IH]; [done|]. destruct c as [|y c].
  - simpl. unfold ends_in_star. simpl. destruct (Z.eqb_spec x runeStar) as [->|Hne].
    + rewrite bool_decide_true by done. by destruct (r =? runeStar).
    + rewrite bool_decide_false by congruence. done.
  - change ((x :: y :: c) ++ [r]) with (x :: y :: (c ++ [r])). rewrite !has_double_star_cons.
    change (y :: c ++ [r]) with ((y :: c) ++ [r]). rewrite IH.
    assert (ends_in_star (x :: y :: c) = ends_in_star (y :: c)) as -> by done.
    by destruct ((x =? runeStar) && (y =? runeStar)).
Qed.

(** The tokens of a component without a trailing star. *)
Definition settled (c : list Z) : list token :=
  if ends_in_star c then component_tokens (removelast c) else component_tokens c.

Lemma settled_pending c :
  component_tokens c = settled c ++ pendingStar (if ends_in_star c then 1 else 0).
Proof.
  unfold settled, ends_in_star. destruct (last c) as [x|] eqn:E.
  - apply last_Some in E as [c' ->]. destruct (Z.eqb_spec x runeStar) as [->|Hne].
    + rewrite bool_decide_true by done. rewrite removelast_last. unfold component_tokens.
      by rewrite map_app.
    + rewrite bool_decide_false by congruence. by rewrite app_nil_r.
  - rewrite bool_decide_false by done. by rewrite app_nil_r.
Qed.

Lemma ends_in_star_snoc c r : ends_in_star (c ++ [r]) = (r =? runeStar).
Proof.
  unfold ends_in_star. rewrite last_snoc. destruct (Z.eqb_spec r runeStar) as [->|].
  - by rewrite bool_decide_true.
  - by rewrite bool_decide_false by congruence.
Qed.

Lemma settled_snoc c r :
  settled (c ++ [r]) = if r =? runeStar then component_tokens c else component_tokens (c ++ [r]).
Proof. unfold settled. rewrite ends_in_star_snoc, removelast_last. done. Qed.

Definition has_rune (c : list Z) : bool := existsb (fun r => negb (r =? runeStar)) c.

(** Only stars, and not two in a row: at most one star. *)
Lemma only_stars c : has_rune c = false -> has_double_star c = false -> ends_in_star c = true -> c = [runeStar].
Proof.
  intros Hr Hd He. destruct c as [|x [|y c]].
  - done.
  - unfold ends_in_star in He. apply bool_decide_eq_true in He. simpl in He. congruence.
  - simpl in *. destruct (x =? runeStar), (y =? runeStar); done.
Qed.

Lemma scan_component c w after prev :
  runeSlash ∉ c ->
  tokenRunes (mkTokens false after 0 prev w) c =
  if decide (c = star_star) then Some (mkTokens false after 2 prev w)
  else if has_double_star c then None
  else Some (mkTokens (has_rune c) after (if ends_in_star c then 1 else 0) prev (w ++ settled c)).
Proof.
  induction c as [|r c IH] using rev_ind; intros Hslash.
  { simpl. unfold settled. simpl. by rewrite app_nil_r. }
  rewrite tokenRunes_app, IH by set_solver. clear IH.
  assert (r <> runeSlash) as Hr by set_solver.
  rewrite has_double_star_snoc, ends_in_star_snoc, settled_snoc.
  unfold has_rune at 2. rewrite existsb_app. fold (has_rune c). simpl existsb. rewrite orb_false_r.
  destruct (decide (c = star_star)) as [->|Hc].
  - rewrite decide_False by (unfold star_star; simpl; congruence).
    change (has_double_star star_star) with true. simpl. unfold tokenRune. simpl.
    destruct (r =? runeStar); [done|]. destruct (Z.eqb_spec r runeSlash); done.
  - destruct (has_double_star c) eqn:Hd.
    { rewrite decide_False; [done|]. intros E. change star_star with ([runeStar] ++ [runeStar]) in E.
      by apply app_inj_tail in E as [-> _]. }
    simpl. unfold tokenRune. simpl. destruct (Z.eqb_spec r runeStar) as [->|Hne].
    + rewrite orb_false_r, andb_true_r. destruct (ends_in_star c) eqn:He; simpl.
      * destruct (has_rune c) eqn:Hrun.
        -- rewrite decide_False; [done|]. intros E. change star_star with ([runeStar] ++ [runeStar]) in E.
           apply app_inj_tail in E as [-> _]. done.
        -- rewrite (only_stars c) by done. rewrite decide_True by done.
           change (settled [runeStar]) with (@nil token). by rewrite app_nil_r.
      * rewrite decide_False.
        -- do 2 f_equal. unfold settled. by rewrite He.
        -- intros E. change star_star with ([runeStar] ++ [runeStar]) in E.
           apply app_inj_tail in E as [-> _]. done.
    + rewrite andb_false_r, orb_true_r. destruct (Z.eqb_spec r runeSlash); [done|].
      rewrite decide_False.
      2: { intros E. change star_star with ([runeStar] ++ [runeStar]) in E.
           by apply app_inj_tail in E as [_ ?]. }
      assert (((if ends_in_star c then 1 else 0) =? 2) = false) as -> by (by destruct (ends_in_star c)).
      simpl. do 2 f_equal. unfold component_tokens. rewrite map_app. fold (component_tokens c).
      rewrite (settled_pending c). simpl. unfold rune_token.
      destruct (Z.eqb_spec r runeStar); [done|]. by rewrite <- !app_assoc.
Qed.

(** *** Scanning components one after the other *)

(** The result of the scanner from the start of a component. *)
Definition scan_paths (w : list token) (prev : option (list token)) (after : bool) (p : list Z)
    : option (list (list token)) :=
  match tokenRunes (mkTokens false after 0 prev w) p with Some ts => tokenFinish ts | None => None end.

Fixpoint join_slash (cs : list (list Z)) : list Z :=
  match cs with
  | [] => []
  | [c] => c
  | c :: cs => c ++ runeSlash :: join_slash cs
  end.

Lemma split_slash_spec p :
  split_slash p <> [] /\ join_slash (split_slash p) = p /\ Forall (fun c => runeSlash ∉ c) (split_slash p).
Proof.
  induction p as [|r p (Hne&Hj&Hall)]; simpl.
  { split; [done|]. split; [done|]. constructor; [apply not_elem_of_nil|done]. }
  destruct (Z.eqb_spec r runeSlash) as [->|Hr].
  - split; [done|]. split; [|constructor; [apply not_elem_of_nil|done]].
    destruct (split_slash p) as [|c cs]; [done|]. simpl in *. by rewrite Hj.
  - destruct (split_slash p) as [|c cs]; [done|]. split; [done|]. split.
    + rewrite <- Hj. by destruct cs.
    + inversion Hall; subst. constructor; [|done]. rewrite not_elem_of_cons. split; [congruence|done].
Qed.

Lemma component_ok_start c :
  c <> star_star -> component_ok c = true <->
  has_double_star c = false /\ (has_rune c = true \/ ends_in_star c = true).
Proof.
  intros _. unfold component_ok. rewrite andb_true_iff, negb_true_iff, bool_decide_eq_true.
  split.
  - intros [Hne Hd]. split; [done|]. destruct (has_rune c) eqn:Hr; [by left|right].
    unfold ends_in_star. apply bool_decide_eq_true. destruct (last c) as [x|] eqn:E.
    + apply last_Some in E as [c' ->]. unfold has_rune in Hr. rewrite existsb_app in Hr.
      apply orb_false_iff in Hr as [_ Hr]. simpl in Hr. rewrite orb_false_r in Hr.
      apply negb_false_iff, Z.eqb_eq in Hr. congruence.
    + by apply last_None in E.
  - intros [Hd H]. split; [|done]. intros ->. by destruct H.
Qed.

Lemma scan_last c w prev after :
  runeSlash ∉ c ->
  scan_paths w prev after c =
  if decide (c = star_star) then
    if after then None else Some (option_list prev ++ [w ++ [TStarStarSlash; TStar]])
  else if component_ok c then Some [w ++ component_tokens c] else None.
Proof.
  intros Hs. unfold scan_paths. rewrite scan_component by done.
  destruct (decide (c = star_star)) as [->|Hc]; [by unfold tokenFinish|].
  destruct (component_ok c) eqn:Hok.
  - apply component_ok_start in Hok as [-> Hok]; [|done]. unfold tokenFinish. simpl.
    rewrite (settled_pending c), app_assoc.
    destruct (ends_in_star c); [done|]. destruct Hok as [->|?]; done.
  - destruct (has_double_star c) eqn:Hd; [done|]. unfold tokenFinish. simpl.
    destruct (has_rune c) eqn:Hr, (ends_in_star c) eqn:He; try done;
      exfalso; apply not_true_iff_false in Hok; apply Hok, component_ok_start; auto.
Qed.

Lemma scan_next c p w prev after :
  runeSlash ∉ c ->
  scan_paths w prev after (c ++ runeSlash :: p) =
  if decide (c = star_star) then
    if after then None else scan_paths (w ++ [TStarStarSlash]) prev true p
  else if component_ok c then
    scan_paths (w ++ component_tokens c ++ [TRune runeSlash]) (Some (w ++ component_tokens c)) false p
  else None.
Proof.
  intros Hs. unfold scan_paths. rewrite tokenRunes_app, scan_component by done.
  destruct (decide (c = star_star)) as [->|Hc]; [by destruct after|].
  destruct (component_ok c) eqn:Hok.
  - apply component_ok_start in Hok as [-> Hok]; [|done]. simpl. unfold tokenRune. simpl.
    rewrite (settled_pending c), !app_assoc.
    destruct (ends_in_star c); [done|]. simpl. destruct Hok as [->|?]; done.
  - destruct (has_double_star c) eqn:Hd; [done|]. simpl. unfold tokenRune. simpl.
    destruct (has_rune c) eqn:Hr, (ends_in_star c) eqn:He; try done;
      exfalso; apply not_true_iff_false in Hok; apply Hok, component_ok_start; auto.
Qed.

(** Components, after tokens [w] and with a directory [prev] to match as well. *)
Lemma scan_components cs w prev after :
  cs <> [] -> Forall (fun c => runeSlash ∉ c) cs ->
  scan_paths w prev after (join_slash cs) =
  (fun ws => (if decide (cs = [star_star]) then option_list prev else []) ++ map (app w) ws)
    <$> component_paths after cs.
Proof.
  revert w prev after. induction cs as [|c cs IH]; intros w prev after Hne Hall; [done|].
  inversion Hall as [|?? Hc Hcs]; subst. destruct cs as [|d cs].
  - simpl join_slash. rewrite scan_last by done. cbn [component_paths].
    destruct (decide (c = star_star)) as [->|Hss].
    + by destruct after.
    + rewrite (decide_False (P := [c] = [star_star])) by congruence. by destruct (component_ok c).
  - change (join_slash (c :: d :: cs)) with (c ++ runeSlash :: join_slash (d :: cs)).
    rewrite scan_next, !IH by done.
    rewrite (decide_False (P := c :: d :: cs = [star_star])) by congruence.
    remember (d :: cs) as rest. cbn [component_paths].
    destruct (decide (c = star_star)) as [->|Hss].
    + destruct after; [done|]. destruct rest; [done|]. 
      destruct (decide (l :: rest = [star_star])) as [E|].
      * injection E as -> ->. done.
      * destruct (component_paths true (l :: rest)) as [ws|]; [|done]. simpl. f_equal.
        rewrite map_map. apply map_ext. intros x. by rewrite <- app_assoc.
    + destruct (component_ok c); [|done]. destruct rest; [done|].
      destruct (component_paths false (l :: rest)) as [ws|]; [|done]. simpl. f_equal.
      rewrite map_app, map_map. f_equal.
      * by destruct (decide (l :: rest = [star_star])).
      * apply map_ext. intros x. by rewrite <- !app_assoc.
Qed.

(** The scanner implements the meaning of patterns by components. *)
Lemma pattern_paths_components p : pattern_paths p = component_paths false (split_slash p).
Proof.
  destruct (split_slash_spec p) as (Hne&Hj&Hall). rewrite <- Hj at 1.
  change (pattern_paths (join_slash (split_slash p)))
    with (scan_paths [] None false (join_slash (split_slash p))).
  rewrite scan_components by done. destruct (component_paths false (split_slash p)) as [ws|]; [|done].
  simpl. f_equal. rewrite map_id. by case_decide.
Qed.
