(* ===== verification/GlobMatch.v ===== *)
(** * Matching paths against glob patterns

    The meaning of a sequence of tokens is the set of paths it matches.  The
    sets of states of a [Matcher] are shown to be exactly the states whose
    tokens match the runes written so far, whatever order the code visits them
    in; [IsMatch] therefore decides whether a path is matched by an included
    pattern and by no excluded one, and [WriteRune] only asks for termination
    when no continuation of the path can match. *)

From S2P Require Import Prelude Glob GlobTrie GlobPattern.

(** ** The meaning of tokens *)

Definition token_matches (t : token) (p : list Z) : Prop :=
  match t with
  | TRune c => p = [c]
  | TStar => runeSlash ∉ p
  | TStarStarSlash => p = [] \/ last p = Some runeSlash
  end.

Fixpoint path_matches (w : list token) (p : list Z) : Prop :=
  match w with
  | [] => p = []
  | t :: w => exists p1 p2, p = p1 ++ p2 /\ token_matches t p1 /\ path_matches w p2
  end.

Lemma path_matches_snoc w t p :
  path_matches (w ++ [t]) p <-> exists p1 p2, p = p1 ++ p2 /\ path_matches w p1 /\ token_matches t p2.
Proof.
  revert p. induction w as [|t' w IH]; intros p; simpl.
  - split.
    + intros (p1&p2&->&Ht&->). exists [], p1. by rewrite app_nil_r.
    + intros (p1&p2&->&->&Ht). exists p2, []. by rewrite app_nil_r.
  - split.
    + intros (p1&p2&->&Ht'&H). apply IH in H as (p3&p4&->&Hw&Ht). exists (p1 ++ p3), p4.
      rewrite app_assoc. split; [done|]. split; [|done]. by exists p1, p3.
    + intros (p1&p2&->&(p3&p4&->&Ht'&Hw)&Ht). exists p3, (p4 ++ p2). rewrite app_assoc.
      split; [done|]. split; [done|]. apply IH. by exists p4, p2.
Qed.

(** ** One more rune *)

(** The states that a rune [r] after the path [p] leads to, before wildcards
    that match nothing are followed. *)
Definition stepped (p : list Z) (r : Z) (w : list token) : Prop :=
  (exists u, w = u ++ [TRune r] /\ path_matches u p) \/
  (r <> runeSlash /\ (exists u, w = u ++ [TStar]) /\ path_matches w p) \/
  (r = runeSlash /\ exists u p1 p2, w = u ++ [TStarStarSlash] /\ p = p1 ++ p2 /\ path_matches u p1).

Lemma snoc_split {A} (p : list A) r p1 p2 :
  p ++ [r] = p1 ++ p2 -> (p2 = [] /\ p1 = p ++ [r]) \/ exists p3, p2 = p3 ++ [r] /\ p = p1 ++ p3.
Proof.
  destruct p2 as [|x p2 _] using rev_ind; intros E.
  - left. by rewrite app_nil_r in E.
  - right. rewrite app_assoc in E. apply app_inj_tail in E as [-> ->]. by exists p2.
Qed.

Lemma matches_step u t p r :
  path_matches (u ++ [t]) (p ++ [r]) <->
  stepped p r (u ++ [t]) \/ (t <> TRune r /\ path_matches u (p ++ [r]) /\ token_matches t []).
Proof.
  rewrite path_matches_snoc. split.
  - intros (p1&p2&E&Hu&Ht). apply snoc_split in E as [[-> ->]|(p3&->&->)].
    + right. split; [|done]. intros ->. done.
    + left. destruct t as [c| |]; simpl in Ht.
      * left. assert (p3 = [] /\ r = c) as [-> ->].
        { destruct p3 as [|x p3]; [by injection Ht|]. by destruct p3. }
        exists u. by rewrite app_nil_r.
      * right. left. rewrite not_elem_of_app in Ht. destruct Ht as [Ht1 Ht2].
        split; [set_solver|]. split; [by exists u|]. apply path_matches_snoc. by exists p1, p3.
      * right. right. rewrite last_snoc in Ht. destruct Ht as [Ht|[= ->]]; [by destruct p3|].
        split; [done|]. by exists u, p1, p3.
  - intros [[(u'&E&Hu)|[(Hr&[u' E]&Hm)|(->&u'&p1&p2&E&->&Hu)]]|(_&Hu&Ht)].
    + apply app_inj_tail in E as [<- ->]. by exists p, [r].
    + apply app_inj_tail in E as [<- ->].
      apply path_matches_snoc in Hm as (p1&p2&->&Hu&Ht). exists p1, (p2 ++ [r]).
      rewrite app_assoc. split; [done|]. split; [done|]. simpl. rewrite not_elem_of_app.
      split; [done|]. rewrite list_elem_of_singleton. congruence.
    + apply app_inj_tail in E as [<- ->]. exists p1, (p2 ++ [runeSlash]). rewrite app_assoc.
      split; [done|]. split; [done|]. simpl. right. by rewrite last_snoc.
    + exists (p ++ [r]), []. by rewrite app_nil_r.
Qed.

(** Wildcards that match nothing: what [expandState3] adds to a state. *)
Definition closure (Q : list token -> Prop) (w : list token) : Prop :=
  Q w \/ (exists u, w = u ++ [TStar] /\ Q u) \/ (exists u, w = u ++ [TStarStarSlash] /\ Q u) \/
  (exists u, w = u ++ [TStarStarSlash; TStar] /\ Q u).

Lemma good_prefix u t : good (u ++ [t]) -> good u.
Proof.
  intros H u' t1 t2 v ->. apply (H u' t1 t2 (v ++ [t])). by rewrite <- app_assoc.
Qed.

Lemma good_last u t t' : good ((u ++ [t]) ++ [t']) -> allowed t t' = true.
Proof. intros H. apply (H u t t' []). by rewrite <- app_assoc. Qed.

(** The steps that [matches_step] takes back over wildcards. *)
Section closure.
Variables (M Q : list token -> Prop).
Hypothesis Hnil : M [] <-> Q [].
Hypothesis Hstep : forall u t, M (u ++ [t]) <->
  Q (u ++ [t]) \/ (match t with TRune _ => False | _ => True end /\ M u).

Lemma matches_rune u c : M (u ++ [TRune c]) -> Q (u ++ [TRune c]).
Proof. intros H. apply Hstep in H as [?|[[] _]]. done. Qed.

(** Before "**/" only a rune, or the start, is possible. *)
Lemma matches_before_sss u : good (u ++ [TStarStarSlash]) -> M u -> Q u.
Proof.
  intros Hg. destruct u as [|t u _] using rev_ind; [apply Hnil|]. intros Hm.
  apply good_last in Hg. destruct t as [c| |]; [by apply matches_rune|done|done].
Qed.

Lemma matches_before_star u :
  good (u ++ [TStar]) -> M u -> Q u \/ exists u', u = u' ++ [TStarStarSlash] /\ Q u'.
Proof.
  intros Hg. destruct u as [|t u _] using rev_ind; [intros; left; by apply Hnil|]. intros Hm.
  pose proof (good_last _ _ _ Hg) as Ha. destruct t as [c| |]; [left; by apply matches_rune|done|].
  apply Hstep in Hm as [?|[_ Hm]]; [by left|]. right. exists u. split; [done|].
  apply matches_before_sss; [|done]. by eapply good_prefix.
Qed.

Lemma matches_closure w : good w -> M w <-> closure Q w.
Proof.
  intros Hg. split.
  - destruct w as [|t w _] using rev_ind; [intros; left; by apply Hnil|]. intros Hm.
    pose proof Hm as Hm'. apply Hstep in Hm' as [?|[Ht Hw]]; [by left|]. right.
    destruct t as [c| |]; [done| |].
    + destruct (matches_before_star w Hg Hw) as [Hq|(u'&->&Hq)].
      * left. by exists w.
      * right. right. exists u'. by rewrite <- app_assoc.
    + right. left. exists w. split; [done|]. by apply matches_before_sss.
  - assert (forall u, Q u -> M u) as HQM.
    { intros u Hq. destruct u as [|t u _] using rev_ind; [by apply Hnil|].
      apply Hstep. by left. }
    intros [Hq|[(u&->&Hq)|[(u&->&Hq)|(u&->&Hq)]]].
    + by apply HQM.
    + apply Hstep. right. split; [done|]. by apply HQM.
    + apply Hstep. right. split; [done|]. by apply HQM.
    + change [TStarStarSlash; TStar] with ([TStarStarSlash] ++ [TStar]). rewrite app_assoc.
      apply Hstep. right. split; [done|]. apply Hstep. right. split; [done|]. by apply HQM.
Qed.
End closure.

Lemma written_steps p r :
  (path_matches [] (p ++ [r]) <-> stepped p r []) /\
  forall u t, path_matches (u ++ [t]) (p ++ [r]) <->
    stepped p r (u ++ [t]) \/
    (match t with TRune _ => False | _ => True end /\ path_matches u (p ++ [r])).
Proof.
  split.
  - split; [simpl; by destruct p|]. by intros [([]&?&_)|[(_&[[] ?]&_)|(_&[]&?&?&?&_)]].
  - intros u t. rewrite matches_step. split; (intros [?|H]; [by left|right]).
    + destruct H as (_&Hu&Ht). destruct t; done.
    + destruct H as [Ht Hu]. destruct t; [done|..]; (split; [done|]; split; [done|]; simpl).
      * apply not_elem_of_nil.
      * by left.
Qed.

Lemma written_closure p r w :
  good w -> path_matches w (p ++ [r]) <-> closure (stepped p r) w.
Proof.
  destruct (written_steps p r). by apply (matches_closure (fun w => path_matches w (p ++ [r]))).
Qed.

Lemma initial_closure w : good w -> path_matches w [] <-> closure (fun w => w = []) w.
Proof.
  apply (matches_closure (fun w => path_matches w [])); [done|]. intros u t.
  rewrite path_matches_snoc. split.
  - intros (p1&p2&E&Hu&Ht). symmetry in E. apply app_eq_nil in E as [-> ->]. right. by destruct t.
  - intros [E|[Ht Hu]]; [by destruct u|]. exists [], []. split; [done|]. split; [done|].
    destruct t; [done| |by left]. apply not_elem_of_nil.
Qed.

(** The states reached by a pending star, and by a pending "**/". *)
Lemma written_star p r u :
  good (u ++ [TStar]) -> path_matches (u ++ [TStar]) (p ++ [r]) <->
  (r <> runeSlash /\ path_matches (u ++ [TStar]) p) \/ stepped p r u \/
  (exists u', u = u' ++ [TStarStarSlash] /\ stepped p r u').
Proof.
  intros Hg. destruct (written_steps p r) as [H0 H1]. rewrite H1. split.
  - intros [[(u'&E&_)|[(Hr&_&Hm)|(_&u'&?&?&E&_)]]|[_ Hu]].
    + by apply app_inj_tail in E as [_ ?].
    + by left.
    + by apply app_inj_tail in E as [_ ?].
    + right. by apply (matches_before_star (fun w => path_matches w (p ++ [r])) _ H0 H1).
  - intros [[Hr Hm]|Hu].
    + left. right. left. split; [done|]. split; [by exists u|done].
    + right. split; [done|]. apply written_closure; [by eapply good_prefix|].
      destruct Hu as [?|(u'&->&?)]; [by left|]. right. right. left. by exists u'.
Qed.

Lemma written_sss p r u :
  good (u ++ [TStarStarSlash]) -> path_matches u (p ++ [r]) <-> stepped p r u.
Proof.
  intros Hg. destruct (written_steps p r) as [H0 H1]. split.
  - by apply (matches_before_sss (fun w => path_matches w (p ++ [r])) _ H0 H1).
  - intros Hs. apply written_closure; [by eapply good_prefix|by left].
Qed.

(** ** The sets of states of a matcher *)

Section matcher.
Variables (S : list state) (P : list (list token)) (ends : list token -> Z).
Hypothesis Hprop : propagated S P ends 1.
Hypothesis Hgood : Forall good P.

Lemma Htrie : trie S P.
Proof. apply Hprop. Qed.

Lemma node_good w i : node P w i -> good w.
Proof. intros [_ Hw]. exact (Forall_lookup_1 _ _ _ _ Hgood Hw). Qed.

(** A state from which a positive end state can be reached. *)
Definition hopeful (i : Z) : Prop :=
  exists s, S !! Z.to_nat i = Some s /\ getHasPositiveEndState s = true.

Definition set_is (s : statesSet) (A : Z -> Prop) : Prop :=
  (forall i, i ∈ setStates s <-> A i) /\ (setHasPositive s = true <-> exists i, A i /\ hopeful i).

Lemma set_is_ext s A A' : (forall i, A i <-> A' i) -> set_is s A -> set_is s A'.
Proof.
  intros E [H1 H2]. split; [intros i; by rewrite H1|]. rewrite H2.
  split; intros (i&Ha&Hi); exists i; (split; [by apply E|done]).
Qed.

Lemma set_is_empty : set_is emptyStates (fun _ => False).
Proof. split; [set_solver|]. simpl. split; [done|]. by intros (i&?&_). Qed.

Lemma set_is_add s A w i :
  set_is s A -> node P w i ->
  exists s', statesSet_add s S i = Ok s' /\ set_is s' (fun j => node P w j \/ A j).
Proof.
  intros [H1 H2] Hn. destruct (node_state S P w i) as (st&Hst&Hi); [apply Htrie|done|].
  unfold statesSet_add. rewrite Hi. eexists. split; [reflexivity|].
  assert (forall j, node P w j <-> j = i) as Hj.
  { intros j. split; [|by intros ->]. intros Hj. eapply node_inj; [apply Htrie|done..]. }
  split; simpl.
  - intros j. rewrite elem_of_union, elem_of_singleton, H1, Hj. done.
  - rewrite orb_true_iff, H2. split.
    + intros [(j&?&?)|Hp]; [exists j; split; [by right|done]|].
      exists i. split; [by left|by exists st].
    + intros (j&[Hw|Ha]&Hh); [right|left; by exists j]. apply Hj in Hw as ->.
      destruct Hh as (st'&Hst'&?). congruence.
Qed.

Definition matcher_is (m : Matcher) (C St D : Z -> Prop) : Prop :=
  mStates m = S /\ set_is (currentStates m) C /\ set_is (currentStars m) St /\
  set_is (currentStarStarSlashes m) D.

Lemma matcher_is_ext m C St D C' St' D' :
  matcher_is m C St D -> (forall j, C j <-> C' j) -> (forall j, St j <-> St' j) ->
  (forall j, D j <-> D' j) -> matcher_is m C' St' D'.
Proof.
  intros (Hm&H1&H2&H3) E1 E2 E3. split; [done|].
  split_and!; by eapply set_is_ext.
Qed.

Lemma expandState1_spec m C St D w i :
  matcher_is m C St D -> node P w i ->
  exists m', expandState1 m i = Ok m' /\ matcher_is m' (fun j => node P w j \/ C j) St D.
Proof.
  intros (Hm&H1&H2&H3) Hn. unfold expandState1. rewrite Hm.
  destruct (set_is_add _ _ w i H1 Hn) as (s'&->&Hs'). eexists. split; [reflexivity|]. by split_and!.
Qed.

(** The state that a wildcard edge leads to, if there is one. *)
Lemma star_edge w i s :
  node P w i -> S !! Z.to_nat i = Some s -> link P w TStar (getStarIndex s) /\
  link P w TStarStarSlash (getStarStarSlashIndex s).
Proof.
  intros [_ Hw] Hs. split; [by apply (tr_star S P Htrie (Z.to_nat i))|].
  by apply (tr_starStarSlash S P Htrie (Z.to_nat i)).
Qed.

Lemma expandState2_spec m C St D w i :
  matcher_is m C St D -> node P w i ->
  exists m', expandState2 m i = Ok m' /\
    matcher_is m' (fun j => node P w j \/ node P (w ++ [TStar]) j \/ C j)
      (fun j => node P (w ++ [TStar]) j \/ St j) D.
Proof.
  intros Hm Hn. unfold expandState2. destruct (expandState1_spec m C St D w i Hm Hn) as (m1&->&Hm1).
  cbn [mbind outcome_bind]. pose proof Hm1 as (E1&H1&H2&H3). rewrite E1.
  destruct (node_state S P w i) as (s&Hs&->); [apply Htrie|done|]. cbn [mbind outcome_bind].
  destruct (star_edge w i s Hn Hs) as [[[-> Hno]|[Hk Hyes]] _].
  - simpl. exists m1. split; [done|]. eapply matcher_is_ext; [exact Hm1|..]; try done.
    + intros j. split; [tauto|]. intros [?|[Hj|?]]; [by left|by destruct (Hno j)|by right].
    + intros j. split; [tauto|]. intros [Hj|?]; [by destruct (Hno j)|done].
  - apply Z.eqb_neq in Hk. rewrite Hk. cbn [negb].
    destruct (set_is_add _ _ _ _ H2 Hyes) as (st&->&Hst). cbn [mbind outcome_bind].
    destruct (expandState1_spec (mkMatcher S (currentStates m1) st (currentStarStarSlashes m1))
      (fun j => node P w j \/ C j) (fun j => node P (w ++ [TStar]) j \/ St j) D (w ++ [TStar])
      (getStarIndex s)) as (m2&->&Hm2); [by split_and!|done|].
    exists m2. split; [done|]. eapply matcher_is_ext; [exact Hm2|..]; intros; tauto.
Qed.

Lemma expandState3_spec m C St D w i :
  matcher_is m C St D -> node P w i ->
  exists m', expandState3 m i = Ok m' /\
    matcher_is m'
      (fun j => (node P w j \/ node P (w ++ [TStar]) j \/ node P (w ++ [TStarStarSlash]) j \/
         node P (w ++ [TStarStarSlash; TStar]) j) \/ C j)
      (fun j => (node P (w ++ [TStar]) j \/ node P (w ++ [TStarStarSlash; TStar]) j) \/ St j)
      (fun j => node P (w ++ [TStarStarSlash]) j \/ D j).
Proof.
  intros Hm Hn. unfold expandState3. destruct (expandState2_spec m C St D w i Hm Hn) as (m1&->&Hm1).
  cbn [mbind outcome_bind]. pose proof Hm1 as (E1&H1&H2&H3). rewrite E1.
  destruct (node_state S P w i) as (s&Hs&->); [apply Htrie|done|]. cbn [mbind outcome_bind].
  assert (forall j, node P (w ++ [TStarStarSlash; TStar]) j -> exists k, node P (w ++ [TStarStarSlash]) k)
    as Hpre.
  { intros j Hj. apply elem_node. apply (prefix_closed S P _ [TStar] Htrie).
    rewrite <- app_assoc. apply elem_node. by exists j. }
  destruct (star_edge w i s Hn Hs) as [_ [[-> Hno]|[Hk Hyes]]].
  - simpl. exists m1. split; [done|].
    assert (forall j, ~ node P (w ++ [TStarStarSlash; TStar]) j) as Hno2.
    { intros j Hj. apply Hpre in Hj as [k Hk]. by destruct (Hno k). }
    eapply matcher_is_ext; [exact Hm1|..]; intros j; specialize (Hno j); specialize (Hno2 j); tauto.
  - apply Z.eqb_neq in Hk. rewrite Hk. cbn [negb].
    destruct (set_is_add _ _ _ _ H3 Hyes) as (st&->&Hst). cbn [mbind outcome_bind].
    edestruct (expandState2_spec (mkMatcher S (currentStates m1) (currentStars m1) st))
      as (m2&->&Hm2); [split_and!; [done|exact H1|exact H2|exact Hst]|exact Hyes|].
    exists m2. split; [done|]. rewrite <- app_assoc in Hm2. simpl in Hm2.
    eapply matcher_is_ext; [exact Hm2|..]; intros; simpl; tauto.
Qed.

(** What expanding the states of the paths in [Q] adds to the three sets. *)
Definition addCurrent (Q : list token -> Prop) (j : Z) : Prop :=
  exists w, node P w j /\ closure Q w.
Definition addStars (Q : list token -> Prop) (j : Z) : Prop :=
  exists u, node P (u ++ [TStar]) j /\ (Q u \/ exists u', u = u' ++ [TStarStarSlash] /\ Q u').
Definition addStarStarSlashes (Q : list token -> Prop) (j : Z) : Prop :=
  exists u, node P (u ++ [TStarStarSlash]) j /\ Q u.

Definition grown (m m' : Matcher) (Q : list token -> Prop) : Prop :=
  forall C St D, matcher_is m C St D ->
    matcher_is m' (fun j => addCurrent Q j \/ C j) (fun j => addStars Q j \/ St j)
      (fun j => addStarStarSlashes Q j \/ D j).

Lemma closure_mono (Q Q' : list token -> Prop) w : (forall w, Q w -> Q' w) -> closure Q w -> closure Q' w.
Proof.
  intros H [?|[(u&->&?)|[(u&->&?)|(u&->&?)]]]; [left; auto|right; left|right; right; left|right; right; right];
    exists u; auto.
Qed.

Lemma closure_union Q1 Q2 w : closure (fun w => Q1 w \/ Q2 w) w <-> closure Q1 w \/ closure Q2 w.
Proof.
  split.
  - intros [[?|?]|[(u&->&[?|?])|[(u&->&[?|?])|(u&->&[?|?])]]];
      [left; by left|right; by left|left|right|left|right|left|right]; right;
      [left|left|right; left|right; left|right; right|right; right]; by exists u.
  - intros [H|H]; (eapply closure_mono; [|exact H]); auto.
Qed.

Lemma grown_ext m m' Q Q' : (forall w, Q w <-> Q' w) -> grown m m' Q -> grown m m' Q'.
Proof.
  intros E H C St D Hm. eapply matcher_is_ext; [by apply H|..]; intros j.
  - unfold addCurrent. setoid_rewrite <- (fun w => conj (closure_mono Q Q' w (fun w => proj1 (E w)))
      (closure_mono Q' Q w (fun w => proj2 (E w))) : closure Q w <-> closure Q' w). done.
  - unfold addStars. by setoid_rewrite E.
  - unfold addStarStarSlashes. by setoid_rewrite E.
Qed.

Lemma grown_refl m : grown m m (fun _ => False).
Proof.
  intros C St D Hm. eapply matcher_is_ext; [exact Hm|..]; intros j; (split; [by right|]; intros [H|?]; [|done]).
  - by destruct H as (w&_&[?|[(u&_&?)|[(u&_&?)|(u&_&?)]]]).
  - by destruct H as (u&_&[?|(u'&_&?)]).
  - by destruct H as (u&_&?).
Qed.

Lemma grown_trans m m1 m2 Q1 Q2 :
  grown m m1 Q1 -> grown m1 m2 Q2 -> grown m m2 (fun w => Q1 w \/ Q2 w).
Proof.
  intros H1 H2 C St D Hm. eapply matcher_is_ext; [by apply H2, H1|..]; intros j.
  - assert (addCurrent (fun w => Q1 w \/ Q2 w) j <-> addCurrent Q1 j \/ addCurrent Q2 j) as ->; [|tauto].
    unfold addCurrent. setoid_rewrite closure_union. split.
    + intros (w&?&[?|?]); [left|right]; by exists w.
    + intros [(w&?&?)|(w&?&?)]; exists w; auto.
  - assert (addStars (fun w => Q1 w \/ Q2 w) j <-> addStars Q1 j \/ addStars Q2 j) as ->; [|tauto].
    split.
    + intros (u&?&[[?|?]|(u'&->&[?|?])]); [left|right|left|right]; eexists; (split; [done|]); eauto.
    + intros [(u&?&[?|(u'&->&?)])|(u&?&[?|(u'&->&?)])]; eexists; (split; [done|]); eauto 6.
  - assert (addStarStarSlashes (fun w => Q1 w \/ Q2 w) j <->
      addStarStarSlashes Q1 j \/ addStarStarSlashes Q2 j) as ->; [|tauto].
    split.
    + intros (u&?&[?|?]); [left|right]; by exists u.
    + intros [(u&?&?)|(u&?&?)]; exists u; auto.
Qed.

(** A matcher over this automaton. *)
Definition over (m : Matcher) : Prop := exists C St D, matcher_is m C St D.

Lemma expandState3_grown m w i :
  over m -> node P w i -> exists m', expandState3 m i = Ok m' /\ over m' /\ grown m m' (fun w' => w' = w).
Proof.
  intros (C0&St0&D0&Hm0) Hn. destruct (expandState3_spec m C0 St0 D0 w i Hm0 Hn) as (m'&E&Hm').
  exists m'. split; [done|]. split; [by do 3 eexists|]. intros C St D Hm.
  destruct (expandState3_spec m C St D w i Hm Hn) as (m''&E'&Hm''). rewrite E in E'. injection E' as <-.
  eapply matcher_is_ext; [exact Hm''|..]; intros j;
    unfold addCurrent, addStars, addStarStarSlashes, closure.
  - split; (intros [H|?]; [left|by right]).
    + destruct H as [?|[?|[?|?]]]; eexists; (split; [done|]); eauto 8.
    + destruct H as (w'&Hj&[->|[(u&->&->)|[(u&->&->)|(u&->&->)]]]); auto.
  - split; (intros [H|?]; [left|by right]).
    + destruct H as [?|?]; [exists w; auto|]. exists (w ++ [TStarStarSlash]).
      rewrite <- app_assoc. split; [done|]. right. by exists w.
    + destruct H as (u&Hj&[->|(u'&->&->)]); [by left|]. right. by rewrite <- app_assoc in Hj.
  - split; (intros [H|?]; [left|by right]); [by exists w|]. by destruct H as (u&?&->).
Qed.

Lemma expandStates_grown l m :
  over m -> (forall i, i ∈ l -> exists w, node P w i) ->
  exists m', expandStates m l = Ok m' /\ over m' /\
    grown m m' (fun w => exists i, i ∈ l /\ node P w i).
Proof.
  revert m. induction l as [|i l IH]; intros m Hm Hl.
  - exists m. split; [done|]. split; [done|]. eapply grown_ext; [|apply grown_refl].
    intros w. split; [done|]. intros (i&Hi&_). by apply not_elem_of_nil in Hi.
  - destruct (Hl i) as [w Hw]; [by left|]. destruct (expandState3_grown m w i Hm Hw) as (m1&E1&Ho1&Hg1).
    destruct (IH m1 Ho1) as (m2&E2&Ho2&Hg2); [intros; apply Hl; by right|].
    exists m2. simpl. rewrite E1. split; [exact E2|]. split; [done|].
    eapply grown_ext; [|exact (grown_trans _ _ _ _ _ Hg1 Hg2)]. intros w'. split.
    + intros [->|(i'&Hi'&?)]; [exists i; split; [by left|done]|exists i'; split; [by right|done]].
    + intros (i'&Hi'&Hw'). apply elem_of_cons in Hi' as [->|Hi'].
      * left. by eapply node_fun.
      * right. by exists i'.
Qed.

(** Following the edges of a state: at most one of them has the rune. *)
Lemma followRunes_grown fuel m r w i l :
  over m -> chain S i l -> sorted l -> (forall j c, (j, c) ∈ l -> node P (w ++ [TRune c]) j) ->
  (length l <= fuel)%nat ->
  exists m', followRunes fuel m r i = Ok m' /\ over m' /\
    grown m m' (fun w' => w' = w ++ [TRune r] /\ exists j, (j, r) ∈ l).
Proof.
  revert m i fuel. induction l as [|[j c] l IH]; intros m i fuel Hm Hc Hs Hl Hf.
  { simpl in Hc. subst i. exists m. split; [by destruct fuel|]. split; [done|].
    eapply grown_ext; [|apply grown_refl]. intros w'. split; [done|].
    intros (_&j&Hj). by apply not_elem_of_nil in Hj. }
  destruct Hc as (->&Hj&s&Hs'&Hcr&Hl'). destruct fuel as [|fuel]; [simpl in Hf; lia|].
  apply sorted_cons in Hs as [Hsl Hall]. cbn [followRunes]. destruct (Z.eqb_spec j 0); [lia|].
  assert (mStates m = S) as -> by (destruct Hm as (?&?&?&?&_); done).
  rewrite (index_ok S j s) by (done || lia). cbn [mbind outcome_bind]. rewrite Hcr.
  assert (forall m, over m -> exists m', followRunes fuel m r (getNextRuneIndex s) = Ok m' /\ over m' /\
    grown m m' (fun w' => w' = w ++ [TRune r] /\ exists j, (j, r) ∈ l)) as IH'.
  { intros m0 Hm0. apply IH; [done|done|done|intros; apply Hl; by right|simpl in Hf; lia]. }
  destruct (Z.eqb_spec r c) as [->|Hne].
  - destruct (expandState3_grown m (w ++ [TRune c]) j Hm) as (m1&->&Ho1&Hg1); [apply Hl; by left|].
    cbn [mbind outcome_bind]. destruct (IH' m1 Ho1) as (m2&->&Ho2&Hg2). exists m2. split; [done|].
    split; [done|]. eapply grown_ext; [|exact (grown_trans _ _ _ _ _ Hg1 Hg2)]. intros w'. split.
    + intros [->|[-> [j' ?]]]; (split; [done|]); [exists j; by left|exists j'; by right].
    + intros [-> _]. by left.
  - destruct (Z.ltb_spec r c).
    + exists m. split; [done|]. split; [done|]. eapply grown_ext; [|apply grown_refl].
      intros w'. split; [done|]. intros (_&j'&Hj'). apply elem_of_cons in Hj' as [[= _ ?]|Hj']; [done|].
      rewrite Forall_forall in Hall. specialize (Hall _ Hj'). simpl in Hall. lia.
    + destruct (IH' m Hm) as (m2&->&Ho2&Hg2). exists m2. split; [done|]. split; [done|].
      eapply grown_ext; [|exact Hg2]. intros w'. split; intros [-> [j' Hj']]; (split; [done|]); exists j'.
      * by right.
      * apply elem_of_cons in Hj' as [[= _ ?]|?]; done.
Qed.

Lemma followStates_grown l m r :
  over m -> (forall i, i ∈ l -> exists w, node P w i) ->
  exists m', followStates m r l = Ok m' /\ over m' /\
    grown m m' (fun w' => exists i w, i ∈ l /\ node P w i /\ w' = w ++ [TRune r] /\ w' ∈ P).
Proof.
  revert m. induction l as [|i l IH]; intros m Hm Hl.
  - exists m. split; [done|]. split; [done|]. eapply grown_ext; [|apply grown_refl].
    intros w. split; [done|]. intros (i&?&Hi&_). by apply not_elem_of_nil in Hi.
  - destruct (Hl i) as [w Hw]; [by left|]. cbn [followStates].
    assert (mStates m = S) as -> by (destruct Hm as (?&?&?&?&_); done).
    destruct (node_state S P w i) as (s&Hs&->); [apply Htrie|done|]. cbn [mbind outcome_bind].
    pose proof Hw as [Hi0 Hwi]. destruct (tr_runes S P Htrie _ s w Hs Hwi) as (el&Hc&Hsort&Hedges).
    destruct (followRunes_grown (length S) m r w _ el Hm Hc Hsort) as (m1&->&Ho1&Hg1);
      [intros; by apply Hedges|by eapply chain_length; [apply Htrie|..]|].
    cbn [mbind outcome_bind]. destruct (IH m1 Ho1) as (m2&->&Ho2&Hg2); [intros; apply Hl; by right|].
    exists m2. split; [done|]. split; [done|].
    eapply grown_ext; [|exact (grown_trans _ _ _ _ _ Hg1 Hg2)]. intros w'. split.
    + intros [[-> [j Hj]]|(i'&w0&Hi'&?)].
      * exists i, w. split; [by left|]. split; [done|]. split; [done|]. apply elem_node. exists j.
        by apply Hedges.
      * exists i', w0. split; [by right|done].
    + intros (i'&w0&Hi'&Hw0&->&Hin). apply elem_of_cons in Hi' as [->|Hi'].
      * left. assert (w0 = w) as -> by (by eapply node_fun). split; [done|].
        apply elem_node in Hin as [j Hj]. exists j. by apply Hedges.
      * right. by exists i', w0.
Qed.

(** ** The invariant of matching *)

(** The active states are those whose tokens match the path [p]. *)
Definition matching (p : list Z) (m : Matcher) : Prop :=
  matcher_is m
    (fun j => exists w, node P w j /\ path_matches w p)
    (fun j => exists u, node P (u ++ [TStar]) j /\ path_matches (u ++ [TStar]) p)
    (fun j => exists u p1 p2, node P (u ++ [TStarStarSlash]) j /\ p = p1 ++ p2 /\ path_matches u p1).

Lemma elem_prefix w u : w ++ u ∈ P -> w ∈ P.
Proof. apply (prefix_closed S P). apply Htrie. Qed.

Lemma closure_restrict (Q Q' : list token -> Prop) w :
  (forall u, u ∈ P -> Q u -> Q' u) -> w ∈ P -> closure Q w -> closure Q' w.
Proof.
  intros E Hw [H|[(u&->&H)|[(u&->&H)|(u&->&H)]]].
  - left. by apply E.
  - right. left. exists u. split; [done|]. apply E; [by eapply elem_prefix|done].
  - right. right. left. exists u. split; [done|]. apply E; [by eapply elem_prefix|done].
  - right. right. right. exists u. split; [done|]. apply E; [by eapply elem_prefix|done].
Qed.

Lemma Initialize_matching :
  exists m, Matcher_Initialize (mkNFA S) = Ok m /\ matching [] m.
Proof.
  unfold Matcher_Initialize. simpl. assert (node P [] 0) as H0 by (split; [lia|]; apply Htrie).
  assert (matcher_is (mkMatcher S emptyStates emptyStates emptyStates) (fun _ => False) (fun _ => False)
    (fun _ => False)) as Hm by (split_and!; [done|apply set_is_empty..]).
  destruct (expandState3_grown (mkMatcher S emptyStates emptyStates emptyStates) [] 0)
    as (m&->&_&Hg); [by do 3 eexists|done|].
  exists m. split; [done|]. eapply matcher_is_ext; [by apply Hg|..]; intros j; simpl.
  - split.
    + intros [(w&Hj&Hc)|[]]. exists w. split; [done|]. apply initial_closure; [by eapply node_good|done].
    + intros (w&Hj&Hp). left. exists w. split; [done|].
      apply initial_closure; [by eapply node_good|done].
  - split.
    + intros [(u&Hj&Hu)|[]]. exists u. split; [done|]. apply initial_closure; [by eapply node_good|].
      destruct Hu as [->|(u'&->&->)]; right; [left; by exists []|right; right; by exists []].
    + intros (u&Hj&Hp). left. exists u. split; [done|]. pose proof (node_good _ _ Hj) as Hgu.
      apply initial_closure in Hp; [|done].
      destruct Hp as [E|[(u'&E&->)|[(u'&E&->)|(u'&E&->)]]].
      * by destruct u.
      * apply app_inj_tail in E as [-> _]. by left.
      * by apply app_inj_tail in E as [_ ?].
      * change ([] ++ [TStarStarSlash; TStar]) with ([TStarStarSlash] ++ [TStar]) in E.
        apply app_inj_tail in E as [-> _]. right. by exists [].
  - split.
    + intros [(u&Hj&->)|[]]. exists [], [], []. done.
    + intros (u&p1&p2&Hj&E&Hu). left. exists u. split; [done|]. symmetry in E.
      apply app_eq_nil in E as [-> _]. apply initial_closure in Hu;
        [|by eapply good_prefix, node_good]. 
      destruct Hu as [?|[(u'&->&->)|[(u'&->&->)|(u'&->&->)]]]; [done|exfalso..];
        apply node_good in Hj.
      * by specialize (Hj [] TStar TStarStarSlash [] eq_refl).
      * by specialize (Hj [] TStarStarSlash TStarStarSlash [] eq_refl).
      * by specialize (Hj [TStarStarSlash] TStar TStarStarSlash [] eq_refl).
Qed.

(** The states that [WriteRune] expands are those that the rune leads to. *)
Lemma expanded_stepped m p r u :
  matching p m -> u ∈ P ->
  ((r = runeSlash /\ (exists i, i ∈ elements (setStates (currentStarStarSlashes m)) /\ node P u i)) \/
   (r <> runeSlash /\ (exists i, i ∈ elements (setStates (currentStars m)) /\ node P u i)) \/
   (exists i w, i ∈ elements (setStates (currentStates m)) /\ node P w i /\ u = w ++ [TRune r] /\ u ∈ P))
  <-> stepped p r u.
Proof.
  intros (_&[HC _]&[HS _]&[HD _]) Hu. setoid_rewrite elem_of_elements.
  setoid_rewrite HC. setoid_rewrite HS. setoid_rewrite HD. unfold stepped. split.
  - intros [(->&i&(u'&p1&p2&Hi&->&Hm)&Hn)|[(Hr&i&(u'&Hi&Hm)&Hn)|(i&w&(w'&Hi&Hm)&Hn&->&_)]].
    + right. right. split; [done|]. exists u', p1, p2. by rewrite (node_fun _ _ _ _ Hn Hi).
    + right. left. rewrite (node_fun _ _ _ _ Hn Hi). split; [done|]. split; [by exists u'|done].
    + left. exists w. by rewrite (node_fun _ _ _ _ Hn Hi).
  - apply elem_node in Hu as Hu'. destruct Hu' as [i Hi].
    intros [(w&->&Hm)|[(Hr&[u' ->]&Hm)|(->&u'&p1&p2&->&->&Hm)]].
    + right. right. pose proof (elem_prefix _ _ Hu) as Hw. apply elem_node in Hw as [k Hk].
      exists k, w. split; [by exists w|]. done.
    + right. left. split; [done|]. exists i. split; [by exists u'|done].
    + left. split; [done|]. exists i. split; [by exists u', p1, p2|done].
Qed.

(** The states that [WriteRune] expands after the path [p]. *)
Definition expanded (m : Matcher) (r : Z) (u : list token) : Prop :=
  (r = runeSlash /\ (exists i, i ∈ elements (setStates (currentStarStarSlashes m)) /\ node P u i)) \/
  (r <> runeSlash /\ (exists i, i ∈ elements (setStates (currentStars m)) /\ node P u i)) \/
  (exists i w, i ∈ elements (setStates (currentStates m)) /\ node P w i /\ u = w ++ [TRune r] /\ u ∈ P).

Definition active (m : Matcher) (i : Z) : Prop :=
  i ∈ setStates (currentStates m) \/ i ∈ setStates (currentStars m) \/
  i ∈ setStates (currentStarStarSlashes m).

Lemma matching_nodes p m :
  matching p m -> forall i, active m i -> exists w, node P w i.
Proof.
  intros (_&[HC _]&[HS _]&[HD _]) i [H|[H|H]]; [apply HC in H|apply HS in H|apply HD in H];
    destruct H as (u&H); [exists u|exists (u ++ [TStar])|exists (u ++ [TStarStarSlash])]; [by destruct H..|].
  by destruct H as (?&?&?&_).
Qed.

Lemma WriteRune_grown p m r :
  matching p m ->
  exists m', WriteRune m r = Ok (m', setHasPositive (currentStates m') ||
      setHasPositive (currentStars m') || setHasPositive (currentStarStarSlashes m')) /\
    matcher_is m' (addCurrent (expanded m r))
      (fun j => addStars (expanded m r) j \/ (r <> runeSlash /\ j ∈ setStates (currentStars m)))
      (fun j => addStarStarSlashes (expanded m r) j \/ j ∈ setStates (currentStarStarSlashes m)).
Proof.
  intros Hmp. pose proof (matching_nodes p m Hmp) as Hn. destruct Hmp as (Em&[HC HC']&[HS HS']&[HD HD']).
  assert (forall s A, (forall i, i ∈ setStates s <-> A i) ->
    (setHasPositive s = true <-> exists i, A i /\ hopeful i) ->
    set_is s (fun i => i ∈ setStates s)) as Hself.
  { intros s A H1 H2. split; [done|]. rewrite H2. by setoid_rewrite H1. }
  unfold WriteRune, statesSet_clear. cbv zeta. destruct (Z.eqb_spec r runeSlash) as [->|Hr];
    cbn [mStates currentStates currentStars currentStarStarSlashes].
  - set (m0 := mkMatcher (mStates m) emptyStates emptyStates (currentStarStarSlashes m)).
    assert (matcher_is m0 (fun _ => False) (fun _ => False)
      (fun j => j ∈ setStates (currentStarStarSlashes m))) as H0.
    { split_and!; [done|apply set_is_empty..|exact (Hself _ _ HD HD')]. }
    destruct (expandStates_grown (elements (setStates (currentStarStarSlashes m))) m0) as (m1&->&Ho1&Hg1);
      [by do 3 eexists|intros i Hi; apply Hn; right; right; by apply elem_of_elements|].
    cbn [mbind outcome_bind].
    destruct (followStates_grown (elements (setStates (currentStates m))) m1 runeSlash Ho1)
      as (m2&->&Ho2&Hg2); [intros i Hi; apply Hn; left; by apply elem_of_elements|].
    exists m2. split; [done|]. pose proof (grown_trans _ _ _ _ _ Hg1 Hg2) as Hg.
    apply (grown_ext _ _ _ (expanded m runeSlash)) in Hg.
    + eapply matcher_is_ext; [exact (Hg _ _ _ H0)|..]; intros j; simpl; tauto.
    + intros w. unfold expanded. split; [intros [H|H]; [by left|by right; right]|].
      intros [(_&H)|[[? _]|H]]; [by left|done|by right].
  - set (m0 := mkMatcher (mStates m) emptyStates (currentStars m) (currentStarStarSlashes m)).
    assert (matcher_is m0 (fun _ => False) (fun j => j ∈ setStates (currentStars m))
      (fun j => j ∈ setStates (currentStarStarSlashes m))) as H0.
    { split_and!; [done|apply set_is_empty|exact (Hself _ _ HS HS')|exact (Hself _ _ HD HD')]. }
    destruct (expandStates_grown (elements (setStates (currentStars m))) m0) as (m1&->&Ho1&Hg1);
      [by do 3 eexists|intros i Hi; apply Hn; right; left; by apply elem_of_elements|].
    cbn [mbind outcome_bind].
    destruct (followStates_grown (elements (setStates (currentStates m))) m1 r Ho1)
      as (m2&->&Ho2&Hg2); [intros i Hi; apply Hn; left; by apply elem_of_elements|].
    exists m2. split; [done|]. pose proof (grown_trans _ _ _ _ _ Hg1 Hg2) as Hg.
    apply (grown_ext _ _ _ (expanded m r)) in Hg.
    + eapply matcher_is_ext; [exact (Hg _ _ _ H0)|..]; intros j; simpl; tauto.
    + intros w. unfold expanded. split; [intros [H|H]; [by right; left|by right; right]|].
      intros [[? _]|[(_&H)|H]]; [done|by left|by right].
Qed.

Lemma node_elem w j : node P w j -> w ∈ P.
Proof. intros [_ H]. by eapply list_elem_of_lookup_2. Qed.

Lemma WriteRune_matching p m r :
  matching p m ->
  exists m', WriteRune m r = Ok (m', setHasPositive (currentStates m') ||
      setHasPositive (currentStars m') || setHasPositive (currentStarStarSlashes m')) /\
    matching (p ++ [r]) m'.
Proof.
  intros Hmp. destruct (WriteRune_grown p m r Hmp) as (m'&E&Hm'). exists m'. split; [done|].
  pose proof (fun u Hu => expanded_stepped m p r u Hmp Hu) as Hst.
  eapply matcher_is_ext; [exact Hm'|..]; intros j.
  - split; (intros (w&Hj&H); exists w; split; [done|]); pose proof (node_elem _ _ Hj).
    + apply written_closure; [by eapply node_good|]. eapply closure_restrict; [|done|exact H].
      intros u Hu. by apply Hst.
    + apply written_closure in H; [|by eapply node_good]. eapply closure_restrict; [|done|exact H].
      intros u Hu. by apply Hst.
  - destruct Hmp as (_&_&[HS _]&_). rewrite HS. split.
    + intros [(u&Hj&H)|(Hr&u&Hj&H)]; exists u; (split; [done|]);
        (apply written_star; [by eapply node_good|]); [right|by left].
      pose proof (elem_prefix _ _ (node_elem _ _ Hj)) as Hu.
      destruct H as [H|(u'&->&H)]; [left; by apply Hst|right; exists u'; split; [done|]].
      apply Hst; [by eapply elem_prefix|done].
    + intros (u&Hj&H). apply written_star in H; [|by eapply node_good].
      pose proof (elem_prefix _ _ (node_elem _ _ Hj)) as Hu.
      destruct H as [[Hr H]|H]; [right; split; [done|by exists u]|left]. exists u. split; [done|].
      destruct H as [H|(u'&->&H)]; [left; by apply Hst|right; exists u'; split; [done|]].
      apply Hst; [by eapply elem_prefix|done].
  - destruct Hmp as (_&_&_&[HD _]). rewrite HD. split.
    + intros [(u&Hj&H)|(u&p1&p2&Hj&->&H)].
      * exists u, (p ++ [r]), []. rewrite app_nil_r. split; [done|]. split; [done|].
        apply written_sss; [by eapply node_good|].
        apply Hst; [by eapply elem_prefix, node_elem|done].
      * exists u, p1, (p2 ++ [r]). by rewrite app_assoc.
    + intros (u&p1&p2&Hj&E'&H). apply snoc_split in E' as [[-> ->]|(p3&->&->)].
      * left. exists u. split; [done|]. apply written_sss in H; [|by eapply node_good].
        apply Hst; [by eapply elem_prefix, node_elem|done].
      * right. by exists u, p1, p3.
Qed.

Lemma writeRunes_matching q p m :
  matching p m -> exists m', writeRunes m q = Ok m' /\ matching (p ++ q) m'.
Proof.
  revert p m. induction q as [|r q IH]; intros p m Hm.
  - exists m. by rewrite app_nil_r.
  - destruct (WriteRune_matching p m r Hm) as (m1&E&Hm1). simpl. rewrite E. cbn [mbind outcome_bind].
    destruct (IH _ _ Hm1) as (m'&E'&Hm'). exists m'. by rewrite <- app_assoc in Hm'.
Qed.

(** ** Deciding whether the path matches *)

Definition is_end (e : Z) : Prop := e = endStateNone \/ e = endStatePositive \/ e = endStateNegative.

Lemma maxEndState_spec l acc :
  (forall i, i ∈ l -> exists s, index S i = Ok s) ->
  exists e, maxEndState S l acc = Ok e /\ acc <= e /\
    (forall i s, i ∈ l -> index S i = Ok s -> getEndState s <= e) /\
    (e = acc \/ exists i s, i ∈ l /\ index S i = Ok s /\ getEndState s = e).
Proof.
  revert acc. induction l as [|i l IH]; intros acc Hl.
  - exists acc. split; [done|]. split; [lia|]. split; [|by left].
    intros i s Hi. by apply not_elem_of_nil in Hi.
  - destruct (Hl i) as [s Hs]; [by left|]. cbn [maxEndState]. rewrite Hs. cbn [mbind outcome_bind].
    set (acc' := if acc <? getEndState s then getEndState s else acc).
    destruct (IH acc') as (e&->&Hle&Hub&Hat); [intros; apply Hl; by right|].
    assert (acc <= acc' /\ getEndState s <= acc' /\ (acc' = acc \/ acc' = getEndState s)) as (H1&H2&H3)
      by (unfold acc'; destruct (Z.ltb_spec acc (getEndState s)); lia).
    exists e. split; [done|]. split; [lia|]. split.
    + intros i' s' Hi' Hs'. apply elem_of_cons in Hi' as [->|Hi']; [|by eapply Hub].
      rewrite Hs in Hs'. injection Hs' as <-. lia.
    + destruct Hat as [->|(i'&s'&Hi'&?)]; [|right; exists i', s'; split; [by right|done]].
      destruct H3 as [->| ->]; [by left|]. right. exists i, s. split; [by left|done].
Qed.

(** The end states of the active states are those of the paths they stand for. *)
Lemma current_end p m i :
  matching p m -> i ∈ setStates (currentStates m) ->
  exists w s, w ∈ P /\ path_matches w p /\ index S i = Ok s /\ getEndState s = ends w.
Proof.
  intros (_&[HC _]&_) Hi. apply HC in Hi as (w&Hn&Hw).
  destruct (node_state S P w i) as (s&Hs&Hi'); [apply Htrie|done|]. exists w, s.
  split; [by eapply node_elem|]. split; [done|]. split; [done|].
  destruct Hprop as (_&He&_). destruct Hn as [_ Hn]. by eapply He.
Qed.

Lemma current_of p m w :
  matching p m -> w ∈ P -> path_matches w p ->
  exists i s, i ∈ setStates (currentStates m) /\ index S i = Ok s /\ getEndState s = ends w.
Proof.
  intros Hm Hw Hp. apply elem_node in Hw as [i Hn]. exists i.
  assert (i ∈ setStates (currentStates m)) as Hi by (destruct Hm as (_&[HC _]&_); apply HC; by exists w).
  destruct (current_end p m i Hm Hi) as (_&s&_&_&Hs&_). exists s. split; [done|]. split; [done|].
  destruct (node_state S P w i) as (s'&Hs'&Hi'); [apply Htrie|done|].
  rewrite Hs in Hi'. injection Hi' as <-. destruct Hprop as (_&He&_). destruct Hn as [_ Hn]. by eapply He.
Qed.

Lemma IsMatch_matching p m :
  matching p m -> (forall w, is_end (ends w)) ->
  exists b, IsMatch m = Ok b /\
    (b = true <-> (exists w, w ∈ P /\ path_matches w p /\ ends w = endStatePositive) /\
       ~ exists w, w ∈ P /\ path_matches w p /\ ends w = endStateNegative).
Proof.
  intros Hm Hends. unfold IsMatch. assert (mStates m = S) as -> by apply Hm.
  destruct (maxEndState_spec (elements (setStates (currentStates m))) endStateNone) as (e&->&Hle&Hub&Hat).
  { intros i Hi%elem_of_elements. destruct (current_end p m i Hm Hi) as (_&s&_&_&?&_). by exists s. }
  exists (e =? endStatePositive). split; [done|]. rewrite Z.eqb_eq.
  assert (forall w, w ∈ P -> path_matches w p -> ends w <= e) as Hall.
  { intros w Hw Hp. destruct (current_of p m w Hm Hw Hp) as (i&s&Hi&Hs&<-).
    apply (Hub i); [by apply elem_of_elements|done]. }
  assert (e = endStateNone \/ exists w, w ∈ P /\ path_matches w p /\ ends w = e) as Hsome.
  { destruct Hat as [?|(i&s&Hi%elem_of_elements&Hs&He)]; [by left|right].
    destruct (current_end p m i Hm Hi) as (w&s'&Hw&Hp&Hs'&He'). rewrite Hs in Hs'. injection Hs' as <-.
    exists w. by rewrite <- He'. }
  unfold is_end, endStateNone, endStatePositive, endStateNegative in *. split.
  - intros ->. split; [by destruct Hsome|]. intros (w&Hw&Hp&E). specialize (Hall w Hw Hp). lia.
  - intros [(w&Hw&Hp&E) Hneg]. specialize (Hall w Hw Hp). destruct Hsome as [?|(w'&Hw'&Hp'&E')]; [lia|].
    destruct (Hends w') as [?|[?|?]]; [lia|lia|]. destruct Hneg. by exists w'.
Qed.

(** ** Early termination *)

(** A path matched by the tokens [w] is matched up to any point by some prefix
    of [w], or that point is inside of what "**/" matches. *)
Lemma matches_cut w p q :
  path_matches w (p ++ q) ->
  exists u v, w = u ++ v /\ (path_matches u p \/
    exists u0 p1 p2, u = u0 ++ [TStarStarSlash] /\ p = p1 ++ p2 /\ path_matches u0 p1).
Proof.
  revert p. induction w as [|t w IH]; intros p Hm.
  - exists [], []. split; [done|]. left. simpl in *. by destruct p.
  - destruct Hm as (p1&p2&E&Ht&Hw). apply app_eq_app in E as (l&[[-> ->]|[-> ->]]).
    + destruct (IH l Hw) as (u&v&->&Hu). exists (t :: u), v. split; [done|].
      destruct Hu as [Hu|(u0&l1&l2&->&->&Hu)]; [left; by exists p1, l|right].
      exists (t :: u0), (p1 ++ l1), l2. split; [done|]. split; [by rewrite app_assoc|]. by exists p1, l1.
    + destruct t as [c| |]; simpl in Ht.
      * destruct p as [|x p]; [exists [], (TRune c :: w); split; [done|]; by left|].
        injection Ht as -> Ht. apply app_eq_nil in Ht as [-> ->]. exists [TRune c], w. split; [done|].
        left. by exists [c], [].
      * exists [TStar], w. split; [done|]. left. exists p, []. rewrite app_nil_r. split; [done|].
        split; [|done]. rewrite not_elem_of_app in Ht. by destruct Ht.
      * exists [TStarStarSlash], w. split; [done|]. right. by exists [], [], p.
Qed.

Lemma matches_something w : exists q, path_matches w q.
Proof.
  induction w as [|t w [q Hq]]; [by exists []|]. destruct t as [c| |].
  - exists (c :: q), [c], q. done.
  - exists q, [], q. split; [done|]. split; [apply not_elem_of_nil|done].
  - exists q, [], q. split; [done|]. split; [by left|done].
Qed.

Lemma path_matches_app u v p q : path_matches u p -> path_matches v q -> path_matches (u ++ v) (p ++ q).
Proof.
  revert p. induction u as [|t u IH]; intros p Hu Hv; simpl in *; [by subst p|].
  destruct Hu as (p1&p2&->&Ht&Hu). exists p1, (p2 ++ q). rewrite app_assoc. split; [done|].
  split; [done|]. by apply IH.
Qed.

Lemma hopeful_below w i : node P w i -> w <> [] -> hopeful i <-> positive_below P ends w.
Proof.
  intros Hn Hw. destruct (propagated_index S P ends 1 i w Hprop Hn) as (s&Hs&_&Hp).
  assert (0 < i) as Hi.
  { destruct (decide (i = 0)) as [->|]; [|destruct Hn; lia].
    by apply (node_root P w) in Hn; [|apply Htrie]. }
  unfold hopeful. rewrite Hs. split.
  - intros (s'&[= <-]&H). by apply Hp in H as [_ ?].
  - intros H. exists s. split; [done|]. apply Hp. split; [lia|done].
Qed.

(** Whether an active state is hopeful, as [WriteRune] computes it. *)
Lemma hope_spec p m :
  matching p m -> p <> [] ->
  setHasPositive (currentStates m) || setHasPositive (currentStars m) ||
    setHasPositive (currentStarStarSlashes m) = true <->
  exists w q, w ∈ P /\ ends w = endStatePositive /\ path_matches w (p ++ q).
Proof.
  intros Hm Hp. destruct Hm as (_&[_ HC]&[_ HS]&[_ HD]). rewrite !orb_true_iff, HC, HS, HD. clear HC HS HD.
  assert (forall u i, node P u i -> hopeful i -> (path_matches u p \/ exists u0 p1 p2,
      u = u0 ++ [TStarStarSlash] /\ p = p1 ++ p2 /\ path_matches u0 p1) ->
    exists w q, w ∈ P /\ ends w = endStatePositive /\ path_matches w (p ++ q)) as Hto.
  { intros u i Hn Hh Hu. apply (hopeful_below u i Hn) in Hh as (v&Hv&He).
    - destruct (matches_something v) as [q Hq]. destruct Hu as [Hu|(u0&p1&p2&->&->&Hu)].
      + exists (u ++ v), q. split; [done|]. split; [done|]. by apply path_matches_app.
      + exists ((u0 ++ [TStarStarSlash]) ++ v), (runeSlash :: q). split; [done|]. split; [done|].
        replace ((p1 ++ p2) ++ runeSlash :: q) with ((p1 ++ p2 ++ [runeSlash]) ++ q)
          by (by rewrite <- !app_assoc).
        apply path_matches_app; [|done]. apply path_matches_app; [done|].
        exists (p2 ++ [runeSlash]), []. rewrite app_nil_r. split; [done|]. split; [|done].
        right. by rewrite last_snoc.
    - intros ->. destruct Hu as [Hu|(u0&?&?&E&_)]; [done|by destruct u0]. }
  split.
  - intros [[(i&(w&Hn&Hw)&Hh)|(i&(u&Hn&Hu)&Hh)]|(i&(u&p1&p2&Hn&->&Hu)&Hh)].
    + eapply Hto; [exact Hn|done|by left].
    + eapply Hto; [exact Hn|done|by left].
    + eapply Hto; [exact Hn|done|right]. by exists u, p1, p2.
  - intros (w&q&Hw&He&Hm). destruct (matches_cut w p q Hm) as (u&v&->&Hu).
    pose proof (elem_prefix _ _ Hw) as Hu'. apply elem_node in Hu' as [i Hi].
    assert (hopeful i) as Hh.
    { apply (hopeful_below u i Hi); [|by exists v].
      intros ->. destruct Hu as [Hu|(u0&?&?&E&_)]; [done|by destruct u0]. }
    destruct Hu as [Hu|(u0&p1&p2&->&->&Hu)]; [left; left|right]; exists i; (split; [|done]).
    + by exists u.
    + by exists u0, p1, p2.
Qed.

(** [WriteRune] adds to the sets of wildcards that it ranges over.  The states
    it visits add nothing to the set being ranged over, so that it does not
    matter whether Go's iteration visits states that are added on the way. *)
Lemma range_stars_stable m u i :
  over m -> node P (u ++ [TStar]) i ->
  exists m', expandState3 m i = Ok m' /\ setStates (currentStars m') = setStates (currentStars m).
Proof.
  intros (C&St&D&Hm) Hn. destruct (expandState3_spec m C St D _ i Hm Hn) as (m'&E&_&_&[HS' _]&_).
  exists m'. split; [done|]. destruct Hm as (_&_&[HS _]&_). apply leibniz_equiv. intros j.
  rewrite HS', HS. split; [|by right]. intros [[Hj|Hj]|?]; [exfalso..|done].
  - by apply node_good, good_last in Hj.
  - apply node_good in Hj. specialize (Hj u TStar TStarStarSlash [TStar]).
    rewrite <- app_assoc in Hj. by specialize (Hj eq_refl).
Qed.

Lemma range_starStarSlashes_stable m u i :
  over m -> node P (u ++ [TStarStarSlash]) i ->
  exists m', expandState3 m i = Ok m' /\
    setStates (currentStarStarSlashes m') = setStates (currentStarStarSlashes m).
Proof.
  intros (C&St&D&Hm) Hn. destruct (expandState3_spec m C St D _ i Hm Hn) as (m'&E&_&_&_&[HD' _]).
  exists m'. split; [done|]. destruct Hm as (_&_&_&[HD _]). apply leibniz_equiv. intros j.
  rewrite HD', HD. split; [|by right]. intros [Hj|?]; [exfalso|done].
  by apply node_good, good_last in Hj.
Qed.
End matcher.

(** ** What patterns match *)

(** A valid pattern has components that are "**", not twice in a row, or that
    are not empty and have no two adjacent stars. *)
Definition valid_pattern (pattern : list Z) : Prop :=
  is_Some (component_paths false (split_slash pattern)).

Definition pattern_tokens (pattern : list Z) (w : list token) : Prop :=
  exists ws, component_paths false (split_slash pattern) = Some ws /\ w ∈ ws.

(** Of the paths that are not empty: the documentation makes an exception for a bare
    "**" on the empty one, which neither this definition nor the code has. *)
Definition pattern_matches (pattern path : list Z) : Prop :=
  exists w, pattern_tokens pattern w /\ path_matches w path.

Lemma all_paths_spec ps :
  match all_paths ps with
  | Some ws => Forall valid_pattern ps /\
      forall w, w ∈ ws <-> exists p, p ∈ ps /\ pattern_tokens p w
  | None => ~ Forall valid_pattern ps
  end.
Proof.
  induction ps as [|p ps IH].
  - split; [constructor|]. intros w. split; [intros H; by apply not_elem_of_nil in H|].
    intros (p&H&_). by apply not_elem_of_nil in H.
  - cbn [all_paths]. destruct (pattern_paths p) as [ws'|] eqn:E; rewrite pattern_paths_components in E.
    + assert (valid_pattern p) as Hv by (unfold valid_pattern; rewrite E; by eexists).
      destruct (all_paths ps) as [ws|]; [|by rewrite Forall_cons; intros [_ ?]].
      destruct IH as [Hall Hin]. split; [by constructor|]. intros w. rewrite elem_of_app, Hin. split.
      * intros [?|(q&Hq&?)]; [exists p; split; [by left|by exists ws']|exists q; split; [by right|done]].
      * intros (q&Hq&Hw). apply elem_of_cons in Hq as [->|Hq]; [left|right; by exists q].
        destruct Hw as (ws2&E2&Hw). congruence.
    + rewrite Forall_cons. intros [[ws Hv] _]. congruence.
Qed.

Lemma all_paths_matches ps ws path :
  all_paths ps = Some ws ->
  (exists w, w ∈ ws /\ path_matches w path) <-> (exists p, p ∈ ps /\ pattern_matches p path).
Proof.
  intros E. pose proof (all_paths_spec ps) as H. rewrite E in H. destruct H as [_ Hin]. split.
  - intros (w&Hw&Hm). apply Hin in Hw as (p&Hp&Hw). exists p. split; [done|]. by exists w.
  - intros (p&Hp&w&Hw&Hm). exists w. split; [|done]. apply Hin. by exists p.
Qed.

Lemma pattern_ends_cases ws wss w :
  is_end (pattern_ends ws wss w) /\
  (pattern_ends ws wss w = endStatePositive <-> w ∈ ws /\ w ∉ wss) /\
  (pattern_ends ws wss w = endStateNegative <-> w ∈ wss).
Proof.
  unfold pattern_ends, upd_all, is_end, endStateNone, endStatePositive, endStateNegative.
  destruct (decide (w ∈ wss)), (decide (w ∈ ws)); split_and!; try tauto; split; try done; tauto.
Qed.

(** An automaton that was built successfully. *)
Lemma built_automaton includes excludes nfa :
  Forall runes_ok includes -> Forall runes_ok excludes ->
  NewNFAFromPatterns includes excludes = Ok nfa ->
  exists ws wss P, all_paths includes = Some ws /\ all_paths excludes = Some wss /\
    propagated (nfaStates nfa) P (pattern_ends ws wss) 1 /\ Forall good P /\
    forall w, w ∈ ws \/ w ∈ wss -> w ∈ P.
Proof.
  intros Hi He Hn. pose proof (NewNFAFromPatterns_spec includes excludes Hi He) as H. rewrite Hn in H.
  destruct (all_paths includes) as [ws|]; [|done]. destruct (all_paths excludes) as [wss|]; [|done].
  destruct H as [(a&[= <-]&P&Hp&Hg&Ho)|[? _]]; [|done]. exists ws, wss, P.
  split; [done|]. split; [done|]. split; [done|]. split; [done|]. intros w Hw.
  destruct (decide (w ∈ P)) as [|Hnin]; [done|]. apply Ho in Hnin.
  unfold pattern_ends, upd_all, endStateNone, endStatePositive, endStateNegative in Hnin.
  destruct (decide (w ∈ wss)), (decide (w ∈ ws)); tauto || done.
Qed.

Lemma start_matching nfa P ends p :
  propagated (nfaStates nfa) P ends 1 -> Forall good P ->
  exists m, (Matcher_Initialize nfa ≫= fun m => writeRunes m p) = Ok m /\ matching (nfaStates nfa) P p m.
Proof.
  intros Hp Hg. destruct nfa as [S]. simpl in *.
  destruct (Initialize_matching S P ends Hp Hg) as (m0&->&Hm0).
  by apply (writeRunes_matching S P ends Hp Hg p [] m0).
Qed.

(** C35: for patterns that are accepted, the matcher decides every path that is not
    empty: the result is true exactly when some included pattern matches the path and
    no excluded pattern does.  What a pattern matches is defined by its
    components: "*" stands for any runes but a slash, "**" for any number of
    components, any other rune for itself.  No call panics.  The empty path, which is
    the root directory, is left out: the documentation says that a bare "**" does not
    match it, and the code does match it (see [bare_star_star_matches_empty_path]). *)
Theorem matchPath_correct includes excludes nfa path :
  Forall runes_ok includes -> Forall runes_ok excludes -> path <> [] ->
  NewNFAFromPatterns includes excludes = Ok nfa ->
  exists b, matchPath nfa path = Ok b /\
    (b = true <-> (exists p, p ∈ includes /\ pattern_matches p path) /\
       ~ exists p, p ∈ excludes /\ pattern_matches p path).
Proof.
  intros Hi He _ Hn. destruct (built_automaton includes excludes nfa Hi He Hn) as (ws&wss&P&Ei&Ee&Hp&Hg&HP).
  destruct (start_matching nfa P _ path Hp Hg) as (m&Em&Hm).
  destruct (IsMatch_matching _ P _ Hp path m Hm (fun w => proj1 (pattern_ends_cases ws wss w))) as (b&Eb&Hb).
  exists b. split.
  - unfold matchPath. destruct (Matcher_Initialize nfa) as [m0| |]; [|done..]. cbn in Em |- *. by rewrite Em.
  - rewrite Hb, <- (all_paths_matches _ _ _ Ei), <- (all_paths_matches _ _ _ Ee).
    setoid_rewrite (fun w => proj1 (proj2 (pattern_ends_cases ws wss w))).
    setoid_rewrite (fun w => proj2 (proj2 (pattern_ends_cases ws wss w))). split.
    + intros [(w&_&Hw&?&_) Hno]. split; [by exists w|]. intros (w'&Hw'&Hm'). apply Hno. exists w'. auto.
    + intros [(w&Hw&Hm') Hno]. split; [|intros (w'&_&?&?); apply Hno; by exists w'].
      exists w. split; [auto|]. split; [done|]. split; [done|]. intros ?. apply Hno. by exists w.
Qed.

(** "a/**" and "*.h", without "a/b*". *)
Definition example_includes : list (list Z) := [[97; 47; 42; 42]; [42; 46; 104]].
Definition example_excludes : list (list Z) := [[97; 47; 98; 42]].

Lemma matchPath_correct_witness :
  exists nfa, NewNFAFromPatterns example_includes example_excludes = Ok nfa /\
    matchPath nfa [97; 47; 99; 47; 98] = Ok true /\ matchPath nfa [97; 47; 98; 99] = Ok false /\
    exists b, matchPath nfa [97; 47; 99; 47; 98] = Ok b /\
      (b = true <-> (exists p, p ∈ example_includes /\ pattern_matches p [97; 47; 99; 47; 98]) /\
         ~ exists p, p ∈ example_excludes /\ pattern_matches p [97; 47; 99; 47; 98]).
Proof.
  eexists. split; [vm_compute; reflexivity|]. split; [vm_compute; reflexivity|].
  split; [vm_compute; reflexivity|]. apply matchPath_correct.
  - repeat constructor; lia.
  - repeat constructor; lia.
  - discriminate.
  - vm_compute. reflexivity.
Defined.

(** patterns are accepted exactly when all of them are valid; an invalid
    pattern gives an error, whatever the others are.  The number of states
    that fits in 21 bits is only exceeded by patterns of about a million
    runes. *)
Theorem NewNFAFromPatterns_accepts includes excludes :
  Forall runes_ok includes -> Forall runes_ok excludes ->
  patternsBudget includes + patternsBudget excludes < 2 ^ 21 ->
  (Forall valid_pattern (includes ++ excludes) -> exists nfa, NewNFAFromPatterns includes excludes = Ok nfa) /\
  (~ Forall valid_pattern (includes ++ excludes) -> NewNFAFromPatterns includes excludes = Err PlainError).
Proof.
  intros Hi He Hb. pose proof (NewNFAFromPatterns_spec includes excludes Hi He) as H. rewrite Forall_app.
  pose proof (all_paths_spec includes) as H1. pose proof (all_paths_spec excludes) as H2.
  destruct (all_paths includes) as [ws|]; [|by split; [intros [? _]|]].
  destruct (all_paths excludes) as [wss|]; [|by split; [intros [_ ?]|]].
  destruct H1 as [H1 _], H2 as [H2 _]. split; [|tauto]. intros _.
  destruct H as [(a&->&_)|[_ ?]]; [by exists a|lia].
Qed.

Lemma NewNFAFromPatterns_accepts_witness :
  (Forall valid_pattern (example_includes ++ example_excludes) ->
    exists nfa, NewNFAFromPatterns example_includes example_excludes = Ok nfa) /\
  (~ Forall valid_pattern ([[97; 42; 42]] ++ []) -> NewNFAFromPatterns [[97; 42; 42]] [] = Err PlainError).
Proof.
  split.
  - apply NewNFAFromPatterns_accepts; [repeat constructor; lia..|vm_compute; reflexivity].
  - apply NewNFAFromPatterns_accepts; [repeat constructor; lia..|vm_compute; reflexivity].
Defined.

(** [WriteRune] asks for termination exactly when no continuation can be
    included any more: it returns true exactly when some continuation of the
    path is matched by the tokens of an included pattern, other than those
    that an excluded pattern has as well. *)
Theorem WriteRune_early_termination includes excludes nfa p r :
  Forall runes_ok includes -> Forall runes_ok excludes ->
  NewNFAFromPatterns includes excludes = Ok nfa ->
  exists m m' b, (Matcher_Initialize nfa ≫= fun m => writeRunes m p) = Ok m /\ WriteRune m r = Ok (m', b) /\
    (b = true <-> exists w q, (exists pat, pat ∈ includes /\ pattern_tokens pat w) /\
       ~ (exists pat, pat ∈ excludes /\ pattern_tokens pat w) /\ path_matches w (p ++ r :: q)).
Proof.
  intros Hi He Hn. destruct (built_automaton includes excludes nfa Hi He Hn) as (ws&wss&P&Ei&Ee&Hp&Hg&HP).
  destruct (start_matching nfa P _ p Hp Hg) as (m&Em&Hm).
  destruct (WriteRune_matching _ P _ Hp Hg p m r Hm) as (m'&Er&Hm').
  eexists m, m', _. split; [done|]. split; [exact Er|].
  rewrite (hope_spec _ P _ Hp (p ++ [r]) m' Hm') by (by destruct p).
  pose proof (all_paths_spec includes) as H1. rewrite Ei in H1. destruct H1 as [_ H1].
  pose proof (all_paths_spec excludes) as H2. rewrite Ee in H2. destruct H2 as [_ H2].
  setoid_rewrite <- H1. setoid_rewrite <- H2. split.
  - intros (w&q&Hw&E&Hmw). apply pattern_ends_cases in E as [Hin Hnin].
    exists w, q. by rewrite <- app_assoc in Hmw.
  - intros (w&q&Hw&Hnw&Hmw). exists w, q. split; [auto|].
    split; [by apply pattern_ends_cases|]. by rewrite <- app_assoc.
Qed.

Lemma WriteRune_early_termination_witness :
  exists nfa, NewNFAFromPatterns example_includes example_excludes = Ok nfa /\
    exists m m' b, (Matcher_Initialize nfa ≫= fun m => writeRunes m [98]) = Ok m /\ WriteRune m 47 = Ok (m', b) /\
      (b = true <-> exists w q, (exists pat, pat ∈ example_includes /\ pattern_tokens pat w) /\
         ~ (exists pat, pat ∈ example_excludes /\ pattern_tokens pat w) /\
         path_matches w ([98] ++ 47 :: q)).
Proof.
  eexists. split; [vm_compute; reflexivity|]. apply WriteRune_early_termination.
  - repeat constructor; lia.
  - repeat constructor; lia.
  - vm_compute. reflexivity.
Defined.

(** The empty path is matched by a bare "**": its "**/" and "*" match nothing. *)
Lemma bare_star_star_matches_empty_path :
  (nfa ← NewNFAFromPatterns [[runeStar; runeStar]] []; matchPath nfa []) = Ok true.
Proof. vm_compute. reflexivity. Qed.
