(* ===== verification/SimpleLzw.v ===== *)
(** * Simplified LZW compression

    [pkg/compress/simplelzw]: [Compress] and [Decompress].  Lengths and indices
    are Go's [int] and stay far below 2^63; codes, hash table entries and the
    bits that wait to be written are [uint64] with their wrap-around written
    out.  The probing loops of the hash table take fuel, which the theorems of
    [SimpleLzwProofs] show to be enough. *)

From S2P Require Import Prelude Varint.

(** ** [compress.go] *)

Definition compressMaximumCodeBits : Z := (64 - 8) / 2.

(** [key>>8 ^ key] *)
Definition hashKey (key : Z) : Z := Z.lxor (Z.shiftr key 8) key.

(** The loop that looks for a key: the code of the next prefix, if the table
    has the key. *)
Fixpoint lookupCode (fuel : nat) (table : list Z) (tableMask lookupKey h i : Z) : outcome (option Z) :=
  match fuel with
  | O => Panic
  | S fuel =>
      entry ← index table (Z.land h tableMask);
      if entry =? 0 then Ok None
      else if Z.shiftr entry compressMaximumCodeBits =? lookupKey then
        Ok (Some (Z.land entry (Z.shiftl 1 compressMaximumCodeBits - 1)))
      else lookupCode fuel table tableMask lookupKey (add_u64 h i) (add_u64 i 1)
  end.

(** The loop that stores an entry in the first empty slot. *)
Fixpoint insertEntry (fuel : nat) (table : list Z) (tableMask entry h i : Z) : outcome (list Z) :=
  match fuel with
  | O => Panic
  | S fuel =>
      e ← index table (Z.land h tableMask);
      if e =? 0 then Ok (<[Z.to_nat (Z.land h tableMask) := entry]> table)
      else insertEntry fuel table tableMask entry (add_u64 h i) (add_u64 i 1)
  end.

(** Copying all entries, the empty ones too, to a larger table. *)
Fixpoint rehash (entries : list Z) (newTable : list Z) (newTableMask : Z) : outcome (list Z) :=
  match entries with
  | [] => Ok newTable
  | entry :: entries =>
      let key := Z.shiftr entry compressMaximumCodeBits in
      newTable ← insertEntry (length newTable) newTable newTableMask entry (hashKey key) 1;
      rehash entries newTable newTableMask
  end.

(** The local variables of [Compress]. *)
Record compressor := mkCompressor {
  cCompressed : list Z;
  cTable : list Z;
  cTableMask : Z;
  cHighestCode : Z;
  cHighestCodeBits : Z;
  cPendingOutput : Z;
  cPendingBits : Z;
  cCurrentCode : Z;
}.

(** Writing the current code: the new output, pending bits and their number. *)
Definition writeCode (c : compressor) : list Z * Z * Z :=
  let pendingOutput := Z.lor (cPendingOutput c) (shl_u64 (cCurrentCode c) (cPendingBits c)) in
  let pendingBits := cPendingBits c + cHighestCodeBits c in
  if 32 <=? pendingBits then
    (LittleEndian_Append 4 (cCompressed c) (u32 pendingOutput), Z.shiftr pendingOutput 32,
     pendingBits - 32)
  else (cCompressed c, pendingOutput, pendingBits).

(** Making room for a new highest code: table, mask and width of codes. *)
Definition growTable (table : list Z) (tableMask highestCode highestCodeBits : Z)
    : outcome (list Z * Z * Z) :=
  let newCodeBits := Len64 highestCode in
  if negb (newCodeBits =? highestCodeBits) then
    if compressMaximumCodeBits <? newCodeBits then Err (StatusError CodeInvalidArgument) else
    let desiredSize := highestCode * 4 in
    if zlen table <? desiredSize then
      let newTable := replicate (Z.to_nat desiredSize) 0 in
      let newTableMask := u64 (zlen newTable - 1) in
      newTable ← rehash table newTable newTableMask;
      Ok (newTable, newTableMask, newCodeBits)
    else Ok (table, tableMask, newCodeBits)
  else Ok (table, tableMask, highestCodeBits).

(** The body of the loop over the bytes after the first one. *)
Definition processByte (c : compressor) (nextSymbol : Z) : outcome compressor :=
  let lookupKey := Z.lor (shl_u64 (cCurrentCode c) 8) nextSymbol in
  let lookupHash := hashKey lookupKey in
  found ← lookupCode (length (cTable c)) (cTable c) (cTableMask c) lookupKey lookupHash 1;
  match found with
  | Some code =>
      Ok (mkCompressor (cCompressed c) (cTable c) (cTableMask c) (cHighestCode c)
            (cHighestCodeBits c) (cPendingOutput c) (cPendingBits c) code)
  | None =>
      let '(compressed, pendingOutput, pendingBits) := writeCode c in
      let highestCode := add_u64 (cHighestCode c) 1 in
      '(table, tableMask, highestCodeBits) ←
        growTable (cTable c) (cTableMask c) highestCode (cHighestCodeBits c);
      table ← insertEntry (length table) table tableMask
        (Z.lor (shl_u64 lookupKey compressMaximumCodeBits) highestCode) lookupHash 1;
      Ok (mkCompressor compressed table tableMask highestCode highestCodeBits pendingOutput
            pendingBits nextSymbol)
  end.

Fixpoint processBytes (c : compressor) (l : list Z) : outcome compressor :=
  match l with
  | [] => Ok c
  | nextSymbol :: l => c ← processByte c nextSymbol; processBytes c l
  end.

(** Writing the last code and the trailing bytes. *)
Definition flushOutput (c : compressor) : outcome (list Z) :=
  let pendingOutput := Z.lor (cPendingOutput c) (shl_u64 (cCurrentCode c) (cPendingBits c)) in
  let pendingBits := cPendingBits c + cHighestCodeBits c in
  trailer ← slice (le_bytes 8 pendingOutput) 0 ((pendingBits + 7) / 8);
  Ok (cCompressed c ++ trailer).

Definition Compress (uncompressed : list Z) : outcome (list Z) :=
  match uncompressed with
  | [] => Ok []
  | first :: rest =>
      c ← processBytes (mkCompressor (AppendForward [] (zlen uncompressed))
            (replicate (Z.to_nat 0x1000) 0) 0xfff 0xff 8 0 0 first) rest;
      flushOutput c
  end.

Definition MaybeCompress (uncompressed : list Z) : outcome (list Z) :=
  compressed ← Compress uncompressed;
  if zlen uncompressed <? zlen compressed then Ok (0x80 :: uncompressed) else Ok compressed.

(** ** [decompress.go] *)

Definition initialHighestCode : Z := 255.

(** [x << n] for a signed count, which panics when it is negative. *)
Definition shl_checked (x n : Z) : outcome Z := if n <? 0 then Panic else Ok (shl_u64 x n).

(** The number of codes that fit in the input: the code after the last one,
    and the bits that are left. *)
Fixpoint countCodes (fuel : nat) (remainingBits highestCode : Z) : outcome (Z * Z) :=
  match fuel with
  | O => Panic
  | S fuel =>
      let bitsPerCode := Len64 highestCode in
      let codesUntilNextPow2 := Z.shiftl 1 bitsPerCode - highestCode in
      let bitsUntilNextPow2 := bitsPerCode * codesUntilNextPow2 in
      if remainingBits <? bitsUntilNextPow2 then
        let codesUntilEnd := remainingBits / bitsPerCode in
        Ok (remainingBits - codesUntilEnd * bitsPerCode, highestCode + codesUntilEnd)
      else countCodes fuel (remainingBits - bitsUntilNextPow2) (Z.shiftl 1 bitsPerCode)
  end.

(** The local variables of the loop over the codes. *)
Record decompressor := mkDecompressor {
  dCompressed : list Z;
  dPendingInput : Z;
  dPendingBits : Z;
  dOffsets : list Z;
  dDecompressed : list Z;
}.

(** [for _, b := range compressed]: the last, fewer than four, bytes. *)
Fixpoint readTrailing (compressed : list Z) (pendingInput pendingBits : Z) : outcome (Z * Z) :=
  match compressed with
  | [] => Ok (pendingInput, pendingBits)
  | b :: compressed =>
      v ← shl_checked b pendingBits;
      readTrailing compressed (Z.lor pendingInput v) (pendingBits + 8)
  end.

(** Reading one code of a given length. *)
Definition readCode (compressed : list Z) (pendingInput pendingBits codeLength : Z)
    : outcome (Z * (list Z * Z * Z)) :=
  '(compressed, pendingInput, pendingBits) ←
    (if pendingBits <? codeLength then
       if 4 <=? zlen compressed then
         w ← LittleEndian_Uint 4 compressed;
         v ← shl_checked w pendingBits;
         rest ← slice_from compressed 4;
         Ok (rest, Z.lor pendingInput v, pendingBits + 32)
       else
         '(pendingInput, pendingBits) ← readTrailing compressed pendingInput pendingBits;
         Ok (compressed, pendingInput, pendingBits)
     else Ok (compressed, pendingInput, pendingBits));
  Ok (Z.land pendingInput (u64 (shl_u64 1 codeLength - 1)),
      (compressed, Z.shiftr pendingInput codeLength, pendingBits - codeLength)).

(** Appending what a code stands for. *)
Definition expandCode (offsets decompressed : list Z) (currentCode : Z) : outcome (list Z) :=
  if currentCode <=? initialHighestCode then Ok (decompressed ++ [u8 currentCode])
  else
    let idx := sub_u64 currentCode initialHighestCode in
    if idx <? zlen offsets then
      firstOffset ← index offsets (idx - 1);
      lastOffset ← index offsets idx;
      previous ← slice decompressed firstOffset lastOffset;
      let decompressed := decompressed ++ previous in
      symbol ← index decompressed lastOffset;
      Ok (decompressed ++ [symbol])
    else Err (StatusError CodeInvalidArgument).

Definition processCode (d : decompressor) (i decompressedSizeBytes : Z) : outcome decompressor :=
  let codeLength := Len64 (u32 i) in
  '(currentCode, (compressed, pendingInput, pendingBits)) ←
    readCode (dCompressed d) (dPendingInput d) (dPendingBits d) codeLength;
  let offsets := dOffsets d ++ [u32 (zlen (dDecompressed d))] in
  decompressed ← expandCode offsets (dDecompressed d) currentCode;
  if decompressedSizeBytes <? zlen decompressed then Err (StatusError CodeInvalidArgument)
  else Ok (mkDecompressor compressed pendingInput pendingBits offsets decompressed).

(** [for i := initialHighestCode; i < highestCode; i++] *)
Fixpoint processCodes (n : nat) (d : decompressor) (i decompressedSizeBytes : Z) : outcome decompressor :=
  match n with
  | O => Ok d
  | S n =>
      d ← processCode d i decompressedSizeBytes;
      processCodes n d (i + 1) decompressedSizeBytes
  end.

Definition Decompress (compressed : list Z) (maximumSizeBytes : Z) : outcome (list Z) :=
  if zlen compressed =? 0 then Ok [] else
  '(decompressedSizeBytes, n) ← ConsumeForward Uint32 compressed;
  if n <? 0 then Err (StatusError CodeInvalidArgument) else
  compressed ← slice_from compressed n;
  if decompressedSizeBytes =? 0 then
    if maximumSizeBytes <? zlen compressed then Err (StatusError CodeInvalidArgument)
    else Ok compressed
  else if maximumSizeBytes <? decompressedSizeBytes then Err (StatusError CodeInvalidArgument) else
  let remainingBits := zlen compressed * 8 in
  '(remainingBits, highestCode) ← countCodes (S (Z.to_nat remainingBits)) remainingBits initialHighestCode;
  if 0 <? remainingBits / 8 then Err (StatusError CodeInvalidArgument) else
  d ← processCodes (Z.to_nat (highestCode - initialHighestCode))
        (mkDecompressor compressed 0 0 [] []) initialHighestCode decompressedSizeBytes;
  if negb (dPendingInput d =? 0) then Err (StatusError CodeInvalidArgument)
  else if negb (zlen (dDecompressed d) =? decompressedSizeBytes) then
    Err (StatusError CodeInvalidArgument)
  else Ok (dDecompressed d).
