(* ===== verification/HashTable.v ===== *)
(** * Hash tables with triangular probing

    [pkg/compress/simplelzw] and [pkg/search] store entries of 64 bits, a key
    above 28 bits of value, in a table whose size is a power of two, and probe
    at distances 1, 3, 6, ...  The probe sequence visits every slot, so that
    the loops terminate while a slot is empty; what was stored is found again,
    and nothing else is. *)

From S2P Require Import Prelude SimpleLzw.

(** ** The probe sequence *)

(** The offset of attempt [n], the sum of the numbers up to [n]. *)
Fixpoint triangle (n : nat) : Z := match n with O => 0 | S m => triangle m + Z.of_nat n end.

Lemma triangle_double n : 2 * triangle n = Z.of_nat n * (Z.of_nat n + 1).
Proof. induction n as [|n IH]; [done|]. cbn [triangle]. nia. Qed.

Lemma triangle_nonneg n : 0 <= triangle n.
Proof. pose proof (triangle_double n). nia. Qed.

Lemma pow2_divide_odd m x y : 0 <= m -> Z.odd x = true -> (2 ^ m | x * y) -> (2 ^ m | y).
Proof.
  intros Hm Hx. revert y. pattern m. apply natlike_ind; [intros y _; apply Z.divide_1_l| |done].
  clear m Hm. intros m Hm IH y [q Hq]. rewrite Z.pow_succ_r in * by done.
  assert (Z.even y = true) as Hy.
  { assert (Z.even (x * y) = true) as He.
    { rewrite Hq, !Z.even_mul. change (Z.even 2) with true. by destruct (Z.even q). }
    rewrite Z.even_mul, <- Z.negb_odd, Hx in He. done. }
  apply Z.even_spec in Hy as [z ->]. apply Z.mul_divide_mono_l, IH. exists q. nia.
Qed.

Lemma triangle_distinct k h a b :
  0 <= k -> (a < b)%nat -> Z.of_nat b < 2 ^ k ->
  (h + triangle a) mod 2 ^ k <> (h + triangle b) mod 2 ^ k.
Proof.
  intros Hk Hab Hb E. set (x := Z.of_nat b - Z.of_nat a). set (y := Z.of_nat a + Z.of_nat b + 1).
  assert (2 * (triangle b - triangle a) = x * y) as Hxy.
  { pose proof (triangle_double a). pose proof (triangle_double b). unfold x, y. nia. }
  assert (2 ^ (k + 1) | x * y) as Hd.
  { rewrite <- Hxy, Z.pow_add_r, Z.mul_comm by lia. apply Z.mul_divide_mono_l.
    apply Z.mod_divide; [lia|]. symmetry in E. apply (Z.cong_iff_0 _ _ _) in E.
    by replace (triangle b - triangle a) with (h + triangle b - (h + triangle a)) by lia. }
  assert (2 ^ (k + 1) = 2 * 2 ^ k) as Hp by (rewrite Z.pow_add_r by lia; lia).
  destruct (Z.odd x) eqn:Ex.
  - apply pow2_divide_odd, Z.divide_pos_le in Hd; [lia|lia|lia|done].
  - rewrite Z.mul_comm in Hd. apply pow2_divide_odd, Z.divide_pos_le in Hd; [lia|lia|lia|].
    replace y with (x + (2 * Z.of_nat a + 1)) by (unfold x, y; lia).
    rewrite Z.odd_add, Ex, (Z.add_comm (2 * _)), Z.odd_add_mul_2. done.
Qed.

Definition probe (k h : Z) (n : nat) : Z := (h + triangle n) mod 2 ^ k.

(** Every slot is visited by the first [2 ^ k] attempts. *)
Lemma probe_visits k h j :
  0 <= k -> 0 <= j < 2 ^ k -> exists n, Z.of_nat n < 2 ^ k /\ probe k h n = j.
Proof.
  intros Hk Hj. set (size := Z.to_nat (2 ^ k)).
  set (l := map (probe k h) (seq 0 size)).
  assert (NoDup l) as Hnd.
  { apply NoDup_alt. intros a b x Ha Hb. unfold l in *.
    rewrite list_lookup_fmap in Ha, Hb.
    destruct (seq 0 size !! a) as [a'|] eqn:Ea; [|done]. destruct (seq 0 size !! b) as [b'|] eqn:Eb; [|done].
    apply lookup_seq in Ea as [-> Ha']. apply lookup_seq in Eb as [-> Hb']. simpl in *.
    injection Ha as <-. injection Hb as Hb. unfold probe in Hb.
    destruct (lt_eq_lt_dec a b) as [[Hlt| ->]|Hlt]; [|done|].
    - exfalso. by apply (triangle_distinct k h a b); [|lia|lia|].
    - exfalso. by apply (triangle_distinct k h b a); [|lia|lia|]. }
  assert (incl (map Z.of_nat (seq 0 size)) l) as Hincl.
  { apply NoDup_length_incl; [by apply NoDup_ListNoDup| |].
    - unfold l. by rewrite !length_map.
    - intros x Hx. apply in_map_iff in Hx as (n&<-&Hn). apply in_map_iff.
      pose proof (Z.mod_pos_bound (h + triangle n) (2 ^ k) ltac:(lia)).
      exists (Z.to_nat (probe k h n)). unfold probe. split; [lia|]. apply in_seq. lia. }
  assert (In j l) as Hin.
  { apply Hincl, in_map_iff. exists (Z.to_nat j). split; [lia|]. apply in_seq. lia. }
  apply in_map_iff in Hin as (n&<-&Hn). apply in_seq in Hn. exists n. split; [lia|done].
Qed.

(** ** The hash table *)

Definition table_ok (table : list Z) (mask k : Z) : Prop :=
  0 <= k <= 32 /\ zlen table = 2 ^ k /\ mask = 2 ^ k - 1.

Definition used (table : list Z) : nat := length (filter (fun e => e <> 0) table).

Lemma probe_index table mask k h n :
  table_ok table mask k ->
  exists e, table !! Z.to_nat (probe k h n) = Some e /\
    index table (Z.land (u64 (h + triangle n)) mask) = Ok e /\
    Z.land (u64 (h + triangle n)) mask = probe k h n /\ 0 <= probe k h n.
Proof.
  intros (Hk&Hl&->). assert (Z.land (u64 (h + triangle n)) (2 ^ k - 1) = probe k h n) as E.
  { rewrite (land_mask k) by lia. unfold u64, probe.
    replace (2 ^ 64) with (2 ^ k * 2 ^ (64 - k)) by (rewrite <- Z.pow_add_r by lia; f_equal; lia).
    rewrite Z.rem_mul_r by lia. rewrite Z.mul_comm, Z_mod_plus_full. apply Z.mod_mod. lia. }
  pose proof (Z.mod_pos_bound (h + triangle n) (2 ^ k) ltac:(lia)) as Hb. fold (probe k h n) in Hb.
  destruct (lookup_lt_is_Some_2 table (Z.to_nat (probe k h n))) as [e He].
  { unfold zlen in Hl. lia. }
  exists e. rewrite E. split; [done|]. split; [|split; [done|lia]]. apply index_ok; [lia|done].
Qed.

Lemma probe_next h n :
  add_u64 (u64 (h + triangle n)) (Z.of_nat (S n)) = u64 (h + triangle (S n)).
Proof. unfold add_u64, u64. rewrite Z.add_mod_idemp_l by lia. f_equal. cbn [triangle]. lia. Qed.

Lemma attempt_next n : Z.of_nat n < 2 ^ 40 -> add_u64 (Z.of_nat (S n)) 1 = Z.of_nat (S (S n)).
Proof. intros. unfold add_u64, u64. rewrite Z.mod_small; lia. Qed.

(** Some slot is empty while not all of them are used. *)
Lemma free_slot table : (used table < length table)%nat -> exists j, table !! j = Some 0.
Proof.
  unfold used. induction table as [|e table IH]; simpl; [lia|].
  destruct (decide (e = 0)) as [->|He]; [by exists 0%nat|].
  rewrite filter_cons_True by done. simpl. intros H. destruct IH as [j Hj]; [lia|]. by exists (S j).
Qed.

Section probing.
Variables (table : list Z) (mask k h : Z).
Hypothesis Htable : table_ok table mask k.
Hypothesis Hfree : (used table < length table)%nat.

Lemma free_attempt : exists n, (n < length table)%nat /\ table !! Z.to_nat (probe k h n) = Some 0.
Proof.
  destruct (free_slot table Hfree) as [j Hj]. destruct Htable as (Hk&Hl&_).
  pose proof (lookup_lt_Some _ _ _ Hj). unfold zlen in Hl.
  destruct (probe_visits k h (Z.of_nat j)) as (n&Hn&E); [lia|lia|]. exists n. split; [lia|].
  by rewrite E, Nat2Z.id.
Qed.

Lemma lookupCode_from key fuel n :
  (exists m, (n <= m < n + fuel)%nat /\ table !! Z.to_nat (probe k h m) = Some 0) ->
  (n + fuel <= length table)%nat ->
  exists r, lookupCode fuel table mask key (u64 (h + triangle n)) (Z.of_nat (S n)) = Ok r /\
    forall code, r = Some code -> exists e, e ∈ table /\ e <> 0 /\
      Z.shiftr e compressMaximumCodeBits = key /\ code = e mod 2 ^ 28.
Proof.
  revert n. induction fuel as [|fuel IH]; intros n (m&Hm&Hz) Hlen; [lia|]. cbn [lookupCode].
  destruct (probe_index table mask k h n Htable) as (e&He&->&_). cbn [mbind outcome_bind].
  destruct (Z.eqb_spec e 0) as [->|Hne]; [by exists None|].
  destruct (Z.eqb_spec (Z.shiftr e compressMaximumCodeBits) key) as [Hkey|Hkey].
  - eexists. split; [done|]. intros code [= <-]. exists e. split; [by eapply list_elem_of_lookup_2|].
    split; [done|]. split; [done|]. by apply land_mask.
  - rewrite probe_next, attempt_next.
    + apply IH; [|lia]. exists m. split; [|done]. destruct (decide (m = n)) as [->|]; [congruence|lia].
    + destruct Htable as (Hk&Hl&_). unfold zlen in Hl.
      pose proof (Z.pow_le_mono_r 2 k 32 ltac:(lia) ltac:(lia)). lia.
Qed.

Lemma insertEntry_from entry fuel n :
  (exists m, (n <= m < n + fuel)%nat /\ table !! Z.to_nat (probe k h m) = Some 0) ->
  (n + fuel <= length table)%nat ->
  exists j, table !! j = Some 0 /\
    insertEntry fuel table mask entry (u64 (h + triangle n)) (Z.of_nat (S n)) = Ok (<[j:=entry]> table).
Proof.
  revert n. induction fuel as [|fuel IH]; intros n (m&Hm&Hz) Hlen; [lia|]. cbn [insertEntry].
  destruct (probe_index table mask k h n Htable) as (e&He&->&->&_). cbn [mbind outcome_bind].
  destruct (Z.eqb_spec e 0) as [->|Hne]; [by eexists|]. rewrite probe_next, attempt_next.
  - apply IH; [|lia]. exists m. split; [|done]. destruct (decide (m = n)) as [->|]; [congruence|lia].
  - destruct Htable as (Hk&Hl&_). unfold zlen in Hl.
    pose proof (Z.pow_le_mono_r 2 k 32 ltac:(lia) ltac:(lia)). lia.
Qed.
End probing.

Lemma hashKey_bound key : 0 <= key < 2 ^ 60 -> 0 <= hashKey key < 2 ^ 64.
Proof.
  intros Hk. unfold hashKey. rewrite Z.shiftr_div_pow2 by lia.
  assert (0 <= key / 2 ^ 8 <= key) as Hd.
  { split; [apply Z.div_pos; lia|]. apply Z.div_le_upper_bound; lia. }
  assert (0 <= Z.lxor (key / 2 ^ 8) key) as H0 by (apply Z.lxor_nonneg; lia). split; [done|].
  destruct (decide (Z.lxor (key / 2 ^ 8) key = 0)) as [->|]; [lia|]. apply Z.log2_lt_pow2; [lia|].
  eapply Z.le_lt_trans; [apply Z.log2_lxor; lia|].
  assert (forall x, 0 <= x < 2 ^ 60 -> Z.log2 x < 64) as Hlog.
  { intros x Hx. destruct (decide (x = 0)) as [->|]; [done|].
    pose proof (proj1 (Z.log2_lt_pow2 x 60 ltac:(lia)) ltac:(lia)). lia. }
  apply Z.max_lub_lt; apply Hlog; lia.
Qed.

Lemma start_probe h : 0 <= h < 2 ^ 64 -> u64 (h + triangle 0) = h.
Proof. intros. unfold u64. cbn [triangle]. rewrite Z.add_0_r. by apply Z.mod_small. Qed.

Lemma lookupCode_spec table mask k key h :
  table_ok table mask k -> (used table < length table)%nat -> 0 <= h < 2 ^ 64 ->
  exists r, lookupCode (length table) table mask key h 1 = Ok r /\
    forall code, r = Some code -> exists e, e ∈ table /\ e <> 0 /\
      Z.shiftr e compressMaximumCodeBits = key /\ code = e mod 2 ^ 28.
Proof.
  intros Ht Hf Hh. pose proof (lookupCode_from table mask k h Ht Hf key (length table) 0) as H.
  rewrite start_probe in H by done. apply H; [|lia].
  destruct (free_attempt table mask k h Ht Hf) as (m&Hm&Hz). exists m. split; [lia|done].
Qed.

Lemma used_insert table j entry :
  table !! j = Some 0 -> entry <> 0 -> used (<[j:=entry]> table) = S (used table).
Proof.
  revert j. induction table as [|e table IH]; intros j Hj He; [done|]. unfold used in *.
  destruct j as [|j]; simpl.
  - injection Hj as ->. rewrite filter_cons_True by done. rewrite filter_cons_False by auto. done.
  - specialize (IH j Hj He). destruct (decide (e = 0)) as [->|Hne].
    + rewrite !filter_cons_False by auto. done.
    + rewrite !filter_cons_True by done. simpl. by rewrite IH.
Qed.

Lemma elem_of_insert (table : list Z) (j : nat) entry x : x ∈ <[j:=entry]> table -> x = entry \/ x ∈ table.
Proof.
  intros Hx. apply list_elem_of_lookup in Hx as [i Hi]. apply list_lookup_insert_Some in Hi.
  destruct Hi as [(_&->&_)|[_ Hi]]; [by left|right]. by eapply list_elem_of_lookup_2.
Qed.

(** What storing an entry does to a table. *)
Definition stored (table t' : list Z) (entries : list Z) : Prop :=
  length t' = length table /\ used t' = (used table + used entries)%nat /\
  forall x, x ∈ t' -> x ∈ entries \/ x ∈ table.

Lemma table_ok_length table t' mask k :
  length t' = length table -> table_ok table mask k -> table_ok t' mask k.
Proof. unfold table_ok, zlen. by intros ->. Qed.

Lemma insertEntry_spec table mask k entry h :
  table_ok table mask k -> (used table < length table)%nat -> 0 <= h < 2 ^ 64 ->
  exists t', insertEntry (length table) table mask entry h 1 = Ok t' /\ stored table t' [entry].
Proof.
  intros Ht Hf Hh. pose proof (insertEntry_from table mask k h Ht Hf entry (length table) 0) as H.
  rewrite start_probe in H by done. destruct H as (j&Hj&E); [|lia|].
  { destruct (free_attempt table mask k h Ht Hf) as (m&Hm&Hz). exists m. split; [lia|done]. }
  eexists. split; [exact E|]. unfold stored. rewrite length_insert. split; [done|].
  destruct (decide (entry = 0)) as [->|He].
  - rewrite list_insert_id by done. split; [unfold used at 3; simpl; lia|by right].
  - split; [rewrite used_insert by done; unfold used at 3; rewrite filter_cons_True by done; simpl; lia|].
    intros x Hx. apply elem_of_insert in Hx as [->|?]; [left; by left|by right].
Qed.

Lemma used_cons e l : used (e :: l) = (used [e] + used l)%nat.
Proof.
  unfold used. destruct (decide (e = 0)) as [->|He].
  - by rewrite !filter_cons_False by auto.
  - by rewrite !filter_cons_True by done.
Qed.

Lemma rehash_spec entries table mask k :
  table_ok table mask k -> (used table + used entries < length table)%nat ->
  Forall is_u64 entries ->
  exists t', rehash entries table mask = Ok t' /\ stored table t' entries.
Proof.
  revert table. induction entries as [|e entries IH]; intros table Ht Hu Hb.
  - exists table. split; [done|]. split; [done|]. split; [unfold used at 3; simpl; lia|by right].
  - inversion Hb as [|?? He Hb']; subst. rewrite used_cons in Hu. cbn [rehash].
    destruct (insertEntry_spec table mask k e (hashKey (Z.shiftr e compressMaximumCodeBits)))
      as (t1&->&Hl1&Hu1&Hin1); [done|lia| |].
    { apply hashKey_bound. unfold is_u64 in He. rewrite Z.shiftr_div_pow2 by done.
      change compressMaximumCodeBits with 28. literal_pow. arith. }
    cbn [mbind outcome_bind]. destruct (IH t1) as (t2&->&Hl2&Hu2&Hin2);
      [by eapply table_ok_length|lia|done|].
    exists t2. split; [done|]. split; [lia|]. split; [rewrite used_cons; lia|].
    intros x Hx. apply Hin2 in Hx as [?|Hx]; [left; by right|].
    apply Hin1 in Hx as [Hx|?]; [left|by right]. apply list_elem_of_singleton in Hx as ->. by left.
Qed.

Lemma used_replicate n : used (replicate n 0) = 0%nat.
Proof. induction n as [|n IH]; [done|]. unfold used in *. simpl. by rewrite filter_cons_False by auto. Qed.

(** ** What a table holds *)

(** The entry is found by the probing that starts at the hash of its key: no
    slot before its own is empty. *)
Definition reachable (table : list Z) (k e : Z) : Prop :=
  exists n, (n < length table)%nat /\
    table !! Z.to_nat (probe k (hashKey (Z.shiftr e compressMaximumCodeBits)) n) = Some e /\
    forall m, (m < n)%nat ->
      table !! Z.to_nat (probe k (hashKey (Z.shiftr e compressMaximumCodeBits)) m) <> Some 0.

(** The table consists of the entries of [entries] and of empty slots. *)
Record holds (table : list Z) (mask k : Z) (entries : list Z) : Prop := {
  holds_table : table_ok table mask k;
  holds_used : used table = length entries;
  holds_in e : e ∈ entries -> e <> 0 /\ is_u64 e /\ reachable table k e;
  holds_out e : e ∈ table -> e <> 0 -> e ∈ entries;
}.

Lemma insert_slot_nonzero (table : list Z) j entry i :
  table !! j = Some 0 -> entry <> 0 -> table !! i <> Some 0 -> <[j:=entry]> table !! i <> Some 0.
Proof.
  intros Hj He Hi Hc. apply list_lookup_insert_Some in Hc as [(_&E&_)|[_ Hc]]; congruence.
Qed.

Lemma reachable_insert table k j entry e :
  table !! j = Some 0 -> entry <> 0 -> e <> 0 -> reachable table k e -> reachable (<[j:=entry]> table) k e.
Proof.
  intros Hj Hent He (n&Hn&Hl&Hp). exists n. rewrite length_insert. split; [done|]. split.
  - rewrite list_lookup_insert_ne; [done|]. intros ->. congruence.
  - intros m Hm. apply insert_slot_nonzero; [done|done|by apply Hp].
Qed.

(** The slot [insertEntry] takes is the first empty one. *)
Lemma insertEntry_first table mask k h entry fuel n :
  table_ok table mask k ->
  (exists m, (n <= m < n + fuel)%nat /\ table !! Z.to_nat (probe k h m) = Some 0) ->
  (n + fuel <= length table)%nat ->
  (forall m, (m < n)%nat -> table !! Z.to_nat (probe k h m) <> Some 0) ->
  exists m, (m < n + fuel)%nat /\ table !! Z.to_nat (probe k h m) = Some 0 /\
    (forall m', (m' < m)%nat -> table !! Z.to_nat (probe k h m') <> Some 0) /\
    insertEntry fuel table mask entry (u64 (h + triangle n)) (Z.of_nat (S n))
    = Ok (<[Z.to_nat (probe k h m):=entry]> table).
Proof.
  intros Htable. revert n. induction fuel as [|fuel IH]; intros n (m&Hm&Hz) Hlen Hpre; [lia|].
  cbn [insertEntry].
  destruct (probe_index table mask k h n Htable) as (e&He&->&->&_). cbn [mbind outcome_bind].
  destruct (Z.eqb_spec e 0) as [->|Hne]; [exists n; split_and!; [lia|done|done|done]|].
  rewrite probe_next, attempt_next.
  - destruct (IH (S n)) as (m'&?&?&?&?).
    + exists m. split; [|done]. destruct (decide (m = n)) as [->|]; [congruence|lia].
    + lia.
    + intros m' Hm'. destruct (decide (m' = n)) as [->|]; [congruence|]. apply Hpre. lia.
    + exists m'. split_and!; [lia|done|done|done].
  - destruct Htable as (Hk&Hl&_). unfold zlen in Hl.
    pose proof (Z.pow_le_mono_r 2 k 32 ltac:(lia) ltac:(lia)). lia.
Qed.

Lemma entry_hash e : is_u64 e -> 0 <= hashKey (Z.shiftr e compressMaximumCodeBits) < 2 ^ 64.
Proof.
  intros He. apply hashKey_bound. unfold is_u64 in He. rewrite Z.shiftr_div_pow2 by done.
  change compressMaximumCodeBits with 28. literal_pow. arith.
Qed.

Lemma insertEntry_holds table mask k entries e :
  holds table mask k entries -> (length entries < length table)%nat -> e <> 0 -> is_u64 e ->
  exists t', insertEntry (length table) table mask e
               (hashKey (Z.shiftr e compressMaximumCodeBits)) 1 = Ok t' /\
    length t' = length table /\ holds t' mask k (entries ++ [e]).
Proof.
  intros [Ht Hu Hin Hout] Hf He Hb. set (h := hashKey _).
  pose proof (insertEntry_first table mask k h e (length table) 0 Ht) as H.
  rewrite start_probe in H by by apply entry_hash.
  destruct H as (n&Hn&Hz&Hpre&E); [|lia|lia|].
  { destruct (free_attempt table mask k h Ht) as (m&Hm&Hz); [lia|]. exists m. split; [lia|done]. }
  eexists. split; [exact E|]. rewrite length_insert. split; [done|]. split.
  - eapply table_ok_length; [apply length_insert|done].
  - rewrite used_insert, length_app by done. simpl. lia.
  - intros x Hx. apply elem_of_app in Hx as [Hx|Hx].
    + destruct (Hin x Hx) as (?&?&?). split_and!; [done..|]. by apply reachable_insert.
    + apply list_elem_of_singleton in Hx as ->. split_and!; [done..|]. exists n.
      rewrite length_insert. split; [lia|]. fold h. split.
      * rewrite list_lookup_insert_eq; [done|]. by eapply lookup_lt_Some.
      * intros m Hm. apply insert_slot_nonzero; [done|done|by apply Hpre].
  - intros x Hx Hx0. apply elem_of_app. apply elem_of_insert in Hx as [->|Hx].
    + right. by apply list_elem_of_singleton.
    + left. by apply Hout.
Qed.

Lemma insertEntry_zero table mask k entries :
  holds table mask k entries -> (length entries < length table)%nat ->
  insertEntry (length table) table mask 0 (hashKey (Z.shiftr 0 compressMaximumCodeBits)) 1 = Ok table.
Proof.
  intros [Ht Hu Hin Hout] Hf. set (h := hashKey _).
  pose proof (insertEntry_first table mask k h 0 (length table) 0 Ht) as H.
  rewrite start_probe in H by by apply entry_hash.
  destruct H as (n&Hn&Hz&Hpre&E); [|lia|lia|].
  { destruct (free_attempt table mask k h Ht) as (m&Hm&Hz); [lia|]. exists m. split; [lia|done]. }
  etransitivity; [exact E|]. f_equal. by apply list_insert_id.
Qed.

Lemma rehash_holds old table mask k entries :
  holds table mask k entries -> (length entries + used old < length table)%nat ->
  Forall is_u64 old ->
  exists t', rehash old table mask = Ok t' /\ length t' = length table /\
    holds t' mask k (entries ++ filter (fun e => e <> 0) old).
Proof.
  revert table entries. induction old as [|e old IH]; intros table entries H Hu Hb.
  - exists table. split_and!; [done|done|]. simpl. by rewrite app_nil_r.
  - inversion Hb as [|?? He Hb']; subst. rewrite used_cons in Hu. cbn [rehash].
    destruct (decide (e = 0)) as [->|Hne].
    + rewrite (insertEntry_zero _ _ _ _ H) by lia. cbn [mbind outcome_bind].
      rewrite filter_cons_False by auto. apply IH; [done|lia|done].
    + destruct (insertEntry_holds _ _ _ _ e H) as (t1&->&Hl1&H1); [lia|done|done|].
      cbn [mbind outcome_bind]. rewrite filter_cons_True by done.
      unfold used at 1 in Hu. rewrite filter_cons_True in Hu by done. simpl in Hu.
      destruct (IH t1 (entries ++ [e]) H1) as (t2&->&Hl2&H2); [rewrite length_app; simpl; lia|done|].
      exists t2. split_and!; [done|lia|]. by rewrite <- app_assoc in H2.
Qed.

Lemma holds_empty size mask k :
  table_ok (replicate size 0) mask k -> holds (replicate size 0) mask k [].
Proof.
  intros Ht. split; [done|by rewrite used_replicate|intros e He; by apply not_elem_of_nil in He|].
  intros e He Hne. by apply elem_of_replicate in He as [-> _].
Qed.

Lemma holds_equiv table mask k entries entries' :
  holds table mask k entries -> (forall e, e ∈ entries <-> e ∈ entries') ->
  length entries = length entries' -> holds table mask k entries'.
Proof.
  intros [Ht Hu Hin Hout] He Hl. split; [done|by rewrite <- Hl|..].
  - intros e Hx. by apply Hin, He.
  - intros e Hx Hne. by apply He, Hout.
Qed.

(** Moving all entries to a larger table. *)
Lemma rehash_grow old mask k size mask' k' entries :
  holds old mask k entries -> table_ok (replicate size 0) mask' k' -> (length entries < size)%nat ->
  Forall is_u64 old ->
  exists t', rehash old (replicate size 0) mask' = Ok t' /\ length t' = size /\
    holds t' mask' k' entries.
Proof.
  intros H Ht Hs Hb. pose proof (holds_empty _ _ _ Ht) as H0.
  destruct (rehash_holds old _ _ _ _ H0) as (t'&E&Hl&H'); [|done|].
  { simpl. rewrite (holds_used _ _ _ _ H), (length_replicate (A:=Z)). done. }
  exists t'. split; [done|]. split; [by rewrite Hl, (length_replicate (A:=Z))|].
  eapply holds_equiv; [exact H'|..].
  - intros e. simpl. rewrite list_elem_of_filter. split.
    + intros [Hne Hin]. by apply (holds_out _ _ _ _ H).
    + intros Hin. destruct (holds_in _ _ _ _ H e Hin) as (?&_&n&_&Hl'&_). split; [done|].
      by eapply list_elem_of_lookup_2.
  - simpl. rewrite <- (holds_used _ _ _ _ H). done.
Qed.

Lemma holds_u64 table mask k entries : holds table mask k entries -> Forall is_u64 table.
Proof.
  intros H. apply Forall_forall. intros e He. destruct (decide (e = 0)) as [->|Hne].
  - unfold is_u64. lia.
  - by apply (holds_in _ _ _ _ H), (holds_out _ _ _ _ H).
Qed.
