(* ===== verification/SimpleLzwProofs.v ===== *)
(** * LZW: the bit stream and the dictionary

    The bits written by the compressor are the digits of one integer, which
    the decompressor takes apart.  Both sides agree on the string every code
    stands for; the round trip, the absence of panics and termination (with
    the hash table of [HashTable]) follow. *)

From S2P Require Import Prelude Varint SimpleLzw HashTable.

(** ** Growing the table *)

Lemma Len64_spec v : 0 < v -> 0 < Len64 v /\ 2 ^ (Len64 v - 1) <= v < 2 ^ Len64 v.
Proof.
  intros Hv. unfold Len64. destruct (Z.eqb_spec v 0); [lia|]. pose proof (Z.log2_nonneg v).
  rewrite Z.add_simpl_r. split; [lia|]. by apply Z.log2_spec.
Qed.

Lemma Len64_unique v n : 0 < n -> 2 ^ (n - 1) <= v < 2 ^ n -> Len64 v = n.
Proof.
  intros Hn Hv. assert (0 < 2 ^ (n - 1)) by (apply Z.pow_pos_nonneg; lia).
  unfold Len64. destruct (Z.eqb_spec v 0); [lia|].
  rewrite (Z.log2_unique v (n - 1)); [lia|lia|]. replace (Z.succ (n - 1)) with n by lia. lia.
Qed.

Lemma Len64_succ v : 0 < v -> Len64 (v + 1) = Len64 v \/ (v + 1 = 2 ^ Len64 v /\ Len64 (v + 1) = Len64 v + 1).
Proof.
  intros Hv. destruct (Len64_spec v Hv) as [Hp Hb]. destruct (decide (v + 1 = 2 ^ Len64 v)) as [E|].
  - right. split; [done|]. apply Len64_unique; [lia|]. rewrite Z.add_simpl_r, Z.pow_add_r by lia. lia.
  - left. apply Len64_unique; lia.
Qed.

(** A table that is large enough for all codes of a width. *)
Definition roomy (table : list Z) (mask highestCode : Z) : Prop :=
  exists k, table_ok table mask k /\ 2 ^ (Len64 highestCode + 1) <= 2 ^ k /\
    Z.of_nat (used table) = highestCode - 255 /\ 255 <= highestCode.

Lemma roomy_free table mask highestCode :
  roomy table mask highestCode -> (used table < length table)%nat.
Proof.
  intros (k&(Hk&Hl&_)&Hp&Hu&Hc). destruct (Len64_spec highestCode) as [? ?]; [lia|].
  rewrite Z.pow_add_r in Hp by lia. unfold zlen in Hl. lia.
Qed.

Lemma growTable_spec table mask c :
  roomy table mask c -> Forall is_u64 table -> c + 1 < 2 ^ 28 ->
  exists t' mask', growTable table mask (c + 1) (Len64 c) = Ok (t', mask', Len64 (c + 1)) /\
    (exists k, table_ok t' mask' k /\ 2 ^ (Len64 (c + 1) + 1) <= 2 ^ k) /\
    used t' = used table /\ forall x, x ∈ t' -> x = 0 \/ x ∈ table.
Proof.
  intros Hr Hb Hc. pose proof Hr as (k&Ht&Hp&Hu&Hc0). unfold growTable.
  destruct (Len64_succ c) as [->|[E ->]]; [lia| |].
  { rewrite Z.eqb_refl. exists table, mask. split; [done|]. split; [by exists k|]. auto. }
  destruct (Z.eqb_spec (Len64 c + 1) (Len64 c)); [lia|]. cbn [negb].
  destruct (Len64_spec c) as [Hl0 Hl1]; [lia|].
  assert (Len64 c < 28) as H28 by (apply (Z.pow_lt_mono_r_iff 2); lia).
  change compressMaximumCodeBits with 28.
  destruct (Z.ltb_spec 28 (Len64 c + 1)); [lia|].
  assert ((c + 1) * 4 = 2 ^ (Len64 c + 1 + 1)) as Ed.
  { rewrite E, <- Z.add_assoc, Z.pow_add_r by lia. lia. }
  destruct (Z.ltb_spec (zlen table) ((c + 1) * 4)) as [Hlt|Hge].
  - set (new := replicate (Z.to_nat ((c + 1) * 4)) 0).
    assert (zlen new = 2 ^ (Len64 c + 1 + 1)) as Hn by (unfold zlen, new; rewrite (length_replicate (A:=Z)), Z2Nat.id; lia).
    assert (table_ok new (u64 (zlen new - 1)) (Len64 c + 1 + 1)) as Hok.
    { split; [lia|]. split; [done|]. rewrite Hn. apply Z.mod_small.
      pose proof (Z.pow_le_mono_r 2 (Len64 c + 1 + 1) 30 ltac:(lia) ltac:(lia)). lia. }
    pose proof (roomy_free _ _ _ Hr) as Hf.
    destruct (rehash_spec table new _ _ Hok) as (t'&->&Hl'&Hu'&Hin'); [|done|].
    { unfold new at 1. rewrite used_replicate. unfold zlen in *. lia. }
    cbn [mbind outcome_bind]. exists t', (u64 (zlen new - 1)). split; [done|]. split.
    + exists (Len64 c + 1 + 1). split; [by eapply table_ok_length|lia].
    + split; [rewrite Hu'; unfold new; rewrite used_replicate; lia|]. intros x Hx.
      apply Hin' in Hx as [?|Hx]; [by right|left]. by apply elem_of_replicate in Hx as [-> _].
  - exists table, mask. split; [done|]. split; [|auto]. exists k. split; [done|].
    destruct Ht as (_&Hl&_). lia.
Qed.

(** ** The bit stream *)

(** The number of bits of [n] codes, the first of which is written while the
    highest code is [a], and the integer they form. *)
Fixpoint codeBits (a : Z) (n : nat) : Z :=
  match n with O => 0 | S n => Len64 a + codeBits (a + 1) n end.

Fixpoint packed (a : Z) (cs : list Z) : Z :=
  match cs with [] => 0 | c :: cs => c + 2 ^ Len64 a * packed (a + 1) cs end.

Fixpoint fits (a : Z) (cs : list Z) : Prop :=
  match cs with [] => True | c :: cs => 0 <= c < 2 ^ Len64 a /\ fits (a + 1) cs end.

Lemma codeBits_add a n m : codeBits a (n + m) = codeBits a n + codeBits (a + Z.of_nat n) m.
Proof.
  revert a. induction n as [|n IH]; intros a; simpl codeBits; [by rewrite Z.add_0_r|].
  rewrite IH. replace (a + 1 + Z.of_nat n) with (a + Z.of_nat (S n)) by lia. lia.
Qed.

Lemma codeBits_nonneg a n : 0 < a -> 0 <= codeBits a n.
Proof.
  revert a. induction n as [|n IH]; intros a Ha; simpl; [lia|]. specialize (IH (a + 1) ltac:(lia)).
  destruct (Len64_spec a Ha). lia.
Qed.

Lemma packed_snoc a cs c :
  0 < a -> packed a (cs ++ [c]) = packed a cs + 2 ^ codeBits a (length cs) * c.
Proof.
  revert a. induction cs as [|c' cs IH]; intros a Ha; simpl; [lia|].
  rewrite IH by lia. pose proof (codeBits_nonneg (a + 1) (length cs) ltac:(lia)).
  destruct (Len64_spec a Ha). rewrite Z.pow_add_r by lia. nia.
Qed.

Lemma fits_snoc a cs c :
  fits a cs -> 0 <= c < 2 ^ Len64 (a + zlen cs) -> fits a (cs ++ [c]).
Proof.
  unfold zlen. revert a. induction cs as [|c' cs IH]; intros a Hf Hc; simpl in *.
  - by rewrite Z.add_0_r in Hc.
  - destruct Hf as [Hc' Hf]. split; [done|]. apply IH; [done|].
    by replace (a + 1 + Z.of_nat (length cs)) with (a + Z.of_nat (S (length cs))) by lia.
Qed.

Lemma packed_bound a cs : 0 < a -> fits a cs -> 0 <= packed a cs < 2 ^ codeBits a (length cs).
Proof.
  revert a. induction cs as [|c cs IH]; intros a Ha Hf; simpl; [lia|]. destruct Hf as [Hc Hf].
  specialize (IH (a + 1) ltac:(lia) Hf). pose proof (codeBits_nonneg (a + 1) (length cs) ltac:(lia)).
  destruct (Len64_spec a Ha). rewrite Z.pow_add_r by lia. nia.
Qed.

Lemma pow256 n : 256 ^ Z.of_nat n = 2 ^ (8 * Z.of_nat n).
Proof. rewrite Z.pow_mul_r by lia. done. Qed.

(** Output after a header whose bits are the integer [N] of [T] bits. *)
Definition streamed (hdr out : list Z) (pendingOutput pendingBits N T : Z) : Prop :=
  exists body, out = hdr ++ body /\ bytes_ok body /\ 0 <= pendingBits < 32 /\
    0 <= pendingOutput < 2 ^ pendingBits /\
    N = le_uint body + 256 ^ zlen body * pendingOutput /\ T = 8 * zlen body + pendingBits.

(** Adding a code to the pending bits. *)
Lemma pend_code po pb code w :
  0 <= pb < 32 -> 0 <= po < 2 ^ pb -> 0 <= w <= 28 -> 0 <= code < 2 ^ w ->
  Z.lor po (shl_u64 code pb) = po + code * 2 ^ pb /\ 0 <= po + code * 2 ^ pb < 2 ^ (pb + w).
Proof.
  intros Hpb Hpo Hw Hc. assert (0 <= po + code * 2 ^ pb < 2 ^ (pb + w)) as Hb.
  { rewrite Z.pow_add_r by lia. nia. }
  split; [|done]. pose proof (Z.pow_le_mono_r 2 (pb + w) 60 ltac:(lia) ltac:(lia)).
  unfold shl_u64, u64. rewrite Z.shiftl_mul_pow2, Z.mod_small by lia.
  rewrite Z.lor_comm, (lor_disjoint code po pb) by lia. lia.
Qed.

Lemma writeCode_streamed hdr c N T :
  streamed hdr (cCompressed c) (cPendingOutput c) (cPendingBits c) N T ->
  0 <= cHighestCodeBits c <= 28 -> 0 <= cCurrentCode c < 2 ^ cHighestCodeBits c ->
  let '(out, po, pb) := writeCode c in
  streamed hdr out po pb (N + 2 ^ T * cCurrentCode c) (T + cHighestCodeBits c).
Proof.
  intros (body&Hout&Hok&Hpb&Hpo&->&->) Hw Hc. unfold writeCode.
  destruct (pend_code _ _ _ _ Hpb Hpo Hw Hc) as [-> Hb].
  set (po := cPendingOutput c + cCurrentCode c * 2 ^ cPendingBits c) in *.
  assert (le_uint body + 256 ^ zlen body * cPendingOutput c + 2 ^ (8 * zlen body + cPendingBits c) *
    cCurrentCode c = le_uint body + 256 ^ zlen body * po) as E.
  { unfold po, zlen. rewrite pow256, Z.pow_add_r by lia. lia. }
  rewrite E. destruct (Z.leb_spec 32 (cPendingBits c + cHighestCodeBits c)).
  - exists (body ++ le_bytes 4 (u32 po)). rewrite Hout. unfold LittleEndian_Append.
    split; [by rewrite app_assoc|]. split; [apply bytes_ok_app; auto with bonanza|].
    split; [lia|]. split.
    { rewrite Z.shiftr_div_pow2 by lia. split; [apply Z.div_pos; lia|].
      apply Z.div_lt_upper_bound; [lia|]. rewrite <- Z.pow_add_r by lia.
      replace (32 + (cPendingBits c + cHighestCodeBits c - 32))
        with (cPendingBits c + cHighestCodeBits c) by lia. apply Hb. }
    unfold zlen. rewrite le_uint_app, length_app, le_uint_bytes, length_le_bytes. split; [|lia].
    rewrite Nat2Z.inj_add, Z.pow_add_r by lia. change (256 ^ Z.of_nat 4) with (2 ^ 32).
    unfold u32. rewrite Z.mod_mod, Z.shiftr_div_pow2 by lia.
    pose proof (Z.div_mod po (2 ^ 32) ltac:(lia)). nia.
  - exists body. rewrite Hout. split; [done|]. split; [done|]. split; [lia|]. split; [done|].
    split; [done|lia].
Qed.

Lemma take_le_bytes n m v : (m <= n)%nat -> take m (le_bytes n v) = le_bytes m v.
Proof.
  intros H. replace n with (m + (n - m))%nat by lia. rewrite le_bytes_add.
  rewrite take_app_le by (rewrite length_le_bytes; lia). apply take_ge. by rewrite length_le_bytes.
Qed.

Lemma flushOutput_streamed hdr c N T :
  streamed hdr (cCompressed c) (cPendingOutput c) (cPendingBits c) N T ->
  0 <= cHighestCodeBits c <= 28 -> 0 <= cCurrentCode c < 2 ^ cHighestCodeBits c ->
  exists body, flushOutput c = Ok (hdr ++ body) /\ bytes_ok body /\
    le_uint body = N + 2 ^ T * cCurrentCode c /\ zlen body = (T + cHighestCodeBits c + 7) / 8.
Proof.
  intros (body&Hout&Hok&Hpb&Hpo&->&->) Hw Hc. unfold flushOutput.
  destruct (pend_code _ _ _ _ Hpb Hpo Hw Hc) as [-> Hb].
  set (po := cPendingOutput c + cCurrentCode c * 2 ^ cPendingBits c) in *.
  set (pb := cPendingBits c + cHighestCodeBits c) in *.
  assert (0 <= (pb + 7) / 8 <= 8) as Hm by (unfold pb; arith).
  set (m := Z.to_nat ((pb + 7) / 8)).
  rewrite <- (take_drop m (le_bytes 8 po)), take_le_bytes by (unfold m; lia).
  rewrite slice_prefix by (unfold zlen; rewrite length_le_bytes; unfold m; lia).
  cbn [mbind outcome_bind]. exists (body ++ le_bytes m po). rewrite Hout.
  split; [by rewrite app_assoc|]. split; [apply bytes_ok_app; auto with bonanza|].
  unfold zlen. rewrite le_uint_app, length_app, le_uint_bytes, length_le_bytes. split.
  - rewrite (Z.mod_small po).
    + unfold po. rewrite (pow256 (length body)), Z.pow_add_r by lia. lia.
    + rewrite pow256. split; [lia|]. eapply Z.lt_le_trans; [apply Hb|].
      apply Z.pow_le_mono_r; [lia|]. unfold m, pb in *. arith.
  - unfold m. rewrite Nat2Z.inj_add, Z2Nat.id by lia. unfold pb in *. arith.
Qed.

(** ** The dictionary *)

(** The data is a sequence of factors, one per code.  Code [256 + k] stands for
    factor [k] and the first byte of the next one. *)
Definition entry_string (fs : list (list Z)) (c : Z) : option (list Z) :=
  if c <? 0 then None
  else if c <=? initialHighestCode then Some [c]
  else f ← fs !! Z.to_nat (c - 256);
       g ← fs !! S (Z.to_nat (c - 256));
       x ← head g;
       Some (f ++ [x]).

(** What the decompressor makes of a code after the factors [fs]: the code that
    is being defined has the first byte of its own factor at its end. *)
Definition code_string (fs : list (list Z)) (c : Z) : option (list Z) :=
  if c <? 0 then None
  else if c <=? initialHighestCode then Some [c]
  else f ← fs !! Z.to_nat (c - 256);
       x ← head (default f (fs !! S (Z.to_nat (c - 256))));
       Some (f ++ [x]).

Lemma entry_string_Some fs c v :
  entry_string fs c = Some v <->
  (0 <= c <= 255 /\ v = [c]) \/
  (exists k f g x, c = 256 + Z.of_nat k /\ fs !! k = Some f /\ fs !! S k = Some g /\
     head g = Some x /\ v = f ++ [x]).
Proof.
  unfold entry_string, initialHighestCode. destruct (Z.ltb_spec c 0).
  { split; [done|]. intros [[? _]|(k&?&?&?&?&_)]; lia. }
  destruct (Z.leb_spec c 255).
  { split; [intros [= <-]; left; split; [lia|done]|]. intros [[_ ->]|(k&?&?&?&?&_)]; [done|lia]. }
  split.
  - intros E. right. exists (Z.to_nat (c - 256)). destruct (fs !! Z.to_nat (c - 256)) as [f|]; [|done].
    simpl in E. destruct (fs !! S (Z.to_nat (c - 256))) as [g|]; [|done]. simpl in E.
    destruct (head g) as [x|] eqn:Ex; [|done]. injection E as <-. exists f, g, x. split; [lia|done].
  - intros [[? _]|(k&f&g&x&->&Hf&Hg&Hx&->)]; [lia|].
    replace (Z.to_nat (256 + Z.of_nat k - 256)) with k by lia. rewrite Hf, Hg. simpl. by rewrite Hx.
Qed.

Lemma entry_string_range fs c v : entry_string fs c = Some v -> 0 <= c < 255 + Z.max 1 (zlen fs).
Proof.
  rewrite entry_string_Some. unfold zlen. intros [[? _]|(k&f&g&x&->&_&Hg&_)]; [lia|].
  apply lookup_lt_Some in Hg. lia.
Qed.

Lemma entry_string_extend fs c v g : entry_string fs c = Some v -> entry_string (fs ++ [g]) c = Some v.
Proof.
  rewrite !entry_string_Some. intros [?|(k&f&g'&x&->&Hf&Hg&Hx&->)]; [by left|right].
  exists k, f, g', x. split; [done|]. rewrite !lookup_app_l by (by eapply lookup_lt_Some). done.
Qed.

Lemma entry_string_grow fs w s c v :
  w <> [] -> entry_string (fs ++ [w]) c = Some v -> entry_string (fs ++ [w ++ [s]]) c = Some v.
Proof.
  intros Hw. rewrite !entry_string_Some. intros [?|(k&f&g&x&->&Hf&Hg&Hx&->)]; [by left|right].
  pose proof (lookup_lt_Some _ _ _ Hg) as Hlt. rewrite length_app in Hlt. simpl in Hlt.
  rewrite lookup_app_l in Hf by lia. exists k, f.
  destruct (decide (S k = length fs)) as [E|].
  - rewrite E, lookup_app_r, Nat.sub_diag in Hg by lia. injection Hg as <-.
    exists (w ++ [s]), x. split; [done|]. rewrite lookup_app_l by lia. split; [done|].
    rewrite lookup_app_r, E, Nat.sub_diag by lia. split; [done|]. split; [|done]. by destruct w.
  - rewrite lookup_app_l in Hg by lia. exists g, x. rewrite !lookup_app_l by lia. done.
Qed.

(** The code of the current factor is understood by the decompressor. *)
Lemma entry_code fs w c :
  Forall (fun f => f <> []) fs -> entry_string (fs ++ [w]) c = Some w -> code_string fs c = Some w.
Proof.
  intros Hne H. unfold code_string. apply entry_string_Some in H as [[Hc ->]|(k&f&g&x&->&Hf&Hg&Hx&Hw)].
  - unfold initialHighestCode. destruct (Z.ltb_spec c 0); [lia|]. destruct (Z.leb_spec c 255); [done|lia].
  - unfold initialHighestCode. destruct (Z.ltb_spec (256 + Z.of_nat k) 0); [lia|].
    destruct (Z.leb_spec (256 + Z.of_nat k) 255); [lia|].
    replace (Z.to_nat (256 + Z.of_nat k - 256)) with k by lia.
    pose proof (lookup_lt_Some _ _ _ Hg) as Hlt. rewrite length_app in Hlt. simpl in Hlt.
    rewrite lookup_app_l in Hf by lia. rewrite Hf. cbn [mbind option_bind].
    destruct (decide (S k = length fs)) as [E|].
    + rewrite E, lookup_app_r, Nat.sub_diag in Hg by lia. injection Hg as <-.
      rewrite E, lookup_ge_None_2 by lia. simpl. rewrite Hw in Hx.
      destruct f as [|y f]; [|simpl in Hx; injection Hx as ->; by rewrite Hw].
      by apply (Forall_lookup_1 _ _ _ _ Hne) in Hf.
    + rewrite lookup_app_l in Hg by lia. rewrite Hg. simpl. by rewrite Hx, Hw.
Qed.

(** Factors with the codes that are written for them. *)
Inductive factored : list (list Z) -> list Z -> Prop :=
  | factored_nil : factored [] []
  | factored_snoc fs cs f c :
      factored fs cs -> code_string fs c = Some f -> factored (fs ++ [f]) (cs ++ [c]).

Lemma factored_length fs cs : factored fs cs -> length cs = length fs.
Proof. induction 1 as [|fs cs f c _ IH _]; [done|]. by rewrite !length_app, IH. Qed.

(** ** The invariant of the compressor *)

(** An entry of the hash table: prefix, symbol and the code of both. *)
Definition entry_ok (S : list (list Z)) (e : Z) : Prop :=
  exists p s code v, 0 <= s < 256 /\ 0 <= code < 2 ^ 28 /\ 0 <= p < 2 ^ 28 /\
    e = (p * 256 + s) * 2 ^ 28 + code /\ entry_string S p = Some v /\
    entry_string S code = Some (v ++ [s]).

Record compressing (hdr : list Z) (c : compressor) (fs : list (list Z)) (w cs : list Z) : Prop := {
  co_nonempty : w <> [] /\ Forall (fun f => f <> []) fs;
  co_highest : cHighestCode c = 255 + zlen fs /\ cHighestCodeBits c = Len64 (cHighestCode c) /\
    cHighestCode c < 2 ^ 28;
  co_roomy : roomy (cTable c) (cTableMask c) (cHighestCode c);
  co_entries : forall e, e ∈ cTable c -> e = 0 \/ entry_ok (fs ++ [w]) e;
  co_current : entry_string (fs ++ [w]) (cCurrentCode c) = Some w;
  co_factored : factored fs cs;
  co_fits : fits 255 cs;
  co_streamed : streamed hdr (cCompressed c) (cPendingOutput c) (cPendingBits c) (packed 255 cs)
    (codeBits 255 (length cs));
}.

Lemma entry_fields p s code :
  0 <= s < 256 -> 0 <= code < 2 ^ 28 ->
  Z.shiftr ((p * 256 + s) * 2 ^ 28 + code) compressMaximumCodeBits = p * 256 + s /\
  ((p * 256 + s) * 2 ^ 28 + code) mod 2 ^ 28 = code.
Proof.
  intros Hs Hc. rewrite Z.shiftr_div_pow2 by done. change compressMaximumCodeBits with 28.
  split; literal_pow; arith.
Qed.

Section compressing.
Variables (hdr : list Z) (c : compressor) (fs : list (list Z)) (w cs : list Z) (s : Z).
Hypothesis Hc : compressing hdr c fs w cs.
Hypothesis Hs : 0 <= s < 256.

Lemma current_range : 0 <= cCurrentCode c <= cHighestCode c /\ cHighestCode c < 2 ^ 28 /\
  0 <= cHighestCodeBits c <= 28 /\ 0 <= cCurrentCode c < 2 ^ cHighestCodeBits c.
Proof.
  pose proof (entry_string_range _ _ _ (co_current _ _ _ _ _ Hc)) as Hr.
  destruct (co_highest _ _ _ _ _ Hc) as (Hh&Hb&Hlt).
  unfold zlen in *. rewrite length_app in Hr. simpl in Hr.
  destruct (Len64_spec (cHighestCode c)) as [H0 H1]; [lia|]. rewrite Hb.
  assert (Len64 (cHighestCode c) <= 28); [|lia].
  assert (Len64 (cHighestCode c) - 1 < 28); [|lia]. apply (Z.pow_lt_mono_r_iff 2); lia.
Qed.

Lemma lookupKey_value :
  Z.lor (shl_u64 (cCurrentCode c) 8) s = cCurrentCode c * 256 + s.
Proof.
  destruct current_range as (H1&H2&_). unfold shl_u64, u64. rewrite Z.shiftl_mul_pow2, Z.mod_small by lia.
  by rewrite lor_disjoint by lia.
Qed.

Lemma table_u64 : Forall is_u64 (cTable c).
Proof.
  apply Forall_forall. intros e He. apply (co_entries _ _ _ _ _ Hc) in He as [->|(p&s'&code&v&H1&H2&H3&->&_)];
    unfold is_u64; literal_pow; lia.
Qed.

(** Looking up the current factor with one more byte. *)
Lemma lookup_step :
  exists r, lookupCode (length (cTable c)) (cTable c) (cTableMask c)
      (cCurrentCode c * 256 + s) (hashKey (cCurrentCode c * 256 + s)) 1 = Ok r /\
    forall code, r = Some code -> entry_string (fs ++ [w]) code = Some (w ++ [s]).
Proof.
  pose proof (co_roomy _ _ _ _ _ Hc) as Hr. pose proof (roomy_free _ _ _ Hr) as Hf.
  destruct Hr as (k&Ht&_). destruct current_range as (H1&H2&_).
  destruct (lookupCode_spec (cTable c) (cTableMask c) k (cCurrentCode c * 256 + s)
    (hashKey (cCurrentCode c * 256 + s)) Ht Hf) as (r&->&Hr); [apply hashKey_bound; lia|].
  exists r. split; [done|]. intros code E. destruct (Hr code E) as (e&He&Hne&Hkey&->).
  apply (co_entries _ _ _ _ _ Hc) in He as [->|(p&s'&code&v&Hs'&Hcode&_&->&Hp&Hv)]; [done|].
  destruct (entry_fields p s' code Hs' Hcode) as [E1 E2]. rewrite E1 in Hkey. rewrite E2.
  assert (p = cCurrentCode c /\ s' = s) as [-> ->] by lia.
  rewrite (co_current _ _ _ _ _ Hc) in Hp. by injection Hp as <-.
Qed.
End compressing.

Lemma entry_ok_mono (S S' : list (list Z)) e :
  (forall c v, entry_string S c = Some v -> entry_string S' c = Some v) -> entry_ok S e -> entry_ok S' e.
Proof.
  intros H (p&s&code&v&H1&H2&H3&->&Hp&Hv). exists p, s, code, v. auto 8.
Qed.

(** The longest known factor grows by one byte. *)
Lemma processByte_known hdr c fs w cs s code :
  compressing hdr c fs w cs -> entry_string (fs ++ [w]) code = Some (w ++ [s]) ->
  compressing hdr (mkCompressor (cCompressed c) (cTable c) (cTableMask c) (cHighestCode c)
    (cHighestCodeBits c) (cPendingOutput c) (cPendingBits c) code) fs (w ++ [s]) cs.
Proof.
  intros Hc Hcode. destruct (co_nonempty _ _ _ _ _ Hc) as [Hw Hfs].
  assert (forall c v, entry_string (fs ++ [w]) c = Some v -> entry_string (fs ++ [w ++ [s]]) c = Some v)
    as Hgrow by (intros; by apply entry_string_grow).
  split; simpl; try apply Hc.
  - split; [by destruct w|done].
  - intros e He. apply (co_entries _ _ _ _ _ Hc) in He as [?|He]; [by left|right].
    by eapply entry_ok_mono.
  - by apply Hgrow.
Qed.

(** The current factor ends: its code is written and a new entry stored. *)
Lemma processByte_new hdr c fs w cs s :
  compressing hdr c fs w cs -> 0 <= s < 256 -> cHighestCode c + 1 < 2 ^ 28 ->
  exists c', (let '(compressed, pendingOutput, pendingBits) := writeCode c in
      let highestCode := add_u64 (cHighestCode c) 1 in
      '(table, tableMask, highestCodeBits) ←
        growTable (cTable c) (cTableMask c) highestCode (cHighestCodeBits c);
      table ← insertEntry (length table) table tableMask
        (Z.lor (shl_u64 (cCurrentCode c * 256 + s) compressMaximumCodeBits) highestCode)
        (hashKey (cCurrentCode c * 256 + s)) 1;
      Ok (mkCompressor compressed table tableMask highestCode highestCodeBits pendingOutput
            pendingBits s)) = Ok c' /\
    compressing hdr c' (fs ++ [w]) [s] (cs ++ [cCurrentCode c]).
Proof.
  intros Hc Hs Hlt. destruct (co_nonempty _ _ _ _ _ Hc) as [Hw Hfs].
  destruct (co_highest _ _ _ _ _ Hc) as (Hh&Hb&_).
  destruct (current_range _ _ _ _ _ Hc) as (Hcur&_&Hbits&Hcur').
  pose proof (co_roomy _ _ _ _ _ Hc) as Hroom.
  pose proof (writeCode_streamed _ _ _ _ (co_streamed _ _ _ _ _ Hc) Hbits Hcur') as Hstream.
  destruct (writeCode c) as [[out po] pb]. cbv zeta.
  assert (add_u64 (cHighestCode c) 1 = cHighestCode c + 1) as -> by (unfold add_u64, u64, zlen in *;
    rewrite Z.mod_small; lia).
  rewrite Hb. destruct (growTable_spec _ _ _ Hroom (table_u64 _ _ _ _ _ Hc) Hlt)
    as (t1&mask1&->&(k&Hk&Hp)&Hu1&Hin1). cbn [mbind outcome_bind].
  assert (255 <= cHighestCode c) as Hge by (unfold zlen in *; lia).
  assert (used t1 < length t1)%nat as Hfree1.
  { destruct Hk as (_&Hl&_). destruct Hroom as (_&_&_&Hu&_).
    destruct (Len64_spec (cHighestCode c + 1)) as [? ?]; [lia|].
    rewrite Z.pow_add_r in Hp by lia. unfold zlen in Hl. lia. }
  set (code := cHighestCode c + 1) in *. set (key := cCurrentCode c * 256 + s) in *.
  assert (Z.lor (shl_u64 key compressMaximumCodeBits) code = key * 2 ^ 28 + code) as Eentry.
  { unfold shl_u64, u64. change compressMaximumCodeBits with 28.
    rewrite Z.shiftl_mul_pow2, Z.mod_small by (unfold key; lia). by rewrite lor_disjoint by lia. }
  rewrite Eentry. destruct (insertEntry_spec t1 mask1 k (key * 2 ^ 28 + code) (hashKey key) Hk Hfree1)
    as (t2&->&Hl2&Hu2&Hin2); [apply hashKey_bound; unfold key; lia|]. cbn [mbind outcome_bind].
  eexists. split; [done|].
  assert (forall c v, entry_string (fs ++ [w]) c = Some v -> entry_string ((fs ++ [w]) ++ [[s]]) c = Some v)
    as Hext by (intros; by apply entry_string_extend).
  assert (length cs = length fs) as Hlen by (apply factored_length, Hc).
  split; simpl.
  - split; [done|]. apply Forall_app. split; [done|]. by constructor.
  - unfold zlen in *. rewrite length_app. simpl. split; [lia|]. split; [done|lia].
  - exists k. split; [by eapply table_ok_length|]. split; [done|]. rewrite Hu2, Hu1.
    destruct Hroom as (_&_&_&Hu&_). unfold used at 2. rewrite filter_cons_True by (unfold key; lia).
    simpl. unfold code. lia.
  - intros e He. apply Hin2 in He as [He|He].
    + right. apply list_elem_of_singleton in He as ->. exists (cCurrentCode c), s, code, w.
      split; [done|]. split; [lia|]. split; [lia|]. split; [done|]. split; [by apply Hext, Hc|].
      apply entry_string_Some. right. exists (length fs), w, [s], s.
      split; [unfold code, zlen in *; lia|].
      rewrite lookup_app_l by (rewrite length_app; simpl; lia).
      rewrite lookup_app_r, Nat.sub_diag by lia.
      rewrite lookup_app_r by (rewrite length_app; simpl; lia). rewrite length_app. simpl.
      by replace (S (length fs) - (length fs + 1))%nat with 0%nat by lia.
    + apply Hin1 in He as [?|He]; [by left|].
      apply (co_entries _ _ _ _ _ Hc) in He as [?|He]; [by left|right]. by eapply entry_ok_mono.
  - apply entry_string_Some. left. split; [lia|done].
  - apply factored_snoc; [apply Hc|]. apply entry_code; [done|apply Hc].
  - apply fits_snoc; [apply Hc|]. unfold zlen in *. rewrite Hlen, <- Hh, <- Hb. done.
  - rewrite packed_snoc, length_app, codeBits_add by lia. simpl. rewrite Z.add_0_r.
    unfold zlen in Hh. rewrite Hlen, <- Hh, <- Hb. by rewrite Hlen in Hstream.
Qed.

Lemma writeCode_growTable_full c :
  cHighestCodeBits c = Len64 (cHighestCode c) -> cHighestCode c + 1 = 2 ^ 28 ->
  growTable (cTable c) (cTableMask c) (add_u64 (cHighestCode c) 1) (cHighestCodeBits c)
  = Err (StatusError CodeInvalidArgument).
Proof.
  intros Hb Hh. assert (add_u64 (cHighestCode c) 1 = 2 ^ 28) as ->
    by (unfold add_u64; rewrite Hh; reflexivity).
  assert (cHighestCode c = 2 ^ 28 - 1) as E by lia. unfold growTable. rewrite Hb, E. done.
Qed.

(** One byte: the compressor goes on, or has run out of codes. *)
Lemma processByte_spec hdr c fs w cs s :
  compressing hdr c fs w cs -> 0 <= s < 256 ->
  (exists c' fs' w' cs', processByte c s = Ok c' /\ compressing hdr c' fs' w' cs' /\
     concat fs' ++ w' = (concat fs ++ w) ++ [s] /\ (length fs' <= S (length fs))%nat) \/
  (processByte c s = Err (StatusError CodeInvalidArgument) /\ 2 ^ 28 - 256 <= zlen fs).
Proof.
  intros Hc Hs. unfold processByte. rewrite (lookupKey_value _ _ _ _ _ _ Hc Hs). cbv zeta.
  destruct (lookup_step _ _ _ _ _ _ Hc Hs) as (r&->&Hr). cbn [mbind outcome_bind].
  destruct r as [code|].
  - left. do 4 eexists. split; [done|]. split; [by apply processByte_known, Hr|].
    split; [by rewrite app_assoc|lia].
  - destruct (co_highest _ _ _ _ _ Hc) as (Hh&Hb&Hlt).
    destruct (decide (cHighestCode c + 1 = 2 ^ 28)) as [E|].
    + right. destruct (writeCode c) as [[out po] pb].
      rewrite writeCode_growTable_full by done. split; [done|lia].
    + left. destruct (processByte_new _ _ _ _ _ s Hc Hs) as (c'&E&Hc'); [lia|].
      exists c', (fs ++ [w]), [s], (cs ++ [cCurrentCode c]). split; [exact E|]. split; [done|].
      rewrite concat_app, length_app. simpl. rewrite app_nil_r. split; [done|lia].
Qed.

Lemma processBytes_spec hdr l c fs w cs :
  compressing hdr c fs w cs -> bytes_ok l ->
  (exists c' fs' w' cs', processBytes c l = Ok c' /\ compressing hdr c' fs' w' cs' /\
     concat fs' ++ w' = (concat fs ++ w) ++ l) \/
  (processBytes c l = Err (StatusError CodeInvalidArgument) /\ 2 ^ 28 - 256 < zlen fs + zlen l).
Proof.
  unfold zlen. revert c fs w cs. induction l as [|s l IH]; intros c fs w cs Hc Hl.
  - left. exists c, fs, w, cs. by rewrite app_nil_r.
  - inversion Hl as [|?? Hs Hl']; subst. cbn [processBytes].
    destruct (processByte_spec _ _ _ _ _ s Hc Hs) as [(c1&fs1&w1&cs1&->&Hc1&E1&Hlen)|[-> Hlen]].
    + cbn [mbind outcome_bind]. destruct (IH _ _ _ _ Hc1 Hl') as [(c2&fs2&w2&cs2&->&Hc2&E2)|[-> Hlen2]].
      * left. exists c2, fs2, w2, cs2. split; [done|]. split; [done|].
        by rewrite E2, E1, <- app_assoc.
      * right. split; [done|]. simpl. lia.
    + right. split; [done|]. unfold zlen in Hlen. simpl. lia.
Qed.

Lemma initial_compressing hdr b :
  0 <= b < 256 ->
  compressing hdr (mkCompressor hdr (replicate (Z.to_nat 0x1000) 0) 0xfff 0xff 8 0 0 b) [] [b] [].
Proof.
  intros Hb. split; cbn [cCompressed cTable cTableMask cHighestCode cHighestCodeBits cCurrentCode
    cPendingOutput cPendingBits].
  - split; [done|constructor].
  - done.
  - exists 12. split; [|split; [done|]].
    + split; [lia|]. split; [|done]. unfold zlen. rewrite length_replicate. reflexivity.
    + rewrite used_replicate. split; [reflexivity|lia].
  - intros e He. apply elem_of_replicate in He as [-> _]. by left.
  - apply entry_string_Some. left. split; [lia|done].
  - constructor.
  - done.
  - exists []. rewrite app_nil_r. split; [done|]. split; [constructor|]. simpl. by split_and!.
Qed.

(** What [Compress] writes: a header and the bits of the codes. *)
Lemma Compress_spec b l :
  bytes_ok (b :: l) ->
  (exists fs cs body, Compress (b :: l) = Ok (AppendForward [] (zlen (b :: l)) ++ body) /\
     factored fs cs /\ concat fs = b :: l /\ fits 255 cs /\ cs <> [] /\
     bytes_ok body /\ le_uint body = packed 255 cs /\ zlen body = (codeBits 255 (length cs) + 7) / 8 /\
     zlen cs <= 2 ^ 28) \/
  (Compress (b :: l) = Err (StatusError CodeInvalidArgument) /\ 2 ^ 28 - 256 < zlen l).
Proof.
  intros Hok. inversion Hok as [|?? Hb Hl]; subst. unfold Compress.
  destruct (processBytes_spec (AppendForward [] (zlen (b :: l))) l _ _ _ _
    (initial_compressing (AppendForward [] (zlen (b :: l))) b Hb) Hl) as [(c&fs&w&cs&->&Hc&E)|[-> Hlen]];
    [left|right].
  - cbn [mbind outcome_bind]. destruct (current_range _ _ _ _ _ Hc) as (_&_&Hbits&Hcur).
    destruct (flushOutput_streamed _ _ _ _ (co_streamed _ _ _ _ _ Hc) Hbits Hcur) as (body&->&Hbo&Hle&Hlen).
    destruct (co_highest _ _ _ _ _ Hc) as (Hh&Hbt&Hlt). destruct (co_nonempty _ _ _ _ _ Hc) as [_ Hne].
    pose proof (factored_length _ _ (co_factored _ _ _ _ _ Hc)) as Hfl. unfold zlen in *.
    exists (fs ++ [w]), (cs ++ [cCurrentCode c]), body. split; [done|].
    split; [apply factored_snoc; [apply Hc|]; apply entry_code; [done|apply Hc]|].
    split; [rewrite concat_app; simpl; by rewrite app_nil_r, E|].
    split; [apply fits_snoc; [apply Hc|]; unfold zlen; by rewrite Hfl, <- Hh, <- Hbt|].
    split; [by destruct cs|]. split; [done|]. rewrite packed_snoc by lia. split; [done|].
    rewrite length_app, codeBits_add. simpl. rewrite Z.add_0_r, Hlen, Hfl, <- Hh, <- Hbt.
    split; [done|lia].
  - split; [done|]. unfold zlen in *. simpl in Hlen. lia.
Qed.

(** ** The decompressor *)

(** Input whose unread bits are the [R] bits of the integer [I].  The last
    bytes stay in the slice after they were read. *)
Definition reading (compressed : list Z) (pendingInput pendingBits I R : Z) : Prop :=
  bytes_ok compressed /\ 0 <= pendingBits /\ 0 <= pendingInput < 2 ^ pendingBits /\
  ((I = pendingInput + 2 ^ pendingBits * le_uint compressed /\ R = pendingBits + 8 * zlen compressed) \/
   (I = pendingInput /\ R = pendingBits)).

Lemma pend_input pi pb v n :
  0 <= pb -> 0 <= n -> pb + n <= 64 -> 0 <= pi < 2 ^ pb -> 0 <= v < 2 ^ n ->
  shl_checked v pb = Ok (v * 2 ^ pb) /\ Z.lor pi (v * 2 ^ pb) = pi + 2 ^ pb * v /\
  0 <= pi + 2 ^ pb * v < 2 ^ (pb + n).
Proof.
  intros Hpb Hn Hle Hpi Hv. assert (0 <= pi + 2 ^ pb * v < 2 ^ (pb + n)) as Hb.
  { rewrite Z.pow_add_r by lia. nia. }
  pose proof (Z.pow_le_mono_r 2 (pb + n) 64 ltac:(lia) ltac:(lia)).
  unfold shl_checked, shl_u64, u64. destruct (Z.ltb_spec pb 0); [lia|].
  rewrite Z.shiftl_mul_pow2, Z.mod_small by lia. split; [done|]. split; [|done].
  rewrite Z.lor_comm, lor_disjoint by lia. lia.
Qed.

Lemma readTrailing_spec l pi pb :
  bytes_ok l -> 0 <= pb -> pb + 8 * zlen l <= 64 -> 0 <= pi < 2 ^ pb ->
  readTrailing l pi pb = Ok (pi + 2 ^ pb * le_uint l, pb + 8 * zlen l) /\
  0 <= pi + 2 ^ pb * le_uint l < 2 ^ (pb + 8 * zlen l).
Proof.
  unfold zlen. revert pi pb. induction l as [|b l IH]; intros pi pb Hok Hpb Hlen Hpi.
  - simpl. rewrite Z.mul_0_r, !Z.add_0_r. done.
  - inversion Hok as [|?? Hb Hok']; subst. cbn [length] in Hlen. cbn [readTrailing].
    destruct (pend_input pi pb b 8) as (->&E&Hb'); [done|lia|lia|done|done|]. cbn [mbind outcome_bind].
    rewrite E.     destruct (IH (pi + 2 ^ pb * b) (pb + 8) Hok' ltac:(lia) ltac:(lia) Hb') as [-> Hb'']. cbn [le_uint length].
    rewrite Z.pow_add_r in * by lia.
    replace (pi + 2 ^ pb * b + 2 ^ pb * 2 ^ 8 * le_uint l) with (pi + 2 ^ pb * (b + 256 * le_uint l)) in * by lia.
    replace (pb + 8 * Z.of_nat (S (length l))) with (pb + 8 + 8 * Z.of_nat (length l)) by lia. done.
Qed.

(** Taking a code from the pending bits. *)
Lemma take_code compressed pi pb I R w :
  reading compressed pi pb I R -> 0 <= w <= pb -> w <= 32 ->
  Z.land pi (u64 (shl_u64 1 w - 1)) = I mod 2 ^ w /\
  reading compressed (Z.shiftr pi w) (pb - w) (I / 2 ^ w) (R - w).
Proof.
  intros (Hok&Hpb&Hpi&Hm) Hw Hw32.
  assert (u64 (shl_u64 1 w - 1) = 2 ^ w - 1) as ->.
  { pose proof (Z.pow_le_mono_r 2 w 32 ltac:(lia) ltac:(lia)). unfold shl_u64, u64.
    rewrite Z.shiftl_mul_pow2, Z.mul_1_l, (Z.mod_small (2 ^ w)), Z.mod_small by lia. done. }
  rewrite (land_mask w) by lia. rewrite Z.shiftr_div_pow2 by lia.
  assert (2 ^ pb = 2 ^ w * 2 ^ (pb - w)) as Ep by (rewrite <- Z.pow_add_r by lia; f_equal; lia).
  assert (0 <= pi / 2 ^ w < 2 ^ (pb - w)) as Hb.
  { split; [apply Z.div_pos; lia|]. apply Z.div_lt_upper_bound; lia. }
  assert (forall x, pi + 2 ^ pb * x = pi + (2 ^ (pb - w) * x) * 2 ^ w) as Ex by (intros; lia).
  split.
  - destruct Hm as [[-> _]|[-> _]]; [|done]. by rewrite Ex, Z_mod_plus_full.
  - split; [done|]. split; [lia|]. split; [done|]. destruct Hm as [[-> ->]|[-> ->]]; [left|by right].
    rewrite Ex, Z.div_add by lia. split; [done|lia].
Qed.

Lemma readCode_spec compressed pi pb I R w :
  reading compressed pi pb I R -> 0 <= w <= 32 -> w <= R ->
  exists compressed' pi' pb', readCode compressed pi pb w = Ok (I mod 2 ^ w, (compressed', pi', pb')) /\
    reading compressed' pi' pb' (I / 2 ^ w) (R - w).
Proof.
  intros Hr Hw HR. unfold readCode. pose proof Hr as (Hok&Hpb&Hpi&Hm).
  assert (forall compressed1 pi1 pb1, reading compressed1 pi1 pb1 I R -> w <= pb1 ->
    exists compressed' pi' pb', Ok (Z.land pi1 (u64 (shl_u64 1 w - 1)),
        (compressed1, Z.shiftr pi1 w, pb1 - w)) = Ok (I mod 2 ^ w, (compressed', pi', pb')) /\
      reading compressed' pi' pb' (I / 2 ^ w) (R - w)) as Htake.
  { intros compressed1 pi1 pb1 Hr1 Hle. destruct (take_code _ _ _ _ _ w Hr1) as [-> Hr2]; [lia|lia|].
    by do 3 eexists. }
  destruct (Z.ltb_spec pb w) as [Hlt|Hge]; [|by apply Htake].
  destruct Hm as [[-> ->]|[_ ->]]; [|lia].
  destruct (Z.leb_spec 4 (zlen compressed)) as [H4|H4].
  - rewrite LittleEndian_Uint_ok by done. cbn [mbind outcome_bind].
    pose proof (le_uint_bound (take 4 compressed) (bytes_ok_take _ _ Hok)) as Hle.
    unfold zlen in H4. rewrite length_take_le in Hle by lia. change (256 ^ Z.of_nat 4) with (2 ^ 32) in Hle.
    destruct (pend_input pi pb (le_uint (take 4 compressed)) 32) as (->&E&Hb); [done|lia|lia|done|done|].
    cbn [mbind outcome_bind]. rewrite slice_from_ok by (unfold zlen; lia). rewrite E. cbn [mbind outcome_bind].
    apply Htake; [|lia]. split; [auto with bonanza|]. split; [lia|]. split; [done|]. left.
    assert (le_uint compressed = le_uint (take 4 compressed) + 2 ^ 32 * le_uint (drop 4 compressed)) as El.
    { rewrite <- (take_drop 4 compressed) at 1. rewrite le_uint_app, length_take_le by lia. done. }
    rewrite El, Z.pow_add_r by lia. change (Z.to_nat 4) with 4%nat. unfold zlen.
    rewrite length_drop. split; [ring|lia].
  - destruct (readTrailing_spec compressed pi pb Hok Hpb) as [-> Hb]; [lia|done|]. cbn [mbind outcome_bind].
    apply Htake; [|lia]. split; [done|]. split; [unfold zlen; lia|]. split; [done|]. by right.
Qed.

(** *** The dictionary of the decompressor *)

Definition offsets_of (offsets : list Z) (fs : list (list Z)) (n : nat) : Prop :=
  length offsets = n /\ forall k, (k < n)%nat -> offsets !! k = Some (zlen (concat (take k fs))).

Lemma concat_split (fs : list (list Z)) k f :
  fs !! k = Some f -> concat fs = concat (take k fs) ++ f ++ concat (drop (S k) fs).
Proof.
  intros Hk. rewrite <- (take_drop_middle fs k f Hk) at 1. rewrite concat_app. done.
Qed.

Lemma head_index (f rest : list Z) : f <> [] -> exists x, head f = Some x /\ (f ++ rest) !! 0%nat = Some x.
Proof. destruct f as [|x f]; [done|]. intros _. by exists x. Qed.

Lemma expandCode_spec offsets fs c :
  Forall (fun f => f <> []) fs -> offsets_of offsets fs (S (length fs)) -> 0 <= c < 2 ^ 40 ->
  match code_string fs c with
  | Some f => expandCode offsets (concat fs) c = Ok (concat fs ++ f) /\ f <> []
  | None => expandCode offsets (concat fs) c = Err (StatusError CodeInvalidArgument)
  end.
Proof.
  intros Hne [Hlen Ho] Hc. unfold code_string, expandCode, initialHighestCode.
  destruct (Z.ltb_spec c 0); [lia|]. destruct (Z.leb_spec c 255).
  { split; [|done]. unfold u8. by rewrite Z.mod_small by lia. }
  assert (sub_u64 c 255 = c - 255) as -> by (unfold sub_u64, u64; apply Z.mod_small; lia).
  set (k := Z.to_nat (c - 256)). unfold zlen. rewrite Hlen.
  destruct (fs !! k) as [f|] eqn:Hf; cbn [mbind option_bind].
  - pose proof (lookup_lt_Some _ _ _ Hf) as Hk. destruct (Z.ltb_spec (c - 255) (Z.of_nat (S (length fs)))); [|lia].
    pose proof (Forall_lookup_1 _ _ _ _ Hne Hf) as Hfne. simpl in Hfne.
    rewrite (index_ok offsets (c - 255 - 1) (zlen (concat (take k fs))));
      [|lia|replace (Z.to_nat (c - 255 - 1)) with k by lia; apply Ho; lia].
    rewrite (index_ok offsets (c - 255) (zlen (concat (take (S k) fs))));
      [|lia|replace (Z.to_nat (c - 255)) with (S k) by lia; apply Ho; lia].
    cbn [mbind outcome_bind].
    assert (zlen (concat (take (S k) fs)) = zlen (concat (take k fs)) + zlen f) as El.
    { rewrite (take_S_r fs k f Hf), concat_app. unfold zlen. rewrite length_app. simpl. rewrite app_nil_r. lia. }
    assert (slice (concat fs) (zlen (concat (take k fs))) (zlen (concat (take (S k) fs))) = Ok f) as ->.
    { rewrite (concat_split fs k f Hf). by apply slice_app. }
    cbn [mbind outcome_bind].
    assert (exists x, head (default f (fs !! S k)) = Some x /\
      (concat fs ++ f) !! length (concat (take (S k) fs)) = Some x) as (x&Hx&Hi).
    { destruct (fs !! S k) as [g|] eqn:Hg.
      - destruct (head_index g (concat (drop (S (S k)) fs) ++ f)) as (x&Hx&Hx').
        { apply (Forall_lookup_1 _ _ _ _ Hne Hg). }
        exists x. split; [done|]. rewrite (concat_split fs (S k) g Hg), <- !app_assoc.
        by rewrite lookup_app_r, Nat.sub_diag by lia.
      - apply lookup_ge_None in Hg. destruct (head_index f [] Hfne) as (x&Hx&Hx').
        exists x. split; [done|]. rewrite take_ge by lia.
        rewrite lookup_app_r, Nat.sub_diag by lia. by rewrite app_nil_r in Hx'. }
    rewrite (index_ok _ _ x) by (unfold zlen; rewrite ?Nat2Z.id; (done || lia)).
    rewrite Hx. cbn [mbind outcome_bind option_bind]. split; [by rewrite <- app_assoc|by destruct f].
  - apply lookup_ge_None in Hf. destruct (Z.ltb_spec (c - 255) (Z.of_nat (S (length fs)))); [|done].
    unfold k in Hf. lia.
Qed.

(** The state of the decompressor after the factors [fs]. *)
Definition decompressing (d : decompressor) (fs : list (list Z)) (size I R : Z) : Prop :=
  dDecompressed d = concat fs /\ Forall (fun f => f <> []) fs /\
  offsets_of (dOffsets d) fs (length fs) /\ zlen (concat fs) <= size /\
  reading (dCompressed d) (dPendingInput d) (dPendingBits d) I R.

Lemma offsets_of_snoc offsets fs :
  zlen (concat fs) < 2 ^ 32 -> offsets_of offsets fs (length fs) ->
  offsets_of (offsets ++ [u32 (zlen (concat fs))]) fs (S (length fs)).
Proof.
  intros Hlt [Hlen Ho]. split; [rewrite length_app; simpl; lia|]. intros k Hk.
  destruct (decide (k = length fs)) as [->|].
  - rewrite lookup_app_r, Hlen, Nat.sub_diag, take_ge by lia. simpl. f_equal.
    apply Z.mod_small. unfold zlen in *. lia.
  - rewrite lookup_app_l by lia. apply Ho. lia.
Qed.

Lemma offsets_of_grow offsets fs f n :
  (n <= S (length fs))%nat -> offsets_of offsets fs n -> offsets_of offsets (fs ++ [f]) n.
Proof.
  intros Hn [Hlen Ho]. split; [done|]. intros k Hk. rewrite take_app_le by lia. by apply Ho.
Qed.

(** The length of the next code. *)
Lemma codeLength_range i : 0 < i -> 0 <= Len64 (u32 i) <= 32 /\ Len64 (u32 i) <= Len64 i.
Proof.
  intros Hi. pose proof (Z.mod_pos_bound i (2 ^ 32) ltac:(lia)) as Hb. fold (u32 i) in Hb.
  assert (u32 i <= i) as Hle by (apply Z.mod_le; lia).
  pose proof (Len64_nonneg (u32 i) ltac:(lia)). destruct (Len64_spec i Hi) as [H0 H1]. split.
  - split; [done|]. apply Len64_le; lia.
  - apply Len64_le; lia.
Qed.

Lemma processCode_spec d fs size I R i :
  decompressing d fs size I R -> size < 2 ^ 32 -> 0 < i -> Len64 (u32 i) <= R -> 0 <= I ->
  match code_string fs (I mod 2 ^ Len64 (u32 i)) with
  | Some f =>
      if size <? zlen (concat (fs ++ [f])) then
        processCode d i size = Err (StatusError CodeInvalidArgument)
      else exists d', processCode d i size = Ok d' /\
        decompressing d' (fs ++ [f]) size (I / 2 ^ Len64 (u32 i)) (R - Len64 (u32 i))
  | None => processCode d i size = Err (StatusError CodeInvalidArgument)
  end.
Proof.
  intros (Hd&Hne&Ho&Hsize&Hread) Hs Hi HR HI. unfold processCode. cbv zeta.
  destruct (codeLength_range i Hi) as [Hw _].
  destruct (readCode_spec _ _ _ _ _ _ Hread Hw HR) as (comp&pi&pb&->&Hread'). cbn [mbind outcome_bind].
  rewrite Hd. apply offsets_of_snoc in Ho; [|lia].
  set (c := I mod 2 ^ Len64 (u32 i)).
  assert (0 <= c < 2 ^ 40) as Hc.
  { pose proof (Z.pow_le_mono_r 2 (Len64 (u32 i)) 32 ltac:(lia) ltac:(lia)).
    pose proof (Z.mod_pos_bound I (2 ^ Len64 (u32 i)) ltac:(lia)). unfold c. lia. }
  pose proof (expandCode_spec _ fs c Hne Ho Hc) as He.
  destruct (code_string fs c) as [f|]; [|by rewrite He]. destruct He as [-> Hf].
  cbn [mbind outcome_bind]. rewrite concat_app. simpl. rewrite app_nil_r.
  destruct (Z.ltb_spec size (zlen (concat fs ++ f))); [done|]. eexists. split; [done|].
  split; [simpl; by rewrite concat_app; simpl; rewrite app_nil_r|].
  split; [apply Forall_app; split; [done|by constructor]|].
  split; [rewrite length_app, Nat.add_1_r; apply offsets_of_grow; [lia|done]|].
  split; [rewrite concat_app; simpl; by rewrite app_nil_r|done].
Qed.

Lemma Z_div_nonneg I w : 0 <= I -> 0 <= I / 2 ^ w.
Proof. intros. destruct (decide (0 <= w)); [apply Z.div_pos; lia|rewrite Z.pow_neg_r, Z.div_0_r; lia]. Qed.

(** Any input is decompressed or rejected. *)
Lemma processCodes_safe n d fs size I R i :
  decompressing d fs size I R -> size < 2 ^ 32 -> 0 < i -> codeBits i n <= R -> 0 <= I ->
  processCodes n d i size = Err (StatusError CodeInvalidArgument) \/
  exists d' fs' I' R', processCodes n d i size = Ok d' /\ decompressing d' fs' size I' R'.
Proof.
  revert d fs I R i. induction n as [|n IH]; intros d fs I R i Hd Hs Hi HR HI.
  { right. by exists d, fs, I, R. }
  cbn [codeBits] in HR. destruct (codeLength_range i Hi) as [Hw Hw'].
  pose proof (codeBits_nonneg (i + 1) n ltac:(lia)).
  pose proof (processCode_spec d fs size I R i Hd Hs Hi ltac:(lia) HI) as H1. cbn [processCodes].
  destruct (code_string fs _) as [f|]; [|left; by rewrite H1].
  destruct (size <? _); [left; by rewrite H1|]. destruct H1 as (d1&->&Hd1). cbn [mbind outcome_bind].
  eapply IH; [exact Hd1|done|lia|lia|by apply Z_div_nonneg].
Qed.

(** Codes as they are decoded, from left to right. *)
Inductive decodes : list (list Z) -> list Z -> list (list Z) -> Prop :=
  | decodes_nil fs : decodes fs [] []
  | decodes_cons fs c cs f fs' :
      code_string fs c = Some f -> decodes (fs ++ [f]) cs fs' -> decodes fs (c :: cs) (f :: fs').

Lemma decodes_snoc fs cs fs' c f :
  decodes fs cs fs' -> code_string (fs ++ fs') c = Some f -> decodes fs (cs ++ [c]) (fs' ++ [f]).
Proof.
  induction 1 as [fs|fs c' cs f' fs' Hc' _ IH]; intros Hc; simpl.
  - rewrite app_nil_r in Hc. econstructor; [done|constructor].
  - econstructor; [done|]. apply IH. by rewrite <- app_assoc.
Qed.

Lemma factored_decodes fs cs : factored fs cs -> decodes [] cs fs.
Proof. induction 1; [constructor|]. by apply decodes_snoc. Qed.

Lemma processCodes_decodes cs d fs fs' size R i :
  decompressing d fs size (packed i cs) R -> decodes fs cs fs' ->
  zlen (concat (fs ++ fs')) <= size -> size < 2 ^ 32 ->
  0 < i -> i + zlen cs < 2 ^ 32 -> fits i cs -> codeBits i (length cs) <= R ->
  exists d', processCodes (length cs) d i size = Ok d' /\
    decompressing d' (fs ++ fs') size 0 (R - codeBits i (length cs)).
Proof.
  unfold zlen. intros Hd Hdec. revert d i R Hd. induction Hdec as [fs|fs c cs f fs' Hc Hdec IH];
    intros d i R Hd Hlen Hs Hi Hlt Hf HR.
  { exists d. simpl. by rewrite app_nil_r, Z.sub_0_r. }
  cbn [length codeBits] in HR, Hlt. cbn [fits] in Hf. destruct Hf as [Hc0 Hf].
  pose proof (codeBits_nonneg (i + 1) (length cs) ltac:(lia)).
  pose proof (packed_bound (i + 1) cs ltac:(lia) Hf) as Hp. destruct (Len64_spec i Hi) as [Hl _].
  assert (u32 i = i) as Ei by (apply Z.mod_small; lia).
  cbn [packed] in Hd. cbn [length processCodes codeBits].
  pose proof (processCode_spec d fs size _ R i Hd Hs Hi) as H1. rewrite Ei in H1.
  specialize (H1 ltac:(lia) ltac:(nia)). rewrite (Z.mul_comm (2 ^ Len64 i)) in H1.
  rewrite Z_mod_plus_full, Z.div_add, Z.mod_small, Z.div_small in H1 by lia. rewrite Hc in H1.
  rewrite <- app_assoc in IH. simpl in IH.
  destruct (Z.ltb_spec size (zlen (concat (fs ++ [f])))) as [Hbig|_].
  { exfalso. unfold zlen in Hbig. replace (fs ++ f :: fs') with ((fs ++ [f]) ++ fs') in Hlen
      by (by rewrite <- app_assoc). rewrite (concat_app (fs ++ [f])), length_app in Hlen. lia. }
  destruct H1 as (d1&->&Hd1). cbn [mbind outcome_bind]. rewrite Z.add_0_l in Hd1.
  destruct (IH d1 (i + 1) _ Hd1) as (d2&->&Hd2); [done|done|lia|lia|done|lia|].
  exists d2. split; [done|].
  by replace (R - (Len64 i + codeBits (i + 1) (length cs)))
    with (R - Len64 i - codeBits (i + 1) (length cs)) by lia.
Qed.

(** *** The number of codes *)

Lemma codeBits_same a m : 0 < a -> a + Z.of_nat m <= 2 ^ Len64 a -> codeBits a m = Len64 a * Z.of_nat m.
Proof.
  intros Ha. induction m as [|m IH]; intros Hm; [simpl; lia|].
  rewrite <- Nat.add_1_r, codeBits_add, IH by lia. simpl.
  rewrite (Len64_unique (a + Z.of_nat m) (Len64 a)); [lia| |]; destruct (Len64_spec a Ha); lia.
Qed.

Lemma countCodes_spec fuel R a :
  0 < a -> 0 <= R < Z.of_nat fuel ->
  exists n, countCodes fuel R a = Ok (R - codeBits a n, a + Z.of_nat n) /\
    0 <= R - codeBits a n < Len64 (a + Z.of_nat n).
Proof.
  revert R a. induction fuel as [|fuel IH]; intros R a Ha HR; [lia|]. cbn [countCodes]. cbv zeta.
  destruct (Len64_spec a Ha) as [Hl0 Hl]. rewrite Z.shiftl_mul_pow2, Z.mul_1_l by lia.
  destruct (Z.ltb_spec R (Len64 a * (2 ^ Len64 a - a))) as [Hlt|Hge].
  - assert (0 <= R / Len64 a < 2 ^ Len64 a - a) as Hq.
    { split; [apply Z.div_pos; lia|]. by apply Z.div_lt_upper_bound. }
    exists (Z.to_nat (R / Len64 a)). rewrite codeBits_same by lia. rewrite Z2Nat.id by lia.
    split; [do 2 f_equal; ring|].
    rewrite (Len64_unique (a + R / Len64 a) (Len64 a)) by lia.
    pose proof (Z.div_mod R (Len64 a) ltac:(lia)). pose proof (Z.mod_pos_bound R (Len64 a) ltac:(lia)). lia.
  - destruct (IH (R - Len64 a * (2 ^ Len64 a - a)) (2 ^ Len64 a)) as (n&->&Hn); [lia|nia|].
    exists (Z.to_nat (2 ^ Len64 a - a) + n)%nat.
    rewrite codeBits_add, (codeBits_same a (Z.to_nat (2 ^ Len64 a - a))) by lia. rewrite Nat2Z.inj_add, !Z2Nat.id by lia.
    replace (a + (2 ^ Len64 a - a)) with (2 ^ Len64 a) by lia.
    replace (a + (2 ^ Len64 a - a + Z.of_nat n)) with (2 ^ Len64 a + Z.of_nat n) by lia.
    split; [do 2 f_equal; ring|lia].
Qed.

Lemma codeBits_mono a n m : 0 < a -> (n <= m)%nat -> codeBits a n <= codeBits a m.
Proof.
  intros Ha H. replace m with (n + (m - n))%nat by lia. rewrite codeBits_add.
  pose proof (codeBits_nonneg (a + Z.of_nat n) (m - n) ltac:(lia)). lia.
Qed.

Lemma Len64_255 i : 255 <= i -> 8 <= Len64 i.
Proof.
  intros Hi. destruct (Len64_spec i) as [H0 H1]; [lia|]. destruct (decide (8 <= Len64 i)); [done|].
  pose proof (Z.pow_le_mono_r 2 (Len64 i) 7 ltac:(lia) ltac:(lia)). lia.
Qed.

(** The number of codes is known from the number of bytes. *)
Lemma countCodes_exact n len :
  len = (codeBits 255 n + 7) / 8 ->
  exists r, countCodes (S (Z.to_nat (len * 8))) (len * 8) initialHighestCode = Ok (r, 255 + Z.of_nat n) /\
    0 <= r < 8.
Proof.
  intros ->. pose proof (codeBits_nonneg 255 n ltac:(lia)) as Hn.
  set (R := (codeBits 255 n + 7) / 8 * 8). assert (codeBits 255 n <= R < codeBits 255 n + 8) as HR
    by (unfold R; arith).
  destruct (countCodes_spec (S (Z.to_nat R)) R 255) as (m&E&Hm); [lia|lia|].
  assert (m = n) as ->; [|exists (R - codeBits 255 n); split; [exact E|lia]].
  destruct (decide (m < n)%nat) as [Hlt|].
  - pose proof (codeBits_mono 255 (S m) n ltac:(lia) ltac:(lia)) as Hmono.
    rewrite <- Nat.add_1_r, codeBits_add in Hmono. simpl in Hmono. lia.
  - destruct (decide (n < m)%nat) as [Hlt|]; [|lia].
    pose proof (codeBits_mono 255 (S n) m ltac:(lia) ltac:(lia)) as Hmono.
    rewrite <- Nat.add_1_r, codeBits_add in Hmono. simpl in Hmono.
    pose proof (Len64_255 (255 + Z.of_nat n) ltac:(lia)). lia.
Qed.

(** ** Properties *)

Lemma initial_decompressing body size :
  bytes_ok body -> 0 <= size ->
  decompressing (mkDecompressor body 0 0 [] []) [] size (le_uint body) (zlen body * 8).
Proof.
  intros Hok Hs. split; [done|]. split; [constructor|]. split; [split; [done|unfold zlen; simpl; lia]|].
  split; [done|]. split; [done|]. split; [simpl; lia|]. split; [simpl; lia|]. left. simpl. lia.
Qed.

Lemma decompressing_done d fs size R : decompressing d fs size 0 R -> dPendingInput d = 0.
Proof.
  intros (_&_&_&_&Hok&Hpb&Hpi&[[E _]|[E _]]); [|done].
  pose proof (le_uint_bound _ Hok). nia.
Qed.

Lemma Decompress_Compress u c max :
  bytes_ok u -> zlen u <= max < 2 ^ 32 -> Compress u = Ok c -> Decompress c max = Ok u.
Proof.
  intros Hok Hmax Hc. destruct u as [|b l]; [by injection Hc as <-|].
  destruct (Compress_spec b l Hok) as [(fs&cs&body&E&Hfac&Hu&Hfits&_&Hbody&Hle&Hlen&Hcs)|[E _]];
    rewrite E in Hc; [injection Hc as <-|done].
  assert (0 < zlen (b :: l)) as Hpos by (unfold zlen; simpl; lia).
  assert (in_range Uint32 (zlen (b :: l))) as Hrange by (apply Z.mod_small; lia).
  destruct (AppendForward_ok (zlen (b :: l))) as [_ Hhdr]; [unfold encodable; lia|].
  unfold Decompress. destruct (Z.eqb_spec (zlen (AppendForward [] (zlen (b :: l)) ++ body)) 0) as [E0|_].
  { unfold zlen in E0, Hhdr. rewrite length_app in E0. lia. }
  rewrite ConsumeForward_AppendForward by done. cbn [mbind outcome_bind].
  destruct (Z.ltb_spec (zlen (AppendForward [] (zlen (b :: l)))) 0); [lia|].
  rewrite slice_from_app by done. cbn [mbind outcome_bind].
  destruct (Z.eqb_spec (zlen (b :: l)) 0); [lia|]. destruct (Z.ltb_spec max (zlen (b :: l))); [lia|].
  destruct (countCodes_exact (length cs) (zlen body) Hlen) as (r&->&Hr). cbn [mbind outcome_bind].
  rewrite (Z.div_small r 8) by lia. cbn [Z.ltb Z.compare].
  replace (Z.to_nat (255 + Z.of_nat (length cs) - initialHighestCode)) with (length cs)
    by (unfold initialHighestCode; lia). change initialHighestCode with 255.
  pose proof (initial_decompressing body (zlen (b :: l)) Hbody ltac:(lia)) as Hd0. rewrite Hle in Hd0.
  destruct (processCodes_decodes cs _ [] fs _ _ 255 Hd0 (factored_decodes _ _ Hfac))
    as (d&->&Hd); [by rewrite app_nil_l, Hu|lia|lia|lia|done| |].
  { rewrite Hlen. pose proof (codeBits_nonneg 255 (length cs) ltac:(lia)). arith. }
  cbn [mbind outcome_bind]. rewrite (decompressing_done _ _ _ _ Hd). cbn [Z.eqb negb].
  destruct Hd as (->&_). by rewrite app_nil_l, Hu, Z.eqb_refl.
Qed.

(** C32: round trip.  Decompressing what [Compress] or [MaybeCompress] returned
    gives the original data, for every maximum size that the data does not
    exceed. *)
Theorem Decompress_MaybeCompress u c max :
  bytes_ok u -> zlen u <= max < 2 ^ 32 -> Compress u = Ok c \/ MaybeCompress u = Ok c ->
  Decompress c max = Ok u.
Proof.
  intros Hok Hmax [Hc|Hc]; [by apply Decompress_Compress|]. unfold MaybeCompress in Hc.
  destruct (Compress u) as [c'| |] eqn:E; [|done..]. cbn [mbind outcome_bind] in Hc.
  destruct (zlen u <? zlen c'); injection Hc as <-; [|by apply Decompress_Compress].
  unfold Decompress. destruct (Z.eqb_spec (zlen (0x80 :: u)) 0) as [E0|_]; [unfold zlen in E0; simpl in E0; lia|].
  change (0x80 :: u) with (AppendForward [] 0 ++ u). rewrite ConsumeForward_AppendForward by done.
  cbn [mbind outcome_bind]. rewrite slice_from_app by done. simpl.
  destruct (Z.ltb_spec max (zlen u)); [lia|done].
Qed.

Definition lzw_example : list Z := [97; 98; 97; 97; 98; 97; 97; 98; 97; 255; 97; 98; 97; 97; 98; 97; 97; 98].

Lemma Decompress_MaybeCompress_witness :
  exists c, Compress lzw_example = Ok c /\ Decompress c 18 = Ok lzw_example /\
    MaybeCompress lzw_example = Ok c.
Proof.
  assert (exists c, Compress lzw_example = Ok c) as [c Hc] by (eexists; vm_compute; reflexivity).
  exists c. split; [done|]. split.
  - apply (Decompress_MaybeCompress lzw_example c 18); [literal_bytes|split; vm_compute; congruence|by left].
  - assert (MaybeCompress lzw_example = Compress lzw_example) as -> by (vm_compute; reflexivity). done.
Defined.

(** C33: compression terminates.  The probing loops of the hash table always
    find an empty slot, no access is out of range, and the only failure is the
    documented one: data that needs more than 2^28 codes, which is at least
    2^28 - 255 bytes long.  [MaybeCompress] adds at most one byte. *)
Theorem Compress_total u :
  bytes_ok u ->
  ((exists c, Compress u = Ok c /\ exists c', MaybeCompress u = Ok c' /\ zlen c' <= zlen u + 1) \/
   (Compress u = Err (StatusError CodeInvalidArgument) /\
    MaybeCompress u = Err (StatusError CodeInvalidArgument) /\ 2 ^ 28 - 255 < zlen u)).
Proof.
  intros Hok. unfold MaybeCompress. destruct u as [|b l].
  { left. exists []. split; [done|]. exists []. split; [done|unfold zlen; simpl; lia]. }
  destruct (Compress_spec b l Hok) as [(fs&cs&body&->&_)|[-> Hl]].
  - left. eexists. split; [done|]. cbn [mbind outcome_bind].
    match goal with |- context [?a <? ?b] => destruct (Z.ltb_spec a b) as [Hlt|Hle] end;
      (eexists; split; [done|]); unfold zlen in *; simpl in *; lia.
  - right. split; [done|]. split; [done|]. unfold zlen in *. simpl. lia.
Qed.

Lemma Compress_total_witness :
  (exists c, Compress lzw_example = Ok c /\ exists c', MaybeCompress lzw_example = Ok c' /\
     zlen c' <= zlen lzw_example + 1) \/
  (Compress lzw_example = Err (StatusError CodeInvalidArgument) /\
    MaybeCompress lzw_example = Err (StatusError CodeInvalidArgument) /\ 2 ^ 28 - 255 < zlen lzw_example).
Proof. apply Compress_total. literal_bytes. Defined.

(** C34: decompression is safe on every input: it never panics, whatever the
    codes and offsets in the data are, rejects bad data with InvalidArgument,
    and never returns more than the permitted number of bytes. *)
Theorem Decompress_safe c max :
  bytes_ok c -> 0 <= max < 2 ^ 32 ->
  (exists u, Decompress c max = Ok u /\ zlen u <= max) \/
  Decompress c max = Err (StatusError CodeInvalidArgument).
Proof.
  intros Hok Hmax. unfold Decompress. destruct (zlen c =? 0); [left; exists []; split; [done|unfold zlen; simpl; lia]|].
  destruct (ConsumeForward_total Uint32 c Hok) as (size&n&->&Hn). cbn [mbind outcome_bind].
  destruct (Z.ltb_spec n 0) as [_|Hn0]; [by right|]. destruct Hn as [?|[Hn Hsize]]; [lia|].
  rewrite slice_from_ok by done. cbn [mbind outcome_bind]. set (body := drop (Z.to_nat n) c).
  assert (bytes_ok body) as Hbody by (unfold body; auto with bonanza).
  destruct (Z.eqb_spec size 0).
  { destruct (Z.ltb_spec max (zlen body)); [by right|left; by exists body]. }
  destruct (Z.ltb_spec max size) as [_|Hle]; [by right|].
  assert (0 <= size < 2 ^ 32) as Hs.
  { rewrite <- Hsize. apply Z.mod_pos_bound. lia. }
  destruct (countCodes_spec (S (Z.to_nat (zlen body * 8))) (zlen body * 8) initialHighestCode) as (m&->&Hm);
    [done|unfold zlen; lia|]. cbn [mbind outcome_bind].
  destruct (0 <? _); [by right|].
  pose proof (initial_decompressing body size Hbody ltac:(lia)) as Hd0.
  replace (Z.to_nat (initialHighestCode + Z.of_nat m - initialHighestCode)) with m by lia.
  destruct (processCodes_safe m _ [] size _ _ initialHighestCode Hd0) as [->|(d&fs&I&R&->&Hd)];
    [lia|done|lia|by apply le_uint_bound|by right|]. cbn [mbind outcome_bind].
  destruct (negb _); [by right|]. destruct (negb _); [by right|]. left. eexists. split; [done|].
  destruct Hd as (->&_&_&Hsz&_). lia.
Qed.

Lemma Decompress_safe_witness :
  (exists u, Decompress [0x83; 97; 0xff; 0xff] 3 = Ok u /\ zlen u <= 3) \/
  Decompress [0x83; 97; 0xff; 0xff] 3 = Err (StatusError CodeInvalidArgument).
Proof. apply Decompress_safe; [literal_bytes|split; vm_compute; congruence]. Defined.
