(* ===== verification/Search.v ===== *)
(** * Multiple string search and replacement

    [pkg/search/multi_search_and_replacer.go]: an Aho-Corasick automaton whose
    goto function is one open addressing hash table.  [state], [needleIndex],
    [needleLength] and [f] are [uint32], the table's entries [uint64].  Every
    loop [for h, i := hash, 1; ; h, i = h+i, i+1] takes the table's length as
    fuel, the failure loops and the queue take the number of nodes; the
    theorems of [SearchProofs] show that it suffices.

    The loops that look for an empty slot or for a key that may be absent are
    written as those of [Compress] are; they share [lookupCode], [insertEntry]
    and [rehash] of [SimpleLzw], as [maximumStateBits] is
    [compressMaximumCodeBits]. *)

From S2P Require Import Prelude SimpleLzw.

Record gotoGraphNode := mkNode {
  needleIndex : Z;
  needleLength : Z;
  nodeF : Z;
}.

Definition zeroNode : gotoGraphNode := mkNode 0 0 0.

Record MultiSearchAndReplacer := mkSearcher {
  needles : list (list Z);
  gTable : list Z;
  gMask : Z;
  nodes : list gotoGraphNode;
}.

Definition maximumStateBits : Z := (64 - 8) / 2.

(** [uint64(state)<<8 | uint64(a)] *)
Definition gotoKey (state a : Z) : Z := Z.lor (shl_u64 state 8) a.

(** [uint32(g & (1<<maximumStateBits - 1))] *)
Definition gotoState (g : Z) : Z := u32 (Z.land g (Z.shiftl 1 maximumStateBits - 1)).

(** The probing loop with an arbitrary body, which ends it with a result. *)
Fixpoint probeLoop {R} (fuel : nat) (body : Z -> option R) (table : list Z) (mask h i : Z) : outcome R :=
  match fuel with
  | O => Panic
  | S fuel =>
      g ← index table (Z.land h mask);
      match body g with
      | Some r => Ok r
      | None => probeLoop fuel body table mask (add_u64 h i) (add_u64 i 1)
      end
  end.

(** ** Construction: the goto function *)

Record gotoGraph := mkGraph {
  ggTable : list Z;
  ggMask : Z;
  gSetByState : list (list Z);
  ggNodes : list gotoGraphNode;
}.

(** [WalkExistingStates]: the state reached, and how much of the needle led to it. *)
Fixpoint walkExistingStates (table : list Z) (mask : Z) (a : list Z) (state j : Z) : outcome (Z * Z) :=
  match a with
  | [] => Ok (state, j)
  | aj :: a =>
      let gStateAjKey := gotoKey state aj in
      found ← lookupCode (length table) table mask gStateAjKey (hashKey gStateAjKey) 1;
      match found with
      | None => Ok (state, j)
      | Some state => walkExistingStates table mask a (u32 state) (j + 1)
      end
  end.

(** [for newGSize < minimumGSize { newGSize *= 2 }] *)
Fixpoint doubleSize (fuel : nat) (newGSize minimumGSize : Z) : outcome Z :=
  match fuel with
  | O => Panic
  | S fuel => if newGSize <? minimumGSize then doubleSize fuel (newGSize * 2) minimumGSize else Ok newGSize
  end.

(** Making room for the edges of the new states. *)
Definition growGoto (table : list Z) (mask minimumGSize : Z) : outcome (list Z * Z) :=
  if zlen table <? minimumGSize then
    newGSize ← doubleSize 64 (zlen table) minimumGSize;
    let newGMask := u64 (newGSize - 1) in
    newGTable ← rehash table (replicate (Z.to_nat newGSize) 0) newGMask;
    Ok (newGTable, newGMask)
  else Ok (table, mask).

(** The body of the loop over the rest of the needle; [p] is its position. *)
Definition addState (g : gotoGraph) (needle state p ap : Z) : outcome (gotoGraph * Z) :=
  set ← index (gSetByState g) state;
  let gSets := <[Z.to_nat state := set ++ [ap]]> (gSetByState g) in
  let gStateApKey := gotoKey state ap in
  let newState := u32 (zlen (ggNodes g)) in
  if Z.shiftl 1 maximumStateBits <=? newState then Err PlainError else
  table ← insertEntry (length (ggTable g)) (ggTable g) (ggMask g)
    (Z.lor (shl_u64 gStateApKey maximumStateBits) newState) (hashKey gStateApKey) 1;
  Ok (mkGraph table (ggMask g) (gSets ++ [[]])
        (ggNodes g ++ [mkNode (u32 needle) (u32 (u32 p + 1)) 0]), newState).

Fixpoint addStates (g : gotoGraph) (needle state p : Z) (a : list Z) : outcome gotoGraph :=
  match a with
  | [] => Ok g
  | ap :: a =>
      '(g, state) ← addState g needle state p ap;
      addStates g needle state (p + 1) a
  end.

Definition addNeedle (needles : list (list Z)) (g : gotoGraph) (needle : Z) (a : list Z) : outcome gotoGraph :=
  if zlen a =? 0 then Err PlainError else
  '(state, j) ← walkExistingStates (ggTable g) (ggMask g) a 0 0;
  node ← index (ggNodes g) state;
  existing ← index needles (needleIndex node);
  if zlen existing =? j then Err PlainError else
  let newStates := zlen a - j in
  if newStates =? 0 then Err PlainError else
  '(table, mask) ← growGoto (ggTable g) (ggMask g) ((zlen (ggNodes g) + newStates) * 4);
  rest ← slice_from a j;
  addStates (mkGraph table mask (gSetByState g) (ggNodes g)) needle state j rest.

(** [for needleIndex, a := range needles] *)
Fixpoint addNeedles (needles : list (list Z)) (g : gotoGraph) (needle : Z) (l : list (list Z)) : outcome gotoGraph :=
  match l with
  | [] => Ok g
  | a :: l => g ← addNeedle needles g needle a; addNeedles needles g (needle + 1) l
  end.

(** ** Construction: the failure function *)

Section failure.
Variables (needles : list (list Z)) (g : gotoGraph).

(** The states at depth one. *)
Fixpoint initialQueue (symbols : list Z) : outcome (list Z) :=
  match symbols with
  | [] => Ok []
  | a :: symbols =>
      s ← probeLoop (length (ggTable g))
            (fun g0A => if Z.shiftr g0A maximumStateBits =? a then Some (gotoState g0A) else None)
            (ggTable g) (ggMask g) a 1;
      queue ← initialQueue symbols;
      Ok (s :: queue)
  end.

(** The loop over the states on which a symbol is tried: the new failure state. *)
Fixpoint failLoop (fuel : nat) (nodes : list gotoGraphNode) (state a : Z) : outcome Z :=
  match fuel with
  | O => Panic
  | S fuel =>
      let gStateAKey := gotoKey state a in
      found ← probeLoop (length (ggTable g))
        (fun gStateA =>
           if (Z.shiftr gStateA maximumStateBits =? gStateAKey) || ((gStateA =? 0) && (state =? 0))
           then Some (Some (gotoState gStateA))
           else if gStateA =? 0 then Some None else None)
        (ggTable g) (ggMask g) (hashKey gStateAKey) 1;
      match found with
      | Some f => Ok f
      | None => node ← index nodes state; failLoop fuel nodes (nodeF node) a
      end
  end.

(** The body of [ProcessSymbol]: the nodes and the queue. *)
Definition processSymbol (nodes : list gotoGraphNode) (queue : list Z) (r a : Z)
    : outcome (list gotoGraphNode * list Z) :=
  let gRAKey := gotoKey r a in
  found ← probeLoop (length (ggTable g))
    (fun gRA =>
       if gRA =? 0 then Some None
       else if Z.shiftr gRA maximumStateBits =? gRAKey then Some (Some (gotoState gRA)) else None)
    (ggTable g) (ggMask g) (hashKey gRAKey) 1;
  match found with
  | None => Ok (nodes, queue)
  | Some s =>
      nodeR ← index nodes r;
      f ← failLoop (length nodes) nodes (nodeF nodeR) a;
      nodeS ← index nodes s;
      let nodes := <[Z.to_nat s := mkNode (needleIndex nodeS) (needleLength nodeS) f]> nodes in
      node ← index nodes f;
      needle ← index needles (needleIndex node);
      if (zlen needle =? needleLength node) && negb (needleIndex node =? needleIndex nodeS)
      then Err PlainError
      else Ok (nodes, queue ++ [s])
  end.

Fixpoint processSymbols (nodes : list gotoGraphNode) (queue : list Z) (r : Z) (symbols : list Z)
    : outcome (list gotoGraphNode * list Z) :=
  match symbols with
  | [] => Ok (nodes, queue)
  | a :: symbols =>
      '(nodes, queue) ← processSymbol nodes queue r a;
      processSymbols nodes queue r symbols
  end.

(** [for len(queue) > 0] *)
Fixpoint processQueue (fuel : nat) (nodes : list gotoGraphNode) (queue : list Z)
    : outcome (list gotoGraphNode) :=
  match queue with
  | [] => Ok nodes
  | r :: queue =>
      match fuel with
      | O => Panic
      | S fuel =>
          symbols ← index (gSetByState g) r;
          '(nodes, queue) ← processSymbols nodes queue r symbols;
          processQueue fuel nodes queue
      end
  end.
End failure.

Definition NewMultiSearchAndReplacer (needles : list (list Z)) : outcome MultiSearchAndReplacer :=
  g ← addNeedles needles (mkGraph (replicate (Z.to_nat 0x100) 0) 0xff [[]] [zeroNode]) 0 needles;
  symbols ← index (gSetByState g) 0;
  queue ← initialQueue g symbols;
  nodes ← processQueue needles g (length (ggNodes g)) (ggNodes g) queue;
  Ok (mkSearcher needles (ggTable g) (ggMask g) nodes).

(** ** Search *)

(** [io.Writer], of which only the error is used.  It does not panic. *)
Class Writer (W : Type) := { Write : W -> list Z -> W * option error }.

(** [bytes.Buffer] *)
#[global] Instance buffer_Writer : Writer (list Z) := {| Write w data := (w ++ data, None) |}.

Section search.
Context {W : Type} `{!Writer W}.
Variable s : MultiSearchAndReplacer.
Variable replacements : list (list Z).

(** The writer's state with the result of the rest. *)
Definition afterWrite {R} (w : W) (data : list Z) (k : W -> W * outcome R) : W * outcome R :=
  let '(w, err) := Write w data in
  match err with
  | Some e => (w, Err e)
  | None => k w
  end.

(** The loop over the states on which a byte is tried: the next state. *)
Fixpoint searchByte (fuel : nat) (w : W) (state a : Z) : W * outcome Z :=
  match fuel with
  | O => (w, Panic)
  | S fuel =>
      let gStateAKey := gotoKey state a in
      match probeLoop (length (gTable s))
              (fun gStateA =>
                 if Z.shiftr gStateA maximumStateBits =? gStateAKey then Some (Some (gotoState gStateA))
                 else if gStateA =? 0 then Some None else None)
              (gTable s) (gMask s) (hashKey gStateAKey) 1 with
      | Ok (Some state) =>
          match (node ← index (nodes s) state;
                 needle ← index (needles s) (needleIndex node);
                 Ok (node, needle)) with
          | Ok (node, needle) =>
              if zlen needle =? needleLength node then
                match index replacements (needleIndex node) with
                | Ok replacement => afterWrite w replacement (fun w => (w, Ok 0))
                | _ => (w, Panic)
                end
              else (w, Ok state)
          | _ => (w, Panic)
          end
      | Ok None =>
          if state =? 0 then afterWrite w [a] (fun w => (w, Ok state))
          else
            match (oldNode ← index (nodes s) state;
                   newNode ← index (nodes s) (nodeF oldNode);
                   needle ← index (needles s) (needleIndex oldNode);
                   restored ← slice needle 0 (u32 (needleLength oldNode - needleLength newNode));
                   Ok (nodeF oldNode, restored)) with
            | Ok (state, restored) => afterWrite w restored (fun w => searchByte fuel w state a)
            | _ => (w, Panic)
            end
      | _ => (w, Panic)
      end
  end.

(** The part of the needle that was matched when the input ends. *)
Definition flushMatch (w : W) (state : Z) : W * outcome unit :=
  if state =? 0 then (w, Ok tt)
  else
    match (node ← index (nodes s) state;
           needle ← index (needles s) (needleIndex node);
           slice needle 0 (needleLength node)) with
    | Ok partial => afterWrite w partial (fun w => (w, Ok tt))
    | _ => (w, Panic)
    end.

(** [ProcessCharacter]: [src] is what the reader has left, [srcErr] the error
    that it returns at its end. *)
Fixpoint searchBytes (w : W) (state : Z) (src : list Z) (srcErr : error) : W * outcome unit :=
  match src with
  | [] => if decide (srcErr = EOF) then flushMatch w state else (w, Err srcErr)
  | a :: src =>
      match searchByte (S (length (nodes s))) w state a with
      | (w, Ok state) => searchBytes w state src srcErr
      | (w, Err e) => (w, Err e)
      | (w, Panic) => (w, Panic)
      end
  end.

Definition SearchAndReplace (dst : W) (src : list Z) (srcErr : error) : W * outcome unit :=
  searchBytes dst 0 src srcErr.
End search.
