(* ===== verification/SearchTrie.v ===== *)
(** * The goto function of the search automaton

    The states of the automaton are the prefixes of the needles.  [paths] lists
    the prefix of every state.  The hash table, the nodes and the sets of
    symbols that the constructor builds are those of the trie, and the
    constructor rejects exactly the needles that are empty or where one is a
    prefix of another. *)

From S2P Require Import Prelude SimpleLzw HashTable Search.

(** ** Entries of the table *)

Definition edge_entry (i a j : Z) : Z := (i * 256 + a) * 2 ^ 28 + j.

Lemma gotoKey_value i a : 0 <= i < 2 ^ 28 -> 0 <= a < 256 -> gotoKey i a = i * 256 + a.
Proof.
  intros Hi Ha. unfold gotoKey, shl_u64, u64. rewrite Z.shiftl_mul_pow2 by lia.
  rewrite Z.mod_small by (literal_pow; lia). apply (lor_disjoint i a 8); [lia|]. literal_pow. lia.
Qed.

Section entry.
Variables i a j : Z.
Hypothesis Hi : 0 <= i < 2 ^ 28.
Hypothesis Ha : 0 <= a < 256.
Hypothesis Hj : 0 < j < 2 ^ 28.

Lemma edge_entry_built :
  Z.lor (shl_u64 (gotoKey i a) maximumStateBits) j = edge_entry i a j.
Proof using Hi Ha Hj.
  rewrite gotoKey_value by done. unfold shl_u64, u64, edge_entry.
  change maximumStateBits with 28. rewrite Z.shiftl_mul_pow2 by lia.
  rewrite Z.mod_small by (literal_pow; lia). apply (lor_disjoint _ j 28); lia.
Qed.

Lemma edge_entry_key : Z.shiftr (edge_entry i a j) compressMaximumCodeBits = gotoKey i a.
Proof using Hi Ha Hj.
  rewrite gotoKey_value by done. change compressMaximumCodeBits with 28.
  rewrite Z.shiftr_div_pow2 by lia. unfold edge_entry. rewrite Z.div_add_l by lia.
  rewrite Z.div_small by lia. lia.
Qed.

Lemma edge_entry_state : gotoState (edge_entry i a j) = j.
Proof using Hi Ha Hj.
  unfold gotoState, u32. change (Z.shiftl 1 maximumStateBits - 1) with (2 ^ 28 - 1).
  rewrite (land_mask 28) by lia. unfold edge_entry.
  rewrite Z.add_comm, Z_mod_plus_full, (Z.mod_small j) by lia. apply Z.mod_small. literal_pow. lia.
Qed.

Lemma edge_entry_range : edge_entry i a j <> 0 /\ is_u64 (edge_entry i a j).
Proof using Hi Ha Hj. unfold edge_entry, is_u64. literal_pow. lia. Qed.
End entry.

(** ** Where probing ends *)

Lemma lookupCode_probeLoop fuel table mask key h i :
  lookupCode fuel table mask key h i =
  probeLoop fuel (fun e => if e =? 0 then Some None
                           else if Z.shiftr e compressMaximumCodeBits =? key
                                then Some (Some (Z.land e (Z.shiftl 1 compressMaximumCodeBits - 1)))
                                else None) table mask h i.
Proof.
  revert h i. induction fuel as [|fuel IH]; intros h i; [done|]. cbn [lookupCode probeLoop].
  destruct (index table _) as [e| |]; [|done|done]. cbn [mbind outcome_bind].
  destruct (e =? 0); [done|]. destruct (_ =? key); [done|]. apply IH.
Qed.

(** The body passes over the entries of other keys. *)
Definition skips {R} (body : Z -> option R) (key : Z) : Prop :=
  forall e, e <> 0 -> Z.shiftr e compressMaximumCodeBits <> key -> body e = None.

Lemma probeLoop_from {R} (body : Z -> option R) table mask k h key e r n fuel m :
  table_ok table mask k -> skips body key -> body e = Some r ->
  table !! Z.to_nat (probe k h n) = Some e ->
  (forall m, (m < n)%nat -> exists e', table !! Z.to_nat (probe k h m) = Some e' /\
     e' <> 0 /\ Z.shiftr e' compressMaximumCodeBits <> key) ->
  (m <= n)%nat -> (n < m + fuel)%nat -> (m + fuel <= length table)%nat ->
  probeLoop fuel body table mask (u64 (h + triangle m)) (Z.of_nat (S m)) = Ok r.
Proof.
  intros Ht Hs Hr He Hpre. revert m. induction fuel as [|fuel IH]; intros m Hm Hn Hl; [lia|].
  cbn [probeLoop]. destruct (probe_index table mask k h m Ht) as (x&Hx&->&_). cbn [mbind outcome_bind].
  destruct (decide (m = n)) as [->|Hne].
  - rewrite He in Hx. injection Hx as <-. by rewrite Hr.
  - destruct (Hpre m ltac:(lia)) as (e'&He'&Hnz&Hkey). rewrite He' in Hx. injection Hx as <-.
    rewrite (Hs e') by done. rewrite probe_next, attempt_next; [apply IH; lia|].
    destruct Ht as (Hk&Hl'&_). unfold zlen in Hl'.
    pose proof (Z.pow_le_mono_r 2 k 32 ltac:(lia) ltac:(lia)). lia.
Qed.

(** The first slot at which looking for a key can end. *)
Lemma first_stop (table : list Z) (k h key : Z) (b : nat) :
  (exists n, (n < b)%nat /\ table !! Z.to_nat (probe k h n) = Some 0) ->
  (forall n, exists e, table !! Z.to_nat (probe k h n) = Some e) ->
  exists n e, (n < b)%nat /\ table !! Z.to_nat (probe k h n) = Some e /\
    (e = 0 \/ Z.shiftr e compressMaximumCodeBits = key) /\
    forall m, (m < n)%nat -> exists e', table !! Z.to_nat (probe k h m) = Some e' /\
      e' <> 0 /\ Z.shiftr e' compressMaximumCodeBits <> key.
Proof.
  intros (n&Hn&Hz) Hall. revert h Hz Hall Hn.
  assert (forall d c h, (c + d)%nat = n -> table !! Z.to_nat (probe k h n) = Some 0 ->
    (forall n, exists e, table !! Z.to_nat (probe k h n) = Some e) ->
    (forall m, (m < c)%nat -> exists e', table !! Z.to_nat (probe k h m) = Some e' /\
      e' <> 0 /\ Z.shiftr e' compressMaximumCodeBits <> key) ->
    exists n' e, (n' <= n)%nat /\ table !! Z.to_nat (probe k h n') = Some e /\
      (e = 0 \/ Z.shiftr e compressMaximumCodeBits = key) /\
      forall m, (m < n')%nat -> exists e', table !! Z.to_nat (probe k h m) = Some e' /\
        e' <> 0 /\ Z.shiftr e' compressMaximumCodeBits <> key) as H.
  { induction d as [|d IH]; intros c h Hc Hz Hall Hpre.
    - replace c with n in * by lia. exists n, 0. split_and!; [lia|done|by left|done].
    - destruct (Hall c) as [e He]. destruct (decide (e = 0)) as [->|Hne].
      { exists c, 0. split_and!; [lia|done|by left|done]. }
      destruct (decide (Z.shiftr e compressMaximumCodeBits = key)) as [Hk|Hk].
      { exists c, e. split_and!; [lia|done|by right|done]. }
      apply (IH (S c)); [lia|done|done|]. intros m Hm. destruct (decide (m = c)) as [->|]; [by exists e|].
      apply Hpre. lia. }
  intros h Hz Hall Hn. destruct (H n 0%nat h eq_refl Hz Hall) as (n'&e&?&?&?&?); [intros; lia|].
  exists n', e. split_and!; [lia|done..].
Qed.

(** Looking for a key in a table: whatever the body, probing ends at the entry
    of the key, and at an empty slot when there is none. *)
Lemma probe_key table mask k entries key :
  holds table mask k entries -> (length entries < length table)%nat ->
  0 <= hashKey key < 2 ^ 64 ->
  exists e, ((e ∈ entries /\ Z.shiftr e compressMaximumCodeBits = key) \/
             (e = 0 /\ forall e', e' ∈ entries -> Z.shiftr e' compressMaximumCodeBits <> key)) /\
    forall R (body : Z -> option R) r, skips body key -> body e = Some r ->
      probeLoop (length table) body table mask (hashKey key) 1 = Ok r.
Proof.
  intros H Hf Hh. pose proof H as [Ht Hu Hin Hout]. set (h := hashKey key) in *.
  destruct (free_attempt table mask k h Ht) as (n0&Hn0&Hz0); [lia|].
  destruct (first_stop table k h key (length table)) as (n&e&Hn&He&Hstop&Hpre); [by exists n0| |].
  { intros n. destruct (probe_index table mask k h n Ht) as (x&Hx&_). by exists x. }
  exists e. split.
  - destruct (decide (e = 0)) as [->|Hne].
    + right. split; [done|]. intros e' He' Hkey. destruct (Hin e' He') as (Hnz&_&n'&Hn'&Hl'&Hp').
      rewrite Hkey in Hl', Hp'. fold h in Hl', Hp'.
      destruct (lt_eq_lt_dec n n') as [[Hlt| ->]|Hlt].
      * by apply (Hp' n Hlt).
      * congruence.
      * destruct (Hpre n' Hlt) as (x&Hx&_&Hxk). congruence.
    + left. destruct Hstop as [?|Hkey]; [done|]. split; [|done]. apply Hout; [|done].
      by eapply list_elem_of_lookup_2.
  - intros R body r Hs Hr. rewrite <- (start_probe h) at 1 by done.
    apply (probeLoop_from body table mask k h key e r n (length table) 0); try done; lia.
Qed.

(** ** Tries *)

Record trie (paths : list (list Z)) : Prop := {
  trie_root : paths !! 0%nat = Some [];
  trie_nodup : NoDup paths;
  trie_bytes : Forall bytes_ok paths;
  trie_prefix p a : p ++ [a] ∈ paths -> p ∈ paths;
  trie_size : zlen paths <= 2 ^ 28;
}.

(** The table of a trie, with room for [room] more states. *)
Definition trie_table (table : list Z) (mask room : Z) (paths : list (list Z)) : Prop :=
  exists k entries, holds table mask k entries /\ S (length entries) = length paths /\
    4 * (zlen paths + room) <= zlen table /\
    forall e, e ∈ entries <-> exists i p a j, paths !! i = Some p /\ paths !! j = Some (p ++ [a]) /\
      e = edge_entry (Z.of_nat i) a (Z.of_nat j).

(** What the loops over the table rely on: probing for the edge of a state
    ends at the entry of that edge, or at an empty slot if there is no edge. *)
Definition goto_ok (table : list Z) (mask : Z) (paths : list (list Z)) : Prop :=
  forall i p a, paths !! i = Some p -> 0 <= a < 256 ->
  exists e, ((exists j, paths !! j = Some (p ++ [a]) /\ e <> 0 /\ gotoState e = Z.of_nat j /\
                Z.shiftr e maximumStateBits = gotoKey (Z.of_nat i) a) \/
             ((p ++ [a] ∉ paths) /\ e = 0)) /\
    forall R (body : Z -> option R) r, skips body (gotoKey (Z.of_nat i) a) -> body e = Some r ->
      probeLoop (length table) body table mask (hashKey (gotoKey (Z.of_nat i) a)) 1 = Ok r.

Section trie.
Variable paths : list (list Z).
Hypothesis Htrie : trie paths.

Lemma trie_index i p : paths !! i = Some p -> 0 <= Z.of_nat i < 2 ^ 28.
Proof using Htrie.
  intros Hp. apply lookup_lt_Some in Hp. pose proof (trie_size _ Htrie). unfold zlen in *. lia.
Qed.

Lemma trie_inj i j p : paths !! i = Some p -> paths !! j = Some p -> i = j.
Proof using Htrie. intros. eapply NoDup_lookup; [apply Htrie|done..]. Qed.

Lemma trie_nonroot i p : paths !! i = Some p -> p <> [] -> (0 < i)%nat.
Proof using Htrie. intros Hp Hne. destruct i; [|lia]. rewrite (trie_root _ Htrie) in Hp. congruence. Qed.

Lemma trie_child j p a : paths !! j = Some (p ++ [a]) -> 0 < Z.of_nat j < 2 ^ 28 /\ 0 <= a < 256.
Proof using Htrie.
  intros Hj. split.
  - pose proof (trie_index _ _ Hj). apply trie_nonroot in Hj; [lia|]. by intros [??]%app_nil.
  - pose proof (Forall_lookup_1 _ _ _ _ (trie_bytes _ Htrie) Hj) as Hb.
    apply bytes_ok_app in Hb as [_ Hb]. inversion Hb as [|?? Hb' _]; subst. unfold is_u8 in Hb'. lia.
Qed.

Lemma trie_prefixes p q : p ++ q ∈ paths -> p ∈ paths.
Proof using Htrie.
  revert p. induction q as [|a q IH]; intros p Hp; [by rewrite app_nil_r in Hp|].
  apply (trie_prefix _ Htrie p a), IH. by rewrite <- app_assoc.
Qed.

Lemma trie_depth p : p ∈ paths -> (length p < length paths)%nat.
Proof using Htrie.
  intros Hp. set (l := map (fun n => take n p) (seq 0 (S (length p)))).
  assert (length l = S (length p)) as Hl by (unfold l; by rewrite length_map, length_seq).
  enough (length l <= length paths)%nat by lia. apply submseteq_length, NoDup_submseteq.
  - apply NoDup_alt. intros i j x Hi Hj. unfold l in *. rewrite list_lookup_fmap in Hi, Hj.
    destruct (seq _ _ !! i) as [i'|] eqn:Ei; [|done]. destruct (seq _ _ !! j) as [j'|] eqn:Ej; [|done].
    apply lookup_seq in Ei as [-> Hi'], Ej as [-> Hj']. simpl in *. injection Hi as <-. injection Hj as E.
    apply (f_equal length) in E. rewrite !length_take in E. lia.
  - intros x Hx. unfold l in Hx. apply list_elem_of_fmap in Hx as (n&->&_).
    apply (trie_prefixes _ (drop n p)). by rewrite take_drop.
Qed.

Lemma gotoKey_hash i p a : paths !! i = Some p -> 0 <= a < 256 ->
  0 <= hashKey (gotoKey (Z.of_nat i) a) < 2 ^ 64.
Proof using Htrie.
  intros Hp Ha. pose proof (trie_index _ _ Hp). apply hashKey_bound. rewrite gotoKey_value by lia.
  literal_pow. lia.
Qed.

Lemma trie_table_goto table mask room :
  0 <= room -> trie_table table mask room paths -> goto_ok table mask paths.
Proof using Htrie.
  intros Hroom (k&entries&Hh&Hlen&Hcap&He) i p a Hp Ha.
  pose proof (trie_index _ _ Hp) as Hi.
  destruct (probe_key table mask k entries (gotoKey (Z.of_nat i) a) Hh) as (e&Hcase&Hloop).
  { unfold zlen in *. lia. }
  { by eapply gotoKey_hash. }
  exists e. split; [|exact Hloop]. destruct Hcase as [[Hin Hkey]|[-> Hnone]].
  - left. apply He in Hin as (i'&p'&a'&j&Hp'&Hj&->). destruct (trie_child _ _ _ Hj) as [Hjr Ha'].
    pose proof (trie_index _ _ Hp') as Hi'. rewrite edge_entry_key in Hkey by lia.
    pose proof Hkey as Hkey'. rewrite !gotoKey_value in Hkey' by lia.
    assert (Z.of_nat i' = Z.of_nat i /\ a' = a) as [Ei ->] by lia. apply Nat2Z.inj in Ei as ->.
    rewrite Hp in Hp'. injection Hp' as ->. exists j. split; [done|].
    split; [apply edge_entry_range; lia|]. split; [by apply edge_entry_state|].
    by apply edge_entry_key.
  - right. split; [|done]. intros Hin. apply list_elem_of_lookup in Hin as [j Hj].
    destruct (trie_child _ _ _ Hj) as [Hjr _]. apply (Hnone (edge_entry (Z.of_nat i) a (Z.of_nat j))).
    + apply He. by exists i, p, a, j.
    + by apply edge_entry_key.
Qed.

Lemma lookup_state table mask i p a :
  goto_ok table mask paths -> paths !! i = Some p -> 0 <= a < 256 ->
  (exists j s, paths !! j = Some (p ++ [a]) /\ u32 s = Z.of_nat j /\
     lookupCode (length table) table mask (gotoKey (Z.of_nat i) a)
       (hashKey (gotoKey (Z.of_nat i) a)) 1 = Ok (Some s)) \/
  ((p ++ [a] ∉ paths) /\
     lookupCode (length table) table mask (gotoKey (Z.of_nat i) a)
       (hashKey (gotoKey (Z.of_nat i) a)) 1 = Ok None).
Proof using Type.
  intros Hg Hp Ha. destruct (Hg i p a Hp Ha) as (e&Hcase&Hloop).
  destruct Hcase as [(j&Hj&Hne&Hs&Hkey)|[Hno ->]]; [left|right].
  - exists j, (Z.land e (Z.shiftl 1 compressMaximumCodeBits - 1)). split; [done|]. split; [exact Hs|].
    rewrite lookupCode_probeLoop. apply Hloop.
    + intros e' ? Hk. rewrite (proj2 (Z.eqb_neq _ _)) by done. by rewrite (proj2 (Z.eqb_neq _ _)).
    + rewrite (proj2 (Z.eqb_neq _ _)) by done. change compressMaximumCodeBits with maximumStateBits.
      by rewrite Hkey, Z.eqb_refl.
  - split; [done|]. rewrite lookupCode_probeLoop. apply Hloop; [|done].
    intros e' ? Hk. rewrite (proj2 (Z.eqb_neq _ _)) by done. by rewrite (proj2 (Z.eqb_neq _ _)).
Qed.

Lemma walkExistingStates_spec table mask a i p j :
  goto_ok table mask paths -> paths !! i = Some p -> bytes_ok a ->
  exists s q r, a = q ++ r /\ paths !! s = Some (p ++ q) /\
    walkExistingStates table mask a (Z.of_nat i) j = Ok (Z.of_nat s, j + zlen q) /\
    (forall x r', r = x :: r' -> p ++ q ++ [x] ∉ paths).
Proof using Type.
  intros Hg. revert i p j. induction a as [|x a IH]; intros i p j Hp Hb.
  - exists i, [], []. rewrite !app_nil_r. unfold zlen. simpl. rewrite Z.add_0_r. done.
  - inversion Hb as [|?? Hx Hb']; subst. cbn [walkExistingStates].
    destruct (lookup_state table mask i p x Hg Hp Hx) as [(s&z&Hs&Hz&->)|[Hno ->]]; cbn [mbind outcome_bind].
    + rewrite Hz. destruct (IH s (p ++ [x]) (j + 1) Hs Hb') as (s'&q&r&->&Hs'&->&Hr).
      exists s', (x :: q), r. split; [done|]. rewrite <- app_assoc in Hs'. split; [done|]. split.
      * unfold zlen. simpl. do 2 f_equal. lia.
      * intros y r' E. specialize (Hr y r' E). by rewrite <- app_assoc in Hr.
    + exists i, [], (x :: a). rewrite app_nil_r. unfold zlen. simpl. rewrite Z.add_0_r.
      split; [done|]. split; [done|]. split; [done|]. intros y r' [= <- <-]. done.
Qed.
End trie.

(** ** Adding a state *)

Section snoc.
Variables (paths : list (list Z)) (i : nat) (p : list Z) (a : Z).
Hypothesis Htrie : trie paths.
Hypothesis Hp : paths !! i = Some p.
Hypothesis Ha : 0 <= a < 256.
Hypothesis Hnew : p ++ [a] ∉ paths.
Hypothesis Hsize : zlen paths < 2 ^ 28.

Abbreviation paths' := (paths ++ [p ++ [a]]).

Lemma trie_snoc : trie paths'.
Proof using All.
  destruct Htrie as [H0 Hnd Hb Hpre Hs]. split.
  - apply lookup_app_l_Some, H0.
  - apply NoDup_app. split; [done|]. split; [|apply NoDup_singleton].
    intros x Hx Hx'. apply list_elem_of_singleton in Hx' as ->. done.
  - apply Forall_app. split; [done|]. constructor; [|constructor]. apply bytes_ok_app. split.
    + eapply Forall_lookup_1; [exact Hb|exact Hp].
    + constructor; [unfold is_u8; lia|constructor].
  - intros q b. rewrite !elem_of_app, !list_elem_of_singleton. intros [Hin|E].
    + left. by eapply Hpre.
    + left. apply app_inj_tail in E as [-> _]. by eapply list_elem_of_lookup_2.
  - unfold zlen in *. rewrite length_app. simpl. lia.
Qed.

Lemma snoc_new_lookup j q : paths' !! j = Some q <->
  paths !! j = Some q \/ (j = length paths /\ q = p ++ [a]).
Proof using Type.
  rewrite lookup_app. destruct (paths !! j) as [x|] eqn:E.
  - split; [intros [= ->]; by left|]. intros [?|[-> _]]; [done|].
    apply lookup_lt_Some in E. lia.
  - apply lookup_ge_None in E. rewrite list_lookup_singleton_Some. split.
    + intros [? <-]. right. split; [lia|done].
    + intros [?|[-> ->]]; [done|]. split; [lia|done].
Qed.

(** The only new edge is the one from [p]. *)
Lemma snoc_new_edge i' j p' b :
  paths' !! i' = Some p' -> paths' !! j = Some (p' ++ [b]) ->
  (paths !! i' = Some p' /\ paths !! j = Some (p' ++ [b])) \/
  (i' = i /\ p' = p /\ b = a /\ j = length paths).
Proof using All.
  intros Hi' Hj. apply snoc_new_lookup in Hj as [Hj|[-> E]].
  - left. split; [|done]. apply snoc_new_lookup in Hi' as [?|[-> ->]]; [done|].
    exfalso. apply Hnew. apply (trie_prefix _ Htrie _ b). by eapply list_elem_of_lookup_2.
  - right. apply app_inj_tail in E as [-> ->].
    pose proof (trie_inj _ trie_snoc i' i p Hi' (proj2 (snoc_new_lookup i p) (or_introl Hp))). done.
Qed.

Lemma trie_table_snoc table mask room :
  0 <= room -> trie_table table mask (room + 1) paths ->
  exists t', insertEntry (length table) table mask
      (Z.lor (shl_u64 (gotoKey (Z.of_nat i) a) maximumStateBits) (zlen paths))
      (hashKey (gotoKey (Z.of_nat i) a)) 1 = Ok t' /\ trie_table t' mask room paths'.
Proof using All.
  intros Hroom (k&entries&Hh&Hlen&Hcap&He). pose proof (trie_index _ Htrie _ _ Hp) as Hi.
  assert (0 < zlen paths) as Hpos.
  { pose proof (lookup_lt_Some _ _ _ Hp). unfold zlen. lia. }
  rewrite edge_entry_built by lia. set (entry := edge_entry _ _ _).
  destruct (edge_entry_range (Z.of_nat i) a (zlen paths)) as [Hne H64]; [lia..|].
  destruct (insertEntry_holds table mask k entries entry Hh) as (t'&E&Hl&Hh'); [|done|done|].
  { unfold zlen in *. lia. }
  unfold entry in E at 2. rewrite edge_entry_key in E by lia. exists t'. split; [exact E|].
  exists k, (entries ++ [entry]). split; [done|]. split; [rewrite !length_app; simpl; lia|].
  split; [unfold zlen in *; rewrite Hl, length_app; simpl; lia|].
  intros e. rewrite elem_of_app, list_elem_of_singleton, He. split.
  - intros [(i'&p'&b&j&?&?&->)| ->].
    + exists i', p', b, j. split_and!; [by apply lookup_app_l_Some..|done].
    + exists i, p, a, (length paths). split_and!; [by apply lookup_app_l_Some| |done].
      rewrite lookup_app_r, Nat.sub_diag by done. done.
  - intros (i'&p'&b&j&Hi'&Hj&->).
    destruct (snoc_new_edge i' j p' b Hi' Hj) as [[??]|(->&->&->&->)]; [left|by right].
    by exists i', p', b, j.
Qed.
End snoc.

(** ** Growing the table *)

Lemma doubleSize_spec fuel k minimum :
  0 <= k -> minimum <= 2 ^ (k + Z.of_nat fuel) -> 
  exists k', doubleSize (S fuel) (2 ^ k) minimum = Ok (2 ^ k') /\ k <= k' /\ minimum <= 2 ^ k' /\
    (k' = k \/ 2 ^ k' < 2 * minimum).
Proof.
  revert k. induction fuel as [|fuel IH]; intros k Hk Hm.
  - rewrite Z.add_0_r in Hm. exists k. cbn [doubleSize]. destruct (Z.ltb_spec (2 ^ k) minimum); [lia|].
    split_and!; [done|lia|lia|by left].
  - cbn [doubleSize]. destruct (Z.ltb_spec (2 ^ k) minimum) as [Hlt|].
    + assert (2 ^ k * 2 = 2 ^ (k + 1)) as E by (rewrite Z.pow_add_r by lia; lia). rewrite E.
      destruct (IH (k + 1)) as (k'&E'&Hk'&Hm'&Hs); [lia| |].
      { by replace (k + 1 + Z.of_nat fuel) with (k + Z.of_nat (S fuel)) by lia. }
      exists k'. split_and!; [exact E'|lia|done|]. right. destruct Hs as [->|?]; [|done]. lia.
    + exists k. split_and!; [done|lia|lia|by left].
Qed.

Lemma growGoto_spec table mask paths n :
  trie_table table mask 0 paths -> 1 <= n -> zlen paths + n <= 2 ^ 28 ->
  exists t' m', growGoto table mask ((zlen paths + n) * 4) = Ok (t', m') /\ trie_table t' m' n paths.
Proof.
  intros (k&entries&Hh&Hlen&Hcap&He) Hn Hs. unfold growGoto.
  destruct (holds_table _ _ _ _ Hh) as (Hk&Hl&->).
  destruct (Z.ltb_spec (zlen table) ((zlen paths + n) * 4)) as [Hlt|Hge].
  - destruct (doubleSize_spec 63 k ((zlen paths + n) * 4)) as (k'&E&Hk'&Hm&Hsm); [lia| |].
    { etransitivity; [|apply Z.pow_le_mono_r; [lia|]; instantiate (1 := 30); lia]. literal_pow. lia. }
    rewrite Hl, E. cbn [mbind outcome_bind].
    assert (2 ^ k' < 2 ^ 32) as H32 by (destruct Hsm as [->|]; lia).
    assert (k' <= 32) as Hk32 by (apply (Z.pow_lt_mono_r_iff 2) in H32; lia).
    destruct (rehash_grow table (2 ^ k - 1) k (Z.to_nat (2 ^ k')) (u64 (2 ^ k' - 1)) k' entries Hh)
      as (t'&->&Hl'&Hh').
    + split; [lia|]. split; [unfold zlen; rewrite (length_replicate (A:=Z)); lia|].
      apply Z.mod_small. literal_pow. lia.
    + unfold zlen in *. lia.
    + by eapply holds_u64.
    + cbn [mbind outcome_bind]. eexists t', _. split; [done|]. exists k', entries.
      split; [done|]. split; [done|]. split; [|done]. unfold zlen in *. lia.
  - eexists table, _. split; [done|]. exists k, entries. split; [done|]. split; [done|]. split; [lia|done].
Qed.

(** ** The graph of the processed needles *)

(** Every state but the root belongs to a needle that it is a prefix of; the
    needles are those below [b]. *)
Definition nodes_ok (ns : list (list Z)) (b : nat) (nodes : list gotoGraphNode) (paths : list (list Z)) : Prop :=
  length nodes = length paths /\
  forall i p, paths !! i = Some p -> exists node, nodes !! i = Some node /\
    needleLength node = zlen p /\
    (p = [] -> needleIndex node = 0) /\
    (p <> [] -> exists idx v, needleIndex node = Z.of_nat idx /\ (idx < b)%nat /\
       ns !! idx = Some v /\ p `prefix_of` v).

Definition sets_ok (sets : list (list Z)) (paths : list (list Z)) : Prop :=
  length sets = length paths /\
  forall i p, paths !! i = Some p -> exists symbols, sets !! i = Some symbols /\ NoDup symbols /\
    forall a, a ∈ symbols <-> p ++ [a] ∈ paths.

(** The needles below [m] are leaves that belong to themselves. *)
Definition leaves (ns : list (list Z)) (m : nat) (nodes : list gotoGraphNode) (paths : list (list Z)) : Prop :=
  forall idx v, (idx < m)%nat -> ns !! idx = Some v -> v <> [] /\ (forall a, v ++ [a] ∉ paths) /\
    exists s node, paths !! s = Some v /\ nodes !! s = Some node /\ needleIndex node = Z.of_nat idx.

Record graph_ok (ns : list (list Z)) (m b : nat) (room : Z) (g : gotoGraph) (paths : list (list Z)) : Prop := {
  graph_trie : trie paths;
  graph_table : trie_table (ggTable g) (ggMask g) room paths;
  graph_nodes : nodes_ok ns b (ggNodes g) paths;
  graph_f : Forall (fun node => nodeF node = 0) (ggNodes g);
  graph_sets : sets_ok (gSetByState g) paths;
  graph_leaves : leaves ns m (ggNodes g) paths;
}.

Section add_state.
Variables (ns : list (list Z)) (m : nat) (v : list Z).
Hypothesis Hv : ns !! m = Some v.
Hypothesis Hm32 : Z.of_nat m < 2 ^ 32.
Variables (g : gotoGraph) (paths : list (list Z)) (room : Z) (i : nat) (p : list Z) (a : Z) (r : list Z).
Hypothesis Hroom : 0 <= room.
Hypothesis Hg : graph_ok ns m (S m) (room + 1) g paths.
Hypothesis Hp : paths !! i = Some p.
Hypothesis Hpv : v = p ++ a :: r.
Hypothesis Hv28 : zlen v < 2 ^ 28.
Hypothesis Ha : 0 <= a < 256.
Hypothesis Hnew : p ++ [a] ∉ paths.
Hypothesis Hleaf : forall idx, (idx < m)%nat -> ns !! idx <> Some p.
Hypothesis Hsize : zlen paths < 2 ^ 28.

Let Htrie := graph_trie _ _ _ _ _ _ Hg.

Lemma nodes_ok_snoc :
  nodes_ok ns (S m) (ggNodes g ++ [mkNode (u32 (Z.of_nat m)) (u32 (u32 (zlen p) + 1)) 0]) (paths ++ [p ++ [a]]).
Proof using All.
  destruct (graph_nodes _ _ _ _ _ _ Hg) as [Hl Hn]. split; [by rewrite !length_app, Hl|].
  intros j q Hq. apply snoc_new_lookup in Hq as [Hq|[-> ->]].
  - destruct (Hn j q Hq) as (node&Hnode&?&?&?). exists node. split; [by apply lookup_app_l_Some|done].
  - exists (mkNode (u32 (Z.of_nat m)) (u32 (u32 (zlen p) + 1)) 0).
    split; [by rewrite lookup_app_r, Hl, Nat.sub_diag by lia|]. simpl.
    assert (zlen p < 2 ^ 28) as Hpl by (rewrite Hpv in Hv28; unfold zlen in *; rewrite length_app in Hv28; lia).
    split; [|split].
    + unfold u32. rewrite (Z.mod_small (zlen p)) by (unfold zlen in *; lia).
      rewrite Z.mod_small by (unfold zlen in *; lia). unfold zlen. rewrite length_app. simpl. lia.
    + by intros [??]%app_nil.
    + intros _. exists m, v. split; [unfold u32; apply Z.mod_small; lia|]. split; [lia|]. split; [done|].
      exists r. rewrite Hpv, <- app_assoc. done.
Qed.

Lemma sets_ok_snoc :
  exists symbols, index (gSetByState g) (Z.of_nat i) = Ok symbols /\
    sets_ok (<[i := symbols ++ [a]]> (gSetByState g) ++ [[]]) (paths ++ [p ++ [a]]).
Proof using All.
  destruct (graph_sets _ _ _ _ _ _ Hg) as [Hl Hs]. destruct (Hs i p Hp) as (symbols&Hsym&Hnd&Hin).
  exists symbols. split; [by apply index_nat|].
  split; [by rewrite !length_app, length_insert, Hl|].
  assert (forall b, b ∈ symbols -> b <> a) as Hne by (intros b Hb ->; by apply Hnew, Hin).
  intros j q Hq. apply snoc_new_lookup in Hq as [Hq|[-> ->]].
  - destruct (decide (j = i)) as [->|Hji].
    + exists (symbols ++ [a]). rewrite Hp in Hq. injection Hq as <-. split; [|split].
      * apply lookup_app_l_Some, list_lookup_insert_eq. by eapply lookup_lt_Some.
      * apply NoDup_app. split; [done|]. split; [|apply NoDup_singleton].
        intros x Hx Hx'. apply list_elem_of_singleton in Hx'. by apply (Hne x).
      * intros b. rewrite !elem_of_app, !list_elem_of_singleton, Hin. split.
        -- intros [?| ->]; [by left|by right].
        -- intros [?|E]; [by left|]. apply app_inj_tail in E as [_ ->]. by right.
    + destruct (Hs j q Hq) as (symbols'&Hsym'&?&Hin'). exists symbols'. split; [|split; [done|]].
      * apply lookup_app_l_Some. by rewrite list_lookup_insert_ne.
      * intros b. rewrite elem_of_app, list_elem_of_singleton, Hin'. split; [by left|].
        intros [?|E]; [done|]. exfalso. apply app_inj_tail in E as [-> _]. apply Hji.
        by eapply (trie_inj _ Htrie).
  - exists []. split; [|split; [constructor|]].
    + rewrite lookup_app_r, length_insert, Hl, Nat.sub_diag by (rewrite length_insert; lia). done.
    + intros b. rewrite elem_of_app, list_elem_of_singleton. split; [by intros ?%not_elem_of_nil|].
      intros [Hin'|E].
      * exfalso. by apply Hnew, (trie_prefix _ Htrie _ b).
      * apply (f_equal length) in E. rewrite !length_app in E. simpl in E. lia.
Qed.

Lemma leaves_snoc node : leaves ns m (ggNodes g ++ [node]) (paths ++ [p ++ [a]]).
Proof using All.
  intros idx w Hidx Hw. destruct (graph_leaves _ _ _ _ _ _ Hg idx w Hidx Hw) as (Hne&Hno&s&node'&Hs&Hn&Hi).
  split; [done|]. split.
  - intros b. rewrite elem_of_app, list_elem_of_singleton. intros [Hin|E]; [by apply (Hno b)|].
    apply app_inj_tail in E as [-> _]. by apply (Hleaf idx Hidx).
  - exists s, node'. split_and!; [by apply lookup_app_l_Some..|done].
Qed.

Lemma addState_spec :
  exists g', addState g (Z.of_nat m) (Z.of_nat i) (zlen p) a = Ok (g', zlen paths) /\
    graph_ok ns m (S m) room g' (paths ++ [p ++ [a]]) /\
    exists node, ggNodes g' !! length paths = Some node /\ needleIndex node = Z.of_nat m.
Proof using All.
  unfold addState. destruct sets_ok_snoc as (symbols&->&Hsets). cbn [mbind outcome_bind].
  destruct (graph_nodes _ _ _ _ _ _ Hg) as [Hl _].
  assert (u32 (zlen (ggNodes g)) = zlen paths) as Hu.
  { unfold u32, zlen in *. rewrite Hl. apply Z.mod_small. lia. }
  rewrite Hu. change (Z.shiftl 1 maximumStateBits) with (2 ^ 28).
  destruct (Z.leb_spec (2 ^ 28) (zlen paths)); [lia|].
  destruct (trie_table_snoc paths i p a Htrie Hp Ha Hnew Hsize (ggTable g) (ggMask g) room Hroom)
    as (t'&->&Ht'); [exact (graph_table _ _ _ _ _ _ Hg)|]. cbn [mbind outcome_bind].
  eexists. split; [done|]. rewrite Nat2Z.id. split.
  - split; simpl; [by eapply trie_snoc|done|apply nodes_ok_snoc| |done|apply leaves_snoc].
    apply Forall_app. split; [apply Hg|]. by constructor.
  - eexists. simpl. split; [rewrite lookup_app_r, Hl, Nat.sub_diag by lia; done|].
    simpl. unfold u32. apply Z.mod_small. lia.
Qed.
End add_state.

(** ** Adding a needle *)

Lemma addStates_spec ns m v rest g paths i p :
  ns !! m = Some v -> Z.of_nat m < 2 ^ 32 -> zlen v < 2 ^ 28 -> bytes_ok v -> v = p ++ rest ->
  graph_ok ns m (S m) (zlen rest) g paths -> paths !! i = Some p ->
  (forall x r, rest = x :: r -> p ++ [x] ∉ paths) ->
  (forall idx, (idx < m)%nat -> ns !! idx <> Some p) ->
  zlen paths + zlen rest <= 2 ^ 28 ->
  exists g' paths', addStates g (Z.of_nat m) (Z.of_nat i) (zlen p) rest = Ok g' /\
    graph_ok ns m (S m) 0 g' paths' /\ zlen paths' = zlen paths + zlen rest /\
    (forall q, q ∈ paths' -> q ∈ paths \/ q `prefix_of` v) /\
    (rest <> [] \/ (exists node, ggNodes g !! i = Some node /\ needleIndex node = Z.of_nat m) ->
     exists s node, paths' !! s = Some v /\ ggNodes g' !! s = Some node /\
       needleIndex node = Z.of_nat m).
Proof.
  intros Hv Hm Hv28 Hvb. revert g paths i p.
  induction rest as [|x rest IH]; intros g paths i p Hpv Hg Hp Hnew Hleaf Hsize.
  { exists g, paths. unfold zlen in *. simpl in *. split; [done|]. split; [done|]. split; [lia|]. split; [by left|].
    intros [?|(node&?&?)]; [done|]. exists i, node. rewrite Hpv, app_nil_r. done. }
  assert (zlen (x :: rest) = zlen rest + 1) as Hz by (unfold zlen; simpl; lia). rewrite Hz in *.
  assert (0 <= zlen rest) by (unfold zlen; lia).
  assert (0 <= x < 256) as Hx.
  { rewrite Hpv in Hvb. apply bytes_ok_app in Hvb as [_ Hvb]. inversion Hvb as [|?? Hx _]; subst.
    exact Hx. }
  pose proof (graph_trie _ _ _ _ _ _ Hg) as Htrie.
  destruct (addState_spec ns m v Hv Hm g paths (zlen rest) i p x rest) as (g1&E&Hg1&node&Hnode&Hidx);
    [done..|by eapply Hnew|done|lia|].
  cbn [addStates]. rewrite E. cbn [mbind outcome_bind].
  assert (p ++ [x] ∉ paths) as Hn by by eapply Hnew.
  assert ((paths ++ [p ++ [x]]) !! length paths = Some (p ++ [x])) as Hp1
    by (rewrite lookup_app_r, Nat.sub_diag by lia; done).
  destruct (IH g1 (paths ++ [p ++ [x]]) (length paths) (p ++ [x])) as (g'&paths'&E'&Hg'&Hl&Hin&Hlast).
  - by rewrite <- app_assoc.
  - done.
  - done.
  - intros y r _ Hy. rewrite elem_of_app, list_elem_of_singleton in Hy. destruct Hy as [Hy|Hy].
    + by apply Hn, (trie_prefix _ Htrie _ y).
    + apply (f_equal length) in Hy. rewrite !length_app in Hy. simpl in Hy. lia.
  - intros idx Hi Hns. destruct (graph_leaves _ _ _ _ _ _ Hg idx _ Hi Hns) as (_&_&s&?&Hs&_).
    apply Hn. by eapply list_elem_of_lookup_2.
  - unfold zlen in *. rewrite length_app. simpl. lia.
  - exists g', paths'. replace (zlen p + 1) with (zlen (p ++ [x])) by (unfold zlen; rewrite length_app; simpl; lia).
    split; [exact E'|]. split; [done|]. split; [unfold zlen in *; rewrite length_app in Hl; simpl in Hl; lia|].
    split.
    + intros q Hq. apply Hin in Hq as [Hq|?]; [|by right]. rewrite elem_of_app, list_elem_of_singleton in Hq.
      destruct Hq as [?| ->]; [by left|right]. exists rest. rewrite Hpv, <- app_assoc. done.
    + intros _. apply Hlast. right. exists node. done.
Qed.

(** Two needles of which one is a prefix of the other cannot be told apart. *)
Definition overlap (v w : list Z) : Prop := v `prefix_of` w \/ w `prefix_of` v.

Lemma trie_table_room table mask n n' paths :
  n' <= n -> trie_table table mask n paths -> trie_table table mask n' paths.
Proof. intros Hn (k&entries&?&?&?&?). exists k, entries. split; [done|]. split; [done|]. split; [lia|done]. Qed.

Lemma nodes_ok_mono ns b b' nodes paths : (b <= b')%nat -> nodes_ok ns b nodes paths -> nodes_ok ns b' nodes paths.
Proof.
  intros Hb [Hl Hn]. split; [done|]. intros i p Hp. destruct (Hn i p Hp) as (node&?&?&?&Hne).
  exists node. split_and!; [done|done|done|]. intros Hnil.
  destruct (Hne Hnil) as (idx&v&?&?&?&?). exists idx, v. split_and!; [done|lia|done|done].
Qed.

Section add_needle.
Variables (ns : list (list Z)) (m : nat) (v : list Z) (g : gotoGraph) (paths : list (list Z)).
Hypothesis Hv : ns !! m = Some v.
Hypothesis Hm : Z.of_nat m < 2 ^ 32.
Hypothesis Hvb : bytes_ok v.
Hypothesis Hg : graph_ok ns m m 0 g paths.
Hypothesis Hsize : zlen paths + zlen v <= 2 ^ 28.
Hypothesis Hne : v <> [].

Let Htrie := graph_trie _ _ _ _ _ _ Hg.

(** The walk ends at the longest prefix of the needle that is a state. *)
Section walked.
Variables (s : nat) (q r : list Z).
Hypothesis Hvq : v = q ++ r.
Hypothesis Hs : paths !! s = Some q.
Hypothesis Hlongest : forall x r', r = x :: r' -> q ++ [x] ∉ paths.

Lemma walked_prefix w : w ∈ paths -> w `prefix_of` v -> w `prefix_of` q.
Proof using All.
  intros Hw Hwv. destruct (prefix_weak_total w q v Hwv ltac:(by exists r)) as [?|[k ->]]; [done|].
  destruct k as [|x k]; [by rewrite app_nil_r|]. exfalso. destruct Hwv as [k' E].
  rewrite Hvq, <- app_assoc in E. apply app_inv_head in E. simpl in E.
  apply (Hlongest x _ E), (trie_prefixes _ Htrie _ k). by rewrite <- app_assoc.
Qed.

(** The needle of the state where the walk ends. *)
Lemma walked_existing :
  exists node existing, ggNodes g !! s = Some node /\ index ns (needleIndex node) = Ok existing /\
    (q = [] -> existing <> []) /\
    (q <> [] -> exists idx, (idx < m)%nat /\ ns !! idx = Some existing /\ q `prefix_of` existing).
Proof using All.
  destruct (graph_nodes _ _ _ _ _ _ Hg) as [_ Hn]. destruct (Hn s q Hs) as (nd&Hnd&_&Hroot&Hinner).
  destruct (decide (q = [])) as [Hq|Hq].
  - destruct (lookup_lt_is_Some_2 ns 0) as [w0 Hw0]; [pose proof (lookup_lt_Some _ _ _ Hv); lia|].
    exists nd, w0. split; [done|]. rewrite Hroot by done. split; [by apply index_ok|]. split; [|done].
    intros _ ->. destruct (decide (m = 0%nat)) as [->|Hm0]; [congruence|].
    by destruct (graph_leaves _ _ _ _ _ _ Hg 0%nat [] ltac:(lia) Hw0) as (?&_).
  - destruct (Hinner Hq) as (idx&w&Hidx&?&Hw&?). exists nd, w. split; [done|]. rewrite Hidx.
    split; [by apply index_nat|]. split; [done|]. intros _. by exists idx.
Qed.

(** A needle that overlaps is noticed at the state where the walk ends. *)
Lemma walked_overlap idx w :
  (idx < m)%nat -> ns !! idx = Some w -> overlap v w ->
  r = [] \/ exists node, ggNodes g !! s = Some node /\ needleIndex node = Z.of_nat idx /\ w = q.
Proof using All.
  intros Hidx Hw Hover. destruct (graph_leaves _ _ _ _ _ _ Hg idx w Hidx Hw) as (_&Hno&t&nd&Ht&Hnd&Hi).
  assert (w ∈ paths) as Hwin by by eapply list_elem_of_lookup_2.
  destruct Hover as [[k ->]|Hwv].
  - left. destruct r as [|x r']; [done|]. exfalso. apply (Hlongest x r' eq_refl).
    apply (trie_prefixes _ Htrie _ (r' ++ k)). rewrite Hvq in Hwin.
    by rewrite <- !app_assoc in *.
  - right. destruct (walked_prefix w Hwin Hwv) as [k Hk]. destruct k as [|x k].
    + rewrite app_nil_r in Hk. subst w. exists nd.
      by rewrite (trie_inj _ Htrie s t q Hs Ht).
    + exfalso. apply (Hno x), (trie_prefixes _ Htrie _ k). rewrite <- app_assoc. simpl. rewrite <- Hk.
      by eapply list_elem_of_lookup_2.
Qed.

Lemma leaves_extend g' paths' :
  graph_ok ns m (S m) 0 g' paths' -> v ∉ paths -> (forall p, p ∈ paths' -> p ∈ paths \/ p `prefix_of` v) ->
  (exists t nd, paths' !! t = Some v /\ ggNodes g' !! t = Some nd /\ needleIndex nd = Z.of_nat m) ->
  graph_ok ns (S m) (S m) 0 g' paths'.
Proof using Hv Hne Hg Htrie.
  intros Hg' Hnotin Hin Hlast. destruct Hg' as [? ? ? ? ? Hl]. split; [done..|].
  intros idx w Hidx Hw. destruct (decide (idx = m)) as [->|]; [|apply Hl; [lia|done]].
  rewrite Hv in Hw. injection Hw as <-. split; [done|]. split; [|done].
  intros a Ha. apply Hin in Ha as [Ha|[k E]].
  - by apply Hnotin, (trie_prefix _ Htrie _ a).
  - apply (f_equal length) in E. rewrite !length_app in E. simpl in E. lia.
Qed.
End walked.

Lemma addNeedle_spec :
  (addNeedle ns g (Z.of_nat m) v = Err PlainError /\
     exists idx w, (idx < m)%nat /\ ns !! idx = Some w /\ overlap v w) \/
  (exists g' paths', addNeedle ns g (Z.of_nat m) v = Ok g' /\ graph_ok ns (S m) (S m) 0 g' paths' /\
     zlen paths' <= zlen paths + zlen v /\ zlen paths < zlen paths' /\
     forall idx w, (idx < m)%nat -> ns !! idx = Some w -> ~ overlap v w).
Proof using All.
  unfold addNeedle. destruct (Z.eqb_spec (zlen v) 0) as [Hz|_]; [by destruct v|].
  pose proof (trie_table_goto paths Htrie _ _ 0 (Z.le_refl 0) (graph_table _ _ _ _ _ _ Hg)) as Hgoto.
  destruct (walkExistingStates_spec paths _ _ v 0 [] 0 Hgoto (trie_root _ Htrie) Hvb) as (s&q&r&Hvq&Hs&E&Hr).
  simpl in Hs, Hr. change (Z.of_nat 0) with 0 in E. rewrite E. cbn [mbind outcome_bind].
  destruct (walked_existing s q r Hvq Hs Hr) as (node&existing&Hnode&Hex&Hq0&Hq1).
  rewrite (index_nat _ _ _ Hnode). cbn [mbind outcome_bind].
  rewrite Hex. cbn [mbind outcome_bind]. rewrite Z.add_0_l.
  assert (zlen v = zlen q + zlen r) as Hlen by (rewrite Hvq; unfold zlen; rewrite length_app; lia).
  destruct (Z.eqb_spec (zlen existing) (zlen q)) as [Heq|Hneq].
  { left. split; [done|]. destruct (decide (q = [])) as [Hq|Hq].
    - exfalso. apply Hq0; [done|]. subst q. by destruct existing.
    - destruct (Hq1 Hq) as (idx&Hidx&Hw&[k Hk]). exists idx, existing. split_and!; [done|done|right].
      assert (k = []) as -> by (destruct k; [done|]; rewrite Hk in Heq; unfold zlen in Heq;
        rewrite length_app in Heq; simpl in Heq; lia).
      exists r. rewrite app_nil_r in Hk. by rewrite Hk. }
  destruct (Z.eqb_spec (zlen v - zlen q) 0) as [Hz|Hnz].
  { left. split; [done|]. assert (r = []) as -> by (destruct r; [done|]; unfold zlen in *; simpl in *; lia).
    rewrite app_nil_r in Hvq. subst q. destruct (Hq1 Hne) as (idx&Hidx&Hw&?). exists idx, existing.
    split_and!; [done|done|by left]. }
  right. destruct (graph_nodes _ _ _ _ _ _ Hg) as [Hnl _].
  assert (zlen (ggNodes g) = zlen paths) as -> by (unfold zlen; by rewrite Hnl).
  destruct (growGoto_spec _ _ paths (zlen v - zlen q) (graph_table _ _ _ _ _ _ Hg)) as (t'&m'&->&Ht');
    [unfold zlen in *; lia|unfold zlen in *; lia|].
  cbn [mbind outcome_bind]. assert (slice_from v (zlen q) = Ok r) as ->.
  { rewrite Hvq. by apply slice_from_app. }
  cbn [mbind outcome_bind]. assert (r <> []) as Hrne by (intros ->; unfold zlen in *; simpl in *; lia).
  destruct (addStates_spec ns m v r (mkGraph t' m' (gSetByState g) (ggNodes g)) paths s q)
    as (g'&paths'&E'&Hg'&Hl'&Hin'&Hlast'); try done.
  - assert (0 < zlen paths); [|lia]. pose proof (lookup_lt_Some _ _ _ Hs). unfold zlen. lia.
  - destruct Hg as [? ? ? ? ? ?]. split; [done| |by apply (nodes_ok_mono _ m); [lia|]|done|done|done].
    simpl. by replace (zlen r) with (zlen v - zlen q) by lia.
  - intros idx Hidx Hw. destruct (walked_overlap s q r Hvq Hs Hr idx q Hidx Hw) as [?|(nd&Hnd&Hi&_)];
      [right; by exists r|done|]. rewrite Hnode in Hnd. injection Hnd as <-.
    rewrite Hi, (index_nat _ _ _ Hw) in Hex. congruence.
  - unfold zlen in *; lia.
  - assert (v ∉ paths) as Hnotin.
    { intros Hv'. destruct r as [|x r']; [done|]. apply (Hr x r' eq_refl), (trie_prefixes _ Htrie _ r').
      rewrite <- app_assoc. simpl. by rewrite <- Hvq. }
    exists g', paths'. split; [exact E'|]. split.
    { apply leaves_extend; auto. }
    split; [unfold zlen in *; lia|]. split; [destruct r; [done|]; unfold zlen in *; simpl in *; lia|].
    intros idx w Hidx Hw Hover.
    destruct (walked_overlap s q r Hvq Hs Hr idx w Hidx Hw Hover) as [?|(nd&Hnd&Hi&->)]; [done|].
    rewrite Hnode in Hnd. injection Hnd as <-.
    rewrite Hi, (index_nat _ _ _ Hw) in Hex. congruence.
Qed.
End add_needle.

(** ** All needles *)

Definition prefix_free (ns : list (list Z)) : Prop :=
  (forall i v, ns !! i = Some v -> v <> []) /\
  forall i j v w, (i < j)%nat -> ns !! i = Some v -> ns !! j = Some w -> ~ overlap w v.

Definition emptyGraph : gotoGraph := mkGraph (replicate (Z.to_nat 0x100) 0) 0xff [[]] [zeroNode].

Lemma emptyGraph_ok ns : graph_ok ns 0 0 0 emptyGraph [[]].
Proof.
  split.
  - split; [done|apply NoDup_singleton|by repeat constructor| |done].
    intros p a Hin. apply list_elem_of_singleton in Hin. by apply app_nil in Hin as [_ ?].
  - exists 8, []. split; [apply holds_empty; split; [lia|done]|]. split; [done|]. split; [done|].
    intros e. split; [by intros ?%not_elem_of_nil|]. intros (i&p&a&j&_&Hj&_).
    apply list_elem_of_lookup_2, list_elem_of_singleton in Hj. by apply app_nil in Hj as [_ ?].
  - split; [done|]. intros i p Hp. apply list_lookup_singleton_Some in Hp as [-> <-].
    exists zeroNode. done.
  - by repeat constructor.
  - split; [done|]. intros i p Hp. apply list_lookup_singleton_Some in Hp as [-> <-].
    exists []. split; [done|]. split; [constructor|]. intros a. split; [by intros ?%not_elem_of_nil|].
    by intros ?%list_elem_of_singleton.
  - intros idx v Hidx. lia.
Qed.

Lemma addNeedles_spec ns l m g paths :
  Forall bytes_ok ns -> l = drop m ns -> graph_ok ns m m 0 g paths ->
  zlen paths + zlen (concat l) <= 2 ^ 28 -> Z.of_nat m < zlen paths ->
  (forall i v, (i < m)%nat -> ns !! i = Some v -> v <> []) ->
  (forall i j v w, (i < j < m)%nat -> ns !! i = Some v -> ns !! j = Some w -> ~ overlap w v) ->
  (addNeedles ns g (Z.of_nat m) l = Err PlainError /\ ~ prefix_free ns) \/
  (exists g' paths', addNeedles ns g (Z.of_nat m) l = Ok g' /\
     graph_ok ns (length ns) (length ns) 0 g' paths' /\ prefix_free ns).
Proof.
  intros Hb. revert m g paths. induction l as [|v l IH]; intros m g paths Hl Hg Hsize Hm Hne Hfree.
  - assert (length ns <= m)%nat as Hlen by (symmetry in Hl; apply (f_equal length) in Hl;
      rewrite length_drop in Hl; simpl in Hl; lia).
    right. exists g, paths. split; [done|]. split.
    + destruct Hg as [? ? Hn ? ? Hle]. split; [done|done| |done|done|].
      * destruct Hn as [Hn1 Hn2]. split; [done|]. intros i p Hp.
        destruct (Hn2 i p Hp) as (node&?&?&?&Hx). exists node. split_and!; [done..|]. intros Hp0.
        destruct (Hx Hp0) as (idx&v&?&?&Hv&?). exists idx, v. split_and!; [done| |done|done].
        by eapply lookup_lt_Some.
      * intros idx v Hidx. apply Hle. lia.
    + split.
      * intros i v Hi. apply (Hne i v); [|done]. apply lookup_lt_Some in Hi. lia.
      * intros i j v w Hij Hi Hj. apply (Hfree i j); [|done..]. apply lookup_lt_Some in Hj. lia.
  - assert (ns !! m = Some v) as Hv.
    { rewrite <- (Nat.add_0_r m), <- lookup_drop, <- Hl. done. }
    assert (l = drop (S m) ns) as Hl' by (rewrite <- Nat.add_1_r, <- drop_drop, <- Hl; done).
    cbn [concat] in Hsize. assert (zlen (v ++ concat l) = zlen v + zlen (concat l)) as E
      by (unfold zlen; rewrite length_app; lia). rewrite E in Hsize.
    assert (0 <= zlen v /\ 0 <= zlen (concat l)) as Hpos by (unfold zlen; lia).
    cbn [addNeedles]. destruct (decide (v = [])) as [->|Hnil].
    { left. split; [done|]. intros [H _]. by apply (H m []). }
    assert (bytes_ok v) as Hvb by by eapply Forall_lookup_1.
    destruct (addNeedle_spec ns m v g paths Hv) as [[-> (idx&w&Hidx&Hw&Ho)]|(g1&p1&->&Hg1&Hle&Hlt&Hno)];
      [lia|done|done|lia|done|..]; cbn [mbind outcome_bind].
    + left. split; [done|]. intros [_ H]. by apply (H idx m w v).
    + replace (Z.of_nat m + 1) with (Z.of_nat (S m)) by lia. apply (IH (S m) g1 p1); [done|done|lia|lia|..].
      * intros i u Hi Hu. destruct (decide (i = m)) as [->|]; [congruence|]. apply (Hne i); [lia|done].
      * intros i j u w Hij Hu Hw. destruct (decide (j = m)) as [->|].
        -- rewrite Hv in Hw. injection Hw as <-. by apply (Hno i u); [lia|].
        -- by apply (Hfree i j); [lia|..].
Qed.
