(* ===== verification/SearchProofs.v ===== *)
(** * The failure function, and searching

    The failure state of a state is its longest proper suffix that is a state,
    for every state, and no state fails to the end of a needle unless one
    needle is contained in another, which is an error.  With that the search
    replaces, from left to right, every occurrence of a needle. *)

From S2P Require Import Prelude SimpleLzw HashTable Search SearchTrie.

(** ** Longest proper suffixes *)

(** [f] is the longest proper suffix of [p] that is a state. *)
Record lps (paths : list (list Z)) (p f : list Z) : Prop := {
  lps_state : f ∈ paths;
  lps_suffix : f `suffix_of` p;
  lps_proper : f <> p;
  lps_longest q : q ∈ paths -> q `suffix_of` p -> q <> p -> (length q <= length f)%nat;
}.

Lemma suffix_proper_length (q p : list Z) : q `suffix_of` p -> q <> p -> (length q < length p)%nat.
Proof.
  intros [k ->] Hne. rewrite length_app. destruct k; [done|]. simpl. lia.
Qed.

Lemma suffix_length_eq (q p : list Z) : q `suffix_of` p -> (length p <= length q)%nat -> q = p.
Proof. intros Hs Hl. destruct (decide (q = p)) as [|Hne]; [done|]. apply suffix_proper_length in Hs; [lia|done]. Qed.

Lemma suffix_snoc (q p : list Z) a :
  q `suffix_of` p ++ [a] -> q = [] \/ exists q', q = q' ++ [a] /\ q' `suffix_of` p.
Proof.
  intros [k E]. destruct q as [|x q' _] using rev_ind; [by left|].
  right. rewrite app_assoc in E. apply app_inj_tail in E as [-> ->]. exists q'. split; [done|by exists k].
Qed.

(** [v] occurs in [w]. *)
Definition factor (v w : list Z) : Prop := exists x y, w = x ++ v ++ y.

(** No needle is empty or occurs in another one. *)
Definition factor_free (ns : list (list Z)) : Prop :=
  (forall i v, ns !! i = Some v -> v <> []) /\
  forall i j v w, i <> j -> ns !! i = Some v -> ns !! j = Some w -> ~ factor v w.

Lemma factor_free_prefix_free ns : factor_free ns -> prefix_free ns.
Proof.
  intros [Hne Hf]. split; [done|]. intros i j v w Hij Hi Hj [[k Hk]|[k Hk]].
  - apply (Hf j i w v); [lia|done..|]. exists [], k. done.
  - apply (Hf i j v w); [lia|done..|]. exists [], k. done.
Qed.

Section failure.
Variables (ns : list (list Z)) (g : gotoGraph) (paths : list (list Z)).
Hypothesis Hg : graph_ok ns (length ns) (length ns) 0 g paths.
Hypothesis Hfree : prefix_free ns.

Let Htrie := graph_trie _ _ _ _ _ _ Hg.

Lemma Hgoto : goto_ok (ggTable g) (ggMask g) paths.
Proof using Hg Htrie. exact (trie_table_goto paths Htrie _ _ 0 (Z.le_refl 0) (graph_table _ _ _ _ _ _ Hg)). Qed.

(** The failure state of a state is right, and not the end of a needle. *)
Definition done_ok (nodes : list gotoGraphNode) (i : nat) : Prop :=
  exists p node j f, paths !! i = Some p /\ nodes !! i = Some node /\ nodeF node = Z.of_nat j /\
    paths !! j = Some f /\ lps paths p f /\ forall k, ns !! k <> Some f.

(** All states up to a depth. *)
Definition done_to (nodes : list gotoGraphNode) (d : nat) : Prop :=
  forall i q, paths !! i = Some q -> q <> [] -> (length q <= d)%nat -> done_ok nodes i.

Lemma failLoop_spec nodes r p a fuel st q :
  paths !! r = Some p -> 0 <= a < 256 -> (forall i q, paths !! i = Some q -> q <> [] ->
    (length q < length p)%nat -> done_ok nodes i) ->
  paths !! st = Some q -> q `suffix_of` p -> q <> p ->
  (forall q', q' ++ [a] ∈ paths -> q' `suffix_of` p -> q' <> p -> (length q' <= length q)%nat) ->
  (length q < fuel)%nat ->
  exists j f, failLoop g fuel nodes (Z.of_nat st) a = Ok (Z.of_nat j) /\ paths !! j = Some f /\
    lps paths (p ++ [a]) f.
Proof using Hg Htrie.
  intros Hp Ha Hdone. revert st q. induction fuel as [|fuel IH]; intros st q Hq Hsuf Hne Hmax Hfuel; [lia|].
  cbn [failLoop]. destruct (Hgoto st q a Hq Ha) as (e&Hcase&Hloop).
  destruct Hcase as [(j&Hj&Hnz&Hst&Hkey)|[Hno ->]].
  - rewrite (Hloop _ _ (Some (Z.of_nat j))); [|intros e' Hz Hk|].
    + cbn [mbind outcome_bind]. exists j, (q ++ [a]). split; [done|]. split; [done|]. split.
      * by eapply list_elem_of_lookup_2.
      * destruct Hsuf as [k ->]. exists k. by rewrite app_assoc.
      * intros E. by apply app_inj_tail in E as [-> _].
      * intros q' Hin Hs' Hne'. apply suffix_snoc in Hs' as [->|(q''&->&Hs'')]; [simpl; lia|].
        rewrite !length_app. simpl. specialize (Hmax q'' Hin Hs'').
        destruct (decide (q'' = p)) as [->|Hn]; [done|]. specialize (Hmax Hn). lia.
    + change maximumStateBits with compressMaximumCodeBits.
      rewrite (proj2 (Z.eqb_neq _ _)) by done. by rewrite (proj2 (Z.eqb_neq e' 0)).
    + by rewrite Hkey, Z.eqb_refl, Hst.
  - destruct (decide (q = [])) as [->|Hqne].
    + pose proof (trie_inj _ Htrie st 0 [] Hq (trie_root _ Htrie)) as ->.
      rewrite (Hloop _ _ (Some 0)); [|intros e' Hz Hk|].
      * cbn [mbind outcome_bind]. exists 0%nat, []. split; [done|]. split; [done|]. split.
        -- by eapply list_elem_of_lookup_2.
        -- apply suffix_nil.
        -- intros E. symmetry in E. by apply app_nil in E as [_ ?].
        -- intros q' Hin Hs' Hne'. apply suffix_snoc in Hs' as [->|(q''&->&Hs'')]; [done|].
           exfalso. destruct (decide (q'' = p)) as [->|Hn]; [done|].
           specialize (Hmax q'' Hin Hs'' Hn). destruct q''; [done|]. simpl in Hmax. lia.
      * change maximumStateBits with compressMaximumCodeBits.
        rewrite (proj2 (Z.eqb_neq _ _)) by done. by rewrite (proj2 (Z.eqb_neq e' 0)).
      * cbn. by rewrite orb_true_r.
    + pose proof (trie_nonroot _ Htrie st q Hq Hqne) as Hst0.
      pose proof (trie_index _ Htrie st q Hq) as Hsti.
      rewrite (Hloop _ _ None); [|intros e' Hz Hk|].
      * cbn [mbind outcome_bind].
        destruct (Hdone st q Hq Hqne (suffix_proper_length _ _ Hsuf Hne)) as (q0&node&j&f&Hq0&Hnode&Hf&Hj&Hlps&_).
        rewrite Hq in Hq0. injection Hq0 as <-.
        rewrite (index_nat _ _ _ Hnode). cbn [mbind outcome_bind]. rewrite Hf.
        destruct Hlps as [Hfin Hfs Hfne Hfmax]. apply (IH j f Hj).
        -- by etransitivity.
        -- intros ->. apply Hne. apply (suffix_length_eq _ _ Hsuf). by apply suffix_length.
        -- intros q' Hin Hs' Hn'. destruct (decide (q' = q)) as [->|Hqq]; [done|].
           apply Hfmax; [by eapply (trie_prefix _ Htrie)| |done].
           destruct (suffix_weak_total q' q p Hs' Hsuf) as [?|Hqs]; [done|].
           exfalso. apply Hqq. symmetry. apply (suffix_length_eq _ _ Hqs). by apply Hmax.
        -- apply suffix_proper_length in Hfs; [lia|done].
      * change maximumStateBits with compressMaximumCodeBits.
        rewrite (proj2 (Z.eqb_neq _ _)) by done. by rewrite (proj2 (Z.eqb_neq e' 0)).
      * rewrite (proj2 (Z.eqb_neq (Z.of_nat st) 0)) by lia.
        rewrite gotoKey_value by lia. change (Z.shiftr 0 maximumStateBits) with 0.
        rewrite (proj2 (Z.eqb_neq 0 _)) by lia. done.
Qed.

(** Setting the failure state of one state. *)
Lemma nodes_ok_insert nodes s node f :
  nodes_ok ns (length ns) nodes paths -> nodes !! s = Some node ->
  nodes_ok ns (length ns) (<[s := mkNode (needleIndex node) (needleLength node) f]> nodes) paths.
Proof using Type.
  intros [Hl Hn] Hs. split; [by rewrite length_insert|]. intros i p Hp.
  destruct (Hn i p Hp) as (nd&Hnd&?&?&?). destruct (decide (i = s)) as [->|Hne].
  - rewrite Hs in Hnd. injection Hnd as <-. eexists.
    split; [apply list_lookup_insert_eq; by eapply lookup_lt_Some|]. done.
  - exists nd. by rewrite list_lookup_insert_ne.
Qed.

Lemma done_ok_insert nodes s node i :
  i <> s -> done_ok nodes i -> done_ok (<[s := node]> nodes) i.
Proof using Type.
  intros Hne (p&nd&j&f&Hx). exists p, nd, j, f. rewrite list_lookup_insert_ne by done. exact Hx.
Qed.

(** A node's needle exists; the state is its end when the lengths agree. *)
Lemma node_needle nodes j f :
  ns <> [] -> nodes_ok ns (length ns) nodes paths -> paths !! j = Some f ->
  exists node k needle, nodes !! j = Some node /\ index nodes (Z.of_nat j) = Ok node /\
    needleIndex node = Z.of_nat k /\ ns !! k = Some needle /\ index ns (needleIndex node) = Ok needle /\
    f `prefix_of` needle /\ needleLength node = zlen f /\ (zlen needle = needleLength node <-> f = needle).
Proof using Type.
  intros Hns [_ Hn] Hj. destruct (Hn j f Hj) as (nd&Hnd&Hlen&Hroot&Hinner).
  assert (exists k w, needleIndex nd = Z.of_nat k /\ ns !! k = Some w /\ f `prefix_of` w) as (k&w&Hk&Hw&Hpre).
  { destruct (decide (f = [])) as [Hf|Hf].
    - destruct (lookup_lt_is_Some_2 ns 0) as [w0 Hw0].
      { apply Nat.neq_0_lt_0. by rewrite length_zero_iff_nil. }
      exists 0%nat, w0. rewrite (Hroot Hf), Hf. split; [done|]. split; [done|]. apply prefix_nil.
    - destruct (Hinner Hf) as (idx&w&Hidx&_&Hw&Hpre). by exists idx, w. }
  exists nd, k, w. split; [done|]. split; [by apply index_nat|].
  split; [done|]. split; [done|]. split; [rewrite Hk; by apply index_nat|].
  split; [done|]. split; [done|]. rewrite Hlen. split; [|by intros ->].
  intros E. destruct Hpre as [t ->]. unfold zlen in E. rewrite length_app in E.
  destruct t; [by rewrite app_nil_r|simpl in E; lia].
Qed.

(** The fields of nodes that do not change. *)
Definition same_needles (nodes : list gotoGraphNode) : Prop :=
  forall i, needleIndex <$> (nodes !! i) = needleIndex <$> (ggNodes g !! i).

Lemma processSymbol_spec nodes queue r p a :
  ns <> [] -> nodes_ok ns (length ns) nodes paths -> same_needles nodes ->
  paths !! r = Some p -> p <> [] -> done_to nodes (length p) ->
  0 <= a < 256 -> p ++ [a] ∈ paths ->
  (processSymbol ns g nodes queue (Z.of_nat r) a = Err PlainError /\ ~ factor_free ns) \/
  (exists s nodes', processSymbol ns g nodes queue (Z.of_nat r) a = Ok (nodes', queue ++ [Z.of_nat s]) /\
     paths !! s = Some (p ++ [a]) /\ nodes_ok ns (length ns) nodes' paths /\ same_needles nodes' /\
     done_ok nodes' s /\ forall i, i <> s -> done_ok nodes i -> done_ok nodes' i).
Proof using Hg Htrie Hfree.
  intros Hns Hnodes Hsame Hp Hpne Hdone Ha Hin. unfold processSymbol.
  destruct (Hgoto r p a Hp Ha) as (e&Hcase&Hloop).
  destruct Hcase as [(s&Hs&Hnz&Hst&Hkey)|[Hno _]]; [|done].
  rewrite (Hloop _ _ (Some (Z.of_nat s))); [|intros e' Hz Hk|].
  2: { change maximumStateBits with compressMaximumCodeBits.
       rewrite (proj2 (Z.eqb_neq e' 0)) by done. by rewrite (proj2 (Z.eqb_neq _ _)). }
  2: { rewrite (proj2 (Z.eqb_neq e 0)) by done. by rewrite Hkey, Z.eqb_refl, Hst. }
  cbn [mbind outcome_bind].
  destruct (Hdone r p Hp Hpne ltac:(lia)) as (p0&nodeR&jf&ff&Hp0&HnodeR&Hff&Hjf&Hlps&_).
  rewrite Hp in Hp0. injection Hp0 as <-.
  rewrite (index_nat _ _ _ HnodeR). cbn [mbind outcome_bind]. rewrite Hff.
  destruct (failLoop_spec nodes r p a (length nodes) jf ff) as (j&f&->&Hj&Hlpsf); try done.
  { intros i q Hq Hqn Hl. apply (Hdone i q Hq Hqn). lia. }
  { apply Hlps. }
  { apply Hlps. }
  { intros q' Hq' Hs' Hn'. apply (lps_longest _ _ _ Hlps); [by eapply (trie_prefix _ Htrie)|done|done]. }
  { rewrite (proj1 Hnodes). apply (trie_depth _ Htrie). by eapply list_elem_of_lookup_2. }
  cbn [mbind outcome_bind].
  destruct (node_needle nodes s (p ++ [a]) Hns Hnodes Hs)
    as (nodeS&kS&needleS&HnodeS&->&HkS&HnS&_&HpreS&HlenS&_).
  cbn [mbind outcome_bind]. rewrite Nat2Z.id. set (nodes' := <[s := _]> nodes).
  assert (nodes_ok ns (length ns) nodes' paths) as Hnodes' by by apply nodes_ok_insert.
  assert (same_needles nodes') as Hsame'.
  { intros i. unfold nodes'. destruct (decide (i = s)) as [->|Hne].
    - rewrite list_lookup_insert_eq by by eapply lookup_lt_Some. rewrite <- Hsame, HnodeS. done.
    - by rewrite list_lookup_insert_ne. }
  destruct (node_needle nodes' j f Hns Hnodes' Hj) as (nodeF'&kF&needle&HnodeF'&->&HkF&HnF&Hix&HpreF&_&Hterm).
  cbn [mbind outcome_bind]. rewrite Hix. cbn [mbind outcome_bind]. destruct (Z.eqb_spec (zlen needle) (needleLength nodeF')) as [E|E].
  - apply Hterm in E as ->. left.
    assert (length needle < length (p ++ [a]))%nat as Hshort
      by (apply suffix_proper_length; apply Hlpsf).
    assert (kF <> kS) as Hk.
    { intros ->. rewrite HnS in HnF. injection HnF as ->. apply prefix_length in HpreS. lia. }
    rewrite HkF, HkS. rewrite (proj2 (Z.eqb_neq (Z.of_nat kF) _)) by lia. split; [done|].
    intros [_ Hff']. apply (Hff' kF kS needle needleS Hk HnF HnS).
    destruct (lps_suffix _ _ _ Hlpsf) as [x Hx]. destruct HpreS as [y ->]. exists x, y.
    by rewrite Hx, <- app_assoc.
  - right. exists s, nodes'. split; [done|]. split; [done|]. split; [done|]. split; [done|]. split.
    + exists (p ++ [a]), (mkNode (needleIndex nodeS) (needleLength nodeS) (Z.of_nat j)), j, f.
      split; [done|]. split; [apply list_lookup_insert_eq; by eapply lookup_lt_Some|].
      split; [done|]. split; [done|]. split; [done|]. intros k Hk.
      destruct (graph_leaves _ _ _ _ _ _ Hg k f) as (_&_&t&nd&Ht&Hnd&Hi);
        [by eapply lookup_lt_Some|done|].
      pose proof (trie_inj _ Htrie _ _ _ Ht Hj) as ->. pose proof (Hsame' j) as Hsj.
      rewrite HnodeF', Hnd in Hsj. injection Hsj as Hsj. rewrite HkF, Hi in Hsj.
      apply Nat2Z.inj in Hsj as ->. rewrite HnF in Hk. injection Hk as ->. apply E, Hterm. done.
    + intros i Hi. by apply done_ok_insert.
Qed.
Lemma processSymbols_spec symbols nodes queue r p :
  ns <> [] -> nodes_ok ns (length ns) nodes paths -> same_needles nodes ->
  paths !! r = Some p -> p <> [] -> done_to nodes (length p) ->
  Forall (fun a => p ++ [a] ∈ paths) symbols ->
  (processSymbols ns g nodes queue (Z.of_nat r) symbols = Err PlainError /\ ~ factor_free ns) \/
  (exists cs nodes', processSymbols ns g nodes queue (Z.of_nat r) symbols
                       = Ok (nodes', queue ++ map Z.of_nat cs) /\
     Forall2 (fun a c => paths !! c = Some (p ++ [a])) symbols cs /\
     nodes_ok ns (length ns) nodes' paths /\ same_needles nodes' /\
     forall i, done_ok nodes i \/ i ∈ cs -> done_ok nodes' i).
Proof using Hg Htrie Hfree.
  intros Hns Hnodes Hsame Hp Hpne Hdone Hsym. revert nodes queue Hnodes Hsame Hdone.
  induction Hsym as [|a symbols Ha _ IH]; intros nodes queue Hnodes Hsame Hdone.
  { right. exists [], nodes. rewrite app_nil_r. split_and!; [done|constructor|done|done|].
    intros i [?|?%not_elem_of_nil]; done. }
  cbn [processSymbols]. apply list_elem_of_lookup in Ha as [c Hc].
  destruct (trie_child _ Htrie _ _ _ Hc) as [_ Hab].
  destruct (processSymbol_spec nodes queue r p a) as [[-> ?]|(s&nodes1&->&Hs&Hn1&Hs1&Hd1&Hk1)];
    [done..|by eapply list_elem_of_lookup_2|by left|].
  cbn [mbind outcome_bind].
  assert (forall i, done_ok nodes i -> done_ok nodes1 i) as Hkeep.
  { intros i Hi. destruct (decide (i = s)) as [->|]; [done|by apply Hk1]. }
  destruct (IH nodes1 (queue ++ [Z.of_nat s])) as [?|(cs&nodes2&->&H2&Hn2&Hs2&Hd2)]; [done|done| |by left|].
  { intros i q Hq Hne Hl. by apply Hkeep, (Hdone i q). }
  right. exists (s :: cs), nodes2. split_and!; [by rewrite <- app_assoc|by constructor|done|done|].
  intros i Hi. apply Hd2. rewrite elem_of_cons in Hi. destruct Hi as [?|[->|?]]; auto.
Qed.

Lemma initialQueue_spec symbols :
  Forall (fun a => [a] ∈ paths) symbols ->
  exists cs, initialQueue g symbols = Ok (map Z.of_nat cs) /\
    Forall2 (fun a c => paths !! c = Some [a]) symbols cs.
Proof using Hg Htrie.
  induction 1 as [|a symbols Ha _ (cs&IH&Hcs)]; [by exists []|]. cbn [initialQueue].
  apply list_elem_of_lookup in Ha as [c Hc].
  destruct (trie_child _ Htrie c [] a Hc) as [_ Hab].
  destruct (Hgoto 0%nat [] a (trie_root _ Htrie) Hab) as (e&Hcase&Hloop).
  assert (gotoKey (Z.of_nat 0) a = a) as Hkey0 by (rewrite gotoKey_value; lia).
  rewrite Hkey0 in Hcase, Hloop. destruct Hcase as [(j&Hj&Hnz&Hst&Hkey)|[Hno _]].
  2: { exfalso. apply Hno. by eapply list_elem_of_lookup_2. }
  assert (hashKey a = a) as Hh.
  { unfold hashKey. rewrite Z.shiftr_div_pow2, Z.div_small by lia. apply Z.lxor_0_l. }
  rewrite Hh in Hloop. rewrite (Hloop _ _ (Z.of_nat j)); [|intros e' Hz Hk|].
  - cbn [mbind outcome_bind]. rewrite IH. cbn [mbind outcome_bind]. exists (j :: cs). split; [done|].
    by constructor.
  - change maximumStateBits with compressMaximumCodeBits. by rewrite (proj2 (Z.eqb_neq _ _)).
  - by rewrite Hkey, Z.eqb_refl, Hst.
Qed.

(** Before a step of the loop over the queue. *)
Record bfs (nodes : list gotoGraphNode) (popped queue : list nat) : Prop := {
  bfs_nodup : NoDup (popped ++ queue);
  bfs_done i : i ∈ popped ++ queue -> done_ok nodes i;
  bfs_parent i : i ∈ popped ++ queue -> exists p a, paths !! i = Some (p ++ [a]) /\
    (p = [] \/ exists u, u ∈ popped /\ paths !! u = Some p);
  bfs_cover i p : paths !! i = Some p -> p <> [] -> i ∈ popped ++ queue \/
    exists u pu x k, u ∈ queue /\ paths !! u = Some pu /\ p = pu ++ x :: k;
  bfs_sorted : exists d q1 q2, queue = q1 ++ q2 /\
    (forall i p, i ∈ q1 -> paths !! i = Some p -> length p = d) /\
    (forall i p, i ∈ q2 -> paths !! i = Some p -> length p = S d);
}.

(** The queue is sorted by depth: its head is the least deep. *)
Lemma bfs_head nodes popped r queue p :
  bfs nodes popped (r :: queue) -> paths !! r = Some p ->
  (forall i q, i ∈ queue -> paths !! i = Some q -> (length p <= length q)%nat) /\
  exists q1 q2, queue = q1 ++ q2 /\
    (forall i q, i ∈ q1 -> paths !! i = Some q -> length q = length p) /\
    (forall i q, i ∈ q2 -> paths !! i = Some q -> length q = S (length p)).
Proof using Type.
  intros [_ _ _ _ (d&q1&q2&Hq&H1&H2)] Hp. destruct q1 as [|r' q1]; simpl in Hq.
  - subst q2. pose proof (H2 r p ltac:(left) Hp) as Hd. split.
    + intros i q Hi Hl. rewrite (H2 i q) by (done || by right). lia.
    + exists queue, []. rewrite app_nil_r. split; [done|]. split; [|by intros ?? ?%not_elem_of_nil].
      intros i q Hi Hl. rewrite (H2 i q) by (done || by right). lia.
  - injection Hq as <- ->. pose proof (H1 r p ltac:(left) Hp) as Hd. split.
    + intros i q Hi Hl. apply elem_of_app in Hi as [Hi|Hi].
      * rewrite (H1 i q) by (done || by right). lia.
      * rewrite (H2 i q) by done. lia.
    + exists q1, q2. split; [done|]. split.
      * intros i q Hi Hl. rewrite (H1 i q) by (done || by right). lia.
      * intros i q Hi Hl. rewrite (H2 i q) by done. lia.
Qed.

Lemma bfs_done_to nodes popped r queue p :
  bfs nodes popped (r :: queue) -> paths !! r = Some p -> done_to nodes (length p).
Proof using Type.
  intros Hb Hp i q Hq Hne Hl. destruct (bfs_cover _ _ _ Hb i q Hq Hne) as [Hi|(u&pu&x&k&Hu&Hpu&->)].
  - by apply (bfs_done _ _ _ Hb).
  - exfalso. rewrite length_app in Hl. simpl in Hl. apply elem_of_cons in Hu as [->|Hu].
    + rewrite Hp in Hpu. injection Hpu as ->. lia.
    + pose proof (proj1 (bfs_head _ _ _ _ _ Hb Hp) u pu Hu Hpu). lia.
Qed.

Lemma children_in (p : list Z) symbols cs c :
  Forall2 (fun a c => paths !! c = Some (p ++ [a])) symbols cs -> c ∈ cs ->
  exists a, a ∈ symbols /\ paths !! c = Some (p ++ [a]).
Proof using Type.
  intros H Hc. apply list_elem_of_lookup in Hc as [k Hk].
  destruct (Forall2_lookup_r _ _ _ _ _ H Hk) as (a&Ha&Hpa). exists a. split; [|done].
  by eapply list_elem_of_lookup_2.
Qed.

Lemma children_nodup (p : list Z) symbols cs :
  NoDup symbols -> Forall2 (fun a c => paths !! c = Some (p ++ [a])) symbols cs -> NoDup cs.
Proof using Type.
  intros Hnd H. induction H as [|a c symbols cs Hc H IH]; [constructor|].
  inversion Hnd as [|?? Hna Hnd']; subst. constructor; [|by apply IH]. intros Hin.
  destruct (children_in _ _ _ _ H Hin) as (b&Hb&Hc'). rewrite Hc in Hc'. injection Hc' as E.
  apply app_inj_tail in E as [_ ->]. done.
Qed.

Section bfs_step.
Variables (nodes nodes' : list gotoGraphNode) (popped queue cs : list nat) (r : nat) (p : list Z) (symbols : list Z).
Hypothesis Hb : bfs nodes popped (r :: queue).
Hypothesis Hp : paths !! r = Some p.
Hypothesis Hpne : p <> [].
Hypothesis Hnd : NoDup symbols.
Hypothesis Hall : forall a, a ∈ symbols <-> p ++ [a] ∈ paths.
Hypothesis Hcs : Forall2 (fun a c => paths !! c = Some (p ++ [a])) symbols cs.
Hypothesis Hdone : forall i, done_ok nodes i \/ i ∈ cs -> done_ok nodes' i.

Lemma child_fresh c : c ∈ cs -> c ∉ popped ++ r :: queue.
Proof using All.
  intros Hc Hin. destruct (children_in _ _ _ _ Hcs Hc) as (a&_&Hca).
  destruct (bfs_parent _ _ _ Hb c Hin) as (p'&a'&Hc'&Hpar). rewrite Hca in Hc'. injection Hc' as E.
  apply app_inj_tail in E as [<- <-]. destruct Hpar as [?|(u&Hu&Hpu)]; [done|].
  rewrite (trie_inj _ Htrie _ _ _ Hpu Hp) in Hu.
  pose proof (bfs_nodup _ _ _ Hb) as Hnodup. apply NoDup_app in Hnodup as (_&Hx&_).
  apply (Hx r Hu). by left.
Qed.

Lemma bfs_step : bfs nodes' (r :: popped) (queue ++ cs).
Proof using All.
  assert (forall i, i ∈ (r :: popped) ++ queue ++ cs <-> i ∈ popped ++ r :: queue \/ i ∈ cs) as Hmem.
  { intros i. rewrite !elem_of_app, !elem_of_cons. tauto. }
  split.
  - assert ((r :: popped) ++ queue ++ cs ≡ₚ (popped ++ r :: queue) ++ cs) as ->.
    { rewrite <- Permutation_middle. simpl. by rewrite <- app_assoc. }
    apply NoDup_app. split; [apply Hb|]. split; [|by eapply children_nodup].
    intros i Hi Hc. by apply (child_fresh i Hc).
  - intros i Hi. apply Hdone. apply Hmem in Hi as [Hi|Hi]; [left; by apply (bfs_done _ _ _ Hb)|by right].
  - intros i Hi. apply Hmem in Hi as [Hi|Hi].
    + destruct (bfs_parent _ _ _ Hb i Hi) as (p'&a&Hi'&[->|(u&Hu&Hpu)]); [by exists [], a; auto|].
      exists p', a. split; [done|]. right. exists u. split; [by right|done].
    + destruct (children_in _ _ _ _ Hcs Hi) as (a&_&Ha). exists p, a. split; [done|]. right.
      exists r. split; [by left|done].
  - intros i q Hq Hqne. destruct (bfs_cover _ _ _ Hb i q Hq Hqne) as [Hi|(u&pu&x&k&Hu&Hpu&->)].
    + left. apply Hmem. by left.
    + apply elem_of_cons in Hu as [->|Hu].
      2: { right. exists u, pu, x, k. split_and!; [apply elem_of_app; by left|done|done]. }
      rewrite Hp in Hpu. injection Hpu as <-.
      assert (p ++ [x] ∈ paths) as Hx.
      { apply (trie_prefixes _ Htrie _ k). rewrite <- app_assoc. by eapply list_elem_of_lookup_2. }
      apply Hall, list_elem_of_lookup in Hx as [n Hn].
      destruct (Forall2_lookup_l _ _ _ _ _ Hcs Hn) as (c&Hc&Hcp). apply list_elem_of_lookup_2 in Hc.
      destruct k as [|y k].
      * left. apply Hmem. right. by rewrite (trie_inj _ Htrie i c _ Hq Hcp).
      * right. exists c, (p ++ [x]), y, k. split; [apply elem_of_app; by right|]. split; [done|].
        by rewrite <- app_assoc.
  - destruct (proj2 (bfs_head _ _ _ _ _ Hb Hp)) as (q1&q2&->&H1&H2).
    exists (length p), q1, (q2 ++ cs). split; [by rewrite <- app_assoc|]. split; [done|].
    intros i q Hi Hq. apply elem_of_app in Hi as [Hi|Hi]; [by apply (H2 i)|].
    destruct (children_in _ _ _ _ Hcs Hi) as (a&_&Ha). rewrite Hq in Ha. injection Ha as ->.
    rewrite length_app. simpl. lia.
Qed.
End bfs_step.

Lemma bfs_length nodes popped queue : bfs nodes popped queue -> (length popped + length queue < length paths)%nat.
Proof using Hg Htrie.
  intros Hb. rewrite <- length_app.
  enough (length (0%nat :: popped ++ queue) <= length (seq 0 (length paths)))%nat as H.
  { rewrite length_seq in H. simpl in H. lia. }
  apply submseteq_length, NoDup_submseteq.
  - constructor; [|apply Hb]. intros H0. destruct (bfs_parent _ _ _ Hb _ H0) as (p&a&Hpa&_).
    rewrite (trie_root _ Htrie) in Hpa. injection Hpa as E. symmetry in E. by apply app_nil in E as [_ ?].
  - intros i Hi. apply elem_of_seq. apply elem_of_cons in Hi as [->|Hi].
    + pose proof (lookup_lt_Some _ _ _ (trie_root _ Htrie)). lia.
    + destruct (bfs_parent _ _ _ Hb _ Hi) as (p&a&Hpa&_). apply lookup_lt_Some in Hpa. lia.
Qed.

Lemma processQueue_spec fuel nodes popped queue :
  ns <> [] -> nodes_ok ns (length ns) nodes paths -> same_needles nodes -> bfs nodes popped queue ->
  (length paths <= length popped + fuel)%nat ->
  (processQueue ns g fuel nodes (map Z.of_nat queue) = Err PlainError /\ ~ factor_free ns) \/
  (exists nodes', processQueue ns g fuel nodes (map Z.of_nat queue) = Ok nodes' /\
     nodes_ok ns (length ns) nodes' paths /\
     forall i p, paths !! i = Some p -> p <> [] -> done_ok nodes' i).
Proof using Hg Htrie Hfree.
  intros Hns. revert nodes popped queue.
  induction fuel as [|fuel IH]; intros nodes popped queue Hnodes Hsame Hb Hfuel.
  { pose proof (bfs_length _ _ _ Hb). lia. }
  destruct queue as [|r queue].
  { right. exists nodes. split; [done|]. split; [done|]. intros i p Hp Hne.
    destruct (bfs_cover _ _ _ Hb i p Hp Hne) as [Hi|(u&pu&x&k&Hu&_)];
      [by apply (bfs_done _ _ _ Hb)|by apply not_elem_of_nil in Hu]. }
  cbn [processQueue map].
  destruct (bfs_parent _ _ _ Hb r) as (p'&a&Hr&_); [apply elem_of_app; right; by left|].
  set (p := p' ++ [a]) in *. assert (p <> []) as Hpne by by (intros [_ ?]%app_nil).
  destruct (graph_sets _ _ _ _ _ _ Hg) as [_ Hsets]. destruct (Hsets r p Hr) as (symbols&Hsym&Hnd&Hin).
  rewrite (index_nat _ _ _ Hsym). cbn [mbind outcome_bind].
  destruct (processSymbols_spec symbols nodes (map Z.of_nat queue) r p)
    as [[-> ?]|(cs&nodes'&->&Hcs&Hn'&Hs'&Hd')]; try done.
  - by eapply bfs_done_to.
  - apply Forall_forall. intros x Hx. by apply Hin.
  - by left.
  - cbn [mbind outcome_bind]. rewrite <- map_app. apply (IH nodes' (r :: popped)); [done|done| |simpl; lia].
    by eapply (bfs_step nodes).
Qed.
End failure.

(** ** Construction *)

(** What the search relies on. *)
Record searcher_ok (ns : list (list Z)) (s : MultiSearchAndReplacer) (paths : list (list Z)) : Prop := {
  so_needles : needles s = ns;
  so_trie : trie paths;
  so_goto : goto_ok (gTable s) (gMask s) paths;
  so_nodes : nodes_ok ns (length ns) (nodes s) paths;
  so_fail i p : paths !! i = Some p -> p <> [] -> done_ok ns paths (nodes s) i;
  so_states k v : ns !! k = Some v -> v ∈ paths;
  so_free : factor_free ns;
}.

Section construction.
Variables (ns : list (list Z)) (g : gotoGraph) (paths : list (list Z)).
Hypothesis Hg : graph_ok ns (length ns) (length ns) 0 g paths.
Hypothesis Hfree : prefix_free ns.

Let Htrie := graph_trie _ _ _ _ _ _ Hg.

Lemma needle_state k v : ns !! k = Some v -> v ∈ paths.
Proof using Hg.
  intros Hv. destruct (graph_leaves _ _ _ _ _ _ Hg k v) as (_&_&s&node&Hs&_);
    [by eapply lookup_lt_Some|done|]. by eapply list_elem_of_lookup_2.
Qed.

Lemma first_child_done i a : paths !! i = Some [a] -> done_ok ns paths (ggNodes g) i.
Proof using Hg Hfree Htrie.
  intros Hi. destruct (graph_nodes _ _ _ _ _ _ Hg) as [_ Hn]. destruct (Hn i [a] Hi) as (node&Hnode&_).
  pose proof (Forall_lookup_1 _ _ _ _ (graph_f _ _ _ _ _ _ Hg) Hnode) as Hf.
  exists [a], node, 0%nat, []. split; [done|]. split; [done|]. split; [exact Hf|].
  split; [apply Htrie|]. split.
  - split; [eapply list_elem_of_lookup_2; apply Htrie|apply suffix_nil|done|].
    intros q _ Hq Hne. apply suffix_proper_length in Hne; [simpl in *; lia|done].
  - intros k Hk. by apply (proj1 Hfree k []).
Qed.

Lemma bfs_initial symbols cs :
  NoDup symbols -> (forall a, a ∈ symbols <-> [a] ∈ paths) ->
  Forall2 (fun a c => paths !! c = Some [a]) symbols cs -> bfs ns paths (ggNodes g) [] cs.
Proof using Hg Hfree Htrie.
  intros Hnd Hin Hcs. pose proof (children_in paths [] symbols cs) as Hch. split; simpl.
  - by eapply (children_nodup paths []).
  - intros i Hi. destruct (Hch i Hcs Hi) as (a&_&Ha). by eapply first_child_done.
  - intros i Hi. destruct (Hch i Hcs Hi) as (a&_&Ha). exists [], a. split; [done|by left].
  - intros i p Hp Hne. destruct p as [|x k]; [done|].
    assert ([x] ∈ paths) as Hx by (apply (trie_prefixes _ Htrie _ k); by eapply list_elem_of_lookup_2).
    apply Hin, list_elem_of_lookup in Hx as [n Hn].
    destruct (Forall2_lookup_l _ _ _ _ _ Hcs Hn) as (c&Hc&Hcp). apply list_elem_of_lookup_2 in Hc.
    destruct k as [|y k]; [left; by rewrite (trie_inj _ Htrie i c _ Hp Hcp)|].
    right. by exists c, [x], y, k.
  - exists 1%nat, cs, []. rewrite app_nil_r. split; [done|]. split; [|by intros ?? ?%not_elem_of_nil].
    intros i p Hi Hp. destruct (Hch i Hcs Hi) as (a&_&Ha). rewrite Hp in Ha. by injection Ha as ->.
Qed.

(** No needle is a proper suffix of a state. *)
Lemma no_needle_suffix nodes k u p :
  (forall i p, paths !! i = Some p -> p <> [] -> done_ok ns paths nodes i) ->
  ns !! k = Some u -> p ∈ paths -> u `suffix_of` p -> u <> p -> False.
Proof using Hg Hfree.
  intros Hdone Hu. remember (length p) as n eqn:En. revert p En.
  induction n as [n IH] using lt_wf_ind. intros p -> Hp Hs Hne.
  assert (u <> []) as Hun by by eapply (proj1 Hfree).
  assert (p <> []) as Hpn by (intros ->; apply suffix_nil_inv in Hs; done).
  apply list_elem_of_lookup in Hp as [i Hi].
  destruct (Hdone i p Hi Hpn) as (p0&node&j&f&Hp0&_&_&_&[Hfin Hfs Hfne Hfmax]&Hnot).
  rewrite Hi in Hp0. injection Hp0 as <-.
  assert (length u <= length f)%nat as Hl by (apply Hfmax; [by eapply needle_state|done|done]).
  apply (IH (length f)) with f; [by apply suffix_proper_length|done|done| |].
  - destruct (suffix_weak_total u f p Hs Hfs) as [?|Hfu]; [done|].
    by rewrite (suffix_length_eq f u Hfu Hl).
  - intros ->. by apply (Hnot k).
Qed.

Lemma done_factor_free nodes :
  (forall i p, paths !! i = Some p -> p <> [] -> done_ok ns paths nodes i) -> factor_free ns.
Proof using Hg Hfree Htrie.
  intros Hdone. split; [apply Hfree|]. intros i j v w Hij Hv Hw (x&y&E).
  destruct (decide (x = [])) as [->|Hx].
  - simpl in E. assert (v `prefix_of` w) as Hpre by by exists y.
    destruct (decide (i < j)%nat) as [Hlt|Hge].
    + apply (proj2 Hfree i j v w Hlt Hv Hw). by right.
    + apply (proj2 Hfree j i w v ltac:(lia) Hw Hv). by left.
  - apply (no_needle_suffix nodes i v (x ++ v) Hdone Hv).
    + apply (trie_prefixes _ Htrie _ y). rewrite <- app_assoc, <- E. by eapply needle_state.
    + by exists x.
    + intros E'. apply Hx. apply (f_equal length) in E'. rewrite length_app in E'.
      destruct x; [done|simpl in E'; lia].
Qed.
End construction.

Lemma NewMultiSearchAndReplacer_spec ns :
  Forall bytes_ok ns -> zlen (concat ns) < 2 ^ 28 ->
  (NewMultiSearchAndReplacer ns = Err PlainError /\ ~ factor_free ns) \/
  (exists s paths, NewMultiSearchAndReplacer ns = Ok s /\ searcher_ok ns s paths).
Proof.
  intros Hb Hsize. unfold NewMultiSearchAndReplacer.
  change (mkGraph (replicate (Z.to_nat 0x100) 0) 0xff [[]] [zeroNode]) with emptyGraph.
  destruct (addNeedles_spec ns ns 0 emptyGraph [[]] Hb) as [[E Hno]|(g&paths&E&Hg&Hfree)];
    [done|apply emptyGraph_ok|change (zlen [[]]) with 1; lia|done|lia|lia|..]; change (Z.of_nat 0) with 0 in E.
  { left. rewrite E. split; [done|]. intros H. by apply Hno, factor_free_prefix_free. }
  rewrite E. cbn [mbind outcome_bind].
  destruct (graph_sets _ _ _ _ _ _ Hg) as [_ Hsets]. pose proof (graph_trie _ _ _ _ _ _ Hg) as Ht.
  destruct (Hsets 0%nat [] (trie_root _ Ht)) as (symbols&Hsym&Hnd&Hin).
  change 0 with (Z.of_nat 0). rewrite (index_nat _ _ _ Hsym). cbn [mbind outcome_bind].
  destruct (initialQueue_spec ns g paths Hg symbols) as (cs&->&Hcs).
  { apply Forall_forall. intros a Ha. by apply Hin. }
  cbn [mbind outcome_bind].
  pose proof (bfs_initial ns g paths Hg Hfree symbols cs Hnd Hin Hcs) as Hbfs.
  destruct (graph_nodes _ _ _ _ _ _ Hg) as [Hnl _].
  assert ((processQueue ns g (length (ggNodes g)) (ggNodes g) (map Z.of_nat cs) = Err PlainError /\ ~ factor_free ns) \/
    (exists nodes', processQueue ns g (length (ggNodes g)) (ggNodes g) (map Z.of_nat cs) = Ok nodes' /\
     nodes_ok ns (length ns) nodes' paths /\
     forall i p, paths !! i = Some p -> p <> [] -> done_ok ns paths nodes' i)) as [[-> ?]|(nodes'&->&Hn&Hd)].
  { destruct (decide (ns = [])) as [Hns|Hns].
    - right. assert (cs = []) as ->.
      { destruct cs as [|c cs]; [done|]. destruct (bfs_parent _ _ _ _ _ Hbfs c ltac:(by left)) as (p&a&Hc&_).
        destruct (graph_nodes _ _ _ _ _ _ Hg) as [_ Hn]. destruct (Hn _ _ Hc) as (nd&_&_&_&Hx).
        destruct Hx as (idx&w&_&Hidx&_); [by intros [_ ?]%app_nil|]. rewrite Hns in Hidx. simpl in Hidx. lia. }
      exists (ggNodes g). split; [by destruct (length (ggNodes g))|]. split; [apply Hg|].
      intros i p Hp Hne. destruct (bfs_cover _ _ _ _ _ Hbfs i p Hp Hne) as [Hi|(u&?&?&?&Hu&_)];
        by apply not_elem_of_nil in Hi || apply not_elem_of_nil in Hu.
    - apply (processQueue_spec ns g paths Hg Hfree _ _ [] cs Hns); [apply Hg|done|done|simpl; lia]. }
  { by left. }
  right. cbn [mbind outcome_bind]. eexists _, paths. split; [done|].
  split; simpl; [done|done|by eapply Hgoto|done|done|by eapply needle_state|].
  by eapply (done_factor_free ns g paths Hg Hfree).
Qed.
