(* ===== verification/SearchReplace.v ===== *)
(** * Searching and replacing: the reference definition and the theorems

    [replaceAll] states what [SearchAndReplace] means: going through the input
    from left to right, every needle found is replaced, and other bytes are
    copied.  The constructor accepts exactly the needles for which this is
    unambiguous; the search is equal to the reference, except for NUL bytes. *)

From S2P Require Import Prelude SimpleLzw HashTable Search SearchTrie SearchProofs.

(** ** The reference definition *)

(** The needle at the start of [l], and its index. *)
Definition matchNeedle (ns : list (list Z)) (l : list Z) : option (nat * list Z) :=
  list_find (fun v => v `prefix_of` l) ns.

Section reference.
Variables (ns replacements : list (list Z)) (copy : Z -> list Z).

(** [skip] bytes of [l] belong to a needle that was replaced. *)
Fixpoint replaceFrom (skip : nat) (l : list Z) : list Z :=
  match l with
  | [] => []
  | b :: l' =>
      match skip with
      | S skip => replaceFrom skip l'
      | O =>
          match matchNeedle ns l with
          | Some (k, v) => default [] (replacements !! k) ++ replaceFrom (length v - 1) l'
          | None => copy b ++ replaceFrom 0 l'
          end
      end
  end.
End reference.

Definition replaceAll (ns replacements : list (list Z)) (l : list Z) : list Z :=
  replaceFrom ns replacements (fun b => [b]) 0 l.

(** The same without the NUL bytes that are not part of a needle. *)
Definition replaceAllDroppingNul (ns replacements : list (list Z)) (l : list Z) : list Z :=
  replaceFrom ns replacements (fun b => if b =? 0 then [] else [b]) 0 l.

(** ** Sequences of writes *)

Section writes.
Context {W : Type} `{!Writer W}.

(** Writing chunks up to the first error, then returning [res]. *)
Fixpoint writeAll {R} (w : W) (chunks : list (list Z)) (res : outcome R) : W * outcome R :=
  match chunks with
  | [] => (w, res)
  | chunk :: chunks => afterWrite w chunk (fun w => writeAll w chunks res)
  end.

Lemma writeAll_bind {R R'} (chunks chunks' : list (list Z)) (x : R) (res : outcome R') w
    (k : W -> R -> W * outcome R') :
  (forall w, k w x = writeAll w chunks' res) ->
  match writeAll w chunks (Ok x) with
  | (w, Ok x) => k w x
  | (w, Err e) => (w, Err e)
  | (w, Panic) => (w, Panic)
  end = writeAll w (chunks ++ chunks') res.
Proof.
  intros Hk. revert w. induction chunks as [|c chunks IH]; intros w; simpl; [apply Hk|].
  unfold afterWrite. destruct (Write w c) as [w' [e|]]; [done|]. apply IH.
Qed.
End writes.

Lemma writeAll_buffer {R} (w : list Z) chunks (res : outcome R) :
  writeAll w chunks res = (w ++ concat chunks, res).
Proof.
  revert w. induction chunks as [|c chunks IH]; intros w; [simpl; by rewrite app_nil_r|].
  cbn [writeAll]. unfold afterWrite. change (Write w c) with (w ++ c, @None error). cbv beta iota.
  rewrite IH. simpl. by rewrite <- app_assoc.
Qed.

(** ** The reference on needles that can be told apart *)

Section replace.
Variables (ns replacements : list (list Z)) (copy : Z -> list Z).
Hypothesis Hfree : factor_free ns.

Abbreviation replace := (replaceFrom ns replacements copy).

Lemma replaceFrom_skip n l : replace n l = replace 0 (drop n l).
Proof using Type.
  revert l. induction n as [|n IH]; intros [|b l]; try done. apply IH.
Qed.

Lemma matchNeedle_unique k v l :
  ns !! k = Some v -> v `prefix_of` l -> matchNeedle ns l = Some (k, v).
Proof using Hfree.
  intros Hk Hp. unfold matchNeedle. apply list_find_Some. split; [done|]. split; [done|].
  intros j w Hj Hlt Hw. destruct (prefix_weak_total v w l Hp Hw) as [[t ->]|[t ->]].
  - apply (proj2 Hfree k j v (v ++ t)); [lia|done|done|]. by exists [], t.
  - apply (proj2 Hfree j k w (w ++ t)); [lia|done|done|]. by exists [], t.
Qed.

Lemma replaceFrom_match k v replacement l :
  ns !! k = Some v -> replacements !! k = Some replacement ->
  replace 0 (v ++ l) = replacement ++ replace 0 l.
Proof using Hfree.
  intros Hk Hr. assert (v <> []) as Hne by by eapply (proj1 Hfree).
  pose proof (matchNeedle_unique k v (v ++ l) Hk ltac:(by exists l)) as Hm.
  destruct v as [|b v]; [done|]. simpl app in *. cbn [replaceFrom]. rewrite Hm, Hr. simpl default.
  rewrite replaceFrom_skip. f_equal. f_equal. simpl. by rewrite Nat.sub_0_r, drop_app_length.
Qed.

Lemma replaceFrom_copy q l :
  (forall i k v, (i < length q)%nat -> ns !! k = Some v -> ~ v `prefix_of` drop i q ++ l) ->
  replace 0 (q ++ l) = concat (map copy q) ++ replace 0 l.
Proof using Type.
  induction q as [|b q IH]; intros Hno; [done|]. simpl app. cbn [replaceFrom].
  assert (matchNeedle ns (b :: q ++ l) = None) as ->.
  { apply list_find_None, Forall_forall. intros v Hv Hp. apply list_elem_of_lookup in Hv as [k Hk].
    apply (Hno 0%nat k v); [simpl; lia|done|done]. }
  simpl. rewrite <- app_assoc. f_equal. apply IH. intros i k v Hi. apply (Hno (S i) k v). simpl. lia.
Qed.
End replace.

(** ** The search *)

Section search.
Variables (ns replacements : list (list Z)) (copy : Z -> list Z) (s : MultiSearchAndReplacer) (paths : list (list Z)).
Hypothesis Hs : searcher_ok ns s paths.
Hypothesis Hrep : (length ns <= length replacements)%nat.

Let Htrie := so_trie _ _ _ Hs.
Let Hfree := so_free _ _ _ Hs.

Abbreviation replace := (replaceFrom ns replacements copy).

(** Bytes that are copied as the program copies them. *)
Definition copied (a : Z) : Prop :=
  is_u8 a /\ (a <> 0 -> copy a = [a]) /\ (forall p, p ++ [a] ∈ paths -> copy a = [a]) /\
  (a = 0 -> [0] ∉ paths -> copy 0 = [] /\ ns <> []).

Definition partial (q : list Z) : Prop :=
  q ∈ paths /\ (forall k, ns !! k <> Some q) /\ Forall (fun b => copy b = [b]) q.

Lemma copies_self q : Forall (fun b => copy b = [b]) q -> concat (map copy q) = q.
Proof using All. induction 1 as [|b q Hb _ IH]; [done|]. simpl. by rewrite Hb, IH. Qed.

Lemma state_needle i q :
  ns <> [] -> paths !! i = Some q -> exists node k needle, nodes s !! i = Some node /\
    needleIndex node = Z.of_nat k /\ ns !! k = Some needle /\ index ns (needleIndex node) = Ok needle /\
    q `prefix_of` needle /\ needleLength node = zlen q /\ (zlen needle = needleLength node <-> q = needle).
Proof using All.
  intros Hns Hi. destruct (node_needle ns paths (nodes s) i q Hns (so_nodes _ _ _ Hs) Hi)
    as (node&k&needle&?&?&?&?&?&?&?&?). exists node, k, needle. done.
Qed.

Lemma state_nonempty i q : paths !! i = Some q -> q <> [] -> ns <> [].
Proof using All.
  intros Hi Hq ->. destruct (so_nodes _ _ _ Hs) as [_ Hn]. destruct (Hn i q Hi) as (nd&_&_&_&Hx).
  destruct (Hx Hq) as (idx&w&_&Hidx&_). simpl in Hidx. lia.
Qed.

(** A needle does not occur within a state that is not its end. *)
Lemma no_needle_inside q k u x y :
  q ∈ paths -> (forall k, ns !! k <> Some q) -> ns !! k = Some u -> q = x ++ u ++ y -> False.
Proof using All.
  intros Hq Hnot Hu E. apply list_elem_of_lookup in Hq as [i Hi].
  assert (q <> []) as Hqne.
  { intros ->. pose proof (proj1 Hfree _ _ Hu) as Hun. symmetry in E. apply app_nil in E as [_ E].
    by apply app_nil in E as [E _]. }
  destruct (state_needle i q (state_nonempty i q Hi Hqne) Hi) as (nd&j&w&_&_&Hw&_&[t Ht]&_).
  destruct (decide (k = j)) as [->|Hkj].
  - rewrite Hu in Hw. injection Hw as ->. rewrite E in Ht. pose proof (f_equal length Ht) as Hl.
    rewrite !length_app in Hl. assert (x = [] /\ y = [] /\ t = []) as (->&->&->).
    { destruct x, y, t; simpl in Hl; try lia; done. }
    apply (Hnot j). rewrite E. simpl. by rewrite app_nil_r.
  - apply (proj2 Hfree k j u w Hkj Hu Hw). exists x, (y ++ t). rewrite Ht, E. by rewrite <- !app_assoc.
Qed.

(** Leaving a state for its failure state skips no occurrence. *)
Lemma fail_copies i q f a l :
  paths !! i = Some q -> partial q -> lps paths q f -> q ++ [a] ∉ paths ->
  replace 0 (q ++ a :: l) = take (length q - length f) q ++ replace 0 (f ++ a :: l).
Proof using All.
  intros Hi (Hq&Hnot&Hcopy) [Hfin [d Hd] Hfne Hfmax] Hno. rewrite Hd at 1. rewrite <- app_assoc.
  assert (take (length q - length f) q = d) as ->.
  { rewrite Hd, length_app, Nat.add_sub. by rewrite take_app_length. }
  rewrite replaceFrom_copy.
  - f_equal. apply copies_self. rewrite Hd in Hcopy. by apply Forall_app in Hcopy as [? _].
  - intros n k u Hn Hu Hpre. rewrite app_assoc in Hpre.
    assert (drop n q = drop n d ++ f) as Hdq by (rewrite Hd, drop_app_le; [done|lia]).
    rewrite <- Hdq in Hpre.
    destruct (prefix_weak_total u (drop n q) (drop n q ++ a :: l) Hpre ltac:(by exists (a :: l))) as [[y Hy]|[y Hy]].
    + apply (no_needle_inside q k u (take n q) y Hq Hnot Hu). rewrite <- Hy. by rewrite take_drop.
    + destruct y as [|x y].
      { apply (no_needle_inside q k u (take n q) [] Hq Hnot Hu). rewrite app_nil_r in Hy.
        rewrite Hy, app_nil_r. by rewrite take_drop. }
      assert (x = a) as ->.
      { destruct Hpre as [z Hz]. rewrite Hy, <- app_assoc in Hz. apply app_inv_head in Hz. by injection Hz. }
      assert (u ∈ paths) as Huin by by eapply so_states.
      assert (drop n q ++ [a] ∈ paths) as Hda.
      { apply (trie_prefixes _ Htrie _ y). rewrite <- app_assoc. simpl. by rewrite <- Hy. }
      destruct (decide (n = 0%nat)) as [->|Hn0]; [by rewrite drop_0 in Hda|].
      assert (length (drop n q) <= length f)%nat as Hle.
      { apply Hfmax; [by eapply trie_prefix| |].
        - exists (take n q). by rewrite take_drop.
        - intros E. apply (f_equal length) in E. rewrite length_drop in E.
          rewrite Hd, length_app in E. lia. }
      rewrite length_drop, Hd, length_app in Hle. lia.
Qed.
(** What probing for the edge of a state finds. *)
Lemma probe_edge st q a :
  paths !! st = Some q -> 0 <= a < 256 ->
  probeLoop (length (gTable s))
    (fun gStateA =>
       if Z.shiftr gStateA maximumStateBits =? gotoKey (Z.of_nat st) a then Some (Some (gotoState gStateA))
       else if gStateA =? 0 then Some None else None)
    (gTable s) (gMask s) (hashKey (gotoKey (Z.of_nat st) a)) 1 =
  Ok (match list_find (fun p => p = q ++ [a]) paths with
      | Some (j, _) => Some (Z.of_nat j)
      | None => if bool_decide (st = 0%nat /\ a = 0) then Some 0 else None
      end).
Proof using All.
  intros Hq Ha. destruct (so_goto _ _ _ Hs st q a Hq Ha) as (e&Hcase&Hloop). apply Hloop.
  - intros e' Hz Hk. change maximumStateBits with compressMaximumCodeBits.
    rewrite (proj2 (Z.eqb_neq _ _)) by done. by rewrite (proj2 (Z.eqb_neq e' 0)).
  - destruct Hcase as [(j&Hj&Hnz&Hst&Hkey)|[Hno ->]].
    + rewrite Hkey, Z.eqb_refl, Hst.
      assert (list_find (fun p => p = q ++ [a]) paths = Some (j, q ++ [a])) as ->; [|done].
      apply list_find_Some. split; [done|]. split; [done|]. intros i p Hi Hlt ->.
      pose proof (trie_inj _ Htrie _ _ _ Hi Hj). lia.
    + assert (list_find (fun p => p = q ++ [a]) paths = None) as ->.
      { apply list_find_None, Forall_forall. by intros p Hp ->. }
      pose proof (trie_index _ Htrie _ _ Hq). rewrite gotoKey_value by lia.
      change (Z.shiftr 0 maximumStateBits) with 0. change (gotoState 0) with 0.
      case_bool_decide as Hc.
      * destruct Hc as [-> ->]. done.
      * rewrite (proj2 (Z.eqb_neq 0 _)) by lia. done.
Qed.

Lemma partial_root : partial [].
Proof using All.
  split; [eapply list_elem_of_lookup_2; apply Htrie|]. split; [|done].
  intros k Hk. by apply (proj1 Hfree k []).
Qed.

Lemma no_match_at_root a l :
  [a] ∉ paths -> replace 0 (a :: l) = copy a ++ replace 0 l.
Proof using All.
  intros Hno. change (a :: l) with ([a] ++ l). rewrite replaceFrom_copy; [simpl; by rewrite app_nil_r|].
  intros i k v Hi Hv Hp. destruct i; [|simpl in Hi; lia]. simpl in Hp.
  pose proof (proj1 Hfree k v Hv) as Hne. destruct v as [|b v]; [done|].
  assert (b = a) as -> by (destruct Hp as [z Hz]; by injection Hz).
  apply Hno, (trie_prefixes _ Htrie [a] v). by eapply so_states.
Qed.

(** What a byte does: the chunks written, and the state that is reached. *)
Definition byte_step (fuel st : nat) (q : list Z) (a : Z) : Prop :=
  exists chunks st' q',
    (forall W `(Writer W) (w : W), searchByte s replacements fuel w (Z.of_nat st) a
                                   = writeAll w chunks (Ok (Z.of_nat st'))) /\
    paths !! st' = Some q' /\ partial q' /\
    forall l, replace 0 (q ++ a :: l) = concat chunks ++ replace 0 (q' ++ l).

(** The byte continues the needle. *)
Lemma searchByte_found fuel st q a j :
  partial q -> copied a -> paths !! j = Some (q ++ [a]) ->
  probeLoop (length (gTable s))
    (fun gStateA =>
       if Z.shiftr gStateA maximumStateBits =? gotoKey (Z.of_nat st) a then Some (Some (gotoState gStateA))
       else if gStateA =? 0 then Some None else None)
    (gTable s) (gMask s) (hashKey (gotoKey (Z.of_nat st) a)) 1 = Ok (Some (Z.of_nat j)) ->
  byte_step (S fuel) st q a.
Proof using All.
  intros Hpart (Ha&Hc1&Hc2&Hc0) Hj Hprobe.
  assert (ns <> []) as Hns by (eapply state_nonempty; [exact Hj|by intros [_ ?]%app_nil]).
  destruct (state_needle j _ Hns Hj) as (node&k&needle&Hnode&Hk&Hneedle&Hix&Hpre&Hlen&Hterm).
  destruct (decide (q ++ [a] = needle)) as [Heq|Hneq].
  - destruct (lookup_lt_is_Some_2 replacements k) as [rep Hr];
      [apply lookup_lt_Some in Hneedle; lia|].
    exists [rep], 0%nat, []. split; [|split; [apply Htrie|split; [apply partial_root|]]].
    + intros W HW w. cbn [searchByte]. rewrite Hprobe, (index_nat _ _ _ Hnode). cbn [mbind outcome_bind].
      rewrite (so_needles _ _ _ Hs), Hix. cbn [mbind outcome_bind].
      rewrite (proj2 (Z.eqb_eq _ _)) by by apply Hterm. rewrite Hk, (index_nat _ _ _ Hr). done.
    + intros l. simpl. rewrite app_nil_r. replace (q ++ a :: l) with (needle ++ l)
        by (rewrite <- Heq, <- app_assoc; done). by apply (replaceFrom_match ns replacements copy Hfree k).
  - exists [], j, (q ++ [a]). split; [|split; [done|split; [split|]]].
    + intros W HW w. cbn [searchByte]. rewrite Hprobe, (index_nat _ _ _ Hnode). cbn [mbind outcome_bind].
      rewrite (so_needles _ _ _ Hs), Hix. cbn [mbind outcome_bind].
      rewrite (proj2 (Z.eqb_neq _ _)) by by rewrite Hterm. done.
    + by eapply list_elem_of_lookup_2.
    + split; [|apply Forall_app; split; [apply Hpart|constructor; [|constructor]]].
      * intros k' Hk'. apply Hneq. destruct (decide (k' = k)) as [->|Hkk]; [congruence|].
        exfalso. destruct Hpre as [t Ht]. by apply (proj2 Hfree k' k _ _ Hkk Hk' Hneedle); exists [], t.
      * apply (Hc2 q). by eapply list_elem_of_lookup_2.
    + intros l. simpl. by rewrite <- app_assoc.
Qed.

(** The byte starts no needle. *)
Lemma searchByte_root fuel a :
  copied a -> [a] ∉ paths -> byte_step (S fuel) 0 [] a.
Proof using All.
  intros (Ha&Hc1&Hc2&Hc0) Hno. pose proof (probe_edge 0%nat [] a (trie_root _ Htrie) Ha) as Hprobe.
  assert (list_find (fun p => p = [] ++ [a]) paths = None) as Hf.
  { apply list_find_None, Forall_forall. by intros p Hp ->. }
  rewrite Hf in Hprobe. destruct (decide (a = 0)) as [->|Ha0].
  - destruct (Hc0 eq_refl Hno) as [Hcopy0 Hns]. exists [], 0%nat, [].
    rewrite bool_decide_true in Hprobe by done.
    destruct (state_needle 0%nat [] Hns (trie_root _ Htrie)) as (node&k&needle&Hnode&Hk&Hneedle&Hix&_&Hlen&Hterm).
    split; [|split; [apply Htrie|split; [apply partial_root|]]].
    + intros W HW w. cbn [searchByte]. rewrite Hprobe. cbv beta iota.
      pose proof (index_nat _ _ _ Hnode) as Hn0. change (Z.of_nat 0) with 0 in Hn0. rewrite Hn0. cbn [mbind outcome_bind].
      rewrite (so_needles _ _ _ Hs), Hix. cbn [mbind outcome_bind].
      rewrite (proj2 (Z.eqb_neq _ _)); [done|]. intros E. apply Hterm in E. subst needle.
      by apply (proj1 Hfree k []).
    + intros l. simpl app. rewrite no_match_at_root by done. by rewrite Hcopy0.
  - exists [[a]], 0%nat, []. rewrite bool_decide_false in Hprobe by (intros [_ ?]; done).
    split; [|split; [apply Htrie|split; [apply partial_root|]]].
    + intros W HW w. cbn [searchByte]. rewrite Hprobe. done.
    + intros l. simpl app. rewrite no_match_at_root by done. by rewrite Hc1.
Qed.

Lemma searchByte_spec fuel st q a :
  paths !! st = Some q -> partial q -> copied a -> (length q < fuel)%nat -> byte_step fuel st q a.
Proof using All.
  intros Hq Hpart Hc. revert st q Hq Hpart. induction fuel as [|fuel IH]; intros st q Hq Hpart Hfuel; [lia|].
  pose proof (probe_edge st q a Hq (proj1 Hc)) as Hprobe.
  destruct (list_find _ paths) as [[j p]|] eqn:Hfind.
  { apply list_find_Some in Hfind as (Hj&->&_). by eapply searchByte_found. }
  assert (q ++ [a] ∉ paths) as Hno.
  { intros Hin. apply list_find_None in Hfind. rewrite Forall_forall in Hfind. by apply (Hfind _ Hin). }
  destruct (decide (st = 0%nat)) as [->|Hst].
  { rewrite (trie_root _ Htrie) in Hq. injection Hq as <-. by apply searchByte_root. }
  rewrite bool_decide_false in Hprobe by (intros [? _]; done).
  assert (q <> []) as Hqne by (intros ->; apply Hst; by eapply (trie_inj _ Htrie); [|apply Htrie]).
  assert (ns <> []) as Hns by by eapply state_nonempty.
  destruct (state_needle st q Hns Hq) as (node&k&needle&Hnode&Hk&Hneedle&Hix&[t Hpre]&Hlen&_).
  destruct (so_fail _ _ _ Hs st q Hq Hqne) as (q0&node'&j&f&Hq0&Hnode'&Hf&Hj&Hlps&Hnotf).
  rewrite Hq in Hq0. injection Hq0 as <-. rewrite Hnode in Hnode'. injection Hnode' as <-.
  destruct (state_needle j f Hns Hj) as (nodej&kj&needlej&Hnodej&_&_&_&_&Hlenj&_).
  pose proof (suffix_proper_length _ _ (lps_suffix _ _ _ Hlps) (lps_proper _ _ _ Hlps)) as Hlt.
  destruct (lps_suffix _ _ _ Hlps) as [d Hd].
  assert (partial f) as Hpf.
  { split; [apply Hlps|]. split; [done|]. destruct Hpart as (_&_&Hcp). rewrite Hd in Hcp.
    by apply Forall_app in Hcp as [_ ?]. }
  destruct (IH j f Hj Hpf ltac:(lia)) as (chunks&st'&q'&Hrun&Hq'&Hpart'&Hl).
  assert (take (length q - length f) q = d) as Htake
    by (rewrite Hd, length_app, Nat.add_sub; apply take_app_length).
  exists (d :: chunks), st', q'. split; [|split; [done|split; [done|]]].
  - intros W HW w. cbn [searchByte]. rewrite Hprobe. rewrite (proj2 (Z.eqb_neq (Z.of_nat st) 0)) by lia.
    rewrite (index_nat _ _ _ Hnode). cbn [mbind outcome_bind]. rewrite Hf, (index_nat _ _ _ Hnodej).
    cbn [mbind outcome_bind]. rewrite (so_needles _ _ _ Hs), Hix. cbn [mbind outcome_bind].
    assert (slice needle 0 (u32 (needleLength node - needleLength nodej)) = Ok d) as ->.
    { rewrite Hpre, Hd, <- app_assoc. apply slice_prefix. rewrite Hlen, Hlenj, Hd.
      pose proof (trie_depth _ Htrie q ltac:(by eapply list_elem_of_lookup_2)) as Hdep.
      pose proof (trie_size _ Htrie). rewrite Hd, length_app in Hdep. unfold zlen in *. rewrite length_app.
      unfold u32. rewrite Z.mod_small; lia. }
    cbn [mbind outcome_bind writeAll]. unfold afterWrite. destruct (Write w d) as [w' [e|]]; [done|]. apply Hrun.
  - intros l. rewrite (fail_copies st q f a l) by done. rewrite Hl, Htake. simpl. by rewrite <- app_assoc.
Qed.

Lemma state_copies q : partial q -> replace 0 q = q.
Proof using All.
  intros (Hq&Hnot&Hc). rewrite <- (app_nil_r q) at 1. rewrite replaceFrom_copy.
  - simpl. rewrite app_nil_r. by apply copies_self.
  - intros i k v Hi Hv. rewrite app_nil_r. intros [y Hy].
    apply (no_needle_inside q k v (take i q) y Hq Hnot Hv). rewrite <- Hy. by rewrite take_drop.
Qed.

Lemma flushMatch_spec st q :
  paths !! st = Some q ->
  forall W `(Writer W) (w : W), flushMatch s w (Z.of_nat st) =
    writeAll w (match q with [] => [] | _ => [q] end) (Ok tt).
Proof using All.
  intros Hq W HW w. unfold flushMatch. destruct (Z.eqb_spec (Z.of_nat st) 0) as [E|E].
  - assert (st = 0%nat) as -> by lia. rewrite (trie_root _ Htrie) in Hq. injection Hq as <-. done.
  - assert (q <> []) as Hqne.
    { intros ->. apply E. by rewrite (trie_inj _ Htrie st 0 [] Hq (trie_root _ Htrie)). }
    destruct (state_needle st q (state_nonempty st q Hq Hqne) Hq)
      as (node&k&needle&Hnode&Hk&Hneedle&Hix&[t ->]&Hlen&_).
    rewrite (index_nat _ _ _ Hnode). cbn [mbind outcome_bind].
    rewrite (so_needles _ _ _ Hs), Hix. cbn [mbind outcome_bind].
    rewrite (slice_prefix q t) by done. by destruct q.
Qed.

(** The calls of [Write] that a search makes: [rest] is written at the end of
    the input, and not when the reader fails. *)
Lemma searchBytes_spec src st q :
  paths !! st = Some q -> partial q -> Forall copied src ->
  exists chunks rest, concat chunks ++ rest = replace 0 (q ++ src) /\
    forall W `(Writer W) (w : W),
      searchBytes s replacements w (Z.of_nat st) src EOF
        = writeAll w (chunks ++ match rest with [] => [] | _ => [rest] end) (Ok tt) /\
      forall e, e <> EOF -> searchBytes s replacements w (Z.of_nat st) src e = writeAll w chunks (Err e).
Proof using All.
  intros Hq Hpart Hsrc. revert st q Hq Hpart. induction Hsrc as [|a src Ha _ IH]; intros st q Hq Hpart.
  - exists [], q. rewrite app_nil_r, state_copies by done. split; [done|]. intros W HW w. cbn [searchBytes].
    split; [by apply flushMatch_spec|]. intros e He. by rewrite decide_False.
  - destruct (searchByte_spec (S (length (nodes s))) st q a Hq Hpart Ha)
      as (chunks1&st1&q1&Hrun1&Hq1&Hp1&Hl1).
    { rewrite (proj1 (so_nodes _ _ _ Hs)).
      pose proof (trie_depth _ Htrie q ltac:(by eapply list_elem_of_lookup_2)). lia. }
    destruct (IH st1 q1 Hq1 Hp1) as (chunks&rest&Hrest&Hrun). exists (chunks1 ++ chunks), rest.
    split; [by rewrite Hl1, <- Hrest, concat_app, <- app_assoc|]. intros W HW w. cbn [searchBytes].
    rewrite (Hrun1 W HW). rewrite <- app_assoc. split.
    + apply (writeAll_bind chunks1 _ _ _ w (fun w st => searchBytes s replacements w st src EOF)).
      intros w'. apply Hrun.
    + intros e He. apply (writeAll_bind chunks1 _ _ _ w (fun w st => searchBytes s replacements w st src e)).
      intros w'. by apply Hrun.
Qed.
End search.

(** ** Deciding which needles can be told apart *)

#[global] Instance factor_dec : RelDecision factor.
Proof.
  intros v w. destruct (decide (Exists (fun i => v `prefix_of` drop i w) (seq 0 (S (length w))))) as [H|H]; [left|right].
  - apply Exists_exists in H as (i&_&[y Hy]). exists (take i w), y. rewrite <- Hy. by rewrite take_drop.
  - intros (x&y&E). apply H, Exists_exists. exists (length x). split.
    + apply elem_of_seq. rewrite E, length_app. lia.
    + exists y. by rewrite E, drop_app_length.
Defined.

#[global] Instance factor_free_dec ns : Decision (factor_free ns).
Proof.
  destruct (decide (Forall (fun v => v <> []) ns /\
    Forall (fun i => Forall (fun j => i = j \/ match ns !! i, ns !! j with
      | Some v, Some w => bool_decide (~ factor v w) | _, _ => true end = true) (seq 0 (length ns))) (seq 0 (length ns)))) as [H|H]; [left|right].
  - destruct H as [Hne Hf]. split; [intros i v Hv; by eapply (Forall_lookup_1 _ _ _ _ Hne)|].
    intros i j v w Hij Hi Hj. rewrite Forall_forall in Hf.
    specialize (Hf i ltac:(apply elem_of_seq; apply lookup_lt_Some in Hi; lia)). rewrite Forall_forall in Hf.
    destruct (Hf j ltac:(apply elem_of_seq; apply lookup_lt_Some in Hj; lia)) as [?|Hno]; [done|].
    rewrite Hi, Hj in Hno. by apply bool_decide_eq_true in Hno.
  - intros [Hne Hf]. apply H. split.
    + apply Forall_lookup_2. intros i v. apply Hne.
    + apply Forall_forall. intros i _. apply Forall_forall. intros j _.
      destruct (decide (i = j)); [by left|right]. destruct (ns !! i) eqn:Ei, (ns !! j) eqn:Ej; [|done..].
      apply bool_decide_eq_true. by apply (Hf i j).
Defined.

(** ** The theorems *)

(** The constructor accepts a list of needles exactly when no needle is
    empty or occurs in another one, at whatever position; otherwise it returns
    an error.  It never panics, and its probing loops, failure loops and queue
    end: the fuel of the model suffices. *)
Theorem NewMultiSearchAndReplacer_accepts ns :
  Forall bytes_ok ns -> zlen (concat ns) < 2 ^ 28 ->
  (factor_free ns -> exists s, NewMultiSearchAndReplacer ns = Ok s) /\
  (~ factor_free ns -> NewMultiSearchAndReplacer ns = Err PlainError).
Proof.
  intros Hb Hsize.
  destruct (NewMultiSearchAndReplacer_spec ns Hb Hsize) as [[E Hno]|(s&paths&E&Hs)]; split; intros H.
  - done.
  - done.
  - by exists s.
  - destruct H. by apply Hs.
Qed.

Lemma NewMultiSearchAndReplacer_accepts_witness :
  (exists s, NewMultiSearchAndReplacer [[1; 2; 3; 1; 2; 4]; [2; 3; 5]; [3; 1; 2; 2]] = Ok s) /\
  NewMultiSearchAndReplacer [[1; 2; 3; 4]; [2; 3]] = Err PlainError.
Proof.
  split.
  - apply (NewMultiSearchAndReplacer_accepts [[1; 2; 3; 1; 2; 4]; [2; 3; 5]; [3; 1; 2; 2]]).
    + repeat (constructor; [literal_bytes|]). constructor.
    + reflexivity.
    + by apply (bool_decide_unpack _).
  - apply (NewMultiSearchAndReplacer_accepts [[1; 2; 3; 4]; [2; 3]]).
    + repeat (constructor; [literal_bytes|]). constructor.
    + reflexivity.
    + by apply (bool_decide_unpack (~ _)).
Defined.

(** C36: For every searcher that was constructed, if the input has no NUL bytes or some
    needle starts with a NUL byte,
    [SearchAndReplace] makes a sequence of calls of [Write] whose data is what
    the reference definition gives, and returns the first error of the writer,
    if any.  When the reader fails, its error is returned, and only data of
    which [rest] is the remainder was written.  The condition is needed: without it
    NUL bytes of the input are lost (see [SearchAndReplace_drops_nul]). *)
Theorem SearchAndReplace_reference ns s replacements src :
  Forall bytes_ok ns -> zlen (concat ns) < 2 ^ 28 -> NewMultiSearchAndReplacer ns = Ok s ->
  (length ns <= length replacements)%nat -> bytes_ok src ->
  0 ∉ src \/ Exists (fun v => head v = Some 0) ns ->
  exists chunks rest, concat chunks ++ rest = replaceAll ns replacements src /\
    forall W `(Writer W) (w : W),
      SearchAndReplace s replacements w src EOF
        = writeAll w (chunks ++ match rest with [] => [] | _ => [rest] end) (Ok tt) /\
      forall e, e <> EOF -> SearchAndReplace s replacements w src e = writeAll w chunks (Err e).
Proof.
  intros Hb Hsize Hnew Hrep Hsrc Hnul.
  destruct (NewMultiSearchAndReplacer_spec ns Hb Hsize) as [[E _]|(s'&paths&E&Hs)]; [congruence|].
  rewrite Hnew in E. injection E as <-.
  apply (searchBytes_spec ns replacements (fun b => [b]) s paths Hs Hrep src 0 []);
    [apply Hs|by eapply partial_root|].
  apply Forall_forall. intros a Ha. unfold bytes_ok in Hsrc. rewrite Forall_forall in Hsrc.
  split_and!; [by apply Hsrc|done|done|]. intros -> Hno. exfalso. destruct Hnul as [?|Hex]; [done|].
  apply Exists_exists in Hex as (v&Hv&Hhead). destruct v as [|b v]; [done|]. injection Hhead as ->.
  apply list_elem_of_lookup in Hv as [k Hk]. apply Hno, (trie_prefixes _ (so_trie _ _ _ Hs) [0] v).
  by eapply so_states.
Qed.

Definition search_needles : list (list Z) := [[1; 2; 3; 1; 2; 4]; [2; 3; 5]; [3; 1; 2; 2]].
Definition search_input : list Z := [1; 2; 3; 1; 2; 3; 1; 2; 4; 1; 2; 3; 5; 1; 2; 3; 1; 2; 2; 7; 3; 1].

Lemma SearchAndReplace_reference_witness :
  replaceAll search_needles [[100]; [200]; [210]] search_input
    = [1; 2; 3; 100; 1; 200; 1; 2; 210; 7; 3; 1] /\
  exists s, NewMultiSearchAndReplacer search_needles = Ok s /\
    exists chunks rest, concat chunks ++ rest = replaceAll search_needles [[100]; [200]; [210]] search_input /\
    forall W `(Writer W) (w : W),
      SearchAndReplace s [[100]; [200]; [210]] w search_input EOF
        = writeAll w (chunks ++ match rest with [] => [] | _ => [rest] end) (Ok tt) /\
      forall e, e <> EOF -> SearchAndReplace s [[100]; [200]; [210]] w search_input e = writeAll w chunks (Err e).
Proof.
  split; [reflexivity|]. destruct (NewMultiSearchAndReplacer search_needles) as [s| |] eqn:E;
    [|vm_compute in E; discriminate E..].
  exists s. split; [reflexivity|]. apply (SearchAndReplace_reference search_needles s).
  - repeat (constructor; [literal_bytes|]). constructor.
  - reflexivity.
  - exact E.
  - simpl. lia.
  - literal_bytes.
  - left. by apply (bool_decide_unpack (0 ∉ search_input)).
Defined.

(** NUL bytes get lost.  The entry of an empty slot is zero, which is also
    the key of the edge from the initial state on a NUL byte, and the search
    compares keys before it tests for an empty slot.  When no needle contains
    a NUL byte, the output is that of the reference definition with all NUL
    bytes of the input deleted. *)
Theorem SearchAndReplace_drops_nul ns s replacements src (w : list Z) :
  Forall bytes_ok ns -> zlen (concat ns) < 2 ^ 28 -> NewMultiSearchAndReplacer ns = Ok s ->
  (length ns <= length replacements)%nat -> bytes_ok src ->
  ns <> [] -> Forall (fun v => 0 ∉ v) ns ->
  SearchAndReplace s replacements w src EOF = (w ++ replaceAllDroppingNul ns replacements src, Ok tt).
Proof.
  intros Hb Hsize Hnew Hrep Hsrc Hns Hnul.
  destruct (NewMultiSearchAndReplacer_spec ns Hb Hsize) as [[E _]|(s'&paths&E&Hs)]; [congruence|].
  rewrite Hnew in E. injection E as <-.
  destruct (searchBytes_spec ns replacements (fun b => if b =? 0 then [] else [b]) s paths Hs Hrep src 0 [])
    as (chunks&rest&Hrest&Hrun); [apply Hs|by eapply partial_root| |].
  - apply Forall_forall. intros a Ha. unfold bytes_ok in Hsrc. rewrite Forall_forall in Hsrc.
    split_and!; [by apply Hsrc|intros; by rewrite (proj2 (Z.eqb_neq _ _))| |done].
    intros p Hp. rewrite (proj2 (Z.eqb_neq _ _)); [done|]. intros ->.
    apply list_elem_of_lookup in Hp as [i Hi].
    destruct (state_needle ns replacements (fun b => [b]) s paths Hs Hrep i _ Hns Hi) as (_&k&v&_&_&Hv&_&[t ->]&_).
    apply (Forall_lookup_1 _ _ _ _ Hnul) in Hv. apply Hv. rewrite !elem_of_app. left. right. by left.
  - unfold SearchAndReplace. change 0 with (Z.of_nat 0). rewrite (proj1 (Hrun _ _ w)), writeAll_buffer.
    do 2 f_equal. unfold replaceAllDroppingNul. simpl in Hrest. rewrite <- Hrest, concat_app. f_equal.
    destruct rest; [done|]. simpl. by rewrite app_nil_r.
Qed.

Lemma SearchAndReplace_drops_nul_witness :
  replaceAll [[97]] [[98]] [97; 0; 99] = [98; 0; 99] /\
  exists s, NewMultiSearchAndReplacer [[97]] = Ok s /\
    SearchAndReplace s [[98]] [] [97; 0; 99] EOF = ([98; 99], Ok tt).
Proof.
  split; [reflexivity|]. destruct (NewMultiSearchAndReplacer [[97]]) as [s| |] eqn:E;
    [|vm_compute in E; discriminate E..].
  exists s. split; [reflexivity|]. apply (SearchAndReplace_drops_nul [[97]] s [[98]] [97; 0; 99] []).
  - repeat (constructor; [literal_bytes|]). constructor.
  - reflexivity.
  - exact E.
  - simpl. lia.
  - literal_bytes.
  - done.
  - by apply (bool_decide_unpack (Forall (fun v => 0 ∉ v) [[97]])).
Defined.
